(* ===== verification/_CoqProject ===== *)
-Q . S2P
Prelude.v
Bytes.v
Rlp.v
Types.v
Params.v
Misc.v
BreakGlass.v
Snapshot.v
Clique.v
Authority.v
Powhash.v
Posa.v
ForkChoice.v
Text.v
Heap.v
Transaction.v
TxList.v
TxListRefine.v
TxPriced.v
TrieKeys.v
Trie.v
TrieMap.v
TrieHash.v
TrieRefine.v
TrieNode.v
TrieProof.v
StateDB.v
StateRevert.v
StateHistory.v
EvmAnalysis.v
EvmTable.v
Evm.v
EvmGas.v
EvmState.v
EvmViews.v
EvmTotal.v
EvmSafety.v
StateTransition.v
Receipts.v
Processor.v
TxPool.v
TxPoolInv.v
TxPoolReorg.v
TxPoolSafety.v
TxPoolSched.v
Protect.v
ProtectSafety.v
Attest.v
Node.v
Scheduler.v
SchedulerSafety.v
SchedulerTick.v
SchedulerStart.v
Submit.v
