(* ===== verification/Prelude.v ===== *)
(** * Ferminux: the chain's consensus and the validator's signing path

    Ferminux is a go-ethereum fork that starts on proof of work and hands over to
    an authority engine at a fork block ([src/chain]), with a validator sidecar
    that attests final checkpoints to a hub contract ([src/validator]). This
    library models the parts that decide which blocks are valid, which branch is
    canonical, and what the sidecar may ever sign, and proves them correct.

    ** How the parts interact

    A block header is encoded ([Rlp]), hashed and its seal recovered ([Types]).
    The node's engine is Posa ([Posa]): below the fork block it asks the
    proof-of-work engine ([Powhash]), from it on the Clique engine ([Clique],
    [Authority]), which rebuilds the signer set at a block by applying the voting
    rules to the headers before it ([Snapshot]); owners can replace the signers
    with a signed override in a checkpoint header ([BreakGlass]). Verified blocks
    compete by the fork choice, and a reorganisation may not drop more than the
    cap ([ForkChoice]). A block deeper than the cap is final, and that is what
    the sidecar relies on: its engine ([Scheduler]) waits until the schedule
    ([Attest]) names a final checkpoint, asks its node whether it is ready
    ([Node]), has the hash recorded by the slashing-protection database
    ([Protect]) and only then signs. The signature goes to the hub contract in a
    transaction ([Submit], [Transaction]) that the node's pool accepts: [TxPool]
    keeps a list per account ([TxList] on [Heap]) and the two price heaps
    ([TxPriced]), and a background loop moves transactions between queue and
    pending ([TxPoolSched]). A block's transactions are processed one after the
    other ([Processor]): each becomes a message that buys its gas, runs and pays
    its fee ([StateTransition]); the contracts it calls run in the virtual machine
    ([Evm]) on the state database ([StateDB]), whose contents are held by Merkle
    Patricia tries ([Trie]); a receipt with its bloom filter ([Receipts]) says
    what it did.

    ** Files

    - [Prelude]: results, unsigned 64-bit arithmetic, tactics, shared lemmas.
    - [Bytes]: byte strings, big-endian numbers (common/bytes.go and the parts of
      encoding/binary and math/big in use).
    - [Rlp]: rlp/raw.go, rlp/encode.go, rlp/encbuffer.go.
    - [Types]: core/types/block.go and its generated RLP, the [Crypto] class
      (Keccak-256 and public-key recovery are parameters everywhere).
    - [Params], [Misc]: params/config.go; consensus/misc (base fee, gas limit, forks).
    - [BreakGlass]: the override payload of consensus/clique/ferminux.go.
    - [Snapshot]: consensus/clique/snapshot.go.
    - [Clique]: consensus/clique/clique.go, api.go and the rest of ferminux.go.
    - [Authority]: the abstract history of a header chain, and the theorems about
      [Clique] that refer to it.
    - [Powhash]: header, uncle and reward rules of consensus/powhash.
    - [Posa]: consensus/posa/posa.go and tags.go.
    - [ForkChoice]: core/forkchoice.go and reorg of core/blockchain.go.
    - [Text]: the parts of strconv, strings, encoding/hex, hash/crc32 and
      common/types.go the database's text format uses.
    - [Heap]: container/heap. [Transaction]: core/types/transaction*.go, the three
      transaction types and the signers. [TxList], [TxListRefine]: txSortedMap and
      txList of core/tx_list.go, and their view as a list sorted by nonce.
    - [TxPriced]: txLookup of core/tx_pool.go and txPricedList of core/tx_list.go.
      [TxPool]: the rest of core/tx_pool.go and core/tx_noncer.go, one operation
      under the pool's lock at a time. [TxPoolInv]: the invariant of the pool
      and the rules to prove it of code that may panic; [TxPoolReorg]: promotion,
      demotion, the limits, resets and evictions; [TxPoolSafety]: runs of the
      pool's operations; [TxPoolSched]: scheduleReorgLoop and its channels.
    - [TrieKeys], [Trie], [TrieHash]: chain/trie (key encodings; nodes, lookup,
      update, deletion; hashing). [TrieMap]: each operation on the set of
      bindings below a node; [TrieRefine]: the trie as a finite map.
      [TrieNode]: decoding of nodes (node.go, rlp/raw.go). [TrieProof]: Prove and
      VerifyProof of proof.go.
    - [StateDB]: core/state (statedb.go, state_object.go, journal.go,
      access_list.go). [StateRevert]: each journal entry undoes its change;
      [StateHistory]: nested snapshots, reachable states, the end of a transaction.
    - [EvmAnalysis], [EvmTable], [Evm]: core/vm (analysis.go; opcodes.go,
      jump_table.go, eips.go, stack_table.go; memory, contracts, gas functions,
      instructions, interpreter and calls). [EvmGas]: what is charged and that
      every round costs gas; [EvmState], [EvmViews]: what code does to the state;
      [EvmTotal], [EvmSafety]: that nothing panics, and the theorems on Call.
    - [StateTransition]: core/state_transition.go, gaspool.go. [Receipts]:
      core/types/receipt.go, bloom9.go. [Processor]: core/state_processor.go,
      core/evm.go, core/block_validator.go, the DAO fork.
    - [Protect], [ProtectSafety]: validator/internal/protect/protect.go on an
      explicit disk; the system of calls, failures, kills and power losses.
    - [Attest]: validator/internal/attest (schedule, EIP-712 digests).
    - [Node]: validator/internal/node (readiness, reorg-cap probe).
    - [Scheduler]: validator/internal/scheduler/engine.go.
    - [SchedulerSafety], [SchedulerTick], [SchedulerStart]: its theorems.
    - [Submit]: validator/internal/scheduler/submit.go.

    ** Conventions

    A Go function keeps its name (with the receiver's type in front where two
    share one). Integers are [Z] with the wrap-around of their Go type written
    out ([add64], [sub64], [mul64], [i64]); [big.Int] is [Z], nil pointers are
    [None]. Errors and panics are the other constructors of [result]. Stateful
    code takes and returns its state. Iteration over a Go map, whose order is
    unspecified, is a parameter [range] that lists the map's bindings in some
    order. The outcome of every system call and of every remote answer is an
    argument, so the theorems hold for all of them. Code that runs contracts
    returns an [outcome]: an answer, a panic, or no answer for want of fuel. The
    256-bit arithmetic of the uint256 module is the class [Uint256], the
    precompiled contracts are an argument that promises a gas cost that is not
    negative, and a storage trie with the empty root is promised to be empty.

    Recursion that is not structural has fuel: [Rlp.CountValues] and the item
    decoder use the length of the input, [Clique.snapshot_loop] the block number,
    [ForkChoice.to_common] the height of the higher branch, [Attest.next_loop]
    the number of checkpoints up to the head, [Trie.key_fuel] twice the length of
    the key (each step uses a nibble or loads a node), [Heap.up] and [Heap.down]
    the length of the heap, the loops of [TxList] the length of the index,
    [TxPriced.discard_loop] twice the urgent and once the floating heap, the
    loops of [TxPool.truncatePending] the number of transactions and of accounts,
    its walks from an old to a new head the numbers of the heads,
    [TrieNode.decode_node] the length of the input, [TrieProof.verify_loop] the
    length of the key,
    [EvmAnalysis.bitmap_loop] the length of the code; the theorems show that this
    is enough, so running out is not a result. [Evm.run_loop] takes its fuel as an
    argument: since every round costs gas, one more than the gas is enough, for
    the calls the code makes too, and the theorems on calls, messages and blocks
    say that the answer is there and that more fuel does not change it.

    ** What the theorems show

    - Signer set: the snapshot the engine finds through its caches, stored
      checkpoints and parent batches is the fold of the voting rules over the
      headers since the bootstrap; votes and tally agree; the set changes only by
      a majority or a verified owner override; no sealer seals twice within the
      window, and the chain is never stuck.
    - Verification: [verifySeal] agrees with applying the header (except in the
      first blocks, where the code is shown to differ); a batch is judged like
      its headers one after the other; what the local signer seals verifies.
    - Rewards: an authority block mints exactly the stated reward, and the supply
      stays below a cap, premine, uncle and nephew rewards included.
    - Finality: the fork choice is a strict preference; a successful reorg drops
      no more than the cap and leaves everything up to the common ancestor, and
      so the finalized block, in place.
    - Encoding: RLP buffers assemble the recursive encoding, splitting inverts
      it, header encodings are injective, digests bind their fields.
    - State trie: any sequence of lookups, updates, deletions and root hashes
      answers like a finite map, and the root hash is a function of that map
      alone, whatever the order of the updates and whatever was loaded from the
      database on the way. A proof that is made verifies, and what a verified
      proof says of a key is what the trie with that root says; of the empty trie
      nothing can be proved, not even absence.
    - Transactions: what a signer signs it recovers, a signature covers every
      field and the chain; the lists of the pool behave like a list sorted by
      nonce, panics included, and the executable ones have no gap. Over any run of the pool's
      operations no map access or heap operation panics, and lists, index, price
      heaps, nonces and heartbeats agree; a reorganisation round leaves the pool
      within its limits; making room never costs a local account a transaction;
      every request to the background loop is served.
    - State: reverting to a snapshot gives back the state it was taken in, however
      snapshots nest; the end of a transaction removes exactly the dead accounts
      and commits every written slot.
    - Execution: processing a block of any transactions comes to an end, by the
      rules of London, with a base fee in the header and a gas limit below
      2^64/200, without a panic: no stack, memory, code or snapshot access
      is out of range, the refund counter never goes below zero, and the gas pool
      never overflows. A call that fails leaves no trace in the state. A message
      pays for what it uses, the receipts of a block add up and stay within its
      gas limit, and the bloom filter misses no log. The bit-parallel analysis of
      jump destinations marks exactly the data bytes.
    - Slashing protection: if the file is durable whenever it is opened, which the
      code does not see to (a run without it approves two hashes), approvals are
      durable when they are confirmed, survive any power loss that keeps a prefix
      of the unsynced bytes, never contradict each other and respect every
      watermark; the text format and export/import round-trip.
    - Sidecar: over all such runs no two signatures of one height differ; with a
      schedule whose margin does not wrap, a tick signs only a final checkpoint of the right chain on a ready node, and does sign
      when everything is in order; an attestation made elsewhere with the key
      stops the engine before it signs again, and a stopped engine stays silent;
      a preflight that passes accounts for the key's past; a submission stays
      within the fee limits and replaces the pending one in the pool.

    ** Not modelled

    Networking, sync, the miner and the RPC of go-ethereum; of the pool, the
    journal file, the event feed and its subscriptions, Stop and the read-only
    API calls; of the virtual machine, the precompiled contracts, tracing, the
    stack pool and the analysis cache (which change no result) and extra EIPs; of
    the processor, the header walk of GetHashFn, ValidateBody and the encodings
    of receipts; of the state, the snapshot tree, the prefetcher and the commit to
    the tries; of the trie, the committer and its database, iterators, range
    proofs and the stack trie; hashimoto and the ethash caches (a parameter);
    goroutines, locks and timers (operations are sequences of their effects);
    LRU eviction; logging, metrics, the status dashboard and message texts; the
    operating system glue of the sidecar (service, supervisor, key files,
    configuration). *)

From stdpp Require Export base gmap sets list strings sorting.
From Stdlib Require Export ZArith Lia.
Open Scope Z_scope.

(** ** Go errors and the three outcomes of a call

    A Go function that returns [(T, error)] is modelled by [result T]:
    [Ok v] when the error is nil, [Err e] when it is not, and [Panic] when the
    call does not return because a run-time check of the language fails
    (nil dereference, integer division by zero, index out of range). *)

(** An [error] value is its message; [Errorf] keeps the format string of a
    [fmt.Errorf] call and its numeric arguments. *)
Inductive error :=
| New (msg : string)
| Errorf (fmt : string) (args : list Z).

#[export] Instance error_eq_dec : EqDecision error.
Proof. solve_decision. Defined.

Inductive result (A : Type) :=
| Ok (a : A)
| Err (e : error)
| Panic (why : string).
Arguments Ok {_} _.
Arguments Err {_} _.
Arguments Panic {_} _.

#[export] Instance result_eq_dec {A} `{EqDecision A} : EqDecision (result A).
Proof. solve_decision. Defined.

#[export] Instance result_ret : MRet result := fun A a => Ok a.
#[export] Instance result_bind : MBind result := fun A B f m =>
  match m with Ok a => f a | Err e => Err e | Panic w => Panic w end.
#[export] Instance result_fmap : FMap result := fun A B f m =>
  match m with Ok a => Ok (f a) | Err e => Err e | Panic w => Panic w end.

(** [fail_if b e]: the early return [if b { return e }]. *)
Definition fail_if (b : bool) (e : error) : result unit :=
  if b then Err e else Ok tt.

Definition is_ok {A} (r : result A) : bool :=
  match r with Ok _ => true | _ => false end.

(** The [error] result of a call whose value is dropped ([err == nil] is
    [None]). *)
Definition err_of {A} (r : result A) : option error :=
  match r with Ok _ => None | Err e => Some e | Panic w => Some (New w) end.

Lemma Ok_inj {A} (a b : A) : Ok a = Ok b → a = b.
Proof. congruence. Qed.

Lemma bind_ok {A B} (m : result A) (f : A → result B) b :
  (m ≫= f) = Ok b ↔ ∃ a, m = Ok a ∧ f a = Ok b.
Proof.
  destruct m; simpl; split; try naive_solver.
Qed.

Lemma fail_if_ok b e u : fail_if b e = Ok u ↔ b = false.
Proof. destruct b; simpl; [naive_solver|]. destruct u. naive_solver. Qed.

(** ** Machine integers *)

Definition two64 : Z := 2 ^ 64.
Definition u64 (x : Z) : Z := x mod two64.
Definition add64 (x y : Z) : Z := u64 (x + y).
Definition sub64 (x y : Z) : Z := u64 (x - y).
Definition mul64 (x y : Z) : Z := u64 (x * y).

(** [int64(x)] of a uint64, and the wrap-around of int64 arithmetic. *)
Definition i64 (x : Z) : Z :=
  let y := x mod two64 in if y <? 2 ^ 63 then y else y - two64.

Definition is_u64 (x : Z) : Prop := 0 ≤ x < two64.

Lemma u64_bound x : is_u64 (u64 x).
Proof. unfold is_u64, u64, two64. apply Z.mod_pos_bound. lia. Qed.

Lemma u64_small x : is_u64 x → u64 x = x.
Proof. unfold is_u64, u64, two64. intros. by apply Z.mod_small. Qed.

Lemma u64_idem x : u64 (u64 x) = u64 x.
Proof. apply u64_small, u64_bound. Qed.

Lemma add64_small x y : is_u64 (x + y) → add64 x y = x + y.
Proof. apply u64_small. Qed.

Lemma sub64_small x y : is_u64 (x - y) → sub64 x y = x - y.
Proof. apply u64_small. Qed.

Lemma mul64_small x y : is_u64 (x * y) → mul64 x y = x * y.
Proof. apply u64_small. Qed.

(** [x % y] on uint64: the language panics on a zero divisor. *)
Definition mod64 (x y : Z) : result Z :=
  if y =? 0 then Panic "integer divide by zero" else Ok (x mod y).

(** [x / y] on uint64. *)
Definition div64 (x y : Z) : result Z :=
  if y =? 0 then Panic "integer divide by zero" else Ok (x / y).

(** A method call on a nil big.Int pointer panics. *)
Definition deref {A} (p : option A) : result A :=
  match p with Some a => Ok a | None => Panic "nil pointer dereference" end.

(** big.Int's [Uint64()]: the low 64
    bits of the absolute value. *)
Definition big_Uint64 (x : Z) : Z := u64 (Z.abs x).

Definition big_IsUint64 (x : Z) : bool := (0 <=? x) && (x <? two64).

(** ** Automation *)

Create HintDb s2p discriminated.
#[export] Hint Resolve u64_bound : s2p.

(** Break a hypothesis [H : computation = Ok v] into the steps it ran. *)
Ltac inv_ok_one :=
  match goal with
  | H : (_ ≫= _) = Ok _ |- _ =>
      apply bind_ok in H; destruct H as [? [? H]]
  | H : (_ <$> _) = Ok _ |- _ =>
      progress (unfold fmap, result_fmap in H)
  | H : fail_if _ _ = Ok _ |- _ => apply fail_if_ok in H
  | H : mret _ = Ok _ |- _ => apply Ok_inj in H
  | H : Ok _ = Ok _ |- _ => apply Ok_inj in H
  | H : Err _ = Ok _ |- _ => discriminate H
  | H : Panic _ = Ok _ |- _ => discriminate H
  | H : (if ?b then _ else _) = Ok _ |- _ => destruct b eqn:?
  | H : (match ?x with _ => _ end) = Ok _ |- _ => destruct x eqn:?
  end.
Ltac inv_ok := repeat (inv_ok_one; simplify_eq/=).

(** Turn boolean tests into propositions. *)
Ltac bprop :=
  repeat match goal with
  | H : _ && _ = true |- _ => apply andb_true_iff in H as [? ?]
  | H : _ || _ = false |- _ => apply orb_false_iff in H as [? ?]
  | H : negb _ = true |- _ => apply negb_true_iff in H
  | H : negb _ = false |- _ => apply negb_false_iff in H
  | H : (_ =? _) = true |- _ => apply Z.eqb_eq in H
  | H : (_ =? _) = false |- _ => apply Z.eqb_neq in H
  | H : (_ <? _) = true |- _ => apply Z.ltb_lt in H
  | H : (_ <? _) = false |- _ => apply Z.ltb_ge in H
  | H : (_ <=? _) = true |- _ => apply Z.leb_le in H
  | H : (_ <=? _) = false |- _ => apply Z.leb_gt in H
  | H : bool_decide _ = true |- _ => apply bool_decide_eq_true in H
  | H : bool_decide _ = false |- _ => apply bool_decide_eq_false in H
  end.

(** [lia] with division and modulo. *)
Ltac dlia := Z.div_mod_to_equations; lia.

(** Decide the integer tests of the goal with [lia]. *)
Ltac ztest :=
  match goal with
  | |- context [?a <? ?b] =>
      first [ replace (a <? b) with true by (symmetry; apply Z.ltb_lt; lia)
            | replace (a <? b) with false by (symmetry; apply Z.ltb_ge; lia) ]
  | |- context [?a <=? ?b] =>
      first [ replace (a <=? b) with true by (symmetry; apply Z.leb_le; lia)
            | replace (a <=? b) with false by (symmetry; apply Z.leb_gt; lia) ]
  | |- context [?a =? ?b] =>
      first [ replace (a =? b) with true by (symmetry; apply Z.eqb_eq; lia)
            | replace (a =? b) with false by (symmetry; apply Z.eqb_neq; lia) ]
  end.
Ltac ztests := repeat ztest.

(** Closed arithmetic side conditions, by evaluation. *)
Ltac closed_arith :=
  first [ reflexivity
        | vm_compute; reflexivity
        | vm_compute; discriminate
        | split; closed_arith ].
