(* ===== verification/Bytes.v ===== *)
(** * Byte strings

    Byte slices of the Go code are lists of [byte]. Fixed-size arrays that the
    code only compares, hashes and concatenates (common.Address, common.Hash,
    types.Bloom, types.BlockNonce) are represented by the big-endian number they
    hold; [to_be n] gives their bytes back. The helpers of chain/common/bytes.go
    the rest of the code uses are defined here with the round trips between the
    two views. *)

From S2P Require Import Prelude.
From Stdlib Require Import Strings.Byte.

Notation byte := Byte.byte (only parsing).
Notation bytes := (list Byte.byte) (only parsing).

#[export] Instance byte_eq_decision : EqDecision byte := Byte.byte_eq_dec.

(** The value of a byte, and the conversion [byte(x)] (truncation to 8 bits). *)
Definition b2z (b : byte) : Z := Z.of_N (Byte.to_N b).
Definition z2b (x : Z) : byte :=
  default Byte.x00 (Byte.of_N (Z.to_N (x mod 256))).

Lemma b2z_bound b : 0 ≤ b2z b < 256.
Proof. destruct b; vm_compute; split; congruence. Qed.

Lemma z2b_b2z b : z2b (b2z b) = b.
Proof. destruct b; reflexivity. Qed.

Lemma b2z_z2b x : b2z (z2b x) = x mod 256.
Proof.
  unfold z2b, b2z. pose proof (Z.mod_pos_bound x 256 ltac:(lia)) as Hb.
  destruct (Byte.of_N (Z.to_N (x mod 256))) as [b|] eqn:E; simpl.
  - apply Byte.to_of_N in E. rewrite E. lia.
  - apply Byte.of_N_None_iff in E. lia.
Qed.

Lemma b2z_inj b c : b2z b = b2z c → b = c.
Proof. intros H. by rewrite <- (z2b_b2z b), H, z2b_b2z. Qed.

(** ** Big-endian numbers *)

Fixpoint to_be (n : nat) (z : Z) : bytes :=
  match n with
  | O => []
  | S n => z2b (z / 256 ^ Z.of_nat n) :: to_be n z
  end.

Definition of_be (bs : bytes) : Z :=
  foldl (fun acc b => acc * 256 + b2z b) 0 bs.

Lemma length_to_be n z : length (to_be n z) = n.
Proof. induction n; simpl; congruence. Qed.

Lemma of_be_acc bs acc :
  foldl (fun acc b => acc * 256 + b2z b) acc bs
  = acc * 256 ^ Z.of_nat (length bs) + of_be bs.
Proof.
  unfold of_be. revert acc. induction bs as [|b bs IH]; intros acc.
  - simpl. lia.
  - cbn [foldl length]. rewrite (IH (acc * 256 + b2z b)), (IH (0 * 256 + b2z b)).
    rewrite Nat2Z.inj_succ, Z.pow_succ_r by lia. lia.
Qed.

Lemma of_be_cons b bs :
  of_be (b :: bs) = b2z b * 256 ^ Z.of_nat (length bs) + of_be bs.
Proof. unfold of_be at 1. cbn [foldl]. rewrite of_be_acc. f_equal. Qed.

Lemma of_be_single b : of_be [b] = b2z b.
Proof. unfold of_be. simpl. lia. Qed.

Lemma of_be_bound bs : 0 ≤ of_be bs < 256 ^ Z.of_nat (length bs).
Proof.
  induction bs as [|b bs IH]; [unfold of_be; simpl; lia|].
  rewrite of_be_cons. cbn [length]. rewrite Nat2Z.inj_succ, Z.pow_succ_r by lia.
  pose proof (b2z_bound b). nia.
Qed.

Lemma of_be_to_be n z : of_be (to_be n z) = z mod 256 ^ Z.of_nat n.
Proof.
  induction n as [|n IH]; [by rewrite Z.mod_1_r|].
  cbn [to_be]. rewrite of_be_cons, length_to_be, IH, b2z_z2b.
  rewrite Nat2Z.inj_succ, Z.pow_succ_r by lia.
  rewrite (Z.mul_comm 256), Z.rem_mul_r by lia. lia.
Qed.

Lemma of_be_to_be_small n z : 0 ≤ z < 256 ^ Z.of_nat n → of_be (to_be n z) = z.
Proof. intros. rewrite of_be_to_be. by apply Z.mod_small. Qed.

Lemma to_be_shift n k z : to_be n (k * 256 ^ Z.of_nat n + z) = to_be n z.
Proof.
  revert k. induction n as [|n IH]; intros k; [done|]. cbn [to_be].
  rewrite Nat2Z.inj_succ, Z.pow_succ_r by lia.
  replace (k * (256 * 256 ^ Z.of_nat n) + z)
    with ((k * 256) * 256 ^ Z.of_nat n + z) by ring.
  rewrite IH. f_equal. apply b2z_inj. rewrite !b2z_z2b.
  rewrite Z.add_comm, Z.div_add by lia.
  rewrite <- Z.add_mod_idemp_r, (Z.mod_mul k 256), Z.add_0_r by lia. done.
Qed.

Lemma to_be_of_be bs : to_be (length bs) (of_be bs) = bs.
Proof.
  induction bs as [|b bs IH]; [done|]. cbn [length to_be].
  rewrite of_be_cons, to_be_shift, IH. f_equal.
  apply b2z_inj. rewrite b2z_z2b, Z.add_comm, Z.div_add by lia.
  rewrite Z.div_small by apply of_be_bound. rewrite Z.add_0_l.
  apply Z.mod_small, b2z_bound.
Qed.

Lemma to_be_inj n x y :
  0 ≤ x < 256 ^ Z.of_nat n → 0 ≤ y < 256 ^ Z.of_nat n →
  to_be n x = to_be n y → x = y.
Proof.
  intros Hx Hy H. rewrite <- (of_be_to_be_small n x Hx), H.
  by apply of_be_to_be_small.
Qed.

Lemma to_be_app m n z :
  to_be (m + n) z = to_be m (z / 256 ^ Z.of_nat n) ++ to_be n z.
Proof.
  induction m as [|m IH]; [done|]. cbn [to_be Nat.add app]. rewrite IH. f_equal.
  rewrite Z.div_div by lia. rewrite <- Z.pow_add_r by lia. do 2 f_equal. f_equal. lia.
Qed.

Lemma to_be_mod n m z : (n ≤ m)%nat → to_be n (z mod 256 ^ Z.of_nat m) = to_be n z.
Proof.
  intros Hnm. rewrite (Z.div_mod z (256 ^ Z.of_nat m)) at 2 by lia.
  replace (256 ^ Z.of_nat m * (z / 256 ^ Z.of_nat m))
    with (256 ^ Z.of_nat (m - n) * (z / 256 ^ Z.of_nat m) * 256 ^ Z.of_nat n).
  - by rewrite to_be_shift.
  - set (q := z / 256 ^ Z.of_nat m).
    replace (Z.of_nat m) with (Z.of_nat (m - n) + Z.of_nat n) by lia.
    rewrite Z.pow_add_r by lia. ring.
Qed.

Lemma to_be_zero n : to_be n 0 = replicate n Byte.x00.
Proof. induction n as [|n IH]; [done|]. cbn [to_be]. rewrite IH. done. Qed.

(** Lexicographic comparison of equal-length big-endian strings
    ([bytes.Compare]) is comparison of the numbers. *)
Fixpoint bytes_compare (a b : bytes) : comparison :=
  match a, b with
  | [], [] => Eq
  | [], _ => Lt
  | _, [] => Gt
  | x :: a, y :: b =>
      match b2z x ?= b2z y with Eq => bytes_compare a b | c => c end
  end.

Lemma bytes_compare_of_be a b :
  length a = length b → bytes_compare a b = (of_be a ?= of_be b).
Proof.
  revert b. induction a as [|x a IH]; intros [|y b] Hlen; simplify_eq/=; [done|].
  rewrite !of_be_cons, IH, Hlen by done.
  pose proof (of_be_bound a) as Ha. pose proof (of_be_bound b) as Hb.
  rewrite Hlen in Ha.
  destruct (Z.compare_spec (b2z x) (b2z y)) as [E|L|L].
  - rewrite E. destruct (Z.compare_spec (of_be a) (of_be b)); symmetry;
      [apply Z.compare_eq_iff|apply Z.compare_lt_iff|apply Z.compare_gt_iff]; lia.
  - symmetry. apply Z.compare_lt_iff. nia.
  - symmetry. apply Z.compare_gt_iff. nia.
Qed.

(** ** Widths *)

Definition AddressLength : nat := 20.
Definition HashLength : nat := 32.

Notation Address := Z (only parsing).
Notation Hash := Z (only parsing).

Definition is_address (a : Address) : Prop := 0 ≤ a < 256 ^ 20.
Definition is_hash (h : Hash) : Prop := 0 ≤ h < 256 ^ 32.

Definition address_bytes (a : Address) : bytes := to_be AddressLength a.
Definition hash_bytes (h : Hash) : bytes := to_be HashLength h.

(** [common.LeftPadBytes]. *)
Definition LeftPadBytes (slice : bytes) (l : nat) : bytes :=
  if (l <=? length slice)%nat then slice
  else replicate (l - length slice) Byte.x00 ++ slice.

(** [common.RightPadBytes]. *)
Definition RightPadBytes (slice : bytes) (l : nat) : bytes :=
  if (l <=? length slice)%nat then slice
  else slice ++ replicate (l - length slice) Byte.x00.

(** Number of bytes of the minimal big-endian form (0 for zero), and that form:
    [big.Int.Bytes()]. *)
Definition byte_len (z : Z) : nat :=
  if z =? 0 then 0%nat else Z.to_nat (Z.log2 z / 8 + 1).
Definition big_Bytes (z : Z) : bytes := to_be (byte_len (Z.abs z)) (Z.abs z).

Lemma byte_len_bound z : 0 ≤ z → z < 256 ^ Z.of_nat (byte_len z).
Proof.
  intros Hz. unfold byte_len. destruct (Z.eqb_spec z 0) as [->|Hn]; [done|].
  pose proof (Z.log2_nonneg z). rewrite Z2Nat.id by dlia.
  apply (Z.lt_le_trans _ (2 ^ Z.succ (Z.log2 z))); [apply Z.log2_spec; lia|].
  replace 256 with (2 ^ 8) by done. rewrite <- Z.pow_mul_r by dlia.
  apply Z.pow_le_mono_r; dlia.
Qed.

Lemma byte_len_lower z :
  0 < z → 256 ^ (Z.of_nat (byte_len z) - 1) ≤ z.
Proof.
  intros Hz. unfold byte_len. destruct (Z.eqb_spec z 0) as [->|Hn]; [done|].
  pose proof (Z.log2_nonneg z). rewrite Z2Nat.id by dlia.
  apply (Z.le_trans _ (2 ^ Z.log2 z)); [|apply Z.log2_spec; lia].
  replace 256 with (2 ^ 8) by done. rewrite <- Z.pow_mul_r by dlia.
  apply Z.pow_le_mono_r; dlia.
Qed.

Lemma byte_len_le z n :
  0 ≤ z < 256 ^ Z.of_nat n → (byte_len z ≤ n)%nat.
Proof.
  intros [H0 Hz]. destruct (Z.eq_dec z 0) as [->|]; [unfold byte_len; simpl; lia|].
  pose proof (byte_len_lower z ltac:(lia)) as Hl.
  destruct (decide (byte_len z ≤ n)%nat) as [|Hn]; [done|].
  assert (256 ^ Z.of_nat n ≤ 256 ^ (Z.of_nat (byte_len z) - 1)); [|lia].
  apply Z.pow_le_mono_r; lia.
Qed.

Lemma of_be_big_Bytes z : 0 ≤ z → of_be (big_Bytes z) = z.
Proof.
  intros. unfold big_Bytes. rewrite Z.abs_eq by done.
  apply of_be_to_be_small. pose proof (byte_len_bound z). lia.
Qed.

Lemma length_big_Bytes z : length (big_Bytes z) = byte_len (Z.abs z).
Proof. apply length_to_be. Qed.

Lemma of_be_app a b :
  of_be (a ++ b) = of_be a * 256 ^ Z.of_nat (length b) + of_be b.
Proof. unfold of_be at 1. rewrite foldl_app. apply of_be_acc. Qed.

Lemma of_be_zeros n : of_be (replicate n Byte.x00) = 0.
Proof. induction n; [done|]. simpl. rewrite of_be_cons, IHn. done. Qed.

(** Left padding a minimal big-endian number to [n] bytes is its [n]-byte
    form. *)
Lemma LeftPad_big_Bytes n z :
  0 ≤ z < 256 ^ Z.of_nat n → LeftPadBytes (big_Bytes z) n = to_be n z.
Proof.
  intros Hz. pose proof (byte_len_le z n Hz) as Hle.
  unfold LeftPadBytes. rewrite length_big_Bytes, Z.abs_eq by lia.
  assert (∀ l : bytes, length l = n → of_be l = z → l = to_be n z) as Huniq.
  { intros l <- <-. by rewrite to_be_of_be. }
  destruct (n <=? byte_len z)%nat eqn:E.
  - apply Nat.leb_le in E. apply Huniq; [|apply of_be_big_Bytes; lia].
    rewrite length_big_Bytes, Z.abs_eq by lia. lia.
  - apply Nat.leb_gt in E. apply Huniq.
    + rewrite length_app, length_replicate, length_big_Bytes, Z.abs_eq by lia. lia.
    + rewrite of_be_app, of_be_zeros. rewrite of_be_big_Bytes by lia. lia.
Qed.

(** ** Fixed-size chunks of a byte string *)

(** The first [k] chunks of [n] bytes of [bs]: the loop
    [for i := range out { copy(out[i][:], bs[i*n:]) }]. *)
Fixpoint chunks (n k : nat) (bs : bytes) : list bytes :=
  match k with
  | O => []
  | S k => take n bs :: chunks n k (drop n bs)
  end.

Lemma chunks_concat n (ls : list bytes) rest :
  Forall (fun l => length l = n) ls →
  chunks n (length ls) (concat ls ++ rest) = ls.
Proof.
  induction ls as [|l ls IH]; intros Hall; [done|].
  apply Forall_cons in Hall as [Hl Hall]. cbn [length chunks concat].
  rewrite <- app_assoc, take_app_length' by done.
  by rewrite drop_app_length', IH.
Qed.

Lemma length_chunks n k bs : length (chunks n k bs) = k.
Proof. revert bs. induction k; intros; simpl; [done|]. f_equal. apply IHk. Qed.

Lemma concat_chunks n k bs :
  length bs = (k * n)%nat → concat (chunks n k bs) = bs.
Proof.
  revert bs. induction k as [|k IH]; intros bs Hl; simpl in *.
  - by destruct bs.
  - rewrite IH; [apply take_drop|]. rewrite length_drop. lia.
Qed.

Lemma chunks_length n k bs :
  (k * n ≤ length bs)%nat → Forall (fun l => length l = n) (chunks n k bs).
Proof.
  revert bs. induction k as [|k IH]; intros bs Hl; simpl in *; [done|].
  apply Forall_cons. split; [rewrite length_take; lia|].
  apply IH. rewrite length_drop. lia.
Qed.

Lemma length_concat_const {A} (n : nat) (ls : list (list A)) :
  Forall (fun l => length l = n) ls → length (concat ls) = (length ls * n)%nat.
Proof.
  induction 1 as [|l ls Hl _ IH]; [done|].
  cbn [concat length]. rewrite length_app, IH, Hl. lia.
Qed.

#[export] Hint Resolve b2z_bound of_be_bound : s2p.
#[export] Hint Rewrite length_to_be of_be_to_be to_be_of_be length_big_Bytes : s2p.
