(* ===== verification/Rlp.v ===== *)
(** * RLP (chain/rlp)

    The encoder buffer of encbuffer.go, which defers list headers until the
    output is assembled, the integer and header helpers of encode.go, and the
    slice-splitting decoder of raw.go. The reference is [encode], the recursive
    definition of RLP on trees of byte strings. *)

From S2P Require Import Prelude Bytes.

(** ** Reference: trees and their canonical encoding *)

Inductive item :=
| Str (s : bytes)
| Lst (l : list item).

Section item_ind.
Variable P : item → Prop.
Hypothesis HStr : ∀ s, P (Str s).
Hypothesis HLst : ∀ l, Forall P l → P (Lst l).

Fixpoint item_ind' (it : item) : P it :=
  match it with
  | Str s => HStr s
  | Lst l => HLst l ((fix go (l : list item) : Forall P l :=
                        match l with
                        | [] => Forall_nil_2 _
                        | x :: l => Forall_cons_2 _ _ _ (item_ind' x) (go l)
                        end) l)
  end.
End item_ind.

(** [intsize]: the loop shifts [i] right by 8 until it is zero; eight rounds
    exhaust a uint64. *)
Fixpoint intsize_loop (fuel : nat) (size : nat) (i : Z) : nat :=
  match fuel with
  | O => size
  | S fuel =>
      let i := Z.shiftr i 8 in
      if i =? 0 then size else intsize_loop fuel (S size) i
  end.
Definition intsize (i : Z) : nat := intsize_loop 8 1 i.

(** [putint]: the bytes written to the start of the buffer; the returned size is
    their number. *)
Definition putint (i : Z) : bytes :=
  if i <? Z.shiftl 1 8 then [z2b i]
  else if i <? Z.shiftl 1 16 then [z2b (Z.shiftr i 8); z2b i]
  else if i <? Z.shiftl 1 24 then
    [z2b (Z.shiftr i 16); z2b (Z.shiftr i 8); z2b i]
  else if i <? Z.shiftl 1 32 then
    [z2b (Z.shiftr i 24); z2b (Z.shiftr i 16); z2b (Z.shiftr i 8); z2b i]
  else if i <? Z.shiftl 1 40 then
    [z2b (Z.shiftr i 32); z2b (Z.shiftr i 24); z2b (Z.shiftr i 16);
     z2b (Z.shiftr i 8); z2b i]
  else if i <? Z.shiftl 1 48 then
    [z2b (Z.shiftr i 40); z2b (Z.shiftr i 32); z2b (Z.shiftr i 24);
     z2b (Z.shiftr i 16); z2b (Z.shiftr i 8); z2b i]
  else if i <? Z.shiftl 1 56 then
    [z2b (Z.shiftr i 48); z2b (Z.shiftr i 40); z2b (Z.shiftr i 32);
     z2b (Z.shiftr i 24); z2b (Z.shiftr i 16); z2b (Z.shiftr i 8); z2b i]
  else
    [z2b (Z.shiftr i 56); z2b (Z.shiftr i 48); z2b (Z.shiftr i 40);
     z2b (Z.shiftr i 32); z2b (Z.shiftr i 24); z2b (Z.shiftr i 16);
     z2b (Z.shiftr i 8); z2b i].

(** [puthead]: the header bytes of a string or list of [size] bytes. *)
Definition puthead (smalltag largetag size : Z) : bytes :=
  if size <? 56 then [z2b (smalltag + size)]
  else
    let s := putint size in
    z2b (largetag + Z.of_nat (length s)) :: s.

(** [headsize]: the size of a string or list header. *)
Definition headsize (size : Z) : nat :=
  if size <? 56 then 1%nat else (1 + intsize size)%nat.

Definition zlen {A} (l : list A) : Z := Z.of_nat (length l).

Definition encode_str (s : bytes) : bytes :=
  match s with
  | [b] => if b2z b <=? 0x7F then [b] else puthead 0x80 0xB7 1 ++ [b]
  | _ => puthead 0x80 0xB7 (zlen s) ++ s
  end.

Fixpoint encode (it : item) : bytes :=
  match it with
  | Str s => encode_str s
  | Lst l =>
      let content := concat (map encode l) in
      puthead 0xC0 0xF7 (zlen content) ++ content
  end.

Definition encode_list (l : list item) : bytes := concat (map encode l).

(** ** The encoder buffer (encbuffer.go) *)

Record listhead := ListHead { lh_offset : nat; lh_size : nat }.

Record encBuffer := EncBuffer {
  eb_str : bytes;          (* string data, everything except list headers *)
  eb_lheads : list listhead;
  eb_lhsize : nat          (* sum of sizes of all encoded list headers *)
}.

(** [getEncBuffer] / [reset]. *)
Definition emptyBuffer : encBuffer := EncBuffer [] [] 0.

(** [size]. *)
Definition eb_size (buf : encBuffer) : nat := length (eb_str buf) + eb_lhsize buf.

(** [Write]: append raw bytes. *)
Definition eb_Write (b : bytes) (buf : encBuffer) : encBuffer :=
  EncBuffer (eb_str buf ++ b) (eb_lheads buf) (eb_lhsize buf).

(** [writeUint64]. *)
Definition writeUint64 (i : Z) (buf : encBuffer) : encBuffer :=
  if i =? 0 then eb_Write [z2b 0x80] buf
  else if i <? 128 then eb_Write [z2b i] buf
  else
    let s := putint i in
    eb_Write (z2b (0x80 + zlen s) :: s) buf.

(** [encodeStringHeader]. *)
Definition encodeStringHeader (size : Z) (buf : encBuffer) : encBuffer :=
  if size <? 56 then eb_Write [z2b (0x80 + size)] buf
  else
    let s := putint size in
    eb_Write (z2b (0xB7 + zlen s) :: s) buf.

(** [writeBytes]. *)
Definition writeBytes (b : bytes) (buf : encBuffer) : encBuffer :=
  match b with
  | [c] =>
      if b2z c <=? 0x7F then eb_Write [c] buf
      else eb_Write [c] (encodeStringHeader 1 buf)
  | _ => eb_Write b (encodeStringHeader (zlen b) buf)
  end.

(** [i.Bits()]: the little-endian 64-bit words of a non-negative integer. *)
Fixpoint big_Bits (fuel : nat) (i : Z) : list Z :=
  match fuel with
  | O => []
  | S fuel => if i =? 0 then [] else i mod two64 :: big_Bits fuel (i / two64)
  end.

(** The inner loop of [writeBigInt]: up to eight bytes of a word, least
    significant first, while there is room; [buf] is the part of the
    destination already filled (its right end). *)
Fixpoint put_word (j : nat) (d : Z) (index : nat) (buf : bytes) : nat * bytes :=
  match j with
  | O => (index, buf)
  | S j =>
      match index with
      | O => (O, buf)
      | S index => put_word j (Z.shiftr d 8) index (z2b d :: buf)
      end
  end.

Fixpoint put_words (ws : list Z) (index : nat) (buf : bytes) : nat * bytes :=
  match ws with
  | [] => (index, buf)
  | d :: ws => let '(index, buf) := put_word 8 d index buf in put_words ws index buf
  end.

Definition big_BitLen (i : Z) : Z := if i =? 0 then 0 else Z.log2 i + 1.

(** [writeBigInt]; the bytes left of [index] stay zero. *)
Definition writeBigInt (i : Z) (buf : encBuffer) : encBuffer :=
  let bitlen := big_BitLen (Z.abs i) in
  if bitlen <=? 64 then writeUint64 (big_Uint64 i) buf
  else
    let length := Z.shiftr (Z.land (bitlen + 7) (-8)) 3 in
    let buf := encodeStringHeader length buf in
    let '(index, filled) :=
      put_words (big_Bits (Z.to_nat bitlen) (Z.abs i)) (Z.to_nat length) [] in
    eb_Write (replicate index Byte.x00 ++ filled) buf.

(** [list]: push a list header, remembering where its content starts. *)
Definition eb_list (buf : encBuffer) : nat * encBuffer :=
  (length (eb_lheads buf),
   EncBuffer (eb_str buf)
     (eb_lheads buf ++ [ListHead (length (eb_str buf)) (eb_lhsize buf)])
     (eb_lhsize buf)).

(** [listEnd]: fix the size of header [index] (out of range panics). *)
Definition eb_listEnd (index : nat) (buf : encBuffer) : result encBuffer :=
  match eb_lheads buf !! index with
  | None => Panic "index out of range"
  | Some lh =>
      let size := (eb_size buf - lh_offset lh - lh_size lh)%nat in
      let lheads := <[index := ListHead (lh_offset lh) size]> (eb_lheads buf) in
      let lhsize :=
        if (size <? 56)%nat then (eb_lhsize buf + 1)%nat
        else (eb_lhsize buf + (1 + intsize (Z.of_nat size)))%nat in
      Ok (EncBuffer (eb_str buf) lheads lhsize)
  end.

(** [copyTo]: string data up to each header's offset, the header, and the rest
    of the string data. *)
Fixpoint copyTo (str : bytes) (strpos : nat) (lheads : list listhead) : bytes :=
  match lheads with
  | [] => drop strpos str
  | head :: lheads =>
      let piece := take (lh_offset head - strpos) (drop strpos str) in
      piece ++ puthead 0xC0 0xF7 (Z.of_nat (lh_size head))
        ++ copyTo str (strpos + length piece) lheads
  end.

(** [makeBytes]. *)
Definition makeBytes (buf : encBuffer) : bytes := copyTo (eb_str buf) 0 (eb_lheads buf).

(** Running the buffer on a tree, as the writers of encode.go do: strings with
    [writeBytes], lists between [list] and [listEnd]. *)
Fixpoint writeItem (it : item) (buf : encBuffer) : result encBuffer :=
  match it with
  | Str s => Ok (writeBytes s buf)
  | Lst l =>
      let '(index, buf) := eb_list buf in
      buf ← (fix writeItems (l : list item) (buf : encBuffer) : result encBuffer :=
               match l with
               | [] => Ok buf
               | x :: l => buf ← writeItem x buf; writeItems l buf
               end) l buf;
      eb_listEnd index buf
  end.

Definition EncodeToBytes (it : item) : result bytes :=
  buf ← writeItem it emptyBuffer; Ok (makeBytes buf).

(** ** Splitting encoded data (raw.go) *)

Inductive Kind := KByte | KString | KList.

#[export] Instance kind_eq_dec : EqDecision Kind.
Proof. solve_decision. Defined.

Definition ErrUnexpectedEOF := New "unexpected EOF".
Definition ErrExpectedString := New "rlp: expected String or Byte".
Definition ErrExpectedList := New "rlp: expected List".
Definition ErrCanonInt := New "rlp: non-canonical integer format".
Definition ErrCanonSize := New "rlp: non-canonical size information".
Definition ErrValueTooLarge := New "rlp: value size exceeds available input length".
Definition errUintOverflow := New "rlp: uint overflow".

(** [readSize]: a big-endian size of [slen] bytes (at most 8), at least 56 and
    without a leading zero byte. *)
Definition readSize (b : bytes) (slen : nat) : result Z :=
  if (length b <? slen)%nat then Err ErrUnexpectedEOF
  else
    let s := if (slen <=? 8)%nat then of_be (take slen b) else 0 in
    match b with
    | [] => Panic "index out of range"
    | b0 :: _ =>
        if (s <? 56) || (b2z b0 =? 0) then Err ErrCanonSize else Ok s
    end.

Definition readKind (buf : bytes) : result (Kind * Z * Z) :=
  match buf with
  | [] => Err ErrUnexpectedEOF
  | b0 :: tl =>
      let b := b2z b0 in
      '(k, tagsize, contentsize) ←
        (if b <? 0x80 then Ok (KByte, 0, 1)
         else if b <? 0xB8 then
           let contentsize := b - 0x80 in
           match tl with
           | b1 :: _ =>
               if (contentsize =? 1) && (b2z b1 <? 128) then Err ErrCanonSize
               else Ok (KString, 1, contentsize)
           | [] => Ok (KString, 1, contentsize)
           end
         else if b <? 0xC0 then
           size ← readSize tl (Z.to_nat (b - 0xB7));
           Ok (KString, b - 0xB7 + 1, size)
         else if b <? 0xF8 then Ok (KList, 1, b - 0xC0)
         else
           size ← readSize tl (Z.to_nat (b - 0xF7));
           Ok (KList, b - 0xF7 + 1, size));
      if sub64 (zlen buf) tagsize <? contentsize then Err ErrValueTooLarge
      else Ok (k, tagsize, contentsize)
  end.

Definition Split (b : bytes) : result (Kind * bytes * bytes) :=
  '(k, ts, cs) ← readKind b;
  Ok (k, take (Z.to_nat cs) (drop (Z.to_nat ts) b), drop (Z.to_nat (ts + cs)) b).

Definition SplitString (b : bytes) : result (bytes * bytes) :=
  '(k, content, rest) ← Split b;
  match k with
  | KList => Err ErrExpectedString
  | _ => Ok (content, rest)
  end.

Definition SplitUint64 (b : bytes) : result (Z * bytes) :=
  '(content, rest) ← SplitString b;
  match content with
  | [] => Ok (0, rest)
  | [c] => if b2z c =? 0 then Err ErrCanonInt else Ok (b2z c, rest)
  | _ =>
      if (8 <? length content)%nat then Err errUintOverflow
      else match readSize content (length content) with
           | Ok x => Ok (x, rest)
           | Err _ => Err ErrCanonInt
           | Panic w => Panic w
           end
  end.

Definition SplitList (b : bytes) : result (bytes * bytes) :=
  '(k, content, rest) ← Split b;
  match k with
  | KList => Ok (content, rest)
  | _ => Err ErrExpectedList
  end.

(** [CountValues]: every round consumes at least one byte, so [length b] rounds
    are enough. *)
Fixpoint count_loop (fuel : nat) (b : bytes) (i : Z) : result Z :=
  match fuel, b with
  | _, [] => Ok i
  | O, _ => Panic "out of fuel"
  | S fuel, _ =>
      '(_, tagsize, size) ← readKind b;
      count_loop fuel (drop (Z.to_nat (tagsize + size)) b) (i + 1)
  end.
Definition CountValues (b : bytes) : result Z := count_loop (length b) b 0.

(** [AppendUint64]; its switch repeats the cases of [putint] after the tag
    0x80 + size. *)
Definition AppendUint64 (b : bytes) (i : Z) : bytes :=
  if i =? 0 then b ++ [z2b 0x80]
  else if i <? 128 then b ++ [z2b i]
  else b ++ z2b (0x80 + zlen (putint i)) :: putint i.

(** [ListSize], [IntSize]. *)
Definition ListSize (contentSize : Z) : Z :=
  add64 (Z.of_nat (headsize contentSize)) contentSize.
Definition IntSize (x : Z) : nat := if x <? 0x80 then 1%nat else (1 + intsize x)%nat.

(** ** Integers and headers *)

Lemma byte_len_unique z n :
  (0 < n)%nat → 256 ^ (Z.of_nat n - 1) ≤ z < 256 ^ Z.of_nat n → byte_len z = n.
Proof.
  intros Hn [Hl Hu].
  assert (0 < z) by (pose proof (Z.pow_pos_nonneg 256 (Z.of_nat n - 1)); lia).
  pose proof (byte_len_le z n ltac:(lia)).
  pose proof (byte_len_bound z ltac:(lia)).
  destruct (decide (byte_len z < n)%nat); [|lia].
  assert (256 ^ Z.of_nat (byte_len z) ≤ 256 ^ (Z.of_nat n - 1))
    by (apply Z.pow_le_mono_r; lia). lia.
Qed.

Lemma byte_len_small z : 0 < z < 256 → byte_len z = 1%nat.
Proof. intros. by apply byte_len_unique; simpl; lia. Qed.

(** [putint] writes the minimal big-endian form (one zero byte for 0). *)
Lemma putint_to_be i :
  0 < i < two64 → putint i = to_be (byte_len i) i.
Proof.
  unfold two64. intros Hi. unfold putint.
  rewrite !Z.shiftl_mul_pow2, !Z.shiftr_div_pow2 by lia.
  repeat case_match; bprop;
    match goal with
    | |- ?l = _ => erewrite (byte_len_unique i (length l))
    end; try (simpl; lia); simpl; rewrite ?Z.div_1_r; reflexivity.
Qed.

Lemma length_putint i : 0 < i < two64 → length (putint i) = byte_len i.
Proof. intros. rewrite putint_to_be by done. apply length_to_be. Qed.

Lemma byte_len_u64 i : is_u64 i → (byte_len i ≤ 8)%nat.
Proof. unfold is_u64, two64. intros. apply byte_len_le. simpl. lia. Qed.

Lemma byte_len_pos i : 0 < i → (1 ≤ byte_len i)%nat.
Proof.
  intros. unfold byte_len. destruct (Z.eqb_spec i 0); [lia|].
  pose proof (Z.log2_nonneg i). dlia.
Qed.

Lemma byte_len_shift i : 256 ≤ i → byte_len i = S (byte_len (i / 256)).
Proof.
  intros. assert (1 ≤ i / 256) by dlia.
  pose proof (byte_len_lower (i / 256) ltac:(lia)).
  pose proof (byte_len_bound (i / 256) ltac:(lia)).
  pose proof (byte_len_pos (i / 256) ltac:(lia)).
  apply byte_len_unique; [lia|].
  replace (Z.of_nat (S (byte_len (i / 256))) - 1)
    with (Z.succ (Z.of_nat (byte_len (i / 256)) - 1)) by lia.
  rewrite Nat2Z.inj_succ, !Z.pow_succ_r by lia. dlia.
Qed.

Lemma intsize_loop_spec fuel size i :
  0 < i < 256 ^ Z.of_nat fuel → (0 < fuel)%nat →
  intsize_loop fuel size i = (size + byte_len i - 1)%nat.
Proof.
  revert size i. induction fuel as [|fuel IH]; intros size i Hi Hf; [lia|].
  cbn [intsize_loop]. rewrite Z.shiftr_div_pow2 by lia. change (2 ^ 8) with 256.
  rewrite Nat2Z.inj_succ, Z.pow_succ_r in Hi by lia.
  destruct (Z.eqb_spec (i / 256) 0).
  - rewrite byte_len_small; [lia|]. dlia.
  - assert (256 ≤ i) by dlia.
    destruct fuel; [simpl in Hi; lia|].
    rewrite IH; [|dlia|lia].
    rewrite (byte_len_shift i) by lia.
    pose proof (byte_len_pos (i / 256) ltac:(dlia)). lia.
Qed.

Lemma intsize_spec i : 0 < i < two64 → intsize i = byte_len i.
Proof.
  unfold two64. intros. unfold intsize.
  rewrite intsize_loop_spec; [lia|simpl; lia|lia].
Qed.

Lemma length_puthead st lt size :
  0 ≤ size < two64 → length (puthead st lt size) = headsize size.
Proof.
  intros. unfold puthead, headsize. destruct (Z.ltb_spec size 56); [done|].
  cbn [length]. rewrite length_putint, intsize_spec by lia. done.
Qed.

Lemma headsize_bounds size : 0 ≤ size < two64 → (1 ≤ headsize size ≤ 9)%nat.
Proof.
  intros. unfold headsize. destruct (Z.ltb_spec size 56); [lia|].
  rewrite intsize_spec by lia.
  pose proof (byte_len_u64 size H). pose proof (byte_len_pos size). lia.
Qed.

(** [readSize] reads back what [putint] wrote. *)
Lemma readSize_putint i rest :
  56 ≤ i < two64 → readSize (putint i ++ rest) (length (putint i)) = Ok i.
Proof.
  intros Hi. unfold readSize. rewrite length_app.
  destruct (Nat.ltb_spec (length (putint i) + length rest) (length (putint i))); [lia|].
  rewrite length_putint by lia.
  destruct (Nat.leb_spec (byte_len i) 8);
    [|pose proof (byte_len_u64 i ltac:(unfold is_u64; lia)); lia].
  rewrite take_app_length' by (symmetry; apply length_putint; lia).
  rewrite putint_to_be by lia.
  rewrite of_be_to_be_small by (pose proof (byte_len_bound i); lia).
  pose proof (byte_len_pos i ltac:(lia)) as Hp.
  pose proof (byte_len_lower i ltac:(lia)) as Hlow.
  pose proof (byte_len_bound i ltac:(lia)) as Hup.
  destruct (byte_len i) as [|n]; [lia|]. cbn [to_be app].
  replace (Z.of_nat (S n) - 1) with (Z.of_nat n) in Hlow by lia.
  rewrite Nat2Z.inj_succ, Z.pow_succ_r in Hup by lia.
  rewrite b2z_z2b.
  assert (1 ≤ i / 256 ^ Z.of_nat n < 256).
  { split; [apply Z.div_le_lower_bound; lia|apply Z.div_lt_upper_bound; lia]. }
  rewrite (Z.mod_small (i / _) 256) by lia.
  destruct (Z.ltb_spec i 56); [lia|].
  destruct (Z.eqb_spec (i / 256 ^ Z.of_nat n) 0); [lia|done].
Qed.

Definition kind_small (k : Kind) : Z := match k with KList => 0xC0 | _ => 0x80 end.
Definition kind_large (k : Kind) : Z := match k with KList => 0xF7 | _ => 0xB7 end.

Lemma zlen_app {A} (a b : list A) : zlen (a ++ b) = zlen a + zlen b.
Proof. unfold zlen. rewrite length_app. lia. Qed.

Lemma zlen_cons {A} (x : A) l : zlen (x :: l) = 1 + zlen l.
Proof. unfold zlen. cbn [length]. lia. Qed.

Lemma zlen_nonneg {A} (a : list A) : 0 ≤ zlen a.
Proof. unfold zlen. lia. Qed.

(** The header of a value is read back as its kind and sizes: what [readKind]
    sees after a short and after a long header. *)
Lemma readKind_small k (n : Z) tl :
  k ≠ KByte → 0 ≤ n < 56 →
  (k = KString → n = 1 → ∃ b l, tl = b :: l ∧ 128 ≤ b2z b) →
  n ≤ zlen tl → 1 + zlen tl < two64 →
  readKind (z2b (kind_small k + n) :: tl) = Ok (k, 1, n).
Proof.
  intros Hk Hn H1 Hlen Hbig.
  assert (sub64 (zlen (z2b (kind_small k + n) :: tl)) 1 = zlen tl) as Hsub.
  { rewrite sub64_small; unfold is_u64, zlen in *; cbn [length]; lia. }
  unfold readKind. rewrite b2z_z2b.
  destruct k; [done| |]; cbn [kind_small] in *; rewrite Z.mod_small by lia.
  - replace (match tl with
             | b1 :: _ => if (0x80 + n - 0x80 =? 1) && (b2z b1 <? 128)
                          then Err ErrCanonSize else Ok (KString, 1, 0x80 + n - 0x80)
             | [] => Ok (KString, 1, 0x80 + n - 0x80) end)
      with (Ok (KString, 1, n)).
    + ztests. cbn -[sub64 zlen]. rewrite Hsub. by ztests.
    + replace (0x80 + n - 0x80) with n by lia. destruct tl as [|b1 tl]; [done|].
      destruct (Z.eqb_spec n 1) as [->|]; [|done].
      destruct H1 as (b & l & ? & Hb); simplify_eq; [done..|]. by ztests.
  - replace (0xC0 + n - 0xC0) with n by lia.
    ztests. cbn -[sub64 zlen]. rewrite Hsub. by ztests.
Qed.

Lemma readKind_large k (n : Z) tl :
  k ≠ KByte → 56 ≤ n < two64 → n ≤ zlen tl →
  1 + zlen (putint n ++ tl) < two64 →
  readKind (z2b (kind_large k + zlen (putint n)) :: putint n ++ tl)
  = Ok (k, 1 + zlen (putint n), n).
Proof.
  intros Hk Hn Hlen Hbig. pose proof (zlen_nonneg tl).
  assert (1 ≤ zlen (putint n) ≤ 8) as Hp.
  { unfold zlen. rewrite length_putint by lia.
    pose proof (byte_len_u64 n ltac:(unfold is_u64; lia)).
    pose proof (byte_len_pos n ltac:(lia)). lia. }
  assert (∀ b, sub64 (zlen (b :: putint n ++ tl)) (1 + zlen (putint n)) = zlen tl) as Hsub.
  { intros b. change (b :: putint n ++ tl) with ([b] ++ putint n ++ tl).
    rewrite !zlen_app in *. change (zlen [b]) with 1.
    rewrite sub64_small; unfold is_u64; lia. }
  unfold readKind. rewrite b2z_z2b.
  assert (∀ t, Z.to_nat (t + zlen (putint n) - t) = length (putint n)) as Hsl
    by (unfold zlen; lia).
  assert (∀ t, t + zlen (putint n) - t + 1 = 1 + zlen (putint n)) as Htag by lia.
  destruct k; [done| |]; cbn [kind_large] in *; rewrite Z.mod_small by lia;
    ztests; rewrite Hsl, Htag, readSize_putint by lia;
    cbn -[sub64 zlen putint]; rewrite Hsub; by ztests.
Qed.

Lemma readKind_head k c rest :
  k ≠ KByte →
  (k = KString → zlen c = 1 → ∃ b, c = [b] ∧ 128 ≤ b2z b) →
  zlen (puthead (kind_small k) (kind_large k) (zlen c) ++ c ++ rest) < two64 →
  readKind (puthead (kind_small k) (kind_large k) (zlen c) ++ c ++ rest)
  = Ok (k, zlen (puthead (kind_small k) (kind_large k) (zlen c)), zlen c).
Proof.
  intros Hk H1 Hlen. pose proof (zlen_nonneg c). pose proof (zlen_nonneg rest).
  pose proof (zlen_nonneg (puthead (kind_small k) (kind_large k) (zlen c))).
  rewrite !zlen_app in Hlen. unfold puthead in *.
  destruct (Z.ltb_spec (zlen c) 56); cbn [app].
  - apply readKind_small; rewrite ?zlen_app; try lia; [done| |].
    + intros -> E. destruct H1 as [b [-> Hb]]; [done..|]. by exists b, rest.
    + rewrite zlen_cons in Hlen. change (zlen (@nil Byte.byte)) with 0 in Hlen. lia.
  - change (Z.of_nat (length (putint (zlen c)))) with (zlen (putint (zlen c))).
    rewrite readKind_large; rewrite ?zlen_app; try lia; [|done|].
    + by rewrite zlen_cons.
    + rewrite zlen_cons in Hlen. unfold zlen in *; lia.
Qed.

(** ** Round trip and canonicity of [Split] *)

(** The kind and content under which [Split] sees an encoded tree. *)
Definition split_kind (it : item) : Kind :=
  match it with
  | Str [b] => if b2z b <=? 0x7F then KByte else KString
  | Str _ => KString
  | Lst _ => KList
  end.
Definition split_content (it : item) : bytes :=
  match it with Str s => s | Lst l => encode_list l end.

Lemma encode_head it :
  split_kind it ≠ KByte →
  encode it = puthead (kind_small (split_kind it)) (kind_large (split_kind it))
                (zlen (split_content it)) ++ split_content it.
Proof.
  destruct it as [[|b [|c s]]|l]; simpl; intros H; try done. by destruct (b2z b <=? 127).
Qed.

Lemma encode_str_head s :
  (∀ b, s = [b] → 128 ≤ b2z b) → encode (Str s) = puthead 0x80 0xB7 (zlen s) ++ s.
Proof.
  intros H. simpl. unfold encode_str. destruct s as [|b [|c s]]; [done| |done].
  specialize (H b eq_refl). by ztests.
Qed.

Lemma split_byte b tl :
  b2z b <= 0x7F → 1 + zlen tl < two64 → readKind (b :: tl) = Ok (KByte, 0, 1).
Proof.
  intros Hb Hl. pose proof (b2z_bound b). pose proof (zlen_nonneg tl).
  unfold readKind. ztests. cbn -[sub64 zlen]. rewrite zlen_cons.
  rewrite sub64_small by (unfold is_u64; lia). by ztests.
Qed.

Lemma readKind_encode it rest :
  zlen (encode it ++ rest) < two64 →
  readKind (encode it ++ rest)
  = Ok (split_kind it, zlen (encode it) - zlen (split_content it), zlen (split_content it)).
Proof.
  intros Hlen. destruct (decide (split_kind it = KByte)) as [E|E].
  - destruct it as [[|b [|c s]]|l]; simpl in E; try done.
    destruct (b2z b <=? 127) eqn:Eb; [|done]. cbn [encode encode_str split_content split_kind] in *.
    rewrite Eb in *. bprop. cbn [app] in *. rewrite zlen_cons in Hlen.
    by rewrite split_byte.
  - rewrite (encode_head it E) in Hlen |- *. rewrite <- app_assoc in Hlen |- *.
    rewrite readKind_head; [|done| |done].
    + do 2 f_equal. rewrite zlen_app. f_equal. lia.
    + intros Ek E1. destruct it as [[|b [|c s]]|l]; simpl in *; try done.
      * exists b. split; [done|]. destruct (b2z b <=? 127) eqn:Eb; [done|]. bprop. lia.
      * exfalso. rewrite !zlen_cons in E1. pose proof (zlen_nonneg s). lia.
Qed.

Lemma encode_nonempty it : (0 < length (encode it))%nat.
Proof.
  destruct (decide (split_kind it = KByte)) as [E|E].
  - destruct it as [[|b [|c s]]|l]; simpl in *; try done.
    destruct (b2z b <=? 127); simpl; lia.
  - rewrite encode_head by done. unfold puthead.
    destruct (_ <? _); cbn [app length]; lia.
Qed.

Lemma encode_content it :
  ∃ h, encode it = h ++ split_content it ∧
       zlen (encode it) - zlen (split_content it) = zlen h.
Proof.
  destruct (decide (split_kind it = KByte)) as [E|E].
  - exists []. destruct it as [[|b [|c s]]|l]; simpl in *; try done.
    destruct (b2z b <=? 127); [|done]. split; [done|reflexivity].
  - eexists. split; [by apply encode_head|]. rewrite encode_head by done.
    rewrite zlen_app. lia.
Qed.

Lemma Split_encode it rest :
  zlen (encode it ++ rest) < two64 →
  Split (encode it ++ rest) = Ok (split_kind it, split_content it, rest).
Proof.
  intros Hlen. unfold Split. rewrite readKind_encode by done. cbn [mbind result_bind].
  destruct (encode_content it) as [h [He Hz]]. rewrite Hz.
  rewrite He. pose proof (zlen_nonneg h).
  replace (Z.to_nat (zlen h + zlen (split_content it)))
    with (length (h ++ split_content it)) by (rewrite length_app; unfold zlen; lia).
  rewrite drop_app_length. do 3 f_equal.
  unfold zlen. rewrite !Nat2Z.id, <- app_assoc, drop_app_length. apply take_app_length.
Qed.

(** A size read by [readSize] is the one [putint] writes. *)
Lemma readSize_canonical b slen x :
  (1 ≤ slen ≤ 8)%nat → readSize b slen = Ok x →
  56 ≤ x < two64 ∧ length (putint x) = slen ∧ take slen b = putint x.
Proof.
  intros Hs H. unfold readSize in H.
  destruct (Nat.ltb_spec (length b) slen); [done|].
  destruct (Nat.leb_spec slen 8); [|lia].
  destruct b as [|b0 b]; [done|].
  destruct ((_ <? 56) || _) eqn:E; [done|]. simplify_eq.
  apply orb_false_iff in E as [E1 E2]. bprop.
  set (l := take slen (b0 :: b)) in *.
  assert (length l = slen) as Hl by (unfold l; rewrite length_take; lia).
  assert (∃ t, l = b0 :: t ∧ length t = (slen - 1)%nat) as [t [Ht Htl]].
  { unfold l. destruct slen as [|n]; [lia|]. exists (take n b). split; [done|].
    rewrite length_take. simpl in *. lia. }
  pose proof (of_be_bound l) as Hb. rewrite Hl in Hb.
  assert (of_be l < two64).
  { unfold two64. apply (Z.lt_le_trans _ _ _ (proj2 Hb)).
    change (2 ^ 64) with (256 ^ 8). apply Z.pow_le_mono_r; lia. }
  assert (byte_len (of_be l) = slen) as Hbl.
  { apply byte_len_unique; [lia|]. split; [|lia].
    rewrite Ht, of_be_cons, Htl. pose proof (b2z_bound b0).
    pose proof (of_be_bound t).
    replace (Z.of_nat slen - 1) with (Z.of_nat (slen - 1)) by lia.
    assert (0 < 256 ^ Z.of_nat (slen - 1)) by lia. nia. }
  split_and!; [lia..|rewrite length_putint; lia|].
  rewrite putint_to_be, Hbl, <- Hl by lia. by rewrite to_be_of_be.
Qed.

(** A long header: tag byte [t + n], then an [n]-byte size. *)
Lemma large_head_canonical b0 tl t st n ts cs :
  (1 ≤ n ≤ 8)%nat → b2z b0 = t + Z.of_nat n → ts = Z.of_nat n + 1 →
  readSize tl n = Ok cs →
  ts ≤ 1 + zlen tl ∧ 56 ≤ cs < two64 ∧
  take (Z.to_nat ts) (b0 :: tl) = puthead st t cs.
Proof.
  intros Hn Hb -> HR. apply readSize_canonical in HR as (? & Hp & Ht); [|done].
  assert (n ≤ length tl)%nat by (rewrite <- Hp, <- Ht, length_take; lia).
  split_and!; [unfold zlen; lia|lia..|].
  replace (Z.to_nat (Z.of_nat n + 1)) with (S n) by lia. cbn [take]. rewrite Ht.
  unfold puthead. ztests. rewrite Hp, <- Hb. by rewrite z2b_b2z.
Qed.

(** The header [readKind] accepted is the canonical one for the sizes it
    returns. *)
Lemma readKind_canonical b k ts cs :
  zlen b < two64 → readKind b = Ok (k, ts, cs) →
  0 ≤ ts ∧ 0 ≤ cs ∧ ts + cs ≤ zlen b ∧
  (k = KByte → ts = 0 ∧ cs = 1 ∧ ∃ x l, b = x :: l ∧ b2z x < 0x80) ∧
  (k ≠ KByte →
     take (Z.to_nat ts) b = puthead (kind_small k) (kind_large k) cs ∧ 1 ≤ ts ∧
     (k = KString → cs = 1 → ∀ x, b !! Z.to_nat ts = Some x → 0x80 ≤ b2z x)).
Proof.
  intros Hlen H. unfold readKind in H. destruct b as [|b0 tl]; [done|].
  pose proof (b2z_bound b0) as Hb0. pose proof (zlen_nonneg tl) as Htl.
  rewrite zlen_cons in Hlen.
  apply bind_ok in H as [[[k' ts'] cs'] [Hk H]].
  destruct (sub64 (zlen (b0 :: tl)) ts' <? cs') eqn:Esz; [done|]. simplify_eq. bprop.
  rewrite zlen_cons in Esz |- *.
  destruct (b2z b0 <? 0x80) eqn:T1; bprop.
  { simplify_eq. rewrite sub64_small in Esz by (unfold is_u64; lia).
    split_and!; try lia; [|done]. intros _. split_and!; try done. by exists b0, tl. }
  destruct (b2z b0 <? 0xB8) eqn:T2; bprop.
  { assert (KString = k ∧ 1 = ts ∧ b2z b0 - 0x80 = cs ∧
            (cs = 1 → ∀ x l, tl = x :: l → 0x80 ≤ b2z x)) as (<- & <- & <- & H1).
    { destruct tl as [|b1 tl]; [by simplify_eq|].
      destruct ((b2z b0 - 0x80 =? 1) && (b2z b1 <? 128)) eqn:E; [done|]. simplify_eq.
      split_and!; try done. intros E1 x l ?; simplify_eq.
      rewrite E1, Z.eqb_refl in E. simpl in E. bprop. lia. }
    rewrite sub64_small in Esz by (unfold is_u64; lia).
    split_and!; try lia; [done|]. intros _. split_and!; [|lia|].
    - change (Z.to_nat 1) with 1%nat. cbn [take]. unfold puthead. simpl. ztests.
      replace (128 + (b2z b0 - 128)) with (b2z b0) by lia. by rewrite z2b_b2z.
    - intros _ E1 x Hx. destruct tl as [|b1 tl]; [done|]. simplify_eq/=. by eapply H1. }
  destruct (b2z b0 <? 0xC0) eqn:T3; bprop; [|destruct (b2z b0 <? 0xF8) eqn:T4; bprop].
  2: { simplify_eq. rewrite sub64_small in Esz by (unfold is_u64; lia).
    split_and!; try lia; [done|]. intros _. split_and!; [|lia|done].
    change (Z.to_nat 1) with 1%nat. cbn [take]. unfold puthead. simpl. ztests.
    replace (192 + (b2z b0 - 192)) with (b2z b0) by lia. by rewrite z2b_b2z. }
  all: apply bind_ok in Hk as [size [HR Hk]]; simplify_eq;
    first [ apply (large_head_canonical b0 tl 0xB7 0x80 _ (b2z b0 - 0xB7 + 1)) in HR
              as (? & ? & Ht); [|lia..]
          | apply (large_head_canonical b0 tl 0xF7 0xC0 _ (b2z b0 - 0xF7 + 1)) in HR
              as (? & ? & Ht); [|lia..] ];
    rewrite sub64_small in Esz by (unfold is_u64; lia);
    split_and!; try lia; try done; intros _; split_and!; [exact Ht|lia|try done; lia].
Qed.

Lemma Split_canonical_kind b k content rest :
  zlen b < two64 → Split b = Ok (k, content, rest) →
  match k with
  | KList => b = puthead 0xC0 0xF7 (zlen content) ++ content ++ rest
  | _ => b = encode (Str content) ++ rest
  end.
Proof.
  intros Hlen H. unfold Split in H. apply bind_ok in H as [[[k' ts] cs] [Hk H]].
  simplify_eq. apply readKind_canonical in Hk as (Hts & Hcs & Hsum & HB & HN); [|done].
  assert (zlen (take (Z.to_nat cs) (drop (Z.to_nat ts) b)) = cs) as Hzl.
  { unfold zlen in *. rewrite length_take, length_drop. lia. }
  assert (b = take (Z.to_nat ts) b ++ take (Z.to_nat cs) (drop (Z.to_nat ts) b)
              ++ drop (Z.to_nat (ts + cs)) b) as Hb.
  { replace (Z.to_nat (ts + cs)) with (Z.to_nat ts + Z.to_nat cs)%nat by lia.
    rewrite <- drop_drop, take_drop. by rewrite take_drop. }
  destruct k.
  - destruct (HB eq_refl) as (-> & -> & x & l & -> & Hx). simpl. unfold encode_str.
    change (Z.to_nat 1) with 1%nat. cbn [take]. by ztests.
  - destruct (HN ltac:(done)) as (Ht & Hts1 & H1). rewrite Hb at 1. rewrite Ht, app_assoc.
    f_equal. rewrite <- Hzl at 1. simpl. unfold encode_str.
    destruct (take (Z.to_nat cs) (drop (Z.to_nat ts) b)) as [|c [|d s]] eqn:E; [done| |done].
    assert (cs = 1) as ->  by (rewrite <- Hzl; reflexivity).
    assert (b !! Z.to_nat ts = Some c) as Hc.
    { assert (drop (Z.to_nat ts) b !! 0%nat = Some c).
      { rewrite <- (take_drop (Z.to_nat 1) (drop (Z.to_nat ts) b)), E. done. }
      rewrite lookup_drop, Nat.add_0_r in H. done. }
    specialize (H1 eq_refl eq_refl c Hc). ztests. done.
  - destruct (HN ltac:(done)) as (Ht & _ & _). rewrite Hb at 1. rewrite Ht.
    simpl. by rewrite Hzl.
Qed.

Lemma encode_list_cons x l : encode_list (x :: l) = encode x ++ encode_list l.
Proof. done. Qed.

(** The encoding of a tree is not a prefix of another tree's, and determines
    the tree. *)
Lemma encode_prefix_inj it1 it2 r1 r2 :
  zlen (encode it1 ++ r1) < two64 →
  encode it1 ++ r1 = encode it2 ++ r2 → it1 = it2 ∧ r1 = r2.
Proof.
  revert it2 r1 r2. induction it1 as [s|l IH] using item_ind'; intros it2 r1 r2 Hlen E.
  all: pose proof (Split_encode _ _ Hlen) as H1.
  all: rewrite E in Hlen, H1; pose proof (Split_encode _ _ Hlen) as H2.
  all: rewrite H1 in H2; injection H2 as Hk Hc Hr; split; [|done].
  - destruct it2 as [s2|l2]; [by simplify_eq/=|].
    destruct s as [|b [|c s]]; simpl in Hk; try done. by destruct (_ <=? _).
  - destruct it2 as [s2|l2].
    { destruct s2 as [|b [|c s2]]; simpl in Hk; try done. by destruct (_ <=? _). }
    f_equal. simpl in Hc.
    assert (zlen (encode_list l2) < two64) as Hl2.
    { rewrite zlen_app in Hlen. destruct (encode_content (Lst l2)) as [h [He _]].
      rewrite He in Hlen. rewrite zlen_app in Hlen. simpl in Hlen.
      pose proof (zlen_nonneg h). pose proof (zlen_nonneg r2). lia. }
    clear -IH Hc Hl2. revert l2 Hc Hl2.
    induction IH as [|x l Hx _ IHl]; intros [|y l2] Hc Hl2; [done|..].
    + pose proof (encode_nonempty y). rewrite encode_list_cons in Hc.
      apply (f_equal length) in Hc. rewrite length_app in Hc. simpl in Hc. lia.
    + pose proof (encode_nonempty x). rewrite encode_list_cons in Hc.
      apply (f_equal length) in Hc. rewrite length_app in Hc. simpl in Hc. lia.
    + rewrite !encode_list_cons in Hc. rewrite encode_list_cons in Hl2.
      apply Hx in Hc as [-> Hc]; [|by rewrite Hc].
      f_equal. apply IHl; [done|]. rewrite zlen_app in Hl2.
      pose proof (zlen_nonneg (encode y)). lia.
Qed.

Lemma encode_inj it1 it2 :
  zlen (encode it1) < two64 → encode it1 = encode it2 → it1 = it2.
Proof.
  intros Hl E. apply (encode_prefix_inj it1 it2 [] []); rewrite !app_nil_r; done.
Qed.

(** ** The buffer writes the reference encoding *)

Definition shift_heads (n : nat) (l : list listhead) : list listhead :=
  map (fun h => ListHead (n + lh_offset h) (lh_size h)) l.

Definition plan_t : Type := bytes * list listhead * nat.

Fixpoint plan_all (ps : list plan_t) : plan_t :=
  match ps with
  | [] => ([], [], 0%nat)
  | (ds, dh, hs) :: ps =>
      let '(ds', dh', hs') := plan_all ps in
      (ds ++ ds', dh ++ shift_heads (length ds) dh', (hs + hs')%nat)
  end.

(** String data, list heads (offsets relative to the start) and total header
    size that a tree adds to a buffer. *)
Fixpoint plan (it : item) : plan_t :=
  match it with
  | Str s => (encode_str s, [], 0%nat)
  | Lst l =>
      let '(ds, dh, hs) := plan_all (map plan l) in
      let size := (length ds + hs)%nat in
      (ds, ListHead 0 size :: dh, (hs + headsize (Z.of_nat size))%nat)
  end.

Definition extend (buf : encBuffer) (p : plan_t) : encBuffer :=
  let '(ds, dh, hs) := p in
  EncBuffer (eb_str buf ++ ds)
    (eb_lheads buf ++ shift_heads (length (eb_str buf)) dh) (eb_lhsize buf + hs).

Lemma shift_heads_shift a b l : shift_heads a (shift_heads b l) = shift_heads (a + b) l.
Proof.
  unfold shift_heads. rewrite map_map. apply map_ext. intros []; simpl. f_equal. lia.
Qed.

Lemma shift_heads_app a l1 l2 :
  shift_heads a (l1 ++ l2) = shift_heads a l1 ++ shift_heads a l2.
Proof. apply map_app. Qed.

Lemma writeBytes_encode s buf : writeBytes s buf = eb_Write (encode_str s) buf.
Proof.
  assert (∀ b, eb_Write b (encodeStringHeader (zlen b) buf)
               = eb_Write (puthead 0x80 0xB7 (zlen b) ++ b) buf) as H.
  { intros b. unfold encodeStringHeader, puthead. destruct (_ <? _); unfold eb_Write;
      simpl; by rewrite <- app_assoc. }
  unfold writeBytes, encode_str. destruct s as [|c [|d s]]; [apply H| |apply H].
  destruct (_ <=? _); [done|]. apply (H [c]).
Qed.

Lemma extend_extend buf p ps :
  extend (extend buf p) (plan_all ps) = extend buf (plan_all (p :: ps)).
Proof.
  destruct p as [[ds dh] hs]. simpl. destruct (plan_all ps) as [[ds' dh'] hs']. simpl.
  rewrite shift_heads_app, shift_heads_shift, length_app, !app_assoc. f_equal. lia.
Qed.

Lemma listEnd_extend buf p :
  let '(index, buf1) := eb_list buf in
  let '(ds, dh, hs) := p in
  let size := (length ds + hs)%nat in
  eb_listEnd index (extend buf1 p)
  = Ok (extend buf (ds, ListHead 0 size :: dh, (hs + headsize (Z.of_nat size))%nat)).
Proof.
  destruct p as [[ds dh] hs]. simpl. unfold eb_listEnd. simpl.
  rewrite <- app_assoc. simpl. rewrite list_lookup_middle by done. simpl.
  unfold eb_size. simpl. rewrite length_app.
  replace (length (eb_str buf) + length ds + (eb_lhsize buf + hs)
           - length (eb_str buf) - eb_lhsize buf)%nat with (length ds + hs)%nat by lia.
  rewrite insert_app_r_alt by lia. rewrite Nat.sub_diag. simpl.
  f_equal. rewrite Nat.add_0_r. f_equal. unfold headsize.
  destruct (Nat.ltb_spec (length ds + hs) 56); ztests; lia.
Qed.

Lemma writeItem_plan it buf : writeItem it buf = Ok (extend buf (plan it)).
Proof.
  revert buf. induction it as [s|l IH] using item_ind'; intros buf.
  - cbn [writeItem plan]. rewrite writeBytes_encode. unfold eb_Write, extend. simpl.
    by rewrite app_nil_r, Nat.add_0_r.
  - cbn [writeItem plan]. pose proof (listEnd_extend buf (plan_all (map plan l))) as HL.
    destruct (eb_list buf) as [index buf1].
    match goal with |- context [?f l buf1] => set (W := f) end.
    assert (∀ b, W l b = Ok (extend b (plan_all (map plan l)))) as ->.
    { clear -IH. induction IH as [|x l Hx _ IHl]; intros b.
      - destruct b. simpl. unfold extend. by rewrite !app_nil_r, Nat.add_0_r.
      - cbn [map]. rewrite <- extend_extend. simpl. rewrite Hx. simpl. apply IHl. }
    simpl. destruct (plan_all (map plan l)) as [[ds dh] hs]. apply HL.
Qed.

(** Assembling the output: string data before the next header is copied
    first. *)
Lemma copyTo_advance str p q heads :
  (p ≤ q ≤ length str)%nat → Forall (fun h => (q ≤ lh_offset h)%nat) heads →
  copyTo str p heads = take (q - p) (drop p str) ++ copyTo str q heads.
Proof.
  intros Hpq Hall. destruct heads as [|h heads]; simpl.
  - replace q with (p + (q - p))%nat at 2 by lia. rewrite <- drop_drop. by rewrite take_drop.
  - apply Forall_cons in Hall as [Hh Hall].
    assert (take (lh_offset h - p) (drop p str)
            = take (q - p) (drop p str) ++ take (lh_offset h - q) (drop q str)) as ->.
    { replace (drop q str) with (drop (q - p) (drop p str))
        by (rewrite drop_drop; f_equal; lia).
      rewrite <- (take_drop (q - p) (take (lh_offset h - p) (drop p str))) at 1.
      rewrite take_take, Nat.min_l by lia. f_equal.
      rewrite skipn_firstn_comm. f_equal. lia. }
    rewrite <- app_assoc. f_equal. f_equal. f_equal. f_equal.
    rewrite length_app, length_take, length_drop. lia.
Qed.

Definition planned (out : bytes) (p : plan_t) : Prop :=
  let '(ds, dh, hs) := p in (length out = length ds + hs)%nat.

Lemma encode_list_planned l :
  Forall (fun it => zlen (encode it) < two64 → planned (encode it) (plan it)) l →
  zlen (encode_list l) < two64 → planned (encode_list l) (plan_all (map plan l)).
Proof.
  intros HF. induction HF as [|x l Hx _ IHl]; intros Hl; [done|].
  rewrite encode_list_cons, zlen_app in *.
  pose proof (zlen_nonneg (encode x)). pose proof (zlen_nonneg (encode_list l)).
  specialize (Hx ltac:(lia)). specialize (IHl ltac:(lia)). unfold planned in *.
  cbn [map plan_all].
  destruct (plan x) as [[ds dh] hs]. destruct (plan_all (map plan l)) as [[ds' dh'] hs'].
  rewrite !length_app. lia.
Qed.

Lemma encode_list_short l : zlen (encode (Lst l)) < two64 → zlen (encode_list l) < two64.
Proof.
  cbn [encode]. fold (encode_list l). rewrite zlen_app.
  pose proof (zlen_nonneg (puthead 192 247 (zlen (encode_list l)))). lia.
Qed.

Lemma encode_planned it : zlen (encode it) < two64 → planned (encode it) (plan it).
Proof.
  induction it as [s|l IH] using item_ind'; intros Hlen; [simpl; lia|].
  pose proof (encode_list_short l Hlen) as Hl.
  pose proof (encode_list_planned l IH Hl) as HL.
  cbn [encode plan] in *. fold (encode_list l) in *. unfold planned in *.
  destruct (plan_all (map plan l)) as [[ds dh] hs].
  rewrite length_app, length_puthead by (pose proof (zlen_nonneg (encode_list l)); lia).
  unfold zlen. rewrite HL. lia.
Qed.

Definition offsets_from (n : nat) (heads : list listhead) : Prop :=
  Forall (fun h => (n ≤ lh_offset h)%nat) heads.

Lemma offsets_shift n heads : offsets_from n (shift_heads n heads).
Proof.
  unfold offsets_from, shift_heads. apply Forall_map, Forall_true. intros []; simpl. lia.
Qed.

(** The part of the output that comes from one tree's plan. *)
Definition renders (p : plan_t) (out : bytes) : Prop :=
  let '(ds, dh, hs) := p in
  ∀ pre post heads,
    offsets_from (length pre + length ds) heads →
    copyTo (pre ++ ds ++ post) (length pre) (shift_heads (length pre) dh ++ heads)
    = out ++ copyTo (pre ++ ds ++ post) (length pre + length ds) heads.

Lemma renders_all ps outs :
  Forall2 renders ps outs → renders (plan_all ps) (concat outs).
Proof.
  induction 1 as [|[[ds dh] hs] o ps outs Hr _ IH]; simpl.
  - intros pre post heads Hh. by rewrite Nat.add_0_r.
  - destruct (plan_all ps) as [[ds' dh'] hs']. intros pre post heads Hh.
    rewrite length_app in Hh.
    rewrite shift_heads_app, shift_heads_shift, <- !app_assoc, Hr.
    + f_equal. specialize (IH (pre ++ ds) post heads).
      rewrite <- !app_assoc, !length_app in *.
      rewrite IH; [|by rewrite <- Nat.add_assoc]. by rewrite Nat.add_assoc.
    + apply Forall_app. split; [apply offsets_shift|].
      eapply Forall_impl; [exact Hh|]. simpl. lia.
Qed.

Lemma renders_encode it : zlen (encode it) < two64 → renders (plan it) (encode it).
Proof.
  induction it as [s|l IH] using item_ind'; intros Hlen.
  - intros pre post heads Hh. cbn [shift_heads map app].
    rewrite (copyTo_advance _ (length pre) (length pre + length (encode_str s)));
      [|rewrite !length_app; lia|exact Hh].
    replace (_ + _ - _)%nat with (length (encode_str s)) by lia.
    by rewrite drop_app_length, take_app_length.
  - pose proof (encode_list_short l Hlen) as Hl.
    assert (planned (encode_list l) (plan_all (map plan l))) as HP.
    { apply encode_list_planned; [|done]. apply Forall_true. apply encode_planned. }
    assert (renders (plan_all (map plan l)) (encode_list l)) as HR.
    { apply renders_all. clear -IH Hl. induction IH as [|x l Hx _ IHl]; [constructor|].
      rewrite encode_list_cons, zlen_app in Hl. pose proof (zlen_nonneg (encode x)).
      pose proof (zlen_nonneg (encode_list l)).
      constructor; [apply Hx; lia|apply IHl; lia]. }
    cbn [encode plan]. fold (encode_list l). unfold planned in HP.
    destruct (plan_all (map plan l)) as [[ds dh] hs].
    intros pre post heads Hh. cbn [shift_heads map app copyTo lh_offset lh_size].
    rewrite Nat.add_0_r, Nat.sub_diag. cbn [take app length]. rewrite Nat.add_0_r.
    fold (shift_heads (length pre) dh). rewrite HR, <- app_assoc by done.
    unfold zlen. by rewrite HP.
Qed.

(** ** Integers *)

Definition encode_int (i : Z) : bytes := encode (Str (big_Bytes i)).

Lemma encode_int_small i : 0 < i < 128 → encode_int i = [z2b i].
Proof.
  intros. unfold encode_int, big_Bytes. rewrite Z.abs_eq, byte_len_small by lia.
  simpl. rewrite Z.div_1_r, b2z_z2b, Z.mod_small by lia. by ztests.
Qed.

Lemma encode_int_large i :
  128 ≤ i < two64 → encode_int i = z2b (0x80 + zlen (putint i)) :: putint i.
Proof.
  intros Hi. unfold encode_int, big_Bytes. rewrite Z.abs_eq by lia.
  rewrite <- putint_to_be by lia.
  pose proof (byte_len_u64 i ltac:(unfold is_u64; lia)).
  assert (zlen (putint i) ≤ 8) by (unfold zlen; rewrite length_putint; lia).
  assert (encode (Str (putint i)) = puthead 0x80 0xB7 (zlen (putint i)) ++ putint i) as ->.
  { apply encode_str_head. intros b E. assert (b2z b = i) as ->; [|lia].
    pose proof (putint_to_be i ltac:(lia)) as HP. pose proof (length_putint i ltac:(lia)) as HL.
    rewrite E in HP, HL. simpl in HL. rewrite <- HL in HP. simpl in HP. simplify_eq.
    rewrite b2z_z2b, Z.div_1_r. apply Z.mod_small.
    pose proof (byte_len_bound i ltac:(lia)) as HB. rewrite <- HL in HB. simpl in HB. lia. }
  unfold puthead. by ztests.
Qed.

Lemma writeUint64_encode i buf :
  is_u64 i → writeUint64 i buf = eb_Write (encode_int i) buf.
Proof.
  unfold is_u64. intros Hi. unfold writeUint64.
  destruct (Z.eqb_spec i 0) as [->|]; [done|].
  destruct (Z.ltb_spec i 128); [by rewrite encode_int_small by lia|].
  by rewrite encode_int_large by lia.
Qed.

Lemma put_word_spec j d index buf :
  put_word j d index buf = ((index - j)%nat, to_be (j `min` index) d ++ buf).
Proof.
  revert d index buf. induction j as [|j IH]; intros d index buf.
  - simpl. by rewrite Nat.sub_0_r.
  - destruct index as [|index]; [done|]. cbn [put_word Nat.sub Nat.min]. rewrite IH. f_equal.
    replace (S (j `min` index)) with (j `min` index + 1)%nat by lia.
    rewrite to_be_app, <- app_assoc. rewrite Z.shiftr_div_pow2 by lia.
    cbn [to_be app]. by rewrite Z.div_1_r.
Qed.

Lemma put_words_spec fuel i index buf :
  0 ≤ i < 2 ^ (64 * Z.of_nat fuel) →
  let '(idx, filled) := put_words (big_Bits fuel i) index buf in
  replicate idx Byte.x00 ++ filled = to_be index i ++ buf.
Proof.
  revert i index buf. induction fuel as [|fuel IH]; intros i index buf Hi.
  { assert (i = 0) as -> by (simpl in Hi; lia). simpl. by rewrite to_be_zero. }
  cbn [big_Bits]. destruct (Z.eqb_spec i 0) as [->|]; [simpl; by rewrite to_be_zero|].
  cbn [put_words]. rewrite put_word_spec.
  replace (64 * Z.of_nat (S fuel)) with (64 + 64 * Z.of_nat fuel) in Hi by lia.
  rewrite Z.pow_add_r in Hi by lia.
  specialize (IH (i / two64) (index - 8)%nat (to_be (8 `min` index) (i mod two64) ++ buf)).
  destruct (put_words _ _ _) as [idx filled]. unfold two64 in *. rewrite IH.
  - rewrite app_assoc. f_equal. change (2 ^ 64) with (256 ^ Z.of_nat 8).
    rewrite to_be_mod by lia. destruct (decide (8 ≤ index)%nat).
    + rewrite Nat.min_l, <- to_be_app by lia. f_equal. lia.
    + rewrite Nat.min_r by lia. by replace (index - 8)%nat with 0%nat by lia.
  - split; [apply Z.div_pos; lia|apply Z.div_lt_upper_bound; lia].
Qed.

Lemma writeBigInt_encode i buf :
  0 ≤ i → zlen (big_Bytes i) < two64 → writeBigInt i buf = eb_Write (encode_int i) buf.
Proof.
  intros Hi Hlen. unfold writeBigInt. rewrite Z.abs_eq by done.
  unfold big_BitLen. destruct (Z.eqb_spec i 0) as [->|]; [done|].
  pose proof (Z.log2_nonneg i). pose proof (Z.log2_spec i ltac:(lia)) as Hspec.
  destruct (Z.leb_spec (Z.log2 i + 1) 64).
  - assert (is_u64 i) as Hu.
    { unfold is_u64, two64. split; [lia|]. apply (Z.lt_le_trans _ _ _ (proj2 Hspec)).
      apply Z.pow_le_mono_r; lia. }
    unfold big_Uint64. rewrite Z.abs_eq, u64_small by (done || lia).
    by apply writeUint64_encode.
  - rewrite Z.shiftr_land, Z.shiftr_div_pow2 by lia.
    change (Z.shiftr (-8) 3) with (-1). rewrite Z.land_m1_r.
    assert (Z.to_nat ((Z.log2 i + 1 + 7) / 2 ^ 3) = byte_len i) as HL.
    { unfold byte_len. ztests. f_equal. change (2 ^ 3) with 8.
      replace (Z.log2 i + 1 + 7) with (Z.log2 i + 1 * 8) by lia.
      by rewrite Z.div_add by lia. }
    assert (9 ≤ byte_len i)%nat by (rewrite <- HL; dlia).
    pose proof (put_words_spec (Z.to_nat (Z.log2 i + 1)) i (byte_len i) []) as HW.
    rewrite HL. destruct (put_words _ _ _) as [idx filled]. rewrite HW.
    + unfold encode_int. rewrite encode_str_head.
      * unfold eb_Write, encodeStringHeader, puthead.
        replace ((Z.log2 i + 1 + 7) / 2 ^ 3) with (zlen (big_Bytes i))
          by (unfold zlen; rewrite length_big_Bytes, Z.abs_eq, <- HL by lia; dlia).
        rewrite app_nil_r. unfold big_Bytes. rewrite Z.abs_eq by lia.
        destruct (_ <? 56); simpl; by rewrite <- app_assoc.
      * intros b E. apply (f_equal length) in E.
        rewrite length_big_Bytes, Z.abs_eq in E by lia. simpl in E. lia.
    + split; [lia|]. apply (Z.lt_le_trans _ _ _ (proj2 Hspec)).
      apply Z.pow_le_mono_r; lia.
Qed.

Lemma SplitUint64_encode_int i rest :
  is_u64 i → zlen (encode_int i ++ rest) < two64 →
  SplitUint64 (encode_int i ++ rest) = Ok (i, rest).
Proof.
  unfold is_u64. intros Hi Hlen. unfold SplitUint64, SplitString.
  unfold encode_int in *. rewrite Split_encode by done. cbn [mbind result_bind].
  assert (split_kind (Str (big_Bytes i)) ≠ KList) as Hk.
  { simpl. destruct (big_Bytes i) as [|? [|]]; try done. by destruct (_ <=? _). }
  cbn [split_content]. destruct (Z.eq_dec i 0) as [->|]; [done|].
  assert (big_Bytes i = putint i) as HB.
  { unfold big_Bytes. rewrite Z.abs_eq by lia. by rewrite putint_to_be by lia. }
  pose proof (byte_len_u64 i ltac:(unfold is_u64; lia)).
  pose proof (byte_len_pos i ltac:(lia)). pose proof (length_putint i ltac:(lia)) as HL.
  pose proof (byte_len_lower i ltac:(lia)) as Hlow.
  pose proof (of_be_big_Bytes i ltac:(lia)) as HO. rewrite HB in *.
  destruct (split_kind _); [|..|done].
  all: simpl; destruct (putint i) as [|c [|d l]] eqn:E.
  all: try (simpl in HL; lia).
  1, 3: rewrite of_be_single in HO; rewrite HO; by ztests.
  all: destruct (Nat.ltb_spec 8 (length (c :: d :: l))); [simpl in *; lia|].
  all: assert (56 ≤ i) by (simpl in HL; rewrite <- HL in Hlow; simpl in Hlow;
         assert (256 ^ 1 ≤ 256 ^ (Z.pos (Pos.succ (Pos.of_succ_nat (length l))) - 1))
           by (apply Z.pow_le_mono_r; lia); lia).
  all: rewrite <- E; pose proof (readSize_putint i [] ltac:(lia)) as HR;
       rewrite app_nil_r in HR; by rewrite HR.
Qed.

Lemma AppendUint64_encode b i : is_u64 i → AppendUint64 b i = b ++ encode_int i.
Proof.
  unfold is_u64. intros. unfold AppendUint64. destruct (Z.eqb_spec i 0) as [->|]; [done|].
  destruct (Z.ltb_spec i 128); [by rewrite encode_int_small by lia|].
  by rewrite encode_int_large by lia.
Qed.

Lemma count_loop_encode l fuel i :
  zlen (encode_list l) < two64 → (length (encode_list l) ≤ fuel)%nat →
  count_loop fuel (encode_list l) i = Ok (i + zlen l).
Proof.
  revert fuel i. induction l as [|x l IH]; intros fuel i Hlen Hf.
  { destruct fuel; simpl; f_equal; unfold zlen; simpl; lia. }
  rewrite encode_list_cons in *. pose proof (encode_nonempty x).
  rewrite length_app in Hf. destruct fuel as [|fuel]; [lia|].
  assert (count_loop (S fuel) (encode x ++ encode_list l) i
          = ('(_, tagsize, size) ← readKind (encode x ++ encode_list l);
             count_loop fuel (drop (Z.to_nat (tagsize + size)) (encode x ++ encode_list l)) (i + 1)))
    as ->.
  { destruct (encode x ++ encode_list l) eqn:E; [|done].
    apply (f_equal length) in E. rewrite length_app in E. simpl in E. lia. }
  rewrite readKind_encode by done. cbn [mbind result_bind].
  replace (Z.to_nat _) with (length (encode x)) by (unfold zlen; lia).
  rewrite drop_app_length, IH, zlen_cons; [f_equal; lia| |lia].
  rewrite zlen_app in Hlen. pose proof (zlen_nonneg (encode x)). lia.
Qed.

Lemma makeBytes_plan it :
  zlen (encode it) < two64 → makeBytes (extend emptyBuffer (plan it)) = encode it.
Proof.
  intros Hlen. pose proof (renders_encode it Hlen) as HR. unfold makeBytes, renders, extend in *.
  destruct (plan it) as [[ds dh] hs]. simpl.
  specialize (HR [] [] [] ltac:(constructor)). rewrite !app_nil_r in HR. simpl in HR.
  rewrite HR. simpl. by rewrite drop_all, app_nil_r.
Qed.

(** [EncodeToBytes] on a tree of representable size. *)
Lemma EncodeToBytes_ok it : zlen (encode it) < two64 → EncodeToBytes it = Ok (encode it).
Proof.
  intros Hlen. unfold EncodeToBytes. rewrite writeItem_plan. simpl. by rewrite makeBytes_plan.
Qed.

(** ** Properties *)

(** C40: The deferred-header buffer assembles exactly the recursive encoding of the
    tree, if that is shorter than 2^64 bytes, and the destination it allocates
    ([size()] bytes) is exactly filled. *)
Theorem EncodeToBytes_encode (it : item) :
  zlen (encode it) < two64 →
  EncodeToBytes it = Ok (encode it) ∧
  ∃ buf, writeItem it emptyBuffer = Ok buf ∧ eb_size buf = length (makeBytes buf).
Proof.
  intros Hlen. split; [by apply EncodeToBytes_ok|]. rewrite writeItem_plan.
  eexists. split; [done|]. rewrite makeBytes_plan by done.
  pose proof (encode_planned it Hlen) as HP. unfold planned, eb_size, extend in *.
  destruct (plan it) as [[ds dh] hs]. simpl. lia.
Qed.

Lemma EncodeToBytes_encode_witness :
  EncodeToBytes (Lst [Str (to_be 3 0x646f67); Lst [Str []]])
  = Ok [z2b 0xC6; z2b 0x83; z2b 0x64; z2b 0x6f; z2b 0x67; z2b 0xC1; z2b 0x80].
Proof.
  refine (eq_trans (proj1 (EncodeToBytes_encode
    (Lst [Str (to_be 3 0x646f67); Lst [Str []]]) _)) _); vm_compute; reflexivity.
Defined.

(** Splitting an encoding that is followed by arbitrary bytes gives back its
    kind, its content and those bytes. *)
Theorem Split_roundtrip (it : item) (rest : bytes) :
  zlen (encode it ++ rest) < two64 →
  Split (encode it ++ rest) = Ok (split_kind it, split_content it, rest).
Proof. apply Split_encode. Qed.

Lemma Split_roundtrip_witness :
  Split (encode (Str (to_be 2 0x0400)) ++ [z2b 7])
  = Ok (KString, [z2b 4; z2b 0], [z2b 7]).
Proof.
  refine (eq_trans (Split_roundtrip (Str (to_be 2 0x0400)) [z2b 7] _) _);
    vm_compute; reflexivity.
Defined.

(** The decoder accepts canonical encodings only: whatever [Split] accepts is
    the reference encoding of the content it returns, followed by the rest it
    returns. *)
Theorem Split_canonical (b : bytes) (k : Kind) (content rest : bytes) :
  zlen b < two64 → Split b = Ok (k, content, rest) →
  match k with
  | KList => b = puthead 0xC0 0xF7 (zlen content) ++ content ++ rest
  | _ => b = encode (Str content) ++ rest
  end.
Proof. apply Split_canonical_kind. Qed.

Lemma Split_canonical_witness :
  [z2b 0x82; z2b 4; z2b 0; z2b 7]
  = encode (Str [z2b 4; z2b 0]) ++ [z2b 7].
Proof.
  apply (Split_canonical [z2b 0x82; z2b 4; z2b 0; z2b 7] KString [z2b 4; z2b 0] [z2b 7]);
    vm_compute; reflexivity.
Defined.

(** [AppendUint64] and [SplitUint64] are inverse on uint64 values, whatever
    precedes and follows the encoded integer. *)
Theorem Uint64_roundtrip (b : bytes) (i : Z) (rest : bytes) :
  is_u64 i → zlen (encode_int i ++ rest) < two64 →
  SplitUint64 (drop (length b) (AppendUint64 b i ++ rest)) = Ok (i, rest).
Proof.
  intros Hi Hlen. rewrite AppendUint64_encode by done.
  rewrite <- app_assoc, drop_app_length. by apply SplitUint64_encode_int.
Qed.

Lemma Uint64_roundtrip_witness :
  SplitUint64 (drop 1 (AppendUint64 [z2b 9] 0xFFCC ++ [z2b 1])) = Ok (0xFFCC, [z2b 1]).
Proof.
  apply (Uint64_roundtrip [z2b 9] 0xFFCC [z2b 1]);
    [unfold is_u64, two64; lia|vm_compute; reflexivity].
Defined.

(** [CountValues] of a sequence of encoded values is their number; in
    particular the loop ends. *)
Theorem CountValues_encode (l : list item) :
  zlen (encode_list l) < two64 → CountValues (encode_list l) = Ok (zlen l).
Proof. intros H. unfold CountValues. rewrite count_loop_encode by lia. done. Qed.

Lemma CountValues_encode_witness :
  CountValues (encode_list [Str []; Lst [Str [z2b 1]]; Str (to_be 60 5)]) = Ok 3.
Proof.
  apply (CountValues_encode [Str []; Lst [Str [z2b 1]]; Str (to_be 60 5)]).
  vm_compute. reflexivity.
Defined.
