(* ===== verification/Types.v ===== *)
(** * Block headers (chain/core/types) and the hash and recovery primitives

    [Header] is types.Header; its RLP encoding is the generated
    gen_header_rlp.go, written on the encoder buffer of [Rlp]. Keccak-256
    (golang.org/x/crypto/sha3) and public-key recovery (libsecp256k1) are
    parameters of the model, gathered in the class [Crypto]. *)

From S2P Require Import Prelude Bytes Rlp.

(** ** Primitives that are not Go code of this repository *)

Class Crypto := {
  (** Keccak-256 of a byte string, as a 256-bit number. *)
  keccak256 : bytes → Hash;
  (** secp256k1.RecoverPubkey(hash, sig): the 65-byte uncompressed key. *)
  RecoverPubkey : bytes → bytes → option bytes
}.

Section Crypto.
Context `{Crypto}.

(** [crypto.Ecrecover]. *)
Definition Ecrecover (hash sig : bytes) : result bytes :=
  match RecoverPubkey hash sig with
  | Some pub => Ok pub
  | None => Err (New "recovery failed")
  end.

(** [common.BytesToAddress(Keccak256(pubBytes[1:])[12:])]: the low 160 bits of
    the hash of the key without its 0x04 prefix. *)
Definition pubkeyToAddress (pub : bytes) : Address :=
  keccak256 (drop 1 pub) mod 256 ^ 20.

(** [crypto.SigToPub] followed by [crypto.PubkeyToAddress]. *)
Definition SigToAddress (hash sig : bytes) : result Address :=
  pub ← Ecrecover hash sig; Ok (pubkeyToAddress pub).
End Crypto.

(** ** Headers *)

Record Header := MkHeader {
  ParentHash : Hash;
  UncleHash : Hash;
  Coinbase : Address;
  Root : Hash;
  TxHash : Hash;
  ReceiptHash : Hash;
  Bloom : Z;
  Difficulty : option Z;
  Number : option Z;
  GasLimit : Z;
  GasUsed : Z;
  Time : Z;
  Extra : bytes;
  MixDigest : Hash;
  Nonce : Z;
  BaseFee : option Z
}.

(** Field updates, for the handlers that fill a header in. *)
Definition set_Coinbase h c := MkHeader (ParentHash h) (UncleHash h) c (Root h) (TxHash h)
  (ReceiptHash h) (Bloom h) (Difficulty h) (Number h) (GasLimit h) (GasUsed h) (Time h)
  (Extra h) (MixDigest h) (Nonce h) (BaseFee h).
Definition set_Nonce h n := MkHeader (ParentHash h) (UncleHash h) (Coinbase h) (Root h) (TxHash h)
  (ReceiptHash h) (Bloom h) (Difficulty h) (Number h) (GasLimit h) (GasUsed h) (Time h)
  (Extra h) (MixDigest h) n (BaseFee h).
Definition set_Difficulty h d := MkHeader (ParentHash h) (UncleHash h) (Coinbase h) (Root h)
  (TxHash h) (ReceiptHash h) (Bloom h) d (Number h) (GasLimit h) (GasUsed h) (Time h)
  (Extra h) (MixDigest h) (Nonce h) (BaseFee h).
Definition set_Extra h e := MkHeader (ParentHash h) (UncleHash h) (Coinbase h) (Root h)
  (TxHash h) (ReceiptHash h) (Bloom h) (Difficulty h) (Number h) (GasLimit h) (GasUsed h)
  (Time h) e (MixDigest h) (Nonce h) (BaseFee h).
Definition set_MixDigest h m := MkHeader (ParentHash h) (UncleHash h) (Coinbase h) (Root h)
  (TxHash h) (ReceiptHash h) (Bloom h) (Difficulty h) (Number h) (GasLimit h) (GasUsed h)
  (Time h) (Extra h) m (Nonce h) (BaseFee h).
Definition set_Time h t := MkHeader (ParentHash h) (UncleHash h) (Coinbase h) (Root h)
  (TxHash h) (ReceiptHash h) (Bloom h) (Difficulty h) (Number h) (GasLimit h) (GasUsed h)
  t (Extra h) (MixDigest h) (Nonce h) (BaseFee h).
Definition set_Root h r := MkHeader (ParentHash h) (UncleHash h) (Coinbase h) r
  (TxHash h) (ReceiptHash h) (Bloom h) (Difficulty h) (Number h) (GasLimit h) (GasUsed h)
  (Time h) (Extra h) (MixDigest h) (Nonce h) (BaseFee h).
Definition set_UncleHash h u := MkHeader (ParentHash h) u (Coinbase h) (Root h)
  (TxHash h) (ReceiptHash h) (Bloom h) (Difficulty h) (Number h) (GasLimit h) (GasUsed h)
  (Time h) (Extra h) (MixDigest h) (Nonce h) (BaseFee h).

(** [header.Number.Uint64()]. *)
Definition NumberU64 (h : Header) : result Z :=
  n ← deref (Number h); Ok (big_Uint64 n).

(** A block: header, transactions (opaque here) and uncle headers. *)
Record Block := MkBlock {
  blk_header : Header;
  blk_ntxs : Z;            (* len(Transactions()) *)
  blk_uncles : list Header
}.

Definition ErrNegativeBigInt := New "rlp: cannot encode negative big.Int".

(** The generated code for a *big.Int field: nil writes the empty string. *)
Definition writeBigIntField (x : option Z) (w : encBuffer) : result encBuffer :=
  match x with
  | None => Ok (eb_Write [z2b 0x80] w)
  | Some i => if i <? 0 then Err ErrNegativeBigInt else Ok (writeBigInt i w)
  end.

(** [Header.EncodeRLP] into an encoder buffer. *)
Definition Header_EncodeRLP (obj : Header) (w : encBuffer) : result encBuffer :=
  let '(_tmp0, w) := eb_list w in
  let w := writeBytes (hash_bytes (ParentHash obj)) w in
  let w := writeBytes (hash_bytes (UncleHash obj)) w in
  let w := writeBytes (address_bytes (Coinbase obj)) w in
  let w := writeBytes (hash_bytes (Root obj)) w in
  let w := writeBytes (hash_bytes (TxHash obj)) w in
  let w := writeBytes (hash_bytes (ReceiptHash obj)) w in
  let w := writeBytes (to_be 256 (Bloom obj)) w in
  w ← writeBigIntField (Difficulty obj) w;
  w ← writeBigIntField (Number obj) w;
  let w := writeUint64 (GasLimit obj) w in
  let w := writeUint64 (GasUsed obj) w in
  let w := writeUint64 (Time obj) w in
  let w := writeBytes (Extra obj) w in
  let w := writeBytes (hash_bytes (MixDigest obj)) w in
  let w := writeBytes (to_be 8 (Nonce obj)) w in
  w ← match BaseFee obj with
      | None => Ok w
      | Some f => writeBigIntField (Some f) w
      end;
  eb_listEnd _tmp0 w.

(** The bytes [rlp.Encode] hands to its writer; nothing on an error. *)
Definition Header_rlp (h : Header) : bytes :=
  match Header_EncodeRLP h emptyBuffer with
  | Ok w => makeBytes w
  | _ => []
  end.

(** [Header.SanityCheck]. *)
Definition SanityCheck (h : Header) : result unit :=
  _ ← fail_if (match Number h with Some n => negb (big_IsUint64 n) | None => false end)
        (New "too large block number");
  _ ← fail_if (match Difficulty h with Some d => 80 <? big_BitLen (Z.abs d) | None => false end)
        (New "too large block difficulty");
  _ ← fail_if (100 * 1024 <? zlen (Extra h)) (New "too large block extradata");
  fail_if (match BaseFee h with Some f => 256 <? big_BitLen (Z.abs f) | None => false end)
        (New "too large base fee").

(** [CopyHeader]: nil difficulty and number become zero. *)
Definition CopyHeader (h : Header) : Header :=
  MkHeader (ParentHash h) (UncleHash h) (Coinbase h) (Root h) (TxHash h) (ReceiptHash h)
    (Bloom h) (Some (default 0 (Difficulty h))) (Some (default 0 (Number h)))
    (GasLimit h) (GasUsed h) (Time h) (Extra h) (MixDigest h) (Nonce h) (BaseFee h).

Section Hash.
Context `{Crypto}.

(** [Header.Hash] = [rlpHash]: Keccak-256 of the encoding. *)
Definition Header_Hash (h : Header) : Hash := keccak256 (Header_rlp h).

(** [CalcUncleHash]: the hash of the RLP list of the uncle headers; the empty
    list encodes to 0xC0. *)
Definition EmptyUncleHash : Hash := keccak256 [z2b 0xC0].
End Hash.

(** ** The encoding of a header *)

Definition int_item (i : Z) : item := Str (big_Bytes i).

(** The RLP list a header stands for. *)
Definition header_items (h : Header) : list item :=
  [Str (hash_bytes (ParentHash h)); Str (hash_bytes (UncleHash h));
   Str (address_bytes (Coinbase h)); Str (hash_bytes (Root h));
   Str (hash_bytes (TxHash h)); Str (hash_bytes (ReceiptHash h));
   Str (to_be 256 (Bloom h));
   int_item (default 0 (Difficulty h)); int_item (default 0 (Number h));
   int_item (GasLimit h); int_item (GasUsed h); int_item (Time h);
   Str (Extra h); Str (hash_bytes (MixDigest h)); Str (to_be 8 (Nonce h))]
  ++ match BaseFee h with None => [] | Some f => [int_item f] end.

(** A header whose fields are in their Go ranges and whose integers are not
    negative and within the bounds of [SanityCheck]. *)
Record wf_header (h : Header) : Prop := {
  wf_parent : is_hash (ParentHash h);
  wf_uncle : is_hash (UncleHash h);
  wf_coinbase : is_address (Coinbase h);
  wf_root : is_hash (Root h);
  wf_tx : is_hash (TxHash h);
  wf_receipt : is_hash (ReceiptHash h);
  wf_bloom : 0 ≤ Bloom h < 256 ^ 256;
  wf_difficulty : 0 ≤ default 0 (Difficulty h) < 2 ^ 80;
  wf_number : 0 ≤ default 0 (Number h) < two64;
  wf_gaslimit : is_u64 (GasLimit h);
  wf_gasused : is_u64 (GasUsed h);
  wf_time : is_u64 (Time h);
  wf_mix : is_hash (MixDigest h);
  wf_nonce : 0 ≤ Nonce h < 256 ^ 8;
  wf_basefee : 0 ≤ default 0 (BaseFee h) < 2 ^ 256;
  wf_size : zlen (encode (Lst (header_items h))) < two64
}.

Lemma zlen_big_Bytes_small i : 0 ≤ i < 2 ^ 256 → zlen (big_Bytes i) < two64.
Proof.
  intros. unfold zlen. rewrite length_big_Bytes, Z.abs_eq by lia.
  pose proof (byte_len_le i 32 ltac:(simpl; lia)). unfold two64. lia.
Qed.

Lemma big_Bytes_inj i j : 0 ≤ i → 0 ≤ j → big_Bytes i = big_Bytes j → i = j.
Proof.
  intros Hi Hj H. rewrite <- (of_be_big_Bytes i), <- (of_be_big_Bytes j) by done. by rewrite H.
Qed.

(** Integer writes are string writes of the minimal big-endian form. *)
Lemma writeUint64_item i w : is_u64 i → writeUint64 i w = writeBytes (big_Bytes i) w.
Proof. intros. by rewrite writeUint64_encode, writeBytes_encode. Qed.

Lemma writeBigIntField_item x w :
  0 ≤ default 0 x < 2 ^ 256 →
  writeBigIntField x w = Ok (writeBytes (big_Bytes (default 0 x)) w).
Proof.
  destruct x as [i|]; unfold writeBigIntField; cbn [default from_option id];
    intros; [|by rewrite writeBytes_encode].
  ztests. rewrite writeBigInt_encode, writeBytes_encode;
    [done|lia|by apply zlen_big_Bytes_small].
Qed.

Lemma Header_EncodeRLP_item h w :
  wf_header h → Header_EncodeRLP h w = writeItem (Lst (header_items h)) w.
Proof.
  intros []. unfold Header_EncodeRLP. cbn [writeItem header_items app].
  destruct (eb_list w) as [index w0].
  rewrite writeBigIntField_item by lia. cbn [mbind result_bind].
  rewrite writeBigIntField_item by (unfold two64 in *; lia). cbn [mbind result_bind].
  rewrite !writeUint64_item by done.
  destruct (BaseFee h) as [f|]; [|done].
  rewrite writeBigIntField_item by done. done.
Qed.

Lemma Header_rlp_encode h : wf_header h → Header_rlp h = encode (Lst (header_items h)).
Proof.
  intros Hwf. unfold Header_rlp. rewrite Header_EncodeRLP_item by done.
  pose proof (EncodeToBytes_ok (Lst (header_items h)) (wf_size h Hwf)) as H.
  unfold EncodeToBytes in H. apply bind_ok in H as [w [Hw He]]. rewrite Hw. exact (Ok_inj _ _ He).
Qed.

(** The fields a header's encoding determines: a nil difficulty or number is
    encoded like zero. *)
Definition header_norm (h : Header) : Header :=
  MkHeader (ParentHash h) (UncleHash h) (Coinbase h) (Root h) (TxHash h) (ReceiptHash h)
    (Bloom h) (Some (default 0 (Difficulty h))) (Some (default 0 (Number h)))
    (GasLimit h) (GasUsed h) (Time h) (Extra h) (MixDigest h) (Nonce h) (BaseFee h).

Lemma Lst_inj l1 l2 : Lst l1 = Lst l2 → l1 = l2.
Proof. congruence. Qed.

Lemma Str_cons_inj s1 s2 l1 l2 : Str s1 :: l1 = Str s2 :: l2 → s1 = s2 ∧ l1 = l2.
Proof. intros. by simplify_eq. Qed.

Lemma header_items_inj h1 h2 :
  wf_header h1 → wf_header h2 → header_items h1 = header_items h2 →
  header_norm h1 = header_norm h2.
Proof.
  intros [] [] E. unfold header_items, int_item in E. cbn [app] in E.
  repeat (apply Str_cons_inj in E as [? E]).
  unfold is_hash, is_address, is_u64, two64, hash_bytes, address_bytes in *.
  assert (BaseFee h1 = BaseFee h2) as EF.
  { destruct (BaseFee h1), (BaseFee h2); try discriminate E; [|reflexivity].
    apply Str_cons_inj in E as [E _]. f_equal. apply big_Bytes_inj in E;
      [exact E|cbn in wf_basefee0; lia|cbn in wf_basefee1; lia]. }
  unfold header_norm. rewrite EF.
  f_equal; try assumption; try (f_equal; apply big_Bytes_inj; (assumption || lia));
    try (apply big_Bytes_inj; (assumption || lia)).
  all: eapply to_be_inj; [..|eassumption]; assumption.
Qed.

(** ** Properties *)

(** Two headers with the same RLP encoding agree on every field, a nil
    difficulty or number counting as zero: the preimage of the block hash
    determines the header. *)
Theorem Header_rlp_injective (h1 h2 : Header) :
  wf_header h1 → wf_header h2 → Header_rlp h1 = Header_rlp h2 →
  header_norm h1 = header_norm h2.
Proof.
  intros H1 H2 E. rewrite !Header_rlp_encode in E by assumption.
  apply encode_inj in E; [|exact (wf_size h1 H1)].
  apply header_items_inj; [assumption..|]. exact (Lst_inj _ _ E).
Qed.

(** A header with every field zero or empty, but for the ones given. *)
Definition sample_header (number difficulty : Z) (extra : bytes) : Header :=
  MkHeader 0 0 0 0 0 0 0 (Some difficulty) (Some number) 30000000 0 7 extra 0 0 (Some 1000).

Ltac wf_sample :=
  constructor; unfold is_hash, is_address, is_u64, two64; cbn;
  first [split; [lia|reflexivity] | split; vm_compute; congruence | vm_compute; reflexivity].

Lemma Header_rlp_injective_witness :
  header_norm (sample_header 5 0 [])
  = header_norm (set_Difficulty (sample_header 5 2 []) None).
Proof.
  apply (Header_rlp_injective (sample_header 5 0 [])
    (set_Difficulty (sample_header 5 2 []) None)).
  - wf_sample.
  - wf_sample.
  - vm_compute. reflexivity.
Defined.
