(* ===== verification/Params.v ===== *)
(** * Chain configuration (chain/params)

    The fork schedule of params/config.go with its fork predicates, the
    compatibility check run when a stored chain meets a new configuration, and
    the fork-order check; the Ferminux constants of params/ferminux.go and
    params/protocol_params.go. *)

From S2P Require Import Prelude Bytes.

(** ** Protocol parameters (protocol_params.go, denomination.go) *)

Definition GasLimitBoundDivisor : Z := 1024.
Definition MinGasLimit : Z := 5000.
Definition MaxGasLimit : Z := 0x7fffffffffffffff.
Definition BaseFeeChangeDenominator : Z := 8.
Definition ElasticityMultiplier : Z := 2.
Definition InitialBaseFee : Z := 1000000000.
Definition DifficultyBoundDivisor : Z := 2048.
Definition MinimumDifficulty : Z := 131072.
Definition FullImmutabilityThreshold : Z := 90000.
Definition MaximumExtraDataSize : Z := 32.
Definition Ether : Z := 10 ^ 18.

(** ** ChainConfig *)

Record ChainConfig := MkChainConfig {
  ChainID : option Z;
  HomesteadBlock : option Z;
  DAOForkBlock : option Z;
  DAOForkSupport : bool;
  EIP150Block : option Z;
  EIP150Hash : Hash;
  EIP155Block : option Z;
  EIP158Block : option Z;
  ByzantiumBlock : option Z;
  ConstantinopleBlock : option Z;
  PetersburgBlock : option Z;
  IstanbulBlock : option Z;
  MuirGlacierBlock : option Z;
  BerlinBlock : option Z;
  LondonBlock : option Z;
  ArrowGlacierBlock : option Z;
  GrayGlacierBlock : option Z;
  MergeNetsplitBlock : option Z;
  ShanghaiBlock : option Z;
  CancunBlock : option Z;
  PosaBlock : option Z;
  TerminalTotalDifficulty : option Z
}.

Record CliqueConfig := MkCliqueConfig { Period : Z; Epoch : Z }.

(** [isForked]: nil on either side means not forked. *)
Definition isForked (s head : option Z) : bool :=
  match s, head with
  | Some s, Some head => s <=? head
  | _, _ => false
  end.

(** [configNumEqual]. *)
Definition configNumEqual (x y : option Z) : bool :=
  match x, y with
  | None, None => true
  | Some x, Some y => x =? y
  | _, _ => false
  end.

(** [isForkIncompatible]. *)
Definition isForkIncompatible (s1 s2 head : option Z) : bool :=
  (isForked s1 head || isForked s2 head) && negb (configNumEqual s1 s2).

Definition IsDAOFork (c : ChainConfig) num := isForked (DAOForkBlock c) num.
Definition IsEIP158 (c : ChainConfig) num := isForked (EIP158Block c) num.
Definition IsLondon (c : ChainConfig) num := isForked (LondonBlock c) num.
Definition IsPosa (c : ChainConfig) num := isForked (PosaBlock c) num.

(** [IsPetersburg]: a nil Petersburg block means the Constantinople block. *)
Definition IsPetersburg (c : ChainConfig) (num : option Z) : bool :=
  isForked (PetersburgBlock c) num
  || match PetersburgBlock c with
     | None => isForked (ConstantinopleBlock c) num
     | Some _ => false
     end.

Record ConfigCompatError := MkCompatError {
  What : string;
  StoredConfig : option Z;
  NewConfig : option Z;
  RewindTo : Z
}.

(** [newCompatError]: rewind to just below the earlier of the two blocks. *)
Definition newCompatError (what : string) (storedblock newblock : option Z)
  : ConfigCompatError :=
  let rew :=
    match storedblock, newblock with
    | None, _ => newblock
    | Some s, None => Some s
    | Some s, Some n => if s <? n then Some s else Some n
    end in
  MkCompatError what storedblock newblock
    (match rew with
     | Some r => if 0 <? r then sub64 (big_Uint64 r) 1 else 0
     | None => 0
     end).

(** A sequence of [if cond { return err }] tests. *)
Fixpoint first_true {A} (l : list (bool * A)) : option A :=
  match l with
  | [] => None
  | (true, a) :: _ => Some a
  | (false, _) :: l => first_true l
  end.

(** [checkCompatible]. *)
Definition checkCompatible (c newcfg : ChainConfig) (head : option Z)
  : option ConfigCompatError :=
  let check what (s1 s2 : option Z) :=
    (isForkIncompatible s1 s2 head, newCompatError what s1 s2) in
  first_true [
    check "Homestead fork block" (HomesteadBlock c) (HomesteadBlock newcfg);
    check "DAO fork block" (DAOForkBlock c) (DAOForkBlock newcfg);
    (IsDAOFork c head && negb (Bool.eqb (DAOForkSupport c) (DAOForkSupport newcfg)),
     newCompatError "DAO fork support flag" (DAOForkBlock c) (DAOForkBlock newcfg));
    check "EIP150 fork block" (EIP150Block c) (EIP150Block newcfg);
    check "EIP155 fork block" (EIP155Block c) (EIP155Block newcfg);
    check "EIP158 fork block" (EIP158Block c) (EIP158Block newcfg);
    (IsEIP158 c head && negb (configNumEqual (ChainID c) (ChainID newcfg)),
     newCompatError "EIP158 chain ID" (EIP158Block c) (EIP158Block newcfg));
    check "Byzantium fork block" (ByzantiumBlock c) (ByzantiumBlock newcfg);
    check "Constantinople fork block" (ConstantinopleBlock c) (ConstantinopleBlock newcfg);
    (isForkIncompatible (PetersburgBlock c) (PetersburgBlock newcfg) head
     && isForkIncompatible (ConstantinopleBlock c) (PetersburgBlock newcfg) head,
     newCompatError "Petersburg fork block" (PetersburgBlock c) (PetersburgBlock newcfg));
    check "Istanbul fork block" (IstanbulBlock c) (IstanbulBlock newcfg);
    check "Muir Glacier fork block" (MuirGlacierBlock c) (MuirGlacierBlock newcfg);
    check "Berlin fork block" (BerlinBlock c) (BerlinBlock newcfg);
    check "London fork block" (LondonBlock c) (LondonBlock newcfg);
    check "Arrow Glacier fork block" (ArrowGlacierBlock c) (ArrowGlacierBlock newcfg);
    check "Gray Glacier fork block" (GrayGlacierBlock c) (GrayGlacierBlock newcfg);
    check "Merge netsplit fork block" (MergeNetsplitBlock c) (MergeNetsplitBlock newcfg);
    check "Shanghai fork block" (ShanghaiBlock c) (ShanghaiBlock newcfg);
    check "Cancun fork block" (CancunBlock c) (CancunBlock newcfg);
    check "Ferminux PoSA fork block" (PosaBlock c) (PosaBlock newcfg)
  ].

(** The loop of [CheckCompatible]: [None] is running out of rounds. *)
Fixpoint CheckCompatible_loop (fuel : nat) (c newcfg : ChainConfig)
  (lasterr : option ConfigCompatError) (bhead : Z)
  : option (option ConfigCompatError) :=
  match fuel with
  | O => None
  | S fuel =>
      match checkCompatible c newcfg (Some bhead) with
      | None => Some lasterr
      | Some err =>
          if match lasterr with Some l => RewindTo err =? RewindTo l | None => false end
          then Some lasterr
          else CheckCompatible_loop fuel c newcfg (Some err) (RewindTo err)
      end
  end.

(** [CheckCompatible]; the head falls in every round but the last two, so
    [height + 3] rounds are enough, as is proved below. *)
Definition CheckCompatible (c newcfg : ChainConfig) (height : Z)
  : option (option ConfigCompatError) :=
  CheckCompatible_loop (Z.to_nat height + 3) c newcfg None height.

(** [CheckConfigForkOrder]: the loop over the forks, remembering the last one
    that is not a skipped optional fork. The fork list of the source has no
    PosaBlock entry. *)
Record fork := MkFork { fork_name : string; fork_block : option Z; fork_optional : bool }.

Definition forkOrder (c : ChainConfig) : list fork := [
  MkFork "homesteadBlock" (HomesteadBlock c) false;
  MkFork "daoForkBlock" (DAOForkBlock c) true;
  MkFork "eip150Block" (EIP150Block c) false;
  MkFork "eip155Block" (EIP155Block c) false;
  MkFork "eip158Block" (EIP158Block c) false;
  MkFork "byzantiumBlock" (ByzantiumBlock c) false;
  MkFork "constantinopleBlock" (ConstantinopleBlock c) false;
  MkFork "petersburgBlock" (PetersburgBlock c) false;
  MkFork "istanbulBlock" (IstanbulBlock c) false;
  MkFork "muirGlacierBlock" (MuirGlacierBlock c) true;
  MkFork "berlinBlock" (BerlinBlock c) false;
  MkFork "londonBlock" (LondonBlock c) false;
  MkFork "arrowGlacierBlock" (ArrowGlacierBlock c) true;
  MkFork "grayGlacierBlock" (GrayGlacierBlock c) true;
  MkFork "mergeNetsplitBlock" (MergeNetsplitBlock c) true;
  MkFork "shanghaiBlock" (ShanghaiBlock c) true;
  MkFork "cancunBlock" (CancunBlock c) true
].

Fixpoint forkOrder_loop (lastFork : option fork) (l : list fork) : result unit :=
  match l with
  | [] => Ok tt
  | cur :: l =>
      _ ← match lastFork with
          | None => Ok tt
          | Some last =>
              match fork_block last, fork_block cur with
              | None, Some b => Err (Errorf "unsupported fork ordering: not enabled" [b])
              | Some a, Some b =>
                  fail_if (b <? a) (Errorf "unsupported fork ordering" [a; b])
              | _, None => Ok tt
              end
          end;
      let keep := negb (fork_optional cur)
                  || match fork_block cur with Some _ => true | None => false end in
      forkOrder_loop (if keep then Some cur else lastFork) l
  end.

Definition CheckConfigForkOrder (c : ChainConfig) : result unit :=
  forkOrder_loop None (forkOrder c).

(** ** The Ferminux network (params/ferminux.go) *)

Definition FerminuxChainConfig : ChainConfig :=
  MkChainConfig (Some 3961) (Some 0) None false (Some 0) 0 (Some 0) (Some 0) (Some 0)
    (Some 0) (Some 0) (Some 0) (Some 0) (Some 0) (Some 0) None None None None None
    (Some 160000) None.

Definition FerminuxPosaPeriod : Z := 7.
Definition FerminuxPosaEpoch : Z := 30000.
Definition FerminuxMaxReorgDepth : Z := 64.
Definition FerminuxBreakGlassThreshold : Z := 2.

Definition FerminuxInitialSigners : list Address := [
  0x3322f60aCEA9f88658665E83BeB30a516036187D;
  0xA46A721F25771BB2Be312a63A5D891539fF1de23;
  0x1538249E04c767dFfC50845068C19F633341bB0f;
  0x71377E0F553a5B0CB847443ab6648235977919b0;
  0x8e97f419F388c20E745dFF826587f359C31EF693
].

Definition FerminuxTreasury : Address := 0xc0A5Eb613f859f072554F29f1Ab7400265af15aB.
Definition FerminuxRewardSink : Address := 0x691E5275BF346FfFa0B30174dDBeDfCC078dd8D6.
Definition FerminuxPosaCheckpointHash : Hash :=
  0xfa62e740b3cb3aaa60206476288e2e14d9a9f355a051dda896d87b576fa5af08.
Definition FerminuxBreakGlassOwners : list Address := [
  0x1a143bf911E1E097730f3aA8C809C6B9109019EA;
  0x0fBBa0CC0e4f748Dc2Af25dDD3992700e7FCce15;
  0x11B53110eb83c548b392a56410bF5f959E6F41db
].

(** ** Facts *)

Lemma first_true_In {A} (l : list (bool * A)) a :
  first_true l = Some a → In (true, a) l.
Proof. induction l as [|[[] x] l IH]; simpl; naive_solver. Qed.

Lemma newCompatError_below what s1 s2 head :
  is_u64 head → isForked s1 (Some head) || isForked s2 (Some head) = true →
  0 ≤ RewindTo (newCompatError what s1 s2) ≤ Z.max 0 (head - 1).
Proof.
  intros Hh H. apply orb_true_iff in H. unfold newCompatError. simpl.
  assert (∀ r, r ≤ head → 0 ≤ (if 0 <? r then sub64 (big_Uint64 r) 1 else 0)
                           ≤ Z.max 0 (head - 1)) as HR.
  { intros r Hr. unfold is_u64 in Hh. destruct (Z.ltb_spec 0 r); [|lia].
    unfold big_Uint64. rewrite Z.abs_eq by lia.
    rewrite u64_small by (unfold is_u64; lia).
    rewrite sub64_small by (unfold is_u64; lia). lia. }
  destruct s1 as [s1|], s2 as [s2|]; simpl in H; rewrite ?Z.leb_le in H;
    try (destruct (Z.ltb_spec s1 s2)); try (apply HR; lia); destruct H; try done; lia.
Qed.

(** A conflict found at [head] rewinds strictly below it (or stays at 0). *)
Lemma checkCompatible_below c n head e :
  is_u64 head → checkCompatible c n (Some head) = Some e →
  0 ≤ RewindTo e ≤ Z.max 0 (head - 1).
Proof.
  intros Hh H. apply first_true_In in H. unfold isForkIncompatible in H.
  repeat destruct H as [H|H]; [..|destruct H];
    injection H as Hc <-; apply newCompatError_below; try done;
    apply andb_true_iff in Hc as [Hc Hc2]; try done.
  - unfold IsDAOFork in Hc. by rewrite Hc.
  - unfold IsEIP158 in Hc. by rewrite Hc.
  - apply andb_true_iff in Hc as [Hc _]. done.
Qed.

Definition rewound (c n : ChainConfig) (e : ConfigCompatError) : Prop :=
  checkCompatible c n (Some (RewindTo e)) = None ∨
  RewindTo e = 0 ∧ ∃ e', checkCompatible c n (Some 0) = Some e' ∧ RewindTo e' = 0.

Lemma CheckCompatible_loop_spec fuel c n lasterr head :
  is_u64 head → (Z.to_nat head + 2 ≤ fuel)%nat →
  match lasterr with Some l => RewindTo l = head | None => (Z.to_nat head + 3 ≤ fuel)%nat end →
  ∃ r, CheckCompatible_loop fuel c n lasterr head = Some r ∧
  match r with
  | None => lasterr = None ∧ checkCompatible c n (Some head) = None
  | Some e => RewindTo e ≤ head ∧ rewound c n e
  end.
Proof.
  revert lasterr head. induction fuel as [|fuel IH]; intros lasterr head Hh Hf Hl; [lia|].
  cbn [CheckCompatible_loop].
  destruct (checkCompatible c n (Some head)) as [err|] eqn:E.
  - pose proof (checkCompatible_below _ _ _ _ Hh E) as Hb. unfold is_u64 in *.
    destruct lasterr as [l|].
    + destruct (Z.eqb_spec (RewindTo err) (RewindTo l)) as [Eq|Ne].
      * exists (Some l). split; [done|]. split; [lia|]. right.
        assert (head = 0) as H0 by lia. rewrite H0 in E. split; [lia|]. exists err.
        split; [exact E|lia].
      * destruct (IH (Some err) (RewindTo err)) as (r & Hr & Hs); [lia..|done|].
        exists r. split; [done|]. destruct r; [|naive_solver].
        split; [lia|]. naive_solver.
    + destruct (IH (Some err) (RewindTo err)) as (r & Hr & Hs); [lia..|done|].
      exists r. split; [done|]. destruct r; [|naive_solver]. split; [lia|]. naive_solver.
  - exists lasterr. split; [done|]. destruct lasterr as [l|]; [|done].
    split; [lia|]. left. by rewrite Hl.
Qed.

(** ** Properties *)

(** [CheckCompatible] always returns. It answers nil exactly when there is no
    conflict at the given height; otherwise the height it tells the node to
    rewind to is not above the given one and is free of conflicts, except when
    the conflict is about a fork at genesis, which no rewind removes. *)
Theorem CheckCompatible_rewinds (c newcfg : ChainConfig) (height : Z) :
  is_u64 height →
  ∃ r, CheckCompatible c newcfg height = Some r ∧
  match r with
  | None => checkCompatible c newcfg (Some height) = None
  | Some e => RewindTo e ≤ height ∧ rewound c newcfg e
  end.
Proof.
  intros Hh. destruct (CheckCompatible_loop_spec (Z.to_nat height + 3) c newcfg None height)
    as (r & Hr & Hs); [done|lia..|]. exists r. split; [done|]. destruct r; naive_solver.
Qed.

Definition movedPosa : ChainConfig :=
  MkChainConfig (Some 3961) (Some 0) None false (Some 0) 0 (Some 0) (Some 0) (Some 0)
    (Some 0) (Some 0) (Some 0) (Some 0) (Some 0) (Some 0) None None None None None
    (Some 150) None.

Lemma CheckCompatible_rewinds_witness :
  ∃ r, CheckCompatible FerminuxChainConfig movedPosa 200 = Some r ∧
  match r with
  | None => checkCompatible FerminuxChainConfig movedPosa (Some 200) = None
  | Some e => RewindTo e ≤ 200 ∧ rewound FerminuxChainConfig movedPosa e
  end.
Proof.
  apply (CheckCompatible_rewinds FerminuxChainConfig movedPosa 200).
  unfold is_u64, two64. lia.
Defined.

Example CheckCompatible_moved_posa :
  RewindTo <$> default None (CheckCompatible FerminuxChainConfig movedPosa 200) = Some 149.
Proof. vm_compute. reflexivity. Qed.
