(* ===== verification/Misc.v ===== *)
(** * EIP-1559 and gas limit rules (chain/consensus/misc) *)

From S2P Require Import Prelude Bytes Rlp Types Params.

(** [VerifyForkHashes]. *)
Definition VerifyForkHashes `{Crypto} (config : ChainConfig) (header : Header)
  (uncle : bool) : result unit :=
  if uncle then Ok tt
  else
    match EIP150Block config with
    | None => Ok tt
    | Some b =>
        n ← deref (Number header);
        if b =? n then
          fail_if (negb (EIP150Hash config =? 0)
                   && negb (EIP150Hash config =? Header_Hash header))
            (New "homestead gas reprice fork")
        else Ok tt
    end.

(** [VerifyGaslimit]: [diff] is computed on int64 values and wraps. *)
Definition VerifyGaslimit (parentGasLimit headerGasLimit : Z) : result unit :=
  let diff := i64 (i64 parentGasLimit - i64 headerGasLimit) in
  let diff := if diff <? 0 then i64 (diff * -1) else diff in
  let limit := parentGasLimit / GasLimitBoundDivisor in
  _ ← fail_if (limit <=? u64 diff)
        (Errorf "invalid gas limit: have %d, want %d +-= %d"
           [headerGasLimit; parentGasLimit; limit - 1]);
  fail_if (headerGasLimit <? MinGasLimit) (New "invalid gas limit below 5000").

(** [CalcBaseFee]. *)
Definition CalcBaseFee (config : ChainConfig) (parent : Header) : result Z :=
  if negb (IsLondon config (Number parent)) then Ok InitialBaseFee
  else
    let parentGasTarget := GasLimit parent / ElasticityMultiplier in
    if GasUsed parent =? parentGasTarget then deref (BaseFee parent)
    else if parentGasTarget <? GasUsed parent then
      baseFee ← deref (BaseFee parent);
      let num := sub64 (GasUsed parent) parentGasTarget * baseFee in
      num ← div64 num parentGasTarget;
      let num := num / BaseFeeChangeDenominator in
      let baseFeeDelta := Z.max num 1 in
      Ok (baseFee + baseFeeDelta)
    else
      baseFee ← deref (BaseFee parent);
      let num := sub64 parentGasTarget (GasUsed parent) * baseFee in
      num ← div64 num parentGasTarget;
      let num := num / BaseFeeChangeDenominator in
      Ok (Z.max (baseFee - num) 0).

(** [VerifyEip1559Header]. *)
Definition VerifyEip1559Header (config : ChainConfig) (parent header : Header)
  : result unit :=
  let parentGasLimit :=
    if negb (IsLondon config (Number parent))
    then mul64 (GasLimit parent) ElasticityMultiplier else GasLimit parent in
  _ ← VerifyGaslimit parentGasLimit (GasLimit header);
  match BaseFee header with
  | None => Err (New "header is missing baseFee")
  | Some baseFee =>
      expectedBaseFee ← CalcBaseFee config parent;
      fail_if (negb (baseFee =? expectedBaseFee))
        (Errorf "invalid baseFee: have %s, want %s, parentBaseFee %s, parentGasUsed %d"
           [baseFee; expectedBaseFee])
  end.

(** ** Facts *)

Lemma i64_small x : - 2 ^ 63 ≤ x < 2 ^ 63 → i64 x = x.
Proof.
  intros Hx. unfold i64, two64.
  destruct (Z.ltb_spec (x mod 2 ^ 64) (2 ^ 63)); dlia.
Qed.

Lemma VerifyGaslimit_ok parent header :
  0 ≤ parent ≤ MaxGasLimit → 0 ≤ header ≤ MaxGasLimit →
  (is_ok (VerifyGaslimit parent header) = true ↔
   Z.abs (parent - header) < parent / GasLimitBoundDivisor ∧ MinGasLimit ≤ header).
Proof.
  unfold MaxGasLimit. intros Hp Hh. unfold VerifyGaslimit.
  rewrite (i64_small parent), (i64_small header) by lia.
  rewrite (i64_small (parent - header)) by lia.
  assert (u64 (if parent - header <? 0 then i64 ((parent - header) * -1) else parent - header)
          = Z.abs (parent - header)) as ->.
  { destruct (Z.ltb_spec (parent - header) 0).
    - rewrite i64_small, u64_small by (unfold is_u64, two64; lia). lia.
    - rewrite u64_small by (unfold is_u64, two64; lia). lia. }
  destruct (Z.leb_spec (parent / GasLimitBoundDivisor) (Z.abs (parent - header))); simpl.
  - split; [done|lia].
  - unfold fail_if. destruct (Z.ltb_spec header MinGasLimit); simpl; split; try done; lia.
Qed.

Lemma div_div_le b d t : 0 ≤ b → 0 < t → 0 ≤ d ≤ t → d * b / t / 8 ≤ b / 8.
Proof.
  intros Hb Ht Hd. apply Z.div_le_mono; [lia|].
  transitivity (t * b / t); [apply Z.div_le_mono; [lia|nia]|].
  rewrite Z.mul_comm, Z.div_mul by lia. lia.
Qed.

(** ** Properties *)

(** EIP-1559: for a parent after London that respects its gas limit and with a
    gas target of at least one, the next base fee exists; it is unchanged at the
    target, strictly higher above it (by one eighth at most, but at least 1)
    and not higher below it, where it falls by one eighth at most and never
    below zero. *)
Theorem CalcBaseFee_bounds (config : ChainConfig) (parent : Header) (b : Z) :
  IsLondon config (Number parent) = true → BaseFee parent = Some b → 0 ≤ b →
  is_u64 (GasLimit parent) → 2 ≤ GasLimit parent →
  0 ≤ GasUsed parent ≤ 2 * (GasLimit parent / ElasticityMultiplier) →
  ∃ f, CalcBaseFee config parent = Ok f ∧ 0 ≤ f ∧
    (GasUsed parent = GasLimit parent / ElasticityMultiplier → f = b) ∧
    (GasLimit parent / ElasticityMultiplier < GasUsed parent →
       b + 1 ≤ f ≤ b + Z.max 1 (b / BaseFeeChangeDenominator)) ∧
    (GasUsed parent < GasLimit parent / ElasticityMultiplier →
       b - b / BaseFeeChangeDenominator ≤ f ≤ b).
Proof.
  intros HL HB Hb Hu H2 Hg. unfold CalcBaseFee. rewrite HL, HB. cbn [negb deref].
  unfold is_u64 in Hu. set (t := GasLimit parent / ElasticityMultiplier) in *.
  assert (1 ≤ t ≤ GasLimit parent) as Ht by (unfold t, ElasticityMultiplier; dlia).
  unfold BaseFeeChangeDenominator.
  destruct (Z.eqb_spec (GasUsed parent) t); [exists b; split; [done|lia]|].
  destruct (Z.ltb_spec t (GasUsed parent)); cbn [mbind result_bind];
    rewrite sub64_small by (unfold is_u64; lia); unfold div64; ztests; cbn [mbind result_bind].
  - eexists. split; [done|].
    pose proof (div_div_le b (GasUsed parent - t) t Hb ltac:(lia) ltac:(lia)). lia.
  - eexists. split; [done|].
    pose proof (div_div_le b (t - GasUsed parent) t Hb ltac:(lia) ltac:(lia)).
    assert (0 ≤ (t - GasUsed parent) * b / t / 8)
      by (apply Z.div_pos; [apply Z.div_pos; nia|lia]).
    assert (b / 8 ≤ b) by dlia. lia.
Qed.

Definition full_block : Header :=
  MkHeader 0 0 0 0 0 0 0 (Some 2) (Some 5) 30000000 30000000 7 [] 0 0 (Some 1000).

Lemma CalcBaseFee_bounds_witness :
  ∃ f, CalcBaseFee FerminuxChainConfig full_block = Ok f ∧ 0 ≤ f ∧
    (GasUsed full_block = GasLimit full_block / ElasticityMultiplier → f = 1000) ∧
    (GasLimit full_block / ElasticityMultiplier < GasUsed full_block →
       1000 + 1 ≤ f ≤ 1000 + Z.max 1 (1000 / BaseFeeChangeDenominator)) ∧
    (GasUsed full_block < GasLimit full_block / ElasticityMultiplier →
       1000 - 1000 / BaseFeeChangeDenominator ≤ f ≤ 1000).
Proof.
  apply (CalcBaseFee_bounds FerminuxChainConfig full_block 1000); closed_arith.
Defined.

(** The gas limit rule on limits of at most 2^63-1 (which the engines check
    first): accepted exactly when the change is below 1/1024 of the parent's
    limit and the limit is at least 5000; the int64 subtraction never wraps
    there. *)
Theorem VerifyGaslimit_spec (parent header : Z) :
  0 ≤ parent ≤ MaxGasLimit → 0 ≤ header ≤ MaxGasLimit →
  (is_ok (VerifyGaslimit parent header) = true ↔
   Z.abs (parent - header) < parent / GasLimitBoundDivisor ∧ MinGasLimit ≤ header).
Proof. apply VerifyGaslimit_ok. Qed.

Lemma VerifyGaslimit_spec_witness :
  is_ok (VerifyGaslimit 30000000 30029295) = true ↔
  Z.abs (30000000 - 30029295) < 30000000 / GasLimitBoundDivisor ∧ MinGasLimit ≤ 30029295.
Proof. apply (VerifyGaslimit_spec 30000000 30029295); unfold MaxGasLimit; lia. Defined.
