(* ===== verification/BreakGlass.v ===== *)
(** * The break-glass signer-set override (chain/consensus/clique/ferminux.go)

    Any authority block may carry a replacement signer list in its extra data,
    authenticated by owner signatures over (chain id, number, parent hash,
    list). This file holds the byte layout, its parser and encoder, the signed
    message and the verification of the owner signatures. *)

From S2P Require Import Prelude Bytes Rlp Types Params.
From stdpp Require Import pretty.
#[local] Open Scope Z_scope.

(** ** Constants *)

Definition SignatureLength : nat := 65.
Definition RecoveryIDOffset : nat := 64.
Definition extraVanity : nat := 32.
Definition extraSeal : nat := SignatureLength.

Definition breakGlassMagicLen : nat := 8.
Definition breakGlassCountLen : nat := 1.
Definition breakGlassTrailerLen : nat := breakGlassCountLen + breakGlassMagicLen.
Definition breakGlassMinPayload : nat := AddressLength + breakGlassTrailerLen.

Definition str_bytes (s : string) : bytes := String.list_byte_of_string s.

Definition breakGlassMagic : bytes := str_bytes "FMX-BGL2".
Definition breakGlassPrefix : bytes := str_bytes "FERMINUX-BREAK-GLASS-V2".

Definition errMissingSignature := New "extra-data 65 byte signature suffix missing".
Definition errInvalidCheckpointSigners := New "invalid signer list on checkpoint block".
Definition errBelowBootstrap :=
  New "authority snapshot requested below the PoSA bootstrap block".
Definition errBreakGlassDisabled :=
  New "break-glass override on block but break-glass is not configured".
Definition errBreakGlassMalformed := New "malformed break-glass payload".
Definition errBreakGlassSignerList :=
  New "break-glass signer list empty, unsorted or duplicated".
Definition errBreakGlassBadSignature :=
  New "break-glass signature invalid, duplicated or not from a multisig owner".
Definition errBreakGlassThreshold :=
  New "break-glass override below the owner-signature threshold".
Definition errBreakGlassNumber :=
  New "break-glass override must target a block above the genesis".
Definition errBreakGlassVote := New "vote in break-glass block non-zero".
Definition errBreakGlassUnauthorizedSealer :=
  New "break-glass block not sealed by a member of the override list".

(** ** Configuration *)

(** The Threshold field is a Go int. *)
Record BreakGlassConfig := MkBreakGlassConfig {
  bg_ChainID : option Z;
  Owners : list Address;
  Threshold : Z
}.

Record BreakGlassOverride := MkOverride {
  ov_Number : Z;
  ov_ParentHash : Hash;
  ov_Signers : list Address;
  ov_Signatures : list bytes
}.

(** [isOwner] and [containsAddress]: linear search. *)
Definition containsAddress (l : list Address) (addr : Address) : bool :=
  existsb (fun a => a =? addr) l.
Definition isOwner (bg : BreakGlassConfig) (addr : Address) : bool :=
  containsAddress (Owners bg) addr.

(** [signersAscending]: sort.Sort with the order of bytes.Compare on 20-byte
    addresses, which is the numeric order ([bytes_compare_of_be]). Equal elements
    are identical, so the result does not depend on stability. *)
Definition sort_signers (l : list Address) : list Address := merge_sort Z.le l.

(** The zero-address and adjacency test over an ascending list, starting at
    index [i]; [prev] is the element before, [bad] the test on a pair. *)
Fixpoint list_ok (bad : Z → Z → bool) (prev : option Address) (l : list Address) : bool :=
  match l with
  | [] => true
  | a :: l =>
      if a =? 0 then false
      else if match prev with Some p => bad p a | None => false end then false
      else list_ok bad (Some a) l
  end.

(** [sortedUniqueSigners]. *)
Definition sortedUniqueSigners (signers : list Address) : result (list Address) :=
  match signers with
  | [] => Err errBreakGlassSignerList
  | _ =>
      let sorted := sort_signers signers in
      if list_ok Z.eqb None sorted then Ok sorted else Err errBreakGlassSignerList
  end.

(** ** Extra data *)

Definition has_suffix (s suffix : bytes) : bool :=
  bool_decide ((length suffix ≤ length s)%nat ∧
               drop (length s - length suffix) s = suffix).

(** The section between vanity and seal, [extra[extraVanity : len(extra)-extraSeal]]. *)
Definition extra_payload (extra : bytes) : bytes :=
  take (length extra - extraSeal - extraVanity) (drop extraVanity extra).

(** [isBreakGlassExtra]. *)
Definition isBreakGlassExtra (extra : bytes) : bool :=
  if (length extra <? extraVanity + extraSeal + breakGlassMinPayload)%nat then false
  else
    let payload := extra_payload extra in
    negb (length payload mod AddressLength =? 0)%nat && has_suffix payload breakGlassMagic.

(** [parseCheckpointExtra]: the signer list, the owner signatures and whether
    the override trailer was present. *)
Definition parseCheckpointExtra (extra : bytes)
  : result (list Address * list bytes * bool) :=
  if (length extra <? extraVanity + extraSeal)%nat then Err errMissingSignature
  else
    let payload := extra_payload extra in
    let len := length payload in
    if (len mod AddressLength =? 0)%nat then
      Ok (map of_be (chunks AddressLength (len / AddressLength) payload), [], false)
    else if (len <? breakGlassTrailerLen)%nat
            || negb (bool_decide (drop (len - breakGlassMagicLen) payload = breakGlassMagic))
    then Err errInvalidCheckpointSigners
    else
      match payload !! (len - breakGlassTrailerLen)%nat with
      | None => Panic "index out of range"
      | Some c =>
          let count := Z.to_nat (b2z c) in
          if (count =? 0)%nat then Err errBreakGlassMalformed
          else
            let sigBytes := Z.of_nat (count * SignatureLength) in
            let signersBytes := Z.of_nat len - Z.of_nat breakGlassTrailerLen - sigBytes in
            if (signersBytes <? Z.of_nat AddressLength)
               || negb (signersBytes mod Z.of_nat AddressLength =? 0)
            then Err errBreakGlassMalformed
            else
              let n := Z.to_nat signersBytes in
              Ok (map of_be (chunks AddressLength (n / AddressLength) payload),
                  chunks SignatureLength count (drop n payload), true)
      end.

(** [encodeBreakGlassPayload]; [byte(len(signatures))] truncates. *)
Definition encodeBreakGlassPayload (signers : list Address) (signatures : list bytes)
  : bytes :=
  concat (map address_bytes signers) ++ concat signatures
  ++ [z2b (Z.of_nat (length signatures))] ++ breakGlassMagic.

(** [BreakGlassExtra]: vanity padded or cut to 32 bytes, payload, zero seal. *)
Definition BreakGlassExtra (vanity : bytes) (signers : list Address)
  (signatures : list bytes) : bytes :=
  take extraVanity (RightPadBytes vanity extraVanity)
  ++ encodeBreakGlassPayload signers signatures ++ replicate extraSeal Byte.x00.

(** [IsBreakGlassHeader]. *)
Definition IsBreakGlassHeader (header : Header) : bool := isBreakGlassExtra (Extra header).

(** ** The signed message *)

(** [breakGlassMessage]. *)
Definition breakGlassMessage (chainID number : Z) (parentHash : Hash)
  (signers : list Address) : bytes :=
  breakGlassPrefix ++ LeftPadBytes (big_Bytes chainID) 32 ++ to_be 8 number
  ++ hash_bytes parentHash ++ concat (map address_bytes signers).

Section Digest.
Context `{Crypto}.

(** [accounts.TextHash] (EIP-191). *)
Definition TextHash (data : bytes) : bytes :=
  hash_bytes (keccak256
    (z2b 0x19 :: str_bytes "Ethereum Signed Message:" ++ [z2b 10]
     ++ str_bytes (pretty (N.of_nat (length data))) ++ data)).

(** [breakGlassDigest]. *)
Definition breakGlassDigest (chainID number : Z) (parentHash : Hash)
  (signers : list Address) : bytes :=
  TextHash (breakGlassMessage chainID number parentHash signers).

(** A recovery id of 27 or 28 is read as 0 or 1. *)
Definition norm_sig (sig : bytes) : bytes :=
  match sig !! RecoveryIDOffset with
  | Some v => if 27 <=? b2z v then <[RecoveryIDOffset := z2b (b2z v - 27)]> sig else sig
  | None => sig
  end.

(** The owner a signature recovers to. *)
Definition sig_owner (digest sig : bytes) : result Address :=
  SigToAddress digest (norm_sig sig).

(** The loop over the signatures; [seen] is the set of owners so far. *)
Fixpoint verify_sigs (bg : BreakGlassConfig) (digest : bytes) (seen : gset Address)
  (signatures : list bytes) : result (gset Address) :=
  match signatures with
  | [] => Ok seen
  | sig :: signatures =>
      _ ← fail_if (negb (length sig =? SignatureLength)%nat) errBreakGlassBadSignature;
      match sig_owner digest sig with
      | Ok owner =>
          _ ← fail_if (negb (isOwner bg owner)) errBreakGlassBadSignature;
          _ ← fail_if (bool_decide (owner ∈ seen)) errBreakGlassBadSignature;
          verify_sigs bg digest ({[owner]} ∪ seen) signatures
      | Err _ => Err errBreakGlassBadSignature
      | Panic w => Panic w
      end
  end.

(** [verifyBreakGlass]. *)
Definition verifyBreakGlass (bg : option BreakGlassConfig) (number : Z)
  (parentHash : Hash) (signers : list Address) (signatures : list bytes)
  : result unit :=
  match bg with
  | None => Err errBreakGlassDisabled
  | Some bg =>
      _ ← fail_if ((length (Owners bg) =? 0)%nat || (Threshold bg <=? 0))
            errBreakGlassDisabled;
      _ ← fail_if (length signers =? 0)%nat errBreakGlassSignerList;
      _ ← fail_if (negb (list_ok (fun p a => a <=? p) None signers))
            errBreakGlassSignerList;
      _ ← fail_if ((length signatures =? 0)%nat
                   || (length (Owners bg) <? length signatures)%nat)
            errBreakGlassBadSignature;
      chainID ← deref (bg_ChainID bg);
      let digest := breakGlassDigest chainID number parentHash signers in
      seen ← verify_sigs bg digest ∅ signatures;
      fail_if (Z.of_nat (size seen) <? Threshold bg) errBreakGlassThreshold
  end.

(** [breakGlassOverrideOf]: [None] for a header without an override. *)
Definition breakGlassOverrideOf (bg : option BreakGlassConfig) (header : Header)
  : result (option (list Address)) :=
  if negb (isBreakGlassExtra (Extra header)) then Ok None
  else
    '(signers, sigs, _) ← parseCheckpointExtra (Extra header);
    number ← NumberU64 header;
    _ ← verifyBreakGlass bg number (ParentHash header) signers sigs;
    Ok (Some signers).
End Digest.

(** ** Turns in the override list *)

Fixpoint offset_of (signer : Address) (signers : list Address) : Z :=
  match signers with
  | [] => 0
  | a :: l => if a =? signer then 0 else 1 + offset_of signer l
  end.

(** [inturnAmong]; an empty list divides by zero. *)
Definition inturnAmong (signers : list Address) (number : Z) (signer : Address)
  : result bool :=
  r ← mod64 number (Z.of_nat (length signers));
  Ok (r =? offset_of signer signers).

Definition diffInTurn : Z := 2.
Definition diffNoTurn : Z := 1.

(** [calcDifficultyAmong]. *)
Definition calcDifficultyAmong (signers : list Address) (number : Z) (signer : Address)
  : result Z :=
  b ← inturnAmong signers number signer;
  Ok (if (b : bool) then diffInTurn else diffNoTurn).

(** ** Facts: layout *)

Lemma containsAddress_In l a : containsAddress l a = true ↔ a ∈ l.
Proof.
  unfold containsAddress. rewrite existsb_exists, list_elem_of_In.
  split; [intros (x & ? & E); bprop; by subst|intros; exists a; by rewrite Z.eqb_refl].
Qed.

Definition addresses (l : list Address) : Prop := Forall is_address l.
Definition signatures_ok (sigs : list bytes) : Prop :=
  Forall (fun s => length s = SignatureLength) sigs.

Lemma length_address_bytes a : length (address_bytes a) = AddressLength.
Proof. apply length_to_be. Qed.

Lemma length_signers_bytes l :
  length (concat (map address_bytes l)) = (length l * AddressLength)%nat.
Proof.
  rewrite (length_concat_const AddressLength), length_map; [done|].
  apply Forall_map, Forall_true. intros. apply length_address_bytes.
Qed.

Lemma length_sigs_bytes sigs :
  signatures_ok sigs → length (concat sigs) = (length sigs * SignatureLength)%nat.
Proof. apply length_concat_const. Qed.

Lemma length_payload signers sigs :
  signatures_ok sigs →
  length (encodeBreakGlassPayload signers sigs)
  = (length signers * 20 + length sigs * 65 + 9)%nat.
Proof.
  intros. unfold encodeBreakGlassPayload.
  rewrite !length_app, length_signers_bytes, length_sigs_bytes by done. simpl.
  unfold AddressLength, SignatureLength. lia.
Qed.

(** 65M + 9 is never a multiple of 20. *)
Lemma payload_not_plain signers sigs :
  signatures_ok sigs →
  (length (encodeBreakGlassPayload signers sigs) mod AddressLength ≠ 0)%nat.
Proof.
  intros. rewrite length_payload by done. unfold AddressLength. intros E.
  apply Nat.Div0.mod_divides in E as [k E]. lia.
Qed.

Lemma extra_payload_app vanity payload seal :
  length vanity = extraVanity → length seal = extraSeal →
  extra_payload (vanity ++ payload ++ seal) = payload.
Proof.
  intros Hv Hs. unfold extra_payload.
  rewrite drop_app_length' by done. apply take_app_length'.
  rewrite !length_app, Hv, Hs. lia.
Qed.

Lemma payload_split signers sigs :
  encodeBreakGlassPayload signers sigs
  = (concat (map address_bytes signers) ++ concat sigs
     ++ [z2b (Z.of_nat (length sigs))]) ++ breakGlassMagic.
Proof. unfold encodeBreakGlassPayload. by rewrite <- !app_assoc. Qed.

Lemma payload_magic signers sigs :
  drop (length (encodeBreakGlassPayload signers sigs) - breakGlassMagicLen)
    (encodeBreakGlassPayload signers sigs) = breakGlassMagic.
Proof.
  rewrite payload_split. apply drop_app_length'. rewrite !length_app. simpl.
  unfold breakGlassMagicLen. lia.
Qed.

Lemma payload_count signers sigs :
  encodeBreakGlassPayload signers sigs !!
    (length (encodeBreakGlassPayload signers sigs) - breakGlassTrailerLen)%nat
  = Some (z2b (Z.of_nat (length sigs))).
Proof.
  unfold encodeBreakGlassPayload. rewrite app_assoc.
  set (body := concat (map address_bytes signers) ++ concat sigs).
  rewrite lookup_app_r by (rewrite !length_app; simpl; unfold breakGlassTrailerLen,
    breakGlassCountLen, breakGlassMagicLen; lia).
  rewrite !length_app. simpl length.
  unfold breakGlassTrailerLen, breakGlassCountLen, breakGlassMagicLen.
  by replace (length body + (1 + 8) - (1 + 8) - length body)%nat with 0%nat by lia.
Qed.

Lemma of_be_address_bytes l : addresses l → map of_be (map address_bytes l) = l.
Proof.
  induction 1 as [|a l Ha _ IH]; [done|]. simpl. rewrite IH. f_equal.
  apply of_be_to_be_small. exact Ha.
Qed.

Lemma parse_payload_length (vanity payload seal : bytes) :
  length vanity = extraVanity → length seal = extraSeal →
  (length (vanity ++ payload ++ seal) <? extraVanity + extraSeal)%nat = false.
Proof. intros Hv Hs. apply Nat.ltb_ge. rewrite !length_app, Hv, Hs. lia. Qed.

Lemma parse_encoded vanity signers sigs seal :
  length vanity = extraVanity → length seal = extraSeal →
  addresses signers → signers ≠ [] → signatures_ok sigs → (1 ≤ length sigs < 256)%nat →
  parseCheckpointExtra (vanity ++ encodeBreakGlassPayload signers sigs ++ seal)
  = Ok (signers, sigs, true).
Proof.
  intros Hv Hs Ha Hne Hsig Hc. unfold parseCheckpointExtra.
  rewrite parse_payload_length by done. rewrite extra_payload_app by done.
  pose proof (payload_not_plain signers sigs Hsig) as Hnp.
  pose proof (length_payload signers sigs Hsig) as Hlen.
  apply Nat.eqb_neq in Hnp. rewrite Hnp, payload_count, payload_magic.
  rewrite bool_decide_true by done.
  replace (_ <? breakGlassTrailerLen)%nat with false
    by (symmetry; apply Nat.ltb_ge; rewrite Hlen; unfold breakGlassTrailerLen,
          breakGlassCountLen, breakGlassMagicLen; lia).
  cbn [orb negb]. rewrite b2z_z2b, Z.mod_small, Nat2Z.id by lia.
  destruct (Nat.eqb_spec (length sigs) 0); [lia|].
  assert (length signers ≠ 0%nat) by (by destruct signers).
  rewrite Hlen. unfold breakGlassTrailerLen, breakGlassCountLen, breakGlassMagicLen,
    SignatureLength.
  replace (Z.of_nat (length signers * 20 + length sigs * 65 + 9) - Z.of_nat (1 + 8)
           - Z.of_nat (length sigs * 65)) with (Z.of_nat (length signers * 20)) by lia.
  replace (Z.of_nat (length signers * 20) mod Z.of_nat AddressLength) with 0
    by (unfold AddressLength; dlia).
  unfold AddressLength at 1. ztests. cbn [orb negb]. rewrite Nat2Z.id.
  unfold AddressLength at 2. rewrite Nat.div_mul by lia.
  unfold encodeBreakGlassPayload.
  rewrite drop_app_length' by (rewrite length_signers_bytes; done).
  rewrite (chunks_concat SignatureLength) by done.
  rewrite <- (length_map address_bytes signers) at 1.
  rewrite (chunks_concat AddressLength).
  - by rewrite of_be_address_bytes.
  - apply Forall_map, Forall_true. intros. apply length_address_bytes.
Qed.

Lemma isBreakGlass_encoded vanity signers sigs seal :
  length vanity = extraVanity → length seal = extraSeal →
  signers ≠ [] → signatures_ok sigs → (1 ≤ length sigs)%nat →
  isBreakGlassExtra (vanity ++ encodeBreakGlassPayload signers sigs ++ seal) = true.
Proof.
  intros Hv Hs Hne Hsig Hc. unfold isBreakGlassExtra.
  assert (length signers ≠ 0%nat) by (by destruct signers).
  pose proof (length_payload signers sigs Hsig) as Hlen.
  rewrite extra_payload_app by done.
  replace (_ <? _)%nat with false.
  2:{ symmetry. apply Nat.ltb_ge. rewrite !length_app, Hv, Hs, Hlen.
      unfold breakGlassMinPayload, AddressLength, breakGlassTrailerLen, breakGlassCountLen,
        breakGlassMagicLen. lia. }
  pose proof (payload_not_plain signers sigs Hsig) as Hnp. apply Nat.eqb_neq in Hnp.
  rewrite Hnp. cbn [negb andb]. unfold has_suffix. apply bool_decide_eq_true.
  split; [rewrite Hlen; simpl; lia|]. apply payload_magic.
Qed.

(** ** Facts: signer lists *)

Lemma list_ok_le_spec prev l :
  list_ok (fun p a => a <=? p) prev l = true ↔
  0 ∉ l ∧ StronglySorted Z.lt l ∧ (∀ p, prev = Some p → Forall (Z.lt p) l).
Proof.
  revert prev. induction l as [|a l IH]; intros prev; simpl.
  { split; [intros _; repeat split; [set_solver|constructor|constructor]|done]. }
  destruct (Z.eqb_spec a 0) as [->|Ha]; [split; [done|set_solver]|].
  assert (Hrec : list_ok (fun p a => a <=? p) (Some a) l = true ↔
    0 ∉ a :: l ∧ StronglySorted Z.lt (a :: l)).
  { rewrite IH. split.
    - intros (? & ? & Hp). split; [set_solver|]. constructor; [done|by apply Hp].
    - intros [? Hs]. inversion Hs; subst. split; [set_solver|]. split; [done|].
      by intros p [= <-]. }
  destruct prev as [p|].
  - destruct (Z.leb_spec a p).
    + split; [done|]. intros (_ & _ & Hp). specialize (Hp p eq_refl).
      inversion Hp; lia.
    + rewrite Hrec. split.
      * intros [? Hs]. split; [done|]. split; [done|]. intros ? [= <-].
        inversion Hs; subst. constructor; [done|].
        eapply Forall_impl; [done|]. simpl. lia.
      * intros (? & ? & _). done.
  - rewrite Hrec. naive_solver.
Qed.

Lemma StronglySorted_lt_NoDup (l : list Z) : StronglySorted Z.lt l → NoDup l.
Proof.
  induction 1 as [|a l _ IH Ha]; constructor; [|done]. intros Hin.
  rewrite Forall_forall in Ha. specialize (Ha _ Hin). lia.
Qed.

(** Two ascending lists with the same elements are equal. *)
Lemma StronglySorted_lt_unique (l1 l2 : list Z) :
  StronglySorted Z.lt l1 → StronglySorted Z.lt l2 → (∀ a, a ∈ l1 ↔ a ∈ l2) → l1 = l2.
Proof.
  intros H1 H2 Heq.
  apply (StronglySorted_unique_strong Z.lt); [intros; lia|done..|].
  apply NoDup_Permutation; auto using StronglySorted_lt_NoDup.
Qed.

Lemma StronglySorted_le_lt (l : list Z) :
  StronglySorted Z.le l → NoDup l → StronglySorted Z.lt l.
Proof.
  induction 1 as [|a l _ IH Ha]; inversion 1; subst; constructor; [auto|].
  rewrite Forall_forall in *. intros x Hx. specialize (Ha x Hx).
  assert (x ≠ a) by (by intros ->). lia.
Qed.

Lemma sort_signers_perm l : sort_signers l ≡ₚ l.
Proof. apply merge_sort_Permutation. Qed.

Lemma sort_signers_sorted l : StronglySorted Z.le (sort_signers l).
Proof. apply StronglySorted_merge_sort; apply _. Qed.

Lemma sort_signers_lt l : NoDup l → StronglySorted Z.lt (sort_signers l).
Proof.
  intros. apply StronglySorted_le_lt; [apply sort_signers_sorted|].
  by rewrite sort_signers_perm.
Qed.

(** ** Facts: the signed message *)

Lemma concat_address_bytes_inj l1 l2 :
  addresses l1 → addresses l2 →
  concat (map address_bytes l1) = concat (map address_bytes l2) → l1 = l2.
Proof.
  intros H1. revert l2. induction H1 as [|a l1 Ha _ IH]; intros l2 H2 E.
  - apply (f_equal length) in E. rewrite !length_signers_bytes in E.
    unfold AddressLength in E. destruct l2; [done|]. cbn [length] in E. lia.
  - destruct H2 as [|b l2 Hb H2]; cbn [map concat] in E.
    + apply (f_equal length) in E. rewrite length_app, length_address_bytes in E.
      unfold AddressLength in E. cbn [length] in E. lia.
    + apply app_inj_1 in E as [E1 E2]; [|by rewrite !length_address_bytes].
      apply to_be_inj in E1 as ->; [|done..]. by rewrite (IH l2).
Qed.

(** The owners recovered from the signatures, in order. *)
Definition recovers `{Crypto} (bg : BreakGlassConfig) (digest : bytes)
  (sig : bytes) (o : Address) : Prop :=
  length sig = SignatureLength ∧ sig_owner digest sig = Ok o ∧ o ∈ Owners bg.

Lemma verify_sigs_spec `{Crypto} bg digest seen sigs seen' :
  verify_sigs bg digest seen sigs = Ok seen' ↔
  ∃ os, Forall2 (recovers bg digest) sigs os ∧ NoDup os ∧
        (∀ o, o ∈ os → o ∉ seen) ∧ seen' = list_to_set os ∪ seen.
Proof.
  revert seen. induction sigs as [|sig sigs IH]; intros seen; simpl.
  { split.
    - intros [= <-]. exists []. repeat split; try constructor; set_solver.
    - intros (os & Hos & _ & _ & ->). inversion Hos; subst. f_equal. set_solver. }
  split.
  - intros E. apply bind_ok in E as ([] & E1 & E). apply fail_if_ok in E1. bprop.
    destruct (sig_owner digest sig) as [o| |] eqn:Ho; [|done..].
    apply bind_ok in E as ([] & E2 & E). apply fail_if_ok in E2. bprop.
    apply bind_ok in E as ([] & E3 & E). apply fail_if_ok in E3. bprop.
    apply IH in E as (os & Hos & Hnd & Hns & ->).
    exists (o :: os). split; [constructor; [|done]|split; [|split]].
    + split; [by apply Nat.eqb_eq|]. split; [done|]. by apply containsAddress_In.
    + constructor; [|done]. intros Hin. apply Hns in Hin. set_solver.
    + intros x [->|Hx]%elem_of_cons; [done|]. apply Hns in Hx. set_solver.
    + set_solver.
  - intros (os & Hos & Hnd & Hns & ->).
    inversion Hos as [|? o ? os' (Hl & Ho & Hin) Hos']; subst.
    inversion Hnd; subst. rewrite Hl, Nat.eqb_refl. simpl. rewrite Ho.
    unfold isOwner. apply containsAddress_In in Hin. rewrite Hin. simpl.
    rewrite bool_decide_false by (apply Hns; set_solver). simpl.
    apply IH. exists os'. split; [done|]. split; [done|]. split; [|set_solver].
    intros x Hx. assert (x ≠ o) by (by intros ->).
    assert (x ∉ seen) by (apply Hns; set_solver). set_solver.
Qed.

(** What the signers and signatures of an accepted override satisfy. *)
Definition override_authorised `{Crypto} (bg : BreakGlassConfig) (number : Z)
  (parentHash : Hash) (signers : list Address) (sigs : list bytes) : Prop :=
  signers ≠ [] ∧ 0 ∉ signers ∧ StronglySorted Z.lt signers ∧
  ∃ chainID owners, bg_ChainID bg = Some chainID ∧
    Forall2 (recovers bg (breakGlassDigest chainID number parentHash signers)) sigs owners ∧
    NoDup owners ∧ 0 < Threshold bg ≤ Z.of_nat (length owners) ∧
    (length owners ≤ length (Owners bg))%nat.

Lemma verifyBreakGlass_spec `{Crypto} bg number parentHash signers sigs :
  verifyBreakGlass (Some bg) number parentHash signers sigs = Ok tt ↔
  override_authorised bg number parentHash signers sigs.
Proof.
  unfold verifyBreakGlass, override_authorised. split.
  - intros E.
    apply bind_ok in E as (? & H1%fail_if_ok & E).
    apply bind_ok in E as (? & H2%fail_if_ok & E).
    apply bind_ok in E as (? & H3%fail_if_ok & E).
    apply bind_ok in E as (? & H4%fail_if_ok & E).
    apply bind_ok in E as (chainID & H5 & E).
    apply bind_ok in E as (seen & H6 & H7%fail_if_ok).
    bprop. apply list_ok_le_spec in H3 as (Hz & Hs & _).
    apply verify_sigs_spec in H6 as (os & Hos & Hnd & _ & ->).
    rewrite (union_empty_r_L (list_to_set os)), size_list_to_set in H7 by done.
    split; [by destruct signers|]. split; [done|]. split; [done|].
    exists chainID, os. split; [by destruct (bg_ChainID bg); simplify_eq/=|].
    split; [done|]. split; [done|]. apply Forall2_length in Hos.
    match goal with H : (_ <? length sigs)%nat = false |- _ => apply Nat.ltb_ge in H end.
    lia.
  - intros (Hne & Hz & Hs & chainID & os & Hc & Hos & Hnd & Ht).
    pose proof (Forall2_length _ _ _ Hos) as Hlen.
    replace (length (Owners bg) =? 0)%nat with false
      by (symmetry; apply Nat.eqb_neq; lia).
    replace (length signers =? 0)%nat with false by (by destruct signers).
    replace (length sigs =? 0)%nat with false by (symmetry; apply Nat.eqb_neq; lia).
    replace (length (Owners bg) <? length sigs)%nat with false
      by (symmetry; apply Nat.ltb_ge; lia).
    rewrite (proj2 (list_ok_le_spec None signers)) by done.
    replace (Threshold bg <=? 0) with false by (symmetry; apply Z.leb_gt; lia).
    rewrite Hc. cbn [orb negb fail_if mbind result_bind deref].
    rewrite (proj2 (verify_sigs_spec bg _ ∅ sigs (list_to_set os ∪ ∅))).
    2:{ exists os. repeat split; [done|done|set_solver]. }
    cbn [mbind result_bind].
    rewrite (union_empty_r_L (list_to_set os)), size_list_to_set by done.
    by replace (_ <? _) with false by (symmetry; apply Z.ltb_ge; lia).
Qed.

Lemma RightPad_take_length (l : bytes) n : length (take n (RightPadBytes l n)) = n.
Proof.
  unfold RightPadBytes. rewrite length_take. destruct (n <=? length l)%nat eqn:E.
  - apply Nat.leb_le in E. lia.
  - apply Nat.leb_gt in E. rewrite length_app, length_replicate. lia.
Qed.

(** ** Properties *)

(** An override written by BreakGlassExtra is recognised as one and parses
    back to exactly the same signer list and owner signatures, whatever the
    vanity, for up to 255 signatures. *)
Theorem BreakGlassExtra_roundtrip vanity signers sigs :
  addresses signers → signers ≠ [] → signatures_ok sigs → (1 ≤ length sigs < 256)%nat →
  isBreakGlassExtra (BreakGlassExtra vanity signers sigs) = true ∧
  parseCheckpointExtra (BreakGlassExtra vanity signers sigs) = Ok (signers, sigs, true).
Proof.
  intros. unfold BreakGlassExtra.
  split; [apply isBreakGlass_encoded|apply parse_encoded];
    auto using length_replicate, RightPad_take_length; lia.
Qed.

Lemma BreakGlassExtra_roundtrip_witness :
  parseCheckpointExtra (BreakGlassExtra (str_bytes "fmx") [1; 5] [replicate 65 (z2b 7)])
  = Ok ([1; 5], [replicate 65 (z2b 7)], true).
Proof.
  apply BreakGlassExtra_roundtrip.
  - repeat constructor; discriminate.
  - discriminate.
  - repeat constructor.
  - simpl. lia.
Defined.

(** The message the owners sign determines the chain, the block number, the
    parent hash and the signer list: a signature collected for one override
    authorises no other. *)
Theorem breakGlassMessage_binds c1 n1 p1 l1 c2 n2 p2 l2 :
  0 ≤ c1 < 2 ^ 256 → 0 ≤ c2 < 2 ^ 256 → is_u64 n1 → is_u64 n2 →
  is_hash p1 → is_hash p2 → addresses l1 → addresses l2 →
  breakGlassMessage c1 n1 p1 l1 = breakGlassMessage c2 n2 p2 l2 →
  c1 = c2 ∧ n1 = n2 ∧ p1 = p2 ∧ l1 = l2.
Proof.
  intros Hc1 Hc2 Hn1 Hn2 Hp1 Hp2 Hl1 Hl2 E. unfold breakGlassMessage in E.
  rewrite !LeftPad_big_Bytes in E by done.
  apply app_inv_head in E.
  apply app_inj_1 in E as [E1 E]; [|by rewrite !length_to_be].
  apply app_inj_1 in E as [E2 E]; [|by rewrite !length_to_be].
  apply app_inj_1 in E as [E3 E]; [|by unfold hash_bytes; rewrite !length_to_be].
  apply to_be_inj in E1; [|done..]. apply to_be_inj in E2; [|done..].
  apply to_be_inj in E3; [|done..].
  by apply concat_address_bytes_inj in E.
Qed.

Lemma breakGlassMessage_binds_witness :
  breakGlassMessage 9101 5 7 [1; 2] = breakGlassMessage 9101 5 7 [1; 2] ∧
  (9101 = 9101 ∧ 5 = 5 ∧ 7 = 7 ∧ [1; 2] = [1; 2]).
Proof.
  split; [reflexivity|].
  apply breakGlassMessage_binds; try reflexivity; try (split; vm_compute; congruence);
    repeat constructor; vm_compute; congruence.
Defined.

(** C29: verifyBreakGlass accepts an override exactly when the signer list is
    non-empty, strictly ascending and without the zero address, and the
    signatures recover, over the digest of this very chain, number, parent and
    list, to pairwise distinct configured owners, at least Threshold of them. *)
Theorem verifyBreakGlass_sound_complete `{Crypto} bg number parentHash signers sigs :
  verifyBreakGlass (Some bg) number parentHash signers sigs = Ok tt ↔
  override_authorised bg number parentHash signers sigs.
Proof. apply verifyBreakGlass_spec. Qed.
