(* ===== verification/Snapshot.v ===== *)
(** * Authority snapshots (chain/consensus/clique/snapshot.go)

    The voting state of the authority engine: the signer set, the window of
    recent sealers, the open votes and their tally. [apply] is the transition
    run over a batch of headers. The file also holds the seal hash and signer
    recovery of clique.go, which [apply] calls. *)

From S2P Require Import Prelude Bytes Rlp Types Params BreakGlass.

(** ** Constants and errors of clique.go *)

Definition nonceAuthVote : Z := 0xffffffffffffffff.
Definition nonceDropVote : Z := 0x0000000000000000.

Definition errInvalidVote := New "vote nonce not 0x00..0 or 0xff..f".
Definition errInvalidVotingChain := New "invalid voting chain".
Definition errUnauthorizedSigner := New "unauthorized signer".
Definition errRecentlySigned := New "recently signed".

(** ** Data *)

Record Vote := MkVote {
  vote_Signer : Address;
  vote_Block : Z;
  vote_Address : Address;
  vote_Authorize : bool
}.

Record Tally := MkTally { tally_Authorize : bool; tally_Votes : Z }.

(** The signature cache of the Go struct is left out: [ecrecover_cached] and
    its lemma show that it does not change a result. *)
Record Snapshot := MkSnapshot {
  config : CliqueConfig;
  breakGlass : option BreakGlassConfig;
  sn_Number : Z;
  sn_Hash : Hash;
  Signers : gset Address;
  Recents : gmap Z Address;
  Votes : list Vote;
  TallyMap : gmap Address Tally
}.

Definition with_Signers (f : gset Address → gset Address) (s : Snapshot) : Snapshot :=
  MkSnapshot (config s) (breakGlass s) (sn_Number s) (sn_Hash s) (f (Signers s)) (Recents s)
    (Votes s) (TallyMap s).
Definition with_Recents (f : gmap Z Address → gmap Z Address) (s : Snapshot) : Snapshot :=
  MkSnapshot (config s) (breakGlass s) (sn_Number s) (sn_Hash s) (Signers s) (f (Recents s))
    (Votes s) (TallyMap s).
Definition with_Votes (f : list Vote → list Vote) (s : Snapshot) : Snapshot :=
  MkSnapshot (config s) (breakGlass s) (sn_Number s) (sn_Hash s) (Signers s) (Recents s)
    (f (Votes s)) (TallyMap s).
Definition with_Tally (f : gmap Address Tally → gmap Address Tally) (s : Snapshot) : Snapshot :=
  MkSnapshot (config s) (breakGlass s) (sn_Number s) (sn_Hash s) (Signers s) (Recents s)
    (Votes s) (f (TallyMap s)).
Definition with_Head (number : Z) (hash : Hash) (s : Snapshot) : Snapshot :=
  MkSnapshot (config s) (breakGlass s) number hash (Signers s) (Recents s)
    (Votes s) (TallyMap s).

(** ** Operations *)

(** [newSnapshot]. *)
Definition newSnapshot (cfg : CliqueConfig) (bg : option BreakGlassConfig) (number : Z)
  (hash : Hash) (signers : list Address) : Snapshot :=
  MkSnapshot cfg bg number hash (list_to_set signers) ∅ [] ∅.

(** [validVote]. *)
Definition validVote (s : Snapshot) (address : Address) (authorize : bool) : bool :=
  let signer := bool_decide (address ∈ Signers s) in
  (signer && negb authorize) || (negb signer && authorize).

(** [cast]: whether the vote was counted, and the updated snapshot. *)
Definition cast (s : Snapshot) (address : Address) (authorize : bool) : bool * Snapshot :=
  if negb (validVote s address authorize) then (false, s)
  else match TallyMap s !! address with
       | Some old =>
           (true, with_Tally
             <[address := MkTally (tally_Authorize old) (tally_Votes old + 1)]> s)
       | None => (true, with_Tally <[address := MkTally authorize 1]> s)
       end.

(** [uncast]. *)
Definition uncast (s : Snapshot) (address : Address) (authorize : bool) : bool * Snapshot :=
  match TallyMap s !! address with
  | None => (false, s)
  | Some tally =>
      if negb (bool_decide (tally_Authorize tally = authorize)) then (false, s)
      else if 1 <? tally_Votes tally then
        (true, with_Tally
          <[address := MkTally (tally_Authorize tally) (tally_Votes tally - 1)]> s)
      else (true, with_Tally (delete address) s)
  end.

(** [uint64(len(s.Signers)/2 + 1)]: the length of the recently-signed window. *)
Definition limit (s : Snapshot) : Z := Z.of_nat (size (Signers s)) / 2 + 1.

(** [if number >= limit { delete(snap.Recents, number-limit) }]. *)
Definition shift_recents (number : Z) (s : Snapshot) : Snapshot :=
  if limit s <=? number then with_Recents (delete (number - limit s)) s else s.

(** [applyBreakGlass]: [seen+limit] is a uint64 sum. *)
Definition applyBreakGlass (signers : list Address) (number : Z) (s : Snapshot) : Snapshot :=
  let s := with_Signers (fun _ => list_to_set signers) s in
  let s := with_Tally (fun _ => ∅) (with_Votes (fun _ => []) s) in
  with_Recents (filter (fun '(seen, _) => ¬ (add64 seen (limit s) ≤ number))) s.

(** [signers]: the authorized signers in ascending order. *)
Definition signers (s : Snapshot) : list Address := sort_signers (elements (Signers s)).

(** [inturn]. *)
Definition inturn (s : Snapshot) (number : Z) (signer : Address) : result bool :=
  r ← mod64 number (Z.of_nat (length (signers s)));
  Ok (r =? offset_of signer (signers s)).

(** [for _, recent := range snap.Recents { if recent == signer ... }]. *)
Definition recently (signer : Address) (recents : gmap Z Address) : bool :=
  existsb (fun kv => snd kv =? signer) (map_to_list recents).

(** The previous vote of the sealer on the same account is uncast and removed
    from the list; at most one is. *)
Fixpoint discard_vote (signer address : Address) (kept todo : list Vote) (s : Snapshot)
  : Snapshot :=
  match todo with
  | [] => s
  | vote :: rest =>
      if (vote_Signer vote =? signer) && (vote_Address vote =? address) then
        let s := snd (uncast s (vote_Address vote) (vote_Authorize vote)) in
        with_Votes (fun _ => kept ++ rest) s
      else discard_vote signer address (kept ++ [vote]) rest s
  end.

(** The switch on the header nonce. *)
Definition vote_of (nonce : Z) : result bool :=
  if nonce =? nonceAuthVote then Ok true
  else if nonce =? nonceDropVote then Ok false
  else Err errInvalidVote.

(** Count the new vote and append it. *)
Definition tally_vote (signer : Address) (number : Z) (address : Address)
  (authorize : bool) (s : Snapshot) : Snapshot :=
  let '(counted, s) := cast s address authorize in
  if counted : bool
  then with_Votes (fun l => l ++ [MkVote signer number address authorize]) s
  else s.

(** The votes a deauthorized signer cast are uncast and removed: the index loop
    visits every vote once, in order. *)
Fixpoint discard_votes_by (signer : Address) (kept todo : list Vote) (s : Snapshot)
  : Snapshot :=
  match todo with
  | [] => with_Votes (fun _ => kept) s
  | vote :: rest =>
      if vote_Signer vote =? signer then
        discard_votes_by signer kept rest
          (snd (uncast s (vote_Address vote) (vote_Authorize vote)))
      else discard_votes_by signer (kept ++ [vote]) rest s
  end.

(** Apply a vote that reached the majority; a missing tally reads as zero. *)
Definition pass_vote (number : Z) (address : Address) (s : Snapshot) : Snapshot :=
  let tally := default (MkTally false 0) (TallyMap s !! address) in
  if Z.of_nat (size (Signers s)) / 2 <? tally_Votes tally then
    let s :=
      if tally_Authorize tally then with_Signers (fun l => {[address]} ∪ l) s
      else
        let s := with_Signers (fun l => l ∖ {[address]}) s in
        let s := shift_recents number s in
        discard_votes_by address [] (Votes s) s in
    let s := with_Votes (filter (fun v => vote_Address v ≠ address)) s in
    with_Tally (delete address) s
  else s.

Section Apply.
Context `{Crypto}.

(** [encodeSigHeader]: the header without the seal, through the RLP encoder.
    Slicing a short extra panics, as does an encoding error. *)
Definition encodeSigHeader (header : Header) : result bytes :=
  if (length (Extra header) <? SignatureLength)%nat then Panic "slice bounds out of range"
  else
    match Header_EncodeRLP
            (set_Extra header (take (length (Extra header) - SignatureLength) (Extra header)))
            emptyBuffer with
    | Ok w => Ok (makeBytes w)
    | _ => Panic "can't encode"
    end.

(** [SealHash]. *)
Definition SealHash (header : Header) : result Hash :=
  b ← encodeSigHeader header; Ok (keccak256 b).

(** [CliqueRLP]. *)
Definition CliqueRLP (header : Header) : result bytes := encodeSigHeader header.

(** [ecrecover] on a cache miss. *)
Definition ecrecover (header : Header) : result Address :=
  if (length (Extra header) <? extraSeal)%nat then Err errMissingSignature
  else
    let signature := drop (length (Extra header) - extraSeal) (Extra header) in
    sealHash ← SealHash header;
    pubkey ← Ecrecover (hash_bytes sealHash) signature;
    Ok (pubkeyToAddress pubkey).

(** [ecrecover] with its cache; only a recovered address is added. *)
Definition ecrecover_cached (header : Header) (sigcache : gmap Hash Address)
  : result Address * gmap Hash Address :=
  let hash := Header_Hash header in
  match sigcache !! hash with
  | Some address => (Ok address, sigcache)
  | None =>
      match ecrecover header with
      | Ok signer => (Ok signer, <[hash := signer]> sigcache)
      | r => (r, sigcache)
      end
  end.

(** The sanity check that the headers are consecutive. *)
Fixpoint contiguous (headers : list Header) : result unit :=
  match headers with
  | h :: ((h' :: _) as rest) =>
      n' ← NumberU64 h';
      n ← NumberU64 h;
      _ ← fail_if (negb (n' =? add64 n 1)) errInvalidVotingChain;
      contiguous rest
  | _ => Ok tt
  end.

(** The state of the snapshot when the seal of [header] is checked. *)
Definition before_seal (snap : Snapshot) (header : Header)
  : result (Snapshot * bool) :=
  number ← NumberU64 header;
  r ← mod64 number (Epoch (config snap));
  let snap := if r =? 0
              then with_Tally (fun _ => ∅) (with_Votes (fun _ => []) snap) else snap in
  override ← breakGlassOverrideOf (breakGlass snap) header;
  let snap := match override with
              | Some l => applyBreakGlass l number snap
              | None => snap
              end in
  Ok (shift_recents number snap, bool_decide (is_Some override)).

(** The body of the loop of [apply]. *)
Definition apply_header (snap : Snapshot) (header : Header) : result Snapshot :=
  number ← NumberU64 header;
  '(snap, overridden) ← before_seal snap header;
  signer ← ecrecover header;
  _ ← fail_if (negb (bool_decide (signer ∈ Signers snap))) errUnauthorizedSigner;
  _ ← fail_if (negb overridden && recently signer (Recents snap)) errRecentlySigned;
  let snap := with_Recents <[number := signer]> snap in
  let snap := discard_vote signer (Coinbase header) [] (Votes snap) snap in
  authorize ← vote_of (Nonce header);
  let snap := tally_vote signer number (Coinbase header) authorize snap in
  Ok (pass_vote number (Coinbase header) snap).

Fixpoint apply_headers (snap : Snapshot) (headers : list Header) : result Snapshot :=
  match headers with
  | [] => Ok snap
  | h :: rest => snap ← apply_header snap h; apply_headers snap rest
  end.

(** [apply]. *)
Definition apply (s : Snapshot) (headers : list Header) : result Snapshot :=
  match headers with
  | [] => Ok s
  | h0 :: _ =>
      _ ← contiguous headers;
      n0 ← NumberU64 h0;
      _ ← fail_if (negb (n0 =? add64 (sn_Number s) 1)) errInvalidVotingChain;
      snap ← apply_headers s headers;
      Ok (with_Head (add64 (sn_Number snap) (Z.of_nat (length headers)))
            (Header_Hash (List.last headers h0)) snap)
  end.
End Apply.

(** ** The voting invariant *)

(** The open votes on an account. *)
Definition votes_on (a : Address) (votes : list Vote) : list Vote :=
  filter (fun v => vote_Address v = a) votes.

(** The tally the votes stand for. *)
Definition tally_for (signers : gset Address) (votes : list Vote) (a : Address)
  : option Tally :=
  match votes_on a votes with
  | [] => None
  | l => Some (MkTally (negb (bool_decide (a ∈ signers))) (Z.of_nat (length l)))
  end.

(** Every open vote is by a signer, makes sense for the current set, is the
    only one of its signer on its account, and the tally counts the votes. *)
Record voting_ok (signers : gset Address) (votes : list Vote)
  (tally : gmap Address Tally) : Prop := {
  vo_nodup : NoDup ((fun v => (vote_Signer v, vote_Address v)) <$> votes);
  vo_signers : ∀ v, v ∈ votes → vote_Signer v ∈ signers;
  vo_valid : ∀ v, v ∈ votes →
    vote_Authorize v = negb (bool_decide (vote_Address v ∈ signers));
  vo_tally : ∀ a, tally !! a = tally_for signers votes a
}.

Definition votes_ok (s : Snapshot) : Prop := voting_ok (Signers s) (Votes s) (TallyMap s).

(** Every entry of the recents is within the window that ends at [n]. *)
Definition recents_ok (n : Z) (s : Snapshot) : Prop :=
  ∀ k a, Recents s !! k = Some a → 0 ≤ k ≤ n ∧ n < k + limit s.

Lemma voting_ok_empty S : voting_ok S [] ∅.
Proof.
  split; [constructor|set_solver|set_solver|]. intros. by rewrite lookup_empty.
Qed.
#[export] Hint Resolve voting_ok_empty : s2p.

Lemma tally_for_perm S V V' a : V ≡ₚ V' → tally_for S V a = tally_for S V' a.
Proof.
  intros HV. unfold tally_for.
  assert (Hp : votes_on a V ≡ₚ votes_on a V') by (unfold votes_on; by rewrite HV).
  destruct (votes_on a V) as [|x l]; destruct (votes_on a V') as [|x' l'].
  - done.
  - by apply Permutation_nil_l in Hp.
  - by apply Permutation_nil_r in Hp.
  - by rewrite (Permutation_length Hp).
Qed.

Lemma tally_for_cons S v V a :
  tally_for S (v :: V) a =
  if decide (vote_Address v = a)
  then Some (MkTally (negb (bool_decide (a ∈ S))) (1 + Z.of_nat (length (votes_on a V))))
  else tally_for S V a.
Proof.
  unfold tally_for, votes_on. rewrite filter_cons.
  destruct (decide (vote_Address v = a)); [|done].
  cbn [length]. do 2 f_equal. lia.
Qed.

Lemma tally_for_nil S V a : votes_on a V = [] → tally_for S V a = None.
Proof. unfold tally_for. by intros ->. Qed.

Lemma tally_for_length S V a t :
  tally_for S V a = Some t → tally_Votes t = Z.of_nat (length (votes_on a V)).
Proof. unfold tally_for. destruct (votes_on a V); [done|]. by intros [= <-]. Qed.

(** [uncast] of a vote that is in the list keeps the tally exact. *)
Lemma uncast_tally S v V s :
  vote_Authorize v = negb (bool_decide (vote_Address v ∈ S)) →
  (∀ a, TallyMap s !! a = tally_for S (v :: V) a) →
  ∀ a, TallyMap (snd (uncast s (vote_Address v) (vote_Authorize v))) !! a
       = tally_for S V a.
Proof.
  intros Hv HT a. unfold uncast.
  rewrite (HT (vote_Address v)), tally_for_cons, decide_True by done.
  cbn [tally_Authorize]. rewrite bool_decide_true by done. cbn [negb tally_Votes].
  specialize (HT a). rewrite tally_for_cons in HT.
  destruct (votes_on (vote_Address v) V) as [|x l] eqn:Hl.
  - cbn [length]. ztests. cbn [snd TallyMap with_Tally].
    destruct (decide (vote_Address v = a)) as [<-|].
    + rewrite lookup_delete_eq, tally_for_nil; done.
    + by rewrite lookup_delete_ne.
  - cbn [length]. ztests. cbn [snd TallyMap with_Tally].
    destruct (decide (vote_Address v = a)) as [<-|].
    + rewrite lookup_insert_eq. unfold tally_for. rewrite Hl. cbn [length].
      do 2 f_equal. lia.
    + by rewrite lookup_insert_ne.
Qed.

Lemma uncast_frame s a b : let s' := snd (uncast s a b) in
  Signers s' = Signers s ∧ Recents s' = Recents s ∧ Votes s' = Votes s ∧
  config s' = config s ∧ breakGlass s' = breakGlass s ∧ sn_Number s' = sn_Number s ∧
  sn_Hash s' = sn_Hash s.
Proof. unfold uncast. by repeat (case_match; simpl). Qed.

Lemma cast_frame s a b : let s' := snd (cast s a b) in
  Signers s' = Signers s ∧ Recents s' = Recents s ∧ Votes s' = Votes s ∧
  config s' = config s ∧ breakGlass s' = breakGlass s ∧ sn_Number s' = sn_Number s ∧
  sn_Hash s' = sn_Hash s.
Proof. unfold cast. by repeat (case_match; simpl). Qed.

(** Removing one vote from a consistent list. *)
Lemma voting_ok_sublist S V V' T T' :
  voting_ok S V T → V' `sublist_of` V → (∀ a, T' !! a = tally_for S V' a) →
  voting_ok S V' T'.
Proof.
  intros [H1 H2 H3 _] Hsub HT. assert (∀ v, v ∈ V' → v ∈ V) as Hin.
  { intros v Hv. by eapply elem_of_sublist. }
  split; auto. eapply sublist_NoDup; [exact H1|]. by apply fmap_sublist.
Qed.

(** The fields a voting step leaves alone. *)
Definition same_frame (s s' : Snapshot) : Prop :=
  Signers s' = Signers s ∧ Recents s' = Recents s ∧
  config s' = config s ∧ breakGlass s' = breakGlass s ∧ sn_Number s' = sn_Number s ∧
  sn_Hash s' = sn_Hash s.

Lemma uncast_same s a b : same_frame s (snd (uncast s a b)).
Proof. pose proof (uncast_frame s a b). unfold same_frame. naive_solver. Qed.

Lemma same_frame_refl s : same_frame s s.
Proof. done. Qed.

Lemma same_frame_trans s1 s2 s3 :
  same_frame s1 s2 → same_frame s2 s3 → same_frame s1 s3.
Proof. unfold same_frame. intuition congruence. Qed.

Definition is_vote (signer address : Address) (v : Vote) : Prop :=
  vote_Signer v = signer ∧ vote_Address v = address.

Lemma is_vote_unique V v w :
  NoDup ((fun v => (vote_Signer v, vote_Address v)) <$> v :: V) →
  w ∈ V → is_vote (vote_Signer v) (vote_Address v) w → False.
Proof.
  intros Hnd Hw [H1 H2]. rewrite fmap_cons in Hnd. apply NoDup_cons in Hnd as [Hn _].
  apply Hn. apply list_elem_of_fmap. exists w. by rewrite H1, H2.
Qed.

Lemma discard_vote_ok signer address kept todo s :
  Votes s = kept ++ todo → votes_ok s →
  (∀ v, v ∈ kept → ¬ is_vote signer address v) →
  let s' := discard_vote signer address kept todo s in
  same_frame s s' ∧ votes_ok s' ∧ Votes s' `sublist_of` Votes s ∧
  (∀ v, v ∈ Votes s' → ¬ is_vote signer address v) ∧
  (∀ v, v ∈ Votes s → ¬ is_vote signer address v → v ∈ Votes s').
Proof.
  revert kept. induction todo as [|vote rest IH]; intros kept HV Hok Hk; simpl.
  { rewrite app_nil_r in HV. subst kept.
    split; [apply same_frame_refl|]. auto. }
  destruct ((vote_Signer vote =? signer) && (vote_Address vote =? address)) eqn:Em.
  - bprop. subst signer address.
    assert (Hp : kept ++ vote :: rest ≡ₚ vote :: kept ++ rest)
      by (symmetry; apply Permutation_middle).
    destruct (uncast_frame s (vote_Address vote) (vote_Authorize vote))
      as (HS & _ & _ & _).
    split; [|split; [|split; [|split]]]; unfold votes_ok; cbn [Votes Signers with_Votes TallyMap].
    + apply uncast_same.
    + rewrite HS. eapply voting_ok_sublist; [exact Hok| |].
      * rewrite HV. apply sublist_app; [done|]. by apply sublist_cons.
      * destruct Hok as [_ _ Hv HT]. intros a. eapply uncast_tally.
        -- apply Hv. rewrite HV. set_solver.
        -- intros b. rewrite HT, HV. by apply tally_for_perm.
    + rewrite HV. apply sublist_app; [done|]. by apply sublist_cons.
    + intros v [Hin|Hin]%elem_of_app; [by apply Hk|].
      intros Hi. eapply is_vote_unique; [|exact Hin|exact Hi].
      destruct Hok as [Hnd _ _ _]. rewrite HV in Hnd.
      rewrite fmap_app in Hnd. by apply NoDup_app in Hnd as (_ & _ & ?).
    + intros v Hin Hn. rewrite HV in Hin.
      apply elem_of_app in Hin as [?|[->|?]%elem_of_cons]; [set_solver| |set_solver].
      by destruct Hn.
  - apply IH; [by rewrite <- app_assoc|done|].
    intros v [?| ->%list_elem_of_singleton]%elem_of_app; [by apply Hk|].
    intros [<- <-]. by rewrite !Z.eqb_refl in Em.
Qed.

Lemma validVote_spec s a b :
  validVote s a b = true ↔ b = negb (bool_decide (a ∈ Signers s)).
Proof. unfold validVote. destruct b, (bool_decide (a ∈ Signers s)); naive_solver. Qed.

Lemma tally_for_snoc S v V a :
  tally_for S (V ++ [v]) a = tally_for S (v :: V) a.
Proof. apply tally_for_perm. by rewrite Permutation_app_comm. Qed.

Lemma tally_vote_ok signer number address authorize s :
  votes_ok s → signer ∈ Signers s →
  (∀ v, v ∈ Votes s → ¬ is_vote signer address v) →
  let s' := tally_vote signer number address authorize s in
  same_frame s s' ∧ votes_ok s' ∧
  Votes s' = Votes s ++ (if validVote s address authorize
                         then [MkVote signer number address authorize] else []).
Proof.
  intros [Hnd Hsg Hva HT] Hs Hn. unfold tally_vote, cast.
  destruct (validVote s address authorize) eqn:Hvv; cbn [negb];
    [|rewrite app_nil_r; by repeat split].
  assert (Hvv' := Hvv). apply validVote_spec in Hvv'.
  assert (Hok : ∀ T', (∀ a, T' !! a =
     tally_for (Signers s) (MkVote signer number address authorize :: Votes s) a) →
     voting_ok (Signers s) (Votes s ++ [MkVote signer number address authorize]) T').
  { intros T' HT'. split.
    - rewrite fmap_app. apply NoDup_app. split; [done|]. split; [|apply NoDup_singleton].
      intros x Hx ->%list_elem_of_singleton. apply list_elem_of_fmap in Hx as (w & Hw & Hin).
      simpl in Hw. simplify_eq. eapply Hn; [done|]. split; congruence.
    - intros v [?| ->%list_elem_of_singleton]%elem_of_app; [by apply Hsg|done].
    - intros v [?| ->%list_elem_of_singleton]%elem_of_app; [by apply Hva|done].
    - intros a. rewrite HT'. symmetry. apply tally_for_snoc. }
  pose proof (HT address) as Ha.
  destruct (TallyMap s !! address) as [old|] eqn:Ho; cbn.
  all: split; [done|]; split; [|done]; unfold votes_ok; cbn.
  all: apply Hok; intros a; rewrite tally_for_cons; cbn [vote_Address].
  all: destruct (decide (address = a)) as [<-|];
       [rewrite lookup_insert_eq|by rewrite lookup_insert_ne, HT].
  - unfold tally_for in Ha. destruct (votes_on address (Votes s)) as [|x l]; [done|].
    simplify_eq/=. do 2 f_equal. lia.
  - unfold tally_for in Ha. destruct (votes_on address (Votes s)); [|done].
    by rewrite Hvv'.
Qed.

Lemma discard_votes_by_ok S signer kept todo s :
  (∀ v, v ∈ kept ++ todo → vote_Authorize v = negb (bool_decide (vote_Address v ∈ S))) →
  (∀ a, TallyMap s !! a = tally_for S (kept ++ todo) a) →
  let s' := discard_votes_by signer kept todo s in
  same_frame s s' ∧
  Votes s' = kept ++ filter (fun v => vote_Signer v ≠ signer) todo ∧
  (∀ a, TallyMap s' !! a = tally_for S (Votes s') a).
Proof.
  revert kept s. induction todo as [|v rest IH]; intros kept s Hv HT; simpl.
  { rewrite filter_nil. rewrite app_nil_r in *. by split. }
  rewrite filter_cons. destruct (Z.eqb_spec (vote_Signer v) signer) as [E|E].
  - rewrite decide_False by naive_solver.
    assert (Hp : kept ++ v :: rest ≡ₚ v :: kept ++ rest)
      by (symmetry; apply Permutation_middle).
    destruct (IH kept (snd (uncast s (vote_Address v) (vote_Authorize v))))
      as (Hf & HV & HT').
    + intros w Hw. apply Hv. set_solver.
    + intros a. eapply uncast_tally; [apply Hv; set_solver|].
      intros b. rewrite HT. by apply tally_for_perm.
    + split; [|by split]. eapply same_frame_trans; [apply uncast_same|exact Hf].
  - rewrite decide_True by done.
    destruct (IH (kept ++ [v]) s) as (Hf & HV & HT').
    + intros w Hw. apply Hv. set_solver.
    + intros a. rewrite HT. by rewrite <- app_assoc.
    + split; [done|]. split; [|done]. by rewrite HV, <- app_assoc.
Qed.

Lemma votes_on_filter_ne a b V :
  a ≠ b → votes_on a (filter (fun v => vote_Address v ≠ b) V) = votes_on a V.
Proof.
  intros. unfold votes_on. induction V as [|v V IH]; [done|].
  rewrite !filter_cons. repeat case_decide; rewrite ?filter_cons, ?IH; repeat case_decide;
    naive_solver.
Qed.

Lemma votes_on_filter_eq a V :
  votes_on a (filter (fun v => vote_Address v ≠ a) V) = [].
Proof.
  unfold votes_on. induction V as [|v V IH]; [done|].
  rewrite !filter_cons. repeat case_decide; rewrite ?filter_cons, ?IH; repeat case_decide;
    naive_solver.
Qed.

(** Closing the vote on [a]: the set may have changed at [a] only. *)
Lemma voting_ok_close S S' V V' T T' a :
  voting_ok S V T → V' `sublist_of` V →
  (∀ v, v ∈ V' → vote_Signer v ∈ S') → (∀ b, b ≠ a → (b ∈ S' ↔ b ∈ S)) →
  (∀ b, b ≠ a → T' !! b = tally_for S V' b) → T' !! a = None →
  voting_ok S' (filter (fun v => vote_Address v ≠ a) V') T'.
Proof.
  intros [Hnd Hsg Hva _] Hsub HsS HS HT Ha. split.
  - eapply sublist_NoDup; [exact Hnd|]. apply fmap_sublist.
    etrans; [apply sublist_filter|exact Hsub].
  - intros v [_ Hv]%list_elem_of_filter. by apply HsS.
  - intros v [Hne Hv]%list_elem_of_filter. rewrite (Hva v).
    + f_equal. apply bool_decide_ext. symmetry. by apply HS.
    + by eapply elem_of_sublist.
  - intros b. destruct (decide (b = a)) as [->|Hb].
    + rewrite Ha. symmetry. apply tally_for_nil, votes_on_filter_eq.
    + rewrite HT by done. unfold tally_for. rewrite votes_on_filter_ne by done.
      destruct (votes_on b V'); [done|]. do 3 f_equal. apply bool_decide_ext.
      symmetry. by apply HS.
Qed.

Lemma shift_recents_frame number s : let s' := shift_recents number s in
  Signers s' = Signers s ∧ Votes s' = Votes s ∧ TallyMap s' = TallyMap s ∧
  config s' = config s ∧ breakGlass s' = breakGlass s ∧ sn_Number s' = sn_Number s ∧
  sn_Hash s' = sn_Hash s.
Proof. unfold shift_recents. by case_match. Qed.

Lemma pass_vote_votes number a s : votes_ok s → votes_ok (pass_vote number a s).
Proof.
  intros Hok. unfold pass_vote. case_match; [|done].
  unfold votes_ok. destruct (tally_Authorize _).
  - cbn. apply (voting_ok_close (Signers s) _ (Votes s) _ (TallyMap s) _ a); try done.
    + intros v Hv. apply (vo_signers _ _ _ Hok) in Hv. set_solver.
    + set_solver.
    + intros b Hb. rewrite lookup_delete_ne by done. apply (vo_tally _ _ _ Hok).
    + apply lookup_delete_eq.
  - set (s1 := with_Signers _ s).
    destruct (shift_recents_frame number s1) as (FS & FV & FT & _).
    destruct (discard_votes_by_ok (Signers s) a [] (Votes (shift_recents number s1))
                (shift_recents number s1)) as ((GS & _) & GV & GT).
    { intros v. rewrite FV. apply (vo_valid _ _ _ Hok). }
    { intros b. rewrite FV, FT. apply (vo_tally _ _ _ Hok). }
    cbn. rewrite GS, FS. cbn in FV. rewrite FV in GV, GT |- *.
    apply (voting_ok_close (Signers s) _ (Votes s) _ (TallyMap s) _ a); try done.
    + rewrite GV. apply sublist_filter.
    + intros v. rewrite GV. intros [Hne Hv]%list_elem_of_filter.
      apply (vo_signers _ _ _ Hok) in Hv. cbn. set_solver.
    + cbn. set_solver.
    + intros b Hb. rewrite lookup_delete_ne by done. apply GT.
    + apply lookup_delete_eq.
Qed.

(** ** The recently-signed window *)

Lemma limit_pos s : 1 ≤ limit s.
Proof. unfold limit. dlia. Qed.

Lemma limit_ext s s' : Signers s' = Signers s → limit s' = limit s.
Proof. unfold limit. by intros ->. Qed.

(** The window after the entry that leaves it is dropped. *)
Lemma shift_recents_window n s :
  (∀ k a, Recents s !! k = Some a → 0 ≤ k ≤ n ∧ n - limit s ≤ k) →
  recents_ok n (shift_recents n s).
Proof.
  intros Hr k a. unfold shift_recents. destruct (Z.leb_spec (limit s) n); cbn.
  - change (limit (with_Recents _ s)) with (limit s). intros Hk.
    destruct (decide (k = n - limit s)) as [->|]; [by rewrite lookup_delete_eq in Hk|].
    rewrite lookup_delete_ne in Hk by done. apply Hr in Hk. lia.
  - intros Hk. apply Hr in Hk. lia.
Qed.

(** ... and its complement: entries inside the window stay. *)
Lemma shift_recents_keep n s k :
  n < k + limit s → Recents (shift_recents n s) !! k = Recents s !! k.
Proof.
  intros. unfold shift_recents. case_match; [|done]. cbn.
  rewrite lookup_delete_ne; [done|lia].
Qed.

Lemma shift_recents_sub n s k a :
  Recents (shift_recents n s) !! k = Some a → Recents s !! k = Some a.
Proof.
  unfold shift_recents. case_match; [|done]. cbn.
  rewrite lookup_delete_Some. naive_solver.
Qed.

Lemma recents_next n s : recents_ok n s → recents_ok (n + 1) (shift_recents (n + 1) s).
Proof.
  intros Hr. apply shift_recents_window. intros k a Hk. apply Hr in Hk. lia.
Qed.

Lemma limit_add a s : limit s ≤ limit (with_Signers (fun l => {[a]} ∪ l) s).
Proof.
  unfold limit. cbn.
  assert (size (Signers s) ≤ size ({[a]} ∪ Signers s))%nat
    by (apply subseteq_size; set_solver). dlia.
Qed.

Lemma limit_remove a s :
  limit s - 1 ≤ limit (with_Signers (fun l => l ∖ {[a]}) s) ≤ limit s.
Proof.
  unfold limit. cbn.
  assert (size (Signers s ∖ {[a]}) ≤ size (Signers s))%nat
    by (apply subseteq_size; set_solver).
  assert (size (Signers s) ≤ 1 + size (Signers s ∖ {[a]}))%nat.
  { rewrite <- (size_singleton (C := gset Address) a), <- size_union by set_solver.
    apply subseteq_size. intros x. destruct (decide (x = a)); set_solver. }
  dlia.
Qed.

(** What [pass_vote] does to the set and the window. *)
Lemma pass_vote_cases n a s :
  votes_ok s →
  let s' := pass_vote n a s in
  (Signers s' = Signers s ∧ Recents s' = Recents s) ∨
  (∃ t, TallyMap s !! a = Some t ∧ Z.of_nat (size (Signers s)) / 2 < tally_Votes t ∧
     ((tally_Authorize t = true ∧ Signers s' = {[a]} ∪ Signers s ∧
       Recents s' = Recents s) ∨
      (tally_Authorize t = false ∧ Signers s' = Signers s ∖ {[a]} ∧
       Recents s' = Recents (shift_recents n (with_Signers (fun l => l ∖ {[a]}) s))))).
Proof.
  intros Hok. unfold pass_vote. destruct (_ <? _) eqn:Hlt; [|by left].
  right. bprop. destruct (TallyMap s !! a) as [t|] eqn:Ht; cbn in *; [|dlia].
  exists t. split; [done|]. split; [done|]. destruct (tally_Authorize t).
  - left. by cbn.
  - right. cbn. set (s1 := with_Signers _ s).
    destruct (shift_recents_frame n s1) as (FS & FV & FT & _).
    destruct (discard_votes_by_ok (Signers s) a [] (Votes (shift_recents n s1))
                (shift_recents n s1)) as ((GS & GR & _) & _).
    { intros v. rewrite FV. apply (vo_valid _ _ _ Hok). }
    { intros b. rewrite FV, FT. apply (vo_tally _ _ _ Hok). }
    by rewrite GS, GR, FS.
Qed.

Lemma pass_vote_recents n a s :
  votes_ok s → recents_ok n s → recents_ok n (pass_vote n a s).
Proof.
  intros Hok Hr. destruct (pass_vote_cases n a s Hok)
    as [[HS HR]|(t & _ & _ & [(_ & HS & HR)|(_ & HS & HR)])].
  - intros k b. rewrite HR, (limit_ext _ _ HS). apply Hr.
  - intros k b. rewrite HR. intros Hk. apply Hr in Hk.
    pose proof (limit_add a s). rewrite (limit_ext (with_Signers (λ l, {[a]} ∪ l) s) _ HS).
    lia.
  - set (s1 := with_Signers (fun l => l ∖ {[a]}) s) in *.
    assert (Hw : recents_ok n (shift_recents n s1)).
    { apply shift_recents_window. intros k b Hk. apply Hr in Hk.
      pose proof (limit_remove a s). fold s1 in H. lia. }
    intros k b. rewrite HR. intros Hk. apply Hw in Hk.
    rewrite (limit_ext s1 _ (proj1 (shift_recents_frame n s1))) in Hk.
    by rewrite (limit_ext s1 _ HS).
Qed.

Lemma size_list_to_set_le (l : list Address) :
  (size (list_to_set l : gset Address) ≤ length l)%nat.
Proof.
  induction l as [|a l IH]; [done|]. cbn [list_to_set length].
  rewrite size_union_alt, size_singleton.
  assert (size ((list_to_set l : gset Address) ∖ {[a]}) ≤ size (list_to_set l : gset Address))%nat
    by (apply subseteq_size; set_solver). lia.
Qed.

(** Break-glass prunes the window to the size of the new set. *)
Lemma applyBreakGlass_window l n s :
  is_u64 n → Z.of_nat (length l) < 2 ^ 32 → n + 2 ^ 32 < two64 →
  (∀ k a, Recents s !! k = Some a → 0 ≤ k ≤ n) →
  recents_ok n (applyBreakGlass l n s).
Proof.
  intros Hn Hl Hb Hr k a Hk. unfold applyBreakGlass in *. cbn in Hk.
  apply map_lookup_filter_Some in Hk as [Hk Hne]. specialize (Hr k a Hk).
  set (L := limit _) in Hne.
  assert (1 ≤ L ≤ 2 ^ 32).
  { split; [apply limit_pos|]. unfold L, limit. cbn.
    assert (size (list_to_set l : gset Address) ≤ length l)%nat
      by apply size_list_to_set_le. dlia. }
  rewrite add64_small in Hne by (unfold is_u64 in *; lia).
  change (limit _) with L. lia.
Qed.

(** ** One header *)

Lemma parse_length extra l sigs b :
  parseCheckpointExtra extra = Ok (l, sigs, b) → (length l ≤ length extra)%nat.
Proof.
  assert (Hp : (length (extra_payload extra) ≤ length extra)%nat)
    by (unfold extra_payload; rewrite length_take, length_drop; lia).
  assert (Hdiv : ∀ n, (n / AddressLength ≤ n)%nat)
    by (intros; apply Nat.Div0.div_le_upper_bound; unfold AddressLength; lia).
  unfold parseCheckpointExtra. repeat case_match; intros [= <- <- <-];
    rewrite length_map, length_chunks; (etrans; [apply Hdiv|]); lia.
Qed.

Lemma breakGlassOverrideOf_Some `{Crypto} bg h l :
  breakGlassOverrideOf bg h = Ok (Some l) →
  isBreakGlassExtra (Extra h) = true ∧
  ∃ cfg number sigs b, bg = Some cfg ∧ NumberU64 h = Ok number ∧
    parseCheckpointExtra (Extra h) = Ok (l, sigs, b) ∧
    override_authorised cfg number (ParentHash h) l sigs.
Proof.
  unfold breakGlassOverrideOf. destruct (isBreakGlassExtra (Extra h)); [|done].
  cbn [negb]. intros E. apply bind_ok in E as ([[l' sigs] b] & Hp & E).
  apply bind_ok in E as (number & Hn & E).
  apply bind_ok in E as (u & Hv & E). apply Ok_inj in E. simplify_eq.
  destruct bg as [cfg|]; [|done]. destruct u.
  apply verifyBreakGlass_spec in Hv. split; [done|]. by exists cfg, number, sigs, b.
Qed.

Lemma breakGlassOverrideOf_None `{Crypto} bg h :
  isBreakGlassExtra (Extra h) = false → breakGlassOverrideOf bg h = Ok None.
Proof. unfold breakGlassOverrideOf. by intros ->. Qed.

Definition reset_votes (s : Snapshot) : Snapshot :=
  with_Tally (fun _ => ∅) (with_Votes (fun _ => []) s).

(** The three shapes of the state before the seal check. *)
Lemma before_seal_cases `{Crypto} s h s1 o :
  before_seal s h = Ok (s1, o) →
  ∃ number s0, NumberU64 h = Ok number ∧
    (s0 = s ∨ s0 = reset_votes s) ∧
    ((o = false ∧ s1 = shift_recents number s0) ∨
     (∃ l cfg sigs, o = true ∧ s1 = shift_recents number (applyBreakGlass l number s0) ∧
        breakGlass s = Some cfg ∧ (length l ≤ length (Extra h))%nat ∧
        override_authorised cfg number (ParentHash h) l sigs)).
Proof.
  unfold before_seal. intros E. apply bind_ok in E as (number & Hn & E).
  apply bind_ok in E as (r & Hr & E).
  set (s0 := if r =? 0 then _ else _) in E.
  assert (Hs0 : s0 = s ∨ s0 = reset_votes s) by (unfold s0; case_match; auto).
  assert (Hbg : breakGlass s0 = breakGlass s) by (destruct Hs0 as [->| ->]; done).
  apply bind_ok in E as (ov & Hov & E). apply Ok_inj in E. simplify_eq.
  exists number, s0. split; [done|]. split; [done|].
  destruct ov as [l|]; [|by left]. right.
  apply breakGlassOverrideOf_Some in Hov as (_ & cfg & n' & sigs & b & Hc & Hn' & Hp & Ha).
  rewrite Hbg in Hc. assert (n' = number) as -> by congruence.
  exists l, cfg, sigs. apply parse_length in Hp. by repeat (split; [done|]).
Qed.

(** A state between headers: [n] is the number of the last one applied. *)
Definition snap_ok (n : Z) (s : Snapshot) : Prop := votes_ok s ∧ recents_ok n s.

(** A header that can follow block [n]. *)
Definition next_header (n : Z) (h : Header) : Prop :=
  NumberU64 h = Ok (n + 1) ∧ 0 ≤ n ∧ n + 1 + 2 ^ 32 < two64 ∧
  zlen (Extra h) < 2 ^ 32.

Lemma recents_ok_ext n s s' :
  Signers s' = Signers s → Recents s' = Recents s → recents_ok n s → recents_ok n s'.
Proof. intros HS HR Hr k a. rewrite HR, (limit_ext _ _ HS). apply Hr. Qed.

Lemma before_seal_ok `{Crypto} n s h s1 o :
  snap_ok n s → next_header n h → before_seal s h = Ok (s1, o) → snap_ok (n + 1) s1.
Proof.
  intros [Hv Hr] (Hn & H0 & Hb & Hx) E.
  apply before_seal_cases in E as (number & s0 & Hn' & Hs0 & Hc).
  assert (number = n + 1) as -> by congruence.
  assert (Hv0 : votes_ok s0).
  { destruct Hs0 as [->| ->]; [done|]. apply voting_ok_empty. }
  assert (Hr0 : recents_ok n s0).
  { destruct Hs0 as [->| ->]; [done|]. by apply (recents_ok_ext n s). }
  destruct Hc as [[_ ->]|(l & cfg & sigs & _ & -> & _ & Hl & _)].
  - split; [|by apply recents_next]. unfold votes_ok.
    by destruct (shift_recents_frame (n + 1) s0) as (-> & -> & -> & _).
  - split.
    + unfold votes_ok.
      destruct (shift_recents_frame (n + 1) (applyBreakGlass l (n + 1) s0))
        as (-> & -> & -> & _). apply voting_ok_empty.
    + apply shift_recents_window. intros k a Hk.
      enough (recents_ok (n + 1) (applyBreakGlass l (n + 1) s0)) as Hw
        by (apply Hw in Hk; lia).
      apply applyBreakGlass_window; [unfold is_u64; lia|unfold zlen in *; lia|lia|].
      intros k' a' Hk'. apply Hr0 in Hk'. lia.
Qed.

(** The steps of an accepted header, with the states in between. *)
Lemma apply_header_inv `{Crypto} s h s' :
  apply_header s h = Ok s' →
  ∃ number s1 o signer authorize,
    NumberU64 h = Ok number ∧ before_seal s h = Ok (s1, o) ∧
    ecrecover h = Ok signer ∧ signer ∈ Signers s1 ∧
    (o = false → recently signer (Recents s1) = false) ∧
    vote_of (Nonce h) = Ok authorize ∧
    let s2 := with_Recents <[number := signer]> s1 in
    let s3 := discard_vote signer (Coinbase h) [] (Votes s2) s2 in
    s' = pass_vote number (Coinbase h)
           (tally_vote signer number (Coinbase h) authorize s3).
Proof.
  unfold apply_header. intros E.
  apply bind_ok in E as (number & Hn & E).
  apply bind_ok in E as ([s1 o] & Hb & E).
  apply bind_ok in E as (signer & Hs & E).
  apply bind_ok in E as (u & H1%fail_if_ok & E).
  apply bind_ok in E as (u' & H2%fail_if_ok & E).
  apply bind_ok in E as (auth & Ha & E). apply Ok_inj in E. bprop.
  exists number, s1, o, signer, auth. repeat split; try done.
  intros ->. by destruct (recently signer (Recents s1)).
Qed.

(** The voting steps between the seal check and the tally. *)
Lemma vote_steps_ok s signer number address authorize :
  votes_ok s → signer ∈ Signers s →
  let s3 := discard_vote signer address [] (Votes s) s in
  let s4 := tally_vote signer number address authorize s3 in
  same_frame s s4 ∧ votes_ok s4.
Proof.
  intros Hv Hs.
  destruct (discard_vote_ok signer address [] (Votes s) s eq_refl Hv) as (F1 & V1 & _ & N1 & _).
  { set_solver. }
  destruct (tally_vote_ok signer number address authorize
    (discard_vote signer address [] (Votes s) s)) as (F2 & V2 & _).
  { done. } { by destruct F1 as (-> & _). } { done. }
  split; [|done]. by eapply same_frame_trans.
Qed.

Lemma apply_header_ok `{Crypto} n s h s' :
  snap_ok n s → next_header n h → apply_header s h = Ok s' → snap_ok (n + 1) s'.
Proof.
  intros Hok Hh E.
  apply apply_header_inv in E as (number & s1 & o & signer & auth & Hn & Hb & _ & Hs & _ & _ & E).
  destruct (before_seal_ok n s h s1 o Hok Hh Hb) as [Hv Hr].
  assert (number = n + 1) as -> by (destruct Hh; congruence).
  set (s2 := with_Recents <[n + 1 := signer]> s1) in *.
  destruct (vote_steps_ok s2 signer (n + 1) (Coinbase h) auth) as [F V]; [done..|].
  cbn zeta in E. subst s'. split; [by apply pass_vote_votes|].
  apply pass_vote_recents; [done|].
  apply (recents_ok_ext _ s2); [by apply F..|].
  intros k a Hk. cbn in Hk. change (limit s2) with (limit s1).
  destruct Hh as (_ & ? & _ & _). pose proof (limit_pos s1).
  apply lookup_insert_Some in Hk as [[<- <-]|[_ Hk]]; [lia|]. by apply Hr in Hk.
Qed.

(** ** A batch of headers *)

Fixpoint next_headers (n : Z) (hs : list Header) : Prop :=
  match hs with
  | [] => True
  | h :: rest => next_header n h ∧ next_headers (n + 1) rest
  end.

(** Headers of a size and at a height where nothing overflows. *)
Definition sane_batch (n : Z) (hs : list Header) : Prop :=
  0 ≤ n ∧ n + zlen hs + 2 ^ 32 < two64 ∧ Forall (fun h => zlen (Extra h) < 2 ^ 32) hs.

Lemma same_meta_pass n a s : votes_ok s →
  config (pass_vote n a s) = config s ∧ breakGlass (pass_vote n a s) = breakGlass s ∧
  sn_Number (pass_vote n a s) = sn_Number s ∧ sn_Hash (pass_vote n a s) = sn_Hash s.
Proof.
  intros Hok. unfold pass_vote. case_match; [|done].
  destruct (tally_Authorize _); [done|]. cbn. set (s1 := with_Signers _ s).
  destruct (shift_recents_frame n s1) as (FS & FV & FT & FC & FB & FN & FH).
  destruct (discard_votes_by_ok (Signers s) a [] (Votes (shift_recents n s1))
              (shift_recents n s1)) as ((_ & _ & GC & GB & GN & GH) & _).
  { intros v. rewrite FV. apply (vo_valid _ _ _ Hok). }
  { intros b. rewrite FV, FT. apply (vo_tally _ _ _ Hok). }
  by rewrite GC, GB, GN, GH, FC, FB, FN, FH.
Qed.

Lemma before_seal_meta `{Crypto} s h s1 o :
  before_seal s h = Ok (s1, o) →
  config s1 = config s ∧ breakGlass s1 = breakGlass s ∧
  sn_Number s1 = sn_Number s ∧ sn_Hash s1 = sn_Hash s.
Proof.
  intros (number & s0 & _ & Hs0 & Hc)%before_seal_cases.
  destruct Hc as [[_ ->]|(l & cfg & sigs & _ & -> & _)].
  - destruct (shift_recents_frame number s0) as (_ & _ & _ & -> & -> & -> & ->).
    by destruct Hs0 as [->| ->].
  - destruct (shift_recents_frame number (applyBreakGlass l number s0))
      as (_ & _ & _ & -> & -> & -> & ->). by destruct Hs0 as [->| ->].
Qed.

Lemma apply_header_meta `{Crypto} n s h s' :
  snap_ok n s → next_header n h → apply_header s h = Ok s' →
  config s' = config s ∧ breakGlass s' = breakGlass s ∧
  sn_Number s' = sn_Number s ∧ sn_Hash s' = sn_Hash s.
Proof.
  intros Hok Hh E.
  apply apply_header_inv in E as (number & s1 & o & signer & auth & Hn & Hb & _ & Hs & _ & _ & E).
  destruct (before_seal_ok n s h s1 o Hok Hh Hb) as [Hv _].
  apply before_seal_meta in Hb as (<- & <- & <- & <-).
  set (s2 := with_Recents <[number := signer]> s1) in *.
  destruct (vote_steps_ok s2 signer number (Coinbase h) auth) as [F V]; [done..|].
  cbn zeta in E. subst s'.
  destruct (same_meta_pass number (Coinbase h) _ V) as (-> & -> & -> & ->).
  by destruct F as (_ & _ & -> & -> & -> & ->).
Qed.

Lemma apply_headers_ok `{Crypto} n s hs s' :
  snap_ok n s → next_headers n hs → apply_headers s hs = Ok s' →
  snap_ok (n + zlen hs) s' ∧ config s' = config s ∧ breakGlass s' = breakGlass s ∧
  sn_Number s' = sn_Number s ∧ sn_Hash s' = sn_Hash s.
Proof.
  revert n s. induction hs as [|h hs IH]; intros n s Hok Hh E; cbn in E.
  { apply Ok_inj in E as <-. unfold zlen. cbn [length]. by rewrite Z.add_0_r. }
  destruct Hh as [Hh Hhs]. apply bind_ok in E as (s1 & E1 & E).
  pose proof (apply_header_meta _ _ _ _ Hok Hh E1) as (<- & <- & <- & <-).
  apply (apply_header_ok _ _ _ _ Hok Hh) in E1.
  destruct (IH _ _ E1 Hhs E) as [IH' ?]. split; [|done].
  by replace (n + zlen (h :: hs)) with (n + 1 + zlen hs)
    by (unfold zlen; cbn [length]; lia).
Qed.

Lemma contiguous_next `{Crypto} n h hs :
  sane_batch n (h :: hs) → NumberU64 h = Ok (n + 1) → contiguous (h :: hs) = Ok tt →
  next_headers n (h :: hs).
Proof.
  revert n h. induction hs as [|h' hs IH]; intros n h (H0 & Hb & Hx) Hn E;
    inversion Hx as [|?? Hxh Hxs]; subst; unfold zlen in *; cbn [length] in *.
  { split; [|done]. split; [done|]. unfold zlen. lia. }
  cbn [contiguous] in E. apply bind_ok in E as (n' & Hn' & E).
  apply bind_ok in E as (m & Hm & E). assert (m = n + 1) as -> by congruence.
  apply bind_ok in E as ([] & Hc%fail_if_ok & E). bprop.
  rewrite add64_small in Hc by (unfold is_u64; lia). subst n'.
  split; [split; [done|unfold zlen; lia]|].
  apply IH; [|done..]. split; [lia|]. split; [|done]. unfold zlen. cbn [length]. lia.
Qed.

Lemma apply_inv `{Crypto} s hs s' :
  sane_batch (sn_Number s) hs → apply s hs = Ok s' → hs ≠ [] →
  next_headers (sn_Number s) hs ∧
  ∃ h0 snap, head hs = Some h0 ∧ apply_headers s hs = Ok snap ∧
    s' = with_Head (add64 (sn_Number snap) (zlen hs)) (Header_Hash (List.last hs h0)) snap.
Proof.
  intros Hsane E Hne. destruct hs as [|h0 hs]; [done|]. unfold apply in E.
  apply bind_ok in E as ([] & Hc & E).
  apply bind_ok in E as (n0 & Hn0 & E).
  apply bind_ok in E as ([] & Hf%fail_if_ok & E). bprop.
  apply bind_ok in E as (snap & Hs & E). apply Ok_inj in E as <-.
  assert (Hs' := Hsane). destruct Hs' as (? & ? & _).
  rewrite add64_small in Hf by (unfold is_u64, zlen in *; cbn [length] in *; lia). subst n0.
  split; [by apply contiguous_next|]. by exists h0, snap.
Qed.

Lemma newSnapshot_ok cfg bg number hash l :
  snap_ok number (newSnapshot cfg bg number hash l).
Proof. split; [apply voting_ok_empty|]. by intros k a Hk. Qed.

Lemma apply_ok `{Crypto} s hs s' :
  snap_ok (sn_Number s) s → sane_batch (sn_Number s) hs → apply s hs = Ok s' →
  snap_ok (sn_Number s') s' ∧ sn_Number s' = sn_Number s + zlen hs ∧
  config s' = config s ∧ breakGlass s' = breakGlass s.
Proof.
  intros Hok Hsane E. destruct (decide (hs = [])) as [->|Hne].
  { apply Ok_inj in E as <-. unfold zlen. cbn. by rewrite Z.add_0_r. }
  destruct (apply_inv s hs s' Hsane E Hne) as (Hn & h0 & snap & _ & Hs & ->).
  destruct (apply_headers_ok _ _ _ _ Hok Hn Hs) as (Hok' & Hc & Hb & HN & _).
  cbn. destruct Hsane as (? & ? & _). rewrite HN.
  rewrite add64_small by (unfold is_u64, zlen in *; lia). done.
Qed.

(** ** Who may seal next *)

Lemma recently_spec a m : recently a m = true ↔ ∃ k, m !! k = Some a.
Proof.
  unfold recently. rewrite existsb_exists. split.
  - intros ([k b] & Hin & E). bprop. cbn in E. subst b. exists k.
    apply elem_of_map_to_list. by apply list_elem_of_In.
  - intros [k Hk]. exists (k, a). split; [|apply Z.eqb_refl].
    by apply list_elem_of_In, elem_of_map_to_list.
Qed.

Lemma recently_false a m k : recently a m = false → m !! k ≠ Some a.
Proof. intros E Hk. rewrite (proj2 (recently_spec a m)) in E by eauto. done. Qed.

(** The sealers a map of recents blocks. *)
Definition sealers_in (m : gmap Z Address) : gset Address :=
  list_to_set (snd <$> map_to_list m).

Lemma sealers_in_spec a m : a ∈ sealers_in m ↔ recently a m = true.
Proof.
  unfold sealers_in. rewrite elem_of_list_to_set, list_elem_of_fmap, recently_spec.
  split.
  - intros ([k b] & -> & Hin). exists k. by apply elem_of_map_to_list.
  - intros [k Hk]. exists (k, a). split; [done|]. by apply elem_of_map_to_list.
Qed.

Lemma sealers_in_size m : (size (sealers_in m) ≤ size m)%nat.
Proof.
  unfold sealers_in. etrans; [apply size_list_to_set_le|].
  by rewrite length_fmap, length_map_to_list.
Qed.

(** A map with keys in an interval has at most as many entries. *)
Lemma window_size (m : gmap Z Address) lo len :
  0 ≤ len → (∀ k a, m !! k = Some a → lo ≤ k < lo + len) → Z.of_nat (size m) ≤ len.
Proof.
  intros Hlen Hm. rewrite <- size_dom.
  assert (Hsub : dom m ⊆ (list_to_set (seqZ lo len) : gset Z)).
  { intros k [a Hk]%elem_of_dom. apply elem_of_list_to_set, elem_of_seqZ. by eapply Hm. }
  apply subseteq_size in Hsub.
  rewrite size_list_to_set, length_seqZ in Hsub by apply NoDup_seqZ. lia.
Qed.

(** The signers that may seal block [n + 1]. *)
Definition may_seal (n : Z) (s : Snapshot) : gset Address :=
  Signers s ∖ sealers_in (Recents (shift_recents (n + 1) s)).

Lemma may_seal_size n s :
  recents_ok n s →
  Z.of_nat (size (Signers s)) - Z.of_nat (size (Signers s)) / 2
  ≤ Z.of_nat (size (may_seal n s)).
Proof.
  intros Hr. unfold may_seal. set (B := sealers_in _).
  assert (HB : Z.of_nat (size B) ≤ limit s - 1).
  { etrans; [apply inj_le, sealers_in_size|].
    pose proof (limit_pos s).
    apply (window_size _ (n + 2 - limit s)); [lia|].
    intros k a Hk. pose proof (shift_recents_sub _ _ _ _ Hk) as Hk'.
    apply Hr in Hk' as Hw. apply (recents_next n s Hr) in Hk as Hw'.
    rewrite (limit_ext s _ (proj1 (shift_recents_frame (n + 1) s))) in Hw'. lia. }
  assert (size (Signers s) ≤ size (Signers s ∖ B) + size B)%nat.
  { rewrite <- size_union by set_solver. apply subseteq_size. intros x Hx.
    destruct (decide (x ∈ B)); set_solver. }
  unfold limit in HB. lia.
Qed.

Lemma before_seal_plain `{Crypto} n s h :
  NumberU64 h = Ok n → Epoch (config s) ≠ 0 → isBreakGlassExtra (Extra h) = false →
  before_seal s h =
  Ok (shift_recents n (if n mod Epoch (config s) =? 0 then reset_votes s else s), false).
Proof.
  intros Hn He Hx. unfold before_seal, mod64. rewrite Hn. cbn [mbind result_bind].
  apply Z.eqb_neq in He. rewrite He. cbn [mbind result_bind].
  rewrite breakGlassOverrideOf_None by done. done.
Qed.

Lemma shift_recents_reset n s :
  Signers (shift_recents n (reset_votes s)) = Signers (shift_recents n s) ∧
  Recents (shift_recents n (reset_votes s)) = Recents (shift_recents n s).
Proof.
  unfold shift_recents. change (limit (reset_votes s)) with (limit s). by case_match.
Qed.

Lemma plain_seal_state `{Crypto} n s h :
  NumberU64 h = Ok n → Epoch (config s) ≠ 0 → isBreakGlassExtra (Extra h) = false →
  ∃ s1, before_seal s h = Ok (s1, false) ∧ Signers s1 = Signers s ∧
        Recents s1 = Recents (shift_recents n s).
Proof.
  intros Hn He Hx. eexists. split; [by apply before_seal_plain|].
  destruct (shift_recents_reset n s) as [HS HR].
  destruct (shift_recents_frame n s) as [HS' _].
  case_match; [by rewrite HS, HR|done].
Qed.

(** ** Majorities *)

(** The voters of the open votes on an account. *)
Definition voters_on (a : Address) (votes : list Vote) : gset Address :=
  list_to_set (vote_Signer <$> votes_on a votes).

Lemma voters_on_size S V T a :
  voting_ok S V T → size (voters_on a V) = length (votes_on a V).
Proof.
  intros [Hnd _ _ _]. unfold voters_on. rewrite size_list_to_set, length_fmap; [done|].
  unfold votes_on. induction V as [|v V IH]; [constructor|].
  rewrite filter_cons. rewrite fmap_cons, NoDup_cons in Hnd. destruct Hnd as [Hn Hnd].
  case_decide as Hv; [|by apply IH]. rewrite fmap_cons. apply NoDup_cons. split; [|by apply IH].
  intros (w & Hw & [Hwa Hin]%list_elem_of_filter)%list_elem_of_fmap.
  apply Hn, list_elem_of_fmap. exists w. split; [|done]. congruence.
Qed.

Lemma voters_on_spec a V x :
  x ∈ voters_on a V ↔ ∃ v, v ∈ V ∧ vote_Signer v = x ∧ vote_Address v = a.
Proof.
  unfold voters_on, votes_on. rewrite elem_of_list_to_set, list_elem_of_fmap.
  setoid_rewrite list_elem_of_filter. naive_solver.
Qed.

(** The votes after the sealer's vote was replaced: earlier ones, or its own. *)
Lemma vote_steps_votes s signer number address authorize v :
  votes_ok s → signer ∈ Signers s →
  let s3 := discard_vote signer address [] (Votes s) s in
  let s4 := tally_vote signer number address authorize s3 in
  v ∈ Votes s4 → v ∈ Votes s ∨ v = MkVote signer number address authorize.
Proof.
  intros Hv Hs.
  destruct (discard_vote_ok signer address [] (Votes s) s eq_refl Hv) as (F1 & V1 & Sub & N1 & _).
  { set_solver. }
  destruct (tally_vote_ok signer number address authorize
    (discard_vote signer address [] (Votes s) s)) as (_ & _ & HV).
  { done. } { by destruct F1 as (-> & _). } { done. }
  cbn zeta. rewrite HV. intros [Hin|Hin]%elem_of_app.
  - left. by eapply elem_of_sublist.
  - right. case_match; set_solver.
Qed.

(** ** The window over a batch *)

(** What an accepted header without an override leaves in the window. *)
Lemma apply_header_recents `{Crypto} n s h s' k :
  snap_ok n s → next_header n h → Epoch (config s) ≠ 0 →
  isBreakGlassExtra (Extra h) = false → apply_header s h = Ok s' →
  n + 1 < k + limit s → n + 1 < k + limit s' →
  ∃ signer, ecrecover h = Ok signer ∧
    (k ≤ n → Recents s !! k ≠ Some signer) ∧
    Recents s' !! k = if decide (k = n + 1) then Some signer else Recents s !! k.
Proof.
  intros Hok Hh He Hx E Hk Hk'.
  apply apply_header_inv in E as (number & s1 & o & signer & auth & Hn & Hb & Hr & Hs & Hrec & _ & E).
  assert (number = n + 1) as -> by (destruct Hh; congruence).
  destruct (before_seal_ok n s h s1 o Hok Hh Hb) as [Hv _].
  destruct (plain_seal_state (n + 1) s h Hn He Hx) as (s1' & Hb' & HS & HR).
  assert (s1' = s1 ∧ o = false) as [-> ->] by (split; congruence).
  set (s2 := with_Recents <[n + 1 := signer]> s1) in *.
  destruct (vote_steps_ok s2 signer (n + 1) (Coinbase h) auth) as [F V]; [done..|].
  cbn zeta in E. set (s4 := tally_vote _ _ _ _ _) in *.
  assert (HR4 : Recents s4 = <[n + 1 := signer]> (Recents s1)) by (by destruct F as (_ & -> & _)).
  assert (Hold : Recents s1 !! k = Recents s !! k) by (rewrite HR; by apply shift_recents_keep).
  assert (Hnew : Recents s' !! k = Recents s4 !! k).
  { subst s'. destruct (pass_vote_cases (n + 1) (Coinbase h) s4 V)
      as [[_ ->]|(t & _ & _ & [(_ & _ & ->)|(_ & HSd & ->)])]; [done..|].
    apply (shift_recents_keep (n + 1) (with_Signers _ s4)).
    by rewrite <- (limit_ext (with_Signers (fun l => l ∖ {[Coinbase h]}) s4) _ HSd). }
  exists signer. split; [done|]. split.
  - intros Hle. rewrite <- Hold. apply recently_false. by apply Hrec.
  - rewrite Hnew, HR4. destruct (decide (k = n + 1)) as [->|].
    + apply lookup_insert_eq.
    + by rewrite lookup_insert_ne.
Qed.

(** Along the batch the set never has fewer than [m] signers. *)
Definition min_signers `{Crypto} (m : nat) (s : Snapshot) (hs : list Header) : Prop :=
  ∀ p q sp, hs = p ++ q → apply_headers s p = Ok sp → (m ≤ size (Signers sp))%nat.

Lemma min_signers_limit `{Crypto} m s hs :
  min_signers m s hs → Z.of_nat m / 2 + 1 ≤ limit s.
Proof.
  intros Hm. specialize (Hm [] hs s eq_refl eq_refl). unfold limit. dlia.
Qed.

Lemma min_signers_tail `{Crypto} m s h hs s1 :
  apply_header s h = Ok s1 → min_signers m s (h :: hs) → min_signers m s1 hs.
Proof.
  intros E Hm p q sp -> Hp. apply (Hm (h :: p) q); [done|]. cbn. by rewrite E.
Qed.

(** [min_signers], decided by running the batch. *)
Fixpoint min_signersb `{Crypto} (m : nat) (s : Snapshot) (hs : list Header) : bool :=
  (m <=? size (Signers s))%nat &&
  match hs with
  | [] => true
  | h :: hs => match apply_header s h with Ok s1 => min_signersb m s1 hs | _ => true end
  end.

Lemma min_signersb_sound `{Crypto} m s hs :
  min_signersb m s hs = true → min_signers m s hs.
Proof.
  revert s. induction hs as [|h hs IH]; intros s; cbn [min_signersb];
    intros [Hm%Nat.leb_le Hr]%andb_true_iff p q sp Hp E;
    (destruct p as [|h' p]; [by apply Ok_inj in E as <-|]); [done|].
  cbn in Hp, E. injection Hp as <- ->. apply bind_ok in E as (s1 & E1 & E).
  rewrite E1 in Hr. exact (IH _ Hr p q sp eq_refl E).
Qed.

(** A sealer in the window cannot seal again before it leaves it. *)
Lemma tracked_sealer `{Crypto} m n s hs s' k a j hj :
  snap_ok n s → next_headers n hs → Epoch (config s) ≠ 0 →
  Forall (fun h => isBreakGlassExtra (Extra h) = false) hs →
  apply_headers s hs = Ok s' → min_signers m s hs →
  Recents s !! k = Some a → k ≤ n →
  hs !! j = Some hj → n + 1 + Z.of_nat j ≤ k + Z.of_nat m / 2 → ecrecover hj ≠ Ok a.
Proof.
  revert n s j. induction hs as [|h hs IH]; intros n s j Hok Hh He Hx E Hm Hk Hkn Hj Hw; [done|].
  destruct Hh as [Hh Hhs]. inversion Hx as [|?? Hxh Hxs]; subst.
  cbn [apply_headers] in E. apply bind_ok in E as (s1 & E1 & E).
  pose proof (min_signers_limit _ _ _ Hm) as Hl.
  apply (min_signers_tail _ _ _ _ _ E1) in Hm.
  pose proof (min_signers_limit _ _ _ Hm) as Hl1.
  destruct (apply_header_recents n s h s1 k) as (sg & Hsg & Hns & HR1); [done..|lia|lia|].
  destruct j as [|j]; cbn in Hj.
  - injection Hj as <-. intros Hc. rewrite Hsg in Hc. apply Ok_inj in Hc as ->.
    by apply Hns.
  - rewrite decide_False in HR1 by lia. rewrite Hk in HR1.
    destruct (apply_header_meta _ _ _ _ Hok Hh E1) as (Hcfg & _).
    apply (IH (n + 1) s1 j); try done; [by eapply apply_header_ok|by rewrite Hcfg|lia|lia].
Qed.

Lemma sealers_distinct `{Crypto} m n s hs s' i j hi hj a :
  snap_ok n s → next_headers n hs → Epoch (config s) ≠ 0 →
  Forall (fun h => isBreakGlassExtra (Extra h) = false) hs →
  apply_headers s hs = Ok s' → min_signers m s hs →
  hs !! i = Some hi → hs !! j = Some hj → (i < j)%nat → (j - i ≤ m / 2)%nat →
  ecrecover hi = Ok a → ecrecover hj ≠ Ok a.
Proof.
  revert n s i j. induction hs as [|h hs IH];
    intros n s i j Hok Hh He Hx E Hm Hi Hj Hij Hw Hrec; [done|].
  destruct Hh as [Hh Hhs]. inversion Hx as [|?? Hxh Hxs]; subst.
  cbn [apply_headers] in E. apply bind_ok in E as (s1 & E1 & E).
  pose proof (min_signers_tail _ _ _ _ _ E1 Hm) as Hm1.
  destruct (apply_header_meta _ _ _ _ Hok Hh E1) as (Hcfg & _).
  pose proof (apply_header_ok _ _ _ _ Hok Hh E1) as Hok1.
  destruct j as [|j]; [lia|]. cbn in Hj. destruct i as [|i]; cbn in Hi.
  - injection Hi as ->.
    pose proof (limit_pos s). pose proof (limit_pos s1).
    destruct (apply_header_recents n s hi s1 (n + 1)) as (sg & Hsg & _ & HR1); [done..|lia|lia|].
    rewrite decide_True in HR1 by done.
    assert (sg = a) as -> by congruence.
    apply (tracked_sealer m (n + 1) s1 hs s' (n + 1) a j hj); try done; [by rewrite Hcfg|].
    pose proof (Nat2Z.inj_div m 2) as Hd. change (Z.of_nat 2) with 2 in Hd. lia.
  - apply (IH (n + 1) s1 i j); try done; [by rewrite Hcfg|lia].
Qed.

(** ** Composition of batches *)

(** The steps do not read the number and hash of the snapshot. *)
Lemma uncast_head n x s a b :
  snd (uncast (with_Head n x s) a b) = with_Head n x (snd (uncast s a b)).
Proof. unfold uncast. cbn. by repeat case_match. Qed.

Lemma shift_recents_head n x k s :
  shift_recents k (with_Head n x s) = with_Head n x (shift_recents k s).
Proof.
  unfold shift_recents. change (limit (with_Head n x s)) with (limit s). by case_match.
Qed.

Lemma discard_vote_head n x sg a kept todo s :
  discard_vote sg a kept todo (with_Head n x s)
  = with_Head n x (discard_vote sg a kept todo s).
Proof.
  revert kept. induction todo as [|v todo IH]; intros kept; cbn; [done|].
  case_match; [|apply IH]. rewrite uncast_head. done.
Qed.

Lemma discard_votes_by_head n x sg kept todo s :
  discard_votes_by sg kept todo (with_Head n x s)
  = with_Head n x (discard_votes_by sg kept todo s).
Proof.
  revert kept s. induction todo as [|v todo IH]; intros kept s; cbn; [done|].
  case_match; [|apply IH]. by rewrite uncast_head, IH.
Qed.

Lemma tally_vote_head n x sg k a b s :
  tally_vote sg k a b (with_Head n x s) = with_Head n x (tally_vote sg k a b s).
Proof.
  unfold tally_vote, cast. change (validVote (with_Head n x s)) with (validVote s).
  cbn. by repeat case_match; simplify_eq/=.
Qed.

Lemma pass_vote_head n x k a s :
  pass_vote k a (with_Head n x s) = with_Head n x (pass_vote k a s).
Proof.
  unfold pass_vote. cbn [TallyMap Signers with_Head].
  destruct (_ <? _); [|done]. destruct (tally_Authorize _); [done|].
  change (with_Signers ?f (with_Head n x s)) with (with_Head n x (with_Signers f s)).
  rewrite shift_recents_head. cbn [Votes with_Head].
  by rewrite discard_votes_by_head.
Qed.

Lemma before_seal_head `{Crypto} n x s h :
  before_seal (with_Head n x s) h
  = ('(s1, o) ← before_seal s h; Ok (with_Head n x s1, o)).
Proof.
  unfold before_seal. destruct (NumberU64 h) as [k| |]; cbn; [|done..].
  destruct (mod64 k (Epoch (config s))) as [r| |]; cbn; [|done..].
  assert (Hr : (if r =? 0 then with_Tally (λ _, ∅) (with_Votes (λ _, []) (with_Head n x s))
                else with_Head n x s)
          = with_Head n x (if r =? 0 then with_Tally (λ _, ∅) (with_Votes (λ _, []) s) else s))
    by (destruct (r =? 0); done).
  rewrite Hr. cbn. set (s0 := if r =? 0 then _ else _).
  destruct (breakGlassOverrideOf (breakGlass s0) h) as [[l|]| |]; cbn; [..|done|done].
  - change (applyBreakGlass l k (with_Head n x s0))
      with (with_Head n x (applyBreakGlass l k s0)). by rewrite shift_recents_head.
  - by rewrite shift_recents_head.
Qed.

Lemma apply_header_head `{Crypto} n x s h :
  apply_header (with_Head n x s) h = with_Head n x <$> apply_header s h.
Proof.
  unfold apply_header. destruct (NumberU64 h) as [k| |]; cbn; [|done..].
  rewrite before_seal_head. destruct (before_seal s h) as [[s1 o]| |]; cbn; [|done..].
  destruct (ecrecover h) as [sg| |]; cbn; [|done..].
  destruct (bool_decide (sg ∈ Signers s1)); cbn; [|done].
  destruct (negb o && recently sg (Recents s1)); cbn; [done|].
  destruct (vote_of (Nonce h)) as [b| |]; cbn; [|done..]. f_equal.
  change (with_Recents ?f (with_Head n x s1)) with (with_Head n x (with_Recents f s1)).
  by rewrite discard_vote_head, tally_vote_head, pass_vote_head.
Qed.

Lemma apply_headers_head `{Crypto} n x s hs :
  apply_headers (with_Head n x s) hs = with_Head n x <$> apply_headers s hs.
Proof.
  revert s. induction hs as [|h hs IH]; intros s; cbn; [done|].
  rewrite apply_header_head. destruct (apply_header s h); cbn; [apply IH|done..].
Qed.

Lemma apply_headers_app `{Crypto} s hs1 hs2 :
  apply_headers s (hs1 ++ hs2) = (s1 ← apply_headers s hs1; apply_headers s1 hs2).
Proof.
  revert s. induction hs1 as [|h hs1 IH]; intros s; cbn; [done|].
  destruct (apply_header s h); cbn; [apply IH|done..].
Qed.

Lemma contiguous_of_next `{Crypto} n hs : next_headers n hs → contiguous hs = Ok tt.
Proof.
  revert n. induction hs as [|h [|h' hs] IH]; intros n Hh; [done..|].
  destruct Hh as [(Hn & H0 & Hb & _) Hrest].
  assert (Hn' := Hrest). destruct Hn' as [(Hn' & _) _].
  change (contiguous (h :: h' :: hs)) with
    (n' ← NumberU64 h'; n ← NumberU64 h;
     _ ← fail_if (negb (n' =? add64 n 1)) errInvalidVotingChain; contiguous (h' :: hs)).
  rewrite (IH (n + 1) Hrest), Hn, Hn'. cbn [mbind result_bind].
  rewrite add64_small by (unfold is_u64; lia). by rewrite Z.eqb_refl.
Qed.

Lemma apply_of_headers `{Crypto} s h0 hs snap :
  0 ≤ sn_Number s → next_headers (sn_Number s) (h0 :: hs) →
  apply_headers s (h0 :: hs) = Ok snap →
  apply s (h0 :: hs) = Ok (with_Head (add64 (sn_Number snap) (zlen (h0 :: hs)))
                             (Header_Hash (List.last (h0 :: hs) h0)) snap).
Proof.
  intros H0 Hn E. unfold apply. rewrite (contiguous_of_next _ _ Hn). cbn [mbind result_bind].
  destruct Hn as [(Hn & _ & Hb & _) _]. rewrite Hn. cbn [mbind result_bind].
  rewrite add64_small by (unfold is_u64; lia). rewrite Z.eqb_refl. cbn [negb fail_if mbind result_bind].
  rewrite E. done.
Qed.

Lemma sane_batch_app n hs1 hs2 :
  sane_batch n (hs1 ++ hs2) → sane_batch n hs1 ∧ sane_batch (n + zlen hs1) hs2.
Proof.
  unfold sane_batch, zlen. rewrite length_app, Forall_app. intros (? & ? & ? & ?).
  split; (split; [lia|split; [lia|done]]).
Qed.

Lemma next_headers_app n hs1 hs2 :
  next_headers n (hs1 ++ hs2) ↔ next_headers n hs1 ∧ next_headers (n + zlen hs1) hs2.
Proof.
  revert n. induction hs1 as [|h hs1 IH]; intros n; cbn [app next_headers].
  - unfold zlen. cbn. rewrite Z.add_0_r. naive_solver.
  - rewrite IH. replace (n + zlen (h :: hs1)) with (n + 1 + zlen hs1)
      by (unfold zlen; cbn [length]; lia). naive_solver.
Qed.

Lemma last_app_right {A} (l1 l2 : list A) d d' :
  l2 ≠ [] → List.last (l1 ++ l2) d = List.last l2 d'.
Proof.
  intros Hne. destruct (exists_last Hne) as (l & x & ->).
  by rewrite app_assoc, !List.last_last.
Qed.

Lemma with_Head_twice n x n' x' s : with_Head n x (with_Head n' x' s) = with_Head n x s.
Proof. done. Qed.

Lemma apply_split_fwd `{Crypto} s h1 hs1 h2 hs2 s' :
  snap_ok (sn_Number s) s → sane_batch (sn_Number s) ((h1 :: hs1) ++ h2 :: hs2) →
  apply s ((h1 :: hs1) ++ h2 :: hs2) = Ok s' →
  ∃ s1, apply s (h1 :: hs1) = Ok s1 ∧ apply s1 (h2 :: hs2) = Ok s'.
Proof.
  intros Hok Hsane. destruct (sane_batch_app _ _ _ Hsane) as [Hs1 Hs2].
  intros E. destruct (apply_inv s _ s' Hsane E) as (Hn & h0 & snap & Hh0 & Hs & ->); [done|].
  injection Hh0 as <-. apply next_headers_app in Hn as [Hn1 Hn2].
  rewrite apply_headers_app in Hs. apply bind_ok in Hs as (m & Hm & Hs).
  destruct (apply_headers_ok _ _ _ _ Hok Hn1 Hm) as (Hokm & _ & _ & HNm & _).
  assert (HA : add64 (sn_Number m) (zlen (h1 :: hs1)) = sn_Number s + zlen (h1 :: hs1)).
  { rewrite HNm. apply add64_small. destruct Hs1 as (? & ? & _).
    unfold is_u64, zlen in *. lia. }
  eexists. split; [apply apply_of_headers; [apply Hsane|done..]|]. rewrite HA.
  destruct (apply_headers_ok _ _ _ _ Hokm Hn2 Hs) as (_ & _ & _ & HNsnap & _).
  rewrite (apply_of_headers _ _ _ (with_Head (sn_Number s + zlen (h1 :: hs1))
             (Header_Hash (List.last (h1 :: hs1) h1)) snap)).
  - f_equal. rewrite with_Head_twice. cbn [with_Head sn_Number]. f_equal.
    + rewrite HNsnap, HNm. destruct Hsane as (? & ? & _).
      rewrite !add64_small; unfold is_u64, zlen in *; rewrite ?length_app in *; lia.
    + f_equal. symmetry. by apply last_app_right.
  - cbn. destruct Hsane. unfold zlen. lia.
  - exact Hn2.
  - by rewrite apply_headers_head, Hs.
Qed.

Lemma apply_split_bwd `{Crypto} s h1 hs1 h2 hs2 s' :
  snap_ok (sn_Number s) s → sane_batch (sn_Number s) ((h1 :: hs1) ++ h2 :: hs2) →
  (∃ s1, apply s (h1 :: hs1) = Ok s1 ∧ apply s1 (h2 :: hs2) = Ok s') →
  apply s ((h1 :: hs1) ++ h2 :: hs2) = Ok s'.
Proof.
  intros Hok Hsane. destruct (sane_batch_app _ _ _ Hsane) as [Hs1 Hs2].
  intros (s1 & E1 & E2).
  destruct (apply_ok s _ s1 Hok Hs1 E1) as (Hok1 & HN1 & _).
  rewrite <- HN1 in Hs2.
  destruct (apply_inv s1 _ s' Hs2 E2) as (Hn2 & h0 & snap & Hh0 & Hs & ->); [done|].
  injection Hh0 as <-.
  destruct (apply_inv s _ s1 Hs1 E1) as (Hn1 & h0 & m & Hh0 & Hm & Hs1eq); [done|].
  injection Hh0 as <-. rewrite HN1 in Hn2.
  destruct (apply_headers_ok _ _ _ _ Hok Hn1 Hm) as (Hokm & _ & _ & HNm & _).
  assert (Hall : ∃ snap', apply_headers m (h2 :: hs2) = Ok snap' ∧
                  snap = with_Head (sn_Number s1) (sn_Hash s1) snap').
  { rewrite Hs1eq, apply_headers_head in Hs.
    destruct (apply_headers m (h2 :: hs2)) as [snap'| |]; [|done..].
    apply Ok_inj in Hs as <-. exists snap'. split; [done|]. by rewrite Hs1eq. }
  destruct Hall as (snap' & Hs' & ->).
  rewrite (apply_of_headers s h1 (hs1 ++ h2 :: hs2) snap').
  - f_equal. rewrite with_Head_twice.
    destruct (apply_headers_ok _ _ _ _ Hokm Hn2 Hs') as (_ & _ & _ & HN' & _).
    cbn [with_Head sn_Number]. rewrite HN1, HN', HNm. f_equal.
    + destruct Hsane as (? & ? & _). 
      rewrite !add64_small; unfold is_u64, zlen in *; cbn [app length] in *;
        rewrite ?length_app in *; cbn [length] in *; lia.
    + f_equal. by apply (last_app_right (h1 :: hs1)).
  - apply Hsane.
  - apply (next_headers_app _ (h1 :: hs1)). done.
  - change (h1 :: hs1 ++ h2 :: hs2) with ((h1 :: hs1) ++ h2 :: hs2).
    by rewrite apply_headers_app, Hm.
Qed.

Lemma apply_split `{Crypto} s hs1 hs2 s' :
  snap_ok (sn_Number s) s → sane_batch (sn_Number s) (hs1 ++ hs2) →
  apply s (hs1 ++ hs2) = Ok s' ↔ ∃ s1, apply s hs1 = Ok s1 ∧ apply s1 hs2 = Ok s'.
Proof.
  intros Hok Hsane. destruct hs1 as [|h1 hs1].
  { cbn [app]. split; [by exists s|]. by intros (s1 & [= <-]%Ok_inj & E). }
  destruct hs2 as [|h2 hs2].
  { rewrite app_nil_r. split; [|by intros (s1 & E1 & [= <-]%Ok_inj)]. by exists s'. }
  split; [by apply apply_split_fwd|by apply apply_split_bwd].
Qed.

(** ** A concrete instance for the witnesses

    The hash is the byte string read as a number, and the key recovered from a
    seal is the seal itself: the sealer of a header is the address in the last
    20 bytes of its extra data. *)

Definition toy_crypto : Crypto :=
  {| keccak256 bs := of_be bs mod 2 ^ 256; RecoverPubkey _ sig := Some sig |}.

Definition toy_seal (signer : Address) : bytes := replicate 45 Byte.x00 ++ address_bytes signer.

Definition toy_header (number : Z) (parent : Hash) (coinbase nonce : Z) (payload : bytes)
  (signer : Address) : Header :=
  MkHeader parent 0 coinbase 0 0 0 0 (Some 2) (Some number) 30000000 0 7
    (replicate 32 Byte.x00 ++ payload ++ toy_seal signer) 0 nonce (Some 1000).

Definition toy_config : CliqueConfig := MkCliqueConfig 7 30000.

Definition toy_base (number : Z) (l : list Address) : Snapshot :=
  newSnapshot toy_config None number 0 l.

Definition vote_for (number : Z) (a signer : Address) : Header :=
  toy_header number 0 a nonceAuthVote [] signer.

(** ** Properties *)

(** C22: the voting state is consistent after any accepted batch. A fresh
    snapshot, of whatever signers at whatever block, satisfies the invariant, and
    [apply] preserves it on a batch of headers with extra-data below 2^32 bytes at
    heights more than 2^32 below 2^64 ([sane_batch]): each open vote is cast by a
    current signer, is meaningful for the current set, is its signer's only vote
    on that account, the tally counts exactly the open votes, and every recent
    sealer lies in the window of the last len/2+1 blocks. The number advances by
    the length of the batch, and the configuration stays. *)
Theorem apply_invariant `{Crypto} :
  (∀ cfg bg number hash l, snap_ok number (newSnapshot cfg bg number hash l)) ∧
  ∀ s hs s', snap_ok (sn_Number s) s → sane_batch (sn_Number s) hs → apply s hs = Ok s' →
    snap_ok (sn_Number s') s' ∧ sn_Number s' = sn_Number s + zlen hs ∧
    config s' = config s ∧ breakGlass s' = breakGlass s.
Proof. split; [exact newSnapshot_ok|apply apply_ok]. Qed.

Ltac sane_tac := split; [vm_compute; congruence|split; [vm_compute; reflexivity|
  repeat constructor]].

(** The state after signers 1 and 2 voted account 9 in. *)
Definition voted_in : Snapshot :=
  with_Head 12 (Header_Hash (H := toy_crypto) (vote_for 12 9 2))
    (with_Recents (fun _ => {[11 := 1; 12 := 2]}) (toy_base 10 [9; 1; 2; 3])).

Lemma apply_invariant_witness :
  snap_ok 12 voted_in ∧ sn_Number voted_in = 12.
Proof.
  destruct (apply_invariant (H := toy_crypto)) as [Hfresh Hkeep].
  destruct (Hkeep (toy_base 10 [1; 2; 3]) [vote_for 11 9 1; vote_for 12 9 2] voted_in) as (Hok & _).
  - apply Hfresh.
  - sane_tac.
  - vm_compute. reflexivity.
  - split; [exact Hok|reflexivity].
Defined.

(** C28: the authority chain cannot be locked out by its own recently-signed rule.
    In a consistent snapshot at least half of the signers (rounded up) may seal
    the next block: [apply] accepts any well-formed header sealed by one of
    them. *)
Theorem apply_live `{Crypto} n s :
  snap_ok n s → Epoch (config s) ≠ 0 →
  may_seal n s ⊆ Signers s ∧
  Z.of_nat (size (Signers s)) ≤ 2 * Z.of_nat (size (may_seal n s)) ∧
  ∀ h a, a ∈ may_seal n s → NumberU64 h = Ok (n + 1) → ecrecover h = Ok a →
    isBreakGlassExtra (Extra h) = false → is_ok (vote_of (Nonce h)) = true →
    is_ok (apply_header s h) = true.
Proof.
  intros [_ Hr] He. split; [unfold may_seal; set_solver|]. split.
  { pose proof (may_seal_size n s Hr). dlia. }
  intros h a Ha Hn Hrec Hx Hnonce. unfold apply_header. rewrite Hn. cbn [mbind result_bind].
  destruct (plain_seal_state (n + 1) s h Hn He Hx) as (s1 & Hb & HS & HR).
  rewrite Hb. cbn [mbind result_bind]. rewrite Hrec. cbn [mbind result_bind].
  rewrite HS, HR. unfold may_seal in Ha. apply elem_of_difference in Ha as [Ha Hns].
  rewrite sealers_in_spec in Hns. apply not_true_is_false in Hns.
  rewrite bool_decide_true, Hns by done. cbn [negb andb fail_if mbind result_bind].
  by destruct (vote_of (Nonce h)).
Qed.

Lemma apply_live_witness :
  is_ok (apply_header (H := toy_crypto) (toy_base 10 [1; 2; 3]) (vote_for 11 9 1)) = true.
Proof.
  destruct (apply_live (H := toy_crypto) 10 (toy_base 10 [1; 2; 3])) as (_ & _ & Hlive).
  - apply newSnapshot_ok.
  - discriminate.
  - apply (Hlive _ 1).
    + apply (bool_decide_eq_true_1 _). vm_compute. reflexivity.
    + reflexivity.
    + vm_compute. reflexivity.
    + vm_compute. reflexivity.
    + reflexivity.
Defined.

(** C26: without an owner override the signer set changes only by vote. If an
    accepted header changes it, the change is to add or remove exactly the
    account named in the header, and a strict majority of distinct current
    signers voted for it: each has an open vote with that direction, or is the
    sealer itself voting in this header. *)
Theorem signers_change_needs_majority `{Crypto} n s h s' signer :
  snap_ok n s → next_header n h → Epoch (config s) ≠ 0 →
  isBreakGlassExtra (Extra h) = false →
  apply_header s h = Ok s' → ecrecover h = Ok signer → Signers s' ≠ Signers s →
  let a := Coinbase h in let authorize := negb (bool_decide (a ∈ Signers s)) in
  Signers s' = (if authorize then {[a]} ∪ Signers s else Signers s ∖ {[a]}) ∧
  ∃ voters, voters ⊆ Signers s ∧ (size (Signers s) / 2 < size voters)%nat ∧
    ∀ x, x ∈ voters →
      (∃ v, v ∈ Votes s ∧ vote_Signer v = x ∧ vote_Address v = a ∧ vote_Authorize v = authorize)
      ∨ (x = signer ∧ vote_of (Nonce h) = Ok authorize).
Proof.
  intros Hok Hh He Hx E Hrec Hne a authorize.
  apply apply_header_inv in E
    as (number & s1 & o & sg & auth & Hn & Hb & Hsg & Hin & _ & Hvote & E).
  fold a in E. assert (sg = signer) as -> by congruence.
  destruct (before_seal_ok n s h s1 o Hok Hh Hb) as [Hv1 _].
  rewrite (before_seal_plain number s h Hn He Hx) in Hb. apply Ok_inj in Hb.
  assert (HS1 : Signers s1 = Signers s ∧ ∀ v, v ∈ Votes s1 → v ∈ Votes s).
  { injection Hb as <- _.
    destruct (shift_recents_frame number s) as (F & G & _).
    destruct (shift_recents_frame number (reset_votes s)) as (F' & G' & _).
    destruct (_ =? 0); [rewrite F', G'|rewrite F, G; auto].
    split; [reflexivity|]. by intros v Hv%elem_of_nil. }
  destruct HS1 as [HS1 HV1].
  set (s2 := with_Recents <[number := signer]> s1) in *.
  pose proof (vote_steps_ok s2 signer number a auth Hv1 Hin) as [F V].
  pose proof (vote_steps_votes s2 signer number a auth) as HV.
  cbn zeta in E, HV. set (s4 := tally_vote _ _ _ _ _) in *. subst s'.
  assert (HS4 : Signers s4 = Signers s) by (destruct F as (-> & _); done).
  destruct (pass_vote_cases number a s4 V) as [[HS _]|(t & Ht & Hmaj & Hcase)].
  { by rewrite HS, HS4 in Hne. }
  pose proof (vo_tally _ _ _ V a) as HT. rewrite Ht in HT. symmetry in HT.
  assert (Hta : tally_Authorize t = authorize).
  { unfold tally_for in HT. destruct (votes_on a (Votes s4)); [done|].
    injection HT as <-. cbn. by rewrite HS4. }
  split.
  { rewrite <- Hta, <- HS4. by destruct Hcase as [(-> & -> & _)|(-> & -> & _)]. }
  exists (voters_on a (Votes s4)). split; [|split].
  - intros x (v & Hvin & <- & _)%voters_on_spec. rewrite <- HS4. by apply V.
  - rewrite (voters_on_size _ _ _ _ V).
    rewrite (tally_for_length _ _ _ _ HT), HS4 in Hmaj.
    apply Nat2Z.inj_lt. rewrite Nat2Z.inj_div. exact Hmaj.
  - intros x (v & Hvin & <- & Hva)%voters_on_spec.
    pose proof (vo_valid _ _ _ V v Hvin) as Hauth. rewrite Hva, HS4 in Hauth.
    destruct (HV v Hv1 Hin Hvin) as [Hold| ->].
    + left. exists v. split; [by apply HV1|]. done.
    + right. split; [done|]. cbn in Hauth. by rewrite Hvote, Hauth.
Qed.

(** The state after signer 1 voted for account 9. *)
Definition one_vote : Snapshot :=
  with_Tally (fun _ => {[9 := MkTally true 1]})
    (with_Votes (fun _ => [MkVote 1 11 9 true])
      (with_Recents (fun _ => {[11 := 1]}) (toy_base 10 [1; 2; 3]))).

Lemma one_vote_run :
  apply_header (H := toy_crypto) (toy_base 10 [1; 2; 3]) (vote_for 11 9 1) = Ok one_vote.
Proof. vm_compute. reflexivity. Qed.

Lemma one_vote_ok : snap_ok 11 one_vote.
Proof.
  eapply (apply_header_ok (H := toy_crypto) 10); [apply newSnapshot_ok| |exact one_vote_run].
  split; [reflexivity|]. split; [lia|]. split; vm_compute; reflexivity.
Qed.

Lemma signers_change_needs_majority_witness :
  ∃ voters : gset Address, voters ⊆ Signers one_vote ∧
    (size (Signers one_vote) / 2 < size voters)%nat.
Proof.
  destruct (signers_change_needs_majority (H := toy_crypto) 11 one_vote (vote_for 12 9 2)
    (with_Recents (fun _ => {[11 := 1; 12 := 2]}) (toy_base 10 [9; 1; 2; 3])) 2)
    as (_ & voters & H1 & H2 & _).
  - exact one_vote_ok.
  - split; [reflexivity|]. split; [lia|]. split; vm_compute; reflexivity.
  - discriminate.
  - vm_compute. reflexivity.
  - vm_compute. reflexivity.
  - vm_compute. reflexivity.
  - intros E. apply (f_equal size) in E. vm_compute in E. discriminate E.
  - exists voters. split; assumption.
Defined.

(** The recently-signed rule in force. In a batch accepted without owner
    overrides, if the set never has fewer than [m] signers, any two of
    [m/2 + 1] consecutive blocks are sealed by different signers. *)
Theorem recent_sealers_distinct `{Crypto} m s hs s' i j hi hj a :
  snap_ok (sn_Number s) s → sane_batch (sn_Number s) hs → Epoch (config s) ≠ 0 →
  Forall (fun h => isBreakGlassExtra (Extra h) = false) hs →
  apply s hs = Ok s' → min_signers m s hs →
  hs !! i = Some hi → hs !! j = Some hj → (i < j)%nat → (j - i ≤ m / 2)%nat →
  ecrecover hi = Ok a → ecrecover hj ≠ Ok a.
Proof.
  intros Hok Hsane He Hx E Hm Hi. assert (Hne : hs ≠ []) by (by intros ->).
  destruct (apply_inv s hs s' Hsane E Hne) as (Hn & h0 & snap & _ & Hs & _).
  revert Hi. by apply (sealers_distinct m (sn_Number s) s hs snap).
Qed.

Lemma recent_sealers_distinct_witness :
  ecrecover (H := toy_crypto) (vote_for 12 9 2) ≠ Ok 1.
Proof.
  apply (recent_sealers_distinct (H := toy_crypto) 3 (toy_base 10 [1; 2; 3])
           [vote_for 11 9 1; vote_for 12 9 2] voted_in 0 1 (vote_for 11 9 1)).
  - apply newSnapshot_ok.
  - sane_tac.
  - discriminate.
  - repeat constructor.
  - vm_compute. reflexivity.
  - apply min_signersb_sound. vm_compute. reflexivity.
  - reflexivity.
  - reflexivity.
  - lia.
  - simpl. lia.
  - vm_compute. reflexivity.
Defined.

(** Snapshots compose. Applying a batch in one call gives a snapshot exactly
    when applying it in two does, and the same one: it does not matter from
    which cached ancestor the engine starts. *)
Theorem apply_composes `{Crypto} s hs1 hs2 s' :
  snap_ok (sn_Number s) s → sane_batch (sn_Number s) (hs1 ++ hs2) →
  apply s (hs1 ++ hs2) = Ok s' ↔ ∃ s1, apply s hs1 = Ok s1 ∧ apply s1 hs2 = Ok s'.
Proof. apply apply_split. Qed.

Lemma apply_composes_witness :
  ∃ s1, apply (H := toy_crypto) (toy_base 10 [1; 2; 3]) [vote_for 11 9 1] = Ok s1 ∧
        apply (H := toy_crypto) s1 [vote_for 12 9 2] = Ok voted_in.
Proof.
  apply (apply_composes (H := toy_crypto) (toy_base 10 [1; 2; 3]) [vote_for 11 9 1]
           [vote_for 12 9 2] voted_in).
  - apply newSnapshot_ok.
  - sane_tac.
  - vm_compute. reflexivity.
Defined.

(** The state an override block is checked against, when it casts no vote. *)
Lemma override_state `{Crypto} s h number l :
  NumberU64 h = Ok number → Epoch (config s) ≠ 0 →
  breakGlassOverrideOf (breakGlass s) h = Ok (Some l) →
  ∃ s1, before_seal s h = Ok (s1, true) ∧ Signers s1 = list_to_set l ∧
        Votes s1 = [] ∧ TallyMap s1 = ∅.
Proof.
  intros Hn He Ho. unfold before_seal, mod64. rewrite Hn. cbn [mbind result_bind].
  apply Z.eqb_neq in He. rewrite He. cbn [mbind result_bind].
  set (s0 := if _ =? 0 then _ else _).
  assert (breakGlass s0 = breakGlass s) as -> by (unfold s0; by case_match).
  rewrite Ho. cbn [mbind result_bind]. eexists. split; [reflexivity|].
  by destruct (shift_recents_frame number (applyBreakGlass l number s0)) as (-> & -> & -> & _).
Qed.

Lemma no_vote_steps number signer s :
  Votes s = [] → TallyMap s = ∅ → 0 ∉ Signers s →
  pass_vote number 0 (tally_vote signer number 0 false (discard_vote signer 0 [] (Votes s) s)) = s.
Proof.
  intros HV HT H0. rewrite HV. cbn [discard_vote]. unfold tally_vote, cast, validVote.
  rewrite bool_decide_false by done. cbn [negb andb orb].
  unfold pass_vote. rewrite HT, lookup_empty. cbn [default from_option id tally_Votes].
  by replace (_ <? 0) with false by (symmetry; apply Z.ltb_ge; dlia).
Qed.

Lemma override_apply `{Crypto} s h number l signer :
  NumberU64 h = Ok number → Epoch (config s) ≠ 0 →
  breakGlassOverrideOf (breakGlass s) h = Ok (Some l) →
  Coinbase h = 0 → Nonce h = nonceDropVote → ecrecover h = Ok signer →
  ∃ s1, Signers s1 = list_to_set l ∧ Votes s1 = [] ∧ TallyMap s1 = ∅ ∧
    apply_header s h =
    if bool_decide (signer ∈ l) then Ok (with_Recents <[number := signer]> s1)
    else Err errUnauthorizedSigner.
Proof.
  intros Hn He Ho Hc Hnc Hs.
  destruct (breakGlassOverrideOf_Some _ _ _ Ho) as (_ & cfg & n' & sigs & b & _ & _ & _ & Ha).
  destruct (override_state s h number l Hn He Ho) as (s1 & Hbs & HS & HV & HT).
  exists s1. repeat (split; [done|]).
  assert (H0 : 0 ∉ Signers s1)
    by (rewrite HS, elem_of_list_to_set; by destruct Ha as (_ & ? & _)).
  unfold apply_header. rewrite Hn, Hbs, Hs, Hc, Hnc. cbn [mbind result_bind].
  rewrite HS, (bool_decide_ext _ (signer ∈ l)) by apply elem_of_list_to_set.
  destruct (bool_decide (signer ∈ l)); [|done].
  cbn [negb andb fail_if mbind result_bind].
  change (vote_of nonceDropVote) with (Ok false). cbn [mbind result_bind]. f_equal.
  by apply (no_vote_steps number signer (with_Recents <[number := signer]> s1)).
Qed.

(** What an owner override does. On a block that casts no vote (as
    verifyHeader demands), [apply] accepts the override exactly when the block
    is sealed by a member of the new list, whoever sealed recently, and then
    the signer set is exactly that list and no vote is open; the list is
    authorised by at least Threshold distinct owners. *)
Theorem break_glass_installs `{Crypto} s h number l signer :
  NumberU64 h = Ok number → Epoch (config s) ≠ 0 →
  breakGlassOverrideOf (breakGlass s) h = Ok (Some l) →
  Coinbase h = 0 → Nonce h = nonceDropVote → ecrecover h = Ok signer →
  (∃ cfg sigs, breakGlass s = Some cfg ∧
     override_authorised cfg number (ParentHash h) l sigs) ∧
  (is_ok (apply_header s h) = true ↔ signer ∈ l) ∧
  ∀ s', apply_header s h = Ok s' →
    Signers s' = list_to_set l ∧ Votes s' = [] ∧ TallyMap s' = ∅ ∧
    Recents s' !! number = Some signer.
Proof.
  intros Hn He Ho Hc Hnc Hs.
  destruct (breakGlassOverrideOf_Some _ _ _ Ho) as (_ & cfg & n' & sigs & b & Hb & Hn' & _ & Ha).
  assert (n' = number) as -> by congruence.
  split; [by exists cfg, sigs|].
  destruct (override_apply s h number l signer) as (s1 & HS & HV & HT & E); [done..|].
  rewrite E. case_bool_decide as Hin; cbn [is_ok]; (split; [naive_solver|]); [|done].
  intros s' Hs'. apply Ok_inj in Hs' as <-. cbn. by rewrite lookup_insert_eq.
Qed.

Definition toy_owners : BreakGlassConfig := MkBreakGlassConfig (Some 9101) [5; 6] 2.
Definition toy_override : Header :=
  toy_header 11 0 0 nonceDropVote
    (encodeBreakGlassPayload [7; 8] [toy_seal 5; toy_seal 6]) 7.
Definition toy_guarded : Snapshot := newSnapshot toy_config (Some toy_owners) 10 0 [1; 2; 3].

Lemma break_glass_installs_witness :
  is_ok (apply_header (H := toy_crypto) toy_guarded toy_override) = true.
Proof.
  apply (break_glass_installs (H := toy_crypto) toy_guarded toy_override 11 [7; 8] 7).
  - reflexivity.
  - discriminate.
  - vm_compute. reflexivity.
  - reflexivity.
  - reflexivity.
  - vm_compute. reflexivity.
  - set_solver.
Defined.

(** ** The signature cache *)

(** The cache holds only what recovery would return. *)
Definition cache_ok `{Crypto} (cache : gmap Hash Address) : Prop :=
  ∀ h a, wf_header h → cache !! Header_Hash h = Some a → ecrecover h = Ok a.

(** Keccak-256 is treated as collision-free. *)
Definition collision_free `{Crypto} : Prop :=
  ∀ b1 b2, keccak256 b1 = keccak256 b2 → b1 = b2.

Lemma ecrecover_norm `{Crypto} h1 h2 :
  wf_header h1 → wf_header h2 → header_norm h1 = header_norm h2 →
  ecrecover h1 = ecrecover h2.
Proof.
  intros W1 W2 E.
  assert (HX : Extra h1 = Extra h2) by (exact (f_equal Extra E)).
  assert (HE : ∀ x w, Header_EncodeRLP (set_Extra h1 x) w = Header_EncodeRLP (set_Extra h2 x) w).
  { intros x w. unfold Header_EncodeRLP. cbn [ParentHash UncleHash Coinbase Root TxHash
      ReceiptHash Bloom Difficulty Number GasLimit GasUsed Time Extra MixDigest Nonce BaseFee
      set_Extra].
    destruct W1, W2.
    rewrite (f_equal ParentHash E : ParentHash h1 = ParentHash h2),
      (f_equal UncleHash E : UncleHash h1 = UncleHash h2),
      (f_equal Coinbase E : Coinbase h1 = Coinbase h2),
      (f_equal Root E : Root h1 = Root h2), (f_equal TxHash E : TxHash h1 = TxHash h2),
      (f_equal ReceiptHash E : ReceiptHash h1 = ReceiptHash h2),
      (f_equal Bloom E : Bloom h1 = Bloom h2), (f_equal GasLimit E : GasLimit h1 = GasLimit h2),
      (f_equal GasUsed E : GasUsed h1 = GasUsed h2), (f_equal Time E : Time h1 = Time h2),
      (f_equal MixDigest E : MixDigest h1 = MixDigest h2),
      (f_equal Nonce E : Nonce h1 = Nonce h2), (f_equal BaseFee E : BaseFee h1 = BaseFee h2).
    destruct (eb_list w) as [i w0].
    rewrite !(writeBigIntField_item (Difficulty _)) by lia. cbn [mbind result_bind].
    rewrite !(writeBigIntField_item (Number _)) by (unfold two64 in *; lia).
    cbn [mbind result_bind].
    pose proof (f_equal Difficulty E) as ED. pose proof (f_equal Number E) as EN.
    cbn [header_norm Difficulty Number] in ED, EN. injection ED as ->. injection EN as ->.
    reflexivity. }
  unfold ecrecover, SealHash, encodeSigHeader. by rewrite HX, HE.
Qed.

(** The signature cache is transparent. With a collision-free Keccak-256,
    a cache that holds only recovered signers makes [ecrecover] return exactly
    what it returns without a cache, and stays such a cache. *)
Theorem ecrecover_cache_transparent `{Crypto} h cache :
  collision_free → cache_ok cache → wf_header h →
  fst (ecrecover_cached h cache) = ecrecover h ∧ cache_ok (snd (ecrecover_cached h cache)).
Proof.
  intros Hcf Hc Hw. unfold ecrecover_cached.
  destruct (cache !! Header_Hash h) as [a|] eqn:Hl.
  { split; [|done]. cbn [fst]. symmetry. by apply Hc. }
  destruct (ecrecover h) as [a| |] eqn:Hr; cbn [fst snd]; (split; [done|]); [|done..].
  intros h' a' Hw' Hl'. destruct (decide (Header_Hash h' = Header_Hash h)) as [Heq|Hne].
  - rewrite Heq, lookup_insert_eq in Hl'. injection Hl' as <-. rewrite <- Hr.
    apply ecrecover_norm; [done..|]. apply header_items_inj; [done..|].
    apply Hcf in Heq. rewrite !Header_rlp_encode in Heq by done.
    apply encode_inj in Heq; [|exact (wf_size h' Hw')]. exact (Lst_inj _ _ Heq).
  - rewrite lookup_insert_ne in Hl' by congruence. by apply Hc.
Qed.

(** A collision-free function of byte strings: a leading 1 keeps the zeros. *)
Definition inj_crypto : Crypto :=
  {| keccak256 bs := of_be (Byte.x01 :: bs); RecoverPubkey _ sig := Some sig |}.

Lemma inj_crypto_collision_free : collision_free (H := inj_crypto).
Proof.
  intros b1 b2 E. change (of_be (Byte.x01 :: b1) = of_be (Byte.x01 :: b2)) in E.
  rewrite !of_be_cons in E. change (b2z Byte.x01) with 1 in E.
  pose proof (of_be_bound b1). pose proof (of_be_bound b2).
  assert (Hl : length b1 = length b2).
  { destruct (Nat.lt_trichotomy (length b1) (length b2)) as [Hlt|[?|Hlt]]; [|done|].
    - assert (256 * 256 ^ Z.of_nat (length b1) ≤ 256 ^ Z.of_nat (length b2)).
      { rewrite <- Z.pow_succ_r by lia. apply Z.pow_le_mono_r; lia. } lia.
    - assert (256 * 256 ^ Z.of_nat (length b2) ≤ 256 ^ Z.of_nat (length b1)).
      { rewrite <- Z.pow_succ_r by lia. apply Z.pow_le_mono_r; lia. } lia. }
  rewrite Hl in E. rewrite <- (to_be_of_be b1), <- (to_be_of_be b2), Hl. f_equal. lia.
Qed.

Lemma ecrecover_cache_transparent_witness :
  fst (ecrecover_cached (H := inj_crypto) (vote_for 11 9 1) ∅)
  = ecrecover (H := inj_crypto) (vote_for 11 9 1).
Proof.
  apply (ecrecover_cache_transparent (H := inj_crypto) (vote_for 11 9 1) ∅).
  - exact inj_crypto_collision_free.
  - intros h a _ E. discriminate E.
  - wf_sample.
Defined.
