(* ===== verification/Clique.v ===== *)
(** * The authority engine (chain/consensus/clique/clique.go, ferminux.go, api.go)

    The engine's state is a record, its methods are computations in a small
    state-and-error monad [eng]. The chain it reads, the clock, the random
    choices and the signing key are arguments. The caches are maps; an entry an
    LRU cache has evicted is one that is not in the map. Snapshots are stored in
    the database as JSON, whose round trip is that of the standard library: the
    store is a map of snapshots. *)

From S2P Require Import Prelude Bytes Rlp Types Params Misc BreakGlass Snapshot.

(** ** Constants and errors *)

Definition checkpointInterval : Z := 1024.
Definition epochLength : Z := 30000.
Definition wiggleTime : Z := 500.          (* milliseconds *)

Definition errUnknownBlock := New "unknown block".
Definition errInvalidCheckpointBeneficiary := New "beneficiary in checkpoint block non-zero".
Definition errInvalidCheckpointVote := New "vote nonce in checkpoint block non-zero".
Definition errMissingVanity := New "extra-data 32 byte vanity prefix missing".
Definition errExtraSigners := New "non-checkpoint block contains extra signer list".
Definition errMismatchingCheckpointSigners :=
  New "mismatching signer list on checkpoint block".
Definition errInvalidMixDigest := New "non-zero mix digest".
Definition errInvalidUncleHash := New "non empty uncle hash".
Definition errInvalidDifficulty := New "invalid difficulty".
Definition errWrongDifficulty := New "wrong difficulty".
Definition errInvalidTimestamp := New "invalid timestamp".
Definition ErrUnknownAncestor := New "unknown ancestor".
Definition ErrFutureBlock := New "block in the future".

(** ** State *)

(** What consensus.ChainHeaderReader offers. *)
Record ChainReader := MkChain {
  chain_Config : ChainConfig;
  CurrentHeader : Header;
  GetHeader : Hash → Z → option Header;
  GetHeaderByNumber : Z → option Header;
  GetHeaderByHash : Hash → option Header
}.

Record Bootstrap := MkBootstrap { Anchor : Z; bs_Signers : list Address }.

(** [db_err] is the error a write to the database returns, if writes fail. *)
Record Clique := MkClique {
  cq_config : CliqueConfig;
  db : gmap Hash Snapshot;
  db_err : option error;
  recents : gmap Hash Snapshot;
  proposals : gmap Address bool;
  cq_signer : Address;
  signFn : bytes → result bytes;
  bootstrap : option Bootstrap;
  cq_breakGlass : option BreakGlassConfig;
  bgPending : option BreakGlassOverride;
  fakeDiff : bool
}.

Definition set_db d (c : Clique) := MkClique (cq_config c) d (db_err c) (recents c)
  (proposals c) (cq_signer c) (signFn c) (bootstrap c) (cq_breakGlass c) (bgPending c) (fakeDiff c).
Definition set_recents r (c : Clique) := MkClique (cq_config c) (db c) (db_err c) r
  (proposals c) (cq_signer c) (signFn c) (bootstrap c) (cq_breakGlass c) (bgPending c) (fakeDiff c).
Definition set_proposals p (c : Clique) := MkClique (cq_config c) (db c) (db_err c) (recents c)
  p (cq_signer c) (signFn c) (bootstrap c) (cq_breakGlass c) (bgPending c) (fakeDiff c).
Definition set_signer s f (c : Clique) := MkClique (cq_config c) (db c) (db_err c) (recents c)
  (proposals c) s f (bootstrap c) (cq_breakGlass c) (bgPending c) (fakeDiff c).
Definition set_bootstrap b (c : Clique) := MkClique (cq_config c) (db c) (db_err c) (recents c)
  (proposals c) (cq_signer c) (signFn c) b (cq_breakGlass c) (bgPending c) (fakeDiff c).
Definition set_breakGlass b (c : Clique) := MkClique (cq_config c) (db c) (db_err c) (recents c)
  (proposals c) (cq_signer c) (signFn c) (bootstrap c) b (bgPending c) (fakeDiff c).
Definition set_bgPending b (c : Clique) := MkClique (cq_config c) (db c) (db_err c) (recents c)
  (proposals c) (cq_signer c) (signFn c) (bootstrap c) (cq_breakGlass c) b (fakeDiff c).

(** ** The engine monad *)

Definition eng (A : Type) : Type := Clique → result A * Clique.

#[export] Instance eng_ret : MRet eng := fun A a c => (Ok a, c).
#[export] Instance eng_bind : MBind eng := fun A B f m c =>
  match m c with
  | (Ok a, c) => f a c
  | (Err e, c) => (Err e, c)
  | (Panic w, c) => (Panic w, c)
  end.

Definition lift {A} (r : result A) : eng A := fun c => (r, c).
Definition get : eng Clique := fun c => (Ok c, c).
Definition modify (f : Clique → Clique) : eng unit := fun c => (Ok tt, f c).

(** A call whose error is tested: [None] stands for [err != nil]. *)
Definition attempt {A} (m : eng A) : eng (option A) := fun c =>
  match m c with
  | (Ok a, c) => (Ok (Some a), c)
  | (Err _, c) => (Ok None, c)
  | (Panic w, c) => (Panic w, c)
  end.

Lemma eng_bind_ok {A B} (m : eng A) (f : A → eng B) c b c' :
  (m ≫= f) c = (Ok b, c') ↔ ∃ a c1, m c = (Ok a, c1) ∧ f a c1 = (Ok b, c').
Proof.
  unfold mbind, eng_bind. destruct (m c) as [[a|e|w] c1]; naive_solver.
Qed.

(** ** Construction and configuration *)

(** [New]: a zero epoch becomes the default. *)
Definition Clique_New (cfg : CliqueConfig) (d : gmap Hash Snapshot) : Clique :=
  let conf := if Epoch cfg =? 0 then MkCliqueConfig (Period cfg) epochLength else cfg in
  MkClique conf d None ∅ ∅ 0 (fun _ => Panic "nil function call") None None None false.

(** [SetBootstrap]: duplicates are dropped, the zero address is refused. *)
Fixpoint uniq_signers (seen : gset Address) (l : list Address) : result (list Address) :=
  match l with
  | [] => Ok []
  | s :: l =>
      _ ← fail_if (s =? 0) (New "clique bootstrap signer is the zero address");
      if bool_decide (s ∈ seen) then uniq_signers seen l
      else rest ← uniq_signers ({[s]} ∪ seen) l; Ok (s :: rest)
  end.

Definition SetBootstrap (anchor : Z) (l : list Address) : eng unit :=
  _ ← lift (fail_if (length l =? 0)%nat (New "clique bootstrap requires at least one signer"));
  uniq ← lift (uniq_signers ∅ l);
  modify (set_bootstrap (Some (MkBootstrap anchor (sort_signers uniq)))).

(** [SetBreakGlass]. *)
Definition SetBreakGlass (bg : option BreakGlassConfig) : eng unit :=
  match bg with
  | None => modify (set_breakGlass None)
  | Some bg =>
      _ ← lift (fail_if (bool_decide (bg_ChainID bg = None))
                  (New "clique break-glass requires a chain id"));
      _ ← lift (fail_if ((Threshold bg <=? 0) || (zlen (Owners bg) <? Threshold bg))
                  (Errorf "clique break-glass threshold %d invalid for %d owners"
                     [Threshold bg; zlen (Owners bg)]));
      modify (set_breakGlass (Some bg))
  end.

(** [Authorize]. *)
Definition Clique_Authorize (s : Address) (f : bytes → result bytes) : eng unit :=
  modify (set_signer s f).

(** [Propose], [Discard] and [Proposals] of the RPC API. *)
Definition Propose (address : Address) (auth : bool) : eng unit :=
  modify (fun c => set_proposals (<[address := auth]> (proposals c)) c).
Definition Discard (address : Address) : eng unit :=
  modify (fun c => set_proposals (delete address (proposals c)) c).
Definition Proposals (c : Clique) : gmap Address bool := proposals c.

(** [DisarmBreakGlass] and [BreakGlassPending]. *)
Definition DisarmBreakGlass : eng unit := modify (set_bgPending None).
Definition BreakGlassPending (c : Clique) : option BreakGlassOverride := bgPending c.

Section Clique.
Context `{Crypto}.

(** [ArmBreakGlass]. *)
Definition ArmBreakGlass (number : Z) (parentHash : Hash) (l : list Address)
  (signatures : list bytes) : eng unit :=
  c ← get;
  match cq_breakGlass c with
  | None => lift (Err errBreakGlassDisabled)
  | Some bg =>
      _ ← lift (fail_if (number =? 0) errBreakGlassNumber);
      sorted ← lift (sortedUniqueSigners l);
      _ ← lift (verifyBreakGlass (Some bg) number parentHash sorted signatures);
      modify (set_bgPending (Some (MkOverride number parentHash sorted signatures)))
  end.

(** [BreakGlassMessage]. *)
Definition BreakGlassMessage (number : Z) (parentHash : Hash) (l : list Address)
  : eng bytes :=
  c ← get;
  match cq_breakGlass c with
  | None => lift (Err errBreakGlassDisabled)
  | Some bg =>
      sorted ← lift (sortedUniqueSigners l);
      chainID ← lift (deref (bg_ChainID bg));
      mret (breakGlassMessage chainID number parentHash sorted)
  end.

(** ** Snapshots *)

(** [store]. *)
Definition store (s : Snapshot) : eng unit := fun c =>
  match db_err c with
  | Some e => (Err e, c)
  | None => (Ok tt, set_db (<[sn_Hash s := s]> (db c)) c)
  end.

(** [loadSnapshot]: the configuration is the engine's, not the stored one. *)
Definition loadSnapshot (c : Clique) (hash : Hash) : option Snapshot :=
  s ← db c !! hash;
  Some (MkSnapshot (cq_config c) (cq_breakGlass c) (sn_Number s) (sn_Hash s) (Signers s)
          (Recents s) (Votes s) (TallyMap s)).

(** [breakGlassOverride]. *)
Definition breakGlassOverride (header : Header) : eng (option (list Address)) := fun c =>
  (breakGlassOverrideOf (cq_breakGlass c) header, c).

(** The trusted checkpoint of the snapshot loop: seed from the header of that
    number when there is one. *)
Definition trust_checkpoint (chain : ChainReader) (number : Z) : eng (option Snapshot) :=
  match GetHeaderByNumber chain number with
  | None => mret None
  | Some checkpoint =>
      '(l, _, isBreakGlass) ← lift (parseCheckpointExtra (Extra checkpoint));
      l ← (if (isBreakGlass : bool)
           then o ← breakGlassOverride checkpoint; mret (default [] o) else mret l);
      c ← get;
      let snap := newSnapshot (cq_config c) (cq_breakGlass c) number
                    (Header_Hash checkpoint) l in
      _ ← store snap;
      mret (Some snap)
  end.

(** One round of the search: a snapshot to start from, if this block has one. *)
Definition find_snapshot (chain : ChainReader) (number : Z) (hash : Hash)
  (gathered : Z) : eng (option Snapshot) :=
  c ← get;
  match recents c !! hash with
  | Some s => mret (Some s)
  | None =>
      match (if number mod checkpointInterval =? 0 then loadSnapshot c hash else None) with
      | Some s => mret (Some s)
      | None =>
          seeded ←
            match bootstrap c with
            | None => mret None
            | Some b =>
                _ ← lift (fail_if (number <? Anchor b) errBelowBootstrap);
                if number =? Anchor b then
                  let snap := newSnapshot (cq_config c) (cq_breakGlass c) number hash
                                (bs_Signers b) in
                  _ ← store snap; mret (Some snap)
                else mret None
            end;
          match seeded with
          | Some s => mret (Some s)
          | None =>
              trust ← (if number =? 0 then mret true
                       else
                         r ← lift (mod64 number (Epoch (cq_config c)));
                         mret ((r =? 0) &&
                           ((FullImmutabilityThreshold <? gathered)
                            || bool_decide (GetHeaderByNumber chain (sub64 number 1) = None))));
              if (trust : bool) then trust_checkpoint chain number else mret None
          end
      end
  end.

(** The header of (number, hash): from the explicit parents when there are
    any, else from the chain. *)
Definition gather_header (chain : ChainReader) (number : Z) (hash : Hash)
  (parents : list Header) : result (Header * list Header) :=
  match last parents with
  | Some header =>
      _ ← fail_if (negb (Header_Hash header =? hash)) ErrUnknownAncestor;
      n ← NumberU64 header;
      _ ← fail_if (negb (n =? number)) ErrUnknownAncestor;
      Ok (header, removelast parents)
  | None =>
      match GetHeader chain hash number with
      | Some header => Ok (header, [])
      | None => Err ErrUnknownAncestor
      end
  end.

(** The search loop. The headers are gathered in ascending order, which is
    the order after the code's reversal. *)
Fixpoint snapshot_loop (fuel : nat) (chain : ChainReader) (number : Z) (hash : Hash)
  (parents headers : list Header) : eng (Snapshot * list Header) :=
  match fuel with
  | O => lift (Panic "out of fuel")
  | S fuel =>
      found ← find_snapshot chain number hash (zlen headers);
      match found with
      | Some snap => mret (snap, headers)
      | None =>
          '(header, parents) ← lift (gather_header chain number hash parents);
          snapshot_loop fuel chain (sub64 number 1) (ParentHash header) parents
            (header :: headers)
      end
  end.

Definition snapshot_fuel (number : Z) : nat := Z.to_nat number + 2.

(** [snapshot]. *)
Definition snapshot (chain : ChainReader) (number : Z) (hash : Hash)
  (parents : list Header) : eng Snapshot :=
  '(snap, headers) ← snapshot_loop (snapshot_fuel number) chain number hash parents [];
  snap ← lift (apply snap headers);
  _ ← modify (fun c => set_recents (<[sn_Hash snap := snap]> (recents c)) c);
  _ ← (if (sn_Number snap mod checkpointInterval =? 0) && (0 <? zlen headers)
       then store snap else mret tt);
  mret snap.

(** [SignersAt]. *)
Definition SignersAt (chain : ChainReader) (header : Header) : eng (list Address) :=
  n ← lift (NumberU64 header);
  snap ← snapshot chain n (Header_Hash header) [];
  mret (signers snap).

(** [Author]. *)
Definition Clique_Author (header : Header) : result Address := ecrecover header.

(** ** Verification *)

(** The difficulty test shared by [verifySeal] and [verifyBreakGlassSeal]. *)
Definition check_turn (inturn : bool) (difficulty : Z) : result unit :=
  _ ← fail_if (inturn && negb (difficulty =? diffInTurn)) errWrongDifficulty;
  fail_if (negb inturn && negb (difficulty =? diffNoTurn)) errWrongDifficulty.

(** [verifyBreakGlassSeal]. *)
Definition verifyBreakGlassSeal (fake : bool) (header : Header) (override : list Address)
  : result unit :=
  signer ← ecrecover header;
  _ ← fail_if (negb (containsAddress override signer)) errBreakGlassUnauthorizedSealer;
  if fake then Ok tt
  else
    n ← NumberU64 header;
    b ← inturnAmong override n signer;
    d ← deref (Difficulty header);
    check_turn b d.

(** The loop over the recents of [verifySeal]; [number-limit] is a uint64
    difference. *)
Definition seal_blocked (snap : Snapshot) (number : Z) (signer : Address) : bool :=
  existsb (fun '(seen, recent) =>
    (recent =? signer) && (sub64 number (limit snap) <? seen))
    (map_to_list (Recents snap)).

(** [verifySeal]. *)
Definition verifySeal (fake : bool) (snap : Snapshot) (header : Header) : result unit :=
  number ← NumberU64 header;
  _ ← fail_if (number =? 0) errUnknownBlock;
  signer ← ecrecover header;
  _ ← fail_if (negb (bool_decide (signer ∈ Signers snap))) errUnauthorizedSigner;
  _ ← fail_if (seal_blocked snap number signer) errRecentlySigned;
  if fake then Ok tt
  else
    b ← inturn snap number signer;
    d ← deref (Difficulty header);
    check_turn b d.

(** The checks of [verifyCascadingFields] that come before the snapshot. *)
Definition verify_parent (chain : ChainReader) (period : Z) (header parent : Header)
  : result unit :=
  _ ← fail_if (Time header <? add64 (Time parent) period) errInvalidTimestamp;
  _ ← fail_if (GasLimit header <? GasUsed header)
        (Errorf "invalid gasUsed: have %d, gasLimit %d" [GasUsed header; GasLimit header]);
  if negb (IsLondon (chain_Config chain) (Number header)) then
    match BaseFee header with
    | Some f => Err (Errorf "invalid baseFee before fork: have %d, want <nil>" [f])
    | None => VerifyGaslimit (GasLimit parent) (GasLimit header)
    end
  else VerifyEip1559Header (chain_Config chain) parent header.

(** The parent [verifyCascadingFields] works with. *)
Definition find_parent (chain : ChainReader) (header : Header) (number : Z)
  (parents : list Header) : result Header :=
  match (match last parents with
         | Some p => Some p
         | None => GetHeader chain (ParentHash header) (sub64 number 1)
         end) with
  | None => Err ErrUnknownAncestor
  | Some parent =>
      n ← NumberU64 parent;
      _ ← fail_if (negb (n =? sub64 number 1)
                   || negb (Header_Hash parent =? ParentHash header)) ErrUnknownAncestor;
      Ok parent
  end.

(** [verifyCascadingFields]. *)
Definition verifyCascadingFields (chain : ChainReader) (header : Header)
  (parents : list Header) : eng unit :=
  number ← lift (NumberU64 header);
  if number =? 0 then mret tt
  else
    parent ← lift (find_parent chain header number parents);
    c ← get;
    _ ← lift (verify_parent chain (Period (cq_config c)) header parent);
    snap ← snapshot chain (sub64 number 1) (ParentHash header) parents;
    if isBreakGlassExtra (Extra header) then
      override ← breakGlassOverride header;
      lift (verifyBreakGlassSeal (fakeDiff c) header (default [] override))
    else
      r ← lift (mod64 number (Epoch (cq_config c)));
      _ ← lift (fail_if ((r =? 0) &&
            negb (bool_decide (extra_payload (Extra header)
                               = concat (map address_bytes (signers snap)))))
            errMismatchingCheckpointSigners);
      lift (verifySeal (fakeDiff c) snap header).

(** The checks of [verifyHeader] on the header alone; [now] is the clock. *)
Definition verify_standalone (chain : ChainReader) (epoch now : Z) (header : Header)
  : result unit :=
  number ← match Number header with
           | None => Err errUnknownBlock
           | Some n => Ok (big_Uint64 n)
           end;
  _ ← fail_if (now <? Time header) ErrFutureBlock;
  r ← mod64 number epoch;
  let checkpoint := r =? 0 in
  _ ← fail_if (checkpoint && negb (Coinbase header =? 0)) errInvalidCheckpointBeneficiary;
  _ ← fail_if (negb (Nonce header =? nonceAuthVote) && negb (Nonce header =? nonceDropVote))
        errInvalidVote;
  _ ← fail_if (checkpoint && negb (Nonce header =? nonceDropVote)) errInvalidCheckpointVote;
  _ ← fail_if (length (Extra header) <? extraVanity)%nat errMissingVanity;
  _ ← fail_if (length (Extra header) <? extraVanity + extraSeal)%nat errMissingSignature;
  let signersBytes := zlen (Extra header) - Z.of_nat extraVanity - Z.of_nat extraSeal in
  let breakGlass := isBreakGlassExtra (Extra header) in
  _ ← fail_if (negb checkpoint && negb (signersBytes =? 0) && negb breakGlass) errExtraSigners;
  _ ← (if checkpoint || breakGlass
       then _ ← parseCheckpointExtra (Extra header); Ok tt else Ok tt);
  _ ← fail_if (breakGlass && (negb (Coinbase header =? 0)
                              || negb (Nonce header =? nonceDropVote))) errBreakGlassVote;
  _ ← fail_if (negb (MixDigest header =? 0)) errInvalidMixDigest;
  _ ← fail_if (negb (UncleHash header =? EmptyUncleHash)) errInvalidUncleHash;
  _ ← fail_if ((0 <? number) &&
        match Difficulty header with
        | None => true
        | Some d => negb (d =? diffInTurn) && negb (d =? diffNoTurn)
        end) errInvalidDifficulty;
  _ ← fail_if (MaxGasLimit <? GasLimit header)
        (Errorf "invalid gasLimit: have %v, max %v" [GasLimit header; MaxGasLimit]);
  VerifyForkHashes (chain_Config chain) header false.

(** [verifyHeader]. *)
Definition verifyHeader (chain : ChainReader) (now : Z) (header : Header)
  (parents : list Header) : eng unit :=
  c ← get;
  _ ← lift (verify_standalone chain (Epoch (cq_config c)) now header);
  verifyCascadingFields chain header parents.

(** [VerifyHeader]. *)
Definition Clique_VerifyHeader (chain : ChainReader) (now : Z) (header : Header) : eng unit :=
  verifyHeader chain now header [].

(** The goroutine of [VerifyHeadersWithAncestors]: the results in the order
    they are sent, without an abort. [before] are the ancestors and the headers
    already sent. *)
Fixpoint verify_batch (chain : ChainReader) (now : Z) (before headers : list Header)
  : eng (list (result unit)) := fun c =>
  match headers with
  | [] => (Ok [], c)
  | header :: rest =>
      let '(r, c) := verifyHeader chain now header before c in
      match r with
      | Panic w => (Panic w, c)
      | _ =>
          match verify_batch chain now (before ++ [header]) rest c with
          | (Ok rs, c) => (Ok (r :: rs), c)
          | (Err e, c) => (Err e, c)
          | (Panic w, c) => (Panic w, c)
          end
      end
  end.

Definition VerifyHeadersWithAncestors (chain : ChainReader) (now : Z)
  (headers ancestors : list Header) : eng (list (result unit)) :=
  verify_batch chain now ancestors headers.

(** [VerifyHeaders]: no ancestors. *)
Definition Clique_VerifyHeaders (chain : ChainReader) (now : Z) (headers : list Header)
  : eng (list (result unit)) :=
  verify_batch chain now [] headers.

(** [VerifyUncles]. *)
Definition Clique_VerifyUncles (block : Block) : result unit :=
  fail_if (0 <? length (blk_uncles block))%nat (New "uncles not allowed").

(** ** Sealing *)

(** [calcDifficulty]. *)
Definition calcDifficulty (snap : Snapshot) (signer : Address) : result Z :=
  b ← inturn snap (add64 (sn_Number snap) 1) signer;
  Ok (if (b : bool) then diffInTurn else diffNoTurn).

(** [CalcDifficulty]: nil when there is no snapshot. *)
Definition Clique_CalcDifficulty (chain : ChainReader) (parent : Header) : eng (option Z) :=
  n ← lift (NumberU64 parent);
  snap ← attempt (snapshot chain n (Header_Hash parent) []);
  match snap with
  | Some snap => c ← get; d ← lift (calcDifficulty snap (cq_signer c)); mret (Some d)
  | None => mret None
  end.

(** The vote [Prepare] casts: one of the meaningful proposals, chosen by
    [pick] (rand.Intn of their number). *)
Definition pick_vote (snap : Snapshot) (props : gmap Address bool) (pick : nat → nat)
  : option (Address * bool) :=
  let addresses := filter (fun '(a, auth) => validVote snap a auth = true)
                     (map_to_list props) in
  match addresses with
  | [] => None
  | _ => addresses !! pick (length addresses)
  end.

(** The extra data [Prepare] lays out before the seal slot. *)
Definition prepare_extra (extra : bytes) (payload : bytes) : bytes :=
  take extraVanity (extra ++ replicate (extraVanity - length extra) Byte.x00)
  ++ payload ++ replicate extraSeal Byte.x00.

(** [Prepare]; [now] is the clock, [pick] the random choice. *)
Definition Clique_Prepare (chain : ChainReader) (now : Z) (pick : nat → nat)
  (header : Header) : eng Header :=
  let header := set_Nonce (set_Coinbase header 0) 0 in
  number ← lift (NumberU64 header);
  snap ← snapshot chain (sub64 number 1) (ParentHash header) [];
  c ← get;
  let pending := bgPending c in
  let embed := match pending with
               | Some p => (ov_Number p =? number) && (ov_ParentHash p =? ParentHash header)
               | None => false
               end in
  r ← lift (mod64 number (Epoch (cq_config c)));
  let header :=
    if negb (r =? 0) && negb embed then
      match pick_vote snap (proposals c) pick with
      | Some (a, true) => set_Nonce (set_Coinbase header a) nonceAuthVote
      | Some (a, false) => set_Nonce (set_Coinbase header a) nonceDropVote
      | None => header
      end
    else header in
  difficulty ← lift match embed, pending with
                    | true, Some p => calcDifficultyAmong (ov_Signers p) number (cq_signer c)
                    | _, _ => calcDifficulty snap (cq_signer c)
                    end;
  let header := set_Difficulty header (Some difficulty) in
  let payload :=
    match embed, pending with
    | true, Some p => encodeBreakGlassPayload (ov_Signers p) (ov_Signatures p)
    | _, _ => if r =? 0 then concat (map address_bytes (signers snap)) else []
    end in
  _ ← match embed, pending with
      | false, Some p => if ov_Number p <? number then modify (set_bgPending None) else mret tt
      | _, _ => mret tt
      end;
  let header := set_Extra header (prepare_extra (Extra header) payload) in
  let header := set_MixDigest header 0 in
  match GetHeader chain (ParentHash header) (sub64 number 1) with
  | None => lift (Err ErrUnknownAncestor)
  | Some parent =>
      mret (set_Time header (Z.max (add64 (Time parent) (Period (cq_config c))) now))
  end.

(** [Finalize]: the state root, no uncles, no reward; [root] is the state's
    IntermediateRoot. *)
Definition Clique_Finalize (root : bool → Hash) (chain : ChainReader) (header : Header)
  : Header :=
  set_UncleHash (set_Root header (root (IsEIP158 (chain_Config chain) (Number header))))
    EmptyUncleHash.

(** The wait of the recently-signed rule in [Seal]. *)
Definition must_wait (snap : Snapshot) (number : Z) (signer : Address) : bool :=
  existsb (fun '(seen, recent) =>
    (recent =? signer) &&
    ((number <? limit snap) || (sub64 number (limit snap) <? seen)))
    (map_to_list (Recents snap)).

(** [copy(header.Extra[len(header.Extra)-extraSeal:], sighash)]. *)
Definition put_seal (extra sighash : bytes) : bytes :=
  let keep := (length extra - extraSeal)%nat in
  take keep extra ++ take extraSeal sighash ++ drop (length sighash) (drop keep extra).

(** The delay before a block is released, in milliseconds; [wiggle_by] is
    the rand.Int63n of the wiggle range. *)
Definition seal_delay (snap : Snapshot) (header : Header) (now_ms : Z) (wiggle_by : Z → Z)
  : result Z :=
  d ← deref (Difficulty header);
  let delay := Time header * 1000 - now_ms in
  Ok (if d =? diffNoTurn then delay + wiggle_by (limit snap * wiggleTime) else delay).

(** [Seal]: the sealed header and the delay after which it is sent, unless
    sealing is stopped first. *)
Definition Clique_Seal (chain : ChainReader) (now_ms : Z) (wiggle_by : Z → Z)
  (block : Block) : eng (Header * Z) :=
  let header := CopyHeader (blk_header block) in
  number ← lift (NumberU64 header);
  _ ← lift (fail_if (number =? 0) errUnknownBlock);
  c ← get;
  _ ← lift (fail_if ((Period (cq_config c) =? 0) && (blk_ntxs block =? 0))
              (New "sealing paused while waiting for transactions"));
  snap ← snapshot chain (sub64 number 1) (ParentHash header) [];
  _ ← (if isBreakGlassExtra (Extra header) then
         override ← breakGlassOverride header;
         lift (fail_if (negb (containsAddress (default [] override) (cq_signer c)))
                 errBreakGlassUnauthorizedSealer)
       else
         _ ← lift (fail_if (negb (bool_decide (cq_signer c ∈ Signers snap)))
                     errUnauthorizedSigner);
         lift (fail_if (must_wait snap number (cq_signer c))
                 (New "signed recently, must wait for others")));
  delay ← lift (seal_delay snap header now_ms wiggle_by);
  sigdata ← lift (CliqueRLP header);
  sighash ← lift (signFn c sigdata);
  mret (set_Extra header (put_seal (Extra header) sighash), delay).

(** ** The RPC API *)

Definition LatestBlockNumber : Z := -1.

(** The header [GetSnapshot] and [GetSigners] resolve a block number to. *)
Definition api_header (chain : ChainReader) (number : option Z) : option Header :=
  match number with
  | None => Some (CurrentHeader chain)
  | Some n => if n =? LatestBlockNumber then Some (CurrentHeader chain)
              else GetHeaderByNumber chain (u64 n)
  end.

Definition api_snapshot_of (chain : ChainReader) (header : option Header) : eng Snapshot :=
  match header with
  | None => lift (Err errUnknownBlock)
  | Some header =>
      n ← lift (NumberU64 header); snapshot chain n (Header_Hash header) []
  end.

(** [GetSnapshot], [GetSnapshotAtHash], [GetSigners], [GetSignersAtHash]. *)
Definition GetSnapshot (chain : ChainReader) (number : option Z) : eng Snapshot :=
  api_snapshot_of chain (api_header chain number).
Definition GetSnapshotAtHash (chain : ChainReader) (hash : Hash) : eng Snapshot :=
  api_snapshot_of chain (GetHeaderByHash chain hash).
Definition GetSigners (chain : ChainReader) (number : option Z) : eng (list Address) :=
  snap ← GetSnapshot chain number; mret (signers snap).
Definition GetSignersAtHash (chain : ChainReader) (hash : Hash) : eng (list Address) :=
  snap ← GetSnapshotAtHash chain hash; mret (signers snap).

(** [Status]: the in-turn blocks, the activity per sealer and the number of
    blocks looked at. The percentage is the float quotient of the first and
    the last. *)
Fixpoint status_loop (chain : ChainReader) (n : Z) (count : nat) (optimals : Z)
  (activity : gmap Address Z) : result (Z * gmap Address Z) :=
  match count with
  | O => Ok (optimals, activity)
  | S count =>
      match GetHeaderByNumber chain n with
      | None => Err (Errorf "missing block %d" [n])
      | Some h =>
          d ← deref (Difficulty h);
          sealer ← ecrecover h;
          status_loop chain (n + 1) count
            (if d =? diffInTurn then optimals + 1 else optimals)
            (<[sealer := default 0 (activity !! sealer) + 1]> activity)
      end
  end.

Definition Status (chain : ChainReader) : eng (Z * gmap Address Z * Z) :=
  let header := CurrentHeader chain in
  end_ ← lift (NumberU64 header);
  snap ← snapshot chain end_ (Header_Hash header) [];
  let '(start, numBlocks) :=
    if end_ <? 64 then (1, sub64 end_ 1) else (end_ - 64, 64) in
  let zeros := list_to_map ((fun s => (s, 0)) <$> signers snap) in
  '(optimals, activity) ← lift (status_loop chain start (Z.to_nat (end_ - start)) 0 zeros);
  mret (optimals, activity, numBlocks).
End Clique.
