(* ===== verification/Authority.v ===== *)
(** * The authority engine: correctness

    The reference for the engine's snapshots (the authority history), the proof
    that [snapshot] computes it whatever is cached, that [verifyHeader], [Seal]
    and [Prepare] agree with it, and what arming an override leads to. *)

From S2P Require Import Prelude Bytes Rlp Types Params Misc BreakGlass Snapshot Clique.

(** ** The authority history

    The reference for [snapshot]: the snapshot of a block is obtained from the
    bootstrap set by applying the headers above the anchor one at a time. [W]
    is the set of known headers, by hash. *)

Section History.
Context `{Crypto} (W : Hash → option Header) (cfg : CliqueConfig)
  (bg : option BreakGlassConfig) (b : Bootstrap).

Inductive is_snapshot : Z → Hash → Snapshot → Prop :=
| snap_seed hash :
    is_snapshot (Anchor b) hash (newSnapshot cfg bg (Anchor b) hash (bs_Signers b))
| snap_step n hash h s s' :
    W hash = Some h → NumberU64 h = Ok (n + 1) →
    is_snapshot n (ParentHash h) s → apply s [h] = Ok s' →
    is_snapshot (n + 1) hash s'.

(** The known headers are keyed by their hash, linked down to the anchor, and
    of a sane size and height. *)
Record known_ok : Prop := {
  kn_anchor : 0 ≤ Anchor b;
  kn_hash : ∀ hash h, W hash = Some h → Header_Hash h = hash;
  kn_link : ∀ hash h n, W hash = Some h → NumberU64 h = Ok n → Anchor b < n →
    ∃ p, W (ParentHash h) = Some p ∧ NumberU64 p = Ok (n - 1);
  kn_sane : ∀ hash h n, W hash = Some h → NumberU64 h = Ok n →
    n + 2 ^ 32 < two64 ∧ zlen (Extra h) < 2 ^ 32
}.

(** A run of known headers from the block after (k, hk) up to (n, hash). *)
Inductive segment (k : Z) (hk : Hash) : list Header → Z → Hash → Prop :=
| seg_nil : segment k hk [] k hk
| seg_snoc path n hash h :
    W hash = Some h → NumberU64 h = Ok (n + 1) → segment k hk path n (ParentHash h) →
    segment k hk (path ++ [h]) (n + 1) hash.

Context (Hknown : known_ok).

Lemma is_snapshot_anchor n hash s : is_snapshot n hash s → Anchor b ≤ n.
Proof. induction 1; lia. Qed.

Lemma apply_one_hash s h s' :
  apply s [h] = Ok s' → sn_Hash s' = Header_Hash h.
Proof.
  unfold apply. intros E. apply bind_ok in E as (? & _ & E).
  apply bind_ok in E as (? & _ & E). apply bind_ok in E as (? & _ & E).
  apply bind_ok in E as (snap & _ & E). apply Ok_inj in E as <-. done.
Qed.

Lemma sane_one n hash h :
  0 ≤ n → W hash = Some h → NumberU64 h = Ok (n + 1) → sane_batch n [h].
Proof.
  intros Hn HW Hh. destruct (kn_sane Hknown _ _ _ HW Hh) as [? ?].
  split; [done|]. split; [unfold zlen; cbn [length]; lia|]. by constructor.
Qed.

(** What a snapshot of the history records, and that it is consistent. *)
Lemma is_snapshot_facts n hash s :
  is_snapshot n hash s →
  sn_Number s = n ∧ sn_Hash s = hash ∧ config s = cfg ∧ breakGlass s = bg ∧ snap_ok n s.
Proof.
  induction 1 as [hash|n hash h s s' HW Hn Hs IH E].
  { repeat (split; [done|]). apply newSnapshot_ok. }
  destruct IH as (HN & HH & HC & HB & Hok).
  pose proof (is_snapshot_anchor _ _ _ Hs). pose proof (kn_anchor Hknown).
  destruct (apply_ok s [h] s') as (Hok' & HN' & HC' & HB').
  - by rewrite HN.
  - rewrite HN. eapply sane_one; [lia|done..].
  - done.
  - change (zlen [h]) with 1 in HN'. rewrite HN in HN'.
    rewrite (apply_one_hash _ _ _ E), (kn_hash Hknown _ _ HW).
    rewrite HN' in Hok'. split; [done|]. split; [done|].
    split; [congruence|]. by split; [congruence|].
Qed.

Lemma is_snapshot_det n hash s1 s2 :
  is_snapshot n hash s1 → is_snapshot n hash s2 → s1 = s2.
Proof.
  intros H1. revert s2. induction H1 as [hash|n hash h s s' HW Hn Hs IH E]; intros s2 H2.
  - inversion H2 as [|? ? ? ? ? ? ? Hs' ?]; subst; [done|].
    apply is_snapshot_anchor in Hs'. lia.
  - pose proof (is_snapshot_anchor _ _ _ Hs).
    inversion H2 as [|n' ? h' t ? HW' Hn' Ht E']; subst; [lia|].
    assert (n' = n) as -> by lia. assert (h' = h) as -> by congruence.
    rewrite (IH t Ht) in E. congruence.
Qed.

Lemma segment_le k hk path n hash : segment k hk path n hash → n = k + zlen path.
Proof.
  induction 1 as [|path n hash h HW Hn _ IH]; unfold zlen in *; [cbn; lia|].
  rewrite length_app. cbn [length]. lia.
Qed.

Lemma segment_sane k hk path n hash :
  0 ≤ k → k + 2 ^ 32 < two64 → segment k hk path n hash → sane_batch k path.
Proof.
  intros Hk0 Hk. induction 1 as [|path n hash h HW Hn Hseg IH].
  { split; [done|]. split; [unfold zlen; cbn; lia|constructor]. }
  pose proof (segment_le _ _ _ _ _ Hseg) as ->.
  destruct (kn_sane Hknown _ _ _ HW Hn) as [? ?]. destruct IH as (_ & _ & Hx).
  split; [done|]. unfold zlen in *. rewrite length_app. cbn [length].
  split; [lia|]. apply Forall_app. split; [done|]. by constructor.
Qed.

(** Applying a segment to a snapshot of the history gives the snapshot at its
    end, exactly when there is one. *)
Lemma segment_apply k hk path n hash s s' :
  is_snapshot k hk s → k + 2 ^ 32 < two64 → segment k hk path n hash →
  apply s path = Ok s' ↔ is_snapshot n hash s'.
Proof.
  intros Hs Hk Hseg. pose proof (is_snapshot_anchor _ _ _ Hs).
  pose proof (kn_anchor Hknown).
  destruct (is_snapshot_facts _ _ _ Hs) as (HN & _ & _ & _ & Hok).
  revert s'. induction Hseg as [|path n hash h HW Hn Hseg IH]; intros s'.
  { cbn. split; [by intros <-%Ok_inj|]. intros Hs'. f_equal. by eapply is_snapshot_det. }
  assert (Hsane : sane_batch (sn_Number s) (path ++ [h])).
  { rewrite HN. eapply segment_sane; [lia|done|]. by econstructor. }
  rewrite apply_split; [|by rewrite HN|done]. split.
  - intros (s1 & E1 & E2). apply IH in E1. by eapply snap_step.
  - intros Hs'. pose proof (segment_le _ _ _ _ _ Hseg) as Hlen. unfold zlen in Hlen.
    clear HN Hsane.
    inversion Hs' as [|n' ? h' t ? HW' Hn' Ht E']; subst; [lia|].
    assert (n' = k + Z.of_nat (length path)) as -> by lia.
    assert (h' = h) as -> by congruence.
    exists t. split; [|done]. by apply IH.
Qed.

(** *** Sound caches *)

Definition cached_ok (m : gmap Hash Snapshot) : Prop :=
  ∀ hash s, m !! hash = Some s →
    ∃ n h, is_snapshot n hash s ∧ W hash = Some h ∧ NumberU64 h = Ok n.

Record engine_ok (c : Clique) : Prop := {
  en_config : cq_config c = cfg;
  en_bg : cq_breakGlass c = bg;
  en_boot : bootstrap c = Some b;
  en_epoch : Epoch cfg ≠ 0;
  en_db_err : db_err c = None;
  en_recents : cached_ok (recents c);
  en_db : cached_ok (db c)
}.

Lemma cached_ok_insert m n hash h s :
  cached_ok m → is_snapshot n hash s → W hash = Some h → NumberU64 h = Ok n →
  cached_ok (<[hash := s]> m).
Proof.
  intros Hm Hs HW Hn hash' s' Hl.
  destruct (decide (hash' = hash)) as [->|]; [|rewrite lookup_insert_ne in Hl by done; by apply Hm].
  rewrite lookup_insert_eq in Hl. injection Hl as <-. by exists n, h.
Qed.

Lemma cached_at m n hash h s :
  cached_ok m → m !! hash = Some s → W hash = Some h → NumberU64 h = Ok n →
  is_snapshot n hash s.
Proof.
  intros Hm Hl HW Hn. destruct (Hm _ _ Hl) as (n' & h' & Hs & HW' & Hn').
  by assert (n' = n) as -> by congruence.
Qed.

Lemma load_ok c hash s n h :
  engine_ok c → loadSnapshot c hash = Some s → W hash = Some h → NumberU64 h = Ok n →
  is_snapshot n hash s.
Proof.
  intros [] Hl HW Hn. unfold loadSnapshot in Hl.
  destruct (db c !! hash) as [t|] eqn:Ht; [|done]. cbn in Hl. injection Hl as <-.
  pose proof (cached_at _ _ _ _ _ en_db0 Ht HW Hn) as Hs.
  destruct (is_snapshot_facts _ _ _ Hs) as (_ & _ & HC & HB & _).
  rewrite en_config0, en_bg0, <- HC, <- HB. by destruct t.
Qed.

(** *** The search loop *)

(** Explicit parents: a run of known headers ending at (n, hash). *)
Inductive batch : Z → Hash → list Header → Prop :=
| batch_nil n hash : batch n hash []
| batch_snoc n hash h ps :
    W hash = Some h → NumberU64 h = Ok n → batch (n - 1) (ParentHash h) ps →
    batch n hash (ps ++ [h]).

(** The chain holds the known headers up to [base] and has no gap in its
    canonical numbers above the anchor. *)
Record reader_ok (chain : ChainReader) (base : Z) : Prop := {
  rd_sound : ∀ hash n h, GetHeader chain hash n = Some h →
    W hash = Some h ∧ NumberU64 h = Ok n;
  rd_complete : ∀ hash n h, W hash = Some h → NumberU64 h = Ok n → n ≤ base →
    GetHeader chain hash n = Some h;
  rd_gapless : ∀ n, Anchor b < n →
    GetHeaderByNumber chain (n - 1) = None → GetHeaderByNumber chain n = None
}.

(** A height whose snapshots can be found: the anchor, or one at which every
    known header has a snapshot in memory or on disk. *)
Definition floor_ok (c : Clique) (F : Z) : Prop :=
  Anchor b ≤ F ∧
  (F = Anchor b ∨ ∀ hash h, W hash = Some h → NumberU64 h = Ok F →
     is_Some (recents c !! hash) ∨
     (F mod checkpointInterval = 0 ∧ is_Some (db c !! hash))).

Lemma store_ok c n hash h s :
  engine_ok c → is_snapshot n hash s → W hash = Some h → NumberU64 h = Ok n →
  ∃ c', store s c = (Ok tt, c') ∧ engine_ok c'.
Proof.
  intros [] Hs HW Hn. unfold store. rewrite en_db_err0. eexists. split; [done|].
  destruct (is_snapshot_facts _ _ _ Hs) as (_ & -> & _).
  split; try done. cbn. exact (cached_ok_insert _ _ _ _ _ en_db0 Hs HW Hn).
Qed.

(** No trusted checkpoint is taken above the anchor. *)
Lemma no_trust c chain base n gathered :
  engine_ok c → reader_ok chain base → Anchor b < n → n < two64 →
  gathered ≤ FullImmutabilityThreshold →
  (trust ← (if n =? 0 then mret true
            else r ← lift (mod64 n (Epoch (cq_config c)));
                 mret ((r =? 0) && ((FullImmutabilityThreshold <? gathered)
                   || bool_decide (GetHeaderByNumber chain (sub64 n 1) = None))));
   if (trust : bool) then trust_checkpoint chain n else mret None) c = (Ok None, c).
Proof.
  intros [] [_ _ Hgap] Hn Hn64 Hg. pose proof (kn_anchor Hknown).
  replace (n =? 0) with false by (symmetry; apply Z.eqb_neq; lia).
  replace (FullImmutabilityThreshold <? gathered) with false by (symmetry; by apply Z.ltb_ge).
  rewrite en_config0. unfold mod64. apply Z.eqb_neq in en_epoch0. rewrite en_epoch0.
  rewrite sub64_small by (unfold is_u64; lia).
  unfold mbind, eng_bind, lift, mret, eng_ret. cbn beta iota.
  destruct (n mod Epoch cfg =? 0); cbn [andb orb]; [|done].
  case_bool_decide as Hnone; [|done].
  unfold trust_checkpoint. by rewrite (Hgap n Hn Hnone).
Qed.

Lemma find_snapshot_ok c chain base n hash h gathered :
  engine_ok c → reader_ok chain base → W hash = Some h → NumberU64 h = Ok n →
  Anchor b ≤ n → gathered ≤ FullImmutabilityThreshold →
  ∃ o c', find_snapshot chain n hash gathered c = (Ok o, c') ∧ engine_ok c' ∧
    match o with
    | Some s => is_snapshot n hash s
    | None => c' = c ∧ Anchor b < n ∧ recents c !! hash = None ∧
              (n mod checkpointInterval = 0 → db c !! hash = None)
    end.
Proof.
  intros Hc Hrd HW Hn Ha Hg. assert (Hc' := Hc). destruct Hc'.
  destruct (kn_sane Hknown _ _ _ HW Hn) as [Hn64 _].
  unfold find_snapshot, get, mbind, eng_bind, lift, mret, eng_ret. cbn beta iota.
  destruct (recents c !! hash) as [s|] eqn:Hr.
  { exists (Some s), c. split; [done|]. split; [done|]. exact (cached_at _ _ _ _ _ en_recents0 Hr HW Hn). }
  destruct (if n mod checkpointInterval =? 0 then loadSnapshot c hash else None)
    as [s|] eqn:Hl.
  { exists (Some s), c. split; [done|]. split; [done|].
    destruct (_ =? 0); [|done]. exact (load_ok _ _ _ _ _ Hc Hl HW Hn). }
  rewrite en_boot0. replace (n <? Anchor b) with false by (symmetry; apply Z.ltb_ge; lia).
  cbn [fail_if]. cbn beta iota. destruct (Z.eqb_spec n (Anchor b)) as [->|Hne].
  - rewrite en_config0, en_bg0.
    destruct (store_ok c (Anchor b) hash h
      (newSnapshot cfg bg (Anchor b) hash (bs_Signers b))) as (c' & Hst & Hc');
      [done|constructor|done..|].
    exists (Some (newSnapshot cfg bg (Anchor b) hash (bs_Signers b))), c'.
    split; [|split; [done|constructor]].
    by rewrite Hst.
  - exists None, c. split.
    + exact (no_trust c chain base n gathered Hc Hrd ltac:(lia) ltac:(lia) Hg).
    + split; [done|]. split; [done|]. split; [lia|]. split; [done|].
      intros Hm. rewrite Hm in Hl. cbn in Hl. unfold loadSnapshot in Hl.
      by destruct (db c !! hash).
Qed.

Lemma gather_ok chain base n hash h ps :
  reader_ok chain base → W hash = Some h → NumberU64 h = Ok n →
  batch n hash ps → n - zlen ps ≤ base →
  ∃ ps', gather_header chain n hash ps = Ok (h, ps') ∧
    batch (n - 1) (ParentHash h) ps' ∧ n - 1 - zlen ps' ≤ base.
Proof.
  intros [_ Hcomp _] HW Hn Hb Hbase. unfold gather_header.
  inversion Hb as [|? ? h' ps' HW' Hn' Hb']; subst.
  - exists []. unfold zlen in *. cbn [length] in *. cbn [last].
    rewrite (Hcomp _ _ _ HW Hn) by lia. split; [done|]. split; [constructor|lia].
  - assert (h' = h) as -> by congruence. exists ps'.
    rewrite last_snoc, (kn_hash Hknown _ _ HW), Z.eqb_refl, Hn. cbn.
    rewrite Z.eqb_refl, removelast_last. cbn. split; [done|]. split; [done|].
    unfold zlen in *. rewrite length_app in Hbase. cbn [length] in Hbase. lia.
Qed.

Lemma snapshot_loop_ok chain base F fuel :
  reader_ok chain base → ∀ n hash h ps headers c,
  engine_ok c → floor_ok c F → W hash = Some h → NumberU64 h = Ok n → F ≤ n →
  batch n hash ps → n - zlen ps ≤ base →
  zlen headers + (n - F) ≤ FullImmutabilityThreshold →
  (Z.to_nat (n - F) < fuel)%nat →
  ∃ k hk s path c', snapshot_loop fuel chain n hash ps headers c = (Ok (s, path ++ headers), c')
    ∧ is_snapshot k hk s ∧ k ≤ n ∧ segment k hk path n hash ∧ engine_ok c'.
Proof.
  intros Hrd. induction fuel as [|fuel IH];
    intros n hash h ps headers c Hc [Hfa Hf] HW Hn HF Hb Hbase Hg Hfuel; [lia|].
  pose proof (kn_anchor Hknown). destruct (kn_sane Hknown _ _ _ HW Hn) as [Hn64 _].
  destruct (find_snapshot_ok c chain base n hash h (zlen headers))
    as (o & c1 & Hfind & Hc1 & Ho); [done..|lia|lia|].
  cbn [snapshot_loop]. unfold mbind, eng_bind. rewrite Hfind. cbn beta iota.
  destruct o as [s|].
  { exists n, hash, s, [], c1. repeat (split; [done|]). split; [constructor|done]. }
  destruct Ho as (-> & Hgt & Hrn & Hdn).
  assert (F ≠ n) as HFn.
  { intros ->. destruct Hf as [->|Hf]; [lia|].
    destruct (Hf _ _ HW Hn) as [[? Hx]|[Hm [? Hx]]]; [congruence|].
    rewrite (Hdn Hm) in Hx. done. }
  destruct (gather_ok chain base n hash h ps) as (ps' & Hga & Hb' & Hbase'); [done..|].
  unfold lift. rewrite Hga. cbn beta iota.
  rewrite sub64_small by (unfold is_u64; lia).
  destruct (kn_link Hknown _ _ _ HW Hn Hgt) as (p & HWp & Hnp).
  destruct (IH (n - 1) (ParentHash h) p ps' (h :: headers) c)
    as (k & hk & s & path & c' & Hl & Hs & Hk & Hseg & Hc');
    [done|by split|done|done|lia|done|lia| |lia|].
  { unfold zlen in *. cbn [length]. lia. }
  exists k, hk, s, (path ++ [h]), c'. rewrite <- app_assoc. split; [exact Hl|].
  split; [done|]. split; [lia|]. split; [|done].
  replace n with (n - 1 + 1) by lia. econstructor; [done|..|done].
  by replace (n - 1 + 1) with n by lia.
Qed.

(** [snapshot] on a sound engine: it returns exactly the snapshot of the
    history, and leaves the engine sound. *)
Lemma snapshot_spec chain base F c n hash h ps :
  reader_ok chain base → engine_ok c → floor_ok c F →
  W hash = Some h → NumberU64 h = Ok n → F ≤ n →
  batch n hash ps → n - zlen ps ≤ base → n - F ≤ FullImmutabilityThreshold →
  ∃ r c', snapshot chain n hash ps c = (r, c') ∧ engine_ok c' ∧
    (∀ s, r = Ok s ↔ is_snapshot n hash s).
Proof.
  intros Hrd Hc Hf HW Hn HF Hb Hbase Hg.
  pose proof (kn_anchor Hknown) as H0. destruct (kn_sane Hknown _ _ _ HW Hn) as [Hn64 _].
  destruct (snapshot_loop_ok chain base F (snapshot_fuel n) Hrd n hash h ps [] c)
    as (k & hk & s0 & path & c1 & Hl & Hs0 & Hk & Hseg & Hc1); try done.
  { unfold snapshot_fuel. destruct Hf. lia. }
  rewrite app_nil_r in Hl.
  pose proof (segment_apply k hk path n hash s0) as Happ.
  unfold snapshot, mbind, eng_bind. rewrite Hl. cbn beta iota. unfold lift.
  destruct (apply s0 path) as [s'|e|w] eqn:E.
  2,3: eexists _, c1; split; [reflexivity|]; split; [done|];
       intros s; rewrite <- Happ by (done || lia); split; intros; congruence.
  assert (Hs' : is_snapshot n hash s') by (apply Happ; [done|lia|done..]).
  destruct (is_snapshot_facts _ _ _ Hs') as (HN & HH & _).
  set (c2 := set_recents (<[sn_Hash s' := s']> (recents c1)) c1).
  assert (Hc2 : engine_ok c2).
  { destruct Hc1. split; try done. cbn. rewrite HH.
    exact (cached_ok_insert _ _ _ _ _ en_recents0 Hs' HW Hn). }
  assert (Huniq : ∀ s, Ok s' = Ok s ↔ is_snapshot n hash s).
  { intros s. split; [by intros <-%Ok_inj|]. intros Hs. f_equal. by eapply is_snapshot_det. }
  unfold modify, mret, eng_ret. cbn beta iota. fold c2.
  destruct ((sn_Number s' mod checkpointInterval =? 0) && (0 <? zlen path)).
  - destruct (store_ok c2 n hash h s') as (c3 & Hst & Hc3); [done..|].
    rewrite Hst. by exists (Ok s'), c3.
  - by exists (Ok s'), c2.
Qed.
End History.

(** ** The recently-signed rule, three times

    The rule is written in [apply], in [verifySeal] and in [Seal]. *)

Lemma existsb_map_to_list (f : Z → Address → bool) (m : gmap Z Address) :
  existsb (fun '(k, a) => f k a) (map_to_list m) = true ↔
  ∃ k a, m !! k = Some a ∧ f k a = true.
Proof.
  rewrite existsb_exists. split.
  - intros ([k a] & Hin & Hf). exists k, a. split; [|done].
    by apply elem_of_map_to_list, list_elem_of_In.
  - intros (k & a & Hk & Hf). exists (k, a). split; [|done].
    by apply list_elem_of_In, elem_of_map_to_list.
Qed.

(** The entries left when block [number] is sealed. *)
Lemma recently_shift_spec n s a :
  recents_ok n s →
  recently a (Recents (shift_recents (n + 1) s)) = true ↔
  ∃ k, Recents s !! k = Some a ∧ (limit s ≤ n + 1 → n + 1 - limit s < k).
Proof.
  intros Hr. rewrite recently_spec. unfold shift_recents.
  destruct (Z.leb_spec (limit s) (n + 1)); cbn [Recents with_Recents].
  - setoid_rewrite lookup_delete_Some. split.
    + intros (k & Hne & Hk). exists k. split; [done|]. apply Hr in Hk. lia.
    + intros (k & Hk & Hlt). exists k. split; [|done]. specialize (Hlt H). lia.
  - split; intros (k & Hk); exists k; [split; [done|lia]|by destruct Hk].
Qed.

Lemma must_wait_recently n s a :
  recents_ok n s → 0 ≤ n → n + 1 < two64 →
  must_wait s (n + 1) a = recently a (Recents (shift_recents (n + 1) s)).
Proof.
  intros Hr H0 Hb. apply eq_true_iff_eq. rewrite recently_shift_spec by done.
  unfold must_wait. rewrite existsb_map_to_list. pose proof (limit_pos s).
  split.
  - intros (k & a' & Hk & E). apply andb_true_iff in E as [E1 E2]. bprop. subst a'.
    exists k. split; [done|]. intros Hl. rewrite sub64_small in E2 by (unfold is_u64; lia).
    apply orb_true_iff in E2 as [E2|E2]; bprop; lia.
  - intros (k & Hk & Hlt). exists k, a. split; [done|]. rewrite Z.eqb_refl. cbn [andb].
    destruct (Z.ltb_spec (n + 1) (limit s)); [done|]. cbn [orb].
    rewrite sub64_small by (unfold is_u64; lia). apply Z.ltb_lt. by apply Hlt.
Qed.

Lemma seal_blocked_recently n s a :
  recents_ok n s → 0 ≤ n → n + 1 < two64 → limit s ≤ n + 1 →
  seal_blocked s (n + 1) a = recently a (Recents (shift_recents (n + 1) s)).
Proof.
  intros Hr H0 Hb Hl. rewrite <- must_wait_recently by done.
  unfold seal_blocked, must_wait.
  by replace (n + 1 <? limit s) with false by (symmetry; by apply Z.ltb_ge).
Qed.

(** The turn of a sealer and the difficulty it has to use. *)
Definition turn_difficulty (b : bool) : Z := if b then diffInTurn else diffNoTurn.

Lemma check_turn_ok b d : check_turn b d = Ok tt ↔ d = turn_difficulty b.
Proof.
  unfold check_turn, turn_difficulty, diffInTurn, diffNoTurn.
  destruct b; cbn; destruct (Z.eqb_spec d 2), (Z.eqb_spec d 1); cbn; split; intros;
    try done; lia.
Qed.

Definition right_difficulty `{Crypto} (s : Snapshot) (number : Z) (h : Header) : Prop :=
  ∃ a b, ecrecover h = Ok a ∧ inturn s number a = Ok b ∧
         Difficulty h = Some (turn_difficulty b).

Lemma apply_header_accepts `{Crypto} n s h :
  NumberU64 h = Ok (n + 1) → Epoch (config s) ≠ 0 →
  isBreakGlassExtra (Extra h) = false → is_ok (vote_of (Nonce h)) = true →
  is_ok (apply_header s h) = true ↔
  ∃ a, ecrecover h = Ok a ∧ a ∈ Signers s ∧
       recently a (Recents (shift_recents (n + 1) s)) = false.
Proof.
  intros Hn He Hx Hnonce. unfold apply_header. rewrite Hn. cbn [mbind result_bind].
  destruct (plain_seal_state (n + 1) s h Hn He Hx) as (s1 & Hb & HS & HR).
  rewrite Hb. cbn [mbind result_bind].
  destruct (ecrecover h) as [a| |]; cbn [mbind result_bind];
    [|split; [done|intros (? & ? & _); done]..].
  rewrite HS, HR. case_bool_decide as Hin; cbn [negb fail_if mbind result_bind].
  - destruct (recently a _) eqn:Hrec; cbn [negb andb fail_if mbind result_bind].
    + split; [done|]. intros (a' & [= <-] & _ & Hc). congruence.
    + destruct (vote_of (Nonce h)); [|done..]. split; [|done]. intros _. by exists a.
  - split; [done|]. by intros (a' & [= <-] & Hc & _).
Qed.

Lemma verifySeal_agrees `{Crypto} n s h :
  recents_ok n s → next_header n h → Epoch (config s) ≠ 0 →
  isBreakGlassExtra (Extra h) = false → is_ok (vote_of (Nonce h)) = true →
  limit s ≤ n + 1 →
  verifySeal false s h = Ok tt ↔
  is_ok (apply_header s h) = true ∧ right_difficulty s (n + 1) h.
Proof.
  intros Hr (Hn & H0 & Hb & _) He Hx Hnonce Hl.
  rewrite (apply_header_accepts n) by done.
  unfold verifySeal, right_difficulty. rewrite Hn. cbn [mbind result_bind].
  replace (n + 1 =? 0) with false by (symmetry; apply Z.eqb_neq; lia).
  cbn [fail_if mbind result_bind].
  destruct (ecrecover h) as [a| |]; cbn [mbind result_bind];
    [|split; [done|by intros [(? & ? & _) _]]..].
  rewrite (seal_blocked_recently n) by (done || lia).
  case_bool_decide as Hin; cbn [negb fail_if mbind result_bind];
    [|split; [done|by intros [(a' & [= <-] & ? & _) _]]].
  destruct (recently a _) eqn:Hrec; cbn [fail_if mbind result_bind];
    [split; [done|intros [(a' & [= <-] & _ & ?) _]; congruence]|].
  destruct (inturn s (n + 1) a) as [b| |] eqn:Hturn; cbn [mbind result_bind];
    [|split; [done|intros [_ (a' & b & [= <-] & ? & _)]; congruence]..].
  destruct (Difficulty h) as [d|] eqn:Hd; cbn [deref mbind result_bind];
    [|split; [done|by intros [_ (? & ? & _ & _ & ?)]]].
  rewrite check_turn_ok. split.
  - intros ->. split; [by exists a|]. by exists a, b.
  - intros [_ (a' & b' & [= <-] & Hb' & [= ->])]. congruence.
Qed.

(** ** Accepted headers *)

(** What the standalone checks leave for the sealing rules. *)
Lemma verify_standalone_facts `{Crypto} chain epoch now h :
  verify_standalone chain epoch now h = Ok tt →
  is_ok (vote_of (Nonce h)) = true ∧
  (isBreakGlassExtra (Extra h) = true → Coinbase h = 0 ∧ Nonce h = nonceDropVote) ∧
  UncleHash h = EmptyUncleHash ∧ MixDigest h = 0 ∧ Time h ≤ now.
Proof.
  unfold verify_standalone. intros E.
  apply bind_ok in E as (number & _ & E).
  apply bind_ok in E as (? & Ht%fail_if_ok & E).
  apply bind_ok in E as (r & _ & E). cbn zeta in E.
  apply bind_ok in E as (? & _ & E).
  apply bind_ok in E as (? & Hv%fail_if_ok & E).
  do 5 apply bind_ok in E as (? & _ & E).
  apply bind_ok in E as (? & Hbg%fail_if_ok & E).
  apply bind_ok in E as (? & Hm%fail_if_ok & E).
  apply bind_ok in E as (? & Hu%fail_if_ok & _). bprop.
  split; [|split; [|done]].
  - unfold vote_of. apply andb_false_iff in Hv as [Hv|Hv]; bprop; rewrite Hv; [done|].
    by case_match.
  - intros Hx. rewrite Hx in Hbg. cbn [andb] in Hbg. bprop. done.
Qed.

Lemma apply_single `{Crypto} s h n :
  sn_Number s = n → next_header n h → is_ok (apply_header s h) = true →
  ∃ s', apply s [h] = Ok s'.
Proof.
  intros <- Hn Hok. destruct (apply_header s h) as [s1| |] eqn:E; [|done..].
  eexists. apply (apply_of_headers s h [] s1).
  - by destruct Hn as (_ & ? & _).
  - by split.
  - cbn. by rewrite E.
Qed.

(** A break-glass block that passes verification is applied. *)
Lemma break_glass_accepted `{Crypto} fake s h n o c c' :
  NumberU64 h = Ok n → Epoch (config s) ≠ 0 → breakGlass s = cq_breakGlass c →
  isBreakGlassExtra (Extra h) = true → Coinbase h = 0 → Nonce h = nonceDropVote →
  breakGlassOverride h c = (Ok o, c') →
  verifyBreakGlassSeal fake h (default [] o) = Ok tt →
  is_ok (apply_header s h) = true.
Proof.
  intros Hn He Hbg Hx Hc Hnc Ho Hseal. unfold breakGlassOverride in Ho.
  injection Ho as Ho _. rewrite <- Hbg in Ho.
  unfold verifyBreakGlassSeal in Hseal. apply bind_ok in Hseal as (signer & Hs & E).
  apply bind_ok in E as (? & Hin%fail_if_ok & _). bprop.
  destruct o as [l|]; [|done]. cbn [default from_option id] in Hin.
  apply containsAddress_In in Hin.
  destruct (override_apply s h n l signer) as (s1 & _ & _ & _ & ->); [done..|].
  by rewrite bool_decide_true.
Qed.

Section Accept.
Context `{Crypto} (W : Hash → option Header) (cfg : CliqueConfig)
  (bg : option BreakGlassConfig) (b : Bootstrap) (Hknown : known_ok W b).

(** What [verifyHeader] relies on when it is given a header on top of the
    known block (n, parent). *)
Record verify_ctx (chain : ChainReader) (base F : Z) (c : Clique) (n : Z) (h : Header)
  (ps : list Header) : Prop := {
  vc_engine : engine_ok W cfg bg b c;
  vc_real : fakeDiff c = false;
  vc_reader : reader_ok W b chain base;
  vc_floor : floor_ok W b c F ∧ F ≤ n ∧ n - F ≤ FullImmutabilityThreshold;
  vc_next : next_header n h;
  vc_parent : ∃ p, W (ParentHash h) = Some p ∧ NumberU64 p = Ok n;
  vc_batch : batch W n (ParentHash h) ps ∧ n - zlen ps ≤ base;
  vc_limit : ∀ s, is_snapshot W cfg bg b n (ParentHash h) s → limit s ≤ n + 1
}.

Lemma verifyCascading_extends chain base F c n h ps c' :
  verify_ctx chain base F c n h ps →
  is_ok (vote_of (Nonce h)) = true →
  (isBreakGlassExtra (Extra h) = true → Coinbase h = 0 ∧ Nonce h = nonceDropVote) →
  verifyCascadingFields chain h ps c = (Ok tt, c') →
  engine_ok W cfg bg b c' ∧
  ∃ s s', is_snapshot W cfg bg b n (ParentHash h) s ∧ apply s [h] = Ok s' ∧
    (isBreakGlassExtra (Extra h) = false → right_difficulty s (n + 1) h).
Proof.
  intros [Hc Hreal Hrd (Hf & HFn & Hg) Hnext (p & HWp & Hnp) [Hb Hbase] Hlim] Hvote Hbgv E.
  assert (Hnext' := Hnext). destruct Hnext' as (Hn & H0 & Hn64 & _).
  destruct (snapshot_spec W cfg bg b Hknown chain base F c n (ParentHash h) p ps)
    as (r & c1 & Hsnap & Hc1 & Hr); [done..|].
  unfold verifyCascadingFields, mbind, eng_bind, lift, get in E. rewrite Hn in E.
  replace (n + 1 =? 0) with false in E by (symmetry; apply Z.eqb_neq; lia).
  destruct (find_parent chain h (n + 1) ps) as [q| |]; [|done..].
  destruct (verify_parent chain _ h q); [|done..].
  rewrite sub64_small in E by (unfold is_u64; lia).
  replace (n + 1 - 1) with n in E by lia. rewrite Hsnap in E.
  destruct r as [s| |]; [|done..].
  assert (Hs : is_snapshot W cfg bg b n (ParentHash h) s) by by apply Hr.
  destruct (is_snapshot_facts W cfg bg b Hknown _ _ _ Hs) as (HN & _ & HC & HB & Hok & Hrec).
  assert (He : Epoch (config s) ≠ 0) by (rewrite HC; apply (en_epoch _ _ _ _ _ Hc)).
  assert (Haccept : is_ok (apply_header s h) = true ∧ c' = c1 ∧
            (isBreakGlassExtra (Extra h) = false → right_difficulty s (n + 1) h)).
  { destruct (isBreakGlassExtra (Extra h)) eqn:Hx.
    - destruct (breakGlassOverride h c1) as [[o| |] c2] eqn:Ho; [|done..].
      injection E as Hseal <-. destruct (Hbgv eq_refl) as [Hcb Hno].
      split; [|split; [by unfold breakGlassOverride in Ho; injection Ho|done]].
      eapply (break_glass_accepted _ s h (n + 1) o c1 c2); try done.
      rewrite HB. symmetry. apply (en_bg _ _ _ _ _ Hc1).
    - destruct (mod64 (n + 1) _); [|done..]. destruct (fail_if _ _); [|done..].
      injection E as Hseal <-. rewrite Hreal in Hseal.
      apply (verifySeal_agrees n) in Hseal as [? ?]; try done. by apply Hlim. }
  destruct Haccept as (Hacc & -> & Hdiff). split; [done|].
  destruct (apply_single s h n HN Hnext Hacc) as [s' Hs']. by exists s, s'.
Qed.
End Accept.

(** ** Sealing *)

(** A signing function for [signer]: what it returns is a 65-byte signature of
    the Keccak-256 hash of the data, and recovers to the signer (the contract
    of the wallet's SignData). *)
Definition signs_for `{Crypto} (f : bytes → result bytes) (signer : Address) : Prop :=
  ∀ data sig, f data = Ok sig → length sig = SignatureLength ∧
    ∃ pub, RecoverPubkey (hash_bytes (keccak256 data)) sig = Some pub ∧
           pubkeyToAddress pub = signer.

Lemma put_seal_length extra sig :
  (extraSeal ≤ length extra)%nat → length sig = SignatureLength →
  put_seal extra sig = take (length extra - extraSeal) extra ++ sig ∧
  length (put_seal extra sig) = length extra.
Proof.
  intros Hx Hs. unfold put_seal. rewrite (take_ge sig) by (rewrite Hs; done).
  rewrite (drop_ge (drop _ extra)) by (rewrite length_drop, Hs; unfold extraSeal in *; lia).
  rewrite app_nil_r. split; [done|]. rewrite length_app, length_take, Hs.
  unfold extraSeal in *. lia.
Qed.

Lemma sealed_ecrecover `{Crypto} h f signer data sig :
  signs_for f signer → encodeSigHeader h = Ok data → f data = Ok sig →
  ecrecover (set_Extra h (put_seal (Extra h) sig)) = Ok signer.
Proof.
  intros Hf Hd Hsig. destruct (Hf _ _ Hsig) as (Hlen & pub & Hrec & Hpub).
  assert (Hx : (SignatureLength ≤ length (Extra h))%nat).
  { unfold encodeSigHeader in Hd.
    destruct (length (Extra h) <? SignatureLength)%nat eqn:Hlt; [done|].
    by apply Nat.ltb_ge in Hlt. }
  destruct (put_seal_length (Extra h) sig) as [Hput Hputlen]; [done..|].
  assert (Hsame : encodeSigHeader (set_Extra h (put_seal (Extra h) sig)) = encodeSigHeader h).
  { unfold encodeSigHeader. cbn [Extra set_Extra]. rewrite Hputlen, Hput.
    rewrite take_app_length' by (rewrite length_take; unfold extraSeal; lia). done. }
  unfold ecrecover, SealHash. rewrite Hsame, Hd. cbn [Extra set_Extra].
  rewrite Hputlen. replace (length (Extra h) <? extraSeal)%nat with false
    by (symmetry; by apply Nat.ltb_ge). cbn [mbind result_bind].
  rewrite Hput, drop_app_length' by (rewrite length_take; unfold extraSeal; lia).
  unfold Ecrecover. rewrite Hrec. cbn. by rewrite Hpub.
Qed.

Lemma calcDifficulty_right `{Crypto} n s h signer d :
  sn_Number s = n → 0 ≤ n → n + 1 < two64 → calcDifficulty s signer = Ok d →
  ecrecover h = Ok signer → Difficulty h = Some d → right_difficulty s (n + 1) h.
Proof.
  intros HN H0 Hb Hd Hs Hdiff. unfold calcDifficulty in Hd.
  rewrite HN, add64_small in Hd by (unfold is_u64; lia).
  apply bind_ok in Hd as (b & Hb' & Hd). apply Ok_inj in Hd as <-. by exists signer, b.
Qed.

(** The checks of [Seal] on a plain block, and what it returns. *)
Lemma Seal_inv `{Crypto} chain now_ms w block c n hs delay c' :
  NumberU64 (blk_header block) = Ok (n + 1) → 0 ≤ n → n + 1 < two64 →
  isBreakGlassExtra (Extra (blk_header block)) = false →
  Clique_Seal chain now_ms w block c = (Ok (hs, delay), c') →
  ∃ s data sig, snapshot chain n (ParentHash (blk_header block)) [] c = (Ok s, c') ∧
    cq_signer c ∈ Signers s ∧ must_wait s (n + 1) (cq_signer c) = false ∧
    encodeSigHeader (CopyHeader (blk_header block)) = Ok data ∧ signFn c data = Ok sig ∧
    hs = set_Extra (CopyHeader (blk_header block))
           (put_seal (Extra (blk_header block)) sig).
Proof.
  intros Hn H0 Hb Hx E. unfold Clique_Seal, mbind, eng_bind, lift, get in E.
  assert (Hn' : NumberU64 (CopyHeader (blk_header block)) = Ok (n + 1)).
  { unfold NumberU64 in *. cbn [CopyHeader Number].
    destruct (Number (blk_header block)); [exact Hn|discriminate Hn]. }
  rewrite Hn' in E. replace (n + 1 =? 0) with false in E by (symmetry; apply Z.eqb_neq; lia).
  cbn [fail_if] in E. destruct (_ && _); [done|]. cbn [fail_if] in E.
  rewrite sub64_small in E by (unfold is_u64; lia).
  replace (n + 1 - 1) with n in E by lia.
  cbn [CopyHeader ParentHash Extra] in E.
  destruct (snapshot chain n (ParentHash (blk_header block)) [] c) as [[s| |] c1]; [|done..].
  rewrite Hx in E. case_bool_decide as Hin; [|done]. cbn [negb fail_if] in E.
  destruct (must_wait s (n + 1) (cq_signer c)) eqn:Hw; [done|]. cbn [fail_if] in E.
  destruct (seal_delay s _ now_ms w) as [dl| |]; [|done..].
  unfold CliqueRLP in E.
  destruct (encodeSigHeader (CopyHeader (blk_header block))) as [data| |] eqn:Hd; [|done..].
  destruct (signFn c data) as [sig| |] eqn:Hsig; [|done..].
  injection E as <- _ <-. by exists s, data, sig.
Qed.

(** ** Preparing a header *)

(** The header [Prepare] returns, when no override is embedded. *)
Lemma Prepare_inv `{Crypto} chain now pick h c n h' c' :
  NumberU64 h = Ok (n + 1) → 0 ≤ n → n + 1 < two64 →
  (∀ c1 s, snapshot chain n (ParentHash h) [] c = (Ok s, c1) → bgPending c1 = None) →
  Clique_Prepare chain now pick h c = (Ok h', c') →
  ∃ s c1 d parent vote,
    snapshot chain n (ParentHash h) [] c = (Ok s, c1) ∧
    calcDifficulty s (cq_signer c1) = Ok d ∧
    GetHeader chain (ParentHash h) n = Some parent ∧
    let epoch := (n + 1) mod Epoch (cq_config c1) =? 0 in
    vote = (if epoch then None else pick_vote s (proposals c1) pick) ∧
    Difficulty h' = Some d ∧ Number h' = Number h ∧ ParentHash h' = ParentHash h ∧
    Time h' = Z.max (add64 (Time parent) (Period (cq_config c1))) now ∧
    MixDigest h' = 0 ∧ UncleHash h' = UncleHash h ∧ GasLimit h' = GasLimit h ∧
    Extra h' = prepare_extra (Extra h)
                 (if epoch then concat (map address_bytes (signers s)) else []) ∧
    Coinbase h' = default 0 (fst <$> vote) ∧
    Nonce h' = match vote with Some (_, true) => nonceAuthVote | _ => nonceDropVote end.
Proof.
  intros Hn H0 Hb Hpend E. unfold Clique_Prepare, mbind, eng_bind, lift, get in E.
  assert (Hn' : NumberU64 (set_Nonce (set_Coinbase h 0) 0) = Ok (n + 1)) by exact Hn.
  rewrite Hn' in E. rewrite sub64_small in E by (unfold is_u64; lia).
  replace (n + 1 - 1) with n in E by lia.
  cbn [ParentHash set_Nonce set_Coinbase] in E.
  destruct (snapshot chain n (ParentHash h) [] c) as [[s| |] c1] eqn:Hs; [|done..].
  rewrite (Hpend c1 s eq_refl) in E. unfold mod64 in E.
  destruct (Epoch (cq_config c1) =? 0); [done|].
  destruct (calcDifficulty s (cq_signer c1)) as [d| |] eqn:Hd; [|done..].
  exists s, c1, d. unfold mret, eng_ret in E.
  destruct ((n + 1) mod Epoch (cq_config c1) =? 0); cbn [negb andb] in E.
  - cbn in E. destruct (GetHeader chain (ParentHash h) n) as [parent|]; [|done].
    injection E as <- <-. exists parent, None. by repeat (split; [reflexivity|]).
  - destruct (pick_vote s (proposals c1) pick) as [[a [|]]|]; cbn in E;
      (destruct (GetHeader chain (ParentHash h) n) as [parent|]; [|done]);
      injection E as <- <-; exists parent; eexists; by repeat (split; [reflexivity|]).
Qed.

(** ** A small concrete chain for the witnesses *)

Module Demo.
#[export] Existing Instance inj_crypto.

Definition vanity : bytes := replicate 32 Byte.x00.

Definition parent : Header :=
  MkHeader 0 EmptyUncleHash 0 0 0 0 0 (Some 2) (Some 10) 30000000 15000000 100
    (vanity ++ toy_seal 2) 0 0 (Some 1000).
Definition unsealed : Header :=
  MkHeader (Header_Hash parent) EmptyUncleHash 0 0 0 0 0 (Some 2) (Some 11) 30000000 0 107
    (vanity ++ replicate 65 Byte.x00) 0 0 (Some 1000).
Definition next : Header := set_Extra unsealed (vanity ++ toy_seal 3).

Definition boot : Bootstrap := MkBootstrap 10 [1; 2; 3].

Definition london : ChainConfig :=
  MkChainConfig (Some 9101) (Some 0) None false (Some 0) 0 (Some 0) (Some 0) (Some 0) (Some 0)
    (Some 0) (Some 0) None (Some 0) (Some 0) None None None None None None None.

(** The known headers, and a chain that holds exactly them. *)
Definition known (l : list Header) (hash : Hash) : option Header :=
  List.find (fun h => Header_Hash h =? hash) l.

Definition chain_of (l : list Header) : ChainReader :=
  MkChain london parent
    (fun hash n => h ← known l hash;
                   if bool_decide (NumberU64 h = Ok n) then Some h else None)
    (fun n => List.find (fun h => bool_decide (NumberU64 h = Ok n)) l)
    (known l).

Definition engine : Clique :=
  MkClique toy_config ∅ None ∅ {[9 := true]} 3 (fun _ => Ok (toy_seal 3)) (Some boot) None None
    false.

Lemma known_in l hash h : known l hash = Some h → In h l ∧ Header_Hash h = hash.
Proof.
  intros E. apply List.find_some in E as [Hin E]. by bprop.
Qed.

Definition both : list Header := [parent; next].

(** The demo headers, by cases. *)
Ltac two_headers Hin :=
  destruct Hin as [<-|[<-|[]]].

Lemma both_number h n : In h both → NumberU64 h = Ok n → n = 10 ∨ n = 11.
Proof. intros Hin E. two_headers Hin; vm_compute in E; apply Ok_inj in E; lia. Qed.

Lemma known_both : known_ok (known both) boot.
Proof.
  split.
  - vm_compute. discriminate.
  - intros hash h E. apply known_in in E as [_ E]. exact E.
  - intros hash h n E Hn Hlt. apply known_in in E as [Hin _].
    two_headers Hin; vm_compute in Hn; apply Ok_inj in Hn; subst n.
    + vm_compute in Hlt. discriminate Hlt.
    + exists parent. split; vm_compute; reflexivity.
  - intros hash h n E Hn. apply known_in in E as [Hin _].
    two_headers Hin; vm_compute in Hn; apply Ok_inj in Hn; subst n; split; vm_compute; reflexivity.
Qed.

Lemma reader_both base : reader_ok (known both) boot (chain_of both) base.
Proof.
  split.
  - intros hash n h. cbn [GetHeader chain_of]. destruct (known both hash); [|discriminate].
    cbn. case_bool_decide; [|discriminate]. by intros [= <-].
  - intros hash n h HW Hn _. cbn [GetHeader chain_of]. rewrite HW. cbn.
    by rewrite bool_decide_true.
  - intros n Hn Hnone. cbn [GetHeaderByNumber chain_of] in *.
    destruct (List.find _ both) as [h|] eqn:E at 1; [|reflexivity].
    apply List.find_some in E as [Hin E]. bprop.
    destruct (both_number h n Hin E) as [->| ->]; [vm_compute in Hn; discriminate Hn|].
    vm_compute in Hnone. discriminate Hnone.
Qed.

Lemma engine_sound W : engine_ok W toy_config None boot engine.
Proof. split; try reflexivity; try discriminate; intros hash s E; discriminate E. Qed.

Lemma engine_floor W : floor_ok W boot engine 10.
Proof. split; [vm_compute; discriminate|]. by left. Qed.

Lemma signs_for_three : signs_for (signFn engine) 3.
Proof.
  intros data sig E. apply Ok_inj in E as <-. split; [reflexivity|].
  exists (toy_seal 3). split; [reflexivity|]. vm_compute. reflexivity.
Qed.

Definition base_snapshot : Snapshot := newSnapshot toy_config None 10 (Header_Hash parent) [1; 2; 3].

Lemma base_is_snapshot W : is_snapshot W toy_config None boot 10 (Header_Hash parent) base_snapshot.
Proof. exact (snap_seed W toy_config None boot (Header_Hash parent)). Qed.

Lemma next_ok : next_header 10 next.
Proof. split; [reflexivity|]. split; [lia|]. split; vm_compute; reflexivity. Qed.
End Demo.

(** The seal slot does not touch the payload. *)
Lemma put_seal_break_glass extra sig :
  (extraSeal ≤ length extra)%nat → length sig = SignatureLength →
  isBreakGlassExtra (put_seal extra sig) = isBreakGlassExtra extra.
Proof.
  intros Hx Hs. destruct (put_seal_length extra sig Hx Hs) as [Hput Hlen].
  unfold isBreakGlassExtra. rewrite Hlen.
  destruct (_ <? _)%nat eqn:Hlt; [done|]. apply Nat.ltb_ge in Hlt.
  replace (extra_payload (put_seal extra sig)) with (extra_payload extra); [done|].
  unfold extra_payload. rewrite Hlen, Hput.
  unfold extraVanity, extraSeal, SignatureLength, breakGlassMinPayload, AddressLength in *.
  rewrite drop_app_le by (rewrite length_take; lia).
  rewrite skipn_firstn_comm, take_app_le by (rewrite length_take, length_drop; lia).
  by rewrite take_take, Nat.min_id.
Qed.

(** The header [Seal] returns, seen by the verifiers. *)
Lemma sealed_header `{Crypto} n h f signer data sig :
  next_header n h → signs_for f signer →
  encodeSigHeader (CopyHeader h) = Ok data → f data = Ok sig →
  let hs := set_Extra (CopyHeader h) (put_seal (Extra h) sig) in
  ecrecover hs = Ok signer ∧ next_header n hs ∧
  isBreakGlassExtra (Extra hs) = isBreakGlassExtra (Extra h) ∧
  Nonce hs = Nonce h ∧ Difficulty hs = Some (default 0 (Difficulty h)).
Proof.
  intros (Hn & H0 & Hb & Hxl) Hsf Hdata Hsig hs. destruct (Hsf _ _ Hsig) as (Hlen & _).
  assert (Hx : (extraSeal ≤ length (Extra h))%nat).
  { unfold encodeSigHeader in Hdata. cbn [CopyHeader Extra] in Hdata.
    destruct (length (Extra h) <? SignatureLength)%nat eqn:Hlt; [done|].
    by apply Nat.ltb_ge in Hlt. }
  destruct (put_seal_length (Extra h) sig Hx Hlen) as [_ Hputlen].
  split; [exact (sealed_ecrecover (CopyHeader h) f signer data sig Hsf Hdata Hsig)|].
  split; [|split; [by apply put_seal_break_glass|done]].
  split; [|unfold zlen in *; cbn [hs set_Extra Extra]; by rewrite Hputlen].
  unfold NumberU64 in *. cbn [hs set_Extra CopyHeader Number].
  destruct (Number h); [exact Hn|discriminate Hn].
Qed.

(** ** Properties *)

(** C1: [snapshot] computes the authority history. On a bootstrapped engine with
    sound caches, for a known block above a height whose snapshots can be found
    (at most the immutability threshold below), the search loop ends within its
    fuel and the call returns a snapshot exactly when the block has one in the
    history, and that one: the caches, the database and the explicit parents
    never change the answer. The caches stay sound. *)
Theorem snapshot_refines_history `{Crypto} W cfg bg b chain base F c n hash h ps :
  known_ok W b → reader_ok W b chain base → engine_ok W cfg bg b c → floor_ok W b c F →
  W hash = Some h → NumberU64 h = Ok n → F ≤ n → n - F ≤ FullImmutabilityThreshold →
  batch W n hash ps → n - zlen ps ≤ base →
  is_ok (fst (snapshot_loop (snapshot_fuel n) chain n hash ps [] c)) = true ∧
  ∃ r c', snapshot chain n hash ps c = (r, c') ∧ engine_ok W cfg bg b c' ∧
    (∀ s, r = Ok s ↔ is_snapshot W cfg bg b n hash s).
Proof.
  intros Hk Hrd Hc Hf HW Hn HF Hg Hb Hbase. split; [|by eapply snapshot_spec].
  destruct (snapshot_loop_ok W cfg bg b Hk chain base F (snapshot_fuel n) Hrd n hash h ps [] c)
    as (k & hk & s & path & c' & -> & _); try done.
  pose proof (kn_anchor _ _ Hk). unfold snapshot_fuel. destruct Hf. lia.
Qed.

Lemma snapshot_refines_history_witness :
  ∃ r c', snapshot (H := inj_crypto) (Demo.chain_of Demo.both) 11
            (Header_Hash (H := inj_crypto) Demo.next) [] Demo.engine = (r, c') ∧
    ∀ s, r = Ok s ↔ is_snapshot (H := inj_crypto) (Demo.known Demo.both) toy_config None
                      Demo.boot 11 (Header_Hash (H := inj_crypto) Demo.next) s.
Proof.
  destruct (snapshot_refines_history (H := inj_crypto) (Demo.known Demo.both) toy_config None
    Demo.boot (Demo.chain_of Demo.both) 11 10 Demo.engine 11
    (Header_Hash (H := inj_crypto) Demo.next) Demo.next []) as (_ & r & c' & E & _ & Hr).
  - exact Demo.known_both.
  - apply Demo.reader_both.
  - apply Demo.engine_sound.
  - apply Demo.engine_floor.
  - vm_compute. reflexivity.
  - reflexivity.
  - lia.
  - vm_compute. discriminate.
  - constructor.
  - vm_compute. discriminate.
  - exists r, c'. split; assumption.
Defined.

(** C23: a header the engine accepts extends the authority history, at heights at
    least the window length. If [verifyHeader] accepts a header on top of a known
    block, then that block has a snapshot and [apply] accepts the header on it, so
    the new block has one too; and unless it is an owner override its difficulty
    is that of its sealer's turn. [verify_ctx] says when: the height is at least
    the parent's window, len/2+1 (below it the code's uint64 subtraction wraps and
    the conclusion fails, C38); the engine checks difficulties (fakeDiff is off,
    as it is outside tests); its cache and database hold snapshots of this
    history, one of them on the way down to at most 90000 blocks below the parent;
    the reader knows the canonical headers and [parents] the rest. *)
Theorem verifyHeader_extends_history `{Crypto} W cfg bg b chain base F c n h ps now c' :
  known_ok W b → verify_ctx W cfg bg b chain base F c n h ps →
  verifyHeader chain now h ps c = (Ok tt, c') →
  engine_ok W cfg bg b c' ∧
  ∃ s s', is_snapshot W cfg bg b n (ParentHash h) s ∧ apply s [h] = Ok s' ∧
    (isBreakGlassExtra (Extra h) = false → right_difficulty s (n + 1) h).
Proof.
  intros Hk Hctx E. unfold verifyHeader, mbind, eng_bind, lift, get in E.
  destruct (verify_standalone chain _ now h) as [[]| |] eqn:Hs; [|done..].
  destruct (verify_standalone_facts _ _ _ _ Hs) as (Hv & Hbg & _).
  by eapply (verifyCascading_extends W cfg bg b Hk chain base F c n h ps).
Qed.

Lemma demo_ctx :
  verify_ctx (H := inj_crypto) (Demo.known Demo.both) toy_config None Demo.boot
    (Demo.chain_of Demo.both) 11 10 Demo.engine 10 Demo.next [].
Proof.
  split.
  - apply Demo.engine_sound.
  - reflexivity.
  - apply Demo.reader_both.
  - split; [apply Demo.engine_floor|]. split; vm_compute; discriminate.
  - exact Demo.next_ok.
  - exists Demo.parent. split; vm_compute; reflexivity.
  - split; [constructor|]. vm_compute. discriminate.
  - intros s Hs. rewrite (is_snapshot_det (H := inj_crypto) _ _ _ _ _ _ _ _ Hs
      (Demo.base_is_snapshot _)). vm_compute. discriminate.
Qed.

Lemma demo_accepted :
  ∃ c', verifyHeader (H := inj_crypto) (Demo.chain_of Demo.both) 200 Demo.next [] Demo.engine
        = (Ok tt, c').
Proof.
  destruct (verifyHeader _ _ _ _ _) as [r c'] eqn:E. exists c'.
  assert (Hr : is_ok (fst (verifyHeader (H := inj_crypto) (Demo.chain_of Demo.both) 200 Demo.next []
            Demo.engine)) = true) by (vm_compute; reflexivity).
  rewrite E in Hr. by destruct r as [[]| |].
Qed.

Lemma verifyHeader_extends_history_witness :
  ∃ s s', apply (H := inj_crypto) s [Demo.next] = Ok s'.
Proof.
  destruct demo_accepted as [c' Hacc].
  destruct (verifyHeader_extends_history (H := inj_crypto) (Demo.known Demo.both) toy_config None
    Demo.boot (Demo.chain_of Demo.both) 11 10 Demo.engine 10 Demo.next [] 200 c'
    Demo.known_both demo_ctx Hacc) as (_ & s & s' & _ & E & _).
  exists s, s'. exact E.
Defined.

(** C21: the two readings of the recently-signed rule agree. At a height of at
    least the window length, [verifySeal] accepts a plain header exactly when
    [apply] does and its difficulty is that of its sealer's turn. *)
Theorem verifySeal_iff_apply `{Crypto} n s h :
  recents_ok n s → next_header n h → Epoch (config s) ≠ 0 →
  isBreakGlassExtra (Extra h) = false → is_ok (vote_of (Nonce h)) = true →
  limit s ≤ n + 1 →
  verifySeal false s h = Ok tt ↔
  is_ok (apply_header s h) = true ∧ right_difficulty s (n + 1) h.
Proof. apply verifySeal_agrees. Qed.

Lemma verifySeal_iff_apply_witness :
  is_ok (apply_header (H := inj_crypto) Demo.base_snapshot Demo.next) = true.
Proof.
  apply (verifySeal_iff_apply (H := inj_crypto) 10 Demo.base_snapshot Demo.next).
  - apply newSnapshot_ok.
  - exact Demo.next_ok.
  - discriminate.
  - vm_compute. reflexivity.
  - reflexivity.
  - vm_compute. discriminate.
  - vm_compute. reflexivity.
Defined.

(** Four signers, block 1 sealed by signer 2, which is about to seal block 2. *)
Definition early_snapshot : Snapshot :=
  with_Recents (fun _ => {[1 := 2]}) (newSnapshot toy_config None 1 0 [1; 2; 3; 4]).

Definition early_header : Header :=
  set_Difficulty (toy_header 2 0 0 nonceDropVote [] 2) (Some 1).

(** C38: below the window length they do not agree: verifySeal computes
    [number-limit] on uint64, which wraps, so with four signers it accepts block
    2 sealed by the sealer of block 1, a header [apply] then rejects with
    errRecentlySigned and [Seal] would not have produced. *)
Theorem verifySeal_accepts_recent_sealer_early :
  snap_ok 1 early_snapshot ∧
  verifySeal (H := toy_crypto) false early_snapshot early_header = Ok tt ∧
  apply_header (H := toy_crypto) early_snapshot early_header = Err errRecentlySigned ∧
  must_wait early_snapshot 2 2 = true.
Proof.
  split; [|vm_compute; repeat split; reflexivity].
  split; [apply voting_ok_empty|]. intros k a Hk. cbn in Hk.
  apply lookup_singleton_Some in Hk as [<- <-].
  change (limit early_snapshot) with 3. lia.
Qed.

(** C30: what a sealer seals, others accept. If [Seal] returns a sealed plain
    header whose difficulty is the one [Prepare] computes, and the signing
    function signs for the engine's address, then on the snapshot of the parent
    [verifySeal] and [apply] accept it. *)
Theorem Seal_verifies `{Crypto} W cfg bg b chain base F c n block now_ms w hs delay c' d s :
  let h := blk_header block in
  known_ok W b → verify_ctx W cfg bg b chain base F c n h [] →
  isBreakGlassExtra (Extra h) = false → is_ok (vote_of (Nonce h)) = true →
  signs_for (signFn c) (cq_signer c) →
  Clique_Seal chain now_ms w block c = (Ok (hs, delay), c') →
  is_snapshot W cfg bg b n (ParentHash h) s →
  calcDifficulty s (cq_signer c) = Ok d → Difficulty h = Some d →
  ecrecover hs = Ok (cq_signer c) ∧
  is_ok (apply_header s hs) = true ∧ verifySeal false s hs = Ok tt.
Proof.
  intros h Hk [Hc Hreal Hrd (Hf & HFn & Hg) Hnext (p & HWp & Hnp) [Hb Hbase] Hlim]
    Hx Hvote Hsf E Hs Hd Hdiff.
  assert (Hnext' := Hnext). destruct Hnext' as (Hn & H0 & Hn64 & Hxl).
  destruct (Seal_inv chain now_ms w block c n hs delay c')
    as (t & data & sig & Hsnap & Hin & Hwait & Hdata & Hsig & ->); [done|lia|lia|done|done|].
  destruct (snapshot_spec W cfg bg b Hk chain base F c n (ParentHash h) p [])
    as (r & c1 & Hsnap' & _ & Hr); [done..|].
  fold h in Hsnap. rewrite Hsnap' in Hsnap. injection Hsnap as -> ->.
  assert (t = s) as ->.
  { apply (is_snapshot_det W cfg bg b n (ParentHash h)); [by apply Hr|done]. }
  destruct (is_snapshot_facts W cfg bg b Hk _ _ _ Hs) as (HN & _ & HC & _ & _ & Hrec).
  destruct (sealed_header n h (signFn c) (cq_signer c) data sig)
    as (Hrc & Hns & Hxs & Hvs & Hds); [done..|].
  set (hs := set_Extra (CopyHeader h) _) in *.
  assert (Hvs' : is_ok (vote_of (Nonce hs)) = true) by (rewrite Hvs; exact Hvote).
  assert (He : Epoch (config s) ≠ 0) by (rewrite HC; apply (en_epoch _ _ _ _ _ Hc)).
  assert (Hacc : is_ok (apply_header s hs) = true).
  { apply (apply_header_accepts n); [exact (proj1 Hns)|done|exact (eq_trans Hxs Hx)|exact Hvs'|].
    exists (cq_signer c). rewrite <- must_wait_recently by (done || lia). done. }
  split; [done|]. split; [done|].
  apply (verifySeal_agrees n); [done|done|done|exact (eq_trans Hxs Hx)|exact Hvs'|by apply Hlim|].
  split; [done|]. apply (calcDifficulty_right n s hs (cq_signer c) d); try done; [lia|].
  by rewrite Hds, Hdiff.
Qed.

Lemma demo_sealed :
  ∃ hs delay c', Clique_Seal (H := inj_crypto) (Demo.chain_of Demo.both) 107000 (fun _ => 0)
    (MkBlock Demo.unsealed 0 []) Demo.engine = (Ok (hs, delay), c').
Proof.
  destruct (Clique_Seal _ _ _ _ _) as [r c'] eqn:E.
  assert (Hr : is_ok (fst (Clique_Seal (H := inj_crypto) (Demo.chain_of Demo.both) 107000
    (fun _ => 0) (MkBlock Demo.unsealed 0 []) Demo.engine)) = true) by (vm_compute; reflexivity).
  rewrite E in Hr. destruct r as [[hs delay]| |]; [|discriminate Hr..]. by exists hs, delay, c'.
Qed.

Lemma demo_ctx_unsealed :
  verify_ctx (H := inj_crypto) (Demo.known Demo.both) toy_config None Demo.boot
    (Demo.chain_of Demo.both) 11 10 Demo.engine 10 Demo.unsealed [].
Proof.
  destruct demo_ctx as [H1 H2 H3 H4 H5 H6 H7 H8]. by split.
Qed.

Lemma Seal_verifies_witness :
  ∃ hs, verifySeal (H := inj_crypto) false Demo.base_snapshot hs = Ok tt.
Proof.
  destruct demo_sealed as (hs & delay & c' & E).
  destruct (Seal_verifies (H := inj_crypto) (Demo.known Demo.both) toy_config None Demo.boot
    (Demo.chain_of Demo.both) 11 10 Demo.engine 10 (MkBlock Demo.unsealed 0 []) 107000
    (fun _ => 0) hs delay c' 2 Demo.base_snapshot Demo.known_both demo_ctx_unsealed)
    as (_ & _ & Hv).
  - vm_compute. reflexivity.
  - reflexivity.
  - exact Demo.signs_for_three.
  - exact E.
  - exact (Demo.base_is_snapshot _).
  - vm_compute. reflexivity.
  - reflexivity.
  - exists hs. exact Hv.
Defined.

(** ** Calls that touch the caches only *)

Definition only_caches {A} (m : eng A) : Prop :=
  ∀ c r c', m c = (r, c') → ∃ d rc, c' = set_recents rc (set_db d c).

Lemma only_caches_lift {A} (r : result A) : only_caches (lift r).
Proof. intros c r' c' [= _ <-]. exists (db c), (recents c). by destruct c. Qed.

Lemma only_caches_ret {A} (a : A) : only_caches (mret a).
Proof. exact (only_caches_lift (Ok a)). Qed.

Lemma only_caches_bind {A B} (m : eng A) (f : A → eng B) :
  only_caches m → (∀ a, only_caches (f a)) → only_caches (m ≫= f).
Proof.
  intros Hm Hf c r c'. unfold mbind, eng_bind.
  destruct (m c) as [r1 c1] eqn:E1. destruct (Hm _ _ _ E1) as (d1 & rc1 & ->).
  destruct r1 as [a|e|w]; intros E; [|injection E as _ <-; exists d1, rc1; reflexivity..].
  destruct (Hf _ _ _ _ E) as (d2 & rc2 & ->). exists d2, rc2. reflexivity.
Qed.

Lemma only_caches_get : only_caches get.
Proof. intros c r' c' [= _ <-]. exists (db c), (recents c). by destruct c. Qed.

Create HintDb caches discriminated.
#[export] Hint Resolve only_caches_lift only_caches_ret only_caches_bind only_caches_get : caches.

Section OnlyCaches.
Context `{Crypto}.

Lemma only_caches_store s : only_caches (store s).
Proof.
  intros c r c'. unfold store. destruct (db_err c); intros [= _ <-].
  - exists (db c), (recents c). destruct c. reflexivity.
  - exists (<[sn_Hash s := s]> (db c)), (recents c). reflexivity.
Qed.

Lemma only_caches_override h : only_caches (breakGlassOverride h).
Proof. intros c r c' [= _ <-]. exists (db c), (recents c). by destruct c. Qed.

Lemma only_caches_trust chain n : only_caches (trust_checkpoint chain n).
Proof.
  unfold trust_checkpoint. destruct (GetHeaderByNumber chain n); [|apply only_caches_ret].
  apply only_caches_bind; [apply only_caches_lift|intros [[l sigs] b]].
  apply only_caches_bind.
  { destruct b; [|apply only_caches_ret].
    apply only_caches_bind; [apply only_caches_override|intros; apply only_caches_ret]. }
  intros l'. apply only_caches_bind; [apply only_caches_get|intros c].
  apply only_caches_bind; [apply only_caches_store|intros; apply only_caches_ret].
Qed.

Lemma only_caches_find chain n hash g : only_caches (find_snapshot chain n hash g).
Proof.
  unfold find_snapshot. apply only_caches_bind; [apply only_caches_get|intros c].
  destruct (recents c !! hash); [apply only_caches_ret|].
  destruct (if _ =? 0 then loadSnapshot c hash else None); [apply only_caches_ret|].
  apply only_caches_bind.
  - destruct (bootstrap c) as [b|]; [|apply only_caches_ret].
    apply only_caches_bind; [apply only_caches_lift|intros _].
    destruct (_ =? _); [|apply only_caches_ret].
    apply only_caches_bind; [apply only_caches_store|intros; apply only_caches_ret].
  - intros [s|]; [apply only_caches_ret|]. apply only_caches_bind.
    + destruct (_ =? 0); [apply only_caches_ret|].
      apply only_caches_bind; [apply only_caches_lift|intros; apply only_caches_ret].
    + intros [|]; [apply only_caches_trust|apply only_caches_ret].
Qed.

Lemma only_caches_loop fuel chain n hash ps hs :
  only_caches (snapshot_loop fuel chain n hash ps hs).
Proof.
  revert n hash ps hs. induction fuel as [|fuel IH]; intros n hash ps hs; cbn [snapshot_loop].
  { apply only_caches_lift. }
  apply only_caches_bind; [apply only_caches_find|intros [s|]; [apply only_caches_ret|]].
  apply only_caches_bind; [apply only_caches_lift|intros [h ps']]. apply IH.
Qed.

Lemma only_caches_snapshot chain n hash ps : only_caches (snapshot chain n hash ps).
Proof.
  unfold snapshot. apply only_caches_bind; [apply only_caches_loop|intros [s hs]].
  apply only_caches_bind; [apply only_caches_lift|intros s'].
  apply only_caches_bind; [|intros _; apply only_caches_bind].
  - intros c r c' [= _ <-]. exists (db c), (<[sn_Hash s' := s']> (recents c)). reflexivity.
  - destruct (_ && _); [apply only_caches_store|apply only_caches_ret].
  - intros _. apply only_caches_ret.
Qed.
End OnlyCaches.

(** ** The extra data of prepared headers *)

Lemma prepare_extra_layout extra payload :
  ∃ vanity, length vanity = extraVanity ∧
    prepare_extra extra payload = vanity ++ payload ++ replicate extraSeal Byte.x00.
Proof.
  eexists. split; [|reflexivity].
  rewrite length_take, length_app, length_replicate. unfold extraVanity. lia.
Qed.

Lemma plain_not_break_glass extra payload :
  (length payload mod AddressLength = 0)%nat →
  isBreakGlassExtra (prepare_extra extra payload) = false.
Proof.
  intros Hm. destruct (prepare_extra_layout extra payload) as (v & Hv & ->).
  unfold isBreakGlassExtra. destruct (_ <? _)%nat; [done|].
  rewrite extra_payload_app by (done || apply length_replicate). by rewrite Hm.
Qed.

Lemma plain_parses extra payload :
  (length payload mod AddressLength = 0)%nat →
  is_ok (parseCheckpointExtra (prepare_extra extra payload)) = true.
Proof.
  intros Hm. destruct (prepare_extra_layout extra payload) as (v & Hv & ->).
  unfold parseCheckpointExtra.
  rewrite parse_payload_length by (done || apply length_replicate).
  rewrite extra_payload_app by (done || apply length_replicate). by rewrite Hm.
Qed.

Lemma signers_payload_whole l :
  (length (concat (map address_bytes l)) mod AddressLength = 0)%nat.
Proof. rewrite length_signers_bytes. apply Nat.Div0.mod_mul. Qed.

(** A header made by [Prepare] and finished by [Finalize] passes every check
    [verifyHeader] makes on a header alone, at any later clock, provided the gas
    limit is legal and no fork hash is violated: the extra data is vanity,
    signer list on an epoch block only, and seal slot; the vote is a legal one;
    the difficulty is 1 or 2. *)
Theorem Prepare_passes_standalone `{Crypto} chain now now' pick root h c n h' c' :
  let hf := Clique_Finalize root chain h' in
  NumberU64 h = Ok (n + 1) → 0 ≤ n → n + 1 < two64 →
  bgPending c = None → Epoch (cq_config c) ≠ 0 →
  Clique_Prepare chain now pick h c = (Ok h', c') →
  GasLimit h ≤ MaxGasLimit → VerifyForkHashes (chain_Config chain) hf false = Ok tt →
  Time h' ≤ now' →
  verify_standalone chain (Epoch (cq_config c)) now' hf = Ok tt.
Proof.
  intros hf Hn H0 Hb Hpend He E Hgas Hfork Hnow.
  assert (Hframe : ∀ c1 s, snapshot chain n (ParentHash h) [] c = (Ok s, c1) →
    bgPending c1 = None ∧ cq_config c1 = cq_config c).
  { intros c1 s Hs. apply only_caches_snapshot in Hs as (d & rc & ->). done. }
  destruct (Prepare_inv chain now pick h c n h' c') as (s & c1 & d & parent & vote & Hs & Hd &
    _ & Hvote & HD & HN & HP & _ & HM & HU & HG & HX & HC & HNo); [done|lia|lia| |done|].
  { intros c1 s Hs. apply Hframe in Hs as [Hs _]. exact Hs. }
  destruct (Hframe _ _ Hs) as [_ Hcfg]. rewrite Hcfg in Hvote, HX.
  assert (Hd12 : d = diffInTurn ∨ d = diffNoTurn).
  { unfold calcDifficulty in Hd. apply bind_ok in Hd as (b & _ & Hd).
    apply Ok_inj in Hd as <-. destruct b; auto. }
  unfold verify_standalone.
  change (Number hf) with (Number h'). change (Time hf) with (Time h').
  change (Coinbase hf) with (Coinbase h'). change (Nonce hf) with (Nonce h').
  change (Extra hf) with (Extra h'). change (MixDigest hf) with (MixDigest h').
  change (UncleHash hf) with EmptyUncleHash. change (Difficulty hf) with (Difficulty h').
  change (GasLimit hf) with (GasLimit h').
  rewrite HN. unfold NumberU64 in Hn. destruct (Number h) as [num|]; [|done].
  cbn [deref mbind result_bind] in Hn |- *. apply Ok_inj in Hn as ->.
  replace (now' <? Time h') with false by (symmetry; by apply Z.ltb_ge).
  unfold mod64. rewrite (proj2 (Z.eqb_neq _ _) He). cbn [fail_if mbind result_bind].
  rewrite HM, HD, HX, HG, HC, HNo, Z.eqb_refl, Hfork.
  replace (MaxGasLimit <? GasLimit h) with false by (symmetry; by apply Z.ltb_ge).
  replace (0 <? n + 1) with true by (symmetry; apply Z.ltb_lt; lia).
  set (epoch := (n + 1) mod Epoch (cq_config c) =? 0) in *.
  set (payload := if epoch then concat (map address_bytes (signers s)) else []).
  assert (Hpay : (length payload mod AddressLength = 0)%nat)
    by (unfold payload; destruct epoch; [apply signers_payload_whole|done]).
  pose proof (plain_not_break_glass (Extra h) payload Hpay) as Hnbg.
  pose proof (plain_parses (Extra h) payload Hpay) as Hparse.
  assert (Hlen : length (prepare_extra (Extra h) payload) = (97 + length payload)%nat).
  { destruct (prepare_extra_layout (Extra h) payload) as (v & Hv & ->).
    rewrite !length_app, Hv, length_replicate. unfold extraVanity, extraSeal, SignatureLength. lia. }
  rewrite Hnbg, Hlen. unfold zlen. rewrite Hlen.
  destruct (parseCheckpointExtra (prepare_extra (Extra h) payload)) as [px| |]; [|done..].
  assert (HDok : negb (d =? diffInTurn) && negb (d =? diffNoTurn) = false).
  { destruct Hd12 as [->| ->]; done. }
  rewrite HDok. subst payload vote. clear -Hlen. destruct epoch.
  - reflexivity.
  - destruct (pick_vote s (proposals c1) pick) as [[a [|]]|]; reflexivity.
Qed.

Lemma demo_prepared :
  ∃ h' c', Clique_Prepare (H := inj_crypto) (Demo.chain_of Demo.both) 150 (fun _ => 0%nat)
    Demo.unsealed Demo.engine = (Ok h', c') ∧ Time h' = 150 ∧ Number h' = Some 11.
Proof.
  destruct (Clique_Prepare _ _ _ _ _) as [r c'] eqn:E.
  assert (Hr : match fst (Clique_Prepare (H := inj_crypto) (Demo.chain_of Demo.both) 150
    (fun _ => 0%nat) Demo.unsealed Demo.engine) with
    Ok h' => bool_decide (Time h' = 150 ∧ Number h' = Some 11) | _ => false end
    = true) by (vm_compute; reflexivity).
  rewrite E in Hr. destruct r as [h'| |]; [|discriminate Hr..]. exists h', c'.
  split; [reflexivity|]. exact (bool_decide_eq_true_1 _ Hr).
Qed.

Lemma Prepare_passes_standalone_witness :
  ∃ hf, verify_standalone (H := inj_crypto) (Demo.chain_of Demo.both) 30000 200 hf = Ok tt.
Proof.
  destruct demo_prepared as (h' & c' & E & Ht & Hnum).
  exists (Clique_Finalize (H := inj_crypto) (fun _ => 0) (Demo.chain_of Demo.both) h').
  apply (Prepare_passes_standalone (H := inj_crypto) (Demo.chain_of Demo.both) 150 200
    (fun _ => 0%nat) (fun _ => 0) Demo.unsealed Demo.engine 10 h' c').
  - reflexivity.
  - discriminate.
  - vm_compute. reflexivity.
  - reflexivity.
  - discriminate.
  - exact E.
  - vm_compute. discriminate.
  - clear E. unfold VerifyForkHashes. cbn. rewrite Hnum. reflexivity.
  - rewrite Ht. discriminate.
Defined.

(** ** Arming an override *)

Lemma ArmBreakGlass_inv `{Crypto} number parentHash l sigs c0 c :
  ArmBreakGlass number parentHash l sigs c0 = (Ok tt, c) →
  ∃ bg sorted, cq_breakGlass c0 = Some bg ∧ sortedUniqueSigners l = Ok sorted ∧
    number ≠ 0 ∧ override_authorised bg number parentHash sorted sigs ∧
    c = set_bgPending (Some (MkOverride number parentHash sorted sigs)) c0.
Proof.
  intros E. unfold ArmBreakGlass, mbind, eng_bind, lift, get, modify in E.
  destruct (cq_breakGlass c0) as [bg|]; [|done].
  destruct (Z.eqb_spec number 0); [done|]. cbn [fail_if] in E.
  destruct (sortedUniqueSigners l) as [sorted| |]; [|done..].
  destruct (verifyBreakGlass _ _ _ _ _) as [[]| |] eqn:Hv; [|done..].
  injection E as <-. exists bg, sorted. apply verifyBreakGlass_spec in Hv. done.
Qed.

Lemma sortedUniqueSigners_addresses l sorted :
  addresses l → sortedUniqueSigners l = Ok sorted → addresses sorted.
Proof.
  intros Hl. unfold sortedUniqueSigners. destruct l as [|a l]; [done|].
  destruct (list_ok _ _ _); [|done]. intros E. apply Ok_inj in E as <-.
  unfold addresses. by rewrite sort_signers_perm.
Qed.

Lemma authorised_signatures `{Crypto} bg number parentHash l sigs :
  override_authorised bg number parentHash l sigs → (length (Owners bg) < 256)%nat →
  signatures_ok sigs ∧ (1 ≤ length sigs < 256)%nat.
Proof.
  intros (_ & _ & _ & cid & os & _ & Hos & _ & Ht & Hle) Hlt.
  pose proof (Forall2_length _ _ _ Hos) as Hlen. split; [|lia].
  clear -Hos. induction Hos as [|sig o sigs os [Hs _] _ IH]; constructor; done.
Qed.

(** The override in a prepared extra is read back. *)
Lemma embedded_override `{Crypto} bg h extra number l sigs :
  NumberU64 h = Ok number → addresses l →
  override_authorised bg number (ParentHash h) l sigs → (length (Owners bg) < 256)%nat →
  Extra h = prepare_extra extra (encodeBreakGlassPayload l sigs) →
  breakGlassOverrideOf (Some bg) h = Ok (Some l).
Proof.
  intros Hn Ha Hauth Hlt Hx. destruct (authorised_signatures _ _ _ _ _ Hauth Hlt) as [Hs Hc].
  destruct (prepare_extra_layout extra (encodeBreakGlassPayload l sigs)) as (v & Hv & Hlay).
  rewrite Hlay in Hx. assert (Hne : l ≠ []) by apply Hauth.
  unfold breakGlassOverrideOf. rewrite Hx.
  rewrite isBreakGlass_encoded, parse_encoded by (done || lia || apply length_replicate).
  cbn [negb mbind result_bind]. rewrite Hn. cbn [mbind result_bind].
  apply verifyBreakGlass_spec in Hauth. by rewrite Hauth.
Qed.

(** Arming leads to an override that verifies. After [ArmBreakGlass]
    succeeded for a slot, the header [Prepare] returns for that number and
    parent carries the sorted list, casts no vote, has the difficulty of the
    sealer's turn in that list, and its owner signatures verify against the
    engine's configuration. *)
Theorem armed_override_is_embedded `{Crypto} chain now pick number l sigs c0 c h h' c' :
  addresses l → (∀ bg, cq_breakGlass c0 = Some bg → (length (Owners bg) < 256)%nat) →
  ArmBreakGlass number (ParentHash h) l sigs c0 = (Ok tt, c) →
  NumberU64 h = Ok number →
  Clique_Prepare chain now pick h c = (Ok h', c') →
  ∃ sorted, sortedUniqueSigners l = Ok sorted ∧
    breakGlassOverrideOf (cq_breakGlass c') h' = Ok (Some sorted) ∧
    Coinbase h' = 0 ∧ Nonce h' = nonceDropVote ∧
    (d ← calcDifficultyAmong sorted number (cq_signer c'); Ok (Some d)) = Ok (Difficulty h').
Proof.
  intros Hl Hown Harm Hn E.
  destruct (ArmBreakGlass_inv _ _ _ _ _ _ Harm) as (bg & sorted & Hbg & Hsort & _ & Hauth & ->).
  exists sorted. split; [done|].
  unfold Clique_Prepare, mbind, eng_bind, lift, get in E.
  assert (Hn' : NumberU64 (set_Nonce (set_Coinbase h 0) 0) = Ok number) by exact Hn.
  rewrite Hn' in E. cbn [ParentHash set_Nonce set_Coinbase] in E.
  destruct (snapshot chain (sub64 number 1) (ParentHash h) [] _) as [r c1] eqn:Hs.
  apply only_caches_snapshot in Hs as (d & rc & ->).
  destruct r as [s| |]; [|done..].
  cbn [bgPending set_recents set_db set_bgPending ov_Number ov_ParentHash] in E.
  rewrite !Z.eqb_refl in E. cbn [andb negb] in E. unfold mod64 in E.
  destruct (Epoch _ =? 0); [done|]. rewrite andb_false_r in E.
  cbn [ov_Signers ov_Signatures] in E. unfold mret, eng_ret in E.
  set (c1 := set_recents rc _) in E.
  destruct (calcDifficultyAmong sorted number (cq_signer c1)) as [df| |] eqn:Hd; [|done..].
  cbn [ParentHash set_MixDigest set_Extra set_Difficulty set_Nonce set_Coinbase Extra] in E.
  destruct (GetHeader chain (ParentHash h) (sub64 number 1)) as [parent|]; [|done].
  injection E as <- <-. split; [|split; [done|split; [done|]]].
  - change (cq_breakGlass c1) with (cq_breakGlass c0). rewrite Hbg.
    apply (embedded_override bg _ (Extra h) number sorted sigs); try done.
    + by eapply sortedUniqueSigners_addresses.
    + by apply Hown.
  - by rewrite Hd.
Qed.

(** An engine with owners 5 and 6. *)
Definition guarded_engine : Clique := set_breakGlass (Some toy_owners) Demo.engine.

Lemma demo_armed :
  ∃ c h' c', ArmBreakGlass (H := inj_crypto) 11 (ParentHash Demo.unsealed) [8; 7]
      [toy_seal 5; toy_seal 6] guarded_engine = (Ok tt, c) ∧
    Clique_Prepare (H := inj_crypto) (Demo.chain_of Demo.both) 150 (fun _ => 0%nat)
      Demo.unsealed c = (Ok h', c').
Proof.
  destruct (ArmBreakGlass (H := inj_crypto) 11 _ _ _ guarded_engine) as [r c] eqn:E.
  destruct (Clique_Prepare (H := inj_crypto) (Demo.chain_of Demo.both) 150 (fun _ => 0%nat)
      Demo.unsealed c) as [r' c'] eqn:E'.
  assert (Hr : (let '(r, c) := ArmBreakGlass (H := inj_crypto) 11 (ParentHash Demo.unsealed)
    [8; 7] [toy_seal 5; toy_seal 6] guarded_engine in
    is_ok r && is_ok (fst (Clique_Prepare (H := inj_crypto) (Demo.chain_of Demo.both) 150
      (fun _ => 0%nat) Demo.unsealed c))) = true) by (vm_compute; reflexivity).
  rewrite E, E' in Hr. apply andb_true_iff in Hr as [H1 H2].
  destruct r as [[]| |]; [|discriminate H1..]. destruct r' as [h'| |]; [|discriminate H2..].
  exists c, h', c'. split; [reflexivity|exact E'].
Qed.

Lemma armed_override_is_embedded_witness :
  ∃ bg h', breakGlassOverrideOf (H := inj_crypto) bg h' = Ok (Some [7; 8]).
Proof.
  destruct demo_armed as (c & h' & c' & E1 & E2).
  destruct (armed_override_is_embedded (H := inj_crypto) (Demo.chain_of Demo.both) 150
    (fun _ => 0%nat) 11 [8; 7] [toy_seal 5; toy_seal 6] guarded_engine c Demo.unsealed h' c')
    as (sorted & Hs & Ho & _).
  - repeat constructor; discriminate.
  - intros bg Hbg. injection Hbg as <-. vm_compute. lia.
  - exact E1.
  - reflexivity.
  - exact E2.
  - exists (cq_breakGlass c'), h'.
    replace (Ok (Some [7; 8])) with (Ok (Some sorted)); [exact Ho|].
    assert (Hs' : sortedUniqueSigners [8; 7] = Ok [7; 8]) by (vm_compute; reflexivity).
    rewrite Hs in Hs'. apply Ok_inj in Hs'. rewrite Hs'. reflexivity.
Defined.
