(* ===== verification/Powhash.v ===== *)
(** * The retired proof-of-work engine (chain/consensus/powhash)

    Ferminux's pre-authority history: header rules, the retuned difficulty, the
    reward schedule and the refusal to produce blocks from PosaBlock on. The
    memory-hard hash (hashimoto, algorithm.go) is a parameter; the engine is
    modelled in its normal mode, without the fake and shared modes of the tests.
    The file ends with the interface [PowEngine] under which the dispatching
    engine uses it. *)

From S2P Require Import Prelude Bytes Rlp Types Params Misc BreakGlass Clique.

(** ** Constants and errors *)

Definition maxUncles : Z := 2.
Definition allowedFutureBlockTimeSeconds : Z := 15.
Definition FerminuxHalvingInterval : Z := 4500000.
Definition FerminuxEmissionForkBlock : Z := 20000.
Definition ferminuxDurationLimit : Z := 5.
Definition FerminuxLaunchBlockReward : Z := 6 * Ether.
Definition FerminuxBaseBlockReward : Z := 1 * Ether.
Definition two256 : Z := 2 ^ 256.
Definition DAOForkExtraRange : Z := 10.
Definition DAOForkBlockExtra : bytes := str_bytes "dao-hard-fork".

Definition errPosaBlock :=
  New "the retired Ethash engine cannot produce blocks at or after the Ferminux authority fork block".
Definition errOlderBlockTime := New "timestamp older than parent".
Definition errTooManyUncles := New "too many uncles".
Definition errDuplicateUncle := New "duplicate uncle".
Definition errUncleIsAncestor := New "uncle is ancestor".
Definition errDanglingUncle := New "uncle's parent is not ancestor".
Definition errNonPositiveDifficulty := New "non-positive difficulty".
Definition errInvalidMix := New "invalid mix digest".
Definition errInvalidPoW := New "invalid proof-of-work".
Definition ErrInvalidNumber := New "invalid block number".
Definition ErrBadProDAOExtra := New "bad DAO pro-fork extra-data".
Definition ErrBadNoDAOExtra := New "bad DAO no-fork extra-data".

(** ** Rewards and difficulty *)

(** [refusePosa]. *)
Definition refusePosa (config : ChainConfig) (number : option Z) : result unit :=
  fail_if (IsPosa config number) errPosaBlock.

(** [FerminuxBlockReward]; Go's big.Int Div by a positive number rounds down. *)
Definition FerminuxBlockReward (num : Z) : Z :=
  if num <? FerminuxEmissionForkBlock then FerminuxLaunchBlockReward
  else
    let era := num / FerminuxHalvingInterval in
    if negb (big_IsUint64 era) || (60 <? era) then 0
    else Z.shiftr FerminuxBaseBlockReward era.

(** [accumulateRewards] on the balances. *)
Notation Balances := (gmap Address Z).
Definition AddBalance (a : Address) (v : Z) (b : Balances) : Balances :=
  <[a := default 0 (b !! a) + v]> b.

Fixpoint uncle_rewards (blockReward number : Z) (uncles : list Header) (reward : Z)
  (b : Balances) : result (Z * Balances) :=
  match uncles with
  | [] => Ok (reward, b)
  | uncle :: uncles =>
      un ← deref (Number uncle);
      let r := (un + 8 - number) * blockReward / 8 in
      uncle_rewards blockReward number uncles (reward + blockReward / 32)
        (AddBalance (Coinbase uncle) r b)
  end.

Definition accumulateRewards (header : Header) (uncles : list Header) (b : Balances)
  : result Balances :=
  number ← deref (Number header);
  let blockReward := FerminuxBlockReward number in
  '(reward, b) ← uncle_rewards blockReward number uncles blockReward b;
  Ok (AddBalance (Coinbase header) reward b).

Section Powhash.
Context `{Crypto}.

(** [calcDifficultyFerminux]. *)
Definition calcDifficultyFerminux (time : Z) (parent : Header) : result Z :=
  let x := (time - Time parent) / ferminuxDurationLimit in
  let x := if UncleHash parent =? EmptyUncleHash then 1 - x else 2 - x in
  let x := Z.max x (-99) in
  d ← deref (Difficulty parent);
  let y := d / DifficultyBoundDivisor in
  Ok (Z.max (d + y * x) MinimumDifficulty).

(** [CalcDifficulty]. *)
Definition Pow_CalcDifficulty (time : Z) (parent : Header) : result Z :=
  calcDifficultyFerminux time parent.

(** ** Seals *)

(** [SealHash]: the header without mix digest and nonce. *)
Definition Pow_SealHash (obj : Header) : Hash :=
  let r :=
    let '(_tmp0, w) := eb_list emptyBuffer in
    let w := writeBytes (hash_bytes (ParentHash obj)) w in
    let w := writeBytes (hash_bytes (UncleHash obj)) w in
    let w := writeBytes (address_bytes (Coinbase obj)) w in
    let w := writeBytes (hash_bytes (Root obj)) w in
    let w := writeBytes (hash_bytes (TxHash obj)) w in
    let w := writeBytes (hash_bytes (ReceiptHash obj)) w in
    let w := writeBytes (to_be 256 (Bloom obj)) w in
    w ← writeBigIntField (Difficulty obj) w;
    w ← writeBigIntField (Number obj) w;
    let w := writeUint64 (GasLimit obj) w in
    let w := writeUint64 (GasUsed obj) w in
    let w := writeUint64 (Time obj) w in
    let w := writeBytes (Extra obj) w in
    w ← match BaseFee obj with
        | None => Ok w
        | Some f => writeBigIntField (Some f) w
        end;
    eb_listEnd _tmp0 w in
  keccak256 match r with Ok w => makeBytes w | _ => [] end.

(** hashimotoLight on the cache of a block number: mix digest and result. *)
Context (hashimoto : Z → bytes → Z → bytes * bytes).

(** [verifySeal], with a verification cache. *)
Definition Pow_verifySeal (header : Header) : result unit :=
  d ← deref (Difficulty header);
  _ ← fail_if (d <=? 0) errNonPositiveDifficulty;
  number ← NumberU64 header;
  let '(digest, res) := hashimoto number (hash_bytes (Pow_SealHash header)) (Nonce header) in
  _ ← fail_if (negb (bool_decide (hash_bytes (MixDigest header) = digest))) errInvalidMix;
  fail_if (two256 / d <? of_be res) errInvalidPoW.

(** ** Headers *)

(** [VerifyDAOHeaderExtraData]. *)
Definition VerifyDAOHeaderExtraData (config : ChainConfig) (header : Header) : result unit :=
  match DAOForkBlock config with
  | None => Ok tt
  | Some fork =>
      n ← deref (Number header);
      if (n <? fork) || (fork + DAOForkExtraRange <=? n) then Ok tt
      else if DAOForkSupport config then
        fail_if (negb (bool_decide (Extra header = DAOForkBlockExtra))) ErrBadProDAOExtra
      else fail_if (bool_decide (Extra header = DAOForkBlockExtra)) ErrBadNoDAOExtra
  end.

(** [verifyHeader]. *)
Definition Pow_verifyHeader (chain : ChainReader) (header parent : Header)
  (uncle seal : bool) (unixNow : Z) : result unit :=
  _ ← fail_if (MaximumExtraDataSize <? zlen (Extra header))
        (Errorf "extra-data too long: %d > %d" [zlen (Extra header); MaximumExtraDataSize]);
  _ ← fail_if (negb uncle && (unixNow + allowedFutureBlockTimeSeconds <? Time header))
        ErrFutureBlock;
  _ ← fail_if (Time header <=? Time parent) errOlderBlockTime;
  expected ← Pow_CalcDifficulty (Time header) parent;
  d ← deref (Difficulty header);
  _ ← fail_if (negb (expected =? d))
        (Errorf "invalid difficulty: have %v, want %v" [d; expected]);
  _ ← fail_if (MaxGasLimit <? GasLimit header)
        (Errorf "invalid gasLimit: have %v, max %v" [GasLimit header; MaxGasLimit]);
  _ ← fail_if (GasLimit header <? GasUsed header)
        (Errorf "invalid gasUsed: have %d, gasLimit %d" [GasUsed header; GasLimit header]);
  _ ← (if negb (IsLondon (chain_Config chain) (Number header)) then
         match BaseFee header with
         | Some f => Err (Errorf "invalid baseFee before fork: have %d, expected 'nil'" [f])
         | None => VerifyGaslimit (GasLimit parent) (GasLimit header)
         end
       else VerifyEip1559Header (chain_Config chain) parent header);
  n ← deref (Number header);
  pn ← deref (Number parent);
  _ ← fail_if (negb (n - pn =? 1)) ErrInvalidNumber;
  _ ← (if seal then Pow_verifySeal header else Ok tt);
  _ ← VerifyDAOHeaderExtraData (chain_Config chain) header;
  VerifyForkHashes (chain_Config chain) header uncle.

(** [VerifyHeader]. *)
Definition Pow_VerifyHeader (chain : ChainReader) (now : Z) (header : Header) (seal : bool)
  : result unit :=
  number ← NumberU64 header;
  match GetHeader chain (Header_Hash header) number with
  | Some _ => Ok tt
  | None =>
      match GetHeader chain (ParentHash header) (sub64 number 1) with
      | None => Err ErrUnknownAncestor
      | Some parent => Pow_verifyHeader chain header parent false seal now
      end
  end.

(** [verifyHeaderWorker]; [before] is the header at [index-1], if any. *)
Definition verifyHeaderWorker (chain : ChainReader) (now : Z) (before : option Header)
  (header : Header) (seal : bool) : result unit :=
  parent ←
    match before with
    | None =>
        n ← NumberU64 header;
        Ok (GetHeader chain (ParentHash header) (sub64 n 1))
    | Some p => Ok (if Header_Hash p =? ParentHash header then Some p else None)
    end;
  match parent with
  | None => Err ErrUnknownAncestor
  | Some parent => Pow_verifyHeader chain header parent false seal now
  end.

(** [VerifyHeaders]: the workers run in any order, the results are emitted by
    index. *)
Fixpoint pow_results (chain : ChainReader) (now : Z) (before : option Header)
  (headers : list Header) (seals : list bool) : list (result unit) :=
  match headers, seals with
  | header :: headers, seal :: seals =>
      verifyHeaderWorker chain now before header seal
      :: pow_results chain now (Some header) headers seals
  | header :: headers, [] =>
      Panic "index out of range" :: pow_results chain now (Some header) headers []
  | [], _ => []
  end.

Definition Pow_VerifyHeaders (chain : ChainReader) (now : Z) (headers : list Header)
  (seals : list bool) : list (result unit) :=
  pow_results chain now None headers seals.

(** ** Uncles *)

(** The ancestors and the uncles they already included, seven blocks deep;
    [GetUncles] is chain.GetBlock followed by Uncles. *)
Fixpoint gather_ancestors (depth : nat) (chain : ChainReader)
  (GetUncles : Hash → Z → option (list Header)) (parent : Hash) (number : Z)
  (uncles : gset Hash) (ancestors : gmap Hash Header) : gset Hash * gmap Hash Header :=
  match depth with
  | O => (uncles, ancestors)
  | S depth =>
      match GetHeader chain parent number with
      | None => (uncles, ancestors)
      | Some a =>
          let ancestors := <[parent := a]> ancestors in
          if UncleHash a =? EmptyUncleHash
          then gather_ancestors depth chain GetUncles (ParentHash a) (sub64 number 1)
                 uncles ancestors
          else
            match GetUncles parent number with
            | None => (uncles, ancestors)
            | Some us =>
                gather_ancestors depth chain GetUncles (ParentHash a) (sub64 number 1)
                  (list_to_set (map Header_Hash us) ∪ uncles) ancestors
            end
      end
  end.

Fixpoint check_uncles (chain : ChainReader) (now : Z) (blockParent : Hash)
  (ancestors : gmap Hash Header) (uncles : gset Hash) (us : list Header) : result unit :=
  match us with
  | [] => Ok tt
  | uncle :: us =>
      let hash := Header_Hash uncle in
      _ ← fail_if (bool_decide (hash ∈ uncles)) errDuplicateUncle;
      let uncles := {[hash]} ∪ uncles in
      _ ← fail_if (bool_decide (is_Some (ancestors !! hash))) errUncleIsAncestor;
      match ancestors !! ParentHash uncle with
      | None => Err errDanglingUncle
      | Some parent =>
          _ ← fail_if (ParentHash uncle =? blockParent) errDanglingUncle;
          _ ← Pow_verifyHeader chain uncle parent true true now;
          check_uncles chain now blockParent ancestors uncles us
      end
  end.

(** [VerifyUncles]. *)
Definition Pow_VerifyUncles (chain : ChainReader) (now : Z)
  (GetUncles : Hash → Z → option (list Header)) (block : Block) : result unit :=
  let us := blk_uncles block in
  _ ← fail_if (maxUncles <? zlen us) errTooManyUncles;
  match us with
  | [] => Ok tt
  | _ =>
      let header := CopyHeader (blk_header block) in
      n ← NumberU64 header;
      let '(uncles, ancestors) :=
        gather_ancestors 7 chain GetUncles (ParentHash header) (sub64 n 1) ∅ ∅ in
      let bh := Header_Hash header in
      check_uncles chain now (ParentHash header) (<[bh := header]> ancestors)
        ({[bh]} ∪ uncles) us
  end.

(** ** Production *)

(** [Prepare]. *)
Definition Pow_Prepare (chain : ChainReader) (header : Header) : result Header :=
  _ ← refusePosa (chain_Config chain) (Number header);
  n ← NumberU64 header;
  match GetHeader chain (ParentHash header) (sub64 n 1) with
  | None => Err ErrUnknownAncestor
  | Some parent =>
      d ← Pow_CalcDifficulty (Time header) parent;
      Ok (set_Difficulty header (Some d))
  end.

(** [Finalize]; [root] is the state's IntermediateRoot. *)
Definition Pow_Finalize (root : Balances → bool → Hash) (chain : ChainReader)
  (header : Header) (uncles : list Header) (b : Balances) : result (Header * Balances) :=
  b ← accumulateRewards header uncles b;
  Ok (set_Root header (root b (IsEIP158 (chain_Config chain) (Number header))), b).
End Powhash.

(** ** The interface the dispatching engine uses *)

(** consensus.Engine, for the calls that are dispatched. *)
Class PowEngine := {
  pow_Author : Header → result Address;
  pow_VerifyHeader : ChainReader → Z → Header → bool → result unit;
  pow_VerifyHeaders : ChainReader → Z → list Header → list bool → list (result unit);
  pow_VerifyUncles : ChainReader → Z → Block → result unit;
  pow_Prepare : ChainReader → Header → result Header;
  pow_Finalize : ChainReader → Header → list Header → Balances → result (Header * Balances);
  pow_SealHash : Header → Hash;
  pow_CalcDifficulty : ChainReader → Z → Header → result Z
}.

(** What the dispatcher relies on: one verdict per header, in order, that does
    not depend on the headers after it, and no block from PosaBlock on. *)
Class PowEngineLaws `{PowEngine} : Prop := {
  pow_results_length : ∀ chain now headers seals,
    length (pow_VerifyHeaders chain now headers seals) = length headers;
  pow_results_prefix : ∀ chain now hs1 hs2 seals, (length hs1 ≤ length seals)%nat →
    take (length hs1) (pow_VerifyHeaders chain now (hs1 ++ hs2) seals)
    = pow_VerifyHeaders chain now hs1 (take (length hs1) seals);
  pow_stops : ∀ chain header, IsPosa (chain_Config chain) (Number header) = true →
    pow_Prepare chain header = Err errPosaBlock
}.

Section Instance.
Context `{Crypto} (hashimoto : Z → bytes → Z → bytes * bytes)
  (GetUncles : Hash → Z → option (list Header)) (root : Balances → bool → Hash).

#[local] Instance powhash_engine : PowEngine := {|
  pow_Author h := Ok (Coinbase h);
  pow_VerifyHeader := Pow_VerifyHeader hashimoto;
  pow_VerifyHeaders := Pow_VerifyHeaders hashimoto;
  pow_VerifyUncles chain now block := Pow_VerifyUncles hashimoto chain now GetUncles block;
  pow_Prepare := Pow_Prepare;
  pow_Finalize := Pow_Finalize root;
  pow_SealHash := Pow_SealHash;
  pow_CalcDifficulty _ time parent := Pow_CalcDifficulty time parent
|}.

Lemma pow_results_len chain now before hs seals :
  length (pow_results hashimoto chain now before hs seals) = length hs.
Proof.
  revert before seals. induction hs as [|h hs IH]; intros before [|s seals]; cbn; auto.
Qed.

Lemma pow_results_app chain now before hs1 hs2 seals :
  (length hs1 ≤ length seals)%nat →
  take (length hs1) (pow_results hashimoto chain now before (hs1 ++ hs2) seals)
  = pow_results hashimoto chain now before hs1 (take (length hs1) seals).
Proof.
  revert before seals. induction hs1 as [|h hs1 IH]; intros before [|s seals] Hl; cbn in *;
    [done..|lia|]. f_equal. apply IH. lia.
Qed.

#[local] Instance powhash_laws : PowEngineLaws.
Proof.
  split.
  - intros. apply pow_results_len.
  - intros. by apply pow_results_app.
  - intros chain header Hp. cbn. unfold Pow_Prepare, refusePosa. by rewrite Hp.
Qed.
End Instance.

(** ** Sums over block heights *)

Fixpoint sum_to (f : Z → Z) (N : nat) : Z :=
  match N with O => 0 | S k => sum_to f k + f (Z.of_nat k) end.

Lemma sum_to_le f g N :
  (∀ n, 0 ≤ n < Z.of_nat N → f n ≤ g n) → sum_to f N ≤ sum_to g N.
Proof.
  induction N as [|N IH]; intros Hfg; cbn [sum_to]; [lia|].
  apply Z.add_le_mono; [apply IH; intros; apply Hfg; lia|apply Hfg; lia].
Qed.

Lemma sum_to_add f g N : sum_to (fun n => f n + g n) N = sum_to f N + sum_to g N.
Proof. induction N as [|N IH]; cbn [sum_to]; lia. Qed.

Lemma sum_to_scale c f N : sum_to (fun n => c * f n) N = c * sum_to f N.
Proof. induction N as [|N IH]; cbn [sum_to]; lia. Qed.

(** A constant paid below a height. *)
Lemma sum_to_below v B N :
  0 ≤ v → 0 ≤ B → sum_to (fun n => if n <? B then v else 0) N = v * Z.min (Z.of_nat N) B.
Proof.
  intros Hv HB. induction N as [|N IH]; cbn [sum_to]; [lia|].
  rewrite IH. destruct (Z.ltb_spec (Z.of_nat N) B); nia.
Qed.

(** The halving schedule of a base reward. *)
Definition halving (base : Z) (n : Z) : Z := Z.shiftr base (n / FerminuxHalvingInterval).

Lemma shiftr_halve base e : 0 ≤ base → 0 ≤ e →
  0 ≤ Z.shiftr base e ∧ 2 * Z.shiftr base (e + 1) ≤ Z.shiftr base e ≤ base.
Proof.
  intros Hb He. rewrite !Z.shiftr_div_pow2 by lia.
  assert (0 < 2 ^ e) by (apply Z.pow_pos_nonneg; lia).
  rewrite Z.pow_add_r, Z.pow_1_r, <- Z.div_div by lia.
  assert (0 ≤ base / 2 ^ e) by (apply Z.div_pos; lia).
  split; [done|]. split; [dlia|]. apply Z.div_le_upper_bound; nia.
Qed.

(** The emission of a halving schedule stays below twice its first era. *)
Lemma halving_sum base N :
  0 ≤ base → let I := FerminuxHalvingInterval in let e := Z.of_nat N / I in
  sum_to (halving base) N
  ≤ 2 * I * (base - Z.shiftr base e) + (Z.of_nat N - e * I) * Z.shiftr base e.
Proof.
  intros Hb. unfold FerminuxHalvingInterval. cbn zeta. induction N as [|N IH].
  { change (Z.of_nat 0 / 4500000) with 0. rewrite Z.shiftr_0_r. cbn [sum_to]. lia. }
  cbn [sum_to]. unfold halving at 2. unfold FerminuxHalvingInterval.
  set (n := Z.of_nat N) in *. replace (Z.of_nat (S N)) with (n + 1) by lia.
  assert (Hcase : (n + 1) / 4500000 = n / 4500000 ∨
    ((n + 1) / 4500000 = n / 4500000 + 1 ∧ n + 1 = (n / 4500000 + 1) * 4500000)) by dlia.
  assert (0 ≤ n / 4500000) by (apply Z.div_pos; lia).
  destruct (shiftr_halve base (n / 4500000) Hb) as (H1 & H2 & H3); [done|].
  destruct Hcase as [->|[-> Heq]]; [lia|]. rewrite Heq. nia.
Qed.

Lemma halving_total base N :
  0 ≤ base → sum_to (halving base) N ≤ 2 * FerminuxHalvingInterval * base.
Proof.
  intros Hb. pose proof (halving_sum base N Hb) as Hs. cbn zeta in Hs.
  unfold FerminuxHalvingInterval in *. set (n := Z.of_nat N) in *.
  assert (0 ≤ n / 4500000) by (apply Z.div_pos; lia).
  destruct (shiftr_halve base (n / 4500000) Hb) as (H1 & _ & _); [done|].
  assert (n - n / 4500000 * 4500000 ≤ 4500000) by dlia. nia.
Qed.

(** The schedule in the source, against the halving schedule. *)
Lemma FerminuxBlockReward_bounds n : 0 ≤ n →
  0 ≤ FerminuxBlockReward n ≤
  halving Ether n + (if n <? FerminuxEmissionForkBlock then 5 * Ether else 0).
Proof.
  intros Hn. unfold FerminuxBlockReward, halving, FerminuxLaunchBlockReward,
    FerminuxBaseBlockReward, FerminuxEmissionForkBlock.
  assert (0 ≤ n / FerminuxHalvingInterval) as He
    by (apply Z.div_pos; unfold FerminuxHalvingInterval; lia).
  destruct (shiftr_halve Ether (n / FerminuxHalvingInterval)) as (H1 & _ & _);
    [unfold Ether; lia|done|].
  destruct (Z.ltb_spec n 20000).
  - assert (n / FerminuxHalvingInterval = 0) as ->
      by (unfold FerminuxHalvingInterval; apply Z.div_small; lia).
    rewrite Z.shiftr_0_r. unfold Ether. lia.
  - destruct (_ || _); [lia|]. rewrite Z.mul_1_l. lia.
Qed.

Lemma emission_total N :
  sum_to FerminuxBlockReward N ≤ 9100000 * Ether.
Proof.
  etrans; [apply (sum_to_le _ (fun n => halving Ether n +
    (if n <? FerminuxEmissionForkBlock then 5 * Ether else 0)))|].
  { intros n Hn. apply FerminuxBlockReward_bounds. lia. }
  rewrite sum_to_add, sum_to_below by (unfold FerminuxEmissionForkBlock, Ether; lia).
  pose proof (halving_total Ether N) as Hh. unfold FerminuxHalvingInterval, Ether in *.
  unfold FerminuxEmissionForkBlock. lia.
Qed.

(** ** Properties *)

(** The whole proof-of-work schedule, continued for ever, emits at most 9.1
    million FMX, under the 9.2 million the source claims; and after era 60 it
    pays nothing. *)
Theorem FerminuxBlockReward_emission_capped (N : nat) :
  sum_to FerminuxBlockReward N ≤ 9100000 * Ether ∧
  ∀ n, 61 * FerminuxHalvingInterval ≤ n → FerminuxBlockReward n = 0.
Proof.
  split; [apply emission_total|]. intros n Hn. unfold FerminuxBlockReward.
  unfold FerminuxHalvingInterval, FerminuxEmissionForkBlock in *.
  replace (n <? 20000) with false by (symmetry; apply Z.ltb_ge; lia).
  replace (60 <? n / 4500000) with true by (symmetry; apply Z.ltb_lt; dlia).
  by rewrite orb_true_r.
Qed.

(** The difficulty rule is bounded. From a parent at or above the minimum,
    the next difficulty is never below the minimum, rises by at most 2/2048 of
    the parent's and falls by at most 99/2048 of it, whatever the timestamps
    of a later block. *)
Theorem calcDifficultyFerminux_bounded `{Crypto} time parent d :
  Difficulty parent = Some d → MinimumDifficulty ≤ d → Time parent ≤ time →
  ∃ d', calcDifficultyFerminux time parent = Ok d' ∧ MinimumDifficulty ≤ d' ∧
    d - 99 * (d / DifficultyBoundDivisor) ≤ d' ≤ d + 2 * (d / DifficultyBoundDivisor).
Proof.
  intros Hd Hmin Ht. unfold calcDifficultyFerminux. rewrite Hd. cbn [deref mbind result_bind].
  eexists. split; [reflexivity|]. split; [lia|].
  assert (0 ≤ (time - Time parent) / ferminuxDurationLimit)
    by (apply Z.div_pos; unfold ferminuxDurationLimit; lia).
  set (q := (time - Time parent) / ferminuxDurationLimit) in *.
  assert (0 ≤ d / DifficultyBoundDivisor)
    by (apply Z.div_pos; unfold DifficultyBoundDivisor, MinimumDifficulty in *; lia).
  set (y := d / DifficultyBoundDivisor) in *.
  destruct (UncleHash parent =? EmptyUncleHash); nia.
Qed.

Lemma calcDifficultyFerminux_bounded_witness :
  ∃ d', calcDifficultyFerminux (H := {| keccak256 _ := 0; RecoverPubkey _ _ := None |}) 20
          (sample_header 5 200000 []) = Ok d' ∧ MinimumDifficulty ≤ d'.
Proof.
  destruct (calcDifficultyFerminux_bounded (H := {| keccak256 _ := 0; RecoverPubkey _ _ := None |})
    20 (sample_header 5 200000 []) 200000) as (d' & E & Hm & _).
  - reflexivity.
  - vm_compute. discriminate.
  - vm_compute. discriminate.
  - exists d'. split; assumption.
Defined.
