(* ===== verification/Posa.v ===== *)
(** * The dispatching engine (chain/consensus/posa)

    Powhash below PosaBlock, the authority engine at and above it, the pinned
    checkpoint between them, and the authority block reward. The proof-of-work
    engine is used through the interface [PowEngine]. *)

From S2P Require Import Prelude Bytes Rlp Types Params Misc BreakGlass Snapshot Clique.
From S2P Require Import Authority Powhash.

(** ** Configuration *)

Definition sinkPercent : Z := 50.
Definition treasuryPercent : Z := 10.
Definition hundred : Z := 100.
Definition rewardDivisor : Z := 4.

Definition errCheckpointMismatch :=
  New "header does not match the hardcoded Ferminux authority checkpoint".
Definition errNotAuthorized := New "authority block assembly requires an authorized signer (Authorize not called)".

Record Config := MkConfig {
  cf_Period : Z;
  cf_Epoch : Z;
  InitialSigners : list Address;
  CheckpointHash : Hash;
  RewardSink : Address;
  Treasury : Address;
  BreakGlassOwners : list Address;
  BreakGlassThreshold : Z
}.

(** [FerminuxConfig]. *)
Definition FerminuxConfig : Config :=
  MkConfig FerminuxPosaPeriod FerminuxPosaEpoch FerminuxInitialSigners
    FerminuxPosaCheckpointHash FerminuxRewardSink FerminuxTreasury FerminuxBreakGlassOwners
    FerminuxBreakGlassThreshold.

Definition drop_checkpoint (cfg : Config) : Config :=
  MkConfig (cf_Period cfg) (cf_Epoch cfg) (InitialSigners cfg) 0 (RewardSink cfg)
    (Treasury cfg) (BreakGlassOwners cfg) (BreakGlassThreshold cfg).

Definition big_same (a b : option Z) : bool :=
  match a, b with Some x, Some y => x =? y | _, _ => false end.

(** [ConfigFor]: the checkpoint is kept only on the chain it pins. *)
Definition ConfigFor (chainConfig : option ChainConfig) : Config :=
  let cfg := FerminuxConfig in
  match chainConfig with
  | None => cfg
  | Some cc =>
      if CheckpointHash cfg =? 0 then cfg
      else
        let home := FerminuxChainConfig in
        let sameChain := big_same (ChainID cc) (ChainID home) in
        let sameFork := big_same (PosaBlock cc) (PosaBlock home) in
        if negb sameChain || negb sameFork then drop_checkpoint cfg else cfg
  end.

(** ** State *)

Record Posa := MkPosa {
  forkBlock : option Z;
  pconfig : option Config;
  poa : option Clique;
  psigner : Address
}.

Definition set_poa c (p : Posa) := MkPosa (forkBlock p) (pconfig p) c (psigner p).
Definition set_psigner s (p : Posa) := MkPosa (forkBlock p) (pconfig p) (poa p) s.

(** [New], for a non-nil chain configuration and proof-of-work engine. *)
Definition Posa_New (chainConfig : ChainConfig) (config : option Config)
  (d : gmap Hash Snapshot) : result Posa :=
  match PosaBlock chainConfig with
  | None => Ok (MkPosa None config None 0)
  | Some f =>
      _ ← fail_if (f <=? 0) (New "posa: PosaBlock must be >= 1 (block 0 is the genesis)");
      match config with
      | None => Err (New "posa: PosaBlock set but no authority config")
      | Some cf =>
          _ ← fail_if ((cf_Period cf =? 0) || (cf_Epoch cf =? 0))
                (Errorf "posa: invalid period %d / epoch %d" [cf_Period cf; cf_Epoch cf]);
          _ ← fail_if (length (InitialSigners cf) =? 0)%nat (New "posa: no initial signers");
          _ ← fail_if (Treasury cf =? 0) (New "posa: treasury address unset");
          _ ← fail_if (RewardSink cf =? 0) (New "posa: reward sink unset; deploy FMXRewardSink and pin params.FerminuxRewardSink in the release that sets PosaBlock");
          let owners := zlen (BreakGlassOwners cf) in
          _ ← fail_if ((0 <? owners) && ((BreakGlassThreshold cf <=? 0)
                       || (owners <? BreakGlassThreshold cf)))
                (Errorf "posa: break-glass threshold %d invalid for %d owners"
                   [BreakGlassThreshold cf; owners]);
          let c := Clique_New (MkCliqueConfig (cf_Period cf) (cf_Epoch cf)) d in
          let anchor := f - 1 in
          _ ← fail_if (negb (big_IsUint64 anchor)) (New "posa: PosaBlock out of range");
          let '(r, c) := SetBootstrap anchor (InitialSigners cf) c in
          _ ← r;
          if 0 <? owners then
            let '(r, c) := SetBreakGlass (Some (MkBreakGlassConfig (ChainID chainConfig)
                             (BreakGlassOwners cf) (BreakGlassThreshold cf))) c in
            _ ← r; Ok (MkPosa (Some f) config (Some c) 0)
          else Ok (MkPosa (Some f) config (Some c) 0)
      end
  end.

(** [IsPosa] and [isPosaHeader]. *)
Definition Posa_IsPosa (p : Posa) (num : option Z) : bool :=
  match forkBlock p, num with Some f, Some n => f <=? n | _, _ => false end.
Definition isPosaHeader (p : Posa) (h : Header) : bool := Posa_IsPosa p (Number h).

(** ** Calls into the authority engine *)

Definition posa (A : Type) : Type := Posa → result A * Posa.

(** A method call on the inner engine; it is nil on a pass-through engine. *)
Definition on_poa {A} (m : eng A) : posa A := fun p =>
  match poa p with
  | None => (Panic "nil pointer dereference", p)
  | Some c => let '(r, c) := m c in (r, set_poa (Some c) p)
  end.

(** [Authorize]. *)
Definition Posa_Authorize (s : Address) (f : bytes → result bytes) (p : Posa) : Posa :=
  let p := set_psigner s p in
  match poa p with
  | None => p
  | Some c => set_poa (Some (snd (Clique_Authorize s f c))) p
  end.

Section Posa.
Context `{Crypto} `{PowEngine}.

(** [Author]. *)
Definition Posa_Author (p : Posa) (h : Header) : result Address :=
  if isPosaHeader p h then Clique_Author h else pow_Author h.

(** [verifyCheckpoint]. *)
Definition verifyCheckpoint (p : Posa) (h : Header) : result unit :=
  match forkBlock p, pconfig p, Number h with
  | Some f, Some cf, Some n =>
      if CheckpointHash cf =? 0 then Ok tt
      else if n + 1 =? f then
        fail_if (negb (Header_Hash h =? CheckpointHash cf)) errCheckpointMismatch
      else if n =? f then
        fail_if (negb (ParentHash h =? CheckpointHash cf)) errCheckpointMismatch
      else Ok tt
  | _, _, _ => Ok tt
  end.

(** [needsCheckpointFilter]. *)
Definition needsCheckpointFilter (p : Posa) (headers : list Header) : bool :=
  match forkBlock p, pconfig p, head headers, last headers with
  | Some f, Some cf, Some h0, Some hl =>
      if CheckpointHash cf =? 0 then false
      else
        match Number h0, Number hl with
        | Some first, Some last => (first <=? f) && (f - 1 <=? last)
        | _, _ => false
        end
  | _, _, _, _ => false
  end.

(** [VerifyHeader]. *)
Definition Posa_VerifyHeader (chain : ChainReader) (now : Z) (h : Header) (seal : bool)
  : posa unit := fun p =>
  match verifyCheckpoint p h with
  | Ok _ =>
      if isPosaHeader p h then on_poa (Clique_VerifyHeader chain now h) p
      else (pow_VerifyHeader chain now h seal, p)
  | Err e => (Err e, p)
  | Panic w => (Panic w, p)
  end.

(** The verdict of [relay]: a nil inner result is replaced by the
    checkpoint's. *)
Definition checked (p : Posa) (h : Header) (r : result unit) : result unit :=
  match r with Ok _ => verifyCheckpoint p h | r => r end.

Definition relay (p : Posa) (headers : list Header) (inner : list (result unit))
  : list (result unit) := zip_with (checked p) headers inner.

(** The index of the first authority header. *)
Fixpoint split_at (p : Posa) (headers : list Header) : nat :=
  match headers with
  | [] => 0
  | h :: rest => if isPosaHeader p h then 0 else S (split_at p rest)
  end.

(** [VerifyHeaders]: the verdicts in the order they are delivered, without an
    abort. *)
Definition Posa_VerifyHeaders (chain : ChainReader) (now : Z) (headers : list Header)
  (seals : list bool) : posa (list (result unit)) := fun p =>
  match headers with
  | [] => (Ok (pow_VerifyHeaders chain now headers seals), p)
  | _ =>
      let split := split_at p headers in
      let filter := needsCheckpointFilter p headers in
      if (split =? length headers)%nat then
        let rs := pow_VerifyHeaders chain now headers seals in
        (Ok (if filter then relay p headers rs else rs), p)
      else if (split =? 0)%nat then
        match on_poa (Clique_VerifyHeaders chain now headers) p with
        | (Ok rs, p') => (Ok (if filter then relay p headers rs else rs), p')
        | r => r
        end
      else
        let pow := pow_VerifyHeaders chain now (take split headers) (take split seals) in
        match on_poa (VerifyHeadersWithAncestors chain now (drop split headers)
                        (take split headers)) p with
        | (Ok rs, p') => (Ok (relay p headers (pow ++ rs)), p')
        | r => r
        end
  end.

(** [VerifyUncles]. *)
Definition Posa_VerifyUncles (p : Posa) (chain : ChainReader) (now : Z) (block : Block)
  : result unit :=
  if isPosaHeader p (CopyHeader (blk_header block)) then Clique_VerifyUncles block
  else pow_VerifyUncles chain now block.

(** [Prepare]. *)
Definition Posa_Prepare (chain : ChainReader) (now : Z) (pick : nat → nat) (h : Header)
  : posa Header := fun p =>
  if isPosaHeader p h then on_poa (Clique_Prepare chain now pick h) p
  else (pow_Prepare chain h, p).

(** ** Rewards *)

(** [BlockReward]. *)
Definition BlockReward (num : Z) : Z := FerminuxBlockReward num / rewardDivisor.

(** [SplitReward]: signer, sink, treasury. *)
Definition SplitReward (total : Z) : Z * Z * Z :=
  let sink := total * sinkPercent / hundred in
  let treasury := total * treasuryPercent / hundred in
  (total - sink - treasury, sink, treasury).

Definition add_positive (a : Address) (v : Z) (b : Balances) : Balances :=
  if 0 <? v then AddBalance a v b else b.

(** [finalize]; [root] is the state's IntermediateRoot. *)
Definition posa_finalize (root : Balances → bool → Hash) (cf : Config) (chain : ChainReader)
  (h : Header) (signer : Address) (b : Balances) : result (Header * Balances) :=
  number ← deref (Number h);
  let '(signerShare, sinkShare, treasuryShare) := SplitReward (BlockReward number) in
  let b := add_positive signer signerShare b in
  let b := add_positive (RewardSink cf) sinkShare b in
  let b := add_positive (Treasury cf) treasuryShare b in
  Ok (set_UncleHash (set_Root h (root b (IsEIP158 (chain_Config chain) (Number h))))
        EmptyUncleHash, b).

(** [Finalize]: the reward goes to the recovered signer, or to nobody. *)
Definition Posa_Finalize (root : Balances → bool → Hash) (p : Posa) (chain : ChainReader)
  (h : Header) (uncles : list Header) (b : Balances) : result (Header * Balances) :=
  if negb (isPosaHeader p h) then pow_Finalize chain h uncles b
  else
    match Clique_Author h with
    | Ok signer =>
        cf ← deref (pconfig p);
        posa_finalize root cf chain h signer b
    | Err _ =>
        Ok (set_UncleHash (set_Root h (root b (IsEIP158 (chain_Config chain) (Number h))))
              EmptyUncleHash, b)
    | Panic w => Panic w
    end.

(** [FinalizeAndAssemble]: the header and balances of the assembled block. *)
Definition Posa_FinalizeAndAssemble (root : Balances → bool → Hash) (p : Posa)
  (chain : ChainReader) (h : Header) (uncles : list Header) (b : Balances)
  : result (Header * Balances) :=
  if negb (isPosaHeader p h) then pow_Finalize chain h uncles b
  else
    signer ←
      match Clique_Author h with
      | Ok signer => Ok signer
      | Err _ => if psigner p =? 0 then Err errNotAuthorized else Ok (psigner p)
      | Panic w => Panic w
      end;
    cf ← deref (pconfig p);
    posa_finalize root cf chain h signer b.

(** [SealHash]. *)
Definition Posa_SealHash (p : Posa) (h : Header) : result Hash :=
  if isPosaHeader p h then SealHash h else Ok (pow_SealHash h).

(** [CalcDifficulty]. *)
Definition Posa_CalcDifficulty (chain : ChainReader) (time : Z) (parent : Header)
  : posa (option Z) := fun p =>
  if match Number parent with Some n => Posa_IsPosa p (Some (n + 1)) | None => false end
  then on_poa (Clique_CalcDifficulty chain parent) p
  else (d ← pow_CalcDifficulty chain time parent; Ok (Some d), p).

(** ** Block tags (tags.go) *)

(** [below]. *)
Definition below (n depth : Z) : Z := if n <? depth then 0 else n - depth.

(** [FinalizedNumber]. *)
Definition FinalizedNumber (p : Posa) (hd : option Header) (maxReorgDepth : Z) : option Z :=
  match poa p, hd with
  | Some _, Some h =>
      if negb (isPosaHeader p h) || (maxReorgDepth <=? 0) then None
      else n ← Number h; Some (below (big_Uint64 n) (u64 maxReorgDepth))
  | _, _ => None
  end.

(** [SafeNumber]. *)
Definition SafeNumber (chain : ChainReader) (hd : option Header) : posa (option Z) := fun p =>
  match poa p, hd with
  | Some _, Some h =>
      if negb (isPosaHeader p h) then (Ok None, p)
      else
        match on_poa (attempt (SignersAt chain h)) p with
        | (Ok (Some (a :: l)), p) =>
            (n ← NumberU64 h; Ok (Some (below n (Z.of_nat (length (a :: l) / 2 + 1)))), p)
        | (Ok _, p) => (Ok None, p)
        | (Err e, p) => (Err e, p)
        | (Panic w, p) => (Panic w, p)
        end
  | _, _ => (Ok None, p)
  end.
End Posa.

(** ** Batches *)

(** A batch as the callers pass it: consecutive numbers. *)
Definition ascending (headers : list Header) : Prop :=
  ∃ n0, ∀ i h, headers !! i = Some h → Number h = Some (n0 + Z.of_nat i).

Lemma ascending_last headers n0 hl :
  (∀ i h, headers !! i = Some h → Number h = Some (n0 + Z.of_nat i)) →
  last headers = Some hl → Number hl = Some (n0 + Z.of_nat (length headers) - 1).
Proof.
  intros Hn Hl. rewrite last_lookup in Hl. rewrite (Hn _ _ Hl).
  destruct headers; [done|]. cbn [length]. f_equal. lia.
Qed.

Section Batches.
Context `{Crypto} `{PowEngine} `{!PowEngineLaws}.

Lemma verify_batch_length chain now before hs c rs c' :
  verify_batch chain now before hs c = (Ok rs, c') → length rs = length hs.
Proof.
  revert before c rs c'. induction hs as [|h hs IH]; intros before c rs c' E; cbn in E.
  { by injection E as <- _. }
  destruct (verifyHeader chain now h before c) as [r c1].
  destruct r as [u|e|w]; [| |done];
    (destruct (verify_batch chain now (before ++ [h]) hs c1) as [[rs'| |] c2] eqn:E'; [|done..];
     injection E as <- _; cbn; f_equal; by eapply IH).
Qed.

Lemma split_at_spec p hs :
  (split_at p hs ≤ length hs)%nat ∧
  Forall (fun h => isPosaHeader p h = false) (take (split_at p hs) hs) ∧
  (∀ h, hs !! split_at p hs = Some h → isPosaHeader p h = true).
Proof.
  induction hs as [|h hs (IH1 & IH2 & IH3)]; cbn [split_at].
  { split; [lia|]. split; [constructor|done]. }
  destruct (isPosaHeader p h) eqn:E.
  - split; [lia|]. split; [constructor|]. by intros h' [= <-].
  - cbn. split; [lia|]. split; [by constructor|done].
Qed.

(** After the first authority header all are. *)
Lemma split_at_suffix p hs :
  ascending hs → Forall (fun h => isPosaHeader p h = true) (drop (split_at p hs) hs).
Proof.
  intros [n0 Hn]. destruct (split_at_spec p hs) as (_ & _ & Hsp).
  apply Forall_lookup. intros i h Hi. rewrite lookup_drop in Hi.
  pose proof (Hn _ _ Hi) as Hni.
  destruct (hs !! split_at p hs) as [h0|] eqn:E0.
  - specialize (Hsp h0 eq_refl). pose proof (Hn _ _ E0) as Hn0.
    unfold isPosaHeader, Posa_IsPosa in *. rewrite Hn0 in Hsp. rewrite Hni.
    destruct (forkBlock p); [|done]. bprop. apply Z.leb_le. lia.
  - apply lookup_ge_None in E0. apply lookup_lt_Some in Hi. lia.
Qed.

(** A batch the filter lets pass has no header the checkpoint applies to. *)
Lemma filter_skip p hs h :
  ascending hs → needsCheckpointFilter p hs = false → h ∈ hs → verifyCheckpoint p h = Ok tt.
Proof.
  intros [n0 Hn] Hf [i Hi]%list_elem_of_lookup_1. pose proof (Hn _ _ Hi) as Hni.
  unfold verifyCheckpoint, needsCheckpointFilter in *. rewrite Hni.
  destruct (forkBlock p) as [f|]; [|done]. destruct (pconfig p) as [cf|]; [|done].
  destruct (CheckpointHash cf =? 0) eqn:Hz; [done|].
  destruct hs as [|h0 hs]; [done|]. cbn [head] in Hf.
  destruct (last (h0 :: hs)) as [hl|] eqn:Hl.
  2:{ apply last_None in Hl. done. }
  pose proof (Hn 0%nat h0 eq_refl) as Hn0.
  rewrite Hn0, (ascending_last _ n0 hl Hn Hl) in Hf.
  apply lookup_lt_Some in Hi. apply andb_false_iff in Hf.
  destruct (Z.eqb_spec (n0 + Z.of_nat i + 1) f); [exfalso|].
  { destruct Hf as [Hf|Hf]; bprop; lia. }
  destruct (Z.eqb_spec (n0 + Z.of_nat i) f); [exfalso|done].
  destruct Hf as [Hf|Hf]; bprop; lia.
Qed.

Lemma relay_skip p hs rs :
  (∀ h, h ∈ hs → verifyCheckpoint p h = Ok tt) → length rs = length hs → relay p hs rs = rs.
Proof.
  revert rs. induction hs as [|h hs IH]; intros [|r rs] Hc Hl; try done.
  unfold relay in *. cbn [zip_with]. f_equal.
  - unfold checked. destruct r as [[]| |]; [|done..]. apply Hc. set_solver.
  - apply IH; [|by injection Hl]. intros h' Hh'. apply Hc. set_solver.
Qed.

(** The reference verdicts: each half by its own engine, the checkpoint on
    every header. *)
Definition reference_verdicts (chain : ChainReader) (now : Z) (headers : list Header)
  (seals : list bool) (p : Posa) (rs : list (result unit)) (p' : Posa) : Prop :=
  let pre := take (split_at p headers) headers in
  let suf := drop (split_at p headers) headers in
  ∃ rs2, rs = relay p headers
                (pow_VerifyHeaders chain now pre (take (length pre) seals) ++ rs2) ∧
    ((suf = [] ∧ rs2 = [] ∧ p' = p) ∨
     (∃ c c', poa p = Some c ∧ verify_batch chain now pre suf c = (Ok rs2, c') ∧
              p' = set_poa (Some c') p)).

Lemma pow_VerifyHeaders_nil chain now seals : pow_VerifyHeaders chain now [] seals = [].
Proof.
  apply nil_length_inv. by rewrite pow_results_length.
Qed.

Lemma VerifyHeaders_reference chain now headers seals p rs p' :
  ascending headers → length seals = length headers →
  Posa_VerifyHeaders chain now headers seals p = (Ok rs, p') →
  reference_verdicts chain now headers seals p rs p'.
Proof.
  intros Hasc Hseals E. unfold reference_verdicts. cbn zeta.
  destruct (split_at_spec p headers) as (Hle & _ & _).
  assert (Hpre : length (take (split_at p headers) headers) = split_at p headers)
    by (rewrite length_take; lia).
  rewrite Hpre. unfold Posa_VerifyHeaders in E.
  assert (Hskip : ∀ rs0, length rs0 = length headers →
    (if needsCheckpointFilter p headers then relay p headers rs0 else rs0)
    = relay p headers rs0).
  { intros rs0 Hl. destruct (needsCheckpointFilter p headers) eqn:Hf; [done|].
    symmetry. apply relay_skip; [|done]. intros. by eapply filter_skip. }
  destruct headers as [|h0 hs0] eqn:Hh.
  { injection E as <- <-. exists []. cbn. rewrite pow_VerifyHeaders_nil.
    split; [done|by left]. }
  rewrite <- Hh in *. destruct (Nat.eqb_spec (split_at p headers) (length headers)) as [Hs|Hs].
  - injection E as <- <-. exists []. rewrite app_nil_r, Hs, take_ge, drop_ge by lia.
    rewrite (take_ge seals) by lia. rewrite Hskip by apply pow_results_length.
    split; [done|by left].
  - destruct (Nat.eqb_spec (split_at p headers) 0) as [Hs0|Hs0].
    + rewrite Hs0. cbn [take drop]. rewrite pow_VerifyHeaders_nil. cbn [app].
      unfold on_poa, Clique_VerifyHeaders in E. destruct (poa p) as [c|] eqn:Hp; [|done].
      destruct (verify_batch chain now [] headers c) as [[rs2| |] c'] eqn:Hb; [|done..].
      injection E as <- <-. exists rs2.
      rewrite Hskip by (by eapply verify_batch_length). split; [done|]. right.
      by exists c, c'.
    + unfold on_poa, VerifyHeadersWithAncestors in E. destruct (poa p) as [c|] eqn:Hp; [|done].
      destruct (verify_batch chain now _ _ c) as [[rs2| |] c'] eqn:Hb; [|done..].
      injection E as <- <-. exists rs2. split; [done|]. right. by exists c, c'.
Qed.

Lemma relay_lookup p hs rs i r :
  relay p hs rs !! i = Some r → ∃ h r0, hs !! i = Some h ∧ rs !! i = Some r0 ∧ r = checked p h r0.
Proof.
  unfold relay. rewrite lookup_zip_with_Some. naive_solver.
Qed.
End Batches.

(** What the pinned checkpoint says of a header. *)
Definition on_checkpoint `{Crypto} (f : Z) (hash : Hash) (h : Header) : Prop :=
  (Number h = Some (f - 1) → Header_Hash h = hash) ∧
  (Number h = Some f → ParentHash h = hash).

Lemma verifyCheckpoint_pins `{Crypto} p h f cf :
  forkBlock p = Some f → pconfig p = Some cf → CheckpointHash cf ≠ 0 →
  verifyCheckpoint p h = Ok tt → on_checkpoint f (CheckpointHash cf) h.
Proof.
  intros Hf Hc Hz E. unfold verifyCheckpoint in E. rewrite Hf, Hc in E.
  split; intros Hn; rewrite Hn in E; rewrite (proj2 (Z.eqb_neq _ _) Hz) in E.
  - replace (f - 1 + 1 =? f) with true in E by (symmetry; apply Z.eqb_eq; lia).
    apply fail_if_ok in E. by bprop.
  - replace (f + 1 =? f) with false in E by (symmetry; apply Z.eqb_neq; lia).
    rewrite Z.eqb_refl in E. apply fail_if_ok in E. by bprop.
Qed.

(** ** Rewards *)

(** The sum of all balances. *)
Definition total (b : Balances) : Z := foldr Z.add 0 (snd <$> map_to_list b).

Lemma foldr_add_perm (l1 l2 : list Z) : l1 ≡ₚ l2 → foldr Z.add 0 l1 = foldr Z.add 0 l2.
Proof. induction 1; cbn; lia. Qed.

Lemma total_insert_fresh a v b : b !! a = None → total (<[a := v]> b) = v + total b.
Proof.
  intros Hn. unfold total.
  rewrite (foldr_add_perm _ (snd <$> ((a, v) :: map_to_list b)));
    [done|].
  apply fmap_Permutation. by apply (map_to_list_insert (M := gmap Address)).
Qed.

Lemma total_AddBalance a v b : total (AddBalance a v b) = total b + v.
Proof.
  unfold AddBalance. destruct (b !! a) as [w|] eqn:Hw; cbn [default from_option id].
  - rewrite <- (insert_delete_eq b a (w + v)), total_insert_fresh by apply lookup_delete_eq.
    rewrite <- (insert_delete_id b a w Hw) at 2.
    rewrite total_insert_fresh by apply lookup_delete_eq. lia.
  - rewrite total_insert_fresh by done. lia.
Qed.

Lemma total_add_positive a v b : 0 ≤ v → total (add_positive a v b) = total b + v.
Proof.
  intros Hv. unfold add_positive. destruct (Z.ltb_spec 0 v).
  - apply total_AddBalance.
  - lia.
Qed.

Lemma add_positive_other a v b x : x ≠ a → add_positive a v b !! x = b !! x.
Proof.
  intros Hx. unfold add_positive, AddBalance. case_match; [|done]. by rewrite lookup_insert_ne.
Qed.

(** The split is exact; the signer gets 40% and at most two units of rounding. *)
Lemma SplitReward_exact reward signer sink treasury :
  0 ≤ reward → SplitReward reward = (signer, sink, treasury) →
  signer + sink + treasury = reward ∧ 0 ≤ sink ∧ 0 ≤ treasury ∧
  100 * sink ≤ 50 * reward ∧ 100 * treasury ≤ 10 * reward ∧
  40 * reward ≤ 100 * signer < 40 * reward + 200.
Proof.
  intros Hr [= <- <- <-]. unfold sinkPercent, treasuryPercent, hundred. dlia.
Qed.

Lemma BlockReward_nonneg n : 0 ≤ n → 0 ≤ BlockReward n.
Proof.
  intros Hn. unfold BlockReward, rewardDivisor. apply Z.div_pos; [|lia].
  by apply FerminuxBlockReward_bounds.
Qed.

(** The schedule the chain pays: Powhash below PosaBlock, a quarter from it. *)
Definition paid_reward (f : Z) (n : Z) : Z :=
  if n <? f then FerminuxBlockReward n else BlockReward n.

Lemma paid_reward_total f N :
  0 ≤ f → 4 * sum_to (paid_reward f) N
          ≤ 9100000 * Ether + 3 * (f * Ether + FerminuxEmissionForkBlock * (5 * Ether)).
Proof.
  intros Hf. rewrite <- sum_to_scale.
  etrans; [apply (sum_to_le _ (fun n => FerminuxBlockReward n +
    3 * ((if n <? f then Ether else 0)
         + (if n <? FerminuxEmissionForkBlock then 5 * Ether else 0))))|].
  - intros n Hn. unfold paid_reward, BlockReward, rewardDivisor.
    destruct (FerminuxBlockReward_bounds n) as [Hb1 Hb2]; [lia|].
    assert (halving Ether n ≤ Ether).
    { unfold halving. apply shiftr_halve; [unfold Ether; lia|].
      apply Z.div_pos; unfold FerminuxHalvingInterval; lia. }
    assert (0 < Ether) by (unfold Ether; lia).
    destruct (n <? f), (n <? FerminuxEmissionForkBlock); try lia; dlia.
  - rewrite sum_to_add, sum_to_scale, sum_to_add, !sum_to_below
      by (unfold FerminuxEmissionForkBlock, Ether; lia).
    pose proof (emission_total N). unfold FerminuxEmissionForkBlock, Ether in *. lia.
Qed.

(** With the rewards of two uncles for each proof-of-work block, at most 53/16 of
    the base reward. *)
Definition most_minted (f : Z) (n : Z) : Z :=
  16 * paid_reward f n + (if n <? f then 37 * FerminuxBlockReward n else 0).
Lemma most_minted_total f N : 0 ≤ f →
  sum_to (most_minted f) N ≤ 16 * sum_to (paid_reward f) N + 37 * (f * Ether + FerminuxEmissionForkBlock * (5 * Ether)).
Proof.
  intros Hf. unfold most_minted. rewrite sum_to_add, sum_to_scale. apply Z.add_le_mono_l.
  etrans; [apply (sum_to_le _ (fun n => 37 * ((if n <? f then Ether else 0)
    + (if n <? FerminuxEmissionForkBlock then 5 * Ether else 0))))|].
  - intros n Hn. destruct (FerminuxBlockReward_bounds n) as [_ Hb]; [lia|].
    assert (halving Ether n ≤ Ether).
    { unfold halving. apply shiftr_halve; [unfold Ether; lia|]. apply Z.div_pos; unfold FerminuxHalvingInterval; lia. }
    assert (0 < Ether) by (unfold Ether; lia). destruct (n <? f), (n <? FerminuxEmissionForkBlock); lia.
  - rewrite sum_to_scale, sum_to_add, !sum_to_below by (unfold FerminuxEmissionForkBlock, Ether; lia).
    unfold FerminuxEmissionForkBlock, Ether. lia.
Qed.

(** ** Uncles and what they are paid *)

(** What a header reader promises: a header is found under its number. *)
Definition numbered (chain : ChainReader) : Prop :=
  ∀ hash n h, GetHeader chain hash n = Some h → Number h = Some n ∧ n < two64 - 1.
Definition no_higher (n : Z) (h : Header) : Prop := ∃ k, Number h = Some k ∧ k ≤ n.

Lemma gather_ancestors_low `{Crypto} chain GetUncles n depth : numbered chain → ∀ parent number uncles ancestors,
  number ≤ n ∨ number = two64 - 1 → 0 ≤ number → map_Forall (λ _, no_higher n) ancestors →
  map_Forall (λ _, no_higher n) (gather_ancestors depth chain GetUncles parent number uncles ancestors).2.
Proof.
  intros Hr. induction depth as [|depth IH]; intros parent number uncles ancestors Hn Hge Ha; cbn [gather_ancestors]; [done|].
  destruct (GetHeader chain parent number) as [a|] eqn:E; [|done]. destruct (Hr _ _ _ E) as [Ea Hlt].
  assert (Hle : number ≤ n) by lia.
  assert (Ha' : map_Forall (λ _, no_higher n) (<[parent := a]> ancestors)).
  { apply map_Forall_insert_2; [by exists number|done]. }
  assert (Hnext : sub64 number 1 ≤ n ∨ sub64 number 1 = two64 - 1).
  { unfold sub64, u64, two64 in *. destruct (decide (number = 0)) as [->|]; [by right|].
    left. rewrite Z.mod_small by lia. lia. }
  assert (0 ≤ sub64 number 1) by (pose proof (u64_bound (number - 1)) as Hb; unfold is_u64, sub64 in *; lia).
  destruct (_ =? _); [by apply IH|]. destruct (GetUncles parent number); [by apply IH|done].
Qed.
Lemma Pow_verifyHeader_number `{Crypto} hashimoto chain u parent b1 b2 now k :
  Pow_verifyHeader hashimoto chain u parent b1 b2 now = Ok tt → Number parent = Some k → Number u = Some (k + 1).
Proof.
  intros E Hp. unfold Pow_verifyHeader in E. repeat (apply bind_ok in E as (? & ? & E)).
  destruct (Number u) as [n|]; cbn [deref] in *; [|done]. rewrite Hp in *. cbn [deref] in *. simplify_eq.
  repeat match goal with Hx : fail_if _ _ = Ok _ |- _ => apply fail_if_ok in Hx end. bprop. f_equal. lia.
Qed.
Lemma check_uncles_low `{Crypto} hashimoto chain now parent ancestors n us : map_Forall (λ _, no_higher n) ancestors →
  ∀ uncles, check_uncles hashimoto chain now parent ancestors uncles us = Ok tt → Forall (no_higher (n + 1)) us.
Proof.
  intros Ha. induction us as [|u us IH]; intros uncles E; cbn [check_uncles] in E; [constructor|].
  apply bind_ok in E as ([] & _ & E). apply bind_ok in E as ([] & _ & E).
  destruct (ancestors !! ParentHash u) as [a|] eqn:Ea; [|done]. destruct (Ha _ _ Ea) as (k & Hk & Hle).
  apply bind_ok in E as ([] & _ & E). apply bind_ok in E as ([] & Hv & E). constructor; [|by eapply IH].
  exists (k + 1). split; [by eapply Pow_verifyHeader_number|lia].
Qed.
(** At most two uncles, of a number at most one above the block's: the code
    looks up the parent of an uncle among the ancestors and the block itself. *)
Lemma Pow_VerifyUncles_low `{Crypto} hashimoto chain now GetUncles block n : numbered chain →
  Number (blk_header block) = Some n → 0 ≤ n < two64 - 1 →
  Pow_VerifyUncles hashimoto chain now GetUncles block = Ok tt →
  zlen (blk_uncles block) ≤ 2 ∧ Forall (no_higher (n + 1)) (blk_uncles block).
Proof.
  intros Hr Hn Hb E. unfold Pow_VerifyUncles in E. apply bind_ok in E as ([] & Hm%fail_if_ok & E).
  unfold maxUncles in Hm. bprop. split; [lia|]. destruct (blk_uncles block) as [|u us]; [constructor|].
  assert (Em : NumberU64 (CopyHeader (blk_header block)) = Ok n).
  { unfold NumberU64, CopyHeader. cbn [Number]. rewrite Hn. cbn [default from_option id deref mbind result_bind].
    unfold big_Uint64. rewrite Z.abs_eq, u64_small by (unfold is_u64; lia). done. }
  rewrite Em in E. cbn [mbind result_bind] in E.
  pose proof (gather_ancestors_low chain GetUncles n 7 Hr (ParentHash (CopyHeader (blk_header block))) (sub64 n 1) ∅ ∅) as Hg.
  destruct (gather_ancestors _ _ _ _ _ _ _) as [uncles ancestors]. cbn [snd] in Hg. eapply check_uncles_low; [|exact E].
  apply map_Forall_insert_2; [exists n; unfold CopyHeader; cbn; by rewrite Hn|]. apply Hg; [| |apply map_Forall_empty].
  - unfold sub64, u64, two64 in *. destruct (decide (n = 0)) as [->|]; [by right|]. left. rewrite Z.mod_small by lia. lia.
  - pose proof (u64_bound (n - 1)) as Hu. unfold is_u64, sub64 in *. lia.
Qed.

(** An uncle takes at most 9/8 of the reward and gives the block 1/32 of it. *)
Lemma uncle_rewards_total R n us : 0 ≤ R → Forall (no_higher (n + 1)) us → ∀ rw b rw' b',
  uncle_rewards R n us rw b = Ok (rw', b') →
  32 * (total b' + rw') ≤ 32 * (total b + rw) + 37 * R * zlen us.
Proof.
  intros HR Hus. induction Hus as [|u us (k & Hk & Hle) _ IH]; intros rw b rw' b' E; cbn [uncle_rewards] in E.
  { apply Ok_inj in E. injection E as <- <-. unfold zlen. cbn [length]. lia. }
  rewrite Hk in E. cbn [deref mbind result_bind] in E. apply IH in E. rewrite total_AddBalance in E.
  assert (8 * ((k + 8 - n) * R / 8) ≤ 9 * R) by (etrans; [apply Z.mul_div_le; lia|apply Z.mul_le_mono_nonneg_r; lia]).
  assert (32 * (R / 32) ≤ R) by (apply Z.mul_div_le; lia).
  unfold zlen in *. cbn [length]. rewrite Nat2Z.inj_succ. lia.
Qed.
Lemma accumulateRewards_total h us b b' n : Number h = Some n → 0 ≤ n → zlen us ≤ 2 → Forall (no_higher (n + 1)) us →
  accumulateRewards h us b = Ok b' → 16 * total b' ≤ 16 * total b + 53 * FerminuxBlockReward n.
Proof.
  intros Hn Hge Hlen Hus E. unfold accumulateRewards in E. rewrite Hn in E. cbn [deref mbind result_bind] in E. cbv zeta in E.
  destruct (FerminuxBlockReward_bounds n Hge) as [HR _]. set (R := FerminuxBlockReward n) in *.
  apply bind_ok in E as ([rw b1] & E1 & E). apply Ok_inj in E as <-. rewrite total_AddBalance.
  pose proof (uncle_rewards_total R n us HR Hus _ _ _ _ E1) as Ht.
  assert (37 * R * zlen us ≤ 37 * R * 2) by (apply Z.mul_le_mono_nonneg_l; lia). lia.
Qed.

(** ** Construction *)

Lemma uniq_signers_spec seen l r :
  uniq_signers seen l = Ok r →
  NoDup r ∧ (∀ a, a ∈ r ↔ a ∈ l ∧ a ∉ seen) ∧ 0 ∉ l.
Proof.
  revert seen r. induction l as [|s l IH]; intros seen r E; cbn [uniq_signers] in E.
  { apply Ok_inj in E as <-. split; [constructor|set_solver]. }
  apply bind_ok in E as (u & Hz%fail_if_ok & E). bprop.
  case_bool_decide as Hin.
  - destruct (IH _ _ E) as (Hnd & Hel & H0). split; [done|]. split; [|set_solver].
    intros a. rewrite Hel. set_solver.
  - apply bind_ok in E as (rest & Hr & E). apply Ok_inj in E as <-.
    destruct (IH _ _ Hr) as (Hnd & Hel & H0). split.
    + constructor; [|done]. rewrite Hel. set_solver.
    + split; [|set_solver]. intros a. rewrite elem_of_cons, Hel.
      destruct (decide (a = s)); set_solver.
Qed.

Lemma SetBootstrap_ok anchor l c c' :
  SetBootstrap anchor l c = (Ok tt, c') →
  ∃ sorted, c' = set_bootstrap (Some (MkBootstrap anchor sorted)) c ∧
    sorted ≠ [] ∧ StronglySorted Z.lt sorted ∧ 0 ∉ sorted ∧ ∀ a, a ∈ sorted ↔ a ∈ l.
Proof.
  unfold SetBootstrap, mbind, eng_bind, lift, modify. intros E.
  destruct l as [|x l]; [done|]. cbn [length Nat.eqb fail_if] in E.
  destruct (uniq_signers ∅ (x :: l)) as [r| |] eqn:Hu; [|done..].
  injection E as <-. destruct (uniq_signers_spec _ _ _ Hu) as (Hnd & Hel & H0).
  assert (Hs : ∀ a, a ∈ sort_signers r ↔ a ∈ x :: l).
  { intros a. rewrite sort_signers_perm, Hel. set_solver. }
  exists (sort_signers r). split; [done|]. split; [|split; [by apply sort_signers_lt|]].
  - intros Hnil. assert (x ∈ sort_signers r) as Hx by (apply Hs; set_solver).
    rewrite Hnil in Hx. by apply elem_of_nil in Hx.
  - split; [|done]. rewrite Hs. done.
Qed.

(** ** A concrete dispatcher for the witnesses: PosaBlock 11 on the demo chain *)

Definition demo_pow : PowEngine :=
  powhash_engine (H := inj_crypto) (fun _ _ _ => ([], [])) (fun _ _ => None) (fun _ _ => 0).

Lemma demo_pow_laws : PowEngineLaws (H := demo_pow).
Proof. apply powhash_laws. Qed.

Definition demo_config : Config :=
  MkConfig 7 30000 [1; 2; 3] (Header_Hash (H := inj_crypto) Demo.parent) 50 60 [] 0.

Definition demo_posa : Posa := MkPosa (Some 11) (Some demo_config) (Some Demo.engine) 3.

Lemma demo_batch :
  ∃ p', Posa_VerifyHeaders (H := inj_crypto) (H0 := demo_pow) (Demo.chain_of Demo.both) 200
    [Demo.next] [true] demo_posa = (Ok [Ok tt], p').
Proof.
  destruct (Posa_VerifyHeaders _ _ _ _ _) as [r p'] eqn:E. exists p'.
  assert (Hr : fst (Posa_VerifyHeaders (H := inj_crypto) (H0 := demo_pow)
    (Demo.chain_of Demo.both) 200 [Demo.next] [true] demo_posa) = Ok [Ok tt])
    by (vm_compute; reflexivity).
  rewrite E in Hr. cbn [fst] in Hr. rewrite Hr. reflexivity.
Qed.

Lemma demo_ascending : ascending [Demo.next].
Proof.
  exists 11. intros [|i] h Hi; [|discriminate Hi]. injection Hi as <-. reflexivity.
Qed.

(** ** Properties *)

(** C20: a batch is verified as its reference says. For consecutive headers the
    dispatcher's verdicts, in order, are those of Powhash on the headers below
    PosaBlock and of the authority engine on the rest, with the headers before
    each as its parents, and the checkpoint verdict on every header the inner
    engine accepts; the filter that skips the checkpoint relay changes nothing. *)
Theorem Posa_VerifyHeaders_reference `{Crypto} `{PowEngine} `{!PowEngineLaws}
  chain now headers seals p rs p' :
  ascending headers → length seals = length headers →
  Posa_VerifyHeaders chain now headers seals p = (Ok rs, p') →
  reference_verdicts chain now headers seals p rs p' ∧
  Forall (fun h => isPosaHeader p h = false) (take (split_at p headers) headers) ∧
  Forall (fun h => isPosaHeader p h = true) (drop (split_at p headers) headers).
Proof.
  intros Ha Hs E. split; [by apply VerifyHeaders_reference|].
  split; [apply split_at_spec|by apply split_at_suffix].
Qed.

Lemma Posa_VerifyHeaders_reference_witness :
  ∃ p', reference_verdicts (H := inj_crypto) (H0 := demo_pow) (Demo.chain_of Demo.both) 200
          [Demo.next] [true] demo_posa [Ok tt] p'.
Proof.
  destruct demo_batch as [p' E]. exists p'.
  apply (Posa_VerifyHeaders_reference (H := inj_crypto) (H0 := demo_pow)
    (H1 := demo_pow_laws) (Demo.chain_of Demo.both) 200 [Demo.next] [true]
    demo_posa [Ok tt] p' demo_ascending eq_refl E).
Defined.

(** Nobody can switch the history below the authority chain. A header the
    engine accepts, alone or in a batch, hashes to the pinned checkpoint if it is
    at PosaBlock-1 and builds on it if it is at PosaBlock. *)
Theorem checkpoint_is_pinned `{Crypto} `{PowEngine} `{!PowEngineLaws} p f cf chain now :
  forkBlock p = Some f → pconfig p = Some cf → CheckpointHash cf ≠ 0 →
  (∀ h seal p', Posa_VerifyHeader chain now h seal p = (Ok tt, p') →
     on_checkpoint f (CheckpointHash cf) h) ∧
  (∀ headers seals rs p' i h, ascending headers → length seals = length headers →
     Posa_VerifyHeaders chain now headers seals p = (Ok rs, p') →
     headers !! i = Some h → rs !! i = Some (Ok tt) →
     on_checkpoint f (CheckpointHash cf) h).
Proof.
  intros Hf Hc Hz. split.
  - intros h seal p' E. unfold Posa_VerifyHeader in E.
    destruct (verifyCheckpoint p h) as [[]| |] eqn:Hv; [|done..].
    by apply (verifyCheckpoint_pins p h f cf).
  - intros headers seals rs p' i h Ha Hs E Hh Hr.
    apply VerifyHeaders_reference in E as (rs2 & -> & _); [|done..].
    apply relay_lookup in Hr as (h' & r0 & Hh' & _ & Hchk).
    assert (h' = h) as -> by congruence.
    apply (verifyCheckpoint_pins p h f cf); [done..|].
    unfold checked in Hchk. by destruct r0 as [[]| |].
Qed.

Lemma checkpoint_is_pinned_witness :
  on_checkpoint (H := inj_crypto) 11 (Header_Hash (H := inj_crypto) Demo.parent) Demo.next.
Proof.
  destruct demo_batch as [p' E].
  apply (proj2 (checkpoint_is_pinned (H := inj_crypto) (H0 := demo_pow)
    (H1 := demo_pow_laws) demo_posa 11 demo_config (Demo.chain_of Demo.both) 200
    eq_refl eq_refl ltac:(vm_compute; discriminate)) [Demo.next] [true] [Ok tt] p' 0%nat);
    [exact demo_ascending|reflexivity|exact E|reflexivity|reflexivity].
Defined.

(** What [Finalize] mints. *)
Lemma Posa_Finalize_total `{Crypto} `{PowEngine} root p cf chain h uncles b h' b' n :
  isPosaHeader p h = true → pconfig p = Some cf → Number h = Some n → 0 ≤ n →
  Posa_Finalize root p chain h uncles b = Ok (h', b') →
  match Clique_Author h with
  | Ok signer =>
      total b' = total b + BlockReward n ∧
      ∀ a, a ≠ signer → a ≠ RewardSink cf → a ≠ Treasury cf → b' !! a = b !! a
  | _ => b' = b
  end.
Proof.
  intros Hp Hc Hn Hge E. unfold Posa_Finalize in E. rewrite Hp in E. cbn [negb] in E.
  destruct (Clique_Author h) as [signer|e|w]; [|by injection E as _ <-|done].
  rewrite Hc in E. cbn [deref mbind result_bind] in E.
  unfold posa_finalize in E. rewrite Hn in E. cbn [deref mbind result_bind] in E.
  destruct (SplitReward (BlockReward n)) as [[s k] t] eqn:Hsplit.
  apply Ok_inj in E. injection E as _ <-.
  destruct (SplitReward_exact _ _ _ _ (BlockReward_nonneg n Hge) Hsplit) as (Hsum & Hk & Ht & _ & _ & Hs).
  assert (0 ≤ s) by (pose proof (BlockReward_nonneg n Hge); lia).
  split.
  - rewrite !total_add_positive by lia. lia.
  - intros a H1' H2' H3'. by rewrite !add_positive_other.
Qed.

(** C33: an authority block mints exactly its reward. [Finalize] raises the sum of
    all balances by BlockReward of its height, touches no account but the
    recovered signer, the sink and the treasury, and pays nobody when the seal
    does not recover. *)
Theorem Posa_Finalize_mints_reward `{Crypto} `{PowEngine} root p cf chain h uncles b h' b' n :
  isPosaHeader p h = true → pconfig p = Some cf → Number h = Some n → 0 ≤ n →
  Posa_Finalize root p chain h uncles b = Ok (h', b') →
  match Clique_Author h with
  | Ok signer =>
      total b' = total b + BlockReward n ∧
      ∀ a, a ≠ signer → a ≠ RewardSink cf → a ≠ Treasury cf → b' !! a = b !! a
  | _ => b' = b
  end.
Proof. apply Posa_Finalize_total. Qed.

Lemma Posa_Finalize_mints_reward_witness :
  ∃ h' b', Posa_Finalize (H := inj_crypto) (H0 := demo_pow) (fun _ _ => 0) demo_posa
      (Demo.chain_of Demo.both) Demo.next [] ∅ = Ok (h', b') ∧
    total b' = total ∅ + BlockReward 11.
Proof.
  destruct (Posa_Finalize (H := inj_crypto) (H0 := demo_pow) (fun _ _ => 0) demo_posa
      (Demo.chain_of Demo.both) Demo.next [] ∅) as [[h' b']| |] eqn:E;
    [|vm_compute in E; discriminate E..].
  exists h', b'. split; [reflexivity|].
  assert (Ha : Clique_Author (H := inj_crypto) Demo.next = Ok 3) by (vm_compute; reflexivity).
  pose proof (Posa_Finalize_mints_reward (H := inj_crypto) (H0 := demo_pow) (fun _ _ => 0)
    demo_posa demo_config (Demo.chain_of Demo.both) Demo.next [] ∅ h' b' 11
    eq_refl eq_refl eq_refl ltac:(discriminate) E) as Hm.
  rewrite Ha in Hm. exact (proj1 Hm).
Defined.

(** A chain from genesis, by the sums of its balances. Before a block is
    finalised its transactions move balances around and burn the base fee: the
    sum does not rise. A block below the fork may pay uncles, which have passed
    [VerifyUncles]. *)
Inductive minted `{Crypto} (hashimoto : Z → bytes → Z → bytes * bytes) (GetUncles : Hash → Z → option (list Header))
  (root : Balances → bool → Hash) (p : Posa) (genesis : Balances) : Z → Balances → Prop :=
| minted_genesis : minted hashimoto GetUncles root p genesis 0 genesis
| minted_block n b b1 chain now h ntxs uncles h' b2 :
    minted hashimoto GetUncles root p genesis n b → total b1 ≤ total b →
    numbered chain → Number h = Some (n + 1) → n + 1 < two64 - 1 →
    Posa_VerifyUncles (H0 := powhash_engine hashimoto GetUncles root) p chain now (MkBlock h ntxs uncles) = Ok tt →
    Posa_Finalize (H0 := powhash_engine hashimoto GetUncles root) root p chain h uncles b1 = Ok (h', b2) →
    minted hashimoto GetUncles root p genesis (n + 1) b2.

Lemma minted_bound `{Crypto} hashimoto GetUncles root p genesis f n b : forkBlock p = Some f →
  minted hashimoto GetUncles root p genesis n b →
  0 ≤ n ∧ 16 * total b ≤ 16 * total genesis + sum_to (most_minted f) (S (Z.to_nat n)).
Proof.
  intros Hf Hm. induction Hm as [|n b b1 chain now h ntxs uncles h' b2 _ [Hge IH] Hb1 Hr Hn Hlt Hu E].
  { split; [lia|]. change (sum_to (most_minted f) (S (Z.to_nat 0))) with (0 + most_minted f 0). unfold most_minted, paid_reward. destruct (FerminuxBlockReward_bounds 0 ltac:(lia)) as [Hb _].
    pose proof (BlockReward_nonneg 0 ltac:(lia)). destruct (0 <? f); lia. }
  split; [lia|]. replace (Z.to_nat (n + 1)) with (S (Z.to_nat n)) by lia. remember (S (Z.to_nat n)) as N eqn:EN.
  cbn [sum_to]. replace (Z.of_nat N) with (n + 1) by lia. enough (16 * total b2 ≤ 16 * total b1 + most_minted f (n + 1)) by lia.
  unfold most_minted, paid_reward. destruct (isPosaHeader p h) eqn:Ep; pose proof Ep as Ep'; unfold isPosaHeader, Posa_IsPosa in Ep';
    rewrite Hf, Hn in Ep'; bprop.
  - rewrite (proj2 (Z.ltb_ge _ _)) by lia. pose proof (BlockReward_nonneg (n + 1) ltac:(lia)) as Hpos.
    destruct (Clique_Author h) as [signer|e|w] eqn:Ea.
    + destruct (pconfig p) as [cf|] eqn:Ec; [|unfold Posa_Finalize in E; rewrite Ep, Ea, Ec in E; discriminate].
      pose proof (Posa_Finalize_total (H0 := powhash_engine hashimoto GetUncles root) root p cf chain h uncles b1 h' b2 (n + 1)
        Ep Ec Hn ltac:(lia) E) as Ht. rewrite Ea in Ht. lia.
    + unfold Posa_Finalize in E. rewrite Ep, Ea in E. cbn [negb] in E. apply Ok_inj in E. injection E as _ <-. lia.
    + unfold Posa_Finalize in E. rewrite Ep, Ea in E. discriminate.
  - rewrite (proj2 (Z.ltb_lt _ _)) by lia. unfold Posa_Finalize in E. rewrite Ep in E. cbn in E.
    unfold Pow_Finalize in E. apply bind_ok in E as (b3 & E & E'). apply Ok_inj in E'. injection E' as _ <-.
    unfold Posa_VerifyUncles in Hu. replace (isPosaHeader p (CopyHeader (blk_header (MkBlock h ntxs uncles)))) with false in Hu.
    2:{ symmetry. unfold isPosaHeader, Posa_IsPosa, CopyHeader. cbn. rewrite Hf, Hn. cbn. apply Z.leb_gt. lia. }
    apply (Pow_VerifyUncles_low _ _ _ _ _ (n + 1)) in Hu as [Hu1 Hu2]; [|done|done|lia]. cbn [blk_uncles] in *.
    pose proof (accumulateRewards_total h uncles b1 b3 (n + 1) Hn ltac:(lia) Hu1 Hu2 E). lia.
Qed.

(** C34: the supply is capped, uncle and nephew rewards included. On a chain that
    switches to authority consensus at block 160000, as Ferminux does, and that
    starts from the 30 million FMX of the genesis, the balances at any height sum
    to at most 33,071,250 FMX, a third of the 100 million the design allows for,
    whatever uncles the proof-of-work blocks include, as long as
    they pass [VerifyUncles] and no transaction mints. Of this, 2.47 million
    is the schedule of base rewards, and 601,250 the most that uncles and their
    nephews can have been paid on top; the README's "a little under 32,500,000"
    counts the base rewards alone. *)
Theorem issued_supply_capped `{Crypto} hashimoto GetUncles root p genesis n b :
  PosaBlock FerminuxChainConfig = forkBlock p → total genesis = 30000000 * Ether →
  minted hashimoto GetUncles root p genesis n b →
  total b ≤ 33071250 * Ether ∧ sum_to (paid_reward 160000) (S (Z.to_nat n)) ≤ 2470000 * Ether.
Proof.
  intros Hf Hg Hm. destruct (minted_bound _ _ _ _ _ 160000 _ _ (eq_sym Hf) Hm) as [_ Hb].
  pose proof (most_minted_total 160000 (S (Z.to_nat n)) ltac:(lia)) as Ht. pose proof (paid_reward_total 160000 (S (Z.to_nat n)) ltac:(lia)) as Hp.
  unfold FerminuxEmissionForkBlock, Ether in *. lia.
Qed.

(** The first block on top of an account that owns the premine. *)
Lemma issued_supply_capped_witness :
  ∃ p b, Posa_New FerminuxChainConfig (Some (ConfigFor (Some FerminuxChainConfig))) ∅ = Ok p ∧
    minted (H := toy_crypto) (λ _ _ _, ([], [])) (λ _ _, None) (λ _ _, 0) p {[ 7 := 30000000 * Ether ]} 1 b ∧
    total b = 30000006 * Ether ∧ total b ≤ 33071250 * Ether.
Proof.
  destruct (Posa_New FerminuxChainConfig (Some (ConfigFor (Some FerminuxChainConfig))) ∅)
    as [p| |] eqn:E; [|vm_compute in E; discriminate E..].
  assert (Ep : forkBlock p = Some 160000) by (vm_compute in E; injection E as <-; reflexivity).
  set (h := sample_header 1 2 []). set (g := {[ 7 := 30000000 * Ether ]} : Balances).
  set (b := AddBalance (Coinbase h) (6 * Ether) g). exists p, b.
  assert (Hm : minted (H := toy_crypto) (λ _ _ _, ([], [])) (λ _ _, None) (λ _ _, 0) p g (0 + 1) b).
  { apply (minted_block (H := toy_crypto) _ _ _ p g 0 g g (MkChain FerminuxChainConfig (sample_header 0 2 []) (λ _ _, None) (λ _, None) (λ _, None)) 0 h 0 [] (set_Root h 0)).
    - constructor.
    - lia.
    - intros hash n h0 Hx. discriminate Hx.
    - reflexivity.
    - reflexivity.
    - unfold Posa_VerifyUncles, isPosaHeader, Posa_IsPosa. rewrite Ep. reflexivity.
    - unfold Posa_Finalize, isPosaHeader, Posa_IsPosa. rewrite Ep. vm_compute. reflexivity. }
  assert (Hg : total g = 30000000 * Ether) by (vm_compute; reflexivity).
  split; [reflexivity|]. split; [exact Hm|]. split.
  - unfold b. rewrite total_AddBalance, Hg. unfold Ether. lia.
  - exact (proj1 (issued_supply_capped (H := toy_crypto) _ _ _ p g (0 + 1) b (eq_sym Ep) Hg Hm)).
Defined.

(** C35: what [New] arms. With PosaBlock set, a successful construction yields an
    authority engine that is seeded at PosaBlock-1 with the configured signers
    in ascending order, without duplicates and without the zero address, has a
    non-zero epoch and, over an empty store, is sound in the sense the
    snapshot theorem needs ([engine_ok]); overrides need a positive threshold, at
    most the number of owners listed. *)
Theorem Posa_New_arms_sound_engine `{Crypto} cc cf p f :
  PosaBlock cc = Some f → Posa_New cc (Some cf) ∅ = Ok p →
  forkBlock p = Some f ∧ RewardSink cf ≠ 0 ∧ Treasury cf ≠ 0 ∧
  ∃ c sorted, poa p = Some c ∧
    sorted ≠ [] ∧ StronglySorted Z.lt sorted ∧ 0 ∉ sorted ∧
    (∀ a, a ∈ sorted ↔ a ∈ InitialSigners cf) ∧
    (∀ W, engine_ok W (MkCliqueConfig (cf_Period cf) (cf_Epoch cf)) (cq_breakGlass c)
            (MkBootstrap (f - 1) sorted) c) ∧
    (∀ bg, cq_breakGlass c = Some bg →
       0 < Threshold bg ≤ zlen (Owners bg) ∧ bg_ChainID bg ≠ None).
Proof.
  intros Hf E. unfold Posa_New in E. rewrite Hf in E.
  apply bind_ok in E as (u1 & Hf0%fail_if_ok & E).
  apply bind_ok in E as (u2 & Hper%fail_if_ok & E).
  apply bind_ok in E as (u3 & _ & E).
  apply bind_ok in E as (u4 & Htr%fail_if_ok & E).
  apply bind_ok in E as (u5 & Hsink%fail_if_ok & E). cbn zeta in E.
  apply bind_ok in E as (u6 & Hthr%fail_if_ok & E).
  apply bind_ok in E as (u7 & _ & E). bprop.
  set (c0 := Clique_New _ _) in E.
  destruct (SetBootstrap (f - 1) (InitialSigners cf) c0) as [r c1] eqn:Hb.
  apply bind_ok in E as ([] & -> & E).
  apply SetBootstrap_ok in Hb as (sorted & -> & Hne & Hss & Hz & Hel).
  set (c2 := set_bootstrap _ c0) in E.
  assert (Hok : ∀ bg W, engine_ok W (MkCliqueConfig (cf_Period cf) (cf_Epoch cf)) bg
    (MkBootstrap (f - 1) sorted) (set_breakGlass bg c2)).
  { intros bg W. assert (Hc : cq_config c0 = MkCliqueConfig (cf_Period cf) (cf_Epoch cf)).
    { unfold c0, Clique_New. cbn. by rewrite (proj2 (Z.eqb_neq (cf_Epoch cf) 0)). }
    split; [exact Hc|reflexivity|reflexivity|assumption|reflexivity| |];
      intros hash s Hs; exfalso; revert Hs; unfold c2, c0, Clique_New;
      cbn [recents db set_breakGlass set_bootstrap]; by rewrite lookup_empty. }
  destruct (0 <? zlen (BreakGlassOwners cf)) eqn:Hown.
  - unfold SetBreakGlass, mbind, eng_bind, lift, modify in E.
    case_bool_decide as Hcid; [done|]. cbn [fail_if Threshold Owners] in E.
    cbn [andb] in Hthr. rewrite Hthr in E. cbn [fail_if] in E.
    cbn [mbind result_bind] in E. apply Ok_inj in E as <-.
    split; [done|]. split; [done|]. split; [done|]. eexists _, sorted.
    split; [reflexivity|]. do 4 (split; [done|]). split; [intros W; apply Hok|].
    intros bg [= <-]. cbn [Threshold Owners bg_ChainID]. bprop. split; [lia|done].
  - apply Ok_inj in E as <-. split; [done|]. split; [done|]. split; [done|].
    exists c2, sorted. split; [reflexivity|]. do 4 (split; [done|]).
    split; [|done]. intros W. exact (Hok None W).
Qed.

Lemma Posa_New_arms_sound_engine_witness :
  ∃ p, Posa_New FerminuxChainConfig (Some (ConfigFor (Some FerminuxChainConfig))) ∅ = Ok p ∧
       forkBlock p = Some 160000.
Proof.
  destruct (Posa_New FerminuxChainConfig (Some (ConfigFor (Some FerminuxChainConfig))) ∅)
    as [p| |] eqn:E; [|vm_compute in E; discriminate E..].
  exists p. split; [reflexivity|].
  apply (Posa_New_arms_sound_engine (H := toy_crypto) FerminuxChainConfig
    (ConfigFor (Some FerminuxChainConfig)) p 160000); [reflexivity|exact E].
Defined.

(** C27: the "safe" tag. When the engine answers that a block [k] above genesis is
    safe (near genesis the answer is floored at block 0, and says nothing) and the
    signers at the head are those of its snapshot, then for any run of blocks
    from [k] to the head applied without an override, over a set that never was
    smaller than it is at the head, the blocks above [k] are sealed by pairwise
    distinct signers who are a strict majority. *)
Theorem safe_block_has_majority `{Crypto} chain hd p c c' p' k s0 s hs :
  poa p = Some c → SignersAt chain hd c = (Ok (signers s), c') →
  NumberU64 hd = Ok (sn_Number s) →
  SafeNumber chain (Some hd) p = (Ok (Some k), p') → sn_Number s0 = k → 0 < k →
  snap_ok k s0 → sane_batch k hs → Epoch (config s0) ≠ 0 →
  Forall (fun h => isBreakGlassExtra (Extra h) = false) hs →
  apply s0 hs = Ok s → min_signers (size (Signers s)) s0 hs →
  (size (Signers s) < 2 * length hs)%nat ∧
  ∀ i j hi hj a, hs !! i = Some hi → hs !! j = Some hj → (i < j)%nat →
    ecrecover hi = Ok a → ecrecover hj ≠ Ok a.
Proof.
  intros Hp Hsig Hn E Hs0 Hk Hok Hsane He Hx Happ Hmin.
  destruct (apply_ok s0 hs s) as (_ & HN & _); [by rewrite Hs0|by rewrite Hs0|done|].
  assert (Hlen : zlen hs = Z.of_nat (size (Signers s)) / 2 + 1).
  { unfold SafeNumber, on_poa, attempt in E. rewrite Hp, Hsig in E.
    destruct (isPosaHeader p hd); [|done]. cbn [negb] in E.
    destruct (signers s) as [|x l] eqn:Hsg; [done|]. rewrite Hn in E.
    cbn [mbind result_bind] in E. pose proof (f_equal fst E) as Hb. cbn [fst] in Hb.
    apply Ok_inj, (inj Some) in Hb.
    assert (Hl : length (x :: l) = size (Signers s)).
    { rewrite <- Hsg. unfold signers. rewrite sort_signers_perm. done. }
    rewrite Hl in Hb. unfold below in Hb.
    rewrite Nat2Z.inj_add, (Nat2Z.inj_div _ 2) in Hb.
    change (Z.of_nat 2) with 2 in Hb. change (Z.of_nat 1) with 1 in Hb.
    destruct (_ <? _); lia. }
  assert (Hlen' : length hs = (size (Signers s) / 2 + 1)%nat).
  { unfold zlen in Hlen. pose proof (Nat2Z.inj_div (size (Signers s)) 2) as Hd.
    change (Z.of_nat 2) with 2 in Hd. lia. }
  split.
  { pose proof (Nat.div_mod_eq (size (Signers s)) 2).
    pose proof (Nat.mod_upper_bound (size (Signers s)) 2). lia. }
  intros i j hi hj a Hi Hj Hij Ha. assert (Hne : hs ≠ []) by (by intros ->).
  destruct (apply_inv s0 hs s) as (Hnx & h0 & snap & _ & Hs & _); [by rewrite Hs0|done|done|].
  rewrite Hs0 in Hnx. apply lookup_lt_Some in Hj as Hlt.
  apply (sealers_distinct (size (Signers s)) k s0 hs snap i j hi hj a); try done. lia.
Qed.

(** Two blocks above the demo anchor, sealed by signers 3 and 1 of three. *)
Definition demo_second : Header :=
  MkHeader (Header_Hash (H := inj_crypto) Demo.next) (EmptyUncleHash (H := inj_crypto)) 0 0 0 0 0
    (Some 2) (Some 12) 30000000 0 114 (Demo.vanity ++ toy_seal 1) 0 0 (Some 875).

Definition demo_chain : ChainReader := Demo.chain_of [Demo.parent; Demo.next; demo_second].

Lemma demo_safe :
  ∃ s c' p', apply (H := inj_crypto) Demo.base_snapshot [Demo.next; demo_second] = Ok s ∧
    SignersAt (H := inj_crypto) demo_chain demo_second Demo.engine = (Ok (signers s), c') ∧
    SafeNumber (H := inj_crypto) demo_chain (Some demo_second) demo_posa = (Ok (Some 10), p') ∧
    sn_Number s = 12 ∧ size (Signers s) = 3%nat.
Proof.
  destruct (apply (H := inj_crypto) Demo.base_snapshot [Demo.next; demo_second])
    as [s| |] eqn:E1; [|vm_compute in E1; discriminate E1..].
  destruct (SignersAt (H := inj_crypto) demo_chain demo_second Demo.engine) as [r c'] eqn:E2.
  destruct (SafeNumber (H := inj_crypto) demo_chain (Some demo_second) demo_posa)
    as [r2 p'] eqn:E3.
  assert (Hr : bool_decide (r = (s ← apply (H := inj_crypto) Demo.base_snapshot
    [Demo.next; demo_second]; Ok (signers s))) = true)
    by (change r with (fst (r, c')); rewrite <- E2; vm_compute; reflexivity).
  assert (Hr2 : bool_decide (r2 = Ok (Some 10)) = true)
    by (change r2 with (fst (r2, p')); rewrite <- E3; vm_compute; reflexivity).
  assert (Hs : match apply (H := inj_crypto) Demo.base_snapshot [Demo.next; demo_second] with
    | Ok s => bool_decide (sn_Number s = 12 ∧ size (Signers s) = 3%nat) | _ => false end = true)
    by (vm_compute; reflexivity).
  apply bool_decide_eq_true_1 in Hr, Hr2. rewrite E1 in Hr, Hs. cbn [mbind result_bind] in Hr.
  exists s, c', p'. subst r r2. do 3 (split; [reflexivity|]).
  exact (bool_decide_eq_true_1 _ Hs).
Qed.

Lemma safe_block_has_majority_witness :
  ecrecover (H := inj_crypto) Demo.next ≠ ecrecover (H := inj_crypto) demo_second.
Proof.
  destruct demo_safe as (s & c' & p' & E1 & E2 & E3 & HN & Hsz).
  assert (Ha : ecrecover (H := inj_crypto) Demo.next = Ok 3) by (vm_compute; reflexivity).
  rewrite Ha. intros Hc. symmetry in Hc. revert Hc.
  apply (proj2 (safe_block_has_majority (H := inj_crypto) demo_chain demo_second demo_posa
    Demo.engine c' p' 10 Demo.base_snapshot s [Demo.next; demo_second] eq_refl E2
    ltac:(rewrite HN; reflexivity) E3 eq_refl ltac:(reflexivity) (newSnapshot_ok _ _ _ _ _)
    ltac:(sane_tac) ltac:(discriminate) ltac:(repeat constructor) E1
    ltac:(rewrite Hsz; apply min_signersb_sound; vm_compute; reflexivity))
    0%nat 1%nat Demo.next); [reflexivity|reflexivity|lia|exact Ha].
Defined.
