(* ===== verification/ForkChoice.v ===== *)
(** * Fork choice and the reorg-depth cap (chain/core/forkchoice.go, blockchain.go)

    Which head is canonical, and how far a reorganisation may reach. A block is
    represented by its header; [canonical] is the number-to-hash index of the
    database. Transaction indexes, logs and events are left out: they do not
    influence the decision. *)

From S2P Require Import Prelude Bytes Rlp Types Params BreakGlass Snapshot Clique Powhash Posa.

(** ** Fork choice *)

Record TdReader := MkTdReader {
  td_Config : ChainConfig;
  GetTd : Hash → Z → option Z
}.

(** [ReorgNeeded]; [preserve] is nil or the miner's preference, [coin] the
    random draw [f.rand.Float64() < 0.5]. *)
Definition ReorgNeeded `{Crypto} (chain : TdReader) (preserve : option (Header → bool))
  (coin : bool) (current header : Header) : result bool :=
  cn ← NumberU64 current;
  hn ← NumberU64 header;
  match GetTd chain (Header_Hash current) cn, GetTd chain (Header_Hash header) hn with
  | Some localTD, Some externTd =>
      if match TerminalTotalDifficulty (td_Config chain) with
         | Some ttd => ttd <=? externTd
         | None => false
         end
      then Ok true
      else
        let localPosa := IsPosa (td_Config chain) (Number current) in
        let externPosa := IsPosa (td_Config chain) (Number header) in
        if bool_decide (PosaBlock (td_Config chain) ≠ None)
           && negb (Bool.eqb localPosa externPosa)
        then Ok externPosa
        else if localTD <? externTd then Ok true
        else if negb (externTd =? localTD) then Ok false
        else if hn <? cn then Ok true
        else if hn =? cn then
          let '(currentPreserve, externPreserve) :=
            match preserve with
            | Some f => (f current, f header)
            | None => (false, false)
            end in
          Ok (negb currentPreserve && (externPreserve || coin))
        else Ok false
  | _, _ => Err (New "missing td")
  end.

(** ** Reorganisation *)

Section Reorg.
Context `{Crypto} (GetBlock : Hash → Z → option Header).

(** The parent of a block, by GetBlock. *)
Definition parent_of (b : Header) : result (option Header) :=
  n ← NumberU64 b; Ok (GetBlock (ParentHash b) (sub64 n 1)).

(** Walk down from [b] to height [target]; the blocks passed are appended. *)
Fixpoint reduce (fuel : nat) (target : Z) (b : option Header) (passed : list Header)
  : result (option Header * list Header) :=
  match b with
  | None => Ok (None, passed)
  | Some blk =>
      n ← NumberU64 blk;
      if n =? target then Ok (b, passed)
      else
        match fuel with
        | O => Panic "out of fuel"
        | S fuel =>
            p ← parent_of blk;
            reduce fuel target p (passed ++ [blk])
        end
  end.

(** Walk down both chains to the common ancestor. *)
Fixpoint to_common (fuel : nat) (oldBlock newBlock : Header) (oldChain newChain : list Header)
  : result (Header * list Header * list Header) :=
  if Header_Hash oldBlock =? Header_Hash newBlock then Ok (oldBlock, oldChain, newChain)
  else
    match fuel with
    | O => Panic "out of fuel"
    | S fuel =>
        po ← parent_of oldBlock;
        match po with
        | None => Err (New "invalid old chain")
        | Some po =>
            pn ← parent_of newBlock;
            match pn with
            | None => Err (New "invalid new chain")
            | Some pn => to_common fuel po pn (oldChain ++ [oldBlock]) (newChain ++ [newBlock])
            end
        end
    end.

Definition reorg_fuel (n : Z) : nat := S (Z.to_nat n).

(** The first half of [reorg]: common ancestor, dropped and added blocks, both
    from the head down. *)
Definition find_common (oldBlock newBlock : Header)
  : result (Header * list Header * list Header) :=
  on ← NumberU64 oldBlock;
  nn ← NumberU64 newBlock;
  '(o, oldChain) ← (if nn <? on then reduce (reorg_fuel on) nn (Some oldBlock) []
                    else Ok (Some oldBlock, []));
  '(w, newChain) ← (if nn <? on then Ok (Some newBlock, [])
                    else reduce (reorg_fuel nn) on (Some newBlock) []);
  match o, w with
  | None, _ => Err (New "invalid old chain")
  | _, None => Err (New "invalid new chain")
  | Some o, Some w => to_common (reorg_fuel on) o w oldChain newChain
  end.

(** The reorg-depth cap. *)
Definition check_cap (config : ChainConfig) (maxDepth : Z) (common : Header)
  (oldChain : list Header) : result unit :=
  match oldChain with
  | h :: _ =>
      c ← NumberU64 common;
      fail_if ((0 <? maxDepth) && (maxDepth <? zlen oldChain) && IsPosa config (Number h))
        (Errorf "refusing chain reorg of depth %d (> Ferminux cap %d) from common block %d; restart with --ferminux.allowdeepreorg to accept"
           [zlen oldChain; maxDepth; c])
  | [] => Ok tt
  end.

(** The canonical markers of the new chain except its head, oldest first. *)
Fixpoint write_markers (blocks : list Header) (canonical : gmap Z Hash)
  : result (gmap Z Hash) :=
  match blocks with
  | [] => Ok canonical
  | b :: rest =>
      canonical ← write_markers rest canonical;
      n ← NumberU64 b;
      Ok (<[n := Header_Hash b]> canonical)
  end.

(** The markers from [i] up to the first missing one are deleted; [seen] is
    the database, [canonical] the result. *)
Fixpoint delete_markers (fuel : nat) (i : Z) (seen canonical : gmap Z Hash) : gmap Z Hash :=
  match fuel with
  | O => canonical
  | S fuel =>
      match seen !! i with
      | None => canonical
      | Some h => if h =? 0 then canonical
                  else delete_markers fuel (add64 i 1) seen (delete i canonical)
      end
  end.

(** [reorg] on the canonical index. *)
Definition reorg (config : ChainConfig) (maxDepth : Z) (oldBlock newBlock : Header)
  (canonical : gmap Z Hash) : result (gmap Z Hash) :=
  '(common, oldChain, newChain) ← find_common oldBlock newBlock;
  _ ← check_cap config maxDepth common oldChain;
  canonical ← write_markers (tail newChain) canonical;
  number ← match newChain with
           | _ :: b :: _ => NumberU64 b
           | _ => NumberU64 common
           end;
  Ok (delete_markers (S (size canonical)) (add64 number 1) canonical canonical).
End Reorg.

(** ** Facts *)

(** What the block database promises: a block found under (hash, number) has
    that hash and number, and numbers stay below the last uint64. *)
Definition blocks_ok `{Crypto} (GetBlock : Hash → Z → option Header) : Prop :=
  ∀ hash n b, GetBlock hash n = Some b →
    Header_Hash b = hash ∧ NumberU64 b = Ok n ∧ n < two64 - 1.

Section Facts.
Context `{Crypto} (GetBlock : Hash → Z → option Header) (Hdb : blocks_ok GetBlock).

Definition above (m : Z) (b : Header) : Prop :=
  ∃ k, NumberU64 b = Ok k ∧ m < k < two64 - 1.
(** [c] is reached from [b] by following parents. *)
Definition descends : Header → Header → Prop := rtc (λ b p, parent_of GetBlock b = Ok (Some p)).

Lemma parent_of_spec b n p :
  NumberU64 b = Ok n → 0 ≤ n < two64 - 1 → parent_of GetBlock b = Ok (Some p) →
  0 < n ∧ NumberU64 p = Ok (n - 1).
Proof.
  intros Hn Hr E. unfold parent_of in E. rewrite Hn in E. cbn [mbind result_bind] in E.
  apply Ok_inj in E. destruct (Hdb _ _ _ E) as (_ & Hp & Hlt).
  unfold sub64, u64, two64 in *.
  destruct (decide (n = 0)) as [->|]; [cbv in Hlt; done|].
  rewrite Z.mod_small in Hp by lia. split; [lia|done].
Qed.

Lemma parent_of_ok b n : NumberU64 b = Ok n → ∃ p, parent_of GetBlock b = Ok p.
Proof. intros Hn. unfold parent_of. rewrite Hn. cbn. eauto. Qed.

(** The walk down to [target], in full. *)
Lemma reduce_spec fuel target b n passed :
  NumberU64 b = Ok n → 0 ≤ target ≤ n → n < two64 - 1 → (Z.to_nat (n - target) < fuel)%nat →
  ∃ o l, reduce GetBlock fuel target (Some b) passed = Ok (o, passed ++ l) ∧
    (n ≠ target → head l = Some b) ∧ (n = target → l = []) ∧
    Forall (above target) l ∧
    (∀ c, o = Some c → NumberU64 c = Ok target ∧ zlen l = n - target ∧ descends b c).
Proof.
  revert b n passed. induction fuel as [|fuel IH]; intros b n passed Hn Ht Hlt Hf; [lia|].
  cbn [reduce]. rewrite Hn. cbn [mbind result_bind].
  destruct (Z.eqb_spec n target) as [->|Hne].
  { exists (Some b), []. rewrite app_nil_r. split; [done|]. split; [done|]. split; [done|].
    split; [constructor|]. intros c [= <-]. split; [done|]. split; [unfold zlen; cbn; lia|by apply rtc_refl]. }
  destruct (parent_of_ok b n Hn) as [p Hp]. rewrite Hp. cbn [mbind result_bind].
  assert (Hab : above target b) by (exists n; split; [done|lia]).
  destruct p as [p|].
  - destruct (parent_of_spec b n p Hn) as [Hpos Hpn]; [lia|done|].
    destruct (IH p (n - 1) (passed ++ [b])) as (o & l & E & _ & _ & Hall & Ho); [done|lia|lia|lia|].
    exists o, (b :: l). rewrite <- app_assoc in E. split; [done|]. split; [done|].
    split; [done|]. split; [by constructor|]. intros c Hc.
    destruct (Ho c Hc) as (? & Hl & Hd). split; [done|]. split; [|by eapply rtc_l]. unfold zlen in *. cbn [length]. lia.
  - destruct fuel; (exists None, [b]; split; [done|]; split; [done|]; split; [done|];
      split; [by constructor|done]).
Qed.

Lemma to_common_spec fuel o w n oc nc :
  NumberU64 o = Ok n → NumberU64 w = Ok n → 0 ≤ n < two64 - 1 → (Z.to_nat n < fuel)%nat →
  (∀ why, to_common GetBlock fuel o w oc nc ≠ Panic why) ∧
  (∀ c oc' nc', to_common GetBlock fuel o w oc nc = Ok (c, oc', nc') →
    ∃ m lo ln, NumberU64 c = Ok m ∧ 0 ≤ m ≤ n ∧ oc' = oc ++ lo ∧ nc' = nc ++ ln ∧
      zlen lo = n - m ∧ Forall (above m) ln ∧ (lo = [] ∨ head lo = Some o) ∧
      descends o c ∧ ∃ c', descends w c' ∧ Header_Hash c' = Header_Hash c).
Proof.
  revert o w n oc nc. induction fuel as [|fuel IH]; intros o w n oc nc Ho Hw Hn Hf; [lia|].
  cbn [to_common]. destruct (Z.eqb_spec (Header_Hash o) (Header_Hash w)) as [Eh|_].
  { split; [done|]. intros c oc' nc' E. apply Ok_inj in E. injection E as <- <- <-.
    exists n, [], []. rewrite !app_nil_r. split; [done|]. split; [lia|].
    split; [done|]. split; [done|]. split; [unfold zlen; cbn; lia|].
    split; [constructor|]. split; [by left|]. split; [apply rtc_refl|]. exists w. split; [apply rtc_refl|done]. }
  destruct (parent_of_ok o n Ho) as [po Hpo]. rewrite Hpo. cbn [mbind result_bind].
  destruct po as [po|]; [|done].
  destruct (parent_of_ok w n Hw) as [pw Hpw]. rewrite Hpw. cbn [mbind result_bind].
  destruct pw as [pw|]; [|done].
  destruct (parent_of_spec o n po Ho Hn Hpo) as [Hpos Hpon].
  destruct (parent_of_spec w n pw Hw Hn Hpw) as [_ Hpwn].
  destruct (IH po pw (n - 1) (oc ++ [o]) (nc ++ [w])) as [IH1 IH2]; [done|done|lia|lia|].
  split; [done|]. intros c oc' nc' E.
  destruct (IH2 _ _ _ E) as (m & lo & ln & Hc & Hm & -> & -> & Hlo & Hln & _ & Hdo & c' & Hdw & Ec').
  exists m, (o :: lo), (w :: ln). rewrite <- !app_assoc. split; [done|]. split; [lia|].
  split; [done|]. split; [done|]. unfold zlen in *. cbn [length]. split; [lia|].
  split; [constructor; [exists n; split; [done|lia]|done]|]. split; [by right|]. split; [by eapply rtc_l|].
  exists c'. split; [by eapply rtc_l|done].
Qed.

(** [find_common] does not run out of fuel; the dropped blocks are those from
    the old head down to the common ancestor, the added ones are above it. *)
Lemma find_common_spec old new on nn :
  NumberU64 old = Ok on → NumberU64 new = Ok nn →
  0 ≤ on < two64 - 1 → 0 ≤ nn < two64 - 1 →
  (∀ why, find_common GetBlock old new ≠ Panic why) ∧
  (∀ c oc nc, find_common GetBlock old new = Ok (c, oc, nc) →
    ∃ m, NumberU64 c = Ok m ∧ 0 ≤ m ≤ on ∧ zlen oc = on - m ∧ Forall (above m) nc ∧
      (oc = [] ∨ head oc = Some old) ∧ descends old c ∧ ∃ c', descends new c' ∧ Header_Hash c' = Header_Hash c).
Proof.
  intros Ho Hn Hor Hnr. unfold find_common. rewrite Ho, Hn. cbn [mbind result_bind].
  destruct (Z.ltb_spec nn on) as [Hlt|Hge].
  - destruct (reduce_spec (reorg_fuel on) nn old on [] Ho) as (o & l & E & Hhd & _ & _ & Hl);
      [lia|lia|unfold reorg_fuel; lia|].
    rewrite E. cbn [mbind result_bind app]. destruct o as [o|]; [|done].
    destruct (Hl o eq_refl) as (Hon & Hlen & Hdl).
    destruct (to_common_spec (reorg_fuel on) o new nn l [] Hon Hn) as [T1 T2];
      [lia|unfold reorg_fuel; lia|].
    split; [done|]. intros c oc nc Ec.
    destruct (T2 _ _ _ Ec) as (m & lo & ln & Hc & Hm & -> & -> & Hlo & Hln & _ & Hdo & Hdw).
    exists m. split; [done|]. split; [lia|]. unfold zlen in *. rewrite length_app.
    split; [lia|]. split; [done|]. split; [|split; [by etransitivity|done]]. right. specialize (Hhd ltac:(lia)).
    by destruct l; [|injection Hhd as ->].
  - destruct (reduce_spec (reorg_fuel nn) on new nn [] Hn) as (w & l & E & _ & _ & Hab & Hl);
      [lia|lia|unfold reorg_fuel; lia|].
    cbn [mbind result_bind]. rewrite E. cbn [mbind result_bind app]. destruct w as [w|]; [|done].
    destruct (Hl w eq_refl) as (Hwn & _ & Hdl).
    destruct (to_common_spec (reorg_fuel on) old w on [] l Ho Hwn) as [T1 T2];
      [lia|unfold reorg_fuel; lia|].
    split; [done|]. intros c oc nc Ec.
    destruct (T2 _ _ _ Ec) as (m & lo & ln & Hc & Hm & -> & -> & Hlo & Hln & Hh & Hdo & c' & Hdw & Ec').
    exists m. split; [done|]. split; [lia|]. split; [done|].
    split; [|split; [done|split; [done|exists c'; split; [by etransitivity|done]]]].
    apply Forall_app. split; [|done]. eapply Forall_impl; [done|].
    intros b (k & Hk & ?). exists k. split; [done|lia].
Qed.
End Facts.

(** Markers at or below [m] are not touched. *)
Lemma write_markers_low `{Crypto} m bs canonical canonical' :
  Forall (above m) bs → (∀ k h, canonical !! k = Some h → k < two64 - 1) →
  write_markers bs canonical = Ok canonical' →
  (∀ k, k ≤ m → canonical' !! k = canonical !! k) ∧
  (∀ k h, canonical' !! k = Some h → k < two64 - 1).
Proof.
  intros Hall Hk. revert canonical'. induction Hall as [|b bs (n & Hn & Hlt) _ IH];
    intros canonical' E; cbn [write_markers] in E.
  { by apply Ok_inj in E as <-. }
  apply bind_ok in E as (c1 & E1 & E). destruct (IH _ E1) as [IH1 IH2].
  rewrite Hn in E. cbn [mbind result_bind] in E. apply Ok_inj in E as <-. split.
  - intros k Hle. rewrite lookup_insert_ne by lia. by apply IH1.
  - intros k h Hl. apply lookup_insert_Some in Hl as [[<- _]|[_ Hl]]; [lia|by eapply IH2].
Qed.

Lemma write_markers_ok `{Crypto} m bs canonical :
  Forall (above m) bs → ∃ c', write_markers bs canonical = Ok c'.
Proof.
  induction 1 as [|b bs (n & Hn & _) _ [c1 IH]]; cbn [write_markers]; [eauto|].
  rewrite IH. cbn [mbind result_bind]. rewrite Hn. cbn. eauto.
Qed.

Lemma delete_markers_low m fuel i seen canonical :
  (∀ k h, seen !! k = Some h → k < two64 - 1) → 0 ≤ m < i → i ≤ two64 - 1 →
  ∀ k, k ≤ m → delete_markers fuel i seen canonical !! k = canonical !! k.
Proof.
  intros Hs. revert i canonical. induction fuel as [|fuel IH]; intros i canonical Hm Hi k Hk;
    cbn [delete_markers]; [done|].
  destruct (seen !! i) as [h|] eqn:E; [|done]. destruct (h =? 0); [done|].
  apply Hs in E. rewrite add64_small by (unfold is_u64; lia).
  rewrite IH by lia. apply lookup_delete_ne. lia.
Qed.

(** Once the cap has been checked the ancestor is within it. *)
Lemma check_cap_bound config maxDepth old on c m oc : NumberU64 c = Ok m → 0 < maxDepth → IsPosa config (Number old) = true →
  zlen oc = on - m → oc = [] ∨ head oc = Some old →
  (∀ w, check_cap config maxDepth c oc ≠ Panic w) ∧ (∀ u, check_cap config maxDepth c oc = Ok u → on - maxDepth ≤ m).
Proof.
  intros Hc Hmax Hposa Hlen Hhd. unfold check_cap. destruct oc as [|h oc].
  - split; [done|]. intros _ _. unfold zlen in Hlen. cbn in Hlen. lia.
  - destruct Hhd as [?|Hhd]; [done|]. injection Hhd as ->. rewrite Hc. cbn [mbind result_bind]. rewrite Hposa, andb_true_r.
    split; [intros w; by destruct (_ && _)|]. intros u Hu. apply fail_if_ok in Hu.
    replace (0 <? maxDepth) with true in Hu by (symmetry; apply Z.ltb_lt; lia). cbn [andb] in Hu. bprop. lia.
Qed.

(** ** Properties *)

(** The authority chain dominates. Without a terminal difficulty and with
    PosaBlock set, an authority head is never left for a proof-of-work head
    however heavy, a proof-of-work head is always left for an authority head,
    and between heads of one kind the strictly heavier one wins; the choice is
    symmetric, so two nodes that know both heads agree unless they tie. *)
Theorem ReorgNeeded_authority_dominates `{Crypto} chain preserve coin coin' a b na nb ta tb f :
  NumberU64 a = Ok na → NumberU64 b = Ok nb →
  GetTd chain (Header_Hash a) na = Some ta → GetTd chain (Header_Hash b) nb = Some tb →
  TerminalTotalDifficulty (td_Config chain) = None → PosaBlock (td_Config chain) = Some f →
  let pa := IsPosa (td_Config chain) (Number a) in
  let pb := IsPosa (td_Config chain) (Number b) in
  (pa = true → pb = false → ReorgNeeded chain preserve coin a b = Ok false) ∧
  (pa = false → pb = true → ReorgNeeded chain preserve coin a b = Ok true) ∧
  (pa = pb → ta ≠ tb → ReorgNeeded chain preserve coin a b = Ok (ta <? tb)) ∧
  (pa ≠ pb ∨ ta ≠ tb →
   (ReorgNeeded chain preserve coin a b = Ok true ↔
    ReorgNeeded chain preserve coin' b a = Ok false)).
Proof.
  intros Hna Hnb Hta Htb Httd Hf pa pb.
  assert (Hform : ∀ c x y nx ny tx ty, NumberU64 x = Ok nx → NumberU64 y = Ok ny →
    GetTd chain (Header_Hash x) nx = Some tx → GetTd chain (Header_Hash y) ny = Some ty →
    let px := IsPosa (td_Config chain) (Number x) in
    let py := IsPosa (td_Config chain) (Number y) in
    (px ≠ py → ReorgNeeded chain preserve c x y = Ok py) ∧
    (px = py → tx ≠ ty → ReorgNeeded chain preserve c x y = Ok (tx <? ty))).
  { intros c x y nx ny tx ty Hx Hy Hx' Hy' px py. unfold ReorgNeeded.
    rewrite Hx, Hy. cbn [mbind result_bind]. rewrite Hx', Hy', Httd, Hf.
    rewrite bool_decide_true by done. fold px py. split.
    - intros Hne. by destruct px, py.
    - intros <- Hne. rewrite eqb_reflx. cbn [negb andb].
      destruct (Z.ltb_spec tx ty); [done|].
      by replace (ty =? tx) with false by (symmetry; apply Z.eqb_neq; lia). }
  destruct (Hform coin a b na nb ta tb) as [Hne Heq]; [done..|].
  destruct (Hform coin' b a nb na tb ta) as [Hne' Heq']; [done..|].
  fold pa pb in Hne, Heq, Hne', Heq'.
  split; [intros Ha Hb; rewrite Hne; congruence|].
  split; [intros Ha Hb; rewrite Hne; congruence|]. split; [done|].
  intros Hd. destruct (decide (pa = pb)) as [Hp|Hp].
  - destruct Hd as [?|Hd]; [done|]. rewrite Heq, Heq' by (done || lia).
    destruct (Z.ltb_spec ta tb), (Z.ltb_spec tb ta); try done; lia.
  - rewrite Hne, Hne' by (done || congruence). clear -Hp. by destruct pa, pb.
Qed.

Lemma ReorgNeeded_authority_dominates_witness :
  ReorgNeeded (H := inj_crypto)
    (MkTdReader FerminuxChainConfig (fun h _ => if h =? 0 then None else Some 5)) None true
    (sample_header 160000 2 []) (sample_header 159999 900000 []) = Ok false.
Proof.
  pose proof (ReorgNeeded_authority_dominates (H := inj_crypto)
    (MkTdReader FerminuxChainConfig (fun h _ => if h =? 0 then None else Some 5)) None true true
    (sample_header 160000 2 []) (sample_header 159999 900000 []) 160000 159999 5 5 160000
    eq_refl eq_refl) as T.
  destruct T as (T & _).
  1, 2: vm_compute; reflexivity.
  1, 2: vm_compute; reflexivity.
  apply T; vm_compute; reflexivity.
Defined.

(** C24: a reorganisation keeps what is final. If [reorg] succeeds while the head
    is an authority block and the cap is on, then the two heads have a common
    ancestor, the blocks dropped from the old head down to it are at most the
    cap's number, and every canonical marker up to the ancestor is unchanged: in
    particular the block the "finalized" tag names stays canonical. The search
    for the ancestor ends: it never runs out of fuel. It takes a block database
    that files blocks under their hash and number, and numbers below 2^64 - 1. *)
Theorem reorg_keeps_finalized `{Crypto} GetBlock config maxDepth old new on nn canonical p :
  blocks_ok GetBlock → NumberU64 old = Ok on → NumberU64 new = Ok nn →
  0 ≤ on < two64 - 1 → 0 ≤ nn < two64 - 1 →
  (∀ k h, canonical !! k = Some h → k < two64 - 1) →
  0 < maxDepth < two64 → IsPosa config (Number old) = true →
  (∀ why, reorg GetBlock config maxDepth old new canonical ≠ Panic why) ∧
  ∀ canonical', reorg GetBlock config maxDepth old new canonical = Ok canonical' →
    ∃ common dropped added m, find_common GetBlock old new = Ok (common, dropped, added) ∧
      NumberU64 common = Ok m ∧ descends GetBlock old common ∧
      (∃ common', descends GetBlock new common' ∧ Header_Hash common' = Header_Hash common) ∧
      zlen dropped = on - m ∧ zlen dropped ≤ maxDepth ∧
      (∀ k, k ≤ m → canonical' !! k = canonical !! k) ∧
      ∀ k, FinalizedNumber p (Some old) maxDepth = Some k → k ≤ m ∧ canonical' !! k = canonical !! k.
Proof.
  intros Hdb Hon Hnn Hor Hnr Hcan Hmax Hposa.
  destruct (find_common_spec GetBlock Hdb old new on nn) as [F1 F2]; [done..|].
  unfold reorg. destruct (find_common GetBlock old new) as [[[c oc] nc]| |] eqn:Ef;
    cbn [mbind result_bind]; [|done|by destruct (F1 why)].
  destruct (F2 c oc nc eq_refl) as (m & Hc & Hm & Hlen & Hab & Hhd & Hdo & Hdw).
  destruct (check_cap_bound config maxDepth old on c m oc) as [Hcap1 Hcap2]; [done|lia|done..|].
  destruct (check_cap config maxDepth c oc) as [u| |]; cbn [mbind result_bind];
    [|done|by destruct (Hcap1 why)].
  specialize (Hcap2 u eq_refl).
  assert (Hab' : Forall (above m) (tail nc)) by (destruct nc; [done|by inversion Hab]).
  destruct (write_markers_ok m (tail nc) canonical Hab') as [c1 Hw].
  rewrite Hw. cbn [mbind result_bind].
  destruct (write_markers_low m (tail nc) canonical c1 Hab' Hcan Hw) as [W1 W2].
  assert (Hnum : ∃ q, match nc with _ :: b :: _ => NumberU64 b | _ => NumberU64 c end = Ok q ∧
                      m ≤ q < two64 - 1).
  { destruct nc as [|b0 [|b1 nc]]; [exists m; split; [done|lia]..|].
    inversion Hab as [|?? _ Hab1]; subst. inversion Hab1 as [|?? (q & Hq & ?) _]; subst.
    exists q. split; [done|lia]. }
  destruct Hnum as (q & -> & Hq). cbn [mbind result_bind]. split; [done|].
  intros canonical' E. apply Ok_inj in E as <-.
  rewrite add64_small by (unfold is_u64; lia).
  assert (Hlow : ∀ k, k ≤ m →
    delete_markers (S (size c1)) (q + 1) c1 c1 !! k = canonical !! k).
  { intros k Hk. rewrite (delete_markers_low m) by (done || lia). by apply W1. }
  exists c, oc, nc, m. do 4 (split; [done|]). split; [done|]. split; [lia|]. split; [done|].
  intros k Hfin. enough (k ≤ m) by (split; [done|by apply Hlow]). unfold FinalizedNumber in Hfin.
  destruct (poa p); [|done]. destruct (_ || _); [done|].
  unfold NumberU64 in Hon. destruct (Number old) as [z|]; [|done].
  cbn [deref mbind result_bind] in Hon. apply Ok_inj in Hon. cbn in Hfin.
  injection Hfin as <-. rewrite Hon, u64_small by (unfold is_u64; lia).
  unfold below. destruct (_ <? _); lia.
Qed.

(** A block store over a list of blocks. *)
Definition store_of `{Crypto} (blocks : list Header) (hash : Hash) (n : Z) : option Header :=
  List.find (fun b => (Header_Hash b =? hash) && bool_decide (NumberU64 b = Ok n)
                      && (n <? two64 - 1)) blocks.

Lemma store_of_ok `{Crypto} blocks : blocks_ok (store_of blocks).
Proof.
  intros hash n b E. apply List.find_some in E as [_ E].
  apply andb_true_iff in E as [E Hn]. apply andb_true_iff in E as [Hh Hb].
  apply Z.eqb_eq in Hh. apply bool_decide_eq_true in Hb. apply Z.ltb_lt in Hn. done.
Qed.

(** A small rolling hash, so that the branches below are cheap to evaluate. *)
Definition fork_crypto : Crypto :=
  {| keccak256 := foldl (fun h b => (h * 257 + b2z b) mod 18446744073709551629) 1;
     RecoverPubkey _ sig := Some sig |}.

Definition fork_block (parent : Header) (number : Z) (extra : bytes) : Header :=
  MkHeader (Header_Hash (H := fork_crypto) parent) 0 0 0 0 0 0 (Some 2) (Some number)
    30000000 0 7 extra 0 0 (Some 1000).

(** Two branches over one ancestor: 160001-160002 and 160001'-160003'. *)
Module Fork.
Definition root := sample_header 160000 2 [].
Definition a1 := fork_block root 160001 [].
Definition a2 := fork_block a1 160002 [].
Definition b1 := fork_block root 160001 [Byte.x01].
Definition b2 := fork_block b1 160002 [Byte.x01].
Definition b3 := fork_block b2 160003 [Byte.x01].
Definition hash_of := Header_Hash (H := fork_crypto).
Definition index : gmap Z Hash :=
  <[160000 := hash_of root]> (<[160001 := hash_of a1]> (<[160002 := hash_of a2]> ∅)).
Definition blocks := [root; a1; a2; b1; b2; b3].
Notation run depth :=
  (reorg (H := fork_crypto) (store_of (H := fork_crypto) blocks) FerminuxChainConfig depth
     a2 b3 index).

Lemma small_a : 0 ≤ 160002 < two64 - 1.
Proof. unfold two64. lia. Qed.

Lemma small_b : 0 ≤ 160003 < two64 - 1.
Proof. unfold two64. lia. Qed.

Lemma small_cap : 0 < 2 < two64.
Proof. unfold two64. lia. Qed.

Lemma index_small k h : index !! k = Some h → k < two64 - 1.
Proof.
  unfold index. rewrite !lookup_insert_Some, lookup_empty. unfold two64.
  intros [[<- _]|[_ [[<- _]|[_ [[<- _]|[_ ?]]]]]]; done || lia.
Qed.

Definition switched : gmap Z Hash :=
  <[160000 := hash_of root]> (<[160001 := hash_of b1]> (<[160002 := hash_of b2]> ∅)).

Lemma run_2 : run 2 = Ok switched.
Proof. vm_compute. reflexivity. Qed.

Lemma run_1 : is_ok (run 1) = false.
Proof. vm_compute. reflexivity. Qed.

Lemma a2_number : NumberU64 a2 = Ok 160002.
Proof. reflexivity. Qed.

Lemma b3_number : NumberU64 b3 = Ok 160003.
Proof. reflexivity. Qed.

Lemma a2_posa : IsPosa FerminuxChainConfig (Number a2) = true.
Proof. reflexivity. Qed.
End Fork.

(** With a cap of two the switch is made and block 160000 stays; with a cap of
    one it is refused. *)
Lemma reorg_keeps_finalized_witness :
  Fork.run 2 = Ok Fork.switched ∧ Fork.switched !! 160000 = Fork.index !! 160000 ∧
  is_ok (Fork.run 1) = false.
Proof.
  split; [exact Fork.run_2|]. split; [|exact Fork.run_1].
  destruct (reorg_keeps_finalized (H := fork_crypto) (store_of (H := fork_crypto) Fork.blocks)
    FerminuxChainConfig 2 Fork.a2 Fork.b3 160002 160003 Fork.index demo_posa
    (store_of_ok (H := fork_crypto) Fork.blocks) Fork.a2_number Fork.b3_number
    Fork.small_a Fork.small_b Fork.index_small Fork.small_cap Fork.a2_posa) as [_ T].
  destruct (T Fork.switched Fork.run_2) as (common & dropped & added & m & _ & _ & _ & _ & Hlen & Hcap & T' & _).
  apply T'. lia.
Defined.
