(* ===== verification/Text.v ===== *)
(** * Text: numbers, hex, words, lines and checksums

    A Go string is its bytes. This file holds what the sidecar's text files use:
    strconv's decimal and hexadecimal numbers, encoding/hex, the hex forms of
    chain/common (types.go, bytes.go), strings.Fields, bytes.SplitAfter and the
    CRC-32C of hash/crc32, with the round trips between printing and parsing. *)

From S2P Require Import Prelude Bytes Types.
From Stdlib Require Import Strings.Byte.
From Stdlib Require Strings.String.

Definition str (s : string) : bytes := String.list_byte_of_string s.

(** ** Digits *)

(** The digit for a value below 16, lower case. *)
Definition digit (v : Z) : byte := z2b (if v <? 10 then 48 + v else 87 + v).

(** The value strconv and hex give a character: [c - '0'], or [lower(c) - 'a' + 10]. *)
Definition digit_value (c : byte) : option Z :=
  let c := b2z c in
  if (48 <=? c) && (c <=? 57) then Some (c - 48)
  else if (97 <=? Z.lor c 32) && (Z.lor c 32 <=? 122) then Some (Z.lor c 32 - 97 + 10)
  else None.

(** ** strconv *)

(** [strconv.ParseUint(s, base, bitSize)] for a base in [2, 36]. *)
Fixpoint parse_uint_loop (base maxVal n : Z) (s : bytes) : result Z :=
  match s with
  | [] => Ok n
  | c :: s =>
      match digit_value c with
      | None => Err (New "invalid syntax")
      | Some d =>
          if base <=? d then Err (New "invalid syntax")
          else if (two64 - 1) / base + 1 <=? n then Err (New "value out of range")
          else if maxVal <? n * base + d then Err (New "value out of range")
          else parse_uint_loop base maxVal (n * base + d) s
      end
  end.

Definition ParseUint (s : bytes) (base bitSize : Z) : result Z :=
  match s with
  | [] => Err (New "invalid syntax")
  | _ => parse_uint_loop base (2 ^ bitSize - 1) 0 s
  end.

(** [strconv.ParseInt(s, base, bitSize)]. *)
Definition ParseInt (s : bytes) (base bitSize : Z) : result Z :=
  match s with
  | [] => Err (New "invalid syntax")
  | c :: rest =>
      let neg := b2z c =? 45 in
      let s := if neg || (b2z c =? 43) then rest else s in
      un ← ParseUint s base bitSize;
      let cutoff := 2 ^ (bitSize - 1) in
      if negb neg && (cutoff <=? un) then Err (New "value out of range")
      else if neg && (cutoff <? un) then Err (New "value out of range")
      else Ok (if neg then - un else un)
  end.

(** The decimal digits of a natural number. *)
Fixpoint dec_loop (fuel : nat) (n : Z) : bytes :=
  match fuel with
  | O => []
  | S fuel => if n <? 10 then [digit n] else dec_loop fuel (n / 10) ++ [digit (n mod 10)]
  end.

(** [%d] of an unsigned and of a signed number. *)
Definition fmt_u (n : Z) : bytes := dec_loop (S (Z.to_nat (Z.log2 n))) n.
Definition fmt_d (n : Z) : bytes := if n <? 0 then str "-" ++ fmt_u (- n) else fmt_u n.

(** ** Hexadecimal *)

(** [hex.EncodeToString]. *)
Definition hex_encode (bs : bytes) : bytes :=
  flat_map (fun b => [digit (b2z b / 16); digit (b2z b mod 16)]) bs.

(** [isHexCharacter], [isHex], [has0xPrefix]. *)
Definition isHexCharacter (c : byte) : bool :=
  let c := b2z c in
  ((48 <=? c) && (c <=? 57)) || ((97 <=? c) && (c <=? 102)) || ((65 <=? c) && (c <=? 70)).

Definition isHex (s : bytes) : bool :=
  if negb (length s mod 2 =? 0)%nat then false else forallb isHexCharacter s.

Definition has0xPrefix (s : bytes) : bool :=
  match s with
  | a :: b :: _ => (b2z a =? 48) && ((b2z b =? 120) || (b2z b =? 88))
  | _ => false
  end.

(** [hex.DecodeString]: the bytes decoded before the first error, and the error. *)
Fixpoint hex_decode (s : bytes) : bytes * option error :=
  match s with
  | [] => ([], None)
  | [a] => ([], Some (New (if isHexCharacter a then "encoding/hex: odd length hex string"
                           else "encoding/hex: invalid byte")))
  | a :: b :: s =>
      match (if isHexCharacter a then digit_value a else None),
            (if isHexCharacter b then digit_value b else None) with
      | Some x, Some y => let '(r, e) := hex_decode s in (z2b (16 * x + y) :: r, e)
      | _, _ => ([], Some (New "encoding/hex: invalid byte"))
      end
  end.

(** [FromHex], [Hex2Bytes]. *)
Definition Hex2Bytes (s : bytes) : bytes := fst (hex_decode s).
Definition FromHex (s : bytes) : bytes :=
  let s := if has0xPrefix s then drop 2 s else s in
  let s := if (length s mod 2 =? 1)%nat then str "0" ++ s else s in
  Hex2Bytes s.

(** [BytesToHash], [BytesToAddress]: cropped from the left. *)
Definition BytesToHash (b : bytes) : Hash := of_be b mod 256 ^ 32.
Definition BytesToAddress (b : bytes) : Address := of_be b mod 256 ^ 20.

Definition HexToAddress (s : bytes) : Address := BytesToAddress (FromHex s).
Definition IsHexAddress (s : bytes) : bool :=
  let s := if has0xPrefix s then drop 2 s else s in
  (length s =? 2 * AddressLength)%nat && isHex s.

(** [Hash.Hex] and [Address.hex]. *)
Definition Hash_Hex (h : Hash) : bytes := str "0x" ++ hex_encode (hash_bytes h).
Definition Address_hex (a : Address) : bytes := str "0x" ++ hex_encode (address_bytes a).

(** [Address.Hex] ([checksumHex]): the letters of the hex form, in upper case
    where the nibble of the hash of that form at the same place is above 7. *)
Fixpoint checksum_case (i : nat) (hash buf : bytes) : bytes :=
  match buf with
  | [] => []
  | c :: buf =>
      let hashByte := b2z (nth (i / 2) hash Byte.x00) in
      let nibble := if (i mod 2 =? 0)%nat then Z.shiftr hashByte 4 else Z.land hashByte 15 in
      (if (57 <? b2z c) && (7 <? nibble) then z2b (b2z c - 32) else c)
        :: checksum_case (S i) hash buf
  end.

Definition Address_Hex `{Crypto} (a : Address) : bytes :=
  let buf := hex_encode (address_bytes a) in
  str "0x" ++ checksum_case 0 (hash_bytes (keccak256 buf)) buf.

(** [strings.ToLower] on ASCII text. *)
Definition to_lower (s : bytes) : bytes :=
  map (fun c => if (65 <=? b2z c) && (b2z c <=? 90) then z2b (b2z c + 32) else c) s.

(** ** Words and lines *)

(** The width of the white-space character a text begins with: unicode.IsSpace
    over UTF-8 (one byte for tab to carriage return and space, two for U+0085
    and U+00A0, three for the others); 0 if it begins with none. *)
Definition space_width (s : bytes) : nat :=
  match s with
  | [] => 0%nat
  | c :: rest =>
      let c := b2z c in
      if (c =? 32) || ((9 <=? c) && (c <=? 13)) then 1%nat
      else if c <? 128 then 0%nat
      else
        match map b2z (take 2 rest) with
        | d :: more =>
            if (c =? 194) && ((d =? 133) || (d =? 160)) then 2%nat
            else
              match more with
              | e :: _ =>
                  if ((c =? 225) && (d =? 154) && (e =? 128))
                     || ((c =? 226) && (d =? 128)
                         && (((128 <=? e) && (e <=? 138)) || (e =? 168) || (e =? 169) || (e =? 175)))
                     || ((c =? 226) && (d =? 129) && (e =? 159))
                     || ((c =? 227) && (d =? 128) && (e =? 128))
                  then 3%nat else 0%nat
              | [] => 0%nat
              end
        | [] => 0%nat
        end
  end.

Definition flush (cur : bytes) (words : list bytes) : list bytes :=
  match cur with [] => words | _ => cur :: words end.

(** [strings.Fields]; [skip] bytes of a white-space character remain. *)
Fixpoint fields_loop (skip : nat) (cur s : bytes) : list bytes :=
  match s with
  | [] => flush cur []
  | c :: rest =>
      match skip with
      | S k => fields_loop k cur rest
      | O => match space_width s with
             | O => fields_loop 0 (cur ++ [c]) rest
             | S k => flush cur (fields_loop k [] rest)
             end
      end
  end.
Definition Fields (s : bytes) : list bytes := fields_loop 0 [] s.

(** [strings.Join(words, " ")]. *)
Fixpoint Join (words : list bytes) : bytes :=
  match words with
  | [] => []
  | [w] => w
  | w :: words => w ++ Byte.x20 :: Join words
  end.

(** [bytes.SplitAfter(s, "\n")]. *)
Fixpoint split_after_loop (cur s : bytes) : list bytes :=
  match s with
  | [] => [cur]
  | c :: rest =>
      if b2z c =? 10 then (cur ++ [c]) :: split_after_loop [] rest
      else split_after_loop (cur ++ [c]) rest
  end.
Definition SplitAfter (s : bytes) : list bytes := split_after_loop [] s.

(** [strings.TrimRight(s, "\r\n")]. *)
Fixpoint trim_left (p : byte → bool) (s : bytes) : bytes :=
  match s with
  | [] => []
  | c :: rest => if p c then trim_left p rest else s
  end.
Definition is_crlf (c : byte) : bool := (b2z c =? 13) || (b2z c =? 10).
Definition TrimRight_crlf (s : bytes) : bytes := reverse (trim_left is_crlf (reverse s)).

(** [strconv.ParseInt(strings.TrimSpace(s), 10, 64)]: white space inside the
    trimmed text is a syntax error, so the text must be one word. *)
Definition ParseInt_trimmed (s : bytes) : result Z :=
  match Fields s with
  | [w] => ParseInt w 10 64
  | _ => Err (New "invalid syntax")
  end.

(** ** CRC-32C *)

(** One step of the reflected polynomial 0x82F63B78, and [crc32.Checksum]. *)
Definition crc_bit (c : Z) : Z :=
  if Z.testbit c 0 then Z.lxor (Z.shiftr c 1) 0x82F63B78 else Z.shiftr c 1.
Definition crc_byte (c : Z) (b : byte) : Z := Nat.iter 8 crc_bit (Z.lxor c (b2z b)).
Definition Checksum (s : bytes) : Z := Z.lxor (foldl crc_byte 0xFFFFFFFF s) 0xFFFFFFFF.

(** The check value of CRC-32C. *)
Example Checksum_check : Checksum (str "123456789") = 0xE3069283.
Proof. reflexivity. Qed.

(** [%08x] of a uint32. *)
Definition fmt_08x (n : Z) : bytes := hex_encode (to_be 4 n).

(** ** Round trips *)

Lemma digit_value_digit v : 0 ≤ v < 16 → digit_value (digit v) = Some v ∧ isHexCharacter (digit v) = true.
Proof.
  intros Hv. rewrite <- (Z2Nat.id v) by lia.
  assert (Hn : (Z.to_nat v < 16)%nat) by lia. revert Hn. generalize (Z.to_nat v). clear.
  intros n Hn. do 16 (destruct n as [|n]; [done|]). lia.
Qed.

Lemma digit_printable v : 0 ≤ v < 16 → 48 ≤ b2z (digit v) ≤ 102.
Proof.
  intros Hv. unfold digit. rewrite b2z_z2b.
  destruct (Z.ltb_spec v 10); rewrite Z.mod_small; lia.
Qed.

Lemma parse_uint_loop_app base maxVal n s t :
  parse_uint_loop base maxVal n (s ++ t) =
  parse_uint_loop base maxVal n s ≫= fun m => parse_uint_loop base maxVal m t.
Proof.
  revert n. induction s as [|c s IH]; intros n; [done|]. cbn [parse_uint_loop app].
  destruct (digit_value c) as [d|]; [|done].
  destruct (base <=? d); [done|]. destruct (_ <=? n); [done|]. destruct (maxVal <? _); [done|].
  apply IH.
Qed.

Lemma parse_uint_loop_digit base maxVal n v s :
  1 < base ≤ 16 → 0 ≤ v < base → 0 ≤ n → n * base + v ≤ maxVal → maxVal < two64 →
  parse_uint_loop base maxVal n (digit v :: s) = parse_uint_loop base maxVal (n * base + v) s.
Proof.
  intros Hb Hv Hn Hle Hm. cbn [parse_uint_loop].
  destruct (digit_value_digit v) as [-> _]; [lia|].
  destruct (Z.leb_spec base v); [lia|].
  assert (n ≤ (two64 - 1) / base) by (apply Z.div_le_lower_bound; lia).
  destruct (Z.leb_spec ((two64 - 1) / base + 1) n); [lia|].
  destruct (Z.ltb_spec maxVal (n * base + v)); [lia|done].
Qed.

Lemma dec_loop_parse fuel n maxVal :
  0 ≤ n < 2 ^ Z.of_nat fuel → n ≤ maxVal → maxVal < two64 →
  parse_uint_loop 10 maxVal 0 (dec_loop fuel n) = Ok n.
Proof.
  revert n. induction fuel as [|fuel IH]; intros n Hn Hle Hm.
  { cbn in Hn |- *. f_equal. lia. }
  cbn [dec_loop]. destruct (Z.ltb_spec n 10).
  - by rewrite parse_uint_loop_digit by lia.
  - rewrite Nat2Z.inj_succ, Z.pow_succ_r in Hn by lia.
    rewrite parse_uint_loop_app, IH by dlia. cbn [mbind result_bind].
    rewrite parse_uint_loop_digit by dlia. cbn [parse_uint_loop]. f_equal. dlia.
Qed.

Lemma fmt_u_fuel n : 0 ≤ n → n < 2 ^ Z.of_nat (S (Z.to_nat (Z.log2 n))).
Proof.
  intros Hn. rewrite Nat2Z.inj_succ, Z2Nat.id by apply Z.log2_nonneg.
  destruct (decide (n = 0)) as [->|]; [done|]. by apply Z.log2_spec; lia.
Qed.

Lemma dec_loop_cons fuel n : ∃ c s, dec_loop (S fuel) n = c :: s.
Proof.
  cbn [dec_loop]. destruct (n <? 10); [eauto|]. destruct (dec_loop fuel (n / 10)); cbn; eauto.
Qed.

(** [%d] of a uint64 reads back. *)
Lemma ParseUint_fmt_u n : is_u64 n → ParseUint (fmt_u n) 10 64 = Ok n.
Proof.
  intros Hn. unfold ParseUint.
  destruct (dec_loop_cons (Z.to_nat (Z.log2 n)) n) as (c & s & E).
  unfold fmt_u. rewrite E, <- E. unfold is_u64, two64 in Hn.
  apply dec_loop_parse; [|lia|unfold two64; lia].
  split; [lia|apply fmt_u_fuel; lia].
Qed.

(** A word: printable ASCII without white space. *)
Definition word_char (c : byte) : Prop := 33 ≤ b2z c ≤ 126.
Definition is_word (s : bytes) : Prop := s ≠ [] ∧ Forall word_char s.

Lemma digit_word_char v : 0 ≤ v < 16 → word_char (digit v).
Proof. intros Hv. pose proof (digit_printable v Hv). unfold word_char. lia. Qed.

Lemma dec_loop_chars fuel n : 0 ≤ n → Forall (fun c => 48 ≤ b2z c ≤ 102) (dec_loop fuel n).
Proof.
  revert n. induction fuel as [|fuel IH]; intros n Hn; cbn [dec_loop]; [constructor|].
  destruct (Z.ltb_spec n 10); [constructor; [apply digit_printable; lia|constructor]|].
  apply Forall_app. split; [apply IH; dlia|]. constructor; [apply digit_printable; dlia|constructor].
Qed.

Lemma fmt_u_word n : 0 ≤ n → is_word (fmt_u n).
Proof.
  intros Hn. split.
  - unfold fmt_u. by destruct (dec_loop_cons (Z.to_nat (Z.log2 n)) n) as (c & s & ->).
  - eapply Forall_impl; [by apply dec_loop_chars|]. intros c [??]. unfold word_char. lia.
Qed.

Lemma fmt_d_word n : is_word (fmt_d n).
Proof.
  unfold fmt_d. destruct (Z.ltb_spec n 0); [|by apply fmt_u_word].
  destruct (fmt_u_word (- n)) as [_ Hc]; [lia|]. split; [done|].
  change (str "-") with [Byte.x2d]. constructor; [|done]. unfold word_char. cbn. lia.
Qed.

(** [%d] of an int64 reads back. *)
Lemma ParseInt_fmt_d n : - 2 ^ 63 ≤ n < 2 ^ 63 → ParseInt (fmt_d n) 10 64 = Ok n.
Proof.
  intros Hn. unfold fmt_d. destruct (Z.ltb_spec n 0).
  - change (str "-") with [Byte.x2d]. cbn [app ParseInt].
    change (b2z Byte.x2d =? 45) with true. cbn [orb negb andb].
    rewrite ParseUint_fmt_u by (unfold is_u64, two64; lia). cbn [mbind result_bind].
    destruct (Z.ltb_spec (2 ^ (64 - 1)) (- n)); [lia|]. f_equal. lia.
  - destruct (fmt_u n) as [|c s] eqn:E.
    { by destruct (fmt_u_word n) as [? _]. }
    assert (Hc : 48 ≤ b2z c ≤ 102).
    { pose proof (dec_loop_chars (S (Z.to_nat (Z.log2 n))) n ltac:(lia)) as Hf.
      unfold fmt_u in E. rewrite E in Hf. by inversion Hf. }
    unfold ParseInt. destruct (Z.eqb_spec (b2z c) 45); [lia|].
    destruct (Z.eqb_spec (b2z c) 43); [lia|]. cbn [orb negb andb].
    rewrite <- E, ParseUint_fmt_u by (unfold is_u64, two64; lia). cbn [mbind result_bind].
    destruct (Z.leb_spec (2 ^ (64 - 1)) n); [lia|done].
Qed.

(** *** Hexadecimal *)

Lemma nibbles b : 0 ≤ b2z b / 16 < 16 ∧ 0 ≤ b2z b mod 16 < 16.
Proof. pose proof (b2z_bound b). dlia. Qed.

Lemma hex_encode_cons b bs :
  hex_encode (b :: bs) = digit (b2z b / 16) :: digit (b2z b mod 16) :: hex_encode bs.
Proof. done. Qed.

Lemma length_hex_encode bs : length (hex_encode bs) = (2 * length bs)%nat.
Proof. induction bs as [|b bs IH]; [done|]. rewrite hex_encode_cons. cbn [length]. lia. Qed.

Lemma hex_decode_encode bs : hex_decode (hex_encode bs) = (bs, None).
Proof.
  induction bs as [|b bs IH]; [done|]. rewrite hex_encode_cons. cbn [hex_decode].
  destruct (nibbles b) as [Hhi Hlo].
  destruct (digit_value_digit _ Hhi) as [-> ->], (digit_value_digit _ Hlo) as [-> ->].
  rewrite IH. f_equal. f_equal. rewrite <- (z2b_b2z b) at 3. f_equal.
  pose proof (b2z_bound b). dlia.
Qed.

Lemma hex_encode_chars bs : Forall (fun c => 48 ≤ b2z c ≤ 102) (hex_encode bs).
Proof.
  induction bs as [|b bs IH]; [constructor|]. rewrite hex_encode_cons.
  destruct (nibbles b). do 2 (constructor; [by apply digit_printable|]). done.
Qed.

Lemma isHex_encode bs : isHex (hex_encode bs) = true.
Proof.
  unfold isHex. rewrite length_hex_encode, Nat.mul_comm, Nat.Div0.mod_mul.
  cbn [Nat.eqb negb]. induction bs as [|b bs IH]; [done|]. rewrite hex_encode_cons.
  cbn [forallb]. destruct (nibbles b) as [Hhi Hlo].
  destruct (digit_value_digit _ Hhi) as [_ ->], (digit_value_digit _ Hlo) as [_ ->]. done.
Qed.

Lemma hex_word bs : is_word (str "0x" ++ hex_encode bs).
Proof.
  split; [done|]. change (str "0x") with [Byte.x30; Byte.x78].
  do 2 (constructor; [unfold word_char; cbn; lia|]).
  eapply Forall_impl; [apply hex_encode_chars|]. intros c [??]. unfold word_char. lia.
Qed.

Lemma strip_0x s :
  (if has0xPrefix (str "0x" ++ s) then drop 2 (str "0x" ++ s) else str "0x" ++ s) = s.
Proof. reflexivity. Qed.

Lemma IsHexAddress_hex a : IsHexAddress (Address_hex a) = true.
Proof.
  unfold IsHexAddress, Address_hex. rewrite strip_0x, isHex_encode, length_hex_encode. unfold address_bytes. by rewrite length_to_be.
Qed.

(** The hex form of an address reads back. *)
Lemma HexToAddress_hex a : is_address a → HexToAddress (Address_hex a) = a.
Proof.
  intros Ha. unfold HexToAddress, FromHex, Address_hex, Hex2Bytes. rewrite strip_0x, length_hex_encode, Nat.mul_comm, Nat.Div0.mod_mul. cbn [Nat.eqb].
  rewrite hex_decode_encode. cbn [fst]. unfold BytesToAddress, address_bytes.
  rewrite of_be_to_be_small by exact Ha. by apply Z.mod_small.
Qed.

Lemma checksum_case_lower i hash bs :
  to_lower (checksum_case i hash (hex_encode bs)) = hex_encode bs.
Proof.
  assert (Hd : ∀ i hash v buf, 0 ≤ v < 16 →
    to_lower (checksum_case i hash (digit v :: buf)) = digit v :: to_lower (checksum_case (S i) hash buf)).
  { clear. intros i hash v buf Hv. cbn [checksum_case to_lower map]. f_equal.
    unfold digit. destruct (Z.ltb_spec v 10).
    - rewrite b2z_z2b, Z.mod_small by lia.
      destruct (Z.ltb_spec 57 (48 + v)); [lia|]. cbn [andb].
      rewrite b2z_z2b, Z.mod_small by lia. destruct (Z.leb_spec 65 (48 + v)); [lia|done].
    - rewrite b2z_z2b, (Z.mod_small (87 + v)) by lia.
      destruct (Z.ltb_spec 57 (87 + v)); [|lia]. cbn [andb]. destruct (7 <? _).
      + rewrite b2z_z2b, Z.mod_small by lia.
        destruct (Z.leb_spec 65 (87 + v - 32)), (Z.leb_spec (87 + v - 32) 90); try lia.
        cbn [andb]. f_equal. lia.
      + rewrite b2z_z2b, Z.mod_small by lia.
        destruct (Z.leb_spec (87 + v) 90); [lia|]. by rewrite andb_false_r. }
  revert i. induction bs as [|b bs IH]; intros i; [done|]. rewrite hex_encode_cons.
  destruct (nibbles b). rewrite !Hd by done. by rewrite IH.
Qed.

(** The checksummed form differs from the plain one in the case of letters only. *)
Lemma to_lower_Hex `{Crypto} a : to_lower (Address_Hex a) = Address_hex a.
Proof.
  unfold Address_Hex, to_lower. rewrite map_app. unfold Address_hex. f_equal.
  apply checksum_case_lower.
Qed.

(** *** Words *)

Lemma space_width_word c s : word_char c → space_width (c :: s) = 0%nat.
Proof.
  intros Hc. unfold word_char in Hc. cbn [space_width].
  destruct (Z.eqb_spec (b2z c) 32); [lia|]. destruct (Z.leb_spec (b2z c) 13); [lia|].
  rewrite andb_false_r. cbn [orb]. destruct (Z.ltb_spec (b2z c) 128); [done|lia].
Qed.

Lemma fields_loop_word w cur s :
  Forall word_char w → fields_loop 0 cur (w ++ s) = fields_loop 0 (cur ++ w) s.
Proof.
  intros Hw. revert cur. induction Hw as [|c w Hc _ IH]; intros cur; cbn [app].
  { by rewrite app_nil_r. }
  cbn [fields_loop]. rewrite space_width_word by done. rewrite IH, <- app_assoc. done.
Qed.

Lemma fields_loop_space cur s : fields_loop 0 cur (Byte.x20 :: s) = flush cur (Fields s).
Proof. reflexivity. Qed.

(** Words joined by single spaces are split back. *)
Lemma Fields_Join ws : Forall is_word ws → Fields (Join ws) = ws.
Proof.
  unfold Fields. induction 1 as [|w ws [Hne Hw] Hws IH]; [done|].
  destruct ws as [|w' ws].
  - cbn [Join]. rewrite <- (app_nil_r w) at 1. rewrite fields_loop_word by done.
    cbn. by destruct w.
  - change (Join (w :: w' :: ws)) with (w ++ Byte.x20 :: Join (w' :: ws)).
    rewrite fields_loop_word by done. rewrite fields_loop_space. cbn [app].
    unfold Fields. rewrite IH. by destruct w.
Qed.

Lemma Join_snoc ws w : ws ≠ [] → Join (ws ++ [w]) = Join ws ++ Byte.x20 :: w.
Proof.
  induction ws as [|w1 ws IH]; [done|]. intros _. destruct ws as [|w2 ws]; [done|].
  change (Join ((w1 :: w2 :: ws) ++ [w])) with (w1 ++ Byte.x20 :: Join ((w2 :: ws) ++ [w])).
  rewrite IH by done. cbn [Join]. by rewrite <- app_assoc.
Qed.

(** *** Lines *)

Definition no_newline (s : bytes) : Prop := Forall (fun c => b2z c ≠ 10) s.

Lemma word_no_newline w : is_word w → no_newline w.
Proof. intros [_ Hw]. eapply Forall_impl; [exact Hw|]. intros c [??]. lia. Qed.

Lemma Join_no_newline ws : Forall is_word ws → no_newline (Join ws).
Proof.
  unfold no_newline. induction 1 as [|w ws Hw Hws IH]; [constructor|].
  apply word_no_newline in Hw. destruct ws as [|w' ws]; [done|].
  change (Join (w :: w' :: ws)) with (w ++ Byte.x20 :: Join (w' :: ws)).
  apply Forall_app. split; [done|]. constructor; [done|exact IH].
Qed.

Lemma split_after_line cur l s :
  no_newline l → split_after_loop cur (l ++ Byte.x0a :: s) = (cur ++ l ++ [Byte.x0a]) :: SplitAfter s.
Proof.
  intros Hl. revert cur. induction Hl as [|c l Hc _ IH]; intros cur; cbn [app split_after_loop].
  { done. }
  destruct (Z.eqb_spec (b2z c) 10); [done|]. rewrite IH. by rewrite <- app_assoc.
Qed.

Lemma split_after_end cur l : no_newline l → split_after_loop cur l = [cur ++ l].
Proof.
  intros Hl. revert cur. induction Hl as [|c l Hc _ IH]; intros cur; cbn [split_after_loop].
  { by rewrite app_nil_r. }
  destruct (Z.eqb_spec (b2z c) 10); [done|]. rewrite IH. by rewrite <- app_assoc.
Qed.

Lemma TrimRight_line l c :
  word_char c → TrimRight_crlf (l ++ [c; Byte.x0a]) = l ++ [c].
Proof.
  intros Hc. unfold TrimRight_crlf, word_char in *. rewrite reverse_app.
  change (reverse [c; Byte.x0a]) with [Byte.x0a; c]. cbn [app trim_left].
  change (is_crlf Byte.x0a) with true. unfold is_crlf.
  destruct (Z.eqb_spec (b2z c) 13), (Z.eqb_spec (b2z c) 10); try lia. cbn [orb].
  by rewrite reverse_cons, reverse_involutive.
Qed.

(** *** The checksum *)

Lemma lxor_bound n a b : 0 ≤ n → 0 ≤ a < 2 ^ n → 0 ≤ b < 2 ^ n → 0 ≤ Z.lxor a b < 2 ^ n.
Proof.
  intros Hn Ha Hb. assert (0 ≤ Z.lxor a b) by (apply Z.lxor_nonneg; lia).
  split; [done|]. rewrite <- (Z.mod_small a (2 ^ n)), <- (Z.mod_small b (2 ^ n)) by done.
  rewrite <- !Z.land_ones by done.
  replace (Z.lxor (Z.land a (Z.ones n)) (Z.land b (Z.ones n)))
    with (Z.land (Z.lxor a b) (Z.ones n))
    by (apply Z.bits_inj'; intros i Hi; rewrite !Z.land_spec, !Z.lxor_spec, !Z.land_spec;
        by destruct (Z.testbit a i), (Z.testbit b i), (Z.testbit (Z.ones n) i)).
  rewrite Z.land_ones by done. apply Z.mod_pos_bound. lia.
Qed.

Lemma crc_byte_bound c b : 0 ≤ c < 2 ^ 32 → 0 ≤ crc_byte c b < 2 ^ 32.
Proof.
  intros Hc. unfold crc_byte. pose proof (b2z_bound b).
  assert (Hx : 0 ≤ Z.lxor c (b2z b) < 2 ^ 32) by (apply lxor_bound; lia).
  revert Hx. generalize (Z.lxor c (b2z b)). intros x Hx.
  assert (Hbit : ∀ y, 0 ≤ y < 2 ^ 32 → 0 ≤ crc_bit y < 2 ^ 32).
  { intros y Hy. unfold crc_bit. rewrite Z.shiftr_div_pow2 by lia.
    assert (0 ≤ y / 2 ^ 1 < 2 ^ 32) by dlia.
    destruct (Z.testbit y 0); [apply lxor_bound; lia|done]. }
  generalize 8%nat. intros k. induction k as [|k IH]; [done|]. cbn [Nat.iter nat_rect]. apply Hbit, IH.
Qed.

Lemma Checksum_bound s : 0 ≤ Checksum s < 2 ^ 32.
Proof.
  unfold Checksum. apply lxor_bound; [lia| |lia].
  assert (Hf : ∀ c, 0 ≤ c < 2 ^ 32 → 0 ≤ foldl crc_byte c s < 2 ^ 32).
  { induction s as [|b s IH]; intros c Hc; [done|]. cbn [foldl]. by apply IH, crc_byte_bound. }
  apply Hf. lia.
Qed.

Lemma parse_hex_encode bs n maxVal :
  0 ≤ n → n * 256 ^ Z.of_nat (length bs) + of_be bs ≤ maxVal → maxVal < two64 →
  parse_uint_loop 16 maxVal n (hex_encode bs) = Ok (n * 256 ^ Z.of_nat (length bs) + of_be bs).
Proof.
  revert n. induction bs as [|b bs IH]; intros n Hn Hle Hm.
  { cbn [hex_encode flat_map parse_uint_loop length]. f_equal. unfold of_be. cbn. lia. }
  rewrite hex_encode_cons. rewrite of_be_cons in Hle |- *. cbn [length] in Hle |- *.
  rewrite Nat2Z.inj_succ, Z.pow_succ_r in Hle |- * by lia.
  pose proof (b2z_bound b) as Hb. pose proof (of_be_bound bs) as Hbs.
  set (p := 256 ^ Z.of_nat (length bs)) in *. assert (0 < p) by (apply Z.pow_pos_nonneg; lia).
  assert (Hsum : n * 256 + b2z b ≤ maxVal) by nia.
  rewrite !parse_uint_loop_digit by dlia.
  replace ((n * 16 + b2z b / 16) * 16 + b2z b mod 16) with (n * 256 + b2z b) by dlia.
  rewrite IH by (done || nia). f_equal. fold p. ring.
Qed.

(** [%08x] reads back. *)
Lemma ParseUint_fmt_08x n : 0 ≤ n < 2 ^ 32 → ParseUint (fmt_08x n) 16 32 = Ok n.
Proof.
  intros Hn. unfold ParseUint, fmt_08x.
  assert (Hc : ∃ c s, hex_encode (to_be 4 n) = c :: s) by (cbn [to_be]; rewrite hex_encode_cons; eauto).
  destruct Hc as (c & s & Hc). rewrite Hc, <- Hc.
  assert (Hb : of_be (to_be 4 n) = n) by (apply of_be_to_be_small; lia).
  rewrite parse_hex_encode; rewrite ?Hb; unfold two64; (f_equal; lia) || lia.
Qed.

Lemma fmt_08x_word n : is_word (fmt_08x n).
Proof.
  split; [done|]. eapply Forall_impl; [apply hex_encode_chars|].
  intros c [??]. unfold word_char. lia.
Qed.
