(* ===== verification/Heap.v ===== *)
(** * Binary heaps (the Go standard library's container/heap)

    The priority queue the transaction pool keeps its nonces and prices in: an
    array in which no element is less than its parent, at [(i-1)/2]. [up] and
    [down] are the loops of the package, on a list with Go's [Swap]; [Less] is
    the caller's comparison. *)

From S2P Require Import Prelude.

(** What [Less] has to be: a strict weak order. *)
Class StrictWeak {A} (less : A → A → bool) : Prop := {
  less_asym x y : less x y = true → less y x = false;
  less_weak x y z : less x z = true → less x y = true ∨ less y z = true;
}.

Section Heap.
Context {A : Type} `{Inhabited A} (less : A → A → bool).

(** ** The operations *)

(** [h[i], h[j] = h[j], h[i]] *)
Definition swap (i j : nat) (h : list A) : list A :=
  <[i := h !!! j]> (<[j := h !!! i]> h).

Definition parent (j : nat) : nat := ((j - 1) / 2)%nat.

(** [up]: the index decreases, so that [S j] steps are enough. *)
Fixpoint up_loop (fuel : nat) (j : nat) (h : list A) : list A :=
  match fuel with
  | O => h
  | S fuel =>
      let i := parent j in
      if (i =? j)%nat || negb (less (h !!! j) (h !!! i)) then h
      else up_loop fuel i (swap i j h)
  end.
Definition up (j : nat) (h : list A) : list A := up_loop (S j) j h.

(** [down]: the index grows below [n]; the boolean says whether it moved. *)
Definition smaller_child (i n : nat) (h : list A) : nat :=
  let j1 := (2 * i + 1)%nat in
  if (j1 + 1 <? n)%nat && less (h !!! (j1 + 1)%nat) (h !!! j1) then (j1 + 1)%nat else j1.
Fixpoint down_loop (fuel : nat) (i n : nat) (h : list A) : nat * list A :=
  match fuel with
  | O => (i, h)
  | S fuel =>
      if (n <=? 2 * i + 1)%nat then (i, h)
      else
        let j := smaller_child i n h in
        if negb (less (h !!! j) (h !!! i)) then (i, h)
        else down_loop fuel j n (swap i j h)
  end.
Definition down (i0 n : nat) (h : list A) : bool * list A :=
  let '(i, h) := down_loop n i0 n h in ((i0 <? i)%nat, h).

(** [Init]: [down] from the last inner node to the root. *)
Fixpoint init_loop (k n : nat) (h : list A) : list A :=
  match k with
  | O => h
  | S k => init_loop k n (down k n h).2
  end.
Definition heap_Init (h : list A) : list A := init_loop (length h / 2) (length h) h.

Definition heap_Push (x : A) (h : list A) : list A := up (length h) (h ++ [x]).

(** [h.Pop()] of the two clients: the last element, and the rest. *)
Definition pop_last (h : list A) : result (A * list A) :=
  match last h with
  | Some x => Ok (x, removelast h)
  | None => Panic "index out of range"
  end.
Definition heap_Pop (h : list A) : result (A * list A) :=
  match h with
  | [] => Panic "index out of range"
  | _ => let n := (length h - 1)%nat in pop_last (down 0 n (swap 0 n h)).2
  end.
Definition heap_Remove (i : nat) (h : list A) : result (A * list A) :=
  if (length h <=? i)%nat then Panic "index out of range"
  else
    let n := (length h - 1)%nat in
    if (n =? i)%nat then pop_last h
    else
      let '(moved, h') := down i n (swap i n h) in
      pop_last (if moved then h' else up i h').

(** ** Correctness *)

Lemma parent_cases j : (0 < j)%nat → j = (2 * parent j + 1)%nat ∨ j = (2 * parent j + 2)%nat.
Proof. unfold parent. pose proof (Nat.div_mod_eq (j - 1) 2). pose proof (Nat.mod_upper_bound (j - 1) 2). lia. Qed.

Lemma parent_0 : parent 0 = 0%nat.
Proof. done. Qed.

Lemma length_swap i j h : length (swap i j h) = length h.
Proof. unfold swap. by rewrite !length_insert. Qed.

Lemma lookup_swap i j h k : (i < length h)%nat → (j < length h)%nat →
  swap i j h !!! k = if (k =? i)%nat then h !!! j else if (k =? j)%nat then h !!! i else h !!! k.
Proof.
  intros Hi Hj. unfold swap.
  destruct (Nat.eqb_spec k i) as [->|]; [by rewrite list_lookup_total_insert_eq by (by rewrite length_insert)|].
  rewrite list_lookup_total_insert_ne by done.
  destruct (Nat.eqb_spec k j) as [->|]; [by rewrite list_lookup_total_insert_eq|].
  by rewrite list_lookup_total_insert_ne.
Qed.

Lemma swap_perm i j h : (i < length h)%nat → (j < length h)%nat → swap i j h ≡ₚ h.
Proof.
  intros Hi Hj. unfold swap.
  apply Permutation_insert_swap; by apply list_lookup_lookup_total_lt.
Qed.

Definition le (x y : A) : Prop := less y x = false.

Context `{!StrictWeak less}.

Lemma le_refl x : le x x.
Proof. unfold le. destruct (less x x) eqn:E; [|done]. by rewrite (less_asym _ _ E) in E. Qed.
Lemma le_trans x y z : le x y → le y z → le x z.
Proof. unfold le. intros H1 H2. destruct (less z x) eqn:E; [|done]. destruct (less_weak _ y _ E); congruence. Qed.
Lemma less_le x y : less x y = true → le x y.
Proof. apply less_asym. Qed.

(** The edge from [j] to its parent is in order. *)
Definition ok (h : list A) (j : nat) : Prop := le (h !!! parent j) (h !!! j).

(** The heap order on the first [n] elements, and on all of them. *)
Definition heap_upto (n : nat) (h : list A) : Prop := ∀ j, (0 < j < n)%nat → ok h j.
Definition heap (h : list A) : Prop := heap_upto (length h) h.

(** Everything above [j] may have to be compared with its children when [j]
    itself is out of place. *)
Definition skips (n j : nat) (h : list A) : Prop :=
  ∀ c, (0 < c < n)%nat → parent c = j → le (h !!! parent j) (h !!! c).

Lemma heap_skips n j h : heap_upto n h → (0 < j < n)%nat → skips n j h.
Proof. intros Hh Hj c Hc <-. eapply le_trans; [by apply Hh|by apply Hh]. Qed.

Lemma smaller_child_spec i n h :
  (2 * i + 1 < n)%nat → let j := smaller_child i n h in
  (0 < j < n)%nat ∧ (i < j)%nat ∧ parent j = i ∧
  ∀ c, (0 < c < n)%nat → parent c = i → le (h !!! j) (h !!! c).
Proof.
  intros Hn. unfold smaller_child.
  assert (Hc : ∀ c, (0 < c)%nat → parent c = i → c = (2 * i + 1)%nat ∨ c = (2 * i + 1 + 1)%nat).
  { intros c ? <-. pose proof (parent_cases c). lia. }
  assert (parent (2 * i + 1) = i) by (pose proof (parent_cases (2 * i + 1)); lia).
  assert (parent (2 * i + 1 + 1) = i) by (pose proof (parent_cases (2 * i + 1 + 1)); lia).
  destruct (Nat.ltb_spec (2 * i + 1 + 1) n); simpl.
  - destruct (less _ _) eqn:E; repeat split; try lia; try done; intros c ? Hp.
    + destruct (Hc c) as [-> | ->]; try done; [lia|by apply less_le|apply le_refl].
    + destruct (Hc c) as [-> | ->]; try done; [lia|apply le_refl].
  - repeat split; try lia; try done. intros c ? Hp.
    destruct (Hc c) as [-> | ->]; try done; [lia|apply le_refl|lia].
Qed.

(** One step of [down] moves the gap from [i] to the smaller child. *)
Lemma swap_down k i n h : (n <= length h)%nat → (k <= i)%nat →
  (2 * i + 1 < n)%nat → let j := smaller_child i n h in
  (∀ m, (0 < m < n)%nat → (k <= parent m)%nat → parent m ≠ i → m ≠ i → ok h m) →
  ((0 < i)%nat → (k <= parent i)%nat → skips n i h) →
  less (h !!! j) (h !!! i) = true →
  (∀ m, (0 < m < n)%nat → (k <= parent m)%nat → parent m ≠ j → m ≠ j → ok (swap i j h) m) ∧
  skips n j (swap i j h) ∧ ok (swap i j h) j.
Proof.
  intros Hlen Hk Hn j. destruct (smaller_child_spec i n h Hn) as (Hj & Hij & Hp & Hmin).
  fold j in Hj, Hij, Hp, Hmin. clearbody j. intros Hok Hsk Hless.
  assert (L : ∀ x, swap i j h !!! x = if (x =? i)%nat then h !!! j else if (x =? j)%nat then h !!! i else h !!! x).
  { intros x. apply lookup_swap; lia. }
  unfold ok, skips. repeat setoid_rewrite L. split_and!.
  - intros m Hm Hkm Hpm Hmj. rewrite (proj2 (Nat.eqb_neq (parent m) j)), (proj2 (Nat.eqb_neq m j)) by done.
    pose proof (parent_cases m).
    destruct (Nat.eqb_spec (parent m) i) as [Hpi|Hpi].
    + rewrite (proj2 (Nat.eqb_neq m i)) by lia. by apply Hmin.
    + destruct (Nat.eqb_spec m i) as [->|Hmi]; [by apply Hsk; [lia..|]|by apply Hok].
  - intros c Hc Hpc. rewrite Hp, Nat.eqb_refl. pose proof (parent_cases c).
    rewrite (proj2 (Nat.eqb_neq c i)), (proj2 (Nat.eqb_neq c j)) by lia.
    rewrite <- Hpc. apply Hok; lia.
  - rewrite Hp, !Nat.eqb_refl, (proj2 (Nat.eqb_neq j i)) by lia. by apply less_le.
Qed.

Lemma down_loop_spec fuel : ∀ k i n h i' h', (n <= length h)%nat → (k <= i)%nat → (n <= fuel + i)%nat →
  (∀ m, (0 < m < n)%nat → (k <= parent m)%nat → parent m ≠ i → m ≠ i → ok h m) →
  ((0 < i)%nat → (k <= parent i)%nat → skips n i h) →
  down_loop fuel i n h = (i', h') →
  h' ≡ₚ h ∧ (∀ m, (n <= m)%nat → h' !!! m = h !!! m) ∧ (i <= i')%nat ∧ (i' = i → h' = h) ∧
  (∀ m, (0 < m < n)%nat → (k <= parent m)%nat → m ≠ i ∨ (i < i')%nat → ok h' m).
Proof.
  induction fuel as [|fuel IH]; intros k i n h i' h' Hlen Hk Hf Hok Hsk; cbn [down_loop].
  - intros [= <- <-]. split_and!; try done. intros m Hm Hkm [|]; [|lia].
    apply Hok; try done. pose proof (parent_cases m). lia.
  - destruct (Nat.leb_spec n (2 * i + 1)) as [Hn|Hn].
    { intros [= <- <-]. split_and!; try done. intros m Hm Hkm [|]; [|lia].
      apply Hok; try done. pose proof (parent_cases m). lia. }
    destruct (smaller_child_spec i n h Hn) as (Hj & Hij & Hp & Hmin).
    pose proof (swap_down k i n h Hlen Hk Hn Hok Hsk) as Hswap. cbv zeta in Hswap, Hj, Hij, Hp, Hmin.
    set (j := smaller_child i n h) in *. clearbody j.
    destruct (less (h !!! j) (h !!! i)) eqn:E; cbn [negb].
    + destruct (Hswap eq_refl) as (Hok1 & Hsk1 & Hj1). intros Ed.
      destruct (IH k j n (swap i j h) i' h') as (P & F & Hle & Hsame & Hok'); try done; try lia.
      { by rewrite length_swap. }
      split_and!; [rewrite P; apply swap_perm; lia| |lia|lia|].
      * intros m Hm. rewrite F, lookup_swap by lia.
        by rewrite (proj2 (Nat.eqb_neq m i)), (proj2 (Nat.eqb_neq m j)) by lia.
      * intros m Hm Hkm _. destruct (decide (m = j)) as [->|]; [|by apply Hok'; [..|left]].
        destruct (decide (i' = j)) as [Ei|]; [by rewrite (Hsame Ei)|apply Hok'; [done..|lia]].
    + intros [= <- <-]. split_and!; try done. intros m Hm Hkm [Hmi|]; [|lia].
      destruct (decide (parent m = i)) as [Hpm|]; [|by apply Hok].
      unfold ok. rewrite Hpm. eapply le_trans; [exact E|by apply Hmin].
Qed.

(** One step of [up] moves the gap from [j] to its parent. *)
Lemma swap_up n j h : (n <= length h)%nat → (0 < j < n)%nat → let i := parent j in
  (∀ m, (0 < m < n)%nat → m ≠ j → ok h m) → skips n j h →
  less (h !!! j) (h !!! i) = true →
  (∀ m, (0 < m < n)%nat → m ≠ i → ok (swap i j h) m) ∧ ((0 < i)%nat → skips n i (swap i j h)).
Proof.
  intros Hlen Hj i Hok Hsk Hless. pose proof (parent_cases j). fold i in H0.
  assert (L : ∀ x, swap i j h !!! x = if (x =? i)%nat then h !!! j else if (x =? j)%nat then h !!! i else h !!! x).
  { intros x. apply lookup_swap; lia. }
  unfold ok, skips. repeat setoid_rewrite L. split.
  - intros m Hm Hmi. rewrite (proj2 (Nat.eqb_neq m i)) by done. pose proof (parent_cases m).
    destruct (Nat.eqb_spec m j) as [->|Hmj].
    { fold i. rewrite Nat.eqb_refl. by apply less_le. }
    specialize (Hok m Hm Hmj). unfold ok in Hok.
    destruct (Nat.eqb_spec (parent m) i) as [Hpi|].
    { rewrite Hpi in Hok. eapply le_trans; [by apply less_le|done]. }
    destruct (Nat.eqb_spec (parent m) j) as [Hpj|]; [by apply Hsk|done].
  - intros Hi c Hc Hpc. pose proof (parent_cases c). pose proof (parent_cases i).
    assert (Hoki : ok h i) by (apply Hok; lia). unfold ok in Hoki.
    rewrite (proj2 (Nat.eqb_neq (parent i) i)), (proj2 (Nat.eqb_neq (parent i) j)), (proj2 (Nat.eqb_neq c i)) by lia.
    destruct (Nat.eqb_spec c j) as [->|]; [done|].
    eapply le_trans; [done|]. rewrite <- Hpc. by apply Hok.
Qed.

Lemma up_loop_spec fuel : ∀ j n h, (n <= length h)%nat → (j < n)%nat → (j < fuel)%nat →
  (∀ m, (0 < m < n)%nat → m ≠ j → ok h m) → ((0 < j)%nat → skips n j h) →
  let h' := up_loop fuel j h in
  h' ≡ₚ h ∧ heap_upto n h' ∧ ∀ m, (n <= m)%nat → h' !!! m = h !!! m.
Proof.
  induction fuel as [|fuel IH]; intros j n h Hlen Hj Hf Hok Hsk; [lia|]; cbn [up_loop].
  pose proof (parent_cases j). destruct (Nat.eqb_spec (parent j) j) as [Ej|Ej]; cbn [orb].
  { split_and!; try done. intros m Hm. apply Hok; [done|]. lia. }
  assert (j ≠ 0%nat) by (intros ->; done).
  destruct (less (h !!! j) (h !!! parent j)) eqn:E; cbn [negb].
  - destruct (swap_up n j h) as [Hok1 Hsk1]; try done; [lia|by apply Hsk; lia|].
    destruct (IH (parent j) n (swap (parent j) j h)) as (P & Hh & F); try done; try lia.
    { by rewrite length_swap. }
    split_and!; [rewrite P; apply swap_perm; lia|done|].
    intros m Hm. rewrite F, lookup_swap by lia.
    by rewrite (proj2 (Nat.eqb_neq m (parent j))), (proj2 (Nat.eqb_neq m j)) by lia.
  - split_and!; try done. intros m Hm. destruct (decide (m = j)) as [->|]; [done|by apply Hok].
Qed.

Lemma init_loop_spec n : ∀ k h, n = length h → (∀ m, (0 < m < n)%nat → (k <= parent m)%nat → ok h m) →
  init_loop k n h ≡ₚ h ∧ heap_upto n (init_loop k n h).
Proof.
  induction k as [|k IH]; intros h Hn Hok; cbn [init_loop].
  { split; [done|]. intros m Hm. apply Hok; lia. }
  unfold down. destruct (down_loop n k n h) as [i' h'] eqn:E; cbn [snd].
  destruct (down_loop_spec n k k n h i' h') as (P & _ & _ & _ & Hok'); try done; try lia.
  { intros m Hm ? ? ?. apply Hok; lia. }
  { intros ? Hp c Hc Hpc. pose proof (parent_cases k). lia. }
  destruct (IH h') as [P' Hh']; [by rewrite P|..].
  { intros m Hm Hkm. apply Hok'; [done..|]. left. pose proof (parent_cases m). lia. }
  split; [by rewrite P'|done].
Qed.

Lemma heap_Init_spec h : heap_Init h ≡ₚ h ∧ heap (heap_Init h).
Proof.
  unfold heap. destruct (init_loop_spec (length h) (length h / 2) h) as [P Hh]; [done|..].
  { intros m Hm Hp. pose proof (parent_cases m). pose proof (Nat.div_mod_eq (length h) 2).
    pose proof (Nat.mod_upper_bound (length h) 2). lia. }
  unfold heap_Init. split; [done|]. by rewrite (Permutation_length P).
Qed.

Lemma heap_Push_spec x h : heap h → heap_Push x h ≡ₚ x :: h ∧ heap (heap_Push x h).
Proof.
  intros Hh. unfold heap_Push, up, heap.
  destruct (up_loop_spec (S (length h)) (length h) (S (length h)) (h ++ [x])) as (P & Hh' & _); try lia.
  - rewrite length_app. simpl. lia.
  - intros m Hm Hne. unfold ok. pose proof (parent_cases m).
    rewrite !lookup_total_app_l by lia. apply Hh. lia.
  - intros ? c Hc Hp. pose proof (parent_cases c). lia.
  - assert (P' : up_loop (S (length h)) (length h) (h ++ [x]) ≡ₚ x :: h) by (rewrite P; solve_Permutation).
    split; [done|]. by rewrite (Permutation_length P').
Qed.

Lemma pop_last_spec n h : length h = S n → pop_last h = Ok (h !!! n, take n h) ∧ h ≡ₚ h !!! n :: take n h.
Proof.
  intros Hn. destruct (decide (h = [])) as [->|Hne]; [done|].
  destruct (exists_last Hne) as (l & x & ->). rewrite length_app in Hn. simpl in Hn.
  assert (n = length l) as -> by lia. unfold pop_last.
  rewrite last_snoc, removelast_last, take_app_length, lookup_total_app_r, Nat.sub_diag by lia.
  split; [done|]. simpl. solve_Permutation.
Qed.

Lemma heap_take n h : (n <= length h)%nat → heap_upto n h → heap (take n h).
Proof.
  intros Hn Hh j Hj. rewrite length_take in Hj. pose proof (parent_cases j).
  unfold ok. rewrite !lookup_total_take, !decide_True by lia. apply Hh. lia.
Qed.

Lemma heap_min h x : heap h → x ∈ h → le (h !!! 0%nat) x.
Proof.
  intros Hh (i & Hi)%list_elem_of_lookup. pose proof (lookup_lt_Some _ _ _ Hi).
  apply list_lookup_total_correct in Hi. subst x.
  induction (lt_wf i) as [i _ IH]. destruct (decide (i = 0%nat)) as [->|]; [apply le_refl|].
  pose proof (parent_cases i). eapply le_trans; [apply (IH (parent i)); lia|apply Hh; lia].
Qed.

Lemma heap_Pop_spec h : heap h → h ≠ [] →
  ∃ h', heap_Pop h = Ok (h !!! 0%nat, h') ∧ h ≡ₚ h !!! 0%nat :: h' ∧ heap h'.
Proof.
  intros Hh Hne. set (n := (length h - 1)%nat).
  assert (Hn : length h = S n) by (destruct h; [done|subst n; simpl; lia]).
  assert (L : ∀ x, swap 0 n h !!! x = if (x =? 0)%nat then h !!! n else if (x =? n)%nat then h !!! 0%nat else h !!! x).
  { intros x. apply lookup_swap; lia. }
  assert (E0 : heap_Pop h = pop_last (down 0 n (swap 0 n h)).2) by (unfold heap_Pop; by destruct h).
  rewrite E0. unfold down. destruct (down_loop n 0 n (swap 0 n h)) as [i' h1] eqn:E; cbn [snd].
  destruct (down_loop_spec n 0 0 n (swap 0 n h) i' h1) as (P & F & _ & _ & Hok'); try done; try lia.
  { rewrite length_swap. lia. }
  { intros m Hm _ Hp Hm0. unfold ok. rewrite !L. pose proof (parent_cases m).
    rewrite (proj2 (Nat.eqb_neq (parent m) 0)), (proj2 (Nat.eqb_neq (parent m) n)),
      (proj2 (Nat.eqb_neq m 0)), (proj2 (Nat.eqb_neq m n)) by lia. apply Hh. lia. }
  assert (Hlen : length h1 = S n) by (rewrite P, length_swap; done).
  assert (Hlast : h1 !!! n = h !!! 0%nat).
  { rewrite F, L by lia. destruct (Nat.eqb_spec n 0) as [->|]; [done|by rewrite Nat.eqb_refl]. }
  destruct (pop_last_spec n h1 Hlen) as [-> Pl]. rewrite Hlast in *.
  exists (take n h1). split_and!; [done| |].
  - rewrite <- Pl, P. symmetry. apply swap_perm; lia.
  - apply heap_take; [lia|]. intros m Hm. apply Hok'; [done|lia|left; lia].
Qed.

Lemma heap_Remove_spec i h : heap h → (i < length h)%nat →
  ∃ h', heap_Remove i h = Ok (h !!! i, h') ∧ h ≡ₚ h !!! i :: h' ∧ heap h'.
Proof.
  intros Hh Hi. unfold heap_Remove. rewrite (proj2 (Nat.leb_gt _ _) Hi). set (n := (length h - 1)%nat).
  assert (Hn : length h = S n) by lia.
  destruct (Nat.eqb_spec n i) as [<-|Hni].
  { destruct (pop_last_spec n h Hn) as [-> P]. exists (take n h). split_and!; [done..|].
    apply heap_take; [lia|]. intros j Hj. apply Hh. lia. }
  assert (L : ∀ x, swap i n h !!! x = if (x =? i)%nat then h !!! n else if (x =? n)%nat then h !!! i else h !!! x).
  { intros x. apply lookup_swap; lia. }
  assert (Hother : ∀ m, (0 < m < n)%nat → parent m ≠ i → m ≠ i → ok (swap i n h) m).
  { intros m Hm Hp Hmi. unfold ok. rewrite !L. pose proof (parent_cases m).
    rewrite (proj2 (Nat.eqb_neq (parent m) i)), (proj2 (Nat.eqb_neq (parent m) n)),
      (proj2 (Nat.eqb_neq m i)), (proj2 (Nat.eqb_neq m n)) by lia. apply Hh. lia. }
  assert (Hskip : (0 < i)%nat → skips n i (swap i n h)).
  { intros Hi0 c Hc Hp. rewrite !L. pose proof (parent_cases c). pose proof (parent_cases i).
    rewrite (proj2 (Nat.eqb_neq (parent i) i)), (proj2 (Nat.eqb_neq (parent i) n)),
      (proj2 (Nat.eqb_neq c i)), (proj2 (Nat.eqb_neq c n)) by lia. eapply heap_skips; [done|lia..|done]. }
  unfold down. destruct (down_loop n i n (swap i n h)) as [i' h1] eqn:E.
  destruct (down_loop_spec n 0 i n (swap i n h) i' h1) as (P & F & Hle & Hsame & Hok'); try done; try lia.
  { rewrite length_swap. lia. } { by intros; apply Hother. } { by intros; apply Hskip. }
  set (h2 := if (i <? i')%nat then h1 else up i h1).
  assert (Hend : h2 ≡ₚ h1 ∧ heap_upto n h2 ∧ ∀ m, (n <= m)%nat → h2 !!! m = h1 !!! m).
  { subst h2. destruct (Nat.ltb_spec i i').
    - split_and!; try done. intros m Hm. apply Hok'; [done|lia|by right].
    - apply up_loop_spec; try lia.
      + rewrite P, length_swap. lia.
      + intros m Hm Hmi. apply Hok'; [done|lia|by left].
      + intros Hi0. rewrite (Hsame ltac:(lia)). by apply Hskip. }
  clearbody h2. destruct Hend as (P2 & Hh2 & F2).
  assert (Hlen : length h2 = S n) by (rewrite P2, P, length_swap; done).
  destruct (pop_last_spec n h2 Hlen) as [-> Pl].
  rewrite F2, F, L, (proj2 (Nat.eqb_neq n i)), Nat.eqb_refl in * by lia.
  exists (take n h2). split_and!; [done| |apply heap_take; [lia|done]].
  rewrite <- Pl, P2, P. symmetry. apply swap_perm; lia.
Qed.
End Heap.
