(* ===== verification/Transaction.v ===== *)
(** * Transactions (chain/core/types: transaction.go, legacy_tx.go,
    access_list_tx.go, dynamic_fee_tx.go, transaction_signing.go)

    The three kinds of transaction data, their prices, their RLP contents and
    hashes, and the signers: what is hashed to be signed, how a signature is put
    into a transaction and how the sender is recovered from it. *)

From S2P Require Import Prelude Bytes Rlp Types Params.

(** ** Transaction data

    Integer fields are never nil in a transaction: [copy] puts new(big.Int) for
    a nil one, and decoding allocates them. *)

Record AccessTuple := MkTuple { at_Address : Address; at_StorageKeys : list Hash }.
Definition AccessList : Type := list AccessTuple.

Record LegacyTx := MkLegacy {
  lt_Nonce : Z; lt_GasPrice : Z; lt_Gas : Z; lt_To : option Address;
  lt_Value : Z; lt_Data : bytes; lt_V : Z; lt_R : Z; lt_S : Z }.
Record AccessListTx := MkAccessList {
  alt_ChainID : Z; alt_Nonce : Z; alt_GasPrice : Z; alt_Gas : Z; alt_To : option Address;
  alt_Value : Z; alt_Data : bytes; alt_AccessList : AccessList; alt_V : Z; alt_R : Z; alt_S : Z }.
Record DynamicFeeTx := MkDynamicFee {
  dt_ChainID : Z; dt_Nonce : Z; dt_GasTipCap : Z; dt_GasFeeCap : Z; dt_Gas : Z;
  dt_To : option Address; dt_Value : Z; dt_Data : bytes; dt_AccessList : AccessList;
  dt_V : Z; dt_R : Z; dt_S : Z }.

Inductive Transaction :=
| Legacy (tx : LegacyTx)
| WithAccessList (tx : AccessListTx)
| DynamicFee (tx : DynamicFeeTx).

#[export] Instance AccessTuple_eq_dec : EqDecision AccessTuple.
Proof. solve_decision. Defined.
#[export] Instance LegacyTx_eq_dec : EqDecision LegacyTx.
Proof. solve_decision. Defined.
#[export] Instance AccessListTx_eq_dec : EqDecision AccessListTx.
Proof. solve_decision. Defined.
#[export] Instance DynamicFeeTx_eq_dec : EqDecision DynamicFeeTx.
Proof. solve_decision. Defined.
#[export] Instance Transaction_eq_dec : EqDecision Transaction.
Proof. solve_decision. Defined.
#[export] Instance Transaction_inhabited : Inhabited Transaction :=
  populate (Legacy (MkLegacy 0 0 0 None 0 [] 0 0 0)).

Definition LegacyTxType : Z := 0.
Definition AccessListTxType : Z := 1.
Definition DynamicFeeTxType : Z := 2.

(** ** Accessors *)

Definition tx_Type (t : Transaction) : Z :=
  match t with Legacy _ => LegacyTxType | WithAccessList _ => AccessListTxType | DynamicFee _ => DynamicFeeTxType end.
Definition tx_Nonce (t : Transaction) : Z :=
  match t with Legacy x => lt_Nonce x | WithAccessList x => alt_Nonce x | DynamicFee x => dt_Nonce x end.
Definition tx_Gas (t : Transaction) : Z :=
  match t with Legacy x => lt_Gas x | WithAccessList x => alt_Gas x | DynamicFee x => dt_Gas x end.
Definition tx_GasPrice (t : Transaction) : Z :=
  match t with Legacy x => lt_GasPrice x | WithAccessList x => alt_GasPrice x | DynamicFee x => dt_GasFeeCap x end.
Definition tx_GasTipCap (t : Transaction) : Z :=
  match t with Legacy x => lt_GasPrice x | WithAccessList x => alt_GasPrice x | DynamicFee x => dt_GasTipCap x end.
Definition tx_GasFeeCap (t : Transaction) : Z :=
  match t with Legacy x => lt_GasPrice x | WithAccessList x => alt_GasPrice x | DynamicFee x => dt_GasFeeCap x end.
Definition tx_To (t : Transaction) : option Address :=
  match t with Legacy x => lt_To x | WithAccessList x => alt_To x | DynamicFee x => dt_To x end.
Definition tx_Value (t : Transaction) : Z :=
  match t with Legacy x => lt_Value x | WithAccessList x => alt_Value x | DynamicFee x => dt_Value x end.
Definition tx_Data (t : Transaction) : bytes :=
  match t with Legacy x => lt_Data x | WithAccessList x => alt_Data x | DynamicFee x => dt_Data x end.
Definition tx_AccessList (t : Transaction) : AccessList :=
  match t with Legacy _ => [] | WithAccessList x => alt_AccessList x | DynamicFee x => dt_AccessList x end.
Definition RawSignatureValues (t : Transaction) : Z * Z * Z :=
  match t with
  | Legacy x => (lt_V x, lt_R x, lt_S x)
  | WithAccessList x => (alt_V x, alt_R x, alt_S x)
  | DynamicFee x => (dt_V x, dt_R x, dt_S x)
  end.

Definition BitLen (x : Z) : Z := big_BitLen (Z.abs x).

(** [deriveChainId]. *)
Definition deriveChainId (v : Z) : Z :=
  if BitLen v <=? 64 then
    let v := big_Uint64 v in
    if (v =? 27) || (v =? 28) then 0 else sub64 v 35 / 2
  else (v - 35) / 2.

(** [isProtectedV], [Protected]. *)
Definition isProtectedV (V : Z) : bool :=
  if BitLen V <=? 8 then
    let v := big_Uint64 V in
    negb (v =? 27) && negb (v =? 28) && negb (v =? 1) && negb (v =? 0)
  else true.
Definition Protected (t : Transaction) : bool :=
  match t with Legacy x => isProtectedV (lt_V x) | _ => true end.

(** [ChainId]. *)
Definition tx_ChainId (t : Transaction) : Z :=
  match t with Legacy x => deriveChainId (lt_V x) | WithAccessList x => alt_ChainID x | DynamicFee x => dt_ChainID x end.

(** [setSignatureValues]; a signer without chain id passes nil, and only legacy
    transactions reach that. *)
Definition setSignatureValues (chainID v r s : Z) (t : Transaction) : Transaction :=
  match t with
  | Legacy x => Legacy (MkLegacy (lt_Nonce x) (lt_GasPrice x) (lt_Gas x) (lt_To x) (lt_Value x) (lt_Data x) v r s)
  | WithAccessList x => WithAccessList (MkAccessList chainID (alt_Nonce x) (alt_GasPrice x) (alt_Gas x) (alt_To x)
      (alt_Value x) (alt_Data x) (alt_AccessList x) v r s)
  | DynamicFee x => DynamicFee (MkDynamicFee chainID (dt_Nonce x) (dt_GasTipCap x) (dt_GasFeeCap x) (dt_Gas x)
      (dt_To x) (dt_Value x) (dt_Data x) (dt_AccessList x) v r s)
  end.

(** ** Prices *)

Definition Cost (t : Transaction) : Z := tx_GasPrice t * tx_Gas t + tx_Value t.
Definition GasFeeCapCmp (t other : Transaction) : comparison := (tx_GasFeeCap t ?= tx_GasFeeCap other).
Definition GasFeeCapIntCmp (t : Transaction) (other : Z) : comparison := (tx_GasFeeCap t ?= other).
Definition GasTipCapCmp (t other : Transaction) : comparison := (tx_GasTipCap t ?= tx_GasTipCap other).
Definition GasTipCapIntCmp (t : Transaction) (other : Z) : comparison := (tx_GasTipCap t ?= other).

(** [EffectiveGasTip]: the value, and whether the fee cap is below the base fee. *)
Definition EffectiveGasTip (t : Transaction) (baseFee : option Z) : Z * bool :=
  match baseFee with
  | None => (tx_GasTipCap t, false)
  | Some b => (Z.min (tx_GasTipCap t) (tx_GasFeeCap t - b), tx_GasFeeCap t <? b)
  end.
Definition EffectiveGasTipValue (t : Transaction) (baseFee : option Z) : Z := (EffectiveGasTip t baseFee).1.
Definition EffectiveGasTipCmp (t other : Transaction) (baseFee : option Z) : comparison :=
  match baseFee with
  | None => GasTipCapCmp t other
  | Some _ => (EffectiveGasTipValue t baseFee ?= EffectiveGasTipValue other baseFee)
  end.

(** ** RLP contents

    A negative integer makes rlp.Encode fail before anything is written; the
    callers ignore that error. *)
Definition big_field (x : Z) : option item := if x <? 0 then None else Some (Str (big_Bytes x)).
Definition uint_field (x : Z) : option item := Some (Str (big_Bytes x)).
Definition to_field (a : option Address) : option item :=
  Some (Str (match a with Some a => address_bytes a | None => [] end)).
Definition data_field (d : bytes) : option item := Some (Str d).
Definition tuple_item (t : AccessTuple) : item :=
  Lst [Str (address_bytes (at_Address t)); Lst ((λ h, Str (hash_bytes h)) <$> at_StorageKeys t)].
Definition list_field (l : AccessList) : option item := Some (Lst (tuple_item <$> l)).

Definition rlp_fields (fields : list (option item)) : bytes :=
  match mapM id fields with
  | Some its => match EncodeToBytes (Lst its) with Ok b => b | _ => [] end
  | None => []
  end.

(** The fields of the inner struct, in order. *)
Definition tx_fields (t : Transaction) : list (option item) :=
  match t with
  | Legacy x => [uint_field (lt_Nonce x); big_field (lt_GasPrice x); uint_field (lt_Gas x); to_field (lt_To x);
      big_field (lt_Value x); data_field (lt_Data x); big_field (lt_V x); big_field (lt_R x); big_field (lt_S x)]
  | WithAccessList x => [big_field (alt_ChainID x); uint_field (alt_Nonce x); big_field (alt_GasPrice x);
      uint_field (alt_Gas x); to_field (alt_To x); big_field (alt_Value x); data_field (alt_Data x);
      list_field (alt_AccessList x); big_field (alt_V x); big_field (alt_R x); big_field (alt_S x)]
  | DynamicFee x => [big_field (dt_ChainID x); uint_field (dt_Nonce x); big_field (dt_GasTipCap x);
      big_field (dt_GasFeeCap x); uint_field (dt_Gas x); to_field (dt_To x); big_field (dt_Value x);
      data_field (dt_Data x); list_field (dt_AccessList x); big_field (dt_V x); big_field (dt_R x); big_field (dt_S x)]
  end.

(** [encodeTyped], [MarshalBinary]. *)
Definition MarshalBinary (t : Transaction) : bytes :=
  if tx_Type t =? LegacyTxType then rlp_fields (tx_fields t)
  else z2b (tx_Type t) :: rlp_fields (tx_fields t).

(** ** Signers (transaction_signing.go) *)

Inductive Signer :=
| FrontierSigner
| HomesteadSigner
| EIP155Signer (chainId : Z)
| eip2930Signer (chainId : Z)
| londonSigner (chainId : Z).

Definition ErrInvalidSig := New "invalid transaction v, r, s values".
Definition ErrTxTypeNotSupported := New "transaction type not supported".
Definition ErrInvalidChainId := New "invalid chain id for signer".

(** [ChainID]; nil for the first two. *)
Definition signer_ChainID (s : Signer) : option Z :=
  match s with
  | FrontierSigner | HomesteadSigner => None
  | EIP155Signer c | eip2930Signer c | londonSigner c => Some c
  end.

(** [Equal]. *)
Definition Signer_Equal (s s2 : Signer) : bool :=
  match s, s2 with
  | FrontierSigner, FrontierSigner | HomesteadSigner, HomesteadSigner => true
  | EIP155Signer c, EIP155Signer d | eip2930Signer c, eip2930Signer d | londonSigner c, londonSigner d => c =? d
  | _, _ => false
  end.

(** [LatestSignerForChainID]. *)
Definition LatestSignerForChainID (chainID : option Z) : Signer :=
  match chainID with None => HomesteadSigner | Some c => londonSigner c end.

(** What [Hash] hashes: the type byte, if any, and the fields. *)
Definition plain_fields (t : Transaction) : list (option item) :=
  [uint_field (tx_Nonce t); big_field (tx_GasPrice t); uint_field (tx_Gas t); to_field (tx_To t);
   big_field (tx_Value t); data_field (tx_Data t)].
Definition protected_fields (chainId : Z) (t : Transaction) : list (option item) :=
  plain_fields t ++ [big_field chainId; uint_field 0; uint_field 0].
Definition access_fields (chainId : Z) (t : Transaction) : list (option item) :=
  big_field chainId :: plain_fields t ++ [list_field (tx_AccessList t)].
Definition dynamic_fields (chainId : Z) (t : Transaction) : list (option item) :=
  [big_field chainId; uint_field (tx_Nonce t); big_field (tx_GasTipCap t); big_field (tx_GasFeeCap t);
   uint_field (tx_Gas t); to_field (tx_To t); big_field (tx_Value t); data_field (tx_Data t);
   list_field (tx_AccessList t)].

Definition eip2930_preimage (chainId : Z) (t : Transaction) : option bytes :=
  match t with
  | Legacy _ => Some (rlp_fields (protected_fields chainId t))
  | WithAccessList _ => Some (z2b (tx_Type t) :: rlp_fields (access_fields chainId t))
  | DynamicFee _ => None
  end.
Definition sign_preimage (s : Signer) (t : Transaction) : option bytes :=
  match s with
  | FrontierSigner | HomesteadSigner => Some (rlp_fields (plain_fields t))
  | EIP155Signer c => Some (rlp_fields (protected_fields c t))
  | eip2930Signer c => eip2930_preimage c t
  | londonSigner c =>
      match t with
      | DynamicFee _ => Some (z2b (tx_Type t) :: rlp_fields (dynamic_fields c t))
      | _ => eip2930_preimage c t
      end
  end.

(** [decodeSignature]: 65 bytes, or a panic. *)
Definition decodeSignature (sig : bytes) : result (Z * Z * Z) :=
  match sig !! 64%nat with
  | Some v =>
      if (length sig =? 65)%nat
      then Ok (of_be (take 32 sig), of_be (take 32 (drop 32 sig)), (b2z v + 27) mod 256)
      else Panic "wrong size for signature"
  | None => Panic "wrong size for signature"
  end.

(** [SignatureValues]: R, S, V. *)
Definition raw_V (sig : bytes) : Z := match sig !! 64%nat with Some v => b2z v | None => 0 end.
Definition eip155_values (chainId : Z) (sig : bytes) : result (Z * Z * Z) :=
  '(R, Sv, V) ← decodeSignature sig;
  Ok (R, Sv, if chainId =? 0 then V else (raw_V sig + 35) mod 256 + 2 * chainId).
Definition typed_values (txChainID chainId : Z) (sig : bytes) : result (Z * Z * Z) :=
  if negb (txChainID =? 0) && negb (txChainID =? chainId) then Err ErrInvalidChainId
  else '(R, Sv, _) ← decodeSignature sig; Ok (R, Sv, raw_V sig).
Definition SignatureValues (s : Signer) (t : Transaction) (sig : bytes) : result (Z * Z * Z) :=
  match s, t with
  | (FrontierSigner | HomesteadSigner), Legacy _ => decodeSignature sig
  | (EIP155Signer c | eip2930Signer c | londonSigner c), Legacy _ => eip155_values c sig
  | (eip2930Signer c | londonSigner c), WithAccessList x => typed_values (alt_ChainID x) c sig
  | londonSigner c, DynamicFee x => typed_values (dt_ChainID x) c sig
  | _, _ => Err ErrTxTypeNotSupported
  end.

(** [WithSignature]. *)
Definition WithSignature (s : Signer) (t : Transaction) (sig : bytes) : result Transaction :=
  '(R, Sv, V) ← SignatureValues s t sig;
  Ok (setSignatureValues (default 0 (signer_ChainID s)) V R Sv t).

(** crypto.ValidateSignatureValues *)
Definition secp256k1N : Z := 0xfffffffffffffffffffffffffffffffebaaedce6af48a03bbfd25e8cd0364141.
Definition secp256k1halfN : Z := secp256k1N / 2.
Definition ValidateSignatureValues (v r s : Z) (homestead : bool) : bool :=
  if (r <? 1) || (s <? 1) then false
  else if homestead && (secp256k1halfN <? s) then false
  else (r <? secp256k1N) && (s <? secp256k1N) && ((v =? 0) || (v =? 1)).

Section Signing.
Context `{Crypto}.

(** [tx.Hash], without its cache. *)
Definition tx_Hash (t : Transaction) : Hash :=
  if tx_Type t =? LegacyTxType then keccak256 (rlp_fields (tx_fields t))
  else keccak256 (z2b (tx_Type t) :: rlp_fields (tx_fields t)).

(** [Signer.Hash]; the zero hash for a type the signer does not know. *)
Definition Signer_Hash (s : Signer) (t : Transaction) : Hash :=
  match sign_preimage s t with Some b => keccak256 b | None => 0 end.

(** [recoverPlain]. *)
Definition recoverPlain (sighash : Hash) (R S Vb : Z) (homestead : bool) : result Address :=
  if 8 <? BitLen Vb then Err ErrInvalidSig
  else
    let V := sub64 (big_Uint64 Vb) 27 mod 256 in
    if negb (ValidateSignatureValues V R S homestead) then Err ErrInvalidSig
    else
      let sig := LeftPadBytes (big_Bytes R) 32 ++ LeftPadBytes (big_Bytes S) 32 ++ [z2b V] in
      pub ← Ecrecover (hash_bytes sighash) sig;
      match pub with
      | b :: _ => if b2z b =? 4 then Ok (pubkeyToAddress pub) else Err (New "invalid public key")
      | [] => Err (New "invalid public key")
      end.

(** [Signer.Sender]. *)
Definition homestead_Sender (t : Transaction) : result Address :=
  let '(V, R, Sv) := RawSignatureValues t in
  match t with
  | Legacy _ => recoverPlain (Signer_Hash HomesteadSigner t) R Sv V true
  | _ => Err ErrTxTypeNotSupported
  end.
Definition checked_Sender (s : Signer) (chainId : Z) (t : Transaction) (V : Z) : result Address :=
  let '(_, R, Sv) := RawSignatureValues t in
  if negb (tx_ChainId t =? chainId) then Err ErrInvalidChainId
  else recoverPlain (Signer_Hash s t) R Sv V true.
Definition eip2930_Sender (chainId : Z) (t : Transaction) : result Address :=
  let '(V, _, _) := RawSignatureValues t in
  match t with
  | Legacy _ =>
      if negb (Protected t) then homestead_Sender t
      else checked_Sender (eip2930Signer chainId) chainId t (V - 2 * chainId - 8)
  | WithAccessList _ => checked_Sender (eip2930Signer chainId) chainId t (V + 27)
  | DynamicFee _ => Err ErrTxTypeNotSupported
  end.
Definition Signer_Sender (s : Signer) (t : Transaction) : result Address :=
  let '(V, R, Sv) := RawSignatureValues t in
  match s with
  | FrontierSigner =>
      match t with
      | Legacy _ => recoverPlain (Signer_Hash s t) R Sv V false
      | _ => Err ErrTxTypeNotSupported
      end
  | HomesteadSigner => homestead_Sender t
  | EIP155Signer c =>
      match t with
      | Legacy _ => if negb (Protected t) then homestead_Sender t else checked_Sender s c t (V - 2 * c - 8)
      | _ => Err ErrTxTypeNotSupported
      end
  | eip2930Signer c => eip2930_Sender c t
  | londonSigner c =>
      match t with
      | DynamicFee _ => checked_Sender s c t (V + 27)
      | _ => eip2930_Sender c t
      end
  end.

(** [Sender] with the cache of a transaction. *)
Definition Sender (s : Signer) (t : Transaction) (cached : option (Signer * Address))
  : result Address * option (Signer * Address) :=
  let fresh :=
    match Signer_Sender s t with
    | Ok addr => (Ok addr, Some (s, addr))
    | r => (r, cached)
    end in
  match cached with
  | Some (s0, addr) => if Signer_Equal s0 s then (Ok addr, cached) else fresh
  | None => fresh
  end.

(** [SignTx], with crypto.Sign of the key an argument. *)
Definition SignTx (sign : bytes → result bytes) (t : Transaction) (s : Signer) : result Transaction :=
  sig ← sign (hash_bytes (Signer_Hash s t));
  WithSignature s t sig.
End Signing.

(** ** What is signed *)

(** The fields a London signer hashes, when none is negative. *)
Definition to_bytes (a : option Address) : bytes := match a with Some a => address_bytes a | None => [] end.
Definition plain_items (t : Transaction) : list item :=
  [int_item (tx_Nonce t); int_item (tx_GasPrice t); int_item (tx_Gas t); Str (to_bytes (tx_To t));
   int_item (tx_Value t); Str (tx_Data t)].
Definition london_items (c : Z) (t : Transaction) : list item :=
  match t with
  | Legacy _ => plain_items t ++ [int_item c; int_item 0; int_item 0]
  | WithAccessList _ => int_item c :: plain_items t ++ [Lst (tuple_item <$> tx_AccessList t)]
  | DynamicFee _ =>
      [int_item c; int_item (tx_Nonce t); int_item (tx_GasTipCap t); int_item (tx_GasFeeCap t);
       int_item (tx_Gas t); Str (to_bytes (tx_To t)); int_item (tx_Value t); Str (tx_Data t);
       Lst (tuple_item <$> tx_AccessList t)]
  end.
Definition type_prefix (t : Transaction) : bytes :=
  match t with Legacy _ => [] | _ => [z2b (tx_Type t)] end.

(** Fields in their Go ranges, integers not negative, and an encoding that fits
    in memory. *)
Definition wf_tuple (a : AccessTuple) : Prop := is_address (at_Address a) ∧ Forall is_hash (at_StorageKeys a).
Record wf_tx (c : Z) (t : Transaction) : Prop := {
  wf_txnonce : is_u64 (tx_Nonce t);
  wf_txgas : is_u64 (tx_Gas t);
  wf_txtip : 0 ≤ tx_GasTipCap t;
  wf_txfee : 0 ≤ tx_GasFeeCap t;
  wf_txvalue : 0 ≤ tx_Value t;
  wf_txto : ∀ a, tx_To t = Some a → is_address a;
  wf_txlist : Forall wf_tuple (tx_AccessList t);
  wf_txchain : 0 ≤ c;
  wf_txsize : zlen (encode (Lst (london_items c t))) < two64
}.

Lemma mapM_Some (l : list item) : mapM id (Some <$> l) = Some l.
Proof. apply mapM_Some_2. by induction l; constructor. Qed.

Lemma rlp_fields_encode its :
  zlen (encode (Lst its)) < two64 → rlp_fields (Some <$> its) = encode (Lst its).
Proof. intros H. unfold rlp_fields. by rewrite mapM_Some, EncodeToBytes_ok. Qed.

Lemma big_field_nonneg x : 0 ≤ x → big_field x = Some (int_item x).
Proof. intros. unfold big_field. by ztests. Qed.

Lemma tx_GasPrice_FeeCap t : tx_GasPrice t = tx_GasFeeCap t.
Proof. by destruct t. Qed.

Lemma london_preimage c t : wf_tx c t →
  sign_preimage (londonSigner c) t = Some (type_prefix t ++ encode (Lst (london_items c t))).
Proof.
  intros []. rewrite <- rlp_fields_encode by done. unfold is_u64 in *.
  destruct t as [x|x|x]; cbn [sign_preimage eip2930_preimage type_prefix app];
    unfold protected_fields, access_fields, dynamic_fields, plain_fields; rewrite ?tx_GasPrice_FeeCap;
    rewrite !big_field_nonneg by done; do 2 f_equal;
    unfold london_items, plain_items; by rewrite ?tx_GasPrice_FeeCap.
Qed.

(** A list does not start with a type byte. *)
Lemma encode_list_not_typed l tail v : 0 ≤ v ≤ 0x7F → zlen (encode (Lst l)) < two64 →
  encode (Lst l) ≠ z2b v :: tail.
Proof.
  intros Hv Hlen E. pose proof (Split_encode (Lst l) [] ltac:(by rewrite app_nil_r)) as HS.
  rewrite app_nil_r, E in HS. unfold Split in HS. rewrite E, zlen_cons in Hlen.
  rewrite split_byte in HS; [discriminate HS| |done]. rewrite b2z_z2b, Z.mod_small; lia.
Qed.

Lemma address_bytes_inj a b : is_address a → is_address b → address_bytes a = address_bytes b → a = b.
Proof. exact (to_be_inj AddressLength a b). Qed.
Lemma hash_bytes_inj a b : is_hash a → is_hash b → hash_bytes a = hash_bytes b → a = b.
Proof. exact (to_be_inj HashLength a b). Qed.

(** A function that is injective on [P] maps different lists to different lists. *)
Lemma fmap_inj_on {A B} (P : A → Prop) (f : A → B) l1 : ∀ l2,
  (∀ x y, P x → P y → f x = f y → x = y) → Forall P l1 → Forall P l2 → f <$> l1 = f <$> l2 → l1 = l2.
Proof.
  induction l1 as [|x l1 IH]; intros [|y l2] Hf F1 F2 E; try done.
  apply Forall_cons in F1 as [], F2 as []. injection E as ? ?.
  f_equal; [by apply Hf|by apply IH].
Qed.

Lemma tuple_items_inj l1 l2 : Forall wf_tuple l1 → Forall wf_tuple l2 →
  tuple_item <$> l1 = tuple_item <$> l2 → l1 = l2.
Proof.
  apply fmap_inj_on. intros [a1 k1] [a2 k2] [Ha1 Hk1] [Ha2 Hk2] E. unfold tuple_item in E.
  cbn [at_Address at_StorageKeys] in *. apply Lst_inj, Str_cons_inj in E as [? Ek].
  assert (Ek' : (λ h, Str (hash_bytes h)) <$> k1 = (λ h, Str (hash_bytes h)) <$> k2) by congruence.
  clear Ek. rename Ek' into Ek.
  f_equal; [by apply address_bytes_inj|].
  revert Ek. apply (fmap_inj_on is_hash); [|done..]. intros x y Hx Hy Exy.
  assert (hash_bytes x = hash_bytes y) by congruence. by apply hash_bytes_inj.
Qed.

Lemma to_bytes_inj a b : (∀ x, a = Some x → is_address x) → (∀ x, b = Some x → is_address x) →
  to_bytes a = to_bytes b → a = b.
Proof.
  intros Ha Hb E. destruct a as [x|], b as [y|]; cbn [to_bytes] in E; try done.
  - f_equal. apply address_bytes_inj; [by apply Ha|by apply Hb|exact E].
Qed.

(** The content that the sender of a transaction agrees to. *)
Definition signed_content (t : Transaction) :=
  (tx_Type t, tx_Nonce t, tx_GasTipCap t, tx_GasFeeCap t, tx_Gas t, tx_To t, tx_Value t, tx_Data t, tx_AccessList t).

Lemma item_cons_inj (x y : item) l m : x :: l = y :: m → x = y ∧ l = m.
Proof. intros [= -> ->]. done. Qed.

Lemma london_items_inj c1 c2 t1 t2 : wf_tx c1 t1 → wf_tx c2 t2 → tx_Type t1 = tx_Type t2 →
  london_items c1 t1 = london_items c2 t2 → c1 = c2 ∧ signed_content t1 = signed_content t2.
Proof.
  intros [] [] ET E. unfold signed_content, is_u64, two64 in *.
  assert (Bt : ∀ x y, int_item x = int_item y → 0 ≤ x → 0 ≤ y → x = y).
  { intros x y Exy ? ?. apply big_Bytes_inj; [done..|]. unfold int_item in Exy. congruence. }
  assert (Tt : Str (to_bytes (tx_To t1)) = Str (to_bytes (tx_To t2)) → tx_To t1 = tx_To t2).
  { intros Es. apply to_bytes_inj; [done..|congruence]. }
  assert (Lt : Lst (tuple_item <$> tx_AccessList t1) = Lst (tuple_item <$> tx_AccessList t2) →
    tx_AccessList t1 = tx_AccessList t2).
  { intros Es. apply tuple_items_inj; [done..|by apply Lst_inj]. }
  unfold london_items, plain_items in E.
  destruct t1, t2; try discriminate ET; rewrite ?tx_GasPrice_FeeCap in E; cbn [app] in E;
    repeat (apply item_cons_inj in E as [? E]);
    (split; [apply Bt; assumption|]).
  all: repeat match goal with
    | |- (_, _) = (_, _) => f_equal
    | |- tx_To _ = tx_To _ => by apply Tt
    | |- tx_AccessList _ = tx_AccessList _ => first [done|by apply Lt]
    | |- tx_Data _ = tx_Data _ => congruence
    | |- tx_Type _ = tx_Type _ => done
    | |- _ = _ => apply Bt; [assumption|lia..]
    end.
Qed.

(** The type byte of a typed transaction keeps the three kinds apart. *)
Lemma sign_preimage_inj c1 c2 t1 t2 : wf_tx c1 t1 → wf_tx c2 t2 →
  sign_preimage (londonSigner c1) t1 = sign_preimage (londonSigner c2) t2 →
  c1 = c2 ∧ signed_content t1 = signed_content t2.
Proof.
  intros H1 H2 E. rewrite !london_preimage in E by done.
  apply (inj Some) in E. pose proof (wf_txsize _ _ H1) as Z1. pose proof (wf_txsize _ _ H2) as Z2.
  assert (ET : tx_Type t1 = tx_Type t2 ∧ encode (Lst (london_items c1 t1)) = encode (Lst (london_items c2 t2))).
  { destruct t1 as [x1|x1|x1], t2 as [x2|x2|x2]; cbn [type_prefix app tx_Type] in E;
      first [ by split; [done|congruence]
            | by apply encode_list_not_typed in E; [|split; done|done]
            | by symmetry in E; apply encode_list_not_typed in E; [|split; done|done]
            | injection E as E _; by apply (f_equal b2z) in E ]. }
  destruct ET as [ET EE]. apply encode_inj, Lst_inj in EE; [|done].
  by apply london_items_inj.
Qed.

(** ** Signing and recovering *)

(** A private key with its public key: what secp256k1.Sign guarantees of the
    signature [R || S || V] (low S, recovery id 0 or 1), and that recovery gives
    the key back. *)
Record Signs `{Crypto} (sign : bytes → result bytes) (pub : bytes) : Prop := {
  signs_sig h sig : sign h = Ok sig → ∃ r s v,
    sig = to_be 32 r ++ to_be 32 s ++ [z2b v] ∧ 1 ≤ r < secp256k1N ∧ 1 ≤ s ≤ secp256k1halfN ∧
    (v = 0 ∨ v = 1) ∧ RecoverPubkey h sig = Some pub;
  signs_pub : ∃ tl, pub = Byte.x04 :: tl
}.

Lemma decodeSignature_ok r s v : 0 ≤ r < 256 ^ 32 → 0 ≤ s < 256 ^ 32 → v = 0 ∨ v = 1 →
  let sig := to_be 32 r ++ to_be 32 s ++ [z2b v] in
  decodeSignature sig = Ok (r, s, v + 27) ∧ raw_V sig = v.
Proof.
  intros Hr Hs Hv sig. assert (L : sig !! 64%nat = Some (z2b v)).
  { unfold sig. rewrite !lookup_app_r by (rewrite ?length_to_be; lia). by rewrite !length_to_be. }
  assert (Hb : b2z (z2b v) = v) by (rewrite b2z_z2b, Z.mod_small; lia).
  unfold decodeSignature, raw_V. rewrite L, Hb. unfold sig.
  rewrite !length_app, !length_to_be. cbn [length Nat.add Nat.eqb].
  rewrite take_app_le, take_ge by (rewrite length_to_be; lia).
  rewrite (drop_app_length' (to_be 32 r)) by (by rewrite length_to_be).
  rewrite take_app_le, take_ge by (rewrite length_to_be; lia).
  rewrite !of_be_to_be, (Z.mod_small r), (Z.mod_small s) by done.
  by rewrite Z.mod_small by lia.
Qed.

Lemma recoverPlain_ok `{Crypto} sign pub hash sig : Signs sign pub → sign (hash_bytes hash) = Ok sig →
  ∃ r s v, decodeSignature sig = Ok (r, s, v + 27) ∧ raw_V sig = v ∧ (v = 0 ∨ v = 1) ∧
    recoverPlain hash r s (v + 27) true = Ok (pubkeyToAddress pub).
Proof.
  intros HS Hsig. destruct (signs_sig _ _ HS _ _ Hsig) as (r & s & v & -> & Hr & Hs & Hv & HR).
  assert (Hr' : 0 ≤ r < 256 ^ 32) by (revert Hr; unfold secp256k1N; lia).
  assert (Hs' : 0 ≤ s < 256 ^ 32) by (revert Hs; unfold secp256k1halfN, secp256k1N; intros; dlia).
  assert (Hlow : s < secp256k1N) by (revert Hs; unfold secp256k1halfN, secp256k1N; intros; dlia).
  destruct (decodeSignature_ok r s v) as [Hd Hraw]; [done..|].
  exists r, s, v. split_and!; try done.
  unfold recoverPlain.
  replace (8 <? BitLen (v + 27)) with false by (by destruct Hv as [-> | ->]).
  replace (sub64 (big_Uint64 (v + 27)) 27 mod 256) with v by (by destruct Hv as [-> | ->]).
  assert (ValidateSignatureValues v r s true = true) as ->.
  { unfold ValidateSignatureValues.
    rewrite (proj2 (Z.ltb_ge r 1)), (proj2 (Z.ltb_ge s 1)), (proj2 (Z.ltb_ge secp256k1halfN s)),
      (proj2 (Z.ltb_lt r secp256k1N)), (proj2 (Z.ltb_lt s secp256k1N)) by lia.
    by destruct Hv as [-> | ->]. }
  cbn [negb]. rewrite !LeftPad_big_Bytes by done. unfold Ecrecover. rewrite HR.
  destruct (signs_pub _ _ HS) as [tl ->]. done.
Qed.

Lemma BitLen_le n V : 0 < V → 0 ≤ n → BitLen V ≤ n ↔ V < 2 ^ n.
Proof.
  intros HV Hn. unfold BitLen, big_BitLen. rewrite Z.abs_eq by lia.
  destruct (Z.eqb_spec V 0); [lia|]. rewrite (Z.log2_lt_pow2 V n) by done. lia.
Qed.

Lemma protected_V c v : 0 < c → v = 0 ∨ v = 1 →
  deriveChainId (v + 35 + 2 * c) = c ∧ isProtectedV (v + 35 + 2 * c) = true.
Proof.
  intros Hc Hv. unfold deriveChainId, isProtectedV. set (V := v + 35 + 2 * c).
  assert (HV : (V - 35) / 2 = c) by (subst V; destruct Hv as [-> | ->]; dlia).
  assert (Hbig : 37 ≤ V) by lia. clearbody V. split.
  - destruct (Z.leb_spec (BitLen V) 64) as [HB|_]; [|done].
    apply BitLen_le in HB; [|lia..]. change (2 ^ 64) with two64 in HB.
    unfold big_Uint64. rewrite u64_small by (unfold is_u64; lia). rewrite Z.abs_eq by lia.
    ztests. cbn [orb]. by rewrite sub64_small by (unfold is_u64; lia).
  - destruct (Z.leb_spec (BitLen V) 8) as [HB|_]; [|done].
    apply BitLen_le in HB; [|lia..]. change (2 ^ 8) with 256 in HB.
    unfold big_Uint64. rewrite u64_small by (unfold is_u64, two64; lia). rewrite Z.abs_eq by lia. by ztests.
Qed.

(** The chain id of the transaction's own, if it names one, is the signer's. *)
Definition names_chain (c : Z) (t : Transaction) : Prop :=
  match t with
  | Legacy _ => True
  | WithAccessList x => alt_ChainID x = 0 ∨ alt_ChainID x = c
  | DynamicFee x => dt_ChainID x = 0 ∨ dt_ChainID x = c
  end.

Lemma WithSignature_ok c t sig r s v : 0 < c → names_chain c t →
  decodeSignature sig = Ok (r, s, v + 27) → raw_V sig = v → v = 0 ∨ v = 1 →
  WithSignature (londonSigner c) t sig =
    Ok (setSignatureValues c (match t with Legacy _ => v + 35 + 2 * c | _ => v end) r s t).
Proof.
  intros Hc Hn Hd Hr Hv. unfold WithSignature, SignatureValues, eip155_values, typed_values.
  destruct t as [x|x|x]; cbn [names_chain] in Hn.
  - rewrite Hd. cbn [mbind result_bind]. rewrite Hr. ztests. cbn. do 2 f_equal.
    rewrite Z.mod_small by lia. done.
  - replace (negb _ && negb _) with false by (destruct Hn as [-> | ->]; [done|rewrite Z.eqb_refl; by rewrite andb_comm]).
    rewrite Hd. cbn. by rewrite Hr.
  - replace (negb _ && negb _) with false by (destruct Hn as [-> | ->]; [done|rewrite Z.eqb_refl; by rewrite andb_comm]).
    rewrite Hd. cbn. by rewrite Hr.
Qed.

(** Recovering the sender of a signed transaction with some London signer. *)
Lemma signed_Sender `{Crypto} c d t r s v : 0 < c → v = 0 ∨ v = 1 →
  let t' := setSignatureValues c (match t with Legacy _ => v + 35 + 2 * c | _ => v end) r s t in
  tx_ChainId t' = c ∧
  Signer_Sender (londonSigner d) t' =
    (if c =? d then recoverPlain (Signer_Hash (londonSigner c) t) r s (v + 27) true else Err ErrInvalidChainId).
Proof.
  intros Hc Hv t'. destruct (protected_V c v Hc Hv) as [HD HP].
  assert (HI : tx_ChainId t' = c) by (by destruct t). split; [done|].
  assert (HPr : Protected t' = true) by (by destruct t).
  assert (HS : Signer_Sender (londonSigner d) t' =
    checked_Sender (match t with DynamicFee _ => londonSigner d | _ => eip2930Signer d end) d t'
      (match t with Legacy _ => v + 35 + 2 * c - 2 * d - 8 | _ => v + 27 end)).
  { destruct t as [x|x|x]; cbn [t' setSignatureValues Signer_Sender RawSignatureValues lt_V lt_R lt_S
      alt_V alt_R alt_S dt_V dt_R dt_S eip2930_Sender] in *; [by rewrite HPr|done..]. }
  rewrite HS. unfold checked_Sender. rewrite HI.
  assert (HR : RawSignatureValues t' = (match t with Legacy _ => v + 35 + 2 * c | _ => v end, r, s)) by (by destruct t).
  rewrite HR. destruct (Z.eqb_spec c d) as [<-|]; [|done]. cbn [negb].
  destruct t; cbn [t' setSignatureValues]; [|done..].
  replace (v + 35 + 2 * c - 2 * c - 8) with (v + 27) by lia. done.
Qed.

Lemma SignTx_names_chain `{Crypto} sign c t t' :
  SignTx sign t (londonSigner c) = Ok t' → names_chain c t.
Proof.
  unfold SignTx. intros E. apply bind_ok in E as (sig & _ & E). unfold WithSignature, SignatureValues, typed_values in E.
  destruct t as [x|x|x]; cbn [names_chain]; [done|..];
    destruct (negb _ && negb _) eqn:EN; cbn in E; try discriminate E; bprop; lia.
Qed.

Lemma SignTx_content `{Crypto} sign t s t' : SignTx sign t s = Ok t' → signed_content t' = signed_content t.
Proof.
  unfold SignTx, WithSignature. intros E. apply bind_ok in E as (sig & _ & E).
  apply bind_ok in E as ([[R Sv] V] & _ & E). apply Ok_inj in E as <-. by destruct t.
Qed.

Lemma SignTx_recovers `{Crypto} sign pub c t t' : Signs sign pub → 0 < c →
  SignTx sign t (londonSigner c) = Ok t' →
  Signer_Sender (londonSigner c) t' = Ok (pubkeyToAddress pub) ∧
  ∀ d, d ≠ c → Signer_Sender (londonSigner d) t' = Err ErrInvalidChainId.
Proof.
  intros HS Hc E. pose proof (SignTx_names_chain _ _ _ _ E) as Hn. unfold SignTx in E.
  apply bind_ok in E as (sig & Es & E).
  destruct (recoverPlain_ok _ _ _ _ HS Es) as (r & s & v & Hd & Hr & Hv & HR).
  rewrite (WithSignature_ok c t sig r s v) in E by done. apply Ok_inj in E as <-. split.
  - destruct (signed_Sender c c t r s v Hc Hv) as [_ HSc]. by rewrite HSc, Z.eqb_refl, HR.
  - intros d Hd'. destruct (signed_Sender c d t r s v Hc Hv) as [_ HSd]. rewrite HSd.
    by destruct (Z.eqb_spec c d) as [->|].
Qed.

(** ** Properties *)

(** C31: A transaction that is signed for a chain comes back from the key: with
    the London signer of a positive chain id [SignTx] succeeds exactly when the
    key signs and the transaction names no other chain, it leaves the content
    unchanged, [Sender] then returns the address of the key, and the signer of
    every other chain refuses the transaction. *)
Theorem SignTx_Sender `{Crypto} sign pub c t : Signs sign pub → 0 < c →
  (is_ok (SignTx sign t (londonSigner c)) = true ↔
    names_chain c t ∧ is_ok (sign (hash_bytes (Signer_Hash (londonSigner c) t))) = true) ∧
  ∀ t', SignTx sign t (londonSigner c) = Ok t' →
    signed_content t' = signed_content t ∧
    (Sender (londonSigner c) t' None).1 = Ok (pubkeyToAddress pub) ∧
    ∀ d, d ≠ c → Signer_Sender (londonSigner d) t' = Err ErrInvalidChainId.
Proof.
  intros HS Hc. split.
  - split.
    + intros E. destruct (SignTx _ _ _) as [t'| |] eqn:E'; try done. split; [by eapply SignTx_names_chain|].
      unfold SignTx in E'. by apply bind_ok in E' as (sig & -> & _).
    + intros [Hn E]. destruct (sign _) as [sig| |] eqn:Es; try done.
      destruct (recoverPlain_ok _ _ _ _ HS Es) as (r & s & v & Hd & Hr & Hv & _).
      unfold SignTx. rewrite Es. cbn [mbind result_bind]. by rewrite (WithSignature_ok c t sig r s v).
  - intros t' E. destruct (SignTx_recovers _ _ _ _ _ HS Hc E) as [HA HO].
    split_and!; [by eapply SignTx_content| |done]. unfold Sender. by rewrite HA.
Qed.

(** C32: The hash that a sender signs binds the chain and the whole content of
    the transaction: if two well-formed transactions have the same signing hash
    under the London signers of two chains, and Keccak-256 does not collide on
    the two preimages, then the chains are equal and so are type, nonce, fees,
    gas, recipient, value, data and access list. *)
Theorem Signer_Hash_binds `{Crypto} c1 c2 t1 t2 : wf_tx c1 t1 → wf_tx c2 t2 →
  (∀ b1 b2, sign_preimage (londonSigner c1) t1 = Some b1 → sign_preimage (londonSigner c2) t2 = Some b2 →
     keccak256 b1 = keccak256 b2 → b1 = b2) →
  Signer_Hash (londonSigner c1) t1 = Signer_Hash (londonSigner c2) t2 →
  c1 = c2 ∧ signed_content t1 = signed_content t2.
Proof.
  intros H1 H2 HK E. apply sign_preimage_inj; [done..|].
  unfold Signer_Hash in E. revert HK E. rewrite !london_preimage by done.
  intros HK E. f_equal. by apply HK.
Qed.

Module TxDemo.
Definition crypto : Crypto := {|
  keccak256 b := of_be b mod 2 ^ 256;
  RecoverPubkey _ _ := Some (Byte.x04 :: replicate 64 Byte.x07) |}.
Definition sign (h : bytes) : result bytes := Ok (to_be 32 5 ++ to_be 32 6 ++ [z2b 1]).
Definition pub : bytes := Byte.x04 :: replicate 64 Byte.x07.
Definition paid (value : Z) : Transaction :=
  DynamicFee (MkDynamicFee 0 3 2 9 21000 (Some 77) value [Byte.x01] [MkTuple 5 [6; 7]] 0 0 0).
Lemma signs : @Signs crypto sign pub.
Proof.
  split; [|by eexists]. intros h sig [= <-]. exists 5, 6, 1.
  split_and!; try done; try (right; done); unfold secp256k1halfN, secp256k1N; intros; dlia.
Qed.
Lemma paid_wf : wf_tx 9988 (paid 10).
Proof.
  constructor; [by split|by split|done|done|done| | |done|vm_compute; reflexivity].
  - intros a [= <-]. by split.
  - apply Forall_singleton. split; [by split|].
    apply Forall_cons. split; [by split|]. apply Forall_singleton. by split.
Qed.
End TxDemo.

Lemma SignTx_Sender_witness :
  0 < 9988 ∧ is_ok (@SignTx TxDemo.crypto TxDemo.sign (TxDemo.paid 10) (londonSigner 9988)) = true.
Proof.
  split; [lia|]. apply (@SignTx_Sender TxDemo.crypto TxDemo.sign TxDemo.pub 9988 (TxDemo.paid 10) TxDemo.signs); [lia|].
  split; [by left|reflexivity].
Defined.

Lemma Signer_Hash_binds_witness :
  (9988 : Z) = 9988 ∧ signed_content (TxDemo.paid 10) = signed_content (TxDemo.paid 10).
Proof.
  pose proof TxDemo.paid_wf as W.
  apply (@Signer_Hash_binds TxDemo.crypto 9988 9988 (TxDemo.paid 10) (TxDemo.paid 10) W W).
  - intros b1 b2 E1 E2 _. congruence.
  - reflexivity.
Defined.
