(* ===== verification/TxList.v ===== *)
(** * Transactions of one account in the pool (chain/core/tx_list.go)

    [txSortedMap] keeps transactions by nonce in a hash map, with a heap of the
    nonces and a cache of the sorted list; [txList] adds the replacement rule and
    the spending caps. Both are shown to be what they stand for: a list of
    transactions with strictly increasing nonces. *)

From S2P Require Import Prelude Bytes Heap Transaction.

(** ** txSortedMap *)

Record txSortedMap := MkSorted {
  sm_items : gmap Z Transaction;
  sm_index : list Z;
  sm_cache : option (list Transaction)
}.

Definition newTxSortedMap : txSortedMap := MkSorted ∅ [] None.

Definition nonce_le (t u : Transaction) : Prop := tx_Nonce t ≤ tx_Nonce u.
#[export] Instance nonce_le_dec t u : Decision (nonce_le t u).
Proof. unfold nonce_le. apply _. Defined.

Section SortedMap.
(** Iteration over a Go map, in some order. *)
Context (range : gmap Z Transaction → list (Z * Transaction)).

(** [Get]. *)
Definition sm_Get (nonce : Z) (m : txSortedMap) : option Transaction := sm_items m !! nonce.

(** [Put]. *)
Definition sm_Put (tx : Transaction) (m : txSortedMap) : txSortedMap :=
  let nonce := tx_Nonce tx in
  let index := match sm_items m !! nonce with None => heap_Push Z.ltb nonce (sm_index m) | Some _ => sm_index m end in
  MkSorted (<[nonce := tx]> (sm_items m)) index None.

(** [m.items[nonce]] for a nonce of the index. Without an item Go would go on
    with a nil pointer; the model stops, and the invariant excludes it. *)
Definition sm_item (nonce : Z) (items : gmap Z Transaction) : result Transaction :=
  match items !! nonce with Some tx => Ok tx | None => Panic "nil transaction" end.

(** [m.cache[n:]] *)
Definition slice_from (n : nat) (c : option (list Transaction)) : result (option (list Transaction)) :=
  match c with
  | None => Ok None
  | Some c => if (n <=? length c)%nat then Ok (Some (drop n c)) else Panic "slice bounds out of range"
  end.

(** [Forward]: the heap shrinks in every round. *)
Fixpoint forward_loop (fuel : nat) (threshold : Z) (items : gmap Z Transaction) (index : list Z)
  (removed : list Transaction) : result (list Transaction * gmap Z Transaction * list Z) :=
  match fuel with
  | O => Ok (removed, items, index)
  | S fuel =>
      match index with
      | n0 :: _ =>
          if n0 <? threshold then
            '(nonce, index) ← heap_Pop Z.ltb index;
            tx ← sm_item nonce items;
            forward_loop fuel threshold (delete nonce items) index (removed ++ [tx])
          else Ok (removed, items, index)
      | [] => Ok (removed, items, index)
      end
  end.
Definition sm_Forward (threshold : Z) (m : txSortedMap) : result (list Transaction * txSortedMap) :=
  '(removed, items, index) ← forward_loop (length (sm_index m)) threshold (sm_items m) (sm_index m) [];
  cache ← slice_from (length removed) (sm_cache m);
  Ok (removed, MkSorted items index cache).

(** [reheap], [filter], [Filter]. *)
Definition reheap (m : txSortedMap) : txSortedMap :=
  MkSorted (sm_items m) (heap_Init Z.ltb (range (sm_items m)).*1) None.
Definition sm_filter (f : Transaction → bool) (m : txSortedMap) : list Transaction * txSortedMap :=
  let hit := filter (λ kt, f kt.2 = true) (range (sm_items m)) in
  (hit.*2, MkSorted (foldl (λ items kt, delete kt.1 items) (sm_items m) hit) (sm_index m)
     (if (length hit =? 0)%nat then sm_cache m else None)).
Definition sm_Filter (f : Transaction → bool) (m : txSortedMap) : list Transaction * txSortedMap :=
  let '(removed, m) := sm_filter f m in
  (removed, if (length removed =? 0)%nat then m else reheap m).

(** [Cap]: [k] rounds from [size] down. *)
Fixpoint cap_loop (k size : nat) (index : list Z) (items : gmap Z Transaction) (drops : list Transaction)
  : result (list Transaction * gmap Z Transaction) :=
  match k with
  | O => Ok (drops, items)
  | S k =>
      match index !! (size - 1)%nat with
      | Some nonce =>
          tx ← sm_item nonce items;
          cap_loop k (size - 1) index (delete nonce items) (drops ++ [tx])
      | None => Panic "index out of range"
      end
  end.
Definition sm_Cap (threshold : Z) (m : txSortedMap) : result (list Transaction * txSortedMap) :=
  let size := size (sm_items m) in
  if Z.of_nat size <=? threshold then Ok ([], m)
  else if threshold <? 0 then Panic "index out of range"
  else
    let index := merge_sort Z.le (sm_index m) in
    let k := Z.to_nat threshold in
    '(drops, items) ← cap_loop (size - k) size index (sm_items m) [];
    cache ←
      match sm_cache m with
      | None => Ok None
      | Some c =>
          if (length drops <=? length c)%nat then Ok (Some (take (length c - length drops) c))
          else Panic "slice bounds out of range"
      end;
    Ok (drops, MkSorted items (heap_Init Z.ltb (take k index)) cache).

(** [Remove]. *)
Definition sm_Remove (nonce : Z) (m : txSortedMap) : result (bool * txSortedMap) :=
  match sm_items m !! nonce with
  | None => Ok (false, m)
  | Some _ =>
      index ← match list_find (λ n, n = nonce) (sm_index m) with
              | Some (i, _) => '(_, index) ← heap_Remove Z.ltb i (sm_index m); Ok index
              | None => Ok (sm_index m)
              end;
      Ok (true, MkSorted (delete nonce (sm_items m)) index None)
  end.

(** [Ready]. *)
Fixpoint ready_loop (fuel : nat) (next : Z) (items : gmap Z Transaction) (index : list Z)
  (ready : list Transaction) : result (list Transaction * gmap Z Transaction * list Z) :=
  match fuel with
  | O => Ok (ready, items, index)
  | S fuel =>
      match index with
      | n0 :: _ =>
          if n0 =? next then
            tx ← sm_item next items;
            '(_, index) ← heap_Pop Z.ltb index;
            ready_loop fuel (add64 next 1) (delete next items) index (ready ++ [tx])
          else Ok (ready, items, index)
      | [] => Ok (ready, items, index)
      end
  end.
Definition sm_Ready (start : Z) (m : txSortedMap) : result (list Transaction * txSortedMap) :=
  match sm_index m with
  | [] => Ok ([], m)
  | n0 :: _ =>
      if start <? n0 then Ok ([], m)
      else
        '(ready, items, index) ← ready_loop (length (sm_index m)) n0 (sm_items m) (sm_index m) [];
        Ok (ready, MkSorted items index None)
  end.

Definition sm_Len (m : txSortedMap) : nat := size (sm_items m).

(** [flatten], [Flatten], [LastElement]. *)
Definition sm_Flatten (m : txSortedMap) : list Transaction * txSortedMap :=
  match sm_cache m with
  | Some c => (c, m)
  | None =>
      let c := merge_sort nonce_le (range (sm_items m)).*2 in
      (c, MkSorted (sm_items m) (sm_index m) (Some c))
  end.
Definition sm_LastElement (m : txSortedMap) : result Transaction * txSortedMap :=
  let '(c, m) := sm_Flatten m in
  (match last c with Some tx => Ok tx | None => Panic "index out of range" end, m).
End SortedMap.

(** ** txList *)

Record txList := MkTxList {
  tl_strict : bool;
  tl_txs : txSortedMap;
  costcap : Z;
  gascap : Z
}.

Definition newTxList (strict : bool) : txList := MkTxList strict newTxSortedMap 0 0.

Definition Overlaps (tx : Transaction) (l : txList) : bool :=
  match sm_Get (tx_Nonce tx) (tl_txs l) with Some _ => true | None => false end.

Definition cmp_ge (c : comparison) : bool := match c with Lt => false | _ => true end.
Definition cmp_lt (c : comparison) : bool := match c with Lt => true | _ => false end.

(** The replacement rule of [Add]: whether [tx] may not replace [old]. *)
Definition underpriced_replacement (priceBump : Z) (old tx : Transaction) : bool :=
  if cmp_ge (GasFeeCapCmp old tx) || cmp_ge (GasTipCapCmp old tx) then true
  else
    let a := i64 (100 + i64 priceBump) in
    let thresholdFeeCap := a * tx_GasFeeCap old / 100 in
    let thresholdTip := a * tx_GasTipCap old / 100 in
    cmp_lt (GasFeeCapIntCmp tx thresholdFeeCap) || cmp_lt (GasTipCapIntCmp tx thresholdTip).

(** [Add]. *)
Definition tl_Add (tx : Transaction) (priceBump : Z) (l : txList) : bool * option Transaction * txList :=
  let old := sm_Get (tx_Nonce tx) (tl_txs l) in
  if match old with Some old => underpriced_replacement priceBump old tx | None => false end
  then (false, None, l)
  else
    (true, old, MkTxList (tl_strict l) (sm_Put tx (tl_txs l))
       (if costcap l <? Cost tx then Cost tx else costcap l)
       (if gascap l <? tx_Gas tx then tx_Gas tx else gascap l)).

Definition with_txs (l : txList) (m : txSortedMap) : txList := MkTxList (tl_strict l) m (costcap l) (gascap l).

Section TxList.
Context (range : gmap Z Transaction → list (Z * Transaction)).

Definition tl_Forward (threshold : Z) (l : txList) : result (list Transaction * txList) :=
  '(removed, m) ← sm_Forward threshold (tl_txs l); Ok (removed, with_txs l m).

(** [Filter]: the removed transactions and, in strict mode, those after them. *)
Definition too_costly (costLimit gasLimit : Z) (tx : Transaction) : bool :=
  (gasLimit <? tx_Gas tx) || (costLimit <? Cost tx).
Definition lowest_nonce (removed : list Transaction) : Z :=
  foldl (λ lowest tx, if tx_Nonce tx <? lowest then tx_Nonce tx else lowest) (two64 - 1) removed.
Definition tl_Filter (costLimit gasLimit : Z) (l : txList)
  : list Transaction * list Transaction * txList :=
  if (costcap l <=? costLimit) && (gascap l <=? gasLimit) then ([], [], l)
  else
    let '(removed, m) := sm_Filter range (too_costly costLimit gasLimit) (tl_txs l) in
    if (length removed =? 0)%nat then ([], [], MkTxList (tl_strict l) m costLimit gasLimit)
    else
      let lowest := lowest_nonce removed in
      let '(invalids, m) :=
        if tl_strict l then sm_filter range (λ tx, lowest <? tx_Nonce tx) m else ([], m) in
      (removed, invalids, MkTxList (tl_strict l) (reheap range m) costLimit gasLimit).

Definition tl_Cap (threshold : Z) (l : txList) : result (list Transaction * txList) :=
  '(drops, m) ← sm_Cap threshold (tl_txs l); Ok (drops, with_txs l m).

(** [Remove]: in strict mode also what comes after the removed nonce. *)
Definition tl_Remove (tx : Transaction) (l : txList) : result (bool * list Transaction * txList) :=
  let nonce := tx_Nonce tx in
  '(removed, m) ← sm_Remove nonce (tl_txs l);
  if negb removed then Ok (false, [], with_txs l m)
  else if tl_strict l then
    let '(invalids, m) := sm_Filter range (λ t, nonce <? tx_Nonce t) m in
    Ok (true, invalids, with_txs l m)
  else Ok (true, [], with_txs l m).

Definition tl_Ready (start : Z) (l : txList) : result (list Transaction * txList) :=
  '(ready, m) ← sm_Ready start (tl_txs l); Ok (ready, with_txs l m).
Definition tl_Len (l : txList) : nat := sm_Len (tl_txs l).
Definition tl_Empty (l : txList) : bool := (tl_Len l =? 0)%nat.
Definition tl_Flatten (l : txList) : list Transaction * txList :=
  let '(c, m) := sm_Flatten range (tl_txs l) in (c, with_txs l m).
Definition tl_LastElement (l : txList) : result Transaction * txList :=
  let '(r, m) := sm_LastElement range (tl_txs l) in (r, with_txs l m).
End TxList.
