(* ===== verification/TxListRefine.v ===== *)
(** * A transaction list is a list of transactions

    The hash map, the heap of nonces, the cached sort and the cached caps of
    [TxList] together represent one list with strictly increasing nonces; every
    operation does to that list what its name says. *)

From S2P Require Import Prelude Bytes Heap Transaction TxList.

(** ** The sorted list a map stands for *)

Definition nonce_lt (t u : Transaction) : Prop := tx_Nonce t < tx_Nonce u.
Definition incr (l : list Transaction) : Prop := StronglySorted nonce_lt l.
Definition keyed_pair (t : Transaction) : Z * Transaction := (tx_Nonce t, t).
Definition of_list (l : list Transaction) : gmap Z Transaction := list_to_map (keyed_pair <$> l).

#[export] Instance ltb_strict_weak : StrictWeak Z.ltb.
Proof.
  split.
  - intros x y Hxy. apply Z.ltb_lt in Hxy. apply Z.ltb_ge. lia.
  - intros x y z Hxz. apply Z.ltb_lt in Hxz. rewrite !Z.ltb_lt. lia.
Qed.

Lemma incr_cons t l : incr (t :: l) ↔ incr l ∧ Forall (nonce_lt t) l.
Proof. split; [intros Hl; by inversion Hl|intros []; by constructor]. Qed.

Lemma incr_inj l t u : incr l → t ∈ l → u ∈ l → tx_Nonce t = tx_Nonce u → t = u.
Proof.
  induction l as [|x l IH]; [by rewrite elem_of_nil|].
  rewrite incr_cons, Forall_forall, !elem_of_cons. unfold nonce_lt.
  intros [Hl Hx] [->|Ht] [->|Hu] E; [done| | |by apply IH].
  - specialize (Hx _ Hu). lia.
  - specialize (Hx _ Ht). lia.
Qed.

Lemma incr_nodup l : incr l → NoDup (tx_Nonce <$> l).
Proof.
  induction l as [|x l IH]; [constructor|]. rewrite incr_cons, Forall_forall, fmap_cons.
  intros [Hl Hx]. constructor; [|by apply IH].
  rewrite list_elem_of_fmap. intros (u & E & Hu). specialize (Hx _ Hu). unfold nonce_lt in Hx. lia.
Qed.

Lemma keyed_fst l : (keyed_pair <$> l).*1 = tx_Nonce <$> l.
Proof. rewrite <- list_fmap_compose. by apply list_fmap_ext. Qed.
Lemma keyed_snd l : (keyed_pair <$> l).*2 = l.
Proof. rewrite <- list_fmap_compose. by apply list_fmap_id. Qed.

Lemma of_list_lookup l n t : incr l → of_list l !! n = Some t ↔ t ∈ l ∧ tx_Nonce t = n.
Proof.
  intros Hl. unfold of_list. rewrite <- elem_of_list_to_map by (rewrite keyed_fst; by apply incr_nodup).
  rewrite list_elem_of_fmap. unfold keyed_pair. split.
  - intros (u & [= -> ->] & Hu). done.
  - intros [Ht <-]. by exists t.
Qed.

(** A map with the bindings of an increasing list is [of_list] of it. *)
Lemma of_list_eq l (m : gmap Z Transaction) : incr l →
  (∀ n t, m !! n = Some t ↔ t ∈ l ∧ tx_Nonce t = n) → m = of_list l.
Proof. intros Hl Hm. apply map_eq. intros n. apply option_eq. intros t. by rewrite Hm, of_list_lookup. Qed.

Lemma of_list_items l : incr l → map_to_list (of_list l) ≡ₚ keyed_pair <$> l.
Proof. intros Hl. apply map_to_list_to_map. rewrite keyed_fst. by apply incr_nodup. Qed.

Lemma size_of_list l : incr l → size (of_list l) = length l.
Proof. intros Hl. by rewrite <- length_map_to_list, of_list_items, length_fmap. Qed.

Lemma incr_filter (P : Transaction → Prop) `{!∀ t, Decision (P t)} l : incr l → incr (filter P l).
Proof.
  induction l as [|x l IH]; [done|]. rewrite incr_cons. intros [Hl Hx]. rewrite filter_cons.
  destruct (decide (P x)); [|by apply IH]. apply incr_cons. split; [by apply IH|].
  rewrite Forall_forall in *. intros u [_ Hu]%list_elem_of_filter. by apply Hx.
Qed.

Lemma filter_all (P : Transaction → Prop) `{!∀ t, Decision (P t)} (l : list Transaction) : (∀ t, t ∈ l → P t) → filter P l = l.
Proof.
  induction l as [|x l IH]; intros HP; [done|]. rewrite filter_cons_True by (apply HP; left).
  f_equal. apply IH. intros t Ht. apply HP. by right.
Qed.
Lemma filter_none (P : Transaction → Prop) `{!∀ t, Decision (P t)} (l : list Transaction) : (∀ t, t ∈ l → ¬ P t) → filter P l = [].
Proof.
  induction l as [|x l IH]; intros HP; [done|]. rewrite filter_cons_False by (apply HP; left).
  apply IH. intros t Ht. apply HP. by right.
Qed.

Lemma of_list_delete l n : incr l → delete n (of_list l) = of_list (filter (λ t, tx_Nonce t ≠ n) l).
Proof.
  intros Hl. apply of_list_eq; [by apply incr_filter|]. intros k t.
  rewrite lookup_delete_Some, of_list_lookup, list_elem_of_filter by done. naive_solver.
Qed.

Lemma of_list_delete_head t l : incr (t :: l) → delete (tx_Nonce t) (of_list (t :: l)) = of_list l.
Proof.
  intros Hl. rewrite of_list_delete by done. f_equal. apply incr_cons in Hl as [_ Hl].
  rewrite filter_cons_False by tauto. apply filter_all. intros u Hu.
  rewrite Forall_forall in Hl. specialize (Hl u Hu). unfold nonce_lt in Hl. lia.
Qed.

Lemma incr_app l1 l2 : incr (l1 ++ l2) ↔ incr l1 ∧ incr l2 ∧ ∀ t u, t ∈ l1 → u ∈ l2 → nonce_lt t u.
Proof.
  induction l1 as [|x l1 IH]; simpl.
  - split; [|by intros (_ & ? & _)]. intros Hl. split_and!; [constructor|done|]. by intros t u ?%elem_of_nil.
  - rewrite !incr_cons, IH, Forall_app, !Forall_forall. setoid_rewrite elem_of_cons. naive_solver.
Qed.

Lemma of_list_delete_last t l : incr (l ++ [t]) → delete (tx_Nonce t) (of_list (l ++ [t])) = of_list l.
Proof.
  intros Hl. rewrite of_list_delete by done. f_equal. apply incr_app in Hl as (_ & _ & Hl).
  rewrite filter_app, (filter_all _ l).
  - rewrite filter_cons_False by tauto. by rewrite filter_nil, app_nil_r.
  - intros u Hu. specialize (Hl u t Hu ltac:(by apply list_elem_of_singleton)). unfold nonce_lt in Hl. lia.
Qed.

(** The first element of the heap is the first nonce of the list. *)
Lemma index_head index l : heap Z.ltb index → index ≡ₚ tx_Nonce <$> l → incr l →
  match index, l with
  | [], [] => True
  | n0 :: _, t :: _ => n0 = tx_Nonce t
  | _, _ => False
  end.
Proof.
  intros Hh HP Hl. destruct index as [|n0 ix], l as [|t l]; try done.
  - by apply Permutation_nil_cons in HP.
  - symmetry in HP. by apply Permutation_nil_cons in HP.
  - apply incr_cons in Hl as [_ Hl]. rewrite Forall_forall in Hl.
    assert (Hn : n0 ∈ tx_Nonce <$> t :: l) by (rewrite <- HP; left).
    assert (Ht : tx_Nonce t ∈ n0 :: ix) by (rewrite HP; left).
    pose proof (heap_min Z.ltb _ _ Hh Ht) as Hle. unfold le in Hle. simpl in Hle. apply Z.ltb_ge in Hle.
    apply list_elem_of_fmap in Hn as (u & -> & [->|Hu]%elem_of_cons); [done|].
    specialize (Hl u Hu). unfold nonce_lt in Hl. lia.
Qed.

Lemma index_pop index t l : heap Z.ltb index → index ≡ₚ tx_Nonce <$> t :: l → incr (t :: l) →
  ∃ index', heap_Pop Z.ltb index = Ok (tx_Nonce t, index') ∧ heap Z.ltb index' ∧
    index' ≡ₚ tx_Nonce <$> l ∧ length index = S (length index').
Proof.
  intros Hh HP Hl. pose proof (index_head _ _ Hh HP Hl) as Hhd. destruct index as [|n0 ix]; [done|].
  destruct (heap_Pop_spec Z.ltb (n0 :: ix) Hh) as (index' & E & P & Hh'); [done|].
  simpl in E, P. subst n0. exists index'. split_and!; [done..| |by rewrite P].
  apply (Permutation_cons_inv (a := tx_Nonce t)). by rewrite <- P.
Qed.

(** ** Each operation of txSortedMap on the list *)

Record rep (m : txSortedMap) (l : list Transaction) : Prop := {
  rep_incr : incr l;
  rep_items : sm_items m = of_list l;
  rep_heap : heap Z.ltb (sm_index m);
  rep_index : sm_index m ≡ₚ tx_Nonce <$> l;
  rep_cache : sm_cache m = None ∨ sm_cache m = Some l
}.

Lemma rep_new : rep newTxSortedMap [].
Proof. split; [by apply SSorted_nil|done|intros j; simpl; lia|done|by left]. Qed.

(** [Put] on the list: at its place, or instead of the one with the same nonce. *)
Fixpoint put_tx (tx : Transaction) (l : list Transaction) : list Transaction :=
  match l with
  | [] => [tx]
  | t :: l' =>
      if tx_Nonce tx <? tx_Nonce t then tx :: l
      else if tx_Nonce tx =? tx_Nonce t then tx :: l' else t :: put_tx tx l'
  end.

Lemma elem_put tx l u : incr l → u ∈ put_tx tx l ↔ u = tx ∨ (u ∈ l ∧ tx_Nonce u ≠ tx_Nonce tx).
Proof.
  induction l as [|t l IH]; [simpl; rewrite list_elem_of_singleton, elem_of_nil; tauto|].
  rewrite incr_cons, Forall_forall. unfold nonce_lt. intros [Hl Ht]. cbn [put_tx].
  destruct (Z.ltb_spec (tx_Nonce tx) (tx_Nonce t)).
  - rewrite !elem_of_cons. split; [|tauto]. intros [->|[->|Hu]]; [by left|right; split; [by left|lia]|].
    right. split; [by right|]. specialize (Ht u Hu). lia.
  - destruct (Z.eqb_spec (tx_Nonce tx) (tx_Nonce t)) as [E|E].
    + rewrite !elem_of_cons. split.
      * intros [->|Hu]; [by left|]. right. split; [by right|]. specialize (Ht u Hu). lia.
      * intros [->|[[->|Hu] Hn]]; [by left|done|by right].
    + rewrite !elem_of_cons, IH by done. split; [|tauto].
      intros [->|[->|[Hu Hn]]]; [right; split; [by left|lia]|by left|right; tauto].
Qed.

Lemma incr_put tx l : incr l → incr (put_tx tx l).
Proof.
  induction l as [|t l IH]; [repeat constructor|].
  intros Hl. pose proof Hl as [Hl' Ht]%incr_cons. pose proof Ht as Ht'. rewrite Forall_forall in Ht'.
  unfold nonce_lt in Ht'. cbn [put_tx]. destruct (Z.ltb_spec (tx_Nonce tx) (tx_Nonce t)).
  - apply incr_cons. split; [done|]. apply Forall_cons. split; [done|].
    apply Forall_forall. intros u Hu. specialize (Ht' u Hu). unfold nonce_lt. lia.
  - destruct (Z.eqb_spec (tx_Nonce tx) (tx_Nonce t)).
    + apply incr_cons. split; [done|]. apply Forall_forall. intros u Hu. specialize (Ht' u Hu). unfold nonce_lt. lia.
    + apply incr_cons. split; [by apply IH|]. apply Forall_forall.
      intros u [->|[Hu _]]%elem_put; unfold nonce_lt; [lia|by apply Ht'|done].
Qed.

Lemma of_list_put tx l : incr l → <[tx_Nonce tx := tx]> (of_list l) = of_list (put_tx tx l).
Proof.
  intros Hl. apply of_list_eq; [by apply incr_put|]. intros n t.
  rewrite lookup_insert_Some, of_list_lookup, elem_put by done. naive_solver.
Qed.

(** An increasing list with the nonces of another one. *)
Lemma nonces_perm l1 l2 : incr l1 → incr l2 → (∀ n, n ∈ tx_Nonce <$> l1 ↔ n ∈ tx_Nonce <$> l2) →
  tx_Nonce <$> l1 ≡ₚ tx_Nonce <$> l2.
Proof. intros H1 H2 HE. apply NoDup_Permutation; [by apply incr_nodup..|done]. Qed.

Lemma put_nonces tx l : incr l → of_list l !! tx_Nonce tx = None →
  tx_Nonce tx :: (tx_Nonce <$> l) ≡ₚ tx_Nonce <$> put_tx tx l.
Proof.
  intros Hl HN. apply NoDup_Permutation.
  - constructor; [|by apply incr_nodup]. rewrite list_elem_of_fmap. intros (u & E & Hu).
    by rewrite (proj2 (of_list_lookup l (tx_Nonce tx) u Hl) (conj Hu (eq_sym E))) in HN.
  - by apply incr_nodup, incr_put.
  - intros n. rewrite elem_of_cons, !list_elem_of_fmap. setoid_rewrite elem_put; [|done]. split.
    + intros [->|(u & -> & Hu)]; [exists tx; naive_solver|].
      destruct (decide (tx_Nonce u = tx_Nonce tx)); [exists tx; naive_solver|exists u; naive_solver].
    + intros (u & -> & [->|[Hu _]]); [by left|right; by exists u].
Qed.

Lemma put_nonces_same tx l t : incr l → of_list l !! tx_Nonce tx = Some t →
  tx_Nonce <$> l ≡ₚ tx_Nonce <$> put_tx tx l.
Proof.
  intros Hl [Ht E]%of_list_lookup; [|done]. apply nonces_perm; [done|by apply incr_put|].
  intros n. rewrite !list_elem_of_fmap. setoid_rewrite elem_put; [|done]. split.
  - intros (u & -> & Hu). destruct (decide (tx_Nonce u = tx_Nonce tx)); [exists tx; naive_solver|exists u; naive_solver].
  - intros (u & -> & [->|[Hu _]]); [exists t; naive_solver|by exists u].
Qed.

Lemma sm_Put_rep tx m l : rep m l → rep (sm_Put tx m) (put_tx tx l).
Proof.
  intros [Hl Hi Hh HP Hc]. unfold sm_Put. rewrite Hi. split; simpl; [by apply incr_put|by apply of_list_put| | |by left].
  - destruct (of_list l !! tx_Nonce tx); [done|exact (proj2 (heap_Push_spec Z.ltb _ _ Hh))].
  - destruct (of_list l !! tx_Nonce tx) as [t|] eqn:E.
    + rewrite HP. by eapply put_nonces_same.
    + destruct (heap_Push_spec Z.ltb (tx_Nonce tx) (sm_index m) Hh) as [P _].
      rewrite P, HP. by apply put_nonces.
Qed.

(** ** [Forward] *)

Definition under (n : Z) (t : Transaction) : Prop := tx_Nonce t < n.
#[export] Instance under_dec n t : Decision (under n t).
Proof. unfold under. apply _. Defined.

Lemma split_at l n : incr l → l = filter (under n) l ++ filter (λ t, ¬ under n t) l.
Proof.
  induction l as [|t l IH]; [done|]. rewrite incr_cons, Forall_forall. unfold nonce_lt. intros [Hl Ht].
  destruct (decide (under n t)) as [Hn|Hn].
  - rewrite filter_cons_True, filter_cons_False by tauto. simpl. f_equal. by apply IH.
  - rewrite filter_cons_False, filter_cons_True by tauto.
    assert (∀ u, u ∈ l → ¬ under n u) by (intros u Hu; specialize (Ht u Hu); unfold under in *; lia).
    by rewrite filter_none, (filter_all (λ t, ¬ under n t)) by done.
Qed.

Lemma drop_under l n : incr l → drop (length (filter (under n) l)) l = filter (λ t, ¬ under n t) l.
Proof. intros Hl. rewrite (split_at l n Hl) at 2. apply drop_app_length. Qed.

Lemma sm_item_head t l : sm_item (tx_Nonce t) (of_list (t :: l)) = Ok t.
Proof. unfold sm_item, of_list. simpl. by rewrite lookup_insert_eq. Qed.

Lemma forward_loop_spec fuel : ∀ n l index removed,
  incr l → heap Z.ltb index → index ≡ₚ tx_Nonce <$> l → (length index <= fuel)%nat →
  ∃ index', forward_loop fuel n (of_list l) index removed =
      Ok (removed ++ filter (under n) l, of_list (filter (λ t, ¬ under n t) l), index') ∧
    heap Z.ltb index' ∧ index' ≡ₚ tx_Nonce <$> filter (λ t, ¬ under n t) l.
Proof.
  induction fuel as [|fuel IH]; intros n l index removed Hl Hh HP Hf.
  { destruct index; simpl in Hf; [|lia]. pose proof (index_head _ _ Hh HP Hl). destruct l; [|done].
    exists []. simpl. by rewrite app_nil_r. }
  pose proof (index_head _ _ Hh HP Hl) as Hhd. cbn [forward_loop].
  destruct index as [|n0 ix], l as [|t l]; try done.
  { exists []. simpl. by rewrite app_nil_r. }
  subst n0. destruct (Z.ltb_spec (tx_Nonce t) n) as [Hn|Hn].
  - destruct (index_pop _ _ _ Hh HP Hl) as (index' & -> & Hh' & HP' & Hlen).
    cbn [mbind result_bind]. rewrite sm_item_head. cbn [mbind result_bind].
    rewrite of_list_delete_head by done. rewrite filter_cons_True, filter_cons_False by (unfold under; lia).
    apply incr_cons in Hl as [Hl _].
    destruct (IH n l index' (removed ++ [t])) as (i2 & -> & ? & ?); try done; [lia|].
    exists i2. by rewrite <- app_assoc.
  - exists (tx_Nonce t :: ix). pose proof Hl as [Hl' Ht]%incr_cons. rewrite Forall_forall in Ht.
    assert (Hall : ∀ u, u ∈ t :: l → ¬ under n u).
    { unfold under, nonce_lt in *. intros u [->|Hu]%elem_of_cons; [lia|specialize (Ht u Hu); lia]. }
    by rewrite filter_none, (filter_all (λ t, ¬ under n t)), app_nil_r by done.
Qed.

Lemma sm_Forward_rep n m l : rep m l →
  ∃ m', sm_Forward n m = Ok (filter (under n) l, m') ∧ rep m' (filter (λ t, ¬ under n t) l).
Proof.
  intros [Hl Hi Hh HP Hc]. unfold sm_Forward. rewrite Hi.
  destruct (forward_loop_spec (length (sm_index m)) n l (sm_index m) []) as (ix & -> & Hh' & HP'); try done.
  cbn [mbind result_bind app]. destruct Hc as [-> | ->]; cbn [slice_from mbind result_bind].
  - eexists. split; [done|]. split; simpl; try done; [by apply incr_filter|by left].
  - destruct (Nat.leb_spec (length (filter (under n) l)) (length l)) as [_|Hbad].
    + cbn [mbind result_bind]. eexists. split; [done|].
      split; simpl; try done; [by apply incr_filter|]. right. by rewrite drop_under.
    + pose proof (length_filter (under n) l). lia.
Qed.

(** ** Iterating over the map *)

Section Range.
Context (range : gmap Z Transaction → list (Z * Transaction)).
Context (range_listing : ∀ m, range m ≡ₚ map_to_list m).

Lemma range_of_list l : incr l → range (of_list l) ≡ₚ keyed_pair <$> l.
Proof. intros. by rewrite range_listing, of_list_items. Qed.

Lemma reheap_rep m l : incr l → sm_items m = of_list l → rep (reheap range m) l.
Proof.
  intros Hl Hi. unfold reheap. rewrite Hi.
  destruct (heap_Init_spec Z.ltb (range (of_list l)).*1) as [P Hh].
  split; simpl; try done; [|by left]. by rewrite P, range_of_list, keyed_fst.
Qed.

Lemma delete_all (ks : list (Z * Transaction)) : ∀ (m : gmap Z Transaction) n,
  foldl (λ items kt, delete kt.1 items) m ks !! n = if decide (n ∈ ks.*1) then None else m !! n.
Proof.
  induction ks as [|[k t] ks IH]; intros m n; cbn [foldl].
  { destruct (decide _) as [Hn|]; [by apply elem_of_nil in Hn|done]. }
  rewrite IH, fmap_cons. cbn [fst]. destruct (decide (n ∈ ks.*1)) as [Hn|Hn].
  - rewrite decide_True; [done|by right].
  - destruct (decide (n = k)) as [->|Hne].
    + rewrite lookup_delete_eq, decide_True; [done|by left].
    + rewrite lookup_delete_ne by done. rewrite decide_False; [done|]. by rewrite elem_of_cons; intros [|].
Qed.

Lemma sm_filter_spec (f : Transaction → bool) m l : incr l → sm_items m = of_list l →
  let '(removed, m') := sm_filter range f m in
  removed ≡ₚ filter (λ t, f t = true) l ∧
  sm_items m' = of_list (filter (λ t, ¬ f t = true) l) ∧ sm_index m' = sm_index m ∧
  sm_cache m' = (if (length removed =? 0)%nat then sm_cache m else None).
Proof.
  intros Hl Hi. unfold sm_filter. rewrite Hi.
  set (hit := filter (λ kt : Z * Transaction, f kt.2 = true) (range (of_list l))).
  assert (HP : hit ≡ₚ keyed_pair <$> filter (λ t, f t = true) l).
  { unfold hit. rewrite range_of_list by done. clear. induction l as [|t l IH]; [done|].
    rewrite fmap_cons, !filter_cons. simpl. destruct (decide (f t = true)); simpl; by rewrite IH. }
  split_and!; [by rewrite HP, keyed_snd| |done|simpl; by rewrite length_fmap].
  simpl. apply of_list_eq; [by apply incr_filter|]. intros n t. rewrite delete_all.
  assert (Hk : n ∈ hit.*1 ↔ ∃ u, tx_Nonce u = n ∧ u ∈ l ∧ f u = true).
  { rewrite HP, keyed_fst, list_elem_of_fmap. setoid_rewrite list_elem_of_filter. naive_solver. }
  rewrite list_elem_of_filter. destruct (decide (n ∈ hit.*1)) as [Hn|Hn]; rewrite Hk in Hn.
  - destruct Hn as (u & <- & Hu & Hfu). split; [done|]. intros [[Hft Ht] E].
    by rewrite (incr_inj l t u Hl Ht Hu E) in Hft.
  - rewrite of_list_lookup by done. split; [|naive_solver]. intros [Ht <-]. split; [|done]. split; [|done].
    intros Hft. apply Hn. by exists t.
Qed.

Lemma sm_Filter_rep (f : Transaction → bool) m l : rep m l →
  let '(removed, m') := sm_Filter range f m in
  removed ≡ₚ filter (λ t, f t = true) l ∧ rep m' (filter (λ t, ¬ f t = true) l).
Proof.
  intros [Hl Hi Hh HP Hc]. unfold sm_Filter. pose proof (sm_filter_spec f m l Hl Hi) as HF.
  destruct (sm_filter range f m) as [removed m']. destruct HF as (Hr & Hi' & Hx & Hc').
  split; [done|]. destruct (Nat.eqb_spec (length removed) 0) as [E|E].
  - assert (HN : filter (λ t, f t = true) l = []) by (apply nil_length_inv; by rewrite <- Hr).
    assert (HA : filter (λ t, ¬ f t = true) l = l).
    { apply filter_all. intros t Ht Hft. assert (t ∈ filter (λ t, f t = true) l) by (by apply list_elem_of_filter).
      rewrite HN in H. by apply elem_of_nil in H. }
    rewrite HA in *. split; [done..| | |]; rewrite ?Hx, ?Hc'; try done.
  - apply reheap_rep; [by apply incr_filter|done].
Qed.

Lemma sorted_values l : incr l → merge_sort nonce_le (range (of_list l)).*2 = l.
Proof.
  intros Hl. assert (HP : merge_sort nonce_le (range (of_list l)).*2 ≡ₚ l).
  { rewrite merge_sort_Permutation, range_of_list by done. by rewrite keyed_snd. }
  eapply (StronglySorted_unique_strong nonce_le); [|apply StronglySorted_merge_sort| |done].
  - intros t u Ht Hu H1 H2. rewrite HP in Ht. apply (incr_inj l); [done..|]. unfold nonce_le in *. lia.
  - intros t u v. unfold nonce_le. lia.
  - intros t u. unfold nonce_le. lia.
  - clear HP. induction l as [|t l IH]; [constructor|]. apply incr_cons in Hl as [Hl Ht].
    constructor; [by apply IH|]. eapply Forall_impl; [done|]. unfold nonce_lt, nonce_le. intros. lia.
Qed.

Lemma sm_Flatten_rep m l : rep m l → let '(c, m') := sm_Flatten range m in c = l ∧ rep m' l.
Proof.
  intros [Hl Hi Hh HP Hc]. unfold sm_Flatten. destruct (sm_cache m) as [c|] eqn:E.
  - destruct Hc as [|[= ->]]; [done|]. split; [done|]. split; try done. rewrite E. by right.
  - rewrite Hi, sorted_values by done. split; [done|]. split; simpl; try done. by right.
Qed.
End Range.

(** ** [Cap] *)

Lemma sorted_index index l : index ≡ₚ tx_Nonce <$> l → incr l → merge_sort Z.le index = tx_Nonce <$> l.
Proof.
  intros HP Hl. eapply (StronglySorted_unique_strong Z.le); [intros; lia|apply StronglySorted_merge_sort| |].
  - intros x y z ? ?. lia.
  - intros x y. lia.
  - clear HP. induction l as [|t l IH]; [constructor|]. apply incr_cons in Hl as [Hl Ht]. rewrite fmap_cons.
    constructor; [by apply IH|]. apply Forall_fmap. eapply Forall_impl; [done|]. unfold nonce_lt. simpl. lia.
  - by rewrite merge_sort_Permutation.
Qed.

Lemma cap_loop_spec k : ∀ l1 l2 index drops, incr (l1 ++ l2) → length l2 = k →
  (∀ i t, (l1 ++ l2) !! i = Some t → index !! i = Some (tx_Nonce t)) →
  cap_loop k (length (l1 ++ l2)) index (of_list (l1 ++ l2)) drops = Ok (drops ++ reverse l2, of_list l1).
Proof.
  induction k as [|k IH]; intros l1 l2 index drops Hl Hk Hix.
  { destruct l2; [|done]. cbn [cap_loop]. by rewrite app_nil_r, reverse_nil, app_nil_r. }
  destruct (decide (l2 = [])) as [->|Hne]; [done|]. destruct (exists_last Hne) as (l3 & t & ->).
  rewrite length_app in Hk. simpl in Hk. rewrite app_assoc in Hl, Hix |- *. cbn [cap_loop].
  assert (Hlen : (length ((l1 ++ l3) ++ [t]) - 1)%nat = length (l1 ++ l3)) by (rewrite length_app; simpl; lia).
  rewrite Hlen, (Hix _ t) by (by rewrite lookup_app_r, Nat.sub_diag by lia).
  assert (sm_item (tx_Nonce t) (of_list ((l1 ++ l3) ++ [t])) = Ok t) as ->.
  { unfold sm_item. rewrite (proj2 (of_list_lookup _ (tx_Nonce t) t Hl)); [done|].
    split; [|done]. apply elem_of_app. right. left. }
  cbn [mbind result_bind]. rewrite of_list_delete_last by done.
  rewrite (IH l1 l3); [|by apply incr_app in Hl as (? & _ & _)|lia|].
  - by rewrite <- app_assoc, reverse_snoc.
  - intros i u Hi. apply Hix. by apply lookup_app_l_Some.
Qed.

Lemma incr_take l k : incr l → incr (take k l).
Proof. intros Hl. rewrite <- (take_drop k l) in Hl. by apply incr_app in Hl as (? & _ & _). Qed.

Lemma sm_Cap_rep n m l : rep m l → 0 ≤ n →
  ∃ m', sm_Cap n m = Ok (reverse (drop (Z.to_nat n) l), m') ∧ rep m' (take (Z.to_nat n) l).
Proof.
  intros [Hl Hi Hh HP Hc] Hn. unfold sm_Cap. rewrite Hi, size_of_list by done.
  destruct (Z.leb_spec (Z.of_nat (length l)) n) as [Hle|Hgt].
  { exists m. rewrite drop_ge, take_ge by lia. split; [done|]. by split. }
  destruct (Z.ltb_spec n 0); [lia|]. rewrite (sorted_index _ l HP Hl). set (k := Z.to_nat n).
  pose proof (take_drop k l) as Htd.
  assert (Hlen : length (drop k l) = (length l - k)%nat) by apply length_drop.
  pose proof (cap_loop_spec (length l - k) (take k l) (drop k l) (tx_Nonce <$> l) []) as HC.
  rewrite Htd in HC. rewrite HC; [|done..|].
  2:{ intros i t Hit. rewrite list_lookup_fmap, Hit. done. }
  cbn [mbind result_bind app].
  destruct (heap_Init_spec Z.ltb (take k (tx_Nonce <$> l))) as [P Hh'].
  assert (HR : ∀ c, c = None ∨ c = Some (take k l) →
    rep (MkSorted (of_list (take k l)) (heap_Init Z.ltb (take k (tx_Nonce <$> l))) c) (take k l)).
  { intros c Hc'. split; simpl; try done; [by apply incr_take|]. by rewrite P, fmap_take. }
  rewrite length_reverse, Hlen.
  destruct Hc as [-> | ->]; cbn [mbind result_bind]; [eexists; split; [done|]; apply HR; by left|].
  destruct (Nat.leb_spec (length l - k) (length l)); [|lia]. cbn [mbind result_bind].
  eexists. split; [done|]. apply HR. right. f_equal. f_equal. lia.
Qed.

(** ** [Remove] *)

Lemma sm_Remove_rep n m l : rep m l →
  ∃ m', sm_Remove n m = Ok (bool_decide (n ∈ tx_Nonce <$> l), m') ∧ rep m' (filter (λ t, tx_Nonce t ≠ n) l).
Proof.
  intros HR. pose proof HR as [Hl Hi Hh HP Hc]. unfold sm_Remove. rewrite Hi.
  destruct (of_list l !! n) as [t|] eqn:E.
  - apply of_list_lookup in E as [Ht <-]; [|done].
    assert (Hn : tx_Nonce t ∈ tx_Nonce <$> l) by (by apply list_elem_of_fmap_2).
    rewrite bool_decide_eq_true_2 by done.
    destruct (list_find_elem_of (λ k, k = tx_Nonce t) (sm_index m) (tx_Nonce t)) as [[i k] Hf];
      [by rewrite HP|done|].
    rewrite Hf. apply list_find_Some in Hf as (Hk & -> & _).
    pose proof (lookup_lt_Some _ _ _ Hk) as Hi'. apply list_lookup_total_correct in Hk.
    destruct (heap_Remove_spec Z.ltb i (sm_index m) Hh Hi') as (ix & -> & P & Hh').
    cbn [mbind result_bind]. eexists. split; [done|]. rewrite Hk in P.
    split; simpl; [by apply incr_filter|by apply of_list_delete|done| |by left].
    apply (Permutation_cons_inv (a := tx_Nonce t)). rewrite <- P, HP.
    apply NoDup_Permutation; [by apply incr_nodup| |].
    + constructor; [|by apply incr_nodup, incr_filter].
      rewrite list_elem_of_fmap. by intros (u & Eu & [Hu _]%list_elem_of_filter).
    + intros x. rewrite elem_of_cons, !list_elem_of_fmap. setoid_rewrite list_elem_of_filter.
      split; [|naive_solver]. intros (u & -> & Hu).
      destruct (decide (tx_Nonce u = tx_Nonce t)); [by left|right; naive_solver].
  - exists m. assert (Hn : n ∉ tx_Nonce <$> l).
    { rewrite list_elem_of_fmap. intros (u & -> & Hu).
      by rewrite (proj2 (of_list_lookup l (tx_Nonce u) u Hl)) in E. }
    rewrite bool_decide_eq_false_2 by done. split; [done|].
    rewrite filter_all; [done|]. intros t Ht <-. apply Hn. by apply list_elem_of_fmap_2.
Qed.

(** ** [Ready] *)

(** The transactions from the front whose nonces count up from [next]. *)
Fixpoint run_from (next : Z) (l : list Transaction) : list Transaction * list Transaction :=
  match l with
  | [] => ([], [])
  | t :: l' =>
      if tx_Nonce t =? next
      then let '(r, rest) := run_from (add64 next 1) l' in (t :: r, rest)
      else ([], l)
  end.

Lemma run_from_app next l : (run_from next l).1 ++ (run_from next l).2 = l.
Proof.
  revert next. induction l as [|t l IH]; intros next; [done|]. cbn [run_from].
  destruct (_ =? _); [|done]. specialize (IH (add64 next 1)). destruct (run_from _ l). simpl in *. by f_equal.
Qed.

Lemma incr_run_from next l : incr l → incr (run_from next l).2.
Proof. intros Hl. rewrite <- (run_from_app next l) in Hl. by apply incr_app in Hl as (_ & ? & _). Qed.

Lemma ready_loop_spec fuel : ∀ next l index ready,
  incr l → heap Z.ltb index → index ≡ₚ tx_Nonce <$> l → (length index <= fuel)%nat →
  ∃ index', ready_loop fuel next (of_list l) index ready =
      Ok (ready ++ (run_from next l).1, of_list (run_from next l).2, index') ∧
    heap Z.ltb index' ∧ index' ≡ₚ tx_Nonce <$> (run_from next l).2.
Proof.
  induction fuel as [|fuel IH]; intros next l index ready Hl Hh HP Hf.
  { destruct index; simpl in Hf; [|lia]. pose proof (index_head _ _ Hh HP Hl). destruct l; [|done].
    exists []. simpl. by rewrite app_nil_r. }
  pose proof (index_head _ _ Hh HP Hl) as Hhd. cbn [ready_loop].
  destruct index as [|n0 ix], l as [|t l]; try done.
  { exists []. simpl. by rewrite app_nil_r. }
  subst n0. cbn [run_from]. destruct (Z.eqb_spec (tx_Nonce t) next) as [<-|Hn].
  - rewrite sm_item_head. cbn [mbind result_bind].
    destruct (index_pop _ _ _ Hh HP Hl) as (index' & -> & Hh' & HP' & Hlen).
    cbn [mbind result_bind]. rewrite of_list_delete_head by done. apply incr_cons in Hl as [Hl _].
    destruct (IH (add64 (tx_Nonce t) 1) l index' (ready ++ [t])) as (i2 & -> & ? & ?); try done; [lia|].
    exists i2. destruct (run_from _ l). simpl in *. by rewrite <- app_assoc.
  - exists (tx_Nonce t :: ix). by rewrite app_nil_r.
Qed.

Definition ready_of (start : Z) (l : list Transaction) : list Transaction * list Transaction :=
  match l with
  | [] => ([], [])
  | t :: _ => if start <? tx_Nonce t then ([], l) else run_from (tx_Nonce t) l
  end.

Lemma sm_Ready_rep start m l : rep m l →
  ∃ m', sm_Ready start m = Ok ((ready_of start l).1, m') ∧ rep m' (ready_of start l).2.
Proof.
  intros HR. pose proof HR as [Hl Hi Hh HP Hc]. unfold sm_Ready.
  pose proof (index_head _ _ Hh HP Hl) as Hhd.
  destruct (sm_index m) as [|n0 ix] eqn:Ex, l as [|t l]; try done; [by exists m|].
  subst n0. cbn [ready_of]. destruct (Z.ltb_spec start (tx_Nonce t)); [by exists m|].
  rewrite Hi. destruct (ready_loop_spec (length (tx_Nonce t :: ix)) (tx_Nonce t) (t :: l) (tx_Nonce t :: ix) [])
    as (i2 & -> & ? & ?); try done. cbn [mbind result_bind app].
  eexists. split; [done|]. split; cbn [sm_items sm_index sm_cache]; try done; [by apply incr_run_from|by left].
Qed.

(** ** txList on the list *)

Definition fits (cost gas : Z) (t : Transaction) : Prop := Cost t ≤ cost ∧ tx_Gas t ≤ gas.

Record rep_list (L : txList) (strict : bool) (l : list Transaction) : Prop := {
  rl_strict : tl_strict L = strict;
  rl_rep : rep (tl_txs L) l;
  rl_caps : Forall (fits (costcap L) (gascap L)) l;
  rl_nonces : Forall (λ t, is_u64 (tx_Nonce t)) l
}.

Lemma rep_list_sub L strict l m l' : rep_list L strict l → rep m l' → (∀ t, t ∈ l' → t ∈ l) →
  rep_list (with_txs L m) strict l'.
Proof.
  intros [Hs Hr Hc Hn] Hm Hsub. rewrite Forall_forall in Hc, Hn.
  split; simpl; try done; apply Forall_forall; eauto.
Qed.

Lemma elem_filter_sub (P : Transaction → Prop) `{!∀ t, Decision (P t)} (l : list Transaction) t : t ∈ filter P l → t ∈ l.
Proof. by intros [_ ?]%list_elem_of_filter. Qed.

(** The transaction with a nonce. *)
Definition at_nonce (n : Z) (l : list Transaction) : option Transaction := head (filter (λ t, tx_Nonce t = n) l).

Lemma of_list_at_nonce n l : incr l → of_list l !! n = at_nonce n l.
Proof.
  intros Hl. apply option_eq. intros t. rewrite of_list_lookup by done. unfold at_nonce.
  destruct (filter (λ t, tx_Nonce t = n) l) as [|u r] eqn:E; simpl.
  - split; [|done]. intros Ht. assert (t ∈ filter (λ t, tx_Nonce t = n) l) by (apply list_elem_of_filter; tauto).
    rewrite E in H. by apply elem_of_nil in H.
  - assert (Hu : u ∈ filter (λ t, tx_Nonce t = n) l) by (rewrite E; left).
    apply list_elem_of_filter in Hu as [Hun Hu]. split.
    + intros [Ht <-]. f_equal. by apply (incr_inj l).
    + by intros [= ->].
Qed.

Definition abs_add (bump : Z) (tx : Transaction) (l : list Transaction) : bool * option Transaction * list Transaction :=
  let old := at_nonce (tx_Nonce tx) l in
  if match old with Some old => underpriced_replacement bump old tx | None => false end
  then (false, None, l) else (true, old, put_tx tx l).

Lemma tl_Add_rep tx bump L strict l : is_u64 (tx_Nonce tx) → rep_list L strict l →
  let '(b, old, L') := tl_Add tx bump L in
  let '(b', old', l') := abs_add bump tx l in b = b' ∧ old = old' ∧ rep_list L' strict l'.
Proof.
  intros Hn [Hs Hr Hc Hns]. unfold tl_Add, abs_add, sm_Get. rewrite (rep_items _ _ Hr).
  rewrite of_list_at_nonce by apply Hr.
  destruct (match at_nonce _ _ with Some old => _ | None => _ end); split_and!; try done.
  assert (HE : ∀ u, u ∈ put_tx tx l → u = tx ∨ u ∈ l).
  { intros u Hu. apply elem_put in Hu; [tauto|apply Hr]. }
  rewrite Forall_forall in Hc, Hns.
  split; cbn [tl_strict tl_txs costcap gascap]; [done|by apply sm_Put_rep|..]; apply Forall_forall; intros u Hu.
  - unfold fits in *. destruct (Z.ltb_spec (costcap L) (Cost tx)), (Z.ltb_spec (gascap L) (tx_Gas tx));
      destruct (HE u Hu) as [->|Hl]; try specialize (Hc u Hl); lia.
  - destruct (HE u Hu) as [->|Hl]; [done|by apply Hns].
Qed.

(** The transactions in front of the first that [f] rejects. *)
Fixpoint take_ok (f : Transaction → bool) (l : list Transaction) : list Transaction :=
  match l with
  | t :: l' => if f t then [] else t :: take_ok f l'
  | [] => []
  end.

Definition abs_filter (strict : bool) (f : Transaction → bool) (l : list Transaction)
  : list Transaction * list Transaction * list Transaction :=
  (filter (λ t, f t = true) l,
   if strict then filter (λ t, ¬ f t = true) (drop (length (take_ok f l)) l) else [],
   if strict then take_ok f l else filter (λ t, ¬ f t = true) l).

(** Either [f] rejects nothing, or there is a first one it rejects. *)
Lemma take_ok_cases f l :
  (filter (λ t, f t = true) l = [] ∧ filter (λ t, ¬ f t = true) l = l ∧ take_ok f l = l) ∨
  ∃ x q, l = take_ok f l ++ x :: q ∧ f x = true ∧ ∀ t, t ∈ take_ok f l → f t = false.
Proof.
  induction l as [|t l IH]; [by left|]. cbn [take_ok]. destruct (f t) eqn:E.
  - right. exists t, l. split_and!; try done. by intros u ?%elem_of_nil.
  - destruct IH as [(H1 & H2 & H3)|(x & q & Hl & Hx & Hp)].
    + left. rewrite filter_cons_False, filter_cons_True by congruence. by rewrite H1, H2, H3.
    + right. exists x, q. split_and!; [simpl; by f_equal|done|].
      intros u [->|Hu]%elem_of_cons; [done|by apply Hp].
Qed.

Lemma foldl_min l : ∀ a, let r := foldl (λ lowest tx, if tx_Nonce tx <? lowest then tx_Nonce tx else lowest) a l in
  r ≤ a ∧ (∀ t, t ∈ l → r ≤ tx_Nonce t) ∧ (r = a ∨ ∃ t, t ∈ l ∧ tx_Nonce t = r).
Proof.
  induction l as [|x l IH]; intros a; cbn [foldl].
  { split_and!; [lia|by intros t ?%elem_of_nil|by left]. }
  destruct (IH (if tx_Nonce x <? a then tx_Nonce x else a)) as (H1 & H2 & H3). cbv zeta in *.
  set (r := foldl _ _ _) in *. clearbody r. destruct (Z.ltb_spec (tx_Nonce x) a).
  - split_and!; [lia| |].
    + intros t [->|Ht]%elem_of_cons; [done|by apply H2].
    + right. destruct H3 as [->|(t & Ht & <-)]; [exists x; split; [left|done]|exists t; split; [by right|done]].
  - split_and!; [done| |].
    + intros t [->|Ht]%elem_of_cons; [lia|by apply H2].
    + destruct H3 as [->|(t & Ht & <-)]; [by left|right; exists t; split; [by right|done]].
Qed.

Lemma lowest_nonce_first f l x q removed : incr l → Forall (λ t, is_u64 (tx_Nonce t)) l →
  l = take_ok f l ++ x :: q → f x = true → (∀ t, t ∈ take_ok f l → f t = false) →
  removed ≡ₚ filter (λ t, f t = true) l → lowest_nonce removed = tx_Nonce x.
Proof.
  intros Hl Hn E Hx Hp HP. rewrite Forall_forall in Hn. unfold is_u64 in Hn.
  assert (Hxl : x ∈ l) by (rewrite E; apply elem_of_app; right; left).
  assert (Hxr : x ∈ removed) by (rewrite HP; by apply list_elem_of_filter).
  destruct (foldl_min removed (two64 - 1)) as (H1 & H2 & H3). fold (lowest_nonce removed) in *.
  pose proof (H2 x Hxr). pose proof (Hn x Hxl).
  assert (Hmin : ∀ t, t ∈ removed → tx_Nonce x ≤ tx_Nonce t).
  { intros t Ht. rewrite HP in Ht. apply list_elem_of_filter in Ht as [Hft Ht]. rewrite E in Ht.
    apply elem_of_app in Ht as [Ht|[->|Ht]%elem_of_cons]; [by rewrite (Hp t Ht) in Hft|lia|].
    rewrite E in Hl. apply incr_app in Hl as (_ & [_ Hl]%incr_cons & _). rewrite Forall_forall in Hl.
    specialize (Hl t Ht). unfold nonce_lt in Hl. lia. }
  destruct H3 as [H3|(t & Ht & H3)]; [lia|]. specialize (Hmin t Ht). lia.
Qed.

Lemma too_costly_false cost gas t : too_costly cost gas t = false ↔ fits cost gas t.
Proof. unfold too_costly, fits. rewrite orb_false_iff, !Z.ltb_ge. lia. Qed.

(** What is behind the first rejected transaction, in strict mode. *)
Lemma strict_split f l x q : incr l → l = take_ok f l ++ x :: q → f x = true →
  (∀ t, t ∈ take_ok f l → f t = false) →
  let keep := filter (λ t, ¬ f t = true) l in
  filter (λ t, ¬ (tx_Nonce x <? tx_Nonce t) = true) keep = take_ok f l ∧
  filter (λ t, (tx_Nonce x <? tx_Nonce t) = true) keep =
    filter (λ t, ¬ f t = true) (drop (length (take_ok f l)) l).
Proof.
  intros Hl E Hx Hp keep. subst keep. set (p := take_ok f l) in *. clearbody p. subst l.
  apply incr_app in Hl as (Hlp & [Hlq Hxq]%incr_cons & Hpx). rewrite Forall_forall in Hxq. unfold nonce_lt in *.
  rewrite filter_app, drop_app_length, !filter_cons_False by tauto.
  rewrite (filter_all (λ t, ¬ f t = true) p) by (intros t Ht; by rewrite Hp).
  assert (H1 : ∀ t, t ∈ p → ¬ (tx_Nonce x <? tx_Nonce t) = true).
  { intros t Ht. specialize (Hpx t x Ht ltac:(left)). rewrite Z.ltb_lt. lia. }
  assert (H2 : ∀ t, t ∈ filter (λ t, ¬ f t = true) q → (tx_Nonce x <? tx_Nonce t) = true).
  { intros t [_ Ht]%list_elem_of_filter. apply Z.ltb_lt. by apply Hxq. }
  rewrite !filter_app. split.
  - rewrite (filter_all _ p), (filter_none _ (filter _ q)), app_nil_r; [done| |done].
    intros t Ht Hc. by apply Hc, H2.
  - by rewrite (filter_none _ p), (filter_all _ (filter _ q)).
Qed.

Section RangeList.
Context (range : gmap Z Transaction → list (Z * Transaction)).
Context (range_listing : ∀ m, range m ≡ₚ map_to_list m).

Lemma tl_Filter_rep cost gas L strict l : rep_list L strict l →
  let '(removed, invalids, L') := tl_Filter range cost gas L in
  let '(removed', invalids', l') := abs_filter strict (too_costly cost gas) l in
  removed ≡ₚ removed' ∧ invalids ≡ₚ invalids' ∧ rep_list L' strict l'.
Proof.
  intros [Hs Hr Hc Hn]. unfold tl_Filter, abs_filter. set (f := too_costly cost gas).
  pose proof (rep_incr _ _ Hr) as Hl. pose proof (take_ok_cases f l) as HT.
  assert (Hfit : ∀ t, f t = false ↔ fits cost gas t) by apply too_costly_false.
  assert (Hnone : ∀ l' : list Transaction, (∀ t, t ∈ l' → f t = false) → Forall (fits cost gas) l').
  { intros l' Hl'. apply Forall_forall. intros t Ht. by apply Hfit, Hl'. }
  destruct ((costcap L <=? cost) && (gascap L <=? gas)) eqn:EC.
  { rewrite andb_true_iff, !Z.leb_le in EC. destruct EC as [EC1 EC2].
    assert (Hok : ∀ t, t ∈ l → f t = false).
    { intros t Ht. apply Hfit. rewrite Forall_forall in Hc. specialize (Hc t Ht). unfold fits in *. lia. }
    destruct HT as [(H1 & H2 & H3)|(x & q & E & Hx & _)].
    - rewrite H1, H2, H3, drop_all, filter_nil. by destruct strict.
    - assert (x ∈ l) by (rewrite E; apply elem_of_app; right; left). by rewrite Hok in Hx. }
  pose proof (sm_Filter_rep range range_listing f (tl_txs L) l Hr) as HF.
  destruct (sm_Filter range f (tl_txs L)) as [removed m]. destruct HF as [HP Hm].
  destruct HT as [(H1 & H2 & H3)|(x & q & E & Hx & Hp)].
  - rewrite H1 in HP |- *. rewrite H2 in Hm |- *. rewrite H3, drop_all, filter_nil.
    apply Permutation_nil_r in HP as ->. cbn [length Nat.eqb].
    split_and!; [done|by destruct strict|]. split; cbn [tl_strict tl_txs costcap gascap]; try done;
      [by destruct strict|apply Hnone; destruct strict|by destruct strict].
    all: intros t Ht; rewrite <- H2 in Ht; apply list_elem_of_filter in Ht as [Hf _]; by apply not_true_is_false.
  - assert (Hne : (length removed =? 0)%nat = false).
    { apply Nat.eqb_neq. rewrite HP. intros H0%nil_length_inv.
      assert (Hxf : x ∈ filter (λ t, f t = true) l).
      { apply list_elem_of_filter. split; [done|]. rewrite E. apply elem_of_app. right. left. }
      rewrite H0 in Hxf. by apply elem_of_nil in Hxf. }
    rewrite Hne, (lowest_nonce_first f l x q removed Hl Hn E Hx Hp HP).
    destruct (strict_split f l x q Hl E Hx Hp) as [HK HI]. cbv zeta in HK, HI.
    assert (Hsub : ∀ t, t ∈ take_ok f l → t ∈ l) by (intros t Ht; rewrite E; apply elem_of_app; by left).
    rewrite Forall_forall in Hn. rewrite Hs. destruct strict.
    + pose proof (sm_filter_spec range range_listing (λ t, tx_Nonce x <? tx_Nonce t) m _
        (rep_incr _ _ Hm) (rep_items _ _ Hm)) as HF2.
      destruct (sm_filter range _ m) as [invalids m2]. destruct HF2 as (HP2 & Hi2 & _).
      rewrite HI in HP2. rewrite HK in Hi2. split_and!; [done..|].
      split; cbn [tl_strict tl_txs costcap gascap]; [done| |by apply Hnone|apply Forall_forall; eauto].
      apply reheap_rep; [done| |done]. rewrite E in Hl. by apply incr_app in Hl as (? & _ & _).
    + split_and!; [done..|]. split; cbn [tl_strict tl_txs costcap gascap]; [done| | |].
      * apply reheap_rep; [done|apply Hm..].
      * apply Hnone. intros t [Hf _]%list_elem_of_filter. by apply not_true_is_false.
      * apply Forall_forall. intros t [_ Ht]%list_elem_of_filter. by apply Hn.
Qed.

Definition abs_remove (strict : bool) (n : Z) (l : list Transaction) : bool * list Transaction * list Transaction :=
  if bool_decide (n ∈ tx_Nonce <$> l)
  then (true, if strict then filter (λ t, (n <? tx_Nonce t) = true) l else [],
        if strict then filter (under n) l else filter (λ t, tx_Nonce t ≠ n) l)
  else (false, [], l).

Lemma tl_Remove_rep tx L strict l : rep_list L strict l →
  ∃ b invalids L', tl_Remove range tx L = Ok (b, invalids, L') ∧
  let '(b', invalids', l') := abs_remove strict (tx_Nonce tx) l in
  b = b' ∧ invalids ≡ₚ invalids' ∧ rep_list L' strict l'.
Proof.
  intros HL. pose proof HL as [Hs Hr Hc Hn]. unfold tl_Remove, abs_remove.
  destruct (sm_Remove_rep (tx_Nonce tx) (tl_txs L) l Hr) as (m & -> & Hm). cbn [mbind result_bind].
  pose proof (rep_list_sub L strict l) as Hsub. case_bool_decide as Hin; cbn [negb].
  - rewrite Hs. destruct strict.
    + pose proof (sm_Filter_rep range range_listing (λ t, tx_Nonce tx <? tx_Nonce t) m _ Hm) as HF.
      destruct (sm_Filter range _ m) as [invalids m2]. destruct HF as [HP Hm2].
      do 3 eexists. split; [done|]. split_and!; [done| |].
      * rewrite HP, list_filter_filter. erewrite list_filter_iff; [done|]. intros t. simpl. rewrite Z.ltb_lt. lia.
      * apply Hsub; [done| |apply elem_filter_sub].
        rewrite list_filter_filter in Hm2.
        erewrite list_filter_iff in Hm2; [exact Hm2|]. intros t. simpl. rewrite Z.ltb_lt. unfold under. lia.
    + do 3 eexists. split; [done|]. split_and!; try done. apply Hsub; [done..|apply elem_filter_sub].
  - do 3 eexists. split; [done|]. split_and!; try done. apply Hsub; [done| |done].
    rewrite filter_all in Hm; [done|]. intros t Ht E. apply Hin. rewrite <- E. by apply list_elem_of_fmap_2.
Qed.
End RangeList.

(** ** Runs *)

Inductive list_op :=
| DoAdd (tx : Transaction) (priceBump : Z)
| DoForward (n : Z)
| DoFilter (cost gas : Z)
| DoCap (n : Z)
| DoRemove (tx : Transaction)
| DoReady (n : Z)
| DoFlatten
| DoLast
| DoLen
| DoOverlaps (tx : Transaction).

Inductive list_out :=
| OutAdded (ok : bool) (old : option Transaction)
| OutListed (l : list Transaction)
| OutFiltered (removed invalids : list Transaction)
| OutRemoved (found : bool) (invalids : list Transaction)
| OutLast (tx : Transaction)
| OutLen (n : nat)
| OutFlag (b : bool).

(** Equal answers, but for the order in which the map is iterated. *)
Inductive out_equiv : list_out → list_out → Prop :=
| equiv_refl o : out_equiv o o
| equiv_filtered r1 r2 i1 i2 : r1 ≡ₚ r2 → i1 ≡ₚ i2 → out_equiv (OutFiltered r1 i1) (OutFiltered r2 i2)
| equiv_removed b i1 i2 : i1 ≡ₚ i2 → out_equiv (OutRemoved b i1) (OutRemoved b i2).

Definition list_step (range : gmap Z Transaction → list (Z * Transaction)) (o : list_op) (L : txList)
  : result (list_out * txList) :=
  match o with
  | DoAdd tx bump => let '(b, old, L) := tl_Add tx bump L in Ok (OutAdded b old, L)
  | DoForward n => '(removed, L) ← tl_Forward n L; Ok (OutListed removed, L)
  | DoFilter cost gas => let '(r, i, L) := tl_Filter range cost gas L in Ok (OutFiltered r i, L)
  | DoCap n => '(drops, L) ← tl_Cap n L; Ok (OutListed drops, L)
  | DoRemove tx => '(b, i, L) ← tl_Remove range tx L; Ok (OutRemoved b i, L)
  | DoReady n => '(ready, L) ← tl_Ready n L; Ok (OutListed ready, L)
  | DoFlatten => let '(c, L) := tl_Flatten range L in Ok (OutListed c, L)
  | DoLast => let '(r, L) := tl_LastElement range L in tx ← r; Ok (OutLast tx, L)
  | DoLen => Ok (OutLen (tl_Len L), L)
  | DoOverlaps tx => Ok (OutFlag (Overlaps tx L), L)
  end.

(** The same on a plain list of transactions. Two calls panic: the last element
    of an empty list, and a cap below zero, which runs over the front. *)
Definition abs_step (strict : bool) (o : list_op) (l : list Transaction) : result (list_out * list Transaction) :=
  match o with
  | DoAdd tx bump => let '(b, old, l) := abs_add bump tx l in Ok (OutAdded b old, l)
  | DoForward n => Ok (OutListed (filter (under n) l), filter (λ t, ¬ under n t) l)
  | DoFilter cost gas => let '(r, i, l) := abs_filter strict (too_costly cost gas) l in Ok (OutFiltered r i, l)
  | DoCap n =>
      if n <? 0 then Panic "index out of range"
      else Ok (OutListed (reverse (drop (Z.to_nat n) l)), take (Z.to_nat n) l)
  | DoRemove tx => let '(b, i, l) := abs_remove strict (tx_Nonce tx) l in Ok (OutRemoved b i, l)
  | DoReady n => Ok (OutListed (ready_of n l).1, (ready_of n l).2)
  | DoFlatten => Ok (OutListed l, l)
  | DoLast => match last l with Some t => Ok (OutLast t, l) | None => Panic "index out of range" end
  | DoLen => Ok (OutLen (length l), l)
  | DoOverlaps tx => Ok (OutFlag (bool_decide (tx_Nonce tx ∈ tx_Nonce <$> l)), l)
  end.

(** Nonces are uint64. *)
Definition op_ok (o : list_op) : Prop :=
  match o with
  | DoAdd tx _ => is_u64 (tx_Nonce tx)
  | _ => True
  end.

Fixpoint list_run (range : gmap Z Transaction → list (Z * Transaction)) (os : list list_op) (L : txList)
  : result (list list_out) :=
  match os with
  | [] => Ok []
  | o :: os =>
      '(out, L) ← list_step range o L;
      outs ← list_run range os L;
      Ok (out :: outs)
  end.
Fixpoint abs_run (strict : bool) (os : list list_op) (l : list Transaction) : result (list list_out) :=
  match os with
  | [] => Ok []
  | o :: os =>
      '(out, l) ← abs_step strict o l;
      outs ← abs_run strict os l;
      Ok (out :: outs)
  end.

(** The same answer, the same error or the same panic. *)
Definition same_result {A B} (R : A → B → Prop) (r : result A) (r' : result B) : Prop :=
  match r' with
  | Ok b => ∃ a, r = Ok a ∧ R a b
  | Err e => r = Err e
  | Panic w => r = Panic w
  end.

Section Runs.
Context (range : gmap Z Transaction → list (Z * Transaction)).
Context (range_listing : ∀ m, range m ≡ₚ map_to_list m).

Lemma ready_sub n l t : t ∈ (ready_of n l).2 → t ∈ l.
Proof.
  destruct l as [|u l]; [done|]. cbn [ready_of]. destruct (_ <? _); [done|]. intros Ht.
  rewrite <- (run_from_app (tx_Nonce u) (u :: l)). apply elem_of_app. by right.
Qed.

Lemma take_sub k (l : list Transaction) t : t ∈ take k l → t ∈ l.
Proof. intros Ht. rewrite <- (take_drop k l). apply elem_of_app. by left. Qed.

Lemma list_step_rep o L strict l : op_ok o → rep_list L strict l →
  same_result (λ x y, out_equiv x.1 y.1 ∧ rep_list x.2 strict y.2) (list_step range o L) (abs_step strict o l).
Proof.
  intros Ho HL. pose proof HL as [Hs Hr Hc Hn]. pose proof (rep_list_sub L strict l) as Hsub.
  destruct o as [tx bump|n|cost gas|n|tx|n| | | |tx]; cbn [list_step abs_step].
  - pose proof (tl_Add_rep tx bump L strict l Ho HL) as HA. destruct (tl_Add tx bump L) as [[b old] L'].
    destruct (abs_add bump tx l) as [[b' old'] l']. destruct HA as (-> & -> & HL').
    eexists. split; [done|]. split; cbn [fst snd]; [apply equiv_refl|done].
  - unfold tl_Forward. destruct (sm_Forward_rep n (tl_txs L) l Hr) as (m & -> & Hm).
    eexists. split; [done|]. split; cbn [fst snd]; [apply equiv_refl|]. apply Hsub; [done..|apply elem_filter_sub].
  - pose proof (tl_Filter_rep range range_listing cost gas L strict l HL) as HF.
    destruct (tl_Filter range cost gas L) as [[r i] L']. destruct (abs_filter strict _ l) as [[r' i'] l'].
    destruct HF as (? & ? & ?). eexists. split; [done|]. split; cbn [fst snd]; [by apply equiv_filtered|done].
  - unfold tl_Cap. destruct (Z.ltb_spec n 0) as [Hlt|Hge].
    { unfold sm_Cap. rewrite (proj2 (Z.leb_gt _ _)), (proj2 (Z.ltb_lt _ _)) by lia. done. }
    destruct (sm_Cap_rep n (tl_txs L) l Hr Hge) as (m & -> & Hm).
    eexists. split; [done|]. split; cbn [fst snd]; [apply equiv_refl|]. apply Hsub; [done..|apply take_sub].
  - destruct (tl_Remove_rep range range_listing tx L strict l HL) as (b & i & L' & -> & HF).
    destruct (abs_remove strict _ l) as [[b' i'] l']. destruct HF as (-> & ? & ?). eexists.
    split; [done|]. split; cbn [fst snd]; [by apply equiv_removed|done].
  - unfold tl_Ready. destruct (sm_Ready_rep n (tl_txs L) l Hr) as (m & -> & Hm).
    eexists. split; [done|]. split; cbn [fst snd]; [apply equiv_refl|]. apply Hsub; [done..|apply ready_sub].
  - unfold tl_Flatten. pose proof (sm_Flatten_rep range range_listing (tl_txs L) l Hr) as HF.
    destruct (sm_Flatten range (tl_txs L)) as [c m]. destruct HF as [-> Hm].
    eexists. split; [done|]. split; cbn [fst snd]; [apply equiv_refl|by apply Hsub].
  - unfold tl_LastElement, sm_LastElement. pose proof (sm_Flatten_rep range range_listing (tl_txs L) l Hr) as HF.
    destruct (sm_Flatten range (tl_txs L)) as [c m]. destruct HF as [-> Hm].
    destruct (last l) as [t|]; [|done]. eexists. split; [done|]. split; cbn [fst snd]; [apply equiv_refl|by apply Hsub].
  - eexists. split; [done|]. split; cbn [fst snd]; [|done]. unfold tl_Len, sm_Len.
    rewrite (rep_items _ _ Hr), size_of_list by apply Hr. apply equiv_refl.
  - eexists. split; [done|]. split; cbn [fst snd]; [|done]. unfold Overlaps, sm_Get. rewrite (rep_items _ _ Hr).
    destruct (of_list l !! tx_Nonce tx) as [t|] eqn:E.
    + apply of_list_lookup in E as [Ht E]; [|apply Hr]. rewrite bool_decide_eq_true_2; [apply equiv_refl|].
      rewrite <- E. by apply list_elem_of_fmap_2.
    + rewrite bool_decide_eq_false_2; [apply equiv_refl|]. rewrite list_elem_of_fmap. intros (u & Eu & Hu).
      rewrite Eu, (proj2 (of_list_lookup l (tx_Nonce u) u (rep_incr _ _ Hr))) in E; done.
Qed.

Lemma list_run_rep os : ∀ L strict l, Forall op_ok os → rep_list L strict l →
  same_result (Forall2 out_equiv) (list_run range os L) (abs_run strict os l).
Proof.
  induction os as [|o os IH]; intros L strict l Hos HL; cbn [list_run abs_run].
  { exists []. split; [done|constructor]. }
  apply Forall_cons in Hos as [Ho Hos]. pose proof (list_step_rep o L strict l Ho HL) as Hst.
  destruct (abs_step strict o l) as [[out' l']|e|w]; cbn in Hst |- *; [|by rewrite Hst..].
  destruct Hst as ([out L'] & -> & Heq & HL'). cbn [mbind result_bind]. specialize (IH L' strict l' Hos HL').
  destruct (abs_run strict os l') as [outs'|e|w]; cbn in IH |- *; [|by rewrite IH..].
  destruct IH as (outs & -> & HF). exists (out :: outs). split; [done|by constructor].
Qed.
End Runs.

Lemma rep_list_new strict : rep_list (newTxList strict) strict [].
Proof. split; [done|apply rep_new|constructor..]. Qed.

(** ** Properties *)

(** C10: A pool list behaves like a list of transactions in nonce order: in every
    run of additions (of uint64 nonces), forwards, filters, caps, removals,
    readies, flattens and queries from an empty list, each call gives the answer
    computed on a plain strictly increasing list, up to the order in which Go
    iterates a map where the code returns transactions in that order. A call
    panics just when the plain list says so: [LastElement] of an empty list and
    [Cap] below zero, and no other call does. The heap of nonces, the cached
    sort and the cached cost and gas caps never show. *)
Theorem txList_refines range strict os : (∀ m, range m ≡ₚ map_to_list m) → Forall op_ok os →
  same_result (Forall2 out_equiv) (list_run range os (newTxList strict)) (abs_run strict os []).
Proof. intros Hr Hos. by apply list_run_rep, rep_list_new. Qed.

(** ** Gap-free lists *)

Definition gapless (l : list Transaction) : Prop :=
  ∀ i t u, l !! i = Some t → l !! S i = Some u → tx_Nonce u = tx_Nonce t + 1.

Lemma gapless_infix p l q : gapless (p ++ l ++ q) → gapless l.
Proof.
  intros Hg i t u Ht Hu. pose proof (lookup_lt_Some _ _ _ Hu).
  apply (Hg (length p + i)%nat).
  - rewrite lookup_app_r, lookup_app_l by lia. replace (_ + i - _)%nat with i by lia. done.
  - rewrite lookup_app_r, lookup_app_l by lia. replace (S (_ + i) - _)%nat with (S i) by lia. done.
Qed.

Lemma gapless_prefix l q : gapless (l ++ q) → gapless l.
Proof. apply (gapless_infix []). Qed.
Lemma gapless_suffix p l : gapless (p ++ l) → gapless l.
Proof. rewrite <- (app_nil_r l) at 1. apply gapless_infix. Qed.

Lemma take_ok_prefix f l : ∃ q, l = take_ok f l ++ q.
Proof.
  destruct (take_ok_cases f l) as [(_ & _ & E)|(x & q & E & _)]; [exists []; by rewrite E, app_nil_r|by eexists].
Qed.

(** Everything but an addition keeps a contiguous part of a strict list. *)
Lemma abs_step_infix o l out l' : incr l → (∀ tx bump, o ≠ DoAdd tx bump) → abs_step true o l = Ok (out, l') →
  ∃ p q, l = p ++ l' ++ q.
Proof.
  intros Hl Ho.
  destruct o as [tx bump|n|cost gas|n|tx|n| | | |tx]; cbn [abs_step]; [by destruct (Ho tx bump)|..];
    [|unfold abs_filter|destruct (n <? 0); [done|]|unfold abs_remove; case_bool_decide| | |destruct (last l); [|done]|..];
    intros [= _ <-]; try (exists [], []; by rewrite app_nil_r).
  - eexists (filter (under n) l), []. rewrite app_nil_r. by apply split_at.
  - destruct (take_ok_prefix (too_costly cost gas) l) as [q E]. by exists [], q.
  - exists [], (drop (Z.to_nat n) l). symmetry. apply take_drop.
  - exists [], (filter (λ t, ¬ under (tx_Nonce tx) t) l). by apply split_at.
  - unfold ready_of. destruct l as [|t l]; [exists [], []; done|].
    destruct (_ <? _); cbn [snd]; [exists [], []; by rewrite app_nil_r|].
    exists (run_from (tx_Nonce t) (t :: l)).1, []. by rewrite app_nil_r, run_from_app.
Qed.

(** An addition that replaces a transaction or follows the last one. *)
Definition fills (tx : Transaction) (l : list Transaction) : Prop :=
  tx_Nonce tx ∈ tx_Nonce <$> l ∨ ∀ t, last l = Some t → tx_Nonce tx = tx_Nonce t + 1.

Lemma put_same_nonces tx l : incr l → tx_Nonce tx ∈ tx_Nonce <$> l → tx_Nonce <$> put_tx tx l = tx_Nonce <$> l.
Proof.
  induction l as [|t l IH]; [by intros _ ?%elem_of_nil|]. rewrite incr_cons, Forall_forall. unfold nonce_lt.
  intros [Hl Ht]. cbn [put_tx]. rewrite fmap_cons, elem_of_cons. intros [E|Hin].
  - rewrite E, Z.ltb_irrefl, Z.eqb_refl. by rewrite fmap_cons, E.
  - pose proof Hin as (u & Eu & Hu)%list_elem_of_fmap. specialize (Ht u Hu).
    ztests. rewrite fmap_cons. by rewrite IH.
Qed.

Lemma put_after tx l : incr l → (∀ t, t ∈ l → tx_Nonce t < tx_Nonce tx) → put_tx tx l = l ++ [tx].
Proof.
  induction l as [|t l IH]; [done|]. intros [Hl _]%incr_cons Hlt. cbn [put_tx].
  pose proof (Hlt t ltac:(left)). ztests. simpl. f_equal. apply IH; [done|]. intros u Hu. apply Hlt. by right.
Qed.

Lemma gapless_nonces l1 l2 : tx_Nonce <$> l1 = tx_Nonce <$> l2 → gapless l2 → gapless l1.
Proof.
  intros E Hg i t u Ht Hu. assert (L : ∀ j x, l1 !! j = Some x → ∃ y, l2 !! j = Some y ∧ tx_Nonce y = tx_Nonce x).
  { intros j x Hx. assert (HE : (tx_Nonce <$> l2) !! j = Some (tx_Nonce x)) by (rewrite <- E, list_lookup_fmap, Hx; done).
    rewrite list_lookup_fmap in HE. destruct (l2 !! j) as [y|]; [|done]. injection HE as HE. by exists y. }
  destruct (L _ _ Ht) as (t' & Ht' & <-), (L _ _ Hu) as (u' & Hu' & <-). by apply (Hg i).
Qed.

Lemma gapless_snoc l tx : gapless l → (∀ t, last l = Some t → tx_Nonce tx = tx_Nonce t + 1) → gapless (l ++ [tx]).
Proof.
  intros Hg Hlast i t u Ht Hu. pose proof (lookup_lt_Some _ _ _ Hu) as Hlen. rewrite length_app in Hlen. simpl in Hlen.
  rewrite lookup_app_l in Ht by lia. destruct (decide (S i < length l)%nat).
  - rewrite lookup_app_l in Hu by lia. by apply (Hg i).
  - rewrite lookup_app_r in Hu by lia. replace (S i - length l)%nat with 0%nat in Hu by lia.
    injection Hu as <-. apply Hlast. rewrite last_lookup. replace (pred (length l)) with i by lia. done.
Qed.

Lemma last_max l t u : incr l → last l = Some t → u ∈ l → tx_Nonce u ≤ tx_Nonce t.
Proof.
  intros Hl (p & ->)%last_Some. intros [Hu|Hu%list_elem_of_singleton]%elem_of_app; [|subst; lia].
  apply incr_app in Hl as (_ & _ & Hl). specialize (Hl u t Hu ltac:(left)). unfold nonce_lt in Hl. lia.
Qed.

Lemma abs_step_gapless o l out l' : incr l → gapless l → (∀ tx bump, o = DoAdd tx bump → fills tx l) →
  abs_step true o l = Ok (out, l') → gapless l'.
Proof.
  intros Hl Hg Ho E. assert (HD : (∃ tx bump, o = DoAdd tx bump) ∨ ∀ tx bump, o ≠ DoAdd tx bump).
  { destruct o; [by left; eauto|right; done..]. }
  destruct HD as [(tx & bump & ->)|HD].
  - specialize (Ho tx bump eq_refl). cbn [abs_step] in E. unfold abs_add in E.
    destruct (match at_nonce _ _ with Some old => _ | None => _ end); injection E as _ <-; [done|].
    destruct (decide (tx_Nonce tx ∈ tx_Nonce <$> l)) as [Hin|Hin].
    + eapply gapless_nonces; [by apply put_same_nonces|done].
    + destruct Ho as [|Ho]; [done|]. rewrite put_after; [by apply gapless_snoc|done|].
      intros t Ht. destruct (last l) as [z|] eqn:El; [|by apply last_None in El as ->; apply elem_of_nil in Ht].
      pose proof (last_max l z t Hl El Ht). specialize (Ho z eq_refl). lia.
  - destruct (abs_step_infix o l out l' Hl HD E) as (p & q & ->). by eapply (gapless_infix p _ q).
Qed.

(** A strict (pending) list stays gap-free: if the nonces of the list follow
    one another, they do so after every operation, provided an added transaction
    replaces one of the list or follows its last; a filter keeps exactly the
    transactions in front of the first unaffordable one, and a removal those in
    front of the removed one. *)
Theorem strict_list_gapless range o L l out L' : (∀ m, range m ≡ₚ map_to_list m) → op_ok o →
  rep_list L true l → gapless l → (∀ tx bump, o = DoAdd tx bump → fills tx l) → list_step range o L = Ok (out, L') →
  ∃ l', rep_list L' true l' ∧ gapless l' ∧
    (∀ cost gas, o = DoFilter cost gas → l' = take_ok (too_costly cost gas) l) ∧
    (∀ tx, o = DoRemove tx → tx_Nonce tx ∈ tx_Nonce <$> l → l' = filter (under (tx_Nonce tx)) l).
Proof.
  intros Hr Ho HL Hg Hf E. pose proof (list_step_rep range Hr o L true l Ho HL) as Hst. rewrite E in Hst.
  destruct (abs_step true o l) as [[out' l']|e|w] eqn:Ea; cbn in Hst; [|done..]. destruct Hst as (x & [= <-] & _ & HL').
  exists l'. split_and!; [done|..].
  - by eapply abs_step_gapless; [apply HL|..].
  - intros cost gas ->. by injection Ea.
  - intros tx -> Hin. cbn [abs_step] in Ea. unfold abs_remove in Ea. rewrite bool_decide_eq_true_2 in Ea by done. by injection Ea.
Qed.

Module PoolDemo.
Definition tx (nonce fee gas : Z) : Transaction :=
  DynamicFee (MkDynamicFee 9988 nonce 1 fee gas (Some 5) 0 [] [] 0 0 0).
Definition ops : list list_op :=
  [DoAdd (tx 4 10 21000) 10; DoAdd (tx 3 10 21000) 10; DoAdd (tx 5 200 21000) 10; DoAdd (tx 3 10 21000) 10;
   DoFlatten; DoFilter 300000 30000; DoAdd (tx 5 20 21000) 10; DoCap 2; DoReady 3; DoLen].
Lemma range_listing (m : gmap Z Transaction) : map_to_list m ≡ₚ map_to_list m.
Proof. done. Qed.
Lemma ops_ok : Forall op_ok ops.
Proof.
  repeat (apply Forall_cons; split; [first [exact I|split; [discriminate|reflexivity]|discriminate]|]).
  apply Forall_nil. exact I.
Qed.
Definition pending : txList := (tl_Add (tx 4 10 21000) 10 (newTxList true)).2.
Lemma pending_rep : rep_list pending true [tx 4 10 21000].
Proof.
  assert (EA : abs_add 10 (tx 4 10 21000) [] = (true, None, [tx 4 10 21000])) by (vm_compute; reflexivity).
  assert (HN : is_u64 (tx_Nonce (tx 4 10 21000))) by (split; [discriminate|reflexivity]).
  pose proof (tl_Add_rep _ 10 _ _ _ HN (rep_list_new true)) as HA. rewrite EA in HA.
  unfold pending. destruct (tl_Add _ _ _) as [[b old] L']. apply HA.
Qed.
End PoolDemo.

(** The run of the demonstration, evaluated: the second transaction with nonce 3
    is refused, the expensive one is filtered, two remain and are ready. *)
Example pool_demo_outputs :
  list_run map_to_list PoolDemo.ops (newTxList true) =
  Ok [OutAdded true None; OutAdded true None; OutAdded true None; OutAdded false None;
      OutListed [PoolDemo.tx 3 10 21000; PoolDemo.tx 4 10 21000; PoolDemo.tx 5 200 21000];
      OutFiltered [PoolDemo.tx 5 200 21000] []; OutAdded true None; OutListed [PoolDemo.tx 5 20 21000];
      OutListed [PoolDemo.tx 3 10 21000; PoolDemo.tx 4 10 21000]; OutLen 0].
Proof. vm_compute. reflexivity. Qed.

Lemma txList_refines_witness :
  Forall op_ok PoolDemo.ops ∧
  same_result (Forall2 out_equiv) (list_run map_to_list PoolDemo.ops (newTxList true)) (abs_run true PoolDemo.ops []).
Proof.
  split; [exact PoolDemo.ops_ok|].
  apply (txList_refines map_to_list true PoolDemo.ops PoolDemo.range_listing PoolDemo.ops_ok).
Defined.

Lemma strict_list_gapless_witness :
  ∃ out L' l', list_step map_to_list (DoAdd (PoolDemo.tx 5 20 21000) 10) PoolDemo.pending = Ok (out, L') ∧
    rep_list L' true l' ∧ gapless l'.
Proof.
  destruct (list_step map_to_list (DoAdd (PoolDemo.tx 5 20 21000) 10) PoolDemo.pending) as [[out L']|e|w] eqn:E; [|discriminate E..].
  destruct (strict_list_gapless map_to_list (DoAdd (PoolDemo.tx 5 20 21000) 10) PoolDemo.pending
    [PoolDemo.tx 4 10 21000] out L' PoolDemo.range_listing) as (l' & HL & HG & _).
  - split; [discriminate|reflexivity].
  - exact PoolDemo.pending_rep.
  - intros [|i] t u Ht Hu; discriminate Hu.
  - intros tx bump [= <- <-]. right. intros t [= <-]. reflexivity.
  - exact E.
  - exists out, L', l'. split; [reflexivity|]. split; [exact HL|exact HG].
Defined.
