(* ===== verification/TxPriced.v ===== *)
(** * The lookup set and the price heaps of the pool
    (chain/core/tx_pool.go txLookup, chain/core/tx_list.go txPricedList)

    [txLookup] finds every transaction of the pool by its hash, local ones apart
    from remote ones. [txPricedList] keeps the remote ones in two heaps, by what
    they pay in the next block and by their fee cap, and picks the cheapest when
    the pool is full; transactions that have left the pool stay in the heaps as
    stale entries. *)

From S2P Require Import Prelude Bytes Rlp Types Heap Transaction TxList TxListRefine.

(** ** Sizes (transaction.go, tx_pool.go) *)

Definition txSlotSize : Z := 32 * 1024.
Definition txMaxSize : Z := 4 * txSlotSize.

(** [Size] is the length of the encoded inner transaction. A StorageSize is a
    float; it holds these lengths exactly. A typed transaction that was decoded
    from its envelope has the length of the envelope cached instead, one byte
    more for the type; the model takes the size the code computes itself. *)
Definition tx_Size (t : Transaction) : Z := zlen (rlp_fields (tx_fields t)).
Definition numSlots (t : Transaction) : Z := (tx_Size t + txSlotSize - 1) / txSlotSize.

(** [EffectiveGasTipIntCmp]. *)
Definition EffectiveGasTipIntCmp (t : Transaction) (other : Z) (baseFee : option Z) : comparison :=
  match baseFee with
  | None => GasTipCapIntCmp t other
  | Some _ => (EffectiveGasTipValue t baseFee ?= other)
  end.

(** ** txLookup *)

Record txLookup := MkLookup {
  lk_slots : Z;
  lk_locals : gmap Hash Transaction;
  lk_remotes : gmap Hash Transaction
}.

Definition newTxLookup : txLookup := MkLookup 0 ∅ ∅.
Definition lk_Get (h : Hash) (t : txLookup) : option Transaction :=
  match lk_locals t !! h with Some tx => Some tx | None => lk_remotes t !! h end.
Definition GetRemote (h : Hash) (t : txLookup) : option Transaction := lk_remotes t !! h.
Definition GetLocal (h : Hash) (t : txLookup) : option Transaction := lk_locals t !! h.
Definition lk_Count (t : txLookup) : nat := (size (lk_locals t) + size (lk_remotes t))%nat.
Definition LocalCount (t : txLookup) : nat := size (lk_locals t).
Definition RemoteCount (t : txLookup) : nat := size (lk_remotes t).

Section Lookup.
Context `{Crypto}.

(** [Add], [Remove]; removing an unknown hash only logs. *)
Definition lk_Add (tx : Transaction) (local : bool) (t : txLookup) : txLookup :=
  let slots := lk_slots t + numSlots tx in
  if local then MkLookup slots (<[tx_Hash tx := tx]> (lk_locals t)) (lk_remotes t)
  else MkLookup slots (lk_locals t) (<[tx_Hash tx := tx]> (lk_remotes t)).
Definition lk_Remove (h : Hash) (t : txLookup) : txLookup :=
  match lk_Get h t with
  | None => t
  | Some tx => MkLookup (lk_slots t - numSlots tx) (delete h (lk_locals t)) (delete h (lk_remotes t))
  end.

(** [RemoteToLocals]: the remote transactions of local accounts change sides. *)
Definition RemoteToLocals (is_local : Transaction → bool) (t : txLookup) : nat * txLookup :=
  let moved := filter (λ kt, is_local kt.2 = true) (lk_remotes t) in
  (size moved, MkLookup (lk_slots t) (moved ∪ lk_locals t) (filter (λ kt, ¬ is_local kt.2 = true) (lk_remotes t))).

(** [RemotesBelowTip]. *)
Definition RemotesBelowTip (range : gmap Hash Transaction → list (Hash * Transaction)) (threshold : Z) (t : txLookup)
  : list Transaction :=
  filter (λ tx, GasTipCapIntCmp tx threshold = Lt) (range (lk_remotes t)).*2.

(** ** txPricedList *)

(** The order of a [priceHeap]: by the tip at the base fee if there is one, then
    by fee cap, by tip and, last, the higher nonce first. *)
Definition price_cmp (baseFee : option Z) (a b : Transaction) : comparison :=
  let tail :=
    match GasFeeCapCmp a b with
    | Eq => GasTipCapCmp a b
    | c => c
    end in
  match baseFee with
  | Some _ => match EffectiveGasTipCmp a b baseFee with Eq => tail | c => c end
  | None => tail
  end.
Definition price_less (baseFee : option Z) (a b : Transaction) : bool :=
  match price_cmp baseFee a b with
  | Lt => true
  | Gt => false
  | Eq => tx_Nonce b <? tx_Nonce a
  end.

Record txPricedList := MkPriced {
  stales : Z;
  urgent_baseFee : option Z;
  urgent : list Transaction;
  floating : list Transaction
}.
Definition newTxPricedList : txPricedList := MkPriced 0 None [] [].

Definition urgentRatio : nat := 4.
Definition floatingRatio : nat := 1.

(** [urgent_less], [floating_less]: the floating heap has no base fee. *)
Definition urgent_less (l : txPricedList) : Transaction → Transaction → bool := price_less (urgent_baseFee l).
Definition floating_less : Transaction → Transaction → bool := price_less None.

Definition with_urgent (u : list Transaction) (l : txPricedList) : txPricedList :=
  MkPriced (stales l) (urgent_baseFee l) u (floating l).
Definition with_floating (f : list Transaction) (l : txPricedList) : txPricedList :=
  MkPriced (stales l) (urgent_baseFee l) (urgent l) f.
Definition add_stales (n : Z) (l : txPricedList) : txPricedList :=
  MkPriced (stales l + n) (urgent_baseFee l) (urgent l) (floating l).

(** [Put]. *)
Definition pl_Put (tx : Transaction) (local : bool) (l : txPricedList) : txPricedList :=
  if local then l else with_urgent (heap_Push (urgent_less l) tx (urgent l)) l.

(** [Reheap]: everything into the urgent heap, the cheapest fifth of it into the
    floating one. *)
Fixpoint pop_n (less : Transaction → Transaction → bool) (n : nat) (h : list Transaction)
  : result (list Transaction * list Transaction) :=
  match n with
  | O => Ok ([], h)
  | S n => '(x, h) ← heap_Pop less h; '(xs, h) ← pop_n less n h; Ok (x :: xs, h)
  end.
Definition Reheap (range : gmap Hash Transaction → list (Hash * Transaction)) (all : txLookup) (l : txPricedList)
  : result txPricedList :=
  let u := heap_Init (urgent_less l) (range (lk_remotes all)).*2 in
  let floatingCount := (length u * floatingRatio / (urgentRatio + floatingRatio))%nat in
  '(f, u) ← pop_n (urgent_less l) floatingCount u;
  Ok (MkPriced 0 (urgent_baseFee l) u (heap_Init floating_less f)).

(** [Removed]. *)
Definition Removed (range : gmap Hash Transaction → list (Hash * Transaction)) (count : nat) (all : txLookup)
  (l : txPricedList) : result txPricedList :=
  let l := add_stales (Z.of_nat count) l in
  if stales l <=? Z.of_nat ((length (urgent l) + length (floating l)) / 4) then Ok l
  else Reheap range all l.

(** The loop of [underpricedFor]: stale entries at the top are dropped. *)
Fixpoint drop_stale (less : Transaction → Transaction → bool) (all : txLookup) (fuel : nat) (h : list Transaction)
  : result (nat * list Transaction) :=
  match fuel, h with
  | S fuel, head :: _ =>
      match GetRemote (tx_Hash head) all with
      | None => '(_, h) ← heap_Pop less h; '(n, h) ← drop_stale less all fuel h; Ok (S n, h)
      | Some _ => Ok (0%nat, h)
      end
  | _, _ => Ok (0%nat, h)
  end.
(** [underpricedFor]: the answer, how many stale entries went, and the heap. *)
Definition underpricedFor (baseFee : option Z) (all : txLookup) (h : list Transaction) (tx : Transaction)
  : result (bool * nat * list Transaction) :=
  '(n, h) ← drop_stale (price_less baseFee) all (length h) h;
  Ok (match h with [] => false | head :: _ => cmp_ge (price_cmp baseFee head tx) end, n, h).

Definition is_empty {A} (l : list A) : bool := match l with [] => true | _ => false end.

(** [Underpriced], with the evaluation order of its operators. *)
Definition Underpriced (all : txLookup) (tx : Transaction) (l : txPricedList) : result (bool * txPricedList) :=
  '(b, n, u) ← underpricedFor (urgent_baseFee l) all (urgent l) tx;
  let l := add_stales (- Z.of_nat n) (with_urgent u l) in
  if negb (b || is_empty (urgent l)) then Ok (false, l)
  else
    '(b, n, f) ← underpricedFor None all (floating l) tx;
    let l := add_stales (- Z.of_nat n) (with_floating f l) in
    if negb (b || is_empty (floating l)) then Ok (false, l)
    else Ok (negb (is_empty (urgent l)) || negb (is_empty (floating l)), l).

(** [Discard]: every round pops one entry, so twice the urgent heap and the
    floating heap are enough rounds. *)
Fixpoint discard_loop (fuel : nat) (all : txLookup) (slots : Z) (drop : list Transaction) (l : txPricedList)
  : result (Z * list Transaction * txPricedList) :=
  match fuel with
  | O => Panic "out of fuel"
  | S fuel =>
      if slots <=? 0 then Ok (slots, drop, l)
      else if (length (floating l) * urgentRatio <? length (urgent l) * floatingRatio)%nat then
        '(tx, u) ← heap_Pop (urgent_less l) (urgent l);
        let l := with_urgent u l in
        match GetRemote (tx_Hash tx) all with
        | None => discard_loop fuel all slots drop (add_stales (-1) l)
        | Some _ => discard_loop fuel all slots drop (with_floating (heap_Push floating_less tx (floating l)) l)
        end
      else if is_empty (floating l) then Ok (slots, drop, l)
      else
        '(tx, f) ← heap_Pop floating_less (floating l);
        let l := with_floating f l in
        match GetRemote (tx_Hash tx) all with
        | None => discard_loop fuel all slots drop (add_stales (-1) l)
        | Some _ => discard_loop fuel all (slots - numSlots tx) (drop ++ [tx]) l
        end
  end.
Definition pl_Discard (all : txLookup) (slots : Z) (force : bool) (l : txPricedList)
  : result (list Transaction * bool * txPricedList) :=
  if slots <? 0 then Panic "makeslice: cap out of range"
  else
  '(slots, drop, l) ← discard_loop (S (2 * length (urgent l) + length (floating l))) all slots [] l;
  if (0 <? slots) && negb force then
    Ok ([], false, foldl (λ l tx, with_urgent (heap_Push (urgent_less l) tx (urgent l)) l) l drop)
  else Ok (drop, true, l).

(** [SetBaseFee]. *)
Definition SetBaseFee (range : gmap Hash Transaction → list (Hash * Transaction)) (baseFee : Z) (all : txLookup)
  (l : txPricedList) : result txPricedList :=
  Reheap range all (MkPriced (stales l) (Some baseFee) (urgent l) (floating l)).
End Lookup.

(** ** The price order *)

(** The order is the lexicographic one on these keys. *)
Definition keys (baseFee : option Z) (t : Transaction) : list Z :=
  (match baseFee with Some _ => [EffectiveGasTipValue t baseFee] | None => [] end) ++
  [tx_GasFeeCap t; tx_GasTipCap t; - tx_Nonce t].

Fixpoint lex_lt (a b : list Z) : bool :=
  match a, b with
  | x :: a, y :: b => (x <? y) || ((x =? y) && lex_lt a b)
  | _, _ => false
  end.

Lemma price_less_lex baseFee a b : price_less baseFee a b = lex_lt (keys baseFee a) (keys baseFee b).
Proof.
  unfold price_less, price_cmp, keys, GasFeeCapCmp, GasTipCapCmp, EffectiveGasTipCmp.
  assert (Hn : ∀ x y, (- x <? - y) = (y <? x)) by (intros; destruct (Z.ltb_spec y x); [apply Z.ltb_lt|apply Z.ltb_ge]; lia).
  destruct baseFee as [f|]; cbn [app lex_lt];
    repeat match goal with |- context [?x ?= ?y] => destruct (Z.compare_spec x y) end; subst;
    repeat ztest; rewrite ?Hn, ?Z.ltb_irrefl, ?Z.eqb_refl, ?andb_false_r, ?orb_false_r; cbn; try done; ztests; done.
Qed.

Lemma lex_lt_asym a : ∀ b, lex_lt a b = true → lex_lt b a = false.
Proof.
  induction a as [|x a IH]; intros [|y b]; cbn; try done. intros [Hlt%Z.ltb_lt|[->%Z.eqb_eq Hl]%andb_true_iff]%orb_true_iff.
  - ztests. done.
  - rewrite Z.ltb_irrefl, Z.eqb_refl. cbn. by apply IH.
Qed.
Lemma lex_lt_weak a : ∀ b c, length a = length b → length b = length c →
  lex_lt a c = true → lex_lt a b = true ∨ lex_lt b c = true.
Proof.
  induction a as [|x a IH]; intros [|y b] [|z c]; cbn; try done. intros [= Hab] [= Hbc] Hac.
  apply orb_true_iff in Hac as [Hlt%Z.ltb_lt|[->%Z.eqb_eq Hl]%andb_true_iff].
  - destruct (Z.ltb_spec x y); [by left|]. right. ztests. done.
  - destruct (Z.ltb_spec z y); [by left|]. destruct (Z.ltb_spec y z); [by right|].
    assert (y = z) as -> by lia. rewrite Z.eqb_refl. cbn. by apply IH.
Qed.
#[export] Instance price_less_strict baseFee : StrictWeak (price_less baseFee).
Proof.
  split.
  - intros x y. rewrite !price_less_lex. apply lex_lt_asym.
  - intros x y z. rewrite !price_less_lex. apply lex_lt_weak; unfold keys; by destruct baseFee.
Qed.

(** ** Nothing remote is lost from the heaps *)

Section Tracked.
Context `{Crypto} (range : gmap Hash Transaction → list (Hash * Transaction)).
Context (range_listing : ∀ m, range m ≡ₚ map_to_list m).

(** Both heaps are heaps, and every remote transaction is in one of them. *)
Record tracked (all : txLookup) (l : txPricedList) : Prop := {
  tk_urgent : heap (urgent_less l) (urgent l);
  tk_floating : heap floating_less (floating l);
  tk_in h tx : lk_remotes all !! h = Some tx → tx ∈ urgent l ++ floating l
}.

(** The keys of the lookup set are the hashes. *)
Definition keyed (all : txLookup) : Prop :=
  (∀ h tx, lk_remotes all !! h = Some tx → h = tx_Hash tx) ∧
  (∀ h tx, lk_locals all !! h = Some tx → h = tx_Hash tx) ∧ lk_locals all ##ₘ lk_remotes all.

#[local] Instance urgent_strict l : StrictWeak (urgent_less l) := price_less_strict _.
#[local] Instance floating_strict : StrictWeak floating_less := price_less_strict _.

Lemma tracked_stales n all l : tracked all l → tracked all (add_stales n l).
Proof. by intros []. Qed.

Lemma tracked_mono all all' l : lk_remotes all' ⊆ lk_remotes all → tracked all l → tracked all' l.
Proof.
  intros Hs [Hu Hf Hi]. split; [done..|]. intros h tx E. eapply Hi. by eapply lookup_weaken.
Qed.

Lemma pl_Put_tracked tx local all l : tracked all l → tracked (lk_Add tx local all) (pl_Put tx local l).
Proof.
  intros [Hu Hf Hi]. unfold pl_Put, lk_Add. destruct local; [by split|].
  destruct (heap_Push_spec (urgent_less l) tx (urgent l) Hu) as [P Hh]. split; cbn; [done..|].
  intros h tx'. rewrite lookup_insert_Some, elem_of_app, P, elem_of_cons. intros [[_ ->]|[_ E]]; [by left; left|].
  apply Hi, elem_of_app in E. tauto.
Qed.

Lemma pop_n_spec (less : Transaction → Transaction → bool) `{!StrictWeak less} n : ∀ h, heap less h → (n ≤ length h)%nat →
  ∃ xs h', pop_n less n h = Ok (xs, h') ∧ h ≡ₚ xs ++ h' ∧ heap less h'.
Proof.
  induction n as [|n IH]; intros h Hh Hl; [by exists [], h|].
  destruct (heap_Pop_spec less h Hh) as (h1 & E & P & Hh1); [intros ->; cbn in Hl; lia|].
  destruct (IH h1 Hh1) as (xs & h' & E2 & P2 & Hh'); [rewrite P in Hl; cbn in Hl; lia|].
  exists (h !!! 0%nat :: xs), h'. cbn [pop_n]. rewrite E. cbn [mbind result_bind]. rewrite E2. cbn [mbind result_bind].
  split; [done|]. split; [|done]. rewrite P at 1. by rewrite P2.
Qed.

Lemma range_values m (tx : Transaction) : tx ∈ (range m).*2 ↔ ∃ h, m !! h = Some tx.
Proof.
  rewrite list_elem_of_fmap. split.
  - intros ([h t] & -> & Hin). rewrite range_listing in Hin. apply elem_of_map_to_list in Hin. eauto.
  - intros [h E]. exists (h, tx). split; [done|]. rewrite range_listing. by apply elem_of_map_to_list.
Qed.

Lemma Reheap_tracked all l : ∃ l', Reheap range all l = Ok l' ∧ tracked all l'.
Proof.
  unfold Reheap. destruct (heap_Init_spec (urgent_less l) (range (lk_remotes all)).*2) as [P Hh].
  set (u := heap_Init _ _) in *.
  destruct (pop_n_spec (urgent_less l) (length u * floatingRatio / (urgentRatio + floatingRatio)) u Hh) as (f & u' & E & Pu & Hu').
  { unfold urgentRatio, floatingRatio. apply Nat.Div0.div_le_upper_bound. lia. }
  rewrite E. cbn [mbind result_bind]. eexists. split; [done|].
  destruct (heap_Init_spec floating_less f) as [Pf Hf]. split; cbn; [done..|]. intros h tx Ht.
  assert (Hin : tx ∈ f ++ u') by (rewrite <- Pu, P; apply range_values; eauto).
  rewrite Pf. set_solver.
Qed.

Lemma Removed_tracked n all l : tracked all l → ∃ l', Removed range n all l = Ok l' ∧ tracked all l'.
Proof.
  intros Ht. unfold Removed. destruct (_ <=? _); [|apply Reheap_tracked].
  eexists. split; [done|]. by apply tracked_stales.
Qed.
Lemma SetBaseFee_tracked f all l : ∃ l', SetBaseFee range f all l = Ok l' ∧ tracked all l'.
Proof. apply Reheap_tracked. Qed.

Lemma drop_stale_spec (less : Transaction → Transaction → bool) `{!StrictWeak less} all fuel : ∀ h, heap less h → (length h ≤ fuel)%nat →
  ∃ n h', drop_stale less all fuel h = Ok (n, h') ∧ heap less h' ∧
    (∀ tx, tx ∈ h → GetRemote (tx_Hash tx) all ≠ None → tx ∈ h').
Proof.
  induction fuel as [|fuel IH]; intros h Hh Hl; [destruct h; [by exists 0%nat, []|cbn in Hl; lia]|].
  destruct h as [|x h]; [by exists 0%nat, []|]. cbn [drop_stale].
  destruct (GetRemote (tx_Hash x) all) eqn:E; [by eexists _, _|].
  destruct (heap_Pop_spec less (x :: h) Hh) as (h1 & Ep & P & Hh1); [done|]. rewrite Ep. cbn [mbind result_bind].
  assert (Hx : (x :: h) !!! 0%nat = x) by done. rewrite Hx in *.
  destruct (IH h1 Hh1) as (n & h' & -> & Hh' & Hin); [pose proof (Permutation_length P) as L; cbn in *; lia|].
  eexists _, _. split; [done|]. split; [done|]. intros tx Htx Hr. apply Hin; [|done].
  rewrite P in Htx. apply elem_of_cons in Htx as [->|]; done.
Qed.

Lemma tracked_drop_urgent all l u : keyed all → tracked all l → heap (urgent_less l) u →
  (∀ tx, tx ∈ urgent l → GetRemote (tx_Hash tx) all ≠ None → tx ∈ u) → tracked all (with_urgent u l).
Proof.
  intros (Hk & _ & _) [Hu Hf Hi] Hh Hin. split; cbn; [done..|]. intros h tx E. specialize (Hi _ _ E).
  apply elem_of_app in Hi as [Hi|Hi]; apply elem_of_app; [left|by right]. apply Hin; [done|].
  unfold GetRemote. rewrite <- (Hk _ _ E). by rewrite E.
Qed.
Lemma tracked_drop_floating all l f : keyed all → tracked all l → heap floating_less f →
  (∀ tx, tx ∈ floating l → GetRemote (tx_Hash tx) all ≠ None → tx ∈ f) → tracked all (with_floating f l).
Proof.
  intros (Hk & _ & _) [Hu Hf Hi] Hh Hin. split; cbn; [done..|]. intros h tx E. specialize (Hi _ _ E).
  apply elem_of_app in Hi as [Hi|Hi]; apply elem_of_app; [by left|right]. apply Hin; [done|].
  unfold GetRemote. rewrite <- (Hk _ _ E). by rewrite E.
Qed.

Lemma Underpriced_tracked tx all l : keyed all → tracked all l →
  ∃ b l', Underpriced all tx l = Ok (b, l') ∧ tracked all l'.
Proof.
  intros Hk Ht. unfold Underpriced, underpricedFor.
  destruct (drop_stale_spec (urgent_less l) all (length (urgent l)) (urgent l)) as (n & u & E & Hu & Hin); [apply Ht|done|].
  unfold urgent_less in E. rewrite E. cbn [mbind result_bind]. set (l1 := add_stales _ _).
  assert (Ht1 : tracked all l1) by (by apply tracked_stales, tracked_drop_urgent).
  match goal with |- context [negb ?b] => destruct (negb b) end; [by eexists _, _|].
  destruct (drop_stale_spec floating_less all (length (floating l1)) (floating l1)) as (n' & f & E' & Hf & Hin'); [apply Ht1|done|].
  unfold floating_less in E'. rewrite E'. cbn [mbind result_bind]. set (l2 := add_stales _ _).
  assert (Ht2 : tracked all l2) by (by apply tracked_stales, tracked_drop_floating).
  match goal with |- context [if negb ?b then _ else _] => destruct (negb b) end; by eexists _, _.
Qed.

(** *** Discard *)

(** As [tracked], with some transactions taken out of the heaps. *)
Record tracked_but (out : list Transaction) (all : txLookup) (l : txPricedList) : Prop := {
  tb_urgent : heap (urgent_less l) (urgent l);
  tb_floating : heap floating_less (floating l);
  tb_in h tx : lk_remotes all !! h = Some tx → tx ∈ urgent l ∨ tx ∈ floating l ∨ tx ∈ out
}.

Lemma tracked_nil all l : tracked_but [] all l ↔ tracked all l.
Proof.
  split; intros [Hu Hf Hi]; split; try done; intros h tx E; specialize (Hi h tx E); set_solver.
Qed.

(** The transactions given are remote. *)
Definition all_remote (all : txLookup) (l : list Transaction) : Prop :=
  ∀ tx, tx ∈ l → GetRemote (tx_Hash tx) all ≠ None.

Definition slots_of (l : list Transaction) : Z := foldr (λ tx n, numSlots tx + n) 0 l.

Lemma slots_of_snoc l tx : slots_of (l ++ [tx]) = slots_of l + numSlots tx.
Proof. unfold slots_of. induction l as [|x l IH]; cbn; [lia|]. cbn in IH. rewrite IH. lia. Qed.

Lemma tracked_urgent_pop out all l : keyed all → tracked_but out all l → urgent l ≠ [] →
  ∃ tx u, heap_Pop (urgent_less l) (urgent l) = Ok (tx, u) ∧ length (urgent l) = S (length u) ∧
    (GetRemote (tx_Hash tx) all = None → tracked_but out all (with_urgent u l)) ∧
    tracked_but out all (with_floating (heap_Push floating_less tx (floating l)) (with_urgent u l)) ∧
    length (heap_Push floating_less tx (floating l)) = S (length (floating l)).
Proof.
  intros (Hk & _) [Hu Hf Hi] Hne. destruct (heap_Pop_spec (urgent_less l) (urgent l) Hu Hne) as (u & E & P & Hh).
  set (tx := urgent l !!! 0%nat) in *. destruct (heap_Push_spec floating_less tx (floating l) Hf) as [Pf Hhf].
  exists tx, u. split; [done|]. split; [by rewrite P|]. split; [|split; [|by rewrite Pf]].
  - intros Hn. split; cbn; [done..|]. intros h t Et. specialize (Hi _ _ Et). rewrite P, elem_of_cons in Hi.
    destruct Hi as [[->|?]|[?|?]]; try tauto. unfold GetRemote in Hn. rewrite <- (Hk _ _ Et) in Hn. congruence.
  - split; cbn; [done..|]. intros h t Et. specialize (Hi _ _ Et). rewrite P, elem_of_cons in Hi. rewrite Pf, elem_of_cons. tauto.
Qed.

Lemma tracked_floating_pop out all l : keyed all → tracked_but out all l → floating l ≠ [] →
  ∃ tx f, heap_Pop floating_less (floating l) = Ok (tx, f) ∧ length (floating l) = S (length f) ∧
    (GetRemote (tx_Hash tx) all = None → tracked_but out all (with_floating f l)) ∧
    tracked_but (out ++ [tx]) all (with_floating f l).
Proof.
  intros (Hk & _) [Hu Hf Hi] Hne. destruct (heap_Pop_spec floating_less (floating l) Hf Hne) as (f & E & P & Hh).
  set (tx := floating l !!! 0%nat) in *. exists tx, f. split; [done|]. split; [by rewrite P|]. split.
  - intros Hn. split; cbn; [done..|]. intros h t Et. specialize (Hi _ _ Et). rewrite P, elem_of_cons in Hi.
    destruct Hi as [?|[[->|?]|?]]; try tauto. unfold GetRemote in Hn. rewrite <- (Hk _ _ Et) in Hn. congruence.
  - split; cbn; [done..|]. intros h t Et. specialize (Hi _ _ Et). rewrite P, elem_of_cons in Hi. set_solver.
Qed.

Lemma tracked_but_stales n out all l : tracked_but out all l → tracked_but out all (add_stales n l).
Proof. by intros []. Qed.

Lemma discard_loop_spec all fuel : keyed all → ∀ slots drop l, tracked_but drop all l → all_remote all drop →
  (2 * length (urgent l) + length (floating l) < fuel)%nat →
  ∃ slots' drop' l', discard_loop fuel all slots drop l = Ok (slots', drop', l') ∧ tracked_but drop' all l' ∧
    all_remote all drop' ∧ slots' + slots_of drop' = slots + slots_of drop ∧
    (0 < slots' → urgent l' = [] ∧ floating l' = []).
Proof.
  intros Hk. induction fuel as [|fuel IH]; intros slots drop l Ht Hr Hf; [lia|]. cbn [discard_loop].
  destruct (Z.leb_spec slots 0) as [Hs|Hs]; [eexists _, _, _; split; [done|]; split_and!; try done; lia|].
  destruct (Nat.ltb_spec (length (floating l) * urgentRatio) (length (urgent l) * floatingRatio)) as [Hlt|Hge].
  - destruct (tracked_urgent_pop drop all l Hk Ht) as (tx & u & -> & Hl & Hnone & Hsome & Hlen); [intros E; rewrite E in Hlt; cbn in Hlt; lia|].
    cbn [mbind result_bind]. destruct (GetRemote (tx_Hash tx) all) eqn:E.
    + apply IH; [done|done|]. cbn [urgent floating with_floating with_urgent add_stales]. rewrite Hlen. lia.
    + apply IH; [by apply tracked_but_stales, Hnone|done|]. cbn [urgent floating with_floating with_urgent add_stales]. lia.
  - destruct (floating l) as [|f0 f] eqn:Ef; cbn [is_empty].
    { eexists _, _, _. split; [done|]. split_and!; try done. intros _. split; [|done].
      unfold urgentRatio, floatingRatio in Hge. cbn in Hge. destruct (urgent l); [done|cbn in Hge; lia]. }
    rewrite <- Ef in *. destruct (tracked_floating_pop drop all l Hk Ht) as (tx & f' & -> & Hl & Hnone & Hsome); [by rewrite Ef|].
    cbn [mbind result_bind]. destruct (GetRemote (tx_Hash tx) all) eqn:E.
    + destruct (IH (slots - numSlots tx) (drop ++ [tx]) (with_floating f' l) Hsome) as (s' & d' & l' & -> & H1 & H2 & H3 & H4).
      { intros x [Hx|Hx%list_elem_of_singleton]%elem_of_app; [by apply Hr|subst x; by rewrite E]. }
      { cbn. lia. }
      rewrite slots_of_snoc in H3. eexists _, _, _. split; [done|]. split_and!; try done. lia.
    + apply IH; [by apply tracked_but_stales, Hnone|done|]. cbn. lia.
Qed.

Lemma push_all_tracked all drop : ∀ l, tracked_but drop all l →
  tracked all (foldl (λ l tx, with_urgent (heap_Push (urgent_less l) tx (urgent l)) l) l drop).
Proof.
  induction drop as [|tx drop IH]; intros l Ht; [by apply tracked_nil|]. cbn [foldl]. apply IH.
  destruct Ht as [Hu Hf Hi]. destruct (heap_Push_spec (urgent_less l) tx (urgent l) Hu) as [P Hh].
  split; cbn; [done..|]. intros h t E. specialize (Hi _ _ E). rewrite P. set_solver.
Qed.

(** [Discard] either gives up, and changes nothing that matters, or takes remote
    transactions out of the heaps; for a remote newcomer they are worth the
    slots asked for. *)
Lemma Discard_tracked all slots force l : 0 ≤ slots → keyed all → tracked all l →
  ∃ drop ok l', pl_Discard all slots force l = Ok (drop, ok, l') ∧ all_remote all drop ∧ tracked_but drop all l' ∧
    (ok = false → force = false ∧ drop = []) ∧ (ok = true → force = false → slots ≤ slots_of drop).
Proof.
  intros Hs Hk Ht. unfold pl_Discard. rewrite (proj2 (Z.ltb_ge _ _)) by lia.
  destruct (discard_loop_spec all (S (2 * length (urgent l) + length (floating l))) Hk slots [] l) as (s & d & l' & -> & H1 & H2 & H3 & H4).
  { by apply tracked_nil. } { by intros t ?%elem_of_nil. } { lia. }
  cbn [mbind result_bind]. cbn in H3. destruct (Z.ltb_spec 0 s); destruct force; cbn [andb negb].
  - eexists _, _, _. split; [done|]. split_and!; done.
  - eexists _, _, _. split; [done|]. split_and!; try done; [by intros t ?%elem_of_nil|].
    by apply tracked_nil, push_all_tracked.
  - eexists _, _, _. split; [done|]. split_and!; done.
  - eexists _, _, _. split; [done|]. split_and!; try done. lia.
Qed.
End Tracked.
