(* ===== verification/TrieKeys.v ===== *)
(** * Trie keys (chain/trie/encoding.go)

    The three encodings of a trie key: plain bytes, one byte per nibble with an
    optional terminator, and the compact form that is stored. *)

From S2P Require Import Prelude Bytes.

(** ** Conversions *)

(** [hasTerm]. *)
Definition hasTerm (s : bytes) : bool :=
  match last s with Some b => b2z b =? 16 | None => false end.

(** [decodeNibbles]: the buffer is filled from its front. *)
Fixpoint decodeNibbles (nibbles buf : bytes) : result bytes :=
  match nibbles, buf with
  | [], _ => Ok buf
  | a :: b :: nibbles, _ :: buf =>
      r ← decodeNibbles nibbles buf;
      Ok (z2b (Z.lor (Z.shiftl (b2z a) 4) (b2z b)) :: r)
  | _, _ => Panic "index out of range"
  end.

(** [hexToCompact]. *)
Definition hexToCompact (hex : bytes) : result bytes :=
  let '(terminator, hex) :=
    if hasTerm hex then (1, take (length hex - 1) hex) else (0, hex) in
  let zeros := replicate (length hex / 2) Byte.x00 in
  let flag := Z.shiftl terminator 5 in
  match hex with
  | first :: rest =>
      if (length hex mod 2 =? 1)%nat then
        body ← decodeNibbles rest zeros;
        Ok (z2b (Z.lor (Z.lor flag (Z.shiftl 1 4)) (b2z first)) :: body)
      else body ← decodeNibbles hex zeros; Ok (z2b flag :: body)
  | [] => Ok (z2b flag :: zeros)
  end.

(** [hexToCompactInPlace]: the loop, from [bi] and [ni]. *)
Fixpoint compact_loop (steps : nat) (bi ni : nat) (hex : bytes) : result bytes :=
  match steps with
  | O => Ok hex
  | S steps =>
      match hex !! ni, hex !! S ni with
      | Some a, Some b =>
          compact_loop steps (S bi) (S (S ni))
            (<[bi := z2b (Z.lor (Z.shiftl (b2z a) 4) (b2z b))]> hex)
      | _, _ => Panic "index out of range"
      end
  end.
Definition hexToCompactInPlace (hex : bytes) : result (bytes * nat) :=
  let '(flag, hexLen) :=
    if hasTerm hex then (Z.shiftl 1 5, (length hex - 1)%nat) else (0, length hex) in
  let binLen := S (hexLen / 2) in
  match hex with
  | [] => Panic "index out of range"
  | first :: _ =>
      let '(flag, ni) :=
        if (hexLen mod 2 =? 1)%nat
        then (Z.lor (Z.lor flag (Z.shiftl 1 4)) (b2z first), 1%nat) else (flag, 0%nat) in
      hex ← compact_loop (hexLen / 2) 1 ni hex;
      Ok (<[0%nat := z2b flag]> hex, binLen)
  end.

(** [keybytesToHex]. *)
Definition nibbles_of (b : byte) : bytes := [z2b (b2z b / 16); z2b (b2z b mod 16)].
Definition keybytesToHex (str : bytes) : bytes := concat (nibbles_of <$> str) ++ [Byte.x10].

(** [compactToHex]. *)
Definition compactToHex (compact : bytes) : bytes :=
  if bool_decide (compact = []) then compact
  else
    let base := keybytesToHex compact in
    match base with
    | first :: _ =>
        let base := if b2z first <? 2 then take (length base - 1) base else base in
        drop (Z.to_nat (2 - Z.land (b2z first) 1)) base
    | [] => base
    end.

(** [hexToKeybytes]. *)
Definition hexToKeybytes (hex : bytes) : result bytes :=
  let hex := if hasTerm hex then take (length hex - 1) hex else hex in
  if (length hex mod 2 =? 0)%nat then decodeNibbles hex (replicate (length hex / 2) Byte.x00)
  else Panic "can't convert hex key of odd length".

(** [prefixLen]. *)
Fixpoint prefixLen (a b : bytes) : nat :=
  match a, b with
  | x :: a, y :: b => if bool_decide (x = y) then S (prefixLen a b) else 0
  | _, _ => 0
  end.

(** ** Hex keys *)

(** A hex string: nibbles, then a terminator if [t]. *)
Definition nibble (b : byte) : Prop := b2z b < 16.
Definition hexkey (t : bool) (k : bytes) : Prop :=
  ∃ body, Forall nibble body ∧ k = body ++ (if t then [Byte.x10] else []).

Lemma hasTerm_snoc s b : hasTerm (s ++ [b]) = (b2z b =? 16).
Proof. unfold hasTerm. by rewrite last_snoc. Qed.

Lemma hasTerm_hexkey t k : hexkey t k → hasTerm k = t.
Proof.
  intros (body & Hb & ->). destruct t; [by rewrite hasTerm_snoc|]. rewrite app_nil_r. unfold hasTerm.
  destruct (last body) as [b|] eqn:E; [|done]. apply last_Some in E as [l ->].
  apply Forall_app in Hb as [_ Hb]. rewrite Forall_singleton in Hb. unfold nibble in Hb.
  apply Z.eqb_neq. lia.
Qed.

Lemma hexkey_cons t b k : hexkey t (b :: k) →
  (nibble b ∧ hexkey t k) ∨ (t = true ∧ b = Byte.x10 ∧ k = []).
Proof.
  intros (body & Hb & E). destruct body as [|c body].
  - destruct t; [|done]. injection E as -> ->. by right.
  - injection E as -> ->. apply Forall_cons in Hb as [Hc Hb]. left. split; [done|]. by exists body.
Qed.

Lemma hexkey_nibble t b k : nibble b → hexkey t k → hexkey t (b :: k).
Proof. intros Hb (body & Hbody & ->). exists (b :: body). split; [by constructor|done]. Qed.

(** A byte from two nibbles and back. *)
Lemma join_nibbles a b : nibble a → nibble b → Z.lor (Z.shiftl (b2z a) 4) (b2z b) = b2z a * 16 + b2z b.
Proof.
  unfold nibble. intros Ha Hb. pose proof (b2z_bound a). pose proof (b2z_bound b).
  rewrite Z.shiftl_mul_pow2 by lia.
  assert (Hz : Z.land (b2z a * 2 ^ 4) (b2z b) = 0).
  { apply Z.bits_inj'. intros i Hi. rewrite Z.land_spec, Z.bits_0. destruct (decide (i < 4)).
    - by rewrite Z.mul_pow2_bits_low by lia.
    - rewrite (Z.bits_above_log2 (b2z b)); [apply andb_false_r|lia|].
      destruct (decide (b2z b = 0)) as [->|]; [cbn; lia|]. apply Z.log2_lt_pow2; [lia|].
      apply Z.lt_le_trans with (2 ^ 4); [lia|]. apply Z.pow_le_mono_r; lia. }
  pose proof (Z.add_lor_land (b2z a * 2 ^ 4) (b2z b)). lia.
Qed.

Lemma nibbles_of_join a b : nibble a → nibble b →
  nibbles_of (z2b (Z.lor (Z.shiftl (b2z a) 4) (b2z b))) = [a; b].
Proof.
  intros Ha Hb. rewrite join_nibbles by done. unfold nibbles_of, nibble in *.
  pose proof (b2z_bound a). pose proof (b2z_bound b). rewrite b2z_z2b, (Z.mod_small (_ + _) 256) by lia.
  rewrite Z.div_add_l, (Z.div_small (b2z b)), Z.add_0_r by lia.
  rewrite Z.add_comm, Z.mod_add, (Z.mod_small (b2z b)) by lia. by rewrite !z2b_b2z.
Qed.

Lemma nibbles_of_nibbles b : Forall nibble (nibbles_of b).
Proof.
  pose proof (b2z_bound b). unfold nibbles_of, nibble. repeat constructor; rewrite b2z_z2b.
  - rewrite Z.mod_small; [|split]; [apply Z.div_lt_upper_bound|apply Z.div_pos|apply Z.div_lt_upper_bound]; lia.
  - rewrite (Z.mod_small (b2z b mod 16)); pose proof (Z.mod_pos_bound (b2z b) 16); lia.
Qed.

(** ** Round trips *)

Lemma decodeNibbles_spec buf : ∀ ns, Forall nibble ns → length ns = (2 * length buf)%nat →
  ∃ bs, decodeNibbles ns buf = Ok bs ∧ length bs = length buf ∧ concat (nibbles_of <$> bs) = ns.
Proof.
  induction buf as [|x buf IH]; intros ns Hn Hl.
  { destruct ns; [|done]. by exists []. }
  destruct ns as [|a [|b ns]]; cbn in Hl; try lia.
  apply Forall_cons in Hn as [Ha Hn]. apply Forall_cons in Hn as [Hb Hn].
  destruct (IH ns Hn) as (bs & E & Hbs & Hc); [lia|].
  eexists. cbn [decodeNibbles]. rewrite E. cbn [mbind result_bind]. split; [done|].
  split; [cbn; by rewrite Hbs|]. rewrite fmap_cons. cbn [concat].
  by rewrite nibbles_of_join, Hc.
Qed.

Lemma keybytesToHex_cons f bs :
  keybytesToHex (f :: bs) = nibbles_of f ++ concat (nibbles_of <$> bs) ++ [Byte.x10].
Proof. unfold keybytesToHex. rewrite fmap_cons. cbn [concat]. by rewrite <- app_assoc. Qed.

Lemma compactToHex_cons f bs hi lo :
  nibbles_of f = [hi; lo] →
  compactToHex (f :: bs) =
    drop (Z.to_nat (2 - Z.land (b2z hi) 1))
      (hi :: lo :: concat (nibbles_of <$> bs) ++ (if b2z hi <? 2 then [] else [Byte.x10])).
Proof.
  intros Hf. unfold compactToHex. rewrite bool_decide_false by done.
  rewrite keybytesToHex_cons, Hf. cbn [app]. destruct (b2z hi <? 2); [|done]. apply (f_equal (drop _)).
  cbn [length]. rewrite Nat.sub_1_r. cbn [pred take]. rewrite length_app. cbn [length].
  rewrite Nat.add_1_r. cbn [take]. by rewrite take_app_length, app_nil_r.
Qed.

Lemma hexToCompact_body (t : bool) body :
  Forall nibble body →
  hexToCompact (body ++ (if t then [Byte.x10] else [])) =
    let zeros := replicate (length body / 2) Byte.x00 in
    let flag := if t then 32 else 0 in
    match body with
    | first :: rest =>
        if (length body mod 2 =? 1)%nat then
          bs ← decodeNibbles rest zeros; Ok (z2b (Z.lor (Z.lor flag 16) (b2z first)) :: bs)
        else bs ← decodeNibbles body zeros; Ok (z2b flag :: bs)
    | [] => Ok (z2b flag :: zeros)
    end.
Proof.
  intros Hb. unfold hexToCompact. rewrite (hasTerm_hexkey t) by (by exists body).
  destruct t; [|by rewrite app_nil_r].
  by rewrite length_app, Nat.add_sub, take_app_length.
Qed.

Lemma half_even n : (n mod 2 =? 1)%nat = false → n = (2 * (n / 2))%nat.
Proof. intros E. apply Nat.eqb_neq in E. pose proof (Nat.div_mod_eq n 2). pose proof (Nat.mod_upper_bound n 2). lia. Qed.
Lemma half_odd n : (n mod 2 =? 1)%nat = true → n = S (2 * (n / 2)).
Proof. intros E. apply Nat.eqb_eq in E. pose proof (Nat.div_mod_eq n 2). lia. Qed.

(** The compact form is read back, and it is not empty. *)
Lemma hexToCompact_spec t k : hexkey t k →
  ∃ c, hexToCompact k = Ok c ∧ compactToHex c = k ∧ length c = S (length (take (length k - if t then 1 else 0) k) / 2).
Proof.
  intros (body & Hb & ->). rewrite hexToCompact_body by done. cbn zeta.
  replace (take _ _) with body.
  2:{ destruct t; [by rewrite length_app, Nat.add_sub, take_app_length|].
      by rewrite app_nil_r, Nat.sub_0_r, firstn_all. }
  destruct body as [|first rest]; [destruct t; by eexists|].
  destruct (length (first :: rest) mod 2 =? 1)%nat eqn:Ep.
  - apply half_odd in Ep. apply Forall_cons in Hb as [Hf Hr].
    destruct (decodeNibbles_spec (replicate (length (first :: rest) / 2) Byte.x00) rest Hr) as (bs & E & Hl & Hc).
    { rewrite length_replicate. cbn [length] in Ep |- *. lia. }
    rewrite E. cbn [mbind result_bind]. eexists. split; [done|]. rewrite length_replicate in Hl.
    split; [|cbn [length] in *; by rewrite Hl].
    rewrite (compactToHex_cons _ _ (if t then Byte.x03 else Byte.x01) first).
    + rewrite Hc. by destruct t.
    + destruct t; [exact (nibbles_of_join Byte.x03 first eq_refl Hf)|exact (nibbles_of_join Byte.x01 first eq_refl Hf)].
  - apply half_even in Ep.
    destruct (decodeNibbles_spec (replicate (length (first :: rest) / 2) Byte.x00) (first :: rest) Hb) as (bs & E & Hl & Hc).
    { by rewrite length_replicate. }
    rewrite E. cbn [mbind result_bind]. eexists. split; [done|]. rewrite length_replicate in Hl.
    split; [|cbn [length] in *; by rewrite Hl].
    rewrite (compactToHex_cons _ _ (if t then Byte.x02 else Byte.x00) Byte.x00) by (by destruct t).
    rewrite Hc. by destruct t.
Qed.

Lemma nibbles_of_inj a b : nibbles_of a = nibbles_of b → a = b.
Proof.
  intros E. injection E as E1 E2. apply b2z_inj. pose proof (b2z_bound a). pose proof (b2z_bound b).
  apply (f_equal b2z) in E1, E2. rewrite !b2z_z2b in E1, E2.
  rewrite !(Z.mod_small (_ / 16)) in E1 by (split; [apply Z.div_pos|apply Z.div_lt_upper_bound]; lia).
  rewrite !(Z.mod_small (_ mod 16)) in E2
    by (pose proof (Z.mod_pos_bound (b2z a) 16); pose proof (Z.mod_pos_bound (b2z b) 16); lia).
  rewrite (Z.div_mod (b2z a) 16), (Z.div_mod (b2z b) 16) by lia. lia.
Qed.

Lemma concat_nibbles_inj a : ∀ b, concat (nibbles_of <$> a) = concat (nibbles_of <$> b) → a = b.
Proof.
  induction a as [|x a IH]; intros [|y b] E; [done..|]. rewrite !fmap_cons in E. cbn [concat] in E.
  apply app_inj_1 in E as [E1 E2]; [|done]. f_equal; [by apply nibbles_of_inj|by apply IH].
Qed.

Lemma concat_nibbles_nibble a : Forall nibble (concat (nibbles_of <$> a)).
Proof.
  induction a as [|x a IH]; [constructor|]. rewrite fmap_cons. cbn [concat].
  apply Forall_app. split; [apply nibbles_of_nibbles|done].
Qed.

Lemma length_concat_nibbles a : length (concat (nibbles_of <$> a)) = (2 * length a)%nat.
Proof. induction a as [|x a IH]; [done|]. rewrite fmap_cons. cbn [concat]. rewrite length_app, IH. cbn. lia. Qed.

Lemma keybytesToHex_hexkey k : hexkey true (keybytesToHex k).
Proof. eexists. split; [apply concat_nibbles_nibble|done]. Qed.

Lemma keybytesToHex_inj a b : keybytesToHex a = keybytesToHex b → a = b.
Proof. intros E. apply app_inj_2 in E as [E _]; [|done]. by apply concat_nibbles_inj. Qed.

Lemma hexToKeybytes_keybytesToHex k : hexToKeybytes (keybytesToHex k) = Ok k.
Proof.
  unfold hexToKeybytes. rewrite (hasTerm_hexkey true) by apply keybytesToHex_hexkey.
  unfold keybytesToHex. rewrite length_app, Nat.add_sub, take_app_length, length_concat_nibbles.
  replace (2 * length k)%nat with (length k * 2)%nat by lia. rewrite Nat.Div0.mod_mul, Nat.div_mul by lia. cbn [Nat.eqb].
  destruct (decodeNibbles_spec (replicate (length k) Byte.x00) (concat (nibbles_of <$> k))) as (bs & E & _ & Hc).
  - apply concat_nibbles_nibble.
  - by rewrite length_concat_nibbles, length_replicate.
  - rewrite E. f_equal. by apply concat_nibbles_inj.
Qed.

(** ** In place *)

(** The loop leaves the front alone, and what it writes after it is the decoding
    of the nibbles it reads: the writes never overtake the reads. *)
Lemma compact_loop_spec steps : ∀ bi ni hex, (0 < bi ≤ S ni)%nat → (ni + 2 * steps ≤ length hex)%nat →
  ∃ hex', compact_loop steps bi ni hex = Ok hex' ∧ length hex' = length hex ∧
    take bi hex' = take bi hex ∧
    decodeNibbles (take (2 * steps) (drop ni hex)) (replicate steps Byte.x00)
      = Ok (take steps (drop bi hex')).
Proof.
  induction steps as [|steps IH]; intros bi ni hex Hbi Hl; [by exists hex|].
  destruct (lookup_lt_is_Some_2 hex ni) as [a Ea]; [lia|].
  destruct (lookup_lt_is_Some_2 hex (S ni)) as [b Eb]; [lia|].
  cbn [compact_loop]. rewrite Ea, Eb. set (x := z2b _).
  destruct (IH (S bi) (S (S ni)) (<[bi := x]> hex)) as (hex' & E & Hlen & Hfront & Hdec);
    [lia|rewrite length_insert; lia|].
  rewrite length_insert in Hlen. exists hex'. split; [done|]. split; [done|].
  assert (Hx : hex' !! bi = Some x).
  { rewrite <- (lookup_take_lt _ (S bi)), Hfront, lookup_take_lt by lia.
    apply list_lookup_insert_eq. lia. }
  split.
  - apply (f_equal (take bi)) in Hfront. rewrite !take_take, Nat.min_l in Hfront by lia.
    by rewrite Hfront, take_insert_ge by lia.
  - rewrite (drop_S hex a ni Ea), (drop_S hex b (S ni) Eb), (drop_S hex' x bi Hx).
    replace (2 * S steps)%nat with (S (S (2 * steps))) by lia. cbn [take replicate decodeNibbles].
    rewrite drop_insert_lt in Hdec by lia. rewrite Hdec. done.
Qed.

(** The in-place variant writes what [hexToCompact] returns into the front of the
    buffer. *)
Lemma hexToCompactInPlace_spec t k : hexkey t k → k ≠ [] →
  ∃ hex' n, hexToCompactInPlace k = Ok (hex', n) ∧ length hex' = length k ∧ hexToCompact k = Ok (take n hex').
Proof.
  intros (body & Hb & ->) Hne. rewrite hexToCompact_body by done. unfold hexToCompactInPlace.
  rewrite (hasTerm_hexkey t) by (by exists body).
  replace (if t then (Z.shiftl 1 5, _) else _) with (if t then 32 else 0, length body).
  2:{ destruct t; [|by rewrite app_nil_r]. by rewrite length_app, Nat.add_sub. }
  destruct body as [|first rest]; [destruct t; [by eexists _, _|done]|].
  set (k := (first :: rest) ++ _). assert (Hk : (length (first :: rest) ≤ length k)%nat).
  { unfold k. rewrite length_app. lia. }
  cbn [app]. change (first :: rest ++ _) with k.
  destruct (length (first :: rest) mod 2 =? 1)%nat eqn:Ep.
  - apply half_odd in Ep. set (m := (length (first :: rest) / 2)%nat) in *. clearbody m.
    destruct (compact_loop_spec m 1 1 k) as (hex' & E & Hlen & Hfront & Hdec); [lia|lia|].
    rewrite E. cbn [mbind result_bind]. eexists _, _. split; [done|]. split; [by rewrite length_insert|].
    replace (take (2 * m) (drop 1 k)) with rest in Hdec.
    2:{ change (drop 1 k) with (rest ++ (if t then [Byte.x10] else [])).
      rewrite take_app_le by (cbn in Ep; lia). by rewrite take_ge by (cbn in Ep; lia). }
    rewrite Hdec. cbn [mbind result_bind]. destruct hex' as [|y hex']; [cbn in Hlen; lia|]. done.
  - apply half_even in Ep. set (m := (length (first :: rest) / 2)%nat) in *. clearbody m.
    destruct (compact_loop_spec m 1 0 k) as (hex' & E & Hlen & Hfront & Hdec); [lia|lia|].
    rewrite E. cbn [mbind result_bind]. eexists _, _. split; [done|]. split; [by rewrite length_insert|].
    replace (take (2 * m) (drop 0 k)) with (first :: rest) in Hdec.
    2:{ rewrite drop_0. unfold k. rewrite take_app_le by lia. by rewrite take_ge by lia. }
    rewrite Hdec. cbn [mbind result_bind]. destruct hex' as [|y hex']; [cbn in Hlen; lia|]. done.
Qed.

(** The key encodings are faithful. The compact form of a hex key, terminated
    or not, is read back exactly; the in-place variant writes the same bytes into
    the front of its buffer although it overwrites what it reads; and plain keys
    survive the way through hex and back, so different keys have different paths. *)
Theorem trie_keys_roundtrip t k :
  hexkey t k →
  (∃ c, hexToCompact k = Ok c ∧ compactToHex c = k) ∧
  (k ≠ [] → ∃ buf n, hexToCompactInPlace k = Ok (buf, n) ∧ hexToCompact k = Ok (take n buf)) ∧
  (∀ s, hexkey true (keybytesToHex s) ∧ hexToKeybytes (keybytesToHex s) = Ok s).
Proof.
  intros Hk. split; [|split].
  - destruct (hexToCompact_spec t k Hk) as (c & Hc & Hr & _). eauto.
  - intros Hne. destruct (hexToCompactInPlace_spec t k Hk Hne) as (buf & n & E & _ & Hc). eauto.
  - intros s. split; [apply keybytesToHex_hexkey|apply hexToKeybytes_keybytesToHex].
Qed.

Lemma trie_keys_roundtrip_witness :
  ∃ c, hexToCompact [Byte.x01; Byte.x02; Byte.x03; Byte.x10] = Ok c ∧
    compactToHex c = [Byte.x01; Byte.x02; Byte.x03; Byte.x10].
Proof.
  apply (trie_keys_roundtrip true [Byte.x01; Byte.x02; Byte.x03; Byte.x10]).
  exists [Byte.x01; Byte.x02; Byte.x03]. split; [|reflexivity]. repeat constructor.
Defined.
