(* ===== verification/Trie.v ===== *)
(** * The Merkle Patricia trie (chain/trie/trie.go, node.go)

    The in-memory nodes and the operations [tryGet], [insert] and [delete] with
    everything they call. A subtree may be present only as a hash; then it is
    loaded from the database, a parameter here. The tracer is nil in this version
    of the code (its construction is commented out), so its calls do nothing. *)

From S2P Require Import Prelude Bytes Text TrieKeys.

(** ** Nodes (node.go) *)

Record nodeFlag := MkFlag { flag_hash : option bytes; dirty : bool }.

(** [nilNode] is the nil interface. *)
Inductive node :=
| nilNode
| shortNode (Key : bytes) (Val : node) (flags : nodeFlag)
| fullNode (Children : list node) (flags : nodeFlag)
| hashNode (h : bytes)
| valueNode (v : bytes).

Definition is_nil (n : node) : bool := match n with nilNode => true | _ => false end.

#[export] Instance nilNode_dec n : Decision (n = nilNode).
Proof. destruct n; [by left|by right..]. Defined.

Lemma is_nil_true n : is_nil n = true ↔ n = nilNode.
Proof. by destruct n. Qed.

(** [cache]. *)
Definition cache (n : node) : option bytes * bool :=
  match n with
  | shortNode _ _ fl | fullNode _ fl => (flag_hash fl, dirty fl)
  | _ => (None, true)
  end.

(** [newFlag]. *)
Definition newFlag : nodeFlag := MkFlag None true.

(** [Children[i]] with the run-time bounds check. *)
Definition child_index (b : byte) : nat := Z.to_nat (b2z b).
Definition child (cs : list node) (b : byte) : result node :=
  match cs !! child_index b with Some c => Ok c | None => Panic "index out of range" end.
Definition set_child (cs : list node) (b : byte) (c : node) : list node := <[child_index b := c]> cs.

Definition no_children : list node := replicate 17 nilNode.

Section Operations.
(** Database.node: nil, or the decoded node; decoding corrupt data panics. *)
Context (db_node : Hash → result (option node)).

(** [resolveHash], [resolve]. *)
Definition resolveHash (h : bytes) : result node :=
  n ← db_node (BytesToHash h);
  match n with
  | Some n => Ok n
  | None => Err (Errorf "missing trie node %x" [BytesToHash h])
  end.
Definition resolve (n : node) : result node :=
  match n with hashNode h => resolveHash h | _ => Ok n end.

(** [tryGet]: the value (nil or bytes), the node with what was loaded, and
    whether anything was. [key[pos:]] is what is left of the key. *)
Fixpoint tryGet (fuel : nat) (n : node) (key : bytes) (pos : nat)
  : result (option bytes * node * bool) :=
  match fuel with
  | O => Panic "out of fuel"
  | S fuel =>
      match n with
      | nilNode => Ok (None, nilNode, false)
      | valueNode v => Ok (Some v, n, false)
      | shortNode k val fl =>
          if (length key - pos <? length k)%nat
             || negb (bool_decide (k = take (length k) (drop pos key)))
          then Ok (None, n, false)
          else
            '(value, newnode, didResolve) ← tryGet fuel val key (pos + length k);
            Ok (value, if (didResolve : bool) then shortNode k newnode fl else n, didResolve)
      | fullNode cs fl =>
          match key !! pos with
          | None => Panic "index out of range"
          | Some b =>
              c ← child cs b;
              '(value, newnode, didResolve) ← tryGet fuel c key (S pos);
              Ok (value, if (didResolve : bool) then fullNode (set_child cs b newnode) fl else n, didResolve)
          end
      | hashNode h =>
          c ← resolveHash h;
          '(value, newnode, _) ← tryGet fuel c key pos;
          Ok (value, newnode, true)
      end
  end.

(** [insert]: whether the node changed, and the new node. *)
Fixpoint insert (fuel : nat) (n : node) (key : bytes) (value : node) : result (bool * node) :=
  match fuel with
  | O => Panic "out of fuel"
  | S fuel =>
      match key with
      | [] =>
          match n, value with
          | valueNode v, valueNode v' => Ok (negb (bool_decide (v = v')), value)
          | valueNode _, _ => Panic "interface conversion"
          | _, _ => Ok (true, value)
          end
      | b :: key' =>
          match n with
          | shortNode k val fl =>
              let matchlen := prefixLen key k in
              if (matchlen =? length k)%nat then
                '(d, nn) ← insert fuel val (drop matchlen key) value;
                if negb d then Ok (false, n) else Ok (true, shortNode k nn newFlag)
              else
                match k !! matchlen, key !! matchlen with
                | Some x, Some y =>
                    '(_, cx) ← insert fuel nilNode (drop (S matchlen) k) val;
                    _ ← child no_children x;
                    let cs := set_child no_children x cx in
                    '(_, cy) ← insert fuel nilNode (drop (S matchlen) key) value;
                    _ ← child cs y;
                    let branch := fullNode (set_child cs y cy) newFlag in
                    if (matchlen =? 0)%nat then Ok (true, branch)
                    else Ok (true, shortNode (take matchlen key) branch newFlag)
                | _, _ => Panic "index out of range"
                end
          | fullNode cs fl =>
              c ← child cs b;
              '(d, nn) ← insert fuel c key' value;
              if negb d then Ok (false, n) else Ok (true, fullNode (set_child cs b nn) newFlag)
          | nilNode => Ok (true, shortNode key value newFlag)
          | hashNode h =>
              rn ← resolveHash h;
              '(d, nn) ← insert fuel rn key value;
              if negb d then Ok (false, rn) else Ok (true, nn)
          | valueNode _ => Panic "invalid node"
          end
      end
  end.

(** The loop of [delete] over the children: the index of the only one that is
    left, or None when there are several (-2) or none (-1). *)
Fixpoint only_child (i : nat) (pos : option nat) (cs : list node) : option nat :=
  match cs with
  | [] => pos
  | c :: cs =>
      if is_nil c then only_child (S i) pos cs
      else match pos with None => only_child (S i) (Some i) cs | Some _ => None end
  end.

(** [delete]: whether anything was removed, and the new node. *)
Fixpoint delete (fuel : nat) (n : node) (key : bytes) : result (bool * node) :=
  match fuel with
  | O => Panic "out of fuel"
  | S fuel =>
      match n with
      | shortNode k val fl =>
          let matchlen := prefixLen key k in
          if (matchlen <? length k)%nat then Ok (false, n)
          else if (matchlen =? length key)%nat then Ok (true, nilNode)
          else
            '(d, c) ← delete fuel val (drop (length k) key);
            if negb d then Ok (false, n)
            else
              match c with
              | shortNode ck cval _ => Ok (true, shortNode (k ++ ck) cval newFlag)
              | _ => Ok (true, shortNode k c newFlag)
              end
      | fullNode cs fl =>
          match key with
          | [] => Panic "index out of range"
          | b :: key' =>
              c ← child cs b;
              '(d, nn) ← delete fuel c key';
              if negb d then Ok (false, n)
              else
                let cs := set_child cs b nn in
                if negb (is_nil nn) then Ok (true, fullNode cs newFlag)
                else
                  match only_child 0 None cs with
                  | Some pos =>
                      let c := default nilNode (cs !! pos) in
                      let one := shortNode [z2b (Z.of_nat pos)] c newFlag in
                      if (pos =? 16)%nat then Ok (true, one)
                      else
                        cnode ← resolve c;
                        match cnode with
                        | shortNode ck cval _ =>
                            Ok (true, shortNode (z2b (Z.of_nat pos) :: ck) cval newFlag)
                        | _ => Ok (true, one)
                        end
                  | None => Ok (true, fullNode cs newFlag)
                  end
          end
      | valueNode _ => Ok (true, nilNode)
      | nilNode => Ok (false, nilNode)
      | hashNode h =>
          rn ← resolveHash h;
          '(d, nn) ← delete fuel rn key;
          if negb d then Ok (false, rn) else Ok (true, nn)
      end
  end.
End Operations.

(** ** The trie (trie.go) *)

Record Trie := MkTrie { tr_root : node; tr_owner : Hash; unhashed : Z }.

Definition emptyRoot : Hash := 0x56e81f171bcc55a6ff8345e692c0f86e5b48e01b996cadc001622fb5e363b421.

(** Enough steps for a key (see [need] in [TrieMap]). *)
Definition key_fuel (k : bytes) : nat := 2 * length k + 2.

Section Trie.
Context (db_node : Hash → result (option node)).

(** [New]. *)
Definition Trie_New (owner root : Hash) : result Trie :=
  if negb (root =? 0) && negb (root =? emptyRoot) then
    rootnode ← resolveHash db_node (hash_bytes root);
    Ok (MkTrie rootnode owner 0)
  else Ok (MkTrie nilNode owner 0).

(** [TryGet]. *)
Definition TryGet (key : bytes) (t : Trie) : result (option bytes) * Trie :=
  let k := keybytesToHex key in
  match tryGet db_node (key_fuel k) (tr_root t) k 0 with
  | Ok (value, newroot, didResolve) =>
      (Ok value, if (didResolve : bool) then MkTrie newroot (tr_owner t) (unhashed t) else t)
  | Err e => (Err e, t)
  | Panic s => (Panic s, t)
  end.

(** [tryUpdate], [TryDelete]: the root changes only when there is no error. *)
Definition replace_root (r : result (bool * node)) (t : Trie) : result unit * Trie :=
  match r with
  | Ok (_, n) => (Ok tt, MkTrie n (tr_owner t) (unhashed t))
  | Err e => (Err e, t)
  | Panic s => (Panic s, t)
  end.
Definition TryDelete (key : bytes) (t : Trie) : result unit * Trie :=
  let t := MkTrie (tr_root t) (tr_owner t) (unhashed t + 1) in
  let k := keybytesToHex key in
  replace_root (delete db_node (key_fuel k) (tr_root t) k) t.
Definition TryUpdate (key value : bytes) (t : Trie) : result unit * Trie :=
  if bool_decide (value = []) then TryDelete key t
  else
    let t := MkTrie (tr_root t) (tr_owner t) (unhashed t + 1) in
    let k := keybytesToHex key in
    replace_root (insert db_node (key_fuel k) (tr_root t) k (valueNode value)) t.
End Trie.
