(* ===== verification/TrieMap.v ===== *)
(** * What a trie stores, and what its operations do to it

    The keys and values under a node, the form the code keeps its nodes in, and
    the behaviour of [tryGet], [insert] and [delete] on both. *)

From S2P Require Import Prelude Bytes Text TrieKeys Trie.

(** ** Contents *)

Section Contents.
Context (db_node : Hash → result (option node)).

(** Under [n], the key [k] has the value [v]. *)
Inductive has : node → bytes → bytes → Prop :=
| has_value v : has (valueNode v) [] v
| has_short k c fl r v : has c r v → has (shortNode k c fl) (k ++ r) v
| has_full cs fl b c r v :
    cs !! child_index b = Some c → has c r v → has (fullNode cs fl) (b :: r) v
| has_hash h n r v : db_node (BytesToHash h) = Ok (Some n) → has n r v → has (hashNode h) r v.

(** The same contents except at [key], where [w] is stored (nothing if None). *)
Definition upd (w : option bytes) (n : node) (key k x : bytes) : Prop :=
  (k = key ∧ w = Some x) ∨ (k ≠ key ∧ has n k x).

(** A node that can be the child of a short node, once it is loaded. *)
Definition not_short (n : node) : Prop :=
  match n with
  | nilNode | shortNode _ _ _ => False
  | hashNode h => ∃ cs fl, db_node (BytesToHash h) = Ok (Some (fullNode cs fl))
  | _ => True
  end.

Definition loaded (n : node) : Prop :=
  match n with shortNode _ _ _ | fullNode _ _ => True | _ => False end.

(** The form the code keeps: [wf true] at the end of a key, [wf false] before.
    Short nodes do not follow each other, full nodes have at least two children,
    hashes can be loaded. *)
Inductive wf : bool → node → Prop :=
| wf_value v : v ≠ [] → wf true (valueNode v)
| wf_short t k c fl : k ≠ [] → hexkey t k → wf t c → not_short c → wf false (shortNode k c fl)
| wf_full cs fl :
    length cs = 17%nat →
    (∀ i c, cs !! i = Some c → c ≠ nilNode → wf (bool_decide (i = 16%nat)) c) →
    (∃ i j ci cj, i ≠ j ∧ cs !! i = Some ci ∧ cs !! j = Some cj ∧ ci ≠ nilNode ∧ cj ≠ nilNode) →
    wf false (fullNode cs fl)
| wf_hash h n : db_node (BytesToHash h) = Ok (Some n) → loaded n → wf false n → wf false (hashNode h).

(** What is left of a key at a node. *)
Definition rest (t : bool) (k : bytes) : Prop := if t then k = [] else hexkey true k.

Lemma has_nil k v : ¬ has nilNode k v.
Proof. intros Hh. inversion Hh. Qed.
Lemma has_value_iff w k v : has (valueNode w) k v ↔ k = [] ∧ v = w.
Proof. split; [intros Hh; by inversion Hh|intros [-> ->]; constructor]. Qed.
Lemma has_short_iff key c fl k v : has (shortNode key c fl) k v ↔ ∃ r, k = key ++ r ∧ has c r v.
Proof. split; [intros Hh; inversion Hh; eauto|intros (r & -> & Hh); by constructor]. Qed.
Lemma has_full_iff cs fl k v : has (fullNode cs fl) k v ↔
  ∃ b r c, k = b :: r ∧ cs !! child_index b = Some c ∧ has c r v.
Proof. split; [intros Hh; inversion Hh; eauto 10|intros (b & r & c & -> & Hc & Hh); by econstructor]. Qed.
Lemma has_hash_iff h n k v : db_node (BytesToHash h) = Ok (Some n) → has (hashNode h) k v ↔ has n k v.
Proof. intros E. split; [intros Hh; inversion Hh; congruence|by apply has_hash]. Qed.

Lemma child_index_inj a b : child_index a = child_index b → a = b.
Proof. unfold child_index. intros E. apply b2z_inj. pose proof (b2z_bound a). pose proof (b2z_bound b). lia. Qed.

Lemma child_index_nibble t b k : hexkey t (b :: k) → (child_index b < 17)%nat ∧ (child_index b = 16%nat ↔ ¬ nibble b).
Proof.
  intros Hk. unfold child_index, nibble. pose proof (b2z_bound b).
  apply hexkey_cons in Hk as [[Hb _]|(_ & -> & _)]; [unfold nibble in Hb; lia|].
  change (b2z Byte.x10) with 16. lia.
Qed.

(** ** Keys *)

Lemma hexkey_app_inv t a b : hexkey t (a ++ b) → b ≠ [] → Forall nibble a ∧ hexkey t b.
Proof.
  induction a as [|x a IH]; intros Hk Hb; [done|]. cbn in Hk.
  apply hexkey_cons in Hk as [[Hx Hk]|(_ & _ & E)].
  - destruct (IH Hk Hb). split; [by constructor|done].
  - by destruct a.
Qed.

Lemma hexkey_false k : hexkey false k ↔ Forall nibble k.
Proof.
  split; [intros (body & Hb & ->); by rewrite app_nil_r|]. intros Hk. exists k. by rewrite app_nil_r.
Qed.

Lemma hexkey_true_false k : hexkey true k → hexkey false k → False.
Proof. intros H1 H2. apply hasTerm_hexkey in H1, H2. congruence. Qed.

Lemma rest_app t a r : hexkey true (a ++ r) → hexkey t a → rest t r.
Proof.
  intros Hk Ha. destruct r as [|b r].
  - rewrite app_nil_r in Hk. destruct t; [done|]. by destruct (hexkey_true_false a).
  - destruct (hexkey_app_inv true a (b :: r) Hk) as [Hn Hr]; [done|]. destruct t; [|done].
    exfalso. apply hexkey_false in Hn. by apply (hexkey_true_false a).
Qed.

Lemma rest_cons b r : hexkey true (b :: r) → rest (bool_decide (child_index b = 16%nat)) r.
Proof.
  intros Hk. destruct (child_index_nibble _ _ _ Hk) as [_ Hi].
  apply hexkey_cons in Hk as [[Hb Hr]|(_ & -> & ->)]; [|done].
  rewrite bool_decide_false; [done|]. tauto.
Qed.

Lemma hexkey_nonempty k : hexkey true k → k ≠ [].
Proof. intros (body & _ & ->). by destruct body. Qed.

Lemma prefixLen_spec a : ∀ b, ∃ p a' b', a = p ++ a' ∧ b = p ++ b' ∧ length p = prefixLen a b ∧
  match a', b' with x :: _, y :: _ => x ≠ y | _, _ => True end.
Proof.
  induction a as [|x a IH]; intros b; [by exists [], [], b|].
  destruct b as [|y b]; [by exists [], (x :: a), []|]. cbn [prefixLen].
  destruct (decide (x = y)) as [->|Hne].
  - rewrite bool_decide_true by done. destruct (IH b) as (p & a' & b' & -> & -> & Hl & Hd).
    exists (y :: p), a', b'. by rewrite <- Hl.
  - rewrite bool_decide_false by done. by exists [], (x :: a), (y :: b).
Qed.

(** Fuel for a key: one step per byte, one more for a node that is loaded. *)
Definition need (n : node) (key : bytes) : nat :=
  S (2 * length key) + match n with hashNode _ => 1 | _ => 0 end.

(** ** Updating below a node *)

Lemma upd_short w key c c' fl fl' r0 :
  (∀ r x, has c' r x ↔ upd w c r0 r x) →
  ∀ k x, has (shortNode key c' fl') k x ↔ upd w (shortNode key c fl) (key ++ r0) k x.
Proof.
  intros Hc k x. unfold upd. rewrite !has_short_iff. split.
  - intros (r & -> & Hr). apply Hc in Hr as [[-> ->]|[Hne Hr]]; [by left|]. right. split; [|eauto].
    intros E. by apply app_inv_head in E.
  - intros [[-> ->]|[Hne (r & -> & Hr)]]; eexists; (split; [done|]); apply Hc; [by left|].
    right. split; [congruence|done].
Qed.

Lemma upd_full w cs b c c' fl fl' r0 :
  cs !! child_index b = Some c → (∀ r x, has c' r x ↔ upd w c r0 r x) →
  ∀ k x, has (fullNode (set_child cs b c') fl') k x ↔ upd w (fullNode cs fl) (b :: r0) k x.
Proof.
  intros Hb Hc k x. unfold upd, set_child. rewrite !has_full_iff.
  assert (Hlt : (child_index b < length cs)%nat) by (by eapply lookup_lt_Some). split.
  - intros (b' & r & d & -> & Hd & Hr). destruct (decide (b' = b)) as [->|Hne].
    + rewrite list_lookup_insert_eq in Hd by done. injection Hd as <-.
      apply Hc in Hr as [[-> ->]|[Hne Hr]]; [by left|]. right. split; [congruence|]. eauto 10.
    + rewrite list_lookup_insert_ne in Hd by (by intros ?%eq_sym%child_index_inj).
      right. split; [congruence|]. eauto 10.
  - intros [[-> ->]|[Hne (b' & r & d & -> & Hd & Hr)]].
    + exists b, r0, c'. rewrite list_lookup_insert_eq by done. split; [done|]. split; [done|]. apply Hc. by left.
    + destruct (decide (b' = b)) as [->|Hb'].
      * exists b, r, c'. rewrite list_lookup_insert_eq by done. split; [done|]. split; [done|]. apply Hc. right.
        split; [congruence|]. congruence.
      * exists b', r, d. rewrite list_lookup_insert_ne by (by intros ?%eq_sym%child_index_inj). done.
Qed.

Lemma upd_hash w h n key k x :
  db_node (BytesToHash h) = Ok (Some n) → upd w (hashNode h) key k x ↔ upd w n key k x.
Proof. intros E. unfold upd. by rewrite (has_hash_iff h n). Qed.

Lemma wf_not_nil t n : wf t n → n ≠ nilNode.
Proof. by intros []. Qed.

(** A child of a full node: nil, or a subtree. *)
Lemma wf_child cs fl b r : wf false (fullNode cs fl) → hexkey true (b :: r) →
  ∃ c, cs !! child_index b = Some c ∧ child cs b = Ok c ∧
    (c = nilNode ∨ wf (bool_decide (child_index b = 16%nat)) c).
Proof.
  intros Hw Hk. inversion Hw as [| |? ? Hl Hc _|]; subst.
  destruct (lookup_lt_is_Some_2 cs (child_index b)) as [c Ec].
  { rewrite Hl. apply (child_index_nibble _ _ _ Hk). }
  exists c. unfold child. rewrite Ec. split; [done|]. split; [done|].
  destruct (decide (c = nilNode)) as [->|Hn]; [by left|right; by apply (Hc _ _ Ec)].
Qed.

Lemma wf_set_child cs fl fl' b c' :
  wf false (fullNode cs fl) → wf (bool_decide (child_index b = 16%nat)) c' →
  wf false (fullNode (set_child cs b c') fl').
Proof.
  intros Hw Hc'. inversion Hw as [| |? ? Hl Hc (i & j & ci & cj & Hij & Ei & Ej & Hi & Hj)|]; subst.
  pose proof (wf_not_nil _ _ Hc') as Hn. unfold set_child. constructor; [by rewrite length_insert| |].
  - intros k c Ek Hne. destruct (decide (k = child_index b)) as [->|Hk].
    + destruct (decide (child_index b < length cs)%nat) as [Hlt|Hge].
      * rewrite list_lookup_insert_eq in Ek by done. by injection Ek as <-.
      * rewrite list_insert_ge in Ek by lia. by apply Hc.
    + rewrite list_lookup_insert_ne in Ek by done. by apply Hc.
  - assert (Hget : ∀ k ck, cs !! k = Some ck → ck ≠ nilNode →
      ∃ ck', <[child_index b := c']> cs !! k = Some ck' ∧ ck' ≠ nilNode).
    { intros k ck Ek Hk. destruct (decide (k = child_index b)) as [->|Hne].
      - exists c'. rewrite list_lookup_insert_eq by (by eapply lookup_lt_Some). done.
      - exists ck. by rewrite list_lookup_insert_ne. }
    destruct (Hget _ _ Ei Hi) as (ci' & Ei' & Hi'), (Hget _ _ Ej Hj) as (cj' & Ej' & Hj').
    by exists i, j, ci', cj'.
Qed.

Lemma loaded_need n k : loaded n → need n k = S (2 * length k).
Proof. destruct n; cbn; try done; lia. Qed.

(** ** [tryGet] *)

Lemma tryGet_spec fuel : ∀ n t key pos,
  n = nilNode ∨ wf t n → (pos ≤ length key)%nat → rest t (drop pos key) →
  (need n (drop pos key) ≤ fuel)%nat →
  ∃ val n' r, tryGet db_node fuel n key pos = Ok (val, n', r) ∧
    (∀ x, val = Some x ↔ has n (drop pos key) x) ∧
    (n = nilNode → n' = nilNode) ∧ (n ≠ nilNode → wf t n') ∧
    (∀ k x, has n' k x ↔ has n k x) ∧ (not_short n → not_short n').
Proof.
  induction fuel as [|fuel IH]; intros n t key pos Hn Hpos Hr Hf; [unfold need in Hf; lia|].
  destruct Hn as [->|Hw].
  { eexists None, nilNode, false. split; [done|]. split; [|done]. intros x. split; [done|by intros ?%has_nil]. }
  inversion Hw as [v Hv|t' k c fl Hk Hhex Hc Hns|cs fl Hl Hcs Htwo|h n' En Hld Hw']; subst; cbn [tryGet].
  - eexists (Some v), _, false. split; [done|]. split; [|done]. cbn in Hr. rewrite Hr.
    intros x. rewrite has_value_iff. naive_solver.
  - destruct (_ || _) eqn:Eb.
    { eexists None, _, false. split; [done|]. split; [|done]. intros x. split; [done|].
      rewrite has_short_iff. intros (r & E & _). exfalso. apply orb_true_iff in Eb as [Eb|Eb].
      - apply Nat.ltb_lt in Eb. apply (f_equal length) in E. rewrite length_drop, length_app in E. lia.
      - apply negb_true_iff, bool_decide_eq_false in Eb. apply Eb. by rewrite E, take_app_length. }
    apply orb_false_iff in Eb as [E1 E2]. apply Nat.ltb_ge in E1. apply negb_false_iff, bool_decide_eq_true in E2.
    assert (Ekey : drop pos key = k ++ drop (pos + length k) key).
    { rewrite <- (take_drop (length k) (drop pos key)), <- E2, drop_drop. done. }
    assert (Hk0 : (0 < length k)%nat) by (destruct k; cbn; [done|lia]).
    destruct (IH c t' key (pos + length k)%nat) as (val & c' & r & E & Hval & _ & Hwc & Heq & Hns').
    + by right.
    + lia.
    + cbn in Hr. rewrite Ekey in Hr. by apply (rest_app t' k).
    + rewrite Ekey in Hf. unfold need in *. rewrite length_app in Hf. destruct c; lia.
    + rewrite E. cbn [mbind result_bind]. eexists _, _, _. split; [done|].
      specialize (Hwc (wf_not_nil _ _ Hc)). specialize (Hns' Hns).
      split; [intros x; rewrite Hval, Ekey, has_short_iff; split; [eauto|]|].
      { intros (r' & Er & Hx). apply app_inv_head in Er as <-. done. }
      split; [done|]. split; [intros _; destruct r; [by econstructor|done]|]. split; [|by destruct r].
      intros k0 x. destruct r; [|done]. rewrite !has_short_iff. setoid_rewrite Heq. done.
  - cbn in Hr. destruct (drop pos key) as [|b rst] eqn:Ed; [by apply hexkey_nonempty in Hr|].
    assert (Eb : key !! pos = Some b) by (by rewrite <- (Nat.add_0_r pos), <- lookup_drop, Ed).
    rewrite Eb. destruct (wf_child _ _ _ _ Hw Hr) as (c & Ec & Ecc & Hc). rewrite Ecc. cbn [mbind result_bind].
    assert (Erst : drop (S pos) key = rst) by (by rewrite (drop_S key b pos Eb) in Ed; injection Ed).
    destruct (IH c (bool_decide (child_index b = 16%nat)) key (S pos)) as (val & c' & r & E & Hval & Hnil & Hwc & Heq & _).
    + done.
    + by apply lookup_lt_Some in Eb.
    + rewrite Erst. by apply rest_cons.
    + rewrite Erst. unfold need in *. cbn [length] in Hf. destruct c; lia.
    + rewrite E. cbn [mbind result_bind]. rewrite Erst in Hval. eexists _, _, _. split; [done|].
      split; [intros x; rewrite Hval, has_full_iff; split; [eauto 10|]|].
      { intros (b' & r' & c2 & [= <- <-] & Ec2 & Hx). congruence. }
      split; [done|]. destruct r; [|done].
      assert (Hset : c = nilNode ∨ wf (bool_decide (child_index b = 16%nat)) c') by (destruct Hc; [by left|right; apply Hwc; by eapply wf_not_nil]).
      assert (Heqf : ∀ k x, has (fullNode (set_child cs b c') fl) k x ↔ has (fullNode cs fl) k x).
      { intros k x. unfold set_child. rewrite !has_full_iff.
        assert (Hlt : (child_index b < length cs)%nat) by (by eapply lookup_lt_Some).
        split; intros (b' & r' & d & -> & Hd & Hx); exists b', r'; destruct (decide (b' = b)) as [->|Hne];
          rewrite ?list_lookup_insert_eq in * by done;
          rewrite ?list_lookup_insert_ne in * by (by intros ?%eq_sym%child_index_inj); eauto.
        - injection Hd as <-. exists c. split; [done|]. split; [done|]. by apply Heq.
        - exists c'. split; [done|]. split; [done|]. apply Heq. congruence. }
      split; [intros _|by split]. destruct Hset as [->|Hset]; [|by eapply wf_set_child].
      rewrite (Hnil eq_refl). unfold set_child. by rewrite list_insert_id.
  - unfold resolveHash. rewrite En. cbn [mbind result_bind].
    destruct (IH n' false key pos) as (val & n2 & r & E & Hval & _ & Hwc & Heq & Hns').
    + by right.
    + done.
    + done.
    + rewrite (loaded_need n') by done. unfold need in Hf. lia.
    + rewrite E. cbn [mbind result_bind]. eexists _, _, _. split; [done|].
      split; [intros x; by rewrite Hval, (has_hash_iff h n')|]. split; [done|].
      split; [intros _; apply Hwc; by eapply wf_not_nil|].
      split; [intros k x; by rewrite Heq, (has_hash_iff h n')|].
      intros (cs & fl & E'). rewrite En in E'. injection E' as ->. by apply Hns'.
Qed.

(** ** [insert] *)

(** What [insert] puts where nothing was. *)
Definition graft (key : bytes) (c : node) : node :=
  match key with [] => c | _ => shortNode key c newFlag end.

Lemma insert_nil fuel key c : insert db_node (S fuel) nilNode key c = Ok (true, graft key c).
Proof. by destruct key. Qed.

Lemma has_graft key c k x : has (graft key c) k x ↔ ∃ r, k = key ++ r ∧ has c r x.
Proof. destruct key; [cbn; naive_solver|apply has_short_iff]. Qed.

Lemma wf_graft key c : Forall nibble key → wf false c → not_short c → wf false (graft key c).
Proof. intros Hk Hw Hn. destruct key; [done|]. econstructor; [done|by apply hexkey_false|done|done]. Qed.

Lemma wf_graft_child t x k c : hexkey t (x :: k) → wf t c → not_short c →
  wf (bool_decide (child_index x = 16%nat)) (graft k c).
Proof.
  intros Hk Hw Hn. destruct (child_index_nibble _ _ _ Hk) as [_ Hi].
  apply hexkey_cons in Hk as [[Hx Hk]|(-> & -> & ->)]; [|done]. rewrite bool_decide_false by tauto.
  destruct k as [|y k]; [|by econstructor]. destruct t; [|done]. by apply hexkey_nonempty in Hk.
Qed.

(** A full node with two children. *)
Definition branch (x y : byte) (cx cy : node) : node :=
  fullNode (set_child (set_child no_children x cx) y cy) newFlag.

Lemma branch_lookup x y cx cy i c :
  x ≠ y → (child_index x < 17)%nat → (child_index y < 17)%nat →
  set_child (set_child no_children x cx) y cy !! i = Some c ↔
  (i = child_index x ∧ c = cx) ∨ (i = child_index y ∧ c = cy) ∨
  (i ≠ child_index x ∧ i ≠ child_index y ∧ (i < 17)%nat ∧ c = nilNode).
Proof.
  intros Hxy Hx Hy. assert (Hi : child_index x ≠ child_index y) by (by intros ?%child_index_inj).
  unfold set_child, no_children. destruct (decide (i = child_index y)) as [->|Hny].
  { rewrite list_lookup_insert_eq by (by rewrite length_insert). naive_solver. }
  rewrite list_lookup_insert_ne by done. destruct (decide (i = child_index x)) as [->|Hnx].
  { rewrite list_lookup_insert_eq by done. naive_solver. }
  rewrite list_lookup_insert_ne by done. rewrite lookup_replicate. naive_solver.
Qed.

Lemma wf_branch x y cx cy :
  x ≠ y → (child_index x < 17)%nat → (child_index y < 17)%nat →
  wf (bool_decide (child_index x = 16%nat)) cx → wf (bool_decide (child_index y = 16%nat)) cy →
  wf false (branch x y cx cy).
Proof.
  intros Hxy Hx Hy Wx Wy. constructor.
  - unfold set_child. by rewrite !length_insert.
  - intros i c Hc Hne. apply branch_lookup in Hc as [[-> ->]|[[-> ->]|(_ & _ & _ & ->)]]; done.
  - exists (child_index x), (child_index y), cx, cy. rewrite !branch_lookup by done.
    split; [by intros ?%child_index_inj|]. split; [by left|]. split; [by right; left|].
    split; by eapply wf_not_nil.
Qed.

Lemma has_branch x y cx cy k z :
  x ≠ y → (child_index x < 17)%nat → (child_index y < 17)%nat →
  has (branch x y cx cy) k z ↔ (∃ r, k = x :: r ∧ has cx r z) ∨ (∃ r, k = y :: r ∧ has cy r z).
Proof.
  intros Hxy Hx Hy. unfold branch. rewrite has_full_iff. setoid_rewrite branch_lookup; [|done..]. split.
  - intros (b & r & c & -> & [[E ->]|[[E ->]|(_ & _ & _ & ->)]] & Hr); [| |by apply has_nil in Hr];
      apply child_index_inj in E as ->; eauto.
  - intros [(r & -> & Hr)|(r & -> & Hr)]; eexists _, _, _; (split; [done|]); naive_solver.
Qed.

(** A short node that splits. *)
Lemma split_short t p x y k' key' val fl v :
  x ≠ y → hexkey t (p ++ x :: k') → hexkey true (p ++ y :: key') → wf t val → not_short val → v ≠ [] →
  let new := graft p (branch x y (graft k' val) (graft key' (valueNode v))) in
  wf false new ∧ (p = [] → not_short new) ∧
  ∀ k z, has new k z ↔ upd (Some v) (shortNode (p ++ x :: k') val fl) (p ++ y :: key') k z.
Proof.
  intros Hxy Hk Hkey Hw Hn Hv new.
  apply hexkey_app_inv in Hk as [Hp Hk]; [|done]. apply hexkey_app_inv in Hkey as [_ Hkey]; [|done].
  assert (Hx : (child_index x < 17)%nat) by apply (child_index_nibble _ _ _ Hk).
  assert (Hy : (child_index y < 17)%nat) by apply (child_index_nibble _ _ _ Hkey).
  split; [|split].
  - apply wf_graft; [done| |done]. apply wf_branch; [done..| |].
    + by apply (wf_graft_child t).
    + by apply (wf_graft_child true); [|constructor|].
  - intros ->. done.
  - intros k z. unfold new, upd. rewrite has_graft. setoid_rewrite has_branch; [|done..].
    setoid_rewrite has_graft. rewrite has_short_iff. setoid_rewrite has_value_iff. split.
    + intros (r & -> & [(r' & -> & s & -> & Hs)|(r' & -> & s & -> & -> & ->)]).
      * right. split; [intros E; apply app_inv_head in E; congruence|]. exists s. by rewrite <- app_assoc.
      * left. by rewrite app_nil_r.
    + intros [[-> [= <-]]|[Hne (s & -> & Hs)]]; eexists; rewrite <- ?app_assoc; (split; [done|]).
      * right. exists key'. split; [done|]. exists []. by rewrite app_nil_r.
      * left. eexists. split; [done|]. by exists s.
Qed.

(** The result of [insert] at a node: the new subtree, whose contents are
    updated; when it reports no change there was none to make. *)
Definition inserted (t : bool) (n : node) (key v : bytes) (r : result (bool * node)) : Prop :=
  ∃ d n', r = Ok (d, n') ∧ wf t n' ∧ (not_short n → not_short n') ∧
    (∀ k x, has n' k x ↔ upd (Some v) n key k x) ∧
    (d = false → ∀ k x, has n k x ↔ upd (Some v) n key k x).

Lemma insert_short fuel t k c fl key v :
  (∀ n t key, n = nilNode ∨ wf t n → rest t key → (need n key ≤ fuel)%nat →
     inserted t n key v (insert db_node fuel n key (valueNode v))) →
  v ≠ [] → hexkey true key → (need (shortNode k c fl) key ≤ S fuel)%nat →
  k ≠ [] → hexkey t k → wf t c → not_short c →
  inserted false (shortNode k c fl) key v (insert db_node (S fuel) (shortNode k c fl) key (valueNode v)).
Proof.
  intros IH Hv Hkey Hf Hk Hhex Hc Hns.
  assert (Hw : wf false (shortNode k c fl)) by (by econstructor).
  destruct (prefixLen_spec key k) as (p & key' & k' & Ekey & Ek & Hp & Hd).
  cbn [insert]. destruct key as [|b0 key0]; [by apply hexkey_nonempty in Hkey|].
  set (key := b0 :: key0) in *. rewrite <- Hp. destruct k' as [|x k'].
  - rewrite app_nil_r in Ek. subst p. rewrite Nat.eqb_refl. rewrite Ekey in Hkey |- *.
    rewrite drop_app_length. assert (Hr : rest t key') by (by apply (rest_app t k)).
    destruct (IH c t key') as (d & c' & E & Hc' & Hn' & Hu & Hsame); [by right|done| |].
    { rewrite Ekey in Hf. unfold need in *. rewrite length_app in Hf. destruct k; [done|]. cbn in Hf. destruct c; lia. }
    rewrite E. cbn [mbind result_bind]. specialize (Hn' Hns). destruct d; cbn [negb].
    + eexists true, _. split; [done|]. split; [by econstructor|]. split; [done|]. split; [|done].
      by apply upd_short.
    + assert (Hs : ∀ k0 x, has (shortNode k c fl) k0 x ↔ upd (Some v) (shortNode k c fl) (k ++ key') k0 x)
        by (apply upd_short; by apply Hsame).
      eexists false, _. split; [done|]. split; [done|]. done.
  - destruct key' as [|y key'].
    { (* the key would end inside a node's key *)
      exfalso. rewrite app_nil_r in Ekey. rewrite Ek, <- Ekey in Hhex.
      apply hexkey_app_inv in Hhex as [Hn _]; [|done]. apply (hexkey_true_false key); [done|by apply hexkey_false]. }
    rewrite Ek. destruct (Nat.eqb_spec (length p) (length (p ++ x :: k'))) as [E|_].
    { rewrite length_app in E. cbn in E. lia. }
    rewrite lookup_app_r, Nat.sub_diag by lia. rewrite Ekey, lookup_app_r, Nat.sub_diag by lia. cbn [lookup list_lookup].
    rewrite Ek in Hhex. rewrite Ekey in Hkey, Hf. destruct fuel as [|fuel]; [unfold need in Hf; rewrite length_app in Hf; cbn in Hf; lia|].
    replace (drop (S (length p)) (p ++ x :: k')) with k' by (by rewrite <- Nat.add_1_r, <- drop_drop, drop_app_length).
    replace (drop (S (length p)) (p ++ y :: key')) with key' by (by rewrite <- Nat.add_1_r, <- drop_drop, drop_app_length).
    rewrite !insert_nil. cbn [mbind result_bind].
    destruct (hexkey_app_inv t p (x :: k') Hhex) as [_ Hx]; [done|]. destruct (hexkey_app_inv true p (y :: key') Hkey) as [_ Hy]; [done|].
    apply child_index_nibble in Hx as [Hx _]. apply child_index_nibble in Hy as [Hy _].
    assert (Ecx : child no_children x = Ok nilNode).
    { unfold child, no_children. by rewrite (lookup_replicate_2 17 nilNode). }
    rewrite Ecx. cbn [mbind result_bind].
    assert (Ecy : child (set_child no_children x (graft k' c)) y = Ok nilNode).
    { unfold child, set_child, no_children. rewrite list_lookup_insert_ne by (by intros ?%child_index_inj).
      by rewrite (lookup_replicate_2 17 nilNode). }
    rewrite Ecy. cbn [mbind result_bind]. fold (branch x y (graft k' c) (graft key' (valueNode v))).
    destruct (split_short t p x y k' key' c fl v) as (Hwn & _ & Hu); [by apply not_eq_sym|done..|].
    destruct p as [|p0 p].
    + eexists true, _. split; [done|]. split; [exact Hwn|]. split; [done|]. split; [exact Hu|done].
    + rewrite take_app_length. eexists true, _. split; [done|]. split; [exact Hwn|]. split; [done|]. split; [exact Hu|done].
Qed.

Lemma insert_spec fuel v : v ≠ [] → ∀ n t key,
  n = nilNode ∨ wf t n → rest t key → (need n key ≤ fuel)%nat →
  inserted t n key v (insert db_node fuel n key (valueNode v)).
Proof.
  intros Hv. induction fuel as [|fuel IH]; intros n t key Hn Hr Hf; [unfold need in Hf; lia|].
  destruct Hn as [->|Hw].
  { rewrite insert_nil. eexists true, _. split; [done|]. split; [|split; [done|split; [|done]]].
    - destruct t; cbn in Hr; [subst; by constructor|]. destruct key; [by apply hexkey_nonempty in Hr|].
      by apply (wf_short true); [|done|constructor|].
    - intros k x. unfold upd. rewrite has_graft. setoid_rewrite has_value_iff. split.
      + intros (r & -> & -> & ->). left. by rewrite app_nil_r.
      + intros [[-> [= <-]]|[_ Hx]]; [exists []; by rewrite app_nil_r|by apply has_nil in Hx]. }
  inversion Hw as [w Hwv|t' k c fl Hk Hhex Hc Hns|cs fl Hl Hcs Htwo|h n' En Hld Hw']; subst; cbn in Hr.
  - subst key. cbn [insert]. eexists _, _. split; [done|]. split; [by constructor|]. split; [done|]. unfold upd.
    setoid_rewrite has_value_iff. split; [naive_solver|].
    intros Hd. apply negb_false_iff, bool_decide_eq_true in Hd as ->. naive_solver.
  - by eapply insert_short.
  - cbn [insert]. destruct key as [|b key]; [by apply hexkey_nonempty in Hr|].
    destruct (wf_child _ _ _ _ Hw Hr) as (c & Ec & Ecc & Hc). rewrite Ecc. cbn [mbind result_bind].
    destruct (IH c (bool_decide (child_index b = 16%nat)) key) as (d & c' & E & Hc' & _ & Hu & Hsame); [done| | |].
    + by apply rest_cons.
    + unfold need in *. cbn [length] in Hf. destruct c; lia.
    + rewrite E. cbn [mbind result_bind]. destruct d; cbn [negb].
      * eexists true, _. split; [done|]. split; [by eapply wf_set_child|]. split; [done|]. split; [|done].
        by eapply upd_full.
      * assert (Hs : ∀ k0 x, has (fullNode cs fl) k0 x ↔ upd (Some v) (fullNode cs fl) (b :: key) k0 x).
        { intros k0 x. rewrite <- (upd_full (Some v) cs b c c fl fl key Ec (Hsame eq_refl)).
          unfold set_child. by rewrite list_insert_id. }
        eexists false, _. split; [done|]. split; [done|]. done.
  - cbn [insert]. destruct key as [|b key]; [by apply hexkey_nonempty in Hr|]. set (ks := b :: key) in *.
    unfold resolveHash. rewrite En. cbn [mbind result_bind].
    destruct (IH n' false ks) as (d & n2 & E & Hw2 & Hn2 & Hu & Hsame); [by right|done| |].
    { rewrite (loaded_need n') by done. unfold need in Hf. lia. }
    rewrite E. cbn [mbind result_bind]. assert (Hu' : ∀ k x, has n2 k x ↔ upd (Some v) (hashNode h) ks k x).
    { intros k x. by rewrite Hu, (upd_hash (Some v) h n'). }
    destruct d; cbn [negb].
    + eexists true, n2. split; [done|]. split; [done|]. split; [|done].
      intros (cs & fl & E'). rewrite En in E'. injection E' as ->. by apply Hn2.
    + eexists false, n'. split; [done|]. split; [done|]. split.
      { intros (cs & fl & E'). rewrite En in E'. by injection E' as ->. }
      assert (Hs : ∀ k x, has n' k x ↔ upd (Some v) (hashNode h) ks k x).
      { intros k x. by rewrite (upd_hash (Some v) h n'), <- Hsame. }
      split; [exact Hs|]. intros _ k x. by rewrite (has_hash_iff h n').
Qed.

(** ** [delete] *)

Lemma only_child_spec cs : ∀ i pos,
  match only_child i pos cs with
  | Some q =>
      (pos = Some q ∧ ∀ j c, cs !! j = Some c → c = nilNode) ∨
      (pos = None ∧ ∃ j c, q = (i + j)%nat ∧ cs !! j = Some c ∧ c ≠ nilNode ∧
         ∀ j' c', cs !! j' = Some c' → j' ≠ j → c' = nilNode)
  | None =>
      (pos = None ∧ ∀ j c, cs !! j = Some c → c = nilNode) ∨
      (pos ≠ None ∧ ∃ j c, cs !! j = Some c ∧ c ≠ nilNode) ∨
      (∃ j j' c c', j ≠ j' ∧ cs !! j = Some c ∧ cs !! j' = Some c' ∧ c ≠ nilNode ∧ c' ≠ nilNode)
  end.
Proof.
  induction cs as [|c cs IH]; intros i pos; cbn [only_child].
  { destruct pos as [q|]; left; (split; [done|]); intros j c Hj; by rewrite lookup_nil in Hj. }
  destruct (is_nil c) eqn:En.
  - apply is_nil_true in En as ->. specialize (IH (S i) pos). destruct (only_child (S i) pos cs) as [q|].
    + destruct IH as [[-> Hall]|(-> & j & c & -> & Ej & Hc & Hall)]; [left|right]; (split; [done|]).
      * intros [|j] c Hj; [by injection Hj as <-|by eapply Hall].
      * exists (S j), c. split; [lia|]. split; [done|]. split; [done|].
        intros [|j'] c' Hj' Hne; [by injection Hj' as <-|eapply Hall; [done|lia]].
    + destruct IH as [[-> Hall]|[(Hp & j & c & Ej & Hc)|(j & j' & c & c' & Hne & Ej & Ej' & Hc & Hc')]].
      * left. split; [done|]. intros [|j] c Hj; [by injection Hj as <-|by eapply Hall].
      * right. left. split; [done|]. by exists (S j), c.
      * right. right. exists (S j), (S j'), c, c'. split; [lia|done].
  - assert (Hc : c ≠ nilNode) by (intros ->; done). destruct pos as [q|].
    { right. left. split; [done|]. by exists 0%nat, c. }
    specialize (IH (S i) (Some i)). destruct (only_child (S i) (Some i) cs) as [q|].
    + destruct IH as [[[= <-] Hall]|[? _]]; [|done]. right. split; [done|]. exists 0%nat, c.
      split; [lia|]. split; [done|]. split; [done|]. intros [|j'] c' Hj' Hne; [done|by eapply Hall].
    + destruct IH as [[? _]|[(_ & j & d & Ej & Hd)|(j & j' & d & d' & Hne & Ej & Ej' & Hd & Hd')]]; [done| |].
      * right. right. by exists 0%nat, (S j), c, d.
      * right. right. exists (S j), (S j'), d, d'. split; [lia|done].
Qed.

(** Full once it is loaded. *)
Definition branching (n : node) : Prop :=
  match n with
  | fullNode _ _ => True
  | hashNode h => ∃ cs fl, db_node (BytesToHash h) = Ok (Some (fullNode cs fl))
  | _ => False
  end.

(** The result of [delete] at a node. *)
Definition deleted (t : bool) (n : node) (key : bytes) (r : result (bool * node)) : Prop :=
  ∃ d n', r = Ok (d, n') ∧ (n' = nilNode ∨ wf t n') ∧
    (∀ k x, has n' k x ↔ upd None n key k x) ∧
    (d = false → ∀ k x, has n k x ↔ upd None n key k x) ∧
    (d = true → branching n → loaded n').

(** Joining the keys of a short node and of its child. *)
Lemma has_join k ck cval fl fl' fl2 q x :
  has (shortNode (k ++ ck) cval fl) q x ↔ has (shortNode k (shortNode ck cval fl2) fl') q x.
Proof.
  rewrite !has_short_iff. setoid_rewrite has_short_iff. split.
  - intros (r & -> & Hr). exists (ck ++ r). rewrite <- app_assoc. eauto.
  - intros (r & -> & s & -> & Hs). exists s. by rewrite app_assoc.
Qed.

Lemma wf_join k ck cval fl fl' :
  Forall nibble k → wf false (shortNode ck cval fl') → wf false (shortNode (k ++ ck) cval fl).
Proof.
  intros Hk Hw. inversion Hw as [|t ? ? ? Hck Hhex Hc Hn| |]; subst.
  apply (wf_short t); [by destruct k| |done|done].
  destruct Hhex as (body & Hb & ->). exists (k ++ body). rewrite app_assoc. split; [by apply Forall_app|done].
Qed.

Lemma index_byte i : (i < 17)%nat → child_index (z2b (Z.of_nat i)) = i.
Proof. intros Hi. unfold child_index. rewrite b2z_z2b, Z.mod_small by lia. lia. Qed.

Lemma index_nibble i : (i < 16)%nat → nibble (z2b (Z.of_nat i)).
Proof. intros Hi. unfold nibble. rewrite b2z_z2b, Z.mod_small by lia. lia. Qed.

(** The reduction of a full node after one of its children was removed. *)
Lemma reduce_full cs b fl :
  wf false (fullNode cs fl) → (child_index b < 17)%nat →
  (∀ i c, set_child cs b nilNode !! i = Some c → c ≠ nilNode → wf (bool_decide (i = 16%nat)) c) ∧
  ∃ i c, set_child cs b nilNode !! i = Some c ∧ c ≠ nilNode.
Proof.
  intros Hw Hb. inversion Hw as [| |? ? Hl Hc (i & j & ci & cj & Hij & Ei & Ej & Hi & Hj)|]; subst.
  unfold set_child. split.
  - intros k c Ek Hne. destruct (decide (k = child_index b)) as [->|Hk].
    + rewrite list_lookup_insert_eq in Ek by lia. congruence.
    + rewrite list_lookup_insert_ne in Ek by done. by apply Hc.
  - destruct (decide (i = child_index b)) as [->|Hib].
    + exists j, cj. by rewrite list_lookup_insert_ne.
    + exists i, ci. by rewrite list_lookup_insert_ne.
Qed.

Lemma has_only cs fl fl' pos c k x :
  (pos < 17)%nat → cs !! pos = Some c → (∀ j d, cs !! j = Some d → j ≠ pos → d = nilNode) →
  has (shortNode [z2b (Z.of_nat pos)] c fl') k x ↔ has (fullNode cs fl) k x.
Proof.
  intros Hp Ec Hall. rewrite has_short_iff, has_full_iff. split.
  - intros (r & -> & Hr). eexists _, r, c. split; [done|]. by rewrite index_byte.
  - intros (b & r & d & -> & Ed & Hr). destruct (decide (child_index b = pos)) as [<-|Hne].
    + exists r. replace (z2b _) with b; [split; [done|congruence]|].
      apply child_index_inj. by rewrite index_byte.
    + rewrite (Hall _ _ Ed Hne) in Hr. by apply has_nil in Hr.
Qed.

(** A single remaining child becomes a short node, merged with it if it is one. *)
Lemma collapse_spec cs fl pos c :
  (pos < 17)%nat → cs !! pos = Some c → (∀ j d, cs !! j = Some d → j ≠ pos → d = nilNode) →
  wf (bool_decide (pos = 16%nat)) c →
  ∃ n', (let one := shortNode [z2b (Z.of_nat pos)] c newFlag in
         if (pos =? 16)%nat then Ok (true, one)
         else cnode ← resolve db_node c;
              match cnode with
              | shortNode ck cval _ => Ok (true, shortNode (z2b (Z.of_nat pos) :: ck) cval newFlag)
              | _ => Ok (true, one)
              end) = Ok (true, n') ∧
    wf false n' ∧ loaded n' ∧ ∀ k x, has n' k x ↔ has (fullNode cs fl) k x.
Proof.
  intros Hp Ec Hall Hc. pose proof (has_only cs fl newFlag pos c) as Hone. cbn zeta.
  destruct (Nat.eqb_spec pos 16) as [->|Hne].
  { eexists. split; [done|]. split; [|split; [done|intros k x; by apply Hone]].
    rewrite bool_decide_true in Hc by done. inversion Hc; subst. apply (wf_short true); [done| |done|done].
    by exists []. }
  rewrite bool_decide_false in Hc by done. assert (Hn : nibble (z2b (Z.of_nat pos))) by (apply index_nibble; lia).
  assert (Hmerge : ∀ ck cval fl2, (∀ k x, has c k x ↔ has (shortNode ck cval fl2) k x) → wf false (shortNode ck cval fl2) →
    wf false (shortNode (z2b (Z.of_nat pos) :: ck) cval newFlag) ∧ loaded (shortNode (z2b (Z.of_nat pos) :: ck) cval newFlag) ∧
    ∀ k x, has (shortNode (z2b (Z.of_nat pos) :: ck) cval newFlag) k x ↔ has (fullNode cs fl) k x).
  { intros ck cval fl2 Heq Hw. split; [|split; [done|]].
    - apply (wf_join [z2b (Z.of_nat pos)] ck cval newFlag fl2); [by constructor|done].
    - intros k x. rewrite <- Hone by done.
      rewrite (has_join [z2b (Z.of_nat pos)] ck cval newFlag newFlag fl2), !has_short_iff.
      setoid_rewrite Heq. done. }
  assert (Hkeep : not_short c → wf false (shortNode [z2b (Z.of_nat pos)] c newFlag) ∧
    loaded (shortNode [z2b (Z.of_nat pos)] c newFlag) ∧
    ∀ k x, has (shortNode [z2b (Z.of_nat pos)] c newFlag) k x ↔ has (fullNode cs fl) k x).
  { intros Hns. split; [|split; [done|intros k x; by apply Hone]].
    apply (wf_short false); [done|apply hexkey_false; by constructor|done|done]. }
  inversion Hc as [|t2 ck cval fl2 ? ? ? ?|ccs fl2 ? ? ?|h n' En Hld Hw']; subst; cbn [resolve mbind result_bind].
  - eexists. split; [done|]. by apply (Hmerge _ _ fl2).
  - eexists. split; [done|]. by apply Hkeep.
  - unfold resolveHash. rewrite En. cbn [mbind result_bind].
    assert (Heq : ∀ k x, has (hashNode h) k x ↔ has n' k x) by (intros k x; by apply has_hash_iff).
    destruct n' as [|ck cval fl2|ccs fl2| |]; try done.
    + eexists. split; [done|]. by apply (Hmerge _ _ fl2).
    + eexists. split; [done|]. apply Hkeep. by eexists _, _.
Qed.

Lemma delete_full fuel cs fl b key :
  (∀ n t key, n = nilNode ∨ wf t n → rest t key → (need n key ≤ fuel)%nat →
     deleted t n key (delete db_node fuel n key)) →
  wf false (fullNode cs fl) → hexkey true (b :: key) → (need (fullNode cs fl) (b :: key) ≤ S fuel)%nat →
  deleted false (fullNode cs fl) (b :: key) (delete db_node (S fuel) (fullNode cs fl) (b :: key)).
Proof.
  intros IH Hw Hr Hf. cbn [delete].
  destruct (wf_child _ _ _ _ Hw Hr) as (c & Ec & Ecc & Hc). rewrite Ecc. cbn [mbind result_bind].
  destruct (IH c (bool_decide (child_index b = 16%nat)) key) as (d & c' & E & Hc' & Hu & Hsame & _); [done| | |].
  { by apply rest_cons. }
  { unfold need in *. cbn [length] in Hf. destruct c; lia. }
  rewrite E. cbn [mbind result_bind]. destruct d; cbn [negb].
  2:{ assert (Hs : ∀ k0 x, has (fullNode cs fl) k0 x ↔ upd None (fullNode cs fl) (b :: key) k0 x).
      { intros k0 x. rewrite <- (upd_full None cs b c c fl fl key Ec (Hsame eq_refl)).
        unfold set_child. by rewrite list_insert_id. }
      eexists false, _. split; [done|]. split; [by right|]. done. }
  assert (Huf : ∀ k x, has (fullNode (set_child cs b c') newFlag) k x ↔ upd None (fullNode cs fl) (b :: key) k x)
    by (by eapply upd_full).
  destruct (is_nil c') eqn:En; cbn [negb].
  2:{ eexists true, _. split; [done|]. split; [right; eapply wf_set_child; [done|]|done].
      destruct Hc' as [->|]; done. }
  apply is_nil_true in En as ->.
  assert (Hb : (child_index b < 17)%nat) by apply (child_index_nibble _ _ _ Hr).
  destruct (reduce_full cs b fl Hw Hb) as [Hwf (i & ci & Ei & Hi)].
  assert (Hl : length (set_child cs b nilNode) = 17%nat).
  { inversion Hw. unfold set_child. by rewrite length_insert. }
  pose proof (only_child_spec (set_child cs b nilNode) 0 None) as Hone.
  destruct (only_child 0 None (set_child cs b nilNode)) as [pos|].
  - destruct Hone as [[? _]|(_ & j & c2 & -> & Ej & Hc2 & Hall)]; [done|]. cbn [Nat.add]. rewrite Ej. cbn [default].
    destruct (collapse_spec (set_child cs b nilNode) newFlag j c2) as (n' & En' & Hwn & Hld & Hh); [|done..| |].
    { apply lookup_lt_Some in Ej. lia. }
    { by apply (Hwf j). }
    unfold id. cbn zeta in En'. rewrite En'. eexists true, n'. split; [done|]. split; [by right|]. split; [|done].
    intros k x. by rewrite Hh.
  - destruct Hone as [[_ Hall]|[[? _]|(j & j' & d & d' & Hne & Ej & Ej' & Hd & Hd')]]; [|done|].
    + by destruct Hi; eapply Hall.
    + eexists true, _. split; [done|]. split; [right; constructor; [done|done|by exists j, j', d, d']|]. done.
Qed.

Lemma delete_short fuel t k c fl key :
  (∀ n t key, n = nilNode ∨ wf t n → rest t key → (need n key ≤ fuel)%nat →
     deleted t n key (delete db_node fuel n key)) →
  hexkey true key → (need (shortNode k c fl) key ≤ S fuel)%nat →
  k ≠ [] → hexkey t k → wf t c → not_short c →
  deleted false (shortNode k c fl) key (delete db_node (S fuel) (shortNode k c fl) key).
Proof.
  intros IH Hkey Hf Hk Hhex Hc Hns.
  assert (Hw : wf false (shortNode k c fl)) by (by econstructor).
  destruct (prefixLen_spec key k) as (p & key' & k' & Ekey & Ek & Hp & Hd). cbn [delete]. rewrite <- Hp.
  destruct k' as [|x k'].
  2:{ destruct (Nat.ltb_spec (length p) (length k)) as [_|Hge]; [|rewrite Ek, length_app in Hge; cbn in Hge; lia].
      assert (Hs : ∀ q z, has (shortNode k c fl) q z ↔ upd None (shortNode k c fl) key q z).
      { intros q z. unfold upd. split; [|intros [[_ ?]|[_ ?]]; done]. intros Hq. right. split; [|done].
        intros ->. apply has_short_iff in Hq as (r & E & _). rewrite Ekey, Ek, <- app_assoc in E.
        apply app_inv_head in E. destruct key' as [|y key']; [done|]. by injection E. }
      eexists false, _. split; [done|]. split; [by right|]. done. }
  rewrite app_nil_r in Ek. subst p. rewrite Nat.ltb_irrefl. rewrite Ekey in Hkey, Hf |- *.
  assert (Hr : rest t key') by (by apply (rest_app t k)).
  destruct (Nat.eqb_spec (length k) (length (k ++ key'))) as [E|Hne].
  { assert (key' = []) as -> by (rewrite length_app in E; destruct key'; [done|cbn in E; lia]).
    destruct t; [|by apply hexkey_nonempty in Hr]. inversion Hc as [v Hv| | |]; subst.
    eexists true, nilNode. split; [done|]. split; [by left|]. split; [|done].
    intros q z. rewrite app_nil_r. unfold upd. rewrite has_short_iff. setoid_rewrite has_value_iff. split; [by intros ?%has_nil|].
    intros [[_ ?]|[Hq (r & -> & -> & _)]]; [done|]. by rewrite app_nil_r in Hq. }
  rewrite drop_app_length.
  assert (Ht : t = false). { destruct t; [|done]. cbn in Hr. subst key'. by rewrite app_nil_r in Hne. } subst t.
  assert (Hbr : branching c). { by inversion Hc; subst. }
  destruct (IH c false key') as (d & c' & E & Hc' & Hu & Hsame & Hld); [by right|done| |].
  { unfold need in *. rewrite length_app in Hf. destruct k; [done|]. cbn in Hf. destruct c; lia. }
  rewrite E. cbn [mbind result_bind]. destruct d; cbn [negb].
  2:{ assert (Hs : ∀ k0 x, has (shortNode k c fl) k0 x ↔ upd None (shortNode k c fl) (k ++ key') k0 x)
        by (apply upd_short; by apply Hsame).
      eexists false, _. split; [done|]. split; [by right|]. done. }
  specialize (Hld eq_refl Hbr). pose proof (upd_short None k c c' fl newFlag key' Hu) as Hus.
  destruct Hc' as [->|Hc']; [done|]. apply hexkey_false in Hhex.
  destruct c' as [|ck cval cfl|ccs cfl| |]; try done.
  - eexists true, _. split; [done|]. split; [right; by eapply wf_join|]. split; [|done].
    intros q z. by rewrite (has_join k ck cval newFlag newFlag cfl).
  - eexists true, _. split; [done|]. split; [right|done].
    apply (wf_short false); [done|by apply hexkey_false|done|done].
Qed.

Lemma delete_spec fuel : ∀ n t key,
  n = nilNode ∨ wf t n → rest t key → (need n key ≤ fuel)%nat →
  deleted t n key (delete db_node fuel n key).
Proof.
  induction fuel as [|fuel IH]; intros n t key Hn Hr Hf; [unfold need in Hf; lia|].
  destruct Hn as [->|Hw].
  { assert (Hs : ∀ k x, has nilNode k x ↔ upd None nilNode key k x).
    { intros k x. unfold upd. split; [by intros ?%has_nil|by intros [[_ ?]|[_ ?]]]. }
    eexists false, nilNode. split; [done|]. split; [by left|]. done. }
  inversion Hw as [w Hwv|t' k c fl Hk Hhex Hc Hns|cs fl Hl Hcs Htwo|h n' En Hld Hw']; subst; cbn in Hr.
  - subst key. eexists true, nilNode. split; [done|]. split; [by left|]. split; [|done].
    intros k x. unfold upd. rewrite has_value_iff. split; [by intros ?%has_nil|]. naive_solver.
  - by eapply delete_short.
  - destruct key as [|b key]; [by apply hexkey_nonempty in Hr|]. by apply delete_full.
  - cbn [delete]. unfold resolveHash. rewrite En. cbn [mbind result_bind].
    destruct (IH n' false key) as (d & n2 & E & Hw2 & Hu & Hsame & Hld2); [by right|done| |].
    { rewrite (loaded_need n') by done. unfold need in Hf. lia. }
    rewrite E. cbn [mbind result_bind]. destruct d; cbn [negb].
    + eexists true, n2. split; [done|]. split; [done|].
      split; [intros k x; by rewrite Hu, (upd_hash None h n')|]. split; [done|].
      intros _ (cs & fl & E'). rewrite En in E'. injection E' as ->. by apply Hld2.
    + assert (Hs : ∀ k x, has n' k x ↔ upd None (hashNode h) key k x).
      { intros k x. by rewrite (upd_hash None h n'), <- Hsame. }
      eexists false, n'. split; [done|]. split; [by right|]. split; [exact Hs|]. split; [|done].
      intros _ k x. by rewrite (has_hash_iff h n').
Qed.
End Contents.
