(* ===== verification/TrieHash.v ===== *)
(** * Root hashes (chain/trie/hasher.go, node_enc.go)

    The encoding of nodes, the hasher with the hashes it caches in them, and
    [Hash]; that caching and the order of updates do not show in the root. *)

From S2P Require Import Prelude Bytes Rlp Types Text TrieKeys Trie TrieMap.

(** ** Encoding (node_enc.go) *)

(** [encode] into the buffer of an encoder. *)
Definition EmptyString : bytes := [Byte.x80].
Fixpoint node_encode (n : node) (w : encBuffer) : result encBuffer :=
  match n with
  | nilNode => Ok (eb_Write EmptyString w)
  | hashNode b | valueNode b => Ok (writeBytes b w)
  | shortNode k v _ =>
      let '(offset, w) := eb_list w in
      w ← node_encode v (writeBytes k w);
      eb_listEnd offset w
  | fullNode cs _ =>
      let '(offset, w) := eb_list w in
      w ← (fix children (cs : list node) (w : encBuffer) : result encBuffer :=
             match cs with
             | [] => Ok w
             | c :: cs => w ← node_encode c w; children cs w
             end) cs w;
      eb_listEnd offset w
  end.

(** [nodeToBytes]. The index given to ListEnd is in range, so there is a result. *)
Definition nodeToBytes (n : node) : bytes :=
  match node_encode n emptyBuffer with Ok w => makeBytes w | _ => [] end.

(** ** The hasher (hasher.go) *)

Section Hasher.
Context `{Crypto}.

(** [hashData]. *)
Definition hashData (data : bytes) : bytes := hash_bytes (keccak256 data).

(** [shortnodeToHash], [fullnodeToHash]. *)
Definition toHash (collapsed : node) (force : bool) : node :=
  let enc := nodeToBytes collapsed in
  if (length enc <? 32)%nat && negb force then collapsed else hashNode (hashData enc).

(** [cached.flags.hash = hn] *)
Definition cache_hash (hashed : node) (fl : nodeFlag) : nodeFlag :=
  MkFlag (match hashed with hashNode h => Some h | _ => None end) (dirty fl).

Definition compact_key (k : bytes) : bytes := match hexToCompact k with Ok c => c | _ => [] end.

(** [hash]: the collapsed node or its hash, and the node with its hash cached.
    With [parallel] the children are hashed by goroutines, with the same result. *)
Fixpoint hash (n : node) (force : bool) : node * node :=
  match cache n with
  | (Some h, _) => (hashNode h, n)
  | (None, _) =>
      match n with
      | shortNode k v fl =>
          let '(cv, kv) :=
            match v with shortNode _ _ _ | fullNode _ _ => hash v false | _ => (v, v) end in
          let hashed := toHash (shortNode (compact_key k) cv fl) force in
          (hashed, shortNode k kv (cache_hash hashed fl))
      | fullNode cs fl =>
          let both :=
            (fix children (i : nat) (cs : list node) : list (node * node) :=
               match cs with
               | [] => []
               | c :: cs =>
                   (match i with
                    | O => (c, c)
                    | S _ => if is_nil c then (valueNode [], nilNode) else hash c false
                    end) :: children (pred i) cs
               end) 16%nat cs in
          let hashed := toHash (fullNode (fst <$> both) fl) force in
          (hashed, fullNode (snd <$> both) (cache_hash hashed fl))
      | _ => (n, n)
      end
  end.

(** [hashRoot], [Hash]. *)
Definition Trie_Hash (t : Trie) : Hash * Trie :=
  match tr_root t with
  | nilNode => (emptyRoot, t)
  | root =>
      let '(hashed, cached) := hash root true in
      (BytesToHash (match hashed with hashNode h => h | _ => [] end), MkTrie cached (tr_owner t) 0)
  end.
End Hasher.

(** ** Nodes as RLP items *)

Fixpoint node_item (n : node) : item :=
  match n with
  | nilNode => Str []
  | hashNode b | valueNode b => Str b
  | shortNode k v _ => Lst [Str k; node_item v]
  | fullNode cs _ => Lst (map node_item cs)
  end.

Section NodeInd.
Context (P : node → Prop) (Hnil : P nilNode) (Hhash : ∀ h, P (hashNode h)) (Hvalue : ∀ v, P (valueNode v))
  (Hshort : ∀ k c fl, P c → P (shortNode k c fl)) (Hfull : ∀ cs fl, Forall P cs → P (fullNode cs fl)).

Fixpoint node_ind' (n : node) : P n :=
  match n with
  | nilNode => Hnil
  | hashNode h => Hhash h
  | valueNode v => Hvalue v
  | shortNode k c fl => Hshort k c fl (node_ind' c)
  | fullNode cs fl =>
      Hfull cs fl ((fix all (cs : list node) : Forall P cs :=
        match cs with [] => Forall_nil_2 _ | c :: cs => Forall_cons_2 _ _ _ (node_ind' c) (all cs) end) cs)
  end.
End NodeInd.

(** The bytes the buffer assembles for an item; [encode] of it, if it is shorter
    than 2^64 bytes. *)
Definition item_bytes (it : item) : bytes :=
  match writeItem it emptyBuffer with Ok w => makeBytes w | _ => [] end.

Lemma item_bytes_encode it : zlen (encode it) < two64 → item_bytes it = encode it.
Proof.
  intros Hs. pose proof (EncodeToBytes_ok it Hs) as E. unfold EncodeToBytes, item_bytes in *.
  destruct (writeItem it emptyBuffer); [by apply Ok_inj in E|done..].
Qed.

Lemma node_encode_item n : ∀ w, node_encode n w = writeItem (node_item n) w.
Proof.
  induction n as [|h|v|k c fl IH|cs fl IH] using node_ind'; intros w; [cbn [node_encode node_item writeItem]; by rewrite writeBytes_encode|done|done| |].
  - cbn [node_encode node_item writeItem mbind result_bind]. destruct (eb_list w) as [o w1]. rewrite IH. by destruct (writeItem (node_item c) (writeBytes k w1)).
  - cbn [node_encode node_item writeItem mbind result_bind]. destruct (eb_list w) as [o w1].
    assert (Hall : ∀ w, (fix children (cs : list node) (w : encBuffer) : result encBuffer :=
             match cs with [] => Ok w | c :: cs => w ← node_encode c w; children cs w end) cs w =
      (fix writeItems (l : list item) (buf : encBuffer) : result encBuffer :=
               match l with [] => Ok buf | x :: l => buf ← writeItem x buf; writeItems l buf end) (map node_item cs) w).
    { clear o w w1. induction IH as [|c cs Hc _ IHcs]; intros w; [done|]. cbn [map]. rewrite Hc.
      destruct (writeItem (node_item c) w); [cbn; apply IHcs|done..]. }
    by rewrite Hall.
Qed.

Lemma nodeToBytes_item n : nodeToBytes n = item_bytes (node_item n).
Proof. unfold nodeToBytes, item_bytes. by rewrite node_encode_item. Qed.

(** ** Flags do not matter *)

Fixpoint strip (n : node) : node :=
  match n with
  | shortNode k c _ => shortNode k (strip c) newFlag
  | fullNode cs _ => fullNode (map strip cs) newFlag
  | n => n
  end.

Lemma strip_nil n : strip n = nilNode ↔ n = nilNode.
Proof. by destruct n. Qed.

Lemma lookup_strip cs i c : map strip cs !! i = Some c ↔ ∃ c0, cs !! i = Some c0 ∧ c = strip c0.
Proof. change (map strip cs) with (strip <$> cs). rewrite list_lookup_fmap_Some. naive_solver. Qed.

Section Strip.
Context (db_node : Hash → result (option node)).

Lemma has_strip n : ∀ k x, has db_node (strip n) k x ↔ has db_node n k x.
Proof.
  induction n as [|h|v|key c fl IH|cs fl IH] using node_ind'; intros k x; [done..| |]; cbn [strip].
  - rewrite !has_short_iff. setoid_rewrite IH. done.
  - rewrite !has_full_iff. rewrite Forall_lookup in IH. split.
    + intros (b & r & c & -> & Hc & Hx). apply lookup_strip in Hc as (c0 & Hc & ->).
      exists b, r, c0. split; [done|]. split; [done|]. by apply (IH _ _ Hc).
    + intros (b & r & c & -> & Hc & Hx). exists b, r, (strip c). split; [done|].
      split; [apply lookup_strip; eauto|]. by apply (IH _ _ Hc).
Qed.

Lemma not_short_strip n : not_short db_node (strip n) ↔ not_short db_node n.
Proof. by destruct n. Qed.

Lemma wf_strip n : ∀ t, wf db_node t (strip n) ↔ wf db_node t n.
Proof.
  induction n as [|h|v|key c fl IH|cs fl IH] using node_ind'; intros t; [done..| |]; cbn [strip].
  - split; intros Hw; inversion Hw; subst; econstructor; try done.
    + by apply IH.
    + by apply not_short_strip.
    + by apply IH.
    + by apply not_short_strip.
  - rewrite Forall_lookup in IH. split; intros Hw; inversion Hw as [| |? ? Hl Hc (i & j & ci & cj & Hij & Ei & Ej & Hi & Hj)|]; subst.
    + rewrite length_map in Hl. constructor; [done| |].
      * intros i' c Ec Hne. apply (IH _ _ Ec). apply Hc; [apply lookup_strip; eauto|]. by rewrite strip_nil.
      * apply lookup_strip in Ei as (ci0 & Ei & ->), Ej as (cj0 & Ej & ->). rewrite strip_nil in Hi, Hj.
        by exists i, j, ci0, cj0.
    + constructor; [by rewrite length_map| |].
      * intros i' c Ec Hne. apply lookup_strip in Ec as (c0 & Ec & ->). rewrite strip_nil in Hne.
        apply (IH _ _ Ec). by apply Hc.
      * exists i, j, (strip ci), (strip cj). rewrite !strip_nil. split; [done|].
        split; [apply lookup_strip; eauto|]. split; [apply lookup_strip; eauto|]. done.
Qed.
End Strip.

(** ** The reference of a subtree *)

Section References.
Context `{Crypto} (db_node : Hash → result (option node)).

(** What stands for a subtree in its parent: the item itself if it is short,
    else its hash. *)
Definition reference (body : item) : item :=
  if (length (item_bytes body) <? 32)%nat then body else Str (hashData (item_bytes body)).

Definition cache_valid (fl : nodeFlag) (it : item) : Prop := ∀ h, flag_hash fl = Some h → it = Str h.

(** [refs n it]: [it] is the reference of [n]; every cached hash below and in [n]
    is right, and every hash node names what the database has for it. *)
Inductive refs : node → item → Prop :=
| refs_nil : refs nilNode (Str [])
| refs_value v : refs (valueNode v) (Str v)
| refs_hash h n :
    db_node (BytesToHash h) = Ok (Some n) → loaded n → refs n (Str h) → refs (hashNode h) (Str h)
| refs_short k c fl i :
    refs c i → cache_valid fl (reference (Lst [Str (compact_key k); i])) →
    refs (shortNode k c fl) (reference (Lst [Str (compact_key k); i]))
| refs_full cs fl its :
    length its = length cs → (∀ j c i, cs !! j = Some c → its !! j = Some i → refs c i) →
    cache_valid fl (reference (Lst its)) → refs (fullNode cs fl) (reference (Lst its)).

Definition sound (n : node) : Prop := ∃ it, refs n it.

(** The item of the node itself, before it is replaced by its hash. *)
Definition body (n : node) (it : item) : Prop :=
  match n with
  | shortNode k c _ => ∃ i, refs c i ∧ it = Lst [Str (compact_key k); i]
  | fullNode cs _ => ∃ its, length its = length cs ∧
      (∀ j c i, cs !! j = Some c → its !! j = Some i → refs c i) ∧ it = Lst its
  | _ => False
  end.

(** A root is always hashed, even when it is short, so its own cached hash may be
    one that its parent would not use. *)
Definition root_ok (n : node) : Prop :=
  n = nilNode ∨ ∃ it, body n it ∧ ∀ h, (cache n).1 = Some h → h = hashData (item_bytes it).

Lemma reference_list l h : reference (Lst l) = Str h → h = hashData (item_bytes (Lst l)).
Proof. unfold reference. destruct (_ <? _)%nat; [done|]. by intros [= ->]. Qed.

Lemma refs_root n it : refs n it → loaded n → root_ok n.
Proof.
  intros Hr Hl. right. destruct Hr as [| | |k c fl i Hc Hv|cs fl its Hlen Hc Hv]; try done.
  - eexists. split; [cbn; eauto|]. intros h E. by apply reference_list, Hv.
  - eexists. split; [cbn; eauto|]. intros h E. by apply reference_list, Hv.
Qed.

Lemma refs_body n it : body n it → (cache n).1 = None → refs n (reference it).
Proof.
  destruct n as [|k c fl|cs fl| |]; try done; cbn; intros Hb Hf.
  - destruct Hb as (i & Hi & ->). constructor; [done|]. intros h. by rewrite Hf.
  - destruct Hb as (its & Hl & Hc & ->). constructor; [done|done|]. intros h. by rewrite Hf.
Qed.

(** The hasher's loop over the children of a full node. *)
Definition hash_children : nat → list node → list (node * node) :=
  fix children (i : nat) (cs : list node) : list (node * node) :=
    match cs with
    | [] => []
    | c :: cs =>
        (match i with
         | O => (c, c)
         | S _ => if is_nil c then (valueNode [], nilNode) else hash c false
         end) :: children (pred i) cs
    end.

Lemma hash_children_lookup i cs : ∀ j, hash_children i cs !! j =
  (fun c => if (j <? i)%nat then (if is_nil c then (valueNode [], nilNode) else hash c false) else (c, c)) <$> cs !! j.
Proof.
  revert i. induction cs as [|c cs IH]; intros i j; [by rewrite !lookup_nil|].
  destruct j as [|j]; [by destruct i|]. cbn. rewrite IH. by destruct i as [|[|i]].
Qed.

Lemma length_hash_children i cs : length (hash_children i cs) = length cs.
Proof. revert i. induction cs as [|c cs IH]; intros i; [done|]. cbn. by rewrite IH. Qed.

(** What one call of the hasher does, when its children have been dealt with. *)
Definition hashed_well (n : node) (it : item) : Prop :=
  let '(hashed, cached) := hash n false in
  node_item hashed = it ∧ refs cached it ∧ strip cached = strip n.

Lemma toHash_reference c : node_item (toHash c false) = reference (node_item c).
Proof.
  unfold toHash, reference. rewrite nodeToBytes_item. cbn [negb]. rewrite andb_true_r.
  by destruct (_ <? _)%nat.
Qed.

Lemma toHash_cache c fl : (∀ h, c ≠ hashNode h) → cache_valid (cache_hash (toHash c false) fl) (reference (node_item c)).
Proof.
  intros Hc h. unfold cache_hash, toHash, reference. rewrite nodeToBytes_item. cbn [negb flag_hash]. rewrite andb_true_r.
  destruct (_ <? _)%nat; [|by intros [= <-]]. destruct c; try done. by destruct (Hc h0).
Qed.

Lemma hash_short k c fl force i :
  flag_hash fl = None → refs c i → (loaded c → hashed_well c i) →
  ∃ cc kc, hash (shortNode k c fl) force =
    (toHash (shortNode (compact_key k) cc fl) force,
     shortNode k kc (cache_hash (toHash (shortNode (compact_key k) cc fl) force) fl)) ∧
    node_item cc = i ∧ refs kc i ∧ strip kc = strip c.
Proof.
  intros Hfl Hc Hw. cbn [hash cache]. rewrite Hfl. unfold hashed_well in Hw.
  inversion Hc; subst; try (eexists _, _; by split); specialize (Hw I).
  all: match goal with |- context [hash ?c false] => destruct (hash c false) as [cc kc] end.
  all: exists cc, kc; by split.
Qed.

Lemma hash_full cs fl force its :
  flag_hash fl = None → length its = length cs →
  (∀ j c i, cs !! j = Some c → its !! j = Some i →
     refs c i ∧ (c ≠ nilNode → hashed_well c i) ∧ ((16 ≤ j)%nat → node_item c = i)) →
  ∃ cc kc, hash (fullNode cs fl) force =
    (toHash (fullNode cc fl) force, fullNode kc (cache_hash (toHash (fullNode cc fl) force) fl)) ∧
    map node_item cc = its ∧ length kc = length cs ∧
    (∀ j c i, kc !! j = Some c → its !! j = Some i → refs c i) ∧ map strip kc = map strip cs.
Proof.
  intros Hfl Hl Hc. cbn [hash cache]. rewrite Hfl. fold hash_children.
  eexists _, _. split; [reflexivity|].
  assert (Hj : ∀ j c i, cs !! j = Some c → its !! j = Some i →
    ∃ a b, hash_children 16 cs !! j = Some (a, b) ∧ node_item a = i ∧ refs b i ∧ strip b = strip c).
  { intros j c i Ec Ei. rewrite hash_children_lookup, Ec. cbn [fmap option_fmap option_map]. destruct (Hc _ _ _ Ec Ei) as (Hr & Hw & H16).
    destruct (Nat.ltb_spec j 16) as [_|Hge]; [|exists c, c; split; [done|]; split; [by apply H16|done]].
    destruct (is_nil c) eqn:En; [apply is_nil_true in En as ->; inversion Hr; subst; eexists _, _; by split|].
    assert (Hn : c ≠ nilNode) by (by intros ->). specialize (Hw Hn). unfold hashed_well in Hw.
    destruct (hash c false) as [a b]. exists a, b. by split. }
  assert (Hlen : length (hash_children 16 cs) = length cs) by apply length_hash_children.
  assert (Hat : ∀ j p, hash_children 16 cs !! j = Some p → ∃ c i, cs !! j = Some c ∧ its !! j = Some i ∧
    node_item p.1 = i ∧ refs p.2 i ∧ strip p.2 = strip c).
  { intros j p Ep. assert (Hlt : (j < length cs)%nat) by (apply lookup_lt_Some in Ep; lia).
    destruct (lookup_lt_is_Some_2 cs j Hlt) as [c Ec]. destruct (lookup_lt_is_Some_2 its j) as [i Ei]; [lia|].
    destruct (Hj _ _ _ Ec Ei) as (a & b & E & Ha & Hb & Hs). rewrite E in Ep. injection Ep as <-. eauto 10. }
  change (map node_item) with (fmap (M := list) node_item). change (map strip) with (fmap (M := list) strip).
  split; [|split; [by rewrite length_fmap|split]].
  - apply list_eq_same_length with (length cs); [done|by rewrite !length_fmap|].
    intros j x y Hlt Ex Ey. rewrite !list_lookup_fmap in Ex.
    destruct (hash_children 16 cs !! j) as [p|] eqn:Ep; [|done]. injection Ex as <-.
    destruct (Hat _ _ Ep) as (c & i & _ & Ei & Hi & _). congruence.
  - intros j c i Ec Ei. rewrite list_lookup_fmap in Ec.
    destruct (hash_children 16 cs !! j) as [p|] eqn:Ep; [|done]. injection Ec as <-.
    destruct (Hat _ _ Ep) as (c & i' & _ & Ei' & _ & Hr & _). congruence.
  - apply list_eq_same_length with (length cs); [by rewrite length_fmap|by rewrite !length_fmap|].
    intros j x y Hlt Ex Ey. rewrite !list_lookup_fmap in Ex. rewrite list_lookup_fmap in Ey.
    destruct (hash_children 16 cs !! j) as [p|] eqn:Ep; [|done]. injection Ex as <-.
    destruct (Hat _ _ Ep) as (c & i & Ec & _ & _ & _ & Hs). rewrite Ec in Ey. cbn in Ey. congruence.
Qed.

(** The hasher computes the reference and caches it. *)
Lemma hash_spec t n : wf db_node t n → ∀ it, refs n it → hashed_well n it.
Proof.
  intros Hw. induction Hw as [v Hv|t k c fl Hk Hhex Hc IH Hns|cs fl Hl Hcs IH Htwo|h n E Hld Hw IH];
    intros it Hr; inversion Hr as [| | |? ? ? i Hi Hval|? ? its Hlen Hits Hval]; subst; unfold hashed_well.
  - done.
  - destruct (flag_hash fl) as [h|] eqn:Ef.
    { cbn [hash cache]. rewrite Ef. split; [by rewrite (Hval h Ef)|]. split; [by constructor|done]. }
    destruct (hash_short k c fl false i Ef Hi) as (cc & kc & -> & <- & Hkc & Hs); [auto|].
    split; [apply toHash_reference|]. split; [|cbn; by rewrite Hs].
    constructor; [done|]. by apply (toHash_cache (shortNode (compact_key k) cc fl)).
  - destruct (flag_hash fl) as [h|] eqn:Ef.
    { cbn [hash cache]. rewrite Ef. split; [by rewrite (Hval h Ef)|]. split; [by constructor|done]. }
    destruct (hash_full cs fl false its Ef Hlen) as (cc & kc & -> & <- & Hkl & Hkc & Hs).
    { intros j c i Ec Ei. split; [by eapply Hits|]. split; [intros Hn; by eapply IH; [..|eapply Hits]|].
      intros Hj. assert (j = 16%nat) as -> by (apply lookup_lt_Some in Ec; lia).
      pose proof (Hits _ _ _ Ec Ei) as Hci. destruct (decide (c = nilNode)) as [->|Hn]; [by inversion Hci|].
      specialize (Hcs _ _ Ec Hn). rewrite bool_decide_true in Hcs by done. inversion Hcs; subst. by inversion Hci. }
    split; [apply toHash_reference|]. split; [|cbn; by rewrite Hs].
    constructor; [rewrite length_map in *; lia|done|]. by apply (toHash_cache (fullNode cc fl)).
  - done.
Qed.
End References.

(** ** Equal contents, equal references *)

Section Inhabited.
Context (db : Hash → result (option node)).

Lemma wf_inhabited t n : wf db t n → ∃ k x, has db n k x.
Proof.
  induction 1 as [v Hv|t k c fl Hk Hhex Hc (r & x & IH) Hns|cs fl Hl Hcs IH (i & j & ci & cj & Hij & Ei & Ej & Hi & Hj)|h n E Hld Hw (r & x & IH)].
  - exists [], v. constructor.
  - exists (k ++ r), x. by constructor.
  - destruct (IH _ _ Ei Hi) as (r & x & Hx). exists (z2b (Z.of_nat i) :: r), x.
    econstructor; [|exact Hx]. rewrite index_byte; [done|]. apply lookup_lt_Some in Ei. lia.
  - exists r, x. by econstructor.
Qed.

(** Two keys that differ at once. *)
Lemma branching_two n : branching db n → wf db false n →
  ∃ a b r s x y, a ≠ b ∧ has db n (a :: r) x ∧ has db n (b :: s) y.
Proof.
  assert (Hfull : ∀ cs fl, wf db false (fullNode cs fl) →
    ∃ a b r s x y, a ≠ b ∧ has db (fullNode cs fl) (a :: r) x ∧ has db (fullNode cs fl) (b :: s) y).
  { intros cs fl Hw. inversion Hw as [| |? ? Hl Hc (i & j & ci & cj & Hij & Ei & Ej & Hi & Hj)|]; subst.
    destruct (wf_inhabited _ _ (Hc _ _ Ei Hi)) as (r & x & Hx), (wf_inhabited _ _ (Hc _ _ Ej Hj)) as (s & y & Hy).
    pose proof (lookup_lt_Some _ _ _ Ei). pose proof (lookup_lt_Some _ _ _ Ej).
    exists (z2b (Z.of_nat i)), (z2b (Z.of_nat j)), r, s, x, y. split.
    - intros E. apply Hij. rewrite <- (index_byte i), <- (index_byte j) by lia. by rewrite E.
    - split; (econstructor; [|done]); by rewrite index_byte by lia. }
  intros Hb Hw. destruct n as [| |cs fl|h|]; try done; [by apply Hfull|].
  destruct Hb as (cs & fl & E). inversion Hw as [| | |? n E' _ Hwn]; subst. rewrite E in E'. injection E' as <-.
  destruct (Hfull cs fl Hwn) as (a & b & r & s & x & y & Hab & Hx & Hy).
  exists a, b, r, s, x, y. split; [done|]. by split; econstructor.
Qed.

Lemma no_common_prefix t c s : wf db t c → not_short db c → s ≠ [] →
  (∀ r x, has db c r x → ∃ r', r = s ++ r') → False.
Proof.
  intros Hw Hn Hs Hall. destruct s as [|a0 s]; [done|].
  assert (Hb : branching db c → wf db false c → False).
  { intros Hb Hwf. destruct (branching_two c Hb Hwf) as (a & b & r & q & x & y & Hab & Hx & Hy).
    apply Hall in Hx as [? [= -> _]]. apply Hall in Hy as [? [= -> _]]. done. }
  destruct c as [| |cs fl|h|v]; try done.
  - by inversion Hw; subst; apply Hb.
  - by inversion Hw; subst; apply Hb.
  - destruct (Hall [] v (has_value _ v)) as [? [=]].
Qed.

(** A hash may be replaced by what it stands for. *)
Lemma load `{Crypto} t n i : wf db t n → refs db n i →
  ∃ n', (∀ h, n' ≠ hashNode h) ∧ wf db t n' ∧ refs db n' i ∧ ∀ k x, has db n' k x ↔ has db n k x.
Proof.
  intros Hw Hr. inversion Hw as [| | |h n' E Hld Hwn]; subst; try (eexists; split; [|by split]; done).
  inversion Hr as [| |? n2 E2 _ Hr2| |]; subst. rewrite E in E2. injection E2 as <-. exists n'.
  split; [by destruct n'|]. split; [done|]. split; [done|]. intros k x. by rewrite (has_hash_iff db h n').
Qed.
End Inhabited.

Section Canonical.
Context `{Crypto} (db1 db2 : Hash → result (option node)).

Definition eqv (n1 n2 : node) : Prop := ∀ k x, has db1 n1 k x ↔ has db2 n2 k x.

Definition child_of (c n : node) : Prop :=
  match n with
  | shortNode _ c' _ => c = c'
  | fullNode cs _ => ∃ j : nat, cs !! j = Some c
  | _ => False
  end.

Lemma short_keys t1 t2 k1 k2 c1 c2 fl1 fl2 :
  wf db1 t1 c1 → wf db2 t2 c2 → not_short db1 c1 → not_short db2 c2 →
  eqv (shortNode k1 c1 fl1) (shortNode k2 c2 fl2) → k1 = k2.
Proof.
  intros W1 W2 N1 N2 He. destruct (prefixLen_spec k1 k2) as (p & s1 & s2 & -> & -> & _ & Hd).
  destruct s1 as [|a s1], s2 as [|b s2]; [done| | |]; exfalso.
  - apply (no_common_prefix db1 _ c1 (b :: s2) W1 N1); [done|]. intros r x Hx.
    assert (Hx' : has db1 (shortNode (p ++ []) c1 fl1) ((p ++ []) ++ r) x) by (by constructor).
    apply He, has_short_iff in Hx' as (r' & E & _). rewrite app_nil_r, <- app_assoc in E.
    apply app_inv_head in E. eauto.
  - apply (no_common_prefix db2 _ c2 (a :: s1) W2 N2); [done|]. intros r x Hx.
    assert (Hx' : has db2 (shortNode (p ++ []) c2 fl2) ((p ++ []) ++ r) x) by (by constructor).
    apply He, has_short_iff in Hx' as (r' & E & _). rewrite app_nil_r, <- app_assoc in E.
    apply app_inv_head in E. eauto.
  - destruct (wf_inhabited db1 _ _ W1) as (r & x & Hx).
    assert (Hx' : has db1 (shortNode (p ++ a :: s1) c1 fl1) ((p ++ a :: s1) ++ r) x) by (by constructor).
    apply He, has_short_iff in Hx' as (r' & E & _). rewrite <- !app_assoc in E. apply app_inv_head in E.
    by injection E.
Qed.

Lemma short_full_absurd (db db' : Hash → result (option node)) k c fl cs fl' :
  k ≠ [] → wf db' false (fullNode cs fl') →
  (∀ q x, has db' (fullNode cs fl') q x → has db (shortNode k c fl) q x) → False.
Proof.
  intros Hk Hw He. destruct k as [|a0 k]; [done|].
  destruct (branching_two db' (fullNode cs fl') I Hw) as (a & b & r & s & x & y & Hab & Hx & Hy).
  apply He, has_short_iff in Hx as (? & [= -> _] & _). apply He, has_short_iff in Hy as (? & [= -> _] & _). done.
Qed.

(** If the children are canonical, so is the node. *)
Lemma canonical_body n1 n2 b1 b2 :
  (∀ t c1 c2 i1 i2, child_of c1 n1 → wf db1 t c1 → wf db2 t c2 → eqv c1 c2 →
     refs db1 c1 i1 → refs db2 c2 i2 → i1 = i2) →
  wf db1 false n1 → wf db2 false n2 → eqv n1 n2 → body db1 n1 b1 → body db2 n2 b2 → b1 = b2.
Proof.
  intros Hsub W1 W2 He B1 B2.
  destruct n1 as [|k1 c1 fl1|cs1 fl1| |]; try done; destruct n2 as [|k2 c2 fl2|cs2 fl2| |]; try done.
  - destruct B1 as (i1 & R1 & ->), B2 as (i2 & R2 & ->).
    inversion W1 as [|t1 ? ? ? Hk1 Hx1 Hc1 Hn1| |]; subst. inversion W2 as [|t2 ? ? ? Hk2 Hx2 Hc2 Hn2| |]; subst.
    assert (k1 = k2) as -> by (by eapply short_keys).
    assert (t1 = t2) as -> by (by rewrite <- (hasTerm_hexkey t1 k2), <- (hasTerm_hexkey t2 k2)).
    rewrite (Hsub t2 c1 c2 i1 i2); try done. intros k x. specialize (He (k2 ++ k) x).
    rewrite !has_short_iff in He. split; intros Hx.
    + destruct (proj1 He) as (r & E & Hr); [eauto|]. by apply app_inv_head in E as ->.
    + destruct (proj2 He) as (r & E & Hr); [eauto|]. by apply app_inv_head in E as ->.
  - exfalso. inversion W1; subst. by apply (short_full_absurd db1 db2 k1 c1 fl1 cs2 fl2); [| |intros; apply He].
  - exfalso. inversion W2; subst. by apply (short_full_absurd db2 db1 k2 c2 fl2 cs1 fl1); [| |intros; apply He].
  - destruct B1 as (l1 & L1 & R1 & ->), B2 as (l2 & L2 & R2 & ->).
    inversion W1 as [| |? ? Hl1 Hc1 _|]; subst. inversion W2 as [| |? ? Hl2 Hc2 _|]; subst.
    f_equal. apply list_eq_same_length with 17%nat; [lia|lia|]. intros j i1 i2 Hj E1 E2.
    destruct (lookup_lt_is_Some_2 cs1 j) as [c1 C1]; [lia|]. destruct (lookup_lt_is_Some_2 cs2 j) as [c2 C2]; [lia|].
    assert (Hec : eqv c1 c2).
    { intros k x. specialize (He (z2b (Z.of_nat j) :: k) x). rewrite !has_full_iff in He. split; intros Hx.
      - destruct (proj1 He) as (b & r & c & [= <- <-] & Hc & Hr).
        { exists (z2b (Z.of_nat j)), k, c1. rewrite index_byte by lia. done. }
        rewrite index_byte in Hc by lia. congruence.
      - destruct (proj2 He) as (b & r & c & [= <- <-] & Hc & Hr).
        { exists (z2b (Z.of_nat j)), k, c2. rewrite index_byte by lia. done. }
        rewrite index_byte in Hc by lia. congruence. }
    pose proof (R1 _ _ _ C1 E1) as Hr1. pose proof (R2 _ _ _ C2 E2) as Hr2.
    destruct (decide (c1 = nilNode)) as [->|N1]; destruct (decide (c2 = nilNode)) as [->|N2].
    + by inversion Hr1; inversion Hr2.
    + exfalso. destruct (wf_inhabited _ _ _ (Hc2 _ _ C2 N2)) as (r & x & Hx). apply Hec in Hx. by apply has_nil in Hx.
    + exfalso. destruct (wf_inhabited _ _ _ (Hc1 _ _ C1 N1)) as (r & x & Hx). apply Hec in Hx. by apply has_nil in Hx.
    + eapply (Hsub _ c1 c2); [by exists j|by eapply Hc1|by eapply Hc2|done..].
Qed.

Lemma refs_inv_body (db : Hash → result (option node)) n it : refs db n it → loaded n → ∃ b, body db n b ∧ it = reference b.
Proof. intros Hr Hl. destruct Hr; try done; eexists; (split; [|done]); cbn; eauto. Qed.

(** The reference of a subtree is a function of its contents. *)
Lemma canonical t n1 : wf db1 t n1 → ∀ n2 i1 i2, wf db2 t n2 → eqv n1 n2 →
  refs db1 n1 i1 → refs db2 n2 i2 → i1 = i2.
Proof.
  assert (Hgo : ∀ n1, wf db1 false n1 → loaded n1 →
    (∀ t c1 c2 i1 i2, child_of c1 n1 → wf db1 t c1 → wf db2 t c2 → eqv c1 c2 →
       refs db1 c1 i1 → refs db2 c2 i2 → i1 = i2) →
    ∀ n2 i1 i2, wf db2 false n2 → eqv n1 n2 → refs db1 n1 i1 → refs db2 n2 i2 → i1 = i2).
  { clear t n1. intros n1 W1 L1 Hsub n2 i1 i2 W2 He R1 R2.
    destruct (load db2 _ _ _ W2 R2) as (n2' & Hnh & W2' & R2' & He2).
    assert (L2 : loaded n2') by (inversion W2'; subst; try done; by destruct (Hnh h)).
    destruct (refs_inv_body db1 n1 i1 R1 L1) as (b1 & B1 & ->), (refs_inv_body db2 n2' i2 R2' L2) as (b2 & B2 & ->).
    f_equal. eapply (canonical_body n1 n2'); try done. intros k x. by rewrite He2. }
  intros W1. induction W1 as [v Hv|t k c fl Hk Hhex Hc IH Hns|cs fl Hl Hcs IH Htwo|h n E Hld Hw IH]; intros n2 i1 i2 W2 He R1 R2.
  - inversion W2; subst. inversion R1; subst. inversion R2; subst.
    specialize (He [] v). rewrite !has_value_iff in He. destruct (proj1 He) as [_ ->]; done.
  - eapply (Hgo (shortNode k c fl)); [by econstructor|done| |done..].
    cbn. intros t' c1 c2 j1 j2 -> W1c W2c. assert (t' = t) as -> by (inversion W1c; subst; inversion Hc; subst; done).
    by apply IH.
  - eapply (Hgo (fullNode cs fl)); [by constructor|done| |done..].
    cbn. intros t' c1 c2 j1 j2 [j Ej] W1c W2c. pose proof (wf_not_nil _ _ _ W1c) as Hn.
    assert (t' = bool_decide (j = 16%nat)) as -> by (specialize (Hcs _ _ Ej Hn); inversion W1c; subst; inversion Hcs; subst; done).
    by apply (IH _ _ Ej Hn).
  - inversion R1 as [| |? n' E' _ Rn| |]; subst. rewrite E in E'. injection E' as <-.
    eapply IH; [done| |done|done]. intros k x. by rewrite <- (has_hash_iff db1 h n).
Qed.
End Canonical.
