(* ===== verification/TrieRefine.v ===== *)
(** * The trie is a finite map with a root hash that depends on nothing else

    [TryGet], [TryUpdate], [TryDelete] and [Hash] in any order behave like the
    operations of a finite map, and the root hash is a function of the contents. *)

From S2P Require Import Prelude Bytes Rlp Types Text TrieKeys Trie TrieMap TrieHash.

Create HintDb trie.

(** ** The operations keep the references right *)

Section Sound.
Context `{Crypto} (db_node : Hash → result (option node)).

Definition all_sound (cs : list node) : Prop := ∀ (j : nat) c, cs !! j = Some c → sound db_node c.

(** Everything below [n] is sound. *)
Definition under_sound (n : node) : Prop :=
  match n with
  | shortNode _ c _ => sound db_node c
  | fullNode cs _ => all_sound cs
  | hashNode h => sound db_node n
  | _ => True
  end.

Lemma sound_nil : sound db_node nilNode.
Proof. eexists. constructor. Qed.
Lemma sound_value v : sound db_node (valueNode v).
Proof. eexists. constructor. Qed.
Lemma sound_short k c : sound db_node c → sound db_node (shortNode k c newFlag).
Proof. intros [i Hi]. eexists. by constructor. Qed.
Lemma sound_full cs : all_sound cs → sound db_node (fullNode cs newFlag).
Proof.
  intros Hcs. assert (Hits : ∃ its, length its = length cs ∧
    ∀ j c i, cs !! j = Some c → its !! j = Some i → refs db_node c i).
  { induction cs as [|c cs IH]; [by exists []|]. destruct (Hcs 0%nat c eq_refl) as [i Hi].
    destruct IH as (its & Hl & Hr); [intros j c' E; by apply (Hcs (S j))|].
    exists (i :: its). split; [cbn; by rewrite Hl|]. intros [|j] c' i' Ec Ei; [by injection Ec as <-; injection Ei as <-|by eapply Hr]. }
  destruct Hits as (its & Hl & Hr). eexists. by constructor.
Qed.

Lemma sound_below n : sound db_node n → under_sound n.
Proof.
  intros [it Hr]. destruct Hr as [| |h n E Hl Hr|k c fl i Hc _|cs fl its Hl Hc _]; cbn; try done.
  - eexists. by econstructor.
  - by eexists.
  - intros j c Ec. destruct (lookup_lt_is_Some_2 its j) as [i Ei]; [apply lookup_lt_Some in Ec; lia|]. eexists. by eapply Hc.
Qed.

Lemma sound_resolve h : sound db_node (hashNode h) → ∃ n, resolveHash db_node h = Ok n ∧ sound db_node n.
Proof.
  intros [it Hr]. inversion Hr as [| |? n E Hl Hn| |]; subst. exists n. unfold resolveHash. rewrite E. cbn.
  split; [done|by eexists].
Qed.

Lemma all_sound_set cs b c : all_sound cs → sound db_node c → all_sound (set_child cs b c).
Proof.
  intros Hcs Hc j d Ed. apply list_lookup_insert_Some in Ed as [(_ & -> & _)|[_ Ed]]; [done|by eapply Hcs].
Qed.

Lemma all_sound_none : all_sound no_children.
Proof. intros j c E. apply lookup_replicate in E as [-> _]. apply sound_nil. Qed.

#[local] Hint Resolve sound_nil sound_value sound_short sound_full all_sound_set all_sound_none : trie.

Lemma insert_sound fuel : ∀ n key value d n', under_sound n → sound db_node value →
  insert db_node fuel n key value = Ok (d, n') → n' = n ∨ sound db_node n'.
Proof.
  induction fuel as [|fuel IH]; intros n key value d n' Hb Hv E; [done|]. cbn [insert] in E.
  assert (IHs : ∀ c key value d c', sound db_node c → sound db_node value →
    insert db_node fuel c key value = Ok (d, c') → sound db_node c').
  { intros c k0 v0 d0 c' Hc Hv0 E0. destruct (IH _ _ _ _ _ (sound_below _ Hc) Hv0 E0) as [->|]; done. }
  destruct key as [|b key].
  { right. destruct n, value; try done; by apply Ok_inj in E; injection E as _ <-. }
  destruct n as [|k c fl|cs fl|h|v]; [| | | |done].
  - apply Ok_inj in E. injection E as _ <-. auto with trie.
  - destruct (_ =? _)%nat.
    + apply bind_ok in E as ([d0 c'] & Ec & E). pose proof (IHs _ _ _ _ _ Hb Hv Ec).
      destruct d0; apply Ok_inj in E; injection E as _ <-; auto with trie.
    + destruct (k !! _) as [x|]; [|done]. destruct (_ !! _) as [y|]; [|done].
      apply bind_ok in E as ([? cx] & Ex & E). apply bind_ok in E as (? & _ & E).
      apply bind_ok in E as ([? cy] & Ey & E). apply bind_ok in E as (? & _ & E).
      assert (Hx : sound db_node cx) by (eapply IHs; [apply sound_nil|exact Hb|exact Ex]).
      assert (Hy : sound db_node cy) by (eapply IHs; [apply sound_nil|exact Hv|exact Ey]).
      assert (Hbr : sound db_node (fullNode (set_child (set_child no_children x cx) y cy) newFlag)) by auto with trie.
      destruct (_ =? _)%nat; apply Ok_inj in E; injection E as _ <-; auto with trie.
  - apply bind_ok in E as (c & Ec & E). apply bind_ok in E as ([d0 c'] & Ei & E).
    unfold child in Ec. destruct (cs !! child_index b) as [c0|] eqn:Eb; [|done]. apply Ok_inj in Ec as <-.
    pose proof (IHs _ _ _ _ _ (Hb _ _ Eb) Hv Ei).
    destruct d0; apply Ok_inj in E; injection E as _ <-; auto with trie.
  - destruct (sound_resolve h Hb) as (rn & Er & Hrn). rewrite Er in E. cbn [mbind result_bind] in E.
    apply bind_ok in E as ([d0 c'] & Ei & E). pose proof (IHs _ _ _ _ _ Hrn Hv Ei).
    destruct d0; apply Ok_inj in E; injection E as _ <-; auto with trie.
Qed.

Lemma delete_sound fuel : ∀ n key d n', under_sound n →
  delete db_node fuel n key = Ok (d, n') → n' = n ∨ sound db_node n'.
Proof.
  induction fuel as [|fuel IH]; intros n key d n' Hb E; [done|]. cbn [delete] in E.
  assert (IHs : ∀ c key d c', sound db_node c → delete db_node fuel c key = Ok (d, c') → sound db_node c').
  { intros c k0 d0 c' Hc E0. destruct (IH _ _ _ _ (sound_below _ Hc) E0) as [->|]; done. }
  destruct n as [|k c fl|cs fl|h|v].
  - apply Ok_inj in E. injection E as _ <-. auto with trie.
  - destruct (_ <? _)%nat; [apply Ok_inj in E; injection E as _ <-; auto with trie|].
    destruct (_ =? _)%nat; [apply Ok_inj in E; injection E as _ <-; auto with trie|].
    apply bind_ok in E as ([d0 c'] & Ec & E). pose proof (IHs _ _ _ _ Hb Ec) as Hc.
    destruct d0; cbn [negb] in E; [|apply Ok_inj in E; injection E as _ <-; auto with trie].
    pose proof (sound_below _ Hc) as Hbc.
    destruct c'; apply Ok_inj in E; injection E as _ <-; auto with trie.
  - destruct key as [|b key]; [done|]. apply bind_ok in E as (c & Ec & E). apply bind_ok in E as ([d0 c'] & Ei & E).
    unfold child in Ec. destruct (cs !! child_index b) as [c0|] eqn:Eb; [|done]. apply Ok_inj in Ec as <-.
    pose proof (IHs _ _ _ _ (Hb _ _ Eb) Ei) as Hc. pose proof (all_sound_set _ b _ Hb Hc) as Hcs.
    destruct d0; cbn [negb] in E; [|apply Ok_inj in E; injection E as _ <-; auto with trie].
    destruct (negb (is_nil c')); [apply Ok_inj in E; injection E as _ <-; auto with trie|].
    destruct (only_child 0 None _) as [pos|]; [|apply Ok_inj in E; injection E as _ <-; auto with trie].
    assert (Hp : sound db_node (default nilNode (set_child cs b c' !! pos))).
    { destruct (set_child cs b c' !! pos) eqn:Ep; [by eapply Hcs|apply sound_nil]. }
    destruct (_ =? _)%nat; [apply Ok_inj in E; injection E as _ <-; auto with trie|].
    apply bind_ok in E as (cn & Ecn & E).
    assert (Hcn : sound db_node cn).
    { unfold resolve in Ecn. destruct (default nilNode _) as [| | |h|]; try by apply Ok_inj in Ecn as <-.
      destruct (sound_resolve h Hp) as (rn & Er & Hrn). rewrite Er in Ecn. by apply Ok_inj in Ecn as <-. }
    pose proof (sound_below _ Hcn) as Hbc. destruct cn; apply Ok_inj in E; injection E as _ <-; auto with trie.
  - destruct (sound_resolve h Hb) as (rn & Er & Hrn). rewrite Er in E. cbn [mbind result_bind] in E.
    apply bind_ok in E as ([d0 c'] & Ei & E). pose proof (IHs _ _ _ _ Hrn Ei).
    destruct d0; apply Ok_inj in E; injection E as _ <-; auto with trie.
  - apply Ok_inj in E. injection E as _ <-. auto with trie.
Qed.

(** *** [tryGet] only loads *)

Lemma tryGet_refs fuel : ∀ n it key pos v n' r, refs db_node n it →
  tryGet db_node fuel n key pos = Ok (v, n', r) → refs db_node n' it.
Proof.
  induction fuel as [|fuel IH]; intros n it key pos v n' r Hr E; [done|]. cbn [tryGet] in E.
  destruct Hr as [|w|h n E0 Hl Hr|k c fl i Hc Hv|cs fl its Hl Hc Hv].
  - apply Ok_inj in E. injection E as _ <- _. constructor.
  - apply Ok_inj in E. injection E as _ <- _. constructor.
  - unfold resolveHash in E. rewrite E0 in E. cbn [mbind result_bind] in E.
    apply bind_ok in E as ([[v0 n0] r0] & Eg & E). apply Ok_inj in E. injection E as _ <- _. by eapply IH.
  - destruct (_ || _); [apply Ok_inj in E; injection E as _ <- _; by constructor|].
    apply bind_ok in E as ([[v0 n0] r0] & Eg & E). apply Ok_inj in E. injection E as _ <- _.
    destruct r0; [|by constructor]. constructor; [by eapply IH|done].
  - destruct (key !! pos) as [b|]; [|done]. apply bind_ok in E as (c & Ec & E).
    unfold child in Ec. destruct (cs !! child_index b) as [c0|] eqn:Eb; [|done]. apply Ok_inj in Ec as ->.
    apply bind_ok in E as ([[v0 n0] r0] & Eg & E). apply Ok_inj in E. injection E as _ <- _.
    destruct r0; [|by constructor]. constructor; [unfold set_child; by rewrite length_insert| |done].
    intros j d i Ed Ei. apply list_lookup_insert_Some in Ed as [(<- & -> & _)|[_ Ed]]; [|by eapply Hc].
    eapply IH; [by eapply Hc|done].
Qed.

(** The same at the root. *)
Lemma tryGet_root fuel n key pos v n' r : root_ok db_node n →
  tryGet db_node fuel n key pos = Ok (v, n', r) → root_ok db_node n'.
Proof.
  destruct fuel as [|fuel]; [done|]. intros Hr E. cbn [tryGet] in E.
  destruct Hr as [->|(it & Hb & Hcache)]; [apply Ok_inj in E; injection E as _ <- _; by left|]. right.
  destruct n as [|k c fl|cs fl| |]; try done.
  - destruct (_ || _); [apply Ok_inj in E; injection E as _ <- _; by exists it|].
    apply bind_ok in E as ([[v0 n0] r0] & Eg & E). apply Ok_inj in E. injection E as _ <- _.
    destruct r0; [|by exists it]. exists it. split; [|done]. destruct Hb as (i & Hi & ->). exists i.
    split; [by eapply tryGet_refs|done].
  - destruct (key !! pos) as [b|]; [|done]. apply bind_ok in E as (c & Ec & E).
    unfold child in Ec. destruct (cs !! child_index b) as [c0|] eqn:Eb; [|done]. apply Ok_inj in Ec as ->.
    apply bind_ok in E as ([[v0 n0] r0] & Eg & E). apply Ok_inj in E. injection E as _ <- _.
    destruct r0; [|by exists it]. exists it. split; [|done]. destruct Hb as (its & Hl & Hc & ->). exists its.
    split; [unfold set_child; by rewrite length_insert|]. split; [|done].
    intros j d i Ed Ei. apply list_lookup_insert_Some in Ed as [(<- & -> & _)|[_ Ed]]; [|by eapply Hc].
    eapply tryGet_refs; [by eapply Hc|done].
Qed.

Lemma root_below n : root_ok db_node n → under_sound n.
Proof.
  intros [->|(it & Hb & _)]; [done|]. destruct n as [|k c fl|cs fl| |]; try done; cbn in *.
  - destruct Hb as (i & Hi & _). by exists i.
  - destruct Hb as (its & Hl & Hc & _). intros j c Ec.
    destruct (lookup_lt_is_Some_2 its j) as [i Ei]; [apply lookup_lt_Some in Ec; lia|]. exists i. by eapply Hc.
Qed.

Lemma sound_root n : sound db_node n → n = nilNode ∨ loaded n → root_ok db_node n.
Proof. intros [it Hr] [->|Hl]; [by left|by eapply refs_root]. Qed.

(** *** [Hash] at the root *)

Lemma hash_root n it : wf db_node false n → body db_node n it →
  (∀ h, (cache n).1 = Some h → h = hashData (item_bytes it)) →
  ∃ n', hash n true = (hashNode (hashData (item_bytes it)), n') ∧ strip n' = strip n ∧ root_ok db_node n'.
Proof.
  intros Hw Hb Hcache.
  destruct (cache n).1 as [h|] eqn:Ec.
  { exists n. split; [|split; [done|right; exists it; split; [done|]; by rewrite Ec]].
    rewrite <- (Hcache h eq_refl). destruct n as [|k c fl|cs fl| |]; try done; cbn [hash cache fst] in *; by rewrite Ec. }
  destruct n as [|k c fl|cs fl| |]; try done; cbn [cache fst] in Ec.
  - destruct Hb as (i & Hi & ->). inversion Hw as [|t ? ? ? Hk Hhex Hc Hns| |]; subst.
    destruct (hash_short db_node k c fl true i Ec Hi) as (cc & kc & -> & <- & Hkc & Hs).
    { intros _. by apply (hash_spec db_node t). }
    unfold toHash. rewrite andb_false_r, nodeToBytes_item. eexists. split; [done|]. split; [cbn; by rewrite Hs|].
    right. eexists. split; [cbn; eauto|]. cbn. by intros h [= <-].
  - destruct Hb as (its & Hl & Hits & ->). inversion Hw as [| |? ? H17 Hc _|]; subst.
    destruct (hash_full db_node cs fl true its Ec Hl) as (cc & kc & -> & <- & Hkl & Hkc & Hs).
    { intros j c i Ej Ei. pose proof (Hits _ _ _ Ej Ei) as Hci. split; [done|]. split.
      - intros Hn. by apply (hash_spec db_node _ _ (Hc _ _ Ej Hn)).
      - intros Hj. assert (j = 16%nat) as -> by (apply lookup_lt_Some in Ej; lia).
        destruct (decide (c = nilNode)) as [->|Hn]; [by inversion Hci|].
        specialize (Hc _ _ Ej Hn). rewrite bool_decide_true in Hc by done. inversion Hc; subst. by inversion Hci. }
    unfold toHash. rewrite andb_false_r, nodeToBytes_item. eexists. split; [done|]. split; [cbn; by rewrite Hs|].
    right. exists (Lst (map node_item cc)). split; [|cbn; by intros h [= <-]].
    exists (map node_item cc). split; [by rewrite Hl, Hkl|]. split; [exact Hkc|done].
Qed.
End Sound.

(** ** Tries and finite maps *)

#[export] Instance byte_countable : Countable byte := inj_countable' b2z z2b z2b_b2z.

Section Refinement.
Context `{Crypto} (db_node : Hash → result (option node)).

(** The trie [t] stores the map [m]. *)
Record stores (t : Trie) (m : gmap bytes bytes) : Prop := {
  st_wf : tr_root t = nilNode ∨ wf db_node false (tr_root t);
  st_root : root_ok db_node (tr_root t);
  st_has : ∀ hk v, has db_node (tr_root t) hk v ↔ ∃ k, hk = keybytesToHex k ∧ m !! k = Some v
}.

Lemma root_shape n : root_ok db_node n → n = nilNode ∨ loaded n.
Proof. intros [->|(it & Hb & _)]; [by left|right]. by destruct n. Qed.

Lemma root_fuel n k : root_ok db_node n → (need n k ≤ key_fuel k)%nat.
Proof. intros Hr. unfold need, key_fuel. destruct n; lia. Qed.

(** One lookup. *)
Lemma TryGet_stores k t m : stores t m →
  ∃ t', TryGet db_node k t = (Ok (m !! k), t') ∧ stores t' m.
Proof.
  intros [Hw Hr Hh]. unfold TryGet. set (hk := keybytesToHex k).
  destruct (tryGet_spec db_node (key_fuel hk) (tr_root t) false hk 0) as (val & n' & r & E & Hval & Hnil & Hwf & Heq & _);
    [done|lia|apply keybytesToHex_hexkey|by apply root_fuel|].
  rewrite drop_0 in Hval. pose proof (tryGet_root db_node _ _ _ _ _ _ _ Hr E) as Hr'.
  rewrite E. assert (Hvm : val = m !! k).
  { apply option_eq. intros x. rewrite Hval, Hh. unfold hk. split; [|eauto].
    by intros (k' & ->%keybytesToHex_inj & Hx). }
  rewrite Hvm. destruct r; eexists; (split; [done|]); [|done]. split; cbn [tr_root]; [|done|].
  - destruct (decide (tr_root t = nilNode)) as [En|Hn]; [left; by apply Hnil|right; by apply Hwf].
  - intros q v. by rewrite Heq.
Qed.

(** A root that [insert] or [delete] returned. *)
Lemma stores_new w k n' t m :
  stores t m → n' = tr_root t ∨ sound db_node n' → n' = nilNode ∨ wf db_node false n' → (∀ h, n' ≠ hashNode h) →
  (∀ q x, has db_node n' q x ↔ upd db_node w (tr_root t) (keybytesToHex k) q x) →
  ∀ u, stores (MkTrie n' (tr_owner t) u) (match w with Some v => <[k := v]> m | None => base.delete k m end).
Proof.
  intros [Hw Hr Hh] Hs Hw' Hnh Hu u. split; cbn [tr_root]; [done| |].
  - destruct Hs as [->|Hs]; [done|]. apply sound_root; [done|].
    destruct Hw' as [->|Hw']; [by left|right]. inversion Hw'; subst; try done. by destruct (Hnh h).
  - intros q x. rewrite Hu. unfold upd. rewrite Hh. destruct w as [v|]; split.
    + intros [[-> [= <-]]|[Hne (k' & -> & Hx)]]; [exists k; by rewrite lookup_insert_eq|].
      exists k'. rewrite lookup_insert_ne by (intros ->; done). done.
    + intros (k' & -> & Hx). destruct (decide (k' = k)) as [->|Hne].
      * rewrite lookup_insert_eq in Hx. injection Hx as ->. by left.
      * rewrite lookup_insert_ne in Hx by done. right. split; [by intros ?%keybytesToHex_inj|eauto].
    + intros [[_ ?]|[Hne (k' & -> & Hx)]]; [done|]. exists k'. rewrite lookup_delete_ne by (intros ->; done). done.
    + intros (k' & -> & Hx). apply lookup_delete_Some in Hx as [Hne Hx]. right.
      split; [by intros ?%keybytesToHex_inj|eauto].
Qed.

Lemma insert_not_hash fuel n key v d n' : n = nilNode ∨ loaded n →
  insert db_node fuel n key (valueNode v) = Ok (d, n') → key ≠ [] → ∀ h, n' ≠ hashNode h.
Proof.
  destruct fuel as [|fuel]; [done|]. cbn [insert]. intros Hl E Hk h ->. destruct key as [|b key]; [done|].
  destruct n as [|k c fl|cs fl| |]; try (by destruct Hl).
  - destruct (_ =? _)%nat.
    + apply bind_ok in E as ([[] ?] & _ & E); done.
    + destruct (k !! _); [|done]. destruct (_ !! _); [|done].
      apply bind_ok in E as ([? ?] & _ & E). apply bind_ok in E as (? & _ & E).
      apply bind_ok in E as ([? ?] & _ & E). apply bind_ok in E as (? & _ & E). by destruct (_ =? _)%nat.
  - apply bind_ok in E as (? & _ & E). apply bind_ok in E as ([[] ?] & _ & E); done.
Qed.

Lemma delete_not_hash fuel n key d n' : n = nilNode ∨ loaded n →
  delete db_node fuel n key = Ok (d, n') → ∀ h, n' ≠ hashNode h.
Proof.
  destruct fuel as [|fuel]; [done|]. cbn [delete]. intros Hl E h ->.
  destruct n as [|k c fl|cs fl| |]; try (by destruct Hl); try done.
  - destruct (_ <? _)%nat; [done|]. destruct (_ =? _)%nat; [done|].
    apply bind_ok in E as ([[] c'] & _ & E); [|done]. by destruct c'.
  - destruct key as [|b key]; [done|]. apply bind_ok in E as (? & _ & E). apply bind_ok in E as ([[] c'] & _ & E); [|done].
    cbn [negb] in E. destruct (is_nil c'); [|done]. cbn [negb] in E. destruct (only_child _ _ _); [|done].
    destruct (_ =? _)%nat; [done|]. apply bind_ok in E as (cn & _ & E). by destruct cn.
Qed.

Lemma TryDelete_stores k t m : stores t m →
  ∃ t', TryDelete db_node k t = (Ok tt, t') ∧ stores t' (base.delete k m).
Proof.
  intros Hst. destruct (Hst) as [Hw Hr Hh]. unfold TryDelete. cbn zeta. cbn [tr_root]. set (hk := keybytesToHex k).
  destruct (delete_spec db_node (key_fuel hk) (tr_root t) false hk) as (d & n' & E & Hw' & Hu & _);
    [done|apply keybytesToHex_hexkey|by apply root_fuel|].
  rewrite E. eexists. split; [done|]. apply (stores_new None k n' t m); try done.
  - by eapply delete_sound; [apply root_below|].
  - by eapply delete_not_hash; [apply root_shape|].
Qed.

Lemma TryUpdate_stores k v t m : stores t m →
  ∃ t', TryUpdate db_node k v t = (Ok tt, t') ∧
    stores t' (if bool_decide (v = []) then base.delete k m else <[k := v]> m).
Proof.
  intros Hst. unfold TryUpdate. destruct (bool_decide (v = [])) eqn:Ev; [by apply TryDelete_stores|].
  apply bool_decide_eq_false in Ev. destruct (Hst) as [Hw Hr Hh]. cbn zeta. cbn [tr_root]. set (hk := keybytesToHex k).
  destruct (insert_spec db_node (key_fuel hk) v Ev (tr_root t) false hk) as (d & n' & E & Hw' & _ & Hu & _);
    [done|apply keybytesToHex_hexkey|by apply root_fuel|].
  rewrite E. eexists. split; [done|]. apply (stores_new (Some v) k n' t m); try done.
  - by eapply insert_sound; [apply root_below|apply sound_value|].
  - by right.
  - eapply insert_not_hash; [by apply root_shape|done|]. apply hexkey_nonempty, keybytesToHex_hexkey.
Qed.

Lemma stores_empty owner : stores (MkTrie nilNode owner 0) ∅.
Proof.
  split; cbn; [by left|by left|]. intros hk v. split; [by intros ?%has_nil|]. intros (k & _ & Hk). by rewrite lookup_empty in Hk.
Qed.

Lemma Trie_Hash_root t h n' : tr_root t ≠ nilNode → hash (tr_root t) true = (hashNode h, n') →
  Trie_Hash t = (BytesToHash h, MkTrie n' (tr_owner t) 0).
Proof. intros Hn E. unfold Trie_Hash. destruct (tr_root t); [by destruct Hn|rewrite E; reflexivity..]. Qed.

(** Hashing changes only what is cached. *)
Lemma Trie_Hash_stores t m : stores t m → stores (Trie_Hash t).2 m.
Proof.
  intros Hst. destruct (Hst) as [Hw Hr Hh].
  destruct (decide (tr_root t = nilNode)) as [En|Hn]; [unfold Trie_Hash; by rewrite En|].
  destruct Hw as [?|Hw]; [done|]. destruct Hr as [?|(it & Hb & Hc)]; [done|].
  destruct (hash_root db_node (tr_root t) it Hw Hb Hc) as (n' & E & Hs & Hr').
  rewrite (Trie_Hash_root t _ _ Hn E). split; cbn [tr_root snd]; [right|done|].
  - apply wf_strip. rewrite Hs. by apply wf_strip.
  - intros hk v. rewrite <- has_strip, Hs, has_strip. apply Hh.
Qed.
End Refinement.

(** Two tries with the same contents have the same root hash. *)
Lemma Trie_Hash_canonical `{Crypto} db1 db2 t1 t2 m :
  stores db1 t1 m → stores db2 t2 m → (Trie_Hash t1).1 = (Trie_Hash t2).1.
Proof.
  intros [W1 R1 H1] [W2 R2 H2].
  assert (He : eqv db1 db2 (tr_root t1) (tr_root t2)) by (intros k x; by rewrite H1, H2).
  destruct W1 as [E1|W1], W2 as [E2|W2].
  - unfold Trie_Hash. by rewrite E1, E2.
  - exfalso. destruct (wf_inhabited db2 _ _ W2) as (k & x & Hx). apply He in Hx. rewrite E1 in Hx. by apply has_nil in Hx.
  - exfalso. destruct (wf_inhabited db1 _ _ W1) as (k & x & Hx). apply He in Hx. rewrite E2 in Hx. by apply has_nil in Hx.
  - destruct R1 as [E|(b1 & B1 & C1)]; [by rewrite E in W1; inversion W1|].
    destruct R2 as [E|(b2 & B2 & C2)]; [by rewrite E in W2; inversion W2|].
    destruct (hash_root db1 _ _ W1 B1 C1) as (n1 & E1 & _), (hash_root db2 _ _ W2 B2 C2) as (n2 & E2 & _).
    assert (b1 = b2) as ->.
    { eapply (canonical_body db1 db2 (tr_root t1) (tr_root t2)); try done.
      intros t c1 c2 i1 i2 _ Wc1 Wc2 Hec Rc1 Rc2. by eapply (canonical db1 db2 t c1). }
    rewrite (Trie_Hash_root t1 _ _ (wf_not_nil _ _ _ W1) E1), (Trie_Hash_root t2 _ _ (wf_not_nil _ _ _ W2) E2). cbn [fst]. reflexivity.
Qed.

(** ** Runs *)

Inductive op := OpGet (k : bytes) | OpUpdate (k v : bytes) | OpDelete (k : bytes) | OpHash.
Inductive output := OutValue (v : option bytes) | OutDone | OutHash (h : Hash).

Section Runs.
Context `{Crypto}.

(** The trie. *)
Definition trie_step (db : Hash → result (option node)) (o : op) (t : Trie) : result output * Trie :=
  match o with
  | OpGet k => let '(r, t) := TryGet db k t in (v ← r; Ok (OutValue v), t)
  | OpUpdate k v => let '(r, t) := TryUpdate db k v t in (_ ← r; Ok OutDone, t)
  | OpDelete k => let '(r, t) := TryDelete db k t in (_ ← r; Ok OutDone, t)
  | OpHash => let '(h, t) := Trie_Hash t in (Ok (OutHash h), t)
  end.
Fixpoint trie_run (db : Hash → result (option node)) (os : list op) (t : Trie) : list (result output) :=
  match os with
  | [] => []
  | o :: os => let '(r, t) := trie_step db o t in r :: trie_run db os t
  end.

(** The specification: a finite map; its root hash is that of a new trie filled
    with its bindings. *)
Definition no_db (h : Hash) : result (option node) := Ok None.
Definition fill (m : gmap bytes bytes) : Trie :=
  foldl (fun t kv => (TryUpdate no_db kv.1 kv.2 t).2) (MkTrie nilNode 0 0) (map_to_list m).
Definition root_hash (m : gmap bytes bytes) : Hash := (Trie_Hash (fill m)).1.

Definition map_step (o : op) (m : gmap bytes bytes) : output * gmap bytes bytes :=
  match o with
  | OpGet k => (OutValue (m !! k), m)
  | OpUpdate k v => (OutDone, if bool_decide (v = []) then base.delete k m else <[k := v]> m)
  | OpDelete k => (OutDone, base.delete k m)
  | OpHash => (OutHash (root_hash m), m)
  end.
Fixpoint map_run (os : list op) (m : gmap bytes bytes) : list output :=
  match os with
  | [] => []
  | o :: os => let '(r, m) := map_step o m in r :: map_run os m
  end.

(** A trie that stores [m] stores no empty value. *)
Lemma has_nonempty db t n : wf db t n → ∀ k v, has db n k v → v ≠ [].
Proof.
  induction 1 as [w Hv|t k c fl Hk Hhex Hc IH Hns|cs fl Hl Hcs IH _|h n E Hld Hw IH]; intros q v Hx.
  - apply has_value_iff in Hx as [_ ->]. done.
  - apply has_short_iff in Hx as (r & _ & Hx). by eapply IH.
  - apply has_full_iff in Hx as (b & r & c & _ & Ec & Hx). destruct (decide (c = nilNode)) as [->|Hn].
    + by apply has_nil in Hx.
    + by eapply IH.
  - eapply IH. by rewrite <- (has_hash_iff db h n).
Qed.

Lemma stores_values db t m : stores db t m → map_Forall (fun _ v => v ≠ []) m.
Proof.
  intros [Hw _ Hh] k v Hk. assert (Hx : has db (tr_root t) (keybytesToHex k) v) by (apply Hh; eauto).
  destruct Hw as [E|Hw]; [rewrite E in Hx; by apply has_nil in Hx|by eapply has_nonempty].
Qed.

Lemma fill_stores m : map_Forall (fun _ v => v ≠ []) m → stores no_db (fill m) m.
Proof.
  intros Hm. unfold fill.
  assert (Hgo : ∀ l t m0, stores no_db t m0 → NoDup l.*1 → (∀ k v, (k, v) ∈ l → v ≠ []) →
    stores no_db (foldl (fun t kv => (TryUpdate no_db kv.1 kv.2 t).2) t l) (list_to_map l ∪ m0)).
  { induction l as [|[k v] l IH]; intros t m0 Ht Hnd Hl; [cbn; by rewrite map_empty_union|].
    cbn [foldl fst snd]. destruct (TryUpdate_stores no_db k v t m0 Ht) as (t' & E & Ht').
    rewrite bool_decide_false in Ht' by (apply (Hl k); left). rewrite E. cbn [snd].
    cbn in Hnd. apply NoDup_cons in Hnd as [Hk Hnd].
    assert (Em : list_to_map ((k, v) :: l) ∪ m0 = list_to_map l ∪ <[k := v]> m0).
    { cbn. rewrite <- insert_union_l, insert_union_r; [done|]. by apply not_elem_of_list_to_map_1. }
    rewrite Em. apply IH; [done|done|]. intros k' v' Hin. apply (Hl k'). by right. }
  specialize (Hgo (map_to_list m) (MkTrie nilNode 0 0) ∅ (stores_empty no_db 0)).
  rewrite list_to_map_to_list, map_union_empty in Hgo. apply Hgo; [apply NoDup_fst_map_to_list|].
  intros k v Hin. apply elem_of_map_to_list in Hin. by apply (Hm k).
Qed.

Lemma trie_step_refines db o t m : stores db t m →
  ∃ t', trie_step db o t = (Ok (map_step o m).1, t') ∧ stores db t' (map_step o m).2.
Proof.
  intros Hst. destruct o as [k|k v|k|]; cbn [trie_step map_step fst snd].
  - destruct (TryGet_stores db k t m Hst) as (t' & -> & Ht'). eauto.
  - destruct (TryUpdate_stores db k v t m Hst) as (t' & -> & Ht'). eauto.
  - destruct (TryDelete_stores db k t m Hst) as (t' & -> & Ht'). eauto.
  - assert (Hf : stores no_db (fill m) m) by (by eapply fill_stores, stores_values).
    pose proof (Trie_Hash_canonical db no_db t (fill m) m Hst Hf) as E.
    pose proof (Trie_Hash_stores db t m Hst) as Ht'. unfold root_hash. rewrite <- E.
    destruct (Trie_Hash t) as [h t']. exists t'. split; [done|exact Ht'].
Qed.
End Runs.

(** C12: the trie is a finite map. From any trie that stores a map, whatever part
    of it is still in the database, every sequence of lookups, updates, deletions
    and root hashes returns, without errors and without running out of steps,
    what the finite map returns; the root hash is that of a new trie built from
    the bindings of the map, so it depends neither on the history of updates nor
    on what was loaded or cached before. *)
Theorem trie_refines_map `{Crypto} db os t m :
  stores db t m → trie_run db os t = Ok <$> map_run os m.
Proof.
  revert t m. induction os as [|o os IH]; intros t m Hst; [done|]. cbn [trie_run map_run].
  destruct (trie_step_refines db o t m Hst) as (t' & -> & Ht').
  destruct (map_step o m) as [r m'] eqn:Em. rewrite fmap_cons. f_equal. by apply IH.
Qed.

(** Two entries under a common prefix, hashed on the way, then one removed. *)
Module TrieDemo.
Definition sum_crypto : Crypto :=
  {| keccak256 := foldl (fun h c => (h * 257 + b2z c) mod (2 ^ 61 - 1)) 1;
     RecoverPubkey _ sig := Some sig |}.
#[export] Existing Instance sum_crypto.

Definition key1 : bytes := [Byte.x12; Byte.x34].
Definition key2 : bytes := [Byte.x12; Byte.x3f].
Definition long : bytes := replicate 40 Byte.x55.
Definition ops : list op :=
  [OpUpdate key1 long; OpUpdate key2 [Byte.x01]; OpHash; OpGet key1; OpDelete key2; OpGet key2; OpGet key1].
Definition empty : Trie := MkTrie nilNode 0 0.
Definition outputs : list output := map_run ops ∅.

Lemma outputs_eq : drop 3 outputs =
  [OutValue (Some long); OutDone; OutValue None; OutValue (Some long)].
Proof. vm_compute. reflexivity. Qed.
End TrieDemo.

Lemma trie_refines_map_witness :
  trie_run (H := TrieDemo.sum_crypto) no_db TrieDemo.ops TrieDemo.empty = Ok <$> TrieDemo.outputs.
Proof.
  apply (trie_refines_map (H := TrieDemo.sum_crypto) no_db TrieDemo.ops TrieDemo.empty ∅).
  apply stores_empty.
Defined.
