(* ===== verification/TrieNode.v ===== *)
(** * Stored trie nodes (chain/trie/node.go)

    Decoding of the bytes a node is stored and proved with. The encoding of a
    node of a trie is read back: what comes out has the same keys and the same
    reference, with every large subtree left as its hash. *)

From S2P Require Import Prelude Bytes Rlp Types Text TrieKeys Trie TrieMap TrieHash.
From stdpp Require Import pretty.
Open Scope Z_scope.

(** ** Decoding (node.go) *)

(** An error, or one with the path of the node it was found in. *)
Inductive decodeErr :=
| plainError (e : error)
| decodeError (what : error) (stack : list string).

(** [wrapError]. *)
Definition wrapError {A} (r : decodeErr + A) (ctx : string) : decodeErr + A :=
  match r with
  | inl (decodeError what stack) => inl (decodeError what (stack ++ [ctx]))
  | inl (plainError e) => inl (decodeError e [ctx])
  | inr a => inr a
  end.

(** The result of a call outside the package, as one of this package. *)
Definition lift {A} (r : result A) : decodeErr + A :=
  match r with Ok a => inr a | Err e => inl (plainError e) | Panic w => inl (plainError (New w)) end.

#[export] Instance decode_bind : MBind (sum decodeErr) := fun A B f m =>
  match m with inr a => f a | inl e => inl e end.

Definition hashLen : nat := 32.

Section Decode.
(** The recursive call [decodeNode(nil, buf)]. *)
Context (decode : bytes → decodeErr + node).

(** [decodeRef]. *)
Definition decodeRef (buf : bytes) : decodeErr + (node * bytes) :=
  '(kind, val, rest) ← lift (Split buf);
  match kind with
  | KList =>
      let size := (length buf - length rest)%nat in
      if (hashLen <? size)%nat then
        inl (plainError (Errorf "oversized embedded node (size is %d bytes, want size < %d)"
          [Z.of_nat size; Z.of_nat hashLen]))
      else n ← decode buf; inr (n, rest)
  | KString =>
      if (length val =? 0)%nat then inr (nilNode, rest)
      else if (length val =? 32)%nat then inr (hashNode val, rest)
      else inl (plainError (Errorf "invalid RLP string size %d (want 0 or 32)" [zlen val]))
  | KByte => inl (plainError (Errorf "invalid RLP string size %d (want 0 or 32)" [zlen val]))
  end.

(** [decodeShort]. *)
Definition decodeShort (hash : option bytes) (elems : bytes) : decodeErr + node :=
  '(kbuf, rest) ← lift (SplitString elems);
  let flag := MkFlag hash false in
  let key := compactToHex kbuf in
  if hasTerm key then
    match SplitString rest with
    | Ok (val, _) => inr (shortNode key (valueNode val) flag)
    | _ => inl (plainError (New "invalid value node: %v"))
    end
  else
    '(r, _) ← wrapError (decodeRef rest) "val";
    inr (shortNode key r flag).

(** The loop of [decodeFull] over the first sixteen children; [i] counts down. *)
Fixpoint decode_children (i : nat) (elems : bytes) : decodeErr + (list node * bytes) :=
  match i with
  | O => inr ([], elems)
  | S i =>
      '(cld, rest) ← wrapError (decodeRef elems) ("[" +:+ pretty (Z.of_nat (15 - i)) +:+ "]");
      '(cs, rest) ← decode_children i rest;
      inr (cld :: cs, rest)
  end.

(** [decodeFull]. *)
Definition decodeFull (hash : option bytes) (elems : bytes) : decodeErr + node :=
  '(cs, elems) ← decode_children 16 elems;
  '(val, _) ← lift (SplitString elems);
  inr (fullNode (cs ++ [if (0 <? length val)%nat then valueNode val else nilNode]) (MkFlag hash false)).
End Decode.

(** [decodeNodeUnsafe]. An embedded node is shorter than the list it is in. *)
Fixpoint decode_node (fuel : nat) (hash : option bytes) (buf : bytes) : decodeErr + node :=
  match fuel with
  | O => inl (plainError (New "out of fuel"))
  | S fuel =>
      if (length buf =? 0)%nat then inl (plainError ErrUnexpectedEOF)
      else
        match SplitList buf with
        | Ok (elems, _) =>
            let c := match CountValues elems with Ok c => c | _ => 0 end in
            if c =? 2 then wrapError (decodeShort (decode_node fuel None) hash elems) "short"
            else if c =? 17 then wrapError (decodeFull (decode_node fuel None) hash elems) "full"
            else inl (plainError (Errorf "invalid number of list elements: %v" [c]))
        | _ => inl (plainError (New "decode error: %v"))
        end
  end.

(** [decodeNode], and [mustDecodeNode], which panics on an error. *)
Definition decodeNode (hash : option bytes) (buf : bytes) : decodeErr + node :=
  decode_node (S (length buf)) hash buf.
Definition mustDecodeNode (hash : option bytes) (buf : bytes) : result node :=
  match decodeNode hash buf with inr n => Ok n | inl _ => Panic "node %x: %v" end.

(** ** Enough fuel *)

Lemma Split_rest b k c r : Split b = Ok (k, c, r) → (length r ≤ length b ∧ length c ≤ length b)%nat.
Proof. unfold Split. intros E. inv_ok. rewrite length_take, !length_drop. lia. Qed.

Lemma readKind_list_tag b ts cs : readKind b = Ok (KList, ts, cs) → 1 ≤ ts.
Proof.
  unfold readKind. intros E. inv_ok; try lia; bprop; lia.
Qed.

Section Agree.
Context (d1 d2 : bytes → decodeErr + node) (n : nat) (Hd : ∀ b, (length b ≤ n)%nat → d1 b = d2 b).

Lemma decodeRef_agree buf : (length buf ≤ n)%nat → decodeRef d1 buf = decodeRef d2 buf.
Proof.
  intros Hl. unfold decodeRef. destruct (lift (Split buf)) as [|[[k v] r]]; [done|]. cbn.
  destruct k; [done..|]. by rewrite Hd.
Qed.

Lemma decodeRef_rest buf c r : decodeRef d1 buf = inr (c, r) → (length r ≤ length buf)%nat.
Proof.
  unfold decodeRef. destruct (Split buf) as [[[k v] r']| |] eqn:E; try done. cbn.
  apply Split_rest in E as [Hr _]. destruct k; [done|repeat case_match; naive_solver|].
  case_match; [done|]. destruct (d1 buf); naive_solver.
Qed.

Lemma decodeShort_agree hash buf : (length buf ≤ n)%nat → decodeShort d1 hash buf = decodeShort d2 hash buf.
Proof.
  intros Hl. unfold decodeShort. destruct (SplitString buf) as [[k r]| |] eqn:E; try done. cbn.
  rewrite decodeRef_agree; [done|]. unfold SplitString in E. inv_ok.
  all: match goal with E : Split _ = _ |- _ => apply Split_rest in E end; lia.
Qed.

Lemma decode_children_agree i : ∀ buf, (length buf ≤ n)%nat → decode_children d1 i buf = decode_children d2 i buf.
Proof.
  induction i as [|i IH]; intros buf Hl; [done|]. cbn [decode_children].
  rewrite <- decodeRef_agree by done. destruct (decodeRef d1 buf) as [e|[c r]] eqn:E; [by destruct e|].
  apply decodeRef_rest in E. cbn. rewrite IH by lia. done.
Qed.
End Agree.

Lemma decode_node_fuel f1 : ∀ f2 hash buf, (length buf < f1)%nat → (length buf < f2)%nat →
  decode_node f1 hash buf = decode_node f2 hash buf.
Proof.
  induction f1 as [|f1 IH]; intros [|f2] hash buf H1 H2; [lia..|]. cbn [decode_node].
  destruct (Nat.eqb_spec (length buf) 0) as [|Hne]; [reflexivity|].
  destruct (SplitList buf) as [[elems r]| |] eqn:E; [|reflexivity..].
  assert (Hl : (length elems < length buf)%nat).
  { unfold SplitList, Split in E. destruct (readKind buf) as [[[k ts] cs]| |] eqn:Ek; try done.
    cbn in E. destruct k; try done. apply Ok_inj in E. injection E as <- _.
    apply readKind_list_tag in Ek. rewrite length_take, length_drop. lia. }
  assert (Hd : ∀ b, (length b ≤ length elems)%nat → decode_node f1 None b = decode_node f2 None b).
  { intros b Hb. apply IH; lia. }
  rewrite (decodeShort_agree _ _ _ Hd) by done.
  unfold decodeFull. rewrite (decode_children_agree _ _ _ Hd) by done. reflexivity.
Qed.

(** ** Encodings are read back *)

(** The items [decodeRef] and [decodeNode] accept, with what they stand for. *)
Inductive valid_ref : item → node → Prop :=
| vr_nil : valid_ref (Str []) nilNode
| vr_hash h : length h = 32%nat → valid_ref (Str h) (hashNode h)
| vr_list l n : (length (encode (Lst l)) ≤ 32)%nat → valid_node None (Lst l) n → valid_ref (Lst l) n
with valid_node : option bytes → item → node → Prop :=
| vn_leaf hash k v :
    hasTerm (compactToHex k) = true →
    valid_node hash (Lst [Str k; Str v]) (shortNode (compactToHex k) (valueNode v) (MkFlag hash false))
| vn_extension hash k i n :
    hasTerm (compactToHex k) = false → valid_ref i n →
    valid_node hash (Lst [Str k; i]) (shortNode (compactToHex k) n (MkFlag hash false))
| vn_full hash its ns v :
    length its = 16%nat → Forall2 valid_ref its ns →
    valid_node hash (Lst (its ++ [Str v]))
      (fullNode (ns ++ [if (0 <? length v)%nat then valueNode v else nilNode]) (MkFlag hash false)).

Lemma SplitString_str s rest : zlen (encode (Str s) ++ rest) < two64 →
  SplitString (encode (Str s) ++ rest) = Ok (s, rest).
Proof.
  intros Hl. unfold SplitString. rewrite Split_encode by done. cbn.
  destruct s as [|b [|c s]]; try done. by destruct (_ <=? _).
Qed.

Lemma SplitList_lst l rest : zlen (encode (Lst l) ++ rest) < two64 →
  SplitList (encode (Lst l) ++ rest) = Ok (encode_list l, rest).
Proof. intros Hl. unfold SplitList. by rewrite Split_encode. Qed.

Lemma length_encode_list l : (length (encode_list l) < length (encode (Lst l)))%nat.
Proof.
  rewrite (encode_head (Lst l)) by done. rewrite length_app. cbn [split_kind split_content].
  assert (H : (1 ≤ length (puthead (kind_small KList) (kind_large KList) (zlen (encode_list l))))%nat); [|lia].
  unfold puthead. by case_match; cbn; lia.
Qed.

Section Accept.
Context (d : bytes → decodeErr + node) (n : nat)
  (Hd : ∀ l c rest, (length (encode (Lst l)) ≤ n)%nat → zlen (encode (Lst l) ++ rest) < two64 →
     valid_node None (Lst l) c → d (encode (Lst l) ++ rest) = inr c).

Lemma decodeRef_valid it c rest : (length (encode it) ≤ n)%nat → zlen (encode it ++ rest) < two64 →
  valid_ref it c → decodeRef d (encode it ++ rest) = inr (c, rest).
Proof.
  intros Hn Hl Hv. unfold decodeRef. rewrite Split_encode by done. cbn [lift mbind decode_bind].
  destruct Hv as [|h Hh|l c Hs Hv].
  - done.
  - destruct h as [|x [|y h]]; [done..|]. cbn [split_kind split_content]. by rewrite Hh.
  - cbn [split_kind]. rewrite length_app, Nat.add_sub. rewrite (proj2 (Nat.ltb_ge _ _)) by done.
    by rewrite (Hd l c rest).
Qed.

Lemma decode_children_valid its : ∀ cs rest, (length (encode_list its) ≤ n)%nat →
  zlen (encode_list its ++ rest) < two64 → Forall2 valid_ref its cs → 
  decode_children d (length its) (encode_list its ++ rest) = inr (cs, rest).
Proof.
  induction its as [|it its IH]; intros cs rest Hn Hl Hv; inversion Hv as [|? c ? cs' Hc Hcs]; subst; [done|].
  rewrite encode_list_cons in *. rewrite length_app in Hn. rewrite <- app_assoc in *.
  cbn [decode_children length]. rewrite (decodeRef_valid it c) by (lia || done). cbn [wrapError mbind decode_bind].
  rewrite (IH cs'); [done|lia| |done].
  rewrite zlen_app in Hl. pose proof (zlen_nonneg (encode it)). lia.
Qed.
End Accept.

Lemma encode_list_app a b : encode_list (a ++ b) = encode_list a ++ encode_list b.
Proof. unfold encode_list. by rewrite map_app, concat_app. Qed.

(** A valid node is decoded, whatever follows it. *)
Lemma decode_node_valid fuel : ∀ hash l c rest, (length (encode (Lst l)) ≤ fuel)%nat →
  zlen (encode (Lst l) ++ rest) < two64 → valid_node hash (Lst l) c →
  decode_node fuel hash (encode (Lst l) ++ rest) = inr c.
Proof.
  induction fuel as [|fuel IH]; intros hash l c rest Hf Hl Hv; [pose proof (encode_nonempty (Lst l)); lia|].
  pose proof (length_encode_list l) as Hlt. cbn [decode_node].
  rewrite (proj2 (Nat.eqb_neq _ _)) by (rewrite length_app; lia). rewrite SplitList_lst by done.
  assert (Hs : zlen (encode_list l) < two64).
  { rewrite zlen_app in Hl. pose proof (zlen_nonneg rest). unfold zlen in *. lia. }
  unfold CountValues. rewrite count_loop_encode by (done || lia).
  inversion Hv as [? k v Ht|? k i m Ht Hi|? its ns v H16 Hns]; subst.
  - cbn [Z.eqb]. unfold decodeShort. cbn [length zlen Z.of_nat Pos.of_succ_nat Pos.succ Z.add Z.eqb Pos.eqb].
    rewrite !encode_list_cons in *. rewrite SplitString_str by done. cbn [lift mbind decode_bind]. rewrite Ht.
    rewrite SplitString_str; [done|]. rewrite zlen_app in Hs. pose proof (zlen_nonneg (encode (Str k))). lia.
  - unfold decodeShort. cbn [length zlen Z.of_nat Pos.of_succ_nat Pos.succ Z.add Z.eqb Pos.eqb].
    rewrite !encode_list_cons in *. rewrite !length_app in Hlt. rewrite SplitString_str by done. cbn [lift mbind decode_bind]. rewrite Ht.
    rewrite (decodeRef_valid _ fuel (fun l c rest => IH None l c rest) i m); [done|lia| |done].
    rewrite zlen_app in Hs. pose proof (zlen_nonneg (encode (Str k))). lia.
  - replace (0 + zlen (its ++ [Str v])) with 17 by (unfold zlen; rewrite length_app; cbn; lia).
    cbn [Z.eqb Pos.eqb]. unfold decodeFull. rewrite encode_list_app in *. rewrite length_app in Hlt.
    rewrite <- H16 at 1. rewrite (decode_children_valid _ fuel (fun l c rest => IH None l c rest) its ns) by (done || lia).
    cbn [lift mbind decode_bind]. rewrite encode_list_cons. rewrite SplitString_str; [done|].
    rewrite zlen_app in Hs. rewrite encode_list_cons in Hs. pose proof (zlen_nonneg (encode_list its)). lia.
Qed.

Lemma decodeNode_valid hash l c : zlen (encode (Lst l)) < two64 → valid_node hash (Lst l) c →
  decodeNode hash (encode (Lst l)) = inr c.
Proof.
  intros Hl Hv. unfold decodeNode. rewrite <- (app_nil_r (encode (Lst l))) at 2.
  apply decode_node_valid; [lia|by rewrite app_nil_r|done].
Qed.

(** ** The nodes of a trie *)

Section Stored.
Context `{Crypto} (db_node : Hash → result (option node)).

(** [shadow n n']: [n'] is [n] with some of its large subtrees left as hashes. *)
Inductive shadow : node → node → Prop :=
| sh_nil : shadow nilNode nilNode
| sh_value v : shadow (valueNode v) (valueNode v)
| sh_hash n h : refs db_node n (Str h) → n ≠ nilNode → (∀ v, n ≠ valueNode v) → shadow n (hashNode h)
| sh_short k c c' fl fl' : shadow c c' → shadow (shortNode k c fl) (shortNode k c' fl')
| sh_full cs cs' fl fl' :
    length cs = length cs' → (∀ (j : nat) c c', cs !! j = Some c → cs' !! j = Some c' → shadow c c') →
    shadow (fullNode cs fl) (fullNode cs' fl').

(** Keys and values short enough for a node to be encoded. *)
Definition fits (n : node) : Prop := ∀ k v, has db_node n k v → zlen k + zlen v < 2 ^ 56.

Lemma fits_short k c fl : fits (shortNode k c fl) → fits c.
Proof.
  intros Hf r v Hv. specialize (Hf _ _ (has_short _ k c fl r v Hv)). rewrite zlen_app in Hf.
  pose proof (zlen_nonneg k). lia.
Qed.
Lemma fits_full cs fl j c : (j < 17)%nat → fits (fullNode cs fl) → cs !! j = Some c → fits c.
Proof.
  intros Hj Hf Hc r v Hv. specialize (Hf (z2b (Z.of_nat j) :: r) v).
  rewrite zlen_cons in Hf. enough (has db_node (fullNode cs fl) (z2b (Z.of_nat j) :: r) v) by (pose proof (Hf H0); lia).
  econstructor; [by rewrite index_byte|done].
Qed.
Lemma fits_hash h n : db_node (BytesToHash h) = Ok (Some n) → fits (hashNode h) → fits n.
Proof. intros E Hf r v Hv. apply Hf. by econstructor. Qed.

Lemma encode_str_size s : zlen s < 2 ^ 61 → zlen (encode (Str s)) ≤ zlen s + 9.
Proof.
  intros Hs. cbn [encode]. unfold encode_str.
  assert (Hh : zlen (puthead 0x80 0xB7 (zlen s) ++ s) ≤ zlen s + 9).
  { rewrite zlen_app. unfold zlen at 1. rewrite length_puthead by (pose proof (zlen_nonneg s); unfold two64; lia).
    pose proof (headsize_bounds (zlen s)). pose proof (zlen_nonneg s). unfold two64 in *. lia. }
  destruct s as [|b [|c s]]; [done| |done]. destruct (_ <=? _); [|done]. rewrite zlen_cons. cbn. lia.
Qed.
Lemma encode_list_size l : zlen (encode_list l) < 2 ^ 62 → zlen (encode (Lst l)) ≤ zlen (encode_list l) + 9.
Proof.
  intros Hs. rewrite (encode_head (Lst l)) by done. rewrite zlen_app. cbn [split_kind split_content].
  unfold zlen at 1. pose proof (zlen_nonneg (encode_list l)). rewrite length_puthead by (unfold two64; lia).
  pose proof (headsize_bounds (zlen (encode_list l))). unfold two64 in *. lia.
Qed.

Lemma compact_size t k : hexkey t k → zlen (compact_key k) ≤ zlen k + 1.
Proof.
  intros Hk. destruct (hexToCompact_spec t k Hk) as (c & E & _ & Hc). unfold compact_key. rewrite E.
  unfold zlen. rewrite Hc. rewrite length_take. pose proof (Nat.Div0.div_le_upper_bound (min (length k - if t then 1 else 0) (length k)) 2 (length k)).
  destruct t; lia.
Qed.
Lemma compact_back t k : hexkey t k → compactToHex (compact_key k) = k.
Proof. intros Hk. destruct (hexToCompact_spec t k Hk) as (c & E & Hb & _). unfold compact_key. by rewrite E. Qed.

Lemma encode_str_32 h : length h = 32%nat → length (encode (Str h)) = 33%nat.
Proof.
  intros Hh. destruct h as [|a [|b h]]; [done..|]. cbn [encode]. unfold encode_str. rewrite length_app.
  unfold zlen. rewrite Hh. reflexivity.
Qed.
Lemma length_hashData d : length (hashData d) = 32%nat.
Proof. apply length_to_be. Qed.

(** The most a reference adds to the node it stands in. *)
Definition ref_max (t : bool) : Z := if t then 2 ^ 56 + 9 else 33.

Lemma reference_size l : zlen (encode (Lst l)) < two64 → zlen (encode (reference (Lst l))) ≤ 33.
Proof.
  intros Hs. unfold reference. rewrite item_bytes_encode by done.
  destruct (Nat.ltb_spec (length (encode (Lst l))) 32); [unfold zlen; lia|].
  unfold zlen. rewrite encode_str_32; [done|apply length_hashData].
Qed.

Lemma concat_size b l : Forall (fun it => zlen (encode it) ≤ b) l → zlen (encode_list l) ≤ zlen l * b.
Proof.
  induction 1 as [|it l Hi _ IH]; [done|]. rewrite encode_list_cons, zlen_app, zlen_cons, Z.mul_add_distr_r. lia.
Qed.

Definition refs_small (t : bool) (n : node) : Prop := fits n →
  (∀ it, refs db_node n it → zlen (encode it) ≤ ref_max t) ∧ (∀ b, body db_node n b → zlen (encode b) < two64).

Lemma short_small t k c fl : hexkey t k → wf db_node t c → refs_small t c → refs_small false (shortNode k c fl).
Proof.
  intros Hk Hw IH Hf. assert (Hb : ∀ b, body db_node (shortNode k c fl) b → zlen (encode b) < 2 ^ 63).
  { intros b (i & Hi & ->). pose proof (proj1 (IH (fits_short _ _ _ Hf)) i Hi) as Hs.
    pose proof (compact_size t k Hk) as Hc.
    assert (Hkl : zlen k < 2 ^ 56).
    { destruct (wf_inhabited _ _ _ Hw) as (r & v & Hv). specialize (Hf _ _ (has_short _ k c fl r v Hv)).
      rewrite zlen_app in Hf. pose proof (zlen_nonneg r). pose proof (zlen_nonneg v). lia. }
    pose proof (encode_str_size (compact_key k) ltac:(lia)) as Hck.
    assert (zlen (encode_list [Str (compact_key k); i]) < 2 ^ 62).
    { rewrite !encode_list_cons, !zlen_app. change (zlen (encode_list [])) with 0. unfold ref_max in Hs. destruct t; lia. }
    pose proof (encode_list_size [Str (compact_key k); i]). lia. }
  split; [|intros b Hbb; specialize (Hb b Hbb); unfold two64; lia].
  intros it Hr. inversion Hr as [| | |? ? ? i Hi Hv|]; subst. apply reference_size.
  eapply Z.lt_trans; [apply Hb; cbn; eauto|done].
Qed.

Lemma full_small cs fl : length cs = 17%nat →
  (∀ j c, cs !! j = Some c → c ≠ nilNode → refs_small (bool_decide (j = 16%nat)) c) → refs_small false (fullNode cs fl).
Proof.
  intros Hl IH Hf. assert (Hb : ∀ b, body db_node (fullNode cs fl) b → zlen (encode b) < 2 ^ 63).
  { intros b (its & Hlen & Hits & ->).
    assert (Hs : zlen (encode_list its) ≤ zlen its * ref_max true).
    { apply concat_size, Forall_lookup. intros j i Ei.
      destruct (lookup_lt_is_Some_2 cs j) as [c Ec]; [apply lookup_lt_Some in Ei; lia|].
      pose proof (Hits _ _ _ Ec Ei) as Hr. destruct (decide (c = nilNode)) as [->|Hn]; [by inversion Hr|].
      assert (Hj : (j < 17)%nat) by (apply lookup_lt_Some in Ec; lia).
      pose proof (proj1 (IH _ _ Ec Hn (fits_full _ _ _ _ Hj Hf Ec)) _ Hr) as Hm.
      unfold ref_max in *. destruct (bool_decide _); lia. }
    assert (zlen its = 17) as E17 by (unfold zlen; lia). rewrite E17 in Hs. unfold ref_max in Hs.
    pose proof (encode_list_size its). lia. }
  split; [|intros b Hbb; specialize (Hb b Hbb); unfold two64; lia].
  intros it Hr. inversion Hr as [| | | |? ? its Hlen Hits Hv]; subst. apply reference_size.
  eapply Z.lt_trans; [apply Hb; cbn; eauto|unfold two64; lia].
Qed.

Lemma wf_small t n : wf db_node t n → refs_small t n.
Proof.
  induction 1 as [v Hv|t k c fl Hk Hhex Hc IH Hns|cs fl Hl Hcs IH Htwo|h n E Hld Hw IH].
  - intros Hf. split; [|done]. intros it Hr. inversion Hr; subst. specialize (Hf _ _ (has_value _ v)).
    change (zlen []) with 0 in Hf. pose proof (encode_str_size v). unfold ref_max. lia.
  - by eapply short_small.
  - by apply full_small.
  - intros Hf. split; [|done]. intros it Hr. inversion Hr as [| |? n' E' Hld' Hn| |]; subst.
    rewrite E in E'. injection E' as <-. by apply IH; [eapply fits_hash|].
Qed.

(** What is stored for [n] in its parent is decoded to a shadow of [n]. *)
Definition ref_decodes (t : bool) (n : node) : Prop := ∀ it, refs db_node n it →
  if t then ∃ v, n = valueNode v ∧ it = Str v else ∃ n', valid_ref it n' ∧ shadow n n'.

Definition body_decodes (n : node) : Prop := ∀ b hash, body db_node n b →
  ∃ n', valid_node hash b n' ∧ shadow n n'.

Lemma body_list n b : body db_node n b → ∃ l, b = Lst l.
Proof. destruct n as [|k c fl|cs fl| |]; try done; [intros (i & _ & ->)|intros (its & _ & _ & ->)]; eauto. Qed.

Lemma ref_of_body n : wf db_node false n → fits n → loaded n → body_decodes n → ref_decodes false n.
Proof.
  intros Hw Hf Hl Hb it Hr. destruct (refs_inv_body db_node n it Hr Hl) as (b & Hbody & ->).
  pose proof (proj2 (wf_small _ _ Hw Hf) b Hbody) as Hs. destruct (body_list _ _ Hbody) as [l ->].
  unfold reference in *. rewrite item_bytes_encode in * by done.
  destruct (Nat.ltb_spec (length (encode (Lst l))) 32).
  - destruct (Hb _ None Hbody) as (n' & Hv & Hsh). exists n'. split; [constructor; [lia|done]|done].
  - eexists. split; [apply vr_hash, length_hashData|]. constructor; [done|by intros ->|by intros v ->].
Qed.

Lemma short_decodes t k c fl : hexkey t k → ref_decodes t c → body_decodes (shortNode k c fl).
Proof.
  intros Hk Hc b hash (i & Hi & ->). specialize (Hc i Hi). pose proof (compact_back t k Hk) as Hb.
  pose proof (hasTerm_hexkey t k Hk) as Ht. destruct t.
  - destruct Hc as (v & -> & ->). eexists. split; [apply vn_leaf; by rewrite Hb|]. rewrite Hb. repeat constructor.
  - destruct Hc as (c' & Hv & Hs). eexists. split; [apply vn_extension; [by rewrite Hb|done]|]. rewrite Hb. by constructor.
Qed.

Lemma children_decode cs its : Forall2 (fun c i => ∃ n', valid_ref i n' ∧ shadow c n') cs its →
  ∃ ns, Forall2 valid_ref its ns ∧ Forall2 shadow cs ns.
Proof.
  induction 1 as [|c i cs its (n & Hv & Hs) _ (ns & Hvs & Hss)]; [by exists []|].
  exists (n :: ns). by split; constructor.
Qed.

Lemma full_decodes cs fl : length cs = 17%nat →
  (∀ j c, cs !! j = Some c → c ≠ nilNode → wf db_node (bool_decide (j = 16%nat)) c) →
  (∀ j c, cs !! j = Some c → c ≠ nilNode → ref_decodes (bool_decide (j = 16%nat)) c) →
  body_decodes (fullNode cs fl).
Proof.
  intros Hl Hw Hc b hash (its & Hlen & Hits & ->).
  destruct its as [|i16 its _] using rev_ind; [cbn in *; lia|].
  destruct cs as [|c16 cs _] using rev_ind; [done|]. rewrite (length_app its), (length_app cs) in Hlen. rewrite length_app in Hl. cbn [length] in Hlen, Hl.
  assert (Hlast : (cs ++ [c16]) !! 16%nat = Some c16) by (apply list_lookup_middle; lia).
  assert (Hi16 : refs db_node c16 i16) by (eapply Hits; [exact Hlast|apply list_lookup_middle; lia]).
  destruct (children_decode cs its) as (ns & Hv & Hs).
  { apply Forall2_same_length_lookup. split; [lia|]. intros j c i Ec Ei.
    assert (Hj : (j < 16)%nat) by (apply lookup_lt_Some in Ec; lia).
    assert (Hr : refs db_node c i) by (eapply Hits; apply lookup_app_l_Some; eassumption).
    destruct (decide (c = nilNode)) as [->|Hn]; [inversion Hr; subst; eexists; split; constructor|].
    specialize (Hc j c (lookup_app_l_Some _ _ _ _ Ec) Hn i Hr). by rewrite bool_decide_false in Hc by lia. }
  pose proof (Forall2_length _ _ _ Hs) as Hns.
  assert (Hv16 : ∃ v, i16 = Str v ∧ shadow c16 (if (0 <? length v)%nat then valueNode v else nilNode)).
  { destruct (decide (c16 = nilNode)) as [->|Hn]; [inversion Hi16; subst; eexists; split; [done|constructor]|].
    specialize (Hw _ _ Hlast Hn). rewrite bool_decide_true in Hw by done.
    inversion Hw as [v Hne| | |]; subst. inversion Hi16; subst. exists v. split; [done|]. destruct v; [done|]. constructor. }
  destruct Hv16 as (v & -> & H16). eexists. split; [by apply vn_full; [lia|]|].
  constructor; [rewrite !length_app; cbn; lia|]. intros j c c' Ec Ec'.
  apply lookup_app_Some in Ec as [Ec|[Hj Ec]].
  - apply lookup_app_Some in Ec' as [Ec'|[Hj' _]]; [|apply lookup_lt_Some in Ec; lia].
    by eapply Forall2_lookup_lr.
  - apply list_lookup_singleton_Some in Ec as [Hj0 <-]. rewrite lookup_app_r in Ec' by lia.
    apply list_lookup_singleton_Some in Ec' as [_ <-]. done.
Qed.

Lemma wf_decodes t n : wf db_node t n → fits n →
  ref_decodes t n ∧ (loaded n → body_decodes n).
Proof.
  induction 1 as [v Hv|t k c fl Hk Hhex Hc IH Hns|cs fl Hl Hcs IH Htwo|h n E Hld Hw IH]; intros Hf.
  - split; [|done]. intros it Hr. inversion Hr; subst. eauto.
  - assert (Hb : body_decodes (shortNode k c fl)).
    { eapply short_decodes; [done|]. by apply IH, (fits_short k c fl). }
    split; [|done]. apply ref_of_body; [by econstructor|done..].
  - assert (Hb : body_decodes (fullNode cs fl)).
    { apply full_decodes; [done..|]. intros j c Ec Hn. apply (IH _ _ Ec Hn).
      eapply fits_full; [|done..]. apply lookup_lt_Some in Ec. lia. }
    split; [|done]. apply ref_of_body; [by constructor|done..].
  - split; [|done]. intros it Hr. inversion Hr as [| |? n' E' Hld' Hn| |]; subst.
    exists (hashNode h). split; [|by constructor]. apply vr_hash.
    destruct (refs_inv_body db_node n' _ Hn Hld') as (b & Hb & Eb). destruct (body_list _ _ Hb) as [l ->].
    symmetry in Eb. apply reference_list in Eb as ->. apply length_hashData.
Qed.

(** The bytes a node is stored with are decoded to a shadow of it. *)
Lemma decodeNode_body hash n b : wf db_node false n → fits n → body db_node n b →
  ∃ n', decodeNode hash (item_bytes b) = inr n' ∧ valid_node hash b n' ∧ shadow n n'.
Proof.
  intros Hw Hf Hb. pose proof (proj2 (wf_small _ _ Hw Hf) b Hb) as Hs.
  assert (Hl : loaded n) by (by destruct n).
  destruct (proj2 (wf_decodes _ _ Hw Hf) Hl b hash Hb) as (n' & Hv & Hsh). exists n'.
  rewrite item_bytes_encode by done. destruct (body_list _ _ Hb) as [l ->]. split; [|done].
  by apply decodeNode_valid.
Qed.
End Stored.
