(* ===== verification/TrieProof.v ===== *)
(** * Merkle proofs (chain/trie/proof.go)

    [Prove], which collects the encoded nodes on the path to a key, and
    [VerifyProof], which a light client runs against a root hash it trusts, on
    proof nodes an untrusted peer sent. A proof made by [Prove] verifies to what
    the trie stores under the key, and no proof verifies to anything else. *)

From S2P Require Import Prelude Bytes Rlp Types Text TrieKeys Trie TrieMap TrieHash TrieRefine TrieNode.

(** ** One node (proof.go, hasher.go) *)

(** [get]: walk down the nodes in memory. [skipResolved] asks for what the walk
    ends at, not for the next node. *)
Fixpoint get (tn : node) (key : bytes) (skipResolved : bool) {struct tn} : result (bytes * node) :=
  match tn with
  | shortNode k val _ =>
      if (length key <? length k)%nat || negb (bool_decide (k = take (length k) key)) then Ok ([], nilNode)
      else
        let key := drop (length k) key in
        if negb skipResolved then Ok (key, val) else get val key skipResolved
  | fullNode cs _ =>
      match key with
      | [] => Panic "index out of range"
      | b :: key =>
          (fix pick (cs : list node) (i : nat) : result (bytes * node) :=
             match cs, i with
             | [], _ => Panic "index out of range"
             | c :: _, O => if negb skipResolved then Ok (key, c) else get c key skipResolved
             | _ :: cs, S i => pick cs i
             end) cs (child_index b)
      end
  | hashNode _ => Ok (key, tn)
  | nilNode => Ok (key, nilNode)
  | valueNode _ => Ok ([], tn)
  end.

Section Proofs.
Context `{Crypto}.

(** The collapsed node of [hashShortNodeChildren] and [hashFullNodeChildren]. *)
Definition collapseChildren (n : node) : node :=
  match n with
  | shortNode k v fl =>
      shortNode (compact_key k)
        (match v with shortNode _ _ _ | fullNode _ _ => fst (hash v false) | _ => v end) fl
  | fullNode cs fl => fullNode (fst <$> hash_children 16 cs) fl
  | _ => n
  end.

(** [proofHash]. *)
Definition proofHash (original : node) : node * node :=
  match original with
  | shortNode _ _ _ | fullNode _ _ =>
      let collapsed := collapseChildren original in (collapsed, toHash collapsed false)
  | _ => (original, original)
  end.

(** ** Making a proof *)

Section Prove.
Context (db_node : Hash → result (option node)).

(** The first loop of [Prove]: the nodes on the path, from the root. *)
Fixpoint prove_path (fuel : nat) (tn : node) (key : bytes) : result (list node) :=
  match fuel with
  | O => Panic "out of fuel"
  | S fuel =>
      if (length key =? 0)%nat || is_nil tn then Ok []
      else
        match tn with
        | shortNode k val _ =>
            let tn' :=
              if (length key <? length k)%nat || negb (bool_decide (k = take (length k) key))
              then (nilNode, key) else (val, drop (length k) key) in
            nodes ← prove_path fuel tn'.1 tn'.2;
            Ok (tn :: nodes)
        | fullNode cs _ =>
            match key with
            | [] => Ok []
            | b :: key => c ← child cs b; nodes ← prove_path fuel c key; Ok (tn :: nodes)
            end
        | hashNode h => n ← resolveHash db_node h; prove_path fuel n key
        | _ => Panic "invalid node"
        end
  end.

(** The second loop: what is put into the proof database. *)
Fixpoint prove_put (i : nat) (fromLevel : nat) (nodes : list node) (proofDb : gmap Hash bytes) : gmap Hash bytes :=
  match nodes with
  | [] => proofDb
  | n :: nodes =>
      match fromLevel with
      | S fromLevel => prove_put (S i) fromLevel nodes proofDb
      | O =>
          let '(n, hn) := proofHash n in
          let enc := nodeToBytes n in
          let proofDb :=
            match hn with
            | hashNode h => <[BytesToHash h := enc]> proofDb
            | _ => if (i =? 0)%nat then <[BytesToHash (hashData enc) := enc]> proofDb else proofDb
            end in
          prove_put (S i) O nodes proofDb
      end
  end.

(** [Prove]. *)
Definition Prove (key : bytes) (fromLevel : nat) (t : Trie) (proofDb : gmap Hash bytes) : result (gmap Hash bytes) :=
  let k := keybytesToHex key in
  nodes ← prove_path (key_fuel k) (tr_root t) k;
  Ok (prove_put 0 fromLevel nodes proofDb).

(** The encodings of the nodes on the path to a key. *)
Definition path_encodings (key : bytes) (t : Trie) : list bytes :=
  let k := keybytesToHex key in
  match prove_path (key_fuel k) (tr_root t) k with
  | Ok nodes => (fun n => nodeToBytes (proofHash n).1) <$> nodes
  | _ => []
  end.
End Prove.

(** ** Verifying a proof *)

Section Verify.
Context (proofDb : gmap Hash bytes).

(** [copy(wantHash[:], cld)]. *)
Definition copy_hash (wantHash : Hash) (cld : bytes) : Hash :=
  let src := take 32 cld in BytesToHash (src ++ drop (length src) (hash_bytes wantHash)).

(** The loop of [VerifyProof]; a round follows one hash. *)
Fixpoint verify_loop (fuel : nat) (i : Z) (wantHash : Hash) (key : bytes) : result (option bytes) :=
  match fuel with
  | O => Panic "out of fuel"
  | S fuel =>
      match proofDb !! wantHash with
      | None => Err (Errorf "proof node %d (hash %064x) missing" [i; wantHash])
      | Some buf =>
          match decodeNode (Some (hash_bytes wantHash)) buf with
          | inl _ => Err (Errorf "bad proof node %d: %v" [i])
          | inr n =>
              '(keyrest, cld) ← get n key true;
              match cld with
              | nilNode => Ok None
              | hashNode h => verify_loop fuel (i + 1) (copy_hash wantHash h) keyrest
              | valueNode v => Ok (Some v)
              | _ => verify_loop fuel (i + 1) wantHash key
              end
          end
      end
  end.

(** [VerifyProof]. *)
Definition VerifyProof (fuel : nat) (rootHash : Hash) (key : bytes) : result (option bytes) :=
  verify_loop fuel 0 rootHash (keybytesToHex key).
End Verify.
End Proofs.

(** ** Walking down a shadow of a node *)

Lemma get_short k c fl key : get (shortNode k c fl) key true =
  if (length key <? length k)%nat || negb (bool_decide (k = take (length k) key)) then Ok ([], nilNode)
  else get c (drop (length k) key) true.
Proof. reflexivity. Qed.

Lemma get_full cs fl b key : get (fullNode cs fl) (b :: key) true =
  match cs !! child_index b with Some c => get c key true | None => Panic "index out of range" end.
Proof. cbn [get]. generalize (child_index b). induction cs as [|c cs IH]; intros [|i]; [done..|]. apply IH. Qed.

(** The test of [get] and of [Prove] for a short node's key. *)
Lemma short_test (k key : bytes) :
  ((length key <? length k)%nat || negb (bool_decide (k = take (length k) key)) = false ∧ ∃ r, key = k ++ r ∧ drop (length k) key = r) ∨
  ((length key <? length k)%nat || negb (bool_decide (k = take (length k) key)) = true ∧ ∀ r, key ≠ k ++ r).
Proof.
  destruct (bool_decide_reflect (k = take (length k) key)) as [E|E].
  - left. split; [rewrite orb_false_r; apply Nat.ltb_ge; rewrite E, length_take; lia|].
    exists (drop (length k) key). split; [|done]. rewrite E at 1. by rewrite take_drop.
  - right. split; [by rewrite orb_true_r|]. intros r ->. by rewrite take_app_length in E.
Qed.

Section Walk.
Context `{Crypto} (db_node : Hash → result (option node)).

(** The key of an encoding in a database. *)
Definition node_key (enc : bytes) : Hash := BytesToHash (hashData enc).

(** The nodes on the path of a key, hash nodes followed. *)
Inductive visits : node → bytes → node → Prop :=
| visits_here n key : loaded n → key ≠ [] → visits n key n
| visits_short k c fl r s : visits c r s → visits (shortNode k c fl) (k ++ r) s
| visits_full cs fl b c r s : cs !! child_index b = Some c → visits c r s → visits (fullNode cs fl) (b :: r) s
| visits_hash h n key s : db_node (BytesToHash h) = Ok (Some n) → visits n key s → visits (hashNode h) key s.

(** Where the walk ends: nothing is stored, or the value, or a hash with what is
    under it. *)
Definition walked (n : node) (key : bytes) (r : bytes * node) : Prop :=
  match r.2 with
  | nilNode => ∀ v, ¬ has db_node n key v
  | valueNode v => has db_node n key v
  | hashNode h => ∃ s, wf db_node false s ∧ refs db_node s (Str h) ∧ hexkey true r.1 ∧
      (length r.1 ≤ length key)%nat ∧
      (∀ v, has db_node n key v ↔ has db_node s r.1 v) ∧ (∀ x, visits s r.1 x → visits n key x)
  | _ => False
  end.

Lemma has_value_unique t n : wf db_node t n → ∀ key v w, has db_node n key v → has db_node n key w → v = w.
Proof.
  induction 1 as [v0 Hv|t k c fl Hk Hhex Hc IH Hns|cs fl Hl Hcs IH Htwo|h n E Hld Hw IH]; intros key v w Hv1 Hv2.
  - apply has_value_iff in Hv1 as [_ ->], Hv2 as [_ ->]. done.
  - apply has_short_iff in Hv1 as (r & -> & Hv1), Hv2 as (r' & E & Hv2). apply app_inv_head in E as ->. by eapply IH.
  - apply has_full_iff in Hv1 as (b & r & c & -> & Ec & Hv1), Hv2 as (b' & r' & c' & [= <- <-] & Ec' & Hv2).
    rewrite Ec in Ec'. injection Ec' as <-. assert (Hn : c ≠ nilNode) by (intros ->; by apply has_nil in Hv1).
    by eapply (IH _ _ Ec Hn).
  - rewrite has_hash_iff in Hv1, Hv2 by done. by eapply IH.
Qed.

Lemma walked_short k c fl key r : walked c key r → walked (shortNode k c fl) (k ++ key) r.
Proof.
  assert (Hi : ∀ v, has db_node (shortNode k c fl) (k ++ key) v ↔ has db_node c key v).
  { intros v. rewrite has_short_iff. split; [|eauto]. intros (r' & E & Hv). by apply app_inv_head in E as <-. }
  unfold walked. destruct r.2; try setoid_rewrite Hi; try done.
  intros (s & Hws & Hrs & Hks & Hls & Hhs & Hvs). exists s. rewrite length_app.
  repeat split; try done; try lia; [apply Hhs..|intros; constructor; auto].
Qed.

Lemma walked_full cs fl b c key r : cs !! child_index b = Some c →
  walked c key r → walked (fullNode cs fl) (b :: key) r.
Proof.
  intros Ec.
  assert (Hi : ∀ v, has db_node (fullNode cs fl) (b :: key) v ↔ has db_node c key v).
  { intros v. rewrite has_full_iff. split; [|eauto 10]. intros (b' & r' & c2 & [= <- <-] & Ec2 & Hv). congruence. }
  unfold walked. destruct r.2; try setoid_rewrite Hi; try done.
  intros (s & Hws & Hrs & Hks & Hls & Hhs & Hvs). exists s. cbn [length].
  repeat split; try done; try lia; [apply Hhs..|intros; econstructor; eauto].
Qed.

Lemma walked_hash t n key h : wf db_node t n → refs db_node n (Str h) → n ≠ nilNode → (∀ v, n ≠ valueNode v) →
  rest t key → walked n key (key, hashNode h).
Proof.
  intros Hw Hr Hn Hv Hk. assert (t = false) as -> by (inversion Hw; naive_solver).
  exists n. repeat split; naive_solver.
Qed.

(** A walk that starts at a loaded node uses up some of the key. *)
Definition advances (n' : node) (key : bytes) (r : bytes * node) : Prop :=
  loaded n' → ∀ h, r.2 = hashNode h → (length r.1 < length key)%nat.

Lemma walked_advances n n' key key' r : walked n key r → (length key < length key')%nat → advances n' key' r.
Proof.
  intros Hw Hl _ h Eh. unfold walked in Hw. rewrite Eh in Hw. destruct Hw as (s & _ & _ & _ & Hls & _). lia.
Qed.

Lemma get_hash t n h key : wf db_node t n → refs db_node n (Str h) → n ≠ nilNode → (∀ v, n ≠ valueNode v) →
  rest t key → ∃ r, get (hashNode h) key true = Ok r ∧ walked n key r ∧ advances (hashNode h) key r.
Proof. intros. eexists. split; [done|]. split; [by eapply walked_hash|]. by intros []. Qed.

Lemma get_shadow t n : wf db_node t n → ∀ n' key, shadow db_node n n' → rest t key →
  ∃ r, get n' key true = Ok r ∧ walked n key r ∧ advances n' key r.
Proof.
  induction 1 as [v Hv|t k c fl Hk Hhex Hc IH Hns|cs fl Hl Hcs IH Htwo|h n E Hld Hw IH]; intros n' key Hs Hr;
    inversion Hs as [|?|? h' Hrf Hn Hnv|? ? c' ? fl' Hc'|? cs' ? fl' Hlen Hcc]; subst;
    try (solve [exfalso; by eapply Hnv | eapply (get_hash false); [econstructor; eassumption|done..]]).
  - cbn in Hr. subst key. eexists. split; [done|]. split; [constructor|by intros []].
  - rewrite get_short. destruct (short_test k key) as [[-> (r & -> & ->)]|[-> Hno]].
    + destruct (IH c' r Hc') as (res & -> & Hw' & _); [by eapply rest_app|]. exists res. split; [done|].
      split; [by apply walked_short|]. eapply walked_advances; [done|]. rewrite length_app. destruct k; [done|cbn; lia].
    + eexists. split; [done|]. split; [|done]. intros v Hv. apply has_short_iff in Hv as (r & -> & _). by eapply Hno.
  - destruct key as [|b key]; [by apply hexkey_nonempty in Hr|]. rewrite get_full.
    destruct (child_index_nibble true _ _ Hr) as [Hb _].
    destruct (lookup_lt_is_Some_2 cs (child_index b)) as [c Ec]; [lia|].
    destruct (lookup_lt_is_Some_2 cs' (child_index b)) as [c' Ec']; [lia|]. rewrite Ec'.
    assert (Hgo : ∃ r, get c' key true = Ok r ∧ walked c key r).
    { destruct (decide (c = nilNode)) as [->|Hn].
      - pose proof (Hcc _ _ _ Ec Ec') as Hsh. inversion Hsh; subst; [|done]. eexists. split; [done|].
        intros v Hv. by apply has_nil in Hv.
      - destruct (IH _ _ Ec Hn c' key) as (r & Hg & Hw' & _); [by eapply Hcc|by apply rest_cons|]. eauto. }
    destruct Hgo as (r & -> & Hw'). exists r. split; [done|]. split; [by eapply walked_full|].
    eapply walked_advances; [done|cbn; lia].
Qed.

(** *** The loop of [VerifyProof] *)

Lemma copy_hash_key w enc : copy_hash w (hashData enc) = node_key enc.
Proof.
  unfold copy_hash, node_key. pose proof (length_hashData enc) as Hh. rewrite take_ge by lia. rewrite Hh.
  rewrite drop_ge; [rewrite app_nil_r; reflexivity|]. unfold hash_bytes. rewrite length_to_be. done.
Qed.
Lemma node_key_eq enc : node_key enc = BytesToHash (hashData enc).
Proof. reflexivity. Qed.
#[local] Opaque node_key.

Lemma fits_visits n key s : wf db_node false n → fits db_node n → visits n key s → wf db_node false s ∧ fits db_node s.
Proof.
  assert (Hgo : ∀ n key s, visits n key s → ∀ t, wf db_node t n → fits db_node n → wf db_node false s ∧ fits db_node s).
  { clear. induction 1 as [n key Hl Hk|k c fl r s Hv IH|cs fl b c r s Ec Hv IH|h n key s E Hv IH]; intros t Hw Hf.
    - split; [|done]. assert (t = false) as -> by (destruct n; try done; by inversion Hw). done.
    - inversion Hw; subst. eapply IH; [done|]. by eapply fits_short.
    - inversion Hw as [| |? ? Hl Hc _|]; subst. assert (Hn : c ≠ nilNode) by (intros ->; inversion Hv; done).
      eapply IH; [by eapply Hc|]. eapply fits_full; [|done..]. apply lookup_lt_Some in Ec. lia.
    - inversion Hw as [| | |? n2 E2 _ Hw2]; subst. rewrite E in E2. injection E2 as <-.
      eapply IH; [done|]. by eapply fits_hash. }
  intros Hw Hf Hv. by eapply Hgo.
Qed.

(** The proof database has, under the hash of a node on the path, nothing or the
    node. *)
Definition agrees (proofDb : gmap Hash bytes) (n : node) (key : bytes) : Prop :=
  ∀ s b buf, visits n key s → body db_node s b →
    proofDb !! node_key (item_bytes b) = Some buf → buf = item_bytes b.

(** It has every large node on the path. *)
Definition contains (proofDb : gmap Hash bytes) (n : node) (key : bytes) : Prop :=
  ∀ s b, visits n key s → body db_node s b → (32 ≤ length (item_bytes b))%nat →
    proofDb !! node_key (item_bytes b) = Some (item_bytes b).

Definition lookup_result (n : node) (key : bytes) (r : option bytes) : Prop :=
  ∀ v, r = Some v ↔ has db_node n key v.

Definition proof_missing (r : result (option bytes)) : Prop :=
  ∃ i h, r = Err (Errorf "proof node %d (hash %064x) missing" [i; h]).

Lemma resolve_ref s h : wf db_node false s → refs db_node s (Str h) →
  ∃ s' b, wf db_node false s' ∧ body db_node s' b ∧ h = hashData (item_bytes b) ∧
    (32 ≤ length (item_bytes b))%nat ∧
    (∀ k x, has db_node s' k x ↔ has db_node s k x) ∧ (∀ key x, visits s' key x → visits s key x).
Proof.
  assert (Hgo : ∀ s, loaded s → refs db_node s (Str h) →
    ∃ b, body db_node s b ∧ h = hashData (item_bytes b) ∧ (32 ≤ length (item_bytes b))%nat).
  { intros s0 Hl Hr. destruct (refs_inv_body db_node s0 _ Hr Hl) as (b & Hb & Eb). exists b. split; [done|].
    destruct (body_list _ _ _ Hb) as [l ->]. unfold reference in Eb.
    destruct (Nat.ltb_spec (length (item_bytes (Lst l))) 32); [done|]. by injection Eb as ->. }
  intros Hw Hr. inversion Hw as [|? k c fl Hk Hhex Hc Hns|cs fl Hlen Hcs Htwo|h0 n E Hld Hwn]; subst.
  1,2: destruct (fun HL => Hgo _ HL Hr) as (b & Hb & Hh & Hlb); [done|]; by eexists _, b.
  inversion Hr as [| |? n' E' Hld' Hrn| |]; subst. rewrite E in E'. injection E' as <-.
  destruct (Hgo _ Hld Hrn) as (b & Hb & Hh & Hlb). exists n, b. repeat split; try done.
  - intros Hx. by econstructor.
  - intros Hx. by rewrite has_hash_iff in Hx by done.
  - intros key x Hv. by econstructor.
Qed.

Lemma verify_step proofDb fuel : ∀ i n b key, wf db_node false n → fits db_node n → body db_node n b →
  hexkey true key → (length key < fuel)%nat → agrees proofDb n key →
  let r := verify_loop proofDb fuel i (node_key (item_bytes b)) key in
  (∃ v, r = Ok v ∧ lookup_result n key v) ∨
  (proof_missing r ∧
   ¬ (proofDb !! node_key (item_bytes b) = Some (item_bytes b) ∧ contains proofDb n key)).
Proof.
  induction fuel as [|fuel IH]; intros i n b key Hw Hf Hb Hk Hl Ha r; [lia|]. subst r. cbn [verify_loop].
  assert (Hhere : visits n key n) by (constructor; [by destruct n|by apply hexkey_nonempty]).
  destruct (proofDb !! _) as [buf|] eqn:Edb.
  2:{ right. split; [by eexists _, _|]. by intros [[=] _]. }
  specialize (Ha n b buf Hhere Hb Edb) as Hbuf. subst buf.
  destruct (decodeNode_body db_node (Some (hash_bytes (node_key (item_bytes b)))) n b Hw Hf Hb) as (n' & -> & Hv & Hs).
  destruct (get_shadow false n Hw n' key Hs Hk) as ([kr c] & -> & Hwalk & Hadv). cbn [mbind result_bind].
  unfold walked in Hwalk. cbn [fst snd] in Hwalk. destruct c as [| | |h|v]; try done.
  - left. eexists. split; [done|]. intros v. split; [done|]. intros Hv'. by apply Hwalk in Hv'.
  - destruct Hwalk as (s & Hws & Hrs & Hks & _ & Hhs & Hvs).
    destruct (resolve_ref s h Hws Hrs) as (s' & b' & Hws' & Hb' & -> & Hlb & Hhs' & Hvs').
    rewrite copy_hash_key.
    assert (Hfs : fits db_node s').
    { eapply fits_visits; [exact Hw|done|]. apply Hvs, Hvs'. constructor; [by destruct s'|by apply hexkey_nonempty]. }
    assert (Hn' : loaded n') by (by inversion Hv).
    destruct (IH (i + 1) s' b' kr Hws' Hfs Hb' Hks) as [(v & Ev & Hv')|[Hm Hno]].
    { specialize (Hadv Hn' _ eq_refl). cbn [fst] in Hadv. lia. }
    { intros x bx buf Hx. by apply Ha, Hvs, Hvs'. }
    + left. exists v. split; [done|]. intros w. rewrite (Hv' w), Hhs'. symmetry. apply Hhs.
    + right. split; [done|]. intros [_ Hc]. apply Hno. split.
      * apply Hc with s'; [|done..]. apply Hvs, Hvs'. constructor; [by destruct s'|by apply hexkey_nonempty].
      * intros x bx Hx. by apply Hc, Hvs, Hvs'.
  - left. eexists. split; [done|]. intros w. split; [by intros [= <-]|]. intros Hw'. f_equal. by eapply has_value_unique.
Qed.

(** *** The loops of [Prove] *)

Lemma visits_short_iff k c fl r s : k ≠ [] → visits (shortNode k c fl) (k ++ r) s ↔ s = shortNode k c fl ∨ visits c r s.
Proof.
  intros Hk. split.
  - intros Hv. inversion Hv; subst; [by left|]. right.
    match goal with E : k ++ _ = k ++ _ |- _ => apply app_inv_head in E as <- end. done.
  - intros [->|Hv]; [|by constructor]. constructor; [done|]. by destruct k.
Qed.
Lemma visits_short_miss k c fl key s : key ≠ [] → (∀ r, key ≠ k ++ r) → visits (shortNode k c fl) key s ↔ s = shortNode k c fl.
Proof.
  intros Hk Hno. split; [|intros ->; by constructor]. intros Hv. inversion Hv; subst; [done|]. by destruct (Hno r).
Qed.
Lemma visits_full_iff cs fl b c r s : cs !! child_index b = Some c →
  visits (fullNode cs fl) (b :: r) s ↔ s = fullNode cs fl ∨ visits c r s.
Proof.
  intros Ec. split.
  - intros Hv. inversion Hv as [| |? ? ? c' ? ? Ec' Hv'|]; subst; [by left|]. rewrite Ec in Ec'. injection Ec' as <-. by right.
  - intros [->|Hv]; [by constructor|]. by econstructor.
Qed.

(** What the first loop of [Prove] returns. *)
Definition collected (n : node) (key : bytes) (l : list node) : Prop :=
  Forall loaded l ∧ (loaded n → key ≠ [] → ∃ l', l = n :: l') ∧ ∀ s, visits n key s ↔ s ∈ l.

Lemma collected_nil n key : n = nilNode ∨ (∃ v, n = valueNode v) → collected n key [].
Proof.
  intros Hn. split; [done|]. split; [by destruct Hn as [->|[v ->]]|]. intros s.
  split; [|by intros ?%elem_of_nil]. intros Hv. by destruct Hn as [->|[v ->]]; inversion Hv.
Qed.

Lemma collected_cons n key c r l : loaded n → key ≠ [] → Forall loaded l →
  (∀ s, visits n key s ↔ s = n ∨ visits c r s) → (∀ s, visits c r s ↔ s ∈ l) → collected n key (n :: l).
Proof.
  intros Hn Hk Hl Hv Hc. split; [by constructor|]. split; [eauto|]. intros s. rewrite Hv, Hc, elem_of_cons. done.
Qed.

Lemma prove_path_nil fuel key : (1 ≤ fuel)%nat → prove_path db_node fuel nilNode key = Ok [].
Proof. destruct fuel; [lia|]. cbn. by rewrite orb_true_r. Qed.

Lemma prove_path_spec fuel : ∀ t n key, n = nilNode ∨ wf db_node t n → rest t key → (need n key ≤ fuel)%nat →
  ∃ l, prove_path db_node fuel n key = Ok l ∧ collected n key l.
Proof.
  induction fuel as [|fuel IH]; intros t n key Hn Hk Hf; [unfold need in Hf; destruct n; lia|].
  destruct Hn as [->|Hw]; [exists []; rewrite prove_path_nil by lia; split; [done|apply collected_nil; by left]|].
  cbn [prove_path].
  destruct Hw as [v Hv|t k c fl Hkn Hhex Hc Hns|cs fl Hl Hcs Htwo|h n E Hld Hw].
  - cbn in Hk. subst key. exists []. split; [done|]. apply collected_nil. right. by eexists.
  - pose proof (hexkey_nonempty _ Hk) as Hne. cbn [is_nil]. unfold need in Hf.
    rewrite (proj2 (Nat.eqb_neq (length key) 0)) by (by destruct key). cbn [orb].
    destruct (short_test k key) as [[-> (r & E & Er)]|[-> Hno]]; cbn [fst snd].
    + rewrite Er. destruct (IH t c r) as (l & -> & Hl & _ & Hvl); [by right|eapply rest_app; [|done]; by rewrite <- E| |].
      { unfold need. pose proof (f_equal length E) as El. rewrite length_app in El. destruct k; [done|]. cbn [length] in *.
        destruct c; lia. }
      eexists. split; [done|]. rewrite E in Hne |- *. eapply collected_cons; [done..| |exact Hvl].
      intros s. by apply visits_short_iff.
    + rewrite prove_path_nil by (destruct key; [done|cbn [length] in Hf; lia]). eexists. split; [done|].
      eapply (collected_cons _ _ nilNode []); [done..| |].
      * intros s. rewrite visits_short_miss by done. split; [by left|]. intros [?|Hv]; [done|by inversion Hv].
      * intros s. split; [intros Hv; by inversion Hv|by intros ?%elem_of_nil].
  - pose proof (hexkey_nonempty _ Hk) as Hne. unfold need in Hf. destruct key as [|b key]; [done|].
    cbn [is_nil length Nat.eqb orb] in Hf |- *. destruct (child_index_nibble true _ _ Hk) as [Hb _].
    destruct (lookup_lt_is_Some_2 cs (child_index b)) as [c Ec]; [lia|]. unfold child. rewrite Ec. cbn [mbind result_bind].
    destruct (IH (bool_decide (child_index b = 16%nat)) c key) as (l & -> & Hll & _ & Hvl).
    { destruct (decide (c = nilNode)) as [->|Hn]; [by left|right; by apply Hcs]. }
    { by apply rest_cons. }
    { unfold need. destruct c; lia. }
    eexists. split; [done|]. eapply collected_cons; [done..| |exact Hvl]. intros s. by apply visits_full_iff.
  - pose proof (hexkey_nonempty _ Hk) as Hne. unfold need in Hf. destruct key as [|b key]; [done|].
    cbn [is_nil length Nat.eqb orb] in Hf |- *. unfold resolveHash. rewrite E. cbn [mbind result_bind].
    destruct (IH false n (b :: key)) as (l & -> & Hl & _ & Hvl); [by right|done|rewrite loaded_need by done; cbn [length]; lia|].
    exists l. split; [done|]. split; [done|]. split; [done|]. intros s. rewrite <- Hvl. split.
    + intros Hv. inversion Hv as [| | |? n' ? ? E' Hv']; subst; [done|]. rewrite E in E'. by injection E' as <-.
    + intros Hv. by econstructor.
Qed.

(** The node [proofHash] encodes is the node's own item. *)
Lemma collapse_body n b : wf db_node false n → body db_node n b → node_item (collapseChildren n) = b.
Proof.
  intros Hw Hb. destruct n as [|k c fl|cs fl|h|v]; try done.
  - destruct Hb as (i & Hi & ->). inversion Hw as [|t ? ? ? Hk Hhex Hc Hns| |]; subst. cbn [collapseChildren node_item].
    do 3 f_equal. pose proof (hash_spec db_node t c Hc i Hi) as Hh. unfold hashed_well in Hh.
    destruct c; try (by inversion Hi); destruct (hash _ false); by destruct Hh.
  - destruct Hb as (its & Hlen & Hits & ->). inversion Hw as [| |? ? Hl Hc _|]; subst. cbn [collapseChildren node_item].
    f_equal. apply list_eq_same_length with 17%nat; [lia|by rewrite length_map, length_fmap, length_hash_children|].
    intros j x i Hj Ex Ei. destruct (lookup_lt_is_Some_2 cs j) as [c Ec]; [lia|].
    change (map node_item) with (fmap (M := list) node_item) in Ex.
    rewrite !list_lookup_fmap, hash_children_lookup, Ec in Ex. cbn [fmap option_fmap option_map] in Ex. injection Ex as <-.
    pose proof (Hits _ _ _ Ec Ei) as Hi. specialize (Hc _ _ Ec).
    destruct (decide (c = nilNode)) as [->|Hn]; [inversion Hi; subst; by case_match|]. specialize (Hc Hn).
    pose proof (hash_spec db_node _ c Hc i Hi) as Hh. unfold hashed_well in Hh.
    destruct (Nat.ltb_spec j 16).
    + destruct (is_nil c) eqn:En; [by apply is_nil_true in En|]. destruct (hash c false); by destruct Hh.
    + rewrite bool_decide_true in Hc by lia. inversion Hc; subst. by inversion Hi.
Qed.

Definition node_enc (n : node) : bytes := nodeToBytes (proofHash n).1.

Lemma node_enc_body n b : wf db_node false n → body db_node n b → node_enc n = item_bytes b.
Proof.
  intros Hw Hb. rewrite <- (collapse_body n b Hw Hb), <- nodeToBytes_item. by destruct n.
Qed.

(** One round of the second loop puts the node under its hash, or leaves it out
    because its parent has it. *)
Lemma prove_put_cons i n nodes p : loaded n →
  prove_put i 0 (n :: nodes) p = prove_put (S i) 0 nodes
    (if (i =? 0)%nat || (32 <=? length (node_enc n))%nat then <[node_key (node_enc n) := node_enc n]> p else p).
Proof.
  intros Hn. rewrite node_key_eq. unfold node_enc. cbn [prove_put].
  assert (proofHash n = (collapseChildren n, toHash (collapseChildren n) false)) as -> by (by destruct n).
  cbn [fst]. unfold toHash. cbn [negb]. rewrite andb_true_r.
  destruct (Nat.ltb_spec (length (nodeToBytes (collapseChildren n))) 32).
  - rewrite (proj2 (Nat.leb_gt _ _)) by lia. rewrite orb_false_r. destruct n; try (by destruct Hn); reflexivity.
  - rewrite (proj2 (Nat.leb_le _ _)) by lia. rewrite orb_true_r. reflexivity.
Qed.

Definition no_collision (l : list bytes) : Prop :=
  ∀ a b, a ∈ l → b ∈ l → node_key a = node_key b → a = b.

(** The database holds nodes of [l] only, each under its own hash. *)
Definition proof_of (l : list bytes) (p : gmap Hash bytes) : Prop :=
  ∀ h buf, p !! h = Some buf → buf ∈ l ∧ h = node_key buf.

Lemma prove_put_spec l nodes : no_collision l → ∀ i p, Forall loaded nodes → (∀ n, n ∈ nodes → node_enc n ∈ l) →
  proof_of l p →
  let p' := prove_put i 0 nodes p in
  proof_of l p' ∧ p ⊆ p' ∧
  (∀ n, n ∈ nodes → (32 ≤ length (node_enc n))%nat → p' !! node_key (node_enc n) = Some (node_enc n)) ∧
  (∀ n nodes', nodes = n :: nodes' → i = 0%nat → p' !! node_key (node_enc n) = Some (node_enc n)).
Proof.
  intros Hnc. induction nodes as [|n nodes IH]; intros i p Hl Hin Hp p'; subst p'.
  { cbn. split; [done|]. split; [done|]. split; [by intros n ?%elem_of_nil|done]. }
  apply Forall_cons in Hl as [Hn Hl]. rewrite prove_put_cons by done.
  set (q := if (i =? 0)%nat || (32 <=? length (node_enc n))%nat then <[node_key (node_enc n) := node_enc n]> p else p).
  assert (Hen : node_enc n ∈ l) by (apply Hin; by left).
  assert (Hq : proof_of l q ∧ p ⊆ q).
  { subst q. case_match; [|by split]. split.
    - intros h buf. rewrite lookup_insert_Some. intros [[<- <-]|[_ Hb]]; [by split|by apply Hp].
    - apply map_subseteq_spec. intros h buf Hb. destruct (Hp _ _ Hb) as [Hbl ->].
      destruct (decide (node_key (node_enc n) = node_key buf)) as [E|E].
      + rewrite (Hnc _ _ Hen Hbl E). apply lookup_insert_eq.
      + by rewrite lookup_insert_ne. }
  assert (Hget : (i =? 0)%nat || (32 <=? length (node_enc n))%nat = true → q !! node_key (node_enc n) = Some (node_enc n)).
  { subst q. intros ->. apply lookup_insert_eq. }
  destruct Hq as [Hq Hpq]. destruct (IH (S i) q Hl) as (H1 & H2 & H3 & _); [intros; apply Hin; by right|done|].
  rewrite map_subseteq_spec in H2. split; [done|]. split; [|split].
  - etrans; [done|]. by apply map_subseteq_spec.
  - intros n0 [->|Hn0]%elem_of_cons Hlen; [|by apply H3]. apply H2, Hget. apply orb_true_iff. right. by apply Nat.leb_le.
  - intros n0 nodes' [= <- <-] ->. by apply H2, Hget.
Qed.
End Walk.

(** ** Hostile proofs *)

Lemma compactToHex_hexkey k : hexkey (hasTerm (compactToHex k)) (compactToHex k).
Proof.
  assert (Hgo : ∃ t, hexkey t (compactToHex k)).
  { destruct k as [|f bs]; [by exists false, []|]. pose proof (nibbles_of_nibbles f) as Hf.
    rewrite (compactToHex_cons f bs _ _ eq_refl). apply Forall_cons in Hf as [_ [Hlo _]%Forall_cons].
    pose proof (concat_nibbles_nibble bs) as Hn. set (r := concat _) in *. set (hi := z2b (b2z f / 16)). set (lo := z2b _) in *.
    assert (Hc : (Z.to_nat (2 - Z.land (b2z hi) 1) = 1 ∨ Z.to_nat (2 - Z.land (b2z hi) 1) = 2)%nat).
    { pose proof (Z.land_ones (b2z hi) 1) as E. change (Z.ones 1) with 1 in E. rewrite E by lia.
      pose proof (Z.mod_pos_bound (b2z hi) (2 ^ 1)). lia. }
    exists (negb (b2z hi <? 2)). destruct Hc as [-> | ->]; cbn [drop].
    - exists (lo :: r). split; [by constructor|]. by destruct (b2z hi <? 2).
    - exists r. split; [done|]. by destruct (b2z hi <? 2). }
  destruct Hgo as [t Ht]. by rewrite (hasTerm_hexkey t _ Ht).
Qed.

(** What [decodeNode] can return. *)
Inductive plain : node → Prop :=
| plain_nil : plain nilNode
| plain_hash h : plain (hashNode h)
| plain_leaf k v fl : hexkey true k → plain (shortNode k (valueNode v) fl)
| plain_extension k c fl : hexkey false k → plain c → plain (shortNode k c fl)
| plain_full cs fl : Forall plain cs → length cs = 16%nat → plain (fullNode (cs ++ [nilNode]) fl)
| plain_full_value cs v fl : Forall plain cs → length cs = 16%nat → plain (fullNode (cs ++ [valueNode v]) fl).

Section Plain.
Context (d : bytes → decodeErr + node) (Hd : ∀ b n, d b = inr n → plain n).

Lemma decodeRef_plain buf c r : decodeRef d buf = inr (c, r) → plain c.
Proof.
  unfold decodeRef. destruct (Split buf) as [[[k v] r']| |]; try done. cbn [lift mbind decode_bind].
  destruct k; [done| |].
  - repeat case_match; intros [= <- <-]; constructor.
  - destruct (_ <? _)%nat; [done|]. destruct (d buf) as [|n] eqn:E; [done|]. intros [= <- <-]. by eapply Hd.
Qed.

Lemma decodeShort_plain hash buf n : decodeShort d hash buf = inr n → plain n.
Proof.
  unfold decodeShort. destruct (SplitString buf) as [[kb r]| |]; try done. cbn [lift mbind decode_bind].
  pose proof (compactToHex_hexkey kb) as Hk. destruct (hasTerm (compactToHex kb)).
  - destruct (SplitString r) as [[v ?]| |]; try done. intros [= <-]. by constructor.
  - destruct (decodeRef d r) as [[]|[c ?]] eqn:E; try done. cbn. intros [= <-]. constructor; [done|]. by eapply decodeRef_plain.
Qed.

Lemma decode_children_plain i : ∀ buf cs r, decode_children d i buf = inr (cs, r) → Forall plain cs ∧ length cs = i.
Proof.
  induction i as [|i IH]; intros buf cs r; cbn [decode_children]; [by intros [= <- <-]|].
  destruct (decodeRef d buf) as [[]|[c r']] eqn:E; try done. cbn [wrapError mbind decode_bind].
  destruct (decode_children d i r') as [|[cs' r2]] eqn:E2; [done|]. cbn. intros [= <- <-].
  apply IH in E2 as [Hc <-]. split; [|done]. constructor; [|done]. by eapply decodeRef_plain.
Qed.

Lemma decodeFull_plain hash buf n : decodeFull d hash buf = inr n → plain n.
Proof.
  unfold decodeFull. destruct (decode_children d 16 buf) as [|[cs r]] eqn:E; [done|]. cbn [mbind decode_bind].
  apply decode_children_plain in E as [Hc Hl]. destruct (SplitString r) as [[v ?]| |]; try done. cbn [lift mbind decode_bind].
  intros [= <-]. destruct (_ <? _)%nat; by constructor.
Qed.
End Plain.

Lemma wrapError_ok {A} (r : decodeErr + A) ctx a : wrapError r ctx = inr a → r = inr a.
Proof. by destruct r as [[]|]. Qed.

Lemma decode_node_plain fuel : ∀ hash buf n, decode_node fuel hash buf = inr n → plain n.
Proof.
  induction fuel as [|fuel IH]; intros hash buf n; [done|]. cbn [decode_node].
  destruct (length buf =? 0)%nat; [done|]. destruct (SplitList buf) as [[elems ?]| |]; [|done..].
  destruct (_ =? 2); [intros E%wrapError_ok; eapply decodeShort_plain; [apply IH|exact E]|].
  destruct (_ =? 17); [intros E%wrapError_ok; eapply decodeFull_plain; [apply IH|exact E]|done].
Qed.

(** The walk over a decoded node ends, inside the key. *)
Lemma get_plain n : plain n → ∀ key, hexkey true key →
  ∃ kr c, get n key true = Ok (kr, c) ∧ match c with hashNode _ => hexkey true kr | nilNode | valueNode _ => True | _ => False end.
Proof.
  induction n as [|h|v|k c fl IH|cs fl IH] using node_ind'; intros Hp key Hk; [by eexists _, _..| |].
  - rewrite get_short. destruct (short_test k key) as [[-> (r & -> & ->)]|[-> _]]; [|by eexists _, _].
    inversion Hp as [| |? v ? Ht|? ? ? Hf Hc| |]; subst; [by eexists _, _|].
    apply IH; [done|]. by apply (rest_app false k r).
  - destruct key as [|b key]; [by apply hexkey_nonempty in Hk|]. rewrite get_full.
    destruct (child_index_nibble true _ _ Hk) as [Hb _]. pose proof (rest_cons b key Hk) as Hr.
    assert (Hc : ∃ c, cs !! child_index b = Some c ∧ (c = nilNode ∨ (∃ v, c = valueNode v) ∨ (child_index b < 16)%nat ∧ plain c)).
    { assert (Hgo : ∀ l x, Forall plain l → length l = 16%nat → cs = l ++ [x] → x = nilNode ∨ (∃ v, x = valueNode v) →
        ∃ c, cs !! child_index b = Some c ∧ (c = nilNode ∨ (∃ v, c = valueNode v) ∨ (child_index b < 16)%nat ∧ plain c)).
      { intros l x Hl H16 -> Hx. destruct (decide (child_index b < 16)%nat) as [Hlt|Hge].
        - destruct (lookup_lt_is_Some_2 l (child_index b)) as [c Ec]; [lia|]. exists c. split; [by apply lookup_app_l_Some|].
          right. right. split; [done|]. rewrite Forall_lookup in Hl. by eapply Hl.
        - exists x. split; [apply list_lookup_middle; lia|]. naive_solver. }
      inversion Hp; subst; eapply Hgo; eauto. }
    destruct Hc as (c & Ec & [->|[[v ->]|[Hlt Hpc]]]); rewrite Ec; [by eexists _, _..|].
    rewrite bool_decide_false in Hr by lia. rewrite Forall_lookup in IH. by apply (IH _ _ Ec).
Qed.

(** No panics: whatever bytes a peer files under whatever hashes, and whatever
    root and key are asked for, the loop of [VerifyProof] never fails a run-time
    check; each round ends with an answer, an error, or the next hash. *)
Theorem VerifyProof_no_panic proofDb fuel rootHash key :
  match VerifyProof proofDb fuel rootHash key with Panic w => w = "out of fuel" | _ => True end.
Proof.
  unfold VerifyProof. generalize 0, (keybytesToHex_hexkey key). generalize (keybytesToHex key). clear key. revert rootHash.
  induction fuel as [|fuel IH]; intros root key i Hk; cbn [verify_loop]; [done|].
  destruct (proofDb !! root) as [buf|]; [|done].
  destruct (decodeNode _ buf) as [|n] eqn:E; [done|]. unfold decodeNode in E. apply decode_node_plain in E.
  destruct (get_plain n E key Hk) as (kr & c & -> & Hc). cbn [mbind result_bind]. destruct c; try done. by apply IH.
Qed.

(** ** Proofs against a root hash *)

Definition map_fits (m : gmap bytes bytes) : Prop := map_Forall (fun k v => 2 * zlen k + 1 + zlen v < 2 ^ 56) m.

Section Whole.
Context `{Crypto} (db_node : Hash → result (option node)) (t : Trie) (m : gmap bytes bytes)
  (Hst : stores db_node t m) (Hfit : map_fits m) (Hne : m ≠ ∅).

Lemma stores_fits : fits db_node (tr_root t).
Proof.
  intros hk v Hv. apply (st_has _ _ _ Hst) in Hv as (k & -> & Hk). specialize (Hfit _ _ Hk). cbn in Hfit.
  unfold keybytesToHex. rewrite zlen_app. unfold zlen in *. rewrite length_concat_nibbles. cbn [length]. lia.
Qed.

Lemma stores_nonempty : wf db_node false (tr_root t) ∧ ∃ b, body db_node (tr_root t) b ∧
  (Trie_Hash t).1 = node_key (item_bytes b).
Proof.
  destruct (map_choose m Hne) as (k & v & Hk).
  assert (Hv : has db_node (tr_root t) (keybytesToHex k) v) by (apply (st_has _ _ _ Hst); eauto).
  assert (Hn : tr_root t ≠ nilNode) by (intros E; rewrite E in Hv; by apply has_nil in Hv).
  destruct (st_wf _ _ _ Hst) as [?|Hw]; [done|]. destruct (st_root _ _ _ Hst) as [?|(b & Hb & Hc)]; [done|].
  split; [done|]. exists b. split; [done|]. destruct (hash_root db_node _ b Hw Hb Hc) as (n' & Eh & _).
  rewrite (Trie_Hash_root t _ n' Hn Eh). cbn [fst]. symmetry. apply node_key_eq.
Qed.

Lemma path_collected key : ∃ l,
  prove_path db_node (key_fuel (keybytesToHex key)) (tr_root t) (keybytesToHex key) = Ok l ∧
  collected db_node (tr_root t) (keybytesToHex key) l ∧ path_encodings db_node key t = node_enc <$> l.
Proof.
  destruct stores_nonempty as [Hw _].
  destruct (prove_path_spec db_node (key_fuel (keybytesToHex key)) false (tr_root t) (keybytesToHex key)) as (l & E & Hc).
  { by right. } { apply keybytesToHex_hexkey. } { apply (root_fuel db_node), Hst. }
  exists l. split; [done|]. split; [done|]. unfold path_encodings. by rewrite E.
Qed.

Lemma visited_encoding key s b : visits db_node (tr_root t) (keybytesToHex key) s → body db_node s b →
  item_bytes b ∈ path_encodings db_node key t.
Proof.
  intros Hv Hb. destruct (path_collected key) as (l & _ & (_ & _ & Hvl) & ->).
  destruct stores_nonempty as [Hw _]. destruct (fits_visits _ _ _ _ Hw stores_fits Hv) as [Hws _].
  rewrite <- (node_enc_body db_node s b Hws Hb). apply list_elem_of_fmap_2, Hvl, Hv.
Qed.

Lemma lookup_result_map key r : lookup_result db_node (tr_root t) (keybytesToHex key) r → r = m !! key.
Proof.
  intros Hr. apply option_eq. intros v. rewrite (Hr v), (st_has _ _ _ Hst). split; [|eauto].
  intros (k & E & Hk). by apply keybytesToHex_inj in E as <-.
Qed.

Lemma VerifyProof_spec proofDb key fuel : (length (keybytesToHex key) < fuel)%nat →
  agrees db_node proofDb (tr_root t) (keybytesToHex key) →
  let r := VerifyProof proofDb fuel (Trie_Hash t).1 key in
  r = Ok (m !! key) ∨ (proof_missing r ∧
    ¬ (∀ s b, visits db_node (tr_root t) (keybytesToHex key) s → body db_node s b →
         s = tr_root t ∨ (32 ≤ length (item_bytes b))%nat → proofDb !! node_key (item_bytes b) = Some (item_bytes b))).
Proof.
  intros Hf Ha r. subst r. destruct stores_nonempty as (Hw & b & Hb & Hroot). unfold VerifyProof. rewrite Hroot.
  assert (Hk : hexkey true (keybytesToHex key)) by apply keybytesToHex_hexkey.
  destruct (verify_step db_node proofDb fuel 0 _ b (keybytesToHex key) Hw stores_fits Hb Hk Hf Ha) as [(v & Ev & Hv)|[Hm Hno]].
  - left. rewrite Ev. by rewrite (lookup_result_map key v Hv).
  - right. split; [done|]. intros Hall. apply Hno. split.
    + apply (Hall (tr_root t) b); [|done|by left]. constructor; [by destruct (tr_root t)|by apply hexkey_nonempty].
    + intros s b' Hs Hb' Hlen. apply (Hall s b' Hs Hb'). by right.
Qed.
End Whole.

(** The empty trie has no node, and the constant of the code for its root. *)
Lemma stores_empty_root `{Crypto} db_node t : stores db_node t ∅ → tr_root t = nilNode ∧ (Trie_Hash t).1 = emptyRoot.
Proof.
  intros Hst. assert (Hn : tr_root t = nilNode).
  { destruct (st_wf _ _ _ Hst) as [?|Hw]; [done|]. destruct (wf_inhabited db_node _ _ Hw) as (k & x & Hx).
    by apply (st_has _ _ _ Hst) in Hx as (k' & _ & E). }
  split; [done|]. unfold Trie_Hash. by rewrite Hn.
Qed.
Definition empty_encoding : bytes := [Byte.x80].
Lemma VerifyProof_empty `{Crypto} proofDb key fuel : (0 < fuel)%nat →
  (∀ buf, proofDb !! emptyRoot = Some buf → buf = empty_encoding) →
  let r := VerifyProof proofDb fuel emptyRoot key in
  (proofDb !! emptyRoot = None ∧ r = Err (Errorf "proof node %d (hash %064x) missing" [0; emptyRoot])) ∨
  r = Err (Errorf "bad proof node %d: %v" [0]).
Proof.
  intros Hf Hb. destruct fuel as [|fuel]; [lia|]. unfold VerifyProof. cbn [verify_loop].
  destruct (proofDb !! emptyRoot) as [buf|] eqn:E; [|by left]. right. by rewrite (Hb buf eq_refl).
Qed.

(** C19: No proof verifies to a wrong value. Let a client trust the root hash of a
    trie that stores the map [m], and let it be sent any set of proof nodes, each
    filed under its hash, none of which collides with a node on the path to the
    key (with the byte 0x80, whose hash is the root, when the trie is empty).
    Then [VerifyProof] returns, within one round per digit of the key. Against a
    trie that is not empty its result is what [m] has under the key, absence
    included, or the error that a proof node is missing. Against the empty trie
    nothing verifies, absence neither: the result is the error that the proof node
    is missing, or, if the peer sent the byte 0x80, that it is bad. *)
Theorem VerifyProof_sound `{Crypto} db_node t m proofDb key fuel :
  stores db_node t m → map_fits m →
  (∀ h buf, proofDb !! h = Some buf → h = node_key buf) →
  (∀ h buf enc, proofDb !! h = Some buf → enc ∈ path_encodings db_node key t → node_key buf = node_key enc → buf = enc) →
  (m = ∅ → ∀ buf, proofDb !! emptyRoot = Some buf → buf = empty_encoding) →
  (length (keybytesToHex key) < fuel)%nat →
  let r := VerifyProof proofDb fuel (Trie_Hash t).1 key in
  (m ≠ ∅ ∧ r = Ok (m !! key)) ∨ proof_missing r ∨ (m = ∅ ∧ r = Err (Errorf "bad proof node %d: %v" [0])).
Proof.
  intros Hst Hfit Hkey Hcol Hemp Hf. destruct (decide (m = ∅)) as [->|Hne].
  - destruct (stores_empty_root _ _ Hst) as [_ ->]. right.
    destruct (VerifyProof_empty proofDb key fuel ltac:(lia) (Hemp eq_refl)) as [[_ ->]| ->]; [left; eexists _, _; reflexivity|by right].
  - destruct (VerifyProof_spec db_node t m Hst Hfit Hne proofDb key fuel Hf) as [?|[Hm _]]; [|by left|by right; left].
    intros s b buf Hv Hb E. apply (Hcol _ _ _ E); [by eapply visited_encoding|]. symmetry. by apply Hkey.
Qed.

(** The path of the empty trie. *)
Lemma Prove_empty `{Crypto} db_node t key fromLevel proofDb : tr_root t = nilNode → Prove db_node key fromLevel t proofDb = Ok proofDb.
Proof.
  intros Hn. unfold Prove. rewrite Hn. assert (E : ∀ fuel k, prove_path db_node (S fuel) nilNode k = Ok []).
  { intros fuel k. cbn [prove_path is_nil]. by destruct (_ =? 0)%nat. }
  assert (∃ f, key_fuel (keybytesToHex key) = S f) as [f ->] by (eexists; unfold key_fuel; rewrite Nat.add_comm; reflexivity).
  by rewrite E.
Qed.
Lemma Prove_verifies `{Crypto} db_node t m key :
  stores db_node t m → map_fits m → m ≠ ∅ → no_collision (path_encodings db_node key t) →
  ∃ proofDb, Prove db_node key 0 t ∅ = Ok proofDb ∧
    ∀ fuel, (length (keybytesToHex key) < fuel)%nat →
      VerifyProof proofDb fuel (Trie_Hash t).1 key = Ok (m !! key).
Proof.
  intros Hst Hfit Hne Hnc. destruct (path_collected db_node t m Hst Hne key) as (l & E & (Hl & Hhead & Hvl) & Ep).
  destruct (stores_nonempty db_node t m Hst Hne) as (Hw & b0 & Hb0 & Hroot).
  assert (Henc : ∀ s b, visits db_node (tr_root t) (keybytesToHex key) s → body db_node s b → node_enc s = item_bytes b).
  { intros s b Hs Hb. eapply node_enc_body; [|done]. by eapply (fits_visits db_node); [| |done]; [|by eapply stores_fits]. }
  destruct (prove_put_spec _ l Hnc 0 ∅ Hl) as (Hp & _ & Hbig & Hfirst).
  { intros n Hn. rewrite Ep. by apply list_elem_of_fmap_2. }
  { intros h buf. by rewrite lookup_empty. }
  unfold Prove. rewrite E. eexists. split; [done|]. intros fuel Hf.
  edestruct (VerifyProof_spec db_node t m Hst Hfit Hne) as [?|[_ Hno]]; [exact Hf| |done|exfalso; apply Hno].
  - intros s b buf Hs Hb Eb. destruct (Hp _ _ Eb) as [Hin Hk]. symmetry. apply Hnc; [by eapply visited_encoding|done..].
  - intros s b Hs Hb Hor. rewrite <- (Henc s b Hs Hb) in Hor |- *. destruct Hor as [->|Hlen]; [|by apply Hbig; [apply Hvl|]].
    destruct Hhead as [l' ->]; [by destruct (tr_root t)|apply hexkey_nonempty, keybytesToHex_hexkey|]. by eapply Hfirst.
Qed.

(** C18: A proof verifies. If the nodes on the path to a key do not collide and
    the trie is not empty, then [Prove] makes a proof and [VerifyProof] reads from
    it, against the root hash, exactly what the trie stores under the key,
    absence included. Of the empty trie [Prove] makes the proof without a node,
    and [VerifyProof] then fails with the error that node 0 is missing. *)
Theorem Prove_VerifyProof `{Crypto} db_node t m key :
  stores db_node t m → map_fits m → no_collision (path_encodings db_node key t) →
  ∃ proofDb, Prove db_node key 0 t ∅ = Ok proofDb ∧
    ∀ fuel, (length (keybytesToHex key) < fuel)%nat →
      let r := VerifyProof proofDb fuel (Trie_Hash t).1 key in
      if decide (m = ∅) then proofDb = ∅ ∧ r = Err (Errorf "proof node %d (hash %064x) missing" [0; emptyRoot])
      else r = Ok (m !! key).
Proof.
  intros Hst Hfit Hnc. destruct (decide (m = ∅)) as [->|Hne]; [|by apply Prove_verifies].
  destruct (stores_empty_root _ _ Hst) as [Hn ->]. exists ∅. split; [by apply Prove_empty|]. intros fuel Hf. split; [done|].
  destruct fuel as [|fuel]; [lia|]. done.
Qed.

(** Three accounts, and the proof nodes of one of them with a stray node. *)
Module ProofDemo.
Import TrieDemo.
Definition key3 : bytes := [Byte.x80; Byte.x00].
Definition absent : bytes := [Byte.x12; Byte.x35].
Definition accounts : gmap bytes bytes := {[ key1 := long; key2 := [Byte.x01]; key3 := long ]}.
Definition trie : Trie := fill accounts.
Definition stray : bytes := [Byte.xc1; Byte.x80].
Definition sent_proof : gmap Hash bytes :=
  match Prove no_db absent 0 trie {[ node_key stray := stray ]} with Ok p => p | _ => ∅ end.

Lemma trie_stores : stores no_db trie accounts.
Proof. apply fill_stores. refine (bool_decide_eq_true_1 _ _). vm_compute. reflexivity. Qed.
Lemma accounts_fit : map_fits accounts.
Proof. refine (bool_decide_eq_true_1 _ _). vm_compute. reflexivity. Qed.
Lemma accounts_nonempty : accounts ≠ ∅.
Proof. intros E. apply (f_equal (fun m : gmap bytes bytes => m !! key1)) in E. vm_compute in E. discriminate. Qed.
Lemma path_nodes : length (path_encodings no_db key1 trie) = 4%nat ∧ size sent_proof = 4%nat.
Proof. vm_compute. done. Qed.

Lemma no_collision_Forall l : Forall (fun a => Forall (fun b => node_key a = node_key b → a = b) l) l → no_collision l.
Proof. intros Hl a b Ha Hb. rewrite Forall_forall in Hl. specialize (Hl a Ha). rewrite Forall_forall in Hl. by apply Hl. Qed.
End ProofDemo.

Lemma Prove_VerifyProof_witness :
  ∃ proofDb, Prove (H := TrieDemo.sum_crypto) no_db TrieDemo.key1 0 ProofDemo.trie ∅ = Ok proofDb ∧
    ∀ fuel, (length (keybytesToHex TrieDemo.key1) < fuel)%nat →
      VerifyProof proofDb fuel (Trie_Hash (H := TrieDemo.sum_crypto) ProofDemo.trie).1 TrieDemo.key1 = Ok (Some TrieDemo.long).
Proof.
  destruct (Prove_VerifyProof (H := TrieDemo.sum_crypto) no_db ProofDemo.trie ProofDemo.accounts TrieDemo.key1) as (proofDb & E & Hv);
    [exact ProofDemo.trie_stores|exact ProofDemo.accounts_fit| |].
  - apply ProofDemo.no_collision_Forall. refine (bool_decide_eq_true_1 _ _). vm_compute. reflexivity.
  - exists proofDb. split; [exact E|]. intros fuel Hf. specialize (Hv fuel Hf). cbv zeta in Hv.
    destruct (decide (ProofDemo.accounts = ∅)) as [Em|_]; [destruct (ProofDemo.accounts_nonempty Em)|exact Hv].
Defined.

Lemma VerifyProof_sound_witness :
  let r := VerifyProof ProofDemo.sent_proof 6 (Trie_Hash (H := TrieDemo.sum_crypto) ProofDemo.trie).1 ProofDemo.absent in
  (ProofDemo.accounts ≠ ∅ ∧ r = Ok None) ∨ proof_missing r ∨
  (ProofDemo.accounts = ∅ ∧ r = Err (Errorf "bad proof node %d: %v" [0])).
Proof.
  apply (VerifyProof_sound (H := TrieDemo.sum_crypto) no_db ProofDemo.trie ProofDemo.accounts ProofDemo.sent_proof ProofDemo.absent 6);
    [exact ProofDemo.trie_stores|exact ProofDemo.accounts_fit| | |intros Em; destruct (ProofDemo.accounts_nonempty Em)|].
  - refine (bool_decide_eq_true_1 (map_Forall (fun h buf => h = node_key buf) ProofDemo.sent_proof) _). vm_compute. reflexivity.
  - intros h buf enc Hb He. revert enc He.
    refine (proj1 (Forall_forall (fun enc => node_key buf = node_key enc → buf = enc) _) _). revert h buf Hb.
    refine (bool_decide_eq_true_1 (map_Forall (fun _ buf => Forall (fun enc => node_key buf = node_key enc → buf = enc) _) ProofDemo.sent_proof) _).
    vm_compute. reflexivity.
  - vm_compute. lia.
Defined.
