(* ===== verification/StateDB.v ===== *)
(** * The state database during execution (chain/core/state: statedb.go,
    state_object.go, journal.go, access_list.go)

    Accounts live as state objects in a map, loaded from the account trie on
    first use; every change appends an entry to the journal that can undo it, and
    [Snapshot] and [RevertToSnapshot] cut the journal back. The tries and the code
    store behind it are parameters ([Backend]); they do not change while
    transactions run. The model is of a node without snapshot tree (snap is nil)
    and without prefetcher; the storage override for debugging is left out. *)

From S2P Require Import Prelude Bytes Rlp Types Text.

(** ** Accounts *)

Record StateAccount := MkAccount { acc_Nonce : Z; acc_Balance : Z; acc_Root : Hash; acc_CodeHash : Hash }.

Record stateObject := MkObject {
  so_address : Address;
  so_data : StateAccount;
  so_dbErr : option error;
  so_code : option bytes;
  originStorage : gmap Hash Hash;
  pendingStorage : gmap Hash Hash;
  dirtyStorage : gmap Hash Hash;
  dirtyCode : bool;
  suicided : bool;
  deleted : bool
}.

Definition with_data (d : StateAccount) (o : stateObject) : stateObject :=
  MkObject (so_address o) d (so_dbErr o) (so_code o) (originStorage o) (pendingStorage o) (dirtyStorage o)
    (dirtyCode o) (suicided o) (deleted o).
Definition so_setError (e : error) (o : stateObject) : stateObject :=
  MkObject (so_address o) (so_data o) (match so_dbErr o with None => Some e | x => x end) (so_code o)
    (originStorage o) (pendingStorage o) (dirtyStorage o) (dirtyCode o) (suicided o) (deleted o).
Definition with_code (c : option bytes) (dirty : bool) (o : stateObject) : stateObject :=
  MkObject (so_address o) (so_data o) (so_dbErr o) c (originStorage o) (pendingStorage o) (dirtyStorage o)
    dirty (suicided o) (deleted o).
Definition with_storage (origin pending dirty : gmap Hash Hash) (o : stateObject) : stateObject :=
  MkObject (so_address o) (so_data o) (so_dbErr o) (so_code o) origin pending dirty
    (dirtyCode o) (suicided o) (deleted o).
Definition with_flags (s d : bool) (o : stateObject) : stateObject :=
  MkObject (so_address o) (so_data o) (so_dbErr o) (so_code o) (originStorage o) (pendingStorage o)
    (dirtyStorage o) (dirtyCode o) s d.

Definition setBalance (amount : Z) (o : stateObject) : stateObject :=
  with_data (MkAccount (acc_Nonce (so_data o)) amount (acc_Root (so_data o)) (acc_CodeHash (so_data o))) o.
Definition setNonce (nonce : Z) (o : stateObject) : stateObject :=
  with_data (MkAccount nonce (acc_Balance (so_data o)) (acc_Root (so_data o)) (acc_CodeHash (so_data o))) o.
Definition setCode (codeHash : Hash) (code : option bytes) (o : stateObject) : stateObject :=
  with_code code true
    (with_data (MkAccount (acc_Nonce (so_data o)) (acc_Balance (so_data o)) (acc_Root (so_data o)) codeHash) o).
Definition setState (key value : Hash) (o : stateObject) : stateObject :=
  with_storage (originStorage o) (pendingStorage o) (<[key := value]> (dirtyStorage o)) o.

(** ** The access list (access_list.go) *)

Record accessList := MkAccess { al_addresses : gmap Address Z; al_slots : list (gset Hash) }.
Definition newAccessList : accessList := MkAccess ∅ [].

Definition ContainsAddress (a : Address) (al : accessList) : bool :=
  match al_addresses al !! a with Some _ => true | None => false end.
Definition al_Contains (a : Address) (slot : Hash) (al : accessList) : result (bool * bool) :=
  match al_addresses al !! a with
  | None => Ok (false, false)
  | Some idx =>
      if idx =? -1 then Ok (true, false)
      else match al_slots al !! Z.to_nat idx with
           | Some m => Ok (true, bool_decide (slot ∈ m))
           | None => Panic "index out of range"
           end
  end.
Definition AddAddress (a : Address) (al : accessList) : bool * accessList :=
  match al_addresses al !! a with
  | Some _ => (false, al)
  | None => (true, MkAccess (<[a := -1]> (al_addresses al)) (al_slots al))
  end.
Definition AddSlot (a : Address) (slot : Hash) (al : accessList) : result (bool * bool * accessList) :=
  let fresh present :=
    Ok (negb present, true,
        MkAccess (<[a := Z.of_nat (length (al_slots al))]> (al_addresses al)) (al_slots al ++ [{[slot]}])) in
  match al_addresses al !! a with
  | None => fresh false
  | Some idx =>
      if idx =? -1 then fresh true
      else match al_slots al !! Z.to_nat idx with
           | None => Panic "index out of range"
           | Some m =>
               if bool_decide (slot ∈ m) then Ok (false, false, al)
               else Ok (false, true, MkAccess (al_addresses al) (<[Z.to_nat idx := m ∪ {[slot]}]> (al_slots al)))
           end
  end.
Definition DeleteSlot (a : Address) (slot : Hash) (al : accessList) : result accessList :=
  match al_addresses al !! a with
  | None => Panic "reverting slot change, address not present in list"
  | Some idx =>
      match (if idx <? 0 then None else al_slots al !! Z.to_nat idx) with
      | None => Panic "index out of range"
      | Some m =>
          let m := m ∖ {[slot]} in
          if bool_decide (m = ∅)
          then Ok (MkAccess (<[a := -1]> (al_addresses al)) (take (Z.to_nat idx) (al_slots al)))
          else Ok (MkAccess (al_addresses al) (<[Z.to_nat idx := m]> (al_slots al)))
      end
  end.
Definition DeleteAddress (a : Address) (al : accessList) : accessList :=
  MkAccess (delete a (al_addresses al)) (al_slots al).

(** ** The journal and the database *)

Inductive journalEntry :=
| createObjectChange (account : Address)
| resetObjectChange (prev : stateObject) (prevdestruct : bool)
| suicideChange (account : Address) (prev : bool) (prevbalance : Z)
| balanceChange (account : Address) (prev : Z)
| nonceChange (account : Address) (prev : Z)
| storageChange (account : Address) (key prevalue : Hash)
| codeChange (account : Address) (prevcode : option bytes) (prevhash : Hash)
| refundChange (prev : Z)
| addLogChange (txhash : Hash)
| addPreimageChange (hash : Hash)
| touchChange (account : Address)
| accessListAddAccountChange (address : Address)
| accessListAddSlotChange (address : Address) (slot : Hash).

(** [dirtied]. *)
Definition dirtied (e : journalEntry) : option Address :=
  match e with
  | createObjectChange a | suicideChange a _ _ | balanceChange a _ | nonceChange a _
  | storageChange a _ _ | codeChange a _ _ | touchChange a => Some a
  | _ => None
  end.

(** A log; the block fields, which are filled in later, are left out. *)
Record Log := MkLog {
  log_Address : Address; log_Topics : list Hash; log_Data : bytes;
  log_TxHash : Hash; log_TxIndex : Z; log_Index : Z }.

Record StateDB := MkState {
  stateObjects : gmap Address stateObject;
  stateObjectsPending : gset Address;
  stateObjectsDirty : gset Address;
  dbErr : option error;
  refund : Z;
  thash : Hash;
  txIndex : Z;
  logs : gmap Hash (list Log);
  logSize : Z;
  preimages : gmap Hash bytes;
  access : accessList;
  entries : list journalEntry;
  dirties : gmap Address Z;
  validRevisions : list (Z * nat);
  nextRevisionId : Z
}.

(** Field updates. *)
Definition with_objects (m : gmap Address stateObject) (s : StateDB) : StateDB :=
  MkState m (stateObjectsPending s) (stateObjectsDirty s) (dbErr s) (refund s) (thash s) (txIndex s) (logs s)
    (logSize s) (preimages s) (access s) (entries s) (dirties s) (validRevisions s) (nextRevisionId s).
Definition with_marks (pending dirty : gset Address) (s : StateDB) : StateDB :=
  MkState (stateObjects s) pending dirty (dbErr s) (refund s) (thash s) (txIndex s) (logs s)
    (logSize s) (preimages s) (access s) (entries s) (dirties s) (validRevisions s) (nextRevisionId s).
Definition setError (e : error) (s : StateDB) : StateDB :=
  MkState (stateObjects s) (stateObjectsPending s) (stateObjectsDirty s)
    (match dbErr s with None => Some e | x => x end) (refund s) (thash s) (txIndex s) (logs s)
    (logSize s) (preimages s) (access s) (entries s) (dirties s) (validRevisions s) (nextRevisionId s).
Definition with_refund (r : Z) (s : StateDB) : StateDB :=
  MkState (stateObjects s) (stateObjectsPending s) (stateObjectsDirty s) (dbErr s) r (thash s) (txIndex s) (logs s)
    (logSize s) (preimages s) (access s) (entries s) (dirties s) (validRevisions s) (nextRevisionId s).
Definition with_logs (l : gmap Hash (list Log)) (n : Z) (s : StateDB) : StateDB :=
  MkState (stateObjects s) (stateObjectsPending s) (stateObjectsDirty s) (dbErr s) (refund s) (thash s) (txIndex s) l
    n (preimages s) (access s) (entries s) (dirties s) (validRevisions s) (nextRevisionId s).
Definition with_preimages (p : gmap Hash bytes) (s : StateDB) : StateDB :=
  MkState (stateObjects s) (stateObjectsPending s) (stateObjectsDirty s) (dbErr s) (refund s) (thash s) (txIndex s)
    (logs s) (logSize s) p (access s) (entries s) (dirties s) (validRevisions s) (nextRevisionId s).
Definition with_access (a : accessList) (s : StateDB) : StateDB :=
  MkState (stateObjects s) (stateObjectsPending s) (stateObjectsDirty s) (dbErr s) (refund s) (thash s) (txIndex s)
    (logs s) (logSize s) (preimages s) a (entries s) (dirties s) (validRevisions s) (nextRevisionId s).
Definition with_journal (es : list journalEntry) (d : gmap Address Z) (s : StateDB) : StateDB :=
  MkState (stateObjects s) (stateObjectsPending s) (stateObjectsDirty s) (dbErr s) (refund s) (thash s) (txIndex s)
    (logs s) (logSize s) (preimages s) (access s) es d (validRevisions s) (nextRevisionId s).
Definition with_revisions (rs : list (Z * nat)) (n : Z) (s : StateDB) : StateDB :=
  MkState (stateObjects s) (stateObjectsPending s) (stateObjectsDirty s) (dbErr s) (refund s) (thash s) (txIndex s)
    (logs s) (logSize s) (preimages s) (access s) (entries s) (dirties s) rs n.

(** [journal.append], [journal.dirty]. *)
Definition bump_dirty (a : Address) (d : gmap Address Z) : gmap Address Z := <[a := default 0 (d !! a) + 1]> d.
Definition drop_dirty (a : Address) (d : gmap Address Z) : gmap Address Z :=
  let n := default 0 (d !! a) - 1 in if n =? 0 then delete a d else <[a := n]> d.
Definition append (e : journalEntry) (s : StateDB) : StateDB :=
  with_journal (entries s ++ [e]) (match dirtied e with Some a => bump_dirty a (dirties s) | None => dirties s end) s.
Definition journal_dirty (a : Address) (s : StateDB) : StateDB :=
  with_journal (entries s) (bump_dirty a (dirties s)) s.

Definition setStateObject (o : stateObject) (s : StateDB) : StateDB :=
  with_objects (<[so_address o := o]> (stateObjects s)) s.

Definition state_emptyRoot : Hash := 0x56e81f171bcc55a6ff8345e692c0f86e5b48e01b996cadc001622fb5e363b421.
Definition ripemd : Address := 3.

(** What is behind the state: the account trie, the storage tries by root (the
    lookup function of an opened trie), and the contract codes by hash. *)
Record Backend := MkBackend {
  TryGetAccount : Address → result (option StateAccount);
  OpenStorageTrie : Address → Hash → result (Hash → result bytes);
  ContractCode : Hash → result bytes
}.
(** [ContractCodeSize]; its cache holds the lengths of codes. *)
Definition ContractCodeSize (db : Backend) (codeHash : Hash) : result Z :=
  code ← ContractCode db codeHash; Ok (Z.of_nat (length code)).

(** A fresh database ([New]). *)
Definition newState : StateDB := MkState ∅ ∅ ∅ None 0 0 0 ∅ 0 ∅ newAccessList [] ∅ [] 0.

Section StateDB.
Context `{Crypto} (db : Backend).

Definition emptyCodeHash : Hash := keccak256 [].

Definition so_empty (o : stateObject) : bool :=
  (acc_Nonce (so_data o) =? 0) && (acc_Balance (so_data o) =? 0) && (acc_CodeHash (so_data o) =? emptyCodeHash).

(** [newObject]; the zero account gets the hash of no code and the empty root. *)
Definition newObject (a : Address) (d : StateAccount) : stateObject :=
  MkObject a
    (MkAccount (acc_Nonce d) (acc_Balance d) (if acc_Root d =? 0 then state_emptyRoot else acc_Root d) (acc_CodeHash d))
    None None ∅ ∅ ∅ false false false.
Definition zeroAccount : StateAccount := MkAccount 0 0 0 emptyCodeHash.

(** [getDeletedStateObject], [getStateObject]; of the errors of the store the
    format and the numbers are kept. *)
Definition getDeletedStateObject (a : Address) (s : StateDB) : option stateObject * StateDB :=
  match stateObjects s !! a with
  | Some o => (Some o, s)
  | None =>
      match TryGetAccount db a with
      | Ok None => (None, s)
      | Ok (Some d) => let o := newObject a d in (Some o, setStateObject o s)
      | Err _ => (None, setError (Errorf "getDeleteStateObject (%x) error: %w" [a]) s)
      | Panic _ => (None, s)
      end
  end.
Definition getStateObject (a : Address) (s : StateDB) : option stateObject * StateDB :=
  let '(o, s) := getDeletedStateObject a s in
  (match o with Some o => if deleted o then None else Some o | None => None end, s).

(** [createObject], [GetOrNewStateObject], [CreateAccount]. *)
Definition createObject (a : Address) (s : StateDB) : stateObject * option stateObject * StateDB :=
  let '(prev, s) := getDeletedStateObject a s in
  let newobj := newObject a zeroAccount in
  let s := match prev with
           | None => append (createObjectChange a) s
           | Some p => append (resetObjectChange p false) s
           end in
  let s := setStateObject newobj s in
  (newobj, match prev with Some p => if deleted p then None else Some p | None => None end, s).
Definition GetOrNewStateObject (a : Address) (s : StateDB) : stateObject * StateDB :=
  let '(o, s) := getStateObject a s in
  match o with
  | Some o => (o, s)
  | None => let '(o, _, s) := createObject a s in (o, s)
  end.
Definition CreateAccount (a : Address) (s : StateDB) : StateDB :=
  let '(o, prev, s) := createObject a s in
  match prev with
  | Some p => setStateObject (setBalance (acc_Balance (so_data p)) o) s
  | None => s
  end.

(** ** Reading an object: its storage and its code *)

Definition storage_value (enc : bytes) (o : stateObject) : Hash * stateObject :=
  match enc with
  | [] => (0, o)
  | _ =>
      match Split enc with
      | Ok (_, content, _) => (BytesToHash content, o)
      | Err e => (0, so_setError e o)
      | Panic _ => (0, o)
      end
  end.
Definition GetCommittedState (key : Hash) (o : stateObject) : Hash * stateObject :=
  match pendingStorage o !! key with
  | Some v => (v, o)
  | None =>
      match originStorage o !! key with
      | Some v => (v, o)
      | None =>
          let '(get, o) :=
            match OpenStorageTrie db (so_address o) (acc_Root (so_data o)) with
            | Ok get => (get, o)
            | Err _ => (λ _, Ok [], so_setError (Errorf "can't create storage trie: %v" []) o)
            | Panic _ => (λ _, Ok [], o)
            end in
          match get key with
          | Ok enc =>
              let '(v, o) := storage_value enc o in
              (v, with_storage (<[key := v]> (originStorage o)) (pendingStorage o) (dirtyStorage o) o)
          | Err e => (0, so_setError e o)
          | Panic _ => (0, o)
          end
      end
  end.
Definition so_GetState (key : Hash) (o : stateObject) : Hash * stateObject :=
  match dirtyStorage o !! key with
  | Some v => (v, o)
  | None => GetCommittedState key o
  end.
Definition Code (o : stateObject) : option bytes * stateObject :=
  match so_code o with
  | Some c => (Some c, o)
  | None =>
      if acc_CodeHash (so_data o) =? emptyCodeHash then (None, o)
      else match ContractCode db (acc_CodeHash (so_data o)) with
           | Ok c => (Some c, with_code (Some c) (dirtyCode o) o)
           | Err _ => (None, so_setError (Errorf "can't load code hash %x: %v" [acc_CodeHash (so_data o)]) o)
           | Panic _ => (None, o)
           end
  end.

Definition CodeSize (o : stateObject) : Z * stateObject :=
  match so_code o with
  | Some c => (Z.of_nat (length c), o)
  | None =>
      if acc_CodeHash (so_data o) =? emptyCodeHash then (0, o)
      else match ContractCodeSize db (acc_CodeHash (so_data o)) with
           | Ok n => (n, o)
           | Err _ => (0, so_setError (Errorf "can't load code size %x: %v" [acc_CodeHash (so_data o)]) o)
           | Panic _ => (0, o)
           end
  end.

(** ** Changing an object. The object is written back into the map: in Go it is
    changed through its pointer. *)

Definition touch (o : stateObject) (s : StateDB) : StateDB :=
  let s := append (touchChange (so_address o)) s in
  if so_address o =? ripemd then journal_dirty (so_address o) s else s.
Definition so_SetBalance (amount : Z) (o : stateObject) (s : StateDB) : StateDB :=
  setStateObject (setBalance amount o) (append (balanceChange (so_address o) (acc_Balance (so_data o))) s).
Definition so_AddBalance (amount : Z) (o : stateObject) (s : StateDB) : StateDB :=
  if amount =? 0 then (if so_empty o then touch o s else s)
  else so_SetBalance (acc_Balance (so_data o) + amount) o s.
Definition so_SubBalance (amount : Z) (o : stateObject) (s : StateDB) : StateDB :=
  if amount =? 0 then s else so_SetBalance (acc_Balance (so_data o) - amount) o s.
Definition so_SetNonce (nonce : Z) (o : stateObject) (s : StateDB) : StateDB :=
  setStateObject (setNonce nonce o) (append (nonceChange (so_address o) (acc_Nonce (so_data o))) s).
Definition so_SetCode (codeHash : Hash) (code : bytes) (o : stateObject) (s : StateDB) : StateDB :=
  let '(prevcode, o) := Code o in
  setStateObject (setCode codeHash (Some code) o)
    (append (codeChange (so_address o) prevcode (acc_CodeHash (so_data o))) s).
Definition so_SetState (key value : Hash) (o : stateObject) (s : StateDB) : StateDB :=
  let '(prev, o) := so_GetState key o in
  if prev =? value then setStateObject o s
  else setStateObject (setState key value o) (append (storageChange (so_address o) key prev) s).

(** ** The operations of StateDB *)

Definition on_object (f : stateObject → StateDB → StateDB) (a : Address) (s : StateDB) : StateDB :=
  let '(o, s) := GetOrNewStateObject a s in f o s.
Definition StateDB_AddBalance (a : Address) (amount : Z) : StateDB → StateDB := on_object (so_AddBalance amount) a.
Definition SubBalance (a : Address) (amount : Z) : StateDB → StateDB := on_object (so_SubBalance amount) a.
Definition SetBalance (a : Address) (amount : Z) : StateDB → StateDB := on_object (so_SetBalance amount) a.
Definition SetNonce (a : Address) (nonce : Z) : StateDB → StateDB := on_object (so_SetNonce nonce) a.
Definition SetCode (a : Address) (code : bytes) : StateDB → StateDB := on_object (so_SetCode (keccak256 code) code) a.
Definition SetState (a : Address) (key value : Hash) : StateDB → StateDB := on_object (so_SetState key value) a.

Definition Suicide (a : Address) (s : StateDB) : bool * StateDB :=
  let '(o, s) := getStateObject a s in
  match o with
  | None => (false, s)
  | Some o =>
      let s := append (suicideChange a (suicided o) (acc_Balance (so_data o))) s in
      (true, setStateObject (setBalance 0 (with_flags true (deleted o) o)) s)
  end.

Definition AddLog (l : Log) (s : StateDB) : StateDB :=
  let l := MkLog (log_Address l) (log_Topics l) (log_Data l) (thash s) (txIndex s) (logSize s) in
  let s := append (addLogChange (thash s)) s in
  with_logs (<[thash s := default [] (logs s !! thash s) ++ [l]]> (logs s)) (add64 (logSize s) 1) s.
Definition AddPreimage (hash : Hash) (preimage : bytes) (s : StateDB) : StateDB :=
  match preimages s !! hash with
  | Some _ => s
  | None => with_preimages (<[hash := preimage]> (preimages s)) (append (addPreimageChange hash) s)
  end.
Definition AddRefund (gas : Z) (s : StateDB) : StateDB :=
  with_refund (add64 (refund s) gas) (append (refundChange (refund s)) s).
Definition SubRefund (gas : Z) (s : StateDB) : result StateDB :=
  let s := append (refundChange (refund s)) s in
  if refund s <? gas then Panic "Refund counter below zero" else Ok (with_refund (sub64 (refund s) gas) s).

Definition AddAddressToAccessList (a : Address) (s : StateDB) : StateDB :=
  let '(changed, al) := AddAddress a (access s) in
  let s := with_access al s in
  if changed : bool then append (accessListAddAccountChange a) s else s.
Definition AddSlotToAccessList (a : Address) (slot : Hash) (s : StateDB) : result StateDB :=
  '(addrMod, slotMod, al) ← AddSlot a slot (access s);
  let s := with_access al s in
  let s := if addrMod : bool then append (accessListAddAccountChange a) s else s in
  Ok (if slotMod : bool then append (accessListAddSlotChange a slot) s else s).

(** The queries; they may load an object into the map. *)
Definition Exist (a : Address) (s : StateDB) : bool * StateDB :=
  let '(o, s) := getStateObject a s in (match o with Some _ => true | None => false end, s).
Definition Empty (a : Address) (s : StateDB) : bool * StateDB :=
  let '(o, s) := getStateObject a s in (match o with Some o => so_empty o | None => true end, s).
Definition GetBalance (a : Address) (s : StateDB) : Z * StateDB :=
  let '(o, s) := getStateObject a s in (match o with Some o => acc_Balance (so_data o) | None => 0 end, s).
Definition GetNonce (a : Address) (s : StateDB) : Z * StateDB :=
  let '(o, s) := getStateObject a s in (match o with Some o => acc_Nonce (so_data o) | None => 0 end, s).
Definition GetCodeHash (a : Address) (s : StateDB) : Hash * StateDB :=
  let '(o, s) := getStateObject a s in (match o with Some o => acc_CodeHash (so_data o) | None => 0 end, s).
Definition HasSuicided (a : Address) (s : StateDB) : bool * StateDB :=
  let '(o, s) := getStateObject a s in (match o with Some o => suicided o | None => false end, s).
Definition read_object {A} (f : stateObject → A * stateObject) (d : A) (a : Address) (s : StateDB) : A * StateDB :=
  let '(o, s) := getStateObject a s in
  match o with Some o => let '(v, o) := f o in (v, setStateObject o s) | None => (d, s) end.
Definition GetCode (a : Address) : StateDB → option bytes * StateDB := read_object Code None a.
Definition GetCodeSize (a : Address) : StateDB → Z * StateDB := read_object CodeSize 0 a.
Definition GetState (a : Address) (key : Hash) : StateDB → Hash * StateDB := read_object (so_GetState key) 0 a.
Definition StateDB_GetCommittedState (a : Address) (key : Hash) : StateDB → Hash * StateDB :=
  read_object (GetCommittedState key) 0 a.

(** ** Snapshot and revert *)

(** [revert] of an entry. *)
Definition revert_object (a : Address) (f : stateObject → stateObject) (s : StateDB) : result StateDB :=
  let '(o, s) := getStateObject a s in
  match o with Some o => Ok (setStateObject (f o) s) | None => Panic "nil pointer dereference" end.
Definition revert (e : journalEntry) (s : StateDB) : result StateDB :=
  match e with
  | createObjectChange a =>
      Ok (with_marks (stateObjectsPending s) (stateObjectsDirty s ∖ {[a]})
            (with_objects (delete a (stateObjects s)) s))
  | resetObjectChange prev _ => Ok (setStateObject prev s)
  | suicideChange a prev bal =>
      let '(o, s) := getStateObject a s in
      match o with
      | Some o => Ok (setStateObject (setBalance bal (with_flags prev (deleted o) o)) s)
      | None => Ok s
      end
  | touchChange _ => Ok s
  | balanceChange a prev => revert_object a (setBalance prev) s
  | nonceChange a prev => revert_object a (setNonce prev) s
  | codeChange a code hash => revert_object a (setCode hash code) s
  | storageChange a key v => revert_object a (setState key v) s
  | refundChange prev => Ok (with_refund prev s)
  | addLogChange h =>
      let l := default [] (logs s !! h) in
      if (length l =? 0)%nat then Panic "slice bounds out of range"
      else
        let m := if (length l =? 1)%nat then delete h (logs s) else <[h := removelast l]> (logs s) in
        Ok (with_logs m (sub64 (logSize s) 1) s)
  | addPreimageChange h => Ok (with_preimages (delete h (preimages s)) s)
  | accessListAddAccountChange a => Ok (with_access (DeleteAddress a (access s)) s)
  | accessListAddSlotChange a slot => al ← DeleteSlot a slot (access s); Ok (with_access al s)
  end.

(** [journal.revert]: the entries from the last down to the snapshot. *)
Definition undo (e : journalEntry) (s : StateDB) : result StateDB :=
  s ← revert e s;
  Ok (match dirtied e with Some a => with_journal (entries s) (drop_dirty a (dirties s)) s | None => s end).
Fixpoint undo_all (es : list journalEntry) (s : StateDB) : result StateDB :=
  match es with
  | [] => Ok s
  | e :: es => s ← undo e s; undo_all es s
  end.
Definition journal_revert (snapshot : nat) (s : StateDB) : result StateDB :=
  let es := entries s in
  s ← undo_all (reverse (drop snapshot es)) s;
  if (snapshot <=? length es)%nat then Ok (with_journal (take snapshot es) (dirties s) s)
  else Panic "slice bounds out of range".

Definition StateDB_Snapshot (s : StateDB) : Z * StateDB :=
  let id := nextRevisionId s in
  (id, with_revisions (validRevisions s ++ [(id, length (entries s))]) (id + 1) s).

(** sort.Search for the first revision with an id of at least [revid]; ids only
    grow along the list. *)
Fixpoint search_revision (revid : Z) (rs : list (Z * nat)) : nat :=
  match rs with
  | [] => 0
  | r :: rs => if revid <=? r.1 then 0 else S (search_revision revid rs)
  end.
Definition RevertToSnapshot (revid : Z) (s : StateDB) : result StateDB :=
  let idx := search_revision revid (validRevisions s) in
  match validRevisions s !! idx with
  | None => Panic "revision id cannot be reverted"
  | Some (id, snapshot) =>
      if negb (id =? revid) then Panic "revision id cannot be reverted"
      else
        s ← journal_revert snapshot s;
        Ok (with_revisions (take idx (validRevisions s)) (nextRevisionId s) s)
  end.

(** ** Between transactions *)

(** [finalise] of an object. *)
Definition so_finalise (o : stateObject) : stateObject :=
  with_storage (originStorage o) (dirtyStorage o ∪ pendingStorage o) ∅ o.

Definition finalise_object (deleteEmptyObjects : bool) (o : stateObject) : stateObject :=
  if suicided o || (deleteEmptyObjects && so_empty o) then with_flags (suicided o) true o else so_finalise o.

Definition clearJournalAndRefund (s : StateDB) : StateDB :=
  let s := match entries s with [] => s | _ => with_refund 0 (with_journal [] ∅ s) end in
  with_revisions [] (nextRevisionId s) s.

(** [Finalise]: the order in which the dirty addresses are visited does not
    matter, each touches its own object. *)
Definition Finalise (deleteEmptyObjects : bool) (s : StateDB) : StateDB :=
  let hit := filter (λ a, is_Some (stateObjects s !! a)) (dom (dirties s)) in
  let objs := map_imap (λ a o, Some (if decide (a ∈ hit) then finalise_object deleteEmptyObjects o else o))
                (stateObjects s) in
  clearJournalAndRefund
    (with_marks (stateObjectsPending s ∪ hit) (stateObjectsDirty s ∪ hit) (with_objects objs s)).

(** [PrepareAccessList], before a transaction runs. *)
Fixpoint add_addresses (l : list Address) (s : StateDB) : StateDB :=
  match l with [] => s | a :: l => add_addresses l (AddAddressToAccessList a s) end.
Fixpoint add_slots (a : Address) (keys : list Hash) (s : StateDB) : result StateDB :=
  match keys with [] => Ok s | k :: keys => s ← AddSlotToAccessList a k s; add_slots a keys s end.
Fixpoint add_tuples (l : list (Address * list Hash)) (s : StateDB) : result StateDB :=
  match l with
  | [] => Ok s
  | (a, keys) :: l => s ← add_slots a keys (AddAddressToAccessList a s); add_tuples l s
  end.
Definition PrepareAccessList (sender : Address) (dst : option Address) (precompiles : list Address)
  (list : list (Address * list Hash)) (s : StateDB) : result StateDB :=
  let s := AddAddressToAccessList sender (with_access newAccessList s) in
  let s := match dst with Some d => AddAddressToAccessList d s | None => s end in
  add_tuples list (add_addresses precompiles s).

Definition Prepare (h : Hash) (ti : Z) (s : StateDB) : StateDB :=
  MkState (stateObjects s) (stateObjectsPending s) (stateObjectsDirty s) (dbErr s) (refund s) h ti (logs s)
    (logSize s) (preimages s) (access s) (entries s) (dirties s) (validRevisions s) (nextRevisionId s).
End StateDB.
