(* ===== verification/StateRevert.v ===== *)
(** * Reverting to a snapshot restores the state

    [eqv] relates two states that no query can tell apart; caches may differ.
    Every journal entry undoes its change up to [eqv], so that cutting the
    journal back to a snapshot gives back the state it was taken in. *)

From S2P Require Import Prelude Bytes Rlp Types Text StateDB.

Section Views.
Context `{Crypto} (db : Backend).

(** ** What can be seen of an object *)

Definition committed (o : stateObject) (k : Hash) : Hash := (GetCommittedState db k o).1.
Definition slot (o : stateObject) (k : Hash) : Hash := (so_GetState db k o).1.
Definition code_view (o : stateObject) : option bytes := (Code db o).1.

Record obj_eq (o o' : stateObject) : Prop := {
  oe_address : so_address o = so_address o';
  oe_data : so_data o = so_data o';
  oe_suicided : suicided o = suicided o';
  oe_deleted : deleted o = deleted o';
  oe_code : code_view o = code_view o';
  oe_committed k : committed o k = committed o' k;
  oe_slot k : slot o k = slot o' k
}.

#[export] Instance obj_eq_equiv : Equivalence obj_eq.
Proof.
  split.
  - intros o. by split.
  - intros o p []. split; intros; symmetry; eauto.
  - intros o p q [] []. split; intros; etrans; eauto.
Qed.

(** The value a storage trie gives, without the caches. *)
Definition fresh_value (a : Address) (root k : Hash) : option Hash :=
  match OpenStorageTrie db a root with
  | Ok get =>
      match get k with
      | Ok enc => Some (storage_value enc (newObject a (zeroAccount))).1
      | _ => None
      end
  | _ => Some 0
  end.

Lemma storage_value_fst enc o o' : (storage_value enc o).1 = (storage_value enc o').1.
Proof. unfold storage_value. destruct enc; [done|]. by destruct (Split _) as [[[? ?] ?]| |]. Qed.
Lemma storage_value_snd enc o : (storage_value enc o).2 = o ∨ ∃ e, (storage_value enc o).2 = so_setError e o.
Proof. unfold storage_value. destruct enc; [by left|]. destruct (Split _) as [[[? ?] ?]| |]; [by left|by right; eexists|by left]. Qed.

Lemma committed_eq o k : committed o k =
  match pendingStorage o !! k with
  | Some v => v
  | None => match originStorage o !! k with
            | Some v => v
            | None => default 0 (fresh_value (so_address o) (acc_Root (so_data o)) k)
            end
  end.
Proof.
  unfold committed, GetCommittedState, fresh_value.
  destruct (pendingStorage o !! k); [done|]. destruct (originStorage o !! k); [done|].
  destruct (OpenStorageTrie db _ _) as [get|e|p]; [|done..].
  destruct (get k) as [enc|e|p]; [|done..].
  pose proof (storage_value_fst enc o (newObject (so_address o) zeroAccount)) as E.
  destruct (storage_value enc o) as [v o']. simpl in *. by rewrite E.
Qed.
Lemma slot_eq o k : slot o k = default (committed o k) (dirtyStorage o !! k).
Proof. unfold slot, so_GetState. by destruct (dirtyStorage o !! k). Qed.
Lemma code_view_eq o : code_view o =
  match so_code o with
  | Some c => Some c
  | None => if acc_CodeHash (so_data o) =? emptyCodeHash then None
            else match ContractCode db (acc_CodeHash (so_data o)) with Ok c => Some c | _ => None end
  end.
Proof.
  unfold code_view, Code. destruct (so_code o); [done|]. destruct (_ =? _); [done|]. by destruct (ContractCode db _).
Qed.

(** An object that agrees on everything the views read. *)
Lemma obj_eq_same o o' : so_address o = so_address o' → so_data o = so_data o' → suicided o = suicided o' →
  deleted o = deleted o' → so_code o = so_code o' → originStorage o = originStorage o' →
  pendingStorage o = pendingStorage o' → dirtyStorage o = dirtyStorage o' → obj_eq o o'.
Proof.
  intros E1 E2 E3 E4 E5 E6 E7 E8.
  assert (Ec : ∀ k, committed o k = committed o' k) by (intros k; by rewrite !committed_eq, E1, E2, E6, E7).
  split; try done.
  - by rewrite !code_view_eq, E5, E2.
  - intros k. by rewrite !slot_eq, Ec, E8.
Qed.

Lemma so_setError_eq e o : obj_eq (so_setError e o) o.
Proof. by apply obj_eq_same. Qed.

(** Reading caches, and changes nothing that can be seen. *)
Lemma cache_origin o k v : originStorage o !! k = None → pendingStorage o !! k = None →
  fresh_value (so_address o) (acc_Root (so_data o)) k = Some v →
  obj_eq (with_storage (<[k := v]> (originStorage o)) (pendingStorage o) (dirtyStorage o) o) o.
Proof.
  intros Ho Hp Hf.
  assert (Ec : ∀ k', committed (with_storage (<[k := v]> (originStorage o)) (pendingStorage o) (dirtyStorage o) o) k' = committed o k').
  { intros k'. rewrite !committed_eq. simpl. destruct (decide (k = k')) as [<-|Hne].
    - by rewrite Hp, Ho, lookup_insert_eq, Hf.
    - by rewrite lookup_insert_ne. }
  split; try done.
  - by rewrite !code_view_eq.
  - intros k'. by rewrite !slot_eq, Ec.
Qed.

Lemma GetCommittedState_eq k o : obj_eq (GetCommittedState db k o).2 o.
Proof.
  unfold GetCommittedState.
  destruct (pendingStorage o !! k) eqn:Ep; [done|]. destruct (originStorage o !! k) eqn:Eo; [done|].
  assert (HF : ∀ get enc o1 v, (OpenStorageTrie db (so_address o) (acc_Root (so_data o)) = Ok get ∧ get k = Ok enc ∧
      v = (storage_value enc o).1 ∨ v = 0 ∧ is_ok (OpenStorageTrie db (so_address o) (acc_Root (so_data o))) = false) →
    (o1 = o ∨ ∃ e, o1 = so_setError e o) →
    obj_eq (with_storage (<[k := v]> (originStorage o1)) (pendingStorage o1) (dirtyStorage o1) o1) o).
  { intros get enc o1 v Hv Ho1.
    assert (Hf : fresh_value (so_address o) (acc_Root (so_data o)) k = Some v).
    { unfold fresh_value. destruct Hv as [(-> & -> & ->)|[-> Hn]].
      - f_equal. apply storage_value_fst.
      - by destruct (OpenStorageTrie db _ _). }
    destruct Ho1 as [->|[e ->]]; [by apply cache_origin|].
    transitivity (so_setError e o); [by apply cache_origin|apply so_setError_eq]. }
  destruct (OpenStorageTrie db _ _) as [get|e|p] eqn:Eg.
  - destruct (get k) as [enc|e|p] eqn:Ek; [|apply so_setError_eq|done].
    pose proof (storage_value_snd enc o) as Hs. pose proof (HF get enc) as HF'.
    destruct (storage_value enc o) as [v o1]. simpl in *. apply HF'; [by left|done].
  - refine (HF (λ _, Ok []) [] (so_setError _ o) 0 _ _); [by right|by right; eexists].
  - refine (HF (λ _, Ok []) [] o 0 _ _); [by right|by left].
Qed.

Lemma so_GetState_eq k o : obj_eq (so_GetState db k o).2 o.
Proof. unfold so_GetState. destruct (dirtyStorage o !! k); [done|apply GetCommittedState_eq]. Qed.

Lemma Code_eq o : obj_eq (Code db o).2 o.
Proof.
  unfold Code. destruct (so_code o) eqn:Ec; [done|]. destruct (_ =? _) eqn:Eh; [done|].
  destruct (ContractCode db _) as [c|e|p] eqn:Ek; [|apply so_setError_eq|done].
  assert (EC : ∀ k, committed (with_code (Some c) (dirtyCode o) o) k = committed o k) by (intros k; by rewrite !committed_eq).
  split; try done; simpl.
  - rewrite !code_view_eq. simpl. by rewrite Ec, Eh, Ek.
  - intros k. by rewrite !slot_eq, EC.
Qed.

Lemma CodeSize_eq o : obj_eq (CodeSize db o).2 o.
Proof.
  unfold CodeSize. destruct (so_code o); [done|]. destruct (_ =? _); [done|].
  destruct (ContractCodeSize db _); [done|apply so_setError_eq|done].
Qed.

Lemma CodeSize_view o : (CodeSize db o).1 = Z.of_nat (length (default [] (code_view o))).
Proof.
  rewrite code_view_eq. unfold CodeSize, ContractCodeSize. destruct (so_code o); [done|]. destruct (_ =? _); [done|].
  by destruct (ContractCode db _).
Qed.

(** ** Setters *)

(** A setter that leaves the storage alone. *)
Ltac setter_eq f :=
  let Ec := fresh in
  intros [E1 E2 E3 E4 E5 E6 E7]; rewrite !code_view_eq in E5;
  assert (Ec : ∀ p k, committed (f p) k = committed p k) by (intros p k; by rewrite !committed_eq);
  split; [done|simpl; by rewrite ?E2|done|done
    |rewrite !code_view_eq; simpl; try rewrite E2 in *; done
    |intros k; by rewrite !Ec
    |intros k; specialize (E7 k); rewrite !slot_eq in *; simpl; by rewrite !Ec].

Lemma setBalance_proper b o o' : obj_eq o o' → obj_eq (setBalance b o) (setBalance b o').
Proof. setter_eq (setBalance b). Qed.
Lemma setNonce_proper n o o' : obj_eq o o' → obj_eq (setNonce n o) (setNonce n o').
Proof. setter_eq (setNonce n). Qed.
Lemma setCode_proper h c o o' : obj_eq o o' → obj_eq (setCode h c o) (setCode h c o').
Proof. setter_eq (setCode h c). Qed.
Lemma setFlags_proper f d o o' : obj_eq o o' → obj_eq (with_flags f d o) (with_flags f d o').
Proof. setter_eq (with_flags f d). Qed.
Lemma committed_setState k v o k' : committed (setState k v o) k' = committed o k'.
Proof. by rewrite !committed_eq. Qed.
Lemma slot_setState k v o k' : slot (setState k v o) k' = if decide (k = k') then v else slot o k'.
Proof.
  rewrite !slot_eq, committed_setState. simpl. destruct (decide (k = k')) as [->|Hne].
  - by rewrite lookup_insert_eq.
  - by rewrite lookup_insert_ne.
Qed.
Lemma setState_proper k v o o' : obj_eq o o' → obj_eq (setState k v o) (setState k v o').
Proof.
  intros [E1 E2 E3 E4 E5 E6 E7]. rewrite !code_view_eq in E5.
  split; [done..|by rewrite !code_view_eq| |].
  - intros k'. by rewrite !committed_setState.
  - intros k'. rewrite !slot_setState. by destruct (decide _).
Qed.
End Views.

(** ** What can be seen of a state *)

Section States.
Context `{Crypto} (db : Backend).
#[local] Notation obj_eq := (obj_eq db).

(** The object of an address, loaded if need be; it may be a deleted one. *)
Definition obj_of (s : StateDB) (a : Address) : option stateObject := (getDeletedStateObject db a s).1.

Record eqv (s t : StateDB) : Prop := {
  ev_obj a : option_Forall2 obj_eq (obj_of s a) (obj_of t a);
  ev_refund : refund s = refund t;
  ev_logs : logs s = logs t;
  ev_logSize : u64 (logSize s) = u64 (logSize t);
  ev_preimages : preimages s = preimages t;
  ev_access : access s = access t
}.

#[export] Instance eqv_equiv : Equivalence eqv.
Proof.
  split.
  - intros s. by split.
  - intros s t [E1]. split; try congruence. intros a. destruct (E1 a); constructor. by symmetry.
  - intros s t u [E1] [E1']. split; try congruence.
    intros a. specialize (E1 a). specialize (E1' a). destruct E1; inversion E1'; simplify_eq; constructor. by etrans.
Qed.

(** Objects are stored under their address. *)
Definition keyed (s : StateDB) : Prop := ∀ a o, stateObjects s !! a = Some o → so_address o = a.

Lemma obj_of_eq s a : obj_of s a =
  match stateObjects s !! a with
  | Some o => Some o
  | None => match TryGetAccount db a with Ok (Some d) => Some (newObject a d) | _ => None end
  end.
Proof.
  unfold obj_of, getDeletedStateObject. destruct (stateObjects s !! a); [done|].
  by destruct (TryGetAccount db a) as [[]| |].
Qed.

Lemma obj_of_address s a o : keyed s → obj_of s a = Some o → so_address o = a.
Proof.
  intros Hk. rewrite obj_of_eq. destruct (stateObjects s !! a) eqn:E; [intros [= <-]; by apply Hk|].
  destruct (TryGetAccount db a) as [[d|]| |]; try done. by intros [= <-].
Qed.

Lemma obj_of_set o s a : obj_of (setStateObject o s) a = if decide (so_address o = a) then Some o else obj_of s a.
Proof.
  rewrite !obj_of_eq. simpl. destruct (decide (so_address o = a)) as [<-|Hne].
  - by rewrite lookup_insert_eq.
  - by rewrite lookup_insert_ne.
Qed.
Lemma keyed_set o s : keyed s → keyed (setStateObject o s).
Proof.
  intros Hk a p. simpl. destruct (decide (so_address o = a)) as [<-|Hne].
  - rewrite lookup_insert_eq. by intros [= <-].
  - rewrite lookup_insert_ne by done. apply Hk.
Qed.

(** The journal and the revisions are not part of it. *)
Definition same_journal (s t : StateDB) : Prop :=
  entries s = entries t ∧ dirties s = dirties t ∧ validRevisions s = validRevisions t ∧ nextRevisionId s = nextRevisionId t.

(** Everything but the objects and the caches. *)
Definition same_rest (s t : StateDB) : Prop :=
  refund s = refund t ∧ logs s = logs t ∧ logSize s = logSize t ∧ preimages s = preimages t ∧ access s = access t ∧
  thash s = thash t ∧ txIndex s = txIndex t.

Lemma eqv_same s t : (∀ a, obj_of s a = obj_of t a) → same_rest s t → eqv s t.
Proof.
  intros Ho (E1 & E2 & E3 & E4 & E5 & _). split; try congruence.
  intros a. rewrite Ho. destruct (obj_of t a); by constructor.
Qed.

(** Loading an object. *)
Lemma load_object_spec a s : keyed s →
  let s' := (getDeletedStateObject db a s).2 in
  (∀ b, obj_of s' b = obj_of s b) ∧ same_rest s' s ∧ same_journal s' s ∧ keyed s' ∧
  stateObjectsPending s' = stateObjectsPending s ∧ stateObjectsDirty s' = stateObjectsDirty s ∧
  (obj_of s a = None → stateObjects s' !! a = None).
Proof.
  intros Hk. cbv zeta. pose proof (obj_of_eq s a) as Ea. unfold getDeletedStateObject. unfold same_rest, same_journal.
  destruct (stateObjects s !! a) as [o|] eqn:E; [split_and!; try done; by rewrite Ea|].
  destruct (TryGetAccount db a) as [[d|]|e|p] eqn:Et; simpl; split_and!; try done.
  - intros b. rewrite obj_of_set. destruct (decide _) as [<-|]; [|done]. simpl. by rewrite obj_of_eq, E, Et.
  - by apply (keyed_set (newObject a d)).
  - by rewrite Ea.
  - intros b. by rewrite !obj_of_eq.
Qed.

Lemma getStateObject_eq a s : keyed s →
  getStateObject db a s =
    (match obj_of s a with Some o => if deleted o then None else Some o | None => None end,
     (getDeletedStateObject db a s).2).
Proof. intros _. unfold getStateObject, obj_of. by destruct (getDeletedStateObject db a s). Qed.
Lemma getStateObject_snd a s : (getStateObject db a s).2 = (getDeletedStateObject db a s).2.
Proof. unfold getStateObject. by destruct (getDeletedStateObject db a s). Qed.

(** ** Undoing one entry *)

(** [e] leads back from [t'] to [t], from whatever is indistinguishable from [t']. *)
Definition undoes (e : journalEntry) (t t' : StateDB) : Prop :=
  ∀ x, keyed x → eqv x t' → ∃ x', revert db e x = Ok x' ∧ eqv x' t ∧ keyed x' ∧ same_journal x' x.

Lemma undoes_proper e t1 t1' t2 t2' : eqv t1 t2 → eqv t1' t2' → undoes e t1 t1' → undoes e t2 t2'.
Proof.
  intros E E' HU x Hk Hx. destruct (HU x Hk) as (x' & ? & ? & ?); [by rewrite Hx|].
  exists x'. split_and!; try done; [by rewrite <- E|apply H2..].
Qed.

(** Changing the object of [a] by [f], when [g] undoes [f] on it. *)
Lemma undoes_object e a o f g t : keyed t → obj_of t a = Some o → deleted o = false →
  (∀ p, so_address (f p) = so_address p) → (∀ p, so_address (g p) = so_address p) →
  (∀ p, deleted (f p) = deleted p) →
  (∀ p p', obj_eq p p' → obj_eq (g p) (g p')) → obj_eq (g (f o)) o →
  (∀ x, (getStateObject db a x).1 ≠ None → revert db e x = revert_object db a g x) →
  undoes e t (setStateObject (f o) t).
Proof.
  intros Hkt Ho Hd Hfa Hga Hfd Hg Hgf He x Hk Hx.
  pose proof (obj_of_address t a o Hkt Ho) as Ha.
  pose proof (ev_obj _ _ Hx a) as Hoa. rewrite obj_of_set, Hfa, decide_True in Hoa by done.
  inversion Hoa as [p q Hpq Ep Eq|]; subst q. symmetry in Ep.
  assert (Eg : getStateObject db a x = (Some p, (getDeletedStateObject db a x).2))
    by (by rewrite getStateObject_eq, Ep, (oe_deleted _ _ _ Hpq), Hfd, Hd).
  rewrite He by (by rewrite Eg). unfold revert_object. rewrite Eg.
  destruct (load_object_spec a x Hk) as (L1 & L2 & L3 & L4 & _). cbv zeta in *.
  set (x1 := (getDeletedStateObject db a x).2) in *. eexists. split; [done|].
  assert (Hpa : so_address p = a) by (exact (obj_of_address x a p Hk Ep)).
  split; [|split; [by apply keyed_set|exact L3]].
  destruct Hx as [X1 X2 X3 X4 X5 X6]. destruct L2 as (R1 & R2 & R3 & R4 & R5 & _).
  simpl in X2, X3, X4, X5, X6. split; simpl; try congruence.
  intros b. rewrite obj_of_set, Hga, Hpa. destruct (decide (a = b)) as [<-|Hne].
  - rewrite Ho. constructor. transitivity (g (f o)); [by apply Hg|done].
  - rewrite L1. specialize (X1 b). rewrite obj_of_set, Hfa, Ha, decide_False in X1 by done. exact X1.
Qed.

(** A new or replaced object. *)
Lemma undoes_insert e a t n : keyed t → so_address n = a →
  (∀ x, keyed x → (∀ b, a ≠ b → option_Forall2 obj_eq (obj_of x b) (obj_of t b)) →
    ∃ x', revert db e x = Ok x' ∧ (∀ b, option_Forall2 obj_eq (obj_of x' b) (obj_of t b)) ∧
          same_rest x' x ∧ same_journal x' x ∧ keyed x') →
  undoes e t (setStateObject n t).
Proof.
  intros Hk Ha HR x Hkx [X1 X2 X3 X4 X5 X6]. destruct (HR x Hkx) as (x' & HR' & Ho & (R1 & R2 & R3 & R4 & R5 & _) & Hj & Hk').
  - intros b Hb. specialize (X1 b). by rewrite obj_of_set, decide_False in X1 by congruence.
  - exists x'. split_and!; try done. split; try done; simpl in *; congruence.
Qed.

Lemma undoes_create a t n : keyed t → so_address n = a → obj_of t a = None →
  undoes (createObjectChange a) t (setStateObject n t).
Proof.
  intros Hk Ha Hn. apply undoes_insert with (a := a); [done..|]. intros x Hkx Hb. eexists. split; [done|]. split_and!; try done.
  - intros b. rewrite obj_of_eq. simpl. destruct (decide (a = b)) as [<-|Hne].
    + rewrite lookup_delete_eq, Hn. rewrite obj_of_eq in Hn. destruct (stateObjects t !! a); [done|].
      destruct (TryGetAccount db a) as [[d|]| |]; [done|constructor..].
    + rewrite lookup_delete_ne by done. rewrite <- obj_of_eq. by apply Hb.
  - intros b p. simpl. intros [_ Hp]%lookup_delete_Some. by apply Hkx.
Qed.

Lemma undoes_reset a p t n pd : keyed t → so_address n = a → obj_of t a = Some p →
  undoes (resetObjectChange p pd) t (setStateObject n t).
Proof.
  intros Hk Ha Hp. pose proof (obj_of_address _ _ _ Hk Hp) as Hpa.
  apply undoes_insert with (a := a); [done..|]. intros x Hkx Hb. eexists. split; [done|]. split_and!; try done.
  - intros b. rewrite obj_of_set, Hpa. destruct (decide (a = b)) as [<-|Hne]; [rewrite Hp; by constructor|by apply Hb].
  - by apply keyed_set.
Qed.

Lemma undoes_suicide a o t : keyed t → obj_of t a = Some o → deleted o = false →
  undoes (suicideChange a (suicided o) (acc_Balance (so_data o))) t
    (setStateObject (setBalance 0 (with_flags true (deleted o) o)) t).
Proof.
  intros Hk Ho Hd.
  apply undoes_object with (a := a) (f := λ p, setBalance 0 (with_flags true (deleted p) p))
    (g := λ p, setBalance (acc_Balance (so_data o)) (with_flags (suicided o) (deleted p) p)); try done.
  - intros p p' Hp. rewrite (oe_deleted _ _ _ Hp). by apply setBalance_proper, setFlags_proper.
  - apply obj_eq_same; try done. simpl. by destruct (so_data o).
  - intros x Hx. simpl. unfold revert_object. by destruct (getStateObject db a x) as [[q|] x1].
Qed.
Lemma undoes_balance a o b t : keyed t → obj_of t a = Some o → deleted o = false →
  undoes (balanceChange a (acc_Balance (so_data o))) t (setStateObject (setBalance b o) t).
Proof.
  intros Hk Ho Hd. apply undoes_object with (a := a) (g := setBalance (acc_Balance (so_data o))); try done.
  - intros. by apply setBalance_proper.
  - apply obj_eq_same; try done. simpl. by destruct (so_data o).
Qed.
Lemma undoes_nonce a o n t : keyed t → obj_of t a = Some o → deleted o = false →
  undoes (nonceChange a (acc_Nonce (so_data o))) t (setStateObject (setNonce n o) t).
Proof.
  intros Hk Ho Hd. apply undoes_object with (a := a) (g := setNonce (acc_Nonce (so_data o))); try done.
  - intros. by apply setNonce_proper.
  - apply obj_eq_same; try done. simpl. by destruct (so_data o).
Qed.

(** Restoring the code that was read. *)
Lemma setCode_restores h c o : obj_eq (setCode (acc_CodeHash (so_data o)) (code_view db o) (setCode h c o)) o.
Proof.
  assert (EC : ∀ k, committed db (setCode (acc_CodeHash (so_data o)) (code_view db o) (setCode h c o)) k = committed db o k)
    by (intros k; by rewrite !committed_eq).
  split; try done; simpl.
  - by destruct (so_data o).
  - rewrite !code_view_eq. simpl. by repeat case_match.
  - intros k. by rewrite !slot_eq, EC.
Qed.
Lemma undoes_code a o h c t : keyed t → obj_of t a = Some o → deleted o = false →
  undoes (codeChange a (code_view db o) (acc_CodeHash (so_data o))) t (setStateObject (setCode h c o) t).
Proof.
  intros Hk Ho Hd.
  apply undoes_object with (a := a) (g := setCode (acc_CodeHash (so_data o)) (code_view db o)); try done.
  - intros. by apply setCode_proper.
  - apply setCode_restores.
Qed.
Lemma undoes_storage a o k v t : keyed t → obj_of t a = Some o → deleted o = false →
  undoes (storageChange a k (slot db o k)) t (setStateObject (setState k v o) t).
Proof.
  intros Hk Ho Hd. apply undoes_object with (a := a) (g := setState k (slot db o k)); try done.
  - intros. by apply setState_proper.
  - split; try done; [by rewrite !code_view_eq|intros k'; by rewrite !committed_setState|].
    intros k'. rewrite !slot_setState. by destruct (decide _) as [<-|].
Qed.

(** Entries that leave the objects alone. *)
Lemma undoes_rest e t t' :
  (∀ a, obj_of t' a = obj_of t a) →
  (∀ x, keyed x → eqv x t' → ∃ x', revert db e x = Ok x' ∧ stateObjects x' = stateObjects x ∧ same_journal x' x ∧
    refund x' = refund t ∧ logs x' = logs t ∧ u64 (logSize x') = u64 (logSize t) ∧ preimages x' = preimages t ∧
    access x' = access t) →
  undoes e t t'.
Proof.
  intros Ho HR x Hk Hx. destruct (HR x Hk Hx) as (x' & Hr & Eo & Hj & ? & ? & ? & ? & ?). exists x'.
  split_and!; try done; [|intros a o; rewrite Eo; apply Hk].
  split; try done. intros a. rewrite obj_of_eq, Eo, <- obj_of_eq, <- Ho. apply Hx.
Qed.

(** ** Well-formed access lists and logs *)

Definition al_ok (al : accessList) : Prop :=
  (∀ a i, al_addresses al !! a = Some i → i = -1 ∨ 0 ≤ i < Z.of_nat (length (al_slots al))) ∧
  (∀ n m, al_slots al !! n = Some m → m ≠ ∅).
Definition wf (s : StateDB) : Prop := al_ok (access s) ∧ ∀ h, logs s !! h ≠ Some [].

Lemma wf_eqv s t : eqv s t → wf t → wf s.
Proof. intros [_ _ El _ _ Ea]. unfold wf. by rewrite El, Ea. Qed.

Lemma AddAddress_undone a al al' : AddAddress a al = (true, al') → DeleteAddress a al' = al.
Proof.
  unfold AddAddress, DeleteAddress. destruct (al_addresses al !! a) eqn:E; [done|]. intros [= <-].
  destruct al as [m sl]. simpl in *. by rewrite delete_insert_id.
Qed.
Lemma AddAddress_ok a al : al_ok al → al_ok (AddAddress a al).2.
Proof.
  intros [H1 H2]. unfold AddAddress. destruct (al_addresses al !! a) eqn:E; [done|]. split; [|done].
  intros b i. simpl. intros [[<- <-]|[_ Hb]]%lookup_insert_Some; [by left|by eapply H1].
Qed.

(** A first slot for an address; taken away again, the address stays without slots. *)
Definition first_slot (a : Address) (sl : Hash) (al : accessList) : accessList :=
  MkAccess (<[a := Z.of_nat (length (al_slots al))]> (al_addresses al)) (al_slots al ++ [{[sl]}]).
Lemma first_slot_undone a sl al :
  DeleteSlot a sl (first_slot a sl al) = Ok (MkAccess (<[a := -1]> (al_addresses al)) (al_slots al)).
Proof.
  unfold DeleteSlot. simpl. rewrite lookup_insert_eq.
  rewrite (proj2 (Z.ltb_ge _ _)) by lia.
  rewrite Nat2Z.id, list_lookup_middle by done. rewrite bool_decide_true by set_solver.
  by rewrite insert_insert_eq, take_app_length.
Qed.
Lemma first_slot_ok a sl al : al_ok al → al_ok (first_slot a sl al).
Proof.
  intros [H1 H2]. split.
  - intros b i. simpl. rewrite length_app. simpl. intros [[<- <-]|[_ Hb]]%lookup_insert_Some; [right; lia|].
    destruct (H1 _ _ Hb); [by left|right; lia].
  - intros n m. simpl. rewrite lookup_app_Some. intros [Hm|[_ Hm]]; [by eapply H2|].
    apply list_lookup_singleton_Some in Hm as [_ <-]. set_solver.
Qed.

(** The slot that was added goes; an address that came with it stays. *)
Lemma AddSlot_undone a sl al am al' : al_ok al → AddSlot a sl al = Ok (am, true, al') →
  DeleteSlot a sl al' = Ok (AddAddress a al).2 ∧ al_ok al' ∧ am = (AddAddress a al).1.
Proof.
  intros Hok HA. destruct (Hok) as [H1 H2]. unfold AddSlot in HA. unfold AddAddress.
  destruct (al_addresses al !! a) as [i|] eqn:E; simpl in HA |- *.
  - destruct (i =? -1) eqn:Ei.
    + apply Z.eqb_eq in Ei as ->. injection HA as <- <-. fold (first_slot a sl al).
      rewrite first_slot_undone, insert_id by done. split_and!; [by destruct al|by apply first_slot_ok|done].
    + destruct (al_slots al !! Z.to_nat i) as [m|] eqn:Em; [|done]. case_bool_decide as Hin; [done|].
      injection HA as <- <-. destruct (H1 _ _ E) as [->|Hi]; [done|]. split_and!; [|split|done].
      * unfold DeleteSlot. simpl. rewrite E. rewrite (proj2 (Z.ltb_ge i 0)) by lia.
        rewrite list_lookup_insert_eq by lia.
        replace ((m ∪ {[sl]}) ∖ {[sl]}) with m by set_solver.
        rewrite bool_decide_false by (by eapply H2). rewrite list_insert_insert_eq, list_insert_id by done. by destruct al.
      * simpl. intros b j. rewrite length_insert. apply H1.
      * simpl. intros n m' [(<- & <- & _)|[_ Hm]]%list_lookup_insert_Some; [|by eapply H2]. set_solver.
  - injection HA as <- <-. fold (first_slot a sl al). rewrite first_slot_undone.
    split_and!; [done|by apply first_slot_ok|done].
Qed.
Lemma AddSlot_unchanged a sl al am al' : AddSlot a sl al = Ok (am, false, al') → am = false ∧ al' = al.
Proof. unfold AddSlot. intros HA. repeat case_match; simplify_eq; done. Qed.

(** ** Undoing the other entries *)

Lemma u64_back x y : u64 x = u64 (add64 y 1) → u64 (sub64 x 1) = u64 y.
Proof.
  unfold sub64, add64. rewrite !u64_idem. unfold u64. intros E. rewrite Zminus_mod, E, <- Zminus_mod. f_equal. lia.
Qed.

Ltac undo_rest x :=
  apply undoes_rest; [intros ?; by rewrite !obj_of_eq|];
  intros x Hk [_ X2 X3 X4 X5 X6]; simpl in X2, X3, X4, X5, X6; simpl.

Lemma undoes_refund r t : undoes (refundChange (refund t)) t (with_refund r t).
Proof. undo_rest x. eexists. split; [done|]. split_and!; done. Qed.
Lemma undoes_touch a t : undoes (touchChange a) t t.
Proof. undo_rest x. eexists. split; [done|]. split_and!; done. Qed.
Lemma undoes_preimage h p t : preimages t !! h = None →
  undoes (addPreimageChange h) t (with_preimages (<[h := p]> (preimages t)) t).
Proof.
  intros Hn. undo_rest x. eexists. split; [done|]. split_and!; try done. simpl. by rewrite X5, delete_insert_id.
Qed.
Lemma undoes_log h l t : wf t →
  undoes (addLogChange h) t (with_logs (<[h := default [] (logs t !! h) ++ [l]]> (logs t)) (add64 (logSize t) 1) t).
Proof.
  intros [_ Hw]. undo_rest x. rewrite X3, lookup_insert_eq. simpl. rewrite length_app. simpl.
  rewrite (proj2 (Nat.eqb_neq _ 0)) by lia.
  eexists. split; [done|]. split_and!; try done; simpl.
  - specialize (Hw h). destruct (logs t !! h) as [ls|] eqn:El; simpl.
    + assert (length ls ≠ 0)%nat by (by destruct ls). rewrite (proj2 (Nat.eqb_neq _ 1)) by lia.
      rewrite insert_insert_eq, removelast_last. by apply insert_id.
    + by rewrite delete_insert_id.
  - by apply u64_back.
Qed.
Lemma undoes_address a al t : AddAddress a (access t) = (true, al) →
  undoes (accessListAddAccountChange a) t (with_access al t).
Proof.
  intros HA. undo_rest x. eexists. split; [done|]. split_and!; try done. simpl. rewrite X6. by apply AddAddress_undone.
Qed.
Lemma undoes_slot a sl al al' t : DeleteSlot a sl al' = Ok al →
  undoes (accessListAddSlotChange a sl) (with_access al t) (with_access al' t).
Proof. intros Hd. undo_rest x. rewrite X6, Hd. eexists. split; [done|]. split_and!; done. Qed.

(** ** Sequences of journalled changes *)

(** [es] leads back from [s] to [t], an entry at a time from the last. *)
Inductive chain (t : StateDB) : list journalEntry → StateDB → Prop :=
| chain_nil s : eqv s t → chain t [] s
| chain_snoc es e u s : chain t es u → undoes e u s → chain t (es ++ [e]) s.

Lemma chain_proper t es s s' : eqv s' s → chain t es s → chain t es s'.
Proof.
  intros Hs HC. destruct HC as [s E|es e u s HC HU].
  - constructor. by etrans.
  - apply chain_snoc with u; [done|]. eapply undoes_proper; [done|by symmetry|done].
Qed.
Lemma chain_trans t es s es' s' : chain t es s → chain s es' s' → chain t (es ++ es') s'.
Proof.
  intros H1. induction 1 as [s' E|es' e u s' _ IH HU].
  - rewrite app_nil_r. by eapply chain_proper.
  - rewrite app_assoc. by apply chain_snoc with u.
Qed.
Lemma chain_one t e s : undoes e t s → chain t [e] s.
Proof. intros HU. apply (chain_snoc t [] e t s); [by constructor|done]. Qed.

(** The number of entries that dirty an address; [dirties] keeps it, except for
    the address that stays dirty on purpose. *)
Definition count (a : Address) (es : list journalEntry) : nat := length (filter (λ e, dirtied e = Some a) es).
Definition tally (n : nat) : option Z := match n with 0%nat => None | _ => Some (Z.of_nat n) end.
Record dirt (es : list journalEntry) (d : gmap Address Z) : Prop := {
  dirt_eq a : a ≠ ripemd → d !! a = tally (count a es);
  dirt_ripemd : Z.of_nat (count ripemd es) ≤ default 0 (d !! ripemd)
}.

Lemma count_snoc a es e : count a (es ++ [e]) = (count a es + if decide (dirtied e = Some a) then 1 else 0)%nat.
Proof.
  unfold count. rewrite filter_app, length_app, filter_cons, filter_nil. by destruct (decide _).
Qed.
Lemma dirt_clean es d a : dirt es d → d !! a = None → count a es = 0%nat.
Proof.
  intros [D1 D2] Ha. destruct (decide (a = ripemd)) as [->|Hne]; [rewrite Ha in D2; simpl in D2; lia|].
  rewrite (D1 a Hne) in Ha. by destruct (count a es).
Qed.
Lemma dirt_append e s : dirt (entries s) (dirties s) → dirt (entries (append e s)) (dirties (append e s)).
Proof.
  intros [D1 D2]. split.
  - intros a Ha. simpl. rewrite count_snoc. destruct (dirtied e) as [b|] eqn:Eb.
    + destruct (decide (a = b)) as [<-|Hne].
      * rewrite decide_True by done. unfold bump_dirty. rewrite lookup_insert_eq, (D1 a Ha).
        destruct (count a (entries s)); simpl; [done|f_equal; lia].
      * rewrite decide_False by congruence. unfold bump_dirty. rewrite lookup_insert_ne, Nat.add_0_r by done. by apply D1.
    + rewrite decide_False by done. rewrite Nat.add_0_r. by apply D1.
  - simpl. rewrite count_snoc. destruct (dirtied e) as [b|] eqn:Eb; [|rewrite decide_False by done; lia].
    unfold bump_dirty. destruct (decide (b = ripemd)) as [->|Hne].
    + rewrite decide_True, lookup_insert_eq by done. simpl. lia.
    + rewrite decide_False, lookup_insert_ne by congruence. lia.
Qed.
Lemma drop_dirty_ne a b d : a ≠ b → drop_dirty b d !! a = d !! a.
Proof. intros Hne. unfold drop_dirty. destruct (_ =? 0); [by rewrite lookup_delete_ne|by rewrite lookup_insert_ne]. Qed.
Lemma dirt_undo es e d : dirt (es ++ [e]) d →
  dirt es (match dirtied e with Some a => drop_dirty a d | None => d end).
Proof.
  intros [D1 D2]. rewrite count_snoc in D2. split.
  - intros a Ha. specialize (D1 a Ha) as Hda. rewrite count_snoc in Hda. destruct (dirtied e) as [b|] eqn:Eb.
    + destruct (decide (a = b)) as [<-|Hne].
      * rewrite decide_True in Hda by done. unfold drop_dirty. rewrite Hda. destruct (count a es) as [|n]; simpl.
        -- by rewrite lookup_delete_eq.
        -- rewrite (proj2 (Z.eqb_neq _ 0)) by lia. rewrite lookup_insert_eq. f_equal. lia.
      * rewrite decide_False, Nat.add_0_r in Hda by congruence. by rewrite drop_dirty_ne.
    + by rewrite decide_False, Nat.add_0_r in Hda by done.
  - destruct (dirtied e) as [b|] eqn:Eb; [|rewrite decide_False in D2 by done; lia].
    destruct (decide (b = ripemd)) as [->|Hne].
    + rewrite decide_True in D2 by done. unfold drop_dirty. destruct (_ =? 0) eqn:E0.
      * rewrite lookup_delete_eq. simpl. lia.
      * rewrite lookup_insert_eq. simpl. lia.
    + rewrite decide_False in D2 by congruence. rewrite drop_dirty_ne by congruence. lia.
Qed.

(** Undoing a chain gives back where it started. *)
Lemma undo_chain t es s E x : chain t es s → keyed x → eqv x s → dirt (E ++ es) (dirties x) →
  ∃ x', undo_all db (reverse es) x = Ok x' ∧ eqv x' t ∧ keyed x' ∧ dirt E (dirties x') ∧
        entries x' = entries x ∧ validRevisions x' = validRevisions x ∧ nextRevisionId x' = nextRevisionId x.
Proof.
  intros HC. revert x. induction HC as [s Hs|es e u s _ IH HU]; intros x Hk Hx Hd.
  - rewrite app_nil_r in Hd. exists x. split_and!; try done. by etrans.
  - destruct (HU x Hk Hx) as (x1 & HR & Hx1 & Hk1 & J1 & J2 & J3 & J4).
    rewrite app_assoc in Hd. apply dirt_undo in Hd. rewrite reverse_snoc. simpl. unfold undo. rewrite HR. simpl.
    set (x2 := match dirtied e with Some a => with_journal (entries x1) (drop_dirty a (dirties x1)) x1 | None => x1 end).
    assert (Ex2 : eqv x2 x1 ∧ keyed x2 ∧ dirt (E ++ es) (dirties x2) ∧ entries x2 = entries x1 ∧
      validRevisions x2 = validRevisions x1 ∧ nextRevisionId x2 = nextRevisionId x1).
    { unfold x2. rewrite <- J2 in Hd. destruct (dirtied e); split_and!; try done. by apply eqv_same; [intros; rewrite !obj_of_eq|]. }
    destruct Ex2 as (E1 & E2 & E3 & E4 & E5 & E6). destruct (IH x2) as (x' & ? & ? & ? & ? & ? & ? & ?); [done|by etrans|done|].
    exists x'. split_and!; try done; congruence.
Qed.

(** ** The operations *)

Record good (s : StateDB) : Prop := { g_keyed : keyed s; g_wf : wf s }.

(** Storage that is not committed belongs to an account the journal dirties. *)
Definition clean (es : list journalEntry) (s : StateDB) : Prop :=
  ∀ a o k, obj_of s a = Some o → deleted o = false → count a es = 0%nat → slot db o k = committed db o k.

Lemma clean_eqv es s t : eqv s t → clean es t → clean es s.
Proof.
  intros E HC a o k Ho Hd Hn. pose proof (ev_obj _ _ E a) as Ha. rewrite Ho in Ha.
  inversion Ha as [? p Hop Eo Ep|]; subst. rewrite (oe_slot _ _ _ Hop), (oe_committed _ _ _ Hop).
  apply (HC a); [done|by rewrite <- (oe_deleted _ _ _ Hop)|done].
Qed.
Lemma clean_snoc e es s u :
  (∀ a o, dirtied e ≠ Some a → obj_of u a = Some o → obj_of s a = Some o ∨ dirtyStorage o = ∅) →
  clean es s → clean (es ++ [e]) u.
Proof.
  intros Hu HC a o k Ho Hd. rewrite count_snoc. case_decide as He; intros Hn; [lia|].
  destruct (Hu a o He Ho) as [Hs|Hs]; [by apply (HC a); [..|lia]|]. by rewrite slot_eq, Hs, lookup_empty.
Qed.

(** [s'] is [s] with some more journalled changes. *)
Record extends (s s' : StateDB) : Prop := {
  ex_chain : ∃ es, entries s' = entries s ++ es ∧ chain s es s';
  ex_rev : validRevisions s' = validRevisions s;
  ex_next : nextRevisionId s' = nextRevisionId s;
  ex_good : good s';
  ex_dirt : dirt (entries s) (dirties s) → dirt (entries s') (dirties s');
  ex_clean : clean (entries s) s → clean (entries s') s'
}.

Lemma ext_trans s u t : extends s u → extends u t → extends s t.
Proof.
  intros [(es & E1 & C1) E2 E3 G D C] [(es' & E1' & C1') E2' E3' G' D' C'].
  split; [|congruence|congruence|done|auto..].
  exists (es ++ es'). rewrite E1', E1, app_assoc. split; [done|by eapply chain_trans].
Qed.
Lemma ext_same s s' : eqv s' s → same_journal s' s → good s → keyed s' → extends s s'.
Proof.
  intros Hs (J1 & J2 & J3 & J4) [Hk Hw] Hk'. split; [|done..|split; [done|by eapply wf_eqv]|by rewrite J1, J2|].
  2: { rewrite J1. by apply clean_eqv. }
  exists []. rewrite app_nil_r. split; [done|by constructor].
Qed.
Lemma ext_refl s : good s → extends s s.
Proof. intros Hg. apply ext_same; [done..|apply Hg]. Qed.
Lemma eqv_append e s : eqv (append e s) s.
Proof. by apply eqv_same; [intros; rewrite !obj_of_eq|]. Qed.
Lemma ext_append e s u : undoes e s u → same_journal u s → keyed u → wf u →
  (∀ a o, dirtied e ≠ Some a → obj_of u a = Some o → obj_of s a = Some o ∨ dirtyStorage o = ∅) →
  extends s (append e u).
Proof.
  intros HU (J1 & J2 & J3 & J4) Hk Hw Hu. split; [|done..|by split| |].
  - exists [e]. simpl. rewrite J1. split; [done|]. eapply chain_proper; [apply eqv_append|by apply chain_one].
  - intros Hd. apply dirt_append. by rewrite J1, J2.
  - intros Hc. eapply clean_eqv; [apply eqv_append|]. simpl. rewrite J1. by apply (clean_snoc _ _ s).
Qed.
Lemma ext_append_rest e s u : undoes e s u → same_journal u s → keyed u → wf u →
  (∀ a, obj_of u a = obj_of s a) → extends s (append e u).
Proof. intros HU HJ Hk Hw Ho. apply ext_append; try done. intros a o _. rewrite Ho. by left. Qed.

(** An entry for a change of one object. *)
Lemma ext_set e s n : good s → undoes e s (setStateObject n s) →
  dirtied e = Some (so_address n) ∨ dirtyStorage n = ∅ → extends s (setStateObject n (append e s)).
Proof.
  intros [Hk Hw] HU Hn. change (setStateObject n (append e s)) with (append e (setStateObject n s)).
  apply ext_append; [done..|by apply keyed_set|done|].
  intros a o Ha. rewrite obj_of_set. case_decide; [|by left]. intros [= <-]. right. destruct Hn; congruence.
Qed.
Lemma set_set o1 o2 s : so_address o2 = so_address o1 → setStateObject o2 (setStateObject o1 s) = setStateObject o2 s.
Proof. intros E. unfold setStateObject, with_objects. simpl. by rewrite E, insert_insert_eq. Qed.
Lemma ext_set_cached e s o1 n : good (setStateObject o1 s) → so_address n = so_address o1 →
  undoes e (setStateObject o1 s) (setStateObject n (setStateObject o1 s)) → dirtied e = Some (so_address n) →
  extends (setStateObject o1 s) (setStateObject n (append e s)).
Proof.
  intros Hg Ha HU He. rewrite <- (set_set o1 n (append e s)) by done. apply (ext_set e (setStateObject o1 s)); auto.
Qed.

(** [o] is the live object of [a]. *)
Definition live (s : StateDB) (a : Address) (o : stateObject) : Prop :=
  obj_of s a = Some o ∧ deleted o = false ∧ so_address o = a.

(** An object with more in its caches. *)
Lemma ext_cached s a o o1 : good s → live s a o → obj_eq o1 o →
  extends s (setStateObject o1 s) ∧ live (setStateObject o1 s) a o1.
Proof.
  intros Hg (Ho & Hd & Ha) He. assert (Ha1 : so_address o1 = a) by (rewrite (oe_address _ _ _ He); done).
  split.
  - apply ext_same; [|done..|apply keyed_set, Hg]. split; try done. intros b. rewrite obj_of_set, Ha1.
    destruct (decide (a = b)) as [<-|]; [rewrite Ho; by constructor|apply (ev_obj _ _ (reflexivity s))].
  - split_and!; [by rewrite obj_of_set, decide_True|by rewrite (oe_deleted _ _ _ He)|done].
Qed.

Lemma load_ext a s : good s → extends s (getDeletedStateObject db a s).2.
Proof.
  intros Hg. destruct (load_object_spec a s (g_keyed _ Hg)) as (L1 & L2 & L3 & L4 & _). apply ext_same; try done. by apply eqv_same.
Qed.
Lemma getStateObject_ext a s : good s →
  extends s (getStateObject db a s).2 ∧
  (∀ o, (getStateObject db a s).1 = Some o → live (getStateObject db a s).2 a o).
Proof.
  intros Hg. pose proof (load_ext a s Hg) as HE. destruct (load_object_spec a s (g_keyed _ Hg)) as (L1 & _ & _ & L4 & _).
  rewrite getStateObject_eq by apply Hg. simpl. split; [done|]. intros o Ho.
  destruct (obj_of s a) as [p|] eqn:Ep; [|done]. destruct (deleted p) eqn:Ed; [done|]. injection Ho as <-.
  assert (Hp : obj_of (getDeletedStateObject db a s).2 a = Some p) by (by rewrite L1).
  split_and!; [done..|by eapply obj_of_address].
Qed.

(** [createObject] puts a new object over what was there; so does any other object. *)
Lemma createObject_shape a s : good s → ∃ s1 e prev,
  createObject db a s = (newObject a zeroAccount, prev, setStateObject (newObject a zeroAccount) (append e s1)) ∧
  extends s s1 ∧ ∀ n, so_address n = a → dirtyStorage n = ∅ → extends s1 (setStateObject n (append e s1)).
Proof.
  intros Hg. pose proof (load_ext a s Hg) as HE. destruct (load_object_spec a s (g_keyed _ Hg)) as (L1 & _ & _ & L4 & _).
  unfold createObject. fold (obj_of s a).
  assert (Eo : (getDeletedStateObject db a s).1 = obj_of s a) by done.
  destruct (getDeletedStateObject db a s) as [o s1]. simpl in *. subst o.
  pose proof (ex_good _ _ HE) as Hg1. specialize (L1 a). destruct (obj_of s a) as [p|].
  - exists s1, (resetObjectChange p false). eexists. split_and!; [done..|]. intros n Hn Hs. apply ext_set; [done| |by right].
    apply undoes_reset with (a := a); [apply Hg1|done..].
  - exists s1, (createObjectChange a). eexists. split_and!; [done..|]. intros n Hn Hs. apply ext_set; [done| |by right].
    apply undoes_create with (a := a); [apply Hg1|done..].
Qed.
Lemma GetOrNew_ext a s : good s →
  extends s (GetOrNewStateObject db a s).2 ∧ live (GetOrNewStateObject db a s).2 a (GetOrNewStateObject db a s).1.
Proof.
  intros Hg. unfold GetOrNewStateObject. destruct (getStateObject_ext a s Hg) as [HE HL].
  destruct (getStateObject db a s) as [[o|] s1]; simpl in *; [split; [done|by apply HL]|].
  destruct (createObject_shape a s1 (ex_good _ _ HE)) as (s2 & e & prev & -> & HE2 & HN). simpl. split.
  - eapply ext_trans; [done|]. eapply ext_trans; [done|by apply HN].
  - split_and!; try done. rewrite obj_of_set. simpl. by rewrite decide_True.
Qed.
Lemma on_object_ext f a s : good s →
  (∀ o u, good u → live u a o → extends u (f o u)) → extends s (on_object db f a s).
Proof.
  intros Hg Hf. unfold on_object. destruct (GetOrNew_ext a s Hg) as [HE HL].
  destruct (GetOrNewStateObject db a s) as [o s1]. simpl in *. eapply ext_trans; [done|]. apply Hf; [apply HE|done].
Qed.
Lemma CreateAccount_ext a s : good s → extends s (CreateAccount db a s).
Proof.
  intros Hg. unfold CreateAccount. destruct (createObject_shape a s Hg) as (s1 & e & prev & -> & HE & HN).
  eapply ext_trans; [done|]. destruct prev as [p|]; [|by apply HN]. rewrite set_set by done. by apply HN.
Qed.

(** Changing the live object. *)
Lemma so_SetBalance_ext b a o s : good s → live s a o → extends s (so_SetBalance b o s).
Proof. intros Hg (Ho & Hd & <-). apply ext_set; [done| |by left]. apply undoes_balance; [apply Hg|done..]. Qed.
Lemma so_SetNonce_ext n a o s : good s → live s a o → extends s (so_SetNonce n o s).
Proof. intros Hg (Ho & Hd & <-). apply ext_set; [done| |by left]. apply undoes_nonce; [apply Hg|done..]. Qed.
Lemma touch_ext a o s : good s → live s a o → extends s (touch o s).
Proof.
  intros Hg (Ho & Hd & <-). unfold touch.
  assert (HE : extends s (append (touchChange (so_address o)) s)) by (apply ext_append_rest; [apply undoes_touch|done|apply Hg..|done]).
  destruct (_ =? _) eqn:Er; [|done]. apply Z.eqb_eq in Er. destruct HE as [HC E2 E3 [Gk Gw] D C].
  split; try done.
  - destruct HC as (es & E1 & HC). exists es. split; [done|]. eapply chain_proper; [|done].
    by apply eqv_same; [intros; rewrite !obj_of_eq|].
  - intros Hd'. destruct (D Hd') as [D1 D2]. simpl in *. split.
    + intros b Hb. specialize (D1 b Hb). unfold bump_dirty at 1. by rewrite lookup_insert_ne by congruence.
    + rewrite Er in *. unfold bump_dirty at 1. rewrite lookup_insert_eq. simpl. lia.
  - intros Hc. eapply clean_eqv; [|exact (C Hc)]. by apply eqv_same; [intros; rewrite !obj_of_eq|].
Qed.
Lemma so_AddBalance_ext b a o s : good s → live s a o → extends s (so_AddBalance b o s).
Proof.
  intros Hg HL. unfold so_AddBalance. destruct (b =? 0); [|by eapply so_SetBalance_ext].
  destruct (so_empty o); [by eapply touch_ext|by apply ext_refl].
Qed.
Lemma so_SubBalance_ext b a o s : good s → live s a o → extends s (so_SubBalance b o s).
Proof.
  intros Hg HL. unfold so_SubBalance. destruct (b =? 0); [by apply ext_refl|by eapply so_SetBalance_ext].
Qed.
Lemma so_SetCode_ext h c a o s : good s → live s a o → extends s (so_SetCode db h c o s).
Proof.
  intros Hg HL. unfold so_SetCode. pose proof (Code_eq db o) as He. pose proof (oe_code _ _ _ He) as Ec.
  unfold code_view in Ec at 2. destruct (Code db o) as [prev o1]. simpl in *. subst prev.
  destruct (ext_cached s a o o1 Hg HL He) as [HE (Ho1 & Hd1 & <-)]. eapply ext_trans; [done|].
  apply ext_set_cached; [apply HE|done| |done]. apply undoes_code; [apply HE|done..].
Qed.
Lemma so_SetState_ext k v a o s : good s → live s a o → extends s (so_SetState db k v o s).
Proof.
  intros Hg HL. unfold so_SetState. pose proof (so_GetState_eq db k o) as He. pose proof (oe_slot _ _ _ He k) as Ec.
  unfold slot in Ec at 2. destruct (so_GetState db k o) as [prev o1]. simpl in *. subst prev.
  destruct (ext_cached s a o o1 Hg HL He) as [HE (Ho1 & Hd1 & <-)]. destruct (_ =? _); [done|].
  eapply ext_trans; [done|].
  apply ext_set_cached; [apply HE|done| |done]. apply undoes_storage; [apply HE|done..].
Qed.

Lemma Suicide_ext a s : good s → extends s (Suicide db a s).2.
Proof.
  intros Hg. unfold Suicide. destruct (getStateObject_ext a s Hg) as [HE HL].
  destruct (getStateObject db a s) as [[o|] s1]; simpl in *; [|done]. eapply ext_trans; [done|].
  destruct (HL o eq_refl) as (Ho & Hd & Ha). apply ext_set; [apply HE| |left; simpl; by f_equal].
  apply undoes_suicide; [apply HE|done..].
Qed.
Lemma read_object_ext {A} (f : stateObject → A * stateObject) d a s : good s →
  (∀ o, obj_eq (f o).2 o) → extends s (read_object db f d a s).2.
Proof.
  intros Hg Hf. unfold read_object. destruct (getStateObject_ext a s Hg) as [HE HL].
  destruct (getStateObject db a s) as [[o|] s1]; simpl in *; [|done]. specialize (Hf o).
  destruct (f o) as [v o1]. simpl in *. eapply ext_trans; [done|].
  by destruct (ext_cached s1 a o o1 (ex_good _ _ HE) (HL o eq_refl) Hf).
Qed.
Lemma AddLog_ext l s : good s → extends s (AddLog l s).
Proof.
  intros [Hk Hw]. unfold AddLog. cbv zeta. simpl thash. simpl logSize. simpl logs.
  match goal with |- extends s (with_logs ?m ?n (append ?e s)) => change (extends s (append e (with_logs m n s))) end.
  apply ext_append_rest; [by apply undoes_log|done|done| |intros; by rewrite !obj_of_eq]. destruct Hw as [Ha Hl]. split; [done|].
  intros h. simpl. intros [[<- Hc]|[_ Hc]]%lookup_insert_Some; [|by eapply Hl]. by apply app_nil in Hc as [_ ?].
Qed.
Lemma AddPreimage_ext h p s : good s → extends s (AddPreimage h p s).
Proof.
  intros [Hk Hw]. unfold AddPreimage. destruct (preimages s !! h) eqn:E; [by apply ext_refl|].
  match goal with |- extends s (with_preimages ?m (append ?e s)) => change (extends s (append e (with_preimages m s))) end.
  apply ext_append_rest; [by apply undoes_preimage|done..|intros; by rewrite !obj_of_eq].
Qed.
Lemma with_refund_ext r s : good s → extends s (with_refund r (append (refundChange (refund s)) s)).
Proof.
  intros [Hk Hw]. change (extends s (append (refundChange (refund s)) (with_refund r s))).
  apply ext_append_rest; [by apply undoes_refund|done..|intros; by rewrite !obj_of_eq].
Qed.
Lemma AddAddressToAccessList_ext a s : good s → extends s (AddAddressToAccessList a s).
Proof.
  intros Hg. unfold AddAddressToAccessList. pose proof (AddAddress_ok a _ (proj1 (g_wf _ Hg))) as Hok.
  destruct (AddAddress a (access s)) as [[] al] eqn:E; simpl in Hok.
  - apply ext_append_rest; [by apply undoes_address|done|apply Hg| |intros; by rewrite !obj_of_eq]. split; [done|apply (g_wf _ Hg)].
  - assert (al = access s) as -> by (unfold AddAddress in E; case_match; congruence).
    apply ext_same; [|done..|apply Hg]. by apply eqv_same; [intros; rewrite !obj_of_eq|].
Qed.
Lemma AddSlotToAccessList_ext a sl s s' : good s → AddSlotToAccessList a sl s = Ok s' → extends s s'.
Proof.
  intros Hg. unfold AddSlotToAccessList. pose proof (g_wf _ Hg) as [Hal Hlog].
  destruct (AddSlot a sl (access s)) as [[[am []] al]|e|p] eqn:E; [| |done..]; simpl; intros [= <-].
  - destruct (AddSlot_undone _ _ _ _ _ Hal E) as (HD & Hok & ->).
    pose proof (AddAddressToAccessList_ext a s Hg) as HE. eapply ext_trans; [exact HE|].
    unfold AddAddressToAccessList in HE |- *. destruct (AddAddress a (access s)) as [ch al0]. simpl in *.
    pose proof (ex_good _ _ HE) as [Hk1 Hw1]. destruct ch.
    + change (extends (append (accessListAddAccountChange a) (with_access al0 s))
       (append (accessListAddSlotChange a sl) (with_access al (append (accessListAddAccountChange a) (with_access al0 s))))).
      apply ext_append_rest; [|done..|by split|intros; by rewrite !obj_of_eq]. 
      exact (undoes_slot a sl al0 al (append (accessListAddAccountChange a) (with_access al0 s)) HD).
    + change (extends (with_access al0 s) (append (accessListAddSlotChange a sl) (with_access al (with_access al0 s)))).
      apply ext_append_rest; [|done..|by split|intros; by rewrite !obj_of_eq]. exact (undoes_slot a sl al0 al (with_access al0 s) HD).
  - apply AddSlot_unchanged in E as [-> ->].
    apply ext_same; [|done..|apply Hg]. by apply eqv_same; [intros; rewrite !obj_of_eq|].
Qed.

(** ** Runs *)

(** What a transaction does to the state. *)
Inductive op :=
| OpCreateAccount (a : Address) | OpAddBalance (a : Address) (v : Z) | OpSubBalance (a : Address) (v : Z)
| OpSetBalance (a : Address) (v : Z) | OpSetNonce (a : Address) (v : Z) | OpSetCode (a : Address) (c : bytes)
| OpSetState (a : Address) (k v : Hash) | OpSuicide (a : Address) | OpAddLog (l : Log)
| OpAddPreimage (h : Hash) (p : bytes) | OpAddRefund (g : Z) | OpSubRefund (g : Z)
| OpAddAddress (a : Address) | OpAddSlot (a : Address) (k : Hash)
| OpExist (a : Address) | OpGetCode (a : Address) | OpGetCodeSize (a : Address) | OpGetState (a : Address) (k : Hash)
| OpGetCommittedState (a : Address) (k : Hash)
| OpSnapshot | OpRevert (id : Z).

Definition exec (o : op) (s : StateDB) : result StateDB :=
  match o with
  | OpCreateAccount a => Ok (CreateAccount db a s)
  | OpAddBalance a v => Ok (StateDB_AddBalance db a v s)
  | OpSubBalance a v => Ok (SubBalance db a v s)
  | OpSetBalance a v => Ok (SetBalance db a v s)
  | OpSetNonce a v => Ok (SetNonce db a v s)
  | OpSetCode a c => Ok (SetCode db a c s)
  | OpSetState a k v => Ok (SetState db a k v s)
  | OpSuicide a => Ok (Suicide db a s).2
  | OpAddLog l => Ok (AddLog l s)
  | OpAddPreimage h p => Ok (AddPreimage h p s)
  | OpAddRefund g => Ok (AddRefund g s)
  | OpSubRefund g => SubRefund g s
  | OpAddAddress a => Ok (AddAddressToAccessList a s)
  | OpAddSlot a k => AddSlotToAccessList a k s
  | OpExist a => Ok (Exist db a s).2
  | OpGetCode a => Ok (GetCode db a s).2
  | OpGetCodeSize a => Ok (GetCodeSize db a s).2
  | OpGetState a k => Ok (GetState db a k s).2
  | OpGetCommittedState a k => Ok (StateDB_GetCommittedState db a k s).2
  | OpSnapshot => Ok (StateDB_Snapshot s).2
  | OpRevert id => RevertToSnapshot db id s
  end.
Fixpoint run (ops : list op) (s : StateDB) : result StateDB :=
  match ops with [] => Ok s | o :: ops => s ← exec o s; run ops s end.

(** Every operation but the two on revisions only adds journalled changes. *)
Definition on_revisions (o : op) : bool := match o with OpSnapshot | OpRevert _ => true | _ => false end.
Lemma exec_ext o s s' : on_revisions o = false → good s → exec o s = Ok s' → extends s s'.
Proof.
  intros Ho Hg.
  destruct o; try done; simpl; try (injection 1 as <-).
  - by apply CreateAccount_ext.
  - apply on_object_ext; [done|intros; by eapply so_AddBalance_ext].
  - apply on_object_ext; [done|intros; by eapply so_SubBalance_ext].
  - apply on_object_ext; [done|intros; by eapply so_SetBalance_ext].
  - apply on_object_ext; [done|intros; by eapply so_SetNonce_ext].
  - apply on_object_ext; [done|intros; by eapply so_SetCode_ext].
  - apply on_object_ext; [done|intros; by eapply so_SetState_ext].
  - by apply Suicide_ext.
  - by apply AddLog_ext.
  - by apply AddPreimage_ext.
  - by apply with_refund_ext.
  - unfold SubRefund. simpl. case_match; [done|]. injection 1 as <-. by apply with_refund_ext.
  - by apply AddAddressToAccessList_ext.
  - by apply AddSlotToAccessList_ext.
  - unfold Exist. destruct (getStateObject_ext a s Hg) as [HE _]. by destruct (getStateObject db a s).
  - apply read_object_ext; [done|apply Code_eq].
  - apply read_object_ext; [done|apply CodeSize_eq].
  - apply read_object_ext; [done|apply so_GetState_eq].
  - apply read_object_ext; [done|apply GetCommittedState_eq].
Qed.
End States.
