(* ===== verification/StateHistory.v ===== *)
(** * Snapshots and reverts nest

    A run may take snapshots and revert to its own; reverting to a snapshot
    taken before it gives back the state of that moment, journal, revisions and
    dirty counts included. *)

From S2P Require Import Prelude Bytes Rlp Types Text StateDB StateRevert.

Section History.
Context `{Crypto} (db : Backend).
#[local] Notation eqv := (eqv db).
#[local] Notation chain := (chain db).
#[local] Notation undoes := (undoes db).
#[local] Notation extends := (extends db).

(** ** The history since a state [s0] with journal [E0] *)

Inductive trace (E0 : list journalEntry) (s0 : StateDB) : list (Z * nat * StateDB) → list journalEntry → StateDB → Prop :=
| trace_base s : eqv s s0 → trace E0 s0 [] [] s
| trace_chain rs es es' u s : trace E0 s0 rs es u → chain u es' s → trace E0 s0 rs (es ++ es') s
| trace_mark rs es s id : trace E0 s0 rs es s → wf s → clean db (E0 ++ es) s →
    trace E0 s0 (rs ++ [(id, length (E0 ++ es), s)]) es s.

Lemma trace_whole E0 s0 rs es s : trace E0 s0 rs es s → chain s0 es s.
Proof. induction 1; [by constructor|by eapply chain_trans|done]. Qed.

(** The part up to a snapshot, and the changes since. *)
Lemma trace_split E0 s0 rs es s : trace E0 s0 rs es s → ∀ i id n t, rs !! i = Some (id, n, t) →
  ∃ es1 es2, es = es1 ++ es2 ∧ n = length (E0 ++ es1) ∧ chain t es2 s ∧ wf t ∧
    clean db (E0 ++ es1) t ∧ trace E0 s0 (take i rs) es1 t.
Proof.
  induction 1 as [s E|rs es es' u s _ IH HC|rs es s id0 HT IH Hw Hc]; intros i id n t Hi.
  - done.
  - destruct (IH _ _ _ _ Hi) as (es1 & es2 & -> & -> & HC1 & Hw & Hc & HT). exists es1, (es2 ++ es').
    rewrite app_assoc. split_and!; try done. by eapply chain_trans.
  - apply lookup_app_Some in Hi as [Hi|[Hle Hi]].
    + destruct (IH _ _ _ _ Hi) as (es1 & es2 & -> & -> & HC1 & Hw1 & Hc1 & HT1). exists es1, es2.
      apply lookup_lt_Some in Hi. rewrite take_app_le by lia. done.
    + apply list_lookup_singleton_Some in Hi as [Hi [= <- <- <-]]. exists es, [].
      replace i with (length rs) by lia. rewrite app_nil_r, take_app_length. split_and!; try done. by constructor.
Qed.

(** ** Cutting the journal back *)

Lemma revert_to id idx n s E es t :
  search_revision id (validRevisions s) = idx → validRevisions s !! idx = Some (id, n) →
  entries s = E ++ es → n = length E → chain t es s → keyed s → dirt (entries s) (dirties s) →
  ∃ s', RevertToSnapshot db id s = Ok s' ∧ eqv s' t ∧ entries s' = E ∧ validRevisions s' = take idx (validRevisions s) ∧
        nextRevisionId s' = nextRevisionId s ∧ keyed s' ∧ dirt E (dirties s').
Proof.
  intros Hidx Hlk HE -> HC Hk Hd. rewrite HE in Hd.
  destruct (undo_chain db t es s E s HC Hk (reflexivity s) Hd) as (x & HU & Hx & Hkx & Hdx & E1 & E2 & E3).
  unfold RevertToSnapshot. rewrite Hidx, Hlk, Z.eqb_refl. simpl. unfold journal_revert.
  rewrite HE, drop_app_length, HU. simpl. rewrite (proj2 (Nat.leb_le _ _)) by (rewrite length_app; lia).
  rewrite take_app_length. simpl. eexists. split; [done|]. simpl. rewrite E2, E3.
  split_and!; try done. etrans; [|done]. by apply eqv_same; [intros; rewrite !obj_of_eq|].
Qed.

Lemma search_past id rs rs' : Forall (λ r, r.1 < id) rs →
  search_revision id (rs ++ rs') = (length rs + search_revision id rs')%nat.
Proof.
  induction 1 as [|[i n] rs Hi _ IH]; [done|]. simpl in *. rewrite (proj2 (Z.leb_gt _ _)) by lia. by rewrite IH.
Qed.

(** ** Runs *)

(** The reverts of a run go to snapshots of its own. *)
Definition inner (lo : Z) (o : op) : Prop := match o with OpRevert id => lo ≤ id | _ => True end.

Record tracked (R0 : list (Z * nat)) (E0 : list journalEntry) (s0 s : StateDB) : Prop := {
  tk_good : good s;
  tk_dirt : dirt (entries s) (dirties s);
  tk_trace : ∃ rs es, entries s = E0 ++ es ∧ validRevisions s = R0 ++ (fst <$> rs) ∧ trace E0 s0 rs es s;
  tk_clean : clean db (entries s) s;
  tk_next : Forall (λ r, r.1 < nextRevisionId s) (validRevisions s)
}.

Lemma tracked_ext R0 E0 s0 s s' : tracked R0 E0 s0 s → extends s s' → tracked R0 E0 s0 s'.
Proof.
  intros [Hg Hd (rs & es & E1 & E2 & HT) Hc Hn] [(es' & E1' & HC) E2' E3' Hg' Hd' Hc'].
  split; [done|auto| |auto|by rewrite E2', E3']. exists rs, (es ++ es'). rewrite E1', E1, app_assoc, E2'.
  split_and!; [done..|]. by eapply trace_chain.
Qed.
Lemma tracked_snapshot R0 E0 s0 s : tracked R0 E0 s0 s → tracked R0 E0 s0 (StateDB_Snapshot s).2.
Proof.
  intros [Hg Hd (rs & es & E1 & E2 & HT) Hc Hn]. split; try done.
  - by destruct Hg.
  - exists (rs ++ [(nextRevisionId s, length (E0 ++ es), s)]), es. simpl. split_and!; [done| |].
    + by rewrite E2, E1, fmap_app, <- app_assoc.
    + rewrite <- (app_nil_r es) at 2. eapply trace_chain; [apply trace_mark; [done|apply Hg|by rewrite <- E1]|].
      constructor. by apply eqv_same; [intros; rewrite !obj_of_eq|].
  - eapply clean_eqv; [|done]. by apply eqv_same; [intros; rewrite !obj_of_eq|].
  - simpl. apply Forall_app. split; [|repeat constructor; simpl; lia]. eapply Forall_impl; [done|]. simpl. lia.
Qed.
Lemma tracked_revert R0 E0 s0 s id s' lo : Forall (λ r, r.1 < lo) R0 → lo ≤ id →
  tracked R0 E0 s0 s → RevertToSnapshot db id s = Ok s' → tracked R0 E0 s0 s'.
Proof.
  intros HR Hlo [Hg Hd (rs & es & E1 & E2 & HT) _ Hn] Hrev.
  set (i := search_revision id (fst <$> rs)).
  assert (Hidx : search_revision id (validRevisions s) = (length R0 + i)%nat).
  { rewrite E2. apply search_past. eapply Forall_impl; [done|]. simpl. lia. }
  destruct (validRevisions s !! (length R0 + i)%nat) as [[id' n]|] eqn:Hlk.
  2: { unfold RevertToSnapshot in Hrev. by rewrite Hidx, Hlk in Hrev. }
  assert (id' = id) as ->.
  { unfold RevertToSnapshot in Hrev. rewrite Hidx, Hlk in Hrev. destruct (id' =? id) eqn:E; [lia|done]. }
  assert (Hi : (fst <$> rs) !! i = Some (id, n)).
  { rewrite E2, lookup_app_r in Hlk by lia. by replace (length R0 + i - length R0)%nat with i in Hlk by lia. }
  rewrite list_lookup_fmap in Hi. apply fmap_Some in Hi as ([[id1 n1] t] & Hi & Hpair). simpl in Hpair. injection Hpair as <- <-.
  destruct (trace_split _ _ _ _ _ HT _ _ _ _ Hi) as (es1 & es2 & -> & Hn1 & HC & Hw & Hcl & HT1).
  destruct (revert_to id _ n s (E0 ++ es1) es2 t Hidx Hlk) as (x & Hx & Ev & Ee & Er & En & Hk & Hdx); try done.
  { by rewrite <- app_assoc. } { apply Hg. }
  rewrite Hrev in Hx. injection Hx as <-. split.
  - split; [done|by eapply wf_eqv].
  - by rewrite Ee.
  - exists (take i rs), es1. rewrite Ee, Er, E2. split_and!; [done| |].
    + by rewrite firstn_app_2, fmap_take.
    + rewrite <- (app_nil_r es1). eapply trace_chain; [done|by constructor].
  - rewrite Ee. by eapply clean_eqv.
  - rewrite Er, En. by apply Forall_take.
Qed.

Lemma tracked_exec R0 E0 s0 lo o s s' : Forall (λ r, r.1 < lo) R0 → inner lo o →
  tracked R0 E0 s0 s → exec db o s = Ok s' → tracked R0 E0 s0 s'.
Proof.
  intros HR Hin HT Hex.
  destruct (on_revisions o) eqn:Ho.
  - destruct o; try done; simpl in *.
    + injection Hex as <-. by apply tracked_snapshot.
    + by eapply tracked_revert.
  - eapply tracked_ext; [done|]. eapply exec_ext; [done|apply HT|done].
Qed.
Lemma tracked_run R0 E0 s0 lo ops s s' : Forall (λ r, r.1 < lo) R0 → Forall (inner lo) ops →
  tracked R0 E0 s0 s → run db ops s = Ok s' → tracked R0 E0 s0 s'.
Proof.
  intros HR. revert s. induction ops as [|o ops IH]; intros s Hin HT Hrun; simpl in Hrun; [by injection Hrun as <-|].
  apply Forall_cons in Hin as [Ho Hops].
  destruct (exec db o s) as [s1|e|p] eqn:Ex; simpl in Hrun; try done.
  apply (IH s1); [done| |done]. by eapply tracked_exec.
Qed.

(** ** Reachable states *)

Record ok (s : StateDB) : Prop := {
  ok_good : good s;
  ok_dirt : dirt (entries s) (dirties s);
  ok_clean : clean db (entries s) s;
  ok_next : Forall (λ r, r.1 < nextRevisionId s) (validRevisions s)
}.

Lemma ok_tracked s : ok s → tracked (validRevisions s) (entries s) s s.
Proof.
  intros [Hg Hd Hc Hn]. split; try done. exists [], []. rewrite !app_nil_r. split_and!; [done..|by constructor].
Qed.
Lemma ok_run s ops s' : ok s → Forall (inner (nextRevisionId s)) ops → run db ops s = Ok s' → ok s'.
Proof.
  intros Ho Hin Hrun. destruct (tracked_run _ _ _ _ _ _ _ (ok_next _ Ho) Hin (ok_tracked _ Ho) Hrun) as [? ? _ ? ?]. by split.
Qed.

(** From the fresh database by runs, and what happens between transactions. *)
Inductive reachable : StateDB → Prop :=
| reach_new : reachable newState
| reach_run s ops s' : reachable s → Forall (inner (nextRevisionId s)) ops → run db ops s = Ok s' → reachable s'
| reach_finalise b s : reachable s → reachable (Finalise b s)
| reach_prepare h i s : reachable s → reachable (Prepare h i s)
| reach_access sender dst pre l s s' : reachable s → PrepareAccessList sender dst pre l s = Ok s' → reachable s'.

Lemma ok_ext s s' : ok s → extends s s' → ok s'.
Proof. intros [Hg Hd Hc Hn] [_ E2 E3 Hg' Hd' Hc']. split; [done|auto..|by rewrite E2, E3]. Qed.
Lemma ok_with_access al s : al_ok al → ok s → ok (with_access al s).
Proof.
  intros Ha [[Hk [_ Hl]] Hd Hc Hn]. split; try done. intros a o k. rewrite obj_of_eq. simpl. rewrite <- obj_of_eq. apply Hc.
Qed.
Lemma ok_add_address a s : ok s → ok (AddAddressToAccessList a s).
Proof. intros Ho. eapply ok_ext; [done|]. apply AddAddressToAccessList_ext, Ho. Qed.
Lemma ok_add_addresses l s : ok s → ok (add_addresses l s).
Proof. revert s. induction l as [|a l IH]; intros s Ho; [done|]. apply IH. by apply ok_add_address. Qed.
Lemma ok_add_slots a keys s s' : ok s → add_slots a keys s = Ok s' → ok s'.
Proof.
  revert s. induction keys as [|k keys IH]; intros s Ho Ha; simpl in Ha; [by injection Ha as <-|].
  destruct (AddSlotToAccessList a k s) as [s1| |] eqn:E; try done. apply (IH s1); [|done].
  eapply ok_ext; [done|]. eapply AddSlotToAccessList_ext; [apply Ho|done].
Qed.
Lemma ok_add_tuples l s s' : ok s → add_tuples l s = Ok s' → ok s'.
Proof.
  revert s. induction l as [|[a keys] l IH]; intros s Ho Ha; simpl in Ha; [by injection Ha as <-|].
  destruct (add_slots a keys _) as [s1| |] eqn:E; try done. apply (IH s1); [|done].
  eapply ok_add_slots; [|done]. by apply ok_add_address.
Qed.
Lemma newAccessList_ok : al_ok newAccessList.
Proof. split; intros ?? Hl; [|done]. unfold newAccessList in Hl. simpl in Hl. by rewrite lookup_empty in Hl. Qed.
Lemma ok_PrepareAccessList sender dst pre l s s' : ok s → PrepareAccessList sender dst pre l s = Ok s' → ok s'.
Proof.
  intros Ho. apply ok_add_tuples, ok_add_addresses.
  assert (ok (AddAddressToAccessList sender (with_access newAccessList s)))
    by (apply ok_add_address, ok_with_access; [apply newAccessList_ok|done]).
  destruct dst; [by apply ok_add_address|done].
Qed.

(** ** Finalise *)

(** The accounts [Finalise] visits: dirty, and in the map. *)
Definition hit (s : StateDB) (a : Address) : bool :=
  bool_decide (is_Some (dirties s !! a)) && bool_decide (is_Some (stateObjects s !! a)).

Lemma Finalise_objects b s a : stateObjects (Finalise b s) !! a =
  (λ o, if hit s a then finalise_object b o else o) <$> stateObjects s !! a.
Proof.
  unfold Finalise, clearJournalAndRefund. cbv zeta. simpl entries.
  assert (E : ∀ t, stateObjects (with_revisions [] (nextRevisionId t) t) = stateObjects t) by done.
  rewrite E. match goal with |- stateObjects ?t !! a = _ => assert (Et : stateObjects t =
    map_imap (λ a o, Some (if decide (a ∈ filter (λ a, is_Some (stateObjects s !! a)) (dom (dirties s)))
      then finalise_object b o else o)) (stateObjects s)) by (by destruct (entries s)) end.
  rewrite Et, map_lookup_imap. destruct (stateObjects s !! a) as [o|] eqn:Eo; [|done]. simpl. f_equal.
  unfold hit. rewrite Eo, (bool_decide_true (is_Some (Some o))), andb_true_r by done.
  case_decide as Hd; case_bool_decide as Hi; try done; exfalso.
  - apply Hi. apply elem_of_filter in Hd as [_ Hd]. by apply elem_of_dom.
  - apply Hd, elem_of_filter. rewrite Eo. split; [done|by apply elem_of_dom].
Qed.
Lemma Finalise_obj_of b s a : obj_of db (Finalise b s) a =
  (λ o, if hit s a then finalise_object b o else o) <$> obj_of db s a.
Proof.
  rewrite !obj_of_eq, Finalise_objects. destruct (stateObjects s !! a) eqn:E; [done|]. simpl.
  unfold hit. rewrite E, (bool_decide_false (is_Some None)), andb_false_r by (by intros [? ?]).
  by destruct (TryGetAccount db a) as [[]| |].
Qed.
Lemma Finalise_rest b s : logs (Finalise b s) = logs s ∧ access (Finalise b s) = access s ∧
  entries (Finalise b s) = [] ∧ validRevisions (Finalise b s) = [] ∧
  (dirties (Finalise b s) = ∅ ∨ entries s = [] ∧ dirties (Finalise b s) = dirties s).
Proof. unfold Finalise, clearJournalAndRefund. cbv zeta. simpl. destruct (entries s) eqn:E; simpl; split_and!; try done; auto. Qed.

Lemma finalise_object_address b o : so_address (finalise_object b o) = so_address o.
Proof. unfold finalise_object. by destruct (_ || _). Qed.
Lemma so_finalise_slot o k : committed db (so_finalise o) k = slot db o k ∧ slot db (so_finalise o) k = slot db o k.
Proof.
  assert (E : committed db (so_finalise o) k = slot db o k).
  { rewrite slot_eq, !committed_eq. simpl. rewrite lookup_union.
    by destruct (dirtyStorage o !! k), (pendingStorage o !! k). }
  split; [done|]. rewrite slot_eq, E. simpl. by rewrite lookup_empty.
Qed.
Lemma clean_object b s a o k : ok s → obj_of db (Finalise b s) a = Some o → deleted o = false →
  slot db o k = committed db o k.
Proof.
  intros [[Hk Hw] Hd Hc Hn]. rewrite Finalise_obj_of. destruct (obj_of db s a) as [p|] eqn:Ep; [|done]. simpl.
  intros [= <-]. destruct (hit s a) eqn:Eh.
  - unfold finalise_object. destruct (_ || _); [done|]. intros _. by destruct (so_finalise_slot p k) as [-> ->].
  - intros Hdel. rewrite obj_of_eq in Ep. destruct (stateObjects s !! a) as [q|] eqn:Eq.
    + injection Ep as ->. apply (Hc a); [by rewrite obj_of_eq, Eq|done|]. apply (dirt_clean _ _ _ Hd).
      unfold hit in Eh. rewrite Eq, (bool_decide_true (is_Some (Some p))), andb_true_r in Eh by done.
      apply bool_decide_eq_false in Eh. by destruct (dirties s !! a); [destruct Eh|].
    + destruct (TryGetAccount db a) as [[d|]| |]; try done. injection Ep as <-. by rewrite slot_eq.
Qed.
Lemma ok_Finalise b s : ok s → ok (Finalise b s).
Proof.
  intros Ho. pose proof (λ a o k, clean_object b s a o k Ho) as Hcl. destruct Ho as [[Hk Hw] Hd Hc Hn].
  destruct (Finalise_rest b s) as (E1 & E2 & E3 & E4 & E5). split.
  - split.
    + intros a o. rewrite Finalise_objects, fmap_Some. intros (p & Hp & ->).
      destruct (hit s a); rewrite ?finalise_object_address; by apply Hk.
    + unfold wf. by rewrite E1, E2.
  - rewrite E3. destruct E5 as [->|[E ->]]; [|by rewrite E in Hd]. split; [done|]. rewrite lookup_empty. done.
  - rewrite E3. intros a o k ? ? _. by apply (Hcl a).
  - rewrite E4. constructor.
Qed.
Lemma state_reachable_ok s : reachable s → ok s.
Proof.
  induction 1 as [|s ops s' _ IH Hin Hrun|b s _ IH|h i s _ IH|sender dst pre l s s' _ IH HP].
  - split; [split; [done|split; [apply newAccessList_ok|done]]|by split| |by constructor].
    intros a o k. rewrite obj_of_eq. simpl. rewrite lookup_empty. destruct (TryGetAccount db a) as [[d|]| |]; try done.
    intros [= <-] _ _. by rewrite slot_eq.
  - by eapply ok_run.
  - by apply ok_Finalise.
  - destruct IH as [[Hk Hw] Hd Hc Hn]. split; try done. intros a o k. rewrite obj_of_eq. simpl. rewrite <- obj_of_eq. apply Hc.
  - by eapply ok_PrepareAccessList.
Qed.

(** ** What can be asked *)

(** Every query but [Error]: an error of the database behind is memoized, and no
    revert takes it back. *)
Record same_answers (s t : StateDB) : Prop := {
  sa_exist a : (Exist db a s).1 = (Exist db a t).1;
  sa_empty a : (Empty db a s).1 = (Empty db a t).1;
  sa_balance a : (GetBalance db a s).1 = (GetBalance db a t).1;
  sa_nonce a : (GetNonce db a s).1 = (GetNonce db a t).1;
  sa_code a : (GetCode db a s).1 = (GetCode db a t).1;
  sa_codesize a : (GetCodeSize db a s).1 = (GetCodeSize db a t).1;
  sa_codehash a : (GetCodeHash db a s).1 = (GetCodeHash db a t).1;
  sa_state a k : (GetState db a k s).1 = (GetState db a k t).1;
  sa_committed a k : (StateDB_GetCommittedState db a k s).1 = (StateDB_GetCommittedState db a k t).1;
  sa_suicided a : (HasSuicided db a s).1 = (HasSuicided db a t).1;
  sa_refund : refund s = refund t;
  sa_logs : logs s = logs t;
  sa_preimages : preimages s = preimages t;
  sa_address a : ContainsAddress a (access s) = ContainsAddress a (access t);
  sa_slot a k : al_Contains a k (access s) = al_Contains a k (access t)
}.

(** The object a query sees. *)
Definition seen (s : StateDB) (a : Address) : option stateObject :=
  match obj_of db s a with Some o => if deleted o then None else Some o | None => None end.
Lemma getStateObject_seen a s : (getStateObject db a s).1 = seen s a.
Proof. unfold getStateObject, seen, obj_of. by destruct (getDeletedStateObject db a s). Qed.
Lemma seen_eqv s t a : eqv s t → option_Forall2 (obj_eq db) (seen s a) (seen t a).
Proof.
  intros E. unfold seen. destruct (ev_obj _ _ _ E a) as [o p Hop|]; [|constructor].
  rewrite (oe_deleted _ _ _ Hop). destruct (deleted p); by constructor.
Qed.
Lemma read_object_seen {A} (f : stateObject → A * stateObject) d a s :
  (read_object db f d a s).1 = from_option (λ o, (f o).1) d (seen s a).
Proof.
  unfold read_object. rewrite <- getStateObject_seen. destruct (getStateObject db a s) as [[o|] s1]; [|done].
  simpl. by destruct (f o).
Qed.
Lemma query_seen {A} (f : stateObject → A) d a s :
  (let '(o, s1) := getStateObject db a s in (match o with Some o => f o | None => d end, s1)).1 = from_option f d (seen s a).
Proof. rewrite <- getStateObject_seen. by destruct (getStateObject db a s) as [[]]. Qed.

Lemma eqv_answers s t : eqv s t → same_answers s t.
Proof.
  intros E. pose proof (λ a, seen_eqv s t a E) as HS. destruct E as [_ E2 E3 _ E5 E6].
  split; intros; try congruence; rewrite ?read_object_seen;
    unfold Exist, Empty, GetBalance, GetNonce, GetCodeHash, HasSuicided, GetCode, GetCodeSize, GetState, StateDB_GetCommittedState;
    rewrite ?(query_seen (λ _, true)), ?query_seen, ?read_object_seen;
    destruct (HS a) as [o p Hop|]; simpl; try done; try apply Hop; try by rewrite ?(oe_data _ _ _ Hop).
  - unfold so_empty. by rewrite (oe_data _ _ _ Hop).
  - by rewrite !CodeSize_view, (oe_code _ _ _ Hop).
Qed.

(** What [Finalise] does to the object a query sees. *)
Definition died (b : bool) (s : StateDB) (a : Address) : bool :=
  hit s a && ((HasSuicided db a s).1 || b && (Empty db a s).1).
Lemma Finalise_seen b s a : seen (Finalise b s) a =
  if died b s a then None else (λ o, if hit s a then so_finalise o else o) <$> seen s a.
Proof.
  unfold died, HasSuicided, Empty. rewrite !query_seen. unfold seen. rewrite Finalise_obj_of.
  destruct (obj_of db s a) as [o|]; simpl; [|by destruct (_ && _)].
  destruct (hit s a); simpl; [|by destruct (deleted o)]. unfold finalise_object.
  destruct (deleted o) eqn:Ed; simpl.
  - assert (E : deleted (if suicided o || b && so_empty o then with_flags (suicided o) true o else so_finalise o) = true)
      by (by destruct (_ || _)).
    rewrite E. by destruct (b && true).
  - destruct (suicided o || b && so_empty o); simpl; [done|by rewrite Ed].
Qed.

(** C13: a snapshot taken in a reachable state can be reverted to after any run
    that reverts only to snapshots of its own, however they nest: the database
    then answers every query (but [Error], which is memoized for good) as it did
    when the snapshot was taken, and the
    journal, the valid revisions and the dirty counts are the same again (the
    count of the RIPEMD contract apart, which stays dirty on purpose). *)
Theorem RevertToSnapshot_restores s id s1 ops s2 :
  reachable s → StateDB_Snapshot s = (id, s1) → Forall (inner (id + 1)) ops → run db ops s1 = Ok s2 →
  ∃ s3, RevertToSnapshot db id s2 = Ok s3 ∧ same_answers s3 s ∧
        entries s3 = entries s ∧ validRevisions s3 = validRevisions s ∧
        (∀ a, a ≠ ripemd → dirties s3 !! a = dirties s !! a).
Proof.
  intros Hr. pose proof (state_reachable_ok s Hr) as Ho. intros [= <- <-] Hin Hrun.
  set (s1 := (StateDB_Snapshot s).2) in *.
  assert (Ho1 : ok s1) by (destruct (tracked_snapshot _ _ _ _ (ok_tracked _ Ho)) as [? ? _ ? ?]; by split).
  destruct (tracked_run _ _ _ _ _ _ _ (ok_next _ Ho1) Hin (ok_tracked _ Ho1) Hrun) as [Hg Hd (rs & es & E1 & E2 & HT) _ _].
  assert (Hidx : search_revision (nextRevisionId s) (validRevisions s2) = length (validRevisions s)).
  { rewrite E2. simpl. rewrite <- app_assoc, search_past by apply Ho. simpl. rewrite Z.leb_refl. lia. }
  destruct (revert_to (nextRevisionId s) (length (validRevisions s)) (length (entries s)) s2 (entries s) es s)
    as (s3 & Hrev & Ev & Ee & Er & _ & _ & Hd3); try done.
  - rewrite E2. simpl. rewrite <- app_assoc. by apply list_lookup_middle.
  - change es with ([] ++ es). eapply chain_trans; [|exact (trace_whole _ _ _ _ _ HT)].
    constructor. by apply eqv_same; [intros; rewrite !obj_of_eq|].
  - apply Hg.
  - exists s3. split_and!; [done|by apply eqv_answers|done| |].
    + rewrite Er, E2. simpl. by rewrite <- app_assoc, take_app_length.
    + intros a Ha. by rewrite (dirt_eq _ _ Hd3 a Ha), (dirt_eq _ _ (ok_dirt _ Ho) a Ha).
Qed.

(** At the end of a transaction Finalise removes exactly the accounts it
    visits that have self-destructed or, if so asked, are empty; every other
    account answers as before, and what its storage held has become the committed
    value of the next transaction, also for the accounts that were not visited. *)
Theorem Finalise_commits b s a : reachable s →
  (Exist db a (Finalise b s)).1 = negb (died b s a) && (Exist db a s).1 ∧
  (GetBalance db a (Finalise b s)).1 = (if died b s a then 0 else (GetBalance db a s).1) ∧
  (GetNonce db a (Finalise b s)).1 = (if died b s a then 0 else (GetNonce db a s).1) ∧
  (GetCode db a (Finalise b s)).1 = (if died b s a then None else (GetCode db a s).1) ∧
  ∀ k, (GetState db a k (Finalise b s)).1 = (if died b s a then 0 else (GetState db a k s).1) ∧
       (StateDB_GetCommittedState db a k (Finalise b s)).1 = (GetState db a k (Finalise b s)).1.
Proof.
  intros Hr. pose proof (state_reachable_ok s Hr) as Ho.
  assert (HC : ∀ o k, seen (Finalise b s) a = Some o → slot db o k = committed db o k).
  { intros o k. unfold seen. destruct (obj_of db _ a) as [p|] eqn:Ep; [|done]. destruct (deleted p) eqn:Ed; [done|].
    intros [= <-]. by apply (clean_object b s a). }
  unfold Exist, GetBalance, GetNonce, GetCode, GetState, StateDB_GetCommittedState.
  rewrite !(query_seen (λ _, true)), !query_seen, !read_object_seen.
  rewrite Finalise_seen in HC |- *.
  assert (HV : ∀ o, so_data (so_finalise o) = so_data o ∧ (Code db (so_finalise o)).1 = (Code db o).1).
  { intros o. split; [done|]. fold (code_view db o) (code_view db (so_finalise o)). by rewrite !code_view_eq. }
  split_and!; [..|intros k; rewrite !read_object_seen, Finalise_seen; split].
  6: { destruct (died b s a), (seen s a) as [o|]; simpl; try done. symmetry. by apply HC. }
  all: destruct (died b s a), (seen s a) as [o|]; simpl; try done; destruct (hit s a); try done; try apply HV.
  apply (so_finalise_slot o k).
Qed.
End History.

(** One contract with a stored word; a call that writes, pays a new account and
    makes a call of its own that is reverted. *)
Module StateDemo.
Definition crypto : Crypto :=
  {| keccak256 := foldl (fun h c => (h * 257 + b2z c) mod (2 ^ 61 - 1)) 1; RecoverPubkey _ sig := Some sig |}.
#[export] Existing Instance crypto.

Definition contract : Address := 0x1001.
Definition payee : Address := 0x2002.
Definition code : bytes := [Byte.x60; Byte.x00].
Definition backend : Backend := {|
  TryGetAccount a := Ok (if a =? contract then Some (MkAccount 1 100 77 (keccak256 code)) else None);
  OpenStorageTrie _ root := Ok (λ k, Ok (if (root =? 77) && (k =? 5) then [Byte.x09] else []));
  ContractCode h := if h =? keccak256 code then Ok code else Err (New "not found")
|}.

Definition state_of (r : result StateDB) : StateDB := match r with Ok s => s | _ => newState end.

(** Before the snapshot. *)
Definition start : StateDB :=
  state_of (run backend [OpSetNonce contract 2; OpAddSlot contract 5; OpSetState contract 6 1] newState).
(** After it: an inner snapshot (number 1) is taken and reverted to. *)
Definition ops : list op :=
  [OpSetState contract 5 42; OpAddBalance payee 7; OpAddSlot payee 1; OpSnapshot; OpSuicide contract;
   OpAddLog (MkLog contract [] [] 0 0 0); OpSetCode payee code; OpRevert 1; OpSubBalance contract 7; OpAddBalance 3 0].
Definition reached : StateDB := state_of (run backend ops (StateDB_Snapshot start).2).

Lemma start_reachable : reachable backend start.
Proof.
  apply (reach_run backend newState [OpSetNonce contract 2; OpAddSlot contract 5; OpSetState contract 6 1]).
  - constructor.
  - repeat constructor.
  - vm_compute. reflexivity.
Qed.
Lemma ops_run : run backend ops (StateDB_Snapshot start).2 = Ok reached.
Proof. vm_compute. reflexivity. Qed.
(** The run is seen, and the inner call is not. *)
Lemma reached_sees : (GetState backend contract 5 reached).1 = 42 ∧ (GetBalance backend contract reached).1 = 93 ∧
  (HasSuicided backend contract reached).1 = false ∧ (GetCode backend payee reached).1 = None.
Proof. vm_compute. split_and!; reflexivity. Qed.
End StateDemo.
Import StateDemo.

Lemma RevertToSnapshot_restores_witness : ∃ s3,
  RevertToSnapshot backend 0 reached = Ok s3 ∧
  same_answers backend s3 start ∧ (GetState backend contract 5 s3).1 = 9.
Proof.
  destruct (RevertToSnapshot_restores backend start 0 (StateDB_Snapshot start).2
              ops reached start_reachable) as (s3 & HR & HA & _).
  - vm_compute. reflexivity.
  - repeat (constructor; [exact I || (vm_compute; discriminate)|]). constructor.
  - exact ops_run.
  - exists s3. split; [exact HR|]. split; [exact HA|]. rewrite (sa_state _ _ _ HA). vm_compute. reflexivity.
Defined.

(** The write becomes the committed value; the trie holds none. *)
Lemma Finalise_commits_witness :
  (StateDB_GetCommittedState backend contract 6 (Finalise true start)).1 = 1 ∧
  (GetCommittedState backend 6 (newObject contract (MkAccount 1 100 77 0))).1 = 0.
Proof.
  split; [|vm_compute; reflexivity].
  destruct (Finalise_commits backend true start contract start_reachable)
    as (_ & _ & _ & _ & HS).
  destruct (HS 6) as [H1 H2]. rewrite H2, H1. vm_compute. reflexivity.
Defined.
