(* ===== verification/EvmAnalysis.v ===== *)
(** * Jump destination analysis (chain/core/vm/analysis.go)

    A bit vector tells the data bytes of PUSH instructions from the opcodes; it is
    built eight or sixteen bits at a time. [codeBitmap_spec]: it marks exactly the
    bytes a byte-by-byte scan of the code finds to be data, and never writes or
    reads outside its bounds. *)

From S2P Require Import Prelude Bytes.

Definition PUSH1 : Z := 0x60.
Definition JUMPDEST : Z := 0x5b.

(** A bit vector is a list of uint8 values; positions in code are far below 2^64. *)
Notation bitvec := (list Z).

(** [bits[i] |= v] and [bits[i] = v]. *)
Definition or_at (i : nat) (v : Z) (bits : bitvec) : result bitvec :=
  match bits !! i with
  | Some x => Ok (<[i := Z.lor x v]> bits)
  | None => Panic "index out of range"
  end.
Definition put_at (i : nat) (v : Z) (bits : bitvec) : result bitvec :=
  match bits !! i with
  | Some _ => Ok (<[i := v]> bits)
  | None => Panic "index out of range"
  end.

Definition set1 (pos : nat) (bits : bitvec) : result bitvec :=
  or_at (pos / 8) (Z.shiftl 1 (Z.of_nat (pos mod 8)) mod 2 ^ 8) bits.
Definition setN (flag : Z) (pos : nat) (bits : bitvec) : result bitvec :=
  let a := Z.shiftl flag (Z.of_nat (pos mod 8)) mod 2 ^ 16 in
  bits ← or_at (pos / 8) (a mod 2 ^ 8) bits;
  let b := Z.shiftr a 8 mod 2 ^ 8 in
  if negb (b =? 0) then put_at (pos / 8 + 1) b bits else Ok bits.
Definition set8 (pos : nat) (bits : bitvec) : result bitvec :=
  let a := Z.shiftl 0xFF (Z.of_nat (pos mod 8)) mod 2 ^ 8 in
  bits ← or_at (pos / 8) a bits;
  put_at (pos / 8 + 1) (Z.lxor 0xFF a) bits.
Definition set16 (pos : nat) (bits : bitvec) : result bitvec :=
  let a := Z.shiftl 0xFF (Z.of_nat (pos mod 8)) mod 2 ^ 8 in
  bits ← or_at (pos / 8) a bits;
  bits ← put_at (pos / 8 + 1) 0xFF bits;
  put_at (pos / 8 + 2) (Z.lxor 0xFF a) bits.

Definition codeSegment (bits : bitvec) (pos : nat) : result bool :=
  match bits !! (pos / 8)%nat with
  | Some b => Ok (Z.land (Z.shiftr b (Z.of_nat (pos mod 8))) 1 =? 0)
  | None => Panic "index out of range"
  end.

(** The loops [for ; numbits >= w; numbits -= w]: [k] rounds of [w] bits. *)
Fixpoint set_runs (k w : nat) (set : nat → bitvec → result bitvec) (pc : nat) (bits : bitvec) : result (nat * bitvec) :=
  match k with
  | O => Ok (pc, bits)
  | S k => bits ← set pc bits; set_runs k w set (pc + w) bits
  end.
(** The switch on the bits that remain. *)
Definition set_rest (n pc : nat) (bits : bitvec) : result (nat * bitvec) :=
  match n with
  | 1 => bits ← set1 pc bits; Ok (pc + 1, bits)
  | 2 => bits ← setN 0x3 pc bits; Ok (pc + 2, bits)
  | 3 => bits ← setN 0x7 pc bits; Ok (pc + 3, bits)
  | 4 => bits ← setN 0xF pc bits; Ok (pc + 4, bits)
  | 5 => bits ← setN 0x1F pc bits; Ok (pc + 5, bits)
  | 6 => bits ← setN 0x3F pc bits; Ok (pc + 6, bits)
  | 7 => bits ← setN 0x7F pc bits; Ok (pc + 7, bits)
  | _ => Ok (pc, bits)
  end%nat.
Definition set_push (n pc : nat) (bits : bitvec) : result (nat * bitvec) :=
  if (8 <=? n)%nat then
    '(pc, bits) ← set_runs (n / 16) 16 set16 pc bits;
    let n := (n mod 16)%nat in
    '(pc, bits) ← set_runs (n / 8) 8 set8 pc bits;
    set_rest (n mod 8) pc bits
  else set_rest n pc bits.

Definition int8 (x : Z) : Z := if x <? 128 then x else x - 256.

(** One round of the loop per opcode; the length of the code bounds their number. *)
Fixpoint bitmap_loop (fuel : nat) (code : bytes) (pc : nat) (bits : bitvec) : result bitvec :=
  match fuel with
  | O => Ok bits
  | S fuel =>
      match code !! pc with
      | None => Ok bits
      | Some op =>
          if int8 (b2z op) <? PUSH1 then bitmap_loop fuel code (pc + 1) bits
          else
            '(pc, bits) ← set_push (Z.to_nat ((b2z op - PUSH1 + 1) mod 256)) (pc + 1) bits;
            bitmap_loop fuel code pc bits
      end
  end.
Definition codeBitmapInternal (code : bytes) (bits : bitvec) : result bitvec :=
  bitmap_loop (length code) code 0 bits.
Definition codeBitmap (code : bytes) : result bitvec :=
  codeBitmapInternal code (replicate (length code / 8 + 1 + 4) 0).

(** ** The reference: a scan byte by byte *)

(** How many data bytes follow an opcode. *)
Definition push_len (op : byte) : nat :=
  if (PUSH1 <=? b2z op) && (b2z op <? PUSH1 + 32) then Z.to_nat (b2z op - PUSH1 + 1) else 0.
(** [skip] data bytes are still to come; [true] marks data. *)
Fixpoint scan (skip : nat) (code : bytes) : list bool :=
  match code with
  | [] => []
  | op :: code =>
      match skip with
      | O => false :: scan (push_len op) code
      | S n => true :: scan n code
      end
  end.
Definition is_data (code : bytes) (pos : nat) : bool := default false (scan 0 code !! pos).

(** ** Bits *)

Definition bit (bits : bitvec) (p : nat) : bool :=
  Z.testbit (default 0 (bits !! (p / 8)%nat)) (Z.of_nat (p mod 8)).

(** [n] bits from [pos] on were set, nothing else. *)
Definition marked (bits bits' : bitvec) (pos n : nat) : Prop :=
  length bits' = length bits ∧
  ∀ p, bit bits' p = bit bits p || (bool_decide (pos ≤ p)%nat && bool_decide (p < pos + n)%nat).
Definition zero_from (bits : bitvec) (pos : nat) : Prop := ∀ p, (pos ≤ p)%nat → bit bits p = false.

Lemma marked_zero bits bits' pos n : marked bits bits' pos n → zero_from bits pos → zero_from bits' (pos + n).
Proof.
  intros [_ Hm] Hz p Hp. rewrite Hm, Hz by lia. rewrite (bool_decide_false (p < pos + n)%nat) by lia.
  by rewrite andb_false_r.
Qed.
Lemma marked_trans bits b1 b2 pos n m : marked bits b1 pos n → marked b1 b2 (pos + n) m → marked bits b2 pos (n + m).
Proof.
  intros [L1 M1] [L2 M2]. split; [congruence|]. intros p. rewrite M2, M1.
  repeat case_bool_decide; rewrite ?orb_true_r, ?orb_false_r; try done; lia.
Qed.
Lemma marked_nil bits pos : marked bits bits pos 0.
Proof.
  split; [done|]. intros p. repeat case_bool_decide; rewrite ?orb_false_r; try done; lia.
Qed.

(** Three bytes from the one of [pos] on: what a set of [n] bits has to put there. *)
Definition in_run (k n d i : nat) : bool := bool_decide (k ≤ 8 * d + i)%nat && bool_decide (8 * d + i < k + n)%nat.
Definition byte_is (m : Z) (k n d : nat) : bool :=
  forallb (λ i, bool_decide (Z.testbit m (Z.of_nat i) = in_run k n d i)) (seq 0 8).
Lemma byte_is_spec m k n d i : byte_is m k n d = true → (i < 8)%nat → Z.testbit m (Z.of_nat i) = in_run k n d i.
Proof.
  unfold byte_is. rewrite forallb_forall. intros Hb Hi. specialize (Hb i). apply bool_decide_eq_true in Hb; [done|].
  apply in_seq. lia.
Qed.

Lemma bit_insert bits j v p : (j < length bits)%nat →
  bit (<[j := v]> bits) p = if decide (p / 8 = j)%nat then Z.testbit v (Z.of_nat (p mod 8)) else bit bits p.
Proof.
  intros Hj. unfold bit. destruct (decide _) as [<-|Hne].
  - by rewrite list_lookup_insert_eq.
  - by rewrite list_lookup_insert_ne.
Qed.
Lemma bit_or bits j v p x : bits !! j = Some x →
  bit (<[j := Z.lor x v]> bits) p =
    bit bits p || (if decide (p / 8 = j)%nat then Z.testbit v (Z.of_nat (p mod 8)) else false).
Proof.
  intros Hx. rewrite bit_insert by (by eapply lookup_lt_Some). destruct (decide _) as [<-|]; [|by rewrite orb_false_r].
  unfold bit. by rewrite Hx, Z.lor_spec.
Qed.

Lemma run_bit pos n p :
  bool_decide (pos ≤ p)%nat && bool_decide (p < pos + n)%nat =
  if decide (p / 8 < pos / 8)%nat then false else in_run (pos mod 8) n (p / 8 - pos / 8) (p mod 8).
Proof.
  pose proof (Nat.div_mod_eq p 8). pose proof (Nat.div_mod_eq pos 8).
  pose proof (Nat.mod_upper_bound p 8 ltac:(lia)). pose proof (Nat.mod_upper_bound pos 8 ltac:(lia)).
  unfold in_run. destruct (decide _); repeat case_bool_decide; try done; lia.
Qed.
Lemma mod8 p : (p mod 8 < 8)%nat.
Proof. apply Nat.mod_upper_bound. lia. Qed.

(** Every shift by less than eight, by evaluation. *)
Definition all_shifts (f : nat → bool) : bool := forallb f (seq 0 8).
Lemma all_shifts_spec f k : all_shifts f = true → (k < 8)%nat → f k = true.
Proof. unfold all_shifts. rewrite forallb_forall. intros Hf Hk. apply Hf, in_seq. lia. Qed.

(** A run that ends in its own byte or the next two is put there by the masks. *)
Lemma marked_masks bits bits' pos n m0 m1 m2 :
  length bits' = length bits → zero_from bits pos → (n ≤ 16)%nat →
  byte_is m0 (pos mod 8) n 0 = true → byte_is m1 (pos mod 8) n 1 = true → byte_is m2 (pos mod 8) n 2 = true →
  (∀ p, bit bits' p =
    if decide (p / 8 = pos / 8)%nat then bit bits p || Z.testbit m0 (Z.of_nat (p mod 8))
    else if decide (p / 8 = pos / 8 + 1)%nat then Z.testbit m1 (Z.of_nat (p mod 8))
    else if decide (p / 8 = pos / 8 + 2)%nat then Z.testbit m2 (Z.of_nat (p mod 8))
    else bit bits p) →
  marked bits bits' pos n.
Proof.
  intros HL Hz Hn B0 B1 B2 Hb. split; [done|]. intros p. rewrite Hb, run_bit.
  pose proof (Nat.div_mod_eq p 8). pose proof (Nat.div_mod_eq pos 8). pose proof (mod8 p). pose proof (mod8 pos).
  destruct (decide (p / 8 = pos / 8)%nat) as [E|E0]; [|destruct (decide (p / 8 = pos / 8 + 1)%nat) as [E|E1];
    [|destruct (decide (p / 8 = pos / 8 + 2)%nat) as [E|E2]]].
  - rewrite decide_False by lia. rewrite E, Nat.sub_diag. by rewrite (byte_is_spec _ _ _ _ _ B0).
  - rewrite decide_False, Hz by lia. replace (p / 8 - pos / 8)%nat with 1%nat by lia. by rewrite (byte_is_spec _ _ _ _ _ B1).
  - rewrite decide_False, Hz by lia. replace (p / 8 - pos / 8)%nat with 2%nat by lia. by rewrite (byte_is_spec _ _ _ _ _ B2).
  - destruct (decide _); [by rewrite orb_false_r|]. unfold in_run.
    rewrite (bool_decide_false (8 * _ + _ < _)%nat) by lia. by rewrite andb_false_r, orb_false_r.
Qed.

(** The writes of the set functions. *)
Lemma or_at_ok i v bits : (i < length bits)%nat → ∃ bits', or_at i v bits = Ok bits' ∧ length bits' = length bits ∧
  ∀ p, bit bits' p = if decide (p / 8 = i)%nat then bit bits p || Z.testbit v (Z.of_nat (p mod 8)) else bit bits p.
Proof.
  intros Hi. unfold or_at. destruct (lookup_lt_is_Some_2 _ _ Hi) as [x Hx]. rewrite Hx. eexists. split; [done|].
  rewrite length_insert. split; [done|]. intros p. rewrite (bit_or _ _ _ _ _ Hx). destruct (decide _); [done|].
  by rewrite orb_false_r.
Qed.
Lemma put_at_ok i v bits : (i < length bits)%nat → ∃ bits', put_at i v bits = Ok bits' ∧ length bits' = length bits ∧
  ∀ p, bit bits' p = if decide (p / 8 = i)%nat then Z.testbit v (Z.of_nat (p mod 8)) else bit bits p.
Proof.
  intros Hi. unfold put_at. destruct (lookup_lt_is_Some_2 _ _ Hi) as [x Hx]. rewrite Hx. eexists. split; [done|].
  rewrite length_insert. split; [done|]. intros p. by apply bit_insert.
Qed.

Lemma set1_ok pos bits : zero_from bits pos → (pos / 8 < length bits)%nat →
  ∃ bits', set1 pos bits = Ok bits' ∧ marked bits bits' pos 1.
Proof.
  intros Hz Hl. unfold set1. destruct (or_at_ok (pos / 8) (Z.shiftl 1 (Z.of_nat (pos mod 8)) mod 2 ^ 8) bits Hl) as (b & -> & Lb & Hb).
  eexists. split; [done|].
  eapply (marked_masks bits b pos 1 (Z.shiftl 1 (Z.of_nat (pos mod 8)) mod 2 ^ 8) 0 0); [done..|lia| | | |].
  - apply (all_shifts_spec (λ k, byte_is (Z.shiftl 1 (Z.of_nat k) mod 2 ^ 8) k 1 0)); [by vm_compute|apply mod8].
  - apply (all_shifts_spec (λ k, byte_is 0 k 1 1)); [by vm_compute|apply mod8].
  - apply (all_shifts_spec (λ k, byte_is 0 k 1 2)); [by vm_compute|apply mod8].
  - intros p. rewrite Hb. pose proof (Nat.div_mod_eq p 8). pose proof (Nat.div_mod_eq pos 8). pose proof (mod8 p). pose proof (mod8 pos).
    repeat destruct (decide _); rewrite ?Z.bits_0; try done; apply Hz; lia.
Qed.
Lemma set8_ok pos bits : zero_from bits pos → (pos / 8 + 1 < length bits)%nat →
  ∃ bits', set8 pos bits = Ok bits' ∧ marked bits bits' pos 8.
Proof.
  intros Hz Hl. unfold set8. cbv zeta. set (a := Z.shiftl 0xFF (Z.of_nat (pos mod 8)) mod 2 ^ 8).
  destruct (or_at_ok (pos / 8) a bits ltac:(lia)) as (b & -> & Lb & Hb). cbn [mbind result_bind].
  destruct (put_at_ok (pos / 8 + 1) (Z.lxor 255 a) b ltac:(lia)) as (c & -> & Lc & Hc).
  eexists. split; [done|]. eapply (marked_masks bits c pos 8 a (Z.lxor 255 a) 0); [congruence|done|lia| | | |].
  - apply (all_shifts_spec (λ k, byte_is (Z.shiftl 0xFF (Z.of_nat k) mod 2 ^ 8) k 8 0)); [by vm_compute|apply mod8].
  - apply (all_shifts_spec (λ k, byte_is (Z.lxor 255 (Z.shiftl 0xFF (Z.of_nat k) mod 2 ^ 8)) k 8 1)); [by vm_compute|apply mod8].
  - apply (all_shifts_spec (λ k, byte_is 0 k 8 2)); [by vm_compute|apply mod8].
  - intros p. rewrite Hc, Hb. pose proof (Nat.div_mod_eq p 8). pose proof (Nat.div_mod_eq pos 8). pose proof (mod8 p). pose proof (mod8 pos).
    repeat destruct (decide _); rewrite ?Z.bits_0; try done; try lia; apply Hz; lia.
Qed.
Lemma set16_ok pos bits : zero_from bits pos → (pos / 8 + 2 < length bits)%nat →
  ∃ bits', set16 pos bits = Ok bits' ∧ marked bits bits' pos 16.
Proof.
  intros Hz Hl. unfold set16. cbv zeta. set (a := Z.shiftl 0xFF (Z.of_nat (pos mod 8)) mod 2 ^ 8).
  destruct (or_at_ok (pos / 8) a bits ltac:(lia)) as (b & -> & Lb & Hb). cbn [mbind result_bind].
  destruct (put_at_ok (pos / 8 + 1) 255 b ltac:(lia)) as (c & -> & Lc & Hc). cbn [mbind result_bind].
  destruct (put_at_ok (pos / 8 + 2) (Z.lxor 255 a) c ltac:(lia)) as (d & -> & Ld & Hd).
  eexists. split; [done|]. eapply (marked_masks bits d pos 16 a 255 (Z.lxor 255 a)); [congruence|done|lia| | | |].
  - apply (all_shifts_spec (λ k, byte_is (Z.shiftl 0xFF (Z.of_nat k) mod 2 ^ 8) k 16 0)); [by vm_compute|apply mod8].
  - apply (all_shifts_spec (λ k, byte_is 255 k 16 1)); [by vm_compute|apply mod8].
  - apply (all_shifts_spec (λ k, byte_is (Z.lxor 255 (Z.shiftl 0xFF (Z.of_nat k) mod 2 ^ 8)) k 16 2)); [by vm_compute|apply mod8].
  - intros p. rewrite Hd, Hc, Hb. repeat destruct (decide _); try done; lia.
Qed.
Lemma setN_ok n pos bits : (2 ≤ n < 8)%nat → zero_from bits pos → (pos / 8 + 1 < length bits)%nat →
  ∃ bits', setN (Z.ones (Z.of_nat n)) pos bits = Ok bits' ∧ marked bits bits' pos n.
Proof.
  intros Hn Hz Hl. unfold setN. cbv zeta. set (a := Z.shiftl (Z.ones (Z.of_nat n)) (Z.of_nat (pos mod 8)) mod 2 ^ 16).
  destruct (or_at_ok (pos / 8) (a mod 2 ^ 8) bits ltac:(lia)) as (b & -> & Lb & Hb). cbn [mbind result_bind].
  set (v := Z.shiftr a 8 mod 2 ^ 8).
  assert (HM : ∃ c, (if negb (v =? 0) then put_at (pos / 8 + 1) v b else Ok b) = Ok c ∧ length c = length b ∧
    ∀ p, bit c p = if decide (p / 8 = pos / 8 + 1)%nat then Z.testbit v (Z.of_nat (p mod 8)) else bit b p).
  { destruct (v =? 0) eqn:E; cbn [negb]; [|apply put_at_ok; lia]. exists b. split_and!; [done..|]. intros p.
    apply Z.eqb_eq in E. rewrite E, Z.bits_0. destruct (decide _); [|done]. rewrite Hb, decide_False by lia. apply Hz.
    pose proof (Nat.div_mod_eq p 8). pose proof (Nat.div_mod_eq pos 8). pose proof (mod8 pos). lia. }
  destruct HM as (c & -> & Lc & Hc). eexists. split; [done|].
  assert (HB : all_shifts (λ k, forallb (λ n, 
      byte_is ((Z.shiftl (Z.ones (Z.of_nat n)) (Z.of_nat k) mod 2 ^ 16) mod 2 ^ 8) k n 0 &&
      byte_is (Z.shiftr (Z.shiftl (Z.ones (Z.of_nat n)) (Z.of_nat k) mod 2 ^ 16) 8 mod 2 ^ 8) k n 1 &&
      byte_is 0 k n 2) (seq 2 6)) = true) by (by vm_compute).
  pose proof (all_shifts_spec _ _ HB (mod8 pos)) as HB'. cbv beta in HB'. rewrite forallb_forall in HB'.
  specialize (HB' n ltac:(apply in_seq; lia)). fold a v in HB'. apply andb_true_iff in HB' as [HB' B2].
  apply andb_true_iff in HB' as [B0 B1].
  eapply (marked_masks bits c pos n (a mod 2 ^ 8) v 0); [congruence|done|lia|done..|].
  intros p. rewrite Hc, Hb. pose proof (Nat.div_mod_eq p 8). pose proof (Nat.div_mod_eq pos 8). pose proof (mod8 p). pose proof (mod8 pos).
  repeat destruct (decide _); rewrite ?Z.bits_0; try done; try lia; apply Hz; lia.
Qed.

(** ** A whole PUSH *)

Lemma set_rest_ok n pos bits : (n < 8)%nat → zero_from bits pos → (pos / 8 + 1 < length bits)%nat →
  ∃ bits', set_rest n pos bits = Ok (pos + n, bits')%nat ∧ marked bits bits' pos n.
Proof.
  intros Hn Hz Hl.
  assert (HN : (2 ≤ n)%nat → ∃ bits', (b ← setN (Z.ones (Z.of_nat n)) pos bits; Ok ((pos + n)%nat, b)) = Ok (pos + n, bits')%nat ∧
    marked bits bits' pos n).
  { intros H2. destruct (setN_ok n pos bits ltac:(lia) Hz Hl) as (b & -> & Hm). by exists b. }
  destruct n as [|[|n]].
  - exists bits. rewrite Nat.add_0_r. split; [done|apply marked_nil].
  - unfold set_rest. destruct (set1_ok pos bits Hz ltac:(lia)) as (b & -> & Hm). by exists b.
  - specialize (HN ltac:(lia)). do 6 (destruct n as [|n]; [exact HN|]). lia.
Qed.
Lemma set_runs_ok k w set pos bits top :
  (∀ pos bits, zero_from bits pos → (pos / 8 + w / 8 < length bits)%nat → ∃ bits', set pos bits = Ok bits' ∧ marked bits bits' pos w) →
  zero_from bits pos → (pos + k * w ≤ top)%nat → (top / 8 + w / 8 < length bits + w / 8)%nat → (w = 8 ∨ w = 16)%nat →
  ∃ bits', set_runs k w set pos bits = Ok (pos + k * w, bits')%nat ∧ marked bits bits' pos (k * w).
Proof.
  intros Hs. revert pos bits. induction k as [|k IH]; intros pos bits Hz Ht Hl Hw; simpl.
  - exists bits. rewrite Nat.add_0_r. split; [done|apply marked_nil].
  - destruct (Hs pos bits Hz) as (b & -> & Hm).
    { assert (pos / 8 + w / 8 ≤ top / 8)%nat; [|lia].
      destruct Hw as [-> | ->]; [change (8 / 8)%nat with 1%nat|change (16 / 8)%nat with 2%nat].
      - rewrite <- (Nat.div_add pos 1 8) by lia. apply Nat.Div0.div_le_mono. lia.
      - rewrite <- (Nat.div_add pos 2 8) by lia. apply Nat.Div0.div_le_mono. lia. }
    cbn [mbind result_bind]. destruct (IH (pos + w)%nat b) as (c & HR & Hm').
    + by eapply marked_zero.
    + lia.
    + destruct Hm as [-> _]. done.
    + done.
    + exists c. rewrite HR. split; [do 2 f_equal; lia|]. by eapply marked_trans.
Qed.

Lemma set_push_ok n pos bits : (n ≤ 32)%nat → zero_from bits pos → (pos / 8 + 4 < length bits)%nat →
  ∃ bits', set_push n pos bits = Ok (pos + n, bits')%nat ∧ marked bits bits' pos n.
Proof.
  intros Hn Hz Hl. unfold set_push.
  assert (Hdiv : ∀ d, (d ≤ 32)%nat → ((pos + d) / 8 ≤ pos / 8 + 4)%nat).
  { intros d Hd. rewrite <- (Nat.div_add pos 4 8) by lia. apply Nat.Div0.div_le_mono. lia. }
  destruct (8 <=? n)%nat eqn:E8; [apply Nat.leb_le in E8|apply Nat.leb_gt in E8].
  2: { apply set_rest_ok; [done..|lia]. }
  pose proof (Nat.div_mod_eq n 16). pose proof (Nat.mod_upper_bound n 16 ltac:(lia)).
  pose proof (Nat.div_mod_eq (n mod 16) 8). pose proof (mod8 (n mod 16)).
  destruct (set_runs_ok (n / 16) 16 set16 pos bits (pos + n / 16 * 16)) as (b & -> & Hb).
  { intros p bs Hp Hlp. apply set16_ok; [done|]. exact Hlp. } { done. } { lia. } { specialize (Hdiv (n / 16 * 16)%nat ltac:(lia)). lia. } { by right. }
  cbn [mbind result_bind].
  destruct (set_runs_ok (n mod 16 / 8) 8 set8 (pos + n / 16 * 16) b (pos + n / 16 * 16 + n mod 16 / 8 * 8)) as (c & -> & Hc).
  { intros p bs Hp Hlp. apply set8_ok; [done|]. exact Hlp. } { by eapply marked_zero. } { lia. }
  { destruct Hb as [-> _]. specialize (Hdiv (n / 16 * 16 + n mod 16 / 8 * 8)%nat ltac:(lia)). rewrite Nat.add_assoc in Hdiv. lia. }
  { by left. }
  cbn [mbind result_bind].
  assert (Hbc : marked bits c pos (n / 16 * 16 + n mod 16 / 8 * 8)) by (by eapply marked_trans).
  assert (HR : ∃ d, set_rest ((n mod 16) mod 8) (pos + n / 16 * 16 + n mod 16 / 8 * 8) c =
      Ok (pos + n / 16 * 16 + n mod 16 / 8 * 8 + (n mod 16) mod 8, d)%nat ∧
    marked c d (pos + n / 16 * 16 + n mod 16 / 8 * 8) ((n mod 16) mod 8)).
  { destruct ((n mod 16) mod 8)%nat as [|r] eqn:Er.
    - exists c. rewrite !Nat.add_0_r. split; [done|apply marked_nil].
    - rewrite <- Er. apply set_rest_ok; [lia|rewrite <- Nat.add_assoc; by eapply marked_zero|].
      destruct Hbc as [-> _]. assert ((pos + n / 16 * 16 + n mod 16 / 8 * 8) / 8 ≤ pos / 8 + 3)%nat; [|lia].
      rewrite <- (Nat.div_add pos 3 8) by lia. apply Nat.Div0.div_le_mono. lia. }
  destruct HR as (d & -> & Hd). exists d. split; [do 2 f_equal; lia|].
  assert (HM : marked bits d pos (n / 16 * 16 + n mod 16 / 8 * 8 + (n mod 16) mod 8))
    by (eapply marked_trans; [done|by rewrite Nat.add_assoc]).
  by replace (n / 16 * 16 + n mod 16 / 8 * 8 + (n mod 16) mod 8)%nat with n in HM by lia.
Qed.

(** ** The whole code *)

Lemma scan_data n code p : (p < n)%nat → (p < length code)%nat → scan n code !! p = Some true.
Proof.
  revert n code. induction p as [|p IH]; intros n code Hn Hl; destruct code as [|op code], n as [|n]; simpl in *; try lia; [done|].
  apply IH; lia.
Qed.
Lemma scan_skip n code p : scan n code !! (n + p)%nat = scan 0 (drop n code) !! p.
Proof.
  revert code. induction n as [|n IH]; intros code; [by rewrite drop_0|]. destruct code as [|op code]; [done|]. simpl. apply IH.
Qed.

(** [p] is data in the rest of the code from [pc] on. *)
Definition data_from (code : bytes) (pc p : nat) : bool :=
  bool_decide (pc ≤ p)%nat && default false (scan 0 (drop pc code) !! (p - pc)%nat).

Lemma data_step code pc op p : code !! pc = Some op → (p < length code)%nat →
  data_from code pc p = (bool_decide (pc + 1 ≤ p)%nat && bool_decide (p < pc + 1 + push_len op)%nat) ||
                        data_from code (pc + 1 + push_len op) p.
Proof.
  intros Hop Hp. unfold data_from. rewrite (drop_S _ _ _ Hop).
  destruct (decide (p < pc + 1)%nat) as [Hlt|Hge].
  - rewrite (bool_decide_false (pc + 1 ≤ p)%nat), (bool_decide_false (pc + 1 + push_len op ≤ p)%nat) by lia. simpl.
    destruct (decide (p = pc)) as [->|Hne]; [|by rewrite (bool_decide_false (pc ≤ p)%nat) by lia].
    by rewrite Nat.sub_diag, andb_false_r.
  - rewrite (bool_decide_true (pc ≤ p)%nat), (bool_decide_true (pc + 1 ≤ p)%nat) by lia. simpl andb.
    replace (p - pc)%nat with (S (p - pc - 1)) by lia. cbn [scan lookup list_lookup].
    destruct (decide (p < pc + 1 + push_len op)%nat) as [Hd|Hd].
    + rewrite (bool_decide_true _ Hd). simpl. rewrite scan_data; [done|lia|]. rewrite length_drop. lia.
    + rewrite (bool_decide_false _ Hd), (bool_decide_true (pc + 1 + push_len op ≤ p)%nat) by lia. simpl.
      replace (p - pc - 1)%nat with (push_len op + (p - (pc + 1 + push_len op)))%nat by lia.
      by rewrite scan_skip, drop_drop, Nat.add_1_r.
Qed.

Lemma push_len_eq op :
  (int8 (b2z op) <? PUSH1) = true ∧ push_len op = 0%nat ∨
  (int8 (b2z op) <? PUSH1) = false ∧ push_len op = Z.to_nat ((b2z op - PUSH1 + 1) mod 256) ∧ (push_len op ≤ 32)%nat.
Proof.
  unfold int8, push_len, PUSH1. pose proof (b2z_bound op).
  destruct (b2z op <? 128) eqn:E1; destruct ((_ <=? b2z op) && (b2z op <? _)) eqn:E2; bprop.
  - right. split; [apply Z.ltb_ge; lia|]. rewrite Z.mod_small by lia. split; [done|lia].
  - left. split; [|done]. apply andb_false_iff in E2. apply Z.ltb_lt. destruct E2; bprop; lia.
  - lia.
  - left. split; [|done]. apply Z.ltb_lt. lia.
Qed.

Lemma bitmap_loop_ok fuel code pc bits : zero_from bits pc → length bits = (length code / 8 + 1 + 4)%nat →
  (length code ≤ pc + fuel)%nat →
  ∃ bits', bitmap_loop fuel code pc bits = Ok bits' ∧ length bits' = length bits ∧
    ∀ p, (p < length code)%nat → bit bits' p = bit bits p || data_from code pc p.
Proof.
  revert pc bits. induction fuel as [|fuel IH]; intros pc bits Hz Hl Hf; simpl.
  - exists bits. split_and!; [done..|]. intros p Hp. unfold data_from. rewrite (bool_decide_false (pc ≤ p)%nat) by lia.
    by rewrite orb_false_r.
  - destruct (code !! pc) as [op|] eqn:Eop.
    2: { apply lookup_ge_None in Eop. exists bits. split_and!; [done..|]. intros p Hp. unfold data_from.
         rewrite (bool_decide_false (pc ≤ p)%nat) by lia. by rewrite orb_false_r. }
    pose proof (lookup_lt_Some _ _ _ Eop) as Hpc.
    assert (HS : ∃ b, set_push (push_len op) (pc + 1) bits = Ok (pc + 1 + push_len op, b)%nat ∧ marked bits b (pc + 1) (push_len op)).
    { destruct (push_len_eq op) as [[_ ->]|(_ & _ & Hn)].
      - exists bits. rewrite Nat.add_0_r. split; [done|apply marked_nil].
      - apply set_push_ok; [done|intros p Hp; apply Hz; lia|].
        assert ((pc + 1) / 8 ≤ length code / 8)%nat by (apply Nat.Div0.div_le_mono; lia). lia. }
    destruct HS as (b & HS & Hm).
    destruct (IH (pc + 1 + push_len op)%nat b) as (bits' & HR & HL & HB).
    + eapply marked_zero; [done|]. intros p Hp. apply Hz. lia.
    + by destruct Hm as [-> _].
    + lia.
    + exists bits'. split; [|split; [destruct Hm; congruence|]].
      * destruct (push_len_eq op) as [[-> E0]|(-> & <- & Hn)].
        -- rewrite E0, Nat.add_0_r in *. injection HS as <-. done.
        -- rewrite HS. done.
      * intros p Hp. rewrite HB, (data_step _ _ _ _ Eop) by done. destruct Hm as [_ ->]. by rewrite orb_assoc.
Qed.

Lemma bit_zeros n p : bit (replicate n 0) p = false.
Proof.
  unfold bit. destruct (replicate n 0 !! (p / 8)%nat) as [x|] eqn:E; simpl; [|apply Z.bits_0].
  apply lookup_replicate in E as [-> _]. apply Z.bits_0.
Qed.
Lemma codeSegment_bit bits p : (p / 8 < length bits)%nat → codeSegment bits p = Ok (negb (bit bits p)).
Proof.
  intros Hp. unfold codeSegment, bit. destruct (lookup_lt_is_Some_2 _ _ Hp) as [x ->]. simpl default. f_equal.
  change 1 with (Z.ones 1). rewrite Z.land_ones by lia. rewrite Z.shiftr_div_pow2, Z.testbit_eqb by lia.
  change (2 ^ 1) with 2. pose proof (Z.mod_pos_bound (x / 2 ^ Z.of_nat (p mod 8)) 2 ltac:(lia)).
  destruct (_ =? 0) eqn:E0, (_ =? 1) eqn:E1; bprop; try done; lia.
Qed.

(** The analysis is total, and its vector covers the code. *)
Lemma codeBitmap_covers code : ∃ bits, codeBitmap code = Ok bits ∧
  (∀ p, (p < length code)%nat → (p / 8 < length bits)%nat ∧ bit bits p = data_from code 0 p).
Proof.
  destruct (bitmap_loop_ok (length code) code 0 (replicate (length code / 8 + 1 + 4) 0)) as (bits & HB & HL & Hb).
  - intros p _. apply bit_zeros.
  - apply length_replicate.
  - lia.
  - exists bits. split; [exact HB|]. intros p Hp. rewrite Hb, bit_zeros by done. rewrite length_replicate in HL.
    rewrite HL. assert (p / 8 ≤ length code / 8)%nat by (apply Nat.Div0.div_le_mono; lia). split; [lia|done].
Qed.

(** The jump destination analysis, which sets up to sixteen bits at a time,
    returns for every code, never indexes outside its bit vector, and marks a
    position as code exactly when a byte-by-byte scan finds that it is not the
    data of a PUSH. *)
Theorem codeBitmap_spec code :
  ∃ bits, codeBitmap code = Ok bits ∧
    ∀ pos, (pos < length code)%nat → codeSegment bits pos = Ok (negb (is_data code pos)).
Proof.
  destruct (codeBitmap_covers code) as (bits & HB & Hb). exists bits. split; [exact HB|]. intros pos Hp.
  destruct (Hb pos Hp) as [Hl Hbit]. rewrite codeSegment_bit, Hbit by done. unfold data_from, is_data.
  by rewrite drop_0, Nat.sub_0_r.
Qed.
