(* ===== verification/EvmTable.v ===== *)
(** * EVM instruction tables (chain/core/vm: opcodes.go, jump_table.go, eips.go,
    stack_table.go, gas.go, params/protocol_params.go)

    An operation of the table names its execution, gas and memory functions; the
    functions themselves are in [Evm] under these names. A table is a function on
    opcodes, a later instruction set an update of the one before it. *)

From S2P Require Import Prelude Bytes EvmAnalysis.

(** ** Gas prices *)

Definition GasQuickStep : Z := 2.
Definition GasFastestStep : Z := 3.
Definition GasFastStep : Z := 5.
Definition GasMidStep : Z := 8.
Definition GasSlowStep : Z := 10.
Definition GasExtStep : Z := 20.

Definition CallValueTransferGas : Z := 9000.
Definition CallNewAccountGas : Z := 25000.
Definition QuadCoeffDiv : Z := 512.
Definition LogDataGas : Z := 8.
Definition CallStipend : Z := 2300.
Definition Keccak256Gas : Z := 30.
Definition Keccak256WordGas : Z := 6.
Definition SstoreSetGas : Z := 20000.
Definition SstoreResetGas : Z := 5000.
Definition SstoreClearGas : Z := 5000.
Definition SstoreRefundGas : Z := 15000.
Definition NetSstoreNoopGas : Z := 200.
Definition NetSstoreInitGas : Z := 20000.
Definition NetSstoreCleanGas : Z := 5000.
Definition NetSstoreDirtyGas : Z := 200.
Definition NetSstoreClearRefund : Z := 15000.
Definition NetSstoreResetRefund : Z := 4800.
Definition NetSstoreResetClearRefund : Z := 19800.
Definition SstoreSentryGasEIP2200 : Z := 2300.
Definition SstoreSetGasEIP2200 : Z := 20000.
Definition SstoreResetGasEIP2200 : Z := 5000.
Definition SstoreClearsScheduleRefundEIP2200 : Z := 15000.
Definition ColdAccountAccessCostEIP2929 : Z := 2600.
Definition ColdSloadCostEIP2929 : Z := 2100.
Definition WarmStorageReadCostEIP2929 : Z := 100.
Definition TxAccessListStorageKeyGas : Z := 1900.
Definition SstoreClearsScheduleRefundEIP3529 : Z :=
  SstoreResetGasEIP2200 - ColdSloadCostEIP2929 + TxAccessListStorageKeyGas.
Definition JumpdestGas : Z := 1.
Definition CreateDataGas : Z := 200.
Definition CallCreateDepth : Z := 1024.
Definition ExpGas : Z := 10.
Definition LogGas : Z := 375.
Definition CopyGas : Z := 3.
Definition StackLimit : Z := 1024.
Definition LogTopicGas : Z := 375.
Definition CreateGas : Z := 32000.
Definition Create2Gas : Z := 32000.
Definition SelfdestructRefundGas : Z := 24000.
Definition MemoryGas : Z := 3.
Definition CallGasFrontier : Z := 40.
Definition CallGasEIP150 : Z := 700.
Definition BalanceGasFrontier : Z := 20.
Definition BalanceGasEIP150 : Z := 400.
Definition BalanceGasEIP1884 : Z := 700.
Definition ExtcodeSizeGasFrontier : Z := 20.
Definition ExtcodeSizeGasEIP150 : Z := 700.
Definition SloadGasFrontier : Z := 50.
Definition SloadGasEIP150 : Z := 200.
Definition SloadGasEIP1884 : Z := 800.
Definition SloadGasEIP2200 : Z := 800.
Definition ExtcodeHashGasConstantinople : Z := 400.
Definition ExtcodeHashGasEIP1884 : Z := 700.
Definition SelfdestructGasEIP150 : Z := 5000.
Definition ExpByteFrontier : Z := 10.
Definition ExpByteEIP158 : Z := 50.
Definition ExtcodeCopyBaseFrontier : Z := 20.
Definition ExtcodeCopyBaseEIP150 : Z := 700.
Definition CreateBySelfdestructGas : Z := 25000.
Definition MaxCodeSize : Z := 24576.

(** ** Opcodes (those of PUSH, DUP, SWAP and LOG count up from the first) *)

Definition STOP : Z := 0x0.
Definition ADD : Z := 0x1.
Definition MUL : Z := 0x2.
Definition SUB : Z := 0x3.
Definition DIV : Z := 0x4.
Definition SDIV : Z := 0x5.
Definition MOD : Z := 0x6.
Definition SMOD : Z := 0x7.
Definition ADDMOD : Z := 0x8.
Definition MULMOD : Z := 0x9.
Definition EXP : Z := 0xa.
Definition SIGNEXTEND : Z := 0xb.
Definition LT : Z := 0x10.
Definition GT : Z := 0x11.
Definition SLT : Z := 0x12.
Definition SGT : Z := 0x13.
Definition EQ : Z := 0x14.
Definition ISZERO : Z := 0x15.
Definition AND : Z := 0x16.
Definition OR : Z := 0x17.
Definition XOR : Z := 0x18.
Definition NOT : Z := 0x19.
Definition BYTE : Z := 0x1a.
Definition SHL : Z := 0x1b.
Definition SHR : Z := 0x1c.
Definition SAR : Z := 0x1d.
Definition KECCAK256 : Z := 0x20.
Definition ADDRESS : Z := 0x30.
Definition BALANCE : Z := 0x31.
Definition ORIGIN : Z := 0x32.
Definition CALLER : Z := 0x33.
Definition CALLVALUE : Z := 0x34.
Definition CALLDATALOAD : Z := 0x35.
Definition CALLDATASIZE : Z := 0x36.
Definition CALLDATACOPY : Z := 0x37.
Definition CODESIZE : Z := 0x38.
Definition CODECOPY : Z := 0x39.
Definition GASPRICE : Z := 0x3a.
Definition EXTCODESIZE : Z := 0x3b.
Definition EXTCODECOPY : Z := 0x3c.
Definition RETURNDATASIZE : Z := 0x3d.
Definition RETURNDATACOPY : Z := 0x3e.
Definition EXTCODEHASH : Z := 0x3f.
Definition BLOCKHASH : Z := 0x40.
Definition COINBASE : Z := 0x41.
Definition TIMESTAMP : Z := 0x42.
Definition NUMBER : Z := 0x43.
Definition DIFFICULTY : Z := 0x44.
Definition RANDOM : Z := 0x44.
Definition GASLIMIT : Z := 0x45.
Definition CHAINID : Z := 0x46.
Definition SELFBALANCE : Z := 0x47.
Definition BASEFEE : Z := 0x48.
Definition POP : Z := 0x50.
Definition MLOAD : Z := 0x51.
Definition MSTORE : Z := 0x52.
Definition MSTORE8 : Z := 0x53.
Definition SLOAD : Z := 0x54.
Definition SSTORE : Z := 0x55.
Definition JUMP : Z := 0x56.
Definition JUMPI : Z := 0x57.
Definition PC : Z := 0x58.
Definition MSIZE : Z := 0x59.
Definition GAS : Z := 0x5a.
Definition DUP1 : Z := 0x80.
Definition SWAP1 : Z := 0x90.
Definition LOG0 : Z := 0xa0.
Definition CREATE : Z := 0xf0.
Definition CALL : Z := 0xf1.
Definition CALLCODE : Z := 0xf2.
Definition RETURN : Z := 0xf3.
Definition DELEGATECALL : Z := 0xf4.
Definition CREATE2 : Z := 0xf5.
Definition STATICCALL : Z := 0xfa.
Definition REVERT : Z := 0xfd.
Definition SELFDESTRUCT : Z := 0xff.

(** ** Operations *)

Inductive execution :=
| XStop | XAdd | XMul | XSub | XDiv | XSdiv | XMod | XSmod | XAddmod | XMulmod | XExp | XSignExtend
| XLt | XGt | XSlt | XSgt | XEq | XIszero | XAnd | XOr | XXor | XNot | XByte | XSHL | XSHR | XSAR | XKeccak256
| XAddress | XBalance | XOrigin | XCaller | XCallValue | XCallDataLoad | XCallDataSize | XCallDataCopy
| XCodeSize | XCodeCopy | XGasprice | XExtCodeSize | XExtCodeCopy | XReturnDataSize | XReturnDataCopy | XExtCodeHash
| XBlockhash | XCoinbase | XTimestamp | XNumber | XDifficulty | XRandom | XGasLimit | XChainID | XSelfBalance | XBaseFee
| XPop | XMload | XMstore | XMstore8 | XSload | XSstore | XJump | XJumpi | XPc | XMsize | XGas | XJumpdest
| XPush1 | XPush (size : nat) | XDup (n : nat) | XSwap (n : nat) | XLog (n : nat)
| XCreate | XCall | XCallCode | XReturn | XDelegateCall | XCreate2 | XStaticCall | XRevert | XSelfdestruct | XUndefined.

Inductive gas_function :=
| GExpFrontier | GExpEIP158 | GKeccak256 | GCopy (stackpos : nat) | GMemory | GSStore | GSStoreEIP2200
| GLog (n : nat) | GCreate2 | GCall | GCallCode | GDelegateCall | GStaticCall | GSelfdestruct
| GSStoreEIP2929 | GSStoreEIP3529 | GSLoadEIP2929 | GExtCodeCopyEIP2929 | GAccountCheckEIP2929
| GCallEIP2929 | GCallCodeEIP2929 | GDelegateCallEIP2929 | GStaticCallEIP2929 | GSelfdestructEIP2929 | GSelfdestructEIP3529.

Inductive memory_function :=
| MKeccak256 | MCallDataCopy | MReturnDataCopy | MCodeCopy | MExtCodeCopy | MMLoad | MMStore8 | MMStore
| MCreate | MCreate2 | MCall | MDelegateCall | MStaticCall | MReturn | MRevert | MLog.

Definition maxStack (pop push : Z) : Z := StackLimit + pop - push.
Definition minStack (pops push : Z) : Z := pops.
Definition minSwapStack (n : Z) : Z := minStack n n.
Definition maxSwapStack (n : Z) : Z := maxStack n n.
Definition minDupStack (n : Z) : Z := minStack n (n + 1).
Definition maxDupStack (n : Z) : Z := maxStack n (n + 1).

Record operation := MkOp {
  execute : execution;
  constantGas : Z;
  dynamicGas : option gas_function;
  op_minStack : Z;
  op_maxStack : Z;
  memorySize : option memory_function
}.

Definition JumpTable := Z → operation.

(** An operation without dynamic gas, and one with. *)
Definition plain (x : execution) (gas pop push : Z) : operation :=
  MkOp x gas None (minStack pop push) (maxStack pop push) None.
Definition priced (x : execution) (gas : Z) (g : gas_function) (m : option memory_function) (pop push : Z) : operation :=
  MkOp x gas (Some g) (minStack pop push) (maxStack pop push) m.

Definition with_op (op : Z) (o : operation) (jt : JumpTable) : JumpTable := λ i, if i =? op then o else jt i.
Definition with_constantGas (op gas : Z) (jt : JumpTable) : JumpTable :=
  let o := jt op in with_op op (MkOp (execute o) gas (dynamicGas o) (op_minStack o) (op_maxStack o) (memorySize o)) jt.
Definition with_dynamicGas (op : Z) (g : gas_function) (jt : JumpTable) : JumpTable :=
  let o := jt op in with_op op (MkOp (execute o) (constantGas o) (Some g) (op_minStack o) (op_maxStack o) (memorySize o)) jt.

(** [validate]: the check made of every finished table. *)
Definition validate (jt : JumpTable) : bool :=
  forallb (λ i, match memorySize (jt (Z.of_nat i)), dynamicGas (jt (Z.of_nat i)) with Some _, None => false | _, _ => true end)
    (seq 0 256).

(** ** The frontier instructions *)

Definition frontier_arith : list (Z * operation) := [
  (STOP, plain XStop 0 0 0);
  (ADD, plain XAdd GasFastestStep 2 1);
  (MUL, plain XMul GasFastStep 2 1);
  (SUB, plain XSub GasFastestStep 2 1);
  (DIV, plain XDiv GasFastStep 2 1);
  (SDIV, plain XSdiv GasFastStep 2 1);
  (MOD, plain XMod GasFastStep 2 1);
  (SMOD, plain XSmod GasFastStep 2 1);
  (ADDMOD, plain XAddmod GasMidStep 3 1);
  (MULMOD, plain XMulmod GasMidStep 3 1);
  (EXP, priced XExp 0 GExpFrontier None 2 1);
  (SIGNEXTEND, plain XSignExtend GasFastStep 2 1);
  (LT, plain XLt GasFastestStep 2 1);
  (GT, plain XGt GasFastestStep 2 1);
  (SLT, plain XSlt GasFastestStep 2 1);
  (SGT, plain XSgt GasFastestStep 2 1);
  (EQ, plain XEq GasFastestStep 2 1);
  (ISZERO, plain XIszero GasFastestStep 1 1);
  (AND, plain XAnd GasFastestStep 2 1);
  (XOR, plain XXor GasFastestStep 2 1);
  (OR, plain XOr GasFastestStep 2 1);
  (NOT, plain XNot GasFastestStep 1 1);
  (BYTE, plain XByte GasFastestStep 2 1);
  (KECCAK256, priced XKeccak256 Keccak256Gas GKeccak256 (Some MKeccak256) 2 1)
].
Definition frontier_env : list (Z * operation) := [
  (ADDRESS, plain XAddress GasQuickStep 0 1);
  (BALANCE, plain XBalance BalanceGasFrontier 1 1);
  (ORIGIN, plain XOrigin GasQuickStep 0 1);
  (CALLER, plain XCaller GasQuickStep 0 1);
  (CALLVALUE, plain XCallValue GasQuickStep 0 1);
  (CALLDATALOAD, plain XCallDataLoad GasFastestStep 1 1);
  (CALLDATASIZE, plain XCallDataSize GasQuickStep 0 1);
  (CALLDATACOPY, priced XCallDataCopy GasFastestStep (GCopy 2) (Some MCallDataCopy) 3 0);
  (CODESIZE, plain XCodeSize GasQuickStep 0 1);
  (CODECOPY, priced XCodeCopy GasFastestStep (GCopy 2) (Some MCodeCopy) 3 0);
  (GASPRICE, plain XGasprice GasQuickStep 0 1);
  (EXTCODESIZE, plain XExtCodeSize ExtcodeSizeGasFrontier 1 1);
  (EXTCODECOPY, priced XExtCodeCopy ExtcodeCopyBaseFrontier (GCopy 3) (Some MExtCodeCopy) 4 0);
  (BLOCKHASH, plain XBlockhash GasExtStep 1 1);
  (COINBASE, plain XCoinbase GasQuickStep 0 1);
  (TIMESTAMP, plain XTimestamp GasQuickStep 0 1);
  (NUMBER, plain XNumber GasQuickStep 0 1);
  (DIFFICULTY, plain XDifficulty GasQuickStep 0 1);
  (GASLIMIT, plain XGasLimit GasQuickStep 0 1)
].
Definition frontier_flow : list (Z * operation) := [
  (POP, plain XPop GasQuickStep 1 0);
  (MLOAD, priced XMload GasFastestStep GMemory (Some MMLoad) 1 1);
  (MSTORE, priced XMstore GasFastestStep GMemory (Some MMStore) 2 0);
  (MSTORE8, priced XMstore8 GasFastestStep GMemory (Some MMStore8) 2 0);
  (SLOAD, plain XSload SloadGasFrontier 1 1);
  (SSTORE, priced XSstore 0 GSStore None 2 0);
  (JUMP, plain XJump GasMidStep 1 0);
  (JUMPI, plain XJumpi GasSlowStep 2 0);
  (PC, plain XPc GasQuickStep 0 1);
  (MSIZE, plain XMsize GasQuickStep 0 1);
  (GAS, plain XGas GasQuickStep 0 1);
  (JUMPDEST, plain XJumpdest JumpdestGas 0 0)
].
Definition frontier_calls : list (Z * operation) := [
  (CREATE, priced XCreate CreateGas GMemory (Some MCreate) 3 1);
  (CALL, priced XCall CallGasFrontier GCall (Some MCall) 7 1);
  (CALLCODE, priced XCallCode CallGasFrontier GCallCode (Some MCall) 7 1);
  (RETURN, priced XReturn 0 GMemory (Some MReturn) 2 0);
  (SELFDESTRUCT, priced XSelfdestruct 0 GSelfdestruct None 1 0)
].
(** PUSH1 to PUSH32, DUP1 to DUP16, SWAP1 to SWAP16, LOG0 to LOG4. *)
Definition frontier_push : list (Z * operation) :=
  (PUSH1, plain XPush1 GasFastestStep 0 1) ::
  map (λ i, (PUSH1 + Z.of_nat i - 1, plain (XPush i) GasFastestStep 0 1)) (seq 2 31).
Definition frontier_dup : list (Z * operation) :=
  map (λ i, (DUP1 + Z.of_nat i - 1,
             MkOp (XDup i) GasFastestStep None (minDupStack (Z.of_nat i)) (maxDupStack (Z.of_nat i)) None)) (seq 1 16).
Definition frontier_swap : list (Z * operation) :=
  map (λ i, (SWAP1 + Z.of_nat i - 1,
             MkOp (XSwap i) GasFastestStep None (minSwapStack (Z.of_nat i + 1)) (maxSwapStack (Z.of_nat i + 1)) None)) (seq 1 16).
Definition frontier_log : list (Z * operation) :=
  map (λ i, (LOG0 + Z.of_nat i, priced (XLog i) 0 (GLog i) (Some MLog) (2 + Z.of_nat i) 0)) (seq 0 5).

(** A table literal; unassigned slots are undefined operations. *)
Fixpoint table_of (l : list (Z * operation)) : JumpTable :=
  match l with
  | [] => λ _, MkOp XUndefined 0 None 0 (maxStack 0 0) None
  | (op, o) :: l => with_op op o (table_of l)
  end.
Definition newFrontierInstructionSet : JumpTable :=
  table_of (frontier_arith ++ frontier_env ++ frontier_flow ++ frontier_calls ++ frontier_push ++ frontier_dup ++ frontier_swap ++ frontier_log).

(** ** Later instruction sets *)

Definition newHomesteadInstructionSet : JumpTable :=
  with_op DELEGATECALL (priced XDelegateCall CallGasFrontier GDelegateCall (Some MDelegateCall) 6 1) newFrontierInstructionSet.
Definition newTangerineWhistleInstructionSet : JumpTable :=
  with_constantGas DELEGATECALL CallGasEIP150
    (with_constantGas CALLCODE CallGasEIP150
      (with_constantGas CALL CallGasEIP150
        (with_constantGas EXTCODECOPY ExtcodeCopyBaseEIP150
          (with_constantGas SLOAD SloadGasEIP150
            (with_constantGas EXTCODESIZE ExtcodeSizeGasEIP150
              (with_constantGas BALANCE BalanceGasEIP150 newHomesteadInstructionSet)))))).
Definition newSpuriousDragonInstructionSet : JumpTable := with_dynamicGas EXP GExpEIP158 newTangerineWhistleInstructionSet.
Definition newByzantiumInstructionSet : JumpTable :=
  with_op REVERT (priced XRevert 0 GMemory (Some MRevert) 2 0)
    (with_op RETURNDATACOPY (priced XReturnDataCopy GasFastestStep (GCopy 2) (Some MReturnDataCopy) 3 0)
      (with_op RETURNDATASIZE (plain XReturnDataSize GasQuickStep 0 1)
        (with_op STATICCALL (priced XStaticCall CallGasEIP150 GStaticCall (Some MStaticCall) 6 1)
          newSpuriousDragonInstructionSet))).
Definition newConstantinopleInstructionSet : JumpTable :=
  with_op CREATE2 (priced XCreate2 Create2Gas GCreate2 (Some MCreate2) 4 1)
    (with_op EXTCODEHASH (plain XExtCodeHash ExtcodeHashGasConstantinople 1 1)
      (with_op SAR (plain XSAR GasFastestStep 2 1)
        (with_op SHR (plain XSHR GasFastestStep 2 1)
          (with_op SHL (plain XSHL GasFastestStep 2 1) newByzantiumInstructionSet)))).

Definition enable1344 (jt : JumpTable) : JumpTable := with_op CHAINID (plain XChainID GasQuickStep 0 1) jt.
Definition enable1884 (jt : JumpTable) : JumpTable :=
  with_op SELFBALANCE (plain XSelfBalance GasFastStep 0 1)
    (with_constantGas EXTCODEHASH ExtcodeHashGasEIP1884
      (with_constantGas BALANCE BalanceGasEIP1884 (with_constantGas SLOAD SloadGasEIP1884 jt))).
Definition enable2200 (jt : JumpTable) : JumpTable :=
  with_dynamicGas SSTORE GSStoreEIP2200 (with_constantGas SLOAD SloadGasEIP2200 jt).
Definition with_gas (op gas : Z) (g : gas_function) (jt : JumpTable) : JumpTable :=
  with_dynamicGas op g (with_constantGas op gas jt).
Definition enable2929 (jt : JumpTable) : JumpTable :=
  with_gas SELFDESTRUCT SelfdestructGasEIP150 GSelfdestructEIP2929
    (with_gas DELEGATECALL WarmStorageReadCostEIP2929 GDelegateCallEIP2929
      (with_gas STATICCALL WarmStorageReadCostEIP2929 GStaticCallEIP2929
        (with_gas CALLCODE WarmStorageReadCostEIP2929 GCallCodeEIP2929
          (with_gas CALL WarmStorageReadCostEIP2929 GCallEIP2929
            (with_gas BALANCE WarmStorageReadCostEIP2929 GAccountCheckEIP2929
              (with_gas EXTCODEHASH WarmStorageReadCostEIP2929 GAccountCheckEIP2929
                (with_gas EXTCODESIZE WarmStorageReadCostEIP2929 GAccountCheckEIP2929
                  (with_gas EXTCODECOPY WarmStorageReadCostEIP2929 GExtCodeCopyEIP2929
                    (with_gas SLOAD 0 GSLoadEIP2929 (with_dynamicGas SSTORE GSStoreEIP2929 jt)))))))))).
Definition enable3529 (jt : JumpTable) : JumpTable :=
  with_dynamicGas SELFDESTRUCT GSelfdestructEIP3529 (with_dynamicGas SSTORE GSStoreEIP3529 jt).
Definition enable3198 (jt : JumpTable) : JumpTable := with_op BASEFEE (plain XBaseFee GasQuickStep 0 1) jt.

Definition newIstanbulInstructionSet : JumpTable := enable2200 (enable1884 (enable1344 newConstantinopleInstructionSet)).
Definition newBerlinInstructionSet : JumpTable := enable2929 newIstanbulInstructionSet.
Definition newLondonInstructionSet : JumpTable := enable3198 (enable3529 newBerlinInstructionSet).
Definition newMergeInstructionSet : JumpTable :=
  with_op RANDOM (plain XRandom GasQuickStep 0 1) newLondonInstructionSet.

Lemma tables_validate : forallb validate [newFrontierInstructionSet; newHomesteadInstructionSet;
  newTangerineWhistleInstructionSet; newSpuriousDragonInstructionSet; newByzantiumInstructionSet;
  newConstantinopleInstructionSet; newIstanbulInstructionSet; newBerlinInstructionSet; newLondonInstructionSet;
  newMergeInstructionSet] = true.
Proof. vm_compute. reflexivity. Qed.
