(* ===== verification/Evm.v ===== *)
(** * The virtual machine (chain/core/vm: stack.go, memory.go, contract.go,
    common.go, memory_table.go, gas_table.go, operations_acl.go, instructions.go,
    interpreter.go, evm.go)

    A machine word is its number. The arithmetic of the uint256 package is a
    parameter (class [Uint256]); so are the precompiled contracts and the block
    hashes of the environment. [EVM] is the part of EVM and its interpreter that
    changes while code runs: the state database, the call depth, the gas set aside
    for a call, the read-only flag and the return data. A call frame is a
    [ScopeContext]. Functions that run code take the interpreter as an argument;
    [Run] ties the knot with fuel. The caches of the jump destination analysis,
    tracing and the stack pool are left out. *)

From S2P Require Import Prelude Bytes Rlp Types Params Text StateDB EvmAnalysis EvmTable.

(** ** Outcomes *)

(** [Crash] is a Go panic; [NoFuel] is the model's, and never an answer. *)
Inductive outcome (A : Type) :=
| Ret (a : A)
| Crash (why : string)
| NoFuel.
Arguments Ret {_} _.
Arguments Crash {_} _.
Arguments NoFuel {_}.

#[export] Instance outcome_ret : MRet outcome := fun A a => Ret a.
#[export] Instance outcome_bind : MBind outcome := fun A B f m =>
  match m with Ret a => f a | Crash w => Crash w | NoFuel => NoFuel end.

(** A state operation that may panic. *)
Definition of_result {A} (r : result A) : outcome A :=
  match r with Ok a => Ret a | Err _ => Crash "unexpected error" | Panic w => Crash w end.
(** A use of a nil pointer. *)
Definition value_of {A} (x : option A) : outcome A :=
  match x with Some a => Ret a | None => Crash "invalid memory address or nil pointer dereference" end.

Inductive vmError :=
| ErrOutOfGas | ErrCodeStoreOutOfGas | ErrDepth | ErrInsufficientBalance | ErrContractAddressCollision
| ErrExecutionReverted | ErrMaxCodeSizeExceeded | ErrInvalidJump | ErrWriteProtection | ErrReturnDataOutOfBounds
| ErrGasUintOverflow | ErrInvalidCode | ErrNonceUintOverflow
| ErrStackUnderflow (stackLen required : Z) | ErrStackOverflow (stackLen limit : Z) | ErrInvalidOpCode (opcode : Z)
| errStopToken | errSentry | ErrPrecompile (e : error).
#[export] Instance vmError_eq_dec : EqDecision vmError.
Proof. solve_decision. Defined.

(** ** Words *)

Definition two256 : Z := 2 ^ 256.

Definition IsZero (x : Z) : bool := x =? 0.
Definition IsUint64 (x : Z) : bool := (0 <=? x) && (x <? two64).
Definition Uint64 (x : Z) : Z := u64 x.
Definition Uint64WithOverflow (x : Z) : Z * bool := (u64 x, negb (IsUint64 x)).
Definition Bytes20 (x : Z) : Address := x mod 2 ^ 160.
Definition FromBig (x : Z) : Z := x mod two256.
Definition BitLen (x : Z) : Z := if x =? 0 then 0 else Z.log2 x + 1.
Definition of_bool (b : bool) : Z := if b then 1 else 0.

(** What the uint256 package computes on words. *)
Class Uint256 := {
  u_Add : Z → Z → Z; u_Sub : Z → Z → Z; u_Mul : Z → Z → Z; u_Div : Z → Z → Z; u_SDiv : Z → Z → Z;
  u_Mod : Z → Z → Z; u_SMod : Z → Z → Z; u_Exp : Z → Z → Z; u_ExtendSign : Z → Z → Z; u_Byte : Z → Z → Z;
  u_And : Z → Z → Z; u_Or : Z → Z → Z; u_Xor : Z → Z → Z; u_Not : Z → Z;
  u_AddMod : Z → Z → Z → Z; u_MulMod : Z → Z → Z → Z;
  u_Lsh : Z → Z → Z; u_Rsh : Z → Z → Z; u_SRsh : Z → Z → Z; u_Slt : Z → Z → bool; u_Sgt : Z → Z → bool;
  (** "Add sets z to the sum x+y", modulo 2^256. *)
  u_Add_eq x y : u_Add x y = (x + y) mod two256
}.

(** ** Checked arithmetic and slices (common/math/integer.go, common.go) *)

Definition SafeAdd (x y : Z) : Z * bool := (add64 x y, negb (x + y <? two64)).
Definition SafeMul (x y : Z) : Z * bool := (mul64 x y, negb (x * y <? two64)).

Definition toWordSize (size : Z) : Z := if two64 - 1 - 31 <? size then (two64 - 1) / 32 + 1 else (size + 31) / 32.

Definition calcMemSize64WithUint (off length64 : Z) : Z * bool :=
  if length64 =? 0 then (0, false)
  else
    let '(offset64, overflow) := Uint64WithOverflow off in
    if overflow : bool then (0, true)
    else let val := add64 offset64 length64 in (val, val <? offset64).
Definition calcMemSize64 (off l : Z) : Z * bool :=
  if negb (IsUint64 l) then (0, true) else calcMemSize64WithUint off (Uint64 l).

(** [data[start:end]] for nonnegative bounds. *)
Definition slice (data : bytes) (start fin : Z) : outcome bytes :=
  if (fin <? start) || (Z.of_nat (length data) <? fin) then Crash "slice bounds out of range"
  else Ret (take (Z.to_nat (fin - start)) (drop (Z.to_nat start) data)).
Definition getData (data : bytes) (start size : Z) : outcome bytes :=
  let len := Z.of_nat (length data) in
  let start := if len <? start then len else start in
  let fin := add64 start size in
  let fin := if len <? fin then len else fin in
  d ← slice data start fin;
  Ret (RightPadBytes d (Z.to_nat (i64 size))).

(** ** Memory *)

Record Memory := MkMemory { store : bytes; lastGasCost : Z }.
Definition NewMemory : Memory := MkMemory [] 0.
Definition mem_Len (m : Memory) : Z := Z.of_nat (length (store m)).
(** [copy(store[off:], data)], within the store. *)
Definition write_at (off : nat) (data store : bytes) : bytes :=
  take off store ++ data ++ drop (off + length data) store.
Definition mem_Set (offset size : Z) (value : bytes) (m : Memory) : outcome Memory :=
  if 0 <? size then
    if (mem_Len m <? add64 offset size) || (add64 offset size <? offset) then Crash "invalid memory: store empty"
    else Ret (MkMemory (write_at (Z.to_nat offset) (take (Z.to_nat size) value) (store m)) (lastGasCost m))
  else Ret m.
Definition Set32 (offset val : Z) (m : Memory) : outcome Memory :=
  if (mem_Len m <? add64 offset 32) || (add64 offset 32 <? offset) then Crash "invalid memory: store empty"
  else Ret (MkMemory (write_at (Z.to_nat offset) (hash_bytes val) (store m)) (lastGasCost m)).
Definition Resize (size : Z) (m : Memory) : Memory :=
  if mem_Len m <? size then
    MkMemory (store m ++ replicate (Z.to_nat (size - mem_Len m)) Byte.x00) (lastGasCost m)
  else m.
(** GetCopy and GetPtr differ in aliasing only; the bytes are not written while
    the slice is in use. *)
Definition GetPtr (offset size : Z) (m : Memory) : outcome bytes :=
  if size =? 0 then Ret []
  else if offset <? mem_Len m then
    if offset <? 0 then Crash "slice bounds out of range" else slice (store m) offset (offset + size)
  else Ret [].
Definition GetCopy (offset size : Z) (m : Memory) : outcome bytes :=
  if size =? 0 then Ret []
  else if offset <? mem_Len m then
    if (offset <? 0) || (size <? 0) then Crash "slice bounds out of range" else slice (store m) offset (offset + size)
  else Ret [].

(** ** Frames *)

(** The caches and the code hash they are keyed by are left out. *)
Record Contract := MkContract {
  CallerAddress : Address;
  ctr_self : Address;
  ctr_Code : bytes;
  ctr_Input : bytes;
  ctr_Gas : Z;
  ctr_value : Z
}.
Definition with_Gas (g : Z) (c : Contract) : Contract :=
  MkContract (CallerAddress c) (ctr_self c) (ctr_Code c) (ctr_Input c) g (ctr_value c).
Definition with_Input (i : bytes) (c : Contract) : Contract :=
  MkContract (CallerAddress c) (ctr_self c) (ctr_Code c) i (ctr_Gas c) (ctr_value c).
Definition SetCallCode (code : bytes) (c : Contract) : Contract :=
  MkContract (CallerAddress c) (ctr_self c) code (ctr_Input c) (ctr_Gas c) (ctr_value c).
Definition NewContract (caller object : Address) (value gas : Z) : Contract := MkContract caller object [] [] gas value.
Definition AsDelegate (parent c : Contract) : Contract :=
  MkContract (CallerAddress parent) (ctr_self c) (ctr_Code c) (ctr_Input c) (ctr_Gas c) (ctr_value parent).
Definition UseGas (gas : Z) (c : Contract) : bool * Contract :=
  if ctr_Gas c <? gas then (false, c) else (true, with_Gas (sub64 (ctr_Gas c) gas) c).
Definition GetOp (n : Z) (c : Contract) : Z :=
  if n <? Z.of_nat (length (ctr_Code c)) then
    match ctr_Code c !! Z.to_nat n with Some b => b2z b | None => STOP end
  else STOP.
Definition isCode (udest : Z) (c : Contract) : outcome bool :=
  bits ← of_result (codeBitmap (ctr_Code c));
  of_result (codeSegment bits (Z.to_nat udest)).
Definition validJumpdest (dest : Z) (c : Contract) : outcome bool :=
  let '(udest, overflow) := Uint64WithOverflow dest in
  if overflow || negb (udest <? Z.of_nat (length (ctr_Code c))) then Ret false
  else if negb (match ctr_Code c !! Z.to_nat udest with Some b => b2z b | None => 0 end =? JUMPDEST) then Ret false
  else isCode udest c.

(** The top of the stack is the head of the list. *)
Record ScopeContext := MkScope { sc_Memory : Memory; sc_Stack : list Z; sc_Contract : Contract }.
Definition with_stack (st : list Z) (sc : ScopeContext) : ScopeContext := MkScope (sc_Memory sc) st (sc_Contract sc).
Definition with_memory (m : Memory) (sc : ScopeContext) : ScopeContext := MkScope m (sc_Stack sc) (sc_Contract sc).
Definition with_contract (c : Contract) (sc : ScopeContext) : ScopeContext := MkScope (sc_Memory sc) (sc_Stack sc) c.
Definition Back (n : nat) (st : list Z) : outcome Z :=
  match st !! n with Some x => Ret x | None => Crash "index out of range" end.

(** ** The environment and the machine *)

Record Rules := MkRules {
  IsHomestead : bool; IsEIP150 : bool; rules_IsEIP158 : bool; IsByzantium : bool; IsConstantinople : bool;
  rules_IsPetersburg : bool; IsIstanbul : bool; IsBerlin : bool; rules_IsLondon : bool; IsMerge : bool
}.

Record PrecompiledContract := MkPrecompiled { RequiredGas : bytes → Z; precompiled_Run : bytes → bytes * option error }.

Record Env := MkEnv {
  env_db : Backend;
  chainRules : Rules;
  precompile : Address → option PrecompiledContract;
  GetHash : Z → Hash;
  ctx_Coinbase : Address; ctx_GasLimit : Z; ctx_BlockNumber : Z; ctx_Time : Z; ctx_Difficulty : Z; ctx_BaseFee : option Z;
  ctx_Random : Hash;
  tx_Origin : Address; ctx_GasPrice : Z; ctx_ChainID : Z;
  EnablePreimageRecording : bool;
  abort : bool
}.

Record EVM := MkEVM {
  evm_StateDB : StateDB;
  depth : Z;
  callGasTemp : Z;
  readOnly : bool;
  returnData : bytes
}.
Definition with_db (s : StateDB) (w : EVM) : EVM := MkEVM s (depth w) (callGasTemp w) (readOnly w) (returnData w).
Definition with_callGas (g : Z) (w : EVM) : EVM := MkEVM (evm_StateDB w) (depth w) g (readOnly w) (returnData w).
Definition with_returnData (r : bytes) (w : EVM) : EVM := MkEVM (evm_StateDB w) (depth w) (callGasTemp w) (readOnly w) r.
Definition with_frame (d : Z) (ro : bool) (w : EVM) : EVM := MkEVM (evm_StateDB w) d (callGasTemp w) ro (returnData w).

(** A query of the state, and a change of it. *)
Definition ask {A} (f : StateDB → A * StateDB) (w : EVM) : A * EVM :=
  let '(a, s) := f (evm_StateDB w) in (a, with_db s w).
Definition change (f : StateDB → StateDB) (w : EVM) : EVM := with_db (f (evm_StateDB w)) w.
Definition change_or_panic (f : StateDB → result StateDB) (w : EVM) : outcome EVM :=
  s ← of_result (f (evm_StateDB w)); Ret (with_db s w).

(** ** Required memory (memory_table.go) *)

Definition mem2 (off len : nat) (st : list Z) : outcome (Z * bool) :=
  o ← Back off st; l ← Back len st; Ret (calcMemSize64 o l).
Definition mem_fixed (off : nat) (len : Z) (st : list Z) : outcome (Z * bool) :=
  o ← Back off st; Ret (calcMemSize64WithUint o len).
Definition mem_larger (f g : list Z → outcome (Z * bool)) (st : list Z) : outcome (Z * bool) :=
  '(x, overflow) ← f st;
  if overflow : bool then Ret (0, true)
  else
    '(y, overflow) ← g st;
    if overflow : bool then Ret (0, true) else Ret (if y <? x then (x, false) else (y, false)).
Definition memoryKeccak256 := mem2 0 1.
Definition memoryCallDataCopy := mem2 0 2.
Definition memoryReturnDataCopy := mem2 0 2.
Definition memoryCodeCopy := mem2 0 2.
Definition memoryExtCodeCopy := mem2 1 3.
Definition memoryMLoad := mem_fixed 0 32.
Definition memoryMStore8 := mem_fixed 0 1.
Definition memoryMStore := mem_fixed 0 32.
Definition memoryCreate := mem2 1 2.
Definition memoryCreate2 := mem2 1 2.
Definition memoryCall := mem_larger (mem2 5 6) (mem2 3 4).
Definition memoryDelegateCall := mem_larger (mem2 4 5) (mem2 2 3).
Definition memoryStaticCall := mem_larger (mem2 4 5) (mem2 2 3).
Definition memoryReturn := mem2 0 1.
Definition memoryRevert := mem2 0 1.
Definition memoryLog := mem2 0 1.

Definition memory_fun (m : memory_function) : list Z → outcome (Z * bool) :=
  match m with
  | MKeccak256 => memoryKeccak256 | MCallDataCopy => memoryCallDataCopy | MReturnDataCopy => memoryReturnDataCopy
  | MCodeCopy => memoryCodeCopy | MExtCodeCopy => memoryExtCodeCopy | MMLoad => memoryMLoad
  | MMStore8 => memoryMStore8 | MMStore => memoryMStore | MCreate => memoryCreate | MCreate2 => memoryCreate2
  | MCall => memoryCall | MDelegateCall => memoryDelegateCall | MStaticCall => memoryStaticCall
  | MReturn => memoryReturn | MRevert => memoryRevert | MLog => memoryLog
  end.

Section Machine.
Context `{Crypto} `{Uint256} (env : Env).
#[local] Notation db := (env_db env).
#[local] Notation rules := (chainRules env).

(** ** Gas (gas.go, gas_table.go, operations_acl.go) *)

(** A gas function returns the cost or an error, and may change the machine, the
    gas of the contract and the memory's record of what was paid for. *)
Record gas_result := MkGas { g_cost : Z; g_err : option vmError; g_evm : EVM; g_ctr : Contract; g_mem : Memory }.

Definition callGas (isEip150 : bool) (availableGas base callCost : Z) : Z * option vmError :=
  let last := if negb (IsUint64 callCost) then (0, Some ErrGasUintOverflow) else (Uint64 callCost, None) in
  if isEip150 then
    let availableGas := sub64 availableGas base in
    let gas := sub64 availableGas (availableGas / 64) in
    if negb (IsUint64 callCost) || (gas <? Uint64 callCost) then (gas, None) else last
  else last.

Definition memoryGasCost (m : Memory) (newMemSize : Z) : Z * option vmError * Memory :=
  if newMemSize =? 0 then (0, None, m)
  else if 0x1FFFFFFFE0 <? newMemSize then (0, Some ErrGasUintOverflow, m)
  else
    let newMemSizeWords := toWordSize newMemSize in
    let newMemSize := mul64 newMemSizeWords 32 in
    if mem_Len m <? newMemSize then
      let square := mul64 newMemSizeWords newMemSizeWords in
      let linCoef := mul64 newMemSizeWords MemoryGas in
      let quadCoef := square / QuadCoeffDiv in
      let newTotalFee := add64 linCoef quadCoef in
      (sub64 newTotalFee (lastGasCost m), None, MkMemory (store m) newTotalFee)
    else (0, None, m).

Definition gas_fail (e : vmError) (w : EVM) (c : Contract) (m : Memory) : outcome gas_result :=
  Ret (MkGas 0 (Some e) w c m).
Definition gas_ok (g : Z) (w : EVM) (c : Contract) (m : Memory) : outcome gas_result := Ret (MkGas g None w c m).

(** [gas, overflow = SafeAdd(gas, x)], with the early return. *)
Definition add_gas (g x : Z) (k : Z → outcome gas_result) (w : EVM) (c : Contract) (m : Memory) : outcome gas_result :=
  let '(g, overflow) := SafeAdd g x in
  if overflow : bool then gas_fail ErrGasUintOverflow w c m else k g.
(** Words of a size operand, times a price per word. *)
Definition word_gas (size price : Z) (k : Z → outcome gas_result) (w : EVM) (c : Contract) (m : Memory) : outcome gas_result :=
  let '(words, overflow) := Uint64WithOverflow size in
  if overflow : bool then gas_fail ErrGasUintOverflow w c m
  else
    let '(words, overflow) := SafeMul (toWordSize words) price in
    if overflow : bool then gas_fail ErrGasUintOverflow w c m else k words.
Definition memory_gas (memorySize : Z) (k : Z → Memory → outcome gas_result) (w : EVM) (c : Contract) (m : Memory)
  : outcome gas_result :=
  let '(g, err, m) := memoryGasCost m memorySize in
  match err with Some e => gas_fail e w c m | None => k g m end.

Definition memoryCopierGas (stackpos : nat) (w : EVM) (c : Contract) (st : list Z) (m : Memory) (ms : Z) : outcome gas_result :=
  memory_gas ms (λ g m,
    l ← Back stackpos st;
    word_gas l CopyGas (λ words, add_gas g words (λ g, gas_ok g w c m) w c m) w c m) w c m.
Definition pureMemoryGascost (w : EVM) (c : Contract) (st : list Z) (m : Memory) (ms : Z) : outcome gas_result :=
  memory_gas ms (λ g m, gas_ok g w c m) w c m.
Definition gasKeccak256 (w : EVM) (c : Contract) (st : list Z) (m : Memory) (ms : Z) : outcome gas_result :=
  memory_gas ms (λ g m,
    l ← Back 1 st;
    word_gas l Keccak256WordGas (λ wg, add_gas g wg (λ g, gas_ok g w c m) w c m) w c m) w c m.
Definition gasCreate2 (w : EVM) (c : Contract) (st : list Z) (m : Memory) (ms : Z) : outcome gas_result :=
  memory_gas ms (λ g m,
    l ← Back 2 st;
    word_gas l Keccak256WordGas (λ wg, add_gas g wg (λ g, gas_ok g w c m) w c m) w c m) w c m.
Definition makeGasLog (n : nat) (w : EVM) (c : Contract) (st : list Z) (m : Memory) (ms : Z) : outcome gas_result :=
  l ← Back 1 st;
  let '(requestedSize, overflow) := Uint64WithOverflow l in
  if overflow : bool then gas_fail ErrGasUintOverflow w c m
  else
    memory_gas ms (λ g m,
      add_gas g LogGas (λ g,
        add_gas g (mul64 (Z.of_nat n) LogTopicGas) (λ g,
          let '(msg, overflow) := SafeMul requestedSize LogDataGas in
          if overflow : bool then gas_fail ErrGasUintOverflow w c m
          else add_gas g msg (λ g, gas_ok g w c m) w c m) w c m) w c m) w c m.
Definition gasExp (price : Z) (w : EVM) (c : Contract) (st : list Z) (m : Memory) (ms : Z) : outcome gas_result :=
  e ← Back 1 st;
  let expByteLen := (BitLen e + 7) / 8 in
  add_gas (mul64 expByteLen price) ExpGas (λ g, gas_ok g w c m) w c m.
Definition gasExpFrontier := gasExp ExpByteFrontier.
Definition gasExpEIP158 := gasExp ExpByteEIP158.

(** SSTORE before Istanbul. *)
Definition gasSStore (w : EVM) (c : Contract) (st : list Z) (m : Memory) (ms : Z) : outcome gas_result :=
  y ← Back 1 st; x ← Back 0 st;
  let '(current, w) := ask (GetState db (ctr_self c) x) w in
  if rules_IsPetersburg rules || negb (IsConstantinople rules) then
    if (current =? 0) && negb (y =? 0) then gas_ok SstoreSetGas w c m
    else if negb (current =? 0) && (y =? 0) then gas_ok SstoreClearGas (change (AddRefund SstoreRefundGas) w) c m
    else gas_ok SstoreResetGas w c m
  else if current =? y then gas_ok NetSstoreNoopGas w c m
  else
    let '(original, w) := ask (StateDB_GetCommittedState db (ctr_self c) x) w in
    if original =? current then
      if original =? 0 then gas_ok NetSstoreInitGas w c m
      else gas_ok NetSstoreCleanGas (if y =? 0 then change (AddRefund NetSstoreClearRefund) w else w) c m
    else
      w ← (if negb (original =? 0) then
             if current =? 0 then change_or_panic (SubRefund NetSstoreClearRefund) w
             else Ret (if y =? 0 then change (AddRefund NetSstoreClearRefund) w else w)
           else Ret w);
      let w := if original =? y then
                 if original =? 0 then change (AddRefund NetSstoreResetClearRefund) w
                 else change (AddRefund NetSstoreResetRefund) w
               else w in
      gas_ok NetSstoreDirtyGas w c m.

(** The net metering of EIP-2200 and after: what a write costs and refunds, given
    the price of a cold slot, of a no-op, of a reset, and the refund for clearing. *)
Definition net_metered (cost noop reset clearing : Z) (w : EVM) (c : Contract) (x y current : Z) (m : Memory)
  : outcome gas_result :=
  if current =? y then gas_ok (add64 cost noop) w c m
  else
    let '(original, w) := ask (StateDB_GetCommittedState db (ctr_self c) x) w in
    if original =? current then
      if original =? 0 then gas_ok (add64 cost SstoreSetGasEIP2200) w c m
      else gas_ok (add64 cost reset) (if y =? 0 then change (AddRefund clearing) w else w) c m
    else
      w ← (if negb (original =? 0) then
             if current =? 0 then change_or_panic (SubRefund clearing) w
             else Ret (if y =? 0 then change (AddRefund clearing) w else w)
           else Ret w);
      let w := if original =? y then
                 if original =? 0 then change (AddRefund (SstoreSetGasEIP2200 - noop)) w
                 else change (AddRefund (reset - noop)) w
               else w in
      gas_ok (add64 cost noop) w c m.
Definition gasSStoreEIP2200 (w : EVM) (c : Contract) (st : list Z) (m : Memory) (ms : Z) : outcome gas_result :=
  if ctr_Gas c <=? SstoreSentryGasEIP2200 then gas_fail errSentry w c m
  else
    y ← Back 1 st; x ← Back 0 st;
    let '(current, w) := ask (GetState db (ctr_self c) x) w in
    net_metered 0 SloadGasEIP2200 SstoreResetGasEIP2200 SstoreClearsScheduleRefundEIP2200 w c x y current m.
Definition SlotInAccessList (a : Address) (k : Hash) (w : EVM) : outcome (bool * bool) :=
  of_result (al_Contains a k (access (evm_StateDB w))).
Definition AddressInAccessList (a : Address) (w : EVM) : bool := ContainsAddress a (access (evm_StateDB w)).
Definition makeGasSStoreFunc (clearingRefund : Z) (w : EVM) (c : Contract) (st : list Z) (m : Memory) (ms : Z)
  : outcome gas_result :=
  if ctr_Gas c <=? SstoreSentryGasEIP2200 then gas_fail errSentry w c m
  else
    y ← Back 1 st; x ← Back 0 st;
    let '(current, w) := ask (GetState db (ctr_self c) x) w in
    '(addrPresent, slotPresent) ← SlotInAccessList (ctr_self c) x w;
    '(cost, w) ← (if negb slotPresent then
                    w ← change_or_panic (AddSlotToAccessList (ctr_self c) x) w;
                    if negb addrPresent then
                      Crash "impossible case: address was not present in access list during sstore op"
                    else Ret (ColdSloadCostEIP2929, w)
                  else Ret (0, w));
    net_metered cost WarmStorageReadCostEIP2929 (SstoreResetGasEIP2200 - ColdSloadCostEIP2929) clearingRefund w c x y current m.
Definition gasSStoreEIP2929 := makeGasSStoreFunc SstoreClearsScheduleRefundEIP2200.
Definition gasSStoreEIP3529 := makeGasSStoreFunc SstoreClearsScheduleRefundEIP3529.

Definition gasSLoadEIP2929 (w : EVM) (c : Contract) (st : list Z) (m : Memory) (ms : Z) : outcome gas_result :=
  loc ← Back 0 st;
  '(_, slotPresent) ← SlotInAccessList (ctr_self c) loc w;
  if negb slotPresent then
    w ← change_or_panic (AddSlotToAccessList (ctr_self c) loc) w;
    gas_ok ColdSloadCostEIP2929 w c m
  else gas_ok WarmStorageReadCostEIP2929 w c m.
Definition gasExtCodeCopyEIP2929 (w : EVM) (c : Contract) (st : list Z) (m : Memory) (ms : Z) : outcome gas_result :=
  r ← memoryCopierGas 3 w c st m ms;
  match g_err r with
  | Some e => gas_fail e (g_evm r) (g_ctr r) (g_mem r)
  | None =>
      a ← Back 0 st;
      let w := g_evm r in
      if negb (AddressInAccessList (Bytes20 a) w) then
        let w := change (AddAddressToAccessList (Bytes20 a)) w in
        add_gas (g_cost r) (ColdAccountAccessCostEIP2929 - WarmStorageReadCostEIP2929)
          (λ g, gas_ok g w (g_ctr r) (g_mem r)) w (g_ctr r) (g_mem r)
      else gas_ok (g_cost r) w (g_ctr r) (g_mem r)
  end.
Definition gasEip2929AccountCheck (w : EVM) (c : Contract) (st : list Z) (m : Memory) (ms : Z) : outcome gas_result :=
  a ← Back 0 st;
  if negb (AddressInAccessList (Bytes20 a) w) then
    gas_ok (ColdAccountAccessCostEIP2929 - WarmStorageReadCostEIP2929) (change (AddAddressToAccessList (Bytes20 a)) w) c m
  else gas_ok 0 w c m.

(** The last steps of the call variants: the gas for the callee is set aside. *)
Definition set_aside (g : Z) (w : EVM) (c : Contract) (st : list Z) (m : Memory) : outcome gas_result :=
  cost ← Back 0 st;
  let '(temp, err) := callGas (IsEIP150 rules) (ctr_Gas c) g cost in
  let w := with_callGas temp w in
  match err with
  | Some e => gas_fail e w c m
  | None => add_gas g temp (λ g, gas_ok g w c m) w c m
  end.
Definition gasCall (w : EVM) (c : Contract) (st : list Z) (m : Memory) (ms : Z) : outcome gas_result :=
  v ← Back 2 st; a ← Back 1 st;
  let transfersValue := negb (IsZero v) in
  let address := Bytes20 a in
  let '(g, w) :=
    if rules_IsEIP158 rules then
      if transfersValue then
        let '(e, w) := ask (Empty db address) w in ((if e : bool then CallNewAccountGas else 0), w)
      else (0, w)
    else let '(e, w) := ask (Exist db address) w in ((if e : bool then 0 else CallNewAccountGas), w) in
  let g := if transfersValue then add64 g CallValueTransferGas else g in
  memory_gas ms (λ mg m, add_gas g mg (λ g, set_aside g w c st m) w c m) w c m.
Definition gasCallCode (w : EVM) (c : Contract) (st : list Z) (m : Memory) (ms : Z) : outcome gas_result :=
  memory_gas ms (λ mg m,
    v ← Back 2 st;
    let g := if negb (v =? 0) then CallValueTransferGas else 0 in
    add_gas g mg (λ g, set_aside g w c st m) w c m) w c m.
Definition gasDelegateCall (w : EVM) (c : Contract) (st : list Z) (m : Memory) (ms : Z) : outcome gas_result :=
  memory_gas ms (λ g m, set_aside g w c st m) w c m.
Definition gasStaticCall (w : EVM) (c : Contract) (st : list Z) (m : Memory) (ms : Z) : outcome gas_result :=
  memory_gas ms (λ g m, set_aside g w c st m) w c m.
Definition makeCallVariantGasCallEIP2929 (old : EVM → Contract → list Z → Memory → Z → outcome gas_result)
  (w : EVM) (c : Contract) (st : list Z) (m : Memory) (ms : Z) : outcome gas_result :=
  a ← Back 1 st;
  let addr := Bytes20 a in
  let warmAccess := AddressInAccessList addr w in
  let coldCost := ColdAccountAccessCostEIP2929 - WarmStorageReadCostEIP2929 in
  if warmAccess then old w c st m ms
  else
    let w := change (AddAddressToAccessList addr) w in
    let '(ok, c) := UseGas coldCost c in
    if negb ok then gas_fail ErrOutOfGas w c m
    else
      r ← old w c st m ms;
      match g_err r with
      | Some _ => Ret r
      | None =>
          Ret (MkGas (add64 (g_cost r) coldCost) None (g_evm r)
                 (with_Gas (add64 (ctr_Gas (g_ctr r)) coldCost) (g_ctr r)) (g_mem r))
      end.
Definition gasSelfdestruct (w : EVM) (c : Contract) (st : list Z) (m : Memory) (ms : Z) : outcome gas_result :=
  '(g, w) ← (if IsEIP150 rules then
               a ← Back 0 st;
               let address := Bytes20 a in
               if rules_IsEIP158 rules then
                 let '(e, w) := ask (Empty db address) w in
                 if e : bool then
                   let '(b, w) := ask (GetBalance db (ctr_self c)) w in
                   Ret ((if negb (b =? 0) then SelfdestructGasEIP150 + CreateBySelfdestructGas else SelfdestructGasEIP150), w)
                 else Ret (SelfdestructGasEIP150, w)
               else
                 let '(e, w) := ask (Exist db address) w in
                 Ret ((if e : bool then SelfdestructGasEIP150 else SelfdestructGasEIP150 + CreateBySelfdestructGas), w)
             else Ret (0, w));
  let '(dead, w) := ask (HasSuicided db (ctr_self c)) w in
  gas_ok g (if dead : bool then w else change (AddRefund SelfdestructRefundGas) w) c m.
Definition makeSelfdestructGasFn (refundsEnabled : bool) (w : EVM) (c : Contract) (st : list Z) (m : Memory) (ms : Z)
  : outcome gas_result :=
  a ← Back 0 st;
  let address := Bytes20 a in
  let '(g, w) := if negb (AddressInAccessList address w)
                 then (ColdAccountAccessCostEIP2929, change (AddAddressToAccessList address) w) else (0, w) in
  let '(e, w) := ask (Empty db address) w in
  let '(g, w) := if e : bool then
                   let '(b, w) := ask (GetBalance db (ctr_self c)) w in
                   ((if negb (b =? 0) then g + CreateBySelfdestructGas else g), w)
                 else (g, w) in
  let w := if refundsEnabled then
             let '(dead, w) := ask (HasSuicided db (ctr_self c)) w in
             if dead : bool then w else change (AddRefund SelfdestructRefundGas) w
           else w in
  gas_ok g w c m.

Definition gas_fun (g : gas_function) : EVM → Contract → list Z → Memory → Z → outcome gas_result :=
  match g with
  | GExpFrontier => gasExpFrontier | GExpEIP158 => gasExpEIP158 | GKeccak256 => gasKeccak256
  | GCopy n => memoryCopierGas n | GMemory => pureMemoryGascost | GSStore => gasSStore
  | GSStoreEIP2200 => gasSStoreEIP2200 | GLog n => makeGasLog n | GCreate2 => gasCreate2
  | GCall => gasCall | GCallCode => gasCallCode | GDelegateCall => gasDelegateCall | GStaticCall => gasStaticCall
  | GSelfdestruct => gasSelfdestruct | GSStoreEIP2929 => gasSStoreEIP2929 | GSStoreEIP3529 => gasSStoreEIP3529
  | GSLoadEIP2929 => gasSLoadEIP2929 | GExtCodeCopyEIP2929 => gasExtCodeCopyEIP2929
  | GAccountCheckEIP2929 => gasEip2929AccountCheck
  | GCallEIP2929 => makeCallVariantGasCallEIP2929 gasCall
  | GCallCodeEIP2929 => makeCallVariantGasCallEIP2929 gasCallCode
  | GDelegateCallEIP2929 => makeCallVariantGasCallEIP2929 gasDelegateCall
  | GStaticCallEIP2929 => makeCallVariantGasCallEIP2929 gasStaticCall
  | GSelfdestructEIP2929 => makeSelfdestructGasFn true | GSelfdestructEIP3529 => makeSelfdestructGasFn false
  end.

(** ** Instructions (instructions.go) *)

Record op_result := MkRes { r_pc : Z; r_scope : ScopeContext; r_evm : EVM; r_ret : bytes; r_err : option vmError }.
Definition opfun := Z → ScopeContext → EVM → outcome op_result.

Definition next (pc : Z) (sc : ScopeContext) (w : EVM) : outcome op_result := Ret (MkRes pc sc w [] None).
Definition fails (e : vmError) (pc : Z) (sc : ScopeContext) (w : EVM) : outcome op_result := Ret (MkRes pc sc w [] (Some e)).
Definition empty_stack {A} : outcome A := Crash "index out of range".

Definition pop_peek (f : Z → Z → Z) : opfun := λ pc sc w,
  match sc_Stack sc with x :: y :: st => next pc (with_stack (f x y :: st) sc) w | _ => empty_stack end.
Definition peek1 (f : Z → Z) : opfun := λ pc sc w,
  match sc_Stack sc with x :: st => next pc (with_stack (f x :: st) sc) w | _ => empty_stack end.
Definition push (x : Z) : opfun := λ pc sc w, next pc (with_stack (x :: sc_Stack sc) sc) w.

Definition opAdd := pop_peek (λ x y, u_Add x y).
Definition opSub := pop_peek (λ x y, u_Sub x y).
Definition opMul := pop_peek (λ x y, u_Mul x y).
Definition opDiv := pop_peek (λ x y, u_Div x y).
Definition opSdiv := pop_peek (λ x y, u_SDiv x y).
Definition opMod := pop_peek (λ x y, u_Mod x y).
Definition opSmod := pop_peek (λ x y, u_SMod x y).
Definition opExp := pop_peek (λ base exponent, u_Exp base exponent).
Definition opSignExtend := pop_peek (λ back num, u_ExtendSign num back).
Definition opNot := peek1 (λ x, u_Not x).
Definition opLt := pop_peek (λ x y, of_bool (x <? y)).
Definition opGt := pop_peek (λ x y, of_bool (y <? x)).
Definition opSlt := pop_peek (λ x y, of_bool (u_Slt x y)).
Definition opSgt := pop_peek (λ x y, of_bool (u_Sgt x y)).
Definition opEq := pop_peek (λ x y, of_bool (x =? y)).
Definition opIszero := peek1 (λ x, of_bool (IsZero x)).
Definition opAnd := pop_peek (λ x y, u_And x y).
Definition opOr := pop_peek (λ x y, u_Or x y).
Definition opXor := pop_peek (λ x y, u_Xor x y).
Definition opByte := pop_peek (λ th val, u_Byte val th).
Definition pop2_peek (f : Z → Z → Z → Z) : opfun := λ pc sc w,
  match sc_Stack sc with x :: y :: z :: st => next pc (with_stack (f x y z :: st) sc) w | _ => empty_stack end.
Definition opAddmod := pop2_peek (λ x y z, if IsZero z then 0 else u_AddMod x y z).
Definition opMulmod := pop2_peek (λ x y z, u_MulMod x y z).
Definition opSHL := pop_peek (λ shift value, if shift <? 256 then u_Lsh value (Uint64 shift) else 0).
Definition opSHR := pop_peek (λ shift value, if shift <? 256 then u_Rsh value (Uint64 shift) else 0).
Definition opSAR := pop_peek (λ shift value,
  if 256 <? shift then (if value <? 2 ^ 255 then 0 else two256 - 1) else u_SRsh value (Uint64 shift)).

Definition opKeccak256 : opfun := λ pc sc w,
  match sc_Stack sc with
  | offset :: size :: st =>
      data ← GetPtr (i64 (Uint64 offset)) (i64 (Uint64 size)) (sc_Memory sc);
      let h := keccak256 data in
      let w := if EnablePreimageRecording env then change (AddPreimage h data) w else w in
      next pc (with_stack (h :: st) sc) w
  | _ => empty_stack
  end.
Definition opAddress : opfun := λ pc sc w, push (ctr_self (sc_Contract sc)) pc sc w.
Definition opBalance : opfun := λ pc sc w,
  match sc_Stack sc with
  | slot :: st => let '(b, w) := ask (GetBalance db (Bytes20 slot)) w in next pc (with_stack (FromBig b :: st) sc) w
  | _ => empty_stack
  end.
Definition opOrigin := push (tx_Origin env).
Definition opCaller : opfun := λ pc sc w, push (CallerAddress (sc_Contract sc)) pc sc w.
Definition opCallValue : opfun := λ pc sc w, push (FromBig (ctr_value (sc_Contract sc))) pc sc w.
Definition opCallDataLoad : opfun := λ pc sc w,
  match sc_Stack sc with
  | x :: st =>
      let '(offset, overflow) := Uint64WithOverflow x in
      if negb overflow then
        data ← getData (ctr_Input (sc_Contract sc)) offset 32;
        next pc (with_stack (BytesToHash data :: st) sc) w
      else next pc (with_stack (0 :: st) sc) w
  | _ => empty_stack
  end.
Definition opCallDataSize : opfun := λ pc sc w, push (u64 (Z.of_nat (length (ctr_Input (sc_Contract sc))))) pc sc w.
(** CALLDATACOPY and CODECOPY. *)
Definition copy_from (data : ScopeContext → bytes) : opfun := λ pc sc w,
  match sc_Stack sc with
  | memOffset :: dataOffset :: len :: st =>
      let '(dataOffset64, overflow) := Uint64WithOverflow dataOffset in
      let dataOffset64 := if overflow : bool then 0xffffffffffffffff else dataOffset64 in
      d ← getData (data sc) dataOffset64 (Uint64 len);
      m ← mem_Set (Uint64 memOffset) (Uint64 len) d (sc_Memory sc);
      next pc (with_memory m (with_stack st sc)) w
  | _ => empty_stack
  end.
Definition opCallDataCopy := copy_from (λ sc, ctr_Input (sc_Contract sc)).
Definition opCodeCopy := copy_from (λ sc, ctr_Code (sc_Contract sc)).
Definition opReturnDataSize : opfun := λ pc sc w, push (u64 (Z.of_nat (length (returnData w)))) pc sc w.
Definition opReturnDataCopy : opfun := λ pc sc w,
  match sc_Stack sc with
  | memOffset :: dataOffset :: len :: st =>
      let '(offset64, overflow) := Uint64WithOverflow dataOffset in
      if overflow : bool then fails ErrReturnDataOutOfBounds pc (with_stack st sc) w
      else
        let '(end64, overflow) := Uint64WithOverflow (u_Add dataOffset len) in
        if overflow || (u64 (Z.of_nat (length (returnData w))) <? end64)
        then fails ErrReturnDataOutOfBounds pc (with_stack st sc) w
        else
          d ← slice (returnData w) offset64 end64;
          m ← mem_Set (Uint64 memOffset) (Uint64 len) d (sc_Memory sc);
          next pc (with_memory m (with_stack st sc)) w
  | _ => empty_stack
  end.
Definition opExtCodeSize : opfun := λ pc sc w,
  match sc_Stack sc with
  | slot :: st => let '(n, w) := ask (GetCodeSize db (Bytes20 slot)) w in next pc (with_stack (u64 n :: st) sc) w
  | _ => empty_stack
  end.
Definition opCodeSize : opfun := λ pc sc w, push (u64 (Z.of_nat (length (ctr_Code (sc_Contract sc))))) pc sc w.
Definition opExtCodeCopy : opfun := λ pc sc w,
  match sc_Stack sc with
  | a :: memOffset :: codeOffset :: len :: st =>
      let '(codeOffset64, overflow) := Uint64WithOverflow codeOffset in
      let codeOffset64 := if overflow : bool then 0xffffffffffffffff else codeOffset64 in
      let '(code, w) := ask (GetCode db (Bytes20 a)) w in
      d ← getData (default [] code) codeOffset64 (Uint64 len);
      m ← mem_Set (Uint64 memOffset) (Uint64 len) d (sc_Memory sc);
      next pc (with_memory m (with_stack st sc)) w
  | _ => empty_stack
  end.
Definition opExtCodeHash : opfun := λ pc sc w,
  match sc_Stack sc with
  | slot :: st =>
      let '(e, w) := ask (Empty db (Bytes20 slot)) w in
      if e : bool then next pc (with_stack (0 :: st) sc) w
      else let '(h, w) := ask (GetCodeHash db (Bytes20 slot)) w in next pc (with_stack (h :: st) sc) w
  | _ => empty_stack
  end.
Definition opGasprice := push (FromBig (ctx_GasPrice env)).
Definition opBlockhash : opfun := λ pc sc w,
  match sc_Stack sc with
  | num :: st =>
      let '(num64, overflow) := Uint64WithOverflow num in
      let h :=
        if overflow : bool then 0
        else
          let upper := big_Uint64 (ctx_BlockNumber env) in
          let lower := if upper <? 257 then 0 else upper - 256 in
          if (lower <=? num64) && (num64 <? upper) then GetHash env num64 else 0 in
      next pc (with_stack (h :: st) sc) w
  | _ => empty_stack
  end.
Definition opCoinbase := push (ctx_Coinbase env).
Definition opTimestamp := push (FromBig (ctx_Time env)).
Definition opNumber := push (FromBig (ctx_BlockNumber env)).
Definition opDifficulty := push (FromBig (ctx_Difficulty env)).
Definition opRandom := push (ctx_Random env).
Definition opGasLimit := push (ctx_GasLimit env).
Definition opChainID := push (FromBig (ctx_ChainID env)).
Definition opSelfBalance : opfun := λ pc sc w,
  let '(b, w) := ask (GetBalance db (ctr_self (sc_Contract sc))) w in push (FromBig b) pc sc w.
Definition opBaseFee : opfun := λ pc sc w, fee ← value_of (ctx_BaseFee env); push (FromBig fee) pc sc w.
Definition opPop : opfun := λ pc sc w,
  match sc_Stack sc with _ :: st => next pc (with_stack st sc) w | _ => empty_stack end.
Definition opMload : opfun := λ pc sc w,
  match sc_Stack sc with
  | v :: st =>
      d ← GetPtr (i64 (Uint64 v)) 32 (sc_Memory sc);
      next pc (with_stack (BytesToHash d :: st) sc) w
  | _ => empty_stack
  end.
Definition opMstore : opfun := λ pc sc w,
  match sc_Stack sc with
  | mStart :: val :: st =>
      m ← Set32 (Uint64 mStart) val (sc_Memory sc);
      next pc (with_memory m (with_stack st sc)) w
  | _ => empty_stack
  end.
Definition opMstore8 : opfun := λ pc sc w,
  match sc_Stack sc with
  | off :: val :: st =>
      let m := sc_Memory sc in
      if Uint64 off <? mem_Len m then
        next pc (with_memory (MkMemory (write_at (Z.to_nat (Uint64 off)) [z2b (Uint64 val)] (store m)) (lastGasCost m))
                   (with_stack st sc)) w
      else empty_stack
  | _ => empty_stack
  end.
Definition opSload : opfun := λ pc sc w,
  match sc_Stack sc with
  | loc :: st =>
      let '(v, w) := ask (GetState db (ctr_self (sc_Contract sc)) loc) w in next pc (with_stack (v :: st) sc) w
  | _ => empty_stack
  end.
Definition opSstore : opfun := λ pc sc w,
  if readOnly w then fails ErrWriteProtection pc sc w
  else
    match sc_Stack sc with
    | loc :: val :: st => next pc (with_stack st sc) (change (SetState db (ctr_self (sc_Contract sc)) loc val) w)
    | _ => empty_stack
    end.
Definition opJump : opfun := λ pc sc w,
  if abort env then fails errStopToken pc sc w
  else
    match sc_Stack sc with
    | pos :: st =>
        ok ← validJumpdest pos (sc_Contract sc);
        if negb ok then fails ErrInvalidJump pc (with_stack st sc) w
        else next (sub64 (Uint64 pos) 1) (with_stack st sc) w
    | _ => empty_stack
    end.
Definition opJumpi : opfun := λ pc sc w,
  if abort env then fails errStopToken pc sc w
  else
    match sc_Stack sc with
    | pos :: cond :: st =>
        if negb (IsZero cond) then
          ok ← validJumpdest pos (sc_Contract sc);
          if negb ok then fails ErrInvalidJump pc (with_stack st sc) w
          else next (sub64 (Uint64 pos) 1) (with_stack st sc) w
        else next pc (with_stack st sc) w
    | _ => empty_stack
    end.
Definition opJumpdest : opfun := λ pc sc w, next pc sc w.
Definition opPc : opfun := λ pc sc w, push pc pc sc w.
Definition opMsize : opfun := λ pc sc w, push (u64 (mem_Len (sc_Memory sc))) pc sc w.
Definition opGas : opfun := λ pc sc w, push (ctr_Gas (sc_Contract sc)) pc sc w.
Definition opPush1 : opfun := λ pc sc w,
  let code := ctr_Code (sc_Contract sc) in
  let pc := add64 pc 1 in
  if pc <? Z.of_nat (length code) then
    match code !! Z.to_nat pc with Some b => push (b2z b) pc sc w | None => empty_stack end
  else push 0 pc sc w.
Definition makePush (size : nat) : opfun := λ pc sc w,
  let code := ctr_Code (sc_Contract sc) in
  let codeLen := Z.of_nat (length code) in
  let startMin := if i64 (add64 pc 1) <? codeLen then i64 (add64 pc 1) else codeLen in
  let endMin := if startMin + Z.of_nat size <? codeLen then startMin + Z.of_nat size else codeLen in
  if startMin <? 0 then Crash "slice bounds out of range"
  else
    d ← slice code startMin endMin;
    push (BytesToHash (RightPadBytes d size)) (add64 pc (Z.of_nat size)) sc w.
Definition makeDup (n : nat) : opfun := λ pc sc w,
  x ← Back (n - 1) (sc_Stack sc); push x pc sc w.
(** The top is exchanged with the item [n] below it. *)
Definition makeSwap (n : nat) : opfun := λ pc sc w,
  match sc_Stack sc, sc_Stack sc !! n with
  | top :: st, Some x => next pc (with_stack (<[0%nat := x]> (<[n := top]> (top :: st))) sc) w
  | _, _ => empty_stack
  end.
Definition makeLog (size : nat) : opfun := λ pc sc w,
  if readOnly w then fails ErrWriteProtection pc sc w
  else
    match sc_Stack sc with
    | mStart :: mSize :: st =>
        if (length st <? size)%nat then empty_stack
        else
          d ← GetCopy (i64 (Uint64 mStart)) (i64 (Uint64 mSize)) (sc_Memory sc);
          let l := MkLog (ctr_self (sc_Contract sc)) (take size st) d 0 0 0 in
          next pc (with_stack (drop size st) sc) (change (AddLog l) w)
    | _ => empty_stack
    end.
Definition opReturn : opfun := λ pc sc w,
  match sc_Stack sc with
  | offset :: size :: st =>
      ret ← GetPtr (i64 (Uint64 offset)) (i64 (Uint64 size)) (sc_Memory sc);
      Ret (MkRes pc (with_stack st sc) w ret (Some errStopToken))
  | _ => empty_stack
  end.
Definition opRevert : opfun := λ pc sc w,
  match sc_Stack sc with
  | offset :: size :: st =>
      ret ← GetPtr (i64 (Uint64 offset)) (i64 (Uint64 size)) (sc_Memory sc);
      Ret (MkRes pc (with_stack st sc) (with_returnData ret w) ret (Some ErrExecutionReverted))
  | _ => empty_stack
  end.
Definition opUndefined : opfun := λ pc sc w,
  match ctr_Code (sc_Contract sc) !! Z.to_nat pc with
  | Some b => fails (ErrInvalidOpCode (b2z b)) pc sc w
  | None => empty_stack
  end.
Definition opStop : opfun := λ pc sc w, fails errStopToken pc sc w.
Definition opSelfdestruct : opfun := λ pc sc w,
  if readOnly w then fails ErrWriteProtection pc sc w
  else
    match sc_Stack sc with
    | beneficiary :: st =>
        let self := ctr_self (sc_Contract sc) in
        let '(balance, w) := ask (GetBalance db self) w in
        let w := change (StateDB_AddBalance db (Bytes20 beneficiary) balance) w in
        let '(_, w) := ask (Suicide db self) w in
        fails errStopToken pc (with_stack st sc) w
    | _ => empty_stack
    end.

(** ** Calls from code *)

(** What the machine offers to a running frame (evm.go, below). *)
Definition call_result := (bytes * Z * option vmError * EVM)%type.
Record Calls := MkCalls {
  c_Call : Address → Address → bytes → Z → Z → EVM → outcome call_result;
  c_CallCode : Address → Address → bytes → Z → Z → EVM → outcome call_result;
  c_DelegateCall : Contract → Address → bytes → Z → EVM → outcome call_result;
  c_StaticCall : Address → Address → bytes → Z → EVM → outcome call_result;
  c_Create : Address → bytes → Z → Z → EVM → outcome (bytes * Address * Z * option vmError * EVM);
  c_Create2 : Address → bytes → Z → Z → Z → EVM → outcome (bytes * Address * Z * option vmError * EVM)
}.

(** The end of the four call instructions: the flag is pushed, the returned bytes
    are copied, unspent gas is given back. *)
Definition finish_call (pc : Z) (sc : ScopeContext) (st : list Z) (retOffset retSize : Z) (r : call_result)
  : outcome op_result :=
  let '(ret, returnGas, err, w) := r in
  let sc := with_stack ((match err with None => 1 | Some _ => 0 end) :: st) sc in
  m ← (if bool_decide (err = None) || bool_decide (err = Some ErrExecutionReverted)
       then mem_Set (Uint64 retOffset) (Uint64 retSize) ret (sc_Memory sc) else Ret (sc_Memory sc));
  let c := sc_Contract sc in
  let sc := with_contract (with_Gas (add64 (ctr_Gas c) returnGas) c) (with_memory m sc) in
  Ret (MkRes pc sc (with_returnData ret w) ret None).
Definition memory_args (off size : Z) (sc : ScopeContext) : outcome bytes :=
  GetPtr (i64 (Uint64 off)) (i64 (Uint64 size)) (sc_Memory sc).

Definition opCall (calls : Calls) : opfun := λ pc sc w,
  match sc_Stack sc with
  | temp :: addr :: value :: inOffset :: inSize :: retOffset :: retSize :: st =>
      args ← memory_args inOffset inSize sc;
      if readOnly w && negb (IsZero value) then fails ErrWriteProtection pc (with_stack st sc) w
      else
        let gas := if negb (IsZero value) then add64 (callGasTemp w) CallStipend else callGasTemp w in
        r ← c_Call calls (ctr_self (sc_Contract sc)) (Bytes20 addr) args gas value w;
        finish_call pc sc st retOffset retSize r
  | _ => empty_stack
  end.
Definition opCallCode (calls : Calls) : opfun := λ pc sc w,
  match sc_Stack sc with
  | temp :: addr :: value :: inOffset :: inSize :: retOffset :: retSize :: st =>
      args ← memory_args inOffset inSize sc;
      let gas := if negb (IsZero value) then add64 (callGasTemp w) CallStipend else callGasTemp w in
      r ← c_CallCode calls (ctr_self (sc_Contract sc)) (Bytes20 addr) args gas value w;
      finish_call pc sc st retOffset retSize r
  | _ => empty_stack
  end.
Definition opDelegateCall (calls : Calls) : opfun := λ pc sc w,
  match sc_Stack sc with
  | temp :: addr :: inOffset :: inSize :: retOffset :: retSize :: st =>
      args ← memory_args inOffset inSize sc;
      r ← c_DelegateCall calls (sc_Contract sc) (Bytes20 addr) args (callGasTemp w) w;
      finish_call pc sc st retOffset retSize r
  | _ => empty_stack
  end.
Definition opStaticCall (calls : Calls) : opfun := λ pc sc w,
  match sc_Stack sc with
  | temp :: addr :: inOffset :: inSize :: retOffset :: retSize :: st =>
      args ← memory_args inOffset inSize sc;
      r ← c_StaticCall calls (ctr_self (sc_Contract sc)) (Bytes20 addr) args (callGasTemp w) w;
      finish_call pc sc st retOffset retSize r
  | _ => empty_stack
  end.

(** The end of the two create instructions. *)
Definition finish_create (pc : Z) (sc : ScopeContext) (st : list Z) (flag : option vmError → Address → Z)
  (r : bytes * Address * Z * option vmError * EVM) : outcome op_result :=
  let '(res, addr, returnGas, suberr, w) := r in
  let c := sc_Contract sc in
  let sc := with_contract (with_Gas (add64 (ctr_Gas c) returnGas) c) (with_stack (flag suberr addr :: st) sc) in
  if bool_decide (suberr = Some ErrExecutionReverted) then Ret (MkRes pc sc (with_returnData res w) res None)
  else Ret (MkRes pc sc (with_returnData [] w) [] None).
Definition opCreate (calls : Calls) : opfun := λ pc sc w,
  if readOnly w then fails ErrWriteProtection pc sc w
  else
    match sc_Stack sc with
    | value :: offset :: size :: st =>
        input ← GetCopy (i64 (Uint64 offset)) (i64 (Uint64 size)) (sc_Memory sc);
        let gas := ctr_Gas (sc_Contract sc) in
        let gas := if IsEIP150 rules then sub64 gas (gas / 64) else gas in
        let '(_, c) := UseGas gas (sc_Contract sc) in
        r ← c_Create calls (ctr_self c) input gas value w;
        finish_create pc (with_contract c sc) st
          (λ suberr addr,
             if IsHomestead rules && bool_decide (suberr = Some ErrCodeStoreOutOfGas) then 0
             else if negb (bool_decide (suberr = None)) && negb (bool_decide (suberr = Some ErrCodeStoreOutOfGas)) then 0
             else addr) r
    | _ => empty_stack
    end.
Definition opCreate2 (calls : Calls) : opfun := λ pc sc w,
  if readOnly w then fails ErrWriteProtection pc sc w
  else
    match sc_Stack sc with
    | endowment :: offset :: size :: salt :: st =>
        input ← GetCopy (i64 (Uint64 offset)) (i64 (Uint64 size)) (sc_Memory sc);
        let gas := ctr_Gas (sc_Contract sc) in
        let gas := sub64 gas (gas / 64) in
        let '(_, c) := UseGas gas (sc_Contract sc) in
        r ← c_Create2 calls (ctr_self c) input gas endowment salt w;
        finish_create pc (with_contract c sc) st
          (λ suberr addr, if negb (bool_decide (suberr = None)) then 0 else addr) r
    | _ => empty_stack
    end.

Definition exec_fun (calls : Calls) (x : execution) : opfun :=
  match x with
  | XStop => opStop | XAdd => opAdd | XMul => opMul | XSub => opSub | XDiv => opDiv | XSdiv => opSdiv | XMod => opMod
  | XSmod => opSmod | XAddmod => opAddmod | XMulmod => opMulmod | XExp => opExp | XSignExtend => opSignExtend
  | XLt => opLt | XGt => opGt | XSlt => opSlt | XSgt => opSgt | XEq => opEq | XIszero => opIszero | XAnd => opAnd
  | XOr => opOr | XXor => opXor | XNot => opNot | XByte => opByte | XSHL => opSHL | XSHR => opSHR | XSAR => opSAR
  | XKeccak256 => opKeccak256 | XAddress => opAddress | XBalance => opBalance | XOrigin => opOrigin
  | XCaller => opCaller | XCallValue => opCallValue | XCallDataLoad => opCallDataLoad | XCallDataSize => opCallDataSize
  | XCallDataCopy => opCallDataCopy | XCodeSize => opCodeSize | XCodeCopy => opCodeCopy | XGasprice => opGasprice
  | XExtCodeSize => opExtCodeSize | XExtCodeCopy => opExtCodeCopy | XReturnDataSize => opReturnDataSize
  | XReturnDataCopy => opReturnDataCopy | XExtCodeHash => opExtCodeHash | XBlockhash => opBlockhash
  | XCoinbase => opCoinbase | XTimestamp => opTimestamp | XNumber => opNumber | XDifficulty => opDifficulty
  | XRandom => opRandom | XGasLimit => opGasLimit | XChainID => opChainID | XSelfBalance => opSelfBalance
  | XBaseFee => opBaseFee | XPop => opPop | XMload => opMload | XMstore => opMstore | XMstore8 => opMstore8
  | XSload => opSload | XSstore => opSstore | XJump => opJump | XJumpi => opJumpi | XPc => opPc | XMsize => opMsize
  | XGas => opGas | XJumpdest => opJumpdest | XPush1 => opPush1 | XPush n => makePush n | XDup n => makeDup n
  | XSwap n => makeSwap n | XLog n => makeLog n | XCreate => opCreate calls | XCall => opCall calls
  | XCallCode => opCallCode calls | XReturn => opReturn | XDelegateCall => opDelegateCall calls
  | XCreate2 => opCreate2 calls | XStaticCall => opStaticCall calls | XRevert => opRevert
  | XSelfdestruct => opSelfdestruct | XUndefined => opUndefined
  end.

(** ** The interpreter (interpreter.go) *)

Definition jump_table : JumpTable :=
  if IsMerge rules then newMergeInstructionSet
  else if rules_IsLondon rules then newLondonInstructionSet
  else if IsBerlin rules then newBerlinInstructionSet
  else if IsIstanbul rules then newIstanbulInstructionSet
  else if IsConstantinople rules then newConstantinopleInstructionSet
  else if IsByzantium rules then newByzantiumInstructionSet
  else if rules_IsEIP158 rules then newSpuriousDragonInstructionSet
  else if IsEIP150 rules then newTangerineWhistleInstructionSet
  else if IsHomestead rules then newHomesteadInstructionSet
  else newFrontierInstructionSet.

(** What one round of the loop leads to: the next round, or the end of the frame
    with its result, error, remaining gas and machine. *)
Definition run_result := (bytes * option vmError * Z * EVM)%type.
Inductive round :=
| Continue (pc : Z) (sc : ScopeContext) (w : EVM)
| Finished (r : run_result).
Definition stop_with (e : vmError) (sc : ScopeContext) (w : EVM) : outcome round :=
  Ret (Finished ([], Some e, ctr_Gas (sc_Contract sc), w)).

(** The memory size an operation asks for, rounded up to words. *)
Definition needed_memory (o : operation) (st : list Z) : outcome (Z * bool) :=
  match memorySize o with
  | None => Ret (0, false)
  | Some f =>
      '(memSize, overflow) ← memory_fun f st;
      if overflow : bool then Ret (0, true) else Ret (SafeMul (toWordSize memSize) 32)
  end.
(** The gas part of a round; [inl] is the early return. *)
Definition charge (o : operation) (sc : ScopeContext) (w : EVM) : outcome (round + ScopeContext * EVM) :=
  let '(ok, c) := UseGas (constantGas o) (sc_Contract sc) in
  let sc := with_contract c sc in
  if negb ok then r ← stop_with ErrOutOfGas sc w; Ret (inl r)
  else
    match dynamicGas o with
    | None => Ret (inr (sc, w))
    | Some f =>
        '(ms, overflow) ← needed_memory o (sc_Stack sc);
        if overflow : bool then r ← stop_with ErrGasUintOverflow sc w; Ret (inl r)
        else
          g ← gas_fun f w c (sc_Stack sc) (sc_Memory sc) ms;
          let '(ok, c) := match g_err g with None => UseGas (g_cost g) (g_ctr g) | Some _ => (false, g_ctr g) end in
          let sc := with_contract c (with_memory (g_mem g) sc) in
          if negb ok then r ← stop_with ErrOutOfGas sc (g_evm g); Ret (inl r)
          else Ret (inr (with_memory (if 0 <? ms then Resize ms (g_mem g) else g_mem g) sc, g_evm g))
    end.
Definition step (calls : Calls) (pc : Z) (sc : ScopeContext) (w : EVM) : outcome round :=
  let o := jump_table (GetOp pc (sc_Contract sc)) in
  let sLen := Z.of_nat (length (sc_Stack sc)) in
  if sLen <? op_minStack o then stop_with (ErrStackUnderflow sLen (op_minStack o)) sc w
  else if op_maxStack o <? sLen then stop_with (ErrStackOverflow sLen (op_maxStack o)) sc w
  else
    charged ← charge o sc w;
    match charged with
    | inl r => Ret r
    | inr (sc, w) =>
        r ← exec_fun calls (execute o) pc sc w;
        match r_err r with
        | None => Ret (Continue (add64 (r_pc r) 1) (r_scope r) (r_evm r))
        | Some e =>
            Ret (Finished (r_ret r, (if bool_decide (e = errStopToken) then None else Some e),
                           ctr_Gas (sc_Contract (r_scope r)), r_evm r))
        end
    end.

(** ** Running contracts (evm.go) *)

(** [Run] around the loop. *)
Definition Run_frame (loop : Z → ScopeContext → EVM → outcome run_result) (c : Contract) (input : bytes)
  (ro : bool) (w : EVM) : outcome run_result :=
  let d := depth w in
  let was := readOnly w in
  let w := with_returnData [] (with_frame (d + 1) (was || ro) w) in
  if (length (ctr_Code c) =? 0)%nat then Ret ([], None, ctr_Gas c, with_frame d was w)
  else
    '(ret, err, gas, w) ← loop 0 (MkScope NewMemory [] (with_Input input c)) w;
    Ret (ret, err, gas, with_frame d was w).

Section Frames.
Context (run : Contract → bytes → bool → EVM → outcome run_result).

Definition CanTransfer (a : Address) (amount : Z) (w : EVM) : bool * EVM :=
  let '(b, w) := ask (GetBalance db a) w in (amount <=? b, w).
Definition Transfer (sender recipient : Address) (amount : Z) (w : EVM) : EVM :=
  change (StateDB_AddBalance db recipient amount) (change (SubBalance db sender amount) w).
Definition RunPrecompiledContract (p : PrecompiledContract) (input : bytes) (suppliedGas : Z) : bytes * Z * option vmError :=
  let gasCost := RequiredGas p input in
  if suppliedGas <? gasCost then ([], 0, Some ErrOutOfGas)
  else let '(out, err) := precompiled_Run p input in (out, sub64 suppliedGas gasCost, ErrPrecompile <$> err).

(** After a failed call the state goes back to the snapshot; only a revert keeps
    the gas. *)
Definition settle (snapshot : Z) (r : call_result) : outcome call_result :=
  let '(ret, gas, err, w) := r in
  match err with
  | None => Ret (ret, gas, err, w)
  | Some e =>
      w ← change_or_panic (RevertToSnapshot db snapshot) w;
      Ret (ret, (if bool_decide (e = ErrExecutionReverted) then gas else 0), err, w)
  end.
Definition evm_Snapshot (w : EVM) : Z * EVM := ask StateDB_Snapshot w.
(** Code run for a call, or the precompiled contract at the address. *)
Definition run_code (addr : Address) (c : Contract) (input : bytes) (gas : Z) (ro : bool) (w : EVM) : outcome call_result :=
  match precompile env addr with
  | Some p => let '(ret, gas, err) := RunPrecompiledContract p input gas in Ret (ret, gas, err, w)
  | None =>
      let '(_, w) := ask (GetCodeHash db addr) w in
      let '(code, w) := ask (GetCode db addr) w in
      '(ret, err, gas, w) ← run (SetCallCode (default [] code) c) input ro w;
      Ret (ret, gas, err, w)
  end.

Definition evm_Call (caller addr : Address) (input : bytes) (gas value : Z) (w : EVM) : outcome call_result :=
  if CallCreateDepth <? depth w then Ret ([], gas, Some ErrDepth, w)
  else
    let '(can, w) := if negb (value =? 0) then CanTransfer caller value w else (true, w) in
    if negb can then Ret ([], gas, Some ErrInsufficientBalance, w)
    else
      let '(snapshot, w) := evm_Snapshot w in
      let '(ex, w) := ask (Exist db addr) w in
      if negb ex && bool_decide (precompile env addr = None) && rules_IsEIP158 rules && (value =? 0)
      then Ret ([], gas, None, w)
      else
        let w := if negb ex then change (CreateAccount db addr) w else w in
        let w := Transfer caller addr value w in
        r ← match precompile env addr with
            | Some p => let '(ret, gas, err) := RunPrecompiledContract p input gas in Ret (ret, gas, err, w)
            | None =>
                let '(code, w) := ask (GetCode db addr) w in
                if (length (default [] code) =? 0)%nat then Ret ([], gas, None, w)
                else
                  let '(_, w) := ask (GetCodeHash db addr) w in
                  '(ret, err, gas, w) ← run (SetCallCode (default [] code) (NewContract caller addr value gas)) input false w;
                  Ret (ret, gas, err, w)
            end;
        settle snapshot r.
Definition evm_CallCode (caller addr : Address) (input : bytes) (gas value : Z) (w : EVM) : outcome call_result :=
  if CallCreateDepth <? depth w then Ret ([], gas, Some ErrDepth, w)
  else
    let '(can, w) := CanTransfer caller value w in
    if negb can then Ret ([], gas, Some ErrInsufficientBalance, w)
    else
      let '(snapshot, w) := evm_Snapshot w in
      r ← run_code addr (NewContract caller caller value gas) input gas false w;
      settle snapshot r.
Definition evm_DelegateCall (caller : Contract) (addr : Address) (input : bytes) (gas : Z) (w : EVM) : outcome call_result :=
  if CallCreateDepth <? depth w then Ret ([], gas, Some ErrDepth, w)
  else
    let '(snapshot, w) := evm_Snapshot w in
    r ← run_code addr (AsDelegate caller (NewContract (ctr_self caller) (ctr_self caller) 0 gas)) input gas false w;
    settle snapshot r.
Definition evm_StaticCall (caller addr : Address) (input : bytes) (gas : Z) (w : EVM) : outcome call_result :=
  if CallCreateDepth <? depth w then Ret ([], gas, Some ErrDepth, w)
  else
    let '(snapshot, w) := evm_Snapshot w in
    let w := change (StateDB_AddBalance db addr 0) w in
    r ← run_code addr (NewContract caller addr 0 gas) input gas true w;
    settle snapshot r.

(** The checks and the gas for the code a creation returned, which is then stored. *)
Definition store_code (address : Address) (r : run_result) : run_result :=
  let '(ret, err, gas, w) := r in
  match err with
  | Some _ => r
  | None =>
      if rules_IsEIP158 rules && (MaxCodeSize <? Z.of_nat (length ret)) then (ret, Some ErrMaxCodeSizeExceeded, gas, w)
      else if (match ret with b :: _ => b2z b =? 0xEF | [] => false end) && rules_IsLondon rules
      then (ret, Some ErrInvalidCode, gas, w)
      else
        let createDataGas := mul64 (Z.of_nat (length ret)) CreateDataGas in
        if gas <? createDataGas then (ret, Some ErrCodeStoreOutOfGas, gas, w)
        else (ret, None, sub64 gas createDataGas, change (SetCode db address ret) w)
  end.
Definition evm_create (caller : Address) (code : bytes) (gas value : Z) (address : Address) (w : EVM)
  : outcome (bytes * Address * Z * option vmError * EVM) :=
  if CallCreateDepth <? depth w then Ret ([], 0, gas, Some ErrDepth, w)
  else
    let '(can, w) := CanTransfer caller value w in
    if negb can then Ret ([], 0, gas, Some ErrInsufficientBalance, w)
    else
      let '(nonce, w) := ask (GetNonce db caller) w in
      if add64 nonce 1 <? nonce then Ret ([], 0, gas, Some ErrNonceUintOverflow, w)
      else
        let w := change (SetNonce db caller (add64 nonce 1)) w in
        let w := if IsBerlin rules then change (AddAddressToAccessList address) w else w in
        let '(contractHash, w) := ask (GetCodeHash db address) w in
        let '(n, w) := ask (GetNonce db address) w in
        if negb (n =? 0) || (negb (contractHash =? 0) && negb (contractHash =? emptyCodeHash))
        then Ret ([], 0, 0, Some ErrContractAddressCollision, w)
        else
          let '(snapshot, w) := evm_Snapshot w in
          let w := change (CreateAccount db address) w in
          let w := if rules_IsEIP158 rules then change (SetNonce db address 1) w else w in
          let w := Transfer caller address value w in
          r ← run (SetCallCode code (NewContract caller address value gas)) [] false w;
          let '(ret, err, gas, w) := store_code address r in
          match err with
          | None => Ret (ret, address, gas, err, w)
          | Some e =>
              if IsHomestead rules || negb (bool_decide (e = ErrCodeStoreOutOfGas)) then
                w ← change_or_panic (RevertToSnapshot db snapshot) w;
                Ret (ret, address, (if bool_decide (e = ErrExecutionReverted) then gas else 0), err, w)
              else Ret (ret, address, gas, err, w)
          end.
Definition CreateAddress (b : Address) (nonce : Z) : Address :=
  keccak256 (encode (Lst [Str (address_bytes b); Str (big_Bytes nonce)])) mod 2 ^ 160.
Definition CreateAddress2 (b : Address) (salt : Z) (inithash : Hash) : Address :=
  keccak256 ([Byte.xff] ++ address_bytes b ++ hash_bytes salt ++ hash_bytes inithash) mod 2 ^ 160.
Definition evm_Create (caller : Address) (code : bytes) (gas value : Z) (w : EVM) :=
  let '(nonce, w) := ask (GetNonce db caller) w in
  evm_create caller code gas value (CreateAddress caller nonce) w.
Definition evm_Create2 (caller : Address) (code : bytes) (gas endowment salt : Z) (w : EVM) :=
  evm_create caller code gas endowment (CreateAddress2 caller salt (keccak256 code)) w.

Definition calls_of : Calls :=
  MkCalls evm_Call evm_CallCode evm_DelegateCall evm_StaticCall evm_Create evm_Create2.
End Frames.

(** The loop of [Run]; a call made by the code runs its own loop. *)
Fixpoint run_loop (fuel : nat) (pc : Z) (sc : ScopeContext) (w : EVM) : outcome run_result :=
  match fuel with
  | O => NoFuel
  | S fuel =>
      r ← step (calls_of (Run_frame (run_loop fuel))) pc sc w;
      match r with
      | Continue pc sc w => run_loop fuel pc sc w
      | Finished r => Ret r
      end
  end.
Definition Run (fuel : nat) : Contract → bytes → bool → EVM → outcome run_result := Run_frame (run_loop fuel).

(** The calls a transaction makes. *)
Definition Call (fuel : nat) := evm_Call (Run fuel).
Definition Create (fuel : nat) := evm_Create (Run fuel).
End Machine.
