(* ===== verification/EvmGas.v ===== *)
(** * Gas bounds every run of the virtual machine

    Each round of the interpreter that does not end the frame costs at least one
    unit of gas, and what a call or a creation hands to its callee was charged
    before. So a run ends after at most as many rounds as it has gas, nested runs
    included, and never gives back more gas than it was given. *)

From S2P Require Import Prelude Bytes Rlp Types Params Text StateDB EvmAnalysis EvmTable Evm.

(** ** Outcomes that satisfy a postcondition; a panic ends the run *)

Definition post {A} (P : A → Prop) (m : outcome A) : Prop :=
  match m with Ret a => P a | Crash _ => True | NoFuel => False end.

Lemma post_bind {A B} (P : B → Prop) (f : A → outcome B) m : post (λ a, post P (f a)) m → post P (m ≫= f).
Proof. by destruct m. Qed.
Lemma post_mono {A} (P Q : A → Prop) m : post P m → (∀ a, P a → Q a) → post Q m.
Proof. destruct m; simpl; auto. Qed.
Lemma post_of_result {A} (r : result A) : post (λ _, True) (of_result r).
Proof. by destruct r. Qed.
Lemma post_Back n st : post (λ x, st !! n = Some x) (Back n st).
Proof. unfold Back. by destruct (st !! n). Qed.
Lemma post_change f w : post (λ w', ∃ s, w' = with_db s w) (change_or_panic f w).
Proof. unfold change_or_panic. destruct (f _); simpl; eauto. Qed.
Lemma post_slice d a b : post (λ _, True) (slice d a b).
Proof. unfold slice. by destruct (_ || _). Qed.

Create HintDb evm discriminated.
#[export] Hint Resolve post_of_result post_Back post_slice : evm.

(** One step of a goal [post P m]. *)
Ltac post_step :=
  match goal with
  | |- post _ (_ ≫= _) => apply post_bind
  | |- post _ (Back _ _) => eapply post_mono; [apply post_Back|intros ? ?; cbv beta]
  | |- post _ (of_result _) => eapply post_mono; [apply post_of_result|intros ? ?; cbv beta]
  | |- post _ (slice _ _ _) => eapply post_mono; [apply post_slice|intros ? ?; cbv beta]
  | |- post _ (change_or_panic _ _) => eapply post_mono; [apply post_change|intros ? [? ->]; cbv beta]
  | |- post _ (let '(_, _) := ?x in _) => destruct x eqn:?
  | |- post _ (if ?b then _ else _) => destruct b eqn:?
  | |- post _ (match ?x with _ => _ end) => destruct x eqn:?
  | |- post _ (Crash _) => exact I
  | |- post _ (Ret _) => cbn [post]
  end.

(** ** Memory *)

(** The fee for a memory of [w] words. *)
Definition fee (w : Z) : Z := w * MemoryGas + w * w / QuadCoeffDiv.

(** The memory is made of whole words, all of them paid for. *)
Definition mem_ok (m : Memory) : Prop := ∃ w, 0 ≤ w ≤ 2 ^ 32 ∧ mem_Len m = w * 32 ∧ lastGasCost m = fee w.

Lemma NewMemory_ok : mem_ok NewMemory.
Proof. exists 0. done. Qed.

Lemma fee_mono v w : 0 ≤ v ≤ w → fee v ≤ fee w.
Proof. unfold fee, MemoryGas, QuadCoeffDiv. intros. assert (v * v ≤ w * w) by nia. dlia. Qed.
Lemma fee_max w : 0 ≤ w ≤ 2 ^ 32 → 0 ≤ fee w < 2 ^ 56.
Proof.
  intros Hw. unfold fee, MemoryGas, QuadCoeffDiv. assert (0 ≤ w * w ≤ 2 ^ 32 * 2 ^ 32) by nia. dlia.
Qed.

(** The memory after [memoryGasCost] recorded the fee, before it is resized. *)
Definition paid (m : Memory) (w : Z) : Memory :=
  if mem_Len m <? w * 32 then MkMemory (store m) (fee w) else m.

Lemma memoryGasCost_words m w : 0 ≤ w → mem_ok m →
  (2 ^ 32 - 1 < w ∧ (memoryGasCost m (w * 32)).1.2 = Some ErrGasUintOverflow ∨ 0 ≤ w ≤ 2 ^ 32 - 1 ∧
  memoryGasCost m (w * 32) = (if mem_Len m <? w * 32 then fee w - lastGasCost m else 0, None, paid m w)) .
Proof.
  intros Hw (v & Hv & Hl & Hc). unfold memoryGasCost, paid. destruct (w * 32 =? 0) eqn:E0; bprop.
  { right. split; [lia|]. rewrite (proj2 (Z.ltb_ge _ _)) by lia. done. }
  destruct (_ <? w * 32) eqn:Em; bprop; [left; split; [lia|done]|]. right. split; [lia|].
  assert (toWordSize (w * 32) = w) as ->.
  { unfold toWordSize, two64. rewrite (proj2 (Z.ltb_ge _ _)) by lia. dlia. }
  rewrite (mul64_small w 32) by (unfold is_u64, two64; lia). destruct (mem_Len m <? w * 32) eqn:El; bprop; [|done].
  assert (w * w ≤ (2 ^ 32 - 1) * (2 ^ 32 - 1)) by nia.
  rewrite (mul64_small w w) by (unfold is_u64, two64; nia).
  rewrite (mul64_small w MemoryGas) by (unfold is_u64, two64, MemoryGas; lia).
  pose proof (fee_max w ltac:(lia)) as Hf. unfold fee in Hf.
  rewrite (add64_small (w * MemoryGas)) by (unfold is_u64, two64; lia). fold (fee w). fold (fee w) in Hf.
  pose proof (fee_mono v w ltac:(lia)). pose proof (fee_max v Hv).
  rewrite sub64_small by (unfold is_u64, two64; lia). done.
Qed.

Lemma Resize_paid m w : 0 ≤ w ≤ 2 ^ 32 → mem_ok m → mem_ok (Resize (w * 32) (paid m w)).
Proof.
  intros Hw (v & Hv & Hl & Hc). unfold paid, Resize. destruct (mem_Len m <? w * 32) eqn:El; bprop.
  - unfold mem_Len in *. simpl. rewrite (proj2 (Z.ltb_lt _ _)) by lia. exists w.
    unfold mem_Len. simpl. rewrite length_app, length_replicate. split_and!; [lia..|done].
  - rewrite (proj2 (Z.ltb_ge _ _)) by lia. exists v. done.
Qed.
Lemma Resize_len m w : mem_Len (Resize w (paid m (w / 32))) = Z.max w (mem_Len m).
Proof.
  assert (E : mem_Len (paid m (w / 32)) = mem_Len m) by (unfold paid; by destruct (_ <? _)).
  unfold Resize. rewrite E. destruct (mem_Len m <? w) eqn:El; bprop; [|lia]. unfold mem_Len in *. simpl.
  rewrite length_app, length_replicate. lia.
Qed.

Lemma write_at_length off d s : (off + length d ≤ length s)%nat → length (write_at off d s) = length s.
Proof. intros. unfold write_at. rewrite !length_app, length_take, length_drop. lia. Qed.
Lemma mem_ok_store m s' : length s' = length (store m) → mem_ok m → mem_ok (MkMemory s' (lastGasCost m)).
Proof. intros E (w & ?). exists w. unfold mem_Len in *. simpl. by rewrite E. Qed.

Lemma post_mem_Set off size v m : is_u64 off → is_u64 size → mem_ok m → post mem_ok (mem_Set off size v m).
Proof.
  unfold is_u64. intros Ho Hs Hm. unfold mem_Set. repeat post_step; try done. bprop.
  apply mem_ok_store; [|done]. apply write_at_length. rewrite length_take. unfold mem_Len, add64, u64, two64 in *. dlia.
Qed.
Lemma hash_bytes_length h : length (hash_bytes h) = 32%nat.
Proof. apply length_to_be. Qed.
Lemma post_Set32 off v m : is_u64 off → mem_ok m → post mem_ok (Set32 off v m).
Proof.
  unfold is_u64. intros Ho Hm. unfold Set32. repeat post_step. bprop. apply mem_ok_store; [|done].
  apply write_at_length. rewrite hash_bytes_length. unfold mem_Len, add64, u64, two64 in *. dlia.
Qed.
Lemma post_GetPtr off size m : post (λ _, True) (GetPtr off size m).
Proof. unfold GetPtr. by repeat post_step. Qed.
Lemma post_GetCopy off size m : post (λ _, True) (GetCopy off size m).
Proof. unfold GetCopy. by repeat post_step. Qed.
Lemma post_getData d a b : post (λ _, True) (getData d a b).
Proof. unfold getData. by repeat post_step. Qed.

(** ** The memory an operation asks for *)

Lemma calcMemSize64_nonneg off l : 0 ≤ (calcMemSize64 off l).1.
Proof.
  unfold calcMemSize64, calcMemSize64WithUint, Uint64WithOverflow. destruct (IsUint64 l), (Uint64 l =? 0), (IsUint64 off);
    simpl; try lia; apply u64_bound.
Qed.
Lemma calcMemSize64WithUint_nonneg off l : 0 ≤ (calcMemSize64WithUint off l).1.
Proof.
  unfold calcMemSize64WithUint, Uint64WithOverflow. destruct (l =? 0), (IsUint64 off); simpl; try lia; apply u64_bound.
Qed.
Lemma post_mem2 i j st : post (λ r, 0 ≤ r.1) (mem2 i j st).
Proof. unfold mem2. repeat post_step. apply calcMemSize64_nonneg. Qed.
Lemma post_mem_fixed i l st : post (λ r, 0 ≤ r.1) (mem_fixed i l st).
Proof. unfold mem_fixed. repeat post_step. apply calcMemSize64WithUint_nonneg. Qed.
Lemma post_mem_larger f g st : post (λ r, 0 ≤ r.1) (f st) → post (λ r, 0 ≤ r.1) (g st) →
  post (λ r, 0 ≤ r.1) (mem_larger f g st).
Proof.
  intros Hf Hg. unfold mem_larger. apply post_bind. eapply post_mono; [exact Hf|]. intros [x []] Hx; [done|].
  apply post_bind. eapply post_mono; [exact Hg|]. intros [y []] Hy; [done|]. by destruct (y <? x).
Qed.
Lemma post_memory_fun f st : post (λ r, 0 ≤ r.1) (memory_fun f st).
Proof. destruct f; first [apply post_mem2|apply post_mem_fixed|apply post_mem_larger; apply post_mem2]. Qed.
Lemma toWordSize_nonneg n : 0 ≤ n → 0 ≤ toWordSize n.
Proof. intros. unfold toWordSize, two64. destruct (_ <? _); dlia. Qed.
Lemma post_needed_memory o st :
  post (λ r, r.2 = false → ∃ w, 0 ≤ w ∧ r.1 = w * 32 ∧ (memorySize o = None → w = 0)) (needed_memory o st).
Proof.
  unfold needed_memory. destruct (memorySize o) as [f|]; [|cbn; intros _; by exists 0].
  apply post_bind. eapply post_mono; [apply post_memory_fun|]. intros [n []] Hn; [done|]. cbn. intros E. bprop.
  exists (toWordSize n). pose proof (toWordSize_nonneg n Hn). split_and!; [done| |done].
  apply mul64_small. unfold is_u64. lia.
Qed.

(** ** What a gas function promises *)

Definition value_call (g : gas_function) : bool :=
  match g with GCall | GCallEIP2929 | GCallCode | GCallCodeEIP2929 => true | _ => false end.
Definition plain_call (g : gas_function) : bool :=
  match g with GDelegateCall | GDelegateCallEIP2929 | GStaticCall | GStaticCallEIP2929 => true | _ => false end.
Definition cold_call (g : gas_function) : bool :=
  match g with GCallEIP2929 | GCallCodeEIP2929 | GDelegateCallEIP2929 | GStaticCallEIP2929 => true | _ => false end.
(** Functions with a positive cost. *)
Definition costly (g : gas_function) : bool :=
  match g with
  | GExpFrontier | GExpEIP158 | GLog _ | GSStore | GSStoreEIP2200 | GSStoreEIP2929 | GSStoreEIP3529 | GSLoadEIP2929 => true
  | _ => false
  end.
(** Functions that do not look at the memory size. *)
Definition no_memory (g : gas_function) : bool :=
  match g with
  | GExpFrontier | GExpEIP158 | GSStore | GSStoreEIP2200 | GSStoreEIP2929 | GSStoreEIP3529 | GSLoadEIP2929
  | GAccountCheckEIP2929 | GSelfdestruct | GSelfdestructEIP2929 | GSelfdestructEIP3529 => true
  | _ => false
  end.

(** What a call that carries value hands to its callee for free. *)
Definition stipend (v : Z) : Z := if IsZero v then 0 else CallStipend.
Definition stipend_of (st : list Z) : Z := match st !! 2%nat with Some v => stipend v | None => 0 end.

(** The cost of an operation covers the gas set aside for its callee. *)
Definition covers (g : gas_function) (st : list Z) (w : EVM) (cost : Z) : Prop :=
  if value_call g then 0 ≤ callGasTemp w ∧ callGasTemp w + stipend_of st ≤ cost
  else if plain_call g then 0 ≤ callGasTemp w ≤ cost
  else if costly g then 1 ≤ cost else 0 ≤ cost.

Record fine (g : gas_function) (st : list Z) (c : Contract) (m : Memory) (r : gas_result) : Prop := {
  fine_gas : 0 ≤ ctr_Gas (g_ctr r) ≤ ctr_Gas c;
  fine_ok : g_err r = None → ctr_Gas (g_ctr r) = ctr_Gas c ∧ g_mem r = m ∧ covers g st (g_evm r) (g_cost r)
}.

Section GasFunctions.
Context `{Crypto} `{Uint256} (env : Env).
#[local] Notation rules := (chainRules env).

Lemma fine_fail g st c m' e w c' m : 0 ≤ ctr_Gas c' ≤ ctr_Gas c → post (fine g st c m') (gas_fail e w c' m).
Proof. intros. by split. Qed.
Lemma fine_done g st c m' x w : 0 ≤ ctr_Gas c → covers g st w x → post (fine g st c m') (gas_ok x w c m').
Proof. intros. split; simpl; [lia|done]. Qed.
Lemma post_memory_gas g st c m' m ms w k v : 0 ≤ ctr_Gas c → mem_ok m → 0 ≤ v → ms = v * 32 →
  (∀ x, 0 ≤ v ≤ 2 ^ 32 → 0 ≤ x < 2 ^ 56 → post (fine g st c m') (k x (paid m v))) →
  post (fine g st c m') (memory_gas ms k w c m).
Proof.
  intros Hc Hm Hv -> Hk. unfold memory_gas. pose proof Hm as (u & Hu & Hl & Hf).
  destruct (memoryGasCost_words m v Hv Hm) as [[Hb E]|[Hb ->]].
  - destruct (memoryGasCost m (v * 32)) as [[x e] m1]. simpl in E. subst e. apply fine_fail. lia.
  - apply Hk; [lia|]. pose proof (fee_max u Hu). pose proof (fee_max v ltac:(lia)).
    destruct (mem_Len m <? v * 32) eqn:El; bprop; [|lia]. pose proof (fee_mono u v ltac:(lia)). lia.
Qed.
Lemma post_add_gas g st c c' m' m a b w k : 0 ≤ ctr_Gas c' ≤ ctr_Gas c → 0 ≤ a + b →
  (a + b < two64 → post (fine g st c m') (k (a + b))) → post (fine g st c m') (add_gas a b k w c' m).
Proof.
  intros Hc Hab Hk. unfold add_gas, SafeAdd. destruct (a + b <? two64) eqn:E; bprop; cbn [negb]; [|by apply fine_fail].
  rewrite add64_small by (unfold is_u64; lia). by apply Hk.
Qed.
Lemma post_word_gas g st c m' m size price w k : 0 ≤ ctr_Gas c → 0 ≤ price →
  (∀ x, 0 ≤ x → post (fine g st c m') (k x)) → post (fine g st c m') (word_gas size price k w c m).
Proof.
  intros Hc Hp Hk. unfold word_gas, Uint64WithOverflow. destruct (negb (IsUint64 size)); [apply fine_fail; lia|].
  unfold SafeMul. destruct (negb _); [apply fine_fail; lia|]. apply Hk, u64_bound.
Qed.

(** The gas set aside is part of the cost, and with EIP-150 the cost stays away
    from the end of the range. *)
Lemma post_set_aside st c m x w (P : gas_result → Prop) : is_u64 (ctr_Gas c) → 0 ≤ x < 2 ^ 57 →
  (∀ e w', P (MkGas 0 (Some e) w' c m)) →
  (∀ w' y, 0 ≤ callGasTemp w' → y = x + callGasTemp w' → (IsEIP150 rules = true → y ≤ Z.max (ctr_Gas c) (two64 - 2 ^ 57)) →
     P (MkGas y None w' c m)) →
  post P (set_aside env x w c st m).
Proof.
  intros Hc Hx Hfail Hok. unfold set_aside. repeat post_step; [apply Hfail|].
  unfold add_gas, SafeAdd. destruct (x + _ <? two64) eqn:E; bprop; cbn [negb]; [|apply Hfail].
  assert (Hz : 0 ≤ z ∧ (IsEIP150 rules = true → x + z ≤ Z.max (ctr_Gas c) (two64 - 2 ^ 57))).
  { revert Heqp. unfold callGas. unfold is_u64, two64 in *. destruct (IsEIP150 rules).
    - set (av := sub64 (ctr_Gas c) x). assert (Hav : x ≤ ctr_Gas c ∧ av = ctr_Gas c - x ∨ ctr_Gas c < x ∧ 0 ≤ av < 2 ^ 64).
      { unfold av, sub64, u64, two64. destruct (decide (x ≤ ctr_Gas c)); [left|right]; dlia. }
      assert (Hg : sub64 av (av / 64) = av - av / 64) by (apply sub64_small; unfold is_u64, two64; dlia). rewrite Hg.
      intros Heq. assert (0 ≤ z ≤ av - av / 64).
      { destruct (negb (IsUint64 a)) eqn:Ei; cbn [orb] in Heq; [injection Heq as <-; dlia|].
        destruct (_ <? Uint64 a) eqn:Eu; injection Heq as <-; bprop; [dlia|]. split; [apply u64_bound|lia]. }
      split; [lia|]. intros _. dlia.
    - intros Heq. split; [|done]. destruct (negb (IsUint64 a)); injection Heq as <-; [done|apply u64_bound]. }
  rewrite add64_small by (unfold is_u64; lia). apply Hok; [simpl; lia|done|simpl; apply Hz].
Qed.

(** A call variant: the old function's cost includes what it sets aside. *)
Definition call_cost (c : Contract) (m : Memory) (extra : Z) (r : gas_result) : Prop :=
  g_ctr r = c ∧ (g_err r = None → g_mem r = m ∧ 0 ≤ callGasTemp (g_evm r) ∧ callGasTemp (g_evm r) + extra ≤ g_cost r ∧
    (IsEIP150 rules = true → g_cost r ≤ Z.max (ctr_Gas c) (two64 - 2 ^ 57))).
Lemma call_cost_fail c m extra e w m' : call_cost c m extra (MkGas 0 (Some e) w c m').
Proof. by split. Qed.
Lemma post_call_memory c m m' ms w k v extra : mem_ok m → 0 ≤ v → ms = v * 32 →
  (∀ x, 0 ≤ x < 2 ^ 56 → post (call_cost c m' extra) (k x (paid m v))) →
  post (call_cost c m' extra) (memory_gas ms k w c m).
Proof.
  intros Hm Hv -> Hk. unfold memory_gas. pose proof Hm as (u & Hu & Hl & Hf).
  destruct (memoryGasCost_words m v Hv Hm) as [[Hb E]|[Hb ->]].
  - destruct (memoryGasCost m (v * 32)) as [[x e] m1]. simpl in E. subst e. apply call_cost_fail.
  - apply Hk. pose proof (fee_max u Hu). pose proof (fee_max v ltac:(lia)).
    destruct (mem_Len m <? v * 32) eqn:El; bprop; [|lia]. pose proof (fee_mono u v ltac:(lia)). lia.
Qed.
Lemma post_call_aside c m x w st extra : is_u64 (ctr_Gas c) → 0 ≤ extra ≤ x → x < 2 ^ 57 →
  post (call_cost c m extra) (set_aside env x w c st m).
Proof.
  intros Hc Hx Hb. apply post_set_aside; [done|lia|intros; apply call_cost_fail|].
  intros w' y Ht -> HE. split; [done|]. intros _. split_and!; simpl; [done..|lia|done].
Qed.
Lemma post_call_add c m a b w k extra : 0 ≤ a + b < two64 → post (call_cost c m extra) (k (a + b)) →
  post (call_cost c m extra) (add_gas a b k w c m).
Proof.
  intros Hab Hk. unfold add_gas, SafeAdd. rewrite (proj2 (Z.ltb_lt _ _)) by lia. cbn [negb].
  by rewrite add64_small by (unfold is_u64; lia).
Qed.

Lemma post_gasCall w c st m v : is_u64 (ctr_Gas c) → mem_ok m → 0 ≤ v →
  post (call_cost c (paid m v) (stipend_of st)) (gasCall env w c st m (v * 32)).
Proof.
  intros Hc Hm Hv. unfold gasCall. post_step. post_step. post_step. post_step.
  match goal with |- post _ (let '(_, _) := ?e in _) => assert (He : e.1 = 0 ∨ e.1 = CallNewAccountGas);
    [|destruct e as [g w1]] end.
  { destruct (rules_IsEIP158 rules); [destruct (negb (IsZero a)); [|by left]|];
      destruct (ask _ w) as [[] w1]; simpl; auto. }
  simpl in He. unfold stipend_of. rewrite H1.
  set (g' := if negb (IsZero a) then add64 g CallValueTransferGas else g).
  assert (Hg : stipend a ≤ g' ≤ 34000 ∧ 0 ≤ stipend a).
  { unfold g', stipend. destruct (IsZero a); cbn [negb]; destruct He as [-> | ->]; vm_compute; by split_and!. }
  eapply post_call_memory; [done..|]. intros x Hx. apply post_call_add; [unfold two64; lia|].
  apply post_call_aside; [done|lia|lia].
Qed.
Lemma post_gasCallCode w c st m v : is_u64 (ctr_Gas c) → mem_ok m → 0 ≤ v →
  post (call_cost c (paid m v) (stipend_of st)) (gasCallCode env w c st m (v * 32)).
Proof.
  intros Hc Hm Hv. unfold gasCallCode.
  eapply post_call_memory; [done..|]. intros x Hx. post_step. post_step. unfold stipend_of. rewrite H1.
  set (g' := if negb (a =? 0) then CallValueTransferGas else 0).
  assert (Hg : stipend a ≤ g' ≤ 34000 ∧ 0 ≤ stipend a).
  { unfold g', stipend, IsZero. destruct (a =? 0); vm_compute; by split_and!. }
  apply post_call_add; [unfold two64; lia|]. apply post_call_aside; [done|lia|lia].
Qed.
Lemma post_gasPlainCall w c st m v : is_u64 (ctr_Gas c) → mem_ok m → 0 ≤ v →
  post (call_cost c (paid m v) 0) (gasDelegateCall env w c st m (v * 32)).
Proof.
  intros Hc Hm Hv. unfold gasDelegateCall. eapply post_call_memory; [done..|]. intros x Hx. apply post_call_aside; [done|lia|lia].
Qed.

Lemma stipend_of_nonneg st : 0 ≤ stipend_of st.
Proof. unfold stipend_of, stipend, CallStipend. destruct (st !! 2%nat) as [v|]; [destruct (IsZero v)|]; lia. Qed.

Lemma fine_call g st c m extra r : is_u64 (ctr_Gas c) → call_cost c m extra r →
  (∀ w' y, 0 ≤ callGasTemp w' → callGasTemp w' + extra ≤ y → covers g st w' y) → fine g st c m r.
Proof.
  unfold is_u64. intros Hc [Ec Hr] Hcov. split; rewrite Ec; [lia|]. intros He. destruct (Hr He) as (-> & ? & ? & _).
  split_and!; [done..|by apply Hcov].
Qed.


Lemma cold_fine g st c m m' old w v extra : is_u64 (ctr_Gas c) → mem_ok m → 0 ≤ v → 0 ≤ extra → IsEIP150 rules = true →
  (∀ w' c', is_u64 (ctr_Gas c') → post (call_cost c' m' extra) (old w' c' st m (v * 32))) →
  (∀ w' y, 0 ≤ callGasTemp w' → callGasTemp w' + extra ≤ y → covers g st w' y) →
  post (fine g st c m') (makeCallVariantGasCallEIP2929 old w c st m (v * 32)).
Proof.
  intros Hc Hm Hv Hx HE Hold Hcov. unfold makeCallVariantGasCallEIP2929. post_step. post_step. unfold is_u64 in Hc.
  destruct (AddressInAccessList _ w).
  { eapply post_mono; [by apply Hold|]. intros r Hr. by eapply fine_call. }
  unfold UseGas. set (cold := _ - _). assert (Hcold : cold = 2500) by done. destruct (ctr_Gas c <? cold) eqn:Eg; bprop; cbn [negb].
  { apply fine_fail. lia. }
  rewrite sub64_small by (unfold is_u64; lia). post_step.
  eapply post_mono; [apply Hold; simpl; unfold is_u64; lia|]. intros r [Hctr Hr].
  destruct (g_err r) eqn:Er; cbn [post]; [split; [rewrite Hctr; simpl; lia|congruence]|].
  destruct (Hr eq_refl) as (Hmem & Ht & Hcost & Hmax). specialize (Hmax HE). simpl in Hmax.
  rewrite Hctr. simpl. unfold two64 in *. rewrite !add64_small by (unfold is_u64, two64; lia).
  split; simpl; [lia|]. intros _. split_and!; [lia|done|]. apply Hcov; lia.
Qed.

Lemma paid_0 m : paid m 0 = m.
Proof. unfold paid, mem_Len. by rewrite (proj2 (Z.ltb_ge _ _)) by lia. Qed.

(** The four prices of a metered write are positive. *)
Lemma net_metered_fine g st cost noop reset clearing w c x y cur m : is_u64 (ctr_Gas c) → costly g = true →
  0 ≤ cost → 0 < noop → 0 < reset → cost + noop < two64 → cost + reset < two64 → cost + 20000 < two64 →
  post (fine g st c m) (net_metered env cost noop reset clearing w c x y cur m).
Proof.
  unfold is_u64. intros Hc Hg H1 H2 H3 H4 H5 H6. unfold net_metered.
  assert (Hdone : ∀ w' z, 0 < z → cost + z < two64 → post (fine g st c m) (gas_ok (add64 cost z) w' c m)).
  { intros w' z Hz Hb. apply fine_done; [lia|]. unfold covers. rewrite add64_small by (unfold is_u64; lia).
    destruct g; try done; simpl; lia. }
  repeat post_step; apply Hdone; try done; lia.
Qed.

Section Functions.
Context (w : EVM) (c : Contract) (st : list Z) (m : Memory) (v : Z).
Context (Hc : is_u64 (ctr_Gas c)) (Hm : mem_ok m) (Hv : 0 ≤ v).
#[local] Notation fine_of g := (post (fine g st c (paid m v))).

Lemma no_gas_fine g e w' m' m'' : post (fine g st c m'') (gas_fail e w' c m').
Proof. unfold is_u64 in Hc. apply fine_fail. lia. Qed.
Lemma gas_nonneg : 0 ≤ ctr_Gas c.
Proof. unfold is_u64 in Hc. lia. Qed.
#[local] Hint Resolve gas_nonneg : core.

Lemma exp_fine g price : costly g = true → value_call g = false → plain_call g = false → v = 0 → 0 ≤ price →
  fine_of g (gasExp price w c st m (v * 32)).
Proof.
  intros Hg' Hg1 Hg2 -> Hp. rewrite paid_0. unfold gasExp. do 2 post_step.
  pose proof (u64_bound ((BitLen a + 7) / 8 * price)) as Hb. unfold is_u64 in Hb.
  apply post_add_gas; [done|unfold mul64, ExpGas; lia|]. intros _. apply fine_done; [done|].
  unfold covers. rewrite Hg1, Hg2, Hg'. unfold mul64, ExpGas. lia.
Qed.
Lemma copy_fine g n price : (∀ w y, 0 ≤ y → covers g st w y) → 0 ≤ price →
  fine_of g (memory_gas (v * 32) (λ g m, l ← Back n st;
    word_gas l price (λ words, add_gas g words (λ g, gas_ok g w c m) w c m) w c m) w c m).
Proof.
  intros Hg' Hp. apply (post_memory_gas _ _ _ _ _ _ _ _ v); [done..|]. intros x _ Hx. do 2 post_step.
  apply post_word_gas; [done..|]. intros y Hy. apply post_add_gas; [done|lia|]. intros _.
  apply fine_done; [done|]. apply Hg'. lia.
Qed.
Lemma log_fine n : fine_of (GLog n) (makeGasLog n w c st m (v * 32)).
Proof.
  unfold makeGasLog. repeat post_step; [apply no_gas_fine|].
  apply (post_memory_gas _ _ _ _ _ _ _ _ v); [done..|]. intros x _ Hx.
  apply post_add_gas; [done|unfold LogGas; lia|]. intros _.
  pose proof (u64_bound (Z.of_nat n * LogTopicGas)) as Hb. unfold is_u64 in Hb.
  apply post_add_gas; [done|unfold LogGas, mul64; lia|]. intros _. repeat post_step; [apply no_gas_fine|].
  assert (0 ≤ z0) by (unfold SafeMul in *; simplify_eq; apply u64_bound).
  apply post_add_gas; [done|unfold LogGas, mul64; lia|]. intros _. apply fine_done; [done|].
  unfold covers. cbn. unfold mul64, LogGas. lia.
Qed.
Lemma sstore_fine g r : v = 0 → costly g = true → fine_of g (makeGasSStoreFunc env r w c st m (v * 32)).
Proof.
  intros -> Hg'. rewrite paid_0. unfold makeGasSStoreFunc, SlotInAccessList. repeat post_step; try apply no_gas_fine.
  all: simplify_eq; apply net_metered_fine; try done; vm_compute; congruence.
Qed.
Lemma selfdestruct_fine g b : v = 0 → (∀ w y, 0 ≤ y → covers g st w y) →
  fine_of g (makeSelfdestructGasFn env b w c st m (v * 32)).
Proof.
  intros -> Hg'. rewrite paid_0. unfold makeSelfdestructGasFn. do 2 post_step.
  repeat (case_match; try done); cbn [post]; apply fine_done; try done; apply Hg'; simplify_eq; vm_compute; congruence.
Qed.
Lemma extcodecopy_fine : fine_of GExtCodeCopyEIP2929 (gasExtCodeCopyEIP2929 w c st m (v * 32)).
Proof.
  unfold gasExtCodeCopyEIP2929. post_step. eapply post_mono; [apply (copy_fine (GCopy 3)); [done|vm_compute; congruence]|].
  intros r [Hg Hr]. destruct (g_err r) eqn:Ee; [apply fine_fail; lia|]. destruct (Hr eq_refl) as (Eg & <- & Hcost).
  unfold covers in Hcost. cbn in Hcost. repeat post_step.
  - apply post_add_gas; [lia|unfold ColdAccountAccessCostEIP2929, WarmStorageReadCostEIP2929; lia|]. intros _.
    split; [done|]. intros _. split_and!; [done..|].
    unfold covers, ColdAccountAccessCostEIP2929, WarmStorageReadCostEIP2929. cbn. lia.
  - split; [done|]. intros _. split_and!; [done..|]. unfold covers. cbn. lia.
Qed.

Lemma post_gas_fun g : (no_memory g = true → v = 0) → (cold_call g = true → IsEIP150 rules = true) →
  fine_of g (gas_fun env g w c st m (v * 32)).
Proof.
  intros Hnm Hcold.
  destruct g; cbn [gas_fun].
  - apply exp_fine; auto; vm_compute; congruence.
  - apply exp_fine; auto; vm_compute; congruence.
  - apply copy_fine; [done|vm_compute; congruence].
  - apply copy_fine; [done|vm_compute; congruence].
  - apply (post_memory_gas _ _ _ _ _ _ _ _ v); [done..|]. intros x _ Hx. apply fine_done; [done|]. unfold covers. simpl. lia.
  - rewrite (Hnm eq_refl), paid_0. unfold gasSStore. repeat post_step; apply fine_done; try done; vm_compute; congruence.
  - rewrite (Hnm eq_refl), paid_0. unfold gasSStoreEIP2200. repeat post_step; try apply no_gas_fine.
    apply net_metered_fine; try done; vm_compute; congruence.
  - apply log_fine.
  - apply copy_fine; [done|vm_compute; congruence].
  - eapply post_mono; [by apply post_gasCall|]. intros r Hr. by eapply fine_call.
  - eapply post_mono; [by apply post_gasCallCode|]. intros r Hr. by eapply fine_call.
  - eapply post_mono; [by apply post_gasPlainCall|]. intros r Hr. eapply fine_call; [done..|]. unfold covers; simpl; lia.
  - eapply post_mono; [by apply post_gasPlainCall|]. intros r Hr. eapply fine_call; [done..|]. unfold covers; simpl; lia.
  - rewrite (Hnm eq_refl), paid_0. unfold gasSelfdestruct.
    repeat (case_match || post_step; try done); apply fine_done; try done; vm_compute; congruence.
  - by apply sstore_fine; auto.
  - by apply sstore_fine; auto.
  - rewrite (Hnm eq_refl), paid_0. unfold gasSLoadEIP2929, SlotInAccessList. repeat post_step; apply fine_done; try done; vm_compute; congruence.
  - apply extcodecopy_fine.
  - rewrite (Hnm eq_refl), paid_0. unfold gasEip2929AccountCheck. repeat post_step; apply fine_done; try done; vm_compute; congruence.
  - by apply (cold_fine _ _ _ _ _ _ _ _ (stipend_of st)); auto using stipend_of_nonneg, post_gasCall.
  - by apply (cold_fine _ _ _ _ _ _ _ _ (stipend_of st)); auto using stipend_of_nonneg, post_gasCallCode.
  - apply (cold_fine _ _ _ _ _ _ _ _ 0); auto using post_gasPlainCall, Z.le_refl. unfold covers; simpl; lia.
  - apply (cold_fine _ _ _ _ _ _ _ _ 0); auto using post_gasPlainCall, Z.le_refl. unfold covers; simpl; lia.
  - by apply selfdestruct_fine; auto.
  - by apply selfdestruct_fine; auto.
Qed.
End Functions.
End GasFunctions.

(** ** What the tables promise *)

(** Operations that always end the frame. *)
Definition halts (x : execution) : bool :=
  match x with XStop | XReturn | XRevert | XSelfdestruct | XUndefined => true | _ => false end.
Definition op_fine (o : operation) : bool :=
  (0 <=? constantGas o) &&
  (halts (execute o) || (1 <=? constantGas o) || match dynamicGas o with Some g => costly g | None => false end) &&
  match execute o with
  | XCall | XCallCode => match dynamicGas o with Some g => value_call g | None => false end
  | XDelegateCall | XStaticCall => match dynamicGas o with Some g => plain_call g | None => false end
  | _ => true
  end &&
  match dynamicGas o, memorySize o with Some g, Some _ => negb (no_memory g) | _, _ => true end.
Definition op_cold (o : operation) : bool := match dynamicGas o with Some g => cold_call g | None => false end.
Definition all_ops (p : operation → bool) (jt : JumpTable) : bool := forallb (λ i, p (jt (Z.of_nat i))) (seq 0 256).

Lemma all_ops_spec p jt i : all_ops p jt = true → 0 ≤ i < 256 → p (jt i) = true.
Proof.
  unfold all_ops. rewrite forallb_forall. intros Hall Hi. rewrite <- (Z2Nat.id i) by lia. apply Hall, in_seq. lia.
Qed.

Definition old_tables : list JumpTable := [newFrontierInstructionSet; newHomesteadInstructionSet;
  newTangerineWhistleInstructionSet; newSpuriousDragonInstructionSet; newByzantiumInstructionSet;
  newConstantinopleInstructionSet; newIstanbulInstructionSet].
Definition new_tables : list JumpTable := [newBerlinInstructionSet; newLondonInstructionSet; newMergeInstructionSet].
Lemma old_tables_fine : forallb (all_ops (λ o, op_fine o && negb (op_cold o))) old_tables = true.
Proof. vm_compute. reflexivity. Qed.
Lemma new_tables_fine : forallb (all_ops op_fine) new_tables = true.
Proof. vm_compute. reflexivity. Qed.

(** The forks are enabled in their order: with Berlin comes EIP-150. *)
Definition in_order (r : Rules) : Prop := IsMerge r || rules_IsLondon r || IsBerlin r = true → IsEIP150 r = true.

#[local] Opaque newFrontierInstructionSet newHomesteadInstructionSet newTangerineWhistleInstructionSet
  newSpuriousDragonInstructionSet newByzantiumInstructionSet newConstantinopleInstructionSet newIstanbulInstructionSet
  newBerlinInstructionSet newLondonInstructionSet newMergeInstructionSet.
Lemma jump_table_cases (P : JumpTable → Prop) env : Forall P old_tables →
  (IsMerge (chainRules env) || rules_IsLondon (chainRules env) || IsBerlin (chainRules env) = true → Forall P new_tables) →
  P (jump_table env).
Proof.
  unfold jump_table, old_tables, new_tables. intros Ho Hn.
  apply Forall_cons in Ho as [H1 Ho]. apply Forall_cons in Ho as [H2 Ho]. apply Forall_cons in Ho as [H3 Ho].
  apply Forall_cons in Ho as [H4 Ho]. apply Forall_cons in Ho as [H5 Ho]. apply Forall_cons in Ho as [H6 Ho].
  apply Forall_cons in Ho as [H7 _].
  destruct (IsMerge _).
  { specialize (Hn eq_refl). apply Forall_cons in Hn as [_ Hn]. apply Forall_cons in Hn as [_ Hn].
    apply Forall_cons in Hn as [Hn _]. exact Hn. }
  destruct (rules_IsLondon _).
  { specialize (Hn eq_refl). apply Forall_cons in Hn as [_ Hn]. apply Forall_cons in Hn as [Hn _]. exact Hn. }
  destruct (IsBerlin _); [specialize (Hn eq_refl); apply Forall_cons in Hn as [Hn _]; exact Hn|].
  destruct (IsIstanbul _); [exact H7|].
  destruct (IsConstantinople _); [exact H6|]. destruct (IsByzantium _); [exact H5|].
  destruct (rules_IsEIP158 _); [exact H4|]. destruct (IsEIP150 _); [exact H3|]. destruct (IsHomestead _); [exact H2|exact H1].
Qed.
Lemma jump_table_fine env i : in_order (chainRules env) → 0 ≤ i < 256 →
  op_fine (jump_table env i) = true ∧ (op_cold (jump_table env i) = true → IsEIP150 (chainRules env) = true).
Proof.
  intros Ho Hi. apply (jump_table_cases (λ jt, op_fine (jt i) = true ∧ (op_cold (jt i) = true → IsEIP150 (chainRules env) = true))).
  - apply Forall_forall. intros jt Hin. pose proof old_tables_fine as Ht. rewrite forallb_forall in Ht.
    apply list_elem_of_In, Ht, (all_ops_spec _ _ i) in Hin; [|done]. apply andb_true_iff in Hin. destruct Hin as [? Hc]. split; [done|].
    apply negb_true_iff in Hc. congruence.
  - intros Hr. apply Forall_forall. intros jt Hin. pose proof new_tables_fine as Ht. rewrite forallb_forall in Ht.
    apply list_elem_of_In, Ht, (all_ops_spec _ _ i) in Hin; [|done]. split; [done|]. auto.
Qed.
Lemma GetOp_range pc c : 0 ≤ GetOp pc c < 256.
Proof.
  unfold GetOp, STOP. destruct (_ <? _); [|lia]. destruct (ctr_Code c !! _) as [b|]; [|lia]. apply b2z_bound.
Qed.

(** ** Instructions *)

Section Instructions.
Context `{Crypto} `{Uint256} (env : Env).

(** Gas a call instruction hands to its callee; it has left the frame already. *)
Definition given (x : execution) (st : list Z) (w : EVM) : Z :=
  match x with
  | XCall | XCallCode => callGasTemp w + stipend_of st
  | XDelegateCall | XStaticCall => callGasTemp w
  | _ => 0
  end.
Definition is_call (x : execution) : bool :=
  match x with XCall | XCallCode | XDelegateCall | XStaticCall | XCreate | XCreate2 => true | _ => false end.

Record exec_fine (x : execution) (sc : ScopeContext) (w : EVM) (r : op_result) : Prop := {
  ef_gas : 0 ≤ ctr_Gas (sc_Contract (r_scope r)) ≤ ctr_Gas (sc_Contract sc) + given x (sc_Stack sc) w;
  ef_mem : mem_ok (sc_Memory (r_scope r));
  ef_halts : r_err r = None → halts x = false
}.

Lemma post_validJumpdest d c : post (λ _, True) (validJumpdest d c).
Proof. unfold validJumpdest, isCode. repeat post_step; done. Qed.
Lemma post_value_of {A} (x : option A) : post (λ _, True) (value_of x).
Proof. by destruct x. Qed.

Ltac exec_step :=
  match goal with
  | |- post _ (mem_Set _ _ _ _) => eapply post_mono; [apply post_mem_Set; [apply u64_bound|apply u64_bound|done]|intros ? ?]
  | |- post _ (Set32 _ _ _) => eapply post_mono; [apply post_Set32; [apply u64_bound|done]|intros ? ?]
  | |- post _ (GetPtr _ _ _) => eapply post_mono; [apply post_GetPtr|intros ? ?]
  | |- post _ (GetCopy _ _ _) => eapply post_mono; [apply post_GetCopy|intros ? ?]
  | |- post _ (getData _ _ _) => eapply post_mono; [apply post_getData|intros ? ?]
  | |- post _ (validJumpdest _ _) => eapply post_mono; [apply post_validJumpdest|intros ? ?]
  | |- post _ (value_of _) => eapply post_mono; [apply post_value_of|intros ? ?]
  | |- post _ (push _ _ _ _) => unfold push
  | _ => post_step
  end.

(** Every instruction but the calls leaves the contract alone. *)
Lemma post_plain calls x pc sc w : is_call x = false → 0 ≤ ctr_Gas (sc_Contract sc) → mem_ok (sc_Memory sc) →
  post (exec_fine x sc w) (exec_fun env calls x pc sc w).
Proof.
  intros Hx Hg Hm. destruct x; try discriminate Hx; cbn [exec_fun];
    repeat match goal with |- post _ (?f _ _ _) => unfold f | |- post _ (?f _ _ _ _) => unfold f | |- post _ (?f _ _ _ _ _) => unfold f end;
    repeat exec_step; try exact I; try (split; simpl; [lia|done|done]).
  (* MSTORE8 *)
  bprop. split; simpl; [lia| |done]. apply mem_ok_store; [|done]. apply write_at_length. simpl.
  pose proof (u64_bound z) as Hb. unfold is_u64, Uint64, mem_Len in *. lia.
Qed.

(** ** Calls *)

(** The machine never gives back more than it was given, and does not run out of
    fuel while the gas is below [bound]. *)
Definition call_gas (r : call_result) : Z := let '(_, gas, _, _) := r in gas.
Definition create_gas (r : bytes * Address * Z * option vmError * EVM) : Z := let '(_, _, gas, _, _) := r in gas.
Record calls_fine (bound : Z) (calls : Calls) : Prop := {
  cf_Call caller addr input gas value w : is_u64 gas → gas < bound →
    post (λ r, 0 ≤ call_gas r ≤ gas) (c_Call calls caller addr input gas value w);
  cf_CallCode caller addr input gas value w : is_u64 gas → gas < bound →
    post (λ r, 0 ≤ call_gas r ≤ gas) (c_CallCode calls caller addr input gas value w);
  cf_DelegateCall caller addr input gas w : is_u64 gas → gas < bound →
    post (λ r, 0 ≤ call_gas r ≤ gas) (c_DelegateCall calls caller addr input gas w);
  cf_StaticCall caller addr input gas w : is_u64 gas → gas < bound →
    post (λ r, 0 ≤ call_gas r ≤ gas) (c_StaticCall calls caller addr input gas w);
  cf_Create caller code gas value w : is_u64 gas → gas < bound →
    post (λ r, 0 ≤ create_gas r ≤ gas) (c_Create calls caller code gas value w);
  cf_Create2 caller code gas value salt w : is_u64 gas → gas < bound →
    post (λ r, 0 ≤ create_gas r ≤ gas) (c_Create2 calls caller code gas value salt w)
}.

Lemma post_finish_call x pc sc st ro rs r gas w : is_call x = true → halts x = false →
  mem_ok (sc_Memory sc) → 0 ≤ call_gas r ≤ gas → 0 ≤ ctr_Gas (sc_Contract sc) → gas ≤ given x (sc_Stack sc) w →
  ctr_Gas (sc_Contract sc) + gas < two64 →
  post (exec_fine x sc w) (finish_call pc sc st ro rs r).
Proof.
  intros Hx Hh Hm Hr Hg Hgas Hb. unfold finish_call. destruct r as [[[ret rg] err] w']. simpl in Hr. cbv zeta.
  post_step. apply (post_mono mem_ok); [by repeat exec_step|].
  intros m Hm'. split; simpl; [|done..]. rewrite add64_small by (unfold is_u64; lia). lia.
Qed.
Lemma post_finish_create x pc sc st flag r gas w sc0 : is_call x = true → halts x = false →
  mem_ok (sc_Memory sc) → 0 ≤ create_gas r ≤ gas → 0 ≤ ctr_Gas (sc_Contract sc) → 
  ctr_Gas (sc_Contract sc) + gas ≤ ctr_Gas (sc_Contract sc0) < two64 → given x (sc_Stack sc0) w = 0 →
  post (exec_fine x sc0 w) (finish_create pc sc st flag r).
Proof.
  intros Hx Hh Hm Hr Hg Hgas Hb. unfold finish_create. destruct r as [[[[ret addr] rg] err] w']. simpl in Hr. cbv zeta.
  destruct (bool_decide _); (split; simpl; [|done..]; rewrite add64_small by (unfold is_u64; lia); lia).
Qed.
(** Creations get all gas but a 64th, or before EIP-150 all of it. *)
Lemma UseGas_all gas c b : is_u64 (ctr_Gas c) → gas = (if b : bool then sub64 (ctr_Gas c) (ctr_Gas c / 64) else ctr_Gas c) →
  is_u64 gas ∧ gas ≤ ctr_Gas c ∧ UseGas gas c = (true, with_Gas (ctr_Gas c - gas) c).
Proof.
  unfold is_u64. intros Hc ->. assert (E : sub64 (ctr_Gas c) (ctr_Gas c / 64) = ctr_Gas c - ctr_Gas c / 64).
  { apply sub64_small. unfold is_u64, two64 in *. dlia. }
  unfold UseGas. destruct b; rewrite ?E.
  - rewrite (proj2 (Z.ltb_ge _ _)) by dlia. rewrite sub64_small by (unfold is_u64, two64 in *; dlia). split_and!; [dlia..|done].
  - rewrite (proj2 (Z.ltb_ge _ _)) by lia. rewrite sub64_small by (unfold is_u64, two64 in *; lia). split_and!; [lia..|done].
Qed.

Section CallInstructions.
Context (bound : Z) (calls : Calls) (Hcalls : calls_fine bound calls).
Context (pc : Z) (sc : ScopeContext) (w : EVM).
Context (Hg : is_u64 (ctr_Gas (sc_Contract sc))) (Hm : mem_ok (sc_Memory sc)).

Lemma value_gas t a v st : sc_Stack sc = t :: a :: v :: st → 0 ≤ callGasTemp w →
  callGasTemp w + stipend_of (sc_Stack sc) < two64 →
  (if negb (IsZero v) then add64 (callGasTemp w) CallStipend else callGasTemp w) = callGasTemp w + stipend_of (sc_Stack sc).
Proof.
  intros -> Ht. unfold stipend_of, stipend. simpl. destruct (IsZero v); simpl; intros; [lia|].
  apply add64_small. unfold is_u64, CallStipend in *. lia.
Qed.

Lemma post_opCall : 0 ≤ callGasTemp w → ctr_Gas (sc_Contract sc) + given XCall (sc_Stack sc) w < Z.min two64 bound →
  post (exec_fine XCall sc w) (opCall calls pc sc w).
Proof.
  simpl. intros Ht Hb. unfold is_u64 in Hg. pose proof (stipend_of_nonneg (sc_Stack sc)) as Hs. unfold opCall, memory_args.
  destruct (sc_Stack sc) as [|t [|a [|v [|i [|j [|k [|l st]]]]]]] eqn:Est; try exact I. rewrite <- Est in *.
  repeat exec_step; [split; simpl; [lia|done|done]|].
  rewrite (value_gas t a v (i :: j :: k :: l :: st)) by (done || lia).
  eapply post_mono; [apply (cf_Call bound); [done|unfold is_u64; lia|lia]|]. intros r Hr.
  eapply post_finish_call; [done|done|done|exact Hr|simpl; lia..].
Qed.
Lemma post_opCallCode : 0 ≤ callGasTemp w → ctr_Gas (sc_Contract sc) + given XCallCode (sc_Stack sc) w < Z.min two64 bound →
  post (exec_fine XCallCode sc w) (opCallCode calls pc sc w).
Proof.
  simpl. intros Ht Hb. unfold is_u64 in Hg. pose proof (stipend_of_nonneg (sc_Stack sc)) as Hs. unfold opCallCode, memory_args.
  destruct (sc_Stack sc) as [|t [|a [|v [|i [|j [|k [|l st]]]]]]] eqn:Est; try exact I. rewrite <- Est in *.
  repeat exec_step. rewrite (value_gas t a v (i :: j :: k :: l :: st)) by (done || lia).
  eapply post_mono; [apply (cf_CallCode bound); [done|unfold is_u64; lia|lia]|]. intros r Hr.
  eapply post_finish_call; [done|done|done|exact Hr|simpl; lia..].
Qed.
Lemma post_opDelegateCall : 0 ≤ callGasTemp w → ctr_Gas (sc_Contract sc) + callGasTemp w < Z.min two64 bound →
  post (exec_fine XDelegateCall sc w) (opDelegateCall calls pc sc w).
Proof.
  intros Ht Hb. unfold is_u64 in Hg. unfold opDelegateCall, memory_args. repeat exec_step; try exact I.
  eapply post_mono; [apply (cf_DelegateCall bound); [done|unfold is_u64; lia|lia]|]. intros r Hr.
  eapply post_finish_call; [done|done|done|exact Hr|simpl; lia..].
Qed.
Lemma post_opStaticCall : 0 ≤ callGasTemp w → ctr_Gas (sc_Contract sc) + callGasTemp w < Z.min two64 bound →
  post (exec_fine XStaticCall sc w) (opStaticCall calls pc sc w).
Proof.
  intros Ht Hb. unfold is_u64 in Hg. unfold opStaticCall, memory_args. repeat exec_step; try exact I.
  eapply post_mono; [apply (cf_StaticCall bound); [done|unfold is_u64; lia|lia]|]. intros r Hr.
  eapply post_finish_call; [done|done|done|exact Hr|simpl; lia..].
Qed.
Lemma post_opCreate : ctr_Gas (sc_Contract sc) < Z.min two64 bound → post (exec_fine XCreate sc w) (opCreate env calls pc sc w).
Proof.
  intros Hb. pose proof Hg as Hg'. unfold is_u64 in Hg'. unfold opCreate. repeat exec_step; try exact I.
  { split; simpl; [lia|done|done]. }
  destruct (UseGas_all _ (sc_Contract sc) (IsEIP150 (chainRules env)) Hg eq_refl) as (Ha1 & Ha2 & Ha3).
  rewrite Ha3 in Heqp. injection Heqp as <- <-.
  set (gas := if IsEIP150 _ then _ else _) in *.
  eapply post_mono; [apply (cf_Create bound); [done|done|lia]|]. intros r Hr.
  eapply (post_finish_create XCreate); [done|done|done|exact Hr|simpl; lia|simpl; lia|done].
Qed.
Lemma post_opCreate2 : ctr_Gas (sc_Contract sc) < Z.min two64 bound → post (exec_fine XCreate2 sc w) (opCreate2 calls pc sc w).
Proof.
  intros Hb. pose proof Hg as Hg'. unfold is_u64 in Hg'. unfold opCreate2. repeat exec_step; try exact I.
  { split; simpl; [lia|done|done]. }
  destruct (UseGas_all _ (sc_Contract sc) true Hg eq_refl) as (Ha1 & Ha2 & Ha3).
  rewrite Ha3 in Heqp. injection Heqp as <- <-.
  set (gas := sub64 _ _) in *.
  eapply post_mono; [apply (cf_Create2 bound); [done|done|lia]|]. intros r Hr.
  eapply (post_finish_create XCreate2); [done|done|done|exact Hr|simpl; lia|simpl; lia|done].
Qed.

(** Call instructions need the gas set aside for them. *)
Definition needs_temp (x : execution) : bool :=
  match x with XCall | XCallCode | XDelegateCall | XStaticCall => true | _ => false end.
Lemma post_exec_fun x : (needs_temp x = true → 0 ≤ callGasTemp w) →
  (is_call x = true → ctr_Gas (sc_Contract sc) + given x (sc_Stack sc) w < Z.min two64 bound) →
  post (exec_fine x sc w) (exec_fun env calls x pc sc w).
Proof.
  intros Ht Hb. unfold is_u64 in Hg. destruct (is_call x) eqn:Ex; [|apply post_plain; [done|lia|done]].
  specialize (Hb eq_refl).
  destruct x; try discriminate Ex; cbn [exec_fun]; simpl in Hb; rewrite ?Z.add_0_r in Hb;
    auto using post_opCall, post_opCallCode, post_opDelegateCall, post_opStaticCall, post_opCreate, post_opCreate2.
Qed.
End CallInstructions.
End Instructions.

(** ** One round, and the loop *)

Section Loop.
Context `{Crypto} `{Uint256} (env : Env) (Horder : in_order (chainRules env)).

(** What [charge] leaves for an operation to run with. *)
Record charged (o : operation) (sc sc' : ScopeContext) (w' : EVM) : Prop := {
  ch_stack : sc_Stack sc' = sc_Stack sc;
  ch_mem : mem_ok (sc_Memory sc');
  ch_temp : needs_temp (execute o) = true → 0 ≤ callGasTemp w';
  ch_gas : 0 ≤ ctr_Gas (sc_Contract sc');
  ch_given : 0 ≤ given (execute o) (sc_Stack sc) w';
  ch_paid : ctr_Gas (sc_Contract sc') + given (execute o) (sc_Stack sc) w' + (if halts (execute o) then 0 else 1)
              ≤ ctr_Gas (sc_Contract sc)
}.
Definition round_gas (r : round) : Z :=
  match r with Continue _ sc _ => ctr_Gas (sc_Contract sc) | Finished (_, _, gas, _) => gas end.

Lemma UseGas_spec g c : 0 ≤ g → is_u64 (ctr_Gas c) →
  ctr_Gas c < g ∧ UseGas g c = (false, c) ∨ g ≤ ctr_Gas c ∧ UseGas g c = (true, with_Gas (ctr_Gas c - g) c).
Proof.
  unfold is_u64, UseGas. intros Hg Hc. destruct (ctr_Gas c <? g) eqn:E; bprop; [by left|right].
  by rewrite sub64_small by (unfold is_u64; lia).
Qed.
Lemma given_other x st w : needs_temp x = false → given x st w = 0.
Proof. by destruct x. Qed.

(** The cost of a dynamic gas function pays for the operation. *)
Lemma covers_paid o g st w cost : op_fine o = true → dynamicGas o = Some g → covers g st w cost →
  0 ≤ cost ∧ 0 ≤ given (execute o) st w ∧ (needs_temp (execute o) = true → 0 ≤ callGasTemp w) ∧
  given (execute o) st w + (if halts (execute o) then 0 else 1) ≤ constantGas o + cost.
Proof.
  unfold op_fine. intros Hf Hd. rewrite Hd in Hf. bprop. pose proof (stipend_of_nonneg st) as Hs.
  unfold covers. destruct (needs_temp (execute o)) eqn:En.
  - destruct (execute o); try discriminate En; simpl in *; destruct g; simpl in *; try discriminate; lia.
  - rewrite (given_other _ _ _ En). intros Hc.
    assert (Hcg : 0 ≤ cost ∧ (costly g = true → 1 ≤ cost)) by (destruct g; simpl in *; split; try lia; try discriminate).
    destruct Hcg as [Hc0 Hc1].
    split_and!; [lia|done|done|]. destruct (halts (execute o)); [lia|]. simpl in *.
    destruct (1 <=? constantGas o) eqn:E1; bprop; [lia|]. simpl in *. specialize (Hc1 ltac:(done)). lia.
Qed.

(** A memory beyond the limit is refused. *)
Lemma memory_gas_large v k w c m : 2 ^ 32 - 1 < v → post (λ r, g_err r ≠ None) (memory_gas (v * 32) k w c m).
Proof.
  intros Hv. unfold memory_gas, memoryGasCost. rewrite (proj2 (Z.eqb_neq _ _)), (proj2 (Z.ltb_lt _ _)) by lia. done.
Qed.
Lemma gas_fun_large g w c st m v : no_memory g = false → 2 ^ 32 - 1 < v →
  post (λ r, g_err r ≠ None) (gas_fun env g w c st m (v * 32)).
Proof.
  intros Hg Hv.
  assert (Hcold : ∀ old, (∀ w c, post (λ r, g_err r ≠ None) (old w c st m (v * 32))) →
    post (λ r, g_err r ≠ None) (makeCallVariantGasCallEIP2929 old w c st m (v * 32))).
  { intros old Hold. unfold makeCallVariantGasCallEIP2929. repeat post_step; try done.
    eapply post_mono; [apply Hold|]. intros r Hr. destruct (g_err r) eqn:E; [by cbn; rewrite E|done]. }
  destruct g; try discriminate Hg; cbn [gas_fun]; try apply Hcold; intros;
    unfold gasKeccak256, memoryCopierGas, pureMemoryGascost, makeGasLog, gasCreate2, gasCall, gasCallCode, gasDelegateCall,
      gasStaticCall, gasExtCodeCopyEIP2929, memoryCopierGas; repeat post_step; try done; try (by apply memory_gas_large).
  eapply post_mono; [exact (memory_gas_large v _ w c m Hv)|]. intros r Hr. cbv beta. destruct (g_err r) eqn:E; [by cbn|by destruct Hr].
Qed.

Lemma post_gas_bounded g w c st m v : is_u64 (ctr_Gas c) → mem_ok m → 0 ≤ v →
  (no_memory g = true → v = 0) → (cold_call g = true → IsEIP150 (chainRules env) = true) →
  post (λ r, fine g st c (paid m v) r ∧ (g_err r = None → v ≤ 2 ^ 32 - 1)) (gas_fun env g w c st m (v * 32)).
Proof.
  intros Hc Hm Hv Hnm Hcold. pose proof (post_gas_fun env w c st m v Hc Hm Hv g Hnm Hcold) as Hp.
  destruct (decide (v ≤ 2 ^ 32 - 1)); [eapply post_mono; [exact Hp|auto]|].
  destruct (no_memory g) eqn:Hg; [specialize (Hnm eq_refl); lia|].
  pose proof (gas_fun_large g w c st m v Hg ltac:(lia)) as Hl.
  destruct (gas_fun env g w c st m (v * 32)); [|done|done]. split; [done|intros He; by destruct (Hl He)].
Qed.

Lemma post_charge o sc w : op_fine o = true → (op_cold o = true → IsEIP150 (chainRules env) = true) →
  is_u64 (ctr_Gas (sc_Contract sc)) → mem_ok (sc_Memory sc) →
  post (λ r, match r with
             | inl r => (∃ x, r = Finished x) ∧ 0 ≤ round_gas r ≤ ctr_Gas (sc_Contract sc)
             | inr (sc', w') => charged o sc sc' w'
             end) (charge env o sc w).
Proof.
  intros Hf Hcold Hg Hm. unfold charge. pose proof Hg as Hg'. unfold is_u64 in Hg'.
  assert (Hcg : 0 ≤ constantGas o) by (unfold op_fine in Hf; bprop; lia).
  destruct (UseGas_spec (constantGas o) _ Hcg Hg) as [[Hlt ->]|[Hle ->]]; cbn [negb].
  { split; [by eexists|simpl; lia]. }
  destruct (dynamicGas o) as [g|] eqn:Ed.
  2: { assert (En : needs_temp (execute o) = false ∧ (halts (execute o) = true ∨ 1 ≤ constantGas o)).
       { unfold op_fine in Hf. rewrite Ed in Hf. bprop. destruct (execute o); simpl in *; split; try done; try (by left); right;
           rewrite ?orb_false_r in *; bprop; done. }
       destruct En as [En Eh]. split; simpl; try done; rewrite ?(given_other _ _ _ En); [congruence|lia..|].
       destruct Eh as [-> | ?]; [lia|destruct (halts _); lia]. }
  post_step. eapply post_mono; [apply post_needed_memory|]. intros [ms ov] Hms. simpl in Hms.
  destruct ov; [split; [by eexists|simpl; lia]|]. destruct (Hms eq_refl) as (v & Hv & -> & Hv0).
  assert (Hvm : v = 0 ∨ no_memory g = false).
  { destruct (no_memory g) eqn:Hnm; [left|by right]. apply Hv0. unfold op_fine in Hf. rewrite Ed, Hnm in Hf.
    destruct (memorySize o); [|done]. bprop. discriminate. }
  post_step. eapply post_mono; [apply (post_gas_bounded g w _ (sc_Stack sc) (sc_Memory sc) v); try done|].
  { simpl. unfold is_u64. lia. }
  { intros Hnm. destruct Hvm; congruence. }
  { intros Hc. apply Hcold. unfold op_cold. by rewrite Ed. }
  intros r [[Hr1 Hr2] Hvb]. simpl in Hr1. destruct (g_err r) eqn:Ee; [split; [by eexists|simpl; lia]|].
  destruct (Hr2 eq_refl) as (Eg & Em & Hcov). specialize (Hvb eq_refl). simpl in Eg.
  destruct (covers_paid _ _ _ _ _ Hf Ed Hcov) as (Hc0 & Hgiv & Htemp & Hpay).
  destruct (UseGas_spec (g_cost r) (g_ctr r) Hc0) as [[Hlt ->]|[Hle' ->]]; [unfold is_u64; lia| |]; cbn [negb].
  { split; [by eexists|simpl; lia]. }
  cbn [post]. split; simpl; try done; [|lia..].
  rewrite Em. destruct (0 <? v * 32) eqn:Ev; bprop.
  - by apply Resize_paid; [lia|].
  - assert (v = 0) as -> by lia. by rewrite paid_0.
Qed.

Definition finished_fine (gas : Z) (r : run_result) : Prop := let '(_, _, gas', _) := r in 0 ≤ gas' ≤ gas.

(** A round that goes on has spent something. *)
Lemma post_step_fine bound calls pc sc w : calls_fine bound calls →
  is_u64 (ctr_Gas (sc_Contract sc)) → mem_ok (sc_Memory sc) → ctr_Gas (sc_Contract sc) ≤ bound →
  post (λ r, match r with
             | Continue _ sc' _ => 0 ≤ ctr_Gas (sc_Contract sc') < ctr_Gas (sc_Contract sc) ∧ mem_ok (sc_Memory sc')
             | Finished r => finished_fine (ctr_Gas (sc_Contract sc)) r
             end) (step env calls pc sc w).
Proof.
  intros Hcalls Hg Hm Hb. unfold step. pose proof Hg as Hg'. unfold is_u64 in Hg'.
  set (o := jump_table env _).
  destruct (jump_table_fine env (GetOp pc (sc_Contract sc)) Horder (GetOp_range _ _)) as [Hf Hcold]. fold o in Hf, Hcold.
  destruct (_ <? op_minStack o); [simpl; lia|]. destruct (op_maxStack o <? _); [simpl; lia|].
  post_step. eapply post_mono; [by apply post_charge|]. intros [r|[sc' w']].
  - intros [[[[[ret err] gas'] w'] ->] Hr]. done.
  - intros [Est Hm' Ht Hg1 Hgiv Hpaid]. rewrite <- Est in Hgiv, Hpaid.
    post_step. eapply post_mono; [apply (post_exec_fun env bound); [done|unfold is_u64; destruct (halts _); lia|done|done|]|].
    { intros Hc. assert (halts (execute o) = false) as Eh by (by destruct (execute o)). rewrite Eh in Hpaid. lia. }
    intros r [Hr1 Hr2 Hr3]. destruct (r_err r) as [e|] eqn:Er; cbn [post].
    + simpl. destruct (halts _); lia.
    + rewrite (Hr3 eq_refl) in Hpaid. split; [lia|done].
Qed.

(** ** Runs and calls *)

Section Runs.
Context (Hprecompiled : ∀ a p input, precompile env a = Some p → 0 ≤ RequiredGas p input).
Context (bound : Z) (run : Contract → bytes → bool → EVM → outcome run_result).
Context (Hrun : ∀ c input ro w, is_u64 (ctr_Gas c) → ctr_Gas c < bound → post (finished_fine (ctr_Gas c)) (run c input ro w)).

Lemma precompiled_fine p a input gas : precompile env a = Some p → 0 ≤ gas < two64 →
  0 ≤ (RunPrecompiledContract p input gas).1.2 ≤ gas.
Proof.
  intros Hp Hg. unfold RunPrecompiledContract. pose proof (Hprecompiled a p input Hp).
  destruct (_ <? _) eqn:E; bprop; [simpl; lia|]. destruct (precompiled_Run p input). simpl.
  rewrite sub64_small by (unfold is_u64; lia). lia.
Qed.
Lemma post_settle snapshot r gas : 0 ≤ call_gas r ≤ gas → post (λ r, 0 ≤ call_gas r ≤ gas) (settle env snapshot r).
Proof.
  destruct r as [[[ret g] err] w]. simpl. intros Hg. unfold settle. repeat post_step; [|done].
  simpl. destruct (bool_decide _); lia.
Qed.
Lemma post_run_code addr c input gas ro w : ctr_Gas c = gas → is_u64 gas → gas < bound →
  post (λ r, 0 ≤ call_gas r ≤ gas) (run_code env run addr c input gas ro w).
Proof.
  unfold is_u64. intros Hc Hg Hb. unfold run_code. destruct (precompile env addr) as [p|] eqn:Ep.
  - pose proof (precompiled_fine p addr input gas Ep Hg) as Hf.
    destruct (RunPrecompiledContract p input gas) as [[ret g] err]. done.
  - repeat post_step. eapply post_mono; [apply Hrun; simpl; unfold is_u64; lia|].
    intros [[[ret err] g] w'] Hr. simpl in *. lia.
Qed.

(** The run of a callee, with the rest of the caller's work after it. *)
Lemma post_run_then {A} (P : A → Prop) (f : run_result → outcome A) c input ro w gas : ctr_Gas c = gas →
  is_u64 gas → gas < bound → (∀ ret err g w', 0 ≤ g ≤ gas → post P (f (ret, err, g, w'))) →
  post (λ r, post P (f r)) (run c input ro w).
Proof.
  intros <- Hg Hb Hf. eapply post_mono; [by apply Hrun|]. intros [[[ret err] g] w'] Hr. by apply Hf.
Qed.

Ltac call_step :=
  match goal with
  | |- post _ (settle _ _ _) => apply post_settle
  | |- post _ (run_code _ _ _ _ _ _ _ _) => eapply post_mono; [by apply post_run_code|intros ? ?; cbv beta]
  | |- post _ (run _ _ _ _) => eapply post_run_then; [done|done|done|intros ? ? ? ? ?]
  | _ => post_step
  end.

Lemma post_Call caller addr input gas value w : is_u64 gas → gas < bound →
  post (λ r, 0 ≤ call_gas r ≤ gas) (evm_Call env run caller addr input gas value w).
Proof.
  intros Hg Hb. pose proof Hg as Hg'. unfold is_u64 in Hg'. unfold evm_Call.
  repeat call_step; try done; try (simpl; lia).
  pose proof (precompiled_fine p addr input gas Heqo Hg') as Hf. by rewrite Heqp2 in Hf.
Qed.
Lemma post_CallCode caller addr input gas value w : is_u64 gas → gas < bound →
  post (λ r, 0 ≤ call_gas r ≤ gas) (evm_CallCode env run caller addr input gas value w).
Proof.
  intros Hg Hb. pose proof Hg as Hg'. unfold is_u64 in Hg'. unfold evm_CallCode. by repeat call_step; try (simpl; lia).
Qed.
Lemma post_DelegateCall caller addr input gas w : is_u64 gas → gas < bound →
  post (λ r, 0 ≤ call_gas r ≤ gas) (evm_DelegateCall env run caller addr input gas w).
Proof.
  intros Hg Hb. pose proof Hg as Hg'. unfold is_u64 in Hg'. unfold evm_DelegateCall. by repeat call_step; try (simpl; lia).
Qed.
Lemma post_StaticCall caller addr input gas w : is_u64 gas → gas < bound →
  post (λ r, 0 ≤ call_gas r ≤ gas) (evm_StaticCall env run caller addr input gas w).
Proof.
  intros Hg Hb. pose proof Hg as Hg'. unfold is_u64 in Hg'. unfold evm_StaticCall. by repeat call_step; try (simpl; lia).
Qed.

Lemma store_code_fine address r gas : gas < two64 → finished_fine gas r → finished_fine gas (store_code env address r).
Proof.
  destruct r as [[[ret err] g] w]. simpl. intros Hb Hg. destruct err; [done|].
  pose proof (u64_bound (Z.of_nat (length ret) * CreateDataGas)) as Hd. unfold is_u64 in Hd.
  fold (mul64 (Z.of_nat (length ret)) CreateDataGas) in Hd.
  destruct (_ && _); [done|]. destruct (_ && _); [done|]. destruct (g <? _) eqn:E; [done|]. bprop. simpl.
  rewrite sub64_small by (unfold is_u64; lia). lia.
Qed.
Lemma post_create caller code gas value address w : is_u64 gas → gas < bound →
  post (λ r, 0 ≤ create_gas r ≤ gas) (evm_create env run caller code gas value address w).
Proof.
  intros Hg Hb. pose proof Hg as Hg'. unfold is_u64 in Hg'. unfold evm_create. repeat call_step; try (simpl; lia).
  all: pose proof (store_code_fine address (ret, err, g, w') gas ltac:(lia) H1) as Hs; rewrite Heqr in Hs; simpl in *;
    try match goal with |- context [bool_decide ?P] => destruct (bool_decide P) end; lia.
Qed.
Lemma calls_of_fine : calls_fine bound (calls_of env run).
Proof.
  split; simpl; auto using post_Call, post_CallCode, post_DelegateCall, post_StaticCall.
  - intros. unfold evm_Create. post_step. by apply post_create.
  - intros. unfold evm_Create2. by apply post_create.
Qed.
End Runs.

Context (Hprecompiled : ∀ a p input, precompile env a = Some p → 0 ≤ RequiredGas p input).

Lemma post_Run_frame bound loop c input ro w :
  (∀ pc sc w, is_u64 (ctr_Gas (sc_Contract sc)) → mem_ok (sc_Memory sc) → ctr_Gas (sc_Contract sc) < bound →
     post (finished_fine (ctr_Gas (sc_Contract sc))) (loop pc sc w)) →
  is_u64 (ctr_Gas c) → ctr_Gas c < bound → post (finished_fine (ctr_Gas c)) (Run_frame loop c input ro w).
Proof.
  unfold is_u64. intros Hl Hg Hb. unfold Run_frame. destruct (_ =? 0)%nat; [simpl; lia|]. post_step.
  eapply post_mono; [apply Hl; [done|apply NewMemory_ok|done]|]. intros [[[ret err] g] w'] Hr. done.
Qed.
Lemma post_run_loop fuel pc sc w : is_u64 (ctr_Gas (sc_Contract sc)) → mem_ok (sc_Memory sc) →
  ctr_Gas (sc_Contract sc) < Z.of_nat fuel → post (finished_fine (ctr_Gas (sc_Contract sc))) (run_loop env fuel pc sc w).
Proof.
  revert pc sc w. induction fuel as [|fuel IH]; intros pc sc w Hg Hm Hb; [unfold is_u64 in Hg; lia|].
  cbn [run_loop]. post_step. eapply post_mono; [apply (post_step_fine (Z.of_nat fuel)); [|done|done|lia]|].
  { apply calls_of_fine; [done|]. intros c input ro w' Hg' Hb'. apply (post_Run_frame (Z.of_nat fuel)); [|done|done].
    intros pc' sc' w'' ? ? ?. by apply IH. }
  intros [pc' sc' w'|r]; [|done]. intros [Hg' Hm']. unfold is_u64 in Hg.
  eapply post_mono; [apply IH; [unfold is_u64; lia|done|lia]|]. intros [[[ret err] g] w''] Hr. simpl in *. lia.
Qed.
Lemma post_Run fuel c input ro w : is_u64 (ctr_Gas c) → ctr_Gas c < Z.of_nat fuel →
  post (finished_fine (ctr_Gas c)) (Run env fuel c input ro w).
Proof. intros. apply (post_Run_frame (Z.of_nat fuel)); [|done|done]. intros. by apply post_run_loop. Qed.
End Loop.

(** ** More fuel gives the same answer *)

Definition more {A} (m m' : outcome A) : Prop := m = NoFuel ∨ m = m'.

Lemma more_refl {A} (m : outcome A) : more m m.
Proof. by right. Qed.
Lemma more_bind {A B} (f f' : A → outcome B) m m' : more m m' → (∀ a, more (f a) (f' a)) → more (m ≫= f) (m' ≫= f').
Proof. intros [-> | ->] Hf; [by left|]. destruct m'; simpl; [apply Hf|by right..]. Qed.
#[export] Hint Resolve more_refl : evm.

Ltac more_step :=
  match goal with
  | |- more ?m ?m => apply more_refl
  | |- more (_ ≫= _) (_ ≫= _) => apply more_bind; [|intros ?]
  | |- more (let '(_, _) := ?x in _) _ => destruct x eqn:?
  | |- more (if ?b then _ else _) _ => destruct b eqn:?
  | |- more (match ?x with _ => _ end) _ => destruct x eqn:?
  end.

Section Fuel.
Context `{Crypto} `{Uint256} (env : Env).

Record calls_more (c c' : Calls) : Prop := {
  cm_Call caller addr input gas value w : more (c_Call c caller addr input gas value w) (c_Call c' caller addr input gas value w);
  cm_CallCode caller addr input gas value w :
    more (c_CallCode c caller addr input gas value w) (c_CallCode c' caller addr input gas value w);
  cm_DelegateCall caller addr input gas w : more (c_DelegateCall c caller addr input gas w) (c_DelegateCall c' caller addr input gas w);
  cm_StaticCall caller addr input gas w : more (c_StaticCall c caller addr input gas w) (c_StaticCall c' caller addr input gas w);
  cm_Create caller code gas value w : more (c_Create c caller code gas value w) (c_Create c' caller code gas value w);
  cm_Create2 caller code gas value salt w : more (c_Create2 c caller code gas value salt w) (c_Create2 c' caller code gas value salt w)
}.

Lemma exec_more c c' x pc sc w : calls_more c c' → more (exec_fun env c x pc sc w) (exec_fun env c' x pc sc w).
Proof.
  intros [H1 H2 H3 H4 H5 H6]. destruct x; cbn [exec_fun]; try apply more_refl;
    unfold opCall, opCallCode, opDelegateCall, opStaticCall, opCreate, opCreate2; repeat more_step; auto.
Qed.
Lemma step_more c c' pc sc w : calls_more c c' → more (step env c pc sc w) (step env c' pc sc w).
Proof. intros Hc. unfold step. repeat more_step. by apply exec_more. Qed.

Lemma run_code_more run run' addr c input gas ro w : (∀ c input ro w, more (run c input ro w) (run' c input ro w)) →
  more (run_code env run addr c input gas ro w) (run_code env run' addr c input gas ro w).
Proof. intros Hr. unfold run_code. repeat more_step. apply Hr. Qed.
Lemma create_more run run' caller code gas value a w : (∀ c input ro w, more (run c input ro w) (run' c input ro w)) →
  more (evm_create env run caller code gas value a w) (evm_create env run' caller code gas value a w).
Proof. intros Hr. unfold evm_create. repeat more_step. apply Hr. Qed.
Lemma Call_more run run' caller addr input gas value w : (∀ c input ro w, more (run c input ro w) (run' c input ro w)) →
  more (evm_Call env run caller addr input gas value w) (evm_Call env run' caller addr input gas value w).
Proof. intros Hr. unfold evm_Call. repeat more_step. apply Hr. Qed.
Lemma calls_of_more run run' : (∀ c input ro w, more (run c input ro w) (run' c input ro w)) →
  calls_more (calls_of env run) (calls_of env run').
Proof.
  intros Hr. split; intros; simpl; unfold evm_CallCode, evm_DelegateCall, evm_StaticCall, evm_Create, evm_Create2; repeat more_step;
    auto using run_code_more, create_more, Call_more.
Qed.
Lemma Run_frame_more l l' c input ro w : (∀ pc sc w, more (l pc sc w) (l' pc sc w)) →
  more (Run_frame l c input ro w) (Run_frame l' c input ro w).
Proof. intros Hl. unfold Run_frame. repeat more_step. apply Hl. Qed.
Lemma run_loop_more fuel fuel' pc sc w : (fuel ≤ fuel')%nat → more (run_loop env fuel pc sc w) (run_loop env fuel' pc sc w).
Proof.
  revert fuel' pc sc w. induction fuel as [|fuel IH]; intros fuel' pc sc w Hle; [by left|]. destruct fuel' as [|fuel']; [lia|].
  cbn [run_loop]. apply more_bind.
  - apply step_more, calls_of_more. intros. apply Run_frame_more. intros. apply IH. lia.
  - intros [pc' sc' w'|r]; [apply IH; lia|apply more_refl].
Qed.
Lemma Run_more fuel fuel' c input ro w : (fuel ≤ fuel')%nat → more (Run env fuel c input ro w) (Run env fuel' c input ro w).
Proof. intros. apply Run_frame_more. intros. by apply run_loop_more. Qed.
End Fuel.
