(* ===== verification/EvmState.v ===== *)
(** * What running code does to the state

    Everything the interpreter does to the state database is a run of its
    operations that reverts only to snapshots of its own. So a call or a creation
    that fails leaves a state that answers every query as the one it started
    from. The walk over the instructions is done once, for any preorder on
    machines that contains the primitive changes ([Walk]). *)

From S2P Require Import Prelude Bytes Rlp Types Params Text StateDB StateRevert StateHistory EvmAnalysis EvmTable Evm EvmGas.

(** A postcondition of the runs that return. *)
Definition returns {A} (P : A → Prop) (m : outcome A) : Prop := match m with Ret a => P a | _ => True end.
Lemma returns_post {A} (P : A → Prop) m : post P m → returns P m.
Proof. by destruct m. Qed.
Lemma returns_bind {A B} (P : B → Prop) (f : A → outcome B) m : returns (λ a, returns P (f a)) m → returns P (m ≫= f).
Proof. by destruct m. Qed.
Lemma returns_mono {A} (P Q : A → Prop) m : returns P m → (∀ a, P a → Q a) → returns Q m.
Proof. destruct m; simpl; auto. Qed.
Lemma returns_any {A} (m : outcome A) : returns (λ _, True) m.
Proof. by destruct m. Qed.

(** ** A walk over the gas functions and instructions *)

Section Walk.
Context `{Crypto} `{Uint256} (env : Env).
#[local] Notation db := (env_db env).

(** The primitive changes of a frame, with or without those of SSTORE; the last
    group is made by frames that may write only. *)
Class Walk (sstore : bool) (R : EVM → EVM → Prop) := {
  walk_pre :: PreOrder R;
  walk_object a w : R w (with_db (getStateObject db a (evm_StateDB w)).2 w);
  walk_GetCode a w : R w (with_db (GetCode db a (evm_StateDB w)).2 w);
  walk_GetCodeSize a w : R w (with_db (GetCodeSize db a (evm_StateDB w)).2 w);
  walk_GetState a k w : R w (with_db (GetState db a k (evm_StateDB w)).2 w);
  walk_GetCommitted a k w : R w (with_db (StateDB_GetCommittedState db a k (evm_StateDB w)).2 w);
  walk_AddAddress a w : R w (change (AddAddressToAccessList a) w);
  walk_AddSlot a k w s : AddSlotToAccessList a k (evm_StateDB w) = Ok s → R w (with_db s w);
  walk_AddRefund g w : sstore = true → R w (change (AddRefund g) w);
  walk_SubRefund g w s : sstore = true → SubRefund g (evm_StateDB w) = Ok s → R w (with_db s w);
  walk_AddPreimage h p w : R w (change (AddPreimage h p) w);
  walk_callGas g w : R w (with_callGas g w);
  walk_returnData d w : R w (with_returnData d w);
  walk_SetState a k v w : sstore = true → readOnly w = false → R w (change (SetState db a k v) w);
  walk_AddLog l w : readOnly w = false → R w (change (AddLog l) w);
  walk_AddBalance a v w : readOnly w = false → R w (change (StateDB_AddBalance db a v) w);
  walk_Suicide a w : readOnly w = false → R w (with_db (Suicide db a (evm_StateDB w)).2 w);
  walk_readOnly w w' : R w w' → readOnly w' = readOnly w
}.

Context (sstore : bool) (R : EVM → EVM → Prop) `{!Walk sstore R}.

Lemma walk_Exist a w : R w (with_db (Exist db a (evm_StateDB w)).2 w).
Proof. pose proof (walk_object a w) as HR. unfold Exist. by destruct (getStateObject db a (evm_StateDB w)). Qed.
Lemma walk_Empty a w : R w (with_db (Empty db a (evm_StateDB w)).2 w).
Proof. pose proof (walk_object a w) as HR. unfold Empty. by destruct (getStateObject db a (evm_StateDB w)). Qed.
Lemma walk_GetBalance a w : R w (with_db (GetBalance db a (evm_StateDB w)).2 w).
Proof. pose proof (walk_object a w) as HR. unfold GetBalance. by destruct (getStateObject db a (evm_StateDB w)). Qed.
Lemma walk_GetNonce a w : R w (with_db (GetNonce db a (evm_StateDB w)).2 w).
Proof. pose proof (walk_object a w) as HR. unfold GetNonce. by destruct (getStateObject db a (evm_StateDB w)). Qed.
Lemma walk_GetCodeHash a w : R w (with_db (GetCodeHash db a (evm_StateDB w)).2 w).
Proof. pose proof (walk_object a w) as HR. unfold GetCodeHash. by destruct (getStateObject db a (evm_StateDB w)). Qed.
Lemma walk_HasSuicided a w : R w (with_db (HasSuicided db a (evm_StateDB w)).2 w).
Proof. pose proof (walk_object a w) as HR. unfold HasSuicided. by destruct (getStateObject db a (evm_StateDB w)). Qed.

Lemma walk_ask {A} (f : StateDB → A * StateDB) w v w' : ask f w = (v, w') →
  R w (with_db (f (evm_StateDB w)).2 w) → R w w'.
Proof. unfold ask. destruct (f (evm_StateDB w)) as [v' s]. by intros [= <- <-]. Qed.
Lemma walk_change_or_panic f w : (∀ s, f (evm_StateDB w) = Ok s → R w (with_db s w)) →
  post (R w) (change_or_panic f w).
Proof. intros Hf. unfold change_or_panic. destruct (f (evm_StateDB w)) eqn:E; simpl; auto. Qed.
End Walk.

(** The primitive changes. *)
Ltac walk_prim R :=
  first [ solve [eapply (walk_GetCode _ (R:=R)); eauto] | solve [eapply (walk_GetCodeSize _ (R:=R)); eauto] | solve [eapply (walk_GetState _ (R:=R)); eauto] | solve [eapply (walk_GetCommitted _ (R:=R)); eauto]
        | solve [eapply (walk_AddAddress _ (R:=R)); eauto] | solve [eapply (walk_AddRefund _ (R:=R)); eauto] | solve [eapply (walk_AddPreimage _ (R:=R)); eauto] | solve [eapply (walk_callGas _ (R:=R)); eauto]
        | solve [eapply (walk_returnData _ (R:=R)); eauto] | solve [eapply (walk_Exist _ _ R); eauto] | solve [eapply (walk_Empty _ _ R); eauto] | solve [eapply (walk_GetBalance _ _ R); eauto]
        | solve [eapply (walk_GetNonce _ _ R); eauto] | solve [eapply (walk_GetCodeHash _ _ R); eauto] | solve [eapply (walk_HasSuicided _ _ R); eauto] | solve [eapply (walk_AddSlot _ (R:=R)); eauto]
        | solve [eapply (walk_SubRefund _ (R:=R)); eauto] | solve [eapply (walk_SetState _ (R:=R)); eauto] | solve [eapply (walk_AddLog _ (R:=R)); eauto] | solve [eapply (walk_AddBalance _ (R:=R)); eauto]
        | solve [eapply (walk_Suicide _ (R:=R)); eauto] ].

(** Go back from the later machine along the steps that led to it. *)
Ltac walk_back R :=
  repeat match goal with
  | |- R ?w ?w => reflexivity
  | |- R _ (if ?b then _ else _) => destruct b
  | |- R _ (change _ (if ?b then _ else _)) => destruct b
  | E : ask _ ?w1 = (_, ?w) |- R ?w0 ?w => transitivity w1; [|eapply (walk_ask R _ w1 _ w E); solve [walk_prim R]]
  | H : R ?w1 ?w |- R ?w0 ?w => transitivity w1; [|exact H]
  | |- R ?w0 (change _ ?w1) => transitivity w1; [|solve [walk_prim R]]
  | |- R ?w0 (with_callGas _ ?w1) => transitivity w1; [|solve [walk_prim R]]
  | |- R ?w0 (with_returnData _ ?w1) => transitivity w1; [|solve [walk_prim R]]
  end.

Section WalkCode.
Context `{Crypto} `{Uint256} (env : Env) (sstore : bool) (R : EVM → EVM → Prop) `{!Walk env sstore R}.
#[local] Notation db := (env_db env).

Ltac walk_step :=
  match goal with
  | |- post _ (change_or_panic _ _) => eapply post_mono; [eapply (walk_change_or_panic R); intros; solve [walk_prim R]|intros ? ?; cbv beta in *]
  | |- post _ (memory_gas _ _ _ _ _) => unfold memory_gas
  | |- post _ (add_gas _ _ _ _ _ _) => unfold add_gas
  | |- post _ (word_gas _ _ _ _ _ _) => unfold word_gas
  | |- post _ (gas_fail _ _ _ _) => cbn
  | |- post _ (gas_ok _ _ _ _) => cbn
  | _ => post_step
  end.

Lemma walk_net_metered cost noop reset clearing w c x y cur m : sstore = true →
  post (λ r, R w (g_evm r)) (net_metered env cost noop reset clearing w c x y cur m).
Proof. intros Hs. unfold net_metered. repeat walk_step; walk_back R. Qed.
Lemma walk_set_aside g w c st m : post (λ r, R w (g_evm r)) (set_aside env g w c st m).
Proof. unfold set_aside. repeat walk_step; walk_back R. Qed.

Ltac walk_call :=
  match goal with
  | |- post _ (set_aside _ _ _ _ _ _) => eapply post_mono; [apply walk_set_aside|intros ? ?; cbv beta in *]
  | |- post _ (net_metered _ _ _ _ _ _ _ _ _ _ _) => eapply post_mono; [apply walk_net_metered; auto|intros ? ?; cbv beta in *]
  | _ => walk_step
  end.

Lemma walk_gasCall w c st m ms : post (λ r, R w (g_evm r)) (gasCall env w c st m ms).
Proof.
  unfold gasCall. do 2 (post_step; post_step).
  match goal with |- post _ (let '(_, _) := ?e in _) => assert (He : R w e.2); [|destruct e as [g w1]; simpl in He] end.
  { destruct (rules_IsEIP158 _); [destruct (negb _)|]; try done; destruct (ask _ w) eqn:E; simpl; walk_back R. }
  repeat walk_call; walk_back R.
Qed.
Lemma walk_cold old w c st m ms : (∀ w c, post (λ r, R w (g_evm r)) (old w c st m ms)) →
  post (λ r, R w (g_evm r)) (makeCallVariantGasCallEIP2929 old w c st m ms).
Proof.
  intros Hold. unfold makeCallVariantGasCallEIP2929. do 2 post_step. destruct (AddressInAccessList _ _); [apply Hold|].
  repeat walk_step; [walk_back R|]. eapply post_mono; [apply Hold|]. intros r Hr. cbv beta in *. destruct (g_err r); simpl; walk_back R.
Qed.
(** The functions that change the refund counter. *)
Definition refunding (g : gas_function) : bool :=
  match g with
  | GSStore | GSStoreEIP2200 | GSStoreEIP2929 | GSStoreEIP3529 | GSelfdestruct | GSelfdestructEIP2929 => true
  | _ => false
  end.
Lemma walk_gas_fun g w c st m ms : (refunding g = true → sstore = true) →
  post (λ r, R w (g_evm r)) (gas_fun env g w c st m ms).
Proof.
  intros Hs. destruct g; simpl in Hs; try specialize (Hs eq_refl); cbn [gas_fun]; try apply walk_cold; intros; try apply walk_gasCall;
    unfold gasExpFrontier, gasExpEIP158, gasExp, gasKeccak256, memoryCopierGas, pureMemoryGascost, gasSStore, gasSStoreEIP2200,
      makeGasLog, gasCreate2, gasCallCode, gasDelegateCall, gasStaticCall, gasSelfdestruct, gasSStoreEIP2929, gasSStoreEIP3529,
      makeGasSStoreFunc, gasSLoadEIP2929, gasExtCodeCopyEIP2929, memoryCopierGas, gasEip2929AccountCheck, SlotInAccessList,
      makeSelfdestructGasFn; repeat walk_call; simplify_eq; walk_back R.
  (* SELFDESTRUCT after EIP-2929 *)
  all: assert (He : R w e1) by
    (destruct (negb (AddressInAccessList _ w)); simplify_eq; destruct b;
     try (destruct (ask (GetBalance _ _) _) eqn:?); simplify_eq; walk_back R).
  2: exact He.
  destruct (ask (HasSuicided _ _) e1) as [[] w0] eqn:Ed; walk_back R.
Qed.

(** The calls a frame can make, with no value in a frame that may not write. *)
Record calls_walk (calls : Calls) : Prop := {
  cw_Call caller addr input gas value w : (readOnly w = true → value = 0) →
    returns (λ r, R w r.2) (c_Call calls caller addr input gas value w);
  cw_CallCode caller addr input gas value w : returns (λ r, R w r.2) (c_CallCode calls caller addr input gas value w);
  cw_DelegateCall caller addr input gas w : returns (λ r, R w r.2) (c_DelegateCall calls caller addr input gas w);
  cw_StaticCall caller addr input gas w : returns (λ r, R w r.2) (c_StaticCall calls caller addr input gas w);
  cw_Create caller code gas value w : readOnly w = false → returns (λ r, R w r.2) (c_Create calls caller code gas value w);
  cw_Create2 caller code gas value salt w : readOnly w = false →
    returns (λ r, R w r.2) (c_Create2 calls caller code gas value salt w)
}.

Ltac exec_walk_step :=
  match goal with
  | |- post _ (mem_Set _ _ _ _) => unfold mem_Set
  | |- post _ (Set32 _ _ _) => unfold Set32
  | |- post _ (GetPtr _ _ _) => unfold GetPtr
  | |- post _ (GetCopy _ _ _) => unfold GetCopy
  | |- post _ (getData _ _ _) => unfold getData
  | |- post _ (validJumpdest _ _) => unfold validJumpdest, isCode
  | |- post _ (value_of _) => unfold value_of
  | |- post _ (next _ _ _) => cbn
  | |- post _ (fails _ _ _ _) => cbn
  | |- post _ (push _ _ _ _) => unfold push
  | |- post _ empty_stack => exact I
  | |- post _ (memory_args _ _ _) => unfold memory_args
  | _ => post_step
  end.

Lemma walk_finish_call pc sc st ro rs r w : R w r.2 → post (λ x, R w (r_evm x)) (finish_call pc sc st ro rs r).
Proof.
  destruct r as [[[ret g] err] w']. simpl. intros Hr. unfold finish_call. repeat exec_walk_step; simpl; walk_back R.
Qed.
Lemma walk_finish_create pc sc st flag r w : R w r.2 → post (λ x, R w (r_evm x)) (finish_create pc sc st flag r).
Proof.
  destruct r as [[[[ret a] g] err] w']. simpl. intros Hr. unfold finish_create. repeat exec_walk_step; simpl; walk_back R.
Qed.
Lemma walk_opSelfdestruct pc sc w : post (λ r, R w (r_evm r)) (opSelfdestruct env pc sc w).
Proof.
  unfold opSelfdestruct. destruct (readOnly w) eqn:Ero; [cbn; reflexivity|]. destruct (sc_Stack sc) as [|b st]; [exact I|].
  destruct (ask (GetBalance _ _) w) as [balance w1] eqn:E1. assert (H1 : R w w1) by walk_back R.
  pose proof (walk_readOnly env w w1 H1) as Hr1. rewrite Ero in Hr1.
  pose proof (walk_AddBalance env (Bytes20 b) balance w1 Hr1) as H2.
  pose proof (walk_readOnly env _ _ H2) as Hr2. rewrite Hr1 in Hr2.
  destruct (ask (Suicide _ _) _) as [dead w2] eqn:E2. cbn. transitivity w1; [done|]. etransitivity; [exact H2|].
  apply (walk_ask R _ _ _ _ E2). by apply (walk_Suicide env).
Qed.
Lemma walk_plain calls x pc sc w : is_call x = false → (x = XSstore → sstore = true) → post (λ r, R w (r_evm r)) (exec_fun env calls x pc sc w).
Proof.
  intros Hx Hs. destruct x; try discriminate Hx; cbn [exec_fun]; try apply walk_opSelfdestruct; try specialize (Hs eq_refl);
    repeat match goal with |- post _ (?f _ _ _) => unfold f | |- post _ (?f _ _ _ _) => unfold f | |- post _ (?f _ _ _ _ _) => unfold f end;
    repeat exec_walk_step; try done; simpl; walk_back R.
Qed.
Lemma returns_args {A B} (P : B → Prop) (f : A → outcome B) m : (∀ a, returns P (f a)) → returns P (m ≫= f).
Proof. intros Hf. apply returns_bind. eapply returns_mono; [apply returns_any|]. intros a _. apply Hf. Qed.
Lemma walk_then_call pc sc st ro rs w m : returns (λ r, R w r.2) m →
  returns (λ x, R w (r_evm x)) (r ← m; finish_call pc sc st ro rs r).
Proof. intros Hm. apply returns_bind. eapply returns_mono; [exact Hm|]. intros. by apply returns_post, walk_finish_call. Qed.
Lemma walk_then_create pc sc st flag w m : returns (λ r, R w r.2) m →
  returns (λ x, R w (r_evm x)) (r ← m; finish_create pc sc st flag r).
Proof. intros Hm. apply returns_bind. eapply returns_mono; [exact Hm|]. intros. by apply returns_post, walk_finish_create. Qed.

Lemma walk_exec calls x pc sc w : sstore = true → calls_walk calls → returns (λ r, R w (r_evm r)) (exec_fun env calls x pc sc w).
Proof.
  intros Hs Hcalls. destruct (is_call x) eqn:Ex; [|apply returns_post; by apply walk_plain].
  destruct x; try discriminate Ex; cbn [exec_fun].
  - unfold opCreate. destruct (readOnly w) eqn:Ero; [cbn; reflexivity|].
    destruct (sc_Stack sc) as [|v [|i [|j st]]]; try exact I. apply returns_args. intros args.
    destruct (UseGas _ _). by apply walk_then_create, cw_Create.
  - unfold opCall. destruct (sc_Stack sc) as [|t [|a [|v [|i [|j [|k [|l st]]]]]]]; try exact I.
    apply returns_args. intros args. destruct (readOnly w && _) eqn:Ero; [cbn; reflexivity|].
    apply walk_then_call, cw_Call; [done|]. intros Hro. rewrite Hro in Ero. simpl in Ero. unfold IsZero in Ero. by bprop.
  - unfold opCallCode. destruct (sc_Stack sc) as [|t [|a [|v [|i [|j [|k [|l st]]]]]]]; try exact I.
    apply returns_args. intros args. by apply walk_then_call, cw_CallCode.
  - unfold opDelegateCall. destruct (sc_Stack sc) as [|t [|a [|i [|j [|k [|l st]]]]]]; try exact I.
    apply returns_args. intros args. by apply walk_then_call, cw_DelegateCall.
  - unfold opCreate2. destruct (readOnly w) eqn:Ero; [cbn; reflexivity|].
    destruct (sc_Stack sc) as [|v [|i [|j [|s st]]]]; try exact I. apply returns_args. intros args.
    destruct (UseGas _ _). by apply walk_then_create, cw_Create2.
  - unfold opStaticCall. destruct (sc_Stack sc) as [|t [|a [|i [|j [|k [|l st]]]]]]; try exact I.
    apply returns_args. intros args. by apply walk_then_call, cw_StaticCall.
Qed.

Lemma walk_charge o sc w : (∀ g, dynamicGas o = Some g → refunding g = true → sstore = true) →
  post (λ r, match r with inl (Finished x) => R w x.2 | inl (Continue _ _ w') => R w w' | inr (_, w') => R w w' end) (charge env o sc w).
Proof.
  intros Hs. unfold charge. destruct (UseGas _ _) as [[] c]; cbn [negb]; [|cbn; reflexivity].
  destruct (dynamicGas o) as [g|] eqn:Ed; [|cbn; reflexivity]. post_step.
  eapply post_mono; [apply post_needed_memory|]. intros [ms []] _; [cbn; reflexivity|].
  post_step. eapply post_mono; [apply walk_gas_fun; by apply Hs|]. intros r Hr. cbv beta in *.
  destruct (match g_err r with None => _ | Some _ => _ end) as [[] c']; cbn; done.
Qed.
Lemma walk_round calls pc sc w : sstore = true → calls_walk calls →
  returns (λ r, match r with Continue _ _ w' => R w w' | Finished x => R w x.2 end) (step env calls pc sc w).
Proof.
  intros Hs Hc. unfold step. destruct (_ <? _); [cbn; reflexivity|]. destruct (_ <? _); [cbn; reflexivity|].
  apply returns_bind. eapply returns_mono; [apply returns_post, walk_charge; auto|]. intros [r|[sc' w']] Hr; [by destruct r|].
  apply returns_bind. eapply returns_mono; [by apply walk_exec|]. intros r Hr'. cbv beta in *.
  destruct (r_err r); cbn; by transitivity w'.
Qed.
(** The loop, when the runs that the code starts are walks. *)
Lemma walk_loop : sstore = true →
  (∀ loop, (∀ pc sc w, returns (λ x, R w x.2) (loop pc sc w)) → calls_walk (calls_of env (Run_frame loop))) →
  ∀ fuel pc sc w, returns (λ x, R w x.2) (run_loop env fuel pc sc w).
Proof.
  intros Hs Hcalls. induction fuel as [|fuel IH]; intros pc sc w; [done|]. cbn [run_loop]. apply returns_bind.
  eapply returns_mono; [apply walk_round; [done|apply Hcalls, IH]|]. intros [pc' sc' w'|r] Hr; [|done].
  eapply returns_mono; [apply IH|]. intros. by transitivity w'.
Qed.
End WalkCode.

(** ** Runs of the state database *)

Section Paths.
Context `{Crypto} (db : Backend).

(** From [s] to [s'] by operations that revert to snapshots of their own only. *)
Definition path (s s' : StateDB) : Prop := ok db s →
  ok db s' ∧ nextRevisionId s ≤ nextRevisionId s' ∧
  ∃ ops, Forall (inner (nextRevisionId s)) ops ∧ run db ops s = Ok s'.

Lemma run_app ops ops' s s1 : run db ops s = Ok s1 → run db (ops ++ ops') s = run db ops' s1.
Proof.
  revert s. induction ops as [|o ops IH]; intros s; simpl; [by intros [= ->]|].
  destruct (exec db o s); simpl; [apply IH|done..].
Qed.
Lemma inner_mono lo lo' o : lo ≤ lo' → inner lo' o → inner lo o.
Proof. destruct o; simpl; try done. lia. Qed.

#[export] Instance path_preorder : PreOrder path.
Proof.
  split.
  - intros s Ho. split_and!; [done|done|]. by exists [].
  - intros s t u H1 H2 Ho. destruct (H1 Ho) as (Ho1 & Hn1 & ops1 & Hi1 & Hr1).
    destruct (H2 Ho1) as (Ho2 & Hn2 & ops2 & Hi2 & Hr2). split_and!; [done|lia|]. exists (ops1 ++ ops2).
    rewrite (run_app _ _ _ _ Hr1). split; [|done]. apply Forall_app. split; [done|].
    eapply Forall_impl; [done|]. intros o. by apply inner_mono.
Qed.

Lemma path_op o s s' : on_revisions o = false → exec db o s = Ok s' → path s s'.
Proof.
  intros Hr He Ho. assert (Hin : inner (nextRevisionId s) o) by (by destruct o).
  assert (Hrun : run db [o] s = Ok s') by (simpl; by rewrite He).
  pose proof (exec_ext db o s s' Hr (ok_good _ _ Ho) He) as Hx. split_and!.
  - eapply (ok_run db s [o]); [done|by repeat constructor|done].
  - by rewrite (ex_next _ _ _ Hx).
  - exists [o]. split; [by repeat constructor|done].
Qed.
Lemma path_snapshot s : path s (StateDB_Snapshot s).2.
Proof.
  intros Ho. assert (Hrun : run db [OpSnapshot] s = Ok (StateDB_Snapshot s).2) by done. split_and!.
  - eapply (ok_run db s [OpSnapshot]); [done|by repeat constructor|done].
  - simpl. lia.
  - exists [OpSnapshot]. split; [by repeat constructor|done].
Qed.

Lemma snapshot_eqv s : eqv db (StateDB_Snapshot s).2 s.
Proof. by apply eqv_same; [intros; rewrite !obj_of_eq|]. Qed.

(** What came after a snapshot can be reverted, and gives back the state before it. *)
Lemma revert_back s s2 : ok db s → path (StateDB_Snapshot s).2 s2 →
  ∃ s3, RevertToSnapshot db (nextRevisionId s) s2 = Ok s3 ∧ eqv db s3 s ∧ nextRevisionId s3 = nextRevisionId s2.
Proof.
  intros Ho Hp. pose proof (path_snapshot s Ho) as (Ho1 & _). destruct (Hp Ho1) as (_ & _ & ops & Hin & Hrun).
  destruct (tracked_run db _ _ _ _ _ _ _ (ok_next _ _ Ho1) Hin (ok_tracked _ _ Ho1) Hrun) as [Hg Hd (rs & es & E1 & E2 & HT) _ _].
  set (n := length (entries s)).
  assert (Hidx : search_revision (nextRevisionId s) (validRevisions s2) = length (validRevisions s)).
  { rewrite E2. simpl. rewrite <- app_assoc. rewrite search_past by apply Ho. simpl. rewrite Z.leb_refl. lia. }
  destruct (revert_to db (nextRevisionId s) _ n s2 (entries s) es s Hidx) as (s3 & HR & HE & _ & _ & Hn & _); try done.
  - rewrite E2. simpl. rewrite <- app_assoc. by apply list_lookup_middle.
  - change es with ([] ++ es). eapply chain_trans; [|exact (trace_whole _ _ _ _ _ _ HT)]. constructor. apply snapshot_eqv.
  - apply Hg.
  - by exists s3.
Qed.
Lemma path_revert s s2 s3 : path (StateDB_Snapshot s).2 s2 →
  RevertToSnapshot db (nextRevisionId s) s2 = Ok s3 → path s s3.
Proof.
  intros Hp HR Ho. pose proof (path_snapshot s Ho) as (Ho1 & _). pose proof (Hp Ho1) as (_ & Hn & ops & Hin & Hrun).
  destruct (revert_back s s2 Ho Hp) as (s3' & HR' & _ & Hn3). rewrite HR in HR'. injection HR' as <-.
  assert (Hall : Forall (inner (nextRevisionId s)) (OpSnapshot :: ops ++ [OpRevert (nextRevisionId s)])).
  { apply Forall_cons. split; [done|]. apply Forall_app. split; [|repeat constructor; simpl; lia].
    eapply Forall_impl; [done|]. intros o. apply inner_mono. simpl. lia. }
  assert (Hrun3 : run db (OpSnapshot :: ops ++ [OpRevert (nextRevisionId s)]) s = Ok s3).
  { simpl. change (Ok (StateDB_Snapshot s).2 ≫= run db (ops ++ [OpRevert (nextRevisionId s)])) with
      (run db (ops ++ [OpRevert (nextRevisionId s)]) (StateDB_Snapshot s).2). rewrite (run_app _ _ _ _ Hrun). simpl. by rewrite HR. }
  split_and!; [exact (ok_run db s _ s3 Ho Hall Hrun3)|simpl in Hn; lia|eauto].
Qed.
End Paths.

(** ** Frames *)

Section Frames.
Context `{Crypto} `{Uint256} (env : Env).
#[local] Notation db := (env_db env).

(** The state moves along a path; the depth and the mode are those of the frame. *)
Record goes (w w' : EVM) : Prop := {
  goes_path : path db (evm_StateDB w) (evm_StateDB w');
  goes_depth : depth w' = depth w;
  goes_readOnly : readOnly w' = readOnly w
}.
#[export] Instance goes_preorder : PreOrder goes.
Proof.
  split; [by intros w; split|]. intros w1 w2 w3 [P1 D1 R1] [P2 D2 R2]. split; [by etransitivity|congruence..].
Qed.
Lemma goes_op o s w : on_revisions o = false → exec db o (evm_StateDB w) = Ok s → goes w (with_db s w).
Proof. intros. split; [by eapply path_op|done..]. Qed.

#[export] Instance goes_walk : Walk env true goes.
Proof.
  split; try apply _; intros.
  - apply (goes_op (OpExist a)); [done|]. simpl. unfold Exist. by destruct (getStateObject db a _).
  - by apply (goes_op (OpGetCode a)).
  - by apply (goes_op (OpGetCodeSize a)).
  - by apply (goes_op (OpGetState a k)).
  - by apply (goes_op (OpGetCommittedState a k)).
  - by apply (goes_op (OpAddAddress a)).
  - by apply (goes_op (OpAddSlot a k)).
  - by apply (goes_op (OpAddRefund g)).
  - by apply (goes_op (OpSubRefund g)).
  - by apply (goes_op (OpAddPreimage h p)).
  - by split.
  - by split.
  - by apply (goes_op (OpSetState a k v)).
  - by apply (goes_op (OpAddLog l)).
  - by apply (goes_op (OpAddBalance a v)).
  - by apply (goes_op (OpSuicide a)).
  - by destruct H1.
Qed.

Lemma goes_change o f w : on_revisions o = false → exec db o (evm_StateDB w) = Ok (f (evm_StateDB w)) → goes w (change f w).
Proof. intros. by eapply goes_op. Qed.
Lemma goes_Transfer a b v w : goes w (Transfer env a b v w).
Proof.
  etransitivity; [by apply (goes_change (OpSubBalance a v) (SubBalance db a v))|]. by apply (goes_change (OpAddBalance b v)).
Qed.
Lemma goes_CanTransfer a v w b w' : CanTransfer env a v w = (b, w') → goes w w'.
Proof. unfold CanTransfer. destruct (ask _ w) eqn:E. intros [= _ <-]. walk_back goes. Qed.

(** A call took a snapshot in [w1] and is at [w2] now. *)
Definition since (w1 w2 : EVM) : Prop := goes (with_db (StateDB_Snapshot (evm_StateDB w1)).2 w1) w2.
(** A failed call leaves the state it found. *)
Definition undone (w : EVM) (err : option vmError) (w' : EVM) : Prop :=
  err ≠ None → ok db (evm_StateDB w) → eqv db (evm_StateDB w') (evm_StateDB w).
Definition call_err (r : call_result) : option vmError := r.1.2.

Lemma since_goes w1 w2 : since w1 w2 → goes w1 w2.
Proof. intros Hs. etransitivity; [|exact Hs]. split; [apply path_snapshot|done..]. Qed.
Lemma since_trans w1 w2 w3 : since w1 w2 → goes w2 w3 → since w1 w3.
Proof. unfold since. intros. by transitivity w2. Qed.
Lemma since_reverted w1 w2 s : since w1 w2 → RevertToSnapshot db (nextRevisionId (evm_StateDB w1)) (evm_StateDB w2) = Ok s →
  goes w1 (with_db s w2) ∧ (ok db (evm_StateDB w1) → eqv db s (evm_StateDB w1)).
Proof.
  intros [Hp Hd Hr] HR. simpl in *. split.
  - split; [by eapply path_revert|done..].
  - intros Ho. destruct (revert_back db _ _ Ho Hp) as (s' & HR' & HE & _). rewrite HR in HR'. by injection HR' as <-.
Qed.
Lemma since_settled w1 r : since w1 r.2 →
  returns (λ x, goes w1 x.2 ∧ undone w1 (call_err x) x.2) (settle env (nextRevisionId (evm_StateDB w1)) r).
Proof.
  destruct r as [[[ret gas] [e|]] w2]; simpl; intros Hs; [|split; [by apply since_goes|done]].
  unfold change_or_panic. destruct (RevertToSnapshot _ _ _) as [s| |] eqn:HR; simpl; try done.
  destruct (since_reverted w1 w2 s Hs HR). split; [done|]. intros _. done.
Qed.

(** What is proved of the four calls. *)
Definition call_goes (w : EVM) (m : outcome call_result) : Prop := returns (λ r, goes w r.2 ∧ undone w (call_err r) r.2) m.

Section Calls.
Context (run : Contract → bytes → bool → EVM → outcome run_result).
Context (Hrun : ∀ c input ro w, returns (λ x, goes w x.2) (run c input ro w)).

Lemma call_stays ret gas err w w' : goes w w' → (ok db (evm_StateDB w) → eqv db (evm_StateDB w') (evm_StateDB w)) →
  call_goes w (Ret (ret, gas, err, w')).
Proof. intros Hg He. split; [done|]. intros _. done. Qed.
(** Queries of an account leave the state indistinguishable. *)
Lemma query_eqv {A} (f : StateDB → A * StateDB) a w v w' : ask f w = (v, w') →
  (∀ s, (f s).2 = (getStateObject db a s).2) → ok db (evm_StateDB w) → eqv db (evm_StateDB w') (evm_StateDB w).
Proof.
  intros E Hf Ho. assert (Es : evm_StateDB w' = (f (evm_StateDB w)).2).
  { unfold ask in E. destruct (f (evm_StateDB w)). by injection E as _ <-. }
  rewrite Es, Hf, getStateObject_snd.
  destruct (load_object_spec db a _ (g_keyed _ (ok_good _ _ Ho))) as (L1 & L2 & _). by apply eqv_same.
Qed.
Lemma GetNonce_eqv a w v w' : ask (GetNonce db a) w = (v, w') → ok db (evm_StateDB w) → eqv db (evm_StateDB w') (evm_StateDB w).
Proof. intros E. apply (query_eqv _ a _ _ _ E). intros s. unfold GetNonce. by destruct (getStateObject db a s). Qed.
Lemma GetCodeHash_eqv a w v w' : ask (GetCodeHash db a) w = (v, w') → ok db (evm_StateDB w) →
  eqv db (evm_StateDB w') (evm_StateDB w).
Proof. intros E. apply (query_eqv _ a _ _ _ E). intros s. unfold GetCodeHash. by destruct (getStateObject db a s). Qed.
Lemma CanTransfer_eqv a w b w' v : CanTransfer env a v w = (b, w') → ok db (evm_StateDB w) →
  eqv db (evm_StateDB w') (evm_StateDB w).
Proof.
  unfold CanTransfer. destruct (ask _ w) eqn:E. intros [= _ <-]. apply (query_eqv _ a _ _ _ E).
  intros s. unfold GetBalance. by destruct (getStateObject db a s).
Qed.

(** From a machine that is indistinguishable from the first. *)
Lemma call_goes_from w w1 m : goes w w1 → (ok db (evm_StateDB w) → eqv db (evm_StateDB w1) (evm_StateDB w)) →
  call_goes w1 m → call_goes w m.
Proof.
  intros Hg He Hm. eapply returns_mono; [exact Hm|]. intros r [H1 H2]. split; [by transitivity w1|].
  intros Herr Ho. transitivity (evm_StateDB w1); [|by apply He]. apply H2; [done|]. by apply (goes_path _ _ Hg).
Qed.

Lemma run_code_goes addr c input gas ro w : returns (λ r, goes w r.2) (run_code env run addr c input gas ro w).
Proof.
  unfold run_code. destruct (precompile env addr) as [p|].
  { destruct (RunPrecompiledContract p input gas) as [[ret g] err]. simpl. reflexivity. }
  destruct (ask _ w) as [h w1] eqn:E1. destruct (ask _ w1) as [code w2] eqn:E2. apply returns_bind.
  eapply returns_mono; [apply Hrun|]. intros [[[ret err] g] w3] Hg. simpl in *. walk_back goes.
Qed.
Lemma settled_run w1 w2 m : since w1 w2 → returns (λ r, goes w2 r.2) m →
  call_goes w1 (r ← m; settle env (nextRevisionId (evm_StateDB w1)) r).
Proof.
  intros Hs Hm. apply returns_bind. eapply returns_mono; [exact Hm|]. intros r Hr. apply since_settled. by eapply since_trans.
Qed.

Lemma Call_goes caller addr input gas value w : call_goes w (evm_Call env run caller addr input gas value w).
Proof.
  unfold evm_Call. destruct (_ <? _); [by apply call_stays|].
  destruct (if negb (value =? 0) then _ else _) as [can w1] eqn:E1.
  assert (H1 : goes w w1 ∧ (ok db (evm_StateDB w) → eqv db (evm_StateDB w1) (evm_StateDB w))).
  { destruct (negb (value =? 0)); [|by injection E1 as <- <-]. split; [by eapply goes_CanTransfer|by eapply CanTransfer_eqv]. }
  destruct H1 as [H1 H1e]. destruct (negb can); [by apply call_stays|].
  apply (call_goes_from w w1); [done..|]. unfold evm_Snapshot. destruct (ask StateDB_Snapshot w1) as [id w2] eqn:E2.
  unfold ask in E2. simpl in E2. injection E2 as <- <-.
  set (w2 := with_db _ w1). assert (Hs : since w1 w2) by (unfold since; reflexivity).
  destruct (ask (Exist _ _) w2) as [ex w3] eqn:E3.
  assert (Hs3 : since w1 w3) by (apply (since_trans w1 w2); [done|walk_back goes]).
  destruct (_ && (value =? 0)); [split; [by apply since_goes|done]|].
  set (w4 := if negb ex then _ else _).
  assert (Hs4 : since w1 w4) by (unfold w4; destruct (negb ex); [apply (since_trans w1 w3); [done|by apply (goes_change (OpCreateAccount addr))]|done]).
  assert (Hs5 : since w1 (Transfer env caller addr value w4)) by (apply (since_trans w1 w4); [done|apply goes_Transfer]).
  set (w5 := Transfer _ _ _ _ w4) in *. apply (settled_run w1 w5); [done|].
  destruct (precompile env addr) as [p|].
  { destruct (RunPrecompiledContract p input gas) as [[ret g] err]. simpl. reflexivity. }
  destruct (ask _ w5) as [code w6] eqn:E6. destruct (_ =? 0)%nat; [cbn; walk_back goes|].
  destruct (ask _ w6) as [h w7] eqn:E7. apply returns_bind. eapply returns_mono; [apply Hrun|].
  intros [[[ret err] g] w8] Hg. simpl in *. walk_back goes.
Qed.
Lemma snapshot_ask w id w' : evm_Snapshot w = (id, w') → id = nextRevisionId (evm_StateDB w) ∧ since w w'.
Proof. unfold evm_Snapshot, ask. simpl. intros [= <- <-]. split; [done|]. unfold since. reflexivity. Qed.
Lemma CallCode_goes caller addr input gas value w : call_goes w (evm_CallCode env run caller addr input gas value w).
Proof.
  unfold evm_CallCode. destruct (_ <? _); [by apply call_stays|]. destruct (CanTransfer _ _ _ w) as [can w1] eqn:E1.
  pose proof (goes_CanTransfer _ _ _ _ _ E1) as H1. pose proof (CanTransfer_eqv _ _ _ _ _ E1) as H1e.
  destruct (negb can); [by apply call_stays|]. apply (call_goes_from w w1); [done..|].
  destruct (evm_Snapshot w1) as [id w2] eqn:E2. apply snapshot_ask in E2 as [-> Hs]. apply (settled_run w1 w2); [done|apply run_code_goes].
Qed.
Lemma DelegateCall_goes caller addr input gas w : call_goes w (evm_DelegateCall env run caller addr input gas w).
Proof.
  unfold evm_DelegateCall. destruct (_ <? _); [by apply call_stays|].
  destruct (evm_Snapshot w) as [id w2] eqn:E2. apply snapshot_ask in E2 as [-> Hs]. apply (settled_run w w2); [done|apply run_code_goes].
Qed.
Lemma StaticCall_goes caller addr input gas w : call_goes w (evm_StaticCall env run caller addr input gas w).
Proof.
  unfold evm_StaticCall. destruct (_ <? _); [by apply call_stays|].
  destruct (evm_Snapshot w) as [id w2] eqn:E2. apply snapshot_ask in E2 as [-> Hs].
  apply (settled_run w (change (StateDB_AddBalance db addr 0) w2)); [|apply run_code_goes].
  apply (since_trans w w2); [done|]. by apply (goes_change (OpAddBalance addr 0)).
Qed.

(** What a creation does before its snapshot: the nonce of the creator is raised
    and the new address warmed up. *)
Definition begun (caller address : Address) (value : Z) (w : EVM) : EVM :=
  let '(_, w) := CanTransfer env caller value w in
  let '(nonce, w) := ask (GetNonce db caller) w in
  let w := change (SetNonce db caller (add64 nonce 1)) w in
  if IsBerlin (chainRules env) then change (AddAddressToAccessList address) w else w.
Definition create_err (r : bytes * Address * Z * option vmError * EVM) : option vmError := r.1.2.
Definition create_undone (caller address : Address) (value : Z) (w : EVM) (r : bytes * Address * Z * option vmError * EVM) : Prop :=
  create_err r ≠ None → IsHomestead (chainRules env) = true → ok db (evm_StateDB w) →
  eqv db (evm_StateDB r.2) (evm_StateDB w) ∨ eqv db (evm_StateDB r.2) (evm_StateDB (begun caller address value w)).

Lemma goes_store_code address r w : goes w r.2 → goes w (store_code env address r).2.
Proof.
  destruct r as [[[rt err] g] w']. simpl. intros Hg. destruct err; [done|]. destruct (_ && _); [done|].
  destruct (_ && _); [done|]. destruct (g <? _); [done|]. simpl.
  transitivity w'; [done|]. by apply (goes_change (OpSetCode address rt)).
Qed.
Lemma goes_begun caller address value w : goes w (begun caller address value w).
Proof.
  unfold begun. destruct (CanTransfer _ _ _ w) as [can w1] eqn:E1. apply goes_CanTransfer in E1.
  destruct (ask _ w1) as [n w2] eqn:E2. assert (H2 : goes w w2) by walk_back goes.
  assert (H3 : goes w (change (SetNonce db caller (add64 n 1)) w2)).
  { transitivity w2; [done|]. by apply (goes_change (OpSetNonce caller (add64 n 1))). }
  destruct (IsBerlin _); [walk_back goes|done].
Qed.
Lemma create_goes caller code gas value address w :
  returns (λ r, goes w r.2 ∧ create_undone caller address value w r) (evm_create env run caller code gas value address w).
Proof.
  unfold evm_create. destruct (_ <? _); [split; [simpl; reflexivity|by left]|].
  pose proof (goes_begun caller address value w) as Hb. unfold create_undone, begun in *.
  destruct (CanTransfer _ _ _ w) as [can w1] eqn:E1.
  pose proof (goes_CanTransfer _ _ _ _ _ E1) as H1. pose proof (CanTransfer_eqv _ _ _ _ _ E1) as H1e.
  destruct (negb can); [split; [done|by left; apply H1e]|]. destruct (ask (GetNonce _ _) w1) as [nonce w2] eqn:E2.
  assert (H2 : goes w w2) by walk_back goes.
  destruct (_ <? nonce).
  { split; [done|]. left. transitivity (evm_StateDB w1); [|by apply H1e]. apply (GetNonce_eqv _ _ _ _ E2). by apply (goes_path _ _ H1). }
  cbv zeta. set (w3 := if IsBerlin _ then _ else _) in *.
  destruct (ask (GetCodeHash _ _) w3) as [h w4] eqn:E4. destruct (ask (GetNonce _ _) w4) as [n w5] eqn:E5.
  assert (H4 : goes w w4) by walk_back goes. assert (H5 : goes w w5) by walk_back goes.
  assert (H5e : ok db (evm_StateDB w) → eqv db (evm_StateDB w5) (evm_StateDB w3)).
  { intros Ho. transitivity (evm_StateDB w4).
    - apply (GetNonce_eqv _ _ _ _ E5). by apply (goes_path _ _ H4).
    - apply (GetCodeHash_eqv _ _ _ _ E4). by apply (goes_path _ _ Hb). }
  destruct (_ || _); [split; [done|by right; apply H5e]|].
  destruct (evm_Snapshot w5) as [id w6] eqn:E6. apply snapshot_ask in E6 as [-> Hs].
  set (w7 := change (CreateAccount db address) w6). set (w8 := if rules_IsEIP158 _ then _ else _).
  set (w9 := Transfer _ _ _ _ w8).
  assert (Hs9 : since w5 w9).
  { apply (since_trans w5 w6); [done|]. transitivity w7; [by apply (goes_change (OpCreateAccount address))|].
    transitivity w8; [|apply goes_Transfer]. unfold w8. destruct (rules_IsEIP158 _); [|reflexivity].
    by apply (goes_change (OpSetNonce address 1)). }
  apply returns_bind. eapply returns_mono; [apply Hrun|]. intros r Hr.
  pose proof (goes_store_code address r w9 Hr) as Hst. cbv beta.
  destruct (store_code env address r) as [[[rt err] g] w10]. simpl in Hst.
  assert (Hs10 : since w5 w10) by (by eapply since_trans).
  assert (H10 : goes w w10) by (transitivity w5; [done|by apply since_goes]).
  destruct err as [e|]; [|by split].
  destruct (IsHomestead (chainRules env) || _) eqn:Eh.
  - unfold change_or_panic. destruct (RevertToSnapshot _ _ _) as [s| |] eqn:HR; simpl; try done.
    destruct (since_reverted w5 w10 s Hs10 HR) as [Hg He]. split; [by transitivity w5|]. intros _ _ Ho. right.
    transitivity (evm_StateDB w5); [|by apply H5e]. apply He. by apply (goes_path _ _ H5).
  - split; [done|]. intros _ Hh. by rewrite Hh in Eh.
Qed.
Lemma calls_goes : calls_walk goes (calls_of env run).
Proof.
  split; intros; simpl.
  - eapply returns_mono; [apply Call_goes|]. by intros r [? _].
  - eapply returns_mono; [apply CallCode_goes|]. by intros r [? _].
  - eapply returns_mono; [apply DelegateCall_goes|]. by intros r [? _].
  - eapply returns_mono; [apply StaticCall_goes|]. by intros r [? _].
  - unfold evm_Create. destruct (ask _ w) as [n w1] eqn:E1. eapply returns_mono; [apply create_goes|].
    intros r [? _]. walk_back goes.
  - unfold evm_Create2. eapply returns_mono; [apply create_goes|]. by intros r [? _].
Qed.
End Calls.

Lemma Run_frame_goes loop c input ro w : (∀ pc sc w, returns (λ x, goes w x.2) (loop pc sc w)) →
  returns (λ x, goes w x.2) (Run_frame loop c input ro w).
Proof.
  intros Hl. unfold Run_frame. destruct (_ =? 0)%nat; [by split|]. apply returns_bind.
  eapply returns_mono; [apply Hl|]. intros [[[ret err] g] w'] [Hp Hd Hr]. by split.
Qed.
Lemma Run_goes fuel c input ro w : returns (λ x, goes w x.2) (Run env fuel c input ro w).
Proof.
  apply Run_frame_goes. intros. apply (walk_loop env true goes); [done|]. intros loop Hl. apply calls_goes. intros. by apply Run_frame_goes.
Qed.
End Frames.
