(* ===== verification/EvmViews.v ===== *)
(** * What operations leave of storage and code

    The value a slot has, the value it had when the transaction began, and the
    code of an account, after each operation of the state database. An operation
    other than SetState and SetCode leaves all of them, or empties an account. *)

From S2P Require Import Prelude Bytes Rlp Types Text StateDB StateRevert StateHistory.

Section Views.
Context `{Crypto} (db : Backend).
(** The empty root opens an empty trie. *)
Context (Hempty : ∀ a k, ∃ get, OpenStorageTrie db a state_emptyRoot = Ok get ∧ get k = Ok []).
#[local] Notation seen := (seen db).
#[local] Notation obj_of := (obj_of db).

Definition value (s : StateDB) (a : Address) (k : Hash) : Hash := (GetState db a k s).1.
Definition original (s : StateDB) (a : Address) (k : Hash) : Hash := (StateDB_GetCommittedState db a k s).1.
Definition code_of (s : StateDB) (a : Address) : option bytes := (GetCode db a s).1.

Lemma value_seen s a k : value s a k = from_option (λ o, slot db o k) 0 (seen s a).
Proof. apply read_object_seen. Qed.
Lemma original_seen s a k : original s a k = from_option (λ o, committed db o k) 0 (seen s a).
Proof. apply read_object_seen. Qed.
Lemma code_of_seen s a : code_of s a = from_option (code_view db) None (seen s a).
Proof. apply read_object_seen. Qed.

Record kept (s s' : StateDB) : Prop := {
  kp_storage a : (∀ k, original s' a k = original s a k ∧ value s' a k = value s a k) ∨ (∀ k, original s' a k = 0);
  kp_code a : code_of s' a = code_of s a ∨ code_of s' a = None
}.
#[export] Instance kept_preorder : PreOrder kept.
Proof.
  split; [split; intros; by left|]. intros s t u [S1 C1] [S2 C2]. split; intros a.
  - destruct (S2 a) as [E2|E2]; [|by right]. destruct (S1 a) as [E1|E1]; [left|right]; intros k; destruct (E2 k) as [E3 E4]; rewrite ?E3, ?E4; auto.
  - destruct (C2 a) as [->|]; auto.
Qed.

(** The counter and the access list stay. *)
Definition quiet (s s' : StateDB) : Prop := refund s' = refund s ∧ access s' = access s.
#[export] Instance quiet_preorder : PreOrder quiet.
Proof. split; [done|]. intros s t u [E1 E2] [E3 E4]. split; congruence. Qed.
Lemma quiet_eqv s s' : eqv db s' s → quiet s s'.
Proof. intros []. done. Qed.

(** ** Objects *)

Record same_view (o' o : stateObject) : Prop := {
  sv_code : code_view db o' = code_view db o;
  sv_committed k : committed db o' k = committed db o k;
  sv_slot k : slot db o' k = slot db o k
}.
(** No code, no storage. *)
Record blank (o : stateObject) : Prop := {
  bl_code : code_view db o = None;
  bl_committed k : committed db o k = 0;
  bl_slot k : slot db o k = 0
}.
Lemma same_view_refl o : same_view o o.
Proof. by split. Qed.
Lemma same_view_eq o' o : obj_eq db o' o → same_view o' o.
Proof. intros []. by split. Qed.
Lemma same_view_data o' o : so_address o' = so_address o → acc_Root (so_data o') = acc_Root (so_data o) →
  acc_CodeHash (so_data o') = acc_CodeHash (so_data o) → so_code o' = so_code o → originStorage o' = originStorage o →
  pendingStorage o' = pendingStorage o → dirtyStorage o' = dirtyStorage o → same_view o' o.
Proof.
  intros E1 E2 E3 E4 E5 E6 E7. assert (Hc : ∀ k, committed db o' k = committed db o k).
  { intros k. rewrite !committed_eq. by rewrite E1, E2, E5, E6. }
  split; [|done|].
  - rewrite !code_view_eq. by rewrite E3, E4.
  - intros k. rewrite !slot_eq. by rewrite Hc, E7.
Qed.
Lemma same_view_balance b o : same_view (setBalance b o) o.
Proof. by apply same_view_data. Qed.
Lemma same_view_nonce n o : same_view (setNonce n o) o.
Proof. by apply same_view_data. Qed.
Lemma same_view_flags f d o : same_view (with_flags f d o) o.
Proof. by apply same_view_data. Qed.
Lemma same_view_trans o1 o2 o3 : same_view o1 o2 → same_view o2 o3 → same_view o1 o3.
Proof. intros [] []. split; intros; etrans; eauto. Qed.
Lemma blank_same o' o : same_view o' o → blank o → blank o'.
Proof. intros [S1 S2 S3] [B1 B2 B3]. split; intros; rewrite ?S1, ?S2, ?S3; auto. Qed.
Lemma blank_new a : blank (newObject a zeroAccount).
Proof.
  assert (Hc : ∀ k, committed db (newObject a zeroAccount) k = 0).
  { intros k. rewrite committed_eq. simpl. rewrite !lookup_empty. unfold fresh_value. simpl.
    destruct (Hempty a k) as (get & Hg & Hk). by rewrite Hg, Hk. }
  split; [|done|].
  - rewrite code_view_eq. simpl. by rewrite Z.eqb_refl.
  - intros k. rewrite slot_eq. simpl. by rewrite lookup_empty, Hc.
Qed.

Lemma kept_intro s s' : (∀ a, option_Forall2 same_view (seen s' a) (seen s a) ∨ ∃ o, seen s' a = Some o ∧ blank o) → kept s s'.
Proof.
  intros Hs. split; intros a; destruct (Hs a) as [Hv|(o & Ho & [B1 B2 B3])].
  - left. intros k. rewrite !original_seen, !value_seen. destruct Hv as [o' o Hv|]; [|done]. simpl. split; apply Hv.
  - right. intros k. rewrite original_seen, Ho. apply B2.
  - left. rewrite !code_of_seen. destruct Hv as [o' o Hv|]; [|done]. apply Hv.
  - right. by rewrite code_of_seen, Ho.
Qed.
Lemma kept_eqv s s' : eqv db s' s → kept s s'.
Proof.
  intros E. apply kept_intro. intros a. left. destruct (seen_eqv db s' s a E) as [o' o Ho|]; constructor. by apply same_view_eq.
Qed.

(** ** States *)

Lemma seen_objects s s' a : stateObjects s' = stateObjects s → seen s' a = seen s a.
Proof. intros E. unfold seen. by rewrite !obj_of_eq, E. Qed.
Lemma kept_objects s s' : stateObjects s' = stateObjects s → kept s s'.
Proof.
  intros E. apply kept_intro. intros a. left. rewrite (seen_objects _ _ _ E). destruct (seen s a); constructor. apply same_view_refl.
Qed.
Lemma seen_set o s a : seen (setStateObject o s) a =
  if decide (so_address o = a) then (if deleted o then None else Some o) else seen s a.
Proof. unfold seen. rewrite obj_of_set. by destruct (decide _). Qed.
(** Another object of the same view in its place. *)
Lemma kept_set n e s a o : seen s a = Some o → so_address n = a → deleted n = false → same_view n o →
  kept s (setStateObject n (append e s)).
Proof.
  intros Ho Ha Hd Hv. apply kept_intro. intros b. left. rewrite seen_set, Ha. destruct (decide (a = b)) as [<-|Hne].
  - rewrite Hd, Ho. by constructor.
  - rewrite (seen_objects s (append e s)) by done. destruct (seen s b); constructor. apply same_view_refl.
Qed.

Lemma seen_loaded a s b : keyed s → seen (getStateObject db a s).2 b = seen s b.
Proof.
  intros Hk. rewrite getStateObject_snd. destruct (load_object_spec db a s Hk) as (L1 & _). unfold seen. by rewrite L1.
Qed.
Lemma getStateObject_eqv a s : keyed s → eqv db (getStateObject db a s).2 s.
Proof.
  intros Hk. rewrite getStateObject_snd. destruct (load_object_spec db a s Hk) as (L1 & L2 & _). by apply eqv_same.
Qed.
Lemma read_object_eqv {A} (f : stateObject → A * stateObject) d a s : good s → (∀ o, obj_eq db (f o).2 o) →
  eqv db (read_object db f d a s).2 s.
Proof.
  intros Hg Hf. unfold read_object. pose proof (getStateObject_eqv a s (g_keyed _ Hg)) as E.
  destruct (getStateObject_ext db a s Hg) as [_ HL]. destruct (getStateObject db a s) as [[o|] s1]; simpl in *; [|done].
  specialize (Hf o). destruct (f o) as [v o1]. simpl in *. destruct (HL o eq_refl) as (Ho & Hd & Ha).
  etransitivity; [|exact E]. split; try done. intros b. rewrite obj_of_set, (oe_address _ _ _ Hf), Ha.
  destruct (decide (a = b)) as [<-|]; [rewrite Ho; by constructor|apply (ev_obj _ _ _ (reflexivity s1))].
Qed.

(** The object an operation works on: the one seen, or a blank one. *)
Lemma GetOrNew_seen a s : good s →
  let '(o, s1) := GetOrNewStateObject db a s in
  seen s1 a = Some o ∧ so_address o = a ∧ deleted o = false ∧ kept s s1 ∧ good s1 ∧ quiet s s1 ∧
  (seen s a = Some o ∨ seen s a = None ∧ blank o) ∧ (∀ b, a ≠ b → seen s1 b = seen s b).
Proof.
  intros Hg. pose proof (GetOrNew_ext db a s Hg) as [HE HL]. unfold GetOrNewStateObject in *.
  pose proof (seen_loaded a s) as Hsl. pose proof (getStateObject_eqv a s (g_keyed _ Hg)) as Hev.
  pose proof (getStateObject_seen db a s) as Hsa.
  destruct (getStateObject db a s) as [o s1] eqn:E1. simpl in Hsl, Hev, Hsa. destruct o as [o|]; simpl in *.
  - destruct HL as (L1 & L2 & L3). specialize (Hsl a (g_keyed _ Hg)) as Hsa'.
    split_and!; [by rewrite Hsa', <- Hsa|done|done|by apply kept_eqv|apply HE|by apply quiet_eqv|left; done|].
    intros b _. apply Hsl, Hg.
  - assert (Hk1 : good s1) by (pose proof (getStateObject_ext db a s Hg) as [HE1 _]; rewrite E1 in HE1; apply HE1).
    destruct (load_object_spec db a s1 (g_keyed _ Hk1)) as (L1 & L2 & _). unfold createObject in *.
    destruct (getDeletedStateObject db a s1) as [prev s2] eqn:E2. simpl in L1, L2.
    set (n := newObject a zeroAccount) in *. set (s3 := match prev with None => _ | Some p => _ end) in *.
    assert (E3 : stateObjects s3 = stateObjects s2 ∧ quiet s2 s3) by (unfold s3; by destruct prev). destruct E3 as [E3 E4].
    assert (Hs3 : ∀ b, seen s3 b = seen s b).
    { intros b. rewrite (seen_objects s2 s3 b E3). transitivity (seen s1 b); [unfold seen; by rewrite L1|apply Hsl, Hg]. }
    assert (Hn : ∀ b, seen (setStateObject n s3) b = if decide (a = b) then Some n else seen s b).
    { intros b. rewrite seen_set. simpl. by destruct (decide (a = b)). }
    simpl in HE, HL |- *. split_and!; try done.
    + by rewrite Hn, decide_True.
    + apply kept_intro. intros b. rewrite Hn. destruct (decide (a = b)).
      * right. exists n. split; [done|apply blank_new].
      * left. destruct (seen s b); constructor. apply same_view_refl.
    + apply HE.
    + transitivity s1; [by apply quiet_eqv|]. transitivity s2; [|done]. destruct L2 as (L2 & _ & _ & _ & L3 & _). by split.
    + right. split; [by rewrite Hsa|apply blank_new].
    + intros b Hb. by rewrite Hn, decide_False.
Qed.
Lemma on_object_kept f a s : good s →
  (∀ o u, good u → seen u a = Some o → so_address o = a → deleted o = false → kept u (f o u) ∧ quiet u (f o u)) →
  kept s (on_object db f a s) ∧ quiet s (on_object db f a s).
Proof.
  intros Hg Hf. unfold on_object. pose proof (GetOrNew_seen a s Hg) as HN. destruct (GetOrNewStateObject db a s) as [o s1].
  destruct HN as (Hs & Ha & Hd & Hk & Hg1 & Hr & _). destruct (Hf o s1 Hg1 Hs Ha Hd) as [Hk' Hr'].
  split; by transitivity s1.
Qed.

(** ** The operations *)

Lemma SetBalance_kept b a o u : seen u a = Some o → so_address o = a → deleted o = false →
  kept u (so_SetBalance b o u) ∧ quiet u (so_SetBalance b o u).
Proof. intros Ho Ha Hd. split; [|done]. eapply kept_set; [done..|apply same_view_balance]. Qed.
Lemma AddBalance_kept a v s : good s →
  kept s (StateDB_AddBalance db a v s) ∧ quiet s (StateDB_AddBalance db a v s).
Proof.
  intros Hg. apply on_object_kept; [done|]. intros o u _ Ho Ha Hd. unfold so_AddBalance. destruct (v =? 0).
  - destruct (so_empty o); [|done]. unfold touch. destruct (_ =? _); (split; [by apply kept_objects|done]).
  - by apply (SetBalance_kept _ a).
Qed.
Lemma SubBalance_kept a v s : good s → kept s (SubBalance db a v s) ∧ quiet s (SubBalance db a v s).
Proof.
  intros Hg. apply on_object_kept; [done|]. intros o u _ Ho Ha Hd. unfold so_SubBalance. destruct (v =? 0); [done|].
  by apply (SetBalance_kept _ a).
Qed.
Lemma SetNonce_kept a n s : good s → kept s (SetNonce db a n s) ∧ quiet s (SetNonce db a n s).
Proof.
  intros Hg. apply on_object_kept; [done|]. intros o u _ Ho Ha Hd. split; [|done].
  eapply kept_set; [done..|apply same_view_nonce].
Qed.
Lemma Suicide_kept a s : good s → kept s (Suicide db a s).2 ∧ quiet s (Suicide db a s).2.
Proof.
  intros Hg. unfold Suicide. pose proof (getStateObject_eqv a s (g_keyed _ Hg)) as Hev.
  pose proof (getStateObject_ext db a s Hg) as [_ HL]. destruct (getStateObject db a s) as [[o|] s1]; simpl in *.
  - destruct (HL o eq_refl) as (L1 & L2 & L3). split; [|by apply quiet_eqv in Hev]. transitivity s1; [by apply kept_eqv|].
    eapply (kept_set _ _ s1 a o); [unfold StateHistory.seen; by rewrite L1, L2|done|done|].
    eapply same_view_trans; [apply same_view_balance|apply same_view_flags].
  - split; [by apply kept_eqv|by apply quiet_eqv].
Qed.
Lemma CreateAccount_kept a s : good s → kept s (CreateAccount db a s) ∧ quiet s (CreateAccount db a s).
Proof.
  intros Hg. unfold CreateAccount, createObject. destruct (load_object_spec db a s (g_keyed _ Hg)) as (L1 & L2 & _).
  destruct (getDeletedStateObject db a s) as [prev s2] eqn:E2. simpl in L1, L2. set (n := newObject a zeroAccount).
  set (s3 := match prev with None => append (createObjectChange a) s2 | Some p => append (resetObjectChange p false) s2 end).
  assert (E3 : stateObjects s3 = stateObjects s2 ∧ quiet s s3)
    by (destruct L2 as (L2 & _ & _ & _ & L3 & _); unfold s3, quiet; by destruct prev).
  assert (Hn : ∀ m, so_address m = a → deleted m = false → blank m → kept s (setStateObject m s3)).
  { intros m Ha Hd Hb. apply kept_intro. intros b. rewrite seen_set, Ha. destruct (decide (a = b)).
    - right. exists m. by rewrite Hd.
    - left. rewrite (seen_objects s2 s3 b) by apply E3. unfold StateHistory.seen. rewrite L1.
      destruct (obj_of s b) as [o|]; [destruct (deleted o)|]; constructor. apply same_view_refl. }
  destruct prev as [p|]; [destruct (deleted p)|]; simpl.
  - split; [apply Hn; [done..|apply blank_new]|apply E3].
  - split; [|apply E3]. rewrite set_set by done. apply Hn; [done..|].
    eapply blank_same; [apply same_view_balance|apply blank_new].
  - split; [apply Hn; [done..|apply blank_new]|apply E3].
Qed.

(** The object of [a] is changed from what it was, or from a blank one. *)
Lemma on_object_views f a s (P : stateObject → stateObject → Prop) : good s →
  (∀ o u, good u → seen u a = Some o → so_address o = a → deleted o = false →
     quiet u (f o u) ∧ (∀ b, a ≠ b → seen (f o u) b = seen u b) ∧ ∃ n, seen (f o u) a = Some n ∧ P o n) →
  quiet s (on_object db f a s) ∧ (∀ b, a ≠ b → seen (on_object db f a s) b = seen s b) ∧
  ∃ o n, seen (on_object db f a s) a = Some n ∧ (seen s a = Some o ∨ seen s a = None ∧ blank o) ∧ P o n.
Proof.
  intros Hg Hf. unfold on_object. pose proof (GetOrNew_seen a s Hg) as HN. destruct (GetOrNewStateObject db a s) as [o s1].
  destruct HN as (Hs & Ha & Hd & _ & Hg1 & Hr & Hor & Hb). destruct (Hf o s1 Hg1 Hs Ha Hd) as (Hr' & Hb' & n & Hn & HP).
  split_and!; [by transitivity s1| |by exists o, n]. intros b Hab. rewrite Hb' by done. by apply Hb.
Qed.

Lemma SetState_views a k v s : good s →
  let s' := SetState db a k v s in
  quiet s s' ∧ (∀ b, code_of s' b = code_of s b) ∧ (∀ b j, original s' b j = original s b j) ∧
  ∀ b j, value s' b j = if decide (a = b ∧ k = j) then v else value s b j.
Proof.
  intros Hg. cbv zeta.
  destruct (on_object_views (so_SetState db k v) a s (λ o n, code_view db n = code_view db o ∧
    (∀ j, committed db n j = committed db o j) ∧ ∀ j, slot db n j = if decide (k = j) then v else slot db o j) Hg)
    as (Hr & Hb & o & n & Hn & Ho & Hc & Hcm & Hsl).
  { intros o u _ Ho Ha Hd. unfold so_SetState. pose proof (so_GetState_eq db k o) as He. pose proof (oe_slot _ _ _ He k) as Ek.
    destruct (so_GetState db k o) as [prev o1] eqn:Eg. simpl in He.
    assert (Hprev : slot db o k = prev) by (unfold slot; by rewrite Eg).
    assert (Ha1 : so_address o1 = a) by (by rewrite (oe_address _ _ _ He)).
    assert (Hd1 : deleted o1 = false) by (by rewrite (oe_deleted _ _ _ He)).
    destruct (prev =? v) eqn:Ev; bprop.
    - split_and!; [done| |].
      + intros b Hab. by rewrite seen_set, Ha1, decide_False.
      + exists o1. rewrite seen_set, Ha1, decide_True, Hd1 by done. split_and!; [done|apply He|apply He|].
        intros j. rewrite (oe_slot _ _ _ He). case_decide; [by subst|done].
    - split_and!; [done| |].
      + intros b Hab. rewrite seen_set. simpl. rewrite Ha1, decide_False by done. by apply seen_objects.
      + exists (setState k v o1). rewrite seen_set. simpl. rewrite Ha1, decide_True, Hd1 by done. split_and!; [done| | |].
        * rewrite <- (oe_code _ _ _ He), !code_view_eq. done.
        * intros j. rewrite committed_setState. apply He.
        * intros j. rewrite slot_setState. case_decide; [done|apply He]. }
  fold (SetState db a k v s) in Hr, Hb, Hn.
  assert (Hview : code_of (SetState db a k v s) a = code_of s a ∧
    (∀ j, original (SetState db a k v s) a j = original s a j) ∧
    ∀ j, value (SetState db a k v s) a j = if decide (k = j) then v else value s a j).
  { rewrite !code_of_seen. split_and!; [|intros j; rewrite !original_seen|intros j; rewrite !value_seen]; rewrite Hn; simpl;
      destruct Ho as [-> | [-> [B1 B2 B3]]]; simpl; rewrite ?Hc, ?Hcm, ?Hsl; try done.
    by rewrite B3. }
  destruct Hview as (V1 & V2 & V3). split_and!; [done| | |].
  - intros b. destruct (decide (a = b)) as [<-|Hab]; [done|]. by rewrite !code_of_seen, Hb.
  - intros b j. destruct (decide (a = b)) as [<-|Hab]; [done|]. by rewrite !original_seen, Hb.
  - intros b j. destruct (decide (a = b)) as [<-|Hab].
    + rewrite V3. destruct (decide (k = j)) as [<-|]; [by rewrite decide_True|rewrite decide_False; naive_solver].
    + rewrite decide_False by naive_solver. by rewrite !value_seen, Hb.
Qed.
Lemma SetCode_views a c s : good s →
  let s' := SetCode db a c s in
  quiet s s' ∧ (∀ b, code_of s' b = if decide (a = b) then Some c else code_of s b) ∧
  (∀ b j, original s' b j = original s b j ∧ value s' b j = value s b j).
Proof.
  intros Hg. cbv zeta.
  destruct (on_object_views (so_SetCode db (keccak256 c) c) a s (λ o n, code_view db n = Some c ∧
    (∀ j, committed db n j = committed db o j) ∧ ∀ j, slot db n j = slot db o j) Hg)
    as (Hr & Hb & o & n & Hn & Ho & Hc & Hcm & Hsl).
  { intros o u _ Ho Ha Hd. unfold so_SetCode. pose proof (Code_eq db o) as He.
    destruct (Code db o) as [prev o1] eqn:Eg. simpl in He.
    assert (Ha1 : so_address o1 = a) by (by rewrite (oe_address _ _ _ He)).
    assert (Hd1 : deleted o1 = false) by (by rewrite (oe_deleted _ _ _ He)).
    split_and!; [done| |].
    - intros b Hab. rewrite seen_set. simpl. rewrite Ha1, decide_False by done. by apply seen_objects.
    - exists (setCode (keccak256 c) (Some c) o1). rewrite seen_set. simpl. rewrite Ha1, decide_True, Hd1 by done.
      assert (Hcm : ∀ j, committed db (setCode (keccak256 c) (Some c) o1) j = committed db o j).
      { intros j. rewrite <- (oe_committed _ _ _ He), !committed_eq. done. }
      split_and!; [done|by rewrite code_view_eq|done|].
      intros j. rewrite <- (oe_slot _ _ _ He), !slot_eq. rewrite Hcm, (oe_committed _ _ _ He). done. }
  fold (SetCode db a c s) in Hr, Hb, Hn. split_and!; [done| |].
  - intros b. rewrite !code_of_seen. destruct (decide (a = b)) as [<-|Hab]; [by rewrite Hn|by rewrite Hb].
  - intros b j. rewrite !original_seen, !value_seen. destruct (decide (a = b)) as [<-|Hab]; [|by rewrite Hb].
    rewrite Hn. simpl. rewrite Hcm, Hsl. destruct Ho as [-> | [-> [B1 B2 B3]]]; simpl; [done|by rewrite B2, B3].
Qed.
End Views.
