(* ===== verification/EvmTotal.v ===== *)
(** * The virtual machine does not panic

    With the rules of London (those of the chain from its first block), a call
    whose gas and input are within bounds returns: no stack, memory, code or
    return-data access is out of range, the refund counter does not go below zero
    or wrap around, the address of a running frame is in the access list, and
    every snapshot that is reverted to exists. *)

From S2P Require Import Prelude Bytes Rlp Types Params Misc Text StateDB StateRevert StateHistory EvmAnalysis EvmTable Evm EvmGas EvmState EvmViews.

(** ** The state a frame runs on *)

Section World.
Context `{Crypto} `{Uint256} (env : Env).
#[local] Notation db := (env_db env).
Context (Hempty : ∀ a k, ∃ get, OpenStorageTrie db a state_emptyRoot = Ok get ∧ get k = Ok []).

Definition warm (s : StateDB) (a : Address) : Prop := ContainsAddress a (access s) = true.
(** Codes fit an int. *)
Definition short (c : bytes) : Prop := Z.of_nat (length c) < 2 ^ 62.
Definition codes_ok (s : StateDB) : Prop := ∀ a c, code_of db s a = Some c → short c.

(** The slots that hold zero but did not when the transaction began; a write to
    one of them takes a refund back, which it was given when it was cleared. *)
Definition owed (s : StateDB) (D : gset (Address * Hash)) : Prop :=
  ∀ a k, original db s a k ≠ 0 → value db s a k = 0 → (a, k) ∈ D.
Definition refund_ok (s : StateDB) : Prop :=
  ∃ D, owed s D ∧ SstoreClearsScheduleRefundEIP3529 * Z.of_nat (size D) ≤ refund s.

Lemma codes_kept s s' : kept db s s' → codes_ok s → codes_ok s'.
Proof. intros [_ Hc] Ho a c Hac. destruct (Hc a) as [E|E]; rewrite E in Hac; [by apply (Ho a)|done]. Qed.
Lemma refund_kept s s' : kept db s s' → refund s' = refund s → refund_ok s → refund_ok s'.
Proof.
  intros [Hk _] Hr (D & HD & Hle). exists D. rewrite Hr. split; [|done]. intros a k Ho Hv.
  destruct (Hk a) as [E|E]; [|by rewrite E in Ho]. destruct (E k) as [E1 E2]. rewrite E1 in Ho. rewrite E2 in Hv. by apply HD.
Qed.
Lemma warm_quiet s s' a : quiet s s' → warm s a → warm s' a.
Proof. unfold warm. intros [_ ->]. done. Qed.

Lemma AddAddress_warm a s b : warm s b ∨ a = b → warm (AddAddressToAccessList a s) b.
Proof.
  unfold warm, AddAddressToAccessList, AddAddress, ContainsAddress. intros Hb.
  destruct (al_addresses (access s) !! a) as [i|] eqn:E; simpl.
  - destruct Hb as [Hb|<-]; [done|by rewrite E].
  - destruct (decide (a = b)) as [<-|Hne]; [by rewrite lookup_insert_eq|]. rewrite lookup_insert_ne by done. by destruct Hb.
Qed.
Lemma AddSlot_warm a k s s' b : AddSlotToAccessList a k s = Ok s' → warm s b → warm s' b.
Proof.
  unfold warm, AddSlotToAccessList, AddSlot, ContainsAddress.
  assert (Hin : ∀ i, match (<[a := i]> (al_addresses (access s))) !! b with Some _ => true | None => false end = true ∨
    al_addresses (access s) !! b = None).
  { intros i. destruct (decide (a = b)) as [<-|Hne]; [left; by rewrite lookup_insert_eq|]. rewrite lookup_insert_ne by done.
    destruct (al_addresses (access s) !! b); auto. }
  destruct (al_addresses (access s) !! a) as [i|] eqn:E; [destruct (i =? -1); [|destruct (al_slots _ !! _) as [m|]; [case_bool_decide|]]|];
    simpl; intros [= <-] Hb; simpl; try done; destruct (Hin (Z.of_nat (length (al_slots (access s))))) as [Hi|Hi];
    try done; by rewrite Hi in Hb.
Qed.

(** *** Every operation keeps codes short and addresses warm *)

Record mild (w w' : EVM) : Prop := {
  mild_goes : goes env w w';
  mild_codes : ok db (evm_StateDB w) → codes_ok (evm_StateDB w) → codes_ok (evm_StateDB w');
  mild_warm a : ok db (evm_StateDB w) → warm (evm_StateDB w) a → warm (evm_StateDB w') a
}.
Lemma goes_ok w w' : goes env w w' → ok db (evm_StateDB w) → ok db (evm_StateDB w').
Proof. intros [Hp _ _] Ho. by apply Hp. Qed.
#[export] Instance mild_preorder : PreOrder mild.
Proof.
  split; [by intros w; split|]. intros w1 w2 w3 [G1 C1 W1] [G2 C2 W2].
  split; [by transitivity w2|..]; intros; eauto using goes_ok.
Qed.
Lemma mild_kept w s : goes env w (with_db s w) →
  (ok db (evm_StateDB w) → kept db (evm_StateDB w) s ∧ quiet (evm_StateDB w) s) → mild w (with_db s w).
Proof.
  intros Hg Hk. split; [done| |].
  - intros Ho. apply codes_kept, Hk, Ho.
  - intros a Ho. apply warm_quiet, Hk, Ho.
Qed.
Lemma ok_keyed s : ok db s → keyed s.
Proof. intros Ho. apply Ho. Qed.
Lemma eqv_both s s' : eqv db s' s → kept db s s' ∧ quiet s s'.
Proof. intros. split; [by apply kept_eqv|by eapply quiet_eqv]. Qed.

(** The state operations by name, with what they keep. *)
Lemma query_both {A} (f : stateObject → A * stateObject) d a s : ok db s → (∀ o, obj_eq db (f o).2 o) →
  kept db s (read_object db f d a s).2 ∧ quiet s (read_object db f d a s).2.
Proof. intros Ho Hf. apply eqv_both. apply read_object_eqv; [apply Ho|done]. Qed.

Lemma AddAddress_objects a s : stateObjects (AddAddressToAccessList a s) = stateObjects s ∧
  refund (AddAddressToAccessList a s) = refund s.
Proof. unfold AddAddressToAccessList. by destruct (AddAddress _ _) as [[] ?]. Qed.
Lemma AddSlot_objects a k s s' : AddSlotToAccessList a k s = Ok s' → stateObjects s' = stateObjects s ∧ refund s' = refund s.
Proof. unfold AddSlotToAccessList. destruct (AddSlot _ _ _) as [[[[] []] ?]| |]; simpl; by intros [= <-]. Qed.

(** What the operations other than SetState, SetCode and those of the refund
    counter and the access list do. *)
Lemma op_both o s s' : ok db s → exec db o s = Ok s' →
  match o with
  | OpSetState _ _ _ | OpSetCode _ _ | OpSetBalance _ _ | OpAddRefund _ | OpSubRefund _ | OpAddAddress _ | OpAddSlot _ _
  | OpRevert _ => True
  | _ => kept db s s' ∧ quiet s s'
  end.
Proof.
  intros Ho. pose proof (ok_good _ _ Ho) as Hg. destruct o; try done; simpl; intros [= <-].
  - by apply CreateAccount_kept.
  - by apply AddBalance_kept.
  - by apply SubBalance_kept.
  - by apply SetNonce_kept.
  - by apply Suicide_kept.
  - split; [by apply kept_objects|done].
  - split; [apply kept_objects|]; unfold AddPreimage; by destruct (preimages s !! h).
  - apply eqv_both. pose proof (getStateObject_eqv db a s (g_keyed _ Hg)) as E. unfold Exist. by destruct (getStateObject db a s).
  - apply query_both; [done|apply Code_eq].
  - apply query_both; [done|apply CodeSize_eq].
  - apply query_both; [done|apply so_GetState_eq].
  - apply query_both; [done|apply GetCommittedState_eq].
  - split; [by apply kept_objects|done].
Qed.
Lemma mild_op o w s : on_revisions o = false → exec db o (evm_StateDB w) = Ok s →
  match o with
  | OpSetState _ _ _ | OpSetCode _ _ | OpSetBalance _ _ | OpAddRefund _ | OpSubRefund _ | OpAddAddress _ | OpAddSlot _ _
  | OpRevert _ => False
  | _ => True
  end → mild w (with_db s w).
Proof.
  intros Hr He Ho. apply mild_kept; [by eapply goes_op|]. intros Hok. pose proof (op_both o _ _ Hok He) as Hb. by destruct o.
Qed.
Lemma object_exist a s : (getStateObject db a s).2 = (Exist db a s).2.
Proof. unfold Exist. by destruct (getStateObject db a s). Qed.

#[export] Instance mild_walk : Walk env true mild.
Proof.
  split; try apply _; intros.
  - rewrite object_exist. by apply (mild_op (OpExist a)).
  - by apply (mild_op (OpGetCode a)).
  - by apply (mild_op (OpGetCodeSize a)).
  - by apply (mild_op (OpGetState a k)).
  - by apply (mild_op (OpGetCommittedState a k)).
  - split; [by apply (goes_op env (OpAddAddress a))|intros _; by apply codes_kept, kept_objects, AddAddress_objects|].
    intros b _ Hb. apply AddAddress_warm. by left.
  - split; [by apply (goes_op env (OpAddSlot a k))|intros _; by eapply codes_kept, kept_objects, AddSlot_objects|].
    intros b _ Hb. by eapply AddSlot_warm.
  - split; [by apply (goes_op env (OpAddRefund g))|intros _; by apply codes_kept, kept_objects|done].
  - assert (E : ∃ r, s = with_refund r (append (refundChange (refund (evm_StateDB w))) (evm_StateDB w)))
      by (revert H2; unfold SubRefund; simpl; case_match; [done|]; intros [= <-]; eauto).
    destruct E as [r ->]. split; [by apply (goes_op env (OpSubRefund g))|intros _; by apply codes_kept, kept_objects|done].
  - by apply (mild_op (OpAddPreimage h p)).
  - by split.
  - by split.
  - pose proof (λ Ho : ok db (evm_StateDB w), SetState_views db Hempty a k v _ (ok_good _ _ Ho)) as HV.
    split; [by apply (goes_op env (OpSetState a k v))| |].
    + intros Ho Hc b c. simpl. destruct (HV Ho) as (_ & -> & _). apply Hc.
    + intros b Ho. simpl. apply warm_quiet, HV, Ho.
  - by apply (mild_op (OpAddLog l)).
  - by apply (mild_op (OpAddBalance a v)).
  - by apply (mild_op (OpSuicide a)).
  - by destruct H1 as [[]].
Qed.

(** *** Operations other than a storage write keep what is owed *)

Record calm (w w' : EVM) : Prop := {
  calm_mild : mild w w';
  calm_kept : ok db (evm_StateDB w) → kept db (evm_StateDB w) (evm_StateDB w');
  calm_refund : ok db (evm_StateDB w) → refund (evm_StateDB w') = refund (evm_StateDB w)
}.
#[export] Instance calm_preorder : PreOrder calm.
Proof.
  split; [by intros w; split|]. intros w1 w2 w3 [M1 K1 R1] [M2 K2 R2].
  assert (Hok : ok db (evm_StateDB w1) → ok db (evm_StateDB w2)) by apply goes_ok, M1.
  split; [by transitivity w2|..]; intros Ho.
  - transitivity (evm_StateDB w2); auto.
  - rewrite R2; auto.
Qed.
Lemma calm_op o w s : on_revisions o = false → exec db o (evm_StateDB w) = Ok s →
  match o with
  | OpSetState _ _ _ | OpSetCode _ _ | OpSetBalance _ _ | OpAddRefund _ | OpSubRefund _ | OpAddAddress _ | OpAddSlot _ _
  | OpRevert _ => False
  | _ => True
  end → calm w (with_db s w).
Proof.
  intros Hr He Ho. split; [by eapply mild_op|..]; intros Hok; pose proof (op_both o _ _ Hok He) as Hb; destruct o; try done; apply Hb.
Qed.
#[export] Instance calm_walk : Walk env false calm.
Proof.
  split; try apply _; intros; try done.
  - rewrite object_exist. by apply (calm_op (OpExist a)).
  - by apply (calm_op (OpGetCode a)).
  - by apply (calm_op (OpGetCodeSize a)).
  - by apply (calm_op (OpGetState a k)).
  - by apply (calm_op (OpGetCommittedState a k)).
  - split; [apply (walk_AddAddress env (R:=mild))|intros _; apply kept_objects|intros _]; apply AddAddress_objects.
  - split; [by apply (walk_AddSlot env (R:=mild) a k)|intros _; eapply kept_objects|intros _]; by eapply AddSlot_objects.
  - by apply (calm_op (OpAddPreimage h p)).
  - by apply (calm_op (OpAddLog l)).
  - by apply (calm_op (OpAddBalance a v)).
  - by apply (calm_op (OpSuicide a)).
  - by destruct H1 as [[[]]].
Qed.
End World.

(** ** Outcomes that are not a panic *)

Definition wp {A} (P : A → Prop) (m : outcome A) : Prop :=
  match m with Ret a => P a | Crash _ => False | NoFuel => True end.
Lemma wp_bind {A B} (P : B → Prop) (f : A → outcome B) m : wp (λ a, wp P (f a)) m → wp P (m ≫= f).
Proof. by destruct m. Qed.
Lemma wp_mono {A} (P Q : A → Prop) m : wp P m → (∀ a, P a → Q a) → wp Q m.
Proof. destruct m; simpl; auto. Qed.
Lemma wp_post {A} (P Q : A → Prop) m : wp P m → post Q m → wp (λ a, P a ∧ Q a) m.
Proof. destruct m; simpl; auto. Qed.
Lemma wp_returns {A} (P Q : A → Prop) m : wp P m → returns Q m → wp (λ a, P a ∧ Q a) m.
Proof. destruct m; simpl; auto. Qed.
Lemma wp_Back n st P : (∀ x, st !! n = Some x → P x) → (n < length st)%nat → wp P (Back n st).
Proof. intros HP Hn. unfold Back. destruct (lookup_lt_is_Some_2 st n Hn) as [x Hx]. rewrite Hx. by apply HP. Qed.
Lemma wp_slice d a b P : a ≤ b ≤ Z.of_nat (length d) → (∀ x, P x) → wp P (slice d a b).
Proof.
  intros Hb HP. unfold slice. rewrite (proj2 (Z.ltb_ge _ _)), (proj2 (Z.ltb_ge _ _)) by lia. apply HP.
Qed.
(** With [size] bytes to copy from short data nothing overflows. *)
Lemma wp_getData d start size P : short d → 0 ≤ start → 0 ≤ size < 2 ^ 62 → (∀ x, P x) → wp P (getData d start size).
Proof.
  intros Hd Hs Hz HP. unfold getData, short in *.
  set (a := if _ <? start then _ else _). assert (Ha : 0 ≤ a ≤ Z.of_nat (length d)) by (unfold a; destruct (_ <? _) eqn:E; bprop; lia).
  clearbody a. rewrite add64_small by (unfold is_u64, two64; lia). apply wp_bind. apply wp_slice; [|intros; apply HP].
  destruct (_ <? _) eqn:E; bprop; lia.
Qed.

(** *** Memory *)

(** The range asked for lies in the memory. *)
Definition in_mem (o l : Z) (m : Memory) : Prop := 0 ≤ l < two64 ∧ (l = 0 ∨ 0 ≤ o ∧ o + l ≤ mem_Len m).

Lemma mem_ok_len m : mem_ok m → 0 ≤ mem_Len m ≤ 2 ^ 37.
Proof. intros (w & Hw & -> & _). lia. Qed.
Lemma in_mem_u64 o l m : mem_ok m → in_mem o l m → l ≠ 0 → 0 < l ∧ Uint64 o = o ∧ Uint64 l = l ∧ i64 o = o ∧ i64 l = l ∧ 0 ≤ o ∧ o + l ≤ mem_Len m.
Proof.
  intros Hm [Hl Hr] Hne. pose proof (mem_ok_len m Hm). destruct Hr as [|[Ho Hb]]; [done|].
  unfold Uint64, u64, i64, two64 in *. rewrite !Z.mod_small by lia. repeat split; try lia; ztests; done.
Qed.
Lemma wp_mem_Set o l v m P : mem_ok m → in_mem o l m → (∀ x, P x) → wp P (mem_Set (Uint64 o) (Uint64 l) v m).
Proof.
  intros Hm Hi HP. unfold mem_Set. destruct (decide (l = 0)) as [->|Hne]; [apply HP|].
  destruct (in_mem_u64 _ _ _ Hm Hi Hne) as (H1 & -> & -> & _ & _ & H2 & H3). pose proof (mem_ok_len m Hm).
  rewrite (proj2 (Z.ltb_lt 0 l)) by lia. rewrite add64_small by (unfold is_u64, two64; lia).
  rewrite (proj2 (Z.ltb_ge _ _)), (proj2 (Z.ltb_ge _ _)) by lia. apply HP.
Qed.
Lemma wp_Set32 o v m P : mem_ok m → in_mem o 32 m → (∀ x, P x) → wp P (Set32 (Uint64 o) v m).
Proof.
  intros Hm Hi HP. unfold Set32. destruct (in_mem_u64 _ _ _ Hm Hi) as (_ & -> & _ & _ & _ & H2 & H3); [done|].
  pose proof (mem_ok_len m Hm). rewrite add64_small by (unfold is_u64, two64; lia).
  rewrite (proj2 (Z.ltb_ge _ _)), (proj2 (Z.ltb_ge _ _)) by lia. apply HP.
Qed.
Lemma i64_0 : i64 (Uint64 0) = 0.
Proof. done. Qed.
Lemma wp_GetPtr o l m (P : bytes → Prop) : mem_ok m → in_mem o l m → (∀ x, short x → P x) →
  wp P (GetPtr (i64 (Uint64 o)) (i64 (Uint64 l)) m).
Proof.
  intros Hm Hi HP. unfold GetPtr. destruct (decide (l = 0)) as [->|Hne]; [by apply HP|].
  destruct (in_mem_u64 _ _ _ Hm Hi Hne) as (H1 & -> & -> & -> & -> & H2 & H3). pose proof (mem_ok_len m Hm).
  rewrite (proj2 (Z.eqb_neq _ _)) by lia. destruct (o <? mem_Len m); [|by apply HP]. rewrite (proj2 (Z.ltb_ge _ _)) by lia.
  unfold slice. rewrite (proj2 (Z.ltb_ge _ _)), (proj2 (Z.ltb_ge _ _)) by (unfold mem_Len in *; lia). apply HP.
  unfold short, mem_Len in *. rewrite length_take, length_drop. lia.
Qed.
Lemma wp_GetCopy o l m (P : bytes → Prop) : mem_ok m → in_mem o l m → (∀ x, short x → P x) →
  wp P (GetCopy (i64 (Uint64 o)) (i64 (Uint64 l)) m).
Proof.
  intros Hm Hi HP. unfold GetCopy. destruct (decide (l = 0)) as [->|Hne]; [by apply HP|].
  destruct (in_mem_u64 _ _ _ Hm Hi Hne) as (H1 & -> & -> & -> & -> & H2 & H3). pose proof (mem_ok_len m Hm).
  rewrite (proj2 (Z.eqb_neq _ _)) by lia. destruct (o <? mem_Len m); [|by apply HP].
  rewrite (proj2 (Z.ltb_ge o 0)), (proj2 (Z.ltb_ge l 0)) by lia. cbn [orb].
  unfold slice. rewrite (proj2 (Z.ltb_ge _ _)), (proj2 (Z.ltb_ge _ _)) by (unfold mem_Len in *; lia). apply HP.
  unfold short, mem_Len in *. rewrite length_take, length_drop. lia.
Qed.

(** What the memory size of an operation covers. *)
Definition covered (f : memory_function) (st : list Z) (m : Memory) : Prop :=
  let range i j := ∀ o l, st !! i = Some o → st !! j = Some l → in_mem o l m in
  let word i n := ∀ o, st !! i = Some o → in_mem o n m in
  match f with
  | MKeccak256 | MReturn | MRevert | MLog => range 0%nat 1%nat
  | MCallDataCopy | MReturnDataCopy | MCodeCopy => range 0%nat 2%nat
  | MExtCodeCopy => range 1%nat 3%nat
  | MMLoad | MMStore => word 0%nat 32
  | MMStore8 => word 0%nat 1
  | MCreate | MCreate2 => range 1%nat 2%nat
  | MCall => range 5%nat 6%nat ∧ range 3%nat 4%nat
  | MDelegateCall | MStaticCall => range 4%nat 5%nat ∧ range 2%nat 3%nat
  end.

Lemma calcMemSize64_in o l n m : calcMemSize64 o l = (n, false) → n ≤ mem_Len m → in_mem o l m.
Proof.
  unfold calcMemSize64, calcMemSize64WithUint, Uint64WithOverflow, in_mem. destruct (IsUint64 l) eqn:El; [|done]. cbn [negb].
  assert (Hl : 0 ≤ l < two64) by (unfold IsUint64 in El; bprop; lia).
  assert (Uint64 l = l) as -> by (by apply u64_small). destruct (l =? 0) eqn:E0; bprop; [intros _ _; split; [done|by left]|].
  destruct (IsUint64 o) eqn:Eo; [|done]. cbn [negb]. assert (Ho : 0 ≤ o < two64) by (unfold IsUint64 in Eo; bprop; lia).
  rewrite (u64_small o) by done. intros [= <- Hov] Hn. bprop. split; [done|]. right. split; [lia|].
  unfold add64, u64, two64 in *. dlia.
Qed.
Lemma calcMemSize64WithUint_in o l n m : 0 < l < two64 → calcMemSize64WithUint o l = (n, false) → n ≤ mem_Len m → in_mem o l m.
Proof.
  intros Hl HE. apply (calcMemSize64_in o l n m). unfold calcMemSize64, IsUint64.
  rewrite (proj2 (Z.leb_le _ _)), (proj2 (Z.ltb_lt _ _)) by lia. cbn [negb andb]. unfold Uint64. by rewrite u64_small by (unfold is_u64; lia).
Qed.
Lemma mem2_in i j st n m : mem2 i j st = Ret (n, false) → n ≤ mem_Len m →
  ∀ o l, st !! i = Some o → st !! j = Some l → in_mem o l m.
Proof.
  unfold mem2, Back. intros HE Hn o l Ho Hl. rewrite Ho in HE. simpl in HE. rewrite Hl in HE. simpl in HE. injection HE as HE.
  by eapply calcMemSize64_in.
Qed.
Lemma mem_fixed_in i k st n m : 0 < k < two64 → mem_fixed i k st = Ret (n, false) → n ≤ mem_Len m →
  ∀ o, st !! i = Some o → in_mem o k m.
Proof.
  unfold mem_fixed, Back. intros Hk HE Hn o Ho. rewrite Ho in HE. simpl in HE. injection HE as HE. by eapply calcMemSize64WithUint_in.
Qed.
Lemma mem_larger_in f g st n : mem_larger f g st = Ret (n, false) →
  ∃ x y, f st = Ret (x, false) ∧ g st = Ret (y, false) ∧ x ≤ n ∧ y ≤ n.
Proof.
  unfold mem_larger. destruct (f st) as [[x []]| |]; simpl; try done. destruct (g st) as [[y []]| |]; simpl; try done.
  destruct (y <? x) eqn:E; intros [= <-]; bprop; eexists _, _; split_and!; try done; lia.
Qed.
Lemma memory_fun_covered f st n m : memory_fun f st = Ret (n, false) → n ≤ mem_Len m → covered f st m.
Proof.
  intros HE Hn. assert (32 < two64 ∧ 1 < two64) by done.
  destruct f; simpl in *; try (by eapply mem2_in); try (eapply mem_fixed_in; [|done|done]; lia);
    apply mem_larger_in in HE as (x & y & Hx & Hy & ? & ?); split; eapply mem2_in; eauto; lia.
Qed.

(** ** What the London table promises *)

(** Stack items an instruction, a gas function and a memory function look at. *)
Definition pops (x : execution) : nat :=
  match x with
  | XIszero | XNot | XBalance | XCallDataLoad | XExtCodeSize | XExtCodeHash | XBlockhash | XPop | XMload | XSload | XJump
  | XSelfdestruct => 1
  | XAdd | XMul | XSub | XDiv | XSdiv | XMod | XSmod | XExp | XSignExtend | XLt | XGt | XSlt | XSgt | XEq | XAnd | XOr
  | XXor | XByte | XSHL | XSHR | XSAR | XKeccak256 | XMstore | XMstore8 | XSstore | XJumpi | XReturn | XRevert => 2
  | XAddmod | XMulmod | XCallDataCopy | XCodeCopy | XReturnDataCopy | XCreate => 3
  | XExtCodeCopy | XCreate2 => 4
  | XDelegateCall | XStaticCall => 6
  | XCall | XCallCode => 7
  | XDup n => Nat.max 1 n
  | XSwap n => S n
  | XLog n => S (S n)
  | _ => 0
  end.
Definition gas_pops (g : gas_function) : nat :=
  match g with
  | GSLoadEIP2929 | GAccountCheckEIP2929 | GSelfdestruct | GSelfdestructEIP2929 | GSelfdestructEIP3529 => 1
  | GExpFrontier | GExpEIP158 | GKeccak256 | GSStore | GSStoreEIP2200 | GSStoreEIP2929 | GSStoreEIP3529 | GLog _
  | GDelegateCall | GStaticCall | GDelegateCallEIP2929 | GStaticCallEIP2929 => 2
  | GCreate2 | GCall | GCallCode | GCallEIP2929 | GCallCodeEIP2929 => 3
  | GExtCodeCopyEIP2929 => 4
  | GCopy n => S n
  | GMemory => 0
  end.
Definition mem_pops (f : memory_function) : nat :=
  match f with
  | MMLoad | MMStore | MMStore8 => 1
  | MKeccak256 | MReturn | MRevert | MLog => 2
  | MCallDataCopy | MReturnDataCopy | MCodeCopy | MCreate | MCreate2 => 3
  | MExtCodeCopy => 4
  | MDelegateCall | MStaticCall => 6
  | MCall => 7
  end.
(** The memory function of an instruction. *)
Definition mem_tag (x : execution) : option memory_function :=
  match x with
  | XKeccak256 => Some MKeccak256 | XCallDataCopy => Some MCallDataCopy | XReturnDataCopy => Some MReturnDataCopy
  | XCodeCopy => Some MCodeCopy | XExtCodeCopy => Some MExtCodeCopy | XMload => Some MMLoad | XMstore8 => Some MMStore8
  | XMstore => Some MMStore | XCreate => Some MCreate | XCreate2 => Some MCreate2 | XCall | XCallCode => Some MCall
  | XDelegateCall => Some MDelegateCall | XStaticCall => Some MStaticCall | XReturn => Some MReturn | XRevert => Some MRevert
  | XLog _ => Some MLog
  | _ => None
  end.
#[export] Instance memory_function_eq_dec : EqDecision memory_function.
Proof. solve_decision. Defined.

Definition op_total (o : operation) : bool :=
  (Z.of_nat (pops (execute o)) <=? op_minStack o) &&
  match dynamicGas o with Some g => Z.of_nat (gas_pops g) <=? op_minStack o | None => true end &&
  match memorySize o with Some f => Z.of_nat (mem_pops f) <=? op_minStack o | None => true end &&
  bool_decide (memorySize o = mem_tag (execute o)) &&
  match memorySize o, dynamicGas o with Some _, None => false | _, _ => true end &&
  match dynamicGas o with
  | Some GSStoreEIP3529 => match execute o with XSstore => true | _ => false end
  | Some g => negb (refunding g)
  | None => true
  end &&
  match execute o with
  | XSstore => match dynamicGas o with Some GSStoreEIP3529 => true | _ => false end
  | XCall => match dynamicGas o with Some GCallEIP2929 => true | _ => false end
  | XStaticCall => match dynamicGas o with Some GStaticCallEIP2929 => true | _ => false end
  | _ => true
  end.
Definition total_tables : list JumpTable := [newLondonInstructionSet; newMergeInstructionSet].
Lemma total_tables_total : forallb (all_ops op_total) total_tables = true.
Proof. vm_compute. reflexivity. Qed.
Definition is_XStop (x : execution) : bool := match x with XStop => true | _ => false end.
Lemma total_tables_stop : forallb (λ jt, is_XStop (execute (jt STOP))) total_tables = true.
Proof. vm_compute. reflexivity. Qed.

(** The rules of the chain. *)
Record london (r : Rules) : Prop := {
  ln_Homestead : IsHomestead r = true;
  ln_EIP150 : IsEIP150 r = true;
  ln_EIP158 : rules_IsEIP158 r = true;
  ln_Berlin : IsBerlin r = true;
  ln_London : rules_IsLondon r = true
}.
Lemma london_in_order r : london r → in_order r.
Proof. intros [] _. done. Qed.
Lemma london_total env i : london (chainRules env) → 0 ≤ i < 256 → op_total (jump_table env i) = true.
Proof.
  intros [_ _ _ _ Hl] Hi. pose proof total_tables_total as Ht. cbn [forallb total_tables] in Ht.
  apply andb_true_iff in Ht as [H1 Ht]. apply andb_true_iff in Ht as [H2 _].
  unfold jump_table. rewrite Hl.
  destruct (IsMerge _); [exact (all_ops_spec _ _ _ H2 Hi)|exact (all_ops_spec _ _ _ H1 Hi)].
Qed.
Lemma is_stop x : is_XStop x = true → x = XStop.
Proof. by destruct x. Qed.
Lemma london_stop env : london (chainRules env) → execute (jump_table env STOP) = XStop.
Proof.
  intros [_ _ _ _ Hl]. pose proof total_tables_stop as Ht. cbn [forallb total_tables] in Ht.
  apply andb_true_iff in Ht as [H1 Ht]. apply andb_true_iff in Ht as [H2 _].
  unfold jump_table. rewrite Hl. destruct (IsMerge _); [exact (is_stop (execute (newMergeInstructionSet STOP)) H2)|exact (is_stop (execute (newLondonInstructionSet STOP)) H1)].
Qed.

Lemma wp_memory_fun f st : (mem_pops f ≤ length st)%nat → wp (λ _, True) (memory_fun f st).
Proof.
  intros Hn.
  assert (H2 : ∀ i j P, (i < length st)%nat → (j < length st)%nat → (∀ r, P r) → wp P (mem2 i j st)).
  { intros i j P Hi Hj HP. unfold mem2. apply wp_bind, wp_Back; [|done]. intros o Ho. apply wp_bind, wp_Back; [|done]. intros l Hl. apply HP. }
  assert (HL : ∀ i j k l, (i < length st)%nat → (j < length st)%nat → (k < length st)%nat → (l < length st)%nat →
    wp (λ _, True) (mem_larger (mem2 i j) (mem2 k l) st)).
  { intros i j k l Hi Hj Hk Hl. unfold mem_larger. apply wp_bind, H2; [done..|]. intros [x []]; [done|].
    apply wp_bind, H2; [done..|]. intros [y []]; [done|]. by destruct (y <? x). }
  destruct f; simpl in *; try (apply H2; [lia..|done]); try (apply HL; lia);
    (apply wp_bind, wp_Back; [done|lia]).
Qed.
Lemma wp_needed_memory o st : match memorySize o with Some f => (mem_pops f ≤ length st)%nat | None => True end →
  wp (λ r, r.2 = false → ∀ f m, memorySize o = Some f → r.1 ≤ mem_Len m → covered f st m) (needed_memory o st).
Proof.
  intros Hn. unfold needed_memory. destruct (memorySize o) as [f|] eqn:Ef; [|done].
  pose proof (wp_memory_fun f st Hn) as Hw. pose proof (post_memory_fun f st) as Hp.
  destruct (memory_fun f st) as [[n ov]| |] eqn:Em; simpl in Hw, Hp; try done. destruct ov; simpl; [done|].
  intros Hov f' m [= <-] Hm. bprop. eapply memory_fun_covered; [done|].
  rewrite mul64_small in Hm by (unfold is_u64; pose proof (toWordSize_nonneg n Hp); lia).
  unfold toWordSize in *. destruct (_ <? n) eqn:E; bprop; unfold two64 in *; dlia.
Qed.

(** ** Gas functions *)

Section GasTotal.
Context `{Crypto} `{Uint256} (env : Env).
#[local] Notation db := (env_db env).

Lemma al_Contains_ok a k al : al_ok al → ∃ b, al_Contains a k al = Ok (ContainsAddress a al, b).
Proof.
  intros [Hi _]. unfold al_Contains, ContainsAddress. destruct (al_addresses al !! a) as [i|] eqn:E; [|eauto].
  destruct (i =? -1) eqn:Ei; [eauto|]. bprop. destruct (Hi a i E) as [|[Hr Hs]]; [done|].
  destruct (lookup_lt_is_Some_2 (al_slots al) (Z.to_nat i)) as [m ->]; [lia|]. eauto.
Qed.
Lemma AddSlot_total a k s : al_ok (access s) → ∃ s', AddSlotToAccessList a k s = Ok s'.
Proof.
  intros [Hi _]. unfold AddSlotToAccessList, AddSlot. destruct (al_addresses _ !! a) as [i|] eqn:E; [|simpl; eauto].
  destruct (i =? -1) eqn:Ei; [simpl; eauto|]. bprop. destruct (Hi a i E) as [|[Hr Hs]]; [done|].
  destruct (lookup_lt_is_Some_2 (al_slots (access s)) (Z.to_nat i)) as [m ->]; [lia|]. case_bool_decide; simpl; eauto.
Qed.

Ltac wp_step :=
  match goal with
  | |- wp _ (_ ≫= _) => apply wp_bind
  | |- wp _ (Back _ _) => apply wp_Back; [intros ? ?; cbv beta|simpl in *; lia]
  | |- wp _ (memory_gas _ _ _ _ _) => unfold memory_gas
  | |- wp _ (add_gas _ _ _ _ _ _) => unfold add_gas
  | |- wp _ (word_gas _ _ _ _ _ _) => unfold word_gas
  | |- wp _ (set_aside _ _ _ _ _ _) => unfold set_aside
  | |- wp _ (gas_fail _ _ _ _) => cbn [wp gas_fail g_err g_evm g_ctr g_mem g_cost]
  | |- wp _ (gas_ok _ _ _ _) => cbn [wp gas_ok g_err g_evm g_ctr g_mem g_cost]
  | |- wp _ (let '(_, _) := ?x in _) => destruct x eqn:?
  | |- wp _ (if ?b then _ else _) => destruct b eqn:?
  | |- wp _ (match ?x with _ => _ end) => destruct x eqn:?
  | |- wp _ (Ret _) => cbn [wp]
  end.

Lemma wp_cold old w c st m ms : (2 ≤ length st)%nat → (∀ w c, wp (λ _, True) (old w c st m ms)) →
  wp (λ _, True) (makeCallVariantGasCallEIP2929 old w c st m ms).
Proof.
  intros Hn Hold. unfold makeCallVariantGasCallEIP2929. wp_step. wp_step. destruct (AddressInAccessList _ w); [apply Hold|].
  repeat wp_step; [done|]. eapply wp_mono; [apply Hold|]. intros r _. cbv beta. by destruct (g_err r).
Qed.
(** The gas functions other than those of storage writes and old destructions. *)
Lemma wp_gas_fun g w c st m ms : refunding g = false → (gas_pops g ≤ length st)%nat → ok db (evm_StateDB w) →
  wp (λ _, True) (gas_fun env g w c st m ms).
Proof.
  intros Hg Hn Ho. pose proof (proj1 (g_wf _ (ok_good _ _ Ho))) as Hal.
  destruct g; try discriminate Hg; cbn [gas_fun]; try (apply wp_cold; [simpl in *; lia|intros]);
    unfold gasExpFrontier, gasExpEIP158, gasExp, gasKeccak256, memoryCopierGas, pureMemoryGascost, makeGasLog, gasCreate2, gasCall,
      gasCallCode, gasDelegateCall, gasStaticCall, gasExtCodeCopyEIP2929, memoryCopierGas, gasEip2929AccountCheck,
      makeSelfdestructGasFn; repeat wp_step; try done.
  (* SLOAD *)
  unfold gasSLoadEIP2929, SlotInAccessList. wp_step. wp_step. wp_step.
  destruct (al_Contains_ok (ctr_self c) x _ Hal) as [b ->]. cbn. destruct b; cbn [negb]; [done|].
  unfold change_or_panic. by destruct (AddSlot_total (ctr_self c) x _ Hal) as [s' ->].
Qed.

(** *** Storage writes *)

#[local] Notation clearing := SstoreClearsScheduleRefundEIP3529.

Definition alike (s s' : StateDB) : Prop :=
  ∀ a k, original db s' a k = original db s a k ∧ value db s' a k = value db s a k.
Lemma alike_eqv s s' : eqv db s' s → alike s s'.
Proof.
  intros E a k. rewrite !original_seen, !value_seen. destruct (seen_eqv db s' s a E) as [o' o Ho|]; [|done]. simpl. split; apply Ho.
Qed.
Lemma alike_objects s s' : stateObjects s' = stateObjects s → alike s s'.
Proof. intros E a k. by rewrite !original_seen, !value_seen, !(seen_objects db s s' _ E). Qed.
Lemma alike_trans s t u : alike s t → alike t u → alike s u.
Proof. intros H1 H2 a k. destruct (H1 a k), (H2 a k). split; congruence. Qed.

Lemma clearing_eq : clearing = 4800.
Proof. done. Qed.

(** The gas function of a write of [y] to slot [x] of [a] has prepared the counter
    for it. *)
Record prepared (a : Address) (x y : Hash) (s s' : StateDB) (cost : Z) : Prop := {
  pr_alike : alike s s';
  pr_owed : ∃ D : gset (Address * Hash), (∀ b k, (b, k) ≠ (a, x) → original db s b k ≠ 0 → value db s b k = 0 → (b, k) ∈ D) ∧
    (original db s a x ≠ 0 → y = 0 → (a, x) ∈ D) ∧ clearing * Z.of_nat (size D) ≤ refund s';
  pr_refund : 0 ≤ refund s' ≤ refund s + 200 * cost
}.

(** The write itself. *)
Lemma prepared_write (Hempty : ∀ a k, ∃ get, OpenStorageTrie db a state_emptyRoot = Ok get ∧ get k = Ok []) a x y s s' cost :
  good s' → prepared a x y s s' cost → refund_ok env (SetState db a x y s').
Proof.
  intros Hg [Ha (D & H1 & H2 & H3) _]. destruct (SetState_views db Hempty a x y s' Hg) as ([Hr _] & _ & Ho & Hv).
  exists D. rewrite Hr. split; [|done]. intros b k. rewrite Ho, Hv. destruct (Ha b k) as [-> ->].
  destruct (decide (a = b ∧ x = k)) as [[<- <-]|Hne]; [auto|]. apply H1. naive_solver.
Qed.

Section Write.
Context (c : Contract) (x y : Hash) (m : Memory) (s0 : StateDB) (D : gset (Address * Hash)).
#[local] Notation a := (ctr_self c).
Context (HD : owed env s0 D) (Hle : clearing * Z.of_nat (size D) ≤ refund s0).
Context (Hb : refund s0 + 200 * ctr_Gas c < two64) (Hgas : SstoreSentryGasEIP2200 < ctr_Gas c).

Lemma refund_room : 0 ≤ refund s0 < two64 - 460000.
Proof. unfold SstoreSentryGasEIP2200 in *. rewrite clearing_eq in *. lia. Qed.
(** The slot is not owed, before or after. *)
Lemma prepared_same s' cost : alike s0 s' → refund s0 ≤ refund s' ≤ refund s0 + 200 * cost →
  (original db s0 a x ≠ 0 → y = 0 → value db s0 a x = 0) → prepared a x y s0 s' cost.
Proof.
  intros Ha Hr Hy. pose proof refund_room. split; [done| |lia]. exists D. split_and!; [by intros; apply HD| |lia].
  intros Ho Hz. apply HD; auto.
Qed.
(** The slot is cleared, and a refund given. *)
Lemma prepared_clear s' cost : alike s0 s' → refund s0 + clearing ≤ refund s' ≤ refund s0 + 200 * cost → prepared a x y s0 s' cost.
Proof.
  intros Ha Hr. pose proof refund_room. rewrite ?clearing_eq in *. split; [done| |lia]. exists (D ∪ {[(a, x)]}). split_and!.
  - intros. apply elem_of_union_l. by apply HD.
  - intros _ _. set_solver.
  - assert (size (D ∪ {[(a, x)]}) ≤ size D + 1)%nat.
    { rewrite size_union_alt. apply Nat.add_le_mono_l. rewrite <- (size_singleton (C := gset (Address * Hash)) (a, x)).
      apply subseteq_size. set_solver. }
    rewrite ?clearing_eq in *. lia.
Qed.
(** A cleared slot is written again: the refund is taken back. *)
Lemma owed_refund : original db s0 a x ≠ 0 → value db s0 a x = 0 → clearing ≤ refund s0 ∧ (a, x) ∈ D.
Proof.
  intros Ho Hv. pose proof (HD a x Ho Hv) as Hin. split; [|done].
  assert (0 < size D)%nat. { apply Nat.neq_0_lt_0. intros Hs. apply size_empty_inv in Hs. set_solver. }
  rewrite ?clearing_eq in *. lia.
Qed.
Lemma prepared_retake s' cost : original db s0 a x ≠ 0 → value db s0 a x = 0 → y ≠ 0 → alike s0 s' →
  refund s0 - clearing ≤ refund s' ≤ refund s0 + 200 * cost → prepared a x y s0 s' cost.
Proof.
  intros Ho Hv Hy Ha Hr. destruct (owed_refund Ho Hv) as [H1 H2]. rewrite ?clearing_eq in *. split; [done| |lia].
  exists (D ∖ {[(a, x)]}). split_and!.
  - intros b k Hne Hb' Hk. apply elem_of_difference. split; [by apply HD|set_solver].
  - done.
  - assert (size (D ∖ {[(a, x)]}) = size D - 1)%nat.
    { rewrite size_difference by set_solver. by rewrite size_singleton. }
    rewrite ?clearing_eq in *. lia.
Qed.

Lemma AddRefund_eq g s : is_u64 (refund s + g) → refund (AddRefund g s) = refund s + g ∧ stateObjects (AddRefund g s) = stateObjects s.
Proof. intros Hu. simpl. by rewrite add64_small. Qed.
Lemma ask_fst_snd {A} (f : StateDB → A * StateDB) w : ask f w = ((f (evm_StateDB w)).1, with_db (f (evm_StateDB w)).2 w).
Proof. unfold ask. by destruct (f (evm_StateDB w)). Qed.
Definition ready (w : EVM) : Prop := alike s0 (evm_StateDB w) ∧ refund (evm_StateDB w) = refund s0.
Lemma ready_add g w : ready w → 0 ≤ g ≤ 100000 →
  alike s0 (evm_StateDB (change (AddRefund g) w)) ∧ refund (evm_StateDB (change (AddRefund g) w)) = refund s0 + g.
Proof.
  intros [Ha Hr] Hg. pose proof refund_room. destruct (AddRefund_eq g (evm_StateDB w)) as [E1 E2]; [unfold is_u64, two64 in *; lia|].
  split; [|simpl; by rewrite <- Hr]. eapply alike_trans; [exact Ha|]. by apply alike_objects.
Qed.

Lemma wp_net_metered w cost : ok db (evm_StateDB w) → ready w → 0 ≤ cost ≤ 100000 →
  wp (λ r, g_err r = None → prepared a x y s0 (evm_StateDB (g_evm r)) (g_cost r))
    (net_metered env cost WarmStorageReadCostEIP2929 (SstoreResetGasEIP2200 - ColdSloadCostEIP2929) clearing w c x y
       (value db s0 a x) m).
Proof.
  intros Ho Hw Hc. pose proof refund_room as Hroom. pose proof clearing_eq as Hcl.
  assert (E1 : WarmStorageReadCostEIP2929 = 100) by done. assert (E2 : SstoreResetGasEIP2200 - ColdSloadCostEIP2929 = 2900) by done.
  assert (E3 : SstoreSetGasEIP2200 = 20000) by done.
  assert (Hadd : ∀ z, 0 ≤ z ≤ 100000 → add64 cost z = cost + z) by (intros; apply add64_small; unfold is_u64, two64; lia).
  unfold net_metered. rewrite ask_fst_snd. rewrite E1, E2, E3, !Hadd by lia.
  destruct (value db s0 a x =? y) eqn:Ecur; bprop.
  { cbn [wp gas_ok g_err g_evm g_cost]. intros _. destruct Hw as [Ha Hr]. apply prepared_same; [done|rewrite Hr; lia|congruence]. }
  set (w1 := with_db _ w). assert (Hw1 : ready w1).
  { destruct Hw as [Ha Hr]. pose proof (read_object_eqv db (GetCommittedState db x) 0 a _ (ok_good _ _ Ho) (GetCommittedState_eq db x)) as Hev.
    split; [|simpl; rewrite <- Hr; apply Hev]. eapply alike_trans; [exact Ha|]. apply alike_eqv, Hev. }
  fold (original db (evm_StateDB w) a x). destruct (proj1 Hw a x) as [-> _]. clearbody w1.
  assert (Hsame : ∀ z w', ready w' → 0 ≤ z → (original db s0 a x ≠ 0 → y = 0 → value db s0 a x = 0) →
    prepared a x y s0 (evm_StateDB w') (cost + z)).
  { intros z w' [Ha Hr] Hz Hy. apply prepared_same; [done|rewrite Hr; lia|done]. }
  assert (Hmore : ∀ g z w', ready w' → 0 ≤ g ≤ 200 * z → z ≤ 500 → (original db s0 a x ≠ 0 → y = 0 → value db s0 a x = 0) →
    prepared a x y s0 (evm_StateDB (change (AddRefund g) w')) (cost + z)).
  { intros g z w' Hr Hg Hz Hy. destruct (ready_add g w' Hr) as [H1 H2]; [lia|]. apply prepared_same; [done|lia|done]. }
  assert (Hclear : ∀ z w', ready w' → 100 ≤ z → prepared a x y s0 (evm_StateDB (change (AddRefund clearing) w')) (cost + z)).
  { intros z w' Hr Hz. destruct (ready_add clearing w' Hr) as [H1 H2]; [lia|]. apply prepared_clear; [done|lia]. }
  destruct (original db s0 a x =? value db s0 a x) eqn:Eorig; bprop.
  { destruct (original db s0 a x =? 0) eqn:E0; bprop; cbn [wp gas_ok g_err g_evm g_cost]; intros _; [apply Hsame; [done|lia|done]|].
    destruct (y =? 0) eqn:Ey; bprop; [apply Hclear; [done|lia]|apply Hsame; [done|lia|done]]. }
  apply wp_bind. destruct (original db s0 a x =? 0) eqn:E0; bprop; cbn [negb].
  { cbn [wp gas_ok g_err g_evm g_cost]. intros _. destruct (original db s0 a x =? y) eqn:Ey; bprop.
    - apply Hmore; [done|lia|lia|congruence].
    - apply Hsame; [done|lia|congruence]. }
  destruct (value db s0 a x =? 0) eqn:Ev; bprop.
  - destruct (owed_refund E0 Ev) as [Hr0 _]. unfold change_or_panic, SubRefund. simpl refund.
    destruct Hw1 as [Ha1 Hr1]. rewrite Hr1, (proj2 (Z.ltb_ge _ _)) by lia. cbn [of_result mbind outcome_bind wp].
    rewrite sub64_small by (unfold is_u64; lia). set (w2 := with_db _ w1).
    assert (Ha2 : alike s0 (evm_StateDB w2)) by (eapply alike_trans; [exact Ha1|by apply alike_objects]).
    cbn [wp gas_ok g_err g_evm g_cost]. intros _. destruct (original db s0 a x =? y) eqn:Ey; bprop.
    + destruct (AddRefund_eq 2800 (evm_StateDB w2)) as [E4 E5]; [simpl; unfold is_u64, two64 in *; lia|]. simpl refund in E4.
      change (2900 - 100) with 2800. apply prepared_retake; [done|done|congruence| |].
      * eapply alike_trans; [exact Ha2|by apply alike_objects].
      * change (refund (evm_StateDB (change (AddRefund 2800) w2))) with (refund (AddRefund 2800 (evm_StateDB w2))). simpl. rewrite E4. lia.
    + apply prepared_retake; [done|done|congruence|done|simpl; lia].
  - cbn [wp gas_ok g_err g_evm g_cost]. intros _. destruct (y =? 0) eqn:Ey; bprop.
    + rewrite (proj2 (Z.eqb_neq _ _)) by congruence. apply Hclear; [done|lia].
    + destruct (original db s0 a x =? y); [apply Hmore; [done|lia|lia|done]|apply Hsame; [done|lia|done]].
Qed.
End Write.

(** The gas function of a storage write does not panic in a frame whose address
    is warm, and prepares the write. *)
Lemma wp_sstore w c st m x y ms : ok db (evm_StateDB w) → refund_ok env (evm_StateDB w) → warm (evm_StateDB w) (ctr_self c) →
  refund (evm_StateDB w) + 200 * ctr_Gas c < two64 → st !! 0%nat = Some x → st !! 1%nat = Some y →
  wp (λ r, g_err r = None → prepared (ctr_self c) x y (evm_StateDB w) (evm_StateDB (g_evm r)) (g_cost r))
    (gasSStoreEIP3529 env w c st m ms).
Proof.
  intros Ho (D & HD & Hle) Hwarm Hb Hx Hy. unfold gasSStoreEIP3529, makeGasSStoreFunc.
  destruct (ctr_Gas c <=? _) eqn:Eg; bprop; [done|]. unfold Back. rewrite Hx, Hy. cbn [mbind outcome_bind].
  rewrite ask_fst_snd. set (w1 := with_db _ w).
  pose proof (read_object_eqv db (so_GetState db x) 0 (ctr_self c) _ (ok_good _ _ Ho) (so_GetState_eq db x)) as Hev.
  assert (Hg1 : goes env w w1) by apply (walk_GetState env (R:=goes env)).
  assert (Ho1 : ok db (evm_StateDB w1)) by (by eapply goes_ok).
  assert (Hr1 : ready (evm_StateDB w) w1) by (split; [by apply alike_eqv|apply Hev]).
  pose proof (proj1 (g_wf _ (ok_good _ _ Ho1))) as Hal.
  unfold SlotInAccessList. destruct (al_Contains_ok (ctr_self c) x _ Hal) as [b ->].
  assert (ContainsAddress (ctr_self c) (access (evm_StateDB w1)) = true) as ->.
  { transitivity (ContainsAddress (ctr_self c) (access (evm_StateDB w))); [|exact Hwarm]. f_equal. exact (ev_access _ _ _ Hev). }
  cbn [of_result mbind outcome_bind]. fold (value db (evm_StateDB w) (ctr_self c) x). destruct b; cbn [negb mbind outcome_bind].
  - eapply wp_net_metered; eauto. lia.
  - unfold change_or_panic. destruct (AddSlot_total (ctr_self c) x _ Hal) as [s' Hs']. rewrite Hs'. cbn [of_result mbind outcome_bind].
    assert (Hg2 : goes env w1 (with_db s' w1)) by (by apply (walk_AddSlot env (R:=goes env) (ctr_self c) x)).
    destruct (AddSlot_objects _ _ _ _ Hs') as [E1 E2].
    eapply wp_net_metered; eauto; [by eapply goes_ok| |vm_compute; done].
    destruct Hr1 as [Ha1 Hr1]. split; simpl; [|by rewrite E2]. eapply alike_trans; [exact Ha1|by apply alike_objects].
Qed.
End GasTotal.

(** ** Instructions other than calls *)

Section ExecTotal.
Context `{Crypto} `{Uint256} (env : Env).
#[local] Notation db := (env_db env).

Lemma wp_validJumpdest d c (P : bool → Prop) : (∀ b, P b) → wp P (validJumpdest d c).
Proof.
  intros HP. unfold validJumpdest, Uint64WithOverflow, isCode. destruct (IsUint64 d) eqn:Ed; cbn [negb orb]; [|apply HP].
  destruct (u64 d <? _) eqn:El; cbn [negb]; [|apply HP]. bprop. destruct (negb _); [apply HP|].
  destruct (codeBitmap_covers (ctr_Code c)) as (bits & -> & Hb). cbn [of_result mbind outcome_bind].
  pose proof (u64_bound d) as Hd. unfold is_u64 in Hd.
  destruct (Hb (Z.to_nat (u64 d))) as [Hlen _]; [lia|]. rewrite codeSegment_bit by done. apply HP.
Qed.

Section Plain.
Context (calls : Calls) (pc : Z) (sc : ScopeContext) (w : EVM).
Context (Hm : mem_ok (sc_Memory sc)) (Hcode : short (ctr_Code (sc_Contract sc))) (Hinput : short (ctr_Input (sc_Contract sc))).
Context (Hcodes : codes_ok env (evm_StateDB w)) (Hok : ok db (evm_StateDB w)) (Hpc : is_u64 pc).
Context (Hfee : is_Some (ctx_BaseFee env)).

(** Instructions that look at the code at the program counter. *)
Definition reads_code (x : execution) : bool := match x with XUndefined | XPush _ => true | _ => false end.

Lemma wp_copy (f : ScopeContext → bytes) o d l st (P : op_result → Prop) : sc_Stack sc = o :: d :: l :: st →
  in_mem o l (sc_Memory sc) → short (f sc) → (∀ r, P r) → wp P (copy_from f pc sc w).
Proof.
  intros Est Hi Hs HP. unfold copy_from. rewrite Est. pose proof (mem_ok_len _ Hm).
  assert (Hl : 0 ≤ Uint64 l < 2 ^ 62).
  { destruct Hi as [Hu [->|[Ho Hb]]]; [done|]. unfold Uint64. rewrite u64_small by done. lia. }
  destruct (Uint64WithOverflow d) as [d64 ov] eqn:Ed. apply wp_bind. apply wp_getData; [done| |done|].
  { destruct ov; [lia|]. unfold Uint64WithOverflow in Ed. injection Ed as <- _. apply u64_bound. }
  intros data. apply wp_bind. apply wp_mem_Set; [done|done|]. intros. apply HP.
Qed.
Lemma wp_returndatacopy o d l st : sc_Stack sc = o :: d :: l :: st → in_mem o l (sc_Memory sc) →
  wp (λ _, True) (opReturnDataCopy pc sc w).
Proof.
  intros Est Hi. unfold opReturnDataCopy. rewrite Est. unfold Uint64WithOverflow. destruct (IsUint64 d) eqn:Ed; cbn [negb]; [|done].
  destruct (IsUint64 (u_Add d l)) eqn:Es; cbn [negb orb]; [|done]. destruct (_ <? u64 (u_Add d l)) eqn:El; [done|]. bprop.
  assert (Hd : 0 ≤ d < two64) by (unfold IsUint64 in Ed; bprop; lia). destruct Hi as [Hu Hr].
  assert (Hsum : u_Add d l = d + l) by (rewrite u_Add_eq; apply Z.mod_small; unfold two256, two64 in *; lia).
  rewrite Hsum in *. assert (Hs : 0 ≤ d + l < two64) by (unfold IsUint64 in Es; bprop; lia).
  rewrite (u64_small d), (u64_small (d + l)) in * by done.
  assert (u64 (Z.of_nat (length (returnData w))) ≤ Z.of_nat (length (returnData w))) by (unfold u64, two64; dlia).
  apply wp_bind, wp_slice; [lia|]. intros data. apply wp_bind. by apply wp_mem_Set.
Qed.
Lemma wp_extcodecopy a o d l st : sc_Stack sc = a :: o :: d :: l :: st → in_mem o l (sc_Memory sc) →
  wp (λ _, True) (opExtCodeCopy env pc sc w).
Proof.
  intros Est Hi. unfold opExtCodeCopy. rewrite Est. pose proof (mem_ok_len _ Hm).
  assert (Hl : 0 ≤ Uint64 l < 2 ^ 62).
  { destruct Hi as [Hu [->|[Ho Hb]]]; [done|]. unfold Uint64. rewrite u64_small by done. lia. }
  destruct (Uint64WithOverflow d) as [d64 ov] eqn:Ed. rewrite ask_fst_snd. apply wp_bind. apply wp_getData; [| |done|].
  { fold (code_of db (evm_StateDB w) (Bytes20 a)). destruct (code_of _ _ _) as [c|] eqn:Ec; [by apply (Hcodes (Bytes20 a))|done]. }
  { destruct ov; [lia|]. unfold Uint64WithOverflow in Ed. injection Ed as <- _. apply u64_bound. }
  intros data. apply wp_bind. by apply wp_mem_Set.
Qed.
Lemma wp_push n : pc < Z.of_nat (length (ctr_Code (sc_Contract sc))) → wp (λ _, True) (makePush n pc sc w).
Proof.
  intros Hlt. unfold makePush, is_u64, short in *. rewrite add64_small by (unfold is_u64, two64 in *; lia).
  assert (i64 (pc + 1) = pc + 1) as -> by (apply i64_small; lia).
  set (a := if pc + 1 <? _ then _ else _). assert (Ha : 0 ≤ a ≤ Z.of_nat (length (ctr_Code (sc_Contract sc))))
    by (unfold a; destruct (_ <? _) eqn:E; bprop; lia). clearbody a.
  rewrite (proj2 (Z.ltb_ge _ _)) by lia. apply wp_bind, wp_slice; [|done]. destruct (_ <? _) eqn:E; bprop; lia.
Qed.

Ltac plain_step :=
  match goal with
  | |- wp _ (_ ≫= _) => apply wp_bind
  | |- wp _ (GetPtr (i64 (Uint64 _)) (i64 (Uint64 _)) _) => apply wp_GetPtr; [done|auto|intros ? ?; cbv beta]
  | |- wp _ (GetPtr (i64 (Uint64 _)) 32 _) => change 32 with (i64 (Uint64 32)); apply wp_GetPtr; [done|auto|intros ? ?; cbv beta]
  | |- wp _ (GetCopy _ _ _) => apply wp_GetCopy; [done|auto|intros ? ?; cbv beta]
  | |- wp _ (Set32 _ _ _) => apply wp_Set32; [done|auto|intros ?; cbv beta]
  | |- wp _ (validJumpdest _ _) => apply wp_validJumpdest; intros ?; cbv beta
  | |- wp _ (value_of (ctx_BaseFee env)) => destruct Hfee as [? ->]; cbn [wp value_of]
  | |- wp _ (let '(_, _) := ?x in _) => destruct x eqn:?
  | |- wp _ (if ?b then _ else _) => destruct b eqn:?
  | |- wp _ (Ret _) => exact I
  | |- wp _ (next _ _ _) => exact I
  | |- wp _ (fails _ _ _ _) => exact I
  | |- wp _ (push _ _ _ _) => exact I
  end.

Ltac pop1 Hn := destruct (sc_Stack sc) as [|z st] eqn:Est; try (exfalso; simpl in Hn; lia).
Ltac pop2 Hn := destruct (sc_Stack sc) as [|z [|z1 st]] eqn:Est; try (exfalso; simpl in Hn; lia).
Ltac pop3 Hn := destruct (sc_Stack sc) as [|z [|z1 [|z2 st]]] eqn:Est; try (exfalso; simpl in Hn; lia).
Ltac pop4 Hn := destruct (sc_Stack sc) as [|z [|z1 [|z2 [|z3 st]]]] eqn:Est; try (exfalso; simpl in Hn; lia).

(** Instructions that need more than their operands. *)
Definition special (x : execution) : bool :=
  match x with
  | XCallDataLoad | XCallDataCopy | XCodeCopy | XExtCodeCopy | XReturnDataCopy | XMstore8 | XPush1 | XPush _ | XDup _
  | XSwap _ | XLog _ | XUndefined => true
  | _ => false
  end.
Lemma wp_special x : special x = true → (pops x ≤ length (sc_Stack sc))%nat →
  (∀ f, mem_tag x = Some f → covered f (sc_Stack sc) (sc_Memory sc)) →
  (reads_code x = true → pc < Z.of_nat (length (ctr_Code (sc_Contract sc)))) →
  wp (λ _, True) (exec_fun env calls x pc sc w).
Proof.
  intros Hx Hn Hc Hrd. unfold is_u64 in Hpc.
  destruct x; try discriminate Hx; cbn [exec_fun pops mem_tag reads_code] in *; try specialize (Hc _ eq_refl); cbn [covered] in Hc.
  - pop1 Hn. unfold opCallDataLoad. rewrite Est. unfold Uint64WithOverflow. destruct (negb (negb _)); [|done].
    apply wp_bind, wp_getData; [done|apply u64_bound|done|done].
  - pop3 Hn. eapply wp_copy; [done|by apply Hc|done|done].
  - pop3 Hn. eapply wp_copy; [done|by apply Hc|done|done].
  - pop4 Hn. eapply wp_extcodecopy; [done|by apply Hc].
  - pop3 Hn. eapply wp_returndatacopy; [done|by apply Hc].
  - pop2 Hn. unfold opMstore8. rewrite Est. cbv zeta.
    destruct (in_mem_u64 _ _ _ Hm (Hc _ eq_refl)) as (_ & -> & _ & _ & _ & H2 & H3); [done|].
    by rewrite (proj2 (Z.ltb_lt _ _)) by lia.
  - unfold opPush1. cbv zeta. destruct (_ <? _) eqn:El; bprop; [|done]. pose proof (u64_bound (pc + 1)) as Hb. unfold is_u64, add64 in *.
    destruct (lookup_lt_is_Some_2 (ctr_Code (sc_Contract sc)) (Z.to_nat (u64 (pc + 1)))) as [b ->]; [lia|done].
  - by apply wp_push, Hrd.
  - unfold makeDup. apply wp_bind, wp_Back; [done|lia].
  - unfold makeSwap. pop1 Hn. destruct (lookup_lt_is_Some_2 (z :: st) n) as [y ->]; [lia|done].
  - unfold makeLog. destruct (readOnly w); [done|]. pop2 Hn. subst. rewrite (proj2 (Nat.ltb_ge _ _)) by (simpl in Hn; lia).
    apply wp_bind, wp_GetCopy; [done|by apply Hc|done].
  - unfold opUndefined. specialize (Hrd eq_refl).
    destruct (lookup_lt_is_Some_2 (ctr_Code (sc_Contract sc)) (Z.to_nat pc)) as [b ->]; [lia|done].
Qed.
Lemma wp_plain x : is_call x = false → (pops x ≤ length (sc_Stack sc))%nat →
  (∀ f, mem_tag x = Some f → covered f (sc_Stack sc) (sc_Memory sc)) →
  (reads_code x = true → pc < Z.of_nat (length (ctr_Code (sc_Contract sc)))) →
  wp (λ _, True) (exec_fun env calls x pc sc w).
Proof.
  intros Hx Hn Hc Hrd. destruct (special x) eqn:Esp; [by apply wp_special|].
  destruct x; try discriminate Hx; try discriminate Esp; cbn [exec_fun pops mem_tag covered] in *;
    try specialize (Hc _ eq_refl); cbn [covered] in Hc;
    repeat match goal with |- wp _ (?f _ _ _) => unfold f | |- wp _ (?f _ _ _ _) => unfold f | |- wp _ (?f _ _ _ _ _) => unfold f end;
    repeat first
      [ plain_step
      | match goal with
        | |- wp _ (match ?l with [] => _ | _ :: _ => _ end) =>
            let E := fresh "E" in destruct l as [|? ?] eqn:E; [exfalso; rewrite ?E in Hn; simpl in Hn; lia|]
        end ].
Qed.
End Plain.
End ExecTotal.

(** ** One round *)

(** The contract of a frame, up to its gas. *)
Definition same_ctr (c c' : Contract) : Prop := ∃ g, c' = with_Gas g c.
Lemma same_ctr_refl c : same_ctr c c.
Proof. exists (ctr_Gas c). by destruct c. Qed.
Lemma same_ctr_gas c c' g : same_ctr c c' → same_ctr c (with_Gas g c').
Proof. intros [g' ->]. by exists g. Qed.
Lemma same_ctr_trans c c' c'' : same_ctr c c' → same_ctr c' c'' → same_ctr c c''.
Proof. intros [g ->] [g' ->]. by exists g'. Qed.
Lemma same_ctr_UseGas g c : same_ctr c (UseGas g c).2.
Proof. unfold UseGas. destruct (_ <? _); [apply same_ctr_refl|apply same_ctr_gas, same_ctr_refl]. Qed.

Section Ctr.
Context `{Crypto} `{Uint256} (env : Env).

Ltac ctr_step :=
  match goal with
  | |- post _ (memory_gas _ _ _ _ _) => unfold memory_gas
  | |- post _ (add_gas _ _ _ _ _ _) => unfold add_gas
  | |- post _ (word_gas _ _ _ _ _ _) => unfold word_gas
  | |- post _ (set_aside _ _ _ _ _ _) => unfold set_aside
  | |- post _ (net_metered _ _ _ _ _ _ _ _ _ _ _) => unfold net_metered
  | |- post _ (gas_fail _ _ _ _) => cbn [post gas_fail g_err g_evm g_ctr g_mem g_cost]
  | |- post _ (gas_ok _ _ _ _) => cbn [post gas_ok g_err g_evm g_ctr g_mem g_cost]
  | _ => post_step
  end.
Lemma cold_ctr old w c st m ms : (∀ w c, post (λ r, same_ctr c (g_ctr r)) (old w c st m ms)) →
  post (λ r, same_ctr c (g_ctr r)) (makeCallVariantGasCallEIP2929 old w c st m ms).
Proof.
  intros Hold. unfold makeCallVariantGasCallEIP2929. do 2 post_step. destruct (AddressInAccessList _ _); [apply Hold|].
  pose proof (same_ctr_UseGas (ColdAccountAccessCostEIP2929 - WarmStorageReadCostEIP2929) c) as Hu.
  destruct (UseGas _ c) as [ok c1]. simpl in Hu. destruct (negb ok); [done|]. post_step.
  eapply post_mono; [apply Hold|]. intros r Hr. cbv beta in *. destruct (g_err r); cbn.
  - by eapply same_ctr_trans.
  - apply same_ctr_gas. by eapply same_ctr_trans.
Qed.
Lemma gas_fun_ctr g w c st m ms : post (λ r, same_ctr c (g_ctr r)) (gas_fun env g w c st m ms).
Proof.
  destruct g; cbn [gas_fun]; try apply cold_ctr; intros;
    unfold gasExpFrontier, gasExpEIP158, gasExp, gasKeccak256, memoryCopierGas, pureMemoryGascost, gasSStore, gasSStoreEIP2200,
      makeGasLog, gasCreate2, gasCall, gasCallCode, gasDelegateCall, gasStaticCall, gasSelfdestruct, gasSStoreEIP2929, gasSStoreEIP3529,
      makeGasSStoreFunc, gasSLoadEIP2929, gasExtCodeCopyEIP2929, memoryCopierGas, gasEip2929AccountCheck, SlotInAccessList,
      makeSelfdestructGasFn; repeat ctr_step; apply same_ctr_refl.
Qed.
Ltac ectr_step :=
  match goal with
  | |- post _ (mem_Set _ _ _ _) => unfold mem_Set
  | |- post _ (Set32 _ _ _) => unfold Set32
  | |- post _ (GetPtr _ _ _) => unfold GetPtr
  | |- post _ (GetCopy _ _ _) => unfold GetCopy
  | |- post _ (getData _ _ _) => unfold getData
  | |- post _ (validJumpdest _ _) => unfold validJumpdest, isCode
  | |- post _ (value_of _) => unfold value_of
  | |- post _ (next _ _ _) => cbn [post next r_scope sc_Contract with_stack with_memory]
  | |- post _ (fails _ _ _ _) => cbn [post fails r_scope sc_Contract with_stack with_memory]
  | |- post _ (push _ _ _ _) => unfold push
  | |- post _ empty_stack => exact I
  | _ => post_step
  end.
Lemma plain_ctr calls x pc sc w : is_call x = false →
  post (λ r, same_ctr (sc_Contract sc) (sc_Contract (r_scope r)) ∧ (is_u64 pc → is_u64 (r_pc r))) (exec_fun env calls x pc sc w).
Proof.
  intros Hx. assert (Hr : ∀ pc', is_u64 pc' ∨ pc' = pc → same_ctr (sc_Contract sc) (sc_Contract sc) ∧ (is_u64 pc → is_u64 pc')).
  { intros pc' Hpc. split; [apply same_ctr_refl|]. destruct Hpc as [?| ->]; auto. }
  destruct x; try discriminate Hx; cbn [exec_fun];
    repeat match goal with |- post _ (?f _ _ _) => unfold f | |- post _ (?f _ _ _ _) => unfold f | |- post _ (?f _ _ _ _ _) => unfold f end;
    repeat ectr_step; try (apply Hr; by right); apply Hr; left; apply u64_bound.
Qed.
End Ctr.
