(* ===== verification/EvmSafety.v ===== *)
(** * Running contracts is safe

    The frames of the virtual machine: what charging, an instruction, a call and
    a creation need and leave ([charge_total], [exec_round], [calls_total]), by
    induction over the fuel the interpreter loop itself ([run_loop_total]), and
    at the start of a transaction the two theorems on Call: it returns without a
    panic, and one that fails leaves no trace. *)

From S2P Require Import Prelude Bytes Rlp Types Params Misc Text StateDB StateRevert StateHistory EvmAnalysis EvmTable Evm EvmGas EvmState EvmViews EvmTotal.

(** ** Frames *)

Section Frames.
Context `{Crypto} `{Uint256} (env : Env) (Hrules : london (chainRules env)) (Hfee : is_Some (ctx_BaseFee env)).
#[local] Notation db := (env_db env).
Context (Hempty : ∀ a k, ∃ get, OpenStorageTrie db a state_emptyRoot = Ok get ∧ get k = Ok []).
#[local] Notation mild := (mild env).
#[local] Notation calm := (calm env).
#[local] Instance mild_walk' : Walk env true mild := mild_walk env Hempty.
#[local] Instance calm_walk' : Walk env false calm := calm_walk env Hempty.

(** A state code can run on, with what the refund counter may still grow by. *)
Record sound (s : StateDB) : Prop := { snd_ok : ok db s; snd_codes : codes_ok env s; snd_refund : refund_ok env s }.
Definition room (s : StateDB) (gas : Z) : Z := refund s + 200 * gas.

Lemma sound_calm w w' : calm w w' → sound (evm_StateDB w) → sound (evm_StateDB w').
Proof.
  intros [[Hg Hc _] Hk Hr] [Ho Hcs Hrf]. split; [by eapply goes_ok|auto|]. eapply refund_kept; eauto.
Qed.
Lemma sound_mild w w' : mild w w' → sound (evm_StateDB w) → refund_ok env (evm_StateDB w') → sound (evm_StateDB w').
Proof. intros [Hg Hc _] [Ho Hcs _] Hrf. split; [by eapply goes_ok|auto|done]. Qed.

(** *** Charging *)

(** The callee's address has been warmed up. *)
Lemma cold_warm old w c st m ms a : (∀ w c, post (λ r, mild w (g_evm r)) (old w c st m ms)) → ok db (evm_StateDB w) →
  st !! 1%nat = Some a → post (λ r, g_err r = None → warm (evm_StateDB (g_evm r)) (Bytes20 a))
    (makeCallVariantGasCallEIP2929 old w c st m ms).
Proof.
  intros Hold Ho Ha. unfold makeCallVariantGasCallEIP2929, Back. rewrite Ha. cbn [mbind outcome_bind].
  destruct (AddressInAccessList (Bytes20 a) w) eqn:Ew.
  { eapply post_mono; [apply Hold|]. intros r Hr _. by apply (mild_warm _ _ _ Hr). }
  set (w1 := change _ w). assert (Hm1 : mild w w1) by apply (walk_AddAddress env (R:=mild)).
  assert (Hw1 : warm (evm_StateDB w1) (Bytes20 a)) by (apply AddAddress_warm; by right).
  assert (Ho1 : ok db (evm_StateDB w1)) by (eapply goes_ok; [apply Hm1|done]).
  destruct (UseGas _ c) as [b c1]. destruct (negb b); [done|]. post_step. eapply post_mono; [apply Hold|]. intros r Hr. cbv beta.
  destruct (g_err r) eqn:Er; cbn; [rewrite Er; done|]. intros _. by apply (mild_warm _ _ _ Hr).
Qed.

Record charged_total (o : operation) (sc : ScopeContext) (w : EVM) (sc' : ScopeContext) (w' : EVM) : Prop := {
  ct_ctr : same_ctr (sc_Contract sc) (sc_Contract sc');
  ct_covered f : memorySize o = Some f → covered f (sc_Stack sc) (sc_Memory sc');
  ct_calm : execute o ≠ XSstore → calm w w';
  ct_sstore x y : execute o = XSstore → sc_Stack sc !! 0%nat = Some x → sc_Stack sc !! 1%nat = Some y →
    prepared env (ctr_self (sc_Contract sc)) x y (evm_StateDB w) (evm_StateDB w')
      (ctr_Gas (sc_Contract sc) - ctr_Gas (sc_Contract sc'));
  ct_warm a : execute o = XCall ∨ execute o = XStaticCall → sc_Stack sc !! 1%nat = Some a → warm (evm_StateDB w') (Bytes20 a)
}.

(** The gas function, seen as a part of the round. *)
Record gas_total (o : operation) (g : gas_function) (st : list Z) (w : EVM) (c : Contract) (r : gas_result) : Prop := {
  gt_ctr : same_ctr c (g_ctr r);
  gt_calm : g_err r = None → execute o ≠ XSstore → calm w (g_evm r);
  gt_sstore x y : g_err r = None → execute o = XSstore → st !! 0%nat = Some x → st !! 1%nat = Some y →
    prepared env (ctr_self c) x y (evm_StateDB w) (evm_StateDB (g_evm r)) (g_cost r);
  gt_warm a : g_err r = None → execute o = XCall ∨ execute o = XStaticCall → st !! 1%nat = Some a →
    warm (evm_StateDB (g_evm r)) (Bytes20 a)
}.
Lemma gas_fun_total o g w c st m ms : op_total o = true → dynamicGas o = Some g → op_minStack o ≤ Z.of_nat (length st) →
  sound (evm_StateDB w) → warm (evm_StateDB w) (ctr_self c) → room (evm_StateDB w) (ctr_Gas c) < two64 →
  wp (gas_total o g st w c) (gas_fun env g w c st m ms).
Proof.
  intros Ht Hd Hst Hs Hw Hb. pose proof (gas_fun_ctr env g w c st m ms) as Hctr.
  unfold op_total in Ht. rewrite Hd in Ht. bprop.
  assert (Hwarm : ∀ a, execute o = XCall ∨ execute o = XStaticCall → st !! 1%nat = Some a →
    post (λ r, g_err r = None → warm (evm_StateDB (g_evm r)) (Bytes20 a)) (gas_fun env g w c st m ms)).
  { intros a Hx Ha. destruct Hx as [Hx|Hx]; rewrite Hx in *; destruct g; try done; cbn [gas_fun];
      apply cold_warm; try done; try apply Hs; intros; [apply (walk_gas_fun env true mild GCall)|apply (walk_gas_fun env true mild GStaticCall)]; done. }
  destruct (match execute o with XSstore => true | _ => false end) eqn:Ex.
  - assert (execute o = XSstore) as Ex' by (by destruct (execute o)). rewrite Ex' in *. destruct g; try done. cbn [gas_fun] in *.
    cbn [pops gas_pops] in *. destruct st as [|x [|y st]]; [simpl in *; lia|simpl in *; lia|].
    destruct Hs as [Ho Hc Hr].
    pose proof (wp_sstore env w c (x :: y :: st) m x y ms Ho Hr Hw Hb eq_refl eq_refl) as Hp.
    destruct (gasSStoreEIP3529 _ _ _ _ _ _) as [r| |]; simpl in *; try done. split; [done|done| |].
    + intros x' y' He _ [= <-] [= <-]. by apply Hp.
    + intros a _ [?|?]; congruence.
  - assert (Href : refunding g = false). { destruct g; try done; destruct (execute o); done. }
    pose proof (wp_gas_fun env g w c st m ms Href ltac:(lia) (snd_ok _ Hs)) as Hp.
    pose proof (walk_gas_fun env false calm g w c st m ms ltac:(congruence)) as Hcl.
    destruct (gas_fun env g w c st m ms) as [r| |]; simpl in *; try done. split; [done|done| |].
    + intros x y _ Hx. by rewrite Hx in Ex.
    + intros a He Hx Ha. by apply (Hwarm a).
Qed.

Lemma charge_total o sc w : op_total o = true → op_fine o = true → op_minStack o ≤ Z.of_nat (length (sc_Stack sc)) →
  sound (evm_StateDB w) → warm (evm_StateDB w) (ctr_self (sc_Contract sc)) → is_u64 (ctr_Gas (sc_Contract sc)) →
  mem_ok (sc_Memory sc) → room (evm_StateDB w) (ctr_Gas (sc_Contract sc)) < two64 →
  wp (λ r, match r with
           | inl r => ∃ ret e gas w', r = Finished (ret, Some e, gas, w')
           | inr (sc', w') => charged_total o sc w sc' w'
           end) (charge env o sc w).
Proof.
  intros Ht Hf Hst Hs Hw Hg Hm Hb. unfold charge. pose proof Hg as Hg'. unfold is_u64 in Hg'.
  assert (Hcg : 0 ≤ constantGas o) by (unfold op_fine in Hf; bprop; lia).
  destruct (UseGas_spec (constantGas o) _ Hcg Hg) as [[Hlt ->]|[Hle ->]]; cbn [negb]; [cbn; eauto|].
  set (c1 := with_Gas _ _). pose proof Ht as Ht'. unfold op_total in Ht'. bprop.
  destruct (dynamicGas o) as [g|] eqn:Ed.
  2: { assert (Hx : execute o ≠ XSstore ∧ ¬ (execute o = XCall ∨ execute o = XStaticCall)) by (destruct (execute o); naive_solver).
       destruct Hx as [Hx1 Hx2]. split.
       - by eexists.
       - intros f Hf'. by rewrite Hf' in *.
       - intros _. simpl. reflexivity.
       - done.
       - done. }
  apply wp_bind.
  eapply wp_mono; [apply wp_post; [apply wp_needed_memory|apply post_needed_memory]|].
  { destruct (memorySize o) as [f|] eqn:Ef; [|done]. bprop. simpl. lia. }
  intros [ms ov] [Hcov Hms]. simpl in Hcov, Hms. destruct ov; [cbn; eauto|]. specialize (Hcov eq_refl).
  destruct (Hms eq_refl) as (v & Hv & -> & Hv0). apply wp_bind. cbn [sc_Stack sc_Memory with_contract].
  assert (Hb1 : room (evm_StateDB w) (ctr_Gas c1) < two64) by (unfold room in *; simpl; lia).
  assert (Hg1 : is_u64 (ctr_Gas c1)) by (unfold is_u64; simpl; lia).
  pose proof (gas_fun_total o g w c1 (sc_Stack sc) (sc_Memory sc) (v * 32) Ht Ed Hst Hs Hw Hb1) as Hgt.
  assert (Hfine : post (λ r, fine g (sc_Stack sc) c1 (paid (sc_Memory sc) v) r ∧ (g_err r = None → v ≤ 2 ^ 32 - 1))
    (gas_fun env g w c1 (sc_Stack sc) (sc_Memory sc) (v * 32))).
  { apply post_gas_bounded; try done.
    - intros Hnm. apply Hv0. unfold op_fine in Hf. rewrite Ed, Hnm in Hf. destruct (memorySize o); [|done]. bprop. discriminate.
    - intros _. apply Hrules. }
  destruct (gas_fun env g w c1 (sc_Stack sc) (sc_Memory sc) (v * 32)) as [r| |]; simpl in Hgt, Hfine |- *; try done.
  destruct Hfine as [[Hr1 Hr2] Hvb]. destruct Hgt as [Hctr Hcalm Hss Hwm].
  destruct (g_err r) eqn:Ee; [cbn; eauto|]. destruct (Hr2 eq_refl) as (Eg & Em & Hcv). simpl in Eg.
  destruct (covers_paid _ _ _ _ _ Hf Ed Hcv) as (Hc0 & _ & _ & _).
  destruct (UseGas_spec (g_cost r) (g_ctr r) Hc0) as [[Hlt ->]|[Hle' ->]]; [unfold is_u64; lia| |]; cbn [negb]; [cbn; eauto|].
  cbn [wp]. split; simpl.
  - apply same_ctr_gas. eapply same_ctr_trans; [|exact Hctr]. by eexists.
  - intros f Hf'. apply (Hcov f); [done|]. rewrite Em. destruct (0 <? v * 32) eqn:Ev; bprop.
    + pose proof (Resize_len (sc_Memory sc) (v * 32)) as Hl. rewrite Z.div_mul in Hl by done. rewrite Hl. lia.
    + pose proof (mem_ok_len _ Hm). assert (v = 0) as -> by lia. rewrite paid_0. lia.
  - auto.
  - intros x y Hx Hsx Hsy. destruct (Hss x y eq_refl Hx Hsx Hsy) as [P1 P2 P3]. split; [done|done|]. rewrite Eg. lia.
  - intros a Hx Ha. by apply Hwm.
Qed.

(** *** Calls made by code *)

Definition answers (w : EVM) (gas : Z) (w' : EVM) (gas' : Z) : Prop :=
  mild w w' ∧ refund_ok env (evm_StateDB w') ∧ room (evm_StateDB w') gas' ≤ room (evm_StateDB w) gas.
(** What a call needs of its caller. *)
Record may_call (bound gas : Z) (input : bytes) (w : EVM) : Prop := {
  mc_sound : sound (evm_StateDB w);
  mc_gas : is_u64 gas;
  mc_bound : gas < bound;
  mc_room : room (evm_StateDB w) gas < two64;
  mc_input : short input
}.
Record calls_total (bound : Z) (calls : Calls) : Prop := {
  tl_Call caller addr input gas value w : may_call bound gas input w → warm (evm_StateDB w) addr →
    wp (λ r, answers w gas r.2 (call_gas r)) (c_Call calls caller addr input gas value w);
  tl_CallCode caller addr input gas value w : may_call bound gas input w → warm (evm_StateDB w) caller →
    wp (λ r, answers w gas r.2 (call_gas r)) (c_CallCode calls caller addr input gas value w);
  tl_DelegateCall caller addr input gas w : may_call bound gas input w → warm (evm_StateDB w) (ctr_self caller) →
    wp (λ r, answers w gas r.2 (call_gas r)) (c_DelegateCall calls caller addr input gas w);
  tl_StaticCall caller addr input gas w : may_call bound gas input w → warm (evm_StateDB w) addr →
    wp (λ r, answers w gas r.2 (call_gas r)) (c_StaticCall calls caller addr input gas w);
  tl_Create caller code gas value w : may_call bound gas code w →
    wp (λ r, answers w gas r.2 (create_gas r)) (c_Create calls caller code gas value w);
  tl_Create2 caller code gas value salt w : may_call bound gas code w →
    wp (λ r, answers w gas r.2 (create_gas r)) (c_Create2 calls caller code gas value salt w)
}.

(** What an instruction leaves to the frame. *)
Record exec_total (x : execution) (pc : Z) (sc : ScopeContext) (w : EVM) (r : op_result) : Prop := {
  et_pc : is_u64 (r_pc r);
  et_ctr : same_ctr (sc_Contract sc) (sc_Contract (r_scope r));
  et_answers : answers w (ctr_Gas (sc_Contract sc) + given x (sc_Stack sc) w) (r_evm r) (ctr_Gas (sc_Contract (r_scope r)))
}.

Section Instructions.
Context (bound : Z) (calls : Calls) (Hcalls : calls_total bound calls) (Hfine : calls_fine bound calls).
Context (pc : Z) (sc : ScopeContext) (w : EVM).
Context (Hpc : is_u64 pc) (Hg : is_u64 (ctr_Gas (sc_Contract sc))) (Hm : mem_ok (sc_Memory sc)) (Hs : sound (evm_StateDB w)).
Context (Hwarm : warm (evm_StateDB w) (ctr_self (sc_Contract sc))).

Lemma answers_refl gas gas' : gas' ≤ gas → answers w gas w gas'.
Proof. intros. split_and!; [reflexivity|apply Hs|unfold room; lia]. Qed.
(** An instruction that gives up before the call. *)
Lemma fails_total x e st : 0 ≤ given x (sc_Stack sc) w → wp (exec_total x pc sc w) (fails e pc (with_stack st sc) w).
Proof.
  intros Hx. split; [done|apply same_ctr_refl|]. simpl. apply answers_refl. lia.
Qed.
Lemma wp_finish_call x st ro rs r gas : in_mem ro rs (sc_Memory sc) → gas ≤ given x (sc_Stack sc) w →
  0 ≤ call_gas r ≤ gas → ctr_Gas (sc_Contract sc) + gas < two64 → answers w gas r.2 (call_gas r) →
  wp (exec_total x pc sc w) (finish_call pc sc st ro rs r).
Proof.
  intros Hi Hx Hr Hb (A1 & A2 & A3). unfold is_u64 in Hg. destruct r as [[[ret rg] err] w']. simpl in *. unfold finish_call. cbv zeta.
  apply wp_bind.
  assert (Hend : ∀ m, wp (exec_total x pc sc w) (Ret (MkRes pc (with_contract (with_Gas (add64 (ctr_Gas (sc_Contract sc)) rg)
    (sc_Contract sc)) (with_memory m (with_stack ((match err with None => 1 | Some _ => 0 end) :: st) sc))) (with_returnData ret w') ret None))).
  { intros m. split; simpl; [done|by eexists|]. rewrite add64_small by (unfold is_u64; lia). split_and!; [|done|].
    - transitivity w'; [done|]. apply (walk_returnData env (R:=mild)).
    - unfold room in *. simpl. lia. }
  destruct (_ || _); [apply wp_mem_Set; [done|done|apply Hend]|apply Hend].
Qed.
Lemma wp_finish_create x sc1 st flag r gas : given x (sc_Stack sc) w = 0 → same_ctr (sc_Contract sc) (sc_Contract sc1) →
  0 ≤ create_gas r ≤ gas → 0 ≤ ctr_Gas (sc_Contract sc1) → ctr_Gas (sc_Contract sc1) + gas = ctr_Gas (sc_Contract sc) →
  answers w gas r.2 (create_gas r) → wp (exec_total x pc sc w) (finish_create pc sc1 st flag r).
Proof.
  intros Hx Hc Hr H1 Hb (A1 & A2 & A3). unfold is_u64 in Hg. destruct r as [[[[ret addr] rg] err] w']. simpl in *. unfold finish_create. cbv zeta.
  assert (Hend : ∀ d, wp (exec_total x pc sc w) (Ret (MkRes pc (with_contract (with_Gas (add64 (ctr_Gas (sc_Contract sc1)) rg)
    (sc_Contract sc1)) (with_stack (flag err addr :: st) sc1)) (with_returnData d w') d None))).
  { intros d. split; simpl; [done|by apply same_ctr_gas|]. rewrite add64_small by (unfold is_u64; lia). split_and!; [|done|].
    - transitivity w'; [done|]. apply (walk_returnData env (R:=mild)).
    - unfold room in *. simpl. rewrite Hx. lia. }
  destruct (bool_decide _); apply Hend.
Qed.
Context (Ht : 0 ≤ callGasTemp w).
Lemma may_call_given x gas input : gas ≤ given x (sc_Stack sc) w → 0 ≤ gas → short input →
  ctr_Gas (sc_Contract sc) + given x (sc_Stack sc) w < Z.min two64 bound →
  room (evm_StateDB w) (ctr_Gas (sc_Contract sc) + given x (sc_Stack sc) w) < two64 → may_call bound gas input w.
Proof. unfold is_u64 in Hg. intros. split; [done|unfold is_u64; lia|lia|unfold room in *; lia|done]. Qed.

Lemma wp_opCall : (7 ≤ length (sc_Stack sc))%nat → covered MCall (sc_Stack sc) (sc_Memory sc) →
  ctr_Gas (sc_Contract sc) + given XCall (sc_Stack sc) w < Z.min two64 bound →
  room (evm_StateDB w) (ctr_Gas (sc_Contract sc) + given XCall (sc_Stack sc) w) < two64 →
  (∀ a, sc_Stack sc !! 1%nat = Some a → warm (evm_StateDB w) (Bytes20 a)) →
  wp (exec_total XCall pc sc w) (opCall calls pc sc w).
Proof.
  intros Hn Hc Hb Hroom Hw. unfold opCall, memory_args. pose proof (stipend_of_nonneg (sc_Stack sc)) as Hsp. unfold is_u64 in Hg.
  destruct (sc_Stack sc) as [|t [|a [|v [|i [|j [|k [|l st]]]]]]] eqn:Est; try (simpl in Hn; lia).
  destruct Hc as [Hc1 Hc2]. rewrite <- Est in *.
  apply wp_bind, wp_GetPtr; [done|apply Hc2; by rewrite Est|]. intros args Hargs.
  destruct (readOnly w && _); [apply fails_total; simpl; lia|]. simpl in Hb.
  rewrite (value_gas sc w t a v (i :: j :: k :: l :: st)) by (done || lia). apply wp_bind.
  set (gas := callGasTemp w + stipend_of (sc_Stack sc)) in *.
  eapply wp_mono; [apply wp_post; [apply (tl_Call bound)|apply (cf_Call bound)]|]; try done; try (unfold is_u64; lia).
  - apply (may_call_given XCall); try done; simpl; lia.
  - apply Hw. by rewrite Est.
  - intros r [H1 H2]. eapply (wp_finish_call XCall); [apply Hc1; by rewrite Est|simpl; exact (Z.le_refl gas)|done|lia|done].
Qed.
Lemma wp_opCallCode : (7 ≤ length (sc_Stack sc))%nat → covered MCall (sc_Stack sc) (sc_Memory sc) →
  ctr_Gas (sc_Contract sc) + given XCallCode (sc_Stack sc) w < Z.min two64 bound →
  room (evm_StateDB w) (ctr_Gas (sc_Contract sc) + given XCallCode (sc_Stack sc) w) < two64 →
  wp (exec_total XCallCode pc sc w) (opCallCode calls pc sc w).
Proof.
  intros Hn Hc Hb Hroom. unfold opCallCode, memory_args. pose proof (stipend_of_nonneg (sc_Stack sc)) as Hsp. unfold is_u64 in Hg.
  destruct (sc_Stack sc) as [|t [|a [|v [|i [|j [|k [|l st]]]]]]] eqn:Est; try (simpl in Hn; lia).
  destruct Hc as [Hc1 Hc2]. rewrite <- Est in *.
  apply wp_bind, wp_GetPtr; [done|apply Hc2; by rewrite Est|]. intros args Hargs. simpl in Hb.
  rewrite (value_gas sc w t a v (i :: j :: k :: l :: st)) by (done || lia). apply wp_bind.
  set (gas := callGasTemp w + stipend_of (sc_Stack sc)) in *.
  eapply wp_mono; [apply wp_post; [apply (tl_CallCode bound)|apply (cf_CallCode bound)]|]; try done; try (unfold is_u64; lia).
  - apply (may_call_given XCallCode); try done; simpl; lia.
  - intros r [H1 H2]. eapply (wp_finish_call XCallCode); [apply Hc1; by rewrite Est|simpl; exact (Z.le_refl gas)|done|lia|done].
Qed.
Lemma wp_opDelegateCall : (6 ≤ length (sc_Stack sc))%nat → covered MDelegateCall (sc_Stack sc) (sc_Memory sc) →
  ctr_Gas (sc_Contract sc) + given XDelegateCall (sc_Stack sc) w < Z.min two64 bound →
  room (evm_StateDB w) (ctr_Gas (sc_Contract sc) + given XDelegateCall (sc_Stack sc) w) < two64 →
  wp (exec_total XDelegateCall pc sc w) (opDelegateCall calls pc sc w).
Proof.
  intros Hn Hc Hb Hroom. unfold opDelegateCall, memory_args. unfold is_u64 in Hg.
  destruct (sc_Stack sc) as [|t [|a [|i [|j [|k [|l st]]]]]] eqn:Est; try (simpl in Hn; lia).
  destruct Hc as [Hc1 Hc2]. rewrite <- Est in *.
  apply wp_bind, wp_GetPtr; [done|apply Hc2; by rewrite Est|]. intros args Hargs. simpl in Hb. apply wp_bind.
  eapply wp_mono; [apply wp_post; [apply (tl_DelegateCall bound)|apply (cf_DelegateCall bound)]|]; try done; try (unfold is_u64; lia).
  - apply (may_call_given XDelegateCall); try done; simpl; lia.
  - intros r [H1 H2]. eapply (wp_finish_call XDelegateCall); [apply Hc1; by rewrite Est|simpl; exact (Z.le_refl _)|done|lia|done].
Qed.
Lemma wp_opStaticCall : (6 ≤ length (sc_Stack sc))%nat → covered MStaticCall (sc_Stack sc) (sc_Memory sc) →
  ctr_Gas (sc_Contract sc) + given XStaticCall (sc_Stack sc) w < Z.min two64 bound →
  room (evm_StateDB w) (ctr_Gas (sc_Contract sc) + given XStaticCall (sc_Stack sc) w) < two64 →
  (∀ a, sc_Stack sc !! 1%nat = Some a → warm (evm_StateDB w) (Bytes20 a)) →
  wp (exec_total XStaticCall pc sc w) (opStaticCall calls pc sc w).
Proof.
  intros Hn Hc Hb Hroom Hw. unfold opStaticCall, memory_args. unfold is_u64 in Hg.
  destruct (sc_Stack sc) as [|t [|a [|i [|j [|k [|l st]]]]]] eqn:Est; try (simpl in Hn; lia).
  destruct Hc as [Hc1 Hc2]. rewrite <- Est in *.
  apply wp_bind, wp_GetPtr; [done|apply Hc2; by rewrite Est|]. intros args Hargs. simpl in Hb. apply wp_bind.
  eapply wp_mono; [apply wp_post; [apply (tl_StaticCall bound)|apply (cf_StaticCall bound)]|]; try done; try (unfold is_u64; lia).
  - apply (may_call_given XStaticCall); try done; simpl; lia.
  - apply Hw. by rewrite Est.
  - intros r [H1 H2]. eapply (wp_finish_call XStaticCall); [apply Hc1; by rewrite Est|simpl; exact (Z.le_refl _)|done|lia|done].
Qed.
Lemma wp_opCreate : (3 ≤ length (sc_Stack sc))%nat → covered MCreate (sc_Stack sc) (sc_Memory sc) →
  ctr_Gas (sc_Contract sc) < bound → room (evm_StateDB w) (ctr_Gas (sc_Contract sc)) < two64 →
  wp (exec_total XCreate pc sc w) (opCreate env calls pc sc w).
Proof.
  intros Hn Hc Hb Hroom. unfold opCreate. pose proof Hg as Hg'. unfold is_u64 in Hg'.
  destruct (readOnly w); [replace sc with (with_stack (sc_Stack sc) sc) at 2 by (by destruct sc); by apply fails_total|].
  destruct (sc_Stack sc) as [|v [|i [|j st]]] eqn:Est; try (simpl in Hn; lia).
  apply wp_bind, wp_GetCopy; [done|by apply Hc|]. intros code Hcode.
  destruct (UseGas_all _ (sc_Contract sc) (IsEIP150 (chainRules env)) Hg eq_refl) as (Ha1 & Ha2 & Ha3).
  set (gas := if IsEIP150 _ then _ else _) in *. rewrite Ha3. unfold is_u64 in Ha1. apply wp_bind.
  eapply wp_mono; [apply wp_post; [apply (tl_Create bound)|apply (cf_Create bound)]|]; try done; try (unfold is_u64; lia).
  - split; [done|done|lia|unfold room in *; lia|done].
  - intros r [H1 H2]. eapply (wp_finish_create XCreate); [done|by eexists|done|simpl; lia|simpl; lia|done].
Qed.
Lemma wp_opCreate2 : (4 ≤ length (sc_Stack sc))%nat → covered MCreate2 (sc_Stack sc) (sc_Memory sc) →
  ctr_Gas (sc_Contract sc) < bound → room (evm_StateDB w) (ctr_Gas (sc_Contract sc)) < two64 →
  wp (exec_total XCreate2 pc sc w) (opCreate2 calls pc sc w).
Proof.
  intros Hn Hc Hb Hroom. unfold opCreate2. pose proof Hg as Hg'. unfold is_u64 in Hg'.
  destruct (readOnly w); [replace sc with (with_stack (sc_Stack sc) sc) at 2 by (by destruct sc); by apply fails_total|].
  destruct (sc_Stack sc) as [|v [|i [|j [|k st]]]] eqn:Est; try (simpl in Hn; lia).
  apply wp_bind, wp_GetCopy; [done|by apply Hc|]. intros code Hcode.
  destruct (UseGas_all _ (sc_Contract sc) true Hg eq_refl) as (Ha1 & Ha2 & Ha3).
  set (gas := sub64 _ _) in *. rewrite Ha3. unfold is_u64 in Ha1. apply wp_bind.
  eapply wp_mono; [apply wp_post; [apply (tl_Create2 bound)|apply (cf_Create2 bound)]|]; try done; try (unfold is_u64; lia).
  - split; [done|done|lia|unfold room in *; lia|done].
  - intros r [H1 H2]. eapply (wp_finish_create XCreate2); [done|by eexists|done|simpl; lia|simpl; lia|done].
Qed.
End Instructions.

(** *** A round *)

Lemma call_total x bound calls pc sc w : calls_total bound calls → calls_fine bound calls → is_call x = true →
  is_u64 pc → is_u64 (ctr_Gas (sc_Contract sc)) → mem_ok (sc_Memory sc) → sound (evm_StateDB w) →
  warm (evm_StateDB w) (ctr_self (sc_Contract sc)) → (needs_temp x = true → 0 ≤ callGasTemp w) →
  (pops x ≤ length (sc_Stack sc))%nat → (∀ f, mem_tag x = Some f → covered f (sc_Stack sc) (sc_Memory sc)) →
  ctr_Gas (sc_Contract sc) + given x (sc_Stack sc) w < Z.min two64 bound →
  room (evm_StateDB w) (ctr_Gas (sc_Contract sc) + given x (sc_Stack sc) w) < two64 →
  (∀ a, x = XCall ∨ x = XStaticCall → sc_Stack sc !! 1%nat = Some a → warm (evm_StateDB w) (Bytes20 a)) →
  wp (exec_total x pc sc w) (exec_fun env calls x pc sc w).
Proof.
  intros Hc Hf Hx Hpc Hg Hm Hs Hwm Ht Hn Hcov Hb Hr Hw. unfold is_u64 in Hg.
  destruct x; try discriminate Hx; cbn [exec_fun pops mem_tag] in *; specialize (Hcov _ eq_refl);
    try specialize (Ht eq_refl); cbn [given] in Hb, Hr; rewrite ?Z.add_0_r in Hb, Hr.
  - apply (wp_opCreate bound); try done; lia.
  - apply (wp_opCall bound); try done. intros a. apply Hw. by left.
  - by apply (wp_opCallCode bound).
  - by apply (wp_opDelegateCall bound).
  - apply (wp_opCreate2 bound); try done; lia.
  - apply (wp_opStaticCall bound); try done. intros a. apply Hw. by right.
Qed.

(** A storage write whose gas has been charged. *)
Lemma sstore_total s0 pc sc w cost : sound s0 → ok db (evm_StateDB w) → is_u64 pc → codes_ok env (evm_StateDB w) →
  (2 ≤ length (sc_Stack sc))%nat →
  (∀ x y, sc_Stack sc !! 0%nat = Some x → sc_Stack sc !! 1%nat = Some y →
     prepared env (ctr_self (sc_Contract sc)) x y s0 (evm_StateDB w) cost) →
  wp (λ r, is_u64 (r_pc r) ∧ same_ctr (sc_Contract sc) (sc_Contract (r_scope r)) ∧
           ctr_Gas (sc_Contract (r_scope r)) = ctr_Gas (sc_Contract sc) ∧ mild w (r_evm r) ∧
           (r_err r = None ∨ r_err r = Some errStopToken →
              refund_ok env (evm_StateDB (r_evm r)) ∧ refund (evm_StateDB (r_evm r)) ≤ refund s0 + 200 * cost))
    (opSstore env pc sc w).
Proof.
  intros Hs Ho Hpc Hc Hn Hp. unfold opSstore. destruct (readOnly w) eqn:Ero.
  { cbn. split_and!; [done|apply same_ctr_refl|done|reflexivity|]. by intros [?|?]. }
  destruct (sc_Stack sc) as [|x [|y st]]; try (simpl in Hn; lia). specialize (Hp x y eq_refl eq_refl).
  cbn. split_and!; [done|apply same_ctr_refl|done|by apply (walk_SetState env (R:=mild))|]. intros _. split.
  - by eapply prepared_write; [|apply Ho|].
  - destruct (SetState_views db Hempty (ctr_self (sc_Contract sc)) x y _ (ok_good _ _ Ho)) as ([-> _] & _). apply Hp.
Qed.
Lemma op_minStack_pops o (st : list Z) : op_total o = true → op_minStack o ≤ Z.of_nat (length st) → (pops (execute o) ≤ length st)%nat.
Proof. unfold op_total. intros Ht Hl. bprop. lia. Qed.
Lemma op_memory o : op_total o = true → memorySize o = mem_tag (execute o).
Proof. unfold op_total. intros Ht. by bprop. Qed.

Definition finished_total (w : EVM) (gas : Z) (r : run_result) : Prop :=
  let '(_, err, gas', w') := r in
  mild w w' ∧ (err = None → refund_ok env (evm_StateDB w') ∧ room (evm_StateDB w') gas' ≤ room (evm_StateDB w) gas).
Record running (sc : ScopeContext) (w : EVM) : Prop := {
  rn_sound : sound (evm_StateDB w);
  rn_warm : warm (evm_StateDB w) (ctr_self (sc_Contract sc));
  rn_code : short (ctr_Code (sc_Contract sc));
  rn_input : short (ctr_Input (sc_Contract sc));
  rn_gas : is_u64 (ctr_Gas (sc_Contract sc));
  rn_mem : mem_ok (sc_Memory sc);
  rn_room : room (evm_StateDB w) (ctr_Gas (sc_Contract sc)) < two64
}.

Lemma reads_code_pc pc c : reads_code (execute (jump_table env (GetOp pc c))) = true → pc < Z.of_nat (length (ctr_Code c)).
Proof.
  intros Hr. destruct (decide (pc < Z.of_nat (length (ctr_Code c)))) as [|Hge]; [done|]. exfalso. revert Hr.
  unfold GetOp. rewrite (proj2 (Z.ltb_ge _ _)) by lia. rewrite (london_stop env Hrules). discriminate.
Qed.

Lemma exec_round o bound calls pc sc sc' w w' : calls_total bound calls → calls_fine bound calls →
  op_total o = true → op_minStack o ≤ Z.of_nat (length (sc_Stack sc)) → is_u64 pc → running sc w →
  (reads_code (execute o) = true → pc < Z.of_nat (length (ctr_Code (sc_Contract sc)))) →
  ctr_Gas (sc_Contract sc) ≤ bound →
  charged o sc sc' w' → charged_total o sc w sc' w' → mild w w' →
  wp (λ r, is_u64 (r_pc r) ∧ same_ctr (sc_Contract sc) (sc_Contract (r_scope r)) ∧ mild w (r_evm r) ∧
           (r_err r = None ∨ r_err r = Some errStopToken → refund_ok env (evm_StateDB (r_evm r)) ∧
              room (evm_StateDB (r_evm r)) (ctr_Gas (sc_Contract (r_scope r))) ≤ room (evm_StateDB w) (ctr_Gas (sc_Contract sc))))
    (exec_fun env calls (execute o) pc sc' w').
Proof.
  intros Hc Hf Ht Hst Hpc [Hs Hw Hcode Hinput Hg Hm Hroom] Hrd Hb [Est Hm' Htemp Hg' Hgiv Hpaid] [Hctr Hcov Hcalm Hss Hwarm] Hmild.
  unfold is_u64 in Hg. pose proof (op_minStack_pops o _ Ht Hst) as Hpops. rewrite <- Est in Hpops, Hcov, Hgiv, Hpaid, Hss, Hwarm.
  rewrite (op_memory o Ht) in Hcov. destruct Hctr as [g Ectr]. rewrite Ectr in *. simpl in Hg', Hpaid.
  destruct (match execute o with XSstore => true | _ => false end) eqn:Ex.
  { assert (execute o = XSstore) as Ex' by (by destruct (execute o)). rewrite Ex' in *. cbn [exec_fun pops] in *.
    assert (Ho' : ok db (evm_StateDB w')) by (eapply goes_ok; [apply Hmild|apply Hs]).
    eapply wp_mono; [apply (sstore_total (evm_StateDB w) pc sc' w' (ctr_Gas (sc_Contract sc) - g)); try done|].
    - apply Hmild; apply Hs.
    - intros x y H1 H2. rewrite Ectr. by apply Hss.
    - intros r (R1 & R2 & R3 & R4 & R5). rewrite Ectr in R2, R3. simpl in R3. split_and!; [done| |by transitivity w'|].
      + eapply same_ctr_trans; [|exact R2]. by eexists.
      + intros He. destruct (R5 He) as [? ?]. split; [done|]. unfold room. rewrite R3. lia. }
  assert (Hne : execute o ≠ XSstore) by (by destruct (execute o)). specialize (Hcalm Hne).
  assert (Hs' : sound (evm_StateDB w')) by (by eapply sound_calm).
  assert (Href : refund (evm_StateDB w') = refund (evm_StateDB w)) by apply Hcalm, Hs.
  assert (Hw' : warm (evm_StateDB w') (ctr_self (sc_Contract sc'))) by (rewrite Ectr; apply (mild_warm _ _ _ Hmild); [apply Hs|done]).
  assert (Hgc : is_u64 (ctr_Gas (sc_Contract sc'))) by (rewrite Ectr; unfold is_u64; simpl; destruct (halts _); lia).
  destruct (is_call (execute o)) eqn:Ecall.
  - assert (halts (execute o) = false) as Eh by (by destruct (execute o)). rewrite Eh in Hpaid.
    eapply wp_mono; [apply (call_total _ bound); try done|].
    + rewrite Ectr. simpl. lia.
    + rewrite Ectr. unfold room in *. simpl. rewrite Href. lia.
    + intros r [E1 E2 (A1 & A2 & A3)]. rewrite Ectr in E2, A3. simpl in A3. split_and!; [done| |by transitivity w'|].
      * eapply same_ctr_trans; [|exact E2]. by eexists.
      * intros _. split; [done|]. unfold room in *. rewrite Href in A3. lia.
  - pose proof (wp_plain env calls pc sc' w' Hm') as Hp. rewrite Ectr in Hp. simpl in Hp.
    specialize (Hp Hcode Hinput (snd_codes _ Hs') Hpc Hfee (execute o) Ecall Hpops Hcov Hrd).
    pose proof (plain_ctr env calls (execute o) pc sc' w' Ecall) as Hctr.
    pose proof (post_plain env calls (execute o) pc sc' w' Ecall ltac:(unfold is_u64 in Hgc; lia) Hm') as Hfn.
    pose proof (walk_plain env false calm calls (execute o) pc sc' w' Ecall ltac:(done)) as Hcl.
    destruct (exec_fun env calls (execute o) pc sc' w') as [r| |]; simpl in *; try done.
    destruct Hctr as [C1 C2]. destruct Hfn as [F1 _ _]. rewrite Ectr in C1, F1. simpl in F1.
    rewrite (given_other (execute o)) in F1, Hpaid by (by destruct (execute o)). split_and!; [by apply C2| | |].
    + eapply same_ctr_trans; [|exact C1]. by eexists.
    + transitivity w'; [done|apply Hcl].
    + intros _. split; [by apply (sound_calm w' _ Hcl)|]. unfold room. rewrite (calm_refund _ _ _ Hcl), Href by apply Hs'.
      destruct (halts _); lia.
Qed.

Lemma step_total bound calls pc sc w : calls_total bound calls → calls_fine bound calls → is_u64 pc → running sc w →
  ctr_Gas (sc_Contract sc) ≤ bound →
  wp (λ r, match r with
           | Continue pc' sc' w' => is_u64 pc' ∧ same_ctr (sc_Contract sc) (sc_Contract sc') ∧
               answers w (ctr_Gas (sc_Contract sc)) w' (ctr_Gas (sc_Contract sc'))
           | Finished r => finished_total w (ctr_Gas (sc_Contract sc)) r
           end) (step env calls pc sc w).
Proof.
  intros Hc Hf Hpc Hrn Hb. unfold step. pose proof (GetOp_range pc (sc_Contract sc)) as Hop.
  pose proof (london_total env _ Hrules Hop) as Ht. destruct (jump_table_fine env _ (london_in_order _ Hrules) Hop) as [Hfn Hcold].
  pose proof (reads_code_pc pc (sc_Contract sc)) as Hrd. set (o := jump_table env _) in *.
  destruct (_ <? op_minStack o) eqn:E1; [cbn; split; [reflexivity|done]|].
  destruct (op_maxStack o <? _); [cbn; split; [reflexivity|done]|]. bprop. apply wp_bind.
  pose proof (charge_total o sc w Ht Hfn E1 (rn_sound _ _ Hrn) (rn_warm _ _ Hrn) (rn_gas _ _ Hrn) (rn_mem _ _ Hrn) (rn_room _ _ Hrn)) as H1.
  pose proof (post_charge env o sc w Hfn Hcold (rn_gas _ _ Hrn) (rn_mem _ _ Hrn)) as H2.
  pose proof (walk_charge env true mild o sc w ltac:(done)) as H3.
  destruct (charge env o sc w) as [[r|[sc' w']]| |]; simpl in H1, H2, H3 |- *; try done.
  { destruct H1 as (ret & e & gas & w' & ->). simpl. by split. }
  apply wp_bind. eapply wp_mono; [by apply (exec_round o bound)|].
  intros r (R1 & R2 & R3 & R4). destruct (r_err r) as [e|] eqn:Ee; cbn.
  - split; [done|]. case_bool_decide; [|done]. intros _. apply R4. right. by subst.
  - split_and!; [apply u64_bound|done|]. destruct (R4 (or_introl eq_refl)). by split_and!.
Qed.

(** *** Calls and creations *)

Section Machine.
Context (Hprecompiled : ∀ a p input, precompile env a = Some p → 0 ≤ RequiredGas p input).

Record run_ready (bound : Z) (c : Contract) (input : bytes) (w : EVM) : Prop := {
  rr_sound : sound (evm_StateDB w);
  rr_warm : warm (evm_StateDB w) (ctr_self c);
  rr_code : short (ctr_Code c);
  rr_input : short input;
  rr_gas : is_u64 (ctr_Gas c);
  rr_bound : ctr_Gas c < bound;
  rr_room : room (evm_StateDB w) (ctr_Gas c) < two64
}.
Context (bound : Z) (run : Contract → bytes → bool → EVM → outcome run_result).
Context (Hrun : ∀ c input ro w, run_ready bound c input w → wp (finished_total w (ctr_Gas c)) (run c input ro w)).
Context (Hfine : ∀ c input ro w, is_u64 (ctr_Gas c) → ctr_Gas c < bound → post (finished_fine (ctr_Gas c)) (run c input ro w)).

Lemma calm_CanTransfer a v w b w' : CanTransfer env a v w = (b, w') → calm w w'.
Proof. unfold CanTransfer. destruct (ask _ w) eqn:E. intros [= _ <-]. let R := constr:(calm) in walk_back R. Qed.
Lemma calm_Transfer a b v w : calm w (Transfer env a b v w).
Proof.
  etransitivity; [by apply (calm_op env Hempty (OpSubBalance a v))|]. by apply (calm_op env Hempty (OpAddBalance b v)).
Qed.
Lemma calm_snapshot w : calm w (with_db (StateDB_Snapshot (evm_StateDB w)).2 w).
Proof.
  assert (Hg : goes env w (with_db (StateDB_Snapshot (evm_StateDB w)).2 w)) by (split; [apply path_snapshot|done|done]).
  split; [apply mild_kept; [done|]; intros _; split; [by apply kept_objects|done]| |done]. intros _. by apply kept_objects.
Qed.
Lemma snapshot_calm w id w' : evm_Snapshot w = (id, w') → id = nextRevisionId (evm_StateDB w) ∧ since env w w' ∧ calm w w'.
Proof.
  intros E. destruct (snapshot_ask env _ _ _ E) as [-> Hsi]. split_and!; [done|done|].
  unfold evm_Snapshot in E. rewrite ask_fst_snd in E. injection E as <-. apply calm_snapshot.
Qed.
Lemma answers_calm w w1 gas w' gas' : sound (evm_StateDB w) → calm w w1 → answers w1 gas w' gas' → answers w gas w' gas'.
Proof.
  intros Hs Hc (A1 & A2 & A3). split_and!; [transitivity w1; [apply Hc|done]|done|].
  unfold room in *. by rewrite <- (calm_refund _ _ _ Hc) by apply Hs.
Qed.
Lemma answers_here w w' gas : sound (evm_StateDB w) → calm w w' → 0 ≤ gas → answers w gas w' gas ∧ answers w gas w' 0.
Proof.
  intros Hs Hc Hg. pose proof (calm_refund _ _ _ Hc (snd_ok _ Hs)) as Hr. pose proof (sound_calm w w' Hc Hs) as Hs'.
  split; (split_and!; [apply Hc|apply Hs'|unfold room; lia]).
Qed.

(** The state a failed call goes back to. *)
Lemma reverted_total w1 w2 s gas g : sound (evm_StateDB w1) → since env w1 w2 → g ≤ gas →
  RevertToSnapshot db (nextRevisionId (evm_StateDB w1)) (evm_StateDB w2) = Ok s → answers w1 gas (with_db s w2) g.
Proof.
  intros Hs Hsi Hg HR. destruct (since_reverted env w1 w2 s Hsi HR) as [Hgo He]. specialize (He (snd_ok _ Hs)).
  destruct (eqv_both env _ _ He) as [Hk Hq]. split_and!.
  - split; [done| |].
    + intros _ Hc. simpl. by eapply codes_kept.
    + intros a _. simpl. by apply warm_quiet.
  - simpl. eapply refund_kept; [exact Hk|apply Hq|apply Hs].
  - unfold room. simpl. rewrite (proj1 Hq). lia.
Qed.
Lemma revert_exists w1 w2 : sound (evm_StateDB w1) → since env w1 w2 →
  ∃ s, RevertToSnapshot db (nextRevisionId (evm_StateDB w1)) (evm_StateDB w2) = Ok s.
Proof.
  intros Hs [Hp _ _]. destruct (revert_back db _ _ (snd_ok _ Hs) Hp) as (s & HR & _). eauto.
Qed.

Definition body_total (w : EVM) (gas : Z) (r : call_result) : Prop :=
  mild w r.2 ∧ 0 ≤ call_gas r ≤ gas ∧
  (call_err r = None → refund_ok env (evm_StateDB r.2) ∧ room (evm_StateDB r.2) (call_gas r) ≤ room (evm_StateDB w) gas).
Lemma settle_total w1 w2 gas m : sound (evm_StateDB w1) → since env w1 w2 → calm w1 w2 → wp (body_total w2 gas) m →
  wp (λ r, answers w1 gas r.2 (call_gas r)) (r ← m; settle env (nextRevisionId (evm_StateDB w1)) r).
Proof.
  intros Hs Hsi Hc Hm. apply wp_bind. eapply wp_mono; [exact Hm|]. intros [[[ret g] err] w3] (B1 & B2 & B3).
  unfold call_err in B3. simpl in *. destruct err as [e|]; simpl.
  - assert (Hsi3 : since env w1 w3) by (eapply since_trans; [exact Hsi|apply B1]).
    destruct (revert_exists w1 w3 Hs Hsi3) as [s HR]. unfold change_or_panic. rewrite HR. simpl.
    eapply reverted_total; try done. case_bool_decide; lia.
  - destruct (B3 eq_refl) as [B4 B5]. eapply answers_calm; [done|exact Hc|]. by split_and!.
Qed.

Lemma precompiled_total p a input gas w : precompile env a = Some p → sound (evm_StateDB w) → 0 ≤ gas < two64 →
  body_total w gas (let '(ret, g, err) := RunPrecompiledContract p input gas in (ret, g, err, w)).
Proof.
  intros Hp Hs Hg. pose proof (precompiled_fine env Hprecompiled p a input gas Hp Hg) as Hf.
  destruct (RunPrecompiledContract p input gas) as [[ret g] err]. unfold body_total. simpl in *. split_and!; [reflexivity|lia|lia|].
  intros _. split; [apply Hs|unfold room; simpl; lia].
Qed.
(** The run of the callee's code as the body of a call. *)
Lemma run_total c input ro w w1 gas : sound (evm_StateDB w) → calm w w1 → ctr_Gas c = gas → run_ready bound c input w1 →
  wp (body_total w gas) ('(ret, err, g, w') ← run c input ro w1; Ret (ret, g, err, w')).
Proof.
  intros Hs Hc Hgas Hr. apply wp_bind. pose proof (Hrun c input ro w1 Hr) as H1.
  pose proof (Hfine c input ro w1 (rr_gas _ _ _ _ Hr) (rr_bound _ _ _ _ Hr)) as H2.
  destruct (run c input ro w1) as [[[[ret err] g] w']| |]; simpl in *; try done. subst gas.
  destruct H1 as [M1 R1]. unfold body_total. simpl. split_and!; [transitivity w1; [apply Hc|done]|lia..|].
  unfold call_err. simpl. intros He. destruct (R1 He) as [? Hr2]. split; [done|].
  unfold room in *. by rewrite <- (calm_refund _ _ _ Hc) by apply Hs.
Qed.
Lemma run_code_total addr c input gas ro w : sound (evm_StateDB w) → ctr_Gas c = gas →
  run_ready bound (SetCallCode [] c) input w → wp (body_total w gas) (run_code env run addr c input gas ro w).
Proof.
  intros Hs Hgas [R1 R2 _ R4 R5 R6 R7]. simpl in R5, R6, R7. unfold run_code. destruct (precompile env addr) as [p|] eqn:Ep.
  - pose proof (precompiled_total p addr input gas w Ep Hs) as Hp. unfold is_u64 in R5. specialize (Hp ltac:(lia)).
    by destruct (RunPrecompiledContract p input gas) as [[ret g] err].
  - destruct (ask _ w) as [h w1] eqn:E1. assert (H1 : calm w w1) by (let R := constr:(calm) in walk_back R).
    destruct (ask (GetCode db addr) w1) as [code w2] eqn:E2.
    assert (H2 : calm w w2) by (let R := constr:(calm) in walk_back R).
    pose proof (sound_calm w w1 H1 Hs) as Hs1. pose proof (sound_calm w w2 H2 Hs) as Hs2.
    apply (run_total _ _ _ w w2); [done|done|done|]. split; simpl; try done.
    + apply (mild_warm _ _ _ (calm_mild _ _ _ H2)); [apply Hs|done].
    + rewrite ask_fst_snd in E2. injection E2 as <- _. fold (code_of db (evm_StateDB w1) addr).
      destruct (code_of db (evm_StateDB w1) addr) as [cd|] eqn:Ec; [by apply (snd_codes _ Hs1 addr)|done].
    + unfold room in *. by rewrite (calm_refund _ _ _ H2) by apply Hs.
Qed.

Lemma Call_total caller addr input gas value w : may_call bound gas input w → warm (evm_StateDB w) addr →
  wp (λ r, answers w gas r.2 (call_gas r)) (evm_Call env run caller addr input gas value w).
Proof.
  intros [Hs Hg Hb Hr Hi] Hw. pose proof Hg as Hg'. unfold is_u64 in Hg'. unfold evm_Call.
  destruct (_ <? _); [apply (answers_here w w gas); [done|reflexivity|lia]|].
  destruct (if negb (value =? 0) then _ else _) as [can w1] eqn:E1.
  assert (H1 : calm w w1) by (destruct (negb (value =? 0)); [by eapply calm_CanTransfer|by injection E1 as <- <-]).
  destruct (negb can); [apply (answers_here w w1 gas); [done|done|lia]|].
  pose proof (sound_calm w w1 H1 Hs) as Hs1. unfold evm_Snapshot. rewrite ask_fst_snd. set (w2 := with_db _ w1).
  change (StateDB_Snapshot (evm_StateDB w1)).1 with (nextRevisionId (evm_StateDB w1)).
  assert (H2 : calm w1 w2) by apply calm_snapshot. assert (Hsi : since env w1 w2) by (unfold since; reflexivity).
  destruct (ask (Exist _ _) w2) as [ex w3] eqn:E3. assert (H3 : calm w2 w3) by (let R := constr:(calm) in walk_back R).
  assert (H13 : calm w1 w3) by (by transitivity w2).
  destruct (_ && (value =? 0)); [apply (answers_here w w3 gas); [done|by transitivity w1|lia]|].
  set (w4 := if negb ex then _ else _).
  assert (H4 : calm w3 w4) by (unfold w4; destruct (negb ex); [by apply (calm_op env Hempty (OpCreateAccount addr))|reflexivity]).
  assert (H5 : calm w4 (Transfer env caller addr value w4)) by apply calm_Transfer.
  set (w5 := Transfer _ _ _ _ w4) in *. assert (H15 : calm w1 w5) by (transitivity w3; [done|]; by transitivity w4).
  apply (wp_mono (λ r, answers w1 gas r.2 (call_gas r))); [|intros r; by apply answers_calm].
  pose proof (sound_calm w1 w5 H15 Hs1) as Hs5. clearbody w5.
  apply (settle_total w1 w5); [done| |done|].
  { eapply since_trans; [exact Hsi|]. apply (calm_mild _ _ _ (transitivity (transitivity H3 H4) H5)). }
  destruct (precompile env addr) as [p|] eqn:Ep.
  { pose proof (precompiled_total p addr input gas w5 Ep Hs5 ltac:(lia)) as Hp.
    by destruct (RunPrecompiledContract p input gas) as [[ret g] err]. }
  destruct (ask (GetCode db addr) w5) as [code w6] eqn:E6. assert (H6 : calm w5 w6) by (let R := constr:(calm) in walk_back R).
  pose proof (sound_calm w5 w6 H6 Hs5) as Hs6.
  destruct (_ =? 0)%nat.
  { split_and!; [apply H6|simpl; lia|simpl; lia|]. intros _. split; [apply Hs6|].
    unfold room. simpl. rewrite (calm_refund _ _ _ H6) by apply Hs5. lia. }
  destruct (ask _ w6) as [h w7] eqn:E7. assert (H7 : calm w5 w7) by (let R := constr:(calm) in walk_back R).
  assert (H07 : calm w w7) by (transitivity w1; [done|]; by transitivity w5).
  apply (run_total _ _ _ w5 w7); [done|done|done|]. split; simpl; try done.
  - by apply (sound_calm w5 w7).
  - apply (mild_warm _ _ _ (calm_mild _ _ _ H07)); [apply Hs|done].
  - rewrite ask_fst_snd in E6. injection E6 as <- _. fold (code_of db (evm_StateDB w5) addr).
    destruct (code_of db (evm_StateDB w5) addr) as [cd|] eqn:Ec; [by apply (snd_codes _ Hs5 addr)|done].
  - unfold room in *. by rewrite (calm_refund _ _ _ H07) by apply Hs.
Qed.
Lemma CallCode_total caller addr input gas value w : may_call bound gas input w → warm (evm_StateDB w) caller →
  wp (λ r, answers w gas r.2 (call_gas r)) (evm_CallCode env run caller addr input gas value w).
Proof.
  intros [Hs Hg Hb Hr Hi] Hw. pose proof Hg as Hg'. unfold is_u64 in Hg'. unfold evm_CallCode.
  destruct (_ <? _); [apply (answers_here w w gas); [done|reflexivity|lia]|].
  destruct (CanTransfer _ _ _ w) as [can w1] eqn:E1. apply calm_CanTransfer in E1.
  destruct (negb can); [apply (answers_here w w1 gas); [done|done|lia]|].
  pose proof (sound_calm w w1 E1 Hs) as Hs1. destruct (evm_Snapshot w1) as [id w2] eqn:E2.
  destruct (snapshot_calm _ _ _ E2) as (-> & Hsi & H2).
  assert (H02 : calm w w2) by (by transitivity w1). pose proof (sound_calm w w2 H02 Hs) as Hs2.
  apply (wp_mono (λ r, answers w1 gas r.2 (call_gas r))); [|intros r; by apply answers_calm].
  apply (settle_total w1 w2); [done..|]. apply run_code_total; [done|done|]. split; simpl; try done.
  - apply (mild_warm _ _ _ (calm_mild _ _ _ H02)); [apply Hs|done].
  - pose proof (calm_refund _ _ _ H02 (snd_ok _ Hs)) as Hre. unfold room in *. lia.
Qed.
Lemma DelegateCall_total caller addr input gas w : may_call bound gas input w → warm (evm_StateDB w) (ctr_self caller) →
  wp (λ r, answers w gas r.2 (call_gas r)) (evm_DelegateCall env run caller addr input gas w).
Proof.
  intros [Hs Hg Hb Hr Hi] Hw. pose proof Hg as Hg'. unfold is_u64 in Hg'. unfold evm_DelegateCall.
  destruct (_ <? _); [apply (answers_here w w gas); [done|reflexivity|lia]|].
  destruct (evm_Snapshot w) as [id w2] eqn:E2.
  destruct (snapshot_calm _ _ _ E2) as (-> & Hsi & H2).
  pose proof (sound_calm w w2 H2 Hs) as Hs2.
  apply (settle_total w w2); [done..|]. apply run_code_total; [done|done|]. split; simpl; try done.
  - apply (mild_warm _ _ _ (calm_mild _ _ _ H2)); [apply Hs|done].
  - pose proof (calm_refund _ _ _ H2 (snd_ok _ Hs)) as Hre. unfold room in *. lia.
Qed.
Lemma StaticCall_total caller addr input gas w : may_call bound gas input w → warm (evm_StateDB w) addr →
  wp (λ r, answers w gas r.2 (call_gas r)) (evm_StaticCall env run caller addr input gas w).
Proof.
  intros [Hs Hg Hb Hr Hi] Hw. pose proof Hg as Hg'. unfold is_u64 in Hg'. unfold evm_StaticCall.
  destruct (_ <? _); [apply (answers_here w w gas); [done|reflexivity|lia]|].
  destruct (evm_Snapshot w) as [id w2] eqn:E2.
  destruct (snapshot_calm _ _ _ E2) as (-> & Hsi & H2).
  assert (H3 : calm w2 (change (StateDB_AddBalance db addr 0) w2)) by (by apply (calm_op env Hempty (OpAddBalance addr 0))).
  set (w3 := change _ w2) in *. clearbody w3. assert (H03 : calm w w3) by (by transitivity w2). pose proof (sound_calm w w3 H03 Hs) as Hs3.
  apply (settle_total w w3); [done| |done|].
  { eapply since_trans; [exact Hsi|]. apply H3. }
  apply run_code_total; [done|done|]. split; cbn [ctr_self ctr_Gas ctr_Code SetCallCode NewContract]; try done.
  - apply (mild_warm _ _ _ (calm_mild _ _ _ H03)); [apply Hs|done].
  - pose proof (calm_refund _ _ _ H03 (snd_ok _ Hs)) as Hre. unfold room in *. lia.
Qed.
(** The code a creation returned is short, and storing it keeps the slots. *)
Lemma store_code_total address r w gas : sound (evm_StateDB w) → 0 ≤ gas < two64 → finished_total w gas r → finished_fine gas r →
  finished_total w gas (store_code env address r).
Proof.
  destruct r as [[[ret err] g] w1]. intros Hs Hg [Hm Hr] Hf. simpl in Hf. destruct Hrules as [_ _ R158 _ _].
  unfold store_code. destruct err as [e|]; [by split|]. rewrite R158. cbn [andb].
  destruct (Hr eq_refl) as [Hro Hroom].
  destruct (MaxCodeSize <? _) eqn:E1; [by split|]. destruct (_ && _); [by split|].
  destruct (g <? _) eqn:E2; [by split|]. bprop.
  assert (Ho1 : ok db (evm_StateDB w1)) by (eapply goes_ok; [apply Hm|apply Hs]).
  destruct (SetCode_views db Hempty address ret _ (ok_good _ _ Ho1)) as (Hq & Hc & Hv).
  assert (Hd : 0 ≤ mul64 (Z.of_nat (length ret)) CreateDataGas) by apply u64_bound. set (w2 := change _ w1). split.
  - split.
    + transitivity w1; [apply Hm|]. by apply (goes_change env (OpSetCode address ret)).
    + intros Ho Hcs a c. simpl. rewrite Hc. destruct (decide (address = a)); [|by apply Hm].
      intros [= <-]. unfold short. unfold MaxCodeSize in E1. lia.
    + intros a Ho Hw. eapply warm_quiet; [exact Hq|]. by apply Hm.
  - intros _. split.
    + destruct Hro as (D & HD & Hle). exists D. split.
      * intros a k. simpl. destruct (Hv a k) as [-> ->]. apply HD.
      * simpl. by rewrite (proj1 Hq).
    + unfold room in *. simpl. rewrite (proj1 Hq). rewrite sub64_small by (unfold is_u64; lia). lia.
Qed.

(** A creation up to the run of its code. *)
Lemma create_total caller code gas value address w : may_call bound gas code w →
  wp (λ r, answers w gas r.2 (create_gas r)) (evm_create env run caller code gas value address w).
Proof.
  intros [Hs Hg Hb Hr Hi]. pose proof Hg as Hg'. unfold is_u64 in Hg'. unfold evm_create.
  destruct (_ <? _); [apply (answers_here w w gas); [done|reflexivity|lia]|].
  destruct (CanTransfer _ _ _ w) as [can w1] eqn:E1. apply calm_CanTransfer in E1.
  destruct (negb can); [apply (answers_here w w1 gas); [done|done|lia]|].
  destruct (ask (GetNonce _ _) w1) as [nonce w2] eqn:E2.
  assert (H2 : calm w w2) by (transitivity w1; [done|]; let R := constr:(calm) in walk_back R).
  destruct (_ <? nonce); [apply (answers_here w w2 gas); [done|done|lia]|].
  rewrite (ln_Homestead _ Hrules), (ln_EIP158 _ Hrules), (ln_Berlin _ Hrules). cbv zeta. cbn [orb].
  assert (H3 : calm w2 (change (SetNonce db caller (add64 nonce 1)) w2)) by (by apply (calm_op env Hempty (OpSetNonce caller (add64 nonce 1)))).
  set (w3 := change (SetNonce _ _ _) w2) in *. clearbody w3.
  assert (H4 : calm w3 (change (AddAddressToAccessList address) w3)) by apply (walk_AddAddress env (R:=calm)).
  assert (Hw4 : warm (evm_StateDB (change (AddAddressToAccessList address) w3)) address) by (apply AddAddress_warm; by right).
  set (w4 := change (AddAddressToAccessList _) w3) in *. clearbody w4.
  assert (H04 : calm w w4) by (transitivity w2; [done|]; by transitivity w3). clear H2 H3 H4.
  destruct (ask (GetCodeHash _ _) w4) as [h w5] eqn:E5. destruct (ask (GetNonce _ _) w5) as [n w6] eqn:E6.
  assert (H5 : calm w4 w5) by (let R := constr:(calm) in walk_back R).
  assert (H6 : calm w4 w6) by (transitivity w5; [done|]; let R := constr:(calm) in walk_back R).
  assert (H06 : calm w w6) by (by transitivity w4). pose proof (sound_calm w w6 H06 Hs) as Hs6.
  destruct (negb (n =? 0) || _); [apply (answers_here w w6 gas); [done|done|lia]|].
  destruct (evm_Snapshot w6) as [id w7] eqn:E7. destruct (snapshot_calm _ _ _ E7) as (-> & Hsi & H7).
  assert (H8 : calm w7 (change (CreateAccount db address) w7)) by (by apply (calm_op env Hempty (OpCreateAccount address))).
  set (w8 := change (CreateAccount _ _) w7) in *. clearbody w8.
  assert (H9 : calm w8 (change (SetNonce db address 1) w8)) by (by apply (calm_op env Hempty (OpSetNonce address 1))).
  set (w9 := change (SetNonce _ _ _) w8) in *. clearbody w9.
  pose proof (calm_Transfer caller address value w9) as H10. set (w10 := Transfer _ _ _ _ w9) in *. clearbody w10.
  assert (H7' : calm w7 w10) by (transitivity w8; [done|]; by transitivity w9).
  assert (H60 : calm w6 w10) by (by transitivity w7). assert (H410 : calm w4 w10) by (by transitivity w6).
  pose proof (sound_calm w6 w10 H60 Hs6) as Hs10.
  assert (Hsi10 : since env w6 w10) by (eapply since_trans; [exact Hsi|apply H7']).
  assert (Hr10 : refund (evm_StateDB w10) = refund (evm_StateDB w)).
  { rewrite (calm_refund _ _ _ H60), (calm_refund _ _ _ H06); [done|apply Hs|apply Hs6]. }
  set (c := SetCallCode code (NewContract caller address value gas)).
  assert (Hrr : run_ready bound c [] w10).
  { split; try done; simpl.
    - apply (mild_warm _ _ _ (calm_mild _ _ _ H410)); [by apply (sound_calm w w4)|done].
    - unfold room in *. by rewrite Hr10. }
  apply wp_bind. eapply wp_mono; [apply wp_post; [by apply Hrun|by apply Hfine]|]. intros r [Ht Hf].
  pose proof (store_code_total address r w10 gas Hs10 ltac:(lia) Ht Hf) as Hst.
  pose proof (store_code_fine env address r gas ltac:(lia) Hf) as Hsf.
  destruct (store_code env address r) as [[[rt err] g] w11]. destruct Hst as [Hm11 Hn11]. simpl in Hsf.
  apply (wp_mono (λ r, answers w6 gas r.2 (create_gas r))); [|intros r'; by apply answers_calm].
  destruct err as [e|]; simpl.
  - assert (Hsi11 : since env w6 w11) by (eapply since_trans; [exact Hsi10|apply Hm11]).
    destruct (revert_exists w6 w11 Hs6 Hsi11) as [s HR]. unfold change_or_panic. rewrite HR. simpl.
    eapply reverted_total; try done. case_bool_decide; lia.
  - destruct (Hn11 eq_refl) as [A1 A2]. eapply answers_calm; [done|exact H60|]. by split_and!.
Qed.
Lemma calls_of_total : calls_total bound (calls_of env run).
Proof.
  split; simpl; intros.
  - by apply Call_total.
  - by apply CallCode_total.
  - by apply DelegateCall_total.
  - by apply StaticCall_total.
  - unfold evm_Create. destruct (ask _ w) as [n w1] eqn:E1. assert (Hc1 : calm w w1) by (let R := constr:(calm) in walk_back R).
    match goal with Hmc : may_call _ _ _ _ |- _ => destruct Hmc as [Hs Hg Hb Hr Hi] end. apply (wp_mono (λ r, answers w1 gas r.2 (create_gas r))); [|intros r; by apply answers_calm].
    apply create_total. split; try done; [by apply (sound_calm w w1)|]. unfold room in *. by rewrite (calm_refund _ _ _ Hc1) by apply Hs.
  - unfold evm_Create2. by apply create_total.
Qed.
End Machine.

(** ** The interpreter loop *)

Section Loop.
Context (Hprecompiled : ∀ a p input, precompile env a = Some p → 0 ≤ RequiredGas p input).

Lemma with_frame_calm d b w : evm_StateDB (with_frame d b w) = evm_StateDB w.
Proof. done. Qed.
Lemma finished_same w w' gas r : evm_StateDB w = evm_StateDB w' → goes env w w' → finished_total w' gas r → finished_total w gas r.
Proof.
  destruct r as [[[ret err] g] w2]. intros E Hg [[G C W] R]. simpl. rewrite E in *. split; [|done].
  split; [by transitivity w'|by rewrite E|by rewrite E].
Qed.
Lemma finished_answers w gas w' gas' r : answers w gas w' gas' → finished_total w' gas' r → finished_total w gas r.
Proof.
  destruct r as [[[ret err] g] w2]. intros (A1 & A2 & A3) [M R]. split; [by transitivity w'|].
  intros He. destruct (R He). split; [done|lia].
Qed.
Lemma Run_frame_total bound loop c input ro w :
  (∀ sc w, running sc w → ctr_Gas (sc_Contract sc) < bound →
     wp (finished_total w (ctr_Gas (sc_Contract sc))) (loop 0 sc w)) →
  run_ready bound c input w → wp (finished_total w (ctr_Gas c)) (Run_frame loop c input ro w).
Proof.
  intros Hl [R1 R2 R3 R4 R5 R6 R7]. unfold Run_frame. cbv zeta. set (w1 := with_returnData [] _).
  destruct (_ =? 0)%nat.
  { split; [|intros _; split; [apply R1|unfold room; simpl; lia]]. by split. }
  apply wp_bind. eapply wp_mono; [apply Hl; [|done]|].
  - split; try done. apply NewMemory_ok.
  - intros [[[ret err] g] w2] [[[G1 G2 G3] C W] R]. simpl. by split.
Qed.
Lemma run_loop_total fuel pc sc w : is_u64 pc → running sc w → ctr_Gas (sc_Contract sc) < Z.of_nat fuel →
  wp (finished_total w (ctr_Gas (sc_Contract sc))) (run_loop env fuel pc sc w).
Proof.
  revert pc sc w. induction fuel as [|fuel IH]; intros pc sc w Hpc Hrn Hb.
  { destruct Hrn as [_ _ _ _ Hg _ _]. unfold is_u64 in Hg. lia. }
  cbn [run_loop]. apply wp_bind. set (run := Run_frame (run_loop env fuel)).
  assert (Hrun : ∀ c input ro w, run_ready (Z.of_nat fuel) c input w → wp (finished_total w (ctr_Gas c)) (run c input ro w)).
  { intros. apply (Run_frame_total (Z.of_nat fuel)); [|done]. intros. by apply IH. }
  assert (Hfine : ∀ c input ro w, is_u64 (ctr_Gas c) → ctr_Gas c < Z.of_nat fuel → post (finished_fine (ctr_Gas c)) (run c input ro w)).
  { intros. by apply (post_Run env (london_in_order _ Hrules) Hprecompiled). }
  assert (Hcf : calls_fine (Z.of_nat fuel) (calls_of env run)) by (by apply calls_of_fine).
  eapply wp_mono; [apply wp_post; [apply (step_total (Z.of_nat fuel))|apply (post_step_fine env (london_in_order _ Hrules) (Z.of_nat fuel))]|].
  - by apply calls_of_total.
  - done.
  - done.
  - done.
  - lia.
  - done.
  - apply Hrn.
  - apply Hrn.
  - lia.
  - intros [pc' sc' w'|r] [H1 H2]; [|done]. destruct H1 as (P1 & [g Ec] & Ha), H2 as [G1 G2].
    destruct Hrn as [Q1 Q2 Q3 Q4 Q5 Q6 Q7]. unfold is_u64 in Q5.
    eapply wp_mono; [apply IH; [done| |lia]|].
    + destruct Ha as (A1 & A2 & A3). split; try done.
      * by apply (sound_mild w w').
      * rewrite Ec. apply A1; [apply Q1|done].
      * by rewrite Ec.
      * by rewrite Ec.
      * unfold is_u64. lia.
      * lia.
    + intros r Hr. by eapply finished_answers.
Qed.
Lemma Run_total fuel c input ro w : run_ready (Z.of_nat fuel) c input w → wp (finished_total w (ctr_Gas c)) (Run env fuel c input ro w).
Proof. intros. apply (Run_frame_total (Z.of_nat fuel)); [|done]. intros. by apply run_loop_total. Qed.
End Loop.
End Frames.

(** ** At the start of a transaction *)

Section Slots.
Context `{Crypto} (db : Backend).

(** No slot differs from what it was when the transaction began. *)
Definition unwritten (s : StateDB) : Prop := ∀ a k, (GetState db a k s).1 = (StateDB_GetCommittedState db a k s).1.
(** Codes that can be read fit an int. *)
Definition codes_short (s : StateDB) : Prop := ∀ a c, (GetCode db a s).1 = Some c → Z.of_nat (length c) < 2 ^ 62.

(** The end of a transaction leaves such a state. *)
Lemma Finalise_unwritten b s : ok db s → unwritten (Finalise b s).
Proof.
  intros Ho a k. unfold GetState, StateDB_GetCommittedState. rewrite !read_object_seen. unfold seen.
  destruct (obj_of db (Finalise b s) a) as [o|] eqn:Eo; [|done].
  destruct (deleted o) eqn:Ed; [done|]. by apply (clean_object db b s a).
Qed.
Lemma seen_same_objects s s' a : stateObjects s' = stateObjects s → seen db s' a = seen db s a.
Proof. intros E. unfold seen. by rewrite !obj_of_eq, E. Qed.
Lemma unwritten_objects s s' : stateObjects s' = stateObjects s → unwritten s → unwritten s'.
Proof.
  intros E Hu a k. specialize (Hu a k). unfold GetState, StateDB_GetCommittedState in *.
  rewrite !read_object_seen in *. by rewrite (seen_same_objects _ _ _ E).
Qed.
Lemma codes_short_objects s s' : stateObjects s' = stateObjects s → codes_short s → codes_short s'.
Proof.
  intros E Hc a c. specialize (Hc a c). unfold GetCode in *. rewrite read_object_seen in *. by rewrite (seen_same_objects _ _ _ E).
Qed.
End Slots.

Section Start.
Context `{Crypto} `{Uint256} (env : Env).
#[local] Notation db := (env_db env).

Lemma sound_start s : ok db s → unwritten db s → codes_short db s → 0 ≤ refund s → sound env s.
Proof.
  intros Ho Hu Hc Hr. split; [done|exact Hc|]. exists ∅. rewrite size_empty. split; [|lia].
  intros a k H1 H2. destruct H1. rewrite <- H2. symmetry. apply Hu.
Qed.

(** Filling the access list changes nothing else, and does not panic. *)
Record listed (s s' : StateDB) : Prop := {
  li_objects : stateObjects s' = stateObjects s;
  li_refund : refund s' = refund s;
  li_warm a : warm s a → warm s' a;
  li_entries : entries s ≠ [] → entries s' ≠ []
}.
#[local] Instance listed_preorder : PreOrder listed.
Proof. split; [done|]. intros s t u [E1 E2 E3 E4] [F1 F2 F3 F4]. split; [congruence|congruence|auto..]. Qed.
Lemma AddAddress_entries a s : entries (AddAddressToAccessList a s) =
  entries s ++ (if ContainsAddress a (access s) then [] else [accessListAddAccountChange a]).
Proof.
  unfold AddAddressToAccessList, AddAddress, ContainsAddress. destruct (al_addresses (access s) !! a); simpl; [by rewrite app_nil_r|done].
Qed.
Lemma AddSlot_entries a k s s' : AddSlotToAccessList a k s = Ok s' → ∃ es, entries s' = entries s ++ es.
Proof.
  unfold AddSlotToAccessList. destruct (AddSlot _ _ _) as [[[[] []] ?]| |]; simpl; intros [= <-]; simpl;
    rewrite <- ?app_assoc; eauto. by exists []; rewrite app_nil_r.
Qed.
Lemma listed_address a s : listed s (AddAddressToAccessList a s).
Proof.
  destruct (AddAddress_objects a s). split; try done.
  - intros. apply AddAddress_warm. by left.
  - rewrite AddAddress_entries. by destruct (entries s).
Qed.
Lemma listed_addresses l s : listed s (add_addresses l s).
Proof. revert s. induction l as [|a l IH]; intros s; [done|]. simpl. etransitivity; [apply listed_address|apply IH]. Qed.
Lemma ok_access s : ok db s → al_ok (access s).
Proof. intros Ho. apply Ho. Qed.
Lemma listed_slots a keys s : ok db s → ∃ s', add_slots a keys s = Ok s' ∧ listed s s' ∧ ok db s'.
Proof.
  revert s. induction keys as [|k keys IH]; intros s Ho; [by exists s|]. simpl.
  destruct (AddSlot_total a k s (ok_access _ Ho)) as [s1 E1]. rewrite E1. simpl.
  destruct (IH s1) as (s2 & E2 & L2 & O2); [apply (ok_add_slots db a [k] s s1 Ho); simpl; by rewrite E1|].
  exists s2. split_and!; [done| |done]. transitivity s1; [|done]. destruct (AddSlot_objects _ _ _ _ E1).
  split; try done.
  - intros. by eapply AddSlot_warm.
  - destruct (AddSlot_entries _ _ _ _ E1) as [es ->]. by destruct (entries s).
Qed.
Lemma listed_tuples l s : ok db s → ∃ s', add_tuples l s = Ok s' ∧ listed s s' ∧ ok db s'.
Proof.
  revert s. induction l as [|[a keys] l IH]; intros s Ho; [by exists s|]. simpl.
  destruct (listed_slots a keys (AddAddressToAccessList a s)) as (s1 & E1 & L1 & O1); [by apply ok_add_address|].
  rewrite E1. simpl. destruct (IH s1 O1) as (s2 & E2 & L2 & O2). exists s2. split_and!; [done| |done].
  etransitivity; [apply (listed_address a)|]. by transitivity s1.
Qed.
Lemma PrepareAccessList_total sender dst pre l s : ok db s → ∃ s', PrepareAccessList sender dst pre l s = Ok s' ∧
  stateObjects s' = stateObjects s ∧ refund s' = refund s ∧ ok db s' ∧ warm s' sender ∧ (∀ d, dst = Some d → warm s' d) ∧
  entries s' ≠ [].
Proof.
  intros Ho. unfold PrepareAccessList. cbv zeta. set (s0 := with_access newAccessList s).
  set (s1 := AddAddressToAccessList sender s0). set (s2 := match dst with Some d => _ | None => _ end).
  assert (Ho1 : ok db s1) by (apply ok_add_address, ok_with_access; [apply newAccessList_ok|done]).
  assert (Ho2 : ok db s2) by (unfold s2; destruct dst; [by apply ok_add_address|done]).
  assert (L1 : listed s0 s1) by apply listed_address. assert (Hw1 : warm s1 sender) by (apply AddAddress_warm; by right).
  assert (L2 : listed s1 s2) by (unfold s2; destruct dst; [apply listed_address|reflexivity]).
  assert (Hw2 : ∀ d, dst = Some d → warm s2 d) by (intros d ->; apply AddAddress_warm; by right).
  destruct (listed_tuples l (add_addresses pre s2)) as (s3 & E3 & L3 & O3); [by apply ok_add_addresses|].
  assert (L : listed s2 s3) by (etransitivity; [apply listed_addresses|exact L3]).
  exists s3. split_and!; [done| | |done| | |].
  - by rewrite (li_objects _ _ L), (li_objects _ _ L2), (li_objects _ _ L1).
  - by rewrite (li_refund _ _ L), (li_refund _ _ L2), (li_refund _ _ L1).
  - by apply L, L2.
  - intros d Hd. by apply L, Hw2.
  - apply L, L2. unfold s1. rewrite AddAddress_entries. simpl. by destruct (entries s).
Qed.
End Start.

Section Results.
Context `{Crypto} `{Uint256} (env : Env).
#[local] Notation db := (env_db env).

Lemma wp_ret {A} (P Q : A → Prop) m : wp P m → post Q m → ∃ a, m = Ret a ∧ P a ∧ Q a.
Proof. destruct m; simpl; try done. eauto. Qed.
Lemma call_kept_gas run caller addr input gas value w :
  returns (λ r, match call_err r with
                | Some e => call_gas r = 0 ∨ e = ErrExecutionReverted ∨ e = ErrDepth ∨ e = ErrInsufficientBalance
                | None => True
                end) (evm_Call env run caller addr input gas value w).
Proof.
  unfold evm_Call. destruct (_ <? _); [right; by auto|].
  destruct (if negb (value =? 0) then _ else _) as [can w1]. destruct (negb can); [right; by auto|].
  destruct (evm_Snapshot w1) as [id w2]. destruct (ask (Exist _ _) w2) as [ex w3].
  destruct (_ && (value =? 0)); [done|]. cbv zeta.
  match goal with |- returns _ (?m ≫= _) => destruct m as [[[[ret g] err] w4]| |] end; try done.
  simpl. destruct err as [e|]; [|done]. destruct (change_or_panic _ w4); try done. simpl. unfold call_err. simpl.
  case_bool_decide; auto.
Qed.
End Results.

(** ** The theorems *)

(** C7: A call that a transaction makes returns, by the rules of London, whose
    blocks have a base fee (the opcode that pushes it panics on a nil one), and
    with gas to spare in the refund counter: the interpreter makes at most one round
    per unit of gas, so with more fuel than gas the loop comes to an end, no
    stack, memory, code or snapshot access panics on the way, and the gas that is
    left is not more than was given. The answer is the same for any larger fuel,
    so it is the answer of the loop without a bound. *)
Theorem Call_returns `{Crypto} `{Uint256} env fuel caller addr input gas value w :
  london (chainRules env) → is_Some (ctx_BaseFee env) →
  (∀ a p i, precompile env a = Some p → 0 ≤ RequiredGas p i) →
  (∀ a k, ∃ get, OpenStorageTrie (env_db env) a state_emptyRoot = Ok get ∧ get k = Ok []) →
  reachable (env_db env) (evm_StateDB w) → unwritten (env_db env) (evm_StateDB w) → codes_short (env_db env) (evm_StateDB w) →
  ContainsAddress addr (access (evm_StateDB w)) = true → Z.of_nat (length input) < 2 ^ 62 →
  0 ≤ gas → 0 ≤ refund (evm_StateDB w) → refund (evm_StateDB w) + 200 * gas < two64 → gas < Z.of_nat fuel →
  ∃ ret gas' err w', 0 ≤ gas' ≤ gas ∧ depth w' = depth w ∧ readOnly w' = readOnly w ∧
    ∀ fuel', (fuel ≤ fuel')%nat → Call env fuel' caller addr input gas value w = Ret (ret, gas', err, w').
Proof.
  intros Hl Hfee Hp He Hr Hu Hc Ha Hi Hg Hre Hroom Hf.
  pose proof (sound_start env _ (state_reachable_ok _ _ Hr) Hu Hc Hre) as Hs.
  assert (Hu64 : is_u64 gas) by (unfold is_u64, two64 in *; lia).
  assert (Hfine : ∀ c i ro w, is_u64 (ctr_Gas c) → ctr_Gas c < Z.of_nat fuel →
    post (finished_fine (ctr_Gas c)) (Run env fuel c i ro w)).
  { intros. by apply (post_Run env (london_in_order _ Hl) Hp). }
  destruct (wp_ret (λ r, answers env w gas r.2 (call_gas r)) (λ r, 0 ≤ call_gas r ≤ gas)
    (Call env fuel caller addr input gas value w)) as ([[[ret gas'] err] w'] & E & Hans & Hb).
  { apply (Call_total env He Hp (Z.of_nat fuel)); [|done| |done].
    - intros. by apply Run_total.
    - by split. }
  { by apply (post_Call env Hp (Z.of_nat fuel)). }
  destruct (mild_goes _ _ _ (proj1 Hans)) as [_ Hd Hro].
  exists ret, gas', err, w'. split_and!; try done; try apply Hb.
  intros fuel' Hle. destruct (Call_more env (Run env fuel) (Run env fuel') caller addr input gas value w (λ c i ro w, Run_more env fuel fuel' c i ro w Hle)) as [E'|E']; unfold Call in *; congruence.
Qed.

(** C8: A call that fails, for whatever reason and at whatever depth, leaves no
    trace in the state: every account, balance, nonce, code and slot, the logs,
    the refund counter and the access list answer as before the call. Of its gas
    nothing is left, unless the code asked to revert or the call was refused
    before it began. *)
Theorem Call_failure_undone `{Crypto} `{Uint256} env fuel caller addr input gas value w ret gas' e w' :
  reachable (env_db env) (evm_StateDB w) →
  Call env fuel caller addr input gas value w = Ret (ret, gas', Some e, w') →
  same_answers (env_db env) (evm_StateDB w') (evm_StateDB w) ∧ depth w' = depth w ∧ readOnly w' = readOnly w ∧
  (gas' = 0 ∨ e = ErrExecutionReverted ∨ e = ErrDepth ∨ e = ErrInsufficientBalance).
Proof.
  intros Hr E. pose proof (Call_goes env (Run env fuel) (Run_goes env fuel) caller addr input gas value w) as H1.
  pose proof (call_kept_gas env (Run env fuel) caller addr input gas value w) as H2. unfold Call in E.
  rewrite E in H1, H2. destruct H1 as [[_ Hd Hro] Hu]. split_and!; try done.
  apply eqv_answers, Hu; [done|]. by apply state_reachable_ok.
Qed.

(** A contract that writes a slot and a contract that writes one and reverts. *)
Module EvmDemo.
Import StateDemo.
Definition signed (x : Z) : Z := if x <? 2 ^ 255 then x else x - two256.
#[export] Instance uint256 : Uint256.
Proof.
  refine {|
    u_Add x y := (x + y) mod two256; u_Sub x y := (x - y) mod two256; u_Mul x y := (x * y) mod two256;
    u_Div x y := if y =? 0 then 0 else x / y; u_Mod x y := if y =? 0 then 0 else x mod y;
    u_SDiv x y := if y =? 0 then 0 else Z.quot (signed x) (signed y) mod two256;
    u_SMod x y := if y =? 0 then 0 else Z.rem (signed x) (signed y) mod two256;
    u_Exp x y := x ^ y mod two256;
    u_ExtendSign x n := if 30 <? n then x else
      let low := x mod 2 ^ (8 * n + 8) in (if Z.testbit x (8 * n + 7) then low - 2 ^ (8 * n + 8) else low) mod two256;
    u_Byte x n := if 31 <? n then 0 else Z.land (Z.shiftr x (8 * (31 - n))) 255;
    u_And := Z.land; u_Or := Z.lor; u_Xor := Z.lxor; u_Not x := two256 - 1 - x;
    u_AddMod x y m := if m =? 0 then 0 else (x + y) mod m; u_MulMod x y m := if m =? 0 then 0 else (x * y) mod m;
    u_Lsh x n := Z.shiftl x n mod two256; u_Rsh := Z.shiftr; u_SRsh x n := Z.shiftr (signed x) n mod two256;
    u_Slt x y := signed x <? signed y; u_Sgt x y := signed y <? signed x |}.
  reflexivity.
Defined.

(** PUSH1 42, PUSH1 5, SSTORE. *)
Definition writes : bytes := [Byte.x60; Byte.x2a; Byte.x60; Byte.x05; Byte.x55].
(** The same, then PUSH1 0, PUSH1 0, REVERT. *)
Definition reverts : bytes := writes ++ [Byte.x60; Byte.x00; Byte.x60; Byte.x00; Byte.xfd].
Definition sender : Address := 0x3003.
Definition target : Address := 0x4004.
Definition env : Env :=
  MkEnv backend (MkRules true true true true true true true true true false) (λ _, None) (λ _, 0)
    0 30000000 1 0 0 (Some 7) 0 sender 9 1 false false.
Definition ops : list op := [OpAddBalance sender 1000000000; OpSetCode target reverts; OpSetCode payee writes].
(** The state of a transaction of [sender] to [dst], after the one that stored the codes. *)
Definition before : StateDB := Prepare 1 0 (Finalise true (state_of (run backend ops newState))).
Definition ready (dst : Address) : EVM := MkEVM (state_of (PrepareAccessList sender (Some dst) [] [] before)) 0 0 false [].

Lemma before_reachable : reachable backend before.
Proof.
  apply reach_prepare, reach_finalise. apply (reach_run backend newState ops); [constructor|by repeat constructor|vm_compute; reflexivity].
Qed.
Lemma ready_reachable dst : dst = target ∨ dst = payee → reachable backend (evm_StateDB (ready dst)).
Proof.
  intros Hd. apply (reach_access backend sender (Some dst) [] [] before); [apply before_reachable|].
  destruct Hd as [-> | ->]; vm_compute; reflexivity.
Qed.
Definition result_of (m : outcome call_result) : option (bytes * Z * option vmError) :=
  match m with Ret r => Some r.1 | _ => None end.
Lemma result_of_Ret m r : result_of m = Some r → ∃ w, m = Ret (r, w).
Proof. destruct m as [[r' w]| |]; simpl; intros [=]; subst; eauto. Qed.
Definition world_of (m : outcome call_result) : StateDB := match m with Ret r => evm_StateDB r.2 | _ => newState end.
(** The first call writes, the second one writes and takes it back; of 30000 gas
    they take 22106 and 6 more. *)
Lemma payee_runs : let m := Call env 10 sender payee [] 30000 7 (ready payee) in
  result_of m = Some ([], 7894, None) ∧ (GetState backend payee 5 (world_of m)).1 = 42 ∧ (GetBalance backend payee (world_of m)).1 = 7.
Proof. vm_compute. split_and!; reflexivity. Qed.
Lemma target_runs :
  result_of (Call env 10 sender target [] 30000 7 (ready target)) = Some ([], 7888, Some ErrExecutionReverted).
Proof. vm_compute. reflexivity. Qed.

Lemma before_refund : refund before = 0.
Proof. vm_compute. reflexivity. Qed.
Lemma ready_eq dst s : PrepareAccessList sender (Some dst) [] [] before = Ok s → evm_StateDB (ready dst) = s.
Proof. unfold ready. cbn [evm_StateDB]. intros E. by rewrite E. Qed.
Lemma ready_objects dst : stateObjects (evm_StateDB (ready dst)) = stateObjects before ∧ refund (evm_StateDB (ready dst)) = 0.
Proof.
  destruct (PrepareAccessList_total env sender (Some dst) [] [] before (state_reachable_ok _ _ before_reachable))
    as (s & E & E1 & E2 & _). rewrite (ready_eq dst s E). split; [exact E1|]. rewrite E2. exact before_refund.
Qed.
Definition short_code (o : stateObject) : bool :=
  match (Code backend o).1 with Some c => Z.of_nat (length c) <? 2 ^ 62 | None => true end.
Lemma before_short : map_Forall (λ _ o, short_code o = true) (stateObjects before).
Proof. apply (bool_decide_unpack _). vm_compute. exact I. Qed.
Lemma before_unwritten : unwritten backend before.
Proof.
  apply (unwritten_objects backend (Finalise true (state_of (run backend ops newState))) before); [done|].
  apply Finalise_unwritten, (state_reachable_ok backend), (reach_run backend newState ops); [constructor|by repeat constructor|vm_compute; reflexivity].
Qed.
Lemma before_codes : codes_short backend before.
Proof.
  intros a c. unfold GetCode. rewrite read_object_seen. unfold seen.
  rewrite obj_of_eq. destruct (stateObjects before !! a) as [o|] eqn:Eo.
  - pose proof (before_short a o Eo) as Hs. destruct (deleted o); [done|]. simpl. intros E.
    unfold short_code in Hs. rewrite E in Hs. lia.
  - simpl. destruct (a =? contract); [|done]. simpl. intros [= <-]. simpl. lia.
Qed.
Lemma ready_unwritten dst : unwritten (env_db env) (evm_StateDB (ready dst)).
Proof. eapply unwritten_objects; [apply ready_objects|apply before_unwritten]. Qed.
Lemma ready_short dst : codes_short (env_db env) (evm_StateDB (ready dst)).
Proof. eapply codes_short_objects; [apply ready_objects|apply before_codes]. Qed.
End EvmDemo.
Import StateDemo EvmDemo.

(** The writing contract, called with 30000 gas. *)
Lemma Call_returns_witness : ∃ ret gas' err w', 0 ≤ gas' ≤ 30000 ∧ depth w' = 0 ∧ readOnly w' = false ∧
  ∀ fuel', (Z.to_nat 30001 ≤ fuel')%nat → Call env fuel' sender payee [] 30000 7 (ready payee) = Ret (ret, gas', err, w').
Proof.
  apply (Call_returns env (Z.to_nat 30001) sender payee [] 30000 7 (ready payee)).
  - by split.
  - by eexists.
  - done.
  - intros a k. simpl. eexists. by split.
  - apply ready_reachable. by right.
  - apply ready_unwritten.
  - apply ready_short.
  - vm_compute. reflexivity.
  - done.
  - done.
  - by rewrite (proj2 (ready_objects payee)).
  - rewrite (proj2 (ready_objects payee)). done.
  - lia.
Defined.
(** The reverting one keeps the rest of its gas, and nothing of what it wrote is seen. *)
Lemma Call_failure_undone_witness : ∃ w', Call env 10 sender target [] 30000 7 (ready target) = Ret ([], 7888, Some ErrExecutionReverted, w') ∧
  same_answers backend (evm_StateDB w') (evm_StateDB (ready target)).
Proof.
  destruct (result_of_Ret _ _ target_runs) as [w' E]. exists w'. split; [exact E|].
  exact (proj1 (Call_failure_undone env 10 sender target [] 30000 7 (ready target) [] 7888 ErrExecutionReverted w'
    (ready_reachable target (or_introl eq_refl)) E)).
Defined.
