(* ===== verification/StateTransition.v ===== *)
(** * The state transition (core/state_transition.go, core/gaspool.go)

    One message applied to the state: the checks and the purchase of its gas, the
    intrinsic gas, the access list, the call or creation, the refund and the fee.
    The model keeps what the Go object keeps: the gas pool of the block, the gas
    left and the machine with its state; the message does not change. An error
    is returned with the state as it then is, which the callers throw away.

    The theorems: the books of gas balance, and a transaction comes to an end
    without a panic and leaves a state the next one can run on. *)

From S2P Require Import Prelude Bytes Rlp Types Params Misc Text Transaction StateDB StateRevert StateHistory EvmAnalysis EvmTable Evm EvmGas EvmState EvmViews EvmTotal EvmSafety.

(** ** Messages and errors *)

Record Message := MkMessage {
  msg_To : option Address; msg_From : Address; msg_Nonce : Z; msg_Value : Z; msg_Gas : Z;
  msg_GasPrice : Z; msg_GasFeeCap : option Z; msg_GasTipCap : option Z;
  msg_Data : bytes; msg_AccessList : AccessList; msg_IsFake : bool
}.

(** The sentinel errors, with the numbers the wrapping text carries. *)
Inductive coreError :=
| ErrNonceTooHigh (from msgNonce stNonce : Z)
| ErrNonceTooLow (from msgNonce stNonce : Z)
| ErrNonceMax (from stNonce : Z)
| ErrSenderNoEOA (from codeHash : Z)
| ErrFeeCapVeryHigh (from bitlen : Z)
| ErrTipVeryHigh (from bitlen : Z)
| ErrTipAboveFeeCap (from gasTipCap gasFeeCap : Z)
| ErrFeeCapTooLow (from gasFeeCap baseFee : Z)
| ErrInsufficientFunds (from have want : Z)
| ErrGasLimitReached
| ErrIntrinsicGas (have want : Z)
| core_ErrGasUintOverflow
| ErrInsufficientFundsForTransfer (from : Z).

Record ExecutionResult := MkExecution { UsedGas : Z; exec_Err : option vmError; ReturnData : bytes }.
Definition Failed (r : ExecutionResult) : bool := match exec_Err r with Some _ => true | None => false end.

(** [AsMessage]; the sender comes from the signature, or from the cache of the
    transaction. *)
Definition AsMessage `{Crypto} (s : Signer) (t : Transaction) (baseFee : option Z) (cached : option (Signer * Address))
  : result Message * option (Signer * Address) :=
  let gasPrice := match baseFee with Some b => Z.min (tx_GasTipCap t + b) (tx_GasFeeCap t) | None => tx_GasPrice t end in
  let '(from, cached) := Sender s t cached in
  (from ← from;
   Ok (MkMessage (tx_To t) from (tx_Nonce t) (tx_Value t) (tx_Gas t) gasPrice
         (Some (tx_GasFeeCap t)) (Some (tx_GasTipCap t)) (tx_Data t) (tx_AccessList t) false), cached).

(** ** The gas pool *)

Definition AddGas (amount gp : Z) : outcome Z :=
  if two64 - 1 - amount <? gp then Crash "gas pool pushed above uint64" else Ret (add64 gp amount).
Definition SubGas (amount gp : Z) : option Z := if gp <? amount then None else Some (sub64 gp amount).

(** ** Intrinsic gas *)

Definition TxGas : Z := 21000.
Definition TxGasContractCreation : Z := 53000.
Definition TxDataZeroGas : Z := 4.
Definition TxDataNonZeroGasFrontier : Z := 68.
Definition TxDataNonZeroGasEIP2028 : Z := 16.
Definition TxAccessListAddressGas : Z := 2400.
Definition RefundQuotient : Z := 2.
Definition RefundQuotientEIP3529 : Z := 5.

Definition StorageKeys (al : AccessList) : Z := fold_left (λ sum t, sum + Z.of_nat (length (at_StorageKeys t))) al 0.
Definition nonzero_bytes (data : bytes) : Z :=
  fold_left (λ nz b, if b2z b =? 0 then nz else add64 nz 1) data 0.
Definition IntrinsicGas (data : bytes) (accessList : AccessList) (isContractCreation isHomestead isEIP2028 : bool) : option Z :=
  let gas := if isContractCreation && isHomestead then TxGasContractCreation else TxGas in
  gas ← (if (0 <? Z.of_nat (length data)) then
           let nz := nonzero_bytes data in
           let nonZeroGas := if isEIP2028 then TxDataNonZeroGasEIP2028 else TxDataNonZeroGasFrontier in
           if (two64 - 1 - gas) / nonZeroGas <? nz then None
           else
             let gas := add64 gas (mul64 nz nonZeroGas) in
             let z := sub64 (Z.of_nat (length data)) nz in
             if (two64 - 1 - gas) / TxDataZeroGas <? z then None else Some (add64 gas (mul64 z TxDataZeroGas))
         else Some gas);
  let gas := add64 gas (mul64 (Z.of_nat (length accessList)) TxAccessListAddressGas) in
  Some (add64 gas (mul64 (StorageKeys accessList) TxAccessListStorageKeyGas)).

(** The addresses of the precompiled contracts of a fork. *)
Definition ActivePrecompiles (rules : Rules) : list Address :=
  if IsBerlin rules then [1; 2; 3; 4; 5; 6; 7; 8; 9]
  else if IsIstanbul rules then [1; 2; 3; 4; 5; 6; 7; 8; 9]
  else if IsByzantium rules then [1; 2; 3; 4; 5; 6; 7; 8]
  else [1; 2; 3; 4].

(** ** The transition *)

Record StateTransition := MkTransition { st_gp : Z; st_gas : Z; st_initialGas : Z; st_evm : EVM }.
Definition with_evm (w : EVM) (st : StateTransition) : StateTransition :=
  MkTransition (st_gp st) (st_gas st) (st_initialGas st) w.
Definition set_gas (gas : Z) (st : StateTransition) : StateTransition :=
  MkTransition (st_gp st) gas (st_initialGas st) (st_evm st).
Definition NewStateTransition (w : EVM) (gp : Z) : StateTransition := MkTransition gp 0 0 w.
Definition gasUsed (st : StateTransition) : Z := sub64 (st_initialGas st) (st_gas st).

Section Transition.
Context `{Crypto} `{Uint256} (env : Env) (NoBaseFee : bool) (msg : Message).
#[local] Notation db := (env_db env).
#[local] Notation rules := (chainRules env).

Definition query {A} (f : StateDB → A * StateDB) (st : StateTransition) : A * StateTransition :=
  let '(a, w) := ask f (st_evm st) in (a, with_evm w st).

Definition buyGas (st : StateTransition) : option coreError * StateTransition :=
  let mgval := msg_Gas msg * msg_GasPrice msg in
  let balanceCheck := match msg_GasFeeCap msg with Some cap => msg_Gas msg * cap + msg_Value msg | None => mgval end in
  let '(have, st) := query (GetBalance db (msg_From msg)) st in
  if have <? balanceCheck then (Some (ErrInsufficientFunds (msg_From msg) have balanceCheck), st)
  else
    match SubGas (msg_Gas msg) (st_gp st) with
    | None => (Some ErrGasLimitReached, st)
    | Some gp =>
        (None, MkTransition gp (add64 (st_gas st) (msg_Gas msg)) (msg_Gas msg)
                 (change (SubBalance db (msg_From msg) mgval) (st_evm st)))
    end.

(** The nonce and the code of the sender. *)
Definition check_sender (st : StateTransition) : option coreError * StateTransition :=
  let from := msg_From msg in
  let '(stNonce, st) := query (GetNonce db from) st in
  if stNonce <? msg_Nonce msg then (Some (ErrNonceTooHigh from (msg_Nonce msg) stNonce), st)
  else if msg_Nonce msg <? stNonce then (Some (ErrNonceTooLow from (msg_Nonce msg) stNonce), st)
  else if add64 stNonce 1 <? stNonce then (Some (ErrNonceMax from stNonce), st)
  else
    let '(codeHash, st) := query (GetCodeHash db from) st in
    if negb (codeHash =? emptyCodeHash) && negb (codeHash =? 0) then (Some (ErrSenderNoEOA from codeHash), st)
    else (None, st).
(** The caps, from London on. *)
Definition check_fees : outcome (option coreError) :=
  let from := msg_From msg in
  if negb (rules_IsLondon rules) then Ret None
  else
    asked ← (if negb NoBaseFee then Ret true
             else
               cap ← value_of (msg_GasFeeCap msg);
               if 0 <? big_BitLen (Z.abs cap) then Ret true
               else tip ← value_of (msg_GasTipCap msg); Ret (0 <? big_BitLen (Z.abs tip)));
    if negb asked then Ret None
    else
      cap ← value_of (msg_GasFeeCap msg);
      if 256 <? big_BitLen (Z.abs cap) then Ret (Some (ErrFeeCapVeryHigh from (big_BitLen (Z.abs cap))))
      else
        tip ← value_of (msg_GasTipCap msg);
        if 256 <? big_BitLen (Z.abs tip) then Ret (Some (ErrTipVeryHigh from (big_BitLen (Z.abs tip))))
        else if cap <? tip then Ret (Some (ErrTipAboveFeeCap from tip cap))
        else
          fee ← value_of (ctx_BaseFee env);
          if cap <? fee then Ret (Some (ErrFeeCapTooLow from cap fee)) else Ret None.
Definition preCheck (st : StateTransition) : outcome (option coreError * StateTransition) :=
  let '(err, st) := if negb (msg_IsFake msg) then check_sender st else (None, st) in
  match err with
  | Some e => Ret (Some e, st)
  | None =>
      err ← check_fees;
      match err with
      | Some e => Ret (Some e, st)
      | None => Ret (buyGas st)
      end
  end.

Definition refundGas (refundQuotient : Z) (st : StateTransition) : outcome StateTransition :=
  let cap := gasUsed st / refundQuotient in
  let r := if refund (evm_StateDB (st_evm st)) <? cap then refund (evm_StateDB (st_evm st)) else cap in
  let gas := add64 (st_gas st) r in
  let w := change (StateDB_AddBalance db (msg_From msg) (gas * msg_GasPrice msg)) (st_evm st) in
  gp ← AddGas gas (st_gp st);
  Ret (MkTransition gp gas (st_initialGas st) w).

(** The call or the creation. *)
Definition execute_message (fuel : nat) (st : StateTransition) : outcome (bytes * option vmError * StateTransition) :=
  match msg_To msg with
  | None =>
      '(ret, _, gas, vmerr, w) ← Create env fuel (msg_From msg) (msg_Data msg) (st_gas st) (msg_Value msg) (st_evm st);
      Ret (ret, vmerr, set_gas gas (with_evm w st))
  | Some to =>
      let '(nonce, st) := query (GetNonce db (msg_From msg)) st in
      let w := change (SetNonce db (msg_From msg) (add64 nonce 1)) (st_evm st) in
      '(ret, gas, vmerr, w) ← Call env fuel (msg_From msg) to (msg_Data msg) (st_gas st) (msg_Value msg) w;
      Ret (ret, vmerr, set_gas gas (with_evm w st))
  end.
(** What the coinbase is given. *)
Definition pay_fee (st : StateTransition) : outcome StateTransition :=
  effectiveTip ← (if rules_IsLondon rules then
                    tip ← value_of (msg_GasTipCap msg); cap ← value_of (msg_GasFeeCap msg);
                    fee ← value_of (ctx_BaseFee env);
                    Ret (Z.min tip (cap - fee))
                  else Ret (msg_GasPrice msg));
  skip ← (if NoBaseFee then
            cap ← value_of (msg_GasFeeCap msg);
            if cap =? 0 then tip ← value_of (msg_GasTipCap msg); Ret (tip =? 0) else Ret false
          else Ret false);
  Ret (if skip : bool then st
       else with_evm (change (StateDB_AddBalance db (ctx_Coinbase env) (gasUsed st * effectiveTip)) (st_evm st)) st).

Definition TransitionDb (fuel : nat) (st : StateTransition)
  : outcome ((coreError + ExecutionResult) * StateTransition) :=
  '(err, st) ← preCheck st;
  match err with
  | Some e => Ret (inl e, st)
  | None =>
      let contractCreation := match msg_To msg with None => true | Some _ => false end in
      match IntrinsicGas (msg_Data msg) (msg_AccessList msg) contractCreation (IsHomestead rules) (IsIstanbul rules) with
      | None => Ret (inl core_ErrGasUintOverflow, st)
      | Some gas =>
          if st_gas st <? gas then Ret (inl (ErrIntrinsicGas (st_gas st) gas), st)
          else
            let st := set_gas (sub64 (st_gas st) gas) st in
            let '(can, st) := if 0 <? msg_Value msg
                              then let '(b, w) := CanTransfer env (msg_From msg) (msg_Value msg) (st_evm st) in (b, with_evm w st)
                              else (true, st) in
            if negb can then Ret (inl (ErrInsufficientFundsForTransfer (msg_From msg)), st)
            else
              w ← (if IsBerlin rules then
                     change_or_panic (PrepareAccessList (msg_From msg) (msg_To msg) (ActivePrecompiles rules)
                       ((λ t, (at_Address t, at_StorageKeys t)) <$> msg_AccessList msg)) (st_evm st)
                   else Ret (st_evm st));
              '(ret, vmerr, st) ← execute_message fuel (with_evm w st);
              st ← refundGas (if rules_IsLondon rules then RefundQuotientEIP3529 else RefundQuotient) st;
              st ← pay_fee st;
              Ret (inr (MkExecution (gasUsed st) vmerr ret), st)
      end
  end.
Definition ApplyMessage (fuel : nat) (w : EVM) (gp : Z) := TransitionDb fuel (NewStateTransition w gp).
End Transition.

(** ** Intrinsic gas *)

Lemma nonzero_bytes_app data b : nonzero_bytes (data ++ [b]) = if b2z b =? 0 then nonzero_bytes data else add64 (nonzero_bytes data) 1.
Proof. unfold nonzero_bytes. by rewrite fold_left_app. Qed.
Lemma nonzero_bytes_bound data : Z.of_nat (length data) < two64 → 0 ≤ nonzero_bytes data ≤ Z.of_nat (length data).
Proof.
  induction data as [|b data IH] using rev_ind; [done|]. rewrite length_app, nonzero_bytes_app. simpl. intros Hl.
  specialize (IH ltac:(lia)). destruct (_ =? 0); [lia|]. rewrite add64_small by (unfold is_u64; lia). lia.
Qed.
Lemma IntrinsicGas_u64 data al c h e i : IntrinsicGas data al c h e = Some i → is_u64 i.
Proof. unfold IntrinsicGas. intros (g & _ & [= <-])%bind_Some. apply u64_bound. Qed.

(** ** The books of gas *)

Section Gas.
Context `{Crypto} `{Uint256} (env : Env) (NoBaseFee : bool) (msg : Message).
Context (Horder : in_order (chainRules env)).
Context (Hprecompiled : ∀ a p input, precompile env a = Some p → 0 ≤ RequiredGas p input).

Definition same_gas (st st' : StateTransition) : Prop :=
  st_gp st' = st_gp st ∧ st_gas st' = st_gas st ∧ st_initialGas st' = st_initialGas st.
Lemma query_gas {A} (f : StateDB → A * StateDB) st : same_gas st (query f st).2.
Proof. unfold query. by destruct (ask f (st_evm st)). Qed.

Definition bought (gp : Z) (st : StateTransition) : Prop :=
  msg_Gas msg ≤ gp ∧ st_gp st = gp - msg_Gas msg ∧ st_gas st = msg_Gas msg ∧ st_initialGas st = msg_Gas msg.
Lemma buyGas_gas st : is_u64 (st_gp st) → is_u64 (msg_Gas msg) → st_gas st = 0 → (buyGas env msg st).1 = None →
  bought (st_gp st) (buyGas env msg st).2.
Proof.
  unfold is_u64. intros Hg Hm Hz. unfold buyGas. pose proof (query_gas (GetBalance (env_db env) (msg_From msg)) st) as (Q1 & Q2 & Q3).
  destruct (query _ st) as [have st1]. simpl in *. destruct (have <? _); [done|]. unfold SubGas. rewrite Q1.
  destruct (st_gp st <? _) eqn:E; [done|]. intros _. unfold bought. simpl. bprop. rewrite Q2, Hz.
  rewrite sub64_small, add64_small by (unfold is_u64; lia). lia.
Qed.
Lemma check_sender_gas st : same_gas st (check_sender env msg st).2.
Proof.
  unfold check_sender. pose proof (query_gas (GetNonce (env_db env) (msg_From msg)) st) as Q1.
  destruct (query _ st) as [n st1]. simpl in Q1. destruct (n <? _); [done|]. destruct (_ <? n); [done|].
  destruct (add64 n 1 <? n); [done|]. pose proof (query_gas (GetCodeHash (env_db env) (msg_From msg)) st1) as Q2.
  destruct (query _ st1) as [h st2]. simpl in Q2. unfold same_gas in *. destruct (_ && _); simpl; intuition congruence.
Qed.
Lemma check_fees_runs : post (λ _, True) (check_fees env NoBaseFee msg).
Proof. unfold check_fees, value_of. repeat (case_match || post_step || done). Qed.
Lemma preCheck_gas st : is_u64 (st_gp st) → is_u64 (msg_Gas msg) → st_gas st = 0 →
  post (λ r, r.1 = None → bought (st_gp st) r.2) (preCheck env NoBaseFee msg st).
Proof.
  intros Hg Hm Hz. unfold preCheck. pose proof (check_sender_gas st) as Q.
  destruct (if negb (msg_IsFake msg) then _ else _) as [err st1] eqn:E.
  assert (Q1 : same_gas st st1) by (destruct (negb (msg_IsFake msg)); [by rewrite E in Q|by injection E as _ <-]).
  destruct err as [e|]; [done|]. post_step. eapply post_mono; [apply check_fees_runs|]. intros [e|] _; [done|]. simpl.
  destruct Q1 as (E1 & E2 & _). rewrite <- E1. apply buyGas_gas; congruence.
Qed.

Lemma execute_message_gas fuel st : is_u64 (st_gas st) → st_gas st < Z.of_nat fuel →
  post (λ r, 0 ≤ st_gas r.2 ≤ st_gas st ∧ st_gp r.2 = st_gp st ∧ st_initialGas r.2 = st_initialGas st)
    (execute_message env msg fuel st).
Proof.
  intros Hg Hf.
  assert (Hfine : ∀ c i ro w, is_u64 (ctr_Gas c) → ctr_Gas c < Z.of_nat fuel →
    post (finished_fine (ctr_Gas c)) (Run env fuel c i ro w)) by (intros; by apply (post_Run env Horder Hprecompiled)).
  unfold execute_message. destruct (msg_To msg) as [to|].
  - pose proof (query_gas (GetNonce (env_db env) (msg_From msg)) st) as (Q1 & Q2 & Q3).
    destruct (query _ st) as [n st1]. simpl in *. post_step. rewrite Q2.
    eapply post_mono; [by apply (post_Call env Hprecompiled (Z.of_nat fuel))|]. intros [[[ret gas] err] w'] Hr. simpl in *. by rewrite Q1, Q3.
  - post_step. unfold Create, evm_Create. destruct (ask _ _) as [n w1].
    eapply post_mono; [by apply (post_create env (Z.of_nat fuel))|]. intros [[[[ret a] gas] err] w'] Hr. simpl in *. done.
Qed.
Lemma refundGas_gas q st : 1 < q → 0 ≤ st_gas st ≤ st_initialGas st → is_u64 (st_initialGas st) → is_u64 (st_gp st) →
  is_u64 (st_gp st + st_initialGas st) → 0 ≤ refund (evm_StateDB (st_evm st)) →
  ∃ st', refundGas env msg q st = Ret st' ∧ ∃ r, 0 ≤ r ∧ q * r ≤ st_initialGas st - st_gas st ∧
    r ≤ refund (evm_StateDB (st_evm st)) ∧
    st_gas st' = st_gas st + r ∧ st_gp st' = st_gp st + st_gas st' ∧ st_initialGas st' = st_initialGas st ∧
    st_evm st' = change (StateDB_AddBalance (env_db env) (msg_From msg) (st_gas st' * msg_GasPrice msg)) (st_evm st).
Proof.
  unfold is_u64. intros Hq Hg Hi Hp Hs Hr. unfold refundGas, gasUsed. rewrite sub64_small by (unfold is_u64; lia).
  set (u := st_initialGas st - st_gas st). pose proof (Z.mul_div_le u q ltac:(lia)) as Hdiv.
  pose proof (Z.div_pos u q ltac:(unfold u; lia) ltac:(lia)) as Hpos.
  set (r := if _ <? u / q then _ else _). assert (Hr' : 0 ≤ r ∧ q * r ≤ u ∧ r ≤ refund (evm_StateDB (st_evm st))).
  { unfold r. destruct (_ <? _) eqn:E; bprop; nia. }
  clearbody r. assert (r ≤ u) by nia. cbv zeta. rewrite !add64_small by (unfold is_u64; lia). unfold AddGas.
  rewrite (proj2 (Z.ltb_ge _ _)) by lia. cbn [mbind outcome_bind]. rewrite add64_small by (unfold is_u64; lia).
  eexists. split; [done|]. exists r. simpl. split_and!; try done; lia.
Qed.
Lemma pay_fee_gas st : post (λ st', same_gas st st') (pay_fee env NoBaseFee msg st).
Proof. unfold pay_fee, value_of. repeat (case_match || post_step || done). Qed.

(** With fuel above the gas the message can spend the loop does not run out of it. *)
Lemma ApplyMessage_runs fuel w gp : is_u64 gp → is_u64 (msg_Gas msg) → Z.min gp (msg_Gas msg) < Z.of_nat fuel →
  post (λ _, True) (ApplyMessage env NoBaseFee msg fuel w gp).
Proof.
  intros Hgp Hmg Hf. unfold is_u64 in Hmg. unfold ApplyMessage, TransitionDb. set (st0 := NewStateTransition w gp). post_step.
  eapply post_mono; [by apply (preCheck_gas st0)|]. intros [[e|] st1] HB; [done|]. simpl in HB.
  destruct (HB eq_refl) as (B1 & B2 & B3 & B4). destruct (IntrinsicGas _ _ _ _ _) as [i|] eqn:Ei; [|done].
  apply IntrinsicGas_u64 in Ei. unfold is_u64 in Ei. destruct (st_gas st1 <? i) eqn:E1; [done|]. bprop. cbv zeta.
  destruct (if 0 <? msg_Value msg then _ else _) as [can st3] eqn:E3.
  assert (Q3 : st_gas st3 = st_gas st1 - i).
  { rewrite sub64_small in E3 by (unfold is_u64; lia). destruct (0 <? msg_Value msg); [|by injection E3 as _ <-].
    destruct (CanTransfer _ _ _ _) as [b w3]. by injection E3 as _ <-. }
  destruct (negb can); [done|]. post_step.
  match goal with |- post _ ?m => assert (Hm : post (λ _, True) m) by (destruct (IsBerlin _); [unfold change_or_panic; by destruct (PrepareAccessList _ _ _ _ _)|done]) end.
  eapply post_mono; [exact Hm|]. intros w4 _. post_step.
  eapply post_mono; [apply execute_message_gas; simpl; unfold is_u64; lia|]. intros [[ret vmerr] st5] _. post_step.
  match goal with |- post _ ?m => assert (Hr : post (λ _, True) m) by (unfold refundGas, AddGas; cbv zeta; by destruct (_ <? st_gp st5)) end.
  eapply post_mono; [exact Hr|]. intros st6 _. post_step. eapply post_mono; [apply pay_fee_gas|]. done.
Qed.
End Gas.

(** ** A transaction comes to an end *)

Section Total.
Context `{Crypto} `{Uint256} (env : Env) (NoBaseFee : bool) (msg : Message).
#[local] Notation db := (env_db env).
#[local] Notation calm := (calm env).
Context (Hrules : london (chainRules env)) (Hfee : is_Some (ctx_BaseFee env)).
Context (Hempty : ∀ a k, ∃ get, OpenStorageTrie db a state_emptyRoot = Ok get ∧ get k = Ok []).
Context (Hprecompiled : ∀ a p input, precompile env a = Some p → 0 ≤ RequiredGas p input).
#[local] Instance calm_walk' : Walk env false calm := calm_walk env Hempty.

Lemma path_entries s s' : ok db s → path db s s' → ∃ es, entries s' = entries s ++ es.
Proof.
  intros Ho Hp. destruct (Hp Ho) as (_ & _ & ops & Hin & Hrun).
  destruct (tracked_run db _ _ s _ ops s s' (ok_next _ _ Ho) Hin (ok_tracked _ _ Ho) Hrun) as [_ _ (rs & es & E & _) _ _].
  by exists es.
Qed.

Definition quietly (st st' : StateTransition) : Prop := calm (st_evm st) (st_evm st').
Lemma quietly_nonce st : quietly st (query (GetNonce db (msg_From msg)) st).2.
Proof. unfold query, quietly. destruct (ask _ (st_evm st)) as [n w] eqn:E. simpl. let R := constr:(calm) in walk_back R. Qed.
Lemma quietly_hash st : quietly st (query (GetCodeHash db (msg_From msg)) st).2.
Proof. unfold query, quietly. destruct (ask _ (st_evm st)) as [n w] eqn:E. simpl. let R := constr:(calm) in walk_back R. Qed.
Lemma quietly_balance st : quietly st (query (GetBalance db (msg_From msg)) st).2.
Proof. unfold query, quietly. destruct (ask _ (st_evm st)) as [n w] eqn:E. simpl. let R := constr:(calm) in walk_back R. Qed.

Lemma check_sender_quietly st : quietly st (check_sender env msg st).2.
Proof.
  unfold check_sender. pose proof (quietly_nonce st) as Q1.
  destruct (query _ st) as [n st1]. simpl in Q1. destruct (n <? _); [done|]. destruct (_ <? n); [done|].
  destruct (add64 n 1 <? n); [done|]. pose proof (quietly_hash st1) as Q2.
  destruct (query _ st1) as [h st2]. simpl in Q2. unfold quietly in *. destruct (_ && _); simpl; by transitivity (st_evm st1).
Qed.
Lemma buyGas_quietly st : quietly st (buyGas env msg st).2.
Proof.
  unfold buyGas. pose proof (quietly_balance st) as Q1. destruct (query _ st) as [have st1]. simpl in *.
  destruct (have <? _); [done|]. destruct (SubGas _ _); [|done]. unfold quietly in *. simpl. transitivity (st_evm st1); [done|].
  by apply (calm_op env Hempty (OpSubBalance (msg_From msg) (msg_Gas msg * msg_GasPrice msg))).
Qed.
Context (Hcap : is_Some (msg_GasFeeCap msg)) (Htip : is_Some (msg_GasTipCap msg)).
Lemma check_fees_total : wp (λ _, True) (check_fees env NoBaseFee msg).
Proof.
  unfold check_fees. destruct Hcap as [cap ->], Htip as [tip ->], Hfee as [fee ->]. cbn [value_of].
  destruct (negb (rules_IsLondon _)); [done|]. cbn [mbind outcome_bind].
  destruct (negb NoBaseFee); cbn [mbind outcome_bind negb]; repeat (case_match; cbn [mbind outcome_bind negb]; try done).
Qed.
Lemma preCheck_total st : wp (λ r, quietly st r.2) (preCheck env NoBaseFee msg st).
Proof.
  unfold preCheck. pose proof (check_sender_quietly st) as Q.
  destruct (if negb (msg_IsFake msg) then _ else _) as [err st1] eqn:E.
  assert (Q1 : quietly st st1).
  { destruct (negb (msg_IsFake msg)); [by rewrite E in Q|]. injection E as _ <-. unfold quietly. reflexivity. }
  destruct err as [e|]; [done|]. apply wp_bind. eapply wp_mono; [apply check_fees_total|]. intros [e|] _; [done|]. simpl.
  unfold quietly in *. transitivity (st_evm st1); [done|apply buyGas_quietly].
Qed.
Lemma pay_fee_total st : wp (quietly st) (pay_fee env NoBaseFee msg st).
Proof.
  unfold pay_fee. destruct Hcap as [cap ->], Htip as [tip ->], Hfee as [fee ->]. cbn [value_of].
  assert (Hadd : ∀ v, quietly st (with_evm (change (StateDB_AddBalance db (ctx_Coinbase env) v) (st_evm st)) st)).
  { intros v. unfold quietly. simpl. by apply (calm_op env Hempty (OpAddBalance (ctx_Coinbase env) v)). }
  assert (Hid : quietly st st) by (unfold quietly; reflexivity).
  destruct (rules_IsLondon _), NoBaseFee; cbn [mbind outcome_bind]; try apply Hadd;
    destruct (cap =? 0); cbn [mbind outcome_bind]; try apply Hadd; destruct (tip =? 0); cbn [wp]; auto.
Qed.

(** The call or the creation, on a state with a filled access list. *)
Lemma execute_message_total fuel st : is_u64 (st_gas st) → st_gas st < Z.of_nat fuel → short (msg_Data msg) →
  sound env (evm_StateDB (st_evm st)) → (∀ d, msg_To msg = Some d → warm (evm_StateDB (st_evm st)) d) →
  room (evm_StateDB (st_evm st)) (st_gas st) < two64 →
  wp (λ r, answers env (st_evm st) (st_gas st) (st_evm r.2) (st_gas r.2)) (execute_message env msg fuel st).
Proof.
  intros Hg Hf Hd Hs Hw Hr.
  assert (Hfine : ∀ c i ro w, is_u64 (ctr_Gas c) → ctr_Gas c < Z.of_nat fuel →
    post (finished_fine (ctr_Gas c)) (Run env fuel c i ro w)) by (intros; by apply (post_Run env (london_in_order _ Hrules) Hprecompiled)).
  assert (Hrun : ∀ c i ro w, run_ready env (Z.of_nat fuel) c i w → wp (finished_total env w (ctr_Gas c)) (Run env fuel c i ro w)).
  { intros. by apply Run_total. }
  unfold execute_message. destruct (msg_To msg) as [to|].
  - pose proof (quietly_nonce st) as Q1. pose proof (query_gas (GetNonce db (msg_From msg)) st) as (_ & Q2 & _).
    destruct (query _ st) as [n st1]. simpl in Q1, Q2. apply wp_bind. rewrite Q2. set (w1 := change _ (st_evm st1)).
    assert (Hc : calm (st_evm st) w1).
    { transitivity (st_evm st1); [done|]. by apply (calm_op env Hempty (OpSetNonce (msg_From msg) (add64 n 1))). }
    clearbody w1. apply (wp_mono (λ r, answers env w1 (st_gas st) r.2 (call_gas r))).
    + apply (Call_total env Hempty Hprecompiled (Z.of_nat fuel)); [done|done| |].
      * split; [by apply (sound_calm env (st_evm st))|done|done| |done].
        unfold room in *. by rewrite (calm_refund _ _ _ Hc) by apply Hs.
      * apply (mild_warm _ _ _ (calm_mild _ _ _ Hc)); [apply Hs|by apply Hw].
    + intros [[[ret gas] err] w'] Ha. simpl in *. by eapply answers_calm.
  - apply wp_bind. eapply wp_mono; [apply (tl_Create env (Z.of_nat fuel) (calls_of env (Run env fuel)))|].
    + by apply calls_of_total.
    + by split.
    + intros [[[[ret a] gas] err] w'] Ha. done.
Qed.

(** What is left of a message's gas, of the pool and of the intrinsic gas: the
    refund is a fifth of what was used, at most. *)
Record books (gp : Z) (r : ExecutionResult) (st : StateTransition) : Prop := {
  bk_used : UsedGas r = msg_Gas msg - st_gas st;
  bk_range : 0 ≤ st_gas st ≤ msg_Gas msg;
  bk_fits : msg_Gas msg ≤ gp;
  bk_pool : st_gp st = gp - UsedGas r;
  bk_intrinsic : ∃ i, IntrinsicGas (msg_Data msg) (msg_AccessList msg) (match msg_To msg with None => true | Some _ => false end)
    (IsHomestead (chainRules env)) (IsIstanbul (chainRules env)) = Some i ∧ 0 ≤ i ≤ msg_Gas msg ∧ 4 * i ≤ 5 * UsedGas r
}.
Record after (gp : Z) (r : coreError + ExecutionResult) (st : StateTransition) : Prop := {
  af_ok : ok db (evm_StateDB (st_evm st));
  af_codes : codes_ok env (evm_StateDB (st_evm st));
  af_done e : r = inr e → entries (evm_StateDB (st_evm st)) ≠ [] ∧ books gp e st
}.
Lemma after_error gp e st st' : sound env (evm_StateDB (st_evm st)) → quietly st st' → after gp (inl e) st'.
Proof. intros Hs Hq. destruct (sound_calm env _ _ Hq Hs) as [Ho Hc _]. by split. Qed.

(** From the filled access list on. *)
Lemma finish_total fuel gp i st : bought msg gp st → is_u64 gp → is_u64 (msg_Gas msg) → msg_Gas msg < Z.of_nat fuel →
  short (msg_Data msg) → is_u64 i → i ≤ msg_Gas msg →
  IntrinsicGas (msg_Data msg) (msg_AccessList msg) (match msg_To msg with None => true | Some _ => false end)
    (IsHomestead (chainRules env)) (IsIstanbul (chainRules env)) = Some i →
  sound env (evm_StateDB (st_evm st)) → (∀ d, msg_To msg = Some d → warm (evm_StateDB (st_evm st)) d) →
  entries (evm_StateDB (st_evm st)) ≠ [] → room (evm_StateDB (st_evm st)) (msg_Gas msg) < two64 →
  wp (λ r, after gp r.1 r.2)
    ('(ret, vmerr, st) ← execute_message env msg fuel (set_gas (sub64 (st_gas st) i) st);
     st ← refundGas env msg (if rules_IsLondon (chainRules env) then RefundQuotientEIP3529 else RefundQuotient) st;
     st ← pay_fee env NoBaseFee msg st;
     Ret (inr (MkExecution (gasUsed st) vmerr ret), st)).
Proof.
  intros (B1 & B2 & B3 & B4) Hgp Hmg Hf Hd Hi Him Hii Hs Hw He Hr. unfold is_u64 in *.
  rewrite B3, sub64_small by (unfold is_u64; lia). set (st1 := set_gas _ st). apply wp_bind.
  eapply wp_mono; [apply wp_post; [apply (execute_message_total fuel st1)|apply (execute_message_gas env msg (london_in_order _ Hrules) Hprecompiled fuel st1)]|];
    try done; try (unfold is_u64; simpl; lia).
  { unfold room in *. simpl. lia. }
  intros [[ret vmerr] st2] [(A1 & A2 & A3) (G1 & G2 & G3)]. simpl in A1, A2, A3, G1, G2, G3. rewrite (ln_London _ Hrules).
  assert (Hs2 : sound env (evm_StateDB (st_evm st2))) by (by apply (sound_mild env (st_evm st))).
  assert (Hre : 0 ≤ refund (evm_StateDB (st_evm st2))).
  { destruct A2 as (D & _ & Hle). rewrite clearing_eq in Hle. lia. }
  destruct (refundGas_gas env msg RefundQuotientEIP3529 st2) as (st3 & E3 & r & R1 & R2 & R3 & R4 & R5 & R6 & R7);
    try done; try (unfold is_u64; lia).
  rewrite E3. cbn [mbind outcome_bind]. apply wp_bind.
  eapply wp_mono; [apply wp_post; [apply pay_fee_total|apply pay_fee_gas]|]. intros st4 [P1 (P2 & P3 & P4)].
  assert (C4 : calm (st_evm st2) (st_evm st4)).
  { transitivity (st_evm st3); [|exact P1]. rewrite R7. by apply (calm_op env Hempty (OpAddBalance (msg_From msg) (st_gas st3 * msg_GasPrice msg))). }
  destruct (sound_calm env _ _ C4 Hs2) as [Ho4 Hc4 _]. split; [done|done|]. intros e [= <-]. cbn [snd]. split.
  - destruct (path_entries (evm_StateDB (st_evm st)) (evm_StateDB (st_evm st4))) as [es ->].
    + apply Hs.
    + etransitivity; [apply A1|apply C4].
    + by destruct (entries _).
  - unfold RefundQuotientEIP3529 in R2. simpl. unfold gasUsed. rewrite P3, P4, R6, G3, B4.
    rewrite sub64_small by (unfold is_u64; lia). split; simpl; rewrite ?P2, ?P3; try lia. exists i. split_and!; try done; lia.
Qed.

Lemma TransitionDb_total fuel w gp : sound env (evm_StateDB w) → is_u64 gp → is_u64 (msg_Gas msg) →
  Z.min gp (msg_Gas msg) < Z.of_nat fuel → short (msg_Data msg) → room (evm_StateDB w) (Z.min gp (msg_Gas msg)) < two64 →
  wp (λ r, after gp r.1 r.2) (ApplyMessage env NoBaseFee msg fuel w gp).
Proof.
  intros Hs Hgp Hmg Hf Hd Hr. unfold ApplyMessage, TransitionDb. set (st0 := NewStateTransition w gp). apply wp_bind.
  eapply wp_mono; [apply wp_post; [apply (preCheck_total st0)|by apply (preCheck_gas env NoBaseFee msg)]|].
  intros [[e|] st1] [Q1 HB]; simpl in Q1, HB; [by apply (after_error gp e st0)|]. specialize (HB eq_refl).
  destruct (IntrinsicGas _ _ _ _ _) as [i|] eqn:Ei; [|by apply (after_error gp _ st0)].
  destruct (st_gas st1 <? i) eqn:E1; [by apply (after_error gp _ st0)|]. bprop. cbv zeta.
  set (st2 := set_gas (sub64 (st_gas st1) i) st1).
  destruct (if 0 <? msg_Value msg then _ else _) as [can st3] eqn:E3.
  assert (Q3 : calm w (st_evm st3) ∧ st3 = set_gas (sub64 (st_gas st1) i) (with_evm (st_evm st3) st1)).
  { destruct (0 <? msg_Value msg); [|by injection E3 as _ <-]. destruct (CanTransfer _ _ _ _) as [b w3] eqn:Ec.
    injection E3 as _ <-. split; [|done]. simpl. transitivity (st_evm st1); [done|]. by eapply calm_CanTransfer. }
  destruct Q3 as [Q3 Q3']. destruct can; cbn [negb]; [|by apply (after_error gp _ st0)].
  rewrite (ln_Berlin _ Hrules). destruct (sound_calm env _ _ Q3 Hs) as [Ho3 Hc3 Hr3].
  set (al := _ <$> msg_AccessList msg). destruct (PrepareAccessList_total env (msg_From msg) (msg_To msg)
    (ActivePrecompiles (chainRules env)) al _ Ho3) as (s4 & E4 & S1 & S2 & S3 & S4 & S5 & S6).
  unfold change_or_panic. rewrite E4. cbn [of_result mbind outcome_bind].
  set (w4 := with_db s4 (st_evm st3)). rewrite Q3'. destruct HB as (B1 & B2 & B3 & B4).
  change (with_evm w4 (set_gas (sub64 (st_gas st1) i) (with_evm (st_evm st3) st1)))
    with (set_gas (sub64 (st_gas (with_evm w4 st1)) i) (with_evm w4 st1)).
  pose proof (kept_objects db (evm_StateDB (st_evm st3)) s4 S1) as Hk.
  apply (finish_total fuel gp i (with_evm w4 st1)); simpl; try done.
  - simpl in B1. lia.
  - by eapply IntrinsicGas_u64.
  - lia.
  - split; [done|by eapply codes_kept|by eapply refund_kept].
  - unfold room in *. rewrite S2, (calm_refund _ _ _ Q3) by apply Hs. simpl in B1. lia.
Qed.
End Total.

(** ** Fuel *)

Section Fuel.
Context `{Crypto} `{Uint256} (env : Env) (NoBaseFee : bool) (msg : Message).
Lemma execute_message_more fuel fuel' st : (fuel ≤ fuel')%nat →
  more (execute_message env msg fuel st) (execute_message env msg fuel' st).
Proof.
  intros Hle. assert (Hm : ∀ c i ro w, more (Run env fuel c i ro w) (Run env fuel' c i ro w)) by (intros; by apply Run_more).
  unfold execute_message. destruct (msg_To msg) as [to|].
  - destruct (query _ st) as [n st1]. apply more_bind; [by apply Call_more|]. intros [[[ret gas] err] w]. apply more_refl.
  - apply more_bind; [|intros [[[[ret a] gas] err] w]; apply more_refl].
    unfold Create, evm_Create. destruct (ask _ _). by apply create_more.
Qed.
Lemma ApplyMessage_more fuel fuel' w gp : (fuel ≤ fuel')%nat →
  more (ApplyMessage env NoBaseFee msg fuel w gp) (ApplyMessage env NoBaseFee msg fuel' w gp).
Proof.
  intros Hle. unfold ApplyMessage, TransitionDb. apply more_bind; [apply more_refl|]. intros [[e|] st]; [apply more_refl|].
  cbv zeta. destruct (IntrinsicGas _ _ _ _ _) as [i|]; [|apply more_refl]. destruct (st_gas st <? i); [apply more_refl|].
  destruct (if 0 <? msg_Value msg then _ else _) as [can st3]. destruct (negb can); [apply more_refl|].
  apply more_bind; [apply more_refl|]. intros w4. apply more_bind; [by apply execute_message_more|]. intros. apply more_refl.
Qed.
End Fuel.

(** ** Between transactions *)

Record between `{Crypto} (db : Backend) (s : StateDB) : Prop := {
  bt_ok : ok db s;
  bt_unwritten : unwritten db s;
  bt_codes : codes_short db s;
  bt_refund : refund s = 0
}.
Lemma between_sound `{Crypto} env s : between (env_db env) s → sound env s.
Proof. intros [Ho Hu Hc Hr]. apply sound_start; [done|done|exact Hc|lia]. Qed.
Lemma between_Finalise `{Crypto} env b s : ok (env_db env) s → codes_ok env s → entries s ≠ [] → between (env_db env) (Finalise b s).
Proof.
  intros Ho Hc He. split; [by apply ok_Finalise|by apply Finalise_unwritten| |].
  - intros a c. specialize (Hc a c). fold (code_of (env_db env) (Finalise b s) a). rewrite code_of_seen in *. rewrite Finalise_seen. destruct (died _ b s a); [done|].
    destruct (seen (env_db env) s a) as [o|]; [|done]. simpl in *. destruct (hit s a); [|done].
    rewrite code_view_eq in *. exact Hc.
  - unfold Finalise, clearJournalAndRefund. simpl. by destruct (entries s).
Qed.

Lemma ApplyMessage_ends `{Crypto} `{Uint256} env NoBaseFee msg fuel w gp :
  london (chainRules env) → is_Some (ctx_BaseFee env) →
  (∀ a p i, precompile env a = Some p → 0 ≤ RequiredGas p i) →
  (∀ a k, ∃ get, OpenStorageTrie (env_db env) a state_emptyRoot = Ok get ∧ get k = Ok []) →
  between (env_db env) (evm_StateDB w) → is_u64 gp → is_Some (msg_GasFeeCap msg) → is_Some (msg_GasTipCap msg) →
  Z.of_nat (length (msg_Data msg)) < 2 ^ 62 → is_u64 (msg_Gas msg) → 200 * Z.min gp (msg_Gas msg) < two64 →
  Z.min gp (msg_Gas msg) < Z.of_nat fuel →
  ∃ r st, (∀ fuel', (fuel ≤ fuel')%nat → ApplyMessage env NoBaseFee msg fuel' w gp = Ret (r, st)) ∧
    ∀ e, r = inr e → books env msg gp e st ∧ between (env_db env) (Finalise true (evm_StateDB (st_evm st))).
Proof.
  intros Hl Hfee Hp He Hbt Hgp Hcap Htip Hd Hu64 Hroom Hf.
  pose proof (between_sound env _ Hbt) as Hs.
  assert (Hr : room (evm_StateDB w) (Z.min gp (msg_Gas msg)) < two64) by (unfold room; rewrite (bt_refund _ _ Hbt); lia).
  pose proof (TransitionDb_total env NoBaseFee msg Hl Hfee He Hp Hcap Htip fuel w gp Hs Hgp Hu64 Hf Hd Hr) as Ht.
  pose proof (ApplyMessage_runs env NoBaseFee msg (london_in_order _ Hl) Hp fuel w gp Hgp Hu64 Hf) as Hn.
  destruct (ApplyMessage env NoBaseFee msg fuel w gp) as [[r st]| |] eqn:E; try done. destruct Ht as [A1 A2 A3]. simpl in *.
  exists r, st. split.
  - intros fuel' Hle. destruct (ApplyMessage_more env NoBaseFee msg fuel fuel' w gp Hle) as [E'|E']; congruence.
  - intros e ->. destruct (A3 e eq_refl) as [B1 B2]. split; [done|]. by apply between_Finalise.
Qed.

(** Without a base fee no message is applied by the rules of London: the checks
    or the payment of the fee dereference it. *)
Lemma pay_fee_nil `{Crypto} env NoBaseFee msg st st' : rules_IsLondon (chainRules env) = true → ctx_BaseFee env = None →
  pay_fee env NoBaseFee msg st ≠ Ret st'.
Proof. intros Hl Hb. unfold pay_fee. rewrite Hl, Hb. by destruct (msg_GasTipCap msg), (msg_GasFeeCap msg). Qed.
Lemma ApplyMessage_nil_fee `{Crypto} `{Uint256} env NoBaseFee msg fuel w gp r st :
  rules_IsLondon (chainRules env) = true → ctx_BaseFee env = None →
  ApplyMessage env NoBaseFee msg fuel w gp = Ret (r, st) → ∃ e, r = inl e.
Proof.
  intros Hl Hb. unfold ApplyMessage, TransitionDb.
  destruct (preCheck _ _ _ _) as [[[e|] st1]| |]; cbn [mbind outcome_bind]; try discriminate; [intros [= <- _]; eauto|].
  destruct (IntrinsicGas _ _ _ _ _) as [i|]; [|intros [= <- _]; eauto]. destruct (_ <? i); [intros [= <- _]; eauto|]. cbv zeta.
  destruct (if 0 <? msg_Value msg then _ else _) as [can st3]. destruct (negb can); [intros [= <- _]; eauto|].
  destruct (if IsBerlin _ then _ else _) as [w4| |]; cbn [mbind outcome_bind]; try discriminate.
  destruct (execute_message _ _ _ _) as [[[ret vmerr] st5]| |]; cbn [mbind outcome_bind]; try discriminate.
  destruct (refundGas _ _ _ _) as [st6| |]; cbn [mbind outcome_bind]; try discriminate.
  destruct (pay_fee _ _ _ _) as [st7| |] eqn:E; cbn [mbind outcome_bind]; try discriminate. by destruct (pay_fee_nil _ _ _ _ _ Hl Hb E).
Qed.

(** C6: Applying a message, by the rules of London, comes to an end without a
    panic. It takes what the code relies on: a base fee in the block's context
    and both fee caps in the message (the checks of the fees dereference them;
    [AsMessage] always sets the caps and the headers of London carry a base
    fee), data below 2^62 bytes, and less than 2^64/200 of gas to spend, which
    is the lesser of the message's limit and the block's pool: the pool itself
    may be as large as a uint64, as it is for a call over the wire. Whatever else
    the message asks for, with fuel above that gas the answer is there and more
    fuel does not change it. A message that is applied pays for what it used: the
    gas it used is its limit less what is left, the block's pool is down by
    exactly that, and it is at least four fifths of the intrinsic gas, since a
    refund is at most a fifth of the gas used. The state it leaves, once
    finalised, is one the next transaction can start from. *)
Theorem ApplyMessage_returns `{Crypto} `{Uint256} env NoBaseFee msg fuel w gp :
  london (chainRules env) → is_Some (ctx_BaseFee env) →
  (∀ a p i, precompile env a = Some p → 0 ≤ RequiredGas p i) →
  (∀ a k, ∃ get, OpenStorageTrie (env_db env) a state_emptyRoot = Ok get ∧ get k = Ok []) →
  between (env_db env) (evm_StateDB w) → is_u64 gp → is_Some (msg_GasFeeCap msg) → is_Some (msg_GasTipCap msg) →
  Z.of_nat (length (msg_Data msg)) < 2 ^ 62 → is_u64 (msg_Gas msg) → 200 * Z.min gp (msg_Gas msg) < two64 →
  Z.min gp (msg_Gas msg) < Z.of_nat fuel →
  ∃ r st, (∀ fuel', (fuel ≤ fuel')%nat → ApplyMessage env NoBaseFee msg fuel' w gp = Ret (r, st)) ∧
    ∀ e, r = inr e → books env msg gp e st ∧ between (env_db env) (Finalise true (evm_StateDB (st_evm st))).
Proof. apply ApplyMessage_ends. Qed.

(** A transfer of 7 to the contract that writes a slot, with a gas limit of 60000
    and a price of 9, of which 7 is the base fee. *)
Module TransitionDemo.
Import StateDemo EvmDemo.
Definition msg : Message := MkMessage (Some payee) sender 0 7 60000 9 (Some 9) (Some 2) [Byte.x00; Byte.x01] [] false.
Definition world : EVM := MkEVM before 0 0 false [].
Lemma world_between : between backend before.
Proof.
  split; [apply state_reachable_ok, before_reachable|apply before_unwritten|exact before_codes|exact before_refund].
Qed.
(** 21000 and 20 for the data, and 22106 for the run; nothing was refunded. The
    coinbase has 2 for each. *)
Definition view (m : outcome ((coreError + ExecutionResult) * StateTransition)) :=
  match m with
  | Ret (inr r, st) => Some (UsedGas r, exec_Err r, st_gp st,
      (GetBalance backend sender (evm_StateDB (st_evm st))).1, (GetBalance backend 0 (evm_StateDB (st_evm st))).1)
  | _ => None
  end.
Lemma msg_runs : view (ApplyMessage env false msg 20 world 100000) =
  Some (43126, None, 100000 - 43126, 1000000000 - 7 - 9 * 43126, 2 * 43126).
Proof. vm_compute. reflexivity. Qed.
End TransitionDemo.

Import StateDemo EvmDemo.

Lemma ApplyMessage_returns_witness : ∃ r st,
  (∀ fuel', (Z.to_nat 100001 ≤ fuel')%nat →
     ApplyMessage EvmDemo.env false TransitionDemo.msg fuel' TransitionDemo.world 100000 = Ret (r, st)) ∧
  ∀ e, r = inr e → books EvmDemo.env TransitionDemo.msg 100000 e st ∧
    between backend (Finalise true (evm_StateDB (st_evm st))).
Proof.
  apply (ApplyMessage_returns EvmDemo.env false TransitionDemo.msg (Z.to_nat 100001) TransitionDemo.world 100000).
  - by split.
  - by eexists.
  - done.
  - intros a k. simpl. eexists. by split.
  - exact TransitionDemo.world_between.
  - by split.
  - by eexists.
  - by eexists.
  - done.
  - by split.
  - done.
  - lia.
Defined.
