(* ===== verification/Receipts.v ===== *)
(** * Receipts and their bloom filter (core/types/receipt.go, bloom9.go)

    The receipt of a transaction with the status as its consensus encoding has
    it, and the 2048-bit filter over the addresses and topics of its logs. The
    filter is an array of 256 bytes, as in the code. *)

From S2P Require Import Prelude Bytes Rlp Types StateDB.

Definition BloomByteLength : Z := 256.
(** [Bloom]: 256 bytes. *)
Definition newBloom : list Z := replicate 256 0.

Definition ReceiptStatusFailed : Z := 0.
Definition ReceiptStatusSuccessful : Z := 1.

Record Receipt := MkReceipt {
  rc_Type : Z; rc_PostState : bytes; rc_Status : Z; rc_CumulativeGasUsed : Z; rc_Bloom : list Z; rc_Logs : list Log;
  rc_TxHash : Hash; rc_ContractAddress : Address; rc_GasUsed : Z;
  rc_BlockHash : Hash; rc_BlockNumber : option Z; rc_TransactionIndex : Z
}.
Definition with_Bloom (b : list Z) (r : Receipt) : Receipt :=
  MkReceipt (rc_Type r) (rc_PostState r) (rc_Status r) (rc_CumulativeGasUsed r) b (rc_Logs r) (rc_TxHash r)
    (rc_ContractAddress r) (rc_GasUsed r) (rc_BlockHash r) (rc_BlockNumber r) (rc_TransactionIndex r).

(** ** Status *)

Definition receiptStatusFailedRLP : bytes := [].
Definition receiptStatusSuccessfulRLP : bytes := [Byte.x01].
Definition statusEncoding (r : Receipt) : bytes :=
  if (length (rc_PostState r) =? 0)%nat then
    if rc_Status r =? ReceiptStatusFailed then receiptStatusFailedRLP else receiptStatusSuccessfulRLP
  else rc_PostState r.
(** The status and the post state that [setStatus] reads; the receipt it sets them on. *)
Definition setStatus (postStateOrStatus : bytes) (status : Z) (postState : bytes) : result (Z * bytes) :=
  if bool_decide (postStateOrStatus = receiptStatusSuccessfulRLP) then Ok (ReceiptStatusSuccessful, postState)
  else if bool_decide (postStateOrStatus = receiptStatusFailedRLP) then Ok (ReceiptStatusFailed, postState)
  else if (length postStateOrStatus =? HashLength)%nat then Ok (status, postStateOrStatus)
  else Err (Errorf "invalid receipt status %x" []).

(** ** The filter *)

Section Bloom.
Context `{Crypto}.

(** [hashbuf]: the first six bytes of the hash. *)
Definition hashbuf (data : bytes) : list Z := b2z <$> take 6 (hash_bytes (keccak256 data)).
(** The byte index and the bit for the two bytes of the hash at [k]. *)
Definition bloom_pair (buf : list Z) (k : nat) : Z * Z :=
  let hi := default 0 (buf !! k) in
  let lo := default 0 (buf !! S k) in
  (BloomByteLength - Z.shiftr (Z.land (hi * 256 + lo) 0x7ff) 3 - 1, Z.shiftl 1 (Z.land lo 7)).
Definition bloomValues (data : bytes) : list (Z * Z) :=
  let buf := hashbuf data in [bloom_pair buf 0; bloom_pair buf 2; bloom_pair buf 4].
Definition bloom_or (b : list Z) (iv : Z * Z) : list Z := alter (λ x, Z.lor x iv.2) (Z.to_nat iv.1) b.
Definition bloom_add (d : bytes) (b : list Z) : list Z := fold_left bloom_or (bloomValues d) b.
Definition bloom_Test (topic : bytes) (b : list Z) : bool :=
  forallb (λ iv, iv.2 =? Z.land iv.2 (default 0 (b !! Z.to_nat iv.1))) (bloomValues topic).
Definition add_log (b : list Z) (l : Log) : list Z :=
  fold_left (λ b t, bloom_add (hash_bytes t) b) (log_Topics l) (bloom_add (address_bytes (log_Address l)) b).
Definition LogsBloom (logs : list Log) : list Z := fold_left add_log logs newBloom.
Definition CreateBloom (receipts : list Receipt) : list Z :=
  fold_left (λ b r, fold_left add_log (rc_Logs r) b) receipts newBloom.
Definition BloomLookup (b : list Z) (topic : bytes) : bool := bloom_Test topic b.

(** ** No false negatives *)

(** Adding only sets bits. *)
Definition grows (b b' : list Z) : Prop :=
  length b' = length b ∧ ∀ i v, v = Z.land v (default 0 (b !! i)) → v = Z.land v (default 0 (b' !! i)).
#[local] Instance grows_preorder : PreOrder grows.
Proof. split; [by intros b|]. intros b c d [E1 H1] [E2 H2]. split; [congruence|auto]. Qed.
Lemma land_lor_keep v x y : v = Z.land v x → v = Z.land v (Z.lor x y).
Proof. intros E. rewrite Z.land_lor_distr_r, <- E. symmetry. apply Z.bits_inj'. intros n _. rewrite Z.lor_spec, Z.land_spec. by destruct (Z.testbit v n), (Z.testbit y n). Qed.
Lemma bloom_or_grows b iv : grows b (bloom_or b iv).
Proof.
  unfold bloom_or. split; [apply length_alter|]. intros i v E.
  destruct (decide (i = Z.to_nat iv.1)) as [->|Hne]; [|by rewrite list_lookup_alter_ne].
  rewrite list_lookup_alter_eq. destruct (b !! Z.to_nat iv.1) as [x|]; [|done]. simpl in *. by apply land_lor_keep.
Qed.
Lemma fold_grows {A} (f : list Z → A → list Z) l b : (∀ b x, grows b (f b x)) → grows b (fold_left f l b).
Proof. intros Hf. revert b. induction l as [|x l IH]; intros b; [reflexivity|]. simpl. etransitivity; [apply Hf|apply IH]. Qed.
Lemma bloom_add_grows d b : grows b (bloom_add d b).
Proof. apply fold_grows, bloom_or_grows. Qed.
Lemma add_log_grows b l : grows b (add_log b l).
Proof. etransitivity; [apply (bloom_add_grows (address_bytes (log_Address l)))|]. apply fold_grows. intros. apply bloom_add_grows. Qed.
Lemma bloom_Test_grows b b' d : grows b b' → bloom_Test d b = true → bloom_Test d b' = true.
Proof.
  intros [_ Hg]. unfold bloom_Test. rewrite !forallb_forall. intros Ht iv Hiv. specialize (Ht iv Hiv).
  apply Z.eqb_eq in Ht. apply Z.eqb_eq. by apply Hg.
Qed.

Lemma bloom_index data iv : In iv (bloomValues data) → (Z.to_nat iv.1 < 256)%nat.
Proof.
  intros Hin. assert (Hp : ∀ buf k, (Z.to_nat (bloom_pair buf k).1 < 256)%nat).
  { intros buf k. unfold bloom_pair, BloomByteLength. simpl. set (x := Z.land _ 2047).
    assert (0 ≤ Z.shiftr x 3) by (apply Z.shiftr_nonneg, Z.land_nonneg; lia). lia. }
  destruct Hin as [<-|[<-|[<-|[]]]]; apply Hp.
Qed.
Lemma bloom_or_has b iv : (Z.to_nat iv.1 < length b)%nat → iv.2 = Z.land iv.2 (default 0 (bloom_or b iv !! Z.to_nat iv.1)).
Proof.
  intros Hi. unfold bloom_or. rewrite list_lookup_alter_eq. destruct (lookup_lt_is_Some_2 _ _ Hi) as [x ->]. simpl.
  apply Z.bits_inj'. intros n _. rewrite Z.land_spec, Z.lor_spec. by destruct (Z.testbit x n), (Z.testbit iv.2 n).
Qed.
Lemma bloom_fold_has l b iv : In iv l → (Z.to_nat iv.1 < length b)%nat →
  iv.2 = Z.land iv.2 (default 0 (fold_left bloom_or l b !! Z.to_nat iv.1)).
Proof.
  revert b. induction l as [|x l IH]; intros b; [done|]. simpl. intros [->|Hin] Hi.
  - destruct (fold_grows bloom_or l (bloom_or b iv) bloom_or_grows) as [_ Hg]. apply Hg. by apply bloom_or_has.
  - apply IH; [done|]. by rewrite (proj1 (bloom_or_grows b x)).
Qed.
Lemma bloom_add_Test d b : length b = 256%nat → bloom_Test d (bloom_add d b) = true.
Proof.
  intros Hl. unfold bloom_Test, bloom_add. rewrite forallb_forall. intros iv Hiv. apply Z.eqb_eq. apply bloom_fold_has; [done|].
  rewrite Hl. by apply (bloom_index d).
Qed.

(** A property of a fold that a step establishes and growing keeps. *)
Lemma fold_has {A} (f : list Z → A → list Z) l b x d : (∀ b y, grows b (f b y)) → length b = 256%nat →
  (∀ b, length b = 256%nat → bloom_Test d (f b x) = true) → In x l → bloom_Test d (fold_left f l b) = true.
Proof.
  intros Hf Hl Hx. revert b Hl. induction l as [|y l IH]; intros b Hl; [done|]. simpl. intros [->|Hin].
  - eapply bloom_Test_grows; [by apply fold_grows|by apply Hx].
  - apply IH; [|done]. by rewrite (proj1 (Hf b y)).
Qed.
Lemma add_log_address b l : length b = 256%nat → bloom_Test (address_bytes (log_Address l)) (add_log b l) = true.
Proof.
  intros Hl. eapply bloom_Test_grows; [|by apply bloom_add_Test]. apply fold_grows. intros. apply bloom_add_grows.
Qed.
Lemma add_log_topic b l t : length b = 256%nat → In t (log_Topics l) → bloom_Test (hash_bytes t) (add_log b l) = true.
Proof.
  intros Hl Hin. apply (fold_has _ (log_Topics l) _ t); [intros; apply bloom_add_grows| |intros; by apply bloom_add_Test|done].
  by rewrite (proj1 (bloom_add_grows _ _)).
Qed.

Lemma CreateBloom_has receipts r l d : In r receipts → In l (rc_Logs r) →
  (∀ b, length b = 256%nat → bloom_Test d (add_log b l) = true) → BloomLookup (CreateBloom receipts) d = true.
Proof.
  intros Hr Hl Hd. apply (fold_has _ receipts newBloom r); [|done| |done].
  - intros. apply fold_grows, add_log_grows.
  - intros b Hb. by apply (fold_has add_log (rc_Logs r) b l); [apply add_log_grows| | |].
Qed.

(** The bloom filter made of receipts never misses a log: for every log of
    every receipt a lookup of its address and of each of its topics is positive,
    so a search that skips the blocks whose filter says no skips nothing. *)
Theorem CreateBloom_complete receipts r l : In r receipts → In l (rc_Logs r) →
  BloomLookup (CreateBloom receipts) (address_bytes (log_Address l)) = true ∧
  ∀ t, In t (log_Topics l) → BloomLookup (CreateBloom receipts) (hash_bytes t) = true.
Proof.
  intros Hr Hl. split.
  - apply (CreateBloom_has receipts r l); [done|done|]. intros. by apply add_log_address.
  - intros t Ht. apply (CreateBloom_has receipts r l); [done|done|]. intros. by apply add_log_topic.
Qed.
End Bloom.

(** The status that is encoded is the one that is read, on a receipt without one. *)
Lemma setStatus_statusEncoding r : (rc_Status r = 0 ∨ rc_Status r = 1) →
  (length (rc_PostState r) = 0%nat ∨ length (rc_PostState r) = HashLength ∧ rc_Status r = 0) →
  setStatus (statusEncoding r) 0 [] = Ok (rc_Status r, rc_PostState r).
Proof.
  unfold statusEncoding, setStatus. intros Hs Hp. destruct (rc_PostState r) as [|b [|c l]] eqn:E; simpl.
  - destruct Hs as [-> | ->]; simpl; done.
  - destruct Hp as [?|[? _]]; discriminate.
  - destruct Hp as [?|[Hl Hst]]; [discriminate|]. rewrite bool_decide_false by (intros [=]). simpl in *. rewrite Hst.
    injection Hl as Hl. rewrite Hl. done.
Qed.

(** Two receipts; the log is the second one's. *)
Module BloomDemo.
Definition crypto : Crypto :=
  {| keccak256 := foldl (fun h c => (h * 2 ^ 200 + (h + b2z c) * 257) mod (2 ^ 256 - 189)) 1; RecoverPubkey _ sig := Some sig |}.
#[export] Existing Instance crypto.
Definition log : Log := MkLog 0x1001 [5; 77] [] 0 0 0.
Definition receipt (logs : list Log) : Receipt := MkReceipt 0 [] 1 21000 newBloom logs 0 0 21000 0 None 0.
Definition receipts : list Receipt := [receipt []; receipt [log]].
(** The filter is not full: it says no to another address. *)
Lemma other_missed : BloomLookup (CreateBloom receipts) (address_bytes 0x2002) = false.
Proof. vm_compute. reflexivity. Qed.
End BloomDemo.
Import BloomDemo.

Lemma CreateBloom_complete_witness : BloomLookup (CreateBloom receipts) (address_bytes 0x1001) = true ∧
  BloomLookup (CreateBloom receipts) (hash_bytes 77) = true.
Proof.
  destruct (CreateBloom_complete receipts (receipt [log]) log) as [H1 H2].
  - right. left. reflexivity.
  - left. reflexivity.
  - split; [exact H1|]. apply H2. right. left. reflexivity.
Defined.
