(* ===== verification/Processor.v ===== *)
(** * The state processor (core/state_processor.go, core/evm.go)

    A block's transactions one after the other on the state of its parent: the
    environment of the virtual machine made from the header, for each transaction
    its message, its run, its receipt and the end of its changes, and at last the
    block rewards of the engine. What a block has used never exceeds its limit,
    and processing a block comes to an end without a panic.

    The consensus engine is an interface of the processor, given by its Author
    and Finalize; the header lookup behind BLOCKHASH and the tries behind the
    state roots of old forks are arguments too. *)

From S2P Require Import Prelude Bytes Rlp Types Params Misc Text Transaction StateDB StateRevert StateHistory EvmAnalysis EvmTable Evm EvmGas EvmState EvmViews EvmTotal EvmSafety StateTransition Receipts.

(** ** The DAO fork (params/dao.go, consensus/misc/dao.go) *)

Definition DAORefundContract : Address := 0xbf4ed7b27f1d666546e30d74d50d173d20bca754.
Definition DAODrainList : list Address :=
  [0xd4fe7bc31cedb7bfb8a345f31e668033056b2728; 0xb3fb0e5aba0e20e5c49d252dfd30e102b171a425;
   0x2c19c7f9ae8b751e37aeb2d93a699722395ae18f; 0xecd135fa4f61a655311e86238c92adcd779555d2;
   0x1975bd06d486162d5dc297798dfc41edd5d160a7; 0xa3acf3a1e16b1d7c315e23510fdd7847b48234f6;
   0x319f70bab6845585f412ec7724b744fec6095c85; 0x06706dd3f2c9abf0a21ddcc6941d9b86f0596936;
   0x5c8536898fbb74fc7445814902fd08422eac56d0; 0x6966ab0d485353095148a2155858910e0965b6f9;
   0x779543a0491a837ca36ce8c635d6154e3c4911a6; 0x2a5ed960395e2a49b1c758cef4aa15213cfd874c;
   0x5c6e67ccd5849c0d29219c4f95f1a7a93b3f5dc5; 0x9c50426be05db97f5d64fc54bf89eff947f0a321;
   0x200450f06520bdd6c527622a273333384d870efb; 0xbe8539bfe837b67d1282b2b1d61c3f723966f049;
   0x6b0c4d41ba9ab8d8cfb5d379c69a612f2ced8ecb; 0xf1385fb24aad0cd7432824085e42aff90886fef5;
   0xd1ac8b1ef1b69ff51d1d401a476e7e612414f091; 0x8163e7fb499e90f8544ea62bbf80d21cd26d9efd;
   0x51e0ddd9998364a2eb38588679f0d2c42653e4a6; 0x627a0a960c079c21c34f7612d5d230e01b4ad4c7;
   0xf0b1aa0eb660754448a7937c022e30aa692fe0c5; 0x24c4d950dfd4dd1902bbed3508144a54542bba94;
   0x9f27daea7aca0aa0446220b98d028715e3bc803d; 0xa5dc5acd6a7968a4554d89d65e59b7fd3bff0f90;
   0xd9aef3a1e38a39c16b31d1ace71bca8ef58d315b; 0x63ed5a272de2f6d968408b4acb9024f4cc208ebf;
   0x6f6704e5a10332af6672e50b3d9754dc460dfa4d; 0x77ca7b50b6cd7e2f3fa008e24ab793fd56cb15f6;
   0x492ea3bb0f3315521c31f273e565b868fc090f17; 0x0ff30d6de14a8224aa97b78aea5388d1c51c1f00;
   0x9ea779f907f0b315b364b0cfc39a0fde5b02a416; 0xceaeb481747ca6c540a000c1f3641f8cef161fa7;
   0xcc34673c6c40e791051898567a1222daf90be287; 0x579a80d909f346fbfb1189493f521d7f48d52238;
   0xe308bd1ac5fda103967359b2712dd89deffb7973; 0x4cb31628079fb14e4bc3cd5e30c2f7489b00960c;
   0xac1ecab32727358dba8962a0f3b261731aad9723; 0x4fd6ace747f06ece9c49699c7cabc62d02211f75;
   0x440c59b325d2997a134c2c7c60a8c61611212bad; 0x4486a3d68fac6967006d7a517b889fd3f98c102b;
   0x9c15b54878ba618f494b38f0ae7443db6af648ba; 0x27b137a85656544b1ccb5a0f2e561a5703c6a68f;
   0x21c7fdb9ed8d291d79ffd82eb2c4356ec0d81241; 0x23b75c2f6791eef49c69684db4c6c1f93bf49a50;
   0x1ca6abd14d30affe533b24d7a21bff4c2d5e1f3b; 0xb9637156d330c0d605a791f1c31ba5890582fe1c;
   0x6131c42fa982e56929107413a9d526fd99405560; 0x1591fc0f688c81fbeb17f5426a162a7024d430c2;
   0x542a9515200d14b68e934e9830d91645a980dd7a; 0xc4bbd073882dd2add2424cf47d35213405b01324;
   0x782495b7b3355efb2833d56ecb34dc22ad7dfcc4; 0x58b95c9a9d5d26825e70a82b6adb139d3fd829eb;
   0x3ba4d81db016dc2890c81f3acec2454bff5aada5; 0xb52042c8ca3f8aa246fa79c3feaa3d959347c0ab;
   0xe4ae1efdfc53b73893af49113d8694a057b9c0d1; 0x3c02a7bc0391e86d91b7d144e61c2c01a25a79c5;
   0x0737a6b837f97f46ebade41b9bc3e1c509c85c53; 0x97f43a37f595ab5dd318fb46e7a155eae057317a;
   0x52c5317c848ba20c7504cb2c8052abd1fde29d03; 0x4863226780fe7c0356454236d3b1c8792785748d;
   0x5d2b2e6fcbe3b11d26b525e085ff818dae332479; 0x5f9f3392e9f62f63b8eac0beb55541fc8627f42c;
   0x057b56736d32b86616a10f619859c6cd6f59092a; 0x9aa008f65de0b923a2a4f02012ad034a5e2e2192;
   0x304a554a310c7e546dfe434669c62820b7d83490; 0x914d1b8b43e92723e64fd0a06f5bdb8dd9b10c79;
   0x4deb0033bb26bc534b197e61d19e0733e5679784; 0x07f5c1e1bc2c93e0402f23341973a0e043f7bf8a;
   0x35a051a0010aba705c9008d7a7eff6fb88f6ea7b; 0x4fa802324e929786dbda3b8820dc7834e9134a2a;
   0x9da397b9e80755301a3b32173283a91c0ef6c87e; 0x8d9edb3054ce5c5774a420ac37ebae0ac02343c6;
   0x0101f3be8ebb4bbd39a2e3b9a3639d4259832fd9; 0x5dc28b15dffed94048d73806ce4b7a4612a1d48f;
   0xbcf899e6c7d9d5a215ab1e3444c86806fa854c76; 0x12e626b0eebfe86a56d633b9864e389b45dcb260;
   0xa2f1ccba9395d7fcb155bba8bc92db9bafaeade7; 0xec8e57756626fdc07c63ad2eafbd28d08e7b0ca5;
   0xd164b088bd9108b60d0ca3751da4bceb207b0782; 0x6231b6d0d5e77fe001c2a460bd9584fee60d409b;
   0x1cba23d343a983e9b5cfd19496b9a9701ada385f; 0xa82f360a8d3455c5c41366975bde739c37bfeb8a;
   0x9fcd2deaff372a39cc679d5c5e4de7bafb0b1339; 0x005f5cee7a43331d5a3d3eec71305925a62f34b6;
   0x0e0da70933f4c7849fc0d203f5d1d43b9ae4532d; 0xd131637d5275fd1a68a3200f4ad25c71a2a9522e;
   0xbc07118b9ac290e4622f5e77a0853539789effbe; 0x47e7aa56d6bdf3f36be34619660de61275420af8;
   0xacd87e28b0c9d1254e868b81cba4cc20d9a32225; 0xadf80daec7ba8dcf15392f1ac611fff65d94f880;
   0x5524c55fb03cf21f549444ccbecb664d0acad706; 0x40b803a9abce16f50f36a77ba41180eb90023925;
   0xfe24cdd8648121a43a7c86d289be4dd2951ed49f; 0x17802f43a0137c506ba92291391a8a8f207f487d;
   0x253488078a4edf4d6f42f113d1e62836a942cf1a; 0x86af3e9626fce1957c82e88cbf04ddf3a2ed7915;
   0xb136707642a4ea12fb4bae820f03d2562ebff487; 0xdbe9b615a3ae8709af8b93336ce9b477e4ac0940;
   0xf14c14075d6c4ed84b86798af0956deef67365b5; 0xca544e5c4687d109611d0f8f928b53a25af72448;
   0xaeeb8ff27288bdabc0fa5ebb731b6f409507516c; 0xcbb9d3703e651b0d496cdefb8b92c25aeb2171f7;
   0x6d87578288b6cb5549d5076a207456a1f6a63dc0; 0xb2c6f0dfbb716ac562e2d85d6cb2f8d5ee87603e;
   0xaccc230e8a6e5be9160b8cdf2864dd2a001c28b6; 0x2b3455ec7fedf16e646268bf88846bd7a2319bb2;
   0x4613f3bca5c44ea06337a9e439fbc6d42e501d0a; 0xd343b217de44030afaa275f54d31a9317c7f441e;
   0x84ef4b2357079cd7a7c69fd7a37cd0609a679106; 0xda2fef9e4a3230988ff17df2165440f37e8b1708;
   0xf4c64518ea10f995918a454158c6b61407ea345c; 0x7602b46df5390e432ef1c307d4f2c9ff6d65cc97;
   0xbb9bc244d798123fde783fcc1c72d3bb8c189413; 0x807640a13483f8ac783c557fcdf27be11ea4ac7a].

Section Dao.
Context `{Crypto} (db : Backend).
Definition drain (s : StateDB) (a : Address) : StateDB :=
  let '(v, s) := GetBalance db a s in
  SetBalance db a 0 (StateDB_AddBalance db DAORefundContract v s).
Definition ApplyDAOHardFork (s : StateDB) : StateDB :=
  let '(ex, s) := Exist db DAORefundContract s in
  let s := if negb ex then CreateAccount db DAORefundContract s else s in
  fold_left drain DAODrainList s.
End Dao.

(** ** The rules and the signer of a block *)

Definition Rules_of (c : ChainConfig) (num : option Z) (isMerge : bool) : Rules :=
  MkRules (isForked (HomesteadBlock c) num) (isForked (EIP150Block c) num) (IsEIP158 c num)
    (isForked (ByzantiumBlock c) num) (isForked (ConstantinopleBlock c) num) (IsPetersburg c num)
    (isForked (IstanbulBlock c) num) (isForked (BerlinBlock c) num) (IsLondon c num) isMerge.
Definition MakeSigner (c : ChainConfig) (num : option Z) : Signer :=
  let chainID := default 0 (ChainID c) in
  if IsLondon c num then londonSigner chainID
  else if isForked (BerlinBlock c) num then eip2930Signer chainID
  else if isForked (EIP155Block c) num then EIP155Signer chainID
  else if isForked (HomesteadBlock c) num then HomesteadSigner
  else FrontierSigner.

Inductive processError := CouldNotApply (i : Z) (h : Hash) (e : error + coreError).

Section Processor.
Context `{Crypto} `{Uint256} (db : Backend) (config : ChainConfig).
(** What the processor is given: the precompiled contracts of a fork, the
    engine, the headers by number, the state root with the state it leaves, and
    the options of the machine. *)
Context (precompiles : Rules → Address → option PrecompiledContract).
Context (Author : Header → result Address) (Finalize : Header → StateDB → outcome StateDB).
Context (getHash : Header → Z → Hash) (IntermediateRoot : bool → StateDB → Hash * StateDB).
Context (EnablePreimages NoBaseFee : bool).

(** [NewEVMBlockContext] and [NewEVM]. A header without a base fee leaves none in
    the context, and its uses panic. *)
Definition block_env (header : Header) (author : option Address) : outcome Env :=
  beneficiary ← match author with
                | Some a => Ret a
                | None => match Author header with Ok a => Ret a | Err _ => Ret 0 | Panic w => Crash w end
                end;
  difficulty ← value_of (Difficulty header);
  number ← value_of (Number header);
  let random := if difficulty =? 0 then Some (MixDigest header) else None in
  let rules := Rules_of config (Some number) (match random with Some _ => true | None => false end) in
  Ret (MkEnv db rules (precompiles rules) (getHash header) beneficiary (GasLimit header) number (Time header) difficulty
         (BaseFee header) (default 0 random) 0 0 (default 0 (ChainID config)) EnablePreimages false).
(** [NewEVMTxContext] and [Reset]. *)
Definition tx_env (msg : Message) (env : Env) : Env :=
  MkEnv (env_db env) (chainRules env) (precompile env) (GetHash env) (ctx_Coinbase env) (ctx_GasLimit env)
    (ctx_BlockNumber env) (ctx_Time env) (ctx_Difficulty env) (ctx_BaseFee env) (ctx_Random env)
    (msg_From msg) (msg_GasPrice msg) (ctx_ChainID env) (EnablePreimageRecording env) (abort env).

(** The block as it is being processed: the machine with the state, the pool and
    the gas used so far. *)
Record Progress := MkProgress { pr_evm : EVM; pr_gp : Z; pr_usedGas : Z }.

Definition applyTransaction (fuel : nat) (env : Env) (msg : Message) (tx : Transaction) (blockNumber : option Z)
  (blockHash : Hash) (p : Progress) : outcome ((coreError + Receipt) * Progress) :=
  '(r, st) ← ApplyMessage (tx_env msg env) NoBaseFee msg fuel (pr_evm p) (pr_gp p);
  match r with
  | inl e => Ret (inl e, MkProgress (st_evm st) (st_gp st) (pr_usedGas p))
  | inr result =>
      let s := evm_StateDB (st_evm st) in
      let '(root, s) := if isForked (ByzantiumBlock config) blockNumber then ([], Finalise true s)
                        else let '(h, s) := IntermediateRoot (IsEIP158 config blockNumber) s in (hash_bytes h, s) in
      let usedGas := add64 (pr_usedGas p) (UsedGas result) in
      let receipt :=
        MkReceipt (tx_Type tx) root (if Failed result then ReceiptStatusFailed else ReceiptStatusSuccessful) usedGas newBloom
          (default [] (logs s !! tx_Hash tx)) (tx_Hash tx)
          (match msg_To msg with None => CreateAddress (msg_From msg) (tx_Nonce tx) | Some _ => 0 end)
          (UsedGas result) blockHash blockNumber (txIndex s) in
      Ret (inr (with_Bloom (CreateBloom [receipt]) receipt), MkProgress (with_db s (st_evm st)) (st_gp st) usedGas)
  end.

(** The loop of [Process]; a transaction comes with the sender it has cached. *)
Fixpoint process_txs (fuel : nat) (env : Env) (header : Header) (i : Z) (txs : list (Transaction * option (Signer * Address)))
  (receipts : list Receipt) (allLogs : list Log) (p : Progress)
  : outcome ((processError + list Receipt * list Log) * Progress) :=
  match txs with
  | [] => Ret (inr (receipts, allLogs), p)
  | (tx, cached) :: txs =>
      match (AsMessage (MakeSigner config (Number header)) tx (BaseFee header) cached).1 with
      | Err e => Ret (inl (CouldNotApply i (tx_Hash tx) (inl e)), p)
      | Panic w => Crash w
      | Ok msg =>
          let p := MkProgress (change (Prepare (tx_Hash tx) i) (pr_evm p)) (pr_gp p) (pr_usedGas p) in
          '(r, p) ← applyTransaction fuel env msg tx (Number header) (Header_Hash header) p;
          match r with
          | inl e => Ret (inl (CouldNotApply i (tx_Hash tx) (inr e)), p)
          | inr receipt => process_txs fuel env header (i + 1) txs (receipts ++ [receipt]) (allLogs ++ rc_Logs receipt) p
          end
      end
  end.
Definition Process (fuel : nat) (header : Header) (txs : list (Transaction * option (Signer * Address))) (s : StateDB)
  : outcome (processError + list Receipt * list Log * Z * StateDB) :=
  gp ← AddGas (GasLimit header) 0;
  let s := if DAOForkSupport config && bool_decide (is_Some (DAOForkBlock config)) && bool_decide (DAOForkBlock config = Number header)
           then ApplyDAOHardFork db s else s in
  env ← block_env header None;
  '(r, p) ← process_txs fuel env header 0 txs [] [] (MkProgress (MkEVM s 0 0 false []) gp 0);
  match r with
  | inl e => Ret (inl e)
  | inr (receipts, allLogs) =>
      s ← Finalize header (evm_StateDB (pr_evm p));
      Ret (inr (receipts, allLogs, pr_usedGas p, s))
  end.
(** [ApplyTransaction]: the miner's way in, with itself as the author. *)
Definition ApplyTransaction (fuel : nat) (header : Header) (author : option Address) (tx : Transaction)
  (cached : option (Signer * Address)) (p : Progress) : outcome (((error + coreError) + Receipt) * Progress) :=
  match (AsMessage (MakeSigner config (Number header)) tx (BaseFee header) cached).1 with
  | Err e => Ret (inl (inl e), p)
  | Panic w => Crash w
  | Ok msg =>
      env ← block_env header author;
      '(r, p) ← applyTransaction fuel env msg tx (Number header) (Header_Hash header) p;
      Ret (match r with inl e => inl (inr e) | inr receipt => inr receipt end, p)
  end.
End Processor.

(** ** Gas and termination *)

(** Each receipt has the gas used up to it. *)
Fixpoint cumulative (used : Z) (rs : list Receipt) : Prop :=
  match rs with
  | [] => True
  | r :: rs => rc_CumulativeGasUsed r = used + rc_GasUsed r ∧ cumulative (used + rc_GasUsed r) rs
  end.
Definition total_gas (rs : list Receipt) : Z := fold_right (λ r sum, rc_GasUsed r + sum) 0 rs.
(** A receipt is that of its transaction. *)
Record receipt_of `{Crypto} (tx : Transaction * option (Signer * Address)) (r : Receipt) : Prop := {
  ro_hash : rc_TxHash r = tx_Hash tx.1;
  ro_type : rc_Type r = tx_Type tx.1;
  ro_gas : 0 ≤ rc_GasUsed r ≤ tx_Gas tx.1;
  ro_bloom : rc_Bloom r = LogsBloom (rc_Logs r)
}.

Section Block.
Context `{Crypto} `{Uint256} (db : Backend) (config : ChainConfig).
Context (precompiles : Rules → Address → option PrecompiledContract).
Context (Author : Header → result Address) (Finalize : Header → StateDB → outcome StateDB).
Context (getHash : Header → Z → Hash) (IntermediateRoot : bool → StateDB → Hash * StateDB).
Context (EnablePreimages NoBaseFee : bool).

Lemma Signer_Sender_no_panic s t w : Signer_Sender s t ≠ Panic w.
Proof.
  assert (Hr : ∀ h R S V b, recoverPlain h R S V b ≠ Panic w).
  { intros. unfold recoverPlain, Ecrecover. repeat (case_match; simpl; try done). }
  assert (Hh : homestead_Sender t ≠ Panic w).
  { unfold homestead_Sender. repeat (case_match; try done); apply Hr. }
  assert (Hc : ∀ s c V, checked_Sender s c t V ≠ Panic w).
  { intros. unfold checked_Sender. repeat (case_match; try done); apply Hr. }
  assert (He : ∀ c, eip2930_Sender c t ≠ Panic w).
  { intros. unfold eip2930_Sender. repeat (case_match; try done); auto. }
  unfold Signer_Sender. repeat (case_match; try done); auto.
Qed.
Lemma AsMessage_cases s t b c : match (AsMessage s t b c).1 with
  | Ok m => msg_Gas m = tx_Gas t ∧ msg_Data m = tx_Data t ∧ is_Some (msg_GasFeeCap m) ∧ is_Some (msg_GasTipCap m)
  | Err _ => True
  | Panic _ => False
  end.
Proof.
  unfold AsMessage. destruct (Sender s t c) as [r c'] eqn:E.
  assert (Hr : ∀ w, r ≠ Panic w).
  { intros w ->. pose proof (Signer_Sender_no_panic s t w) as Hn. unfold Sender in E.
    destruct (Signer_Sender s t); repeat case_match; simplify_eq; done. }
  destruct r as [a|e|w]; simpl; [|done|by destruct (Hr w)]. split_and!; eauto.
Qed.
Lemma ok_Prepare h i s : ok db s → ok db (Prepare h i s).
Proof.
  intros [[Hk Hw] Hd Hc Hn]. split; try done. intros a o k. rewrite obj_of_eq. simpl. rewrite <- obj_of_eq. apply Hc.
Qed.
Lemma between_Prepare h i s : between db s → between db (Prepare h i s).
Proof.
  intros [Ho Hu Hc Hr]. split; [by apply ok_Prepare| | |done].
  - by apply (unwritten_objects db s).
  - by apply (codes_short_objects db s).
Qed.

Context (env : Env) (header : Header) (L : Z).
Context (Hdb : env_db env = db) (Hl : london (chainRules env)) (Hfee : is_Some (ctx_BaseFee env)).
Context (Hp : ∀ a p i, precompile env a = Some p → 0 ≤ RequiredGas p i).
Context (He : ∀ a k, ∃ get, OpenStorageTrie db a state_emptyRoot = Ok get ∧ get k = Ok []).
Context (Hbyz : isForked (ByzantiumBlock config) (Number header) = true) (HL : 0 ≤ L ∧ 200 * L < two64).

Definition tx_fits (tx : Transaction) : Prop := is_u64 (tx_Gas tx) ∧ Z.of_nat (length (tx_Data tx)) < 2 ^ 62.
Record progress_ok (p : Progress) : Prop := {
  po_between : between db (evm_StateDB (pr_evm p));
  po_gp : 0 ≤ pr_gp p;
  po_used : 0 ≤ pr_usedGas p;
  po_sum : pr_gp p + pr_usedGas p = L
}.
#[local] Notation apply_tx := (applyTransaction config IntermediateRoot NoBaseFee).
#[local] Notation run_txs := (process_txs config IntermediateRoot NoBaseFee).

Lemma applyTransaction_total fuel msg tx c h p : L < Z.of_nat fuel → progress_ok p → tx_fits tx →
  msg_Gas msg = tx_Gas tx → msg_Data msg = tx_Data tx → is_Some (msg_GasFeeCap msg) → is_Some (msg_GasTipCap msg) →
  ∃ r p', (∀ fuel', (fuel ≤ fuel')%nat → apply_tx fuel' env msg tx (Number header) h p = Ret (r, p')) ∧
    ∀ rc, r = inr rc → receipt_of (tx, c) rc ∧ progress_ok p' ∧ pr_usedGas p' = pr_usedGas p + rc_GasUsed rc ∧
      rc_CumulativeGasUsed rc = pr_usedGas p'.
Proof.
  intros Hf [Hb Hg Hu Hs] [Htg Htd] Em1 Em2 Hcap Htip.
  rewrite <- Em1 in Htg. rewrite <- Em2 in Htd.
  destruct (ApplyMessage_ends (tx_env msg env) NoBaseFee msg fuel (pr_evm p) (pr_gp p)) as (r & st & Hrun & Hbooks);
    try done; try (unfold is_u64; lia).
  - by rewrite <- Hdb in He.
  - simpl. by rewrite Hdb.
  - destruct r as [e|result].
    + exists (inl e), (MkProgress (st_evm st) (st_gp st) (pr_usedGas p)). split; [|done].
      intros fuel' Hle. unfold applyTransaction. by rewrite (Hrun fuel' Hle).
    + destruct (Hbooks result eq_refl) as [[B1 B2 B3 B4 _] Hbt]. simpl in Hbt. rewrite Hdb in Hbt.
      assert (Eu : add64 (pr_usedGas p) (UsedGas result) = pr_usedGas p + UsedGas result).
      { apply add64_small. unfold is_u64 in *. lia. }
      eexists (inr _), _. split.
      { intros fuel' Hle. unfold applyTransaction. rewrite (Hrun fuel' Hle). cbn [mbind outcome_bind].
        rewrite Hbyz. reflexivity. }
      intros rc [= <-]. simpl. rewrite Eu. split_and!; [|split; simpl; try done; lia|done|done].
      split; try done. simpl. lia.
Qed.
(** The error names a transaction of the list, and what comes before it was
    applied. *)
Definition stopped_at (fuel : nat) (i : Z) (txs : list (Transaction * option (Signer * Address))) (rs : list Receipt) (ls : list Log)
  (p : Progress) (err : processError) : Prop :=
  let '(CouldNotApply j h _) := err in
  ∃ k tx, txs !! k = Some tx ∧ j = i + Z.of_nat k ∧ h = tx_Hash tx.1 ∧
    ∃ done_ p', ∀ fuel', (fuel ≤ fuel')%nat → run_txs fuel' env header i (take k txs) rs ls p = Ret (inr done_, p').
Lemma process_txs_total fuel txs : L < Z.of_nat fuel → Forall (λ tx, tx_fits tx.1) txs → ∀ i rs ls p, progress_ok p →
  ∃ r p', (∀ fuel', (fuel ≤ fuel')%nat → run_txs fuel' env header i txs rs ls p = Ret (r, p')) ∧
    match r with
    | inl err => stopped_at fuel i txs rs ls p err
    | inr (rs', ls') => ∃ new, rs' = rs ++ new ∧ ls' = ls ++ concat (rc_Logs <$> new) ∧
        Forall2 receipt_of txs new ∧ cumulative (pr_usedGas p) new ∧
        pr_usedGas p' = pr_usedGas p + total_gas new ∧ progress_ok p'
    end.
Proof.
  intros Hf Ht. induction Ht as [|[tx c] txs Htx Hts IH]; intros i rs ls p Hpo.
  { exists (inr (rs, ls)), p. split; [done|]. exists []. simpl. rewrite !app_nil_r, Z.add_0_r. by split_and!. }
  assert (Hhere : ∀ e, stopped_at fuel i ((tx, c) :: txs) rs ls p (CouldNotApply i (tx_Hash tx) e)).
  { intros e. exists 0%nat, (tx, c). split_and!; [done|simpl; lia|done|]. by exists (rs, ls), p. }
  cbn [process_txs]. pose proof (AsMessage_cases (MakeSigner config (Number header)) tx (BaseFee header) c) as Hm.
  destruct (AsMessage _ _ _ _).1 as [msg|e|w] eqn:Emsg; [|by eexists (inl _), p|done]. destruct Hm as (M1 & M2 & M3 & M4).
  set (p1 := MkProgress _ _ _). assert (Hp1 : progress_ok p1).
  { destruct Hpo as [Q1 Q2 Q3 Q4]. split; try done. simpl. by apply between_Prepare. }
  destruct (applyTransaction_total fuel msg tx c (Header_Hash header) p1 Hf Hp1 Htx M1 M2 M3 M4) as (r & p2 & Hrun & Hrc).
  destruct r as [e|rc].
  { eexists (inl _), p2. split; [|apply Hhere]. intros fuel' Hle. by rewrite (Hrun fuel' Hle). }
  destruct (Hrc rc eq_refl) as (R1 & R2 & R3 & R4). simpl in R3.
  destruct (IH (i + 1) (rs ++ [rc]) (ls ++ rc_Logs rc) p2 R2) as (r & p3 & Hrun3 & H3).
  exists r, p3. split.
  - intros fuel' Hle. rewrite (Hrun fuel' Hle). cbn [mbind outcome_bind]. by apply Hrun3.
  - destruct r as [[j h e]|[rs' ls']].
    + destruct H3 as (k & tx' & K1 & K2 & K3 & d & p' & K4). exists (S k), tx'. split_and!; [done|lia|done|]. exists d, p'.
      intros fuel' Hle. cbn [take process_txs]. rewrite Emsg. fold p1. rewrite (Hrun fuel' Hle). cbn [mbind outcome_bind]. by apply K4.
    + destruct H3 as (new & -> & -> & N1 & N2 & N3 & N4). exists (rc :: new).
      rewrite <- !app_assoc. simpl. split_and!; try done; [by constructor|..]; rewrite <- ?R3; try done; lia.
Qed.
End Block.

(** ** The theorems *)

Section Results.
Context `{Crypto} `{Uint256} (db : Backend) (config : ChainConfig).
Context (precompiles : Rules → Address → option PrecompiledContract).
Context (Author : Header → result Address) (Finalize : Header → StateDB → outcome StateDB).
Context (getHash : Header → Z → Hash) (IntermediateRoot : bool → StateDB → Hash * StateDB).
Context (EnablePreimages NoBaseFee : bool).
#[local] Notation Process :=
  (Process db config precompiles Author Finalize getHash IntermediateRoot EnablePreimages NoBaseFee).
#[local] Notation block_env := (block_env db config precompiles Author getHash EnablePreimages).

(** The chain from London on, with what its parts promise. *)
Record london_chain (header : Header) : Prop := {
  lc_number : is_Some (Number header);
  lc_difficulty : is_Some (Difficulty header);
  lc_byzantium : isForked (ByzantiumBlock config) (Number header) = true;
  lc_dao : DAOForkSupport config = false;
  lc_rules m : london (Rules_of config (Number header) m);
  lc_precompiles r a p i : precompiles r a = Some p → 0 ≤ RequiredGas p i;
  lc_empty a k : ∃ get, OpenStorageTrie db a state_emptyRoot = Ok get ∧ get k = Ok [];
  lc_author w : Author header ≠ Panic w
}.

Lemma block_env_total header author : london_chain header → ∃ env, block_env header author = Ret env ∧ env_db env = db ∧
  london (chainRules env) ∧ ctx_BaseFee env = BaseFee header ∧ ∀ a p i, precompile env a = Some p → 0 ≤ RequiredGas p i.
Proof.
  intros [[n Hn] [d Hd] _ _ Hr Hp _ Ha]. unfold Processor.block_env. rewrite Hd, Hn. cbn [value_of].
  assert (∃ a, match author with Some a => Ret a | None => match Author header with Ok a => Ret a | Err _ => Ret 0 | Panic w => Crash w end end = Ret a)
    as [a ->] by (destruct author; [eauto|]; destruct (Author header) as [a| |w] eqn:E; eauto; by destruct (Ha w)).
  cbn [mbind outcome_bind]. eexists. split_and!; [done|done| |done|]; simpl.
  - rewrite <- Hn. apply Hr.
  - intros b p i. apply Hp.
Qed.
(** The processor, once the pool and the machine are set up. *)
Lemma Process_eq header txs s fuel env : london_chain header → block_env header None = Ret env →
  0 ≤ GasLimit header → 200 * GasLimit header < two64 → Process fuel header txs s =
  '(r, p) ← process_txs config IntermediateRoot NoBaseFee fuel env header 0 txs [] [] (MkProgress (MkEVM s 0 0 false []) (GasLimit header) 0);
  match r with
  | inl e => Ret (inl e)
  | inr (receipts, allLogs) => s ← Finalize header (evm_StateDB (pr_evm p)); Ret (inr (receipts, allLogs, pr_usedGas p, s))
  end.
Proof.
  intros Hc Ee H1 H2. unfold Processor.Process, AddGas. rewrite (proj2 (Z.ltb_ge _ _)) by lia. cbn [mbind outcome_bind].
  rewrite (lc_dao _ Hc). cbn [andb]. rewrite Ee. cbn [mbind outcome_bind]. by rewrite add64_small, Z.add_0_l by (unfold is_u64; lia).
Qed.
(** What the processor answers: an error that names the first transaction that
    cannot be applied, the block cut before it being one that is processed, or
    receipts that add up. *)
Definition answers_for (fuel : nat) (header : Header) (txs : list (Transaction * option (Signer * Address))) (s : StateDB)
  (r : processError + list Receipt * list Log * Z * StateDB) : Prop :=
  match r with
  | inl (CouldNotApply i h _) => ∃ k tx, i = Z.of_nat k ∧ txs !! k = Some tx ∧ h = tx_Hash tx.1 ∧
      ∃ done_, ∀ fuel', (fuel ≤ fuel')%nat → Process fuel' header (take k txs) s = Ret (inr done_)
  | inr (rs, ls, used, _) => Forall2 receipt_of txs rs ∧ cumulative 0 rs ∧ used = total_gas rs ∧ used ≤ GasLimit header ∧
      ls = concat (rc_Logs <$> rs)
  end.
Lemma Process_total header txs s fuel : london_chain header → is_Some (BaseFee header) → between db s → Forall (λ tx, tx_fits tx.1) txs →
  0 ≤ GasLimit header → 200 * GasLimit header < two64 → GasLimit header < Z.of_nat fuel →
  (∀ s, ∃ s', Finalize header s = Ret s') →
  ∃ r, (∀ fuel', (fuel ≤ fuel')%nat → Process fuel' header txs s = Ret r) ∧ answers_for fuel header txs s r.
Proof.
  intros Hc Hfee Hb Ht H1 H2 Hf HF. destruct (block_env_total header None Hc) as (env & Ee & Hdb & Hl & Efee & Hp).
  rewrite <- Efee in Hfee. set (p0 := MkProgress (MkEVM s 0 0 false []) (GasLimit header) 0).
  assert (Hp0 : progress_ok db (GasLimit header) p0) by (split; simpl; [done|lia|lia|lia]).
  destruct (process_txs_total db config IntermediateRoot NoBaseFee env header (GasLimit header) Hdb Hl Hfee Hp
    (lc_empty _ Hc) (lc_byzantium _ Hc) (conj H1 H2) fuel txs Hf Ht 0 [] [] p0 Hp0) as (r & p & Hrun & Hr).
  assert (Hpre := λ txs fuel', Process_eq header txs s fuel' env Hc Ee H1 H2). fold p0 in Hpre. destruct r as [err|[rs ls]].
  - exists (inl err). split; [intros fuel' Hle; by rewrite Hpre, (Hrun fuel' Hle)|].
    destruct err as [j h e], Hr as (k & tx & K1 & K2 & K3 & [rs ls] & p' & K4). exists k, tx. split_and!; [lia|done|done|].
    destruct (HF (evm_StateDB (pr_evm p'))) as [s' Es']. exists (rs, ls, pr_usedGas p', s').
    intros fuel' Hle. rewrite Hpre, (K4 fuel' Hle). cbn [mbind outcome_bind]. by rewrite Es'.
  - destruct (HF (evm_StateDB (pr_evm p))) as [s' Es']. exists (inr (rs, ls, pr_usedGas p, s')). split.
    + intros fuel' Hle. rewrite Hpre, (Hrun fuel' Hle). cbn [mbind outcome_bind]. by rewrite Es'.
    + destruct Hr as (new & -> & -> & N1 & N2 & N3 & [_ Q1 Q2 Q3]). simpl in *. split_and!; try done; lia.
Qed.
(** Without a base fee only the empty block is processed. *)
Lemma Process_nil_fee header txs s fuel r : london_chain header → BaseFee header = None →
  0 ≤ GasLimit header → 200 * GasLimit header < two64 → (∀ s, ∃ s', Finalize header s = Ret s') →
  Process fuel header txs s = Ret (inr r) → txs = [] ∧ ∃ s', r = ([], [], 0, s').
Proof.
  intros Hc Hn H1 H2 HF. destruct (block_env_total header None Hc) as (env & Ee & _ & Hl & Efee & _). rewrite Hn in Efee.
  rewrite (Process_eq header txs s fuel env Hc Ee H1 H2). destruct txs as [|[tx c] txs]; cbn [process_txs].
  { cbn [mbind outcome_bind]. destruct (HF s) as [s' Es']. cbn [pr_evm evm_StateDB pr_usedGas]. rewrite Es'. intros [= <-]. eauto. }
  destruct (AsMessage _ _ _ _).1 as [msg|e|w]; try discriminate. unfold applyTransaction.
  destruct (ApplyMessage _ _ _ _ _ _) as [[r' st]| |] eqn:E; cbn [mbind outcome_bind]; try discriminate.
  apply (ApplyMessage_nil_fee (tx_env msg env)) in E as [e ->]; [discriminate|apply (ln_London _ Hl)|exact Efee].
Qed.


(** C9: The receipts of a processed block add up. There is one per transaction,
    in order and with its hash; none has used more than its gas limit; the
    cumulative gas of each is the sum up to it; the gas used by the block is the
    sum of all, which does not exceed the block's limit; and the logs are those
    of the receipts. The conditions are those of [london_chain], a gas limit below
    2^64/200 and an engine whose Finalize returns. *)
Theorem Process_receipts header txs s fuel rs ls used s' : london_chain header → between db s →
  Forall (λ tx, tx_fits tx.1) txs → 0 ≤ GasLimit header → 200 * GasLimit header < two64 → GasLimit header < Z.of_nat fuel →
  (∀ s, ∃ s', Finalize header s = Ret s') → Process fuel header txs s = Ret (inr (rs, ls, used, s')) →
  Forall2 receipt_of txs rs ∧ cumulative 0 rs ∧ used = total_gas rs ∧ used ≤ GasLimit header ∧ ls = concat (rc_Logs <$> rs).
Proof.
  intros Hc Hb Ht H1 H2 Hf HF E. destruct (BaseFee header) as [fee|] eqn:Efee.
  - destruct (Process_total header txs s fuel) as (r & Hr & Hq); try done.
    rewrite (Hr fuel (Nat.le_refl _)) in E. injection E as ->. exact Hq.
  - destruct (Process_nil_fee header txs s fuel _ Hc Efee H1 H2 HF E) as [-> [s1 [= -> -> -> _]]]. by split_and!; [constructor|..].
Qed.
End Results.

(** ** The block validator (core/block_validator.go) *)

Section Validator.
Context `{Crypto}.
(** [ValidateState]; the roots are those of the tries of the receipts and of the state. *)
Definition ValidateState (header : Header) (receipts : list Receipt) (receiptSha root : Hash) (usedGas : Z) : result unit :=
  _ ← fail_if (negb (GasUsed header =? usedGas)) (Errorf "invalid gas used (remote: %d local: %d)" [GasUsed header; usedGas]);
  let rbloom := of_be (z2b <$> CreateBloom receipts) in
  _ ← fail_if (negb (rbloom =? Bloom header)) (Errorf "invalid bloom (remote: %x  local: %x)" [Bloom header; rbloom]);
  _ ← fail_if (negb (receiptSha =? ReceiptHash header)) (Errorf "invalid receipt root hash (remote: %x local: %x)" [ReceiptHash header; receiptSha]);
  fail_if (negb (Root header =? root)) (Errorf "invalid merkle root (remote: %x local: %x)" [Root header; root]).
End Validator.

Definition CalcGasLimit (parentGasLimit desiredLimit : Z) : Z :=
  let delta := sub64 (parentGasLimit / GasLimitBoundDivisor) 1 in
  let desiredLimit := if desiredLimit <? MinGasLimit then MinGasLimit else desiredLimit in
  if parentGasLimit <? desiredLimit then
    let limit := add64 parentGasLimit delta in
    if desiredLimit <? limit then desiredLimit else limit
  else if desiredLimit <? parentGasLimit then
    let limit := sub64 parentGasLimit delta in
    if limit <? desiredLimit then desiredLimit else limit
  else parentGasLimit.

(** A block made with the gas limit the miner computes passes the check of
    the limit against its parent, whatever limit the miner wants, and the new
    limit lies between the parent's and the wanted one. *)
Theorem CalcGasLimit_valid parent desired : MinGasLimit ≤ parent ≤ MaxGasLimit → 0 ≤ desired ≤ MaxGasLimit →
  is_ok (VerifyGaslimit parent (CalcGasLimit parent desired)) = true ∧
  Z.min parent (Z.max desired MinGasLimit) ≤ CalcGasLimit parent desired ≤ Z.max parent (Z.max desired MinGasLimit).
Proof.
  intros Hp Hd.
  assert (Hr : Z.abs (parent - CalcGasLimit parent desired) < parent / GasLimitBoundDivisor ∧ MinGasLimit ≤ CalcGasLimit parent desired ∧
    Z.min parent (Z.max desired MinGasLimit) ≤ CalcGasLimit parent desired ≤ Z.max parent (Z.max desired MinGasLimit)).
  { unfold CalcGasLimit, GasLimitBoundDivisor, MinGasLimit, MaxGasLimit in *.
    pose proof (Z.div_le_mono 5000 parent 1024 ltac:(lia) ltac:(lia)) as Hlo. pose proof (Z.mul_div_le parent 1024 ltac:(lia)) as Hhi.
    change (5000 / 1024) with 4 in Hlo. rewrite (sub64_small (parent / 1024)) by (unfold is_u64, two64; lia).
    rewrite add64_small, sub64_small by (unfold is_u64, two64; lia).
    assert ((if desired <? 5000 then 5000 else desired) = Z.max desired 5000) as -> by (destruct (Z.ltb_spec desired 5000); lia).
    repeat match goal with |- context [?a <? ?b] => destruct (Z.ltb_spec a b) end; lia. }
  destruct Hr as (R1 & R2 & R3). split; [|done].
  apply VerifyGaslimit_ok; unfold MinGasLimit, MaxGasLimit in *; [lia|lia|done].
Qed.
Lemma CalcGasLimit_valid_witness : is_ok (VerifyGaslimit 8000000 (CalcGasLimit 8000000 30000000)) = true ∧
  CalcGasLimit 8000000 30000000 = 8007811.
Proof.
  split; [|vm_compute; reflexivity].
  refine (proj1 (CalcGasLimit_valid 8000000 30000000 _ _)); unfold MinGasLimit, MaxGasLimit; lia.
Defined.

(** One transfer of 7 to the contract that writes a slot, in a block of the
    Ferminux chain. *)
Module ProcessorDemo.
Import StateDemo EvmDemo.
Definition header : Header :=
  MkHeader 1 0 0 0 0 0 0 (Some 2) (Some 1) 100000 0 10 [] 0 0 (Some 7).
Definition tx : Transaction := DynamicFee (MkDynamicFee 3961 0 2 9 60000 (Some payee) 7 [Byte.x00; Byte.x01] [] 0 0 0).
(** A signature the node has checked before: the sender is cached. *)
Definition txs : list (Transaction * option (Signer * Address)) := [(tx, Some (londonSigner 3961, sender))].
Notation process_of txs fuel :=
  (Process backend FerminuxChainConfig (λ _ _, None) (λ _, Ok 0) (λ _ s, Ret s) (λ _ _, 0) (λ _ s, (0, s)) false false
    fuel header txs before).
Notation process fuel := (process_of txs fuel).
Lemma chain : london_chain backend FerminuxChainConfig (λ _ _, None) (λ _, Ok 0) header.
Proof.
  split; try done; by eexists.
Qed.
Lemma before_between : between backend before.
Proof.
  split; [apply state_reachable_ok, before_reachable|apply before_unwritten|exact before_codes|exact before_refund].
Qed.
Lemma txs_fit : Forall (λ tx, tx_fits tx.1) txs.
Proof. repeat constructor; try done. Qed.
Definition view (m : outcome (processError + list Receipt * list Log * Z * StateDB)) :=
  match m with
  | Ret (inr (rs, ls, used, s)) => Some (rc_GasUsed <$> rs, rc_Status <$> rs, used, (GetState backend payee 5 s).1)
  | _ => None
  end.
Definition gas : nat := Z.to_nat 100001.
Lemma process_runs : view (process gas) = Some ([43126], [1], 43126, 42).
Proof. vm_compute. reflexivity. Qed.
Lemma limits : 0 ≤ GasLimit header ∧ 200 * GasLimit header < two64 ∧ GasLimit header < Z.of_nat gas.
Proof. unfold gas. cbn [GasLimit header]. unfold two64. lia. Qed.
Lemma finalize_runs (s : StateDB) : ∃ s', Ret s = Ret s'.
Proof. by exists s. Qed.
Lemma view_Ret m a b c d : view m = Some (a, b, c, d) → ∃ rs ls s, m = Ret (inr (rs, ls, c, s)).
Proof. destruct m as [[e|[[[rs ls] used] s]]| |]; simpl; intros [=]; subst; eauto. Qed.
End ProcessorDemo.
Import StateDemo EvmDemo ProcessorDemo.

Lemma Process_receipts_witness : ∃ rs ls s', process gas = Ret (inr (rs, ls, 43126, s')) ∧
  Forall2 receipt_of txs rs ∧ cumulative 0 rs ∧ 43126 = total_gas rs.
Proof.
  destruct (view_Ret _ _ _ _ _ process_runs) as (rs & ls & s' & E). exists rs, ls, s'. split; [exact E|].
  destruct (Process_receipts backend FerminuxChainConfig (λ _ _, None) (λ _, Ok 0) (λ _ s, Ret s) (λ _ _, 0) (λ _ s, (0, s)) false false
    header txs before gas rs ls 43126 s' chain before_between txs_fit (proj1 limits) (proj1 (proj2 limits)) (proj2 (proj2 limits))
    finalize_runs E) as (H1 & H2 & H3 & _).
  split; [exact H1|]. split; [exact H2|exact H3].
Defined.
