(* ===== verification/TxPool.v ===== *)
(** * The transaction pool (chain/core/tx_pool.go, tx_noncer.go)

    Every transaction the node knows and no block has: executable ones by account
    in [pending], later ones in [queue], all of them in the lookup set and, if
    they are remote, in the price heaps. The operations take the pool lock, so
    they are sequences of their effects here; each is a function on the pool that
    also may panic. What they read from the chain (blocks, the state at a root)
    and the order in which Go walks its maps are parameters; the clock is an
    argument. Metrics, logs and gauges are left out; the journal of local
    transactions and the event feed are the lists of what was sent to them. *)

From S2P Require Import Prelude Bytes Rlp Types Params Misc Heap Transaction TxList TxListRefine TxPriced StateTransition.

(** ** Errors *)

Definition ErrAlreadyKnown := New "already known".
Definition ErrInvalidSender := New "invalid sender".
Definition ErrUnderpriced := New "transaction underpriced".
Definition ErrTxPoolOverflow := New "txpool is full".
Definition ErrReplaceUnderpriced := New "replacement transaction underpriced".
Definition ErrGasLimit := New "exceeds block gas limit".
Definition ErrNegativeValue := New "negative value".
Definition ErrOversizedData := New "oversized data".
(** The sentinels of core/error.go the pool returns. *)
Definition pool_ErrTxTypeNotSupported := New "transaction type not supported".
Definition pool_ErrFeeCapVeryHigh := New "max fee per gas higher than 2^256-1".
Definition pool_ErrTipVeryHigh := New "max priority fee per gas higher than 2^256-1".
Definition pool_ErrTipAboveFeeCap := New "max priority fee per gas higher than max fee per gas".
Definition pool_ErrNonceTooLow := New "nonce too low".
Definition pool_ErrInsufficientFunds := New "insufficient funds for gas * price + value".
Definition pool_ErrGasUintOverflow := New "gas uint64 overflow".
Definition pool_ErrIntrinsicGas := New "intrinsic gas too low".

(** ** Configuration *)

Record TxPoolConfig := MkPoolConfig {
  Locals : list Address;
  NoLocals : bool;
  Journal : bool;      (* whether a journal file is named *)
  Rejournal : Z;
  PriceLimit : Z;
  PriceBump : Z;
  AccountSlots : Z;
  GlobalSlots : Z;
  AccountQueue : Z;
  GlobalQueue : Z;
  Lifetime : Z
}.

Definition second : Z := 10 ^ 9.
Definition DefaultTxPoolConfig : TxPoolConfig := {|
  Locals := []; NoLocals := false; Journal := true; Rejournal := 3600 * second;
  PriceLimit := 1; PriceBump := 10;
  AccountSlots := 16; GlobalSlots := 4096 + 1024; AccountQueue := 64; GlobalQueue := 1024;
  Lifetime := 3 * 3600 * second |}.

Definition sanitize (c : TxPoolConfig) : TxPoolConfig := {|
  Locals := Locals c; NoLocals := NoLocals c; Journal := Journal c;
  Rejournal := if Rejournal c <? second then second else Rejournal c;
  PriceLimit := if PriceLimit c <? 1 then PriceLimit DefaultTxPoolConfig else PriceLimit c;
  PriceBump := if PriceBump c <? 1 then PriceBump DefaultTxPoolConfig else PriceBump c;
  AccountSlots := if AccountSlots c <? 1 then AccountSlots DefaultTxPoolConfig else AccountSlots c;
  GlobalSlots := if GlobalSlots c <? 1 then GlobalSlots DefaultTxPoolConfig else GlobalSlots c;
  AccountQueue := if AccountQueue c <? 1 then AccountQueue DefaultTxPoolConfig else AccountQueue c;
  GlobalQueue := if GlobalQueue c <? 1 then GlobalQueue DefaultTxPoolConfig else GlobalQueue c;
  Lifetime := if Lifetime c <? 1 then Lifetime DefaultTxPoolConfig else Lifetime c |}.

(** ** The state of the pool *)

(** What the pool reads from the state of the head block. *)
Record HeadState := MkHead { hs_nonce : Address → Z; hs_balance : Address → Z }.

(** [txNoncer]. *)
Record txNoncer := MkNoncer { nc_fallback : HeadState; nc_nonces : gmap Address Z }.
Definition newTxNoncer (s : HeadState) : txNoncer := MkNoncer s ∅.
Definition nc_fill (a : Address) (n : txNoncer) : txNoncer :=
  match nc_nonces n !! a with
  | Some _ => n
  | None => MkNoncer (nc_fallback n) (<[a := hs_nonce (nc_fallback n) a]> (nc_nonces n))
  end.
Definition nc_get (a : Address) (n : txNoncer) : Z * txNoncer :=
  let n := nc_fill a n in (default 0 (nc_nonces n !! a), n).
Definition nc_set (a : Address) (nonce : Z) (n : txNoncer) : txNoncer :=
  MkNoncer (nc_fallback n) (<[a := nonce]> (nc_nonces n)).
Definition nc_setIfLower (a : Address) (nonce : Z) (n : txNoncer) : txNoncer :=
  let n := nc_fill a n in
  if default 0 (nc_nonces n !! a) <=? nonce then n else nc_set a nonce n.
Definition nc_setAll (all : gmap Address Z) (n : txNoncer) : txNoncer := MkNoncer (nc_fallback n) all.

Record TxPool := MkPool {
  gasPrice : Z;
  istanbul : bool; eip2718 : bool; eip1559 : bool;
  currentState : HeadState;
  pendingNonces : txNoncer;
  currentMaxGas : Z;
  locals : gset Address;
  journal : option (list Transaction);
  pending : gmap Address txList;
  queue : gmap Address txList;
  beats : gmap Address Z;
  all : txLookup;
  priced : txPricedList;
  changesSinceReorg : Z;
  txEvents : list Transaction
}.

Definition upd_nonces (f : txNoncer → txNoncer) (p : TxPool) : TxPool :=
  MkPool (gasPrice p) (istanbul p) (eip2718 p) (eip1559 p) (currentState p) (f (pendingNonces p)) (currentMaxGas p)
    (locals p) (journal p) (pending p) (queue p) (beats p) (all p) (priced p) (changesSinceReorg p) (txEvents p).
Definition upd_pending (f : gmap Address txList → gmap Address txList) (p : TxPool) : TxPool :=
  MkPool (gasPrice p) (istanbul p) (eip2718 p) (eip1559 p) (currentState p) (pendingNonces p) (currentMaxGas p)
    (locals p) (journal p) (f (pending p)) (queue p) (beats p) (all p) (priced p) (changesSinceReorg p) (txEvents p).
Definition upd_queue (f : gmap Address txList → gmap Address txList) (p : TxPool) : TxPool :=
  MkPool (gasPrice p) (istanbul p) (eip2718 p) (eip1559 p) (currentState p) (pendingNonces p) (currentMaxGas p)
    (locals p) (journal p) (pending p) (f (queue p)) (beats p) (all p) (priced p) (changesSinceReorg p) (txEvents p).
Definition upd_beats (f : gmap Address Z → gmap Address Z) (p : TxPool) : TxPool :=
  MkPool (gasPrice p) (istanbul p) (eip2718 p) (eip1559 p) (currentState p) (pendingNonces p) (currentMaxGas p)
    (locals p) (journal p) (pending p) (queue p) (f (beats p)) (all p) (priced p) (changesSinceReorg p) (txEvents p).
Definition upd_all (f : txLookup → txLookup) (p : TxPool) : TxPool :=
  MkPool (gasPrice p) (istanbul p) (eip2718 p) (eip1559 p) (currentState p) (pendingNonces p) (currentMaxGas p)
    (locals p) (journal p) (pending p) (queue p) (beats p) (f (all p)) (priced p) (changesSinceReorg p) (txEvents p).
Definition set_priced (pr : txPricedList) (p : TxPool) : TxPool :=
  MkPool (gasPrice p) (istanbul p) (eip2718 p) (eip1559 p) (currentState p) (pendingNonces p) (currentMaxGas p)
    (locals p) (journal p) (pending p) (queue p) (beats p) (all p) pr (changesSinceReorg p) (txEvents p).
Definition set_locals (l : gset Address) (p : TxPool) : TxPool :=
  MkPool (gasPrice p) (istanbul p) (eip2718 p) (eip1559 p) (currentState p) (pendingNonces p) (currentMaxGas p)
    l (journal p) (pending p) (queue p) (beats p) (all p) (priced p) (changesSinceReorg p) (txEvents p).
Definition set_journal (j : option (list Transaction)) (p : TxPool) : TxPool :=
  MkPool (gasPrice p) (istanbul p) (eip2718 p) (eip1559 p) (currentState p) (pendingNonces p) (currentMaxGas p)
    (locals p) j (pending p) (queue p) (beats p) (all p) (priced p) (changesSinceReorg p) (txEvents p).
Definition set_changes (n : Z) (p : TxPool) : TxPool :=
  MkPool (gasPrice p) (istanbul p) (eip2718 p) (eip1559 p) (currentState p) (pendingNonces p) (currentMaxGas p)
    (locals p) (journal p) (pending p) (queue p) (beats p) (all p) (priced p) n (txEvents p).
Definition set_events (e : list Transaction) (p : TxPool) : TxPool :=
  MkPool (gasPrice p) (istanbul p) (eip2718 p) (eip1559 p) (currentState p) (pendingNonces p) (currentMaxGas p)
    (locals p) (journal p) (pending p) (queue p) (beats p) (all p) (priced p) (changesSinceReorg p) e.
Definition set_gasPrice (g : Z) (p : TxPool) : TxPool :=
  MkPool g (istanbul p) (eip2718 p) (eip1559 p) (currentState p) (pendingNonces p) (currentMaxGas p)
    (locals p) (journal p) (pending p) (queue p) (beats p) (all p) (priced p) (changesSinceReorg p) (txEvents p).
Definition set_head (s : HeadState) (maxGas : Z) (p : TxPool) : TxPool :=
  MkPool (gasPrice p) (istanbul p) (eip2718 p) (eip1559 p) s (newTxNoncer s) maxGas
    (locals p) (journal p) (pending p) (queue p) (beats p) (all p) (priced p) (changesSinceReorg p) (txEvents p).
Definition set_forks (i b l : bool) (p : TxPool) : TxPool :=
  MkPool (gasPrice p) i b l (currentState p) (pendingNonces p) (currentMaxGas p)
    (locals p) (journal p) (pending p) (queue p) (beats p) (all p) (priced p) (changesSinceReorg p) (txEvents p).

(** ** Operations on the pool, which may panic *)

Definition pool_m (A : Type) : Type := TxPool → result (A * TxPool).
#[export] Instance pool_ret : MRet pool_m := fun A a p => Ok (a, p).
#[export] Instance pool_bind : MBind pool_m := fun A B f m p =>
  match m p with Ok (a, p) => f a p | Err e => Err e | Panic w => Panic w end.

Definition gets {A} (f : TxPool → A) : pool_m A := fun p => Ok (f p, p).
Definition modify (f : TxPool → TxPool) : pool_m unit := fun p => Ok (tt, f p).
Definition run {A} (r : result A) : pool_m A := fun p =>
  match r with Ok a => Ok (a, p) | Err e => Err e | Panic w => Panic w end.
Definition when (b : bool) (m : pool_m unit) : pool_m unit := if b then m else mret tt.
Fixpoint each {A} (l : list A) (f : A → pool_m unit) : pool_m unit :=
  match l with [] => mret tt | x :: l => _ ← f x; each l f end.

(** A transaction list that is looked up and used must be there. *)
Definition the_list (m : TxPool → gmap Address txList) (a : Address) : pool_m txList := fun p =>
  match m p !! a with Some l => Ok (l, p) | None => Panic "nil pointer dereference" end.

(** [addressesByHeartbeat], latest first. *)
Definition later (a b : Address * Z) : Prop := b.2 ≤ a.2.
#[export] Instance later_dec a b : Decision (later a b).
Proof. unfold later. apply _. Defined.

(** ** The pool *)

Section Pool.
Context `{Crypto} (config : TxPoolConfig) (chainconfig : ChainConfig) (signer : Signer).
(** Iteration over maps and sets, in some order. *)
Context (range : gmap Z Transaction → list (Z * Transaction)) (accounts : gmap Address txList → list Address)
  (flatten : gset Address → list Address).

(** [types.Sender]; where the error is dropped the address is zero. *)
Definition pool_sender (tx : Transaction) : result Address := Signer_Sender signer tx.
Definition from_of (tx : Transaction) : Address := match pool_sender tx with Ok a => a | _ => 0 end.
Definition containsTx (s : gset Address) (tx : Transaction) : bool :=
  match pool_sender tx with Ok a => bool_decide (a ∈ s) | _ => false end.
Definition addTx (tx : Transaction) (s : gset Address) : gset Address :=
  match pool_sender tx with Ok a => {[a]} ∪ s | _ => s end.

(** [pool.priced.Removed(n)]. *)
Definition removed (n : nat) : pool_m unit := fun p =>
  match Removed range n (all p) (priced p) with
  | Ok pr => Ok (tt, set_priced pr p)
  | Err e => Err e
  | Panic w => Panic w
  end.
Definition forget (tx : Transaction) : pool_m unit := modify (upd_all (lk_Remove (tx_Hash tx))).

(** [validateTx]: nil is None. *)
Definition validateTx (tx : Transaction) (local : bool) (p : TxPool) : option error :=
  if negb (eip2718 p) && negb (tx_Type tx =? LegacyTxType) then Some pool_ErrTxTypeNotSupported
  else if negb (eip1559 p) && (tx_Type tx =? DynamicFeeTxType) then Some pool_ErrTxTypeNotSupported
  else if txMaxSize <? tx_Size tx then Some ErrOversizedData
  else if tx_Value tx <? 0 then Some ErrNegativeValue
  else if currentMaxGas p <? tx_Gas tx then Some ErrGasLimit
  else if 256 <? big_BitLen (Z.abs (tx_GasFeeCap tx)) then Some pool_ErrFeeCapVeryHigh
  else if 256 <? big_BitLen (Z.abs (tx_GasTipCap tx)) then Some pool_ErrTipVeryHigh
  else if cmp_lt (GasFeeCapIntCmp tx (tx_GasTipCap tx)) then Some pool_ErrTipAboveFeeCap
  else
    match pool_sender tx with
    | Ok from =>
        if negb local && cmp_lt (GasTipCapIntCmp tx (gasPrice p)) then Some ErrUnderpriced
        else if tx_Nonce tx <? hs_nonce (currentState p) from then Some pool_ErrNonceTooLow
        else if hs_balance (currentState p) from <? Cost tx then Some pool_ErrInsufficientFunds
        else
          match IntrinsicGas (tx_Data tx) (tx_AccessList tx) (bool_decide (tx_To tx = None)) true (istanbul p) with
          | None => Some pool_ErrGasUintOverflow
          | Some intrGas => if tx_Gas tx <? intrGas then Some pool_ErrIntrinsicGas else None
          end
    | _ => Some ErrInvalidSender
    end.

(** [enqueueTx]: whether an older transaction was replaced, or the error. *)
Definition enqueueTx (now : Z) (tx : Transaction) (local addAll : bool) : pool_m (error + bool) :=
  let from := from_of tx in
  list ← gets (λ p, default (newTxList false) (queue p !! from));
  let '(inserted, old, list) := tl_Add tx (PriceBump config) list in
  _ ← modify (upd_queue <[from := list]>);
  if negb inserted then mret (inl ErrReplaceUnderpriced)
  else
    _ ← match old with
        | Some old => _ ← forget old; removed 1
        | None => mret tt
        end;
    _ ← when addAll (
      _ ← modify (upd_all (lk_Add tx local));
      modify (λ p, set_priced (pl_Put tx local (priced p)) p));
    known ← gets (λ p, beats p !! from);
    _ ← match known with None => modify (upd_beats <[from := now]>) | Some _ => mret tt end;
    mret (inr (match old with Some _ => true | None => false end)).

(** [journalTx]. *)
Definition journalTx (from : Address) (tx : Transaction) : pool_m unit :=
  modify (λ p, match journal p with
    | Some j => if bool_decide (from ∈ locals p) then set_journal (Some (j ++ [tx])) p else p
    | None => p
    end).

(** [promoteTx]. *)
Definition promoteTx (now : Z) (addr : Address) (tx : Transaction) : pool_m bool :=
  list ← gets (λ p, default (newTxList true) (pending p !! addr));
  let '(inserted, old, list) := tl_Add tx (PriceBump config) list in
  _ ← modify (upd_pending <[addr := list]>);
  if negb inserted then
    _ ← forget tx; _ ← removed 1; mret false
  else
    _ ← match old with
        | Some old => _ ← forget old; removed 1
        | None => mret tt
        end;
    _ ← modify (upd_nonces (nc_set addr (add64 (tx_Nonce tx) 1)));
    _ ← modify (upd_beats <[addr := now]>);
    mret true.

(** [removeTx]: from the pending list of the sender, what comes after it going
    back to the queue, and from the queued list. *)
Definition remove_pending (now : Z) (tx : Transaction) : pool_m bool :=
  let addr := from_of tx in
  pend ← gets (λ p, pending p !! addr);
  match pend with
  | None => mret false
  | Some list =>
      '(found, invalids, list) ← run (tl_Remove range tx list);
      _ ← modify (upd_pending <[addr := list]>);
      if negb found then mret false
      else
        _ ← when (tl_Empty list) (modify (upd_pending (delete addr)));
        _ ← each invalids (λ tx, _ ← enqueueTx now tx false false; mret tt);
        _ ← modify (upd_nonces (nc_setIfLower addr (tx_Nonce tx)));
        mret true
  end.
Definition remove_queued (tx : Transaction) : pool_m unit :=
  let addr := from_of tx in
  future ← gets (λ p, queue p !! addr);
  match future with
  | None => mret tt
  | Some list =>
      '(_, _, list) ← run (tl_Remove range tx list);
      _ ← modify (upd_queue <[addr := list]>);
      when (tl_Empty list) (
        _ ← modify (upd_queue (delete addr)); modify (upd_beats (delete addr)))
  end.
Definition removeTx (now : Z) (hash : Hash) (outofbound : bool) : pool_m unit :=
  known ← gets (λ p, lk_Get hash (all p));
  match known with
  | None => mret tt
  | Some tx =>
      _ ← modify (upd_all (lk_Remove hash));
      _ ← when outofbound (removed 1);
      found ← remove_pending now tx;
      when (negb found) (remove_queued tx)
  end.

(** [add]: the room made in a full pool, unless the newcomer is the cheapest. The
    result is an error, or nothing. *)
Definition discard_for (now : Z) (tx : Transaction) (isLocal : bool) : pool_m (option error) :=
  throttled ← gets (λ p, GlobalSlots config / 4 <? changesSinceReorg p);
  if (throttled : bool) then mret (Some ErrTxPoolOverflow)
  else
    '(drop, success) ← (fun p =>
      '(drop, success, pr) ← pl_Discard (all p)
         (lk_slots (all p) - i64 (add64 (GlobalSlots config) (GlobalQueue config)) + numSlots tx) isLocal (priced p);
      Ok ((drop, success), set_priced pr p));
    if negb isLocal && negb success then mret (Some ErrTxPoolOverflow)
    else
      _ ← modify (λ p, set_changes (changesSinceReorg p + zlen drop) p);
      _ ← each drop (λ tx, removeTx now (tx_Hash tx) false);
      mret None.
Definition make_room (now : Z) (tx : Transaction) (isLocal : bool) : pool_m (option error) :=
  full ← gets (λ p, add64 (GlobalSlots config) (GlobalQueue config) <? lk_slots (all p) + numSlots tx);
  if negb full then mret None
  else
    under ← (if isLocal then mret false
             else fun p => '(b, pr) ← Underpriced (all p) tx (priced p); Ok (b, set_priced pr p));
    if (under : bool) then mret (Some ErrUnderpriced) else discard_for now tx isLocal.

(** [add], when the nonce is pending already. *)
Definition add_pending (now : Z) (tx : Transaction) (isLocal : bool) (list : txList) : pool_m (error + bool) :=
  let from := from_of tx in
  let '(inserted, old, list) := tl_Add tx (PriceBump config) list in
  _ ← modify (upd_pending <[from := list]>);
  if negb inserted then mret (inl ErrReplaceUnderpriced)
  else
    _ ← match old with
        | Some old => _ ← forget old; removed 1
        | None => mret tt
        end;
    _ ← modify (upd_all (lk_Add tx isLocal));
    _ ← modify (λ p, set_priced (pl_Put tx isLocal (priced p)) p);
    _ ← journalTx from tx;
    _ ← modify (λ p, set_events (txEvents p ++ [tx]) p);
    _ ← modify (upd_beats <[from := now]>);
    mret (inr (match old with Some _ => true | None => false end)).

(** [add], when it is not. *)
Definition add_queued (now : Z) (tx : Transaction) (local isLocal : bool) : pool_m (error + bool) :=
  let from := from_of tx in
  r ← enqueueTx now tx isLocal true;
  match r with
  | inl e => mret (inl e)
  | inr replaced =>
      fresh ← gets (λ p, local && negb (bool_decide (from ∈ locals p)));
      _ ← when fresh (
        _ ← modify (λ p, set_locals ({[from]} ∪ locals p) p);
        n ← (fun p => let '(n, a) := RemoteToLocals (containsTx (locals p)) (all p) in Ok (n, upd_all (λ _, a) p));
        removed n);
      _ ← journalTx from tx;
      mret (inr replaced)
  end.

(** [add]. *)
Definition add (now : Z) (tx : Transaction) (local : bool) : pool_m (error + bool) :=
  known ← gets (λ p, lk_Get (tx_Hash tx) (all p));
  match known with
  | Some _ => mret (inl ErrAlreadyKnown)
  | None =>
      isLocal ← gets (λ p, local || containsTx (locals p) tx);
      invalid ← gets (validateTx tx isLocal);
      match invalid with
      | Some e => mret (inl e)
      | None =>
          refused ← make_room now tx isLocal;
          match refused with
          | Some e => mret (inl e)
          | None =>
              pend ← gets (λ p, pending p !! from_of tx);
              match pend with
              | Some list => if Overlaps tx list then add_pending now tx isLocal list else add_queued now tx local isLocal
              | None => add_queued now tx local isLocal
              end
          end
      end
  end.

(** ** Batches *)

(** [addTxsLocked]: the errors, and the accounts with a new executable nonce. *)
Fixpoint addTxsLocked (now : Z) (txs : list Transaction) (local : bool) : pool_m (list (option error) * gset Address) :=
  match txs with
  | [] => mret ([], ∅)
  | tx :: txs =>
      r ← add now tx local;
      '(errs, dirty) ← addTxsLocked now txs local;
      mret (match r with
        | inl e => (Some e :: errs, dirty)
        | inr replaced => (None :: errs, if (replaced : bool) then dirty else addTx tx dirty)
        end)
  end.

(** [addTxs]: what is refused without the lock. *)
Definition precheck (p : TxPool) (tx : Transaction) : option error :=
  match lk_Get (tx_Hash tx) (all p) with
  | Some _ => Some ErrAlreadyKnown
  | None => match pool_sender tx with Ok _ => None | _ => Some ErrInvalidSender end
  end.
(** The errors of the others go to the free slots, [nilSlot] the next to try. *)
Fixpoint free_slot (fuel : nat) (errs : list (option error)) (nilSlot : nat) : result nat :=
  match fuel, errs !! nilSlot with
  | _, None => Panic "index out of range"
  | S fuel, Some (Some _) => free_slot fuel errs (S nilSlot)
  | _, Some _ => Ok nilSlot
  end.
Fixpoint merge_errs (errs newErrs : list (option error)) (nilSlot : nat) : result (list (option error)) :=
  match newErrs with
  | [] => Ok errs
  | err :: newErrs =>
      nilSlot ← free_slot (length errs) errs nilSlot;
      merge_errs (<[nilSlot := err]> errs) newErrs (S nilSlot)
  end.
(** The accounts go to [requestPromoteExecutables]. *)
Definition addTxs (now : Z) (txs : list Transaction) (local : bool) : pool_m (list (option error) * gset Address) :=
  errs ← gets (λ p, precheck p <$> txs);
  news ← gets (λ p, filter (λ tx, precheck p tx = None) txs);
  match news with
  | [] => mret (errs, ∅)
  | _ =>
      '(newErrs, dirty) ← addTxsLocked now news local;
      errs ← run (merge_errs errs newErrs 0);
      mret (errs, dirty)
  end.
Definition AddLocals (now : Z) (txs : list Transaction) := addTxs now txs (negb (NoLocals config)).
Definition AddRemotes (now : Z) (txs : list Transaction) := addTxs now txs false.

(** ** Promotion and demotion *)

(** [promoteExecutables]: the ready transactions of an account, and the account;
    the transactions promoted. *)
Fixpoint promote_all (now : Z) (addr : Address) (txs : list Transaction) : pool_m (list Transaction) :=
  match txs with
  | [] => mret []
  | tx :: txs =>
      ok ← promoteTx now addr tx;
      rest ← promote_all now addr txs;
      mret (if (ok : bool) then tx :: rest else rest)
  end.
Definition promote_account (now : Z) (addr : Address) : pool_m (list Transaction) :=
  known ← gets (λ p, queue p !! addr);
  match known with
  | None => mret []
  | Some list =>
      nonce ← gets (λ p, hs_nonce (currentState p) addr);
      '(forwards, list) ← run (tl_Forward nonce list);
      _ ← each forwards forget;
      limits ← gets (λ p, (hs_balance (currentState p) addr, currentMaxGas p));
      let '(drops, _, list) := tl_Filter range limits.1 limits.2 list in
      _ ← each drops forget;
      next ← (fun p => let '(n, nc) := nc_get addr (pendingNonces p) in Ok (n, upd_nonces (λ _, nc) p));
      '(readies, list) ← run (tl_Ready next list);
      promoted ← promote_all now addr readies;
      local ← gets (λ p, bool_decide (addr ∈ locals p));
      '(caps, list) ← (if (local : bool) then mret ([], list) else run (tl_Cap (i64 (AccountQueue config)) list));
      _ ← each caps forget;
      _ ← removed (length forwards + length drops + length caps);
      _ ← modify (upd_queue <[addr := list]>);
      _ ← when (tl_Empty list) (
        _ ← modify (upd_queue (delete addr)); modify (upd_beats (delete addr)));
      mret promoted
  end.
Fixpoint promoteExecutables (now : Z) (addrs : list Address) : pool_m (list Transaction) :=
  match addrs with
  | [] => mret []
  | addr :: addrs =>
      promoted ← promote_account now addr;
      rest ← promoteExecutables now addrs;
      mret (promoted ++ rest)
  end.

(** [demoteUnexecutables], one account. *)
Definition requeue (now : Z) (tx : Transaction) : pool_m unit :=
  _ ← enqueueTx now tx false false; mret tt.
Definition demote_account (now : Z) (addr : Address) : pool_m unit :=
  list ← the_list pending addr;
  nonce ← gets (λ p, hs_nonce (currentState p) addr);
  '(olds, list) ← run (tl_Forward nonce list);
  _ ← each olds forget;
  limits ← gets (λ p, (hs_balance (currentState p) addr, currentMaxGas p));
  let '(drops, invalids, list) := tl_Filter range limits.1 limits.2 list in
  _ ← each drops forget;
  _ ← each invalids (requeue now);
  list ← (if negb (tl_Empty list) && match sm_Get nonce (tl_txs list) with None => true | Some _ => false end then
            '(gapped, list) ← run (tl_Cap 0 list);
            _ ← each gapped (requeue now);
            mret list
          else mret list);
  _ ← modify (upd_pending <[addr := list]>);
  when (tl_Empty list) (modify (upd_pending (delete addr))).
Definition demoteUnexecutables (now : Z) : pool_m unit :=
  addrs ← gets (λ p, accounts (pending p));
  each addrs (demote_account now).

(** ** Limits

    The counts are exact: a pool does not hold 2^64 transactions. *)

Definition total (m : gmap Address txList) : Z := map_fold (λ _ l n, Z.of_nat (tl_Len l) + n) 0 m.

(** [list.Cap(list.Len() - 1)] on an account, and what follows from it. *)
Definition drop_last (addr : Address) : pool_m unit :=
  list ← the_list pending addr;
  '(caps, list) ← run (tl_Cap (Z.of_nat (tl_Len list) - 1) list);
  _ ← modify (upd_pending <[addr := list]>);
  _ ← each caps (λ tx, _ ← forget tx; modify (upd_nonces (nc_setIfLower addr (tx_Nonce tx))));
  removed (length caps).
Definition pending_len (addr : Address) : pool_m Z := list ← the_list pending addr; mret (Z.of_nat (tl_Len list)).

(** The inner loop: every account of [from] loses its last transaction, until the
    pool is small enough or [check] is down to [threshold]. *)
Fixpoint equalize (fuel : nat) (from : list Address) (check : Address) (threshold count : Z) : pool_m Z :=
  match fuel with
  | O => run (Panic "out of fuel")
  | S fuel =>
      n ← pending_len check;
      if (GlobalSlots config <? count) && (threshold <? n) then
        _ ← each from drop_last;
        equalize fuel from check threshold (count - zlen from)
      else mret count
  end.

(** The queue of offenders, the longest list first (common/prque). *)
Definition spam_less (a b : Address * Z) : bool := b.2 <? a.2.
Fixpoint offend (fuel : nat) (spammers : list (Address * Z)) (offenders : list Address) (count : Z) : pool_m (list Address * Z) :=
  match fuel with
  | O => run (Panic "out of fuel")
  | S fuel =>
      if (GlobalSlots config <? count) && negb (is_empty spammers) then
        '(offender, spammers) ← run (heap_Pop spam_less spammers);
        match last offenders with
        | None => offend fuel spammers [offender.1] count
        | Some check =>
            threshold ← pending_len offender.1;
            count ← equalize (S (Z.to_nat count)) offenders check threshold count;
            offend fuel spammers (offenders ++ [offender.1]) count
        end
      else mret (offenders, count)
  end.

(** [truncatePending]. *)
Definition truncatePending : pool_m unit :=
  count ← gets (λ p, total (pending p));
  if count <=? GlobalSlots config then mret tt
  else
    spammers ← gets (λ p, foldl (λ h addr,
        match pending p !! addr with
        | Some list =>
            if negb (bool_decide (addr ∈ locals p)) && (AccountSlots config <? Z.of_nat (tl_Len list))
            then heap_Push spam_less (addr, Z.of_nat (tl_Len list)) h else h
        | None => h
        end) [] (accounts (pending p)));
    '(offenders, count) ← offend (S (length spammers)) spammers [] count;
    match last offenders with
    | None => mret tt
    | Some check =>
        if GlobalSlots config <? count then
          _ ← equalize (S (Z.to_nat count)) offenders check (AccountSlots config) count; mret tt
        else mret tt
    end.

(** The loop of [truncateQueue], from the account that was idle the longest. *)
Fixpoint drop_idle (now : Z) (addrs : list Address) (drop : Z) : pool_m unit :=
  match addrs with
  | [] => mret tt
  | addr :: addrs =>
      if drop <=? 0 then mret tt
      else
        list ← the_list queue addr;
        let size := Z.of_nat (tl_Len list) in
        let '(txs, list) := tl_Flatten range list in
        _ ← modify (upd_queue <[addr := list]>);
        if size <=? drop then
          _ ← each txs (λ tx, removeTx now (tx_Hash tx) true);
          drop_idle now addrs (drop - size)
        else
          each (take (Z.to_nat drop) (reverse txs)) (λ tx, removeTx now (tx_Hash tx) true)
  end.
(** [truncateQueue]. *)
Definition truncateQueue (now : Z) : pool_m unit :=
  queued ← gets (λ p, total (queue p));
  if queued <=? GlobalQueue config then mret tt
  else
    addrs ← gets (λ p, reverse (merge_sort later
      ((λ a, (a, default 0 (beats p !! a))) <$> filter (λ a, a ∉ locals p) (accounts (queue p)))).*1);
    drop_idle now addrs (queued - GlobalQueue config).

(** ** Reorganisation *)

Record ChainBlock := MkBlock { cb_header : Header; cb_txs : list Transaction }.
Definition cb_number (b : ChainBlock) : Z := big_Uint64 (default 0 (Number (cb_header b))).

Section Chain.
Context (GetBlock : Hash → Z → option ChainBlock) (StateAt : Hash → result HeadState).

Definition parent_block (b : ChainBlock) : option ChainBlock :=
  GetBlock (ParentHash (cb_header b)) (sub64 (cb_number b) 1).

(** The loops of [reset]: from [b] down to a height, or None if the chain ends. *)
Fixpoint walk_to (fuel : nat) (number : Z) (b : ChainBlock) (txs : list Transaction)
  : result (option (ChainBlock * list Transaction)) :=
  match fuel with
  | O => Panic "out of fuel"
  | S fuel =>
      if number <? cb_number b then
        match parent_block b with
        | None => Ok None
        | Some b' => walk_to fuel number b' (txs ++ cb_txs b)
        end
      else Ok (Some (b, txs))
  end.
Fixpoint walk_both (fuel : nat) (rem add : ChainBlock) (discarded included : list Transaction)
  : result (option (list Transaction * list Transaction)) :=
  match fuel with
  | O => Panic "out of fuel"
  | S fuel =>
      if Header_Hash (cb_header rem) =? Header_Hash (cb_header add) then Ok (Some (discarded, included))
      else
        match parent_block rem with
        | None => Ok None
        | Some rem' =>
            match parent_block add with
            | None => Ok None
            | Some add' => walk_both fuel rem' add' (discarded ++ cb_txs rem) (included ++ cb_txs add)
            end
        end
  end.

(** [types.TxDifference]. *)
Definition TxDifference (a b : list Transaction) : list Transaction :=
  filter (λ tx, tx_Hash tx ∉ tx_Hash <$> b) a.

(** The transactions to inject again, or None when [reset] returns at once. The
    depth is computed in floating point, exactly for numbers below 2^53. *)
Definition reinjected (fuel : nat) (oldHead : option Header) (newHead : Header) : result (option (list Transaction)) :=
  match oldHead with
  | None => Ok (Some [])
  | Some old =>
      if Header_Hash old =? ParentHash newHead then Ok (Some [])
      else
        oldNum ← big_Uint64 <$> deref (Number old);
        newNum ← big_Uint64 <$> deref (Number newHead);
        if 64 <? Z.abs (oldNum - newNum) then Ok (Some [])
        else
          match GetBlock (Header_Hash old) oldNum with
          | None => if oldNum <=? newNum then Ok None else Ok (Some [])
          | Some rem =>
              add ← deref (GetBlock (Header_Hash newHead) newNum);
              down ← walk_to fuel (cb_number add) rem [];
              match down with
              | None => Ok None
              | Some (rem, discarded) =>
                  up ← walk_to fuel (cb_number rem) add [];
                  match up with
                  | None => Ok None
                  | Some (add, included) =>
                      both ← walk_both fuel rem add discarded included;
                      match both with
                      | None => Ok None
                      | Some (discarded, included) => Ok (Some (TxDifference discarded included))
                      end
                  end
              end
          end
  end.

(** [reset]; the new head is given (nil is for tests). *)
Definition reset (fuel : nat) (now : Z) (oldHead : option Header) (newHead : Header) : pool_m unit :=
  again ← run (reinjected fuel oldHead newHead);
  match again with
  | None => mret tt
  | Some reinject =>
      match StateAt (Root newHead) with
      | Ok statedb =>
          _ ← modify (set_head statedb (GasLimit newHead));
          _ ← addTxsLocked now reinject false;
          next ← run (deref (Number newHead));
          let next := Some (next + 1) in
          modify (set_forks (isForked (IstanbulBlock chainconfig) next) (isForked (BerlinBlock chainconfig) next)
            (IsLondon chainconfig next))
      | Err _ => mret tt
      | Panic w => run (Panic w)
      end
  end.

(** ** A reorg run *)

(** [runReorg]: the announcements it sends. [events] are the transactions queued
    for announcement, by account. *)
Definition queue_event (tx : Transaction) (events : gmap Address txSortedMap) : gmap Address txSortedMap :=
  <[from_of tx := sm_Put tx (default newTxSortedMap (events !! from_of tx))]> events.

Fixpoint stale_events (addrs : list Address) (events : gmap Address txSortedMap) : pool_m (gmap Address txSortedMap) :=
  match addrs with
  | [] => mret events
  | addr :: addrs =>
      match events !! addr with
      | None => stale_events addrs events
      | Some m =>
          nonce ← (fun p => let '(n, nc) := nc_get addr (pendingNonces p) in Ok (n, upd_nonces (λ _, nc) p));
          '(_, m) ← run (sm_Forward nonce m);
          stale_events addrs (if (sm_Len m =? 0)%nat then delete addr events else <[addr := m]> events)
      end
  end.

(** The highest pending nonce of every account. *)
Fixpoint highest (addrs : list Address) (nonces : gmap Address Z) : pool_m (gmap Address Z) :=
  match addrs with
  | [] => mret nonces
  | addr :: addrs =>
      list ← the_list pending addr;
      let '(r, list) := tl_LastElement range list in
      _ ← modify (upd_pending <[addr := list]>);
      tx ← run r;
      highest addrs (<[addr := add64 (tx_Nonce tx) 1]> nonces)
  end.

Definition reprice (baseFee : Z) : pool_m unit := fun p =>
  pr ← SetBaseFee range baseFee (all p) (priced p); Ok (tt, set_priced pr p).

(** What a new head asks for after the promotions. *)
Definition after_reset (now : Z) (newHead : Header) : pool_m unit :=
  _ ← demoteUnexecutables now;
  _ ← (if IsLondon chainconfig (Some (default 0 (Number newHead) + 1)) then
         baseFee ← run (CalcBaseFee chainconfig newHead);
         reprice baseFee
       else mret tt);
  addrs ← gets (λ p, accounts (pending p));
  nonces ← highest addrs ∅;
  modify (upd_nonces (nc_setAll nonces)).
Definition runReorg (fuel : nat) (now : Z) (request : option (option Header * Header)) (dirty : option (gset Address))
  (events : gmap Address txSortedMap) : pool_m (list Transaction) :=
  '(promoteAddrs, events) ←
    match request with
    | None => mret (match dirty with Some s => flatten s | None => [] end, events)
    | Some (oldHead, newHead) =>
        _ ← reset fuel now oldHead newHead;
        events ← stale_events (map_to_list events).*1 events;
        addrs ← gets (λ p, accounts (queue p));
        mret (addrs, events)
    end;
  promoted ← promoteExecutables now promoteAddrs;
  _ ← match request with None => mret tt | Some (_, newHead) => after_reset now newHead end;
  _ ← truncatePending;
  _ ← truncateQueue now;
  _ ← modify (set_changes 0);
  let events := foldl (λ ev tx, queue_event tx ev) events promoted in
  mret (concat (map (λ am : Address * txSortedMap, (sm_Flatten range am.2).1) (map_to_list events))).
End Chain.

(** ** Other operations *)

(** [loop]: the eviction tick. *)
Definition evict_account (now : Z) (addr : Address) : pool_m unit :=
  known ← gets (λ p, queue p !! addr);
  stale ← gets (λ p, negb (bool_decide (addr ∈ locals p)) && (Lifetime config <? now - default 0 (beats p !! addr)));
  match known with
  | Some list =>
      if (stale : bool) then
        let '(txs, list) := tl_Flatten range list in
        _ ← modify (upd_queue <[addr := list]>);
        each txs (λ tx, removeTx now (tx_Hash tx) true)
      else mret tt
  | None => mret tt
  end.
Definition evict (now : Z) : pool_m unit :=
  addrs ← gets (λ p, accounts (queue p));
  each addrs (evict_account now).

(** [SetGasPrice]. *)
Definition SetGasPrice (now price : Z) : pool_m unit :=
  old ← gets gasPrice;
  _ ← modify (set_gasPrice price);
  when (old <? price) (
    drop ← gets (λ p, RemotesBelowTip range price (all p));
    _ ← each drop (λ tx, removeTx now (tx_Hash tx) false);
    removed (length drop)).

(** [Nonce], [Stats], [Get], [Has]. *)
Definition pool_Nonce (addr : Address) : pool_m Z := fun p =>
  let '(n, nc) := nc_get addr (pendingNonces p) in Ok (n, upd_nonces (λ _, nc) p).
Definition Stats (p : TxPool) : Z * Z := (total (pending p), total (queue p)).
Definition pool_Get (hash : Hash) (p : TxPool) : option Transaction := lk_Get hash (all p).
Definition Has (hash : Hash) (p : TxPool) : bool := match pool_Get hash p with Some _ => true | None => false end.

(** [Status]. *)
Inductive TxStatus := TxStatusUnknown | TxStatusQueued | TxStatusPending | TxStatusIncluded.
Definition has_nonce (m : gmap Address txList) (from : Address) (nonce : Z) : bool :=
  match m !! from with
  | Some l => match sm_Get nonce (tl_txs l) with Some _ => true | None => false end
  | None => false
  end.
Definition pool_Status (hash : Hash) (p : TxPool) : TxStatus :=
  match pool_Get hash p with
  | None => TxStatusUnknown
  | Some tx =>
      if has_nonce (pending p) (from_of tx) (tx_Nonce tx) then TxStatusPending
      else if has_nonce (queue p) (from_of tx) (tx_Nonce tx) then TxStatusQueued
      else TxStatusUnknown
  end.

(** [ContentFrom], [Pending]: what one account has. *)
Definition list_txs (m : gmap Address txList) (addr : Address) : list Transaction :=
  match m !! addr with Some l => (tl_Flatten range l).1 | None => [] end.
Definition ContentFrom (addr : Address) (p : TxPool) : list Transaction * list Transaction :=
  (list_txs (pending p) addr, list_txs (queue p) addr).
Fixpoint tip_prefix (price : Z) (baseFee : option Z) (txs : list Transaction) : list Transaction :=
  match txs with
  | [] => []
  | tx :: txs =>
      if cmp_lt (EffectiveGasTipIntCmp tx price baseFee) then [] else tx :: tip_prefix price baseFee txs
  end.
Definition PendingFrom (enforceTips : bool) (addr : Address) (p : TxPool) : list Transaction :=
  let txs := list_txs (pending p) addr in
  if enforceTips && negb (bool_decide (addr ∈ locals p))
  then tip_prefix (gasPrice p) (urgent_baseFee (priced p)) txs else txs.

(** [NewTxPool]: the pool before [reset] to the current head. *)
Definition newTxPool (head : HeadState) : TxPool :=
  MkPool (PriceLimit config) false false false head (newTxNoncer head) 0 (list_to_set (Locals config))
    (if negb (NoLocals config) && Journal config then Some [] else None) ∅ ∅ ∅ newTxLookup newTxPricedList 0 [].
End Pool.
