(* ===== verification/TxPoolInv.v ===== *)
(** * Consistency of the transaction pool

    What the pool's own test suite checks after every step
    (validateTxPoolInternals in chain/core/tx_pool_test.go), and more: the
    lookup set holds exactly the transactions of the pending and queued lists,
    each under its hash and in the lists of its sender, no nonce twice; the slot
    counter is right; every remote transaction is in a price heap. Every operation
    of the pool keeps this and returns. *)

From stdpp Require Import functions.
From S2P Require Import Prelude Bytes Rlp Types Params Misc Heap Transaction TxList TxListRefine TxPriced StateTransition TxPool.

(** ** Running operations of the pool *)

(** [wp m Q p]: from the pool [p], [m] returns, and [Q] holds of its result and of
    the pool it leaves. *)
Definition wp {A} (m : pool_m A) (Q : A → TxPool → Prop) (p : TxPool) : Prop :=
  match m p with Ok (a, p') => Q a p' | _ => False end.

Lemma wpp_mono {A} (m : pool_m A) (Q R : A → TxPool → Prop) p : wp m Q p → (∀ a p', Q a p' → R a p') → wp m R p.
Proof. unfold wp. destruct (m p) as [[a p']| |]; try done. intros HQ HR. by apply HR. Qed.
Lemma wpp_ret {A} (a : A) Q p : Q a p → wp (mret a) Q p.
Proof. done. Qed.
Lemma wpp_bind {A B} (m : pool_m A) (f : A → pool_m B) Q p : wp m (λ a, wp (f a) Q) p → wp (m ≫= f) Q p.
Proof. unfold wp, mbind, pool_bind. by destruct (m p) as [[a p']| |]. Qed.
Lemma wp_gets {A} (f : TxPool → A) Q p : Q (f p) p → wp (gets f) Q p.
Proof. done. Qed.
Lemma wp_modify f (Q : unit → TxPool → Prop) p : Q tt (f p) → wp (modify f) Q p.
Proof. done. Qed.
Lemma wp_run {A} (r : result A) (a : A) Q p : r = Ok a → Q a p → wp (run r) Q p.
Proof. by intros ->. Qed.
Lemma wp_ok {A} (m : pool_m A) (a : A) p' (Q : A → TxPool → Prop) p : m p = Ok (a, p') → Q a p' → wp m Q p.
Proof. unfold wp. by intros ->. Qed.
Lemma wp_inv {A} (m : pool_m A) Q p : wp m Q p → ∃ a p', m p = Ok (a, p') ∧ Q a p'.
Proof. unfold wp. destruct (m p) as [[a p']| |]; naive_solver. Qed.
Lemma wp_when b m (Q : unit → TxPool → Prop) p : (b = true → wp m Q p) → (b = false → Q tt p) → wp (when b m) Q p.
Proof. destruct b; cbn; auto. Qed.

(** A loop keeps what each round keeps. *)
Lemma wp_each {A} (I : list A → TxPool → Prop) (l : list A) (f : A → pool_m unit) p :
  (∀ x l p, I (x :: l) p → wp (f x) (λ _, I l) p) → I l p → wp (each l f) (λ _, I []) p.
Proof.
  intros Hf. revert p. induction l as [|x l IH]; intros p HI; [done|]. cbn [each].
  apply wpp_bind. eapply wpp_mono; [by apply Hf|]. intros [] p' HI'. by apply IH.
Qed.

(** ** Lists of an account *)

(** Iteration over a map visits every entry once, over a map's keys every key. *)
Class Listing (range : gmap Z Transaction → list (Z * Transaction)) : Prop :=
  listing m : range m ≡ₚ map_to_list m.
Class KeyListing (accounts : gmap Address txList → list Address) : Prop :=
  key_listing m : accounts m ≡ₚ (map_to_list m).*1.

Section Inv.
Context `{Crypto} {config : TxPoolConfig} {signer : Signer} {range : gmap Z Transaction → list (Z * Transaction)}.
Context {range_listing : Listing range}.

Notation sender := (pool_sender signer).
Notation from := (from_of signer).

(** The lists of a map, account by account; no list is empty. *)
Definition rep_map (m : gmap Address txList) (strict : bool) (P : Address → list Transaction) : Prop :=
  ∀ a, match m !! a with Some L => rep_list L strict (P a) ∧ P a ≠ [] | None => P a = [] end.

Lemma rep_map_get m s P a : rep_map m s P → rep_list (default (newTxList s) (m !! a)) s (P a).
Proof.
  intros Hm. specialize (Hm a). destruct (m !! a) as [L|]; cbn; [by destruct Hm|]. rewrite Hm. apply rep_list_new.
Qed.
Lemma rep_map_some m s P a L : rep_map m s P → m !! a = Some L → rep_list L s (P a) ∧ P a ≠ [].
Proof. intros Hm E. specialize (Hm a). by rewrite E in Hm. Qed.
Lemma rep_map_none m s P a : rep_map m s P → m !! a = None → P a = [].
Proof. intros Hm E. specialize (Hm a). by rewrite E in Hm. Qed.
Lemma rep_map_insert m s P a L l : rep_map m s P → rep_list L s l → l ≠ [] → rep_map (<[a := L]> m) s (<[a := l]> P).
Proof.
  intros Hm HL Hl b. destruct (decide (b = a)) as [->|Hne].
  - by rewrite lookup_insert_eq, fn_lookup_insert.
  - rewrite lookup_insert_ne, fn_lookup_insert_ne by done. apply Hm.
Qed.
Lemma rep_map_delete m s P a : rep_map m s P → rep_map (delete a m) s (<[a := []]> P).
Proof.
  intros Hm b. destruct (decide (b = a)) as [->|Hne].
  - by rewrite lookup_delete_eq, fn_lookup_insert.
  - rewrite lookup_delete_ne, fn_lookup_insert_ne by done. apply Hm.
Qed.
Lemma rep_map_delete_insert m s P a L : rep_map m s P → rep_map (delete a (<[a := L]> m)) s (<[a := []]> P).
Proof. rewrite delete_insert_eq. apply rep_map_delete. Qed.
Lemma rep_empty L s l : rep_list L s l → tl_Empty L = bool_decide (l = []).
Proof.
  intros [_ Hr _ _]. unfold tl_Empty, tl_Len, sm_Len. rewrite (rep_items _ _ Hr), size_of_list by apply Hr.
  by destruct l.
Qed.
Lemma rep_len L s l : rep_list L s l → tl_Len L = length l.
Proof. intros [_ Hr _ _]. unfold tl_Len, sm_Len. by rewrite (rep_items _ _ Hr), size_of_list by apply Hr. Qed.

(** The map with one list replaced, or removed when it has become empty. *)
Lemma rep_map_put m s P a L l : rep_map m s P → rep_list L s l →
  rep_map (if tl_Empty L then delete a (<[a := L]> m) else <[a := L]> m) s (<[a := l]> P).
Proof.
  intros Hm HL. rewrite (rep_empty _ _ _ HL). case_bool_decide as E.
  - subst l. by apply rep_map_delete_insert.
  - by apply rep_map_insert.
Qed.

(** *** Operations on one list *)

Lemma Forward_rep n L s l : rep_list L s l →
  ∃ L', tl_Forward n L = Ok (filter (under n) l, L') ∧ rep_list L' s (filter (λ t, ¬ under n t) l).
Proof.
  intros HL. destruct (sm_Forward_rep n _ _ (rl_rep _ _ _ HL)) as (m & E & Hm). unfold tl_Forward. rewrite E.
  eexists. split; [done|]. eapply rep_list_sub; [done..|]. intros t. apply elem_filter_sub.
Qed.
Lemma Cap_rep n L s l : 0 ≤ n → rep_list L s l →
  ∃ L', tl_Cap n L = Ok (reverse (drop (Z.to_nat n) l), L') ∧ rep_list L' s (take (Z.to_nat n) l).
Proof.
  intros Hn HL. destruct (sm_Cap_rep n _ _ (rl_rep _ _ _ HL) Hn) as (m & E & Hm). unfold tl_Cap. rewrite E.
  eexists. split; [done|]. eapply rep_list_sub; [done..|]. intros t. apply take_sub.
Qed.
Lemma Ready_rep n L s l : rep_list L s l →
  ∃ L', tl_Ready n L = Ok ((ready_of n l).1, L') ∧ rep_list L' s (ready_of n l).2.
Proof.
  intros HL. destruct (sm_Ready_rep n _ _ (rl_rep _ _ _ HL)) as (m & E & Hm). unfold tl_Ready. rewrite E.
  eexists. split; [done|]. eapply rep_list_sub; [done..|]. intros t. apply ready_sub.
Qed.
Lemma Flatten_rep L s l : rep_list L s l → ∃ L', tl_Flatten range L = (l, L') ∧ rep_list L' s l.
Proof.
  intros HL. pose proof (sm_Flatten_rep range range_listing _ _ (rl_rep _ _ _ HL)) as Hf. unfold tl_Flatten.
  destruct (sm_Flatten range (tl_txs L)) as [c m]. destruct Hf as [-> Hm]. eexists. split; [done|].
  by eapply rep_list_sub.
Qed.
Lemma put_perm tx l : incr l → tx_Nonce tx ∉ tx_Nonce <$> l → put_tx tx l ≡ₚ tx :: l.
Proof.
  intros Hl Hn. apply NoDup_Permutation.
  - eapply NoDup_fmap_1, incr_nodup, incr_put, Hl.
  - constructor; [|eapply NoDup_fmap_1, incr_nodup, Hl]. intros Hin. apply Hn. by apply list_elem_of_fmap_2.
  - intros u. rewrite elem_put, elem_of_cons by done. split; [naive_solver|]. intros [->|Hu]; [by left|right].
    split; [done|]. intros E. apply Hn. rewrite <- E. by apply list_elem_of_fmap_2.
Qed.
Lemma at_nonce_none n l : n ∉ tx_Nonce <$> l → at_nonce n l = None.
Proof.
  intros Hn. unfold at_nonce. rewrite filter_none; [done|]. intros t Ht E. apply Hn. rewrite <- E. by apply list_elem_of_fmap_2.
Qed.
Lemma at_nonce_some n l t : incr l → at_nonce n l = Some t ↔ t ∈ l ∧ tx_Nonce t = n.
Proof. intros Hl. rewrite <- of_list_at_nonce, of_list_lookup by done. done. Qed.

(** Addition of a nonce the list does not have. *)
Lemma Add_fresh tx bump L s l : is_u64 (tx_Nonce tx) → rep_list L s l → tx_Nonce tx ∉ tx_Nonce <$> l →
  ∃ L', tl_Add tx bump L = (true, None, L') ∧ rep_list L' s (put_tx tx l).
Proof.
  intros Hu HL Hn. pose proof (tl_Add_rep tx bump L s l Hu HL) as Ha. unfold abs_add in Ha.
  rewrite at_nonce_none in Ha by done. destruct (tl_Add tx bump L) as [[b old] L']. destruct Ha as (-> & -> & HL'). eauto.
Qed.

(** Replacement, or addition: the other nonces stay. *)
Definition others (n : Z) (l : list Transaction) : list Transaction := filter (λ t, tx_Nonce t ≠ n) l.
Lemma put_others tx l : incr l → put_tx tx l ≡ₚ tx :: others (tx_Nonce tx) l.
Proof.
  intros Hl. apply NoDup_Permutation.
  - eapply NoDup_fmap_1, incr_nodup, incr_put, Hl.
  - constructor; [by intros [? _]%list_elem_of_filter|]. eapply NoDup_fmap_1, incr_nodup, incr_filter, Hl.
  - intros u. unfold others. rewrite elem_put, elem_of_cons, list_elem_of_filter by done. tauto.
Qed.
Lemma at_nonce_others n l t : incr l → at_nonce n l = Some t → l ≡ₚ t :: others n l.
Proof.
  intros Hl [Ht Hn]%at_nonce_some; [|done]. apply NoDup_Permutation.
  - eapply NoDup_fmap_1, incr_nodup, Hl.
  - constructor; [intros [? _]%list_elem_of_filter; done|]. eapply NoDup_fmap_1, incr_nodup, incr_filter, Hl.
  - intros u. unfold others. rewrite elem_of_cons, list_elem_of_filter. split; [|naive_solver].
    intros Hu. destruct (decide (tx_Nonce u = n)); [left|by right]. eapply incr_inj; [done..|]. congruence.
Qed.
Lemma at_nonce_others_none n l : at_nonce n l = None → incr l → others n l = l.
Proof.
  intros E Hl. apply filter_all. intros t Ht Hn. assert (at_nonce n l = Some t) by (by apply at_nonce_some). congruence.
Qed.

(** ** The lookup set and the lists *)

(** [removeAll]: what a loop of [forget] does. *)
Definition remove_all (l : list Transaction) (al : txLookup) : txLookup := foldl (λ al tx, lk_Remove (tx_Hash tx) al) al l.

Definition slots_in (m : gmap Hash Transaction) : Z := map_fold (λ _ tx n, numSlots tx + n) 0 m.
Lemma slots_in_insert m h tx : m !! h = None → slots_in (<[h := tx]> m) = numSlots tx + slots_in m.
Proof. intros Hm. unfold slots_in. rewrite map_fold_insert_L; [done| |done]. intros. lia. Qed.
Lemma slots_in_delete m h tx : m !! h = Some tx → slots_in (delete h m) = slots_in m - numSlots tx.
Proof.
  intros Hm. pose proof (slots_in_insert (delete h m) h tx (lookup_delete_eq m h)) as E.
  rewrite insert_delete_id in E by done. lia.
Qed.

(** The lookup set holds the transactions of [S], by account, and no others. *)
Record cons (al : txLookup) (S : Address → list Transaction) : Prop := {
  c_keyed : keyed al;
  c_in a tx : tx ∈ S a → sender tx = Ok a ∧ lk_Get (tx_Hash tx) al = Some tx;
  c_all h tx : lk_Get h al = Some tx → ∃ a, tx ∈ S a;
  c_nodup a : NoDup (tx_Nonce <$> S a);
  c_slots : lk_slots al = slots_in (lk_locals al) + slots_in (lk_remotes al)
}.

Lemma cons_perm al S S' : cons al S → (∀ a, S a ≡ₚ S' a) → cons al S'.
Proof.
  intros [Hk Hi Ha Hn Hs] P. split; [done| | | |done].
  - intros a tx. rewrite <- P. apply Hi.
  - intros h tx [a Hin]%Ha. exists a. by rewrite <- P.
  - intros a. by rewrite <- P.
Qed.

Lemma lk_Get_key al h tx : keyed al → lk_Get h al = Some tx → h = tx_Hash tx.
Proof. intros (Hr & Hl & _). unfold lk_Get. destruct (lk_locals al !! h) eqn:E; [intros [= <-]; eauto|eauto]. Qed.
Lemma lk_Get_Remove al h h' : lk_Get h' (lk_Remove h al) = if decide (h' = h) then None else lk_Get h' al.
Proof.
  unfold lk_Remove. destruct (lk_Get h al) as [tx|] eqn:E.
  - unfold lk_Get. cbn. destruct (decide (h' = h)) as [->|].
    + by rewrite !lookup_delete_eq.
    + by rewrite !lookup_delete_ne.
  - by destruct (decide (h' = h)) as [->|].
Qed.
Lemma keyed_Remove al h : keyed al → keyed (lk_Remove h al).
Proof.
  intros (Hr & Hl & Hd). unfold lk_Remove. destruct (lk_Get h al); [|done]. split_and!; cbn.
  - intros h' u [_ E]%lookup_delete_Some. eauto.
  - intros h' u [_ E]%lookup_delete_Some. eauto.
  - by apply map_disjoint_delete_l, map_disjoint_delete_r.
Qed.
Lemma slots_Remove al h : keyed al → lk_slots al = slots_in (lk_locals al) + slots_in (lk_remotes al) →
  lk_slots (lk_Remove h al) = slots_in (lk_locals (lk_Remove h al)) + slots_in (lk_remotes (lk_Remove h al)).
Proof.
  intros (_ & _ & Hd) Hs. unfold lk_Remove, lk_Get. destruct (lk_locals al !! h) as [t|] eqn:E; cbn.
  - rewrite (slots_in_delete _ _ _ E), (delete_id (lk_remotes al)); [lia|]. by eapply map_disjoint_Some_l.
  - destruct (lk_remotes al !! h) as [t|] eqn:E2; cbn; [|done].
    rewrite (slots_in_delete _ _ _ E2), (delete_id (lk_locals al)) by done. lia.
Qed.
Lemma remotes_Remove al h : lk_remotes (lk_Remove h al) ⊆ lk_remotes al.
Proof. unfold lk_Remove. destruct (lk_Get h al); [apply delete_subseteq|done]. Qed.

Lemma cons_hash_inj al S a b t u : cons al S → t ∈ S a → u ∈ S b → tx_Hash t = tx_Hash u → t = u ∧ a = b.
Proof.
  intros HC [Ht1 Ht2]%(c_in _ _ HC) [Hu1 Hu2]%(c_in _ _ HC) E. rewrite E in Ht2. split; congruence.
Qed.

(** One transaction less. *)
Lemma cons_drop al S a tx r : cons al S → S a ≡ₚ tx :: r → cons (lk_Remove (tx_Hash tx) al) (<[a := r]> S).
Proof.
  intros HC P. pose proof HC as [Hk Hi Ha Hn Hs]. assert (Htx : tx ∈ S a) by (rewrite P; left).
  assert (Hr : ∀ u, u ∈ r → u ∈ S a ∧ tx_Nonce u ≠ tx_Nonce tx).
  { intros u Hu. split; [rewrite P; by right|]. intros E. specialize (Hn a). rewrite P in Hn. cbn in Hn.
    apply NoDup_cons in Hn as [Hn _]. apply Hn. rewrite <- E. by apply list_elem_of_fmap_2. }
  split.
  - by apply keyed_Remove.
  - intros b u Hu. rewrite lk_Get_Remove. destruct (decide (b = a)) as [->|Hb].
    + rewrite fn_lookup_insert in Hu. destruct (Hr _ Hu) as [Hu' Hne]. destruct (Hi _ _ Hu'). split; [done|].
      rewrite decide_False; [done|]. intros E. destruct (cons_hash_inj _ _ _ _ _ _ HC Hu' Htx E). congruence.
    + rewrite fn_lookup_insert_ne in Hu by done. destruct (Hi _ _ Hu). split; [done|].
      rewrite decide_False; [done|]. intros E. by destruct (cons_hash_inj _ _ _ _ _ _ HC Hu Htx E).
  - intros h u. rewrite lk_Get_Remove. destruct (decide (h = tx_Hash tx)) as [|Hh]; [done|]. intros E.
    destruct (Ha _ _ E) as [b Hb]. exists b. destruct (decide (b = a)) as [->|]; [|by rewrite fn_lookup_insert_ne].
    rewrite fn_lookup_insert. rewrite P, elem_of_cons in Hb. destruct Hb as [->|]; [|done].
    by rewrite (lk_Get_key _ _ _ Hk E) in Hh.
  - intros b. destruct (decide (b = a)) as [->|]; [|by rewrite fn_lookup_insert_ne].
    rewrite fn_lookup_insert. specialize (Hn a). rewrite P in Hn. by apply NoDup_cons in Hn as [_ Hn].
  - by apply slots_Remove.
Qed.

Lemma cons_ext al S S' : cons al S → (∀ a, S a = S' a) → cons al S'.
Proof. intros HC E. eapply cons_perm; [done|]. intros a. by rewrite E. Qed.

Lemma cons_drops al S a ds : ∀ r, cons al S → S a ≡ₚ ds ++ r → cons (remove_all ds al) (<[a := r]> S).
Proof.
  unfold remove_all. revert al S. induction ds as [|tx ds IH]; intros al S r HC P; cbn [foldl].
  - eapply cons_perm; [done|]. intros b. destruct (decide (b = a)) as [->|]; [by rewrite fn_lookup_insert|by rewrite fn_lookup_insert_ne].
  - pose proof (cons_drop _ _ _ _ _ HC P) as HC1. eapply cons_ext; [apply (IH _ _ r HC1)|]; [by rewrite fn_lookup_insert|].
    intros b. destruct (decide (b = a)) as [->|]; [by rewrite !fn_lookup_insert|by rewrite !fn_lookup_insert_ne].
Qed.

(** One more. *)
Lemma cons_add al S a tx local : cons al S → lk_Get (tx_Hash tx) al = None → sender tx = Ok a →
  tx_Nonce tx ∉ tx_Nonce <$> S a → cons (lk_Add tx local al) (<[a := tx :: S a]> S).
Proof.
  intros HC Hf Hs Hnew. pose proof HC as [Hk Hi Ha Hn Hsl]. pose proof Hk as (Hr & Hl & Hd).
  assert (Hf2 : lk_locals al !! tx_Hash tx = None ∧ lk_remotes al !! tx_Hash tx = None).
  { unfold lk_Get in Hf. by destruct (lk_locals al !! tx_Hash tx). }
  destruct Hf2 as [Hfl Hfr].
  assert (HG : ∀ h, lk_Get h (lk_Add tx local al) = if decide (h = tx_Hash tx) then Some tx else lk_Get h al).
  { intros h. unfold lk_Get, lk_Add. destruct local; cbn; destruct (decide (h = tx_Hash tx)) as [->|].
    - by rewrite lookup_insert_eq. - by rewrite lookup_insert_ne. - by rewrite Hfl, lookup_insert_eq. - by rewrite lookup_insert_ne. }
  split.
  - unfold lk_Add. destruct local; split_and!; cbn; try done.
    1,3: intros h u [[<- <-]|[_ E]]%lookup_insert_Some; eauto.
    all: apply map_disjoint_insert_l_2 || apply map_disjoint_insert_r_2; done.
  - intros b u Hu. rewrite HG. destruct (decide (b = a)) as [->|Hb].
    + rewrite fn_lookup_insert in Hu. apply elem_of_cons in Hu as [->|Hu]; [by rewrite decide_True|].
      destruct (Hi _ _ Hu) as [? E]. split; [done|]. rewrite decide_False; [done|]. intros E'. rewrite E' in E. congruence.
    + rewrite fn_lookup_insert_ne in Hu by done. destruct (Hi _ _ Hu) as [? E]. split; [done|].
      rewrite decide_False; [done|]. intros E'. rewrite E' in E. congruence.
  - intros h u. rewrite HG. destruct (decide (h = tx_Hash tx)).
    + intros [= <-]. exists a. rewrite fn_lookup_insert. left.
    + intros [b Hb]%Ha. exists b. destruct (decide (b = a)) as [->|]; [rewrite fn_lookup_insert; by right|by rewrite fn_lookup_insert_ne].
  - intros b. destruct (decide (b = a)) as [->|]; [|by rewrite fn_lookup_insert_ne].
    rewrite fn_lookup_insert. cbn. by constructor.
  - unfold lk_Add. destruct local; cbn; rewrite slots_in_insert by done; lia.
Qed.

Lemma slots_in_union m1 m2 : m1 ##ₘ m2 → slots_in (m1 ∪ m2) = slots_in m1 + slots_in m2.
Proof.
  intros Hd. induction m1 as [|h tx m1 Hn IH] using map_ind.
  - by rewrite (left_id_L ∅ (∪)).
  - apply map_disjoint_insert_l in Hd as [Hh Hd]. rewrite <- insert_union_l.
    rewrite !slots_in_insert, IH by (done || by apply lookup_union_None). lia.
Qed.
(** The move of transactions from the remote to the local side. *)
Lemma RemoteToLocals_get f al h : keyed al → lk_Get h (RemoteToLocals f al).2 = lk_Get h al.
Proof.
  intros (_ & _ & Hd). unfold lk_Get, RemoteToLocals. cbn. rewrite lookup_union.
  destruct (lk_locals al !! h) as [u|] eqn:E.
  - rewrite (map_lookup_filter_None_2); [done|]. left. by eapply map_disjoint_Some_l.
  - destruct (lk_remotes al !! h) as [u|] eqn:E2.
    + destruct (decide (f u = true)) as [Hf|Hf].
      * rewrite (map_lookup_filter_Some_2 _ _ _ u); done.
      * rewrite map_lookup_filter_None_2 by naive_solver. cbn. by rewrite (map_lookup_filter_Some_2 _ _ _ u).
    + rewrite !map_lookup_filter_None_2 by naive_solver. done.
Qed.
Lemma cons_RemoteToLocals f al S : cons al S → cons (RemoteToLocals f al).2 S.
Proof.
  intros HC. pose proof HC as [Hk Hi Ha Hn Hs]. pose proof Hk as (Hr & Hl & Hd).
  assert (Hd1 : filter (λ kt : Hash * Transaction, f kt.2 = true) (lk_remotes al) ##ₘ lk_locals al).
  { symmetry. eapply map_disjoint_weaken_r; [done|]. apply map_filter_subseteq. }
  split.
  - split_and!; cbn.
    + intros h u [E _]%map_lookup_filter_Some. eauto.
    + intros h u [[E _]%map_lookup_filter_Some|E]%lookup_union_Some; eauto.
    + apply map_disjoint_union_l_2; [apply map_disjoint_filter_complement|].
      eapply map_disjoint_weaken_r; [done|]. apply map_filter_subseteq.
  - intros a tx Hin. rewrite RemoteToLocals_get by done. by apply Hi.
  - intros h tx. rewrite RemoteToLocals_get by done. apply Ha.
  - done.
  - cbn. rewrite slots_in_union by done. pose proof (map_filter_union_complement (λ kt : Hash * Transaction, f kt.2 = true) (lk_remotes al)) as E.
    rewrite <- E, slots_in_union in Hs by apply map_disjoint_filter_complement. lia.
Qed.

(** ** The pool *)

Lemma rep_map_ext m s P P' : rep_map m s P → (∀ a, P a = P' a) → rep_map m s P'.
Proof. intros Hm E a. rewrite <- E. apply Hm. Qed.
Lemma fn_insert_id (P : Address → list Transaction) a b : (<[a := P a]> P) b = P b.
Proof. destruct (decide (b = a)) as [->|]; [by rewrite fn_lookup_insert|by rewrite fn_lookup_insert_ne]. Qed.
Lemma fn_insert_twice (P : Address → list Transaction) a x y b : (<[a := y]> (<[a := x]> P)) b = (<[a := y]> P) b.
Proof. destruct (decide (b = a)) as [->|]; [by rewrite !fn_lookup_insert|by rewrite !fn_lookup_insert_ne]. Qed.

Lemma wp_removed n (R : unit → TxPool → Prop) p : tracked (all p) (priced p) →
  (∀ pr, tracked (all p) pr → R tt (set_priced pr p)) → wp (removed range n) R p.
Proof.
  intros Ht HR. destruct (Removed_tracked range range_listing n _ _ Ht) as (pr & E & Hp).
  eapply wp_ok; [unfold removed; by rewrite E|]. by apply HR.
Qed.
Lemma wp_forgets l (R : unit → TxPool → Prop) : ∀ p, R tt (upd_all (remove_all l) p) → wp (each l forget) R p.
Proof.
  induction l as [|tx l IH]; intros p HR; [by destruct p|]. cbn [each]. apply wpp_bind, wp_modify. apply IH. by destruct p.
Qed.

Lemma put_tx_nonempty tx l : put_tx tx l ≠ [].
Proof. destruct l; cbn; repeat case_match; done. Qed.

Lemma wp_requeue now tx local Qf (R : error + bool → TxPool → Prop) p : rep_map (queue p) false Qf →
  is_u64 (tx_Nonce tx) → tx_Nonce tx ∉ tx_Nonce <$> Qf (from tx) →
  (∀ m bs, rep_map m false (<[from tx := put_tx tx (Qf (from tx))]> Qf) →
     R (inr false) (upd_beats (λ _, bs) (upd_queue (λ _, m) p))) →
  wp (enqueueTx config signer range now tx local false) R p.
Proof.
  intros Hq Hu Hn HR. unfold enqueueTx. apply wpp_bind, wp_gets.
  destruct (Add_fresh tx (PriceBump config) _ false _ Hu (rep_map_get _ _ _ (from tx) Hq) Hn) as (L & -> & HL).
  apply wpp_bind, wp_modify. cbn [negb]. apply wpp_bind, wpp_ret, wpp_bind, wpp_ret, wpp_bind, wp_gets.
  assert (Hm : rep_map (<[from tx := L]> (queue p)) false (<[from tx := put_tx tx (Qf (from tx))]> Qf)).
  { apply rep_map_insert; [done..|apply put_tx_nonempty]. }
  cbn [beats upd_queue]. destruct (beats p !! from tx) eqn:E.
  - apply wpp_bind, wpp_ret, wpp_ret. exact (HR (<[from tx := L]> (queue p)) (beats p) Hm).
  - apply wpp_bind, wp_modify, wpp_ret. specialize (HR (<[from tx := L]> (queue p)) (<[from tx := now]> (beats p)) Hm).
    by destruct p.
Qed.

Lemma wp_requeues now a txs : ∀ Qf (R : unit → TxPool → Prop) p, rep_map (queue p) false Qf →
  (∀ t, t ∈ txs → from t = a ∧ is_u64 (tx_Nonce t)) → NoDup (tx_Nonce <$> txs ++ Qf a) →
  (∀ m bs q, rep_map m false (<[a := q]> Qf) → q ≡ₚ txs ++ Qf a → R tt (upd_beats (λ _, bs) (upd_queue (λ _, m) p))) →
  wp (each txs (requeue config signer range now)) R p.
Proof.
  induction txs as [|tx txs IH]; intros Qf R p Hq Ht Hn HR; cbn [each].
  - apply wpp_ret. assert (E : p = upd_beats (λ _, beats p) (upd_queue (λ _, queue p) p)) by by destruct p.
    rewrite E. apply (HR _ _ (Qf a)); [|done]. eapply rep_map_ext; [done|]. intros b. by rewrite fn_insert_id.
  - destruct (Ht tx) as [Hf Hu]; [left|]. cbn in Hn. apply NoDup_cons in Hn as [Hn1 Hn2].
    assert (Hn3 : tx_Nonce tx ∉ tx_Nonce <$> Qf a) by (intros Hin; apply Hn1; rewrite fmap_app; set_solver).
    unfold requeue at 1. apply wpp_bind, wpp_bind. apply (wp_requeue now tx false Qf); [done..|by rewrite Hf|].
    intros m bs Hm. rewrite Hf in Hm. apply wpp_ret.
    assert (Hpp : put_tx tx (Qf a) ≡ₚ tx :: Qf a).
    { apply put_perm; [|done]. apply rep_incr with (tl_txs (default (newTxList false) (queue p !! a))).
      eapply rl_rep. by apply rep_map_get. }
    eapply IH; [done|intros t Hin; apply Ht; by right| |].
    + rewrite fn_lookup_insert, Hpp. rewrite <- Permutation_middle. cbn. by constructor.
    + intros m' bs' q Hm' Hq'. rewrite fn_lookup_insert, Hpp in Hq'.
      apply (HR m' bs' q); [eapply rep_map_ext; [done|]; intros b; by rewrite fn_insert_twice|].
      rewrite Hq'. by rewrite <- Permutation_middle.
Qed.

Lemma wp_promote now a tx Pf (R : bool → TxPool → Prop) p : rep_map (pending p) true Pf →
  is_u64 (tx_Nonce tx) → tx_Nonce tx ∉ tx_Nonce <$> Pf a →
  (∀ m nc bs, rep_map m true (<[a := put_tx tx (Pf a)]> Pf) →
     R true (upd_beats (λ _, bs) (upd_nonces (λ _, nc) (upd_pending (λ _, m) p)))) →
  wp (promoteTx config range now a tx) R p.
Proof.
  intros Hp Hu Hn HR. unfold promoteTx. apply wpp_bind, wp_gets.
  destruct (Add_fresh tx (PriceBump config) _ true _ Hu (rep_map_get _ _ _ a Hp) Hn) as (L & -> & HL).
  apply wpp_bind, wp_modify. cbn [negb]. apply wpp_bind, wpp_ret, wpp_bind, wp_modify, wpp_bind, wp_modify, wpp_ret.
  assert (Hm : rep_map (<[a := L]> (pending p)) true (<[a := put_tx tx (Pf a)]> Pf)).
  { apply rep_map_insert; [done..|apply put_tx_nonempty]. }
  specialize (HR (<[a := L]> (pending p)) (nc_set a (add64 (tx_Nonce tx) 1) (pendingNonces p)) (<[a := now]> (beats p)) Hm).
  by destruct p.
Qed.

Lemma wp_promotes now a txs : ∀ Pf (R : list Transaction → TxPool → Prop) p, rep_map (pending p) true Pf →
  (∀ t, t ∈ txs → is_u64 (tx_Nonce t)) → NoDup (tx_Nonce <$> txs ++ Pf a) →
  (∀ m nc bs q, rep_map m true (<[a := q]> Pf) → q ≡ₚ txs ++ Pf a →
     R txs (upd_beats (λ _, bs) (upd_nonces (λ _, nc) (upd_pending (λ _, m) p)))) →
  wp (promote_all config range now a txs) R p.
Proof.
  induction txs as [|tx txs IH]; intros Pf R p Hp Ht Hn HR; cbn [promote_all].
  - apply wpp_ret. specialize (HR (pending p) (pendingNonces p) (beats p) (Pf a)). destruct p. apply HR; [|done].
    eapply rep_map_ext; [done|]. intros b. by rewrite fn_insert_id.
  - cbn in Hn. apply NoDup_cons in Hn as [Hn1 Hn2].
    assert (Hn3 : tx_Nonce tx ∉ tx_Nonce <$> Pf a) by (intros Hin; apply Hn1; rewrite fmap_app; set_solver).
    apply wpp_bind. apply (wp_promote now a tx Pf); [done|apply Ht; left|done|]. intros m nc bs Hm.
    assert (Hpp : put_tx tx (Pf a) ≡ₚ tx :: Pf a).
    { apply put_perm; [|done]. eapply rep_incr, rl_rep. by apply (rep_map_get (pending p)). }
    apply wpp_bind. eapply IH; [done|intros t Hin; apply Ht; by right| |].
    + rewrite fn_lookup_insert, Hpp. rewrite <- Permutation_middle. cbn. by constructor.
    + intros m' nc' bs' q Hm' Hq'. rewrite fn_lookup_insert, Hpp in Hq'. apply wpp_ret.
      apply (HR m' nc' bs' q); [eapply rep_map_ext; [done|]; intros b; by rewrite fn_insert_twice|].
      rewrite Hq'. by rewrite <- Permutation_middle.
Qed.

(** The lists of the pool, and the lookup set. *)
Definition lists (p : TxPool) (P Q : Address → list Transaction) : Prop :=
  rep_map (pending p) true P ∧ rep_map (queue p) false Q ∧ cons (all p) (λ a, P a ++ Q a).

Lemma rep_map_incr m s P a : rep_map m s P → incr (P a).
Proof. intros Hm. eapply rep_incr, rl_rep. by apply (rep_map_get m). Qed.
Lemma rep_map_u64 m s P a t : rep_map m s P → t ∈ P a → is_u64 (tx_Nonce t).
Proof. intros Hm. pose proof (rl_nonces _ _ _ (rep_map_get _ _ _ a Hm)) as Hn. rewrite Forall_forall in Hn. apply Hn. Qed.
Lemma from_sender tx a : sender tx = Ok a → from tx = a.
Proof. unfold from_of. by intros ->. Qed.

(** The account of a known transaction. *)
Lemma lists_known p P Q h tx : lists p P Q → lk_Get h (all p) = Some tx →
  h = tx_Hash tx ∧ sender tx = Ok (from tx) ∧ tx ∈ P (from tx) ++ Q (from tx).
Proof.
  intros (_ & _ & HC) E. destruct (c_all _ _ HC _ _ E) as [a Ha]. destruct (c_in _ _ HC _ _ Ha) as [Hs _].
  rewrite (from_sender _ _ Hs). split_and!; [|done..]. eapply lk_Get_key; [apply HC|done].
Qed.
Lemma lists_disjoint p P Q a t u : lists p P Q → t ∈ P a → u ∈ Q a → tx_Nonce t ≠ tx_Nonce u.
Proof.
  intros (_ & _ & HC) Ht Hu E. pose proof (c_nodup _ _ HC a) as Hn. cbn beta in Hn. rewrite fmap_app in Hn.
  apply NoDup_app in Hn as (_ & Hd & _). apply (Hd (tx_Nonce t)); [by apply list_elem_of_fmap_2|].
  rewrite E. by apply list_elem_of_fmap_2.
Qed.

(** *** removeTx *)

(** What is taken out of a pending list with a transaction goes to the queue. *)
Lemma remove_split n l t : incr l → at_nonce n l = Some t → l ≡ₚ t :: filter (λ u, (n <? tx_Nonce u) = true) l ++ filter (under n) l.
Proof.
  intros Hl [Ht Hn]%at_nonce_some; [|done]. apply NoDup_Permutation.
  - eapply NoDup_fmap_1, incr_nodup, Hl.
  - apply NoDup_cons. unfold under. split.
    { intros [[Hlt%Z.ltb_lt _]%list_elem_of_filter|[Hlt _]%list_elem_of_filter]%elem_of_app; cbn beta in Hlt; lia. }
    apply NoDup_app. split_and!; try (eapply NoDup_fmap_1, incr_nodup, incr_filter, Hl).
    intros u [Hlt%Z.ltb_lt _]%list_elem_of_filter [Hlt' _]%list_elem_of_filter. cbn beta in Hlt'. lia.
  - intros u. rewrite elem_of_cons, elem_of_app, !list_elem_of_filter. unfold under. split; [|naive_solver].
    intros Hu. destruct (Z.lt_trichotomy (tx_Nonce u) n) as [|[|]]; [right; right; done| |right; left; split; [by apply Z.ltb_lt|done]].
    left. eapply incr_inj; [done..|]. congruence.
Qed.

Lemma remove_pending_absent now tx P (R : bool → TxPool → Prop) p : rep_map (pending p) true P →
  tx_Nonce tx ∉ tx_Nonce <$> P (from tx) →
  (∀ m, rep_map m true P → R false (upd_pending (λ _, m) p)) → wp (remove_pending config signer range now tx) R p.
Proof.
  intros Hp Hn HR. unfold remove_pending. apply wpp_bind, wp_gets. destruct (pending p !! from tx) as [L|] eqn:E.
  - destruct (rep_map_some _ _ _ _ _ Hp E) as [HL Hne].
    destruct (tl_Remove_rep range range_listing tx L true _ HL) as (b & inv & L' & ER & Hab).
    unfold abs_remove in Hab. rewrite bool_decide_eq_false_2 in Hab by done. destruct Hab as (-> & _ & HL').
    apply wpp_bind. eapply wp_run; [done|]. apply wpp_bind, wp_modify. cbn [negb]. apply wpp_ret.
    specialize (HR (<[from tx := L']> (pending p))). destruct p. apply HR. eapply rep_map_ext; [by apply rep_map_insert|].
    apply fn_insert_id.
  - apply wpp_ret. specialize (HR (pending p) Hp). by destruct p.
Qed.

Lemma remove_pending_present now tx P Q (R : bool → TxPool → Prop) p : rep_map (pending p) true P →
  rep_map (queue p) false Q → sender tx = Ok (from tx) → tx ∈ P (from tx) → NoDup (tx_Nonce <$> P (from tx) ++ Q (from tx)) →
  (∀ t, t ∈ P (from tx) → from t = from tx) →
  (∀ m m' nc bs l q, rep_map m true (<[from tx := l]> P) → rep_map m' false (<[from tx := q]> Q) →
     P (from tx) ++ Q (from tx) ≡ₚ tx :: l ++ q →
     R true (upd_nonces (λ _, nc) (upd_beats (λ _, bs) (upd_queue (λ _, m') (upd_pending (λ _, m) p))))) →
  wp (remove_pending config signer range now tx) R p.
Proof.
  intros Hp Hq Hs Hin Hnd Hfrom HR. unfold remove_pending. apply wpp_bind, wp_gets.
  destruct (pending p !! from tx) as [L|] eqn:E; [|by rewrite (rep_map_none _ _ _ _ Hp E), elem_of_nil in Hin].
  destruct (rep_map_some _ _ _ _ _ Hp E) as [HL Hne]. pose proof (rep_map_incr _ _ _ (from tx) Hp) as Hincr.
  destruct (tl_Remove_rep range range_listing tx L true _ HL) as (b & inv & L' & ER & Hab).
  unfold abs_remove in Hab. rewrite bool_decide_eq_true_2 in Hab by (by apply list_elem_of_fmap_2).
  destruct Hab as (-> & Hinv & HL'). apply wpp_bind. eapply wp_run; [done|]. apply wpp_bind, wp_modify. cbn [negb].
  pose proof (remove_split (tx_Nonce tx) (P (from tx)) tx Hincr) as Hsp. rewrite at_nonce_some in Hsp by done.
  specialize (Hsp (conj Hin eq_refl)). set (l := filter (under (tx_Nonce tx)) (P (from tx))) in *.
  pose proof (rep_map_put _ _ _ (from tx) _ _ Hp HL') as Hm.
  set (m := if tl_Empty L' then delete (from tx) (<[from tx := L']> (pending p)) else <[from tx := L']> (pending p)) in *.
  apply wpp_bind. apply (wp_ok _ tt (upd_pending (λ _, m) p)).
  { unfold m. destruct (tl_Empty L'), p; done. }
  apply wpp_bind. change (λ tx0 : Transaction, enqueueTx config signer range now tx0 false false ≫= λ _, mret tt)
    with (requeue config signer range now). apply (wp_requeues now (from tx) inv Q).
  - done.
  - intros t Ht. assert (Ht' : t ∈ P (from tx)).
    { rewrite Hinv in Ht. by apply list_elem_of_filter in Ht as [_ ?]. }
    split; [by apply Hfrom|exact (rep_map_u64 _ _ _ _ _ Hp Ht')].
  - rewrite Hinv. rewrite Hsp in Hnd. cbn in Hnd. apply NoDup_cons in Hnd as [_ Hnd].
    rewrite <- app_assoc, fmap_app in Hnd. apply NoDup_app in Hnd as (H1 & H2 & H3). rewrite fmap_app in H3.
    rewrite fmap_app. apply NoDup_app. apply NoDup_app in H3 as (_ & _ & H3). split_and!; [done| |done].
    intros n Hn Hn'. apply (H2 n Hn). rewrite fmap_app, elem_of_app. by right.
  - intros m' bs q Hm' Hq'. apply wpp_bind, wp_modify, wpp_ret.
    specialize (HR m m' (nc_setIfLower (from tx) (tx_Nonce tx) (pendingNonces p)) bs l q Hm Hm'). destruct p. apply HR.
    rewrite Hsp, Hq', Hinv. cbn. constructor. solve_Permutation.
Qed.

Lemma wp_remove_queued tx Q (R : unit → TxPool → Prop) p : rep_map (queue p) false Q → tx ∈ Q (from tx) →
  (∀ m bs, rep_map m false (<[from tx := others (tx_Nonce tx) (Q (from tx))]> Q) →
     R tt (upd_beats (λ _, bs) (upd_queue (λ _, m) p))) → wp (remove_queued signer range tx) R p.
Proof.
  intros Hq Hin HR. unfold remove_queued. apply wpp_bind, wp_gets.
  destruct (queue p !! from tx) as [L|] eqn:E; [|by rewrite (rep_map_none _ _ _ _ Hq E), elem_of_nil in Hin].
  destruct (rep_map_some _ _ _ _ _ Hq E) as [HL Hne].
  destruct (tl_Remove_rep range range_listing tx L false _ HL) as (b & inv & L' & ER & Hab).
  unfold abs_remove in Hab. rewrite bool_decide_eq_true_2 in Hab by (by apply list_elem_of_fmap_2).
  destruct Hab as (-> & _ & HL'). apply wpp_bind. eapply wp_run; [done|]. apply wpp_bind, wp_modify.
  pose proof (rep_map_put _ _ _ (from tx) _ _ Hq HL') as Hm. destruct (tl_Empty L').
  - specialize (HR _ (delete (from tx) (beats p)) Hm). apply wpp_bind, wp_modify, wp_modify. by destruct p.
  - specialize (HR _ (beats p) Hm). apply wpp_ret. by destruct p.
Qed.

(** What [removeTx] leaves of a pool. *)
Record removed_from (tx : Transaction) (p : TxPool) (P Q : Address → list Transaction) (p' : TxPool)
  (P' Q' : Address → list Transaction) : Prop := {
  rf_lists : lists p' P' Q';
  rf_all : all p' = lk_Remove (tx_Hash tx) (all p);
  rf_locals : locals p' = locals p;
  rf_other b : b ≠ from tx → P' b = P b ∧ Q' b = Q b;
  rf_queued : tx ∈ Q (from tx) → P' (from tx) = P (from tx) ∧ Q' (from tx) = others (tx_Nonce tx) (Q (from tx))
}.

Lemma removed_lists tx p P Q p' l q : lists p P Q → sender tx = Ok (from tx) → P (from tx) ++ Q (from tx) ≡ₚ tx :: l ++ q →
  rep_map (pending p') true (<[from tx := l]> P) → rep_map (queue p') false (<[from tx := q]> Q) →
  all p' = lk_Remove (tx_Hash tx) (all p) → lists p' (<[from tx := l]> P) (<[from tx := q]> Q).
Proof.
  intros (_ & _ & HC) Hs HP Hp Hq Ha. split_and!; [done..|]. rewrite Ha.
  eapply cons_ext; [exact (cons_drop _ _ (from tx) tx (l ++ q) HC HP)|]. intros a. cbn beta.
  destruct (decide (a = from tx)) as [->|]; [by rewrite !fn_lookup_insert|by rewrite !fn_lookup_insert_ne].
Qed.

(** The part of [removeTx] after the lookup set. *)
Lemma wp_remove_lists now tx p0 P Q (R : unit → TxPool → Prop) p : lists p0 P Q → lk_Get (tx_Hash tx) (all p0) = Some tx →
  pending p = pending p0 → queue p = queue p0 → locals p = locals p0 → all p = lk_Remove (tx_Hash tx) (all p0) →
  (∀ p' P' Q', removed_from tx p0 P Q p' P' Q' → priced p' = priced p → R tt p') →
  wp (found ← remove_pending config signer range now tx; when (negb found) (remove_queued signer range tx)) R p.
Proof.
  intros HL Hk Ep Eq El Ea HR. destruct (lists_known _ _ _ _ _ HL Hk) as (_ & Hs & Hin). pose proof HL as (Hp & Hq & HC).
  rewrite <- Ep in Hp. rewrite <- Eq in Hq. apply wpp_bind. apply elem_of_app in Hin as [Hin|Hin].
  - apply (remove_pending_present now tx P Q); try done.
    + apply (c_nodup _ _ HC).
    + intros t Ht. apply from_sender, (c_in _ _ HC (from tx)). apply elem_of_app. by left.
    + intros m m' nc bs l q Hm Hm' HP. apply wpp_ret. eapply HR; [|done]. split.
      * by eapply removed_lists.
      * done.
      * done.
      * intros b Hb. by rewrite !fn_lookup_insert_ne.
      * intros Hin'. by pose proof (lists_disjoint _ _ _ _ _ _ HL Hin Hin').
  - assert (Hn : tx_Nonce tx ∉ tx_Nonce <$> P (from tx)).
    { intros (t & E & Ht)%list_elem_of_fmap. by pose proof (lists_disjoint _ _ _ _ _ _ HL Ht Hin). }
    apply (remove_pending_absent now tx P); [done..|]. intros m Hm. cbn [negb when].
    apply (wp_remove_queued tx Q); [done..|]. intros m' bs Hm'. eapply HR; [|done]. split.
    + eapply (removed_lists tx p0 P Q _ (P (from tx))); try done.
      * rewrite (at_nonce_others (tx_Nonce tx) (Q (from tx)) tx) at 1.
        -- by rewrite Permutation_middle. -- by eapply rep_map_incr.
        -- apply at_nonce_some; [by eapply rep_map_incr|done].
      * eapply rep_map_ext; [exact Hm|]. intros b. by rewrite fn_insert_id.
    + done.
    + done.
    + intros b Hb. by rewrite !fn_lookup_insert_ne.
    + by rewrite !fn_lookup_insert.
Qed.

Lemma tracked_remove h al pr : tracked al pr → tracked (lk_Remove h al) pr.
Proof. apply tracked_mono, remotes_Remove. Qed.

Lemma wp_removeTx_out now h tx P Q (R : unit → TxPool → Prop) p : lists p P Q → lk_Get h (all p) = Some tx →
  tracked (all p) (priced p) →
  (∀ p' P' Q', removed_from tx p P Q p' P' Q' → tracked (all p') (priced p') → R tt p') →
  wp (removeTx config signer range now h true) R p.
Proof.
  intros HL Hk Ht HR. unfold removeTx. apply wpp_bind, wp_gets. rewrite Hk. apply wpp_bind, wp_modify.
  destruct (lists_known _ _ _ _ _ HL Hk) as (-> & _). apply wpp_bind. cbn [when]. apply wp_removed; [by apply tracked_remove|].
  intros pr Hpr. apply (wp_remove_lists now tx p P Q); [done..|]. intros p' P' Q' Hr E. apply (HR p' P' Q' Hr).
  rewrite (rf_all _ _ _ _ _ _ _ Hr), E. exact Hpr.
Qed.
Lemma wp_removeTx_in now h tx P Q (R : unit → TxPool → Prop) p : lists p P Q → lk_Get h (all p) = Some tx →
  (∀ p' P' Q', removed_from tx p P Q p' P' Q' → priced p' = priced p → R tt p') →
  wp (removeTx config signer range now h false) R p.
Proof.
  intros HL Hk HR. unfold removeTx. apply wpp_bind, wp_gets. rewrite Hk. apply wpp_bind, wp_modify.
  destruct (lists_known _ _ _ _ _ HL Hk) as (-> & _). apply wpp_bind, wpp_ret. by apply (wp_remove_lists now tx p P Q).
Qed.
Lemma wp_removeTx_unknown now h oob (R : unit → TxPool → Prop) p : lk_Get h (all p) = None → R tt p →
  wp (removeTx config signer range now h oob) R p.
Proof. intros Hk HR. unfold removeTx. apply wpp_bind, wp_gets. by rewrite Hk. Qed.

(** ** The invariant *)

Definition wf (p : TxPool) : Prop := tracked (all p) (priced p) ∧ ∃ P Q, lists p P Q.

(** *** Room in a full pool *)

Lemma tracked_but_remove x l al pr : keyed al → tracked_but (x :: l) al pr → tracked_but l (lk_Remove (tx_Hash x) al) pr.
Proof.
  intros Hk [Hu Hf Hi]. split; [done..|]. intros h t E.
  assert (E0 : lk_remotes al !! h = Some t) by (eapply lookup_weaken; [done|apply remotes_Remove]).
  destruct (Hi _ _ E0) as [|[|Hin]]; [auto..|]. apply elem_of_cons in Hin as [->|]; [|auto]. exfalso.
  pose proof Hk as (Hr & _ & Hd). assert (h = tx_Hash x) as -> by eauto.
  assert (HG : lk_Get (tx_Hash x) (lk_Remove (tx_Hash x) al) = None) by (by rewrite lk_Get_Remove, decide_True).
  unfold lk_Get in HG. rewrite E in HG. by destruct (lk_locals _ !! _).
Qed.
Lemma locals_Remove_remote al h : lk_locals al !! h = None → lk_locals (lk_Remove h al) = lk_locals al.
Proof. intros E. unfold lk_Remove. destruct (lk_Get h al); [|done]. cbn. by rewrite delete_id. Qed.
Lemma lk_Get_Remove_none al h h' : lk_Get h al = None → lk_Get h (lk_Remove h' al) = None.
Proof. intros E. rewrite lk_Get_Remove. by destruct (decide _). Qed.

(** The transactions [Discard] returned leave the pool. *)
Lemma wp_drop_remote now drop : ∀ (R : unit → TxPool → Prop) p, tracked_but drop (all p) (priced p) → (∃ P Q, lists p P Q) →
  (∀ x, x ∈ drop → lk_locals (all p) !! tx_Hash x = None) →
  (∀ p', wf p' → lk_locals (all p') = lk_locals (all p) → locals p' = locals p →
     (∀ h, lk_Get h (all p) = None → lk_Get h (all p') = None) → R tt p') →
  wp (each drop (λ tx, removeTx config signer range now (tx_Hash tx) false)) R p.
Proof.
  induction drop as [|x drop IH]; intros R p Ht (P & Q & HL) Hloc HR; cbn [each].
  - apply wpp_ret, HR; [split; [by apply (tracked_nil range)|eauto]|done..].
  - pose proof HL as (_ & _ & HC). pose proof (tracked_but_remove _ _ _ _ (c_keyed _ _ HC) Ht) as Ht'.
    apply wpp_bind. destruct (lk_Get (tx_Hash x) (all p)) as [tx|] eqn:E.
    + apply (wp_removeTx_in now _ tx P Q); [done..|]. intros p' P' Q' Hr Epr.
      pose proof (rf_all _ _ _ _ _ _ _ Hr) as Ea. destruct (lists_known _ _ _ _ _ HL E) as (Eh & _). rewrite <- Eh in Ea.
      assert (El : lk_locals (all p') = lk_locals (all p)) by (rewrite Ea; apply locals_Remove_remote, Hloc; left).
      apply IH.
      * by rewrite Ea, Epr.
      * exists P', Q'. apply Hr.
      * intros y Hy. rewrite El. apply Hloc. by right.
      * intros p2 Hw E2 E3 Hn. apply HR; [done|congruence|rewrite E3; apply Hr|].
        intros h Hh. apply Hn. rewrite Ea. by apply lk_Get_Remove_none.
    + apply wp_removeTx_unknown; [done|]. unfold lk_Remove in Ht'. rewrite E in Ht'.
      apply IH; [done|eauto|intros y Hy; apply Hloc; by right|done].
Qed.

Definition room_made (tx : Transaction) (p p' : TxPool) : Prop :=
  wf p' ∧ lk_Get (tx_Hash tx) (all p') = None ∧ lk_locals (all p') = lk_locals (all p) ∧ locals p' = locals p.

(** The slots asked for when the pool is full are not negative. *)
Lemma i64_le n m : i64 (add64 n m) ≤ add64 n m.
Proof.
  unfold i64, add64, u64. rewrite Z.mod_mod by done. pose proof (Z.mod_pos_bound (n + m) two64 ltac:(done)) as Hb.
  destruct (_ <? _); lia.
Qed.
Lemma discard_for_wf now tx isLocal (R : option error → TxPool → Prop) p : wf p →
  add64 (GlobalSlots config) (GlobalQueue config) < lk_slots (all p) + numSlots tx → lk_Get (tx_Hash tx) (all p) = None →
  (∀ r p', room_made tx p p' → R r p') → wp (discard_for config signer range now tx isLocal) R p.
Proof.
  intros [Ht (P & Q & HL)] Hfull Hf HR. pose proof HL as (Hp & Hq & HC). pose proof (c_keyed _ _ HC) as Hk.
  pose proof (i64_le (GlobalSlots config) (GlobalQueue config)) as Hi. unfold discard_for. apply wpp_bind, wp_gets. destruct (_ <? _); [apply wpp_ret, HR; split_and!; [split; [done|by exists P, Q]|done..]|].
  apply wpp_bind.
  destruct (Discard_tracked range range_listing (all p) (lk_slots (all p) - i64 (add64 (GlobalSlots config) (GlobalQueue config)) + numSlots tx)
    isLocal (priced p) ltac:(lia) Hk Ht) as (drop & ok & pr & E & Hrem & Hbut & Hno & _).
  eapply wp_ok; [rewrite E; reflexivity|]. cbv beta iota. destruct (negb isLocal && negb ok) eqn:Eok.
  { apply andb_true_iff in Eok as [_ ->%negb_true_iff]. destruct (Hno eq_refl) as [_ ->].
    apply wpp_ret, HR. split_and!; [|done..]. split; [by apply (tracked_nil range)|by exists P, Q]. }
  apply wpp_bind, wp_modify, wpp_bind. apply wp_drop_remote; [done|by exists P, Q| |].
  - intros x Hx. specialize (Hrem x Hx). unfold GetRemote in Hrem. cbn. destruct (lk_remotes (all p) !! tx_Hash x) eqn:Er; [|done].
    eapply map_disjoint_Some_r; [apply Hk|done].
  - intros p' Hw El Elo Hn. apply wpp_ret, HR. split_and!; [done|by apply Hn|done..].
Qed.
Lemma make_room_wf now tx isLocal (R : option error → TxPool → Prop) p : wf p → lk_Get (tx_Hash tx) (all p) = None →
  (∀ r p', room_made tx p p' → R r p') → wp (make_room config signer range now tx isLocal) R p.
Proof.
  intros Hw Hf HR. pose proof Hw as [Ht (P & Q & HL)]. unfold make_room. apply wpp_bind, wp_gets.
  destruct (Z.ltb_spec (add64 (GlobalSlots config) (GlobalQueue config)) (lk_slots (all p) + numSlots tx)); cbn [negb]; [|by apply wpp_ret, HR]. apply wpp_bind. destruct isLocal; [apply wpp_ret; by apply discard_for_wf|].
  pose proof HL as (_ & _ & HC).
  destruct (Underpriced_tracked tx (all p) (priced p) (c_keyed _ _ HC) Ht) as (b & pr & E & Hpr).
  assert (Hw' : wf (set_priced pr p)) by (split; [done|by exists P, Q]).
  eapply wp_ok; [rewrite E; reflexivity|]. destruct b; [by apply wpp_ret, HR|by apply discard_for_wf].
Qed.

(** *** add *)

Definition without (old : option Transaction) (al : txLookup) : txLookup :=
  match old with Some o => lk_Remove (tx_Hash o) al | None => al end.

Lemma without_get old al h : lk_Get h al = None → lk_Get h (without old al) = None.
Proof. destruct old; [apply lk_Get_Remove_none|done]. Qed.
Lemma without_tracked old al pr : tracked al pr → tracked (without old al) pr.
Proof. destruct old; [apply tracked_remove|done]. Qed.

Lemma wp_without old (R : unit → TxPool → Prop) p : tracked (all p) (priced p) →
  (∀ pr, tracked (without old (all p)) pr → R tt (set_priced pr (upd_all (without old) p))) →
  wp (match old with Some old => _ ← forget old; removed range 1 | None => mret tt end) R p.
Proof.
  intros Ht HR. destruct old as [o|].
  - apply wpp_bind, wp_modify, wp_removed; [by apply tracked_remove|]. intros pr Hpr. by apply (HR pr).
  - apply wpp_ret. specialize (HR (priced p) Ht). by destruct p.
Qed.

(** A list with [tx] put into it, the one it replaces out of the lookup set. *)
Lemma cons_put al S a l rest tx local : cons al S → S a ≡ₚ l ++ rest → incr l → lk_Get (tx_Hash tx) al = None →
  sender tx = Ok a → tx_Nonce tx ∉ tx_Nonce <$> rest →
  cons (lk_Add tx local (without (at_nonce (tx_Nonce tx) l) al)) (<[a := put_tx tx l ++ rest]> S).
Proof.
  intros HC HP Hl Hf Hs Hn. set (n := tx_Nonce tx) in *.
  assert (HC' : cons (without (at_nonce n l) al) (<[a := others n l ++ rest]> S)).
  { destruct (at_nonce n l) as [o|] eqn:E; cbn [without].
    - apply cons_drop; [done|]. by rewrite HP, (at_nonce_others n l o) at 1.
    - rewrite (at_nonce_others_none n l E Hl). eapply cons_perm; [done|]. intros b.
      destruct (decide (b = a)) as [->|]; [by rewrite fn_lookup_insert|by rewrite fn_lookup_insert_ne]. }
  eapply cons_perm; [apply (cons_add _ _ a tx local HC'); [by apply without_get|done|]|].
  - rewrite fn_lookup_insert, fmap_app, elem_of_app. intros [(t & E & [Ht _]%list_elem_of_filter)%list_elem_of_fmap|]; [|done].
    by symmetry in E.
  - intros b. destruct (decide (b = a)) as [->|]; [|by rewrite !fn_lookup_insert_ne].
    rewrite !fn_lookup_insert. by rewrite put_others.
Qed.

(** Every transaction is kept, the one that [tx] replaces apart. *)
Definition keeps (tx : Transaction) (al al' : txLookup) : Prop :=
  ∀ h t, lk_Get h al = Some t → lk_Get h al' = Some t ∨ (from t = from tx ∧ tx_Nonce t = tx_Nonce tx).
Definition accepted (tx : Transaction) (p : TxPool) (r : error + bool) (p' : TxPool) : Prop :=
  match r with inr _ => lk_Get (tx_Hash tx) (all p') = Some tx | inl _ => True end ∧ keeps tx (all p) (all p').
Lemma keeps_refl tx al : keeps tx al al.
Proof. intros h t E. by left. Qed.

Lemma lk_Get_Add tx local al : lk_Get (tx_Hash tx) al = None → lk_Get (tx_Hash tx) (lk_Add tx local al) = Some tx.
Proof.
  unfold lk_Get, lk_Add. destruct local; cbn; [by rewrite lookup_insert_eq|].
  destruct (lk_locals al !! tx_Hash tx); [done|]. by rewrite lookup_insert_eq.
Qed.

Lemma keeps_put al l tx local : keyed al → incr l → (∀ t, t ∈ l → from t = from tx) → lk_Get (tx_Hash tx) al = None →
  (∀ t, t ∈ l → lk_Get (tx_Hash t) al = Some t) →
  keeps tx al (lk_Add tx local (without (at_nonce (tx_Nonce tx) l) al)).
Proof.
  intros Hk Hl Hf Hn Hin h t E.
  assert (Hadd : ∀ al', lk_Get (tx_Hash tx) al' = None → lk_Get h al' = Some t → lk_Get h (lk_Add tx local al') = Some t).
  { intros al' Hn' E'. assert (h ≠ tx_Hash tx) by congruence. unfold lk_Get, lk_Add in *. destruct local; cbn; by rewrite lookup_insert_ne. }
  destruct (at_nonce (tx_Nonce tx) l) as [o|] eqn:Eo; cbn [without]; [|left; by apply Hadd].
  apply at_nonce_some in Eo as [Ho Eno]; [|done]. destruct (decide (h = tx_Hash o)) as [->|Hh].
  - rewrite (Hin o Ho) in E. injection E as <-. right. split; [by apply Hf|done].
  - left. apply Hadd; [by apply lk_Get_Remove_none|]. by rewrite lk_Get_Remove, decide_False.
Qed.

Lemma Overlaps_rep tx L s l : rep_list L s l → Overlaps tx L = bool_decide (tx_Nonce tx ∈ tx_Nonce <$> l).
Proof.
  intros [_ Hr _ _]. unfold Overlaps, sm_Get. rewrite (rep_items _ _ Hr), of_list_at_nonce by apply Hr.
  destruct (at_nonce (tx_Nonce tx) l) as [t|] eqn:E.
  - apply at_nonce_some in E as [Ht E]; [|apply Hr]. rewrite bool_decide_eq_true_2; [done|]. rewrite <- E. by apply list_elem_of_fmap_2.
  - rewrite bool_decide_eq_false_2; [done|]. intros (t & Et & Ht)%list_elem_of_fmap.
    assert (at_nonce (tx_Nonce tx) l = Some t) by (apply at_nonce_some; [apply Hr|done]). congruence.
Qed.

Lemma add_pending_wf now tx isLocal L (R : error + bool → TxPool → Prop) p : wf p → is_u64 (tx_Nonce tx) →
  lk_Get (tx_Hash tx) (all p) = None → sender tx = Ok (from tx) → pending p !! from tx = Some L → Overlaps tx L = true →
  (∀ r p', wf p' → accepted tx p r p' → R r p') → wp (add_pending config signer range now tx isLocal L) R p.
Proof.
  intros [Ht (P & Q & HL)] Hu Hf Hs EL Ho HR. pose proof HL as (Hp & Hq & HC).
  destruct (rep_map_some _ _ _ _ _ Hp EL) as [HLr Hne]. pose proof (rep_map_incr _ _ _ (from tx) Hp) as Hi.
  rewrite (Overlaps_rep _ _ _ _ HLr) in Ho. apply bool_decide_eq_true in Ho.
  pose proof (tl_Add_rep tx (PriceBump config) L true _ Hu HLr) as Ha. unfold add_pending, abs_add in *.
  destruct (tl_Add tx (PriceBump config) L) as [[b old] L'].
  destruct (match at_nonce _ _ with Some old => underpriced_replacement _ old tx | None => false end); destruct Ha as (-> & -> & HL').
  - apply wpp_bind, wp_modify, wpp_ret, HR; [|by split; [|apply keeps_refl]]. split; [done|]. exists P, Q. split_and!; [|done..]. cbn.
    eapply rep_map_ext; [by apply rep_map_insert|]. apply fn_insert_id.
  - apply wpp_bind, wp_modify. cbn [negb]. apply wpp_bind, wp_without; [done|]. intros pr Hpr.
    apply wpp_bind, wp_modify, wpp_bind, wp_modify, wpp_bind, wp_modify, wpp_bind, wp_modify, wpp_bind, wp_modify, wpp_ret.
    assert (HC' : cons (lk_Add tx isLocal (without (at_nonce (tx_Nonce tx) (P (from tx))) (all p)))
        (<[from tx := put_tx tx (P (from tx)) ++ Q (from tx)]> (λ a, P a ++ Q a))).
    { apply cons_put; try done. intros (u & Eu & Hin)%list_elem_of_fmap. apply list_elem_of_fmap in Ho as (t & Et & Hin').
      apply (lists_disjoint _ _ _ _ _ _ HL Hin' Hin). congruence. }
    assert (Hw : ∀ p', pending p' = <[from tx := L']> (pending p) → queue p' = queue p →
      all p' = lk_Add tx isLocal (without (at_nonce (tx_Nonce tx) (P (from tx))) (all p)) → priced p' = pl_Put tx isLocal pr →
      wf p' ∧ lk_Get (tx_Hash tx) (all p') = Some tx ∧ keeps tx (all p) (all p')).
    { intros p' E1 E2 E3 E4. split; [|rewrite E3; split; [by apply lk_Get_Add, without_get|]; apply keeps_put;
        [apply HC|done|intros t Hin; apply from_sender, (c_in _ _ HC); set_solver|done|intros t Hin; apply (c_in _ _ HC (from tx)); set_solver]].
      unfold wf, lists. rewrite E1, E2, E3, E4. split; [by apply pl_Put_tracked|]. exists (<[from tx := put_tx tx (P (from tx))]> P), Q.
      split_and!; [apply rep_map_insert; [done..|apply put_tx_nonempty]|done|]. eapply cons_ext; [exact HC'|].
      intros a. cbn beta. destruct (decide (a = from tx)) as [->|]; [by rewrite !fn_lookup_insert|by rewrite !fn_lookup_insert_ne]. }
    match goal with |- R _ ?q => destruct (Hw q) as [Hw1 Hw2]; [..|by apply HR] end.
    all: cbn [upd_beats set_events pending queue all priced]; repeat case_match; reflexivity.
Qed.

Lemma wf_frame p p' : pending p' = pending p → queue p' = queue p → all p' = all p → priced p' = priced p → wf p → wf p'.
Proof. unfold wf, lists. by intros -> -> -> ->. Qed.

Lemma enqueue_wf now tx isLocal P Q (R : error + bool → TxPool → Prop) p : tracked (all p) (priced p) → lists p P Q →
  is_u64 (tx_Nonce tx) → lk_Get (tx_Hash tx) (all p) = None → sender tx = Ok (from tx) →
  tx_Nonce tx ∉ tx_Nonce <$> P (from tx) →
  (∀ r p', wf p' → accepted tx p r p' → R r p') → wp (enqueueTx config signer range now tx isLocal true) R p.
Proof.
  intros Ht HL Hu Hf Hs Hn HR. pose proof HL as (Hp & Hq & HC). pose proof (rep_map_get _ _ _ (from tx) Hq) as HLr.
  pose proof (rep_map_incr _ _ _ (from tx) Hq) as Hi. unfold enqueueTx. apply wpp_bind, wp_gets.
  pose proof (tl_Add_rep tx (PriceBump config) _ false _ Hu HLr) as Ha. unfold abs_add in Ha.
  destruct (tl_Add tx (PriceBump config) _) as [[b old] L'].
  destruct (match at_nonce _ _ with Some old => underpriced_replacement _ old tx | None => false end) eqn:EU; destruct Ha as (-> & -> & HL').
  - apply wpp_bind, wp_modify, wpp_ret, HR; [|by split; [|apply keeps_refl]]. split; [done|]. exists P, Q. split_and!; [done| |done]. cbn.
    eapply rep_map_ext; [apply rep_map_insert; [done..|]|apply fn_insert_id]. intros E. by rewrite E in EU.
  - apply wpp_bind, wp_modify. cbn [negb]. apply wpp_bind, wp_without; [done|]. intros pr Hpr. cbn [when].
    apply wpp_bind, wpp_bind, wp_modify, wp_modify, wpp_bind, wp_gets.
    assert (HC' : cons (lk_Add tx isLocal (without (at_nonce (tx_Nonce tx) (Q (from tx))) (all p)))
        (<[from tx := put_tx tx (Q (from tx)) ++ P (from tx)]> (λ a, P a ++ Q a))).
    { apply cons_put; try done. by rewrite Permutation_app_comm. }
    assert (Hw : ∀ p', pending p' = pending p → queue p' = <[from tx := L']> (queue p) →
      all p' = lk_Add tx isLocal (without (at_nonce (tx_Nonce tx) (Q (from tx))) (all p)) → priced p' = pl_Put tx isLocal pr →
      wf p' ∧ lk_Get (tx_Hash tx) (all p') = Some tx ∧ keeps tx (all p) (all p')).
    { intros p' E1 E2 E3 E4. split; [|rewrite E3; split; [by apply lk_Get_Add, without_get|]; apply keeps_put;
        [apply HC|done|intros t Hin; apply from_sender, (c_in _ _ HC); set_solver|done|intros t Hin; apply (c_in _ _ HC (from tx)); set_solver]].
      unfold wf, lists. rewrite E1, E2, E3, E4. split; [by apply pl_Put_tracked|]. exists P, (<[from tx := put_tx tx (Q (from tx))]> Q).
      split_and!; [done|apply rep_map_insert; [done..|apply put_tx_nonempty]|]. eapply cons_perm; [exact HC'|].
      intros a. cbn beta. destruct (decide (a = from tx)) as [->|]; [|by rewrite !fn_lookup_insert_ne].
      rewrite !fn_lookup_insert. by rewrite Permutation_app_comm. }
    apply wpp_bind. destruct (beats _ !! from tx); [apply wpp_ret, wpp_ret|apply wp_modify, wpp_ret];
      match goal with |- R _ ?q => destruct (Hw q) as [Hw1 Hw2]; [reflexivity..|by apply HR] end.
Qed.

Lemma wp_journal a tx (R : unit → TxPool → Prop) p : (∀ j, R tt (set_journal j p)) → wp (journalTx a tx) R p.
Proof.
  intros HR. apply wp_modify. pose proof (HR (journal p)) as HR0. destruct p as [? ? ? ? ? ? ? lo j ? ? ? ? ? ? ?].
  cbn in *. destruct j as [j|]; [|exact HR0]. destruct (bool_decide (a ∈ lo)); [apply HR|exact HR0].
Qed.

Lemma add_queued_wf now tx local isLocal P Q (R : error + bool → TxPool → Prop) p : tracked (all p) (priced p) → lists p P Q →
  is_u64 (tx_Nonce tx) → lk_Get (tx_Hash tx) (all p) = None → sender tx = Ok (from tx) →
  tx_Nonce tx ∉ tx_Nonce <$> P (from tx) →
  (∀ r p', wf p' → accepted tx p r p' → R r p') → wp (add_queued config signer range now tx local isLocal) R p.
Proof.
  intros Ht HL Hu Hf Hs Hn HR. unfold add_queued. apply wpp_bind, (enqueue_wf now tx isLocal P Q); [done..|].
  clear Ht HL Hf Hn. rename p into p0.
  intros [e|b] p Hw Ha; [by apply wpp_ret, HR|]. destruct Ha as [Ha Hkeep]. apply wpp_bind, wp_gets, wpp_bind.
  assert (Hend : ∀ p', wf p' → (∀ h, lk_Get h (all p') = lk_Get h (all p)) →
    wp (_ ← journalTx (from tx) tx; mret (inr b)) R p').
  { intros p' Hw' Ha'. apply wpp_bind, wp_journal. intros j. apply wpp_ret, HR; [by eapply wf_frame; [..|exact Hw']|].
    split; [by etransitivity; [exact (Ha' _)|]|]. intros h t E. change (all (set_journal j p')) with (all p'). rewrite Ha'. by apply Hkeep. }
  apply wp_when; [intros _|intros _; by apply Hend]. apply wpp_bind, wp_modify, wpp_bind.
  destruct Hw as [Ht (P' & Q' & Hp & Hq & HC)]. set (p1 := set_locals _ p).
  pose proof (cons_RemoteToLocals (containsTx signer (locals p1)) (all p) _ HC) as HC'.
  pose proof (RemoteToLocals_get (containsTx signer (locals p1)) (all p)) as EG.
  eapply wp_ok; [reflexivity|].
  assert (Ht' : tracked (RemoteToLocals (containsTx signer (locals p1)) (all p)).2 (priced p)).
  { eapply tracked_mono; [|exact Ht]. apply map_filter_subseteq. }
  apply wp_removed; [exact Ht'|]. intros pr Hpr. apply Hend; [|intros h; by apply EG, HC].
  split; [done|]. exists P', Q'. split_and!; [done..|exact HC'].
Qed.

(** [add]: an accepted transaction is in the pool, and no local one has been
    given up for it but the one it replaces. *)
Definition added (tx : Transaction) (p : TxPool) (r : error + bool) (p' : TxPool) : Prop :=
  match r with inr _ => lk_Get (tx_Hash tx) (all p') = Some tx | inl _ => True end ∧
  ∀ h t, GetLocal h (all p) = Some t → lk_Get h (all p') = Some t ∨ (from t = from tx ∧ tx_Nonce t = tx_Nonce tx).
Lemma local_get h t al : GetLocal h al = Some t → lk_Get h al = Some t.
Proof. unfold GetLocal, lk_Get. by intros ->. Qed.
Lemma accepted_added tx p p1 r p' : lk_locals (all p1) = lk_locals (all p) → accepted tx p1 r p' → added tx p r p'.
Proof. intros E [Hr Hk]. split; [done|]. intros h t Et. apply Hk, local_get. unfold GetLocal in *. by rewrite E. Qed.

Lemma add_wf now tx local (R : error + bool → TxPool → Prop) p : wf p → is_u64 (tx_Nonce tx) →
  (∀ r p', wf p' → added tx p r p' → R r p') → wp (add config signer range now tx local) R p.
Proof.
  intros Hw Hu HR.
  assert (Herr : ∀ e p', wf p' → lk_locals (all p') = lk_locals (all p) → wp (mret (inl e)) R p').
  { intros e p' Hw' El. apply wpp_ret, HR; [done|]. eapply accepted_added; [exact El|]. split; [done|apply keeps_refl]. }
  unfold add. apply wpp_bind, wp_gets. destruct (lk_Get (tx_Hash tx) (all p)) as [t|] eqn:Hf; [by apply Herr|].
  apply wpp_bind, wp_gets, wpp_bind, wp_gets. destruct (validateTx _ _ _ _) as [e|] eqn:Ev; [by apply Herr|].
  assert (Hs : sender tx = Ok (from tx)).
  { unfold validateTx in Ev. unfold from_of. repeat case_match; done. }
  apply wpp_bind, make_room_wf; [done..|]. intros r p' (Hw' & Hf' & El & _). destruct r as [e|]; [by apply Herr|].
  assert (HR' : ∀ r q, wf q → accepted tx p' r q → R r q) by (intros r q Hq Ha; apply HR; [done|by eapply accepted_added]).
  apply wpp_bind, wp_gets. pose proof Hw' as [Ht (P & Q & HL)]. pose proof HL as (Hp & _ & _).
  destruct (pending p' !! from tx) as [L|] eqn:EL.
  - destruct (Overlaps tx L) eqn:Eo; [by apply add_pending_wf|].
    apply (add_queued_wf now tx local _ P Q); [done..| |done]. destruct (rep_map_some _ _ _ _ _ Hp EL) as [HLr _].
    rewrite (Overlaps_rep _ _ _ _ HLr) in Eo. by apply bool_decide_eq_false in Eo.
  - apply (add_queued_wf now tx local _ P Q); [done..| |done]. rewrite (rep_map_none _ _ _ _ Hp EL). by intros ?%elem_of_nil.
Qed.

(** *** Batches *)

Lemma addTxsLocked_wf now local txs : ∀ (R : list (option error) * gset Address → TxPool → Prop) p, wf p →
  (∀ t, t ∈ txs → is_u64 (tx_Nonce t)) → (∀ errs dirty p', wf p' → length errs = length txs → R (errs, dirty) p') →
  wp (addTxsLocked config signer range now txs local) R p.
Proof.
  induction txs as [|tx txs IH]; intros R p Hw Hu HR; cbn [addTxsLocked]; [by apply wpp_ret, HR|].
  apply wpp_bind, add_wf; [done|apply Hu; left|]. intros r p' Hw' _. apply wpp_bind, IH; [done|intros t Ht; apply Hu; by right|].
  intros errs dirty p2 Hw2 El. apply wpp_ret. destruct r; apply HR; cbn; auto.
Qed.

(** The errors of a batch: those found beforehand stay where they are, the others
    take the free places in their order. *)
Fixpoint fill (errs new : list (option error)) : list (option error) :=
  match errs with
  | [] => []
  | Some e :: errs => Some e :: fill errs new
  | None :: errs => match new with [] => None :: errs | x :: new => x :: fill errs new end
  end.
Lemma length_fill errs : ∀ new, length (fill errs new) = length errs.
Proof. induction errs as [|[e|] errs IH]; intros new; cbn; [done|by rewrite IH|]. destruct new; cbn; [done|by rewrite IH]. Qed.
Definition free (errs : list (option error)) : nat := length (filter (λ e, e = None) errs).

Lemma free_slot_spec fuel errs : ∀ k, (length errs ≤ fuel + k)%nat → (0 < free (drop k errs))%nat →
  ∃ j, free_slot fuel errs k = Ok j ∧ (k ≤ j)%nat ∧ errs !! j = Some None ∧
    (∀ i, (k ≤ i < j)%nat → ∃ e, errs !! i = Some (Some e)).
Proof.
  induction fuel as [|fuel IH]; intros k Hl Hf.
  - rewrite drop_ge in Hf by lia. cbn in Hf. lia.
  - destruct (errs !! k) as [[e|]|] eqn:E.
    + destruct (IH (S k)) as (j & Ej & Hkj & Hn & Hs); [lia| |].
      { rewrite (drop_S _ _ _ E) in Hf. exact Hf. }
      cbn [free_slot]. rewrite E. exists j. split_and!; [done|lia|done|]. intros i Hi.
      destruct (decide (i = k)) as [->|]; [eauto|]. apply Hs. lia.
    + cbn [free_slot]. rewrite E. exists k. split_and!; [done|lia|done|lia].
    + apply lookup_ge_None in E. rewrite drop_ge in Hf by lia. cbn in Hf. lia.
Qed.

Lemma fill_somes l : ∀ rest new, (∀ i, (i < length l)%nat → ∃ e, l !! i = Some (Some e)) → fill (l ++ rest) new = l ++ fill rest new.
Proof.
  induction l as [|x l IH]; intros rest new Hs; [done|]. destruct (Hs 0%nat) as [e [= ->]]; [cbn; lia|]. cbn.
  rewrite IH; [done|]. intros i Hi. apply (Hs (S i)). cbn. lia.
Qed.
Lemma free_somes l rest : (∀ i, (i < length l)%nat → ∃ e, l !! i = Some (Some e)) → free (l ++ rest) = free rest.
Proof.
  induction l as [|x l IH]; intros Hs; [done|]. destruct (Hs 0%nat) as [e [= ->]]; [cbn; lia|]. unfold free in *. cbn.
  apply IH. intros i Hi. apply (Hs (S i)). cbn. lia.
Qed.

Lemma merge_errs_fill new : ∀ pre errs, (length new ≤ free errs)%nat →
  merge_errs (pre ++ errs) new (length pre) = Ok (pre ++ fill errs new).
Proof.
  induction new as [|x new IH]; intros pre errs Hf; cbn [merge_errs].
  { f_equal. f_equal. clear. induction errs as [|[e|] errs IH]; cbn; congruence. }
  cbn in Hf. destruct (free_slot_spec (length (pre ++ errs)) (pre ++ errs) (length pre)) as (j & -> & Hj & En & Hs).
  { lia. } { rewrite drop_app_length. lia. }
  cbn [mbind result_bind]. assert (exists i, j = (length pre + i)%nat) as [i ->] by (exists (j - length pre)%nat; lia).
  rewrite lookup_app_r in En by lia. replace (length pre + i - length pre)%nat with i in En by lia.
  pose proof (take_drop_middle _ _ _ En) as Em. set (l := take i errs) in *. set (rest := drop (S i) errs) in *.
  assert (Hli : length l = i) by (apply length_take_le, Nat.lt_le_incl; by apply lookup_lt_Some in En).
  assert (Hl : ∀ k, (k < length l)%nat → ∃ e, l !! k = Some (Some e)).
  { intros k Hk. destruct (Hs (length pre + k)%nat) as [e E]; [lia|]. rewrite lookup_app_r in E by lia.
    replace (length pre + k - length pre)%nat with k in E by lia. exists e. unfold l. rewrite lookup_take_lt by lia. done. }
  rewrite <- Em in Hf |- *. rewrite (free_somes _ _ Hl) in Hf. assert (Ef : free (None :: rest) = S (free rest)) by done.
  rewrite (fill_somes _ _ _ Hl). cbn [fill]. replace (length pre + i)%nat with (length (pre ++ l)) by (rewrite length_app; lia).
  rewrite app_assoc. rewrite insert_app_r_alt, Nat.sub_diag by lia. cbn [insert list_insert].
  replace (S (length (pre ++ l))) with (length ((pre ++ l) ++ [x])) by (rewrite length_app; cbn; lia).
  replace ((pre ++ l) ++ x :: rest) with (((pre ++ l) ++ [x]) ++ rest) by (by rewrite <- !app_assoc).
  rewrite IH by lia. f_equal. by rewrite <- !app_assoc.
Qed.

Lemma precheck_free p txs : free (precheck signer p <$> txs) = length (filter (λ tx, precheck signer p tx = None) txs).
Proof.
  unfold free. induction txs as [|tx txs IH]; [done|]. cbn [fmap list_fmap]. rewrite !filter_cons.
  destruct (decide (precheck signer p tx = None)); cbn; congruence.
Qed.

Lemma addTxs_wf now txs local (R : list (option error) * gset Address → TxPool → Prop) p : wf p →
  (∀ t, t ∈ txs → is_u64 (tx_Nonce t)) → (∀ r p', wf p' → length r.1 = length txs → R r p') →
  wp (addTxs config signer range now txs local) R p.
Proof.
  intros Hw Hu HR. unfold addTxs. apply wpp_bind, wp_gets, wpp_bind, wp_gets.
  pose proof (precheck_free p txs) as Hfree. destruct (filter _ txs) as [|tx news] eqn:E.
  - apply wpp_ret, HR; [done|]. cbn. by rewrite length_fmap.
  - rewrite <- E in *. apply wpp_bind, addTxsLocked_wf; [done|intros t [_ Ht]%list_elem_of_filter; by apply Hu|].
    intros errs dirty p' Hw' El. pose proof (merge_errs_fill errs [] (precheck signer p <$> txs)) as Hm.
    cbn [app length] in Hm. apply wpp_bind. eapply wp_run; [apply Hm; lia|].
    apply wpp_ret, HR; [done|]. cbn. by rewrite length_fill, length_fmap.
Qed.
End Inv.
