(* ===== verification/TxPoolReorg.v ===== *)
(** * Promotion, demotion, limits and new heads keep the pool consistent

    The rest of the operations of the pool: what [runReorg] does, the eviction of
    idle accounts and the change of the minimum price. They return, keep the
    invariant of TxPoolInv, and after a run of [runReorg] the pool is within its
    limits. *)

From stdpp Require Import functions.
From S2P Require Import Prelude Bytes Rlp Types Params Misc Heap Transaction TxList TxListRefine TxPriced StateTransition TxPool TxPoolInv.

Section Reorg.
Context `{Crypto} {config : TxPoolConfig} {chainconfig : ChainConfig} {signer : Signer}.
Context {range : gmap Z Transaction → list (Z * Transaction)} {accounts : gmap Address txList → list Address}
  {flatten : gset Address → list Address}.
Context {range_listing : Listing range} {accounts_listing : KeyListing accounts}.

Notation sender := (pool_sender signer).
Notation from := (from_of signer).
Notation lists := (lists (signer := signer)).
Notation cons := (cons (signer := signer)).
Notation wf := (wf (signer := signer)).

(** *** Promotion and demotion *)

Context (queue_ok : 0 ≤ AccountQueue config < 2 ^ 63).

(** Only the lists of one account have changed. *)
Record touches (a : Address) (p : TxPool) (P Q : Address → list Transaction) (p' : TxPool)
  (P' Q' : Address → list Transaction) : Prop := {
  to_lists : lists p' P' Q';
  to_tracked : tracked (all p') (priced p');
  to_locals : locals p' = locals p;
  to_other b : b ≠ a → P' b = P b ∧ Q' b = Q b
}.

Lemma remove_all_app l1 l2 al : remove_all (l1 ++ l2) al = remove_all l2 (remove_all l1 al).
Proof. apply foldl_app. Qed.
Lemma remotes_remove_all l : ∀ al, lk_remotes (remove_all l al) ⊆ lk_remotes al.
Proof.
  induction l as [|x l IH]; intros al; [done|]. cbn. etransitivity; [apply IH|apply remotes_Remove].
Qed.
Lemma tracked_remove_all l al pr : tracked al pr → tracked (remove_all l al) pr.
Proof. apply tracked_mono, remotes_remove_all. Qed.

(** The lists of an account changed, and what was in neither gone. *)
Lemma touches_lists a p P Q p' l q ds : lists p P Q → P a ++ Q a ≡ₚ ds ++ l ++ q →
  rep_map (pending p') true (<[a := l]> P) → rep_map (queue p') false (<[a := q]> Q) →
  all p' = remove_all ds (all p) → tracked (all p') (priced p') → locals p' = locals p →
  touches a p P Q p' (<[a := l]> P) (<[a := q]> Q).
Proof.
  intros (_ & _ & HC) HP Hp Hq Ha Ht Hl. split; [|done..|intros b Hb; by rewrite !fn_lookup_insert_ne].
  split_and!; [done..|]. rewrite Ha. eapply cons_ext; [exact (cons_drops _ _ a ds (l ++ q) HC HP)|]. intros b. cbn beta.
  destruct (decide (b = a)) as [->|]; [by rewrite !fn_lookup_insert|by rewrite !fn_lookup_insert_ne].
Qed.

Lemma filter_split (P : Transaction → Prop) `{!∀ t, Decision (P t)} (l : list Transaction) :
  l ≡ₚ filter P l ++ filter (λ t, ¬ P t) l.
Proof.
  induction l as [|x l IH]; [done|]. rewrite !filter_cons. destruct (decide (P x)).
  - rewrite decide_False by tauto. cbn. by constructor.
  - rewrite decide_True by done. rewrite <- Permutation_middle. by constructor.
Qed.
Lemma ready_app n l : (ready_of n l).1 ++ (ready_of n l).2 = l.
Proof. destruct l as [|t l]; [done|]. unfold ready_of. destruct (_ <? _); [done|apply run_from_app]. Qed.
Lemma filter_strict_split f (l : list Transaction) : l ≡ₚ filter (λ t, f t = true) l ++ filter (λ t, ¬ f t = true) (drop (length (take_ok f l)) l) ++ take_ok f l.
Proof.
  destruct (take_ok_cases f l) as [(-> & _ & ->)|(x & q & E & Hx & Hp)].
  - rewrite drop_ge, filter_nil by done. done.
  - set (pre := take_ok f l) in *. clearbody pre. subst l. rewrite drop_app_length, filter_app.
    rewrite (filter_none _ pre) by (intros t Ht; rewrite (Hp t Ht); done). cbn [app].
    rewrite (Permutation_app_comm pre). rewrite app_assoc. apply Permutation_app_tail, (filter_split (λ t, f t = true)).
Qed.

(** The capped rest of a queue. *)
Lemma cap_queue (local : bool) L l (R : list Transaction * txList → TxPool → Prop) p : rep_list L false l →
  (∀ caps L' l', rep_list L' false l' → l ≡ₚ caps ++ l' → (local = false → (length l' ≤ Z.to_nat (AccountQueue config))%nat) → R (caps, L') p) →
  wp (if local then mret ([], L) else run (tl_Cap (i64 (AccountQueue config)) L)) R p.
Proof.
  intros HL HR. destruct local; [by apply wpp_ret, (HR [] L l)|].
  rewrite i64_small by lia. destruct (Cap_rep (AccountQueue config) L false l) as (L' & E & HL'); [lia|done|].
  eapply wp_run; [done|]. eapply HR; [done| |].
  - rewrite reverse_Permutation, Permutation_app_comm. by rewrite take_drop.
  - intros _. rewrite length_take. lia.
Qed.

Lemma promote_account_wf now a P Q (R : list Transaction → TxPool → Prop) p : tracked (all p) (priced p) → lists p P Q →
  (∀ r p' P' Q', touches a p P Q p' P' Q' → R r p') → wp (promote_account config range now a) R p.
Proof.
  intros Ht HL HR. pose proof HL as (Hp & Hq & HC). unfold promote_account. apply wpp_bind, wp_gets.
  destruct (queue p !! a) as [L|] eqn:E; [|apply wpp_ret; by apply (HR [] p P Q)].
  destruct (rep_map_some _ _ _ _ _ Hq E) as [HLr Hne]. apply wpp_bind, wp_gets.
  destruct (Forward_rep (hs_nonce (currentState p) a) L false _ HLr) as (L1 & E1 & HL1).
  set (fw := filter _ (Q a)) in *. set (q1 := filter _ (Q a)) in HL1. apply wpp_bind. eapply wp_run; [exact E1|]. cbv beta iota.
  apply wpp_bind, wp_forgets, wpp_bind, wp_gets. cbn [fst snd].
  pose proof (tl_Filter_rep range range_listing (hs_balance (currentState p) a) (currentMaxGas p) L1 false q1 HL1) as HF.
  cbn [currentState currentMaxGas upd_all].
  destruct (tl_Filter range _ _ L1) as [[ds inv] L2]. unfold abs_filter in HF. destruct HF as (Hds & _ & HL2).
  set (f := too_costly _ _) in *. set (q2 := filter _ q1) in HL2.
  apply wpp_bind, wp_forgets, wpp_bind. cbn [nc_get pendingNonces upd_all]. eapply wp_ok; [reflexivity|].
  set (next := default 0 _). destruct (Ready_rep next L2 false _ HL2) as (L3 & E3 & HL3). set (rd := ready_of next q2) in *.
  apply wpp_bind. eapply wp_run; [exact E3|]. cbv beta iota.
  assert (HS : Q a ≡ₚ fw ++ ds ++ rd.1 ++ rd.2).
  { rewrite (filter_split (under (hs_nonce (currentState p) a)) (Q a)) at 1. fold fw q1. apply Permutation_app_head.
    rewrite (filter_split (λ t, f t = true) q1) at 1. rewrite Hds. apply Permutation_app_head. unfold rd. by rewrite ready_app. }
  apply wpp_bind, (wp_promotes now a rd.1 P).
  - done.
  - intros t Hin. assert (Hin' : t ∈ Q a) by (rewrite HS; set_solver). exact (rep_map_u64 _ _ _ _ _ Hq Hin').
  - pose proof (c_nodup _ _ HC a) as Hn. cbn beta in Hn. rewrite HS in Hn.
    assert (Hpm : P a ++ fw ++ ds ++ rd.1 ++ rd.2 ≡ₚ (rd.1 ++ P a) ++ fw ++ ds ++ rd.2) by solve_Permutation.
    rewrite Hpm, fmap_app in Hn. by apply NoDup_app in Hn as (? & _).
  - intros m nc bs l Hm Hl. apply wpp_bind, wp_gets, wpp_bind. apply (cap_queue _ L3 rd.2); [exact HL3|].
    intros caps L4 q4 HL4 Hq4 _. apply wpp_bind, wp_forgets, wpp_bind, wp_removed.
    { cbn. by apply tracked_remove_all, tracked_remove_all, tracked_remove_all. }
    intros pr Hpr. apply wpp_bind, wp_modify, wpp_bind.
    pose proof (rep_map_put _ _ _ a _ _ Hq HL4) as Hm'.
    assert (Hfin : ∀ p', pending p' = m → queue p' = (if tl_Empty L4 then delete a (<[a:=L4]> (queue p)) else <[a:=L4]> (queue p)) →
      all p' = remove_all caps (remove_all ds (remove_all fw (all p))) → priced p' = pr → locals p' = locals p → R rd.1 p').
    { intros p' F1 F2 F3 F4 F5. apply (HR _ p' (<[a := l]> P) (<[a := q4]> Q)), (touches_lists a p P Q p' l q4 (fw ++ ds ++ caps)).
      - done. - rewrite HS, Hl, Hq4. solve_Permutation. - by rewrite F1. - by rewrite F2.
      - by rewrite F3, !remove_all_app. - by rewrite F3, F4. - done. }
    destruct (tl_Empty L4); [apply wpp_bind, wp_modify, wp_modify, wpp_ret|apply wpp_ret, wpp_ret]; by apply Hfin.
Qed.

Lemma promoteExecutables_wf now addrs : ∀ (R : list Transaction → TxPool → Prop) p, wf p →
  (∀ r p', wf p' → locals p' = locals p → R r p') → wp (promoteExecutables config range now addrs) R p.
Proof.
  induction addrs as [|a addrs IH]; intros R p [Ht (P & Q & HL)] HR; cbn [promoteExecutables].
  - apply wpp_ret, HR; [split; [done|by exists P, Q]|done].
  - apply wpp_bind, (promote_account_wf now a P Q); [done..|]. intros r p' P' Q' [HL' Ht' El _].
    apply wpp_bind, IH; [split; [done|by exists P', Q']|]. intros r' p2 Hw2 El2. apply wpp_ret, HR; [done|congruence].
Qed.

(** Transactions demoted from the pending list of an account. *)
Lemma wp_demotes now a txs (l0 : list Transaction) Q (R : unit → TxPool → Prop) p : rep_map (queue p) false Q →
  (∀ t, t ∈ txs → t ∈ l0) → (∀ t, t ∈ l0 → from t = a ∧ is_u64 (tx_Nonce t)) → NoDup (tx_Nonce <$> txs ++ Q a) →
  (∀ m bs q, rep_map m false (<[a := q]> Q) → q ≡ₚ txs ++ Q a → R tt (upd_beats (λ _, bs) (upd_queue (λ _, m) p))) →
  wp (each txs (requeue config signer range now)) R p.
Proof. intros Hq Hs Ha Hn HR. apply (wp_requeues now a txs Q); auto. Qed.

Lemma demote_account_wf now a P Q (R : unit → TxPool → Prop) p : tracked (all p) (priced p) → lists p P Q → P a ≠ [] →
  (∀ p' P' Q', touches a p P Q p' P' Q' → R tt p') → wp (demote_account config signer range now a) R p.
Proof.
  intros Ht HL HPa HR. pose proof HL as (Hp & Hq & HC). unfold demote_account.
  destruct (pending p !! a) as [L|] eqn:E; [|by rewrite (rep_map_none _ _ _ _ Hp E) in HPa].
  destruct (rep_map_some _ _ _ _ _ Hp E) as [HLr Hne].
  assert (Hown : ∀ t, t ∈ P a → from t = a ∧ is_u64 (tx_Nonce t)).
  { intros t Hin. split; [|exact (rep_map_u64 _ _ _ _ _ Hp Hin)]. apply from_sender, (c_in _ _ HC a). set_solver. }
  apply wpp_bind. eapply wp_ok; [unfold the_list; rewrite E; reflexivity|]. apply wpp_bind, wp_gets.
  set (n := hs_nonce (currentState p) a). destruct (Forward_rep n L true _ HLr) as (L1 & E1 & HL1).
  set (olds := filter _ (P a)) in *. set (l1 := filter _ (P a)) in HL1. apply wpp_bind. eapply wp_run; [exact E1|]. cbv beta iota.
  apply wpp_bind, wp_forgets, wpp_bind, wp_gets. cbn [fst snd].
  pose proof (tl_Filter_rep range range_listing (hs_balance (currentState p) a) (currentMaxGas p) L1 true l1 HL1) as HF.
  cbn [currentState currentMaxGas upd_all].
  destruct (tl_Filter range _ _ L1) as [[ds inv] L2]. unfold abs_filter in HF. destruct HF as (Hds & Hinv & HL2).
  set (f := too_costly _ _) in *. set (l2 := take_ok f l1) in *.
  assert (HS : P a ≡ₚ olds ++ ds ++ inv ++ l2).
  { rewrite (filter_split (under n) (P a)) at 1. fold olds l1. apply Permutation_app_head.
    rewrite (filter_strict_split f l1) at 1. by rewrite Hds, Hinv. }
  assert (Hnd : NoDup (tx_Nonce <$> (l2 ++ inv ++ Q a) ++ olds ++ ds)).
  { pose proof (c_nodup _ _ HC a) as Hn. cbn beta in Hn. rewrite HS in Hn.
    assert (Hpm : (olds ++ ds ++ inv ++ l2) ++ Q a ≡ₚ (l2 ++ inv ++ Q a) ++ olds ++ ds) by solve_Permutation.
    by rewrite Hpm in Hn. }
  rewrite fmap_app in Hnd. apply NoDup_app in Hnd as (Hnd & _). 
  apply wpp_bind, wp_forgets, wpp_bind. apply (wp_demotes now a inv (P a) Q); [done|intros t; rewrite HS; set_solver|done| |].
  { rewrite fmap_app in Hnd. by apply NoDup_app in Hnd as (_ & _ & ?). }
  intros m bs q Hm Hqq.
  (* the end: the list [l] stays pending, [g] has gone to the queue *)
  assert (Hend : ∀ L3 l3 g m3 bs3 q3 p3, rep_list L3 true l3 → l2 ≡ₚ g ++ l3 → rep_map m3 false (<[a := q3]> Q) → q3 ≡ₚ g ++ q →
    p3 = upd_beats (λ _, bs3) (upd_queue (λ _, m3) (upd_all (remove_all ds) (upd_all (remove_all olds) p))) →
    wp (_ ← modify (upd_pending <[a := L3]>); when (tl_Empty L3) (modify (upd_pending (delete a)))) R p3).
  { intros L3 l3 g m3 bs3 q3 p3 HL3 Hg Hm3 Hq3 ->. pose proof (rep_map_put _ _ _ a _ _ Hp HL3) as Hm'.
    assert (Hfin : ∀ p', pending p' = (if tl_Empty L3 then delete a (<[a := L3]> (pending p)) else <[a := L3]> (pending p)) →
      queue p' = m3 → all p' = remove_all ds (remove_all olds (all p)) → priced p' = priced p → locals p' = locals p → R tt p').
    { intros p' F1 F2 F3 F4 F5. apply (HR p' (<[a := l3]> P) (<[a := q3]> Q)), (touches_lists a p P Q p' l3 q3 (olds ++ ds)).
      - done. - rewrite HS, Hq3, Hqq, Hg. solve_Permutation. - by rewrite F1. - by rewrite F2.
      - by rewrite F3, remove_all_app. - rewrite F3, F4. by apply tracked_remove_all, tracked_remove_all. - done. }
    apply wpp_bind, wp_modify. destruct (tl_Empty L3); [apply wp_modify|apply wpp_ret]; by apply Hfin. }
  apply wpp_bind. destruct (negb (tl_Empty L2) && _).
  - destruct (Cap_rep 0 L2 true l2) as (L3 & E3 & HL3); [lia|done|]. rewrite take_0, drop_0 in *.
    apply wpp_bind. eapply wp_run; [exact E3|]. cbv beta iota. apply wpp_bind.
    apply (wp_demotes now a (reverse l2) (P a) (<[a := q]> Q)).
    + exact Hm.
    + intros t. rewrite HS, elem_of_reverse. set_solver.
    + done.
    + rewrite fn_lookup_insert, Hqq, reverse_Permutation. done.
    + intros m3 bs3 q3 Hm3 Hq3. rewrite fn_lookup_insert in Hq3. apply wpp_ret.
      eapply (Hend L3 [] (reverse l2) m3 bs3 q3); [done|by rewrite reverse_Permutation, app_nil_r| |done|reflexivity].
      eapply rep_map_ext; [exact Hm3|]. intros b. apply fn_insert_twice.
  - apply wpp_ret. by eapply (Hend L2 l2 [] m bs q).
Qed.

Lemma accounts_nodup m : NoDup (accounts m).
Proof. rewrite key_listing. apply NoDup_fst_map_to_list. Qed.
Lemma accounts_elem m a : a ∈ accounts m ↔ is_Some (m !! a).
Proof.
  rewrite key_listing, list_elem_of_fmap. split.
  - intros ([b L] & -> & Hin%elem_of_map_to_list). eauto.
  - intros [L E]. exists (a, L). by rewrite elem_of_map_to_list.
Qed.
Lemma rep_map_is_some m s P a : rep_map m s P → is_Some (m !! a) ↔ P a ≠ [].
Proof.
  intros Hm. specialize (Hm a). destruct (m !! a); [|by split; [intros []|]]. split; [by destruct Hm|eauto].
Qed.

(** A loop over accounts that each touches its own lists only. *)
Definition listing_of (V : Address → list Transaction) (l : list Address) : Prop := NoDup l ∧ ∀ b, b ∈ l → V b ≠ [].
Lemma listing_accounts m s P : rep_map m s P → listing_of P (accounts m).
Proof. intros Hm. split; [apply accounts_nodup|]. intros b Hb. by apply (rep_map_is_some m s P b), accounts_elem. Qed.
Lemma listing_tail V V' a l : listing_of V (a :: l) → (∀ b, b ≠ a → V' b = V b) → listing_of V' l.
Proof.
  intros [[Ha Hn]%NoDup_cons HV] HE. split; [done|]. intros b Hb. rewrite HE; [apply HV; by right|]. by intros ->.
Qed.

Lemma demoteUnexecutables_wf now (R : unit → TxPool → Prop) p : wf p → (∀ p', wf p' → locals p' = locals p → R tt p') →
  wp (demoteUnexecutables config signer range accounts now) R p.
Proof.
  intros [Ht (P & Q & HL)] HR. unfold demoteUnexecutables. apply wpp_bind, wp_gets.
  pose proof HL as (Hp & _ & _). pose proof (listing_accounts _ _ _ Hp) as Hl. revert Hl. generalize (accounts (pending p)) as l.
  intros l Hl. eapply wpp_mono; [apply (wp_each (λ l p', locals p' = locals p ∧ tracked (all p') (priced p') ∧ ∃ P Q, lists p' P Q ∧ listing_of P l))|].
  - intros a l' p1 (El & Ht1 & P1 & Q1 & HL1 & Hl1). apply (demote_account_wf now a P1 Q1); [done..|apply Hl1; left|].
    intros p2 P2 Q2 [HL2 Ht2 El2 Ho]. split_and!; [congruence|done|]. exists P2, Q2. split; [done|].
    eapply listing_tail; [done|]. intros b Hb. by apply Ho.
  - split_and!; [done..|]. by exists P, Q.
  - intros [] p' (El & Ht' & P' & Q' & HL' & _). apply HR; [|done]. split; [done|by exists P', Q'].
Qed.

(** *** The nonces after a reorg *)

Lemma LastElement_rep L s l : rep_list L s l → l ≠ [] → ∃ t L', tl_LastElement range L = (Ok t, L') ∧ last l = Some t ∧ rep_list L' s l.
Proof.
  intros HL Hne. pose proof (sm_Flatten_rep range range_listing _ _ (rl_rep _ _ _ HL)) as Hf. unfold tl_LastElement, sm_LastElement.
  destruct (sm_Flatten range (tl_txs L)) as [c m]. destruct Hf as [-> Hm]. destruct (last l) as [t|] eqn:E; [|by apply last_None in E].
  eexists _, _. split; [done|]. split; [done|]. by eapply rep_list_sub.
Qed.
Lemma highest_wf addrs : ∀ nonces (R : gmap Address Z → TxPool → Prop) p P Q, tracked (all p) (priced p) → lists p P Q →
  (∀ b, b ∈ addrs → P b ≠ []) →
  (∀ r p', tracked (all p') (priced p') → lists p' P Q → locals p' = locals p → R r p') → wp (highest range addrs nonces) R p.
Proof.
  induction addrs as [|a addrs IH]; intros nonces R p P Q Ht HL Hl HR; cbn [highest]; [by apply wpp_ret, HR|].
  pose proof HL as (Hp & Hq & HC). pose proof (Hl a (list_elem_of_here _ _)) as Ha. apply wpp_bind.
  destruct (pending p !! a) as [L|] eqn:E; [|by rewrite (rep_map_none _ _ _ _ Hp E) in Ha].
  destruct (rep_map_some _ _ _ _ _ Hp E) as [HLr Hne]. destruct (LastElement_rep _ _ _ HLr Hne) as (t & L' & E2 & _ & HL').
  eapply wp_ok; [unfold the_list; rewrite E; reflexivity|]. rewrite E2. apply wpp_bind, wp_modify, wpp_bind. eapply wp_run; [done|].
  eapply IH; [done| |intros b Hb; apply Hl; by right|done]. split_and!; [|done..]. cbn.
  eapply rep_map_ext; [by apply rep_map_insert|]. apply fn_insert_id.
Qed.

(** ** The limits *)

Lemma total_fmap m : total m = map_fold (λ _ n acc, Z.of_nat n + acc) 0 (tl_Len <$> m).
Proof.
  unfold total. induction m as [|a L m Hn IH] using map_ind; [by rewrite fmap_empty|].
  rewrite fmap_insert, !map_fold_insert_L; [by rewrite IH|intros; lia|by rewrite lookup_fmap, Hn|intros; lia|done].
Qed.
Lemma total_ext m m' : (∀ b, tl_Len <$> m !! b = tl_Len <$> m' !! b) → total m = total m'.
Proof. intros HE. rewrite !total_fmap. f_equal. apply map_eq. intros b. by rewrite !lookup_fmap, HE. Qed.
Lemma rep_map_lens m s P b : rep_map m s P → tl_Len <$> m !! b = if decide (P b = []) then None else Some (length (P b)).
Proof.
  intros Hm. specialize (Hm b). destruct (m !! b) as [L|]; cbn.
  - destruct Hm as [HL Hne]. rewrite decide_False by done. by rewrite (rep_len _ _ _ HL).
  - by rewrite decide_True.
Qed.
Lemma total_delete m s P a : rep_map m s P → total m = zlen (P a) + total (delete a m).
Proof.
  intros Hm. pose proof (Hm a) as Ha. destruct (m !! a) as [L|] eqn:E.
  - destruct Ha as [HL _]. rewrite <- (insert_delete_id m a L) at 1 by done. unfold total.
    rewrite map_fold_insert_L; [|intros; lia|apply lookup_delete_eq]. by rewrite (rep_len _ _ _ HL).
  - rewrite Ha, delete_id by done. done.
Qed.
(** One account has changed. *)
Lemma total_change m m' s s' P P' a : rep_map m s P → rep_map m' s' P' → (∀ b, b ≠ a → P' b = P b) →
  total m' - zlen (P' a) = total m - zlen (P a).
Proof.
  intros Hm Hm' HE. rewrite (total_delete _ _ _ a Hm), (total_delete _ _ _ a Hm').
  assert (total (delete a m') = total (delete a m)); [|lia]. apply total_ext. intros b.
  destruct (decide (b = a)) as [->|Hb]; [by rewrite !lookup_delete_eq|].
  rewrite !lookup_delete_ne by done. by rewrite (rep_map_lens _ _ _ b Hm), (rep_map_lens _ _ _ b Hm'), HE.
Qed.
Lemma total_nonneg m : 0 ≤ total m.
Proof.
  unfold total. induction m as [|a L m Hn IH] using map_ind; [done|]. rewrite map_fold_insert_L; [lia|intros; lia|done].
Qed.
Lemma total_le m s P a : rep_map m s P → zlen (P a) ≤ total m.
Proof. intros Hm. rewrite (total_delete _ _ _ a Hm). pose proof (total_nonneg (delete a m)). lia. Qed.

Lemma lists_ext p P Q P' Q' : lists p P Q → (∀ a, P a = P' a) → (∀ a, Q a = Q' a) → lists p P' Q'.
Proof.
  intros (Hp & Hq & HC) EP EQ. split_and!; [by eapply rep_map_ext..|]. eapply cons_ext; [done|]. intros a. cbn. by rewrite EP, EQ.
Qed.

(** *** truncatePending *)

Lemma wp_forget_lower a caps (R : unit → TxPool → Prop) : ∀ p, (∀ nc, R tt (upd_nonces (λ _, nc) (upd_all (remove_all caps) p))) →
  wp (each caps (λ tx, _ ← forget tx; modify (upd_nonces (nc_setIfLower a (tx_Nonce tx))))) R p.
Proof.
  induction caps as [|tx caps IH]; intros p HR; cbn [each].
  - apply wpp_ret. specialize (HR (pendingNonces p)). by destruct p.
  - apply wpp_bind, wpp_bind, wp_modify, wp_modify, IH. intros nc. specialize (HR nc). by destruct p.
Qed.

Lemma wp_drop_last a P Q (R : unit → TxPool → Prop) p : tracked (all p) (priced p) → lists p P Q → (2 ≤ length (P a))%nat →
  (∀ p' l, tracked (all p') (priced p') → lists p' (<[a := l]> P) Q → locals p' = locals p → S (length l) = length (P a) →
     total (pending p') = total (pending p) - 1 → total (queue p') = total (queue p) → R tt p') → wp (drop_last range a) R p.
Proof.
  intros Ht HL Hlen HR. pose proof HL as (Hp & Hq & HC). unfold drop_last.
  destruct (pending p !! a) as [L|] eqn:E; [|rewrite (rep_map_none _ _ _ _ Hp E) in Hlen; cbn in Hlen; lia].
  destruct (rep_map_some _ _ _ _ _ Hp E) as [HLr _]. apply wpp_bind. eapply wp_ok; [unfold the_list; rewrite E; reflexivity|].
  rewrite (rep_len _ _ _ HLr). destruct (Cap_rep (Z.of_nat (length (P a)) - 1) L true (P a)) as (L' & EC & HL'); [lia|done|].
  set (k := Z.to_nat (Z.of_nat (length (P a)) - 1)) in *. apply wpp_bind. eapply wp_run; [exact EC|]. cbv beta iota.
  apply wpp_bind, wp_modify, wpp_bind, wp_forget_lower. intros nc. apply wp_removed; [by apply tracked_remove_all|]. intros pr Hpr.
  assert (Hk : S (length (take k (P a))) = length (P a)) by (rewrite length_take; lia).
  assert (Hm : rep_map (<[a := L']> (pending p)) true (<[a := take k (P a)]> P)).
  { apply rep_map_insert; [done..|]. intros E0. rewrite E0 in Hk. cbn in Hk. lia. }
  apply (HR _ (take k (P a))); [done| |done..| |done].
  - match goal with |- lists ?q _ _ => destruct (touches_lists a p P Q q (take k (P a)) (Q a) (reverse (drop k (P a))) HL) as [HL2 _ _ _] end;
      [|exact Hm|eapply rep_map_ext; [exact Hq|intros b; by rewrite fn_insert_id]|done|done|done|].
    + rewrite <- (take_drop k (P a)) at 1. rewrite reverse_Permutation. solve_Permutation.
    + eapply lists_ext; [exact HL2|done|apply fn_insert_id].
  - cbn. pose proof (total_change _ _ _ _ _ _ a Hp Hm) as HT. rewrite fn_lookup_insert in HT.
    rewrite <- (Z.sub_cancel_r _ _ (zlen (take k (P a)))). rewrite HT; [unfold zlen; lia|]. intros b Hb. by rewrite fn_lookup_insert_ne.
Qed.

Lemma wp_drop_lasts from k : ∀ (R : unit → TxPool → Prop) p P Q, tracked (all p) (priced p) → lists p P Q → NoDup from →
  (∀ b, b ∈ from → length (P b) = S (S k)) →
  (∀ p' P', tracked (all p') (priced p') → lists p' P' Q → locals p' = locals p → (∀ b, b ∈ from → length (P' b) = S k) →
     (∀ b, b ∉ from → P' b = P b) → total (pending p') = total (pending p) - zlen from → total (queue p') = total (queue p) →
     R tt p') → wp (each from (drop_last range)) R p.
Proof.
  induction from as [|a from IH]; intros R p P Q Ht HL Hn Hlen HR; cbn [each].
  - apply wpp_ret, (HR p P); try done; [by intros b ?%elem_of_nil|unfold zlen; cbn [length]; lia].
  - apply NoDup_cons in Hn as [Ha Hn]. apply wpp_bind, (wp_drop_last a P Q); [done..|rewrite Hlen by left; lia|].
    intros p1 l Ht1 HL1 El1 Hl HT1 HQ1. apply (IH _ p1 (<[a := l]> P) Q); [done..| |].
    + intros b Hb. rewrite fn_lookup_insert_ne by (intros ->; done). apply Hlen. by right.
    + intros p2 P2 Ht2 HL2 El2 Hl2 Ho2 HT2 HQ2. apply (HR p2 P2); try done.
      * congruence.
      * intros b [->|Hb]%elem_of_cons; [|by apply Hl2]. rewrite Ho2, fn_lookup_insert by done. rewrite Hlen in Hl by left. lia.
      * intros b Hb. rewrite Ho2 by (intros Hb'; apply Hb; by right). rewrite fn_lookup_insert_ne; [done|]. intros ->. apply Hb. left.
      * rewrite HT2, HT1. unfold zlen. cbn [length]. lia.
      * congruence.
Qed.

Lemma wp_pending_len a P Q (R : Z → TxPool → Prop) p : lists p P Q → P a ≠ [] → R (zlen (P a)) p → wp (pending_len a) R p.
Proof.
  intros (Hp & _ & _) Hne HR. unfold pending_len, the_list. apply wpp_bind.
  destruct (pending p !! a) as [L|] eqn:E; [|by rewrite (rep_map_none _ _ _ _ Hp E) in Hne].
  destruct (rep_map_some _ _ _ _ _ Hp E) as [HL _]. eapply wp_ok; [rewrite E; reflexivity|]. apply wpp_ret.
  by rewrite (rep_len _ _ _ HL).
Qed.

(** The accounts of [offs] come down together, from [n] transactions each. *)
Lemma wp_equalize fuel offs check thr Q : ∀ n count (R : Z → TxPool → Prop) p P, tracked (all p) (priced p) → lists p P Q →
  NoDup offs → check ∈ offs → (∀ b, b ∈ offs → length (P b) = n) → (1 ≤ n)%nat → 1 ≤ thr → count = total (pending p) →
  Z.of_nat n - thr < Z.of_nat fuel → (0 < fuel)%nat →
  (∀ p' P' n', tracked (all p') (priced p') → lists p' P' Q → locals p' = locals p →
     (∀ b, b ∈ offs → length (P' b) = n') → (∀ b, b ∉ offs → P' b = P b) → (1 ≤ n')%nat →
     (total (pending p') ≤ GlobalSlots config ∨ Z.of_nat n' ≤ thr) → (thr ≤ Z.of_nat n → thr ≤ Z.of_nat n') →
     total (queue p') = total (queue p) → R (total (pending p')) p') →
  wp (equalize config range fuel offs check thr count) R p.
Proof.
  induction fuel as [|fuel IH]; intros n count R p P Ht HL Hn Hc Hlen Hn1 Hthr -> Hfuel Hpos HR; [lia|]. cbn [equalize].
  assert (HPc : P check ≠ []) by (intros E; pose proof (Hlen _ Hc) as El; rewrite E in El; cbn in El; lia).
  apply wpp_bind, (wp_pending_len check P Q); [done..|]. unfold zlen at 1. rewrite (Hlen _ Hc).
  destruct (Z.ltb_spec (GlobalSlots config) (total (pending p))); [|apply wpp_ret, (HR p P n); auto].
  destruct (Z.ltb_spec thr (Z.of_nat n)); cbn [andb]; [|apply wpp_ret, (HR p P n); auto].
  destruct n as [|[|k]]; [lia..|]. apply wpp_bind, (wp_drop_lasts offs k _ p P Q); [done..|].
  intros p1 P1 Ht1 HL1 El1 Hl1 Ho1 HT1 HQ1. apply (IH (S k) _ R p1 P1); try done; try lia.
  intros p2 P2 n2 Ht2 HL2 El2 Hl2 Ho2 Hn2 Hor Hge HQ2. apply (HR p2 P2 n2); try done; [congruence| |lia|congruence].
  intros b Hb. rewrite Ho2, Ho1; done.
Qed.

#[local] Instance spam_strict : StrictWeak spam_less.
Proof. split; unfold spam_less; intros *; rewrite ?Z.ltb_lt, ?Z.ltb_ge; lia. Qed.

(** The offenders have one length, which no spammer exceeds, and every remote
    account over its limit is one or the other. *)
Record spam (p : TxPool) (P : Address → list Transaction) (spammers : list (Address * Z)) (offs : list Address) (n : nat) : Prop := {
  sp_nodup : NoDup (offs ++ spammers.*1);
  sp_offs b : b ∈ offs → length (P b) = n;
  sp_min : offs ≠ [] → AccountSlots config < Z.of_nat n;
  sp_entry b z : (b, z) ∈ spammers → z = zlen (P b) ∧ AccountSlots config < z ∧ (offs ≠ [] → z ≤ Z.of_nat n);
  sp_cover b : b ∉ locals p → AccountSlots config < zlen (P b) → b ∈ offs ∨ b ∈ spammers.*1
}.

Context (slots_ok : 1 ≤ AccountSlots config).

Section Pop.
(** The longest spammer becomes an offender. *)
Context (p : TxPool) (P : Address → list Transaction) (spammers : list (Address * Z)) (oa : Address) (oz : Z) (h' : list (Address * Z)).
Context (HP : spammers ≡ₚ (oa, oz) :: h') (Hmax : ∀ b z, (b, z) ∈ h' → z ≤ oz).

Lemma spam_nodup offs n : spam p P spammers offs n → NoDup ((offs ++ [oa]) ++ h'.*1).
Proof. intros Hsp. pose proof (sp_nodup _ _ _ _ _ Hsp) as Hnd. rewrite HP in Hnd. cbn in Hnd. by rewrite <- app_assoc. Qed.
Lemma spam_head offs n : spam p P spammers offs n → oz = zlen (P oa) ∧ AccountSlots config < oz ∧ (offs ≠ [] → oz ≤ Z.of_nat n).
Proof. intros Hsp. apply (sp_entry _ _ _ _ _ Hsp oa oz). rewrite HP. left. Qed.
Lemma spam_tail offs n b z : spam p P spammers offs n → (b, z) ∈ h' → b ∉ offs ∧ z = zlen (P b) ∧ AccountSlots config < z.
Proof.
  intros Hsp Hb. assert (Hb' : (b, z) ∈ spammers) by (rewrite HP; by right).
  destruct (sp_entry _ _ _ _ _ Hsp _ _ Hb') as (Hz & Hz2 & _). split_and!; [|done..]. intros Hbo.
  pose proof (spam_nodup _ _ Hsp) as Hnd. apply NoDup_app in Hnd as (_ & Hd & _). apply (Hd b); [set_solver|].
  by apply (list_elem_of_fmap_2 fst _ (b, z)).
Qed.

Lemma spam_first n : spam p P spammers [] n → spam p P h' [oa] (length (P oa)).
Proof.
  intros Hsp. destruct (spam_head _ _ Hsp) as (Hoz & Has & _). unfold zlen in Hoz. split.
  - exact (spam_nodup _ _ Hsp).
  - intros b Hb%list_elem_of_singleton. by subst b.
  - intros _. lia.
  - intros b z Hb. destruct (spam_tail _ _ _ _ Hsp Hb) as (_ & ? & ?). split_and!; [done..|]. intros _. specialize (Hmax _ _ Hb). lia.
  - intros b Hb Hbl. destruct (sp_cover _ _ _ _ _ Hsp b Hb Hbl) as [Hbs|Hbs]; [by apply elem_of_nil in Hbs|].
    rewrite HP in Hbs. cbn in Hbs. set_solver.
Qed.
Lemma spam_next offs n p1 P1 : spam p P spammers offs n → locals p1 = locals p →
  (∀ b, b ∈ offs → zlen (P1 b) = oz) → (∀ b, b ∉ offs → P1 b = P b) → spam p1 P1 h' (offs ++ [oa]) (Z.to_nat oz).
Proof.
  intros Hsp El Hl1 Ho1. destruct (spam_head _ _ Hsp) as (Hoz & Has & _). pose proof (spam_nodup _ _ Hsp) as Hnd.
  assert (Hoa : oa ∉ offs) by (intros Hb; rewrite <- app_assoc in Hnd; apply NoDup_app in Hnd as (_ & Hd & _); apply (Hd oa Hb); left).
  assert (E : ∀ b, b ∈ offs ++ [oa] → length (P1 b) = Z.to_nat oz).
  { intros b [Hb|Hb%list_elem_of_singleton]%elem_of_app; [rewrite <- (Hl1 _ Hb); unfold zlen; lia|]. subst b. rewrite Ho1 by done.
    rewrite Hoz. unfold zlen. lia. }
  split; [done|done|lia| |].
  - intros b z Hb. destruct (spam_tail _ _ _ _ Hsp Hb) as (? & ? & ?). split_and!; [by rewrite Ho1|done|]. intros _. specialize (Hmax _ _ Hb). lia.
  - rewrite El. intros b Hb Hbl. destruct (decide (b ∈ offs)) as [|Hbo]; [left; set_solver|]. rewrite Ho1 in Hbl by done.
    destruct (sp_cover _ _ _ _ _ Hsp b Hb Hbl) as [|Hbs]; [done|]. rewrite HP in Hbs. cbn in Hbs. set_solver.
Qed.
End Pop.

Lemma wp_offend fuel Q : ∀ spammers offs n (R : list Address * Z → TxPool → Prop) p P, tracked (all p) (priced p) → lists p P Q →
  heap spam_less spammers → (length spammers < fuel)%nat →
  (GlobalSlots config < total (pending p) → spam p P spammers offs n) →
  (∀ offs' n' p' P', tracked (all p') (priced p') → lists p' P' Q → locals p' = locals p → total (queue p') = total (queue p) →
     (GlobalSlots config < total (pending p') → spam p' P' [] offs' n') → R (offs', total (pending p')) p') →
  wp (offend config range fuel spammers offs (total (pending p))) R p.
Proof.
  induction fuel as [|fuel IH]; intros spammers offs n R p P Ht HL Hh Hfuel Hsp HR; [lia|]. cbn [offend].
  destruct (Z.ltb_spec (GlobalSlots config) (total (pending p))) as [Hgt|Hle]; cbn [andb].
  2:{ apply wpp_ret, (HR offs n p P); try done. lia. }
  specialize (Hsp Hgt). destruct spammers as [|s0 sp] eqn:Es; cbn [is_empty negb]; [by apply wpp_ret, (HR offs n p P)|].
  rewrite <- Es in *. destruct (heap_Pop_spec spam_less spammers Hh) as (h' & Ep & HP & Hh'); [by rewrite Es|].
  pose proof (heap_min spam_less spammers) as Hmin. destruct (spammers !!! 0%nat) as [oa oz].
  apply wpp_bind. eapply wp_run; [exact Ep|]. cbv beta iota. cbn [fst].
  assert (Hlen : length spammers = S (length h')) by (by rewrite HP).
  assert (Hle : ∀ b z, (b, z) ∈ h' → z ≤ oz).
  { intros b z Hb. apply Z.ltb_ge, (Hmin (b, z) Hh). rewrite HP. by right. }
  destruct (spam_head _ _ _ _ _ _ HP _ _ Hsp) as (Hoz & Has & Hmax). destruct (last offs) as [check|] eqn:El.
  - assert (Hc : check ∈ offs) by (apply last_Some in El as [l ->]; set_solver).
    assert (Hne : offs ≠ []) by (intros E; by rewrite E in Hc; apply elem_of_nil in Hc).
    pose proof (sp_min _ _ _ _ _ Hsp Hne) as Hnm. specialize (Hmax Hne). pose proof HL as (Hp & _ & _).
    pose proof (total_le _ _ _ check Hp) as Hnt. unfold zlen in Hnt. rewrite (sp_offs _ _ _ _ _ Hsp check Hc) in Hnt.
    apply wpp_bind, (wp_pending_len oa P Q); [done|intros E; rewrite E in Hoz; unfold zlen in Hoz; cbn [length] in Hoz; lia|].
    rewrite <- Hoz. apply wpp_bind, (wp_equalize _ offs check oz Q n _ _ p P); try done; try lia.
    { pose proof (sp_nodup _ _ _ _ _ Hsp) as Hnd. by apply NoDup_app in Hnd as (? & _). } { apply (sp_offs _ _ _ _ _ Hsp). }
    intros p1 P1 n1 Ht1 HL1 El1 Hl1 Ho1 Hn1 Hor Hge HQ1. apply (IH h' (offs ++ [oa]) (Z.to_nat oz) R p1 P1); try done; [lia| |].
    + intros Hgt1. apply (spam_next p P spammers oa oz h' HP Hle offs n); [done..| |done]. intros b Hb. unfold zlen. rewrite Hl1 by done. lia.
    + intros offs' n' p' P' ? ? El' HQ' Hsp'. apply (HR offs' n' p' P'); [done|done|congruence|congruence|done].
  - apply last_None in El. subst offs. apply (IH h' [oa] (length (P oa)) R p P); try done; [lia|].
    intros _. by apply (spam_first p P spammers oa oz h' HP Hle n).
Qed.

(** The heap of the accounts over their limit. *)
Definition over (p : TxPool) (a : Address) : option (Address * Z) :=
  match pending p !! a with
  | Some L => if negb (bool_decide (a ∈ locals p)) && (AccountSlots config <? Z.of_nat (tl_Len L)) then Some (a, Z.of_nat (tl_Len L)) else None
  | None => None
  end.
Lemma push_over p l : ∀ h, heap spam_less h → let h' := foldl (λ h addr,
        match pending p !! addr with
        | Some list =>
            if negb (bool_decide (addr ∈ locals p)) && (AccountSlots config <? Z.of_nat (tl_Len list))
            then heap_Push spam_less (addr, Z.of_nat (tl_Len list)) h else h
        | None => h
        end) h l in heap spam_less h' ∧ h' ≡ₚ omap (over p) l ++ h.
Proof.
  induction l as [|a l IH]; intros h Hh; [done|]. cbn [foldl omap list_omap]. unfold over at 1.
  destruct (pending p !! a) as [L|]; [|by apply IH]. destruct (negb _ && _); [|by apply IH].
  destruct (heap_Push_spec spam_less (a, Z.of_nat (tl_Len L)) h Hh) as [HP Hh1]. destruct (IH _ Hh1) as [Hh2 HP2].
  split; [done|]. rewrite HP2, HP. cbn. by rewrite Permutation_middle.
Qed.
Lemma over_Some p P Q a e : lists p P Q → over p a = Some e ↔ e = (a, zlen (P a)) ∧ a ∉ locals p ∧ AccountSlots config < zlen (P a).
Proof.
  intros (Hp & _ & _). unfold over, zlen. pose proof (Hp a) as Ha. destruct (pending p !! a) as [L|].
  - destruct Ha as [HL _]. rewrite (rep_len _ _ _ HL). destruct (bool_decide_reflect (a ∈ locals p)); cbn; [naive_solver|].
    destruct (Z.ltb_spec (AccountSlots config) (Z.of_nat (length (P a)))); naive_solver lia.
  - rewrite Ha. cbn. naive_solver lia.
Qed.

Lemma over_nodup p l : NoDup l → NoDup (omap (over p) l).*1 ∧ ∀ b, b ∈ (omap (over p) l).*1 → b ∈ l.
Proof.
  induction l as [|a l IH]; [intros _; split; [constructor|done]|]. intros [Ha Hl]%NoDup_cons. destruct (IH Hl) as [H1 H2].
  assert (Ho : ∀ e, over p a = Some e → e.1 = a) by (unfold over; intros e; repeat case_match; by intros [= <-]).
  cbn [omap list_omap]. destruct (over p a) as [e|] eqn:E.
  - cbn [fmap list_fmap]. rewrite (Ho e eq_refl). split; [apply NoDup_cons; auto|]. intros b. rewrite !elem_of_cons. intros [|]; auto.
  - split; [done|]. intros b Hb. right. by apply H2.
Qed.

Definition pending_within (p : TxPool) : Prop :=
  total (pending p) ≤ GlobalSlots config ∨
  ∀ a L, pending p !! a = Some L → a ∉ locals p → Z.of_nat (tl_Len L) ≤ AccountSlots config.

Lemma within_lists p P Q : lists p P Q → (∀ b, b ∉ locals p → zlen (P b) ≤ AccountSlots config) → pending_within p.
Proof.
  intros (Hp & _ & _) Hw. right. intros a L E Ha. destruct (rep_map_some _ _ _ _ _ Hp E) as [HL _].
  rewrite (rep_len _ _ _ HL). by apply Hw.
Qed.

Lemma truncatePending_wf (R : unit → TxPool → Prop) p : wf p →
  (∀ p', wf p' → locals p' = locals p → total (queue p') = total (queue p) → pending_within p' → R tt p') →
  wp (truncatePending config range accounts) R p.
Proof.
  intros [Ht (P & Q & HL)] HR. unfold truncatePending. apply wpp_bind, wp_gets.
  destruct (Z.leb_spec (total (pending p)) (GlobalSlots config)) as [Hle|Hgt].
  { apply wpp_ret, HR; [split; [done|by exists P, Q]|done..|by left]. }
  apply wpp_bind, wp_gets, wpp_bind.
  destruct (push_over p (accounts (pending p)) []) as [Hh HP]; [intros j; cbn; lia|].
  destruct (over_nodup p _ (accounts_nodup (pending p))) as [Hnd _]. pose proof HL as (Hp & _ & _).
  set (h := foldl _ _ _) in *. rewrite app_nil_r in HP. apply (wp_offend (S (length h)) Q h [] 0 _ p P); [done..|lia| |].
  { intros _. split; [cbn; by rewrite HP|by intros b ?%elem_of_nil|done| |].
    - intros b z. rewrite HP. intros (a & _ & E)%list_elem_of_omap. apply (over_Some p P Q) in E as ([= -> ->] & _ & ?); [|done]. done.
    - intros b Hb Hbl. right. rewrite HP. apply (list_elem_of_fmap_2 fst _ (b, zlen (P b))), list_elem_of_omap. exists b. split.
      + apply accounts_elem, (rep_map_is_some _ _ _ _ Hp). intros E. rewrite E in Hbl. unfold zlen in Hbl. cbn [length] in Hbl. lia.
      + by apply (over_Some p P Q). }
  intros offs n p1 P1 Ht1 HL1 El1 HQ1 Hsp1. destruct (last offs) as [check|] eqn:El.
  2:{ apply wpp_ret, HR; [split; [done|by exists P1, Q]|done..|]. apply last_None in El. subst offs.
    destruct (Z.le_gt_cases (total (pending p1)) (GlobalSlots config)) as [|Hgt1]; [by left|]. specialize (Hsp1 Hgt1).
    eapply within_lists; [done|]. intros b Hb. destruct (Z.le_gt_cases (zlen (P1 b)) (AccountSlots config)) as [|Hl]; [done|].
    destruct (sp_cover _ _ _ _ _ Hsp1 b Hb Hl) as [Hx|Hx]; by apply elem_of_nil in Hx. }
  destruct (Z.ltb_spec (GlobalSlots config) (total (pending p1))) as [Hgt1|Hle1].
  2:{ apply wpp_ret, HR; [split; [done|by exists P1, Q]|done..|by left]. }
  specialize (Hsp1 Hgt1). assert (Hc : check ∈ offs) by (apply last_Some in El as [l ->]; set_solver).
  pose proof (sp_min _ _ _ _ _ Hsp1) as Hnm. pose proof HL1 as (Hp1 & _ & _).
  pose proof (total_le _ _ _ check Hp1) as Hnt. unfold zlen in Hnt. rewrite (sp_offs _ _ _ _ _ Hsp1 check Hc) in Hnt.
  assert (Hne : offs ≠ []) by (intros E; by rewrite E in Hc; apply elem_of_nil in Hc). specialize (Hnm Hne).
  apply wpp_bind, (wp_equalize _ offs check (AccountSlots config) Q n _ _ p1 P1); try done; try lia.
  { pose proof (sp_nodup _ _ _ _ _ Hsp1) as Hn. cbn in Hn. by rewrite app_nil_r in Hn. } { apply (sp_offs _ _ _ _ _ Hsp1). }
  intros p2 P2 n2 Ht2 HL2 El2 Hl2 Ho2 Hn2 Hor _ HQ2. apply wpp_ret, HR; [split; [done|by exists P2, Q]|congruence..|].
  destruct Hor as [|Hor]; [by left|]. eapply within_lists; [done|]. intros b Hb. destruct (decide (b ∈ offs)) as [Hbo|Hbo].
  { unfold zlen. by rewrite Hl2. }
  rewrite Ho2 by done. destruct (Z.le_gt_cases (zlen (P1 b)) (AccountSlots config)) as [|Hl]; [done|].
  rewrite El2 in Hb. destruct (sp_cover _ _ _ _ _ Hsp1 b Hb Hl) as [|Hx]; [done|by apply elem_of_nil in Hx].
Qed.

(** *** truncateQueue *)

(** Queued transactions of an account leave the pool. *)
Lemma wp_drop_queued now a P txs : ∀ (R : unit → TxPool → Prop) p Q, tracked (all p) (priced p) → lists p P Q →
  NoDup txs → (∀ t, t ∈ txs → t ∈ Q a) →
  (∀ p' Q', tracked (all p') (priced p') → lists p' P Q' → locals p' = locals p → (∀ b, b ≠ a → Q' b = Q b) →
     Q a ≡ₚ txs ++ Q' a → R tt p') →
  wp (each txs (λ tx, removeTx config signer range now (tx_Hash tx) true)) R p.
Proof.
  induction txs as [|tx txs IH]; intros R p Q Ht HL Hn Hin HR; cbn [each]; [by apply wpp_ret, (HR p Q)|].
  apply NoDup_cons in Hn as [Hn1 Hn2]. pose proof (Hin tx (list_elem_of_here _ _)) as Htx. pose proof HL as (_ & Hq & HC).
  destruct (c_in _ _ HC a tx) as [Hs Hk]; [set_solver|]. pose proof (from_sender _ _ Hs) as Hf.
  pose proof (rep_map_incr _ _ _ a Hq) as Hi.
  apply wpp_bind, (wp_removeTx_out now _ tx P Q); [done..|]. intros p1 P1 Q1 Hr Ht1. destruct Hr as [HL1 Ea1 El1 Ho1 Hq1].
  rewrite Hf in Ho1, Hq1. destruct (Hq1 Htx) as [EP1 EQ1].
  assert (Hperm : Q a ≡ₚ tx :: Q1 a) by (rewrite EQ1; apply at_nonce_others; [done|by apply at_nonce_some]).
  assert (HL1' : lists p1 P Q1).
  { eapply lists_ext; [exact HL1| |done]. intros b. destruct (decide (b = a)) as [->|Hb]; [done|by apply Ho1]. }
  apply (IH _ p1 Q1); [done..| |].
  - intros t Ht'. assert (Ha : t ∈ Q a) by (apply Hin; by right). rewrite Hperm in Ha. apply elem_of_cons in Ha as [->|]; done.
  - intros p2 Q2 Ht2 HL2 El2 Ho2 HP2. apply (HR p2 Q2); [done|done|congruence| |].
    + intros b Hb. rewrite Ho2 by done. by apply Ho1.
    + rewrite Hperm, HP2. done.
Qed.

Definition queue_within (p : TxPool) : Prop :=
  total (queue p) ≤ GlobalQueue config ∨ ∀ a L, queue p !! a = Some L → a ∈ locals p.

Lemma incr_NoDup l : incr l → NoDup l.
Proof. intros Hl. by eapply NoDup_fmap_1, incr_nodup. Qed.

Lemma queue_drop p p' P Q Q' a txs : lists p P Q → lists p' P Q' → (∀ b, b ≠ a → Q' b = Q b) → Q a ≡ₚ txs ++ Q' a →
  total (queue p') = total (queue p) - zlen txs.
Proof.
  intros (_ & Hq & _) (_ & Hq' & _) Ho HP. pose proof (total_change _ _ _ _ _ _ a Hq Hq' Ho) as HT.
  apply Permutation_length in HP. rewrite length_app in HP. unfold zlen in *. lia.
Qed.

Lemma wp_drop_idle now P addrs : ∀ drop (R : unit → TxPool → Prop) p Q, tracked (all p) (priced p) → lists p P Q →
  listing_of Q addrs → (∀ b, Q b ≠ [] → b ∉ locals p → b ∈ addrs) → total (queue p) = GlobalQueue config + drop →
  (∀ p', wf p' → locals p' = locals p → (∃ Q', lists p' P Q') → queue_within p' → R tt p') →
  wp (drop_idle config signer range now addrs drop) R p.
Proof.
  induction addrs as [|a addrs IH]; intros drop R p Q Ht HL Hl Hcov HT HR; cbn [drop_idle].
  - apply wpp_ret, HR; [split; [done|by exists P, Q]|done|by exists Q|]. right. intros b L E. destruct (decide (b ∈ locals p)) as [|Hb]; [done|].
    exfalso. pose proof HL as (_ & Hq & _). destruct (rep_map_some _ _ _ _ _ Hq E) as [_ Hne]. by pose proof (Hcov b Hne Hb) as ?%elem_of_nil.
  - destruct (Z.leb_spec drop 0); [apply wpp_ret, HR; [split; [done|by exists P, Q]|done|by exists Q|left; lia]|].
    pose proof HL as (Hp & Hq & HC). pose proof (proj2 Hl a (list_elem_of_here _ _)) as Ha.
    destruct (queue p !! a) as [L|] eqn:E; [|by rewrite (rep_map_none _ _ _ _ Hq E) in Ha].
    destruct (rep_map_some _ _ _ _ _ Hq E) as [HLr _]. apply wpp_bind. eapply wp_ok; [unfold the_list; rewrite E; reflexivity|].
    rewrite (rep_len _ _ _ HLr). destruct (Flatten_rep _ _ _ HLr) as (L' & -> & HL'). apply wpp_bind, wp_modify.
    set (p0 := upd_queue _ p). assert (HL0 : lists p0 P Q).
    { split_and!; [done| |done]. cbn. eapply rep_map_ext; [by apply rep_map_insert|]. apply fn_insert_id. }
    assert (HT0 : total (queue p0) = total (queue p)).
    { pose proof (queue_drop p p0 P Q Q a [] HL HL0 (λ _ _, eq_refl) (reflexivity _)) as HT0. unfold zlen in HT0. cbn [length] in HT0. lia. }
    pose proof (incr_NoDup _ (rep_map_incr _ _ _ a Hq)) as Hnd.
    destruct (Z.leb_spec (Z.of_nat (length (Q a))) drop) as [Hsz|Hsz].
    + apply wpp_bind, (wp_drop_queued now a P (Q a) _ p0 Q); [done..|]. intros p1 Q1 Ht1 HL1 El1 Ho1 HP1.
      assert (HQ1 : Q1 a = []) by (apply Permutation_length in HP1; rewrite length_app in HP1; apply nil_length_inv; lia).
      apply (IH _ _ p1 Q1); [done|done|by eapply listing_tail| | |].
      * intros b Hb Hbl. rewrite El1 in Hbl. destruct (decide (b = a)) as [->|Hba]; [done|]. rewrite Ho1 in Hb by done.
        apply Hcov, elem_of_cons in Hb; [|done]. tauto.
      * rewrite (queue_drop p0 p1 P Q Q1 a (Q a) HL0 HL1 Ho1 HP1). unfold zlen. lia.
      * intros p' Hw' El' HP' Hw2. apply HR; [done|etransitivity; [exact El'|exact El1]|done..].
    + apply (wp_drop_queued now a P (take (Z.to_nat drop) (reverse (Q a))) _ p0 Q); [done..| | |].
      * apply sublist_NoDup with (reverse (Q a)); [by rewrite reverse_Permutation|apply sublist_take].
      * intros t Ht'. apply elem_of_reverse. by eapply take_sub.
      * intros p1 Q1 Ht1 HL1 El1 Ho1 HP1. apply HR; [split; [done|by exists P, Q1]|done|by exists Q1|left].
        rewrite (queue_drop p0 p1 P Q Q1 a _ HL0 HL1 Ho1 HP1). unfold zlen. rewrite length_take, length_reverse. lia.
Qed.

Lemma pending_within_same p p' P Q Q' : lists p P Q → lists p' P Q' → locals p' = locals p → pending_within p → pending_within p'.
Proof.
  intros (Hp & _ & _) (Hp' & _ & _) El Hw.
  assert (HE : ∀ b, tl_Len <$> pending p' !! b = tl_Len <$> pending p !! b).
  { intros b. by rewrite (rep_map_lens _ _ _ b Hp), (rep_map_lens _ _ _ b Hp'). }
  destruct Hw as [Hw|Hw]; [left; by rewrite (total_ext _ _ HE)|right]. rewrite El. intros a L E Ha.
  specialize (HE a). rewrite E in HE. destruct (pending p !! a) as [L0|] eqn:E0; [|done]. injection HE as ->. by eapply Hw.
Qed.

Lemma truncateQueue_wf now (R : unit → TxPool → Prop) p : wf p →
  (∀ p', wf p' → locals p' = locals p → (pending_within p → pending_within p') → queue_within p' → R tt p') →
  wp (truncateQueue config signer range accounts now) R p.
Proof.
  intros [Ht (P & Q & HL)] HR. unfold truncateQueue. apply wpp_bind, wp_gets.
  destruct (Z.leb_spec (total (queue p)) (GlobalQueue config)).
  { apply wpp_ret, HR; [split; [done|by exists P, Q]|done..|by left]. }
  apply wpp_bind, wp_gets. pose proof HL as (_ & Hq & _).
  set (l := (λ a, (a, default 0 (beats p !! a))) <$> filter (λ a, a ∉ locals p) (accounts (queue p))).
  assert (Hperm : reverse (merge_sort later l).*1 ≡ₚ filter (λ a, a ∉ locals p) (accounts (queue p))).
  { rewrite reverse_Permutation, merge_sort_Permutation. unfold l. rewrite <- list_fmap_compose. cbn. by rewrite list_fmap_id. }
  apply (wp_drop_idle now P _ _ _ p Q); [done..| | |lia|].
  - split; [rewrite Hperm; apply NoDup_filter, accounts_nodup|]. intros b. rewrite Hperm. intros [_ Hb]%list_elem_of_filter.
    by apply (rep_map_is_some _ _ _ _ Hq), accounts_elem.
  - intros b Hb Hbl. rewrite Hperm. apply list_elem_of_filter. split; [done|]. by apply accounts_elem, (rep_map_is_some _ _ _ _ Hq).
  - intros p' Hw' El [Q' HL'] Hw. apply HR; [done..| |done]. by eapply pending_within_same.
Qed.

(** ** A change of the head *)

Section Chain.
Context (GetBlock : Hash → Z → option ChainBlock) (StateAt : Hash → result HeadState).
(** What the chain promises: blocks are found under their number, which does not
    reach the largest one, and the nonces of their transactions have 64 bits; the
    state of a block is found or it is not. *)
Context (block_number : ∀ h n b, GetBlock h n = Some b → cb_number b = n ∧ n < two64 - 1).
Context (block_nonces : ∀ h n b t, GetBlock h n = Some b → t ∈ cb_txs b → is_u64 (tx_Nonce t)).
Context (state_found : ∀ r w, StateAt r ≠ Panic w).

Notation u64s l := (∀ t : Transaction, t ∈ l → is_u64 (tx_Nonce t)).

Lemma u64s_app (l1 l2 : list Transaction) : u64s l1 → u64s l2 → u64s (l1 ++ l2).
Proof. intros H1 H2 t [?|?]%elem_of_app; auto. Qed.

Definition known_block (b : ChainBlock) : Prop := ∃ h n, GetBlock h n = Some b.
Lemma known_number b : known_block b → 0 ≤ cb_number b.
Proof. intros _. apply u64_bound. Qed.
Lemma known_parent b b' : known_block b → parent_block GetBlock b = Some b' → known_block b' ∧ cb_number b' = cb_number b - 1.
Proof.
  intros Hb E. split; [unfold parent_block in E; by eexists _, _|]. apply block_number in E as [-> Hlt].
  pose proof (known_number b Hb) as H0. unfold sub64, u64, two64 in *. destruct (Z.eq_dec (cb_number b) 0) as [E0|Hne].
  - rewrite E0 in Hlt. by vm_compute in Hlt.
  - destruct Hb as (h & n & E). apply block_number in E as [En Hn]. apply Z.mod_small. lia.
Qed.
Lemma known_nonces b : known_block b → u64s (cb_txs b).
Proof. intros (h & n & E) t. by apply block_nonces with h n. Qed.

Lemma walk_to_ok fuel number : ∀ b txs, 0 ≤ number → known_block b → u64s txs → (Z.to_nat (cb_number b) < fuel)%nat →
  ∃ r, walk_to GetBlock fuel number b txs = Ok r ∧
    ∀ b' txs', r = Some (b', txs') → known_block b' ∧ u64s txs' ∧ cb_number b' ≤ cb_number b.
Proof.
  induction fuel as [|fuel IH]; intros b txs Hnum Hb Ht Hf; [lia|]. cbn [walk_to].
  destruct (Z.ltb_spec number (cb_number b)); [|eexists; split; [done|]; by intros b' txs' [= <- <-]].
  destruct (parent_block GetBlock b) as [b1|] eqn:E; [|by eexists].
  destruct (known_parent _ _ Hb E) as [Hb1 En]. destruct (IH b1 (txs ++ cb_txs b)) as (r & Er & Hr); [done|done| |lia|].
  { apply u64s_app; [done|by apply known_nonces]. }
  exists r. split; [done|]. intros b' txs' E'. destruct (Hr _ _ E') as (? & ? & ?). split_and!; [done..|lia].
Qed.
Lemma walk_both_ok fuel : ∀ rem add ds inc, known_block rem → known_block add → u64s ds →
  (Z.to_nat (cb_number rem) < fuel)%nat →
  ∃ r, walk_both GetBlock fuel rem add ds inc = Ok r ∧ ∀ ds' inc', r = Some (ds', inc') → u64s ds'.
Proof.
  induction fuel as [|fuel IH]; intros rem add ds inc Hr Ha Hd Hf; [lia|]. cbn [walk_both].
  destruct (_ =? _); [eexists; split; [done|]; by intros ? ? [= <- <-]|].
  destruct (parent_block GetBlock rem) as [rem'|] eqn:E; [|by eexists].
  destruct (parent_block GetBlock add) as [add'|] eqn:E2; [|by eexists].
  destruct (known_parent _ _ Hr E) as [Hr' En]. destruct (known_parent _ _ Ha E2) as [Ha' _].
  pose proof (known_number _ Hr'). apply IH; [done..| |lia]. apply u64s_app; [done|by apply known_nonces].
Qed.

(** What is asked of a head: its number, its base fee from London on, and the
    block itself. *)
Definition head_number (h : Header) : Z := big_Uint64 (default 0 (Number h)).
Record head_ok (h : Header) : Prop := {
  ho_number : is_Some (Number h);
  ho_baseFee : IsLondon chainconfig (Number h) = true → is_Some (BaseFee h) ∧ 2 ≤ GasLimit h;
  ho_block : is_Some (GetBlock (Header_Hash h) (head_number h))
}.

Lemma reinjected_ok fuel old new : head_ok new → (∀ o, old = Some o → is_Some (Number o)) →
  (∀ h, old = Some h ∨ h = new → (Z.to_nat (head_number h) < fuel)%nat) →
  ∃ r, reinjected GetBlock fuel old new = Ok r ∧ ∀ txs, r = Some txs → u64s txs.
Proof.
  intros [[nn En] _ [bn Eb]] Hold Hf. unfold reinjected, head_number in *. destruct old as [o|].
  2:{ eexists. split; [done|]. intros txs [= <-]. by intros t ?%elem_of_nil. }
  destruct (Hold o eq_refl) as [on Eo]. pose proof (Hf o (or_introl eq_refl)) as Hfo. pose proof (Hf new (or_intror eq_refl)) as Hfn.
  rewrite En in *. rewrite Eo in *. cbn [default id deref mbind result_bind fmap] in *.
  assert (Hnil : ∃ r : option (list Transaction), Ok (Some []) = Ok r ∧ ∀ txs, r = Some txs → u64s txs).
  { eexists. split; [done|]. intros txs [= <-]. by intros t ?%elem_of_nil. }
  destruct (_ =? _); [done|]. cbn [fmap result_fmap mbind result_bind].
  destruct (64 <? _); [done|]. destruct (GetBlock (Header_Hash o) _) as [rem|] eqn:Er; [|destruct (_ <=? _); [by eexists|done]].
  rewrite Eb. cbn [deref mbind result_bind].
  assert (Hrem : known_block rem) by (by eexists _, _). assert (Hadd : known_block bn) by (by eexists _, _).
  pose proof (block_number _ _ _ Er) as [Nr _]. pose proof (block_number _ _ _ Eb) as [Nb _].
  destruct (walk_to_ok fuel (cb_number bn) rem []) as (r1 & -> & H1); [by apply known_number|done|by intros t ?%elem_of_nil|by rewrite Nr|].
  cbn [mbind result_bind]. destruct r1 as [[rem1 ds]|]; [|by eexists]. destruct (H1 _ _ eq_refl) as (Hk1 & Hd1 & Hn1).
  destruct (walk_to_ok fuel (cb_number rem1) bn []) as (r2 & -> & H2); [by apply known_number|done|by intros t ?%elem_of_nil|by rewrite Nb|].
  cbn [mbind result_bind]. destruct r2 as [[add1 inc]|]; [|by eexists]. destruct (H2 _ _ eq_refl) as (Hk2 & Hd2 & Hn2).
  destruct (walk_both_ok fuel rem1 add1 ds inc) as (r3 & -> & H3); [done..| |].
  { pose proof (known_number _ Hk1). lia. }
  cbn [mbind result_bind]. destruct r3 as [[ds' inc']|]; [|by eexists]. eexists. split; [done|]. intros txs [= <-] t [_ Ht]%list_elem_of_filter.
  by eapply H3.
Qed.

Lemma CalcBaseFee_ok h : head_ok h → ∃ f, CalcBaseFee chainconfig h = Ok f.
Proof.
  intros [_ Hb _]. unfold CalcBaseFee. destruct (IsLondon chainconfig (Number h)); cbn [negb]; [|by eexists].
  destruct (Hb eq_refl) as [[f ->] Hg]. 
  assert (Hd : ∀ x, div64 x (GasLimit h / ElasticityMultiplier) = Ok (x / (GasLimit h / ElasticityMultiplier))).
  { intros x. unfold div64. rewrite (proj2 (Z.eqb_neq _ _)); [done|]. unfold ElasticityMultiplier. pose proof (Z.div_le_mono 2 (GasLimit h) 2 ltac:(lia) Hg) as Hle.
    rewrite Z.div_same in Hle by lia. lia. }
  destruct (_ =? _); [by eexists|]. destruct (_ <? _); cbn [deref mbind result_bind]; rewrite Hd; cbn [mbind result_bind]; by eexists.
Qed.

(** The requests of a run, and its fuel. *)
Definition request_ok (fuel : nat) (old : option Header) (new : Header) : Prop :=
  head_ok new ∧ (∀ o, old = Some o → is_Some (Number o)) ∧
  (∀ h, old = Some h ∨ h = new → (Z.to_nat (head_number h) < fuel)%nat).

Lemma reset_wf fuel now old new (R : unit → TxPool → Prop) p : wf p → request_ok fuel old new → (∀ p', wf p' → R tt p') →
  wp (reset config chainconfig signer range GetBlock StateAt fuel now old new) R p.
Proof.
  intros Hw (Hnew & Hold & Hf) HR. unfold reset.
  destruct (reinjected_ok fuel old new Hnew Hold Hf) as (r & Er & Hr). apply wpp_bind. eapply wp_run; [exact Er|].
  destruct r as [txs|]; [|by apply wpp_ret, HR]. destruct (StateAt (Root new)) as [st|e|w] eqn:Es; [|by apply wpp_ret, HR|by apply state_found in Es].
  apply wpp_bind, wp_modify, wpp_bind, addTxsLocked_wf; [|by apply Hr|].
  { by eapply wf_frame; [..|exact Hw]. }
  intros errs dirty p' Hw' _. destruct Hnew as [[n En] _ _]. apply wpp_bind. eapply wp_run; [by rewrite En|].
  apply wp_modify, HR. by eapply wf_frame; [..|exact Hw'].
Qed.

(** The transactions waiting to be announced, by account. *)
Definition events_ok (events : gmap Address txSortedMap) : Prop := ∀ a m, events !! a = Some m → ∃ l, rep m l.

Lemma stale_events_wf addrs : ∀ events (R : gmap Address txSortedMap → TxPool → Prop) p, wf p → events_ok events →
  (∀ ev p', wf p' → R ev p') → wp (stale_events addrs events) R p.
Proof.
  induction addrs as [|a addrs IH]; intros events R p Hw He HR; cbn [stale_events]; [by apply wpp_ret, HR|].
  destruct (events !! a) as [m|] eqn:E; [|by apply IH]. destruct (He a m E) as [l Hl]. apply wpp_bind.
  destruct (nc_get a (pendingNonces p)) as [n nc] eqn:En. eapply wp_ok; [rewrite En; reflexivity|].
  destruct (sm_Forward_rep n m l Hl) as (m' & Em & Hm'). apply wpp_bind. eapply wp_run; [exact Em|]. apply IH; [| |done].
  - by eapply wf_frame; [..|exact Hw].
  - intros b m0. destruct (_ =? _)%nat.
    + intros [_ Eb]%lookup_delete_Some. eauto.
    + intros [[_ <-]|[_ Eb]]%lookup_insert_Some; eauto.
Qed.

Definition request_sound (fuel : nat) (request : option (option Header * Header)) : Prop :=
  match request with None => True | Some (old, new) => request_ok fuel old new end.

Lemma after_reset_wf now new (R : unit → TxPool → Prop) p : wf p → head_ok new → (∀ p', wf p' → R tt p') →
  wp (after_reset config chainconfig signer range accounts now new) R p.
Proof.
  intros Hw Hnew HR. unfold after_reset. apply wpp_bind, demoteUnexecutables_wf; [done|]. intros p1 [Ht1 (P & Q & HL1)] _. apply wpp_bind.
  assert (Hnext : ∀ p, tracked (all p) (priced p) → lists p P Q → wp (addrs ← gets (λ p, accounts (pending p)); nonces ← highest range addrs ∅;
    modify (upd_nonces (nc_setAll nonces))) R p).
  { intros p2 Ht2 HL2. apply wpp_bind, wp_gets, wpp_bind. pose proof HL2 as (Hp2 & _ & _).
    apply (highest_wf _ _ _ p2 P Q); [done..|apply (listing_accounts _ _ _ Hp2)|]. intros r p3 Ht3 HL3 _. apply wp_modify, HR.
    split; [done|by exists P, Q]. }
  destruct (IsLondon chainconfig _); [|by apply wpp_ret, Hnext].
  destruct (CalcBaseFee_ok new Hnew) as [f Ef]. apply wpp_bind. eapply wp_run; [exact Ef|].
  destruct (SetBaseFee_tracked range range_listing f (all p1) (priced p1)) as (pr & E & Ht).
  eapply wp_ok; [unfold reprice; rewrite E; reflexivity|]. by apply Hnext.
Qed.

Lemma runReorg_wf fuel now request dirty events (R : list Transaction → TxPool → Prop) p : wf p →
  request_sound fuel request → events_ok events →
  (∀ out p', wf p' → pending_within p' → queue_within p' → R out p') →
  wp (runReorg config chainconfig signer range accounts flatten GetBlock StateAt fuel now request dirty events) R p.
Proof.
  intros Hw Hreq He HR. unfold runReorg. apply wpp_bind. eapply (wpp_mono _ (λ _, wf)).
  { destruct request as [[old new]|]; [|by apply wpp_ret]. apply wpp_bind, reset_wf; [done..|]. intros p1 Hw1.
    apply wpp_bind, stale_events_wf; [done..|]. intros ev p2 Hw2. apply wpp_bind, wp_gets. by apply wpp_ret. }
  intros [addrs ev] p1 Hw1. apply wpp_bind, promoteExecutables_wf; [done|]. intros promoted p2 Hw2 _.
  apply wpp_bind. eapply (wpp_mono _ (λ _, wf)).
  { destruct request as [[old new]|]; [|by apply wpp_ret]. apply after_reset_wf; [done|apply Hreq|done]. }
  intros [] p3 Hw3. apply wpp_bind, truncatePending_wf; [done|]. intros p4 Hw4 _ _ Hp4.
  apply wpp_bind, truncateQueue_wf; [done|]. intros p5 Hw5 _ Hp5 Hq5. apply wpp_bind, wp_modify, wpp_ret, HR; [|by apply Hp5|done].
  by eapply wf_frame; [..|exact Hw5].
Qed.
End Chain.

(** ** The other operations *)

Lemma evict_wf now (R : unit → TxPool → Prop) p : wf p → (∀ p', wf p' → R tt p') → wp (evict config signer range accounts now) R p.
Proof.
  intros Hw HR. unfold evict. apply wpp_bind, wp_gets. eapply wpp_mono; [apply (wp_each (λ _, wf)); [|exact Hw]|by intros [] p' Hw'; apply HR].
  clear p R Hw HR. intros a _ p [Ht (P & Q & HL)]. pose proof HL as (Hp & Hq & HC). unfold evict_account. apply wpp_bind, wp_gets, wpp_bind, wp_gets.
  assert (Hw : wf p) by (split; [done|by exists P, Q]).
  destruct (queue p !! a) as [L|] eqn:E; [|done]. destruct (negb _ && _); [|done].
  destruct (rep_map_some _ _ _ _ _ Hq E) as [HLr Hne]. destruct (Flatten_rep _ _ _ HLr) as (L' & -> & HL'). apply wpp_bind, wp_modify.
  set (p0 := upd_queue _ p). assert (HL0 : lists p0 P Q).
  { split_and!; [done| |done]. cbn. eapply rep_map_ext; [by apply rep_map_insert|]. apply fn_insert_id. }
  apply (wp_drop_queued now a P (Q a) _ p0 Q); [done..|by eapply incr_NoDup, rep_map_incr|done|].
  intros p' Q' Ht' HL1 _ _ _. split; [done|by exists P, Q'].
Qed.

Lemma SetGasPrice_wf now price (R : unit → TxPool → Prop) p : wf p → (∀ p', wf p' → R tt p') →
  wp (SetGasPrice config signer range now price) R p.
Proof.
  intros Hw HR. unfold SetGasPrice. apply wpp_bind, wp_gets, wpp_bind, wp_modify.
  assert (Hw1 : wf (set_gasPrice price p)) by (by eapply wf_frame; [..|exact Hw]).
  apply wp_when; intros _; [|by apply HR]. apply wpp_bind, wp_gets, wpp_bind.
  eapply wpp_mono; [apply (wp_each (λ _, wf)); [|exact Hw1]|].
  - clear p R Hw HR Hw1. intros tx _ p Hw. pose proof Hw as [Ht (P & Q & HL)]. destruct (lk_Get (tx_Hash tx) (all p)) as [t|] eqn:E.
    + apply (wp_removeTx_in now _ t P Q); [done..|]. intros p' P' Q' Hr Epr. split; [|exists P', Q'; apply Hr].
      rewrite (rf_all _ _ _ _ _ _ _ Hr), Epr. by apply tracked_remove.
    + by apply wp_removeTx_unknown.
  - intros [] p' [Ht (P & Q & HL)]. apply wp_removed; [done|]. intros pr Hpr. apply HR. split; [done|by exists P, Q].
Qed.

Lemma newTxPool_wf head : wf (newTxPool config head).
Proof.
  split.
  - split; [intros j; cbn; lia..|]. intros h tx E. cbn in E. by rewrite lookup_empty in E.
  - exists (λ _, []), (λ _, []). split_and!; [by intros a; cbn; rewrite lookup_empty..|]. split; try done.
    + by intros a tx ?%elem_of_nil.
    + intros a. constructor.
Qed.
End Reorg.
