(* ===== verification/TxPoolSafety.v ===== *)
(** * What the transaction pool guarantees

    The operations of the pool as steps from the empty pool, and what holds of
    every pool they reach: the checks of validateTxPoolInternals
    (chain/core/tx_pool_test.go) on the lookup set and the price heaps, that no
    operation panics, that the limits hold after a run of [runReorg], and that
    room is never made at the expense of local transactions. *)

From stdpp Require Import functions.
From S2P Require Import Prelude Bytes Rlp Types Params Misc Heap Transaction TxList TxListRefine TxPriced StateTransition TxPool TxPoolInv TxPoolReorg.

(** ** Counting *)

Section Count.
Context `{Crypto} {signer : Signer}.
Notation lists := (lists (signer := signer)).
Notation wf := (wf (signer := signer)).

(** All transactions of a map of lists. *)
Definition contents (m : gmap Address txList) (P : Address → list Transaction) : list Transaction :=
  (map_to_list m).*1 ≫= P.

Lemma contents_elem m s P t : rep_map m s P → t ∈ contents m P ↔ ∃ a, t ∈ P a.
Proof.
  intros Hm. unfold contents. rewrite list_elem_of_bind. split; [naive_solver|]. intros [a Ha]. exists a. split; [done|].
  destruct (m !! a) as [L|] eqn:E; [|by rewrite (rep_map_none _ _ _ _ Hm E), elem_of_nil in Ha].
  apply list_elem_of_fmap. exists (a, L). split; [done|]. by apply elem_of_map_to_list.
Qed.
Lemma total_contents m s P : rep_map m s P → total m = zlen (contents m P).
Proof.
  intros Hm. unfold total, contents, zlen. rewrite map_fold_foldr.
  assert (HF : ∀ a L, (a, L) ∈ map_to_list m → tl_Len L = length (P a)).
  { intros a L E%elem_of_map_to_list. destruct (rep_map_some _ _ _ _ _ Hm E) as [HL _]. by apply rep_len in HL. }
  revert HF. generalize (map_to_list m) as l. induction l as [|[a L] l IH]; intros HF; [done|]. cbn.
  rewrite length_app, (HF a L) by left. cbn in IH. rewrite IH; [lia|]. intros b L' Hb. apply HF. by right.
Qed.

Lemma contents_nodup p P Q : lists p P Q → NoDup (contents (pending p) P ++ contents (queue p) Q).
Proof.
  intros HL. pose proof HL as (Hp & Hq & HC).
  assert (Hown : ∀ a b t, (t ∈ P a ∨ t ∈ Q a) → (t ∈ P b ∨ t ∈ Q b) → a = b).
  { intros a b t Ha Hb. destruct (c_in _ _ HC a t) as [Ea _]; [set_solver|]. destruct (c_in _ _ HC b t) as [Eb _]; [set_solver|]. congruence. }
  assert (Hnd : ∀ m s V, rep_map m s V → (∀ a t, t ∈ V a → t ∈ P a ∨ t ∈ Q a) → NoDup (contents m V)).
  { intros m s V Hm HV. apply NoDup_bind; [|intros a _; by eapply incr_NoDup, rep_map_incr|apply NoDup_fst_map_to_list].
    intros a b t _ _ Ha Hb. eauto. }
  apply NoDup_app. split_and!; [by eapply (Hnd (pending p)); eauto| |by eapply (Hnd (queue p)); eauto]. intros t Ht Ht'.
  rewrite (contents_elem _ _ _ _ Hp) in Ht. rewrite (contents_elem _ _ _ _ Hq) in Ht'. destruct Ht as [a Ha], Ht' as [b Hb].
  assert (a = b) as -> by (apply (Hown a b t); auto). by apply (lists_disjoint _ _ _ _ _ _ HL Ha Hb).
Qed.

(** The lookup set as one map. *)
Definition known_txs (al : txLookup) : gmap Hash Transaction := lk_locals al ∪ lk_remotes al.
Lemma known_txs_get al h : known_txs al !! h = lk_Get h al.
Proof. unfold known_txs, lk_Get. rewrite lookup_union. destruct (lk_locals al !! h), (lk_remotes al !! h); done. Qed.
Lemma known_txs_size al : keyed al → size (known_txs al) = lk_Count al.
Proof. intros (_ & _ & Hd). by apply map_size_disj_union. Qed.

Lemma count_lists p P Q : lists p P Q → total (pending p) + total (queue p) = Z.of_nat (lk_Count (all p)).
Proof.
  intros HL. pose proof HL as (Hp & Hq & HC). rewrite (total_contents _ _ _ Hp), (total_contents _ _ _ Hq). unfold zlen.
  rewrite <- Nat2Z.inj_add, <- length_app. f_equal. set (F := contents _ _ ++ contents _ _).
  assert (HF : ∀ t, t ∈ F ↔ ∃ a, t ∈ P a ++ Q a).
  { intros t. unfold F. rewrite elem_of_app, (contents_elem _ _ _ _ Hp), (contents_elem _ _ _ _ Hq). set_solver. }
  rewrite <- (known_txs_size _ (c_keyed _ _ HC)), <- length_map_to_list, <- (length_fmap fst), <- (length_fmap tx_Hash F).
  apply Permutation_length, NoDup_Permutation.
  - apply NoDup_fmap_2_strong; [|by apply contents_nodup]. intros t u [a Ha]%HF [b Hb]%HF E.
    by destruct (cons_hash_inj _ _ _ _ _ _ HC Ha Hb E).
  - apply NoDup_fst_map_to_list.
  - intros h. rewrite !list_elem_of_fmap. split.
    + intros (t & -> & [a Ha]%HF). destruct (c_in _ _ HC _ _ Ha) as [_ E]. exists (tx_Hash t, t). split; [done|].
      apply elem_of_map_to_list. by rewrite known_txs_get.
    + intros ([h' t] & -> & E%elem_of_map_to_list). rewrite known_txs_get in E. exists t. cbn. split; [eapply lk_Get_key; [apply HC|done]|].
      apply HF. by apply (c_all _ _ HC) with h'.
Qed.

(** A known transaction is pending or queued, with its sender's. *)
Lemma has_nonce_rep m s P a n : rep_map m s P → has_nonce m a n = bool_decide (n ∈ tx_Nonce <$> P a).
Proof.
  intros Hm. unfold has_nonce. destruct (m !! a) as [L|] eqn:E.
  - destruct (rep_map_some _ _ _ _ _ Hm E) as [[_ Hr _ _] _]. unfold sm_Get. rewrite (rep_items _ _ Hr), of_list_at_nonce by apply Hr.
    destruct (at_nonce n (P a)) as [t|] eqn:En.
    + apply at_nonce_some in En as [Ht <-]; [|apply Hr]. symmetry. apply bool_decide_eq_true. by apply list_elem_of_fmap_2.
    + symmetry. apply bool_decide_eq_false. intros (t & -> & Ht)%list_elem_of_fmap.
      assert (at_nonce (tx_Nonce t) (P a) = Some t) by (apply at_nonce_some; [apply Hr|done]). congruence.
  - rewrite (rep_map_none _ _ _ _ Hm E). symmetry. apply bool_decide_eq_false. cbn. by intros ?%elem_of_nil.
Qed.
Lemma status_lists p P Q h tx : lists p P Q → lk_Get h (all p) = Some tx →
  (tx ∈ P (from_of signer tx) ∧ pool_Status signer h p = TxStatusPending) ∨
  (tx ∈ Q (from_of signer tx) ∧ pool_Status signer h p = TxStatusQueued).
Proof.
  intros HL E. destruct (lists_known _ _ _ _ _ HL E) as (_ & _ & Hin). pose proof HL as (Hp & Hq & HC).
  unfold pool_Status, pool_Get. rewrite E, (has_nonce_rep _ _ _ _ _ Hp), (has_nonce_rep _ _ _ _ _ Hq).
  apply elem_of_app in Hin as [Hin|Hin]; [left|right]; split; try done.
  - by rewrite bool_decide_eq_true_2 by (by apply list_elem_of_fmap_2).
  - rewrite bool_decide_eq_false_2, bool_decide_eq_true_2; [done|by apply list_elem_of_fmap_2|].
    intros (t & Et & Ht)%list_elem_of_fmap. by apply (lists_disjoint _ _ _ _ _ _ HL Ht Hin).
Qed.
End Count.

(** The price heaps, made anew, hold the remote transactions. *)
Lemma Reheap_count (range : gmap Z Transaction → list (Z * Transaction)) `{!Listing range} al l : ∃ l', Reheap range al l = Ok l' ∧
  (length (urgent l') + length (floating l') = RemoteCount al)%nat.
Proof.
  unfold Reheap. pose proof (price_less_strict (urgent_baseFee l)) as HS.
  destruct (heap_Init_spec (urgent_less l) (range (lk_remotes al)).*2) as [P Hh].
  set (u := heap_Init _ _) in *.
  destruct (pop_n_spec (urgent_less l) (length u * floatingRatio / (urgentRatio + floatingRatio)) u Hh) as (f & u' & E & Pu & Hu').
  { unfold urgentRatio, floatingRatio. apply Nat.Div0.div_le_upper_bound. lia. }
  rewrite E. cbn [mbind result_bind]. eexists. split; [done|]. cbn [urgent floating].
  pose proof (price_less_strict None) as HSf. destruct (heap_Init_spec floating_less f) as [Pf _]. rewrite Pf.
  apply Permutation_length in Pu, P. rewrite length_app in Pu. rewrite length_fmap, (listing (lk_remotes al)), length_map_to_list in P.
  unfold RemoteCount. lia.
Qed.

(** ** Operations, and what they need *)

Section Steps.
Context `{Crypto} (c : TxPoolConfig) (chainconfig : ChainConfig) (signer : Signer).
Context (range : gmap Z Transaction → list (Z * Transaction)) (accounts : gmap Address txList → list Address)
  (flatten : gset Address → list Address).
Context (GetBlock : Hash → Z → option ChainBlock) (StateAt : Hash → result HeadState).

(** The pool works with the sanitized configuration. *)
Notation config := (sanitize c).
Notation wf := (wf (signer := signer)).

Inductive pool_op :=
| OpReset (fuel : nat) (now : Z) (oldHead : option Header) (newHead : Header)
| OpAdd (now : Z) (txs : list Transaction) (local : bool)
| OpReorg (fuel : nat) (now : Z) (request : option (option Header * Header)) (dirty : option (gset Address)) (events : list Transaction)
| OpEvict (now : Z)
| OpSetGasPrice (now price : Z)
| OpNonce (addr : Address).

Definition pool_exec (o : pool_op) : pool_m unit :=
  match o with
  | OpReset fuel now old new => reset config chainconfig signer range GetBlock StateAt fuel now old new
  | OpAdd now txs local => _ ← addTxs config signer range now txs local; mret tt
  | OpReorg fuel now request dirty events =>
      _ ← runReorg config chainconfig signer range accounts flatten GetBlock StateAt fuel now request dirty
            (foldl (λ ev tx, queue_event signer tx ev) ∅ events);
      mret tt
  | OpEvict now => evict config signer range accounts now
  | OpSetGasPrice now price => SetGasPrice config signer range now price
  | OpNonce addr => _ ← pool_Nonce addr; mret tt
  end.
Fixpoint pool_run (ops : list pool_op) (p : TxPool) : result TxPool :=
  match ops with
  | [] => Ok p
  | o :: ops => match pool_exec o p with Ok (_, p) => pool_run ops p | Err e => Err e | Panic w => Panic w end
  end.

(** What the pool relies on: iteration visits everything, the chain finds blocks
    by their number, and the nonces of transactions have 64 bits. *)
Record pool_laws : Prop := {
  pl_range : Listing range;
  pl_accounts : KeyListing accounts;
  pl_queue : AccountQueue c < 2 ^ 63;
  pl_number h n b : GetBlock h n = Some b → cb_number b = n ∧ n < two64 - 1;
  pl_nonces h n b t : GetBlock h n = Some b → t ∈ cb_txs b → is_u64 (tx_Nonce t);
  pl_state r w : StateAt r ≠ Panic w
}.
Definition op_ok (o : pool_op) : Prop :=
  match o with
  | OpReset fuel _ old new => request_ok (chainconfig := chainconfig) GetBlock fuel old new
  | OpAdd _ txs _ => ∀ t, t ∈ txs → is_u64 (tx_Nonce t)
  | OpReorg fuel _ request _ _ => request_sound (chainconfig := chainconfig) GetBlock fuel request
  | OpEvict _ | OpSetGasPrice _ _ | OpNonce _ => True
  end.

(** The checks of validateTxPoolInternals on the sets, and more: a transaction is
    found under its hash and is pending or queued; the slots are counted right. *)
Record consistent (p : TxPool) : Prop := {
  co_count : (Stats p).1 + (Stats p).2 = Z.of_nat (lk_Count (all p));
  co_priced : ∃ l, Reheap range (all p) (priced p) = Ok l ∧ (length (urgent l) + length (floating l) = RemoteCount (all p))%nat;
  co_remote h tx : GetRemote h (all p) = Some tx → tx ∈ urgent (priced p) ++ floating (priced p);
  co_known h tx : pool_Get h p = Some tx →
    tx_Hash tx = h ∧ (pool_Status signer h p = TxStatusPending ∨ pool_Status signer h p = TxStatusQueued);
  co_slots : lk_slots (all p) = slots_in (lk_locals (all p)) + slots_in (lk_remotes (all p))
}.

Context (laws : pool_laws).

Lemma wf_consistent p : wf p → consistent p.
Proof.
  intros [Ht (P & Q & HL)]. pose proof HL as (_ & _ & HC). pose proof (pl_range laws) as HR. split.
  - exact (count_lists p P Q HL).
  - apply Reheap_count, HR.
  - intros h tx. exact (tk_in _ _ Ht h tx).
  - intros h tx E. destruct (lists_known _ _ _ _ _ HL E) as (-> & _). split; [done|]. destruct (status_lists _ _ _ _ _ HL E) as [[_ ?]|[_ ?]]; auto.
  - apply HC.
Qed.

Lemma sanitize_queue : 0 ≤ AccountQueue config < 2 ^ 63.
Proof. pose proof (pl_queue laws) as Hq. cbn. destruct (Z.ltb_spec (AccountQueue c) 1); cbn; lia. Qed.
Lemma sanitize_slots : 1 ≤ AccountSlots config.
Proof. cbn. destruct (Z.ltb_spec (AccountSlots c) 1); cbn; lia. Qed.

Lemma events_ok_queue events : events_ok (foldl (λ ev tx, queue_event signer tx ev) ∅ events).
Proof.
  assert (Hg : ∀ ev, events_ok ev → events_ok (foldl (λ ev tx, queue_event signer tx ev) ev events)).
  { induction events as [|tx events IH]; intros ev Hev; [done|]. cbn [foldl]. apply IH. intros a m. unfold queue_event.
    intros [[<- <-]|[_ E]]%lookup_insert_Some; [|by eapply Hev]. destruct (ev !! from_of signer tx) as [m|] eqn:E; cbn [default].
    - destruct (Hev _ _ E) as [l Hl]. exists (put_tx tx l). by apply sm_Put_rep.
    - exists (put_tx tx []). apply sm_Put_rep, rep_new. }
  apply Hg. intros a m E. by rewrite lookup_empty in E.
Qed.

Lemma pool_exec_wf o p : wf p → op_ok o → wp (pool_exec o) (λ _, wf) p.
Proof.
  intros Hw Ho. pose proof laws as [HR HA _ Hnum Hnon Hst]. destruct o as [fuel now old new|now txs local|fuel now req dirty ev|now|now price|a]; cbn [pool_exec].
  - by eapply reset_wf.
  - apply wpp_bind, addTxs_wf; [done..|]. by intros r p' Hw' _.
  - apply wpp_bind. eapply runReorg_wf; eauto using sanitize_queue, sanitize_slots, events_ok_queue.
  - apply evict_wf; [apply sanitize_queue|apply sanitize_slots|done|done].
  - by apply SetGasPrice_wf.
  - apply wpp_bind. unfold pool_Nonce. destruct (nc_get a (pendingNonces p)) as [n nc] eqn:E. eapply wp_ok; [rewrite E; reflexivity|].
    by eapply wf_frame; [..|exact Hw].
Qed.
Lemma pool_run_wf ops : ∀ p, wf p → Forall op_ok ops → ∃ p', pool_run ops p = Ok p' ∧ wf p'.
Proof.
  induction ops as [|o ops IH]; intros p Hw Ho; [by exists p|]. apply Forall_cons in Ho as [Ho Hos]. cbn [pool_run].
  destruct (wp_inv _ _ _ (pool_exec_wf o p Hw Ho)) as (u & p1 & -> & Hw1). by apply IH.
Qed.
End Steps.

(** ** What holds of every pool *)

(** C14: However transactions come in, heads change, accounts are evicted and the
    minimum price moves, no operation of the pool panics, and the pool stays
    consistent: the lookup set holds as many transactions as the pending and
    queued lists together, each is found under its hash and is pending or queued
    for its sender, every remote one is in a price heap and the heaps made anew
    hold exactly as many entries, and the slot counter is the sum of the sizes.
    The conditions are those of the machine and of the chain: nonces are uint64, a
    new head is a known block with a number and, from London on, with a base fee
    and a gas limit above 1, blocks are found under their number, below 2^64 - 1,
    the queue limit of an account is below 2^63, and opening a state does not
    panic. *)
Theorem pool_runs_consistent `{Crypto} c chainconfig signer range accounts flatten GetBlock StateAt head ops :
  pool_laws c range accounts GetBlock StateAt → Forall (op_ok chainconfig GetBlock) ops →
  ∃ p, pool_run c chainconfig signer range accounts flatten GetBlock StateAt ops (newTxPool (sanitize c) head) = Ok p ∧
    consistent signer range p.
Proof.
  intros laws Ho. destruct (pool_run_wf c chainconfig signer range accounts flatten GetBlock StateAt laws ops
    (newTxPool (sanitize c) head) (newTxPool_wf _) Ho) as (p & E & Hw).
  exists p. split; [done|]. by eapply wf_consistent.
Qed.

(** C15: After a run of [runReorg] the pool is within its limits: at most
    GlobalSlots transactions are pending, or no remote account has more than
    AccountSlots pending; at most GlobalQueue are queued, or only local accounts
    have any. *)
Theorem runReorg_within_limits `{Crypto} c chainconfig signer range accounts flatten GetBlock StateAt head ops p
  fuel now request dirty events :
  pool_laws c range accounts GetBlock StateAt → Forall (op_ok chainconfig GetBlock) ops →
  pool_run c chainconfig signer range accounts flatten GetBlock StateAt ops (newTxPool (sanitize c) head) = Ok p →
  op_ok chainconfig GetBlock (OpReorg fuel now request dirty events) →
  ∃ out p', runReorg (sanitize c) chainconfig signer range accounts flatten GetBlock StateAt fuel now request dirty
      (foldl (λ ev tx, queue_event signer tx ev) ∅ events) p = Ok (out, p') ∧
    pending_within (config := sanitize c) p' ∧ queue_within (config := sanitize c) p'.
Proof.
  intros laws Ho E Hr. destruct (pool_run_wf c chainconfig signer range accounts flatten GetBlock StateAt laws ops
    (newTxPool (sanitize c) head) (newTxPool_wf _) Ho) as (p1 & E1 & Hw). rewrite E in E1. injection E1 as <-.
  apply wp_inv. pose proof laws as [HR HA _ Hnum Hnon Hst].
  eapply runReorg_wf; eauto using events_ok_queue. 
  - by eapply sanitize_queue.
  - by apply sanitize_slots.
Qed.

(** C16: Room for a transaction is never made at the expense of local ones: when
    [add] returns, an accepted transaction is in the pool, and every local
    transaction is still there, unless the new one has its sender and nonce and
    so replaces it. *)
Theorem add_keeps_locals `{Crypto} c chainconfig signer range accounts flatten GetBlock StateAt head ops p now tx local :
  pool_laws c range accounts GetBlock StateAt → Forall (op_ok chainconfig GetBlock) ops →
  pool_run c chainconfig signer range accounts flatten GetBlock StateAt ops (newTxPool (sanitize c) head) = Ok p →
  is_u64 (tx_Nonce tx) →
  ∃ r p', add (sanitize c) signer range now tx local p = Ok (r, p') ∧
    match r with inr _ => pool_Get (tx_Hash tx) p' = Some tx | inl _ => True end ∧
    ∀ h t, GetLocal h (all p) = Some t →
      pool_Get h p' = Some t ∨ (from_of signer t = from_of signer tx ∧ tx_Nonce t = tx_Nonce tx).
Proof.
  intros laws Ho E Hu. destruct (pool_run_wf c chainconfig signer range accounts flatten GetBlock StateAt laws ops
    (newTxPool (sanitize c) head) (newTxPool_wf _) Ho) as (p1 & E1 & Hw). rewrite E in E1. injection E1 as <-.
  apply (wp_inv _ (λ r p', match r with inr _ => pool_Get (tx_Hash tx) p' = Some tx | inl _ => True end ∧
    ∀ h t, GetLocal h (all p) = Some t → pool_Get h p' = Some t ∨ (from_of signer t = from_of signer tx ∧ tx_Nonce t = tx_Nonce tx))).
  pose proof (pl_range _ _ _ _ _ laws) as HR. apply add_wf; [done..|]. by intros r p' _ Ha.
Qed.

(** *** A small pool *)

Module PoolRun.
(** The address that signs is the second half of the signature. *)
Definition crypto : Crypto := {|
  keccak256 b := of_be b mod 2 ^ 256;
  RecoverPubkey _ sig := Some (Byte.x04 :: take 64 sig) |}.
#[export] Existing Instance crypto.
Definition tx (from nonce price : Z) : Transaction := Legacy (MkLegacy nonce price 21000 (Some 77) 1 [] 27 5 from).
Definition cfg : TxPoolConfig := MkPoolConfig [] false false 0 1 10 1 3 2 1 0.
Definition no_forks : ChainConfig := MkChainConfig (Some 1) (Some 0) None false None 0 None None None None None None None None None None None None None None None None.
Definition header : Header := MkHeader 0 0 0 5 0 0 0 (Some 2) (Some 1) 30000000 0 0 [] 0 0 None.
Definition block : ChainBlock := MkBlock header [].
Definition GetBlock (h : Hash) (n : Z) : option ChainBlock := if (h =? Header_Hash header) && (n =? 1) then Some block else None.
Definition state : HeadState := MkHead (λ _, 0) (λ _, 10 ^ 18).
Definition StateAt (r : Hash) : result HeadState := Ok state.
Definition keys (m : gmap Address txList) : list Address := (map_to_list m).*1.

Definition ops : list pool_op := [
  OpReset 2 0 None header;
  OpAdd 1 [tx 8 0 100; tx 8 1 100] true;
  OpAdd 2 [tx 6 0 10; tx 6 1 10; tx 7 0 20; tx 7 2 30] false;
  OpReorg 2 3 None (Some {[6; 7; 8]}) [];
  OpAdd 4 [tx 6 0 200] false ].

Lemma laws : pool_laws cfg map_to_list keys GetBlock StateAt.
Proof.
  split; [by intros m|by intros m|by vm_compute| | |done].
  - intros h n b. unfold GetBlock. destruct (_ =? _); cbn [andb]; [|done]. destruct (Z.eqb_spec n 1) as [->|]; [|done].
    intros [= <-]. split; [done|]. by vm_compute.
  - intros h n b t. unfold GetBlock. destruct (_ && _); [|done]. intros [= <-]. by intros ?%elem_of_nil.
Qed.
Lemma head_ok_header : head_ok (chainconfig := no_forks) GetBlock header.
Proof. split; [by eexists|done|]. exists block. vm_compute. reflexivity. Qed.
Lemma add_ok now l local : Forall (λ t, is_u64 (tx_Nonce t)) l → op_ok no_forks GetBlock (OpAdd now l local).
Proof. intros Hl. cbn [op_ok]. by rewrite Forall_forall in Hl. Qed.
Lemma pool_ops_ok : Forall (op_ok no_forks GetBlock) ops.
Proof.
  unfold ops. apply Forall_cons; split.
  { cbn [op_ok]. split_and!; [exact head_ok_header|intros o Ho; discriminate Ho|]. intros h [Ho| ->]; [discriminate Ho|]. vm_compute. lia. }
  apply Forall_cons; split; [apply add_ok; repeat (apply Forall_cons; split; [vm_compute; split; [discriminate|reflexivity]|]); by apply Forall_nil|].
  apply Forall_cons; split; [apply add_ok; repeat (apply Forall_cons; split; [vm_compute; split; [discriminate|reflexivity]|]); by apply Forall_nil|].
  apply Forall_cons; split; [exact I|]. apply Forall_cons; split; [apply add_ok; repeat (apply Forall_cons; split; [vm_compute; split; [discriminate|reflexivity]|]); by apply Forall_nil|]. constructor.
Qed.
Lemma nonce_ok : is_u64 (tx_Nonce (tx 7 0 500)).
Proof. vm_compute. split; [discriminate|reflexivity]. Qed.
Lemma promote_ok fuel now dirty events : op_ok no_forks GetBlock (OpReorg fuel now None dirty events).
Proof. exact I. Qed.
Definition run_of (l : list pool_op) : result TxPool :=
  pool_run cfg no_forks HomesteadSigner map_to_list keys elements GetBlock StateAt l (newTxPool (sanitize cfg) state).
(** The pool takes the last transaction although it is full. *)
Lemma run_ops : match run_of ops with
  | Ok p => Stats p = (3, 1) ∧ LocalCount (all p) = 2%nat ∧ pool_Status HomesteadSigner (tx_Hash (tx 6 0 200)) p = TxStatusQueued
  | _ => False
  end.
Proof. vm_compute. done. Qed.
Lemma run_found : ∃ p, run_of ops = Ok p.
Proof. pose proof run_ops as Hr. destruct (run_of ops) as [p| |]; [eauto|done..]. Qed.
End PoolRun.

Lemma pool_runs_consistent_witness :
  ∃ p, PoolRun.run_of PoolRun.ops = Ok p ∧ consistent (H := PoolRun.crypto) HomesteadSigner map_to_list p.
Proof.
  unfold PoolRun.run_of. apply (pool_runs_consistent (H := PoolRun.crypto) PoolRun.cfg PoolRun.no_forks HomesteadSigner map_to_list PoolRun.keys elements
    PoolRun.GetBlock PoolRun.StateAt PoolRun.state PoolRun.ops PoolRun.laws PoolRun.pool_ops_ok).
Defined.

Lemma runReorg_within_limits_witness :
  ∃ p out p', runReorg (H := PoolRun.crypto) (sanitize PoolRun.cfg) PoolRun.no_forks HomesteadSigner map_to_list PoolRun.keys elements
      PoolRun.GetBlock PoolRun.StateAt 2 9 None (Some {[6; 7]}) ∅ p = Ok (out, p') ∧
    pending_within (config := sanitize PoolRun.cfg) p'.
Proof.
  destruct PoolRun.run_found as [p E]. exists p. pose proof E as E0. unfold PoolRun.run_of in E0.
  destruct (runReorg_within_limits (H := PoolRun.crypto) PoolRun.cfg PoolRun.no_forks HomesteadSigner map_to_list PoolRun.keys elements
    PoolRun.GetBlock PoolRun.StateAt PoolRun.state PoolRun.ops p 2 9 None (Some {[6; 7]}) [] PoolRun.laws PoolRun.pool_ops_ok E0 (PoolRun.promote_ok 2 9 (Some {[6; 7]}) []))
    as (out & p' & E' & Hp & _). exists out, p'. split; [exact E'|exact Hp].
Defined.

Lemma add_keeps_locals_witness :
  ∃ p r p', PoolRun.run_of PoolRun.ops = Ok p ∧
    add (H := PoolRun.crypto) (sanitize PoolRun.cfg) HomesteadSigner map_to_list 9 (PoolRun.tx 7 0 500) false p = Ok (r, p') ∧
    ∀ h t, GetLocal h (all p) = Some t → pool_Get h p' = Some t ∨ from_of (H := PoolRun.crypto) HomesteadSigner t = 7.
Proof.
  destruct PoolRun.run_found as [p E]. exists p. pose proof E as E0. unfold PoolRun.run_of in E0.
  destruct (add_keeps_locals (H := PoolRun.crypto) PoolRun.cfg PoolRun.no_forks HomesteadSigner map_to_list PoolRun.keys elements
    PoolRun.GetBlock PoolRun.StateAt PoolRun.state PoolRun.ops p 9 (PoolRun.tx 7 0 500) false PoolRun.laws PoolRun.pool_ops_ok E0 PoolRun.nonce_ok)
    as (r & p' & E' & _ & Hl). exists r, p'. split; [exact E|]. split; [exact E'|].
  intros h t Ht. destruct (Hl h t Ht) as [|[-> _]]; [by left|right]. vm_compute. reflexivity.
Defined.
