(* ===== verification/TxPoolSched.v ===== *)
(** * When the pool reorganises itself (chain/core/tx_pool.go scheduleReorgLoop)

    Requests to reset the pool to a new head, or to promote the transactions of
    some accounts, come in while a run of [runReorg] may be active; the loop
    gathers them and starts the next run when the active one is done. The runs
    are numbered: the number stands for the channel that is closed when a run is
    done, which is what a request gets in reply. *)

From S2P Require Import Prelude Bytes Types Heap Transaction TxList TxListRefine TxPool.

(** ** The loop *)

(** The arguments of a run. *)
Record reorg_run := MkRun {
  run_reset : option (Header * Header);
  run_dirty : option (gset Address);
  run_events : gmap Address txSortedMap
}.
(** The variables of the loop: [curDone] and [nextDone] as run numbers. *)
Record Sched := MkSched {
  curDone : option nat;
  nextDone : nat;
  launchNextRun : bool;
  resetReq : option (Header * Header);
  dirtyAccounts : option (gset Address);
  queuedEvents : gmap Address txSortedMap
}.
Definition sched_init : Sched := MkSched None 0 false None None ∅.

(** What the loop receives; the shutdown ends it. *)
Inductive sched_msg :=
| ReqReset (oldHead newHead : Header)
| ReqPromote (accounts : gset Address)
| TxEvent (tx : Transaction)
| RunDone.

(** The next run, if there is to be one and none is active. *)
Definition sched_launch (s : Sched) : option reorg_run * Sched :=
  match curDone s with
  | None =>
      if launchNextRun s then
        (Some (MkRun (resetReq s) (dirtyAccounts s) (queuedEvents s)),
         MkSched (Some (nextDone s)) (S (nextDone s)) false None None ∅)
      else (None, s)
  | Some _ => (None, s)
  end.

Section Loop.
Context `{Crypto} (signer : Signer).

(** One message: the reply, or None for a message that cannot come (a nil channel
    is never ready). *)
Definition sched_recv (m : sched_msg) (s : Sched) : option (option nat * Sched) :=
  match m with
  | ReqReset old new =>
      Some (Some (nextDone s), MkSched (curDone s) (nextDone s) true
        (match resetReq s with None => Some (old, new) | Some (o, _) => Some (o, new) end) (dirtyAccounts s) (queuedEvents s))
  | ReqPromote accs =>
      Some (Some (nextDone s), MkSched (curDone s) (nextDone s) true (resetReq s)
        (match dirtyAccounts s with None => Some accs | Some d => Some (d ∪ accs) end) (queuedEvents s))
  | TxEvent tx =>
      Some (None, MkSched (curDone s) (nextDone s) (launchNextRun s) (resetReq s) (dirtyAccounts s)
        (queue_event signer tx (queuedEvents s)))
  | RunDone =>
      match curDone s with
      | Some _ => Some (None, MkSched None (nextDone s) (launchNextRun s) (resetReq s) (dirtyAccounts s) (queuedEvents s))
      | None => None
      end
  end.

(** The loop, as what it has started and answered: the runs, and the messages with
    the replies to them, in order. *)
Inductive sched_trace : Sched → list reorg_run → list (sched_msg * option nat) → Prop :=
| trace_init : sched_trace sched_init [] []
| trace_launch s r s' runs log : sched_trace s runs log → sched_launch s = (Some r, s') →
    sched_trace s' (runs ++ [r]) log
| trace_recv s m reply s' runs log : sched_trace s runs log →
    (sched_launch s).1 = None → sched_recv m s = Some (reply, s') →
    sched_trace s' runs (log ++ [(m, reply)]).

(** ** What a request is promised *)

(** The next run as the loop has gathered it so far. *)
Definition gathered (s : Sched) : reorg_run := MkRun (resetReq s) (dirtyAccounts s) (queuedEvents s).
(** Run [i], started or being gathered. *)
Definition run_at (s : Sched) (runs : list reorg_run) (i : nat) : option reorg_run :=
  (runs ++ [gathered s]) !! i.

(** A run does what a message asked for. *)
Definition serves (m : sched_msg) (r : reorg_run) : Prop :=
  match m with
  | ReqReset _ _ => is_Some (run_reset r)
  | ReqPromote accs => ∃ d, run_dirty r = Some d ∧ accs ⊆ d
  | TxEvent _ | RunDone => True
  end.

(** The resets lead from one head to another without a gap. *)
Fixpoint leads (h : Header) (resets : list (Header * Header)) (h' : Header) : Prop :=
  match resets with
  | [] => h = h'
  | (o, n) :: resets => o = h ∧ leads n resets h'
  end.
Definition resets_of (runs : list reorg_run) : list (Header * Header) := omap run_reset runs.
(** The heads of the requests. The pool asks for a reset from the head of its last
    request ([loop]). *)
Definition asked (log : list (sched_msg * option nat)) : list (Header * Header) :=
  omap (λ mr : sched_msg * option nat, match mr.1 with ReqReset o n => Some (o, n) | _ => None end) log.

Lemma leads_app h l1 l2 h' : leads h (l1 ++ l2) h' ↔ ∃ h1, leads h l1 h1 ∧ leads h1 l2 h'.
Proof.
  revert h. induction l1 as [|[o n] l1 IH]; intros h; cbn.
  - split; [intros Hl; by exists h|by intros (h1 & -> & ?)].
  - split.
    + intros [-> (h1 & ? & ?)%IH]. by exists h1.
    + intros (h1 & [-> ?] & ?). split; [done|]. apply IH. by exists h1.
Qed.
Lemma leads_det h l h1 h2 : leads h l h1 → leads h l h2 → h1 = h2.
Proof. revert h. induction l as [|[o n] l IH]; intros h; cbn; [by intros -> ->|]. intros [-> ?] [_ ?]. eauto. Qed.

Record sched_inv (s : Sched) (runs : list reorg_run) (log : list (sched_msg * option nat)) : Prop := {
  si_next : nextDone s = length runs;
  si_cur i : curDone s = Some i → S i = nextDone s;
  si_launch : launchNextRun s = true ↔ is_Some (resetReq s) ∨ is_Some (dirtyAccounts s);
  si_served m i : (m, Some i) ∈ log → ∃ r, run_at s runs i = Some r ∧ serves m r;
  si_heads h h' : leads h (asked log) h' → leads h (resets_of (runs ++ [gathered s])) h'
}.

Lemma serves_mono m r r' : serves m r → (is_Some (run_reset r) → is_Some (run_reset r')) →
  (∀ d, run_dirty r = Some d → ∃ d', run_dirty r' = Some d' ∧ d ⊆ d') → serves m r'.
Proof.
  intros Hs Hr Hd. destruct m; cbn in *; auto. destruct Hs as (d & E & Hsub). destruct (Hd _ E) as (d' & E' & ?).
  exists d'. split; [done|]. set_solver.
Qed.
Lemma run_at_last s runs r i : run_at s runs i = Some r → (runs !! i = Some r ∧ (i < length runs)%nat) ∨ (i = length runs ∧ r = gathered s).
Proof.
  unfold run_at. intros [E|[Hl E]]%lookup_app_Some; [left; split; [done|by apply lookup_lt_Some in E]|right].
  destruct (i - length runs)%nat eqn:Ei; [|done]. cbn in E. injection E as <-. split; [lia|done].
Qed.
Lemma run_at_done s runs i r : runs !! i = Some r → run_at s runs i = Some r.
Proof. intros E. unfold run_at. rewrite lookup_app_l; [done|by apply lookup_lt_Some in E]. Qed.
Lemma run_at_next s runs : run_at s runs (length runs) = Some (gathered s).
Proof. unfold run_at. by rewrite lookup_app_r, Nat.sub_diag by lia. Qed.

(** What is gathered only grows. *)
Lemma served_grows s s' runs m i r : run_at s runs i = Some r → serves m r →
  (is_Some (resetReq s) → is_Some (resetReq s')) →
  (∀ d, dirtyAccounts s = Some d → ∃ d', dirtyAccounts s' = Some d' ∧ d ⊆ d') →
  ∃ r', run_at s' runs i = Some r' ∧ serves m r'.
Proof.
  intros E Hs Hr Hd. destruct (run_at_last _ _ _ _ E) as [[E' _]|[-> ->]].
  - exists r. split; [by apply run_at_done|done].
  - exists (gathered s'). split; [apply run_at_next|]. by eapply serves_mono.
Qed.

Lemma resets_snoc runs r : resets_of (runs ++ [r]) = resets_of runs ++ match run_reset r with Some x => [x] | None => [] end.
Proof. unfold resets_of. rewrite omap_app. cbn. by destruct (run_reset r). Qed.
Lemma asked_snoc log m reply : asked (log ++ [(m, reply)]) = asked log ++ match m with ReqReset o n => [(o, n)] | _ => [] end.
Proof. unfold asked. rewrite omap_app. cbn. by destruct m. Qed.

Lemma sched_inv_launch s r s' runs log : sched_inv s runs log → sched_launch s = (Some r, s') → sched_inv s' (runs ++ [r]) log.
Proof.
  intros [Hn Hc Hl Hs Hh]. unfold sched_launch. destruct (curDone s); [done|]. destruct (launchNextRun s); [|done].
  intros [= <- <-]. split; cbn.
  - rewrite length_app. cbn. lia.
  - intros i [= <-]. done.
  - split; [done|by intros [[]|[]]].
  - intros m i Hin. destruct (Hs _ _ Hin) as (r & E & Hr). exists r. split; [|done]. by apply run_at_done.
  - intros h h' Hlead. rewrite resets_snoc. cbn [gathered run_reset resetReq]. rewrite app_nil_r. by apply Hh.
Qed.

Lemma sched_inv_recv s m reply s' runs log : sched_inv s runs log → sched_recv m s = Some (reply, s') →
  sched_inv s' runs (log ++ [(m, reply)]).
Proof.
  intros [Hn Hc Hl Hs Hh] E. destruct m as [old new|accs|tx|]; cbn in E.
  - injection E as <- <-. split; cbn; [done..| | |].
    + split; [intros _; left|done]. destruct (resetReq s) as [[]|]; eauto.
    + intros m i [Hin|[= -> ->]%list_elem_of_singleton]%elem_of_app.
      * destruct (Hs _ _ Hin) as (r & Er & Hr). eapply served_grows; [done..| |intros d Ed; by exists d]. cbn. destruct (resetReq s) as [[]|]; eauto.
      * rewrite Hn. exists (gathered (MkSched (curDone s) (length runs) true (match resetReq s with None => Some (old, new) | Some (o, _) => Some (o, new) end) (dirtyAccounts s) (queuedEvents s))).
        split; [apply run_at_next|]. cbn. destruct (resetReq s) as [[]|]; eauto.
    + intros h h'. rewrite asked_snoc, leads_app. intros (h1 & H1 & H2). cbn in H2. destruct H2 as [-> ->]. specialize (Hh _ _ H1).
      rewrite resets_snoc in *. cbn [gathered run_reset resetReq] in *. apply leads_app in Hh as (h2 & Ha & Hb). apply leads_app. exists h2. split; [done|].
      destruct (resetReq s) as [[o n]|]; cbn in *; naive_solver.
  - injection E as <- <-. split; cbn; [done..| | |].
    + split; [intros _; right|done]. destruct (dirtyAccounts s); eauto.
    + intros m i [Hin|[= -> ->]%list_elem_of_singleton]%elem_of_app.
      * destruct (Hs _ _ Hin) as (r & Er & Hr). eapply served_grows; [done..|]. cbn. intros d ->. eexists. split; [done|]. set_solver.
      * rewrite Hn. eexists. split; [apply run_at_next|]. cbn. destruct (dirtyAccounts s) as [d|]; eexists; (split; [done|set_solver]).
    + intros h h'. rewrite asked_snoc, app_nil_r. intros Hlead%Hh. rewrite resets_snoc in *. exact Hlead.
  - injection E as <- <-. split; cbn; [done..| |].
    + intros m i [Hin|Hin%list_elem_of_singleton]%elem_of_app; [|by simplify_eq].
      destruct (Hs _ _ Hin) as (r & Er & Hr). eapply served_grows; [done..|intros d Ed; by exists d].
    + intros h h'. rewrite asked_snoc, app_nil_r. intros Hlead%Hh. rewrite resets_snoc in *. exact Hlead.
  - destruct (curDone s); [|done]. injection E as <- <-. split; cbn; [done..| |].
    + intros m i [Hin|Hin%list_elem_of_singleton]%elem_of_app; [|by simplify_eq].
      destruct (Hs _ _ Hin) as (r & Er & Hr). eapply served_grows; [done..|intros d Ed; by exists d].
    + intros h h'. rewrite asked_snoc, app_nil_r. intros Hlead%Hh. rewrite resets_snoc in *. exact Hlead.
Qed.

Lemma sched_trace_inv s runs log : sched_trace s runs log → sched_inv s runs log.
Proof.
  induction 1 as [|s r s' runs log _ IH E|s m reply s' runs log _ IH _ E].
  - split; cbn; [done|done| |by intros m i ?%elem_of_nil|done]. split; [done|by intros [[]|[]]].
  - by eapply sched_inv_launch.
  - by eapply sched_inv_recv.
Qed.
End Loop.

(** C17: No request is lost. A request is answered with the number of a run, and
    that run, started or still being gathered, resets the pool if a reset was
    asked for, and promotes every account asked for. Resets that follow each
    other from head to head are handed to the runs as resets that follow each
    other and lead to the same head. One run is active at a time, the one started
    last; while something is gathered and none is active the loop starts the next
    run before it takes another message. *)
Theorem reorg_requests_served `{Crypto} signer s runs log : sched_trace signer s runs log →
  (∀ m i, (m, Some i) ∈ log → (i ≤ length runs)%nat ∧ ∃ r, run_at s runs i = Some r ∧ serves m r) ∧
  (∀ h h', leads h (asked log) h' → leads h (resets_of (runs ++ [gathered s])) h') ∧
  (∀ i, curDone s = Some i → S i = length runs) ∧
  (curDone s = None → (is_Some (resetReq s) ∨ is_Some (dirtyAccounts s)) → (sched_launch s).1 = Some (gathered s)).
Proof.
  intros [Hn Hc Hl Hs Hh]%sched_trace_inv. split_and!; [|done|intros i E; rewrite <- Hn; auto|].
  - intros m i Hin. destruct (Hs _ _ Hin) as (r & E & Hr). split; [|eauto]. destruct (run_at_last _ _ _ _ E) as [[_ ?]|[-> _]]; lia.
  - intros E Hg. unfold sched_launch. rewrite E, (proj2 Hl Hg). done.
Qed.

Module SchedDemo.
Definition head (n : Z) : Header := MkHeader 0 0 0 0 0 0 0 None (Some n) 0 0 0 [] 0 0 None.
Definition crypto : Crypto := {| keccak256 b := of_be b mod 2 ^ 256; RecoverPubkey _ _ := None |}.
#[local] Existing Instance crypto.
Definition msgs : list (sched_msg * option nat) :=
  [(ReqPromote {[6]}, Some 0%nat); (ReqReset (head 1) (head 2), Some 1%nat); (ReqPromote {[7]}, Some 1%nat);
   (ReqReset (head 2) (head 3), Some 1%nat); (RunDone, None)].
Definition first_run : reorg_run := MkRun None (Some {[6]}) ∅.
Definition state : Sched := MkSched None 1 true (Some (head 1, head 3)) (Some {[7]}) ∅.
Lemma trace : sched_trace FrontierSigner state [first_run] msgs.
Proof.
  pose proof (trace_init FrontierSigner) as T.
  pose proof (trace_recv _ _ (ReqPromote {[6]}) _ _ _ _ T eq_refl eq_refl) as T1.
  pose proof (trace_launch _ _ _ _ _ _ T1 eq_refl) as T2.
  pose proof (trace_recv _ _ (ReqReset (head 1) (head 2)) _ _ _ _ T2 eq_refl eq_refl) as T3.
  pose proof (trace_recv _ _ (ReqPromote {[7]}) _ _ _ _ T3 eq_refl eq_refl) as T4.
  pose proof (trace_recv _ _ (ReqReset (head 2) (head 3)) _ _ _ _ T4 eq_refl eq_refl) as T5.
  exact (trace_recv _ _ RunDone _ _ _ _ T5 eq_refl eq_refl).
Qed.
End SchedDemo.

Lemma reorg_requests_served_witness :
  leads (SchedDemo.head 1) (resets_of ([SchedDemo.first_run] ++ [gathered SchedDemo.state])) (SchedDemo.head 3) ∧
  (sched_launch SchedDemo.state).1 = Some (gathered SchedDemo.state).
Proof.
  destruct (reorg_requests_served (H := SchedDemo.crypto) FrontierSigner SchedDemo.state [SchedDemo.first_run] SchedDemo.msgs SchedDemo.trace)
    as (_ & Hh & _ & Hl). split.
  - apply Hh. cbn. done.
  - apply Hl; [reflexivity|left; by eexists].
Defined.
