(* ===== verification/Protect.v ===== *)
(** * Slashing protection (validator/internal/protect/protect.go)

    The append-only database a validator consults before it signs. The in-memory
    state [DB] and the disk [Disk] are explicit; every system call that can fail
    takes its outcome from an [AppendIO] or [LoadIO] argument, so that a theorem
    over all of them is a theorem over every failure. The process lock and the
    mutex are the reason why operations are sequential here. *)

From S2P Require Import Prelude Bytes Types Text.

(** ** Data *)

Record Scope := MkScope { sc_ChainID : Z; sc_Hub : Address; sc_Attester : Address }.

#[export] Instance Scope_eq_dec : EqDecision Scope.
Proof. solve_decision. Defined.
#[export] Instance Scope_countable : Countable Scope :=
  inj_countable' (fun s => (sc_ChainID s, sc_Hub s, sc_Attester s))
    (fun '(c, h, a) => MkScope c h a) (fun '(MkScope _ _ _) => eq_refl).

(** [Record]: one approved attestation. *)
Record SignRecord := MkRecord {
  r_Scope : Scope; r_Height : Z; r_BlockHash : Hash; r_Time : Z
}.

#[export] Instance SignRecord_eq_dec : EqDecision SignRecord.
Proof. solve_decision. Defined.

Record ExportRecord := MkExportRecord {
  x_ChainID : Z; x_Hub : Address; x_Attester : Address; x_Height : Z;
  x_BlockHash : Hash; x_Watermark : bool; x_Time : Z
}.

Definition x_Scope (r : ExportRecord) : Scope := MkScope (x_ChainID r) (x_Hub r) (x_Attester r).

(** The memory of an open database. [db_open] is [f != nil]. *)
Record DB := MkDB {
  records : gmap (Scope * Z) SignRecord;
  watermarks : gmap Scope Z;
  repaired : Z;
  broken : bool;
  db_open : bool
}.

Definition with_records (f : gmap (Scope * Z) SignRecord → gmap (Scope * Z) SignRecord) (db : DB) :=
  MkDB (f (records db)) (watermarks db) (repaired db) (broken db) (db_open db).
Definition with_watermarks (f : gmap Scope Z → gmap Scope Z) (db : DB) :=
  MkDB (records db) (f (watermarks db)) (repaired db) (broken db) (db_open db).
Definition with_repaired (n : Z) (db : DB) :=
  MkDB (records db) (watermarks db) n (broken db) (db_open db).
Definition with_broken (db : DB) :=
  MkDB (records db) (watermarks db) (repaired db) true (db_open db).
Definition with_open (b : bool) (db : DB) :=
  MkDB (records db) (watermarks db) (repaired db) (broken db) b.

(** [db.watermarks[sc]]: 0 when absent. *)
Definition watermark_of (db : DB) (sc : Scope) : Z := default 0 (watermarks db !! sc).

(** ** The disk *)

(** A file: what a process reads ([cached]), what a successful fsync covers
    ([stable]), and the bytes that may also be found after [stable] when the
    machine loses power ([limbo], or any prefix of it). *)
Record File := MkFile { cached : bytes; stable : bytes; limbo : bytes }.

Definition f_write (f : File) (l : bytes) : File :=
  MkFile (cached f ++ l) (stable f) (drop (length (stable f)) (cached f ++ l)).
Definition f_sync (f : File) : File := MkFile (cached f) (cached f) [].
Definition f_truncate (f : File) (n : nat) : File :=
  MkFile (take n (cached f)) (take n (stable f))
    (drop (min n (length (stable f))) (stable f ++ limbo f)).

(** The database file and the repair marker next to it. *)
Record Disk := MkDisk { file : option File; marker : option bytes }.

Definition the_file (d : Disk) : File := default (MkFile [] [] []) (file d).
Definition set_file (f : File) (d : Disk) : Disk := MkDisk (Some f) (marker d).
Definition set_marker (m : option bytes) (d : Disk) : Disk := MkDisk (file d) m.

(** Outcomes of the calls of one append. *)
Record AppendIO := MkAppendIO {
  io_seek : bool;        (** Seek(0, SeekCurrent) fails *)
  io_write : option nat; (** the write fails after that many bytes *)
  io_sync : bool;        (** fsync fails *)
  io_undo_truncate : bool; io_undo_seek : bool; io_undo_sync : bool
}.

Definition io_ok : AppendIO := MkAppendIO false None false false false false.

Inductive MarkerIO := MarkerWritten | MarkerOpenFails | MarkerPartial (n : nat).

(** Outcomes of the calls of one open. *)
Record LoadIO := MkLoadIO {
  lo_read_marker : bool; lo_open : bool; lo_read : bool; lo_marker : MarkerIO;
  lo_truncate : bool; lo_sync : bool; lo_seek : bool
}.

Definition load_ok : LoadIO := MkLoadIO false false false MarkerWritten false false false.

Definition io_error : error := New "input/output error".

(** ** Lines *)

(** [lower]. The lower-case form of [Address_Hex] does not depend on
    the checksum ([lower_spec]), so it is written without it. *)
Definition lower (a : Address) : bytes := Address_hex a.

Lemma lower_spec `{Crypto} a : to_lower (Address_Hex a) = lower a.
Proof. apply to_lower_Hex. Qed.

(** [line]. *)
Definition line (body : bytes) : bytes :=
  body ++ Byte.x20 :: fmt_08x (Checksum body) ++ [Byte.x0a].

(** The [fmt.Sprintf] of a record and of a watermark. *)
Definition A1_body (sc : Scope) (height : Z) (hash : Hash) (ts : Z) : bytes :=
  Join [str "A1"; fmt_u (sc_ChainID sc); lower (sc_Hub sc); lower (sc_Attester sc);
        fmt_u height; Hash_Hex hash; fmt_d ts].
Definition W1_body (sc : Scope) (height : Z) (ts : Z) : bytes :=
  Join [str "W1"; fmt_u (sc_ChainID sc); lower (sc_Hub sc); lower (sc_Attester sc);
        fmt_u height; fmt_d ts].

(** [parseScope]. *)
Definition parseScope (chain hub att : bytes) : result Scope :=
  c ← ParseUint chain 10 64;
  _ ← fail_if (negb (IsHexAddress hub) || negb (IsHexAddress att)) (New "bad address");
  Ok (MkScope c (HexToAddress hub) (HexToAddress att)).

(** [parseHash]. *)
Definition parseHash (s : bytes) : result Hash :=
  if negb (length s =? 66)%nat || negb (bool_decide (take 2 s = str "0x"))
  then Err (New "bad hash")
  else match hex_decode (drop 2 s) with
       | (b, None) => Ok (BytesToHash b)
       | (_, Some e) => Err e
       end.

(** The error of a line, and whether it is a [semanticError]. *)
Inductive line_result := Applied (db : DB) | BadLine (e : error) | Semantic (e : error).

Definition lift_line {A} (r : result A) (k : A → line_result) : line_result :=
  match r with Ok a => k a | Err e => BadLine e | Panic w => BadLine (New w) end.

(** [apply] on the fields before the checksum. *)
Definition apply_fields (fields : list bytes) (db : DB) : line_result :=
  match fields with
  | [] => BadLine (New "short line")
  | kind :: args =>
      if bool_decide (kind = str "A1") then
        match args with
        | [f1; f2; f3; f4; f5; f6] =>
            lift_line (parseScope f1 f2 f3) (fun sc =>
            lift_line (ParseUint f4 10 64) (fun h =>
            lift_line (parseHash f5) (fun hash =>
            lift_line (ParseInt f6 10 64) (fun ts =>
            let insert := Applied (with_records <[(sc, h) := MkRecord sc h hash ts]> db) in
            match records db !! (sc, h) with
            | Some prev =>
                if r_BlockHash prev =? hash then insert
                else Semantic (Errorf "two different hashes recorded for height %d (%s)" [h])
            | None => insert
            end))))
        | _ => BadLine (New "bad record arity")
        end
      else if bool_decide (kind = str "W1") then
        match args with
        | [f1; f2; f3; f4; _] =>
            lift_line (parseScope f1 f2 f3) (fun sc =>
            lift_line (ParseUint f4 10 64) (fun h =>
            if watermark_of db sc <? h then Applied (with_watermarks <[sc := h]> db)
            else Applied db))
        | _ => BadLine (New "bad watermark arity")
        end
      else BadLine (New "unknown record type")
  end.

(** [apply]: one line, folded into memory. *)
Definition apply_line (text : bytes) (db : DB) : line_result :=
  let fields := Fields text in
  if (length fields <? 2)%nat then BadLine (New "short line")
  else
    let front := take (length fields - 1) fields in
    let body := Join front in
    match ParseUint (nth (length fields - 1) fields []) 16 32 with
    | Ok want =>
        if negb (Checksum body =? want) then BadLine (New "checksum mismatch")
        else apply_fields front db
    | _ => BadLine (New "bad checksum field")
    end.

(** ** Opening *)

(** The loop of [load]; [good] counts the bytes of the lines accepted. *)
Inductive scan := Complete (db : DB) | Torn (good : nat) (db : DB) | Corrupt (e : error).

Definition newline_ended (raw : bytes) : bool :=
  match reverse raw with c :: _ => b2z c =? 10 | [] => false end.

Fixpoint scan_lines (lines : list bytes) (good : nat) (db : DB) : scan :=
  match lines with
  | [] => Complete db
  | raw :: rest =>
      let text := TrimRight_crlf raw in
      let r := if negb (newline_ended raw) then BadLine (New "unterminated line")
               else if bool_decide (text = []) then Applied db
               else apply_line text db in
      match r with
      | Applied db => scan_lines rest (good + length raw) db
      | BadLine e =>
          match rest with
          | [] => Torn good db
          | _ => Corrupt e
          end
      | Semantic e => Corrupt e
      end
  end.

(** [lines[0..lastIdx]]: trailing empty pieces dropped. *)
Fixpoint drop_empty (lines : list bytes) : list bytes :=
  match lines with
  | [] :: rest => drop_empty rest
  | _ => lines
  end.
Definition file_lines (data : bytes) : list bytes :=
  reverse (drop_empty (reverse (SplitAfter data))).

(** The text of the repair marker. *)
Definition marker_text (n : Z) : bytes := fmt_d n ++ [Byte.x0a].

(** [writeRepairMarker]. *)
Definition writeRepairMarker (io : LoadIO) (n : Z) (d : Disk) : option error * Disk :=
  match lo_marker io with
  | MarkerWritten => (None, set_marker (Some (marker_text n)) d)
  | MarkerOpenFails => (Some io_error, d)
  | MarkerPartial k => (Some io_error, set_marker (Some (take k (marker_text n))) d)
  end.

(** What the marker says: at least 1 when it is there. *)
Definition marker_repaired (m : option bytes) : Z :=
  match m with
  | None => 0
  | Some b =>
      match ParseInt_trimmed b with
      | Ok n => if n <=? 0 then 1 else n
      | _ => 1
      end
  end.

(** [load], with the record [Open] starts from. *)
Definition load (io : LoadIO) (d : Disk) : result DB * Disk :=
  if lo_read_marker io then (Err io_error, d)
  else if lo_open io then (Err io_error, d)
  else
    let db := MkDB ∅ ∅ (marker_repaired (marker d)) false true in
    let d := set_file (the_file d) d in
    if lo_read io then (Err io_error, d)
    else
      let data := cached (the_file d) in
      match scan_lines (file_lines data) 0 db with
      | Corrupt e => (Err e, d)
      | Complete db => (if lo_seek io then Err io_error else Ok db, d)
      | Torn good db =>
          let n := repaired db + (Z.of_nat (length data) - Z.of_nat good) in
          match writeRepairMarker io n d with
          | (Some e, d) => (Err e, d)
          | (None, d) =>
              let db := with_repaired n db in
              if lo_truncate io then (Err io_error, d)
              else
                let d := set_file (f_truncate (the_file d) good) d in
                if lo_sync io then (Err io_error, d)
                else
                  let d := set_file (f_sync (the_file d)) d in
                  (if lo_seek io then Err io_error else Ok db, d)
          end
      end.

(** ** Appending *)

(** The end of [appendDurable]: cut back what a failed append left. *)
Definition undo_append (io : AppendIO) (off : nat) (db : DB) (d : Disk)
  : option error * DB * Disk :=
  if io_undo_truncate io then (Some io_error, with_broken db, d)
  else
    let d := set_file (f_truncate (the_file d) off) d in
    if io_undo_seek io then (Some io_error, with_broken db, d)
    else if io_undo_sync io then (Some io_error, with_broken db, d)
    else (Some io_error, db, set_file (f_sync (the_file d)) d).

(** [appendDurable]. *)
Definition appendDurable (io : AppendIO) (l : bytes) (db : DB) (d : Disk)
  : option error * DB * Disk :=
  if negb (db_open db) then (Some (New "slashing protection: database is closed"), db, d)
  else if broken db then
    (Some (New "slashing protection: a failed write could not be undone; restart fmx-validator"), db, d)
  else if io_seek io then (Some io_error, db, d)
  else
    let off := length (cached (the_file d)) in
    match io_write io with
    | Some n => undo_append io off db (set_file (f_write (the_file d) (take n l)) d)
    | None =>
        let d := set_file (f_write (the_file d) l) d in
        if io_sync io then undo_append io off db d
        else (None, db, set_file (f_sync (the_file d)) d)
    end.

(** ** Operations *)

(** [Approve]: [Ok fresh], or the error; [now] is the clock. *)
Definition Approve (io : AppendIO) (now : Z) (sc : Scope) (height : Z) (hash : Hash)
  (db : DB) (d : Disk) : result bool * DB * Disk :=
  if hash =? 0 then (Err (New "slashing protection: refusing to sign a zero hash"), db, d)
  else
    match records db !! (sc, height) with
    | Some prev =>
        if negb (r_BlockHash prev =? hash)
        then (Err (Errorf "ErrConflict: height %d already signed %s, asked to sign %s"
                     [height; r_BlockHash prev; hash]), db, d)
        else (Ok false, db, d)
    | None =>
        if match watermarks db !! sc with Some wm => height <=? wm | None => false end
        then (Err (Errorf "ErrBelowWatermark: height %d <= watermark %d"
                     [height; watermark_of db sc]), db, d)
        else
          match appendDurable io (line (A1_body sc height hash now)) db d with
          | (Some e, db, d) => (Err e, db, d)
          | (None, db, d) =>
              (Ok true, with_records <[(sc, height) := MkRecord sc height hash now]> db, d)
          end
    end.

(** [Lookup]. *)
Definition Lookup (sc : Scope) (height : Z) (db : DB) : option Hash :=
  r_BlockHash <$> records db !! (sc, height).

(** [SetWatermark]. *)
Definition SetWatermark (io : AppendIO) (now : Z) (sc : Scope) (h : Z) (db : DB) (d : Disk)
  : result unit * DB * Disk :=
  if h <=? watermark_of db sc then (Ok tt, db, d)
  else
    match appendDurable io (line (W1_body sc h now)) db d with
    | (Some e, db, d) => (Err e, db, d)
    | (None, db, d) => (Ok tt, with_watermarks <[sc := h]> db, d)
    end.

(** [MaxHeight]. *)
Definition MaxHeight (sc : Scope) (db : DB) : option Z :=
  map_fold (fun k _ m => if bool_decide (k.1 = sc)
                         then Some (match m with Some x => Z.max x k.2 | None => k.2 end)
                         else m) None (records db).

(** [RepairHandled]; [fails] when the marker cannot be removed. *)
Definition RepairHandled (fails : bool) (db : DB) (d : Disk) : result unit * DB * Disk :=
  if repaired db =? 0 then (Ok tt, db, d)
  else if negb (db_open db) then (Err (New "slashing protection: database is closed"), db, d)
  else if fails then (Err io_error, db, d)
  else (Ok tt, with_repaired 0 db, set_marker None d).

(** [Close]. *)
Definition Close (db : DB) : DB := with_open false db.

(** *** Export and import *)

(** Go ranges over a map in an unspecified order: [range] is any listing. *)
Section Transfer.
Context (range_records : gmap (Scope * Z) SignRecord → list ((Scope * Z) * SignRecord))
        (range_watermarks : gmap Scope Z → list (Scope * Z)).

(** [Records], newest height first. *)
Definition newest_first (a b : SignRecord) : Prop := r_Height b ≤ r_Height a.
#[global] Instance newest_first_dec : RelDecision newest_first.
Proof. intros a b. unfold newest_first. apply _. Defined.

Definition Records (sc : Scope) (db : DB) : list SignRecord :=
  merge_sort newest_first
    (snd <$> filter (fun kr => kr.1.1 = sc) (range_records (records db))).

Definition export_record (r : SignRecord) : ExportRecord :=
  MkExportRecord (sc_ChainID (r_Scope r)) (sc_Hub (r_Scope r)) (sc_Attester (r_Scope r))
    (r_Height r) (r_BlockHash r) false (r_Time r).
Definition export_watermark (w : Scope * Z) : ExportRecord :=
  MkExportRecord (sc_ChainID w.1) (sc_Hub w.1) (sc_Attester w.1) w.2 0 true 0.

(** The order of [Export]: attester, height, records before watermarks. *)
Definition export_leb (a b : ExportRecord) : bool :=
  if negb (x_Attester a =? x_Attester b) then x_Attester a <? x_Attester b
  else if negb (x_Height a =? x_Height b) then x_Height a <? x_Height b
  else negb (x_Watermark a) || x_Watermark b.

Definition export_order (a b : ExportRecord) : Prop := export_leb a b = true.
#[global] Instance export_order_dec : RelDecision export_order.
Proof. intros a b. unfold export_order. apply _. Defined.

(** [Export]. *)
Definition Export (db : DB) : list ExportRecord :=
  merge_sort export_order
    ((export_record ∘ snd <$> range_records (records db))
     ++ (export_watermark <$> range_watermarks (watermarks db))).

(** The first loop of [Import]: conflicts with memory and within the file. *)
Fixpoint import_check (rs : list ExportRecord) (seen : gmap (Scope * Z) Hash) (db : DB)
  : result unit :=
  match rs with
  | [] => Ok tt
  | r :: rs =>
      if x_Watermark r then import_check rs seen db
      else
        let k := (x_Scope r, x_Height r) in
        _ ← fail_if (x_BlockHash r =? 0)
              (Errorf "import: record for height %d has no hash" [x_Height r]);
        _ ← fail_if match records db !! k with
                    | Some prev => negb (r_BlockHash prev =? x_BlockHash r)
                    | None => false
                    end
              (Errorf "ErrConflict: import height %d has %s, this machine signed %s"
                 [x_Height r; x_BlockHash r]);
        _ ← fail_if match seen !! k with
                    | Some prev => negb (prev =? x_BlockHash r)
                    | None => false
                    end
              (Errorf "ErrConflict: import file has two hashes for height %d" [x_Height r]);
        import_check rs (<[k := x_BlockHash r]> seen) db
  end.

(** The second loop: lines to write, records to add and watermarks to raise.
    The memory holds a placeholder for every record to add. *)
Fixpoint import_collect (now : Z) (rs : list ExportRecord) (buf : bytes)
  (adds : list SignRecord) (wms : gmap Scope Z) (db : DB)
  : bytes * list SignRecord * gmap Scope Z * DB :=
  match rs with
  | [] => (buf, adds, wms, db)
  | r :: rs =>
      let sc := x_Scope r in
      if x_Watermark r then
        let wms := if (watermark_of db sc <? x_Height r) && (default 0 (wms !! sc) <? x_Height r)
                   then <[sc := x_Height r]> wms else wms in
        import_collect now rs buf adds wms db
      else
        match records db !! (sc, x_Height r) with
        | Some _ => import_collect now rs buf adds wms db
        | None =>
            let ts := if x_Time r =? 0 then now else x_Time r in
            let rec := MkRecord sc (x_Height r) (x_BlockHash r) ts in
            import_collect now rs
              (buf ++ line (A1_body sc (x_Height r) (x_BlockHash r) ts)) (adds ++ [rec]) wms
              (with_records <[(sc, x_Height r) := MkRecord (MkScope 0 0 0) 0 0 0]> db)
        end
  end.

Definition rec_key (r : SignRecord) : Scope * Z := (r_Scope r, r_Height r).

(** [Import]. *)
Definition Import (io : AppendIO) (now : Z) (rs : list ExportRecord) (db : DB) (d : Disk)
  : result Z * DB * Disk :=
  match import_check rs ∅ db with
  | Err e => (Err e, db, d)
  | Panic w => (Panic w, db, d)
  | Ok _ =>
      let '(buf, adds, wms, db) := import_collect now rs [] [] ∅ db in
      let buf := buf ++ concat ((fun w => line (W1_body w.1 w.2 now)) <$> range_watermarks wms) in
      let '(e, db, d) := if bool_decide (buf = []) then (None, db, d)
                         else appendDurable io buf db d in
      match e with
      | Some e =>
          (Err e, with_records (fun m => foldl (fun m r => delete (rec_key r) m) m adds) db, d)
      | None =>
          (Ok (Z.of_nat (length adds)),
           with_watermarks (fun m => foldl (fun m w => <[w.1 := w.2]> m) m (range_watermarks wms))
             (with_records (fun m => foldl (fun m r => <[rec_key r := r]> m) m adds) db),
           d)
      end
  end.
End Transfer.

(** ** Facts *)

(** *** Lines and entries *)

(** What one line of the file says. *)
Inductive entry :=
| EA (r : SignRecord)
| EW (sc : Scope) (h ts : Z).

Definition entry_body (e : entry) : bytes :=
  match e with
  | EA r => A1_body (r_Scope r) (r_Height r) (r_BlockHash r) (r_Time r)
  | EW sc h ts => W1_body sc h ts
  end.
Definition entry_line (e : entry) : bytes := line (entry_body e).

(** Machine ranges of the fields (Go's types). *)
Definition scope_wf (sc : Scope) : Prop :=
  is_u64 (sc_ChainID sc) ∧ is_address (sc_Hub sc) ∧ is_address (sc_Attester sc).
Definition is_i64 (t : Z) : Prop := - 2 ^ 63 ≤ t < 2 ^ 63.
Definition entry_wf (e : entry) : Prop :=
  match e with
  | EA r => scope_wf (r_Scope r) ∧ is_u64 (r_Height r) ∧ is_hash (r_BlockHash r) ∧ is_i64 (r_Time r)
  | EW sc h ts => scope_wf sc ∧ is_u64 h ∧ is_i64 ts
  end.

(** Its effect on memory, and when it contradicts nothing. *)
Definition fold_entry (db : DB) (e : entry) : DB :=
  match e with
  | EA r => with_records <[rec_key r := r]> db
  | EW sc h _ => if watermark_of db sc <? h then with_watermarks <[sc := h]> db else db
  end.
Definition compatible (db : DB) (e : entry) : Prop :=
  match e with
  | EA r => ∀ prev, records db !! rec_key r = Some prev → r_BlockHash prev = r_BlockHash r
  | EW _ _ _ => True
  end.

#[export] Instance compatible_dec db e : Decision (compatible db e).
Proof.
  destruct e as [r|]; [|left; exact I]. cbn.
  destruct (records db !! rec_key r) as [prev|].
  - destruct (decide (r_BlockHash prev = r_BlockHash r)).
    + left. by intros ? [= <-].
    + right. intros Hp. by specialize (Hp prev eq_refl).
  - left. done.
Defined.

Lemma str_word s : forallb (fun c => (33 <=? b2z c) && (b2z c <=? 126)) (str s) = true →
  str s ≠ [] → is_word (str s).
Proof.
  intros Hc Hne. split; [done|]. apply Forall_forall. intros c Hin.
  rewrite forallb_forall in Hc. apply list_elem_of_In in Hin. apply Hc in Hin.
  unfold word_char. lia.
Qed.

Lemma lower_word a : is_word (lower a).
Proof. apply hex_word. Qed.

(** The words of a line before the checksum. *)
Definition entry_fields (e : entry) : list bytes :=
  match e with
  | EA (MkRecord sc h hash ts) =>
      [str "A1"; fmt_u (sc_ChainID sc); lower (sc_Hub sc); lower (sc_Attester sc);
       fmt_u h; Hash_Hex hash; fmt_d ts]
  | EW sc h ts =>
      [str "W1"; fmt_u (sc_ChainID sc); lower (sc_Hub sc); lower (sc_Attester sc);
       fmt_u h; fmt_d ts]
  end.

Lemma entry_body_fields e : entry_body e = Join (entry_fields e).
Proof. by destruct e as [[]|]. Qed.

Lemma entry_fields_words e : entry_wf e → Forall is_word (entry_fields e).
Proof.
  assert (HA : is_word (str "A1")) by (by apply str_word).
  assert (HW : is_word (str "W1")) by (by apply str_word).
  destruct e as [[sc h hash ts]|sc h ts]; cbn [entry_wf r_Scope r_Height r_BlockHash r_Time];
    intros He; unfold scope_wf, is_u64 in He;
    repeat apply Forall_cons_2; try apply Forall_nil_2;
    lazymatch goal with
    | |- is_word (lower _) => apply lower_word
    | |- is_word (fmt_d _) => apply fmt_d_word
    | |- is_word (Hash_Hex _) => apply hex_word
    | |- is_word (fmt_u _) => apply fmt_u_word; lia
    | |- _ => assumption
    end.
Qed.

Lemma parseScope_ok sc : scope_wf sc →
  parseScope (fmt_u (sc_ChainID sc)) (lower (sc_Hub sc)) (lower (sc_Attester sc)) = Ok sc.
Proof.
  intros (Hc & Hh & Ha). unfold parseScope. rewrite ParseUint_fmt_u by done.
  unfold lower. rewrite !IsHexAddress_hex, !HexToAddress_hex by done. by destruct sc.
Qed.

Lemma parseHash_ok h : is_hash h → parseHash (Hash_Hex h) = Ok h.
Proof.
  intros Hh. unfold parseHash, Hash_Hex. rewrite length_app, length_hex_encode.
  unfold hash_bytes. rewrite length_to_be. cbn [Nat.eqb Nat.add Nat.mul length negb].
  change (length (str "0x") + 2 * HashLength =? 66)%nat with true.
  change (take 2 (str "0x" ++ hex_encode (to_be HashLength h))) with (str "0x").
  rewrite bool_decide_true by done. cbn [negb orb].
  change (drop 2 (str "0x" ++ hex_encode (to_be HashLength h)))
    with (hex_encode (to_be HashLength h)).
  rewrite hex_decode_encode. unfold BytesToHash. rewrite of_be_to_be_small by exact Hh.
  f_equal. by apply Z.mod_small.
Qed.

(** A line's fields fold into memory, or contradict it. *)
Lemma apply_fields_entry e db : entry_wf e →
  apply_fields (entry_fields e) db =
  if decide (compatible db e) then Applied (fold_entry db e)
  else Semantic (Errorf "two different hashes recorded for height %d (%s)"
                   [match e with EA r => r_Height r | EW _ h _ => h end]).
Proof.
  intros He. destruct e as [[sc h hash ts]|sc h ts]; cbn in He.
  - destruct He as (Hs & Hh & Hha & Ht). cbn [entry_fields apply_fields].
    rewrite bool_decide_true by done.
    rewrite parseScope_ok, ParseUint_fmt_u, parseHash_ok, ParseInt_fmt_d by done.
    cbn [lift_line]. destruct (decide _) as [Hc|Hc]; unfold compatible, rec_key in Hc;
      cbn [r_Scope r_Height r_BlockHash] in Hc.
    + unfold fold_entry, rec_key. cbn [r_Scope r_Height r_BlockHash].
      destruct (records db !! (sc, h)) as [prev|]; [|done].
      by rewrite (proj2 (Z.eqb_eq _ _) (Hc prev eq_refl)).
    + destruct (records db !! (sc, h)) as [prev|]; [|by destruct Hc].
      destruct (Z.eqb_spec (r_BlockHash prev) hash) as [<-|]; [|done].
      destruct Hc. by intros ? [= <-].
  - destruct He as (Hs & Hh & Ht). cbn [entry_fields apply_fields].
    rewrite bool_decide_false by done. rewrite bool_decide_true by done.
    rewrite parseScope_ok, ParseUint_fmt_u by done. cbn [lift_line].
    rewrite decide_True by done. cbn [fold_entry]. by destruct (_ <? _).
Qed.

(** A written line is read back: its words, its checksum, its meaning. *)
Lemma apply_entry e db : entry_wf e →
  apply_line (TrimRight_crlf (entry_line e)) db = apply_fields (entry_fields e) db.
Proof.
  intros He. pose proof (entry_fields_words e He) as Hw.
  set (crc := fmt_08x (Checksum (entry_body e))).
  assert (Hne : entry_fields e ≠ []) by (by destruct e as [[]|]).
  assert (Ht : TrimRight_crlf (entry_line e) = Join (entry_fields e ++ [crc])).
  { unfold entry_line, line. fold crc. rewrite Join_snoc, <- entry_body_fields by done.
    destruct (fmt_08x_word (Checksum (entry_body e))) as [Hn Hc]. fold crc in Hn, Hc.
    destruct (exists_last Hn) as (c & x & E). rewrite E in Hc |- *.
    apply Forall_app in Hc as [_ Hc]. inversion Hc; subst.
    replace (entry_body e ++ Byte.x20 :: (c ++ [x]) ++ [Byte.x0a])
      with ((entry_body e ++ Byte.x20 :: c) ++ [x; Byte.x0a]) by (by rewrite <- !app_assoc).
    rewrite TrimRight_line by done. by rewrite <- app_assoc. }
  rewrite Ht. unfold apply_line.
  rewrite Fields_Join by (apply Forall_app; split; [done|constructor; [apply fmt_08x_word|constructor]]).
  rewrite length_app. cbn [length].
  destruct (length (entry_fields e)) as [|n] eqn:El; [by apply nil_length_inv in El|].
  replace (S n + 1 - 1)%nat with (S n) by lia.
  destruct (Nat.ltb_spec (S n + 1) 2); [lia|].
  rewrite <- El, take_app_length, app_nth2, Nat.sub_diag by lia. cbn [nth].
  unfold crc at 1. rewrite ParseUint_fmt_08x by apply Checksum_bound.
  rewrite <- entry_body_fields, Z.eqb_refl. done.
Qed.

Lemma entry_body_no_newline e : entry_wf e → no_newline (entry_body e).
Proof. intros He. rewrite entry_body_fields. by apply Join_no_newline, entry_fields_words. Qed.

(** A line is text without a newline, and a newline. *)
Lemma entry_line_split e : entry_wf e → ∃ t, entry_line e = t ++ [Byte.x0a] ∧ no_newline t ∧ t ≠ [].
Proof.
  intros He. exists (entry_body e ++ Byte.x20 :: fmt_08x (Checksum (entry_body e))).
  split; [unfold entry_line, line; by rewrite <- app_assoc|]. split; [|by destruct (entry_body e)].
  apply Forall_app. split; [by apply entry_body_no_newline|]. constructor; [done|].
  apply word_no_newline, fmt_08x_word.
Qed.

(** *** Logs *)

Definition render (es : list entry) : bytes := concat (entry_line <$> es).
Definition replay (db : DB) (es : list entry) : DB := foldl fold_entry db es.

(** No entry contradicts an earlier one. *)
Fixpoint consistent (db : DB) (es : list entry) : Prop :=
  match es with
  | [] => True
  | e :: es => compatible db e ∧ consistent (fold_entry db e) es
  end.

Lemma render_app es es' : render (es ++ es') = render es ++ render es'.
Proof. unfold render. by rewrite fmap_app, concat_app. Qed.

Lemma render_cons e es : render (e :: es) = entry_line e ++ render es.
Proof. done. Qed.

Lemma replay_cons db e es : replay db (e :: es) = replay (fold_entry db e) es.
Proof. done. Qed.

Lemma replay_app db es es' : replay db (es ++ es') = replay (replay db es) es'.
Proof. apply foldl_app. Qed.

Lemma consistent_app db es es' :
  consistent db (es ++ es') ↔ consistent db es ∧ consistent (replay db es) es'.
Proof.
  revert db. induction es as [|e es IH]; intros db; cbn; [tauto|]. rewrite IH. tauto.
Qed.

(** The parts of memory an entry does not touch. *)
Lemma replay_frame db es :
  repaired (replay db es) = repaired db ∧ broken (replay db es) = broken db ∧
  db_open (replay db es) = db_open db.
Proof.
  revert db. induction es as [|e es IH]; intros db; [done|]. rewrite replay_cons.
  destruct (IH (fold_entry db e)) as (-> & -> & ->).
  destruct e as [r|sc h ts]; cbn; [done|]. by destruct (_ <? _).
Qed.

Definition same_maps (a b : DB) : Prop := records a = records b ∧ watermarks a = watermarks b.

Lemma replay_same_maps a b es : same_maps a b → same_maps (replay a es) (replay b es).
Proof.
  revert a b. induction es as [|e es IH]; intros a b Hs; [done|]. rewrite !replay_cons. apply IH.
  destruct Hs as [Hr Hw]. destruct e as [r|sc h ts]; cbn.
  - split; cbn; congruence.
  - unfold watermark_of. rewrite Hw. destruct (_ <? h); split; cbn; congruence.
Qed.

Lemma consistent_same_maps a b es : same_maps a b → consistent a es → consistent b es.
Proof.
  revert a b. induction es as [|e es IH]; intros a b Hs; [done|]. cbn. intros [Hc Hes].
  split.
  - destruct e as [r|]; [|done]. cbn in *. destruct Hs as [<- _]. done.
  - eapply IH; [|exact Hes]. by apply (replay_same_maps a b [e]).
Qed.

(** What a log records stays recorded, and watermarks do not fall, as it grows. *)
Lemma fold_entry_mono db e : compatible db e →
  (∀ k r, records db !! k = Some r →
     ∃ r', records (fold_entry db e) !! k = Some r' ∧ r_BlockHash r' = r_BlockHash r) ∧
  (∀ sc, watermark_of db sc ≤ watermark_of (fold_entry db e) sc).
Proof.
  intros Hc. destruct e as [r0|sc0 h ts]; cbn [fold_entry].
  - split; [|done]. intros k r Hr. cbn. destruct (decide (rec_key r0 = k)) as [<-|Hne].
    + exists r0. rewrite lookup_insert_eq. split; [done|]. symmetry. by apply Hc.
    + exists r. by rewrite lookup_insert_ne.
  - destruct (Z.ltb_spec (watermark_of db sc0) h); [|eauto with lia].
    split; [eauto|]. intros sc. unfold watermark_of. cbn.
    destruct (decide (sc0 = sc)) as [<-|Hne].
    + rewrite lookup_insert_eq. cbn. fold (watermark_of db sc0). lia.
    + by rewrite lookup_insert_ne.
Qed.

Lemma replay_mono db es : consistent db es →
  (∀ k r, records db !! k = Some r →
     ∃ r', records (replay db es) !! k = Some r' ∧ r_BlockHash r' = r_BlockHash r) ∧
  (∀ sc, watermark_of db sc ≤ watermark_of (replay db es) sc).
Proof.
  revert db. induction es as [|e es IH]; intros db; [cbn; eauto with lia|].
  rewrite replay_cons. intros [Hc Hes]. destruct (fold_entry_mono db e Hc) as [F1 F2], (IH _ Hes) as [I1 I2].
  split.
  - intros k r Hr. destruct (F1 k r Hr) as (r1 & Hr1 & E1), (I1 k r1 Hr1) as (r2 & Hr2 & E2).
    exists r2. split; [done|congruence].
  - intros sc. specialize (F2 sc). specialize (I2 sc). lia.
Qed.

(** *** Reading a log back *)

Lemma SplitAfter_render es frag :
  Forall entry_wf es → no_newline frag →
  SplitAfter (render es ++ frag) = (entry_line <$> es) ++ [frag].
Proof.
  intros Hes Hf. induction Hes as [|e es He _ IH]; cbn [fmap list_fmap app].
  { by apply (split_after_end []). }
  destruct (entry_line_split e He) as (t & Et & Ht & _).
  rewrite render_cons, Et, <- !app_assoc. cbn [app].
  unfold SplitAfter. rewrite split_after_line by done. by rewrite IH.
Qed.

Definition tail_lines (frag : bytes) : list bytes :=
  match frag with [] => [] | _ => [frag] end.

Lemma entry_line_ne e : entry_wf e → entry_line e ≠ [].
Proof. intros He. destruct (entry_line_split e He) as (t & -> & _). by destruct t. Qed.

Lemma file_lines_render es frag :
  Forall entry_wf es → no_newline frag →
  file_lines (render es ++ frag) = (entry_line <$> es) ++ tail_lines frag.
Proof.
  intros Hes Hf. unfold file_lines. rewrite SplitAfter_render, reverse_app by done.
  assert (Hd : ∀ l, Forall entry_wf l → drop_empty (reverse (entry_line <$> l)) = reverse (entry_line <$> l)).
  { intros l Hl. rewrite <- fmap_reverse. apply Forall_reverse in Hl.
    destruct Hl as [|e l' He _]; [done|]. cbn.
    destruct (entry_line e) eqn:E; [by apply entry_line_ne in He|done]. }
  change (reverse [frag]) with [frag]. destruct frag as [|c frag]; cbn [app drop_empty tail_lines].
  - rewrite Hd, reverse_involutive, app_nil_r by done. done.
  - by rewrite reverse_cons, reverse_involutive.
Qed.

Lemma newline_ended_line t : newline_ended (t ++ [Byte.x0a]) = true.
Proof. unfold newline_ended. by rewrite reverse_app. Qed.

Lemma newline_ended_frag t : no_newline t → newline_ended t = false.
Proof.
  intros Ht. unfold newline_ended. destruct (reverse t) as [|c r] eqn:E; [done|].
  apply Z.eqb_neq. apply Forall_reverse in Ht. rewrite E in Ht. by inversion Ht.
Qed.

Lemma trimmed_line_ne e : entry_wf e → TrimRight_crlf (entry_line e) ≠ [].
Proof.
  intros He Ht. pose proof (apply_entry e (MkDB ∅ ∅ 0 false true) He) as Ha.
  rewrite Ht in Ha. rewrite apply_fields_entry in Ha by done.
  destruct (decide _) in Ha; discriminate Ha.
Qed.

Lemma scan_entries es frag good db :
  Forall entry_wf es → consistent db es →
  scan_lines ((entry_line <$> es) ++ tail_lines frag) good db =
  scan_lines (tail_lines frag) (good + length (render es)) (replay db es).
Proof.
  intros Hes. revert good db. induction Hes as [|e es He _ IH]; intros good db Hc.
  { cbn. by rewrite Nat.add_0_r. }
  destruct Hc as [Hc Hes]. cbn [fmap list_fmap app scan_lines].
  destruct (entry_line_split e He) as (t & Et & _ & _).
  rewrite Et at 1. rewrite newline_ended_line. cbn [negb].
  rewrite bool_decide_false by (by apply trimmed_line_ne).
  rewrite apply_entry, apply_fields_entry, decide_True by done.
  rewrite IH by done. rewrite render_cons, length_app, Nat.add_assoc. done.
Qed.

(** Scanning a log: every line counts, an unterminated rest is torn. *)
Lemma scan_log es frag db :
  Forall entry_wf es → no_newline frag → consistent db es →
  scan_lines (file_lines (render es ++ frag)) 0 db =
  match frag with
  | [] => Complete (replay db es)
  | _ => Torn (length (render es)) (replay db es)
  end.
Proof.
  intros Hes Hf Hc. rewrite file_lines_render, scan_entries by done.
  destruct frag as [|c frag]; [done|]. cbn [tail_lines scan_lines].
  by rewrite newline_ended_frag.
Qed.

(** A prefix of a log is a shorter log and an unterminated rest. *)
Lemma prefix_of_log es frag p :
  Forall entry_wf es → no_newline frag → p `prefix_of` render es ++ frag →
  ∃ es1 es2 frag', es = es1 ++ es2 ∧ p = render es1 ++ frag' ∧ no_newline frag'.
Proof.
  intros Hes Hf. revert p. induction Hes as [|e es He _ IH]; intros p Hp.
  { exists [], [], p. split; [done|]. split; [done|].
    destruct Hp as [k Hk]. cbn in Hk. subst frag. by apply Forall_app in Hf as [? _]. }
  rewrite render_cons, <- app_assoc in Hp.
  destruct (entry_line_split e He) as (t & Et & Ht & _). rewrite Et in Hp.
  destruct (decide (length p ≤ length t)%nat) as [Hle|Hgt].
  - exists [], (e :: es), p. split; [done|]. split; [done|].
    destruct Hp as [k Hk]. rewrite <- app_assoc in Hk.
    assert (Hpt : t = p ++ drop (length p) t).
    { rewrite <- (take_drop (length p) t) at 1. f_equal.
      apply (f_equal (take (length p))) in Hk.
      rewrite take_app_le in Hk by done. rewrite Hk. by rewrite take_app_length. }
    rewrite Hpt in Ht. by apply Forall_app in Ht as [? _].
  - destruct Hp as [k Hk].
    assert (Hpe : p = entry_line e ++ drop (length (entry_line e)) p).
    { rewrite <- (take_drop (length (entry_line e)) p) at 1. f_equal. rewrite Et.
      apply (f_equal (take (length (t ++ [Byte.x0a])))) in Hk.
      rewrite take_app_length in Hk. rewrite take_app_le in Hk; [done|].
      rewrite length_app. cbn. lia. }
    revert Hpe. generalize (drop (length (entry_line e)) p). intros q ->. clear Hgt.
    destruct (IH q) as (es1 & es2 & frag' & -> & -> & ?).
    { exists k. rewrite <- Et, <- app_assoc in Hk. by apply app_inv_head in Hk. }
    exists (e :: es1), es2, frag'. split; [done|]. split; [|done].
    by rewrite render_cons, <- app_assoc.
Qed.

(** ** Properties of lines *)

(** A line that is written is the line that is read. For every scope,
    height, hash and time within Go's types, the line Approve appends parses
    back, checksum included, to exactly that record: it is added to memory, or
    refused as a contradiction if memory holds another hash for the height; and
    the line SetWatermark appends parses back to that watermark. *)
Theorem protect_line_roundtrip sc h hash ts db :
  scope_wf sc → is_u64 h → is_hash hash → is_i64 ts →
  apply_line (TrimRight_crlf (line (A1_body sc h hash ts))) db =
    match Lookup sc h db with
    | Some hash' =>
        if hash' =? hash then Applied (with_records <[(sc, h) := MkRecord sc h hash ts]> db)
        else Semantic (Errorf "two different hashes recorded for height %d (%s)" [h])
    | None => Applied (with_records <[(sc, h) := MkRecord sc h hash ts]> db)
    end ∧
  apply_line (TrimRight_crlf (line (W1_body sc h ts))) db =
    Applied (if watermark_of db sc <? h then with_watermarks <[sc := h]> db else db).
Proof.
  intros Hs Hh Hha Ht. split.
  - change (A1_body sc h hash ts) with (entry_body (EA (MkRecord sc h hash ts))).
    change (line (entry_body ?e)) with (entry_line e).
    rewrite apply_entry, apply_fields_entry by done. unfold Lookup.
    destruct (decide _) as [Hc|Hc]; unfold compatible, rec_key in Hc; cbn [r_Scope r_Height r_BlockHash] in Hc.
    + destruct (records db !! (sc, h)) as [prev|]; cbn [fmap option_fmap option_map]; [|done].
      by rewrite (proj2 (Z.eqb_eq _ _) (Hc prev eq_refl)).
    + destruct (records db !! (sc, h)) as [prev|]; cbn [fmap option_fmap option_map];
        [|by destruct Hc].
      destruct (Z.eqb_spec (r_BlockHash prev) hash) as [E|]; [|done].
      destruct Hc. by intros ? [= <-].
  - change (W1_body sc h ts) with (entry_body (EW sc h ts)).
    change (line (entry_body ?e)) with (entry_line e).
    rewrite apply_entry, apply_fields_entry, decide_True by done. cbn. by destruct (_ <? _).
Qed.

Lemma protect_line_roundtrip_witness :
  let sc := MkScope 31337 0xabc 0xdef in
  apply_line (TrimRight_crlf (line (A1_body sc 100 7 1700000000))) (MkDB ∅ ∅ 0 false true)
  = Applied (MkDB {[(sc, 100) := MkRecord sc 100 7 1700000000]} ∅ 0 false true).
Proof.
  intros sc.
  destruct (protect_line_roundtrip sc 100 7 1700000000 (MkDB ∅ ∅ 0 false true)) as [E _];
    [unfold scope_wf, is_u64, is_address, two64; cbn; lia | unfold is_u64, two64; lia
    | unfold is_hash; lia | unfold is_i64; lia |].
  exact E.
Defined.
