(* ===== verification/ProtectSafety.v ===== *)
(** * Slashing protection across failures and restarts

    A validator process over time: it opens the database, approves, raises
    watermarks, imports, is killed, and the machine may lose power. Every system
    call may fail. [step] is one such event on [Sys], the disk, the memory of the
    running process (if any) and the history of what was approved so far. *)

From S2P Require Import Prelude Bytes Types Text Protect.

(** ** The system *)

(** What a caller was told: an approval (so a signature may exist), a record
    taken over from another machine, a watermark. *)
Inductive event :=
| Signed (sc : Scope) (h : Z) (hash : Hash) (fresh : bool)
| Known (sc : Scope) (h : Z) (hash : Hash)
| Raised (sc : Scope) (w : Z).

Record Sys := MkSys { sys_disk : Disk; sys_db : option DB; history : list event }.

Definition import_event (r : ExportRecord) : event :=
  if x_Watermark r then Raised (x_Scope r) (x_Height r)
  else Known (x_Scope r) (x_Height r) (x_BlockHash r).

Definition export_wf (r : ExportRecord) : Prop :=
  scope_wf (x_Scope r) ∧ is_u64 (x_Height r) ∧ is_hash (x_BlockHash r) ∧ is_i64 (x_Time r).

(** Go's iteration over a map lists its bindings in some order. *)
Definition listing {K V} `{Countable K} (range : gmap K V → list (K * V)) : Prop :=
  ∀ m, range m ≡ₚ map_to_list m.

Section System.
Context (range_w : gmap Scope Z → list (Scope * Z)).

(** With [synced_open], the file is durable whenever it is opened: what an
    earlier process left in the cache has been written back by then. *)
Inductive step (synced_open : bool) : Sys → Sys → Prop :=
| s_open io d hist r d' :
    (synced_open = true → cached (the_file d) = stable (the_file d)) →
    load io d = (r, d') →
    step synced_open (MkSys d None hist)
      (MkSys d' (match r with Ok db => Some db | _ => None end) hist)
| s_approve io now sc h hash db d hist r db' d' :
    scope_wf sc → is_u64 h → is_hash hash → is_i64 now →
    Approve io now sc h hash db d = (r, db', d') →
    step synced_open (MkSys d (Some db) hist)
      (MkSys d' (Some db')
         (match r with Ok fresh => Signed sc h hash fresh :: hist | _ => hist end))
| s_watermark io now sc w db d hist r db' d' :
    scope_wf sc → is_u64 w → is_i64 now →
    SetWatermark io now sc w db d = (r, db', d') →
    step synced_open (MkSys d (Some db) hist)
      (MkSys d' (Some db') (match r with Ok _ => Raised sc w :: hist | _ => hist end))
| s_import io now rs db d hist r db' d' :
    Forall export_wf rs → is_i64 now →
    Import range_w io now rs db d = (r, db', d') →
    step synced_open (MkSys d (Some db) hist)
      (MkSys d' (Some db') (match r with Ok _ => (import_event <$> rs) ++ hist | _ => hist end))
| s_repair_handled fails db d hist r db' d' :
    RepairHandled fails db d = (r, db', d') →
    step synced_open (MkSys d (Some db) hist) (MkSys d' (Some db') hist)
| s_stop d db hist : (* Close, or the process is killed *)
    step synced_open (MkSys d (Some db) hist) (MkSys d None hist)
| s_write_back d db hist : (* the operating system flushes its cache *)
    step synced_open (MkSys d db hist) (MkSys (set_file (f_sync (the_file d)) d) db hist)
| s_power_loss p d db hist :
    p `prefix_of` limbo (the_file d) →
    step synced_open (MkSys d db hist)
      (MkSys (set_file (MkFile (stable (the_file d) ++ p) (stable (the_file d) ++ p) []) d)
         None hist).

(** From an empty disk. *)
Inductive reachable (synced_open : bool) : Sys → Prop :=
| reach_init : reachable synced_open (MkSys (MkDisk None None) None [])
| reach_step s s' : reachable synced_open s → step synced_open s s' → reachable synced_open s'.
End System.

(** ** The invariant of the disk *)

Definition fresh_db : DB := MkDB ∅ ∅ 0 false true.

Definition log_wf (es : list entry) : Prop := Forall entry_wf es ∧ consistent fresh_db es.

(** [d] is a log that extends [es], with an unterminated rest. *)
Definition log_ext (es : list entry) (d : bytes) : Prop :=
  ∃ more frag, d = render (es ++ more) ++ frag ∧ no_newline frag ∧ log_wf (es ++ more).

(** [es] is what stable storage says. *)
Record disk_ok (es : list entry) (f : File) : Prop := {
  dk_wf : log_wf es;
  dk_stable : ∃ frag, stable f = render es ++ frag ∧ no_newline frag;
  dk_cached : log_ext es (cached f);
  dk_disk : log_ext es (stable f ++ limbo f);
  dk_prefix : stable f `prefix_of` cached f
}.

(** Everything in [a] is in [b]. *)
Definition maps_le (a b : DB) : Prop :=
  (∀ k r, records a !! k = Some r →
     ∃ r', records b !! k = Some r' ∧ r_BlockHash r' = r_BlockHash r) ∧
  (∀ sc, watermark_of a sc ≤ watermark_of b sc).

(** A running process holds nothing that stable storage does not say, and unless
    a write could not be undone it holds exactly that. *)
Definition quiet (es : list entry) (f : File) (db : DB) : Prop :=
  db_open db = true ∧ (broken db = false → stable f = render es ∧ cached f = render es).

Record open_ok (es : list entry) (f : File) (db : DB) : Prop := {
  ok_le : maps_le db (replay fresh_db es);
  ok_same : broken db = false → same_maps db (replay fresh_db es);
  ok_quiet : quiet es f db
}.

Lemma maps_le_trans a b c : maps_le a b → maps_le b c → maps_le a c.
Proof.
  intros [R1 W1] [R2 W2]. split.
  - intros k r Hr. destruct (R1 k r Hr) as (r1 & Hr1 & <-), (R2 k r1 Hr1) as (r2 & Hr2 & <-). eauto.
  - intros sc. etransitivity; [apply W1|apply W2].
Qed.

Lemma same_maps_le a b : same_maps a b → maps_le a b.
Proof.
  intros [Hr Hw]. split; [rewrite <- Hr; eauto|]. intros sc. unfold watermark_of. by rewrite Hw.
Qed.

Lemma log_wf_prefix es more : log_wf (es ++ more) → log_wf es.
Proof.
  intros [Hf Hc]. apply Forall_app in Hf as [? _]. by apply consistent_app in Hc as [? _].
Qed.

Lemma log_ext_prefix es d d' :
  log_ext es d → render es `prefix_of` d' → d' `prefix_of` d → log_ext es d'.
Proof.
  intros (more & frag & -> & Hf & Hw) [p ->] Hp. rewrite render_app, <- app_assoc in Hp.
  apply prefix_app_inv in Hp.
  destruct (prefix_of_log more frag p) as (m1 & m2 & frag' & -> & -> & Hf'); [|done..|].
  { destruct Hw as [Hw _]. by apply Forall_app in Hw as [_ ?]. }
  exists m1, frag'. rewrite render_app, <- app_assoc. split; [done|]. split; [done|].
  rewrite app_assoc in Hw. by eapply log_wf_prefix.
Qed.

Lemma log_ext_nil es d : log_ext es d → render es `prefix_of` d.
Proof.
  intros (more & frag & -> & _). rewrite render_app, <- app_assoc. by eexists.
Qed.

(** A log and what was written after it so far. *)
Lemma log_ext_written es more w :
  log_wf (es ++ more) → w `prefix_of` render more → log_ext es (render es ++ w).
Proof.
  intros Hw Hp. apply (log_ext_prefix es (render (es ++ more))).
  - exists more, []. rewrite app_nil_r. split; [done|]. split; [constructor|done].
  - by eexists.
  - rewrite render_app. by apply prefix_app.
Qed.

Lemma disk_ok_written es more w w' :
  log_wf (es ++ more) → w `prefix_of` render more → w' `prefix_of` render more →
  disk_ok es (MkFile (render es ++ w) (render es) w').
Proof.
  intros Hw Hp Hp'. split; cbn.
  - by eapply log_wf_prefix.
  - exists []. split; [by rewrite app_nil_r|constructor].
  - by eapply log_ext_written.
  - by eapply log_ext_written.
  - by eexists.
Qed.

(** ** Operations keep the invariant *)

Lemma take_prefix {A} n (l : list A) : take n l `prefix_of` l.
Proof. exists (drop n l). by rewrite take_drop. Qed.

Lemma the_file_set f d : the_file (set_file f d) = f.
Proof. done. Qed.

(** Undoing an append that wrote [w]. *)
Lemma undo_spec io es more w db d e db' d' :
  log_wf (es ++ more) → db_open db = true → w `prefix_of` render more →
  undo_append io (length (render es)) db (set_file (MkFile (render es ++ w) (render es) w) d)
    = (e, db', d') →
  e ≠ None ∧ (db' = db ∨ db' = with_broken db) ∧ disk_ok es (the_file d') ∧
  quiet es (the_file d') db'.
Proof.
  intros Hw Hop Hp E. unfold undo_append in E. rewrite !the_file_set in E.
  assert (Hpnil : [] `prefix_of` render more) by apply prefix_nil.
  assert (Htr : f_truncate (MkFile (render es ++ w) (render es) w) (length (render es))
                = MkFile (render es ++ []) (render es) w).
  { unfold f_truncate. cbn. f_equal.
    - by rewrite take_app_length, app_nil_r.
    - by rewrite firstn_all.
    - by rewrite Nat.min_id, drop_app_length. }
  rewrite Htr in E. unfold f_sync in E. cbn [cached] in E.
  destruct (io_undo_truncate io), (io_undo_seek io), (io_undo_sync io);
    injection E as <- <- <-; (split; [done|]); (split; [by (left + right)|]); rewrite !the_file_set;
    (split; [|split; [done|]]); try done; try by apply (disk_ok_written es more).
  - rewrite app_nil_r. rewrite <- (app_nil_r (render es)) at 1.
    by apply (disk_ok_written es more).
  - rewrite app_nil_r. done.
Qed.

(** An append either puts everything on stable storage, or leaves what was
    there; in the second case a process that may still write has undone it. *)
Lemma append_spec io es more db d e db' d' :
  disk_ok es (the_file d) → quiet es (the_file d) db → log_wf (es ++ more) →
  appendDurable io (render more) db d = (e, db', d') →
  match e with
  | None => db' = db ∧ the_file d' = MkFile (render (es ++ more)) (render (es ++ more)) []
            ∧ broken db = false
  | Some _ => (db' = db ∨ db' = with_broken db) ∧ disk_ok es (the_file d') ∧
              quiet es (the_file d') db'
  end.
Proof.
  intros Hd Ho Hw E. unfold appendDurable in E.
  pose proof Ho as [Hop Hcl]. rewrite Hop in E. cbn [negb] in E.
  destruct (broken db) eqn:Hb. { injection E as <- <- <-. by split; [left|]. }
  destruct (Hcl eq_refl) as (Hst & Hca).
  destruct (io_seek io). { injection E as <- <- <-. by split; [left|]. }
  assert (Hf : the_file d = MkFile (render es) (render es) (limbo (the_file d))).
  { destruct (the_file d). cbn in *. by subst. }
  assert (Hwr : ∀ w, f_write (the_file d) w = MkFile (render es ++ w) (render es) w).
  { intros w. rewrite Hf. unfold f_write. cbn. f_equal. by rewrite drop_app_length. }
  destruct (io_write io) as [n|].
  { destruct (undo_spec io es more (take n (render more)) db d e db' d')
      as (He & ?); [done|done|apply take_prefix|by rewrite <- Hwr, <- Hca|]. by destruct e. }
  destruct (io_sync io).
  { destruct (undo_spec io es more (render more) db d e db' d') as (He & ?);
      [done|done|done|by rewrite <- Hwr, <- Hca|]. by destruct e. }
  injection E as <- <- <-. split; [done|]. split; [|done]. cbn.
  rewrite Hwr. unfold f_sync. cbn. by rewrite render_app.
Qed.

(** Scanning what stable storage holds. *)
Lemma scan_stable es frag n :
  log_wf es → no_newline frag →
  scan_lines (file_lines (render es ++ frag)) 0 (MkDB ∅ ∅ n false true) =
  let db := replay (MkDB ∅ ∅ n false true) es in
  match frag with [] => Complete db | _ => Torn (length (render es)) db end.
Proof.
  intros [Hf Hc] Hn. apply scan_log; [done..|]. by eapply consistent_same_maps; [|exact Hc].
Qed.

Lemma opened_ok es n f :
  stable f = render es → cached f = render es → ∀ m,
  open_ok es f (with_repaired m (replay (MkDB ∅ ∅ n false true) es)).
Proof.
  intros Hs Hca m. destruct (replay_frame (MkDB ∅ ∅ n false true) es) as (_ & Hb & Ho).
  assert (Hm : same_maps (with_repaired m (replay (MkDB ∅ ∅ n false true) es)) (replay fresh_db es))
    by (by apply replay_same_maps).
  split; [by apply same_maps_le|done|by split].
Qed.

(** Opening a durable file: nothing that stable storage says is lost, whatever
    fails, and an open that succeeds holds exactly that, with the torn rest cut. *)
Lemma load_spec io es d r d' :
  disk_ok es (the_file d) → cached (the_file d) = stable (the_file d) → load io d = (r, d') →
  disk_ok es (the_file d') ∧
  ∀ db, r = Ok db → open_ok es (the_file d') db ∧ broken db = false.
Proof.
  intros Hd Hcs E. unfold load in E.
  destruct (lo_read_marker io); [by injection E as <- <-|].
  destruct (lo_open io); [by injection E as <- <-|].
  destruct (lo_read io); [by injection E as <- <-|].
  rewrite the_file_set, Hcs in E.
  destruct (dk_stable _ _ Hd) as (frag & Hst & Hfr).
  set (n := marker_repaired (marker d)) in E. rewrite Hst, scan_stable in E by (done || apply Hd).
  assert (Hbr : ∀ m, broken (with_repaired m (replay (MkDB ∅ ∅ n false true) es)) = false).
  { intros m. by destruct (replay_frame (MkDB ∅ ∅ n false true) es) as (_ & Hb & _). }
  cbn zeta in E. destruct frag as [|c frag].
  { rewrite app_nil_r in Hst. injection E as <- <-. split; [done|].
    intros db Hdb. destruct (lo_seek io); [done|]. apply Ok_inj in Hdb as <-.
    pose proof (opened_ok es n (the_file d) Hst ltac:(congruence) n) as Ho.
    destruct (replay_frame (MkDB ∅ ∅ n false true) es) as (Hn & _).
    specialize (Hbr n). revert Ho Hbr. rewrite <- Hn at 1 3. by destruct (replay _ es). }
  destruct (writeRepairMarker io _ _) as [e dm] eqn:Em.
  assert (Hdm : the_file dm = the_file d).
  { unfold writeRepairMarker in Em. by destruct (lo_marker io); injection Em as <- <-. }
  destruct e as [e|]; [injection E as <- <-; by rewrite Hdm|].
  destruct (lo_truncate io); [injection E as <- <-; by rewrite Hdm|].
  rewrite !the_file_set, Hdm in E.
  assert (Htr : f_truncate (the_file d) (length (render es))
                = MkFile (render es) (render es) ((c :: frag) ++ limbo (the_file d))).
  { unfold f_truncate. rewrite Hcs, Hst, take_app_length, length_app, Nat.min_l by lia.
    by rewrite <- app_assoc, drop_app_length. }
  rewrite Htr in E.
  assert (Hok : ∀ l, l = [] ∨ l = (c :: frag) ++ limbo (the_file d) →
                disk_ok es (MkFile (render es) (render es) l)).
  { intros l Hl. pose proof (dk_wf _ _ Hd) as Hw. split; cbn; [done| | | |done].
    - exists []. rewrite app_nil_r. split; [done|constructor].
    - exists [], []. rewrite !app_nil_r. split; [done|]. split; [constructor|done].
    - destruct Hl as [->| ->].
      + exists [], []. rewrite !app_nil_r. split; [done|]. split; [constructor|done].
      + rewrite app_assoc, <- Hst. apply Hd. }
  destruct (lo_sync io); injection E as <- <-; rewrite !the_file_set; unfold f_sync; cbn [cached].
  - split; [apply Hok; by right|done].
  - split; [apply Hok; by left|]. intros db Hdb. destruct (lo_seek io); [done|].
    apply Ok_inj in Hdb as <-. split; [by apply opened_ok|apply Hbr].
Qed.

(** Opening a file that holds a log succeeds when no system call fails. *)
Lemma load_total d :
  (∃ es frag, cached (the_file d) = render es ++ frag ∧ no_newline frag ∧ log_wf es) →
  ∃ db d', load load_ok d = (Ok db, d').
Proof.
  intros (es & frag & Hc & Hf & Hw). unfold load. cbn [lo_read_marker lo_open lo_read load_ok].
  rewrite the_file_set, Hc, scan_stable by done. cbn zeta.
  destruct frag; cbn; eauto.
Qed.

(** ** Import *)

(** Successive insertions and deletions under keys [f r]. *)
Section Folds.
Context {K V R : Type} `{Countable K} (f : R → K) (g : R → V).

Lemma foldl_insert_other l (m : gmap K V) k :
  (∀ r, r ∈ l → f r ≠ k) → foldl (fun m r => <[f r := g r]> m) m l !! k = m !! k.
Proof.
  revert m. induction l as [|r l IH]; intros m Hk; [done|]. cbn.
  rewrite IH by (intros r' ?; apply Hk; by right).
  apply lookup_insert_ne, Hk. by left.
Qed.

Lemma foldl_insert_ext l (m1 m2 : gmap K V) :
  (∀ k, (∀ r, r ∈ l → f r ≠ k) → m1 !! k = m2 !! k) →
  foldl (fun m r => <[f r := g r]> m) m1 l = foldl (fun m r => <[f r := g r]> m) m2 l.
Proof.
  revert m1 m2. induction l as [|r l IH]; intros m1 m2 Hk; cbn.
  { apply map_eq. intros k. apply Hk. intros r Hr. by apply elem_of_nil in Hr. }
  apply IH. intros k Hl. destruct (decide (f r = k)) as [<-|Hne].
  - by rewrite !lookup_insert_eq.
  - rewrite !lookup_insert_ne by done. apply Hk. intros r' Hr'.
    apply elem_of_cons in Hr' as [->|?]; [done|by apply Hl].
Qed.

Lemma foldl_delete_lookup l (m : gmap K V) k :
  foldl (fun m r => delete (f r) m) m l !! k
  = if decide (Exists (fun r => f r = k) l) then None else m !! k.
Proof.
  revert m. induction l as [|r l IH]; intros m; cbn.
  { rewrite decide_False; [done|]. intros He. inversion He. }
  rewrite IH. destruct (decide (f r = k)) as [<-|Hne].
  - rewrite lookup_delete_eq. rewrite (decide_True (P := Exists _ (r :: l))) by (by left).
    by destruct (decide _).
  - rewrite lookup_delete_ne by done. destruct (decide _) as [He|He].
    + by rewrite decide_True by (by right).
    + rewrite decide_False; [done|]. rewrite Exists_cons. tauto.
Qed.
End Folds.

(** What the first loop of [Import] establishes. *)
Definition x_key (r : ExportRecord) : Scope * Z := (x_Scope r, x_Height r).

Lemma import_check_spec rs seen db :
  import_check rs seen db = Ok tt →
  ∀ x, x ∈ rs → x_Watermark x = false →
    x_BlockHash x ≠ 0 ∧
    (∀ prev, records db !! x_key x = Some prev → r_BlockHash prev = x_BlockHash x) ∧
    (∀ h, seen !! x_key x = Some h → h = x_BlockHash x) ∧
    (∀ y, y ∈ rs → x_Watermark y = false → x_key y = x_key x → x_BlockHash y = x_BlockHash x).
Proof.
  revert seen. induction rs as [|r rs IH]; intros seen E x Hx Hwx; [by apply elem_of_nil in Hx|].
  cbn [import_check] in E. destruct (x_Watermark r) eqn:Hwr.
  { apply elem_of_cons in Hx as [->|Hx]; [congruence|].
    destruct (IH _ E x Hx Hwx) as (A & B & C & D). split; [done|]. split; [done|]. split; [done|].
    intros y Hy Hwy. apply elem_of_cons in Hy as [->|Hy]; [congruence|by apply D]. }
  apply bind_ok in E as (u1 & E1 & E). apply bind_ok in E as (u2 & E2 & E).
  apply bind_ok in E as (u3 & E3 & E). apply fail_if_ok in E1, E2, E3.
  fold (x_key r) in E2, E3, E.
  assert (Hr : ∀ h, seen !! x_key r = Some h → h = x_BlockHash r).
  { intros h Hh. rewrite Hh in E3. apply negb_false_iff, Z.eqb_eq in E3. done. }
  assert (Hrest : ∀ y, y ∈ rs → x_Watermark y = false → x_key y = x_key r → x_BlockHash y = x_BlockHash r).
  { intros y Hy Hwy Hk. destruct (IH _ E y Hy Hwy) as (_ & _ & C & _). symmetry. apply C.
    by rewrite Hk, lookup_insert_eq. }
  apply elem_of_cons in Hx as [->|Hx].
  - split; [by apply Z.eqb_neq in E1|]. split; [|split; [done|]].
    + intros prev Hp. rewrite Hp in E2. by apply negb_false_iff, Z.eqb_eq in E2.
    + intros y Hy Hwy Hk. apply elem_of_cons in Hy as [->|Hy]; [done|by apply Hrest].
  - destruct (IH _ E x Hx Hwx) as (A & B & C & D). split; [done|]. split; [done|]. split.
    + intros h Hh. destruct (decide (x_key r = x_key x)) as [Hk|Hk].
      * rewrite <- Hk in Hh. rewrite (Hr h Hh). symmetry. by apply Hrest.
      * apply C. by rewrite lookup_insert_ne.
    + intros y Hy Hwy Hk. apply elem_of_cons in Hy as [->|Hy]; [|by apply D].
      symmetry. by apply Hrest.
Qed.

Definition placeholder : SignRecord := MkRecord (MkScope 0 0 0) 0 0 0.

(** What the second loop collects. *)
Record collected (now : Z) (rs : list ExportRecord) (db : DB) (wms0 : gmap Scope Z)
  (new : list SignRecord) (wms : gmap Scope Z) (db' : DB) : Prop := {
  co_records : records db' = foldl (fun m r => <[rec_key r := placeholder]> m) (records db) new;
  co_frame : watermarks db' = watermarks db ∧ repaired db' = repaired db ∧
             broken db' = broken db ∧ db_open db' = db_open db;
  co_nodup : NoDup (rec_key <$> new);
  co_new : ∀ r, r ∈ new → records db !! rec_key r = None ∧
           ∃ x, x ∈ rs ∧ x_Watermark x = false ∧
             r = MkRecord (x_Scope x) (x_Height x) (x_BlockHash x)
                   (if x_Time x =? 0 then now else x_Time x);
  co_all : ∀ x, x ∈ rs → x_Watermark x = false →
           is_Some (records db !! x_key x) ∨ x_key x ∈ rec_key <$> new;
  co_wms : ∀ sc h, wms !! sc = Some h → wms0 !! sc = Some h ∨
           (watermark_of db sc < h ∧ ∃ x, x ∈ rs ∧ x_Watermark x = true ∧ x_Scope x = sc ∧ x_Height x = h);
  co_wms_mono : ∀ sc, default 0 (wms0 !! sc) ≤ default 0 (wms !! sc);
  co_wms_all : ∀ x, x ∈ rs → x_Watermark x = true →
           x_Height x ≤ Z.max (watermark_of db (x_Scope x)) (default 0 (wms !! x_Scope x))
}.

Lemma import_collect_spec now rs buf adds wms0 db :
  ∃ new wms db',
    import_collect now rs buf adds wms0 db = (buf ++ render (EA <$> new), adds ++ new, wms, db') ∧
    collected now rs db wms0 new wms db'.
Proof.
  revert buf adds wms0 db. induction rs as [|r rs IH]; intros buf adds wms0 db.
  { exists [], wms0, db. cbn. rewrite !app_nil_r. split; [done|].
    split; cbn; try done; try (by intros ? ?%elem_of_nil); [constructor|by left]. }
  cbn [import_collect]. destruct (x_Watermark r) eqn:Hw.
  - set (wms1 := if _ && _ then _ else wms0).
    destruct (IH buf adds wms1 db) as (new & wms & db' & E & [A B C D F G M N]).
    exists new, wms, db'. split; [exact E|]. split; try done.
    + intros r' Hr'. destruct (D r' Hr') as (? & x & ? & ?). split; [done|].
      exists x. split; [by right|done].
    + intros x Hx Hwx. apply elem_of_cons in Hx as [->|Hx]; [congruence|by apply F].
    + intros sc h Hh. destruct (G sc h Hh) as [G1|(? & x & ? & ?)].
      * unfold wms1 in G1. destruct (_ && _) eqn:Eb; [|by left].
        apply andb_true_iff in Eb as [Eb _]. apply Z.ltb_lt in Eb.
        destruct (decide (x_Scope r = sc)) as [<-|Hne].
        -- rewrite lookup_insert_eq in G1. injection G1 as <-. right. split; [done|].
           exists r. split; [by left|done].
        -- rewrite lookup_insert_ne in G1 by done. by left.
      * right. split; [done|]. exists x. split; [by right|done].
    + intros sc. etransitivity; [|apply M]. unfold wms1. destruct (_ && _) eqn:Eb; [|done].
      apply andb_true_iff in Eb as [_ Eb]. apply Z.ltb_lt in Eb.
      destruct (decide (x_Scope r = sc)) as [<-|Hne];
        [rewrite lookup_insert_eq; cbn; lia|by rewrite lookup_insert_ne].
    + intros x Hx Hwx. apply elem_of_cons in Hx as [->|Hx]; [|by apply N].
      specialize (M (x_Scope r)). unfold wms1 in M.
      destruct (Z.ltb_spec (watermark_of db (x_Scope r)) (x_Height r)); cbn [andb] in M; [|lia].
      destruct (Z.ltb_spec (default 0 (wms0 !! x_Scope r)) (x_Height r)); [|lia].
      rewrite lookup_insert_eq in M. cbn in M. lia.
  - destruct (records db !! (x_Scope r, x_Height r)) as [prev|] eqn:Er.
    + destruct (IH buf adds wms0 db) as (new & wms & db' & E & [A B C D F G M N]).
      exists new, wms, db'. split; [exact E|]. split; try done.
      * intros r' Hr'. destruct (D r' Hr') as (? & x & ? & ?). split; [done|].
        exists x. split; [by right|done].
      * intros x Hx Hwx. apply elem_of_cons in Hx as [->|Hx]; [left; by exists prev|by apply F].
      * intros sc h Hh. destruct (G sc h Hh) as [G1|(? & x & ? & ?)]; [by left|].
        right. split; [done|]. exists x. split; [by right|done].
      * intros x Hx Hwx. apply elem_of_cons in Hx as [->|Hx]; [congruence|by apply N].
    + set (rec := MkRecord _ _ _ _).
      set (db1 := with_records _ db).
      destruct (IH (buf ++ line (A1_body (x_Scope r) (x_Height r) (x_BlockHash r) (r_Time rec)))
                  (adds ++ [rec]) wms0 db1) as (new & wms & db' & E & [A B C D F G M N]).
      exists (rec :: new), wms, db'. split.
      { etransitivity; [exact E|]. by rewrite fmap_cons, render_cons, <- !app_assoc. }
      assert (Hk : ∀ r', r' ∈ new → rec_key r' ≠ rec_key rec).
      { intros r' Hr' Hk. destruct (D r' Hr') as [Hn _]. rewrite Hk in Hn.
        cbn in Hn. by rewrite lookup_insert_eq in Hn. }
      split; try done.
      * rewrite fmap_cons. constructor; [|done].
        intros (r' & Hr1 & Hr2)%list_elem_of_fmap. by eapply Hk.
      * intros r' Hr'. apply elem_of_cons in Hr' as [->|Hr'].
        -- split; [done|]. exists r. split; [by left|done].
        -- pose proof (Hk r' Hr'). destruct (D r' Hr') as (Hn & x & ? & ?). split.
           ++ cbn in Hn. by rewrite lookup_insert_ne in Hn by done.
           ++ exists x. split; [by right|done].
      * intros x Hx Hwx. rewrite fmap_cons, elem_of_cons.
        destruct (decide (x_key x = rec_key rec)) as [Hkk|Hkk]; [by right; left|].
        apply elem_of_cons in Hx as [->|Hx]; [by destruct Hkk|].
        destruct (F x Hx Hwx) as [Hs|?]; [left|by right; right].
        cbn in Hs. by rewrite lookup_insert_ne in Hs by done.
      * intros sc h Hh. destruct (G sc h Hh) as [G1|(? & x & ? & ?)]; [by left|].
        right. split; [done|]. exists x. split; [by right|done].
      * intros x Hx Hwx. apply elem_of_cons in Hx as [->|Hx]; [congruence|by apply N].
Qed.

Lemma replay_records db new :
  replay db (EA <$> new) = with_records (fun m => foldl (fun m r => <[rec_key r := r]> m) m new) db.
Proof.
  revert db. induction new as [|r new IH]; intros db; [by destruct db|].
  rewrite fmap_cons, replay_cons, IH. done.
Qed.

Lemma consistent_records db new :
  NoDup (rec_key <$> new) → (∀ r, r ∈ new → records db !! rec_key r = None) →
  consistent db (EA <$> new).
Proof.
  revert db. induction new as [|r new IH]; intros db Hnd Habs; [done|].
  rewrite fmap_cons in Hnd. apply NoDup_cons in Hnd as [Hni Hnd]. cbn. split.
  - intros prev Hp. rewrite Habs in Hp by (by left). done.
  - apply IH; [done|]. intros r' Hr'. cbn. rewrite lookup_insert_ne.
    + apply Habs. by right.
    + intros E. apply Hni. rewrite E. by apply list_elem_of_fmap_2.
Qed.

Definition watermark_entry (now : Z) (w : Scope * Z) : entry := EW w.1 w.2 now.

Lemma consistent_watermarks db now ws : consistent db (watermark_entry now <$> ws).
Proof. revert db. induction ws as [|w ws IH]; intros db; cbn; [done|]. split; [done|apply IH]. Qed.

Lemma replay_watermarks db now ws :
  NoDup ws.*1 → (∀ w, w ∈ ws → watermark_of db w.1 < w.2) →
  replay db (watermark_entry now <$> ws)
  = with_watermarks (fun m => foldl (fun m w => <[w.1 := w.2]> m) m ws) db.
Proof.
  revert db. induction ws as [|w ws IH]; intros db Hnd Hlt; [by destruct db|].
  rewrite fmap_cons in Hnd. apply NoDup_cons in Hnd as [Hni Hnd].
  rewrite fmap_cons, replay_cons.
  change (fold_entry db (watermark_entry now w))
    with (if watermark_of db w.1 <? w.2 then with_watermarks <[w.1 := w.2]> db else db).
  destruct (Z.ltb_spec (watermark_of db w.1) w.2); [|specialize (Hlt w ltac:(by left)); lia].
  rewrite IH; [done|done|]. intros w' Hw'. unfold watermark_of. cbn.
  rewrite lookup_insert_ne.
  - apply Hlt. by right.
  - intros E. apply Hni. rewrite E. by apply list_elem_of_fmap_2.
Qed.

Lemma render_nil es : Forall entry_wf es → render es = [] → es = [].
Proof.
  intros Hes Hr. destruct Hes as [|e es He _]; [done|]. rewrite render_cons in Hr.
  apply app_eq_nil in Hr as [Hr _]. by apply entry_line_ne in He.
Qed.

(** What a history entry means for a memory or a log. *)
Definition holds (db : DB) (ev : event) : Prop :=
  match ev with
  | Signed sc h hash _ | Known sc h hash =>
      ∃ r, records db !! (sc, h) = Some r ∧ r_BlockHash r = hash
  | Raised sc w => 0 < w → w ≤ watermark_of db sc
  end.

Lemma holds_le a b ev : maps_le a b → holds a ev → holds b ev.
Proof.
  intros [Hr Hw]. destruct ev as [sc h hash fr|sc h hash|sc w]; cbn.
  1, 2: intros (r & E & <-); apply Hr in E as (r' & E' & ?); by exists r'.
  intros Hr' Hp. specialize (Hw sc). specialize (Hr' Hp). lia.
Qed.

Lemma replay_le es more : log_wf (es ++ more) →
  maps_le (replay fresh_db es) (replay fresh_db (es ++ more)).
Proof.
  intros [_ Hc]. apply consistent_app in Hc as [_ Hc]. rewrite replay_app. by apply replay_mono.
Qed.

(** The two possible ends of an operation that appends. *)
Definition op_ok (es : list entry) (f' : File) (db db' : DB) (ok : bool) (evs : list event) : Prop :=
  if ok then ∃ more, disk_ok (es ++ more) f' ∧ open_ok (es ++ more) f' db' ∧ Forall (holds db') evs
  else disk_ok es f' ∧ open_ok es f' db' ∧ same_maps db' db.

Lemma disk_ok_appended es more :
  log_wf (es ++ more) →
  disk_ok (es ++ more) (MkFile (render (es ++ more)) (render (es ++ more)) []).
Proof.
  intros Hw. rewrite <- (app_nil_r (render (es ++ more))) at 1.
  apply (disk_ok_written (es ++ more) [] [] []); [by rewrite app_nil_r|done..].
Qed.

Lemma open_ok_appended es more db :
  log_wf (es ++ more) → broken db = false → db_open db = true →
  same_maps db (replay fresh_db (es ++ more)) →
  open_ok (es ++ more) (MkFile (render (es ++ more)) (render (es ++ more)) []) db.
Proof. intros Hw Hb Ho Hm. split; [by apply same_maps_le|done|by split]. Qed.

Lemma open_ok_failed es f f' db db' :
  open_ok es f db → (db' = db ∨ db' = with_broken db) → quiet es f' db' →
  open_ok es f' db' ∧ same_maps db' db.
Proof. intros [Hle Hs _] [-> | ->] Hq; (split; [by split|done]). Qed.

Lemma open_ok_transfer es f f' db db' :
  open_ok es f db → same_maps db' db → (broken db' = false → broken db = false) →
  quiet es f' db' → open_ok es f' db'.
Proof.
  intros [Hle Hs _] Hm Hb Hq. split; [| |done].
  - destruct Hle as [L1 L2], Hm as [M1 M2]. split; [by rewrite M1|].
    intros sc. unfold watermark_of. rewrite M2. apply L2.
  - intros Hf. destruct (Hs (Hb Hf)), Hm. split; congruence.
Qed.

Lemma unchanged_ok es f db evs :
  disk_ok es f → open_ok es f db → Forall (holds db) evs → op_ok es f db db true evs.
Proof. intros Hd Ho Hev. exists []. by rewrite app_nil_r. Qed.

Lemma same_replay es more a b :
  same_maps a (replay fresh_db es) → same_maps b (replay a more) →
  same_maps b (replay fresh_db (es ++ more)).
Proof.
  intros Ha Hb. rewrite replay_app. apply (replay_same_maps _ _ more) in Ha.
  destruct Ha, Hb. split; congruence.
Qed.

Lemma approve_ok io now sc h hash es db d r db' d' :
  scope_wf sc → is_u64 h → is_hash hash → is_i64 now →
  disk_ok es (the_file d) → open_ok es (the_file d) db →
  Approve io now sc h hash db d = (r, db', d') →
  op_ok es (the_file d') db db' (is_ok r)
    (match r with Ok fresh => [Signed sc h hash fresh] | _ => [] end) ∧
  (r = Ok true → let wm := watermark_of (replay fresh_db es) sc in wm < h ∨ wm = 0).
Proof.
  intros Hsc Hh Hha Hn Hd Ho E. unfold Approve in E.
  assert (Hno : disk_ok es (the_file d) ∧ open_ok es (the_file d) db ∧ same_maps db db) by done.
  destruct (hash =? 0); [by injection E as <- <- <-|].
  destruct (records db !! (sc, h)) as [prev|] eqn:Er.
  { destruct (Z.eqb_spec (r_BlockHash prev) hash) as [Eh|]; cbn [negb] in E;
      injection E as <- <- <-; [|done].
    split; [|done]. apply unchanged_ok; [done..|]. constructor; [|constructor]. by exists prev. }
  destruct (match watermarks db !! sc with Some wm => h <=? wm | None => false end) eqn:Ew;
    [by injection E as <- <- <-|].
  set (e := EA (MkRecord sc h hash now)).
  assert (He : line (A1_body sc h hash now) = render [e])
    by (unfold render; cbn; by rewrite app_nil_r).
  rewrite He in E. destruct (appendDurable io (render [e]) db d) as [[er db1] d1] eqn:Ea.
  destruct (broken db) eqn:Hb.
  { unfold appendDurable in Ea. rewrite Hb in Ea. destruct (ok_quiet _ _ _ Ho) as [Hop _].
    rewrite Hop in Ea. cbn [negb] in Ea. injection Ea as <- <- <-. by injection E as <- <- <-. }
  pose proof (ok_same _ _ _ Ho Hb) as Hm.
  assert (Hw : log_wf (es ++ [e])).
  { destruct (dk_wf _ _ Hd) as [Hf Hc]. split.
    - apply Forall_app. split; [done|]. by constructor.
    - apply consistent_app. split; [done|]. split; [|done]. intros prev Hp.
      destruct Hm as [Hm _]. rewrite <- Hm in Hp. unfold rec_key in Hp. cbn in Hp. congruence. }
  pose proof (append_spec io es [e] db d er db1 d1 Hd (ok_quiet _ _ _ Ho) Hw Ea) as Hs.
  destruct er as [er|]; injection E as <- <- <-.
  - destruct Hs as (Hdb & Hd' & Hq). split; [|done]. split; [done|]. by eapply open_ok_failed.
  - destruct Hs as (-> & Hf & _). split.
    + exists [e]. rewrite Hf. split; [by apply disk_ok_appended|]. split.
      * apply open_ok_appended; [done|done|apply Ho|].
        apply (same_replay es [e] db); [done|]. by split.
      * constructor; [|constructor]. eexists. cbn. rewrite lookup_insert_eq. done.
    + intros _. unfold watermark_of. destruct Hm as [_ <-].
      destruct (watermarks db !! sc) as [wm|]; [left|by right]. cbn. by apply Z.leb_gt in Ew.
Qed.

Lemma watermark_ok io now sc w es db d r db' d' :
  scope_wf sc → is_u64 w → is_i64 now →
  disk_ok es (the_file d) → open_ok es (the_file d) db →
  SetWatermark io now sc w db d = (r, db', d') →
  op_ok es (the_file d') db db' (is_ok r) (match r with Ok _ => [Raised sc w] | _ => [] end).
Proof.
  intros Hsc Hw Hn Hd Ho E. unfold SetWatermark in E.
  destruct (Z.leb_spec w (watermark_of db sc)) as [Hle|Hlt].
  { injection E as <- <- <-. apply unchanged_ok; [done..|].
    constructor; [by intros _|constructor]. }
  set (e := EW sc w now).
  assert (He : line (W1_body sc w now) = render [e])
    by (unfold render; cbn; by rewrite app_nil_r).
  rewrite He in E. destruct (appendDurable io (render [e]) db d) as [[er db1] d1] eqn:Ea.
  assert (Hwf : log_wf (es ++ [e])).
  { destruct (dk_wf _ _ Hd) as [Hf Hc]. split.
    - apply Forall_app. split; [done|]. by constructor.
    - apply consistent_app. by split. }
  pose proof (append_spec io es [e] db d er db1 d1 Hd (ok_quiet _ _ _ Ho) Hwf Ea) as Hs.
  destruct er as [er|]; injection E as <- <- <-.
  - destruct Hs as (Hdb & Hd' & Hq). split; [done|]. by eapply open_ok_failed.
  - destruct Hs as (-> & Hf & Hb). exists [e]. rewrite Hf. split; [by apply disk_ok_appended|].
    split.
    + apply open_ok_appended; [done|done|apply Ho|].
      apply (same_replay es [e] db); [by apply Ho|]. cbn.
      destruct (Z.ltb_spec (watermark_of db sc) w); [by split|lia].
    + constructor; [|constructor]. cbn. intros _. unfold watermark_of. cbn.
      rewrite lookup_insert_eq. cbn. lia.
Qed.

Lemma foldl_insert_in {K V R} `{Countable K} (f : R → K) (g : R → V) l (m : gmap K V) r :
  NoDup (f <$> l) → r ∈ l → foldl (fun m r => <[f r := g r]> m) m l !! f r = Some (g r).
Proof.
  revert m. induction l as [|r0 l IH]; intros m Hnd Hr; [by apply elem_of_nil in Hr|].
  rewrite fmap_cons in Hnd. apply NoDup_cons in Hnd as [Hni Hnd]. cbn.
  apply elem_of_cons in Hr as [->|Hr]; [|by apply IH].
  rewrite foldl_insert_other; [apply lookup_insert_eq|].
  intros r' Hr' E. apply Hni. rewrite <- E. by apply list_elem_of_fmap_2.
Qed.

(** The undo of [Import]'s placeholders. *)
Lemma import_undo now rs db new wms dbp db1 :
  collected now rs db ∅ new wms dbp → db1 = dbp ∨ db1 = with_broken dbp →
  same_maps (with_records (fun m => foldl (fun m r => delete (rec_key r) m) m new) db1) db.
Proof.
  intros [A (B & _) C D F G M N] Hdb.
  assert (Hsm : records db1 = records dbp ∧ watermarks db1 = watermarks dbp)
    by (by destruct Hdb as [-> | ->]).
  destruct Hsm as [S1 S2]. split; cbn; [|congruence]. rewrite S1, A. apply map_eq. intros k.
  rewrite (foldl_delete_lookup rec_key id). destruct (decide _) as [Hex|Hex].
  - apply Exists_exists in Hex as (r1 & Hr1 & <-). by destruct (D r1 Hr1) as [-> _].
  - apply (foldl_insert_other rec_key (fun _ => placeholder)). intros r1 Hr1 Hk.
    apply Hex, Exists_exists. by exists r1.
Qed.

Section Imports.
Context (range_w : gmap Scope Z → list (Scope * Z)) (Hrange : listing range_w).

Lemma range_nodup m : NoDup (range_w m).*1.
Proof. rewrite (Hrange m). apply NoDup_fst_map_to_list. Qed.

Lemma range_elem m sc h : (sc, h) ∈ range_w m ↔ m !! sc = Some h.
Proof. rewrite (Hrange m). apply elem_of_map_to_list. Qed.

(** Everything the file says is in the merged memory. *)
Lemma import_events now rs db new wms dbp db' :
  import_check rs ∅ db = Ok tt → collected now rs db ∅ new wms dbp →
  records db' = foldl (fun m r => <[rec_key r := r]> m) (records db) new →
  watermarks db' = foldl (fun m w => <[w.1 := w.2]> m) (watermarks db) (range_w wms) →
  Forall (holds db') (import_event <$> rs).
Proof.
  intros Hck [A B C D F G M N] Hr Hw. apply Forall_fmap, Forall_forall. intros x Hx.
  unfold compose, import_event. destruct (x_Watermark x) eqn:Hwx; cbn.
  - intros Hpos. specialize (N x Hx Hwx). unfold watermark_of in *. rewrite Hw.
    destruct (wms !! x_Scope x) as [h|] eqn:Eh; cbn in N.
    + pose proof Eh as Hin. apply range_elem in Hin.
      assert (Hl : foldl (fun m w => <[w.1 := w.2]> m) (watermarks db) (range_w wms) !! x_Scope x
                   = Some h).
      { apply (foldl_insert_in fst snd _ _ (x_Scope x, h)); [apply range_nodup|done]. }
      rewrite Hl. cbn.
      destruct (G _ _ Eh) as [?|(? & _)]; [done|]. lia.
    + rewrite (foldl_insert_other fst snd); [lia|].
      intros [sc h] Hin Hsc. apply range_elem in Hin. cbn in Hsc. congruence.
  - destruct (import_check_spec _ _ _ Hck x Hx Hwx) as (_ & Hprev & _ & Hsame).
    change (x_Scope x, x_Height x) with (x_key x). rewrite Hr.
    destruct (decide (x_key x ∈ rec_key <$> new)) as [Hin|Hni].
    + apply list_elem_of_fmap in Hin as (r & Hk & Hin). exists r. rewrite Hk.
      split; [by apply (foldl_insert_in rec_key id)|].
      destruct (D r Hin) as (_ & y & Hy & Hwy & ->). apply Hsame; [done..|].
      unfold rec_key in Hk. by symmetry.
    + rewrite (foldl_insert_other rec_key id).
      * destruct (F x Hx Hwx) as [[prev Hp]|?]; [|done]. exists prev. split; [done|by apply Hprev].
      * intros r Hin Hk. apply Hni. rewrite <- Hk. by apply list_elem_of_fmap_2.
Qed.

Lemma import_entries_wf now rs db new wms dbp :
  is_i64 now → Forall export_wf rs → collected now rs db ∅ new wms dbp →
  Forall entry_wf ((EA <$> new) ++ (watermark_entry now <$> range_w wms)).
Proof.
  intros Hn Hwf [A B C D F G M N]. rewrite Forall_forall in Hwf. apply Forall_app. split.
  - apply Forall_fmap, Forall_forall. intros r Hr. unfold compose.
    destruct (D r Hr) as (_ & x & Hx & _ & ->). destruct (Hwf x Hx) as (? & ? & ? & ?).
    cbn. split; [done|]. split; [done|]. split; [done|]. by destruct (_ =? 0).
  - apply Forall_fmap, Forall_forall. intros [sc h] Hin. apply range_elem in Hin.
    destruct (G sc h Hin) as [?|(_ & x & Hx & _ & <- & <-)]; [done|].
    destruct (Hwf x Hx) as (? & ? & _). done.
Qed.

(** Memory after the lines of an import are replayed. *)
Lemma import_replay now rs db new wms dbp :
  collected now rs db ∅ new wms dbp →
  consistent db ((EA <$> new) ++ (watermark_entry now <$> range_w wms)) ∧
  replay db ((EA <$> new) ++ (watermark_entry now <$> range_w wms))
  = with_watermarks (fun m => foldl (fun m w => <[w.1 := w.2]> m) m (range_w wms))
      (with_records (fun m => foldl (fun m r => <[rec_key r := r]> m) m new) db).
Proof.
  intros [A B C D F G M N]. split.
  - apply consistent_app. split; [|apply consistent_watermarks].
    apply consistent_records; [done|]. intros r Hr. by destruct (D r Hr).
  - rewrite replay_app, replay_records, replay_watermarks; [done|apply range_nodup|].
    intros [sc h] Hin. apply range_elem in Hin. by destruct (G sc h Hin) as [?|[? _]].
Qed.

(** The records written over their placeholders. *)
Lemma import_merge now rs db new wms dbp :
  collected now rs db ∅ new wms dbp →
  with_watermarks (fun m => foldl (fun m w => <[w.1 := w.2]> m) m (range_w wms))
    (with_records (fun m => foldl (fun m r => <[rec_key r := r]> m) m new) dbp)
  = with_watermarks (fun m => foldl (fun m w => <[w.1 := w.2]> m) m (range_w wms))
      (with_records (fun m => foldl (fun m r => <[rec_key r := r]> m) m new) db).
Proof.
  intros [A B C D F G M N]. destruct dbp as [rp wp np bp op], db. cbn in A, B.
  destruct B as (-> & -> & -> & ->). unfold with_watermarks, with_records. cbn. f_equal.
  rewrite A. apply (foldl_insert_ext rec_key id). intros k Hk.
  by apply (foldl_insert_other rec_key (fun _ => placeholder)).
Qed.

Lemma import_ok io now rs es db d r db' d' :
  Forall export_wf rs → is_i64 now →
  disk_ok es (the_file d) → open_ok es (the_file d) db →
  Import range_w io now rs db d = (r, db', d') →
  op_ok es (the_file d') db db' (is_ok r)
    (match r with Ok _ => import_event <$> rs | _ => [] end).
Proof.
  intros Hwf Hn Hd Ho E. unfold Import in E.
  destruct (import_check rs ∅ db) as [[]|e|w] eqn:Eck; [|by injection E as <- <- <-..].
  destruct (import_collect_spec now rs [] [] ∅ db) as (new & wms & dbp & Ec & Hco).
  rewrite Ec in E. cbn [app] in E.
  set (more := (EA <$> new) ++ (watermark_entry now <$> range_w wms)).
  assert (Hbuf : render (EA <$> new) ++
    concat ((fun w => line (W1_body w.1 w.2 now)) <$> range_w wms) = render more).
  { unfold more. rewrite render_app. f_equal. unfold render. by rewrite <- list_fmap_compose. }
  rewrite Hbuf in E. pose proof (import_entries_wf _ _ _ _ _ _ Hn Hwf Hco) as Hmwf. fold more in Hmwf.
  destruct (import_replay _ _ _ _ _ _ Hco) as [Hcons Hrep]. fold more in Hcons, Hrep.
  set (db2 := with_watermarks _ (with_records _ db)) in Hrep.
  pose proof (co_frame _ _ _ _ _ _ _ Hco) as (B1 & B2 & B3 & B4).
  pose proof (import_merge _ _ _ _ _ _ Hco) as Hmerge. fold db2 in Hmerge.
  assert (Hev : Forall (holds db2) (import_event <$> rs)) by (by eapply import_events).
  destruct (bool_decide (render more = [])) eqn:Eb.
  { apply bool_decide_eq_true in Eb. apply render_nil in Eb; [|done].
    rewrite Hmerge in E. injection E as <- <- <-.
    rewrite Eb in Hrep. change (db = db2) in Hrep. rewrite <- Hrep in Hev |- *.
    by apply unchanged_ok. }
  destruct (appendDurable io (render more) dbp d) as [[er db1] d1] eqn:Ea.
  assert (Hq : quiet es (the_file d) dbp).
  { destruct (ok_quiet _ _ _ Ho) as [Q1 Q2]. split; [congruence|]. by rewrite B3. }
  assert (Hfail : ∀ f' dbq, disk_ok es f' → (dbq = dbp ∨ dbq = with_broken dbp) →
    quiet es f' dbq →
    op_ok es f' db (with_records (fun m => foldl (fun m r => delete (rec_key r) m) m new) dbq) false
      []).
  { intros f' dbq Hd' Hdbq Hq'. pose proof (import_undo _ _ _ _ _ _ _ Hco Hdbq) as Hundo.
    split; [done|]. split; [|done]. eapply open_ok_transfer; [done|done| |exact Hq'].
    destruct Hdbq as [-> | ->]; [by rewrite <- B3|done]. }
  destruct (broken db) eqn:Hb.
  { unfold appendDurable in Ea. rewrite B3 in Ea. destruct Hq as [Q1 Q2].
    rewrite Q1 in Ea. cbn [negb] in Ea. injection Ea as <- <- <-. injection E as <- <- <-.
    apply Hfail; [done|by left|by split]. }
  pose proof (ok_same _ _ _ Ho Hb) as Hm.
  assert (Hw : log_wf (es ++ more)).
  { destruct (dk_wf _ _ Hd) as [W1 W2]. split; [by apply Forall_app|].
    apply consistent_app. split; [done|]. by eapply consistent_same_maps. }
  pose proof (append_spec io es more dbp d er db1 d1 Hd Hq Hw Ea) as Hs.
  destruct er as [er|]; [|rewrite (proj1 Hs), Hmerge in E]; injection E as <- <- <-.
  - destruct Hs as (Hdb & Hd' & Hq'). by apply Hfail.
  - destruct Hs as (_ & Hf & Hb'). exists more. rewrite Hf.
    split; [by apply disk_ok_appended|]. split; [|done].
    apply open_ok_appended; [done|done|apply Ho|].
    apply (same_replay es more db); [done|]. by rewrite Hrep.
Qed.
End Imports.

(** ** The invariant of the system *)

(** Fresh approvals are above the watermarks raised before them. *)
Fixpoint fresh_above (hist : list event) : Prop :=
  match hist with
  | [] => True
  | ev :: older =>
      match ev with
      | Signed sc h _ true => ∀ w, Raised sc w ∈ older → 0 < w → w < h
      | _ => True
      end ∧ fresh_above older
  end.

Record sys_ok (s : Sys) (es : list entry) : Prop := {
  so_disk : disk_ok es (the_file (sys_disk s));
  so_open : ∀ db, sys_db s = Some db → open_ok es (the_file (sys_disk s)) db;
  so_history : Forall (holds (replay fresh_db es)) (history s);
  so_fresh : fresh_above (history s)
}.

Lemma disk_ok_synced es d : log_ext es d →
  ∃ more, log_wf (es ++ more) ∧ disk_ok (es ++ more) (MkFile d d []).
Proof.
  intros (more & frag & -> & Hf & Hw). exists more. split; [done|].
  assert (He : log_ext (es ++ more) (render (es ++ more) ++ frag)).
  { exists [], frag. by rewrite app_nil_r. }
  split; cbn; [done|by exists frag|done|by rewrite app_nil_r|done].
Qed.

Lemma holds_grow es more evs :
  log_wf (es ++ more) → Forall (holds (replay fresh_db es)) evs →
  Forall (holds (replay fresh_db (es ++ more))) evs.
Proof.
  intros Hw Hev. eapply Forall_impl; [exact Hev|]. intros ev. apply holds_le. by apply replay_le.
Qed.

(** An operation of the running process keeps the invariant. *)
Lemma sys_ok_op d db hist es d' db' ok evs :
  sys_ok (MkSys d (Some db) hist) es → op_ok es (the_file d') db db' ok evs →
  (if ok then True else evs = []) →
  fresh_above (evs ++ hist) →
  ∃ es', sys_ok (MkSys d' (Some db') (evs ++ hist)) es'.
Proof.
  intros [_ _ Hh Hf] Hop Hevs Hfr. cbn in Hh, Hf. destruct ok; cbn in Hop.
  - destruct Hop as (more & Hd' & Ho' & Hev). exists (es ++ more). split; cbn; [done| | |done].
    + intros db0 [= <-]. done.
    + apply Forall_app. split; [|apply holds_grow; [by apply Hd'|done]].
      eapply Forall_impl; [exact Hev|]. intros ev. apply holds_le, Ho'.
  - subst evs. destruct Hop as (Hd' & Ho' & _). exists es. split; cbn; [done| |done|done].
    by intros db0 [= <-].
Qed.

Lemma fresh_above_imports rs hist :
  fresh_above hist → fresh_above ((import_event <$> rs) ++ hist).
Proof.
  intros Hf. induction rs as [|r rs IH]; [done|]. cbn. split; [|done].
  unfold import_event. by destruct (x_Watermark r).
Qed.

Section Invariant.
Context (range_w : gmap Scope Z → list (Scope * Z)) (Hrange : listing range_w).

Lemma step_ok s s' es : step range_w true s s' → sys_ok s es → ∃ es', sys_ok s' es'.
Proof.
  intros Hst Hs. pose proof Hs as [Hd Ho Hh Hf].
  destruct Hst; cbn [sys_disk sys_db history] in *.
  - destruct (load_spec _ _ _ _ _ Hd (H eq_refl) H0) as [Hd' Hr]. exists es.
    split; cbn; [done| |done|done]. intros db Hdb. destruct r; [|done..].
    injection Hdb as ->. by destruct (Hr db eq_refl).
  - destruct (approve_ok _ _ _ _ _ _ _ _ _ _ _ H H0 H1 H2 Hd (Ho db eq_refl) H3) as [Hop Hw].
    assert (Hhist : (match r with Ok fresh => Signed sc h hash fresh :: hist | _ => hist end)
      = match r with Ok fresh => [Signed sc h hash fresh] | _ => [] end ++ hist) by (by destruct r).
    rewrite Hhist. eapply sys_ok_op; [exact Hs|exact Hop|by destruct r|].
    destruct r as [fresh| |]; [|done..]. cbn. split; [|done]. destruct fresh; [|done].
    intros w Hin Hpos. rewrite Forall_forall in Hh. specialize (Hh _ Hin Hpos).
    specialize (Hw eq_refl). cbn zeta in Hw. lia.
  - pose proof (watermark_ok _ _ _ _ _ _ _ _ _ _ H H0 H1 Hd (Ho db eq_refl) H2) as Hop.
    assert (Hhist : (match r with Ok _ => Raised sc w :: hist | _ => hist end)
      = match r with Ok _ => [Raised sc w] | _ => [] end ++ hist) by (by destruct r).
    rewrite Hhist. eapply sys_ok_op; [exact Hs|exact Hop|by destruct r|]. by destruct r.
  - pose proof (import_ok _ Hrange _ _ _ _ _ _ _ _ _ H H0 Hd (Ho db eq_refl) H1) as Hop.
    assert (Hhist : (match r with Ok _ => (import_event <$> rs) ++ hist | _ => hist end)
      = match r with Ok _ => import_event <$> rs | _ => [] end ++ hist) by (by destruct r).
    rewrite Hhist. eapply sys_ok_op; [exact Hs|exact Hop|by destruct r|].
    destruct r; [by apply fresh_above_imports|done..].
  - exists es. unfold RepairHandled in H. pose proof (Ho db eq_refl) as Hodb.
    destruct (repaired db =? 0); [by injection H as <- <- <-|].
    destruct (negb (db_open db)); [by injection H as <- <- <-|].
    destruct fails; injection H as <- <- <-; [done|].
    split; cbn; [done| |done|done]. intros db0 [= <-]. destruct Hodb as [A B C]. by split.
  - exists es. by split.
  - destruct (disk_ok_synced es _ (dk_cached _ _ Hd)) as (more & Hw & Hd').
    destruct (match db with Some m => broken m | None => true end) eqn:Hb.
    + exists (es ++ more). split; cbn; [done| |by apply holds_grow|done].
      intros m ->. destruct (Ho m eq_refl) as [A B C]. split.
      * eapply maps_le_trans; [exact A|by apply replay_le].
      * congruence.
      * destruct C as [C _]. split; [done|congruence].
    + destruct db as [m|]; [|done]. destruct (Ho m eq_refl) as [A B [C D]].
      destruct (D Hb) as [D1 D2]. exists es.
      assert (Hd2 : disk_ok es (MkFile (render es) (render es) [])).
      { pose proof (disk_ok_appended es []) as Ha. rewrite app_nil_r in Ha. apply Ha, Hd. }
      unfold f_sync. rewrite D2. split; cbn; [done| |done|done].
      intros m' [= <-]. split; [done|done|by split].
  - assert (Hext : log_ext es (stable (the_file d) ++ p)).
    { apply (log_ext_prefix es (stable (the_file d) ++ limbo (the_file d))); [apply Hd| |].
      - destruct (dk_stable _ _ Hd) as (frag & -> & _). rewrite <- app_assoc. by eexists.
      - by apply prefix_app. }
    destruct (disk_ok_synced es _ Hext) as (more & Hw & Hd'). exists (es ++ more).
    split; cbn; [done|done|by apply holds_grow|done].
Qed.

Lemma reachable_ok s : reachable range_w true s → ∃ es, sys_ok s es.
Proof.
  induction 1 as [|s s' _ [es IH] Hst].
  - assert (Hw : log_wf []) by (split; [constructor|done]).
    exists []. split; cbn; [|done|constructor|done].
    apply (disk_ok_appended [] []). done.
  - by eapply step_ok.
Qed.
End Invariant.

(** ** Properties *)

(** The caller was told it may sign [hash] at a height, or that another machine
    has signed it. *)
Definition vouched (hist : list event) (sc : Scope) (h : Z) (hash : Hash) : Prop :=
  (∃ fresh, Signed sc h hash fresh ∈ hist) ∨ Known sc h hash ∈ hist.

Lemma vouched_holds db hist sc h hash :
  Forall (holds db) hist → vouched hist sc h hash →
  ∃ r, records db !! (sc, h) = Some r ∧ r_BlockHash r = hash.
Proof. rewrite Forall_forall. intros Hh [[fresh Hin]|Hin]; exact (Hh _ Hin). Qed.

(** C2: no slashable pair is ever approved. In every run of the sidecar over an
    initially empty disk, with any sequence of approvals, watermarks, imports,
    failing writes, fsyncs and truncations, kills, restarts and power losses,
    two approvals (or imported records) of one attester key at one height name
    the same block hash, provided the file is durable when it is opened. *)
Theorem never_two_hashes range_w s sc h a b :
  listing range_w → reachable range_w true s →
  vouched (history s) sc h a → vouched (history s) sc h b → a = b.
Proof.
  intros Hr Hs Ha Hb. destruct (reachable_ok _ Hr s Hs) as [es Hok].
  destruct (vouched_holds _ _ _ _ _ (so_history _ _ Hok) Ha) as (ra & Ea & <-).
  destruct (vouched_holds _ _ _ _ _ (so_history _ _ Hok) Hb) as (rb & Eb & <-). congruence.
Qed.

(** C25: what was approved survives, provided the file was durable whenever it
    was opened ([reachable _ true]; C37 is a run without this proviso in which an
    approval is lost). Whenever the power fails in such a run, and whatever prefix
    of the unsynced bytes reached the disk, opening the database afterwards with
    no failing system call succeeds, and the opened database holds the hash of
    every approval and import made so far and a watermark not below any that was
    raised. *)
Theorem approvals_survive_power_loss range_w s p :
  listing range_w → reachable range_w true s → p `prefix_of` limbo (the_file (sys_disk s)) →
  let d := set_file (MkFile (stable (the_file (sys_disk s)) ++ p)
                       (stable (the_file (sys_disk s)) ++ p) []) (sys_disk s) in
  ∃ db d', load load_ok d = (Ok db, d') ∧
    (∀ sc h hash, vouched (history s) sc h hash → Lookup sc h db = Some hash) ∧
    (∀ sc w, Raised sc w ∈ history s → 0 < w → w ≤ watermark_of db sc).
Proof.
  intros Hr Hs Hp d.
  assert (Hs' : reachable range_w true (MkSys d None (history s))).
  { destruct s as [d0 db0 hist]. eapply reach_step; [exact Hs|]. by apply s_power_loss. }
  destruct (reachable_ok _ Hr _ Hs') as [es [Hd _ Hh _]]. cbn [sys_disk history] in Hd, Hh.
  destruct (load_total d) as (db & d' & E).
  { destruct (dk_stable _ _ Hd) as (frag & Hst & Hf). exists es, frag.
    split; [exact Hst|]. split; [done|apply Hd]. }
  exists db, d'. split; [exact E|].
  destruct (load_spec _ es d _ _ Hd eq_refl E) as [_ Hop].
  destruct (Hop db eq_refl) as [[_ Hsame _] Hb]. destruct (Hsame Hb) as [Hm1 Hm2]. split.
  - intros sc h hash Hv. destruct (vouched_holds _ _ _ _ _ Hh Hv) as (r & Er & <-).
    unfold Lookup. by rewrite Hm1, Er.
  - intros sc w Hin Hpos. rewrite Forall_forall in Hh. specialize (Hh _ Hin Hpos).
    unfold watermark_of in *. by rewrite Hm2.
Qed.

(** A watermark binds. An approval that is not a repetition of a recorded
    one is for a height above every watermark raised for its scope before it,
    whatever happened in between. *)
Theorem fresh_approvals_above_watermarks range_w s newer older sc h hash w :
  listing range_w → reachable range_w true s →
  history s = newer ++ Signed sc h hash true :: older →
  Raised sc w ∈ older → 0 < w → w < h.
Proof.
  intros Hr Hs E Hin Hpos. destruct (reachable_ok _ Hr s Hs) as [es [_ _ _ Hf]].
  rewrite E in Hf. clear -Hf Hin Hpos. induction newer as [|ev newer IH]; cbn in Hf.
  - by apply Hf.
  - apply IH, Hf.
Qed.

(** *** A concrete run *)

Module Run.
Definition sc : Scope := MkScope 31337 0xabc 0xdef.

Definition opened (d : Disk) : Disk * option DB :=
  let '(r, d) := load load_ok d in (d, match r with Ok db => Some db | _ => None end).
Definition approve (io : AppendIO) (h : Z) (hash : Hash) (s : Sys) : Sys :=
  match sys_db s with
  | Some db =>
      let '(r, db, d) := Approve io 1700000000 sc h hash db (sys_disk s) in
      MkSys d (Some db)
        (match r with Ok fresh => Signed sc h hash fresh :: history s | _ => history s end)
  | None => s
  end.
Definition raise (w : Z) (s : Sys) : Sys :=
  match sys_db s with
  | Some db =>
      let '(r, db, d) := SetWatermark io_ok 1700000000 sc w db (sys_disk s) in
      MkSys d (Some db) (match r with Ok _ => Raised sc w :: history s | _ => history s end)
  | None => s
  end.
Definition reopen (s : Sys) : Sys :=
  MkSys (fst (opened (sys_disk s))) (snd (opened (sys_disk s))) (history s).
Definition stop (s : Sys) : Sys := MkSys (sys_disk s) None (history s).
Definition power_loss (s : Sys) : Sys :=
  MkSys (set_file (MkFile (stable (the_file (sys_disk s)) ++ [])
                     (stable (the_file (sys_disk s)) ++ []) []) (sys_disk s))
    None (history s).
Definition init : Sys := MkSys (MkDisk None None) None [].

Definition range (m : gmap Scope Z) : list (Scope * Z) := map_to_list m.

Lemma listing_range : listing range.
Proof. intros m. done. Qed.

Lemma sc_wf : scope_wf sc.
Proof. unfold scope_wf, is_u64, is_address, two64. cbn. lia. Qed.

Lemma step_reopen b s :
  sys_db s = None → (b = true → cached (the_file (sys_disk s)) = stable (the_file (sys_disk s))) →
  step range b s (reopen s).
Proof.
  destruct s as [d db hist]. cbn [sys_disk sys_db]. intros -> Hc.
  unfold reopen, opened. cbn [sys_disk sys_db history].
  destruct (load load_ok d) as [r d'] eqn:E. by eapply s_open.
Qed.

Lemma step_approve b io h hash s :
  is_Some (sys_db s) → is_u64 h → is_hash hash → step range b s (approve io h hash s).
Proof.
  destruct s as [d db hist]. intros [m Hm] Hh Hha. cbn in Hm. subst db. unfold approve. cbn [sys_disk sys_db history].
  destruct (Approve _ _ _ _ _ _ _) as [[r db'] d'] eqn:E.
  eapply s_approve; [apply sc_wf|done|done| |exact E]. unfold is_i64. lia.
Qed.

Lemma step_raise b w s : is_Some (sys_db s) → is_u64 w → step range b s (raise w s).
Proof.
  destruct s as [d db hist]. intros [m Hm] Hw. cbn in Hm. subst db. unfold raise. cbn [sys_disk sys_db history].
  destruct (SetWatermark _ _ _ _ _ _) as [[r db'] d'] eqn:E.
  eapply s_watermark; [apply sc_wf|done| |exact E]. unfold is_i64. lia.
Qed.

Lemma step_stop b s : is_Some (sys_db s) → step range b s (stop s).
Proof. destruct s as [d db hist]. intros [m Hm]. cbn in Hm. subst db. apply s_stop. Qed.

Lemma step_power_loss b s : step range b s (power_loss s).
Proof. destruct s as [d db hist]. apply s_power_loss. apply prefix_nil. Qed.

(** A watermark, an approval, a power loss, the same approval again. *)
Definition good : Sys :=
  approve io_ok 100 7 (reopen (power_loss (approve io_ok 100 7 (raise 50 (reopen init))))).

Lemma good_history :
  history good = [Signed sc 100 7 false; Signed sc 100 7 true; Raised sc 50].
Proof. vm_compute. reflexivity. Qed.

Ltac some := eexists; vm_compute; reflexivity.

Lemma good_reachable : reachable range true good.
Proof.
  unfold good. eapply reach_step; [|apply step_approve; [some|unfold is_u64, two64; lia|unfold is_hash; lia]].
  eapply reach_step; [|apply step_reopen; [reflexivity|intros _; reflexivity]].
  eapply reach_step; [|apply step_power_loss].
  eapply reach_step; [|apply step_approve; [some|unfold is_u64, two64; lia|unfold is_hash; lia]].
  eapply reach_step; [|apply step_raise; [some|unfold is_u64, two64; lia]].
  eapply reach_step; [|apply step_reopen; [reflexivity|intros _; reflexivity]].
  apply reach_init.
Qed.

(** An approval whose fsync and whose undo fail; the process is restarted while
    the line is only in the cache, and approves from it; the power fails. *)
Definition unsynced : AppendIO := MkAppendIO false None true true false false.
Definition bad : Sys :=
  approve io_ok 100 8 (reopen (power_loss (approve io_ok 100 7 (reopen (stop
    (approve unsynced 100 7 (reopen init))))))).

Lemma bad_history : history bad = [Signed sc 100 8 true; Signed sc 100 7 false].
Proof. vm_compute. reflexivity. Qed.

Lemma bad_reachable : reachable range false bad.
Proof.
  unfold bad. eapply reach_step; [|apply step_approve; [some|unfold is_u64, two64; lia|unfold is_hash; lia]].
  eapply reach_step; [|apply step_reopen; [reflexivity|done]].
  eapply reach_step; [|apply step_power_loss].
  eapply reach_step; [|apply step_approve; [some|unfold is_u64, two64; lia|unfold is_hash; lia]].
  eapply reach_step; [|apply step_reopen; [reflexivity|done]].
  eapply reach_step; [|apply step_stop; some].
  eapply reach_step; [|apply step_approve; [some|unfold is_u64, two64; lia|unfold is_hash; lia]].
  eapply reach_step; [|apply step_reopen; [reflexivity|done]].
  apply reach_init.
Qed.
End Run.

Lemma never_two_hashes_witness :
  vouched (history Run.good) Run.sc 100 7 ∧ ∀ b, vouched (history Run.good) Run.sc 100 b → 7 = b.
Proof.
  assert (H7 : vouched (history Run.good) Run.sc 100 7).
  { rewrite Run.good_history. left. exists true. right. left. }
  split; [exact H7|]. intros b Hb.
  exact (never_two_hashes Run.range Run.good Run.sc 100 7 b Run.listing_range Run.good_reachable H7 Hb).
Defined.

Lemma approvals_survive_power_loss_witness :
  ∃ db d', load load_ok (set_file (MkFile (stable (the_file (sys_disk Run.good)) ++ [])
    (stable (the_file (sys_disk Run.good)) ++ []) []) (sys_disk Run.good)) = (Ok db, d') ∧
    Lookup Run.sc 100 db = Some 7 ∧ 50 ≤ watermark_of db Run.sc.
Proof.
  destruct (approvals_survive_power_loss Run.range Run.good [] Run.listing_range Run.good_reachable
    (prefix_nil _)) as (db & d' & E & H1 & H2).
  exists db, d'. split; [exact E|]. rewrite Run.good_history in H1, H2. split.
  - apply H1. left. exists true. right. left.
  - apply H2; [right; right; left|reflexivity].
Defined.

Lemma fresh_approvals_above_watermarks_witness : 50 < 100.
Proof.
  apply (fresh_approvals_above_watermarks Run.range Run.good [Signed Run.sc 100 7 false]
    [Raised Run.sc 50] Run.sc 100 7 50 Run.listing_range Run.good_reachable Run.good_history).
  - left.
  - reflexivity.
Defined.

(** C37: why the file must be durable when it is opened. [load] does not sync a
    complete last line that an earlier process wrote but never synced. There is
    a run in which an approval's fsync fails and cannot be undone, the restarted
    process approves that hash from the cached line, the power fails, the line
    is gone, and another hash is approved at the same height. *)
Theorem unsynced_open_signs_twice :
  ∃ s, reachable Run.range false s ∧
    vouched (history s) Run.sc 100 7 ∧ vouched (history s) Run.sc 100 8.
Proof.
  exists Run.bad. split; [exact Run.bad_reachable|]. rewrite Run.bad_history. split; left.
  - exists false. right. left.
  - exists true. left.
Qed.

Lemma undo_memory io off db d e db' d' :
  undo_append io off db d = (e, db', d') → db' = db ∨ db' = with_broken db.
Proof.
  unfold undo_append. destruct (io_undo_truncate io); [right; congruence|].
  destruct (io_undo_seek io); [right; congruence|].
  destruct (io_undo_sync io); [right|left]; congruence.
Qed.

Lemma append_memory io l db d e db' d' :
  appendDurable io l db d = (e, db', d') → db' = db ∨ db' = with_broken db.
Proof.
  unfold appendDurable. destruct (negb (db_open db)); [left; congruence|].
  destruct (broken db); [left; congruence|]. destruct (io_seek io); [left; congruence|].
  destruct (io_write io); [apply undo_memory|].
  destruct (io_sync io); [apply undo_memory|left; congruence].
Qed.

(** The approval rule, exactly. On an open database whose writes work,
    Approve says yes if and only if the hash is not zero and either this very
    hash is already recorded for the height (then nothing is written) or the
    height has no record and lies above the scope's watermark, if it has one
    (then the record is on stable storage when the call returns). *)
Theorem Approve_spec now sc h hash db d :
  db_open db = true → broken db = false →
  let '(r, db', d') := Approve io_ok now sc h hash db d in
  match r with
  | Ok false => Lookup sc h db = Some hash ∧ hash ≠ 0 ∧ db' = db ∧ d' = d
  | Ok true =>
      Lookup sc h db = None ∧ hash ≠ 0 ∧ (∀ wm, watermarks db !! sc = Some wm → wm < h) ∧
      Lookup sc h db' = Some hash ∧ watermarks db' = watermarks db ∧
      stable (the_file d') = cached (the_file d) ++ line (A1_body sc h hash now)
  | Err _ =>
      (hash = 0 ∨ (∃ hash', Lookup sc h db = Some hash' ∧ hash' ≠ hash) ∨
       (Lookup sc h db = None ∧ ∃ wm, watermarks db !! sc = Some wm ∧ h ≤ wm)) ∧
      db' = db ∧ d' = d
  | Panic _ => False
  end.
Proof.
  intros Ho Hb. unfold Approve, Lookup. destruct (Z.eqb_spec hash 0) as [->|Hne]; [by split; [left|]|].
  destruct (records db !! (sc, h)) as [prev|] eqn:Er; cbn [fmap option_fmap option_map].
  { destruct (Z.eqb_spec (r_BlockHash prev) hash) as [->|Hd]; cbn [negb]; [done|].
    split; [|done]. right. left. eauto. }
  destruct (watermarks db !! sc) as [wm|] eqn:Ew.
  - destruct (Z.leb_spec h wm) as [Hle|Hlt].
    { split; [|done]. right. right. split; [done|]. eauto. }
    unfold appendDurable. rewrite Ho, Hb. cbn. rewrite lookup_insert_eq. split; [done|]. split; [done|].
    split; [by intros ? [= <-]|]. done.
  - unfold appendDurable. rewrite Ho, Hb. cbn. by rewrite lookup_insert_eq.
Qed.

Lemma Approve_spec_witness :
  exists db' d', Approve io_ok 1700000000 Run.sc 100 7 fresh_db (MkDisk None None) = (Ok true, db', d') ∧
    stable (the_file d') = line (A1_body Run.sc 100 7 1700000000).
Proof.
  pose proof (Approve_spec 1700000000 Run.sc 100 7 fresh_db (MkDisk None None) eq_refl eq_refl) as H.
  destruct (Approve io_ok 1700000000 Run.sc 100 7 fresh_db (MkDisk None None)) as [[r db'] d'] eqn:E.
  assert (Hr : r = Ok true).
  { transitivity (fst (fst (Approve io_ok 1700000000 Run.sc 100 7 fresh_db (MkDisk None None)))).
    - rewrite E. reflexivity.
    - vm_compute. reflexivity. }
  rewrite Hr in H |- *. exists db', d'. split; [reflexivity|].
  destruct H as (_ & _ & _ & _ & _ & H). exact H.
Defined.

(** An import is all or nothing. If Import returns an error, for whatever
    reason and whatever failed, the records and watermarks in memory are those
    of before; and if the file contradicts memory or itself nothing was written. *)
Theorem Import_atomic range_w io now rs db d e db' d' :
  Import range_w io now rs db d = (Err e, db', d') →
  records db' = records db ∧ watermarks db' = watermarks db ∧
  (is_ok (import_check rs ∅ db) = false → db' = db ∧ d' = d).
Proof.
  unfold Import. intros E.
  destruct (import_check rs ∅ db) as [[]|e1|w] eqn:Eck; [|by injection E as <- <- <-|done].
  destruct (import_collect_spec now rs [] [] ∅ db) as (new & wms & dbp & Ec & Hco).
  rewrite Ec in E. cbn [app] in E. set (buf := _ ++ concat _) in E.
  destruct (if bool_decide (buf = []) then (None, dbp, d) else appendDurable io buf dbp d)
    as [[er db1] d1] eqn:Ea.
  assert (Hdb : db1 = dbp ∨ db1 = with_broken dbp).
  { destruct (bool_decide _); [left; congruence|by eapply append_memory]. }
  destruct er as [er|]; [|done]. injection E as <- <- <-.
  destruct (import_undo _ _ _ _ _ _ _ Hco Hdb) as [-> ->]. done.
Qed.

Lemma Import_atomic_witness :
  let x := MkExportRecord 31337 0xabc 0xdef 100 8 false 0 in
  let db := MkDB {[(Run.sc, 100) := MkRecord Run.sc 100 7 1]} ∅ 0 false true in
  ∃ db' d', snd (fst (Import Run.range io_ok 5 [x] db (MkDisk None None))) = db' ∧
    snd (Import Run.range io_ok 5 [x] db (MkDisk None None)) = d' ∧ db' = db ∧ d' = MkDisk None None.
Proof.
  intros x db.
  destruct (Import Run.range io_ok 5 [x] db (MkDisk None None)) as [[r db'] d'] eqn:E.
  exists db', d'. split; [reflexivity|]. split; [reflexivity|].
  destruct r as [n|e|w]; [vm_compute in E; discriminate E| |vm_compute in E; discriminate E].
  apply (Import_atomic Run.range io_ok 5 [x] db (MkDisk None None) e db' d' E). reflexivity.
Defined.

(** *** Moving a key between machines *)

Lemma import_check_ok rs seen db :
  (∀ x, x ∈ rs → x_Watermark x = false →
     x_BlockHash x ≠ 0 ∧ records db !! x_key x = None ∧
     (∀ h, seen !! x_key x = Some h → h = x_BlockHash x) ∧
     (∀ y, y ∈ rs → x_Watermark y = false → x_key y = x_key x → x_BlockHash y = x_BlockHash x)) →
  import_check rs seen db = Ok tt.
Proof.
  revert seen. induction rs as [|r rs IH]; intros seen Hrs; [done|]. cbn [import_check].
  destruct (x_Watermark r) eqn:Hw.
  { apply IH. intros x Hx Hwx. destruct (Hrs x ltac:(by right) Hwx) as (A & B & C & D).
    split; [done|]. split; [done|]. split; [done|]. intros y Hy. apply D. by right. }
  destruct (Hrs r ltac:(by left) Hw) as (A & B & C & D). fold (x_key r).
  destruct (Z.eqb_spec (x_BlockHash r) 0); [done|]. cbn [fail_if mbind result_bind]. rewrite B.
  cbn [fail_if mbind result_bind].
  assert (Hs : match seen !! x_key r with Some prev => negb (prev =? x_BlockHash r) | None => false end
               = false).
  { destruct (seen !! x_key r) as [p|]; [|done]. rewrite (C p eq_refl), Z.eqb_refl. done. }
  rewrite Hs. cbn [fail_if mbind result_bind].
  apply IH. intros x Hx Hwx. destruct (Hrs x ltac:(by right) Hwx) as (A' & B' & C' & D').
  split; [done|]. split; [done|]. split; [|intros y Hy; apply D'; by right].
  intros h Hh. destruct (decide (x_key r = x_key x)) as [Hk|Hk].
  - rewrite Hk, lookup_insert_eq in Hh. injection Hh as <-. apply D'; [by left|done|done].
  - rewrite lookup_insert_ne in Hh by done. by apply C'.
Qed.

Section Transfer.
Context (range_r : gmap (Scope * Z) SignRecord → list ((Scope * Z) * SignRecord))
        (range_w : gmap Scope Z → list (Scope * Z))
        (Hr : listing range_r) (Hw : listing range_w).

(** Every record is stored under its own key with a hash, every watermark is
    positive: so it is for every database that was opened empty. *)
Definition keyed (db : DB) : Prop :=
  (∀ k r, records db !! k = Some r → rec_key r = k ∧ r_BlockHash r ≠ 0) ∧
  (∀ sc w, watermarks db !! sc = Some w → 0 < w).

Lemma Export_elem db x :
  x ∈ Export range_r range_w db ↔
  (∃ k r, records db !! k = Some r ∧ x = export_record r) ∨
  (∃ sc w, watermarks db !! sc = Some w ∧ x = export_watermark (sc, w)).
Proof.
  unfold Export. rewrite merge_sort_Permutation, elem_of_app, !list_elem_of_fmap. split.
  - intros [([k r] & -> & Hin)|([sc w] & -> & Hin)].
    + left. exists k, r. rewrite (Hr (records db)) in Hin. by apply elem_of_map_to_list in Hin.
    + right. exists sc, w. rewrite (Hw (watermarks db)) in Hin. by apply elem_of_map_to_list in Hin.
  - intros [(k & r & Hl & ->)|(sc & w & Hl & ->)].
    + left. exists (k, r). split; [done|]. rewrite (Hr (records db)). by apply elem_of_map_to_list.
    + right. exists (sc, w). split; [done|]. rewrite (Hw (watermarks db)). by apply elem_of_map_to_list.
Qed.

Lemma export_record_key r : x_key (export_record r) = rec_key r.
Proof. by destruct r as [[] ? ? ?]. Qed.

Lemma Export_check db db0 : keyed db → records db0 = ∅ →
  import_check (Export range_r range_w db) ∅ db0 = Ok tt.
Proof.
  intros [Hk _] H0. apply import_check_ok. intros x Hx Hwx.
  apply Export_elem in Hx as [(k & r & Hl & ->)|(sc & w & _ & ->)]; [|done].
  destruct (Hk k r Hl) as [Ek Hne]. split; [done|]. rewrite H0. split; [apply lookup_empty|].
  split; [by intros h; rewrite lookup_empty|]. intros y Hy Hwy Eky.
  apply Export_elem in Hy as [(k' & r' & Hl' & ->)|(sc & w & _ & ->)]; [|done].
  destruct (Hk k' r' Hl') as [Ek' _]. rewrite !export_record_key in Eky.
  rewrite <- Ek, <- Eky, Ek' in Hl. cbn. congruence.
Qed.

Lemma append_total l db d : db_open db = true → broken db = false →
  ∃ d', appendDurable io_ok l db d = (None, db, d').
Proof. intros Ho Hb. unfold appendDurable. rewrite Ho, Hb. cbn. eauto. Qed.

(** The merged memory, for a database that was empty. *)
Lemma import_export_maps now db new wms dbp db' :
  keyed db → collected now (Export range_r range_w db) fresh_db ∅ new wms dbp →
  import_check (Export range_r range_w db) ∅ fresh_db = Ok tt →
  records db' = foldl (fun m r => <[rec_key r := r]> m) ∅ new →
  watermarks db' = foldl (fun m w => <[w.1 := w.2]> m) ∅ (range_w wms) →
  (∀ sc h, Lookup sc h db' = Lookup sc h db) ∧ watermarks db' = watermarks db.
Proof.
  intros [Hk Hpos] Hco Hck Hrec Hwm.
  pose proof (import_events range_w Hw _ _ _ _ _ _ db' Hck Hco Hrec Hwm) as Hev.
  pose proof Hco as [A B C D F G M N]. split.
  - intros sc h. unfold Lookup. destruct (records db !! (sc, h)) as [r|] eqn:El; cbn.
    + assert (Hin : export_record r ∈ Export range_r range_w db)
        by (apply Export_elem; left; by exists (sc, h), r).
      rewrite Forall_fmap, Forall_forall in Hev. specialize (Hev _ Hin).
      destruct Hev as (r' & Er' & E). change (x_Scope _, x_Height _) with (x_key (export_record r)) in Er'.
      rewrite export_record_key, (proj1 (Hk _ _ El)) in Er'. rewrite Er'. cbn. by rewrite E.
    + destruct (records db' !! (sc, h)) as [r'|] eqn:El'; [|done]. exfalso.
      destruct (decide ((sc, h) ∈ rec_key <$> new)) as [Hin|Hni].
      * apply list_elem_of_fmap in Hin as (r & Ek & Hin).
        destruct (D r Hin) as (_ & x & Hx & Hwx & ->).
        apply Export_elem in Hx as [(k & r0 & Hl & ->)|(sc0 & w & _ & ->)]; [|done].
        change (rec_key _) with (x_key (export_record r0)) in Ek.
        rewrite export_record_key, (proj1 (Hk _ _ Hl)) in Ek. congruence.
      * rewrite Hrec, (foldl_insert_other rec_key id), lookup_empty in El'; [done|].
        intros r Hin Ek. apply Hni. rewrite <- Ek. by apply list_elem_of_fmap_2.
  - assert (Hwms : watermarks db' = wms).
    { rewrite Hwm. apply map_eq. intros sc. destruct (wms !! sc) as [h|] eqn:El.
      - apply (foldl_insert_in fst snd _ _ (sc, h)); [by apply range_nodup|by apply range_elem].
      - rewrite (foldl_insert_other fst snd); [done|]. intros [sc' h] Hin E. cbn in E. subst sc'.
        apply range_elem in Hin; [congruence|done]. }
    assert (Hto : ∀ sc h, wms !! sc = Some h → watermarks db !! sc = Some h).
    { intros sc h El. destruct (G sc h El) as [?|(_ & x & Hx & Hwx & <- & <-)]; [done|].
      apply Export_elem in Hx as [(k & r & _ & ->)|(sc & w & El' & ->)]; [done|].
      by destruct sc. }
    rewrite Hwms. apply map_eq. intros sc. destruct (watermarks db !! sc) as [w|] eqn:El.
    + assert (Hin : export_watermark (sc, w) ∈ Export range_r range_w db)
        by (apply Export_elem; right; by exists sc, w).
      specialize (N _ Hin eq_refl). specialize (Hpos sc w El). destruct sc as [c hb at'].
      change (w ≤ Z.max (watermark_of fresh_db (MkScope c hb at'))
                    (default 0 (wms !! MkScope c hb at'))) in N.
      destruct (wms !! MkScope c hb at') as [h|] eqn:Ew.
      * apply Hto in Ew. congruence.
      * unfold watermark_of in N. change (watermarks fresh_db) with (∅ : gmap Scope Z) in N.
        rewrite lookup_empty in N. cbn in N. lia.
    + destruct (wms !! sc) as [h|] eqn:Ew; [|done]. apply Hto in Ew. congruence.
Qed.
End Transfer.

(** C36: a key can be moved. Importing into an empty database what another one
    exports succeeds when no system call fails and the exporter's records are
    filed under their own key with a hash that is not zero, and its watermarks
    are positive, as the operations leave them; and the two then know the same hash (or none) for every
    scope and height and hold the same watermarks. *)
Theorem Export_Import_roundtrip range_r range_w now db d :
  listing range_r → listing range_w → keyed db →
  ∃ n db' d', Import range_w io_ok now (Export range_r range_w db) fresh_db d = (Ok n, db', d') ∧
    (∀ sc h, Lookup sc h db' = Lookup sc h db) ∧ watermarks db' = watermarks db.
Proof.
  intros Hr Hw Hk. pose proof (Export_check range_r range_w Hr Hw db fresh_db Hk eq_refl) as Hck.
  unfold Import. rewrite Hck.
  destruct (import_collect_spec now (Export range_r range_w db) [] [] ∅ fresh_db)
    as (new & wms & dbp & Ec & Hco).
  rewrite Ec. cbn [app]. set (buf := _ ++ concat _).
  pose proof (co_frame _ _ _ _ _ _ _ Hco) as (_ & _ & Hb & Ho).
  assert (Ha : ∃ d', (if bool_decide (buf = []) then (None, dbp, d) else appendDurable io_ok buf dbp d)
                     = (None, dbp, d')).
  { destruct (bool_decide _); [eauto|by apply append_total]. }
  destruct Ha as [d' ->]. rewrite (import_merge range_w _ _ _ _ _ _ Hco).
  do 3 eexists. split; [reflexivity|].
  by apply (import_export_maps range_r range_w Hr Hw now db new wms dbp).
Qed.

Lemma Export_Import_roundtrip_witness :
  let db := MkDB {[(Run.sc, 100) := MkRecord Run.sc 100 7 1]} {[Run.sc := 50]} 0 false true in
  ∃ n db' d', Import Run.range io_ok 5 (Export map_to_list Run.range db) fresh_db (MkDisk None None)
      = (Ok n, db', d') ∧ Lookup Run.sc 100 db' = Some 7 ∧ watermarks db' = {[Run.sc := 50]}.
Proof.
  intros db.
  destruct (Export_Import_roundtrip map_to_list Run.range 5 db (MkDisk None None)) as (n & db' & d' & E & H1 & H2).
  - intros m. reflexivity.
  - exact Run.listing_range.
  - split.
    + intros k r Hl. unfold db in Hl. cbn [records] in Hl. apply lookup_singleton_Some in Hl as [<- <-]. done.
    + intros sc w Hl. unfold db in Hl. cbn [watermarks] in Hl. apply lookup_singleton_Some in Hl as [_ <-]. reflexivity.
  - exists n, db', d'. split; [exact E|]. split; [exact (H1 Run.sc 100)|exact H2].
Defined.

(** *** The repair marker *)

Lemma split_after_shape cur s : ∃ front last,
  split_after_loop cur s = front ++ [last] ∧ Forall (fun l => l ≠ []) front ∧
  concat front ++ last = cur ++ s.
Proof.
  revert cur. induction s as [|c s IH]; intros cur; cbn [split_after_loop].
  { exists [], cur. rewrite app_nil_r. by repeat constructor. }
  destruct (b2z c =? 10).
  - destruct (IH []) as (f & l & -> & Hf & E). exists ((cur ++ [c]) :: f), l.
    split; [done|]. split; [constructor; [by destruct cur|done]|]. cbn.
    rewrite <- !app_assoc. cbn. by rewrite E.
  - destruct (IH (cur ++ [c])) as (f & l & -> & Hf & E). exists f, l. split; [done|].
    split; [done|]. by rewrite E, <- app_assoc.
Qed.

Lemma file_lines_shape data :
  Forall (fun l => l ≠ []) (file_lines data) ∧ concat (file_lines data) = data.
Proof.
  unfold file_lines, SplitAfter.
  destruct (split_after_shape [] data) as (f & l & -> & Hf & E). cbn in E. subst data.
  rewrite reverse_app. change (reverse [l]) with [l]. destruct l as [|c l]; cbn [app drop_empty].
  - assert (Hd : drop_empty (reverse f) = reverse f).
    { apply Forall_reverse in Hf. by destruct Hf as [|[|c x] r]. }
    rewrite Hd, reverse_involutive, app_nil_r. done.
  - rewrite reverse_cons, reverse_involutive. split.
    + apply Forall_app. split; [done|]. by repeat constructor.
    + rewrite concat_app. cbn. by rewrite app_nil_r.
Qed.

Lemma apply_fields_repaired fs db db' : apply_fields fs db = Applied db' → repaired db' = repaired db.
Proof.
  unfold apply_fields. intros E. destruct fs as [|k args]; [done|].
  assert (Hl : ∀ {A} (r : result A) f, lift_line r f = Applied db' → ∃ a, f a = Applied db').
  { intros A [a| |] f E'; [eauto|done..]. }
  destruct (bool_decide (k = str "A1")).
  - destruct args as [|? [|? [|? [|? [|? [|? [|]]]]]]]; try done.
    do 4 (apply Hl in E as [? E]). destruct (records db !! _) as [p|]; [destruct (_ =? _)|];
      [|done|]; by injection E as <-.
  - destruct (bool_decide (k = str "W1")); [|done].
    destruct args as [|? [|? [|? [|? [|? [|]]]]]]; try done.
    do 2 (apply Hl in E as [? E]). destruct (_ <? _); by injection E as <-.
Qed.

Lemma apply_repaired text db db' : apply_line text db = Applied db' → repaired db' = repaired db.
Proof.
  unfold apply_line. destruct (_ <? _)%nat; [done|]. destruct (ParseUint _ _ _) as [want| |]; [|done..].
  destruct (negb _); [done|]. apply apply_fields_repaired.
Qed.

(** A scan keeps the repair count, and what it calls torn is not empty. *)
Lemma scan_repaired lines good db :
  Forall (fun l => l ≠ []) lines →
  match scan_lines lines good db with
  | Complete db' => repaired db' = repaired db
  | Torn g db' => repaired db' = repaired db ∧ (g < good + length (concat lines))%nat
  | Corrupt _ => True
  end.
Proof.
  intros Hl. revert good db. induction Hl as [|raw rest Hne _ IH]; intros good db; [done|].
  cbn [scan_lines]. set (r := if negb _ then _ else _).
  assert (Hr : ∀ db1, r = Applied db1 → repaired db1 = repaired db).
  { intros db1 E. unfold r in E. destruct (negb _); [done|].
    destruct (bool_decide _); [congruence|]. by eapply apply_repaired. }
  destruct r as [db1|e|e]; [|destruct rest|done].
  - specialize (IH (good + length raw)%nat db1). specialize (Hr db1 eq_refl).
    cbn [concat]. rewrite length_app. destruct (scan_lines _ _ _); [congruence| |done].
    destruct IH. split; [congruence|lia].
  - split; [done|]. cbn. rewrite app_nil_r. destruct raw; [done|]. cbn. lia.
  - done.
Qed.

Lemma marker_repaired_pos m : 0 < marker_repaired m ↔ m ≠ None.
Proof.
  destruct m as [b|]; cbn; [|split; [lia|done]]. split; [done|intros _].
  destruct (ParseInt_trimmed b) as [n| |]; [|lia..]. destruct (Z.leb_spec n 0); lia.
Qed.

(** A repair is not forgotten. An open that cuts bytes off the file has
    written the repair marker first, even if it fails afterwards; opens never
    remove the marker; a database reports a repair exactly when the marker is
    there; and the marker goes away only through RepairHandled, which then
    resets the report. *)
Theorem repair_obligation_persists io d r d' :
  load io d = (r, d') →
  (marker d ≠ None → marker d' ≠ None) ∧
  (cached (the_file d') ≠ cached (the_file d) → marker d' ≠ None) ∧
  ∀ db, r = Ok db →
    (0 < repaired db ↔ marker d' ≠ None) ∧
    ∀ fails r1 db1 d1, RepairHandled fails db d' = (r1, db1, d1) →
      (0 < repaired db1 ↔ marker d1 ≠ None).
Proof.
  intros E.
  assert (Hmain : (marker d ≠ None → marker d' ≠ None) ∧
    (cached (the_file d') ≠ cached (the_file d) → marker d' ≠ None) ∧
    ∀ db, r = Ok db → 0 ≤ repaired db ∧ (0 < repaired db ↔ marker d' ≠ None)).
  { unfold load in E. destruct (lo_read_marker io); [by injection E as <- <-|].
    destruct (lo_open io); [by injection E as <- <-|].
    destruct (lo_read io); [by injection E as <- <-|]. rewrite the_file_set in E.
    destruct (file_lines_shape (cached (the_file d))) as [Hne Hcat].
    set (n := marker_repaired (marker d)) in E.
    assert (Hn : 0 ≤ n).
    { destruct (marker d) eqn:Em; [|done]. apply Z.lt_le_incl. by apply marker_repaired_pos. }
    pose proof (scan_repaired (file_lines (cached (the_file d))) 0 (MkDB ∅ ∅ n false true) Hne) as Hs.
    rewrite Hcat in Hs. destruct (scan_lines _ _ _) as [db1|g db1|e].
    - injection E as <- <-. cbn in Hs. split; [done|]. split; [done|].
      intros db Hdb. destruct (lo_seek io); [done|]. apply Ok_inj in Hdb as <-.
      rewrite Hs. split; [done|]. apply marker_repaired_pos.
    - destruct Hs as [Hs Hg]. cbn in Hs. rewrite Hs in E.
      set (n' := n + _) in E. assert (Hn' : 0 < n') by (unfold n'; lia).
      destruct (lo_marker io) eqn:Em; unfold writeRepairMarker in E; rewrite Em in E.
      + destruct (lo_truncate io); [by injection E as <- <-|].
        destruct (lo_sync io); injection E as <- <-; cbn; (split; [done|]); (split; [done|]); [done|].
        intros db Hdb. destruct (lo_seek io); [done|]. apply Ok_inj in Hdb as <-. cbn. split; [lia|done].
      + by injection E as <- <-.
      + by injection E as <- <-.
    - by injection E as <- <-. }
  destruct Hmain as (H1 & H2 & H3). split; [done|]. split; [done|].
  intros db Hdb. destruct (H3 db Hdb) as [Hge Hiff]. split; [done|].
  intros fails r1 db1 d1 Er. unfold RepairHandled in Er.
  destruct (Z.eqb_spec (repaired db) 0); [by injection Er as <- <- <-|].
  destruct (negb _); [by injection Er as <- <- <-|].
  destruct fails; injection Er as <- <- <-; [done|]. cbn. split; [lia|done].
Qed.

Lemma repair_obligation_persists_witness :
  let d := MkDisk (Some (MkFile (str "A1 31337 0xab") (str "A1 31337 0xab") [])) None in
  marker (snd (load load_ok d)) ≠ None ∧ cached (the_file (snd (load load_ok d))) = [].
Proof.
  intros d. split; [|reflexivity].
  apply (proj1 (proj2 (repair_obligation_persists load_ok d (fst (load load_ok d))
    (snd (load load_ok d)) (surjective_pairing _)))).
  vm_compute. discriminate.
Defined.
