(* ===== verification/Attest.v ===== *)
(** * Attestations and their schedule (validator/internal/attest)

    Which checkpoint a validator signs at a head (schedule.go) and what exactly
    it signs (attest.go). The key operations (crypto.Sign) are not modelled; the
    recovery of a signer uses the same [Crypto] interface as the chain. *)

From S2P Require Import Prelude Bytes Types Text.

(** ** Schedule (schedule.go) *)

Definition CheckpointInterval : Z := 200.
Definition MinDelay : Z := 64.
Definition MaxDelay : Z := 250.
Definition DefaultSubmitMargin : Z := 10.

Record Schedule := MkSchedule {
  s_Interval : Z; s_MinDelay : Z; s_MaxDelay : Z; s_SubmitMargin : Z
}.

Definition DefaultSchedule : Schedule :=
  MkSchedule CheckpointInterval MinDelay MaxDelay DefaultSubmitMargin.

(** [Validate]. *)
Definition Validate (s : Schedule) : result unit :=
  if s_Interval s =? 0 then Err (New "schedule: interval must be > 0")
  else if s_MinDelay s <? MinDelay then
    Err (Errorf "schedule: min delay %d is below the node's reorg cap %d" [s_MinDelay s; MinDelay])
  else if 255 <? s_MaxDelay s then
    Err (Errorf "schedule: max delay %d leaves the 256-block blockhash window" [s_MaxDelay s])
  else if s_MaxDelay s <=? s_MinDelay s then
    Err (Errorf "schedule: min delay %d must be below max delay %d" [s_MinDelay s; s_MaxDelay s])
  else if s_MaxDelay s <? add64 (add64 (s_MinDelay s) 1) (s_SubmitMargin s) then
    Err (Errorf "schedule: submit margin %d leaves no time to submit" [s_SubmitMargin s])
  else Ok tt.

(** [IsCheckpoint]: [h > 0 && h%s.Interval == 0]. *)
Definition IsCheckpoint (s : Schedule) (h : Z) : result bool :=
  if 0 <? h then m ← mod64 h (s_Interval s); Ok (m =? 0) else Ok false.

(** [Due]: the checkpoint to sign at [head], if any. *)
Definition Due (s : Schedule) (head : Z) : result (option Z) :=
  if head <? s_MinDelay s then Ok None
  else
    q ← div64 (sub64 head (s_MinDelay s)) (s_Interval s);
    let h := mul64 q (s_Interval s) in
    cp ← IsCheckpoint s h;
    if negb cp then Ok None
    else if add64 h (s_MaxDelay s) <? add64 (add64 head 1) (s_SubmitMargin s) then Ok None
    else Ok (Some h).

(** [Next]: the loop, with fuel. *)
Fixpoint next_loop (fuel : nat) (s : Schedule) (head h : Z) : result (Z * Z) :=
  match fuel with
  | O => Panic "out of fuel"
  | S fuel =>
      cp ← IsCheckpoint s h;
      if cp && (head <? add64 h (s_MinDelay s)) then Ok (h, add64 h (s_MinDelay s))
      else next_loop fuel s head (add64 h (s_Interval s))
  end.
Definition Next (fuel : nat) (s : Schedule) (head : Z) : result (Z * Z) :=
  q ← div64 head (s_Interval s);
  next_loop fuel s head (mul64 q (s_Interval s)).

(** [Includable], [Closed]. *)
Definition Includable (s : Schedule) (h block : Z) : bool :=
  (add64 h (s_MinDelay s) <=? block) && (block <=? add64 h (s_MaxDelay s)).
Definition Closed (s : Schedule) (h head : Z) : bool :=
  add64 h (s_MaxDelay s) <? add64 head 1.

(** ** The signed message (attest.go) *)

Record Domain := MkDomain { d_ChainID : Z; d_Hub : Address }.

Definition word (x : Z) : bytes := LeftPadBytes (big_Bytes x) 32.

Definition DomainType : bytes :=
  str "EIP712Domain(string name,string version,uint256 chainId,address verifyingContract)".
Definition AttestationType : bytes := str "Attestation(uint64 height,bytes32 blockHash)".
Definition AttesterKeyType : bytes := str "AttesterKey(address owner,address attester)".
Definition DomainName : bytes := str "Ferminux Validator Hub".
Definition DomainVersion : bytes := str "1".
Definition EnodeTag : bytes := str "FMX_VALIDATOR_NODE_V1".
Definition secp256k1N : Z :=
  0xFFFFFFFFFFFFFFFFFFFFFFFFFFFFFFFEBAAEDCE6AF48A03BBFD25E8CD0364141.
Definition secp256k1HalfN : Z := Z.shiftr secp256k1N 1.

Section Digests.
Context `{Crypto}.

(** [Keccak256Hash(..).Bytes()]. *)
Definition keccak_bytes (b : bytes) : bytes := hash_bytes (keccak256 b).

(** The buffers that are hashed, and the hashes. *)
Definition separator_buf (d : Domain) : bytes :=
  keccak_bytes DomainType ++ keccak_bytes DomainName ++ keccak_bytes DomainVersion
  ++ word (d_ChainID d) ++ LeftPadBytes (address_bytes (d_Hub d)) 32.
Definition Separator (d : Domain) : Hash := keccak256 (separator_buf d).

Definition struct_buf (height : Z) (blockHash : Hash) : bytes :=
  keccak_bytes AttestationType ++ word height ++ hash_bytes blockHash.
Definition StructHash (height : Z) (blockHash : Hash) : Hash :=
  keccak256 (struct_buf height blockHash).

Definition typed_buf (d : Domain) (structHash : Hash) : bytes :=
  [Byte.x19; Byte.x01] ++ hash_bytes (Separator d) ++ hash_bytes structHash.
Definition typed (d : Domain) (structHash : Hash) : Hash := keccak256 (typed_buf d structHash).

(** [Digest]. *)
Definition Digest (d : Domain) (height : Z) (blockHash : Hash) : Hash :=
  typed d (StructHash height blockHash).

(** [AttesterKeyDigest]. *)
Definition AttesterKeyDigest (d : Domain) (owner attester : Address) : Hash :=
  typed d (keccak256 (keccak_bytes AttesterKeyType ++ LeftPadBytes (address_bytes owner) 32
                      ++ LeftPadBytes (address_bytes attester) 32)).

(** [EnodeDigest]. *)
Definition EnodeDigest (d : Domain) (owner attester : Address) : Hash :=
  keccak256 (EnodeTag ++ word (d_ChainID d) ++ address_bytes (d_Hub d)
             ++ address_bytes owner ++ address_bytes attester).

(** [RecoverDigest]. *)
Definition RecoverDigest (digest : Hash) (sig : bytes) : result Address :=
  if negb (length sig =? 65)%nat then
    Err (Errorf "attest: signature must be %d bytes, got %d" [65; Z.of_nat (length sig)])
  else
    let v0 := b2z (nth 64 sig Byte.x00) in
    let v := if v0 <? 27 then v0 + 27 else v0 in
    if negb (v =? 27) && negb (v =? 28) then Err (Errorf "attest: bad v %d" [v0])
    else
      let r := of_be (take 32 sig) in
      let s := of_be (take 32 (drop 32 sig)) in
      if (r =? 0) || (s =? 0) || (secp256k1N <=? r) then Err (New "attest: r or s out of range")
      else if secp256k1HalfN <? s then Err (New "attest: high s (malleable signature)")
      else SigToAddress (hash_bytes digest) (take 64 sig ++ [z2b (v - 27)]).

(** [Recover]. *)
Definition Recover (d : Domain) (height : Z) (blockHash : Hash) (sig : bytes) : result Address :=
  RecoverDigest (Digest d height blockHash) sig.
End Digests.

(** ** The schedule signs only final, includable checkpoints *)

(** A schedule within Go's types whose margin does not wrap around. *)
Record schedule_ok (s : Schedule) : Prop := {
  so_valid : Validate s = Ok tt;
  so_interval : is_u64 (s_Interval s);
  so_min : is_u64 (s_MinDelay s);
  so_max : is_u64 (s_MaxDelay s);
  so_margin : is_u64 (s_SubmitMargin s) ∧ is_u64 (s_MinDelay s + 1 + s_SubmitMargin s)
}.

Lemma Validate_bounds s : schedule_ok s →
  0 < s_Interval s ∧ 64 ≤ s_MinDelay s ∧ s_MinDelay s + 1 + s_SubmitMargin s ≤ s_MaxDelay s ∧
  s_MaxDelay s ≤ 255 ∧ 0 ≤ s_SubmitMargin s.
Proof.
  intros [Hv Hi Hm Hx [Hg Hs]]. unfold Validate, MinDelay in Hv. unfold is_u64 in *.
  destruct (Z.eqb_spec (s_Interval s) 0); [done|].
  destruct (Z.ltb_spec (s_MinDelay s) 64); [done|].
  destruct (Z.ltb_spec 255 (s_MaxDelay s)); [done|].
  destruct (Z.leb_spec (s_MaxDelay s) (s_MinDelay s)); [done|].
  rewrite !add64_small in Hv by (unfold is_u64; rewrite ?add64_small by (unfold is_u64; lia); lia).
  destruct (Z.ltb_spec (s_MaxDelay s) (s_MinDelay s + 1 + s_SubmitMargin s)); [done|]. lia.
Qed.

Lemma IsCheckpoint_eq s h : 0 < s_Interval s →
  IsCheckpoint s h = Ok ((0 <? h) && (h mod s_Interval s =? 0)).
Proof.
  intros Hi. unfold IsCheckpoint, mod64. destruct (0 <? h); [|done].
  by destruct (Z.eqb_spec (s_Interval s) 0); [lia|].
Qed.

(** A checkpoint that can be signed at a head: final under the reorg cap, and
    included in time with the margin to spare. *)
Definition signable (s : Schedule) (head h : Z) : Prop :=
  0 < h ∧ h mod s_Interval s = 0 ∧ h + s_MinDelay s ≤ head ∧
  head + 1 + s_SubmitMargin s ≤ h + s_MaxDelay s.

Lemma Due_eq s head : schedule_ok s → 0 ≤ head → head + 1 + 255 < two64 →
  let h := (head - s_MinDelay s) / s_Interval s * s_Interval s in
  Due s head = Ok (if (s_MinDelay s <=? head) && (0 <? h)
                      && (head + 1 + s_SubmitMargin s <=? h + s_MaxDelay s)
                   then Some h else None).
Proof.
  intros Hok H0 Hlt h. destruct (Validate_bounds s Hok) as (Hi & Hm & Hs & Hx & Hg).
  unfold Due. destruct (Z.ltb_spec head (s_MinDelay s)) as [?|Hge].
  { destruct (Z.leb_spec (s_MinDelay s) head); [lia|done]. }
  destruct (Z.leb_spec (s_MinDelay s) head); [|lia]. cbn [andb].
  assert (Hh : 0 ≤ h ≤ head - s_MinDelay s).
  { unfold h. split; [apply Z.mul_nonneg_nonneg; [apply Z.div_pos|]; lia|].
    rewrite Z.mul_comm. apply Z.mul_div_le. lia. }
  unfold div64. destruct (Z.eqb_spec (s_Interval s) 0); [lia|]. cbn [mbind result_bind].
  rewrite sub64_small by (unfold is_u64; lia).
  rewrite mul64_small by (unfold is_u64; fold h; lia). fold h.
  rewrite IsCheckpoint_eq by lia. cbn [mbind result_bind].
  replace (h mod s_Interval s) with 0 by (unfold h; by rewrite Z.mod_mul by lia).
  rewrite Z.eqb_refl, andb_true_r. destruct (0 <? h); [|done]. cbn [negb andb].
  rewrite !add64_small by (unfold is_u64; rewrite ?add64_small by (unfold is_u64; lia); lia).
  destruct (Z.ltb_spec (h + s_MaxDelay s) (head + 1 + s_SubmitMargin s)),
    (Z.leb_spec (head + 1 + s_SubmitMargin s) (h + s_MaxDelay s)); done || lia.
Qed.

(** A valid schedule never panics. *)
Lemma Due_total s head : schedule_ok s → ∃ due, Due s head = Ok due.
Proof.
  intros Hok. destruct (Validate_bounds s Hok) as (Hi & _). unfold Due.
  destruct (head <? _); [eauto|]. unfold div64. destruct (Z.eqb_spec (s_Interval s) 0); [lia|].
  cbn [mbind result_bind]. rewrite IsCheckpoint_eq by lia. cbn [mbind result_bind].
  destruct (negb _); [eauto|]. destruct (_ <? _); eauto.
Qed.

(** Whatever the schedule names may be signed. *)
Lemma Due_signable s head h :
  schedule_ok s → 0 ≤ head → head + 1 + 255 < two64 → Due s head = Ok (Some h) → signable s head h.
Proof.
  intros Hok H0 Hlt. destruct (Validate_bounds s Hok) as (Hi & Hm & Hs & Hx & Hg).
  rewrite (Due_eq s head Hok H0 Hlt). set (h0 := (head - s_MinDelay s) / s_Interval s * s_Interval s).
  intros E. apply Ok_inj in E. destruct (_ && _ && _) eqn:Eb; [|done]. injection E as <-.
  apply andb_true_iff in Eb as [Eb E3]. apply andb_true_iff in Eb as [E1 E2].
  apply Z.leb_le in E1, E3. apply Z.ltb_lt in E2.
  assert (Hle : h0 ≤ head - s_MinDelay s).
  { unfold h0. rewrite Z.mul_comm. apply Z.mul_div_le. lia. }
  split; [done|]. split; [unfold h0; by apply Z.mod_mul; lia|]. lia.
Qed.

(** The schedule is safe and misses nothing. Under a valid schedule, Due
    names a checkpoint only if it is at least 64 blocks deep (so the node's
    reorg cap has made it final), and a transaction sent now is inside the
    hub's window for every block up to the submit margin; if the checkpoint
    interval is longer than the window, every checkpoint that can be signed at
    a head is the one Due names, and there is at most one. *)
Theorem Due_is_final_and_includable s head :
  schedule_ok s → 0 ≤ head → head + 1 + 255 < two64 →
  (∀ h, Due s head = Ok (Some h) →
     signable s head h ∧ h ≤ head - 64 ∧ Closed s h head = false ∧
     ∀ b, head < b ≤ head + 1 + s_SubmitMargin s → Includable s h b = true) ∧
  (s_MaxDelay s - s_SubmitMargin s ≤ s_Interval s + s_MinDelay s →
     ∀ h, signable s head h ↔ Due s head = Ok (Some h)).
Proof.
  intros Hok H0 Hlt. destruct (Validate_bounds s Hok) as (Hi & Hm & Hs & Hx & Hg). split.
  - intros h E. pose proof (Due_signable s head h Hok H0 Hlt E) as Hsg. split; [done|].
    destruct Hsg as (Hp & _ & Hd & Hw). split; [lia|].
    unfold Closed, Includable. rewrite !add64_small by (unfold is_u64; lia). split; [lia|].
    intros b Hb. lia.
  - intros Hwin h. split; [|by apply Due_signable].
    intros (Hp & Hmod & Hd & Hw). rewrite (Due_eq s head Hok H0 Hlt). f_equal.
    set (h0 := (head - s_MinDelay s) / s_Interval s * s_Interval s).
    assert (Hh : h = h0).
    { unfold h0. apply Z.div_exact in Hmod; [|lia].
      replace ((head - s_MinDelay s) / s_Interval s) with (h / s_Interval s); [lia|].
      revert Hmod. generalize (h / s_Interval s). intros q Hq.
      apply (Z.div_unique _ _ _ (head - s_MinDelay s - h)); [left|]; lia. }
    subst h. destruct (Z.leb_spec (s_MinDelay s) head); [|lia].
    destruct (Z.ltb_spec 0 h0); [|lia].
    destruct (Z.leb_spec (head + 1 + s_SubmitMargin s) (h0 + s_MaxDelay s)); [done|lia].
Qed.

Lemma DefaultSchedule_ok : schedule_ok DefaultSchedule.
Proof.
  split; [reflexivity|..]; unfold is_u64, two64, DefaultSchedule, CheckpointInterval, MinDelay,
    MaxDelay, DefaultSubmitMargin; cbn [s_Interval s_MinDelay s_MaxDelay s_SubmitMargin]; lia.
Qed.

Lemma Due_is_final_and_includable_witness :
  signable DefaultSchedule 1070 1000 ∧ Due DefaultSchedule 1070 = Ok (Some 1000).
Proof.
  destruct (Due_is_final_and_includable DefaultSchedule 1070) as [_ H];
    [exact DefaultSchedule_ok|lia|unfold two64; lia|].
  assert (E : Due DefaultSchedule 1070 = Ok (Some 1000)) by reflexivity.
  split; [apply H; [discriminate|exact E]|exact E].
Defined.

(** [Validate] adds the margin in uint64: a margin near 2^64 passes, and [Due]
    then names a checkpoint whose window has closed. *)
Lemma Validate_margin_wraps :
  let s := MkSchedule 200 64 250 (two64 - 65) in
  Validate s = Ok tt ∧ Due s 1262 = Ok (Some 1000) ∧ Closed s 1000 1262 = true.
Proof. vm_compute. done. Qed.

Lemma mul_le_of_lt i q j : 0 < i → q * i < i * j + i → q * i ≤ i * j.
Proof.
  intros Hi Hlt. assert (q < j + 1) by (apply (Z.mul_lt_mono_pos_l i); lia). nia.
Qed.

(** [Next] returns after at most two rounds, with a checkpoint that opens after
    [head]; it is the first one if the interval is not shorter than the delay. *)
Lemma Next_spec s head :
  schedule_ok s → 0 ≤ head → head + 255 + s_Interval s < two64 →
  ∃ c, Next 2 s head = Ok (c, c + s_MinDelay s) ∧ 0 < c ∧ c mod s_Interval s = 0 ∧
    head < c + s_MinDelay s ∧
    (s_MinDelay s ≤ s_Interval s →
     ∀ k, 0 < k → k mod s_Interval s = 0 → head < k + s_MinDelay s → c ≤ k).
Proof.
  intros Hok H0 Hlt. destruct (Validate_bounds s Hok) as (Hi & Hm & Hs & Hx & Hg).
  pose proof (Z.mul_div_le head (s_Interval s) ltac:(lia)) as Hd.
  pose proof (Z.mul_succ_div_gt head (s_Interval s) ltac:(lia)) as Hd'.
  assert (Hq : 0 ≤ head / s_Interval s) by (apply Z.div_pos; lia).
  unfold Next, div64. destruct (Z.eqb_spec (s_Interval s) 0); [lia|]. cbn [mbind result_bind].
  revert Hd Hd' Hq. generalize (head / s_Interval s). intros q Hd Hd' Hq.
  assert (Hh : 0 ≤ q * s_Interval s) by nia.
  rewrite mul64_small by (unfold is_u64; lia). cbn [next_loop].
  rewrite !IsCheckpoint_eq by lia. cbn [mbind result_bind].
  rewrite !add64_small by (unfold is_u64; rewrite ?add64_small by (unfold is_u64; lia); lia).
  rewrite (Z.mod_mul q) by lia. rewrite Z.eqb_refl, andb_true_r.
  replace (q * s_Interval s + s_Interval s) with ((q + 1) * s_Interval s) by lia.
  rewrite (Z.mod_mul (q + 1)) by lia. rewrite Z.eqb_refl, andb_true_r.
  destruct (Z.ltb_spec 0 (q * s_Interval s)) as [Hp|Hz]; cbn [andb].
  - destruct (Z.ltb_spec head (q * s_Interval s + s_MinDelay s)) as [Ho|Ho].
    + exists (q * s_Interval s). split; [done|]. split; [done|]. split; [by apply Z.mod_mul; lia|].
      split; [done|]. intros Hmi k Hk Hkm Hko. apply Z.div_exact in Hkm; [|lia].
      revert Hkm. generalize (k / s_Interval s). intros j ->. apply mul_le_of_lt; lia.
    + exists ((q + 1) * s_Interval s).
      destruct (Z.ltb_spec 0 ((q + 1) * s_Interval s)); [|lia].
      destruct (Z.ltb_spec head ((q + 1) * s_Interval s + s_MinDelay s)); [|lia].
      split; [done|]. split; [lia|]. split; [by apply Z.mod_mul; lia|]. split; [lia|].
      intros Hmi k Hk Hkm Hko. apply Z.div_exact in Hkm; [|lia].
      revert Hkm. generalize (k / s_Interval s). intros j ->. apply mul_le_of_lt; lia.
  - exists ((q + 1) * s_Interval s).
    destruct (Z.ltb_spec 0 ((q + 1) * s_Interval s)); [|lia].
    destruct (Z.ltb_spec head ((q + 1) * s_Interval s + s_MinDelay s)); [|lia].
    split; [done|]. split; [lia|]. split; [by apply Z.mod_mul; lia|]. split; [lia|].
    intros Hmi k Hk Hkm Hko. apply Z.div_exact in Hkm; [|lia].
    revert Hkm. generalize (k / s_Interval s). intros j ->. apply mul_le_of_lt; lia.
Qed.

(** ** The digest binds the domain, the height and the hash *)

(** The byte strings hashed on the way to a digest. *)
Definition digest_inputs `{Crypto} (d : Domain) (h : Z) (b : Hash) : list bytes :=
  [separator_buf d; struct_buf h b; typed_buf d (StructHash h b)].

(** Keccak-256 gives 32 bytes and does not collide on the given strings. *)
Definition no_collision `{Crypto} (inputs : list bytes) : Prop :=
  (∀ x, x ∈ inputs → is_hash (keccak256 x)) ∧
  (∀ x y, x ∈ inputs → y ∈ inputs → keccak256 x = keccak256 y → x = y).

Lemma word_inj x y : is_u64 x → is_u64 y → word x = word y → x = y.
Proof.
  intros Hx Hy. unfold word, is_u64, two64 in *.
  assert (Hw : ∀ z, 0 ≤ z < 2 ^ 64 → 0 ≤ z < 256 ^ Z.of_nat 32) by (intros z ?; lia).
  rewrite !LeftPad_big_Bytes by auto. intros E. apply to_be_inj in E; auto.
Qed.

Lemma length_word x : is_u64 x → length (word x) = 32%nat.
Proof.
  intros Hx. unfold word, is_u64, two64 in *. rewrite LeftPad_big_Bytes by lia.
  apply length_to_be.
Qed.

(** An attestation is for one block on one hub of one chain. If two digests
    are equal, so are the chain id, the hub address, the height and the block
    hash, unless Keccak-256 collides on the six strings that are hashed. *)
Theorem Digest_binds `{Crypto} d h b d' h' b' :
  is_u64 (d_ChainID d) → is_u64 (d_ChainID d') → is_address (d_Hub d) → is_address (d_Hub d') →
  is_u64 h → is_u64 h' → is_hash b → is_hash b' →
  no_collision (digest_inputs d h b ++ digest_inputs d' h' b') →
  Digest d h b = Digest d' h' b' → d = d' ∧ h = h' ∧ b = b'.
Proof.
  intros Hc Hc' Hu Hu' Hh Hh' Hb Hb' [Hr Hi] E.
  set (l := digest_inputs d h b ++ digest_inputs d' h' b') in Hr, Hi.
  assert (I1 : separator_buf d ∈ l) by left.
  assert (I2 : struct_buf h b ∈ l) by (right; left).
  assert (I3 : typed_buf d (StructHash h b) ∈ l) by (do 2 right; left).
  assert (I4 : separator_buf d' ∈ l) by (do 3 right; left).
  assert (I5 : struct_buf h' b' ∈ l) by (do 4 right; left).
  assert (I6 : typed_buf d' (StructHash h' b') ∈ l) by (do 5 right; left).
  unfold Digest, typed in E. apply (Hi _ _ I3 I6) in E.
  unfold typed_buf in E. apply app_inv_head in E.
  apply app_inj_1 in E as [Es Et]; [|unfold hash_bytes; by rewrite !length_to_be].
  apply (to_be_inj HashLength _ _ (Hr _ I1) (Hr _ I4)), (Hi _ _ I1 I4) in Es.
  apply (to_be_inj HashLength _ _ (Hr _ I2) (Hr _ I5)), (Hi _ _ I2 I5) in Et.
  unfold separator_buf in Es. do 3 apply app_inv_head in Es.
  apply app_inj_1 in Es as [Ec Eh]; [|by rewrite !length_word].
  unfold struct_buf in Et. apply app_inv_head in Et.
  apply app_inj_1 in Et as [Eh' Eb]; [|by rewrite !length_word].
  apply word_inj in Ec, Eh'; [|done..].
  apply to_be_inj in Eb; [|done..].
  unfold LeftPadBytes, address_bytes in Eh. rewrite !length_to_be in Eh. cbn [Nat.leb] in Eh.
  apply app_inv_head in Eh. apply to_be_inj in Eh; [|done..].
  destruct d, d'. cbn in *. by subst.
Qed.

(** A rolling hash without collisions on the six strings below. *)
Definition roll_crypto : Crypto :=
  {| keccak256 := foldl (fun h c => (h * 257 + b2z c) mod (2 ^ 61 - 1)) 1;
     RecoverPubkey _ sig := Some sig |}.

Definition no_collisionb `{Crypto} (inputs : list bytes) : bool :=
  forallb (fun x => (0 <=? keccak256 x) && (keccak256 x <? 256 ^ 32)
    && forallb (fun y => negb (keccak256 x =? keccak256 y) || bool_decide (x = y)) inputs) inputs.

Lemma no_collisionb_spec `{Crypto} inputs : no_collisionb inputs = true → no_collision inputs.
Proof.
  unfold no_collisionb. rewrite forallb_forall. intros Hall.
  assert (Hx : ∀ x, x ∈ inputs → is_hash (keccak256 x) ∧
    ∀ y, y ∈ inputs → keccak256 x = keccak256 y → x = y).
  { intros x Hx. apply list_elem_of_In in Hx. apply Hall in Hx.
    apply andb_true_iff in Hx as [Hb Hy]. split; [unfold is_hash; lia|].
    intros y Hiny E. rewrite forallb_forall in Hy. apply list_elem_of_In in Hiny.
    apply Hy, orb_true_iff in Hiny as [Hn|Hd].
    - apply negb_true_iff, Z.eqb_neq in Hn. done.
    - by apply bool_decide_eq_true in Hd. }
  split; [intros x Hin; apply (Hx x Hin)|intros x y Hin; apply (Hx x Hin)].
Qed.

Definition demo_domain : Domain := MkDomain 31337 0xabc.

Lemma demo_no_collision :
  no_collision (H := roll_crypto)
    (digest_inputs (H := roll_crypto) demo_domain 200 7
     ++ digest_inputs (H := roll_crypto) demo_domain 400 7).
Proof. apply no_collisionb_spec. vm_compute. reflexivity. Qed.

Lemma Digest_binds_witness :
  Digest (H := roll_crypto) demo_domain 200 7 ≠ Digest (H := roll_crypto) demo_domain 400 7.
Proof.
  intros E.
  assert (Hu : ∀ x, 0 ≤ x < 100000 → is_u64 x) by (unfold is_u64, two64; lia).
  assert (Ha : is_address (d_Hub demo_domain)) by (unfold is_address; cbn; lia).
  assert (Hb : is_hash 7) by (unfold is_hash; lia).
  assert (Hc : is_u64 (d_ChainID demo_domain)) by (apply Hu; cbn; lia).
  destruct (Digest_binds (H := roll_crypto) demo_domain 200 7 demo_domain 400 7 Hc Hc Ha Ha
    (Hu 200 ltac:(lia)) (Hu 400 ltac:(lia)) Hb Hb demo_no_collision E) as (_ & Hh & _).
  discriminate Hh.
Defined.
