(* ===== verification/Node.v ===== *)
(** * The node the validator signs for (validator/internal/node)

    [Check], the readiness checks before every signature, and the inspection of a
    node's command line for the flag that lifts the reorg cap (reorgcap.go). The
    RPC client and the probe are parameters: [ChainView] holds their answers at
    one moment. *)

From S2P Require Import Prelude Bytes Types Text.

(** ** Readiness (node.go) *)

(** What the node answers when it is asked. [v_SyncProgress] is the answer of
    the RPC client: syncing, and the highest block it knows of; [v_DeepReorg] is
    what the policy's probe, called on every check, answers. *)
Record ChainView := MkChainView {
  v_ChainID : result Z;
  v_SyncProgress : result (bool * Z);
  v_Head : result (Z * Hash * Z); (** number, hash, time *)
  v_PeerCount : result Z;
  v_DeepReorg : result bool
}.

(** Times are nanoseconds since 1970, durations nanoseconds; [Sub] saturates. *)
Definition Second : Z := 1000000000.
Definition unixToInternal : Z := 62135596800.
Definition time_Unix (sec : Z) : Z := (i64 (sec + unixToInternal) - unixToInternal) * Second.
Definition Sub (t u : Z) : Z := Z.max (-2 ^ 63) (Z.min (2 ^ 63 - 1) (t - u)).

(** [Policy]; [DeepReorg] is a function, set or nil. *)
Record Policy := MkPolicy {
  p_ChainID : Z; p_MinPeers : Z; p_MaxHeadAge : Z; p_DeepReorg : bool
}.

Record Readiness := MkReadiness {
  r_Ready : bool; r_Reasons : list error; r_Head : Z; r_HeadHash : Hash
}.

(** The reasons each check adds. *)
Definition sync_reasons (v : ChainView) : list error :=
  match v_SyncProgress v with
  | Ok (syncing, _) => if syncing then [New "node is still syncing"] else []
  | _ => [New "sync status: %v"]
  end.
Definition head_reasons (v : ChainView) (p : Policy) (now : Z) : list error :=
  match v_Head v with
  | Ok (_, _, time) =>
      if p_MaxHeadAge p <? Sub now (time_Unix (i64 time)) then [New "latest block is %s old (limit %s)"] else []
  | _ => [New "head: %v"]
  end.
Definition peer_reasons (v : ChainView) (p : Policy) : list error :=
  match v_PeerCount v with
  | Ok n => if n <? p_MinPeers p then [Errorf "%d peers (need %d)" [n; p_MinPeers p]] else []
  | _ => if 0 <? p_MinPeers p then [New "peer count: %v"] else []
  end.
Definition reorg_reasons (v : ChainView) (p : Policy) : list error :=
  if negb (p_DeepReorg p) then [New "cannot tell whether the node's 64-block reorg cap is in force"]
  else match v_DeepReorg v with
       | Ok true => [New "node runs with --ferminux.allowdeepreorg; attestations need the 64-block reorg cap"]
       | Ok false => []
       | _ => [New "reorg cap check: %v"]
       end.

(** [Check]. *)
Definition Check_ready (v : ChainView) (p : Policy) (now : Z) : Readiness :=
  match v_ChainID v with
  | Ok id =>
      let reasons :=
        (if negb (id =? p_ChainID p)
         then [Errorf "node is on chain %d, this validator is for chain %d" [id; p_ChainID p]]
         else [])
        ++ sync_reasons v ++ head_reasons v p now ++ peer_reasons v p ++ reorg_reasons v p in
      let '(n, hash) := match v_Head v with Ok (n, hash, _) => (n, hash) | _ => (0, 0) end in
      MkReadiness (bool_decide (reasons = [])) reasons n hash
  | _ => MkReadiness false [New "node unreachable: %v"] 0 0
  end.

(** ** The reorg cap on a command line (reorgcap.go) *)

Definition DeepReorgFlag : bytes := str "--ferminux.allowdeepreorg".
Definition ConfigFileFlag : bytes := str "--config".

Definition has_prefix (s p : bytes) : bool := bool_decide (take (length p) s = p).
Definition has_suffix (s p : bytes) : bool :=
  (length p <=? length s)%nat && bool_decide (drop (length s - length p) s = p).

(** [strings.TrimSpace] on ASCII text. *)
Definition is_space (c : byte) : bool :=
  (b2z c =? 32) || ((9 <=? b2z c) && (b2z c <=? 13)).
Definition trim_space (s : bytes) : bytes :=
  reverse (trim_left is_space (reverse (trim_left is_space s))).

(** [normFlag]. *)
Definition normFlag (a : bytes) : bytes :=
  let a := to_lower (trim_space a) in
  if has_prefix a (str "-") && negb (has_prefix a (str "--")) then str "-" ++ a else a.

(** [HasDeepReorgFlag], [HasConfigFile], [argsReorgCap]. *)
Definition HasDeepReorgFlag (args : list bytes) : bool :=
  existsb (fun a => let a := normFlag a in
    bool_decide (a = DeepReorgFlag)
    || (has_prefix a (DeepReorgFlag ++ str "=") && negb (has_suffix a (str "=false")))) args.
Definition HasConfigFile (args : list bytes) : bool :=
  existsb (fun a => let a := normFlag a in
    bool_decide (a = ConfigFileFlag) || has_prefix a (ConfigFileFlag ++ str "=")) args.
Definition argsReorgCap (args : list bytes) : bool * bool :=
  if HasDeepReorgFlag args then (true, false) else (false, HasConfigFile args).

(** [ProcScan] over the command lines of the node processes that are visible. *)
Definition ProcScan (nodes : list (list bytes)) : bool * bool * bool :=
  let '(found, allowed, unknown) :=
    foldl (fun '(_, allowed, unknown) args =>
             let '(a, u) := argsReorgCap args in (true, allowed || a, unknown || u))
      (false, false, false) nodes in
  (found, allowed, unknown && negb allowed).

(** [ReorgCapProbe]: the supervised command line, or the processes found (None
    when /proc cannot be read or there is none), or the operator's word. *)
Definition ReorgCapProbe (supervised : option (list bytes)) (proc : option (list (list bytes)))
  (operatorConfirmed : bool) : result bool :=
  match supervised with
  | Some args =>
      let '(allowed, unknown) := argsReorgCap args in
      if unknown then Err (New "the supervised node loads a --config file, which can lift the reorg cap; remove it from node.extraArgs")
      else Ok allowed
  | None =>
      let other := if operatorConfirmed then Ok false
                   else Err (New "the node's settings cannot be inspected") in
      match proc with
      | Some nodes =>
          let '(found, allowed, unknown) := ProcScan nodes in
          if found && negb unknown then Ok allowed else other
      | None => other
      end
  end.

(** ** Facts *)

(** Ready means that every check passed. *)
Lemma Check_ready_iff v p now :
  r_Ready (Check_ready v p now) = true ↔
  v_ChainID v = Ok (p_ChainID p) ∧
  (∃ t, v_SyncProgress v = Ok (false, t)) ∧
  (∃ n hash time, v_Head v = Ok (n, hash, time) ∧ Sub now (time_Unix (i64 time)) ≤ p_MaxHeadAge p ∧
     r_Head (Check_ready v p now) = n ∧ r_HeadHash (Check_ready v p now) = hash) ∧
  (match v_PeerCount v with Ok n => p_MinPeers p ≤ n | _ => p_MinPeers p ≤ 0 end) ∧
  p_DeepReorg p = true ∧ v_DeepReorg v = Ok false.
Proof.
  unfold Check_ready. destruct (v_ChainID v) as [id| |]; [|naive_solver..].
  destruct (match v_Head v with Ok (n, hash, _) => (n, hash) | _ => (0, 0) end) as [n hash] eqn:Eh.
  cbn [r_Ready r_Head r_HeadHash]. rewrite bool_decide_eq_true, !app_nil.
  unfold sync_reasons, head_reasons, peer_reasons, reorg_reasons. split.
  - intros (H1 & H2 & H3 & H4 & H5). split; [destruct (Z.eqb_spec id (p_ChainID p)); [congruence|done]|].
    split; [destruct (v_SyncProgress v) as [[[] t]| |]; naive_solver|].
    split.
    { destruct (v_Head v) as [[[n' h'] t]| |]; [|done..]. injection Eh as <- <-.
      destruct (Z.ltb_spec (p_MaxHeadAge p) (Sub now (time_Unix (i64 t)))); [done|]. naive_solver. }
    split; [|by destruct (p_DeepReorg p), (v_DeepReorg v) as [[]| |]].
    destruct (v_PeerCount v) as [m| |].
    + by destruct (Z.ltb_spec m (p_MinPeers p)).
    + by destruct (Z.ltb_spec 0 (p_MinPeers p)).
    + by destruct (Z.ltb_spec 0 (p_MinPeers p)).
  - intros (H1 & [t H2] & (n' & h' & t' & H3 & Hage & _) & H4 & H5 & H6).
    injection H1 as ->. rewrite Z.eqb_refl, H2, H3, H5, H6. split; [done|]. split; [done|].
    split; [by destruct (Z.ltb_spec (p_MaxHeadAge p) (Sub now (time_Unix (i64 t')))); [lia|]|]. split; [|done].
    destruct (v_PeerCount v) as [m| |].
    + by destruct (Z.ltb_spec m (p_MinPeers p)); [lia|].
    + by destruct (Z.ltb_spec 0 (p_MinPeers p)); [lia|].
    + by destruct (Z.ltb_spec 0 (p_MinPeers p)); [lia|].
Qed.
