(* ===== verification/Scheduler.v ===== *)
(** * The attestation engine (validator/internal/scheduler/engine.go)

    [Preflight], [Tick] and everything they call, on an explicit state: the
    engine's fields, the protection database with its disk, and two histories,
    what the database told the engine and which signatures came to exist. The
    node, the hub contract, the submitter and the key are the interfaces of the
    source: [World] holds their answers. Logging, the status dashboard and the
    texts it shows are left out. *)

From S2P Require Import Prelude Bytes Types Text Protect ProtectSafety Attest Node.

(** ** Data *)

(** hub.Seat, hub.Key, hub.Pool: the fields the engine reads. *)
Inductive SeatStatus :=
| StatusNone | StatusPending | StatusActive | StatusJailed | StatusExiting | StatusClosed.

#[export] Instance SeatStatus_eq_dec : EqDecision SeatStatus.
Proof. solve_decision. Defined.

Record Seat := MkSeat {
  seat_Status : SeatStatus; seat_Attester : Address; seat_PendingAttester : Address;
  seat_LastAttestedHeight : Z
}.
Record Key := MkKey { key_SeatID : Z; key_Role : Z; key_Active : bool }.
Record Pool := MkPool { pool_Paused : bool }.

Definition roleAttest : Z := 1.
Definition IsAttester (k : Key) : bool := negb (key_SeatID k =? 0) && (key_Role k =? roleAttest).

(** status.Attestation's states; [StateNew] is the empty string. *)
Inductive JobState :=
| StateNew | StateWaiting | StateWatching | StateSubmitted | StateIncluded | StateReverted
| StateMissed | StateSkipped | StateRefused.

#[export] Instance JobState_eq_dec : EqDecision JobState.
Proof. solve_decision. Defined.

Record job := MkJob {
  j_State : JobState; j_BlockHash : Hash; j_Tx : Hash; j_IncludedIn : Z;
  sent : bool; done : bool; attempts : Z; audited : bool; watched : bool
}.

Definition new_job : job := MkJob StateNew 0 0 0 false false 0 false false.
Definition put (s : JobState) (j : job) : job :=
  MkJob s (j_BlockHash j) (j_Tx j) (j_IncludedIn j) (sent j) (done j) (attempts j) (audited j) (watched j).
Definition finish (j : job) : job :=
  MkJob (j_State j) (j_BlockHash j) (j_Tx j) (j_IncludedIn j) (sent j) true (attempts j) (audited j) (watched j).
Definition set_BlockHash (h : Hash) (j : job) : job :=
  MkJob (j_State j) h (j_Tx j) (j_IncludedIn j) (sent j) (done j) (attempts j) (audited j) (watched j).
Definition set_sent (tx : Hash) (j : job) : job :=
  MkJob (j_State j) (j_BlockHash j) tx (j_IncludedIn j) true (done j) (attempts j) (audited j) (watched j).
Definition set_IncludedIn (b : Z) (j : job) : job :=
  MkJob (j_State j) (j_BlockHash j) (j_Tx j) b (sent j) (done j) (attempts j) (audited j) (watched j).
Definition add_attempt (j : job) : job :=
  MkJob (j_State j) (j_BlockHash j) (j_Tx j) (j_IncludedIn j) (sent j) (done j) (attempts j + 1) (audited j) (watched j).
Definition set_audited (b : bool) (j : job) : job :=
  MkJob (j_State j) (j_BlockHash j) (j_Tx j) (j_IncludedIn j) (sent j) (done j) (attempts j) b (watched j).
Definition set_watched (j : job) : job :=
  MkJob (j_State j) (j_BlockHash j) (j_Tx j) (j_IncludedIn j) (sent j) (done j) (attempts j) (audited j) true.

(** The settings of an engine. [KeyAddr] is the address of its private key. *)
Record EngineConfig := MkEngineConfig {
  Addr : Address; KeyAddr : option Address; Dom : Domain; Sched : Schedule; Pol : Policy;
  Imported : bool; Adopt : bool; DoppelgangerCheckpoints : Z
}.

(** The fields that change. *)
Record Engine := MkEngine {
  seatID : Z; seat : option Seat; pool : option Pool; seatChecked : Z; activeFrom : Z;
  startHead : Z; halted : option error; jobs : gmap Z job; watchLeft : Z
}.

Definition new_engine : Engine := MkEngine 0 None None 0 0 0 None ∅ 0.
Definition set_seatID x e := MkEngine x (seat e) (pool e) (seatChecked e) (activeFrom e) (startHead e) (halted e) (jobs e) (watchLeft e).
Definition set_seat x e := MkEngine (seatID e) x (pool e) (seatChecked e) (activeFrom e) (startHead e) (halted e) (jobs e) (watchLeft e).
Definition set_pool x e := MkEngine (seatID e) (seat e) x (seatChecked e) (activeFrom e) (startHead e) (halted e) (jobs e) (watchLeft e).
Definition set_seatChecked x e := MkEngine (seatID e) (seat e) (pool e) x (activeFrom e) (startHead e) (halted e) (jobs e) (watchLeft e).
Definition set_activeFrom x e := MkEngine (seatID e) (seat e) (pool e) (seatChecked e) x (startHead e) (halted e) (jobs e) (watchLeft e).
Definition set_startHead x e := MkEngine (seatID e) (seat e) (pool e) (seatChecked e) (activeFrom e) x (halted e) (jobs e) (watchLeft e).
Definition set_halted x e := MkEngine (seatID e) (seat e) (pool e) (seatChecked e) (activeFrom e) (startHead e) x (jobs e) (watchLeft e).
Definition set_jobs x e := MkEngine (seatID e) (seat e) (pool e) (seatChecked e) (activeFrom e) (startHead e) (halted e) x (watchLeft e).
Definition set_watchLeft x e := MkEngine (seatID e) (seat e) (pool e) (seatChecked e) (activeFrom e) (startHead e) (halted e) (jobs e) x.

(** The answers of node.Chain, hub.Reader, Submitter, the key and the disk. *)
Record World := MkWorld {
  w_now : Z;                       (** nanoseconds since 1970 *)
  w_view : ChainView;
  w_CodeAt : result bytes;
  w_DomainSeparator : result Hash;
  w_AttestationDigest : Z → Hash → result Hash;
  w_KeyInfo : result Key;
  w_Seat : Z → Z → result Seat;
  w_Pool : result Pool;
  w_HeaderAt : Z → result Hash;
  w_Attested : Z → Z → result bool;
  w_Checkpoint : Z → result Hash;
  w_AttesterSince : Z → result (Z * bool);
  w_Sign : Z → Hash → result bytes;
  w_PackAttest : Z → Hash → bytes → result bytes;
  w_Submit : Z → bytes → result Hash;
  w_Receipt : Hash → result (option (Z * bool));
  w_io : nat → AppendIO;
  w_remove_fails : bool
}.

Definition w_unix (w : World) : Z := w_now w / Second.

(** The state of a running sidecar. *)
Record St := MkSt {
  st_eng : Engine; st_db : DB; st_disk : Disk;
  st_told : list event;            (** what the database confirmed *)
  st_signatures : list (Z * Hash)  (** the signatures made, newest first *)
}.

Definition on_eng (f : Engine → Engine) (st : St) : St :=
  MkSt (f (st_eng st)) (st_db st) (st_disk st) (st_told st) (st_signatures st).
Definition save (h : Z) (j : job) (st : St) : St :=
  on_eng (fun e => set_jobs (<[h := j]> (jobs e)) e) st.
Definition add_signature (h : Z) (hash : Hash) (st : St) : St :=
  MkSt (st_eng st) (st_db st) (st_disk st) (st_told st) ((h, hash) :: st_signatures st).

(** errors.Is(err, protect.ErrConflict), errors.Is(err, protect.ErrBelowWatermark). *)
Definition is_ErrConflict (e : error) : bool :=
  match e with
  | Errorf fmt _ => bool_decide (fmt = "ErrConflict: height %d already signed %s, asked to sign %s"%string)
  | New _ => false
  end.
Definition is_ErrBelowWatermark (e : error) : bool :=
  match e with
  | Errorf fmt _ => bool_decide (fmt = "ErrBelowWatermark: height %d <= watermark %d"%string)
  | New _ => false
  end.

Definition ErrKeyInUse : error :=
  New "this attester key has attestations on-chain that this machine did not sign; another machine is using the same key".

Section Engine.
Context `{Crypto}
  (range_r : gmap (Scope * Z) SignRecord → list ((Scope * Z) * SignRecord))
  (range_w : gmap Scope Z → list (Scope * Z)) (cfg : EngineConfig).

(** [e.scope]. *)
Definition scope : Scope := MkScope (d_ChainID (Dom cfg)) (d_Hub (Dom cfg)) (Addr cfg).

(** ** The database calls *)

Definition db_Approve (io : AppendIO) (now h : Z) (hash : Hash) (st : St) : result bool * St :=
  let '(r, db, d) := Approve io now scope h hash (st_db st) (st_disk st) in
  (r, MkSt (st_eng st) db d
        (match r with Ok fresh => Signed scope h hash fresh :: st_told st | _ => st_told st end)
        (st_signatures st)).
Definition db_SetWatermark (io : AppendIO) (now w : Z) (st : St) : result unit * St :=
  let '(r, db, d) := SetWatermark io now scope w (st_db st) (st_disk st) in
  (r, MkSt (st_eng st) db d
        (match r with Ok _ => Raised scope w :: st_told st | _ => st_told st end)
        (st_signatures st)).
Definition db_Import (io : AppendIO) (now : Z) (rs : list ExportRecord) (st : St) : result Z * St :=
  let '(r, db, d) := Import range_w io now rs (st_db st) (st_disk st) in
  (r, MkSt (st_eng st) db d
        (match r with Ok _ => (import_event <$> rs) ++ st_told st | _ => st_told st end)
        (st_signatures st)).
Definition db_RepairHandled (fails : bool) (st : St) : result unit * St :=
  let '(r, db, d) := RepairHandled fails (st_db st) (st_disk st) in
  (r, MkSt (st_eng st) db d (st_told st) (st_signatures st)).

(** ** Tick *)

(** [halt]: the first reason stays. *)
Definition halt (err : error) (e : Engine) : Engine :=
  match halted e with Some _ => e | None => set_halted (Some err) e end.

(** [refresh]. *)
Definition refresh (w : World) (head : Z) (e : Engine) : Engine :=
  if bool_decide (seat e ≠ None) && (Sub (w_now w) (seatChecked e) <? 30 * Second) then e
  else
    let e := set_seatChecked (w_now w) e in
    match w_KeyInfo w with
    | Ok k =>
        if negb (IsAttester k) then set_seat None (set_seatID 0 e)
        else
          let e := set_seatID (key_SeatID k) e in
          match w_Seat w (key_SeatID k) head, w_Pool w with
          | Ok s, Ok p =>
              let e := set_pool (Some p) (set_seat (Some s) e) in
              if negb (seat_Attester s =? Addr cfg) then e
              else if key_Active k && (activeFrom e =? 0) then set_activeFrom head e
              else e
          | _, _ => e
          end
    | _ => e
    end.

(** [canSign]. *)
Definition canSign (e : Engine) : bool :=
  match seat e with
  | None => false
  | Some s =>
      negb (seatID e =? 0) && (seat_Attester s =? Addr cfg)
      && bool_decide (seat_Status s = StatusActive)
      && match pool e with Some p => negb (pool_Paused p) | None => true end
  end.

(** [auditable]. *)
Definition auditable (e : Engine) (h : Z) : bool :=
  negb (seatID e =? 0)
  && match seat e with Some s => seat_Attester s =? Addr cfg | None => false end
  && negb (activeFrom e =? 0) && (activeFrom e <=? add64 h (s_MinDelay (Sched cfg))).

(** The part of [handle] after the hub said the checkpoint is attested already. *)
Definition self_check (w : World) (h : Z) (hash : Hash) (j : job) (st : St) : St :=
  let stop st := save h (put StateRefused (finish j)) (on_eng (halt ErrKeyInUse) st) in
  match Lookup scope h (st_db st) with
  | Some local =>
      if local =? hash then save h (put StateIncluded (set_BlockHash hash (finish j))) st
      else stop st
  | None =>
      match w_AttesterSince w (seatID (st_eng st)) with
      | Ok (since, rotated) =>
          if rotated && (add64 h (s_MinDelay (Sched cfg)) <? since)
          then save h (put StateSkipped (finish j)) st
          else stop st
      | _ => save h (put StateWaiting j) st
      end
  end.

(** The part of [handle] from the approval on. *)
Definition sign_and_submit (w : World) (h : Z) (hash : Hash) (j : job) (st : St) : St :=
  let '(r, st) := db_Approve (w_io w 0) (w_unix w) h hash st in
  match r with
  | Err e =>
      if is_ErrConflict e then
        save h (put StateRefused (finish j))
          (on_eng (halt (New "the node now reports a different block at a height this key already signed")) st)
      else if is_ErrBelowWatermark e then save h (put StateSkipped (finish j)) st
      else save h (put StateWaiting j) st
  | Panic _ => save h (put StateWaiting j) st
  | Ok _ =>
      let j := set_BlockHash hash j in
      match w_Sign w h hash with
      | Ok sig =>
          let st := add_signature h hash st in
          if match Recover (Dom cfg) h hash sig with Ok got => got =? Addr cfg | _ => false end then
            match w_PackAttest w h hash sig with
            | Ok data =>
                match w_Submit w h data with
                | Ok tx => save h (put StateSubmitted (set_sent tx j)) st
                | _ =>
                    let j := add_attempt j in
                    if 5 <=? attempts j then save h (put StateMissed (finish j)) st
                    else save h (put StateWaiting j) st
                end
            | _ => save h (put StateWaiting j) st
            end
          else
            save h (put StateRefused (finish j))
              (on_eng (halt (New "a fresh signature does not verify against the attester address; refusing to continue")) st)
      | _ => save h (put StateWaiting j) st
      end
  end.

(** [handle]. *)
Definition handle (w : World) (h : Z) (ready : bool) (st : St) : St :=
  let j := default new_job (jobs (st_eng st) !! h) in
  let st := save h j st in
  let e := st_eng st in
  if done j || sent j then st
  else if bool_decide (halted e ≠ None) then save h (put StateRefused (finish j)) st
  else if 0 <? watchLeft e then
    if negb (watched j) && (startHead e <=? add64 h (s_MinDelay (Sched cfg)))
    then save h (put StateWatching (set_watched j)) st
    else if negb (watched j) && bool_decide (j_State j = StateNew)
    then save h (put StateWatching j) st
    else st
  else if negb ready then save h (put StateWaiting j) st
  else if negb (canSign e) then save h (put StateWaiting j) st
  else
    match w_HeaderAt w h with
    | Ok hash =>
        if hash =? 0 then save h (put StateWaiting j) st
        else
          match w_Attested w (seatID e) h with
          | Ok true => self_check w h hash j st
          | Ok false => sign_and_submit w h hash j st
          | _ => save h (put StateWaiting j) st
          end
    | _ => save h (put StateWaiting j) st
    end.

(** [audit] on the job at [h]. *)
Definition audit (w : World) (h : Z) (j : job) (st : St) : St :=
  let e := st_eng st in
  if negb (auditable e h) then
    let st := save h (set_audited true j) st in
    if watched j && (0 <? watchLeft e)
       && match seat e with
          | None => true
          | Some s => negb (bool_decide (seat_Status s = StatusActive))
                      || negb (seat_Attester s =? Addr cfg)
          end
    then on_eng (fun e => set_watchLeft (watchLeft e - 1) e) st
    else st
  else
    match w_Attested w (seatID e) h with
    | Ok on =>
        let j := set_audited true j in
        if negb on then
          let st := save h j st in
          if watched j && (0 <? watchLeft e)
          then on_eng (fun e => set_watchLeft (watchLeft e - 1) e) st
          else st
        else
          match Lookup scope h (st_db st) with
          | Some local =>
              match w_Checkpoint w h with
              | Ok cp =>
                  if negb (cp =? 0) && negb (cp =? local)
                  then on_eng (halt ErrKeyInUse) (save h j st)
                  else if negb (bool_decide (j_State j = StateIncluded))
                  then save h (put StateIncluded (set_BlockHash local j)) st
                  else save h j st
              | _ => save h (set_audited false j) st
              end
          | None => on_eng (halt ErrKeyInUse) (save h j st)
          end
    | _ => save h j st
    end.

(** What [track] makes of the job's transaction and window. *)
Definition follow (w : World) (closed : bool) (j : job) : job :=
  if sent j && negb (done j) then
    match w_Receipt w (j_Tx j) with
    | Ok (Some (block, true)) => put StateIncluded (set_IncludedIn block (finish j))
    | Ok (Some (block, false)) => put StateReverted (set_IncludedIn block (finish j))
    | Ok None => if closed then put StateMissed (finish j) else j
    | _ => j
    end
  else if negb (done j) && closed then
    put (if watched j then StateWatching else StateMissed) (finish j)
  else j.

(** One round of [track]'s first loop. *)
Definition track_job (w : World) (head : Z) (h : Z) (st : St) : St :=
  match jobs (st_eng st) !! h with
  | None => st
  | Some j =>
      let closed := Closed (Sched cfg) h head in
      let j := follow w closed j in
      let st := save h j st in
      let st := if done j && negb (audited j) && closed then audit w h j st else st in
      match jobs (st_eng st) !! h with
      | Some j =>
          if (add64 h (mul64 10 (s_Interval (Sched cfg))) <? head) && done j && audited j
          then on_eng (fun e => set_jobs (delete h (jobs e)) e) st
          else st
      | None => st
      end
  end.

(** One round of the second loop, [i] checkpoints before [last]. *)
Definition track_missing (w : World) (head last i : Z) (st : St) : St :=
  let e := st_eng st in
  let interval := s_Interval (Sched cfg) in
  if negb (mul64 i interval <=? last) then st
  else
    let h := sub64 last (mul64 i interval) in
    if (h =? 0) || bool_decide (jobs e !! h ≠ None) || negb (Closed (Sched cfg) h head)
       || (add64 h (s_MaxDelay (Sched cfg)) <? startHead e)
    then st
    else let j := finish new_job in audit w h j (save h j st).

(** [track]. *)
Definition track (w : World) (head : Z) (st : St) : result St :=
  let heights := merge_sort Z.le (fst <$> map_to_list (jobs (st_eng st))) in
  let st := foldl (fun st h => track_job w head h st) st heights in
  if (seatID (st_eng st) =? 0) || (head <=? s_MaxDelay (Sched cfg)) then Ok st
  else
    q ← div64 (sub64 (sub64 head (s_MaxDelay (Sched cfg))) 1) (s_Interval (Sched cfg));
    let last := mul64 q (s_Interval (Sched cfg)) in
    Ok (track_missing w head last 1 (track_missing w head last 0 st)).

(** [Tick]. *)
Definition Tick (w : World) (st : St) : result St :=
  let r := Check_ready (w_view w) (Pol cfg) (w_now w) in
  if r_Head r =? 0 then Ok st
  else
    let head := r_Head r in
    st ← track w head (on_eng (refresh w head) st);
    due ← Due (Sched cfg) head;
    match due with
    | Some h => Ok (handle w h (r_Ready r) st)
    | None => Ok st
    end.

(** ** Preflight *)

(** nil, an error that may go away, or a [FatalError]. *)
Inductive outcome := Passed | Retry (e : error) | Fatal (e : error).

Definition retry_on {A} (r : result A) (st : St) (k : A → outcome * St) : outcome * St :=
  match r with Ok a => k a | Err e => (Retry e, st) | Panic s => (Retry (New s), st) end.

(** [localRange]'s third result. *)
Definition haveLocal (db : DB) : bool := negb (bool_decide (Records range_r scope db = [])).

(** [checkHistory]: the attestation the chain shows for the seat. *)
Definition check_last (w : World) (head : Z) (s : Seat) (st : St) : outcome * St :=
  let last := seat_LastAttestedHeight s in
  if (0 <? last) && (seat_Attester s =? Addr cfg) then
    retry_on (w_Checkpoint w last) st (fun cp =>
    match Lookup scope last (st_db st) with
    | Some local => if negb (local =? cp) then (Fatal ErrKeyInUse, st) else (Passed, st)
    | None =>
        retry_on (w_AttesterSince w (seatID (st_eng st))) st (fun '(since, rotated) =>
        if negb rotated || (since <=? add64 last (s_MaxDelay (Sched cfg))) then
          if negb (Adopt cfg) then (Fatal ErrKeyInUse, st)
          else
            let rec := MkExportRecord (d_ChainID (Dom cfg)) (d_Hub (Dom cfg)) (Addr cfg) last cp false 0 in
            let '(r, st) := db_Import (w_io w 1) (w_unix w) [rec] st in
            retry_on r st (fun _ =>
            let '(r, st) := db_SetWatermark (w_io w 2) (w_unix w) head st in
            retry_on r st (fun _ =>
            (Passed, on_eng (set_watchLeft (DoppelgangerCheckpoints cfg)) st)))
        else (Passed, st))
    end)
  else (Passed, st).

(** [checkHistory]. *)
Definition checkHistory (w : World) (head : Z) (st : St) : outcome * St :=
  retry_on (w_KeyInfo w) st (fun k =>
  let have := haveLocal (st_db st) in
  let '(o, st) :=
    if IsAttester k then
      let st := on_eng (set_seatID (key_SeatID k)) st in
      retry_on (w_Seat w (key_SeatID k) head) st (fun s => check_last w head s st)
    else (Passed, st) in
  match o with
  | Passed =>
      if Imported cfg && negb have then
        let '(r, st) := db_SetWatermark (w_io w 3) (w_unix w) head st in
        retry_on r st (fun _ =>
        (Passed, on_eng (fun e => if watchLeft e <? DoppelgangerCheckpoints cfg
                                  then set_watchLeft (DoppelgangerCheckpoints cfg) e else e) st))
      else (Passed, st)
  | o => (o, st)
  end).

Definition preflight_probe : Hash := keccak256 (str "fmx-validator preflight").

(** The checks of [Preflight] that only read. *)
Definition preflight_checks (w : World) (st : St) (k : outcome * St) : outcome * St :=
  match Validate (Sched cfg) with
  | Ok _ =>
      if negb (bool_decide (KeyAddr cfg = Some (Addr cfg)))
      then (Fatal (New "attester key and address disagree"), st)
      else
        retry_on (v_ChainID (w_view w)) st (fun id =>
        if negb (id =? d_ChainID (Dom cfg))
        then (Fatal (Errorf "the node is on chain %d but this validator is configured for chain %d"
                       [id; d_ChainID (Dom cfg)]), st)
        else
          retry_on (w_CodeAt w) st (fun code =>
          if bool_decide (code = []) then (Retry (New "no contract at hub address"), st)
          else
            retry_on (w_DomainSeparator w) st (fun sep =>
            if negb (sep =? Separator (Dom cfg))
            then (Fatal (New "the hub's signing domain differs from this build's"), st)
            else
              retry_on (w_AttestationDigest w (s_Interval (Sched cfg)) preflight_probe) st (fun d =>
              if negb (d =? Digest (Dom cfg) (s_Interval (Sched cfg)) preflight_probe)
              then (Fatal (New "the hub computes attestation digests differently from this build: update fmx-validator"), st)
              else k))))
  | Err e => (Fatal e, st)
  | Panic s => (Fatal (New s), st)
  end.

(** [Preflight]. *)
Definition Preflight (w : World) (st : St) : outcome * St :=
  preflight_checks w st
    (retry_on (v_Head (w_view w)) st (fun '(head, _, _) =>
     let st := on_eng (set_startHead head) st in
     if 0 <? repaired (st_db st) then
       let '(r, st) := db_SetWatermark (w_io w 0) (w_unix w) head st in
       retry_on r st (fun _ =>
       let '(r, st) := db_RepairHandled (w_remove_fails w) st in
       retry_on r st (fun _ => checkHistory w head st))
     else checkHistory w head st)).
End Engine.
