(* ===== verification/SchedulerSafety.v ===== *)
(** * What the attestation engine guarantees

    The engine's calls on the protection database are steps of the system of
    [ProtectSafety], so its guarantees carry over to the signatures it makes; on
    top of that, when a tick may sign at all, and that a halted engine is silent. *)

From S2P Require Import Prelude Bytes Types Text Protect ProtectSafety Attest Node Scheduler.

(** The world answers within Go's types. *)
Record world_wf (w : World) : Prop := {
  ww_now : is_i64 (w_unix w);
  ww_head : ∀ n hash t, v_Head (w_view w) = Ok (n, hash, t) → is_u64 n;
  ww_header : ∀ h hash, w_HeaderAt w h = Ok hash → is_hash hash;
  ww_checkpoint : ∀ h hash, w_Checkpoint w h = Ok hash → is_hash hash;
  ww_seat : ∀ id head s, w_Seat w id head = Ok s → is_u64 (seat_LastAttestedHeight s)
}.

Section Safety.
Context `{Crypto}
  (range_r : gmap (Scope * Z) SignRecord → list ((Scope * Z) * SignRecord))
  (range_w : gmap Scope Z → list (Scope * Z)) (cfg : EngineConfig)
  (Hscope : scope_wf (scope cfg)).

(** ** The engine is a client of the protection system *)

Definition sys_of (st : St) : Sys := MkSys (st_disk st) (Some (st_db st)) (st_told st).

(** [st'] comes from [st] by database steps, and every signature made in between
    was confirmed by the database. *)
Definition evolves (st st' : St) : Prop :=
  rtc (step range_w true) (sys_of st) (sys_of st') ∧
  ∃ new, st_signatures st' = new ++ st_signatures st ∧
    ∀ h hash, (h, hash) ∈ new → ∃ fresh, Signed (scope cfg) h hash fresh ∈ st_told st'.

Lemma told_mono s s' : rtc (step range_w true) s s' → ∀ ev, ev ∈ history s → ev ∈ history s'.
Proof.
  induction 1 as [|s1 s2 s3 Hst _ IH]; [done|]. intros ev Hev. apply IH.
  destruct Hst; cbn in *; try done; destruct r; rewrite ?elem_of_app, ?elem_of_cons; tauto.
Qed.

#[local] Instance evolves_refl : Reflexive evolves.
Proof. intros st. split; [done|]. exists []. split; [done|]. intros ?? Hin. by apply elem_of_nil in Hin. Qed.

#[local] Instance evolves_trans : Transitive evolves.
Proof.
  intros a b c [Hab (n1 & E1 & H1)] [Hbc (n2 & E2 & H2)]. split; [by etransitivity|].
  exists (n2 ++ n1). split; [by rewrite E2, E1, app_assoc|].
  intros h hash Hin. apply elem_of_app in Hin as [Hin|Hin]; [by apply H2|].
  destruct (H1 _ _ Hin) as [fresh Hf]. exists fresh. by apply (told_mono _ _ Hbc).
Qed.

(** A change of the engine's own fields. *)
Lemma evolves_eng st f : evolves st (on_eng f st).
Proof. split; [done|]. exists []. split; [done|]. intros ?? Hin. by apply elem_of_nil in Hin. Qed.

Lemma evolves_save st h j : evolves st (save h j st).
Proof. apply evolves_eng. Qed.

(** A database call. *)
Lemma evolves_step st st' :
  step range_w true (sys_of st) (sys_of st') → st_signatures st' = st_signatures st → evolves st st'.
Proof.
  intros Hst Hsig. split; [by apply rtc_once|]. exists []. split; [done|].
  intros ?? Hin. by apply elem_of_nil in Hin.
Qed.

Lemma Approve_evolves io now h hash st r st' :
  is_u64 h → is_hash hash → is_i64 now → db_Approve cfg io now h hash st = (r, st') →
  evolves st st' ∧ st_eng st' = st_eng st ∧
  (∀ fresh, r = Ok fresh → Signed (scope cfg) h hash fresh ∈ st_told st').
Proof.
  intros Hh Hha Hn E. unfold db_Approve in E.
  destruct (Approve _ _ _ _ _ _ _) as [[r0 db] d] eqn:Ea. injection E as <- <-.
  split; [|split; [done|intros fresh ->; left]].
  apply evolves_step; [|done]. by eapply s_approve.
Qed.

Lemma SetWatermark_evolves io now w st r st' :
  is_u64 w → is_i64 now → db_SetWatermark cfg io now w st = (r, st') → evolves st st'.
Proof.
  intros Hw Hn E. unfold db_SetWatermark in E.
  destruct (SetWatermark _ _ _ _ _ _) as [[r0 db] d] eqn:Ea. injection E as <- <-.
  apply evolves_step; [|done]. by eapply s_watermark.
Qed.

Lemma Import_evolves io now rs st r st' :
  Forall export_wf rs → is_i64 now → db_Import range_w io now rs st = (r, st') → evolves st st'.
Proof.
  intros Hrs Hn E. unfold db_Import in E.
  destruct (Import _ _ _ _ _ _) as [[r0 db] d] eqn:Ea. injection E as <- <-.
  apply evolves_step; [|done]. by eapply s_import.
Qed.

Lemma RepairHandled_evolves fails st r st' :
  db_RepairHandled fails st = (r, st') → evolves st st'.
Proof.
  intros E. unfold db_RepairHandled in E.
  destruct (RepairHandled _ _ _) as [[r0 db] d] eqn:Ea. injection E as <- <-.
  apply evolves_step; [|done]. by eapply s_repair_handled.
Qed.

(** *** Tick *)

Ltac evolve := repeat first
  [ reflexivity | apply evolves_save | apply evolves_eng
  | etransitivity; [|apply evolves_save] | etransitivity; [|apply evolves_eng] ].

Lemma sign_and_submit_evolves w h hash j st :
  world_wf w → is_u64 h → is_hash hash → evolves st (sign_and_submit cfg w h hash j st).
Proof.
  intros Hw Hh Hha. unfold sign_and_submit.
  destruct (db_Approve _ _ _ _ _ _) as [r st1] eqn:Ea.
  destruct (Approve_evolves _ _ _ _ _ _ _ Hh Hha (ww_now _ Hw) Ea) as (Hev & _ & Hin).
  transitivity st1; [exact Hev|]. clear Ea Hev.
  destruct r as [fresh|e|]; [|destruct (is_ErrConflict e); [|destruct (is_ErrBelowWatermark e)]|]; try evolve.
  destruct (w_Sign w h hash) as [sig| |]; try evolve.
  assert (Hsig : evolves st1 (add_signature h hash st1)).
  { split; [done|]. exists [(h, hash)]. split; [done|]. intros h' hash' Hin'.
    apply list_elem_of_singleton in Hin'. injection Hin' as -> ->. exists fresh. by apply Hin. }
  transitivity (add_signature h hash st1); [exact Hsig|].
  destruct (match Recover _ _ _ _ with Ok got => _ | _ => _ end); [|evolve].
  destruct (w_PackAttest w h hash sig) as [data| |]; [|evolve..].
  destruct (w_Submit w h data) as [tx| |]; [evolve|destruct (5 <=? _); evolve..].
Qed.

Lemma self_check_evolves w h hash j st : evolves st (self_check cfg w h hash j st).
Proof.
  unfold self_check. destruct (Lookup _ _ _) as [local|]; [destruct (local =? hash); evolve|].
  destruct (w_AttesterSince _ _) as [[since rotated]| |]; [destruct (rotated && _); evolve|evolve..].
Qed.

Lemma handle_evolves w h ready st : world_wf w → is_u64 h → evolves st (handle cfg w h ready st).
Proof.
  intros Hw Hh. unfold handle. set (j := default new_job _).
  transitivity (save h j st); [apply evolves_save|]. clearbody j. generalize (save h j st). clear st. intros st.
  destruct (done j || sent j); [done|]. destruct (bool_decide _); [evolve|].
  destruct (0 <? _).
  { destruct (negb (watched j) && _); [evolve|]. destruct (negb (watched j) && _); evolve. }
  destruct (negb ready); [evolve|]. destruct (negb _); [evolve|].
  destruct (w_HeaderAt w h) as [hash| |] eqn:Eh; [|evolve..].
  destruct (hash =? 0); [evolve|].
  destruct (w_Attested _ _ _) as [[]| |]; [apply self_check_evolves| |evolve..].
  apply sign_and_submit_evolves; [done|done|by eapply ww_header].
Qed.

Lemma audit_evolves w h j st : evolves st (audit cfg w h j st).
Proof.
  unfold audit. destruct (negb _).
  { destruct (_ && _); [etransitivity; [apply evolves_save|]|]; evolve. }
  destruct (w_Attested _ _ _) as [on| |]; [|evolve..]. destruct (negb on).
  { destruct (_ && _); [etransitivity; [apply evolves_save|]|]; evolve. }
  destruct (Lookup _ _ _) as [local|]; [|etransitivity; [apply evolves_save|]; evolve].
  destruct (w_Checkpoint w h) as [cp| |]; [|evolve..].
  destruct (negb (cp =? 0) && _); [etransitivity; [apply evolves_save|]; evolve|].
  destruct (negb _); evolve.
Qed.

Lemma track_job_evolves w head h st : evolves st (track_job cfg w head h st).
Proof.
  unfold track_job. destruct (jobs (st_eng st) !! h) as [j|]; [|done].
  generalize (follow w (Closed (Sched cfg) h head) j). intros j1.
  set (st1 := if done j1 && _ && _ then _ else _).
  assert (H1 : evolves st st1).
  { transitivity (save h j1 st); [apply evolves_save|]. unfold st1.
    destruct (_ && _); [apply audit_evolves|done]. }
  clearbody st1. transitivity st1; [exact H1|].
  destruct (jobs (st_eng st1) !! h) as [j2|]; [|done].
  destruct (_ && _); evolve.
Qed.

Lemma track_evolves w head st st' : track cfg w head st = Ok st' → evolves st st'.
Proof.
  unfold track. set (l := merge_sort _ _). generalize l. clear l. intros l E.
  assert (Hf : evolves st (foldl (fun st h => track_job cfg w head h st) st l)).
  { revert st E. induction l as [|h l IH]; intros st E; [done|]. cbn.
    etransitivity; [apply track_job_evolves|]. by apply IH. }
  revert E Hf. generalize (foldl (fun st h => track_job cfg w head h st) st l). intros st1 E Hf.
  transitivity st1; [exact Hf|]. destruct (_ || _); [by apply Ok_inj in E as <-|].
  apply bind_ok in E as (q & _ & E). apply Ok_inj in E as <-.
  assert (Hm : ∀ last i st, evolves st (track_missing cfg w head last i st)).
  { clear. intros last i st. unfold track_missing. destruct (negb _); [done|].
    destruct (_ || _); [done|]. etransitivity; [apply evolves_save|apply audit_evolves]. }
  etransitivity; apply Hm.
Qed.

Lemma Due_u64 s head h : Due s head = Ok (Some h) → is_u64 h.
Proof.
  unfold Due. intros E. destruct (head <? _); [done|]. apply bind_ok in E as (q & _ & E).
  apply bind_ok in E as (cp & _ & E). destruct (negb cp); [done|]. destruct (_ <? _); [done|].
  apply Ok_inj in E. injection E as <-. apply u64_bound.
Qed.

Lemma Tick_evolves w st st' : world_wf w → Tick cfg w st = Ok st' → evolves st st'.
Proof.
  intros Hw E. unfold Tick in E. destruct (_ =? 0); [by apply Ok_inj in E as <-|].
  apply bind_ok in E as (st1 & Et & E). apply bind_ok in E as (due & Ed & E).
  transitivity st1; [etransitivity; [apply evolves_eng|by eapply track_evolves]|].
  destruct due as [h|]; apply Ok_inj in E as <-; [|done].
  apply handle_evolves; [done|by eapply Due_u64].
Qed.

(** *** Preflight *)

Lemma retry_on_evolves {A} (r : result A) st st0 (k : A → outcome * St) :
  evolves st0 st → (∀ a, r = Ok a → evolves st0 (k a).2) → evolves st0 (retry_on r st k).2.
Proof. intros H0 Hk. destruct r as [a| |]; cbn; [by apply Hk|done..]. Qed.

Lemma check_last_evolves w head s st :
  world_wf w → is_u64 head → is_u64 (seat_LastAttestedHeight s) →
  evolves st (check_last range_w cfg w head s st).2.
Proof.
  intros Hw Hhead Hlast. unfold check_last. destruct (_ && _); [|done].
  apply retry_on_evolves; [done|]. intros cp Ecp.
  destruct (Lookup _ _ _) as [local|]; [by destruct (negb _)|].
  apply retry_on_evolves; [done|]. intros [since rotated] _.
  destruct (_ || _); [|done]. destruct (negb (Adopt cfg)); [done|].
  destruct (db_Import _ _ _ _ _) as [r st1] eqn:Ei.
  assert (H1 : evolves st st1).
  { eapply Import_evolves; [|apply (ww_now _ Hw)|exact Ei].
    apply Forall_singleton. split; [exact Hscope|]. split; [exact Hlast|].
    split; [by eapply ww_checkpoint|]. unfold is_i64. cbn. lia. }
  apply retry_on_evolves; [exact H1|]. intros _ _.
  destruct (db_SetWatermark _ _ _ _ _) as [r2 st2] eqn:Es.
  assert (H2 : evolves st st2).
  { transitivity st1; [exact H1|]. eapply SetWatermark_evolves; [exact Hhead|apply (ww_now _ Hw)|exact Es]. }
  apply retry_on_evolves; [exact H2|]. intros _ _. cbn [snd].
  transitivity st2; [exact H2|apply evolves_eng].
Qed.

Lemma checkHistory_evolves w head st :
  world_wf w → is_u64 head → evolves st (checkHistory range_r range_w cfg w head st).2.
Proof.
  intros Hw Hhead. unfold checkHistory. apply retry_on_evolves; [done|]. intros k _.
  generalize (haveLocal range_r cfg (st_db st)). intros have.
  set (p := if IsAttester k then _ else _).
  assert (H1 : evolves st p.2).
  { unfold p. destruct (IsAttester k); [|done].
    assert (H0 : evolves st (on_eng (set_seatID (key_SeatID k)) st)) by apply evolves_eng.
    apply retry_on_evolves; [exact H0|]. intros s Es. etransitivity; [exact H0|].
    apply check_last_evolves; [done..|]. by eapply ww_seat. }
  clearbody p. destruct p as [[|e|e] st1]; cbn [snd] in H1 |- *; [|done..].
  destruct (_ && _); [|done].
  destruct (db_SetWatermark _ _ _ _ _) as [r2 st2] eqn:Es.
  assert (H2 : evolves st st2).
  { transitivity st1; [exact H1|]. eapply SetWatermark_evolves; [exact Hhead|apply (ww_now _ Hw)|exact Es]. }
  apply retry_on_evolves; [exact H2|]. intros _ _. cbn [snd].
  transitivity st2; [exact H2|apply evolves_eng].
Qed.

Lemma Preflight_evolves w st : world_wf w → evolves st (Preflight range_r range_w cfg w st).2.
Proof.
  intros Hw. unfold Preflight, preflight_checks.
  destruct (Validate _) as [[]| |]; [|done..]. destruct (negb _); [done|].
  apply retry_on_evolves; [done|]. intros id _. destruct (negb _); [done|].
  apply retry_on_evolves; [done|]. intros code _. destruct (bool_decide _); [done|].
  apply retry_on_evolves; [done|]. intros sep _. destruct (negb _); [done|].
  apply retry_on_evolves; [done|]. intros d _. destruct (negb _); [done|].
  apply retry_on_evolves; [done|]. intros [[head hash] t] Eh.
  assert (Hhead : is_u64 head) by (by eapply ww_head).
  assert (H0 : evolves st (on_eng (set_startHead head) st)) by apply evolves_eng.
  revert H0. generalize (on_eng (set_startHead head) st). intros st0 H0.
  destruct (0 <? _); [|etransitivity; [exact H0|by apply checkHistory_evolves]].
  destruct (db_SetWatermark _ _ _ _ _) as [r1 st1] eqn:Es.
  assert (H1 : evolves st st1).
  { transitivity st0; [exact H0|]. eapply SetWatermark_evolves; [exact Hhead|apply (ww_now _ Hw)|exact Es]. }
  apply retry_on_evolves; [exact H1|]. intros _ _.
  destruct (db_RepairHandled _ _) as [r2 st2] eqn:Er.
  assert (H2 : evolves st st2) by (transitivity st1; [exact H1|by eapply RepairHandled_evolves]).
  apply retry_on_evolves; [exact H2|]. intros _ _.
  etransitivity; [exact H2|by apply checkHistory_evolves].
Qed.

(** ** The validator as a system *)

(** The disk with what the database told, the engine, the signatures made. *)
Record Validator := MkValidator { va_sys : Sys; va_eng : Engine; va_signatures : list (Z * Hash) }.

(** Between ticks anything the protection system allows may happen: a kill, a
    restart (with a new engine), a power loss, an import by the command line.
    With [synced_open] the protection file is durable whenever it is opened; the
    code does not see to that. *)
Inductive vstep (synced_open : bool) : Validator → Validator → Prop :=
| v_env s s' e e' sigs :
    step range_w synced_open s s' → (e' = e ∨ e' = new_engine) →
    vstep synced_open (MkValidator s e sigs) (MkValidator s' e' sigs)
| v_preflight w d db hist e sigs o st' :
    world_wf w → Preflight range_r range_w cfg w (MkSt e db d hist sigs) = (o, st') →
    vstep synced_open (MkValidator (MkSys d (Some db) hist) e sigs)
      (MkValidator (sys_of st') (st_eng st') (st_signatures st'))
| v_tick w d db hist e sigs st' :
    world_wf w → Tick cfg w (MkSt e db d hist sigs) = Ok st' →
    vstep synced_open (MkValidator (MkSys d (Some db) hist) e sigs)
      (MkValidator (sys_of st') (st_eng st') (st_signatures st')).

Definition v_init : Validator := MkValidator (MkSys (MkDisk None None) None []) new_engine [].

Lemma reachable_rtc s s' : reachable range_w true s → rtc (step range_w true) s s' → reachable range_w true s'.
Proof. intros Hs Hr. induction Hr as [|s1 s2 s3 Hst _ IH]; [done|]. apply IH. by eapply reach_step. Qed.

(** The database confirmed every signature that exists. *)
Definition all_confirmed (v : Validator) : Prop :=
  reachable range_w true (va_sys v) ∧
  ∀ h hash, (h, hash) ∈ va_signatures v → ∃ fresh, Signed (scope cfg) h hash fresh ∈ history (va_sys v).

Lemma evolves_confirmed st st' :
  evolves st st' → all_confirmed (MkValidator (sys_of st) (st_eng st) (st_signatures st)) →
  all_confirmed (MkValidator (sys_of st') (st_eng st') (st_signatures st')).
Proof.
  intros [Hr (new & E & Hn)] [Hs Hc]. split; [by eapply reachable_rtc|]. cbn. rewrite E.
  intros h hash Hin. apply elem_of_app in Hin as [Hin|Hin]; [by apply Hn|].
  destruct (Hc _ _ Hin) as [fresh Hf]. exists fresh. by apply (told_mono _ _ Hr).
Qed.

Lemma reachable_confirmed v : rtc (vstep true) v_init v → all_confirmed v.
Proof.
  assert (Hstep : ∀ v1 v2, vstep true v1 v2 → all_confirmed v1 → all_confirmed v2).
  { clear v. intros v1 v2 Hst Hc. destruct Hst as [s s' e e' sigs Hst _|w d db hist e sigs o st' Hw E|w d db hist e sigs st' Hw E].
    - destruct Hc as [Hr Hc]. split; [by eapply reach_step|]. intros h hash Hin.
      destruct (Hc _ _ Hin) as [fresh Hf]. exists fresh. by apply (told_mono s); [apply rtc_once|].
    - apply (evolves_confirmed (MkSt e db d hist sigs)); [|exact Hc].
      pose proof (Preflight_evolves w (MkSt e db d hist sigs) Hw) as Hev. by rewrite E in Hev.
    - apply (evolves_confirmed (MkSt e db d hist sigs)); [|exact Hc]. by apply (Tick_evolves w). }
  assert (H0 : all_confirmed v_init).
  { split; [apply reach_init|]. intros h hash Hin. by apply elem_of_nil in Hin. }
  intros Hr. revert H0. induction Hr as [|v1 v2 v3 H1 _ IH]; [done|]. intros H0. apply IH. by eapply Hstep.
Qed.
End Safety.

(** C3: the validator never signs a slashable pair, provided the protection file
    is durable whenever it is opened ([vstep true]; C37 shows that a run without
    this proviso may approve two hashes). In every such run of the whole sidecar,
    through any sequence of preflights and ticks against any answers of the node,
    the hub and the disk, kills, restarts and power losses, all signatures made
    for one checkpoint height are over the same block hash, and each of them was
    confirmed by the protection database. *)
Theorem engine_never_signs_twice `{Crypto} range_r range_w cfg v h a b :
  listing range_w → scope_wf (scope cfg) → rtc (vstep range_r range_w cfg true) v_init v →
  (h, a) ∈ va_signatures v → (h, b) ∈ va_signatures v →
  a = b ∧ ∃ fresh, Signed (scope cfg) h a fresh ∈ history (va_sys v).
Proof.
  intros Hl Hsc Hv Ha Hb. destruct (reachable_confirmed _ _ _ Hsc v Hv) as [Hr Hc].
  split; [|by apply Hc].
  destruct (reachable_ok _ Hl _ Hr) as [es Hok].
  destruct (vouched_holds _ _ (scope cfg) h a (so_history _ _ Hok)) as (ra & Ea & <-); [by left; apply Hc|].
  destruct (vouched_holds _ _ (scope cfg) h b (so_history _ _ Hok)) as (rb & Eb & <-); [by left; apply Hc|].
  congruence.
Qed.

(** ** A concrete sidecar *)

(** One seat on a chain at block 1070, whose checkpoint 1000 is due; every call succeeds. *)
Module Sidecar.
#[export] Existing Instance roll_crypto.

Definition sig : bytes := replicate 64 Byte.x01 ++ [Byte.x00].
Definition dom : Domain := MkDomain 31337 0xabc.
Definition addr : Address :=
  Eval vm_compute in match Recover dom 0 0 sig with Ok a => a | _ => 0 end.
Definition pol : Policy := MkPolicy 31337 1 (60 * Second) true.
Definition cfg : EngineConfig := MkEngineConfig addr (Some addr) dom DefaultSchedule pol false false 2.
Definition view : ChainView :=
  MkChainView (Ok 31337) (Ok (false, 0)) (Ok (1070, 5, 1700000000)) (Ok 3) (Ok false).
Definition seat : Seat := MkSeat StatusActive addr 0 0.
Definition attested (on : bool) : World :=
  MkWorld (1700000001 * Second) view (Ok [Byte.x01]) (Ok (Separator dom))
    (fun h b => Ok (Digest dom h b)) (Ok (MkKey 1 1 true)) (fun _ _ => Ok seat) (Ok (MkPool false))
    (fun _ => Ok 7) (fun _ _ => Ok on) (fun _ => Ok 0) (fun _ => Ok (0, false))
    (fun _ _ => Ok sig) (fun _ _ _ => Ok []) (fun _ _ => Ok 99) (fun _ => Ok None)
    (fun _ => io_ok) false.
Definition world : World := attested false.

Lemma attested_wf on : world_wf (attested on).
Proof.
  split; cbn.
  - split; vm_compute; discriminate || reflexivity.
  - intros n hash t [= <- _ _]. unfold is_u64, two64. lia.
  - intros _ hash [= <-]. unfold is_hash. lia.
  - intros _ hash [= <-]. unfold is_hash. lia.
  - intros _ _ s [= <-]. unfold is_u64, two64. cbn. lia.
Qed.

Lemma scope_cfg_wf : scope_wf (scope cfg).
Proof. unfold scope_wf, is_u64, is_address, two64. cbn. unfold addr. lia. Qed.

(** The database is created, the checks pass, the first tick attests. *)
Definition st0 : St :=
  match load load_ok (MkDisk None None) with
  | (Ok db, d) => MkSt new_engine db d [] []
  | (_, d) => MkSt new_engine fresh_db d [] []
  end.
Definition st1 : St := (Preflight map_to_list map_to_list cfg world st0).2.
Definition st2 : St := match Tick cfg world st1 with Ok st => st | _ => st1 end.
Definition running (st : St) : Validator := MkValidator (sys_of st) (st_eng st) (st_signatures st).

Lemma preflight_eq : Preflight map_to_list map_to_list cfg world st0 = (Passed, st1).
Proof.
  assert (Hp : (Preflight map_to_list map_to_list cfg world st0).1 = Passed) by (vm_compute; reflexivity).
  unfold st1. destruct (Preflight _ _ _ _ _) as [o st]. cbn [fst snd] in *. by rewrite Hp.
Qed.

Lemma tick_eq : Tick cfg world st1 = Ok st2.
Proof.
  assert (Hok : is_ok (Tick cfg world st1) = true) by (vm_compute; reflexivity).
  unfold st2. by destruct (Tick cfg world st1).
Qed.

Lemma signed : st_signatures st2 = [(1000, 7)].
Proof. vm_compute. reflexivity. Qed.

Lemma open_step : step map_to_list true (MkSys (MkDisk None None) None []) (sys_of st0).
Proof.
  pose proof (s_open map_to_list true load_ok (MkDisk None None) [] _ _ (fun _ => eq_refl)
    (surjective_pairing (load load_ok (MkDisk None None)))) as Hst.
  replace (sys_of st0) with (MkSys (load load_ok (MkDisk None None)).2
    (match (load load_ok (MkDisk None None)).1 with Ok db => Some db | _ => None end) []); [exact Hst|].
  vm_compute. reflexivity.
Qed.

Lemma run : rtc (vstep map_to_list map_to_list cfg true) v_init (running st2).
Proof.
  eapply rtc_l; [eapply v_env; [exact open_step|by left]|].
  eapply rtc_l; [|apply rtc_once].
  - assert (E : sys_of st0 = MkSys (st_disk st0) (Some (st_db st0)) []) by (vm_compute; reflexivity).
    rewrite E. eapply v_preflight; [apply (attested_wf false)|].
    replace (MkSt new_engine (st_db st0) (st_disk st0) [] []) with st0 by (vm_compute; reflexivity).
    exact preflight_eq.
  - apply v_tick with (w := world); [apply attested_wf|].
    replace (MkSt _ _ _ _ _) with st1 by (by destruct st1). exact tick_eq.
Qed.
End Sidecar.

Lemma engine_never_signs_twice_witness :
  (1000, 7) ∈ st_signatures Sidecar.st2 ∧ ∃ fresh, Signed (scope Sidecar.cfg) 1000 7 fresh ∈ st_told Sidecar.st2.
Proof.
  assert (Hin : (1000, 7) ∈ st_signatures Sidecar.st2) by (rewrite Sidecar.signed; left).
  split; [exact Hin|].
  apply (engine_never_signs_twice (H := roll_crypto) map_to_list map_to_list Sidecar.cfg (Sidecar.running Sidecar.st2) 1000 7 7);
    [intros m; reflexivity|exact Sidecar.scope_cfg_wf|exact Sidecar.run|exact Hin|exact Hin].
Defined.
