(* ===== verification/SchedulerTick.v ===== *)
(** * What one tick of the attestation engine may do

    When [Tick] makes a signature, what it does when it should, that a halted
    engine is silent, and that an attestation made elsewhere with the key halts
    it before the tick can sign. *)

From S2P Require Import Prelude Bytes Types Text Protect ProtectSafety Attest Node Scheduler SchedulerSafety.

Section Tick.
Context `{Crypto} (cfg : EngineConfig).

(** ** What [track] leaves alone *)

(** Everything but the jobs, the halt reason and the watch counter. *)
Definition outside (st : St) :=
  (st_db st, st_disk st, st_told st, st_signatures st,
   (seatID (st_eng st), seat (st_eng st), pool (st_eng st), activeFrom (st_eng st), startHead (st_eng st))).

(** [st'] differs from [st] in the jobs of [touched] only; a halt stays. *)
Record frame (touched : Z → Prop) (st st' : St) : Prop := {
  fr_outside : outside st' = outside st;
  fr_halted : ∀ e, halted (st_eng st) = Some e → halted (st_eng st') = Some e;
  fr_watch : watchLeft (st_eng st') ≤ watchLeft (st_eng st);
  fr_jobs : ∀ h, ¬ touched h → jobs (st_eng st') !! h = jobs (st_eng st) !! h
}.

#[local] Instance frame_refl P : Reflexive (frame P).
Proof. intros st. by split. Qed.

#[local] Instance frame_trans P : Transitive (frame P).
Proof.
  intros a b c [O1 H1 W1 J1] [O2 H2 W2 J2]. split; [congruence|eauto|lia|].
  intros h Hn. by rewrite J2, J1.
Qed.

Lemma frame_weaken (P Q : Z → Prop) st st' : (∀ h, P h → Q h) → frame P st st' → frame Q st st'.
Proof. intros HPQ [O Hh W J]. split; [done..|]. intros h Hn. apply J. by intros ?%HPQ. Qed.

Lemma frame_jobs h f st :
  (∀ h' (m : gmap Z job), h' ≠ h → f m !! h' = m !! h') →
  frame (eq h) st (on_eng (fun e => set_jobs (f (jobs e)) e) st).
Proof. intros Hf. split; [done..|]. intros h' Hn. apply Hf. congruence. Qed.

Lemma frame_save h j st : frame (eq h) st (save h j st).
Proof. apply (frame_jobs h (<[h := j]>)). intros h' m Hn. by rewrite lookup_insert_ne. Qed.

Lemma frame_delete h st : frame (eq h) st (on_eng (fun e => set_jobs (delete h (jobs e)) e) st).
Proof. apply (frame_jobs h (delete h)). intros h' m Hn. by rewrite lookup_delete_ne. Qed.

Lemma frame_halt P err st : frame P st (on_eng (halt err) st).
Proof.
  unfold on_eng, halt. destruct (halted (st_eng st)) eqn:E; split; cbn; try done. by rewrite E.
Qed.

Lemma frame_watch P st : frame P st (on_eng (fun e => set_watchLeft (watchLeft e - 1) e) st).
Proof. split; cbn; [done..|lia|done]. Qed.

Lemma audit_frame w h j st : frame (eq h) st (audit cfg w h j st).
Proof.
  pose proof (frame_save h) as Hs. unfold audit. destruct (negb _).
  { destruct (_ && _); [etransitivity; [apply Hs|apply frame_watch]|apply Hs]. }
  destruct (w_Attested _ _ _) as [on| |]; [|apply Hs..]. destruct (negb on).
  { destruct (_ && _); [etransitivity; [apply Hs|apply frame_watch]|apply Hs]. }
  destruct (Lookup _ _ _) as [local|]; [|etransitivity; [apply Hs|apply frame_halt]].
  destruct (w_Checkpoint w h) as [cp| |]; [|apply Hs..].
  destruct (negb (cp =? 0) && _); [etransitivity; [apply Hs|apply frame_halt]|].
  destruct (negb _); apply Hs.
Qed.

Lemma track_job_frame w head h st : frame (eq h) st (track_job cfg w head h st).
Proof.
  unfold track_job. destruct (jobs (st_eng st) !! h) as [j|]; [|done].
  generalize (follow w (Closed (Sched cfg) h head) j). intros j1.
  set (st1 := if done j1 && _ && _ then _ else _).
  assert (H1 : frame (eq h) st st1).
  { transitivity (save h j1 st); [apply frame_save|]. unfold st1.
    destruct (_ && _); [apply audit_frame|done]. }
  clearbody st1. transitivity st1; [exact H1|].
  destruct (jobs (st_eng st1) !! h) as [j2|]; [|done].
  destruct (_ && _); [apply frame_delete|done].
Qed.

Definition track_jobs (w : World) (head : Z) (l : list Z) (st : St) : St :=
  foldl (fun st h => track_job cfg w head h st) st l.

Lemma track_jobs_frame w head l st : frame (.∈ l) st (track_jobs w head l st).
Proof.
  revert st. induction l as [|h l IH]; intros st; [done|]. cbn.
  transitivity (track_job cfg w head h st).
  - eapply frame_weaken, track_job_frame. intros h' <-. left.
  - eapply frame_weaken, IH. intros h' Hin. by right.
Qed.

Lemma track_missing_frame w head last i st :
  frame (eq (sub64 last (mul64 i (s_Interval (Sched cfg))))) st (track_missing cfg w head last i st).
Proof.
  unfold track_missing. destruct (negb _); [done|]. destruct (_ || _); [done|].
  etransitivity; [apply frame_save|apply audit_frame].
Qed.

Lemma track_frame w head st st' : track cfg w head st = Ok st' → frame (λ _, True) st st'.
Proof.
  unfold track. fold (track_jobs w head (merge_sort Z.le (fst <$> map_to_list (jobs (st_eng st)))) st).
  set (l := merge_sort _ _). intros E.
  transitivity (track_jobs w head l st); [by eapply frame_weaken, track_jobs_frame|].
  revert E. generalize (track_jobs w head l st). intros st1 E.
  destruct (_ || _); [by apply Ok_inj in E as <-|].
  apply bind_ok in E as (q & _ & E). apply Ok_inj in E as <-.
  etransitivity; eapply frame_weaken; try apply track_missing_frame; done.
Qed.

Lemma refresh_halted w head e : halted (refresh cfg w head e) = halted e.
Proof.
  unfold refresh. destruct (_ && _); [done|]. destruct (w_KeyInfo w) as [k| |]; [|done..].
  destruct (negb (IsAttester k)); [done|].
  destruct (w_Seat w _ _) as [s| |]; [|done..]. destruct (w_Pool w) as [p| |]; [|done..].
  destruct (negb _); [done|]. by destruct (_ && _).
Qed.

(** ** When a signature is made *)

Lemma Approve_recorded io now sc h hash db d fresh db' d' :
  Approve io now sc h hash db d = (Ok fresh, db', d') → hash ≠ 0 ∧ Lookup sc h db' = Some hash.
Proof.
  unfold Approve, Lookup. destruct (Z.eqb_spec hash 0) as [|Hne]; [done|]. intros E. split; [done|].
  destruct (records db !! (sc, h)) as [prev|] eqn:Er.
  { destruct (Z.eqb_spec (r_BlockHash prev) hash) as [<-|]; [|done]. injection E as _ <- _. by rewrite Er. }
  destruct (match watermarks db !! sc with Some _ => _ | None => _ end); [done|].
  destruct (appendDurable _ _ _ _) as [[[e|] db1] d1]; [done|]. injection E as _ <- _.
  cbn. by rewrite lookup_insert_eq.
Qed.

Lemma Approve_accepts now sc h hash db d :
  db_open db = true → broken db = false → hash ≠ 0 →
  Lookup sc h db = Some hash ∨ (Lookup sc h db = None ∧ ∀ wm, watermarks db !! sc = Some wm → wm < h) →
  ∃ fresh db' d', Approve io_ok now sc h hash db d = (Ok fresh, db', d') ∧ Lookup sc h db' = Some hash.
Proof.
  intros Ho Hb Hne Hlk.
  assert (He : ∃ fresh db' d', Approve io_ok now sc h hash db d = (Ok fresh, db', d')).
  { unfold Approve. destruct (Z.eqb_spec hash 0); [done|]. unfold Lookup in Hlk.
    destruct (records db !! (sc, h)) as [prev|].
    { destruct Hlk as [[= ->]|[? _]]; [|done]. rewrite Z.eqb_refl. eauto. }
    destruct Hlk as [?|[_ Hwm]]; [done|].
    destruct (append_total (line (A1_body sc h hash now)) db d Ho Hb) as [d' Ed].
    destruct (watermarks db !! sc) as [wm|].
    - destruct (Z.leb_spec h wm); [specialize (Hwm wm eq_refl); lia|]. rewrite Ed. eauto.
    - rewrite Ed. eauto. }
  destruct He as (fresh & db' & d' & E). exists fresh, db', d'. split; [done|]. by eapply Approve_recorded.
Qed.

(** The conditions under which [handle] signs [hash] at [h]. *)
Record may_sign (w : World) (h : Z) (hash : Hash) (ready : bool) (e : Engine) : Prop := {
  ms_ready : ready = true;
  ms_halted : halted e = None;
  ms_watch : watchLeft e ≤ 0;
  ms_seat : canSign cfg e = true;
  ms_header : w_HeaderAt w h = Ok hash;
  ms_nonzero : hash ≠ 0;
  ms_attested : w_Attested w (seatID e) h = Ok false;
  ms_job : ∀ j, jobs e !! h = Some j → done j = false ∧ sent j = false
}.

(** One more signature, recorded in the database. *)
Definition signs (h : Z) (hash : Hash) (st st' : St) : Prop :=
  st_signatures st' = (h, hash) :: st_signatures st ∧ Lookup (scope cfg) h (st_db st') = Some hash.

Lemma sign_and_submit_signs w h hash j st :
  st_signatures (sign_and_submit cfg w h hash j st) = st_signatures st ∨
  signs h hash st (sign_and_submit cfg w h hash j st).
Proof.
  unfold sign_and_submit. destruct (db_Approve _ _ _ _ _ _) as [r st1] eqn:Ea.
  assert (H1 : st_signatures st1 = st_signatures st ∧
               ∀ fresh, r = Ok fresh → Lookup (scope cfg) h (st_db st1) = Some hash).
  { unfold db_Approve in Ea. destruct (Approve _ _ _ _ _ _ _) as [[r0 db1] d1] eqn:E.
    injection Ea as <- <-. split; [done|]. intros fresh ->. by eapply Approve_recorded. }
  destruct H1 as [Hs Hl].
  destruct r as [fresh|e|]; [|destruct (is_ErrConflict e); [by left|by destruct (is_ErrBelowWatermark e); left]|by left].
  destruct (w_Sign w h hash) as [sig| |]; [|by left..]. right. unfold signs. rewrite <- Hs.
  specialize (Hl fresh eq_refl). destruct (match Recover _ _ _ _ with Ok got => _ | _ => _ end); [|by split].
  destruct (w_PackAttest w h hash sig) as [data| |]; [|by split..].
  destruct (w_Submit w h data) as [tx| |]; [by split|by destruct (5 <=? _); split..].
Qed.

Lemma self_check_signs w h hash j st : st_signatures (self_check cfg w h hash j st) = st_signatures st.
Proof.
  unfold self_check. destruct (Lookup _ _ _) as [local|]; [by destruct (local =? hash)|].
  destruct (w_AttesterSince _ _) as [[since rotated]| |]; [by destruct (rotated && _)|done..].
Qed.

Lemma handle_signs w h ready st :
  st_signatures (handle cfg w h ready st) = st_signatures st ∨
  ∃ hash, may_sign w h hash ready (st_eng st) ∧ signs h hash st (handle cfg w h ready st).
Proof.
  unfold handle. set (j := default new_job _). set (st1 := save h j st).
  destruct (done j || sent j) eqn:Ej; [by left|]. destruct (bool_decide (halted _ ≠ None)) eqn:Eh; [by left|].
  destruct (Z.ltb_spec 0 (watchLeft (st_eng st1))) as [|Hw].
  { left. destruct (negb (watched j) && _); [done|]. by destruct (negb (watched j) && _). }
  destruct (negb ready) eqn:Er; [by left|]. destruct (negb (canSign _ _)) eqn:Ec; [by left|].
  destruct (w_HeaderAt w h) as [hash| |] eqn:Ehd; [|by left..].
  destruct (Z.eqb_spec hash 0) as [|Hne]; [by left|].
  destruct (w_Attested _ _ _) as [[]| |] eqn:Ea; [left; by rewrite self_check_signs| |by left..].
  destruct (sign_and_submit_signs w h hash j st1) as [Hs|Hs]; [by left|]. right. exists hash.
  split; [|exact Hs]. apply orb_false_iff in Ej as [Ed Es].
  apply bool_decide_eq_false in Eh. apply negb_false_iff in Er, Ec.
  split; try done.
  - cbn in Eh. destruct (halted (st_eng st)); [by destruct Eh|done].
  - intros j' Hj'. unfold j in Ed, Es. by rewrite Hj' in Ed, Es.
Qed.
End Tick.

(** C4: the engine signs only what it should. It takes a schedule that passes
    [Validate] and whose margin does not wrap when the delay is added to it
    ([schedule_ok]; [Validate] adds in uint64, and [Validate_margin_wraps] shows a
    schedule it accepts whose [Due] names a closed checkpoint), and a head more
    than 256 below 2^64. Then a tick makes at most one signature, and only over
    the hash its own synced node on the right chain reports, under the 64-block
    reorg cap, for a checkpoint that is 64 blocks deep and still includable; the
    engine is not halted and not watching, the seat is its own, active and not
    paused, the hub has no attestation yet, and the protection database holds the
    hash when the signature comes to exist. *)
Theorem Tick_signs_only_final `{Crypto} cfg w st st' :
  schedule_ok (Sched cfg) → world_wf w → r_Head (Check_ready (w_view w) (Pol cfg) (w_now w)) + 256 < two64 →
  Tick cfg w st = Ok st' →
  st_signatures st' = st_signatures st ∨
  ∃ n head_hash time h hash st1,
    v_ChainID (w_view w) = Ok (p_ChainID (Pol cfg)) ∧
    (∃ t, v_SyncProgress (w_view w) = Ok (false, t)) ∧ v_DeepReorg (w_view w) = Ok false ∧
    v_Head (w_view w) = Ok (n, head_hash, time) ∧ signable (Sched cfg) n h ∧ h ≤ n - 64 ∧
    track cfg w n (on_eng (refresh cfg w n) st) = Ok st1 ∧ may_sign cfg w h hash true (st_eng st1) ∧
    halted (st_eng st) = None ∧ signs cfg h hash st st'.
Proof.
  intros Hok Hw Hlt E. unfold Tick in E. set (r := Check_ready _ _ _) in *.
  destruct (Z.eqb_spec (r_Head r) 0) as [|H0]; [left; by apply Ok_inj in E as <-|].
  apply bind_ok in E as (st1 & Et & E). apply bind_ok in E as (due & Ed & E).
  destruct (track_frame _ _ _ _ _ Et) as [Ho Hh Hwl _].
  assert (Hs1 : st_signatures st1 = st_signatures st) by (by injection Ho).
  destruct due as [h|]; apply Ok_inj in E as <-; [|by left].
  destruct (handle_signs cfg w h (r_Ready r) st1) as [Hs|(hash & Hm & Hs)]; [left; congruence|right].
  pose proof (ms_ready _ _ _ _ _ _ Hm) as Hready. rewrite Hready in Hm.
  pose proof (proj1 (Check_ready_iff _ _ _) Hready) as (Hid & Hsync & (n & hh & time & Ehd & _ & En & _) & _ & _ & Hcap).
  fold r in En. rewrite En in *.
  assert (Hn : 0 ≤ n) by (by destruct (ww_head _ Hw _ _ _ Ehd)).
  assert (Hsg : signable (Sched cfg) n h) by (apply Due_signable; [done|done|lia|done]).
  destruct (Validate_bounds _ Hok) as (_ & Hmin & _).
  exists n, hh, time, h, hash, st1.
  repeat (split; [done|]). split; [destruct Hsg as (_ & _ & Hd & _); lia|]. repeat (split; [done|]). split.
  - pose proof (ms_halted _ _ _ _ _ _ Hm) as Hnone. cbn in Hh. rewrite refresh_halted in Hh.
    destruct (halted (st_eng st)) as [e|]; [|done]. by rewrite (Hh e eq_refl) in Hnone.
  - destruct Hs as [Hs Hl]. split; [by rewrite Hs, Hs1|done].
Qed.

Section Foreign.
Context `{Crypto} (cfg : EngineConfig) (w : World).

(** The chain holds an attestation of the seat at [h] that this machine cannot
    have made: it has no record of [h], or one with another hash. *)
Definition foreign (db : DB) (seat : Z) (h : Z) : Prop :=
  w_Attested w seat h = Ok true ∧
  match Lookup (scope cfg) h db with
  | None => True
  | Some local => ∃ cp, w_Checkpoint w h = Ok cp ∧ cp ≠ 0 ∧ cp ≠ local
  end.

(** [h] is audited at [head]: its job is waiting for the audit, or there is none
    and it is one of the last two checkpoints that closed while the engine ran. *)
Definition up_for_audit (head : Z) (e : Engine) (h : Z) : Prop :=
  Closed (Sched cfg) h head = true ∧
  match jobs e !! h with
  | Some j => audited j = false ∧ (done j = true ∨ sent j = false)
  | None =>
      let last := (head - s_MaxDelay (Sched cfg) - 1) / s_Interval (Sched cfg) * s_Interval (Sched cfg) in
      0 < h ∧ startHead e ≤ add64 h (s_MaxDelay (Sched cfg)) ∧
      (h = last ∨ h = last - s_Interval (Sched cfg))
  end.

Lemma halt_halts err e : halted (halt err e) ≠ None.
Proof. unfold halt. destruct (halted e) eqn:E; [by rewrite E|done]. Qed.

Lemma audit_foreign h j st :
  auditable cfg (st_eng st) h = true → foreign (st_db st) (seatID (st_eng st)) h →
  halted (st_eng (audit cfg w h j st)) ≠ None.
Proof.
  intros Ha [Hon Hf]. unfold audit. rewrite Ha, Hon. cbn [negb].
  destruct (Lookup _ _ _) as [local|]; [|apply halt_halts].
  destruct Hf as (cp & -> & H0 & Hne). destruct (Z.eqb_spec cp 0), (Z.eqb_spec cp local); try done.
  cbn [negb andb]. apply halt_halts.
Qed.

(** The audit's conditions only read what [track] leaves alone. *)
Lemma auditable_outside st st' h :
  outside st' = outside st → auditable cfg (st_eng st') h = auditable cfg (st_eng st) h.
Proof. intros Ho. injection Ho as _ _ _ _ E1 E2 _ E3 _. unfold auditable. by rewrite E1, E2, E3. Qed.

Lemma foreign_outside st st' h :
  outside st' = outside st → foreign (st_db st) (seatID (st_eng st)) h →
  foreign (st_db st') (seatID (st_eng st')) h.
Proof. intros Ho. injection Ho as E1 _ _ _ E2 _ _ _ _. by rewrite E1, E2. Qed.

Lemma follow_done closed j :
  closed = true → done j = true ∨ sent j = false →
  done (follow w closed j) = true ∧ audited (follow w closed j) = audited j.
Proof.
  intros -> Hj. unfold follow. destruct (done j) eqn:Ed.
  - rewrite andb_false_r. cbn [negb andb]. done.
  - destruct Hj as [|Hs]; [done|]. rewrite Hs. done.
Qed.

Lemma track_job_foreign head h j st :
  jobs (st_eng st) !! h = Some j → audited j = false → done j = true ∨ sent j = false →
  Closed (Sched cfg) h head = true → auditable cfg (st_eng st) h = true →
  foreign (st_db st) (seatID (st_eng st)) h →
  halted (st_eng (track_job cfg w head h st)) ≠ None.
Proof.
  intros Ej Hau Hd Hc Ha Hf. unfold track_job. rewrite Ej.
  destruct (follow_done _ j Hc Hd) as [Fd Fa]. rewrite Fd, Fa, Hau, Hc. cbn [negb andb].
  rewrite Hc in Fd, Fa. revert Fd Fa. generalize (follow w true j). intros j1 _ _.
  assert (Hh : halted (st_eng (audit cfg w h j1 (save h j1 st))) ≠ None).
  { apply audit_foreign; [|by apply (foreign_outside st)]. by rewrite (auditable_outside st). }
  revert Hh. generalize (audit cfg w h j1 (save h j1 st)). intros st1 Hh.
  destruct (jobs (st_eng st1) !! h) as [j2|]; [|done]. by destruct (_ && _).
Qed.

Lemma frame_halts P st st' : frame P st st' → halted (st_eng st) ≠ None → halted (st_eng st') ≠ None.
Proof. intros [_ Hh _ _] Hn. destruct (halted (st_eng st)) as [e|]; [|done]. by rewrite (Hh e eq_refl). Qed.

Lemma track_jobs_foreign head l h j st :
  h ∈ l → NoDup l → jobs (st_eng st) !! h = Some j → audited j = false → done j = true ∨ sent j = false →
  Closed (Sched cfg) h head = true → auditable cfg (st_eng st) h = true →
  foreign (st_db st) (seatID (st_eng st)) h →
  halted (st_eng (track_jobs cfg w head l st)) ≠ None.
Proof.
  intros Hin Hnd Ej Hau Hd Hc Ha Hf. revert st Ej Ha Hf.
  induction Hnd as [|h' l Hn Hnd IH]; intros st Ej Ha Hf; [by apply elem_of_nil in Hin|].
  cbn. pose proof (track_job_frame cfg w head h' st) as Hfr.
  destruct (decide (h' = h)) as [->|Hne].
  { apply (frame_halts _ _ _ (track_jobs_frame cfg w head l _)). by eapply track_job_foreign. }
  apply elem_of_cons in Hin as [->|Hin]; [done|]. apply IH; [done| | |].
  - by rewrite (fr_jobs _ _ _ Hfr).
  - by rewrite (auditable_outside st) by apply (fr_outside _ _ _ Hfr).
  - apply (foreign_outside st); [apply (fr_outside _ _ _ Hfr)|done].
Qed.

Lemma track_missing_foreign head last i h st :
  h = sub64 last (mul64 i (s_Interval (Sched cfg))) → mul64 i (s_Interval (Sched cfg)) ≤ last →
  h ≠ 0 → jobs (st_eng st) !! h = None → Closed (Sched cfg) h head = true →
  startHead (st_eng st) ≤ add64 h (s_MaxDelay (Sched cfg)) →
  auditable cfg (st_eng st) h = true → foreign (st_db st) (seatID (st_eng st)) h →
  halted (st_eng (track_missing cfg w head last i st)) ≠ None.
Proof.
  intros -> Hle H0 Ej Hc Hs Ha Hf. unfold track_missing. set (h := sub64 _ _) in *.
  destruct (Z.leb_spec (mul64 i (s_Interval (Sched cfg))) last); [|lia]. cbn [negb].
  destruct (Z.eqb_spec h 0); [done|]. rewrite Ej, bool_decide_false by naive_solver.
  rewrite Hc. destruct (Z.ltb_spec (add64 h (s_MaxDelay (Sched cfg))) (startHead (st_eng st))); [lia|].
  cbn [negb orb]. apply audit_foreign; [|by apply (foreign_outside st)]. by rewrite (auditable_outside st).
Qed.

Lemma heights_spec (m : gmap Z job) h :
  h ∈ merge_sort Z.le (fst <$> map_to_list m) ↔ is_Some (m !! h).
Proof.
  rewrite merge_sort_Permutation, list_elem_of_fmap. split.
  - intros ([h' j] & -> & Hin). apply elem_of_map_to_list in Hin. eauto.
  - intros [j Hj]. exists (h, j). split; [done|]. by apply elem_of_map_to_list.
Qed.

(** The second loop in plain arithmetic. *)
Lemma track_eq head st :
  schedule_ok (Sched cfg) → is_u64 head → seatID (st_eng st) ≠ 0 → s_MaxDelay (Sched cfg) < head →
  let s := Sched cfg in
  let last := (head - s_MaxDelay s - 1) / s_Interval s * s_Interval s in
  let st1 := track_jobs cfg w head (merge_sort Z.le (fst <$> map_to_list (jobs (st_eng st)))) st in
  track cfg w head st = Ok (track_missing cfg w head last 1 (track_missing cfg w head last 0 st1)).
Proof.
  intros Hok Hh Hs Hm s last st1. destruct (Validate_bounds _ Hok) as (Hi & Hmin & _ & Hx & _).
  unfold track. fold (track_jobs cfg w head (merge_sort Z.le (fst <$> map_to_list (jobs (st_eng st)))) st).
  fold st1. assert (Ho : outside st1 = outside st) by apply (fr_outside _ _ _ (track_jobs_frame cfg w head _ st)).
  injection Ho as _ _ _ _ -> _ _ _ _.
  destruct (Z.eqb_spec (seatID (st_eng st)) 0); [done|].
  destruct (Z.leb_spec head (s_MaxDelay (Sched cfg))); [lia|]. cbn [orb].
  fold s in Hm, Hi, Hx, Hok |- *. unfold is_u64 in Hh.
  assert (Hx0 : 0 ≤ s_MaxDelay s) by (destruct Hok; unfold is_u64 in *; lia).
  assert (Hd : 0 ≤ head - s_MaxDelay s - 1 < two64) by lia.
  rewrite (sub64_small head) by (unfold is_u64; lia). rewrite sub64_small by (unfold is_u64; lia).
  unfold div64. destruct (Z.eqb_spec (s_Interval s) 0); [lia|]. cbn [mbind result_bind].
  replace (mul64 _ _) with last; [done|]. unfold last. rewrite mul64_small; [done|].
  pose proof (Z.mul_div_le (head - s_MaxDelay s - 1) (s_Interval s)).
  pose proof (Z.div_pos (head - s_MaxDelay s - 1) (s_Interval s)). unfold is_u64. nia.
Qed.

(** A job waiting for its audit. *)
Lemma track_foreign_job head h j st :
  schedule_ok (Sched cfg) → jobs (st_eng st) !! h = Some j → audited j = false →
  done j = true ∨ sent j = false → Closed (Sched cfg) h head = true →
  auditable cfg (st_eng st) h = true → foreign (st_db st) (seatID (st_eng st)) h →
  ∃ st', track cfg w head st = Ok st' ∧ halted (st_eng st') ≠ None.
Proof.
  intros Hok Ej Hau Hd Hc Ha Hf. destruct (Validate_bounds _ Hok) as (Hi & _).
  set (l := merge_sort Z.le (fst <$> map_to_list (jobs (st_eng st)))).
  assert (Hj : halted (st_eng (track_jobs cfg w head l st)) ≠ None).
  { eapply track_jobs_foreign; try done; [by apply heights_spec|].
    unfold l. rewrite merge_sort_Permutation. apply NoDup_fst_map_to_list. }
  unfold track. fold l. fold (track_jobs cfg w head l st). destruct (_ || _); [eauto|].
  unfold div64. destruct (Z.eqb_spec (s_Interval (Sched cfg)) 0); [lia|]. cbn [mbind result_bind].
  eexists. split; [done|]. do 2 (eapply frame_halts; [apply track_missing_frame|]). exact Hj.
Qed.

(** The two rounds of the second loop, after a first loop that left [h] alone. *)
Lemma track_missing_both head last h st :
  schedule_ok (Sched cfg) → 0 < h → last < two64 → (h = last ∨ h = last - s_Interval (Sched cfg)) →
  jobs (st_eng st) !! h = None → Closed (Sched cfg) h head = true →
  startHead (st_eng st) ≤ add64 h (s_MaxDelay (Sched cfg)) →
  auditable cfg (st_eng st) h = true → foreign (st_db st) (seatID (st_eng st)) h →
  halted (st_eng (track_missing cfg w head last 1 (track_missing cfg w head last 0 st))) ≠ None.
Proof.
  intros Hok Hpos Hl Hlast Ej Hc Hst Ha Hf. destruct (Validate_bounds _ Hok) as (Hi & _).
  assert (E0 : mul64 0 (s_Interval (Sched cfg)) = 0) by done.
  assert (E1 : mul64 1 (s_Interval (Sched cfg)) = s_Interval (Sched cfg)).
  { destruct Hok. rewrite mul64_small; rewrite Z.mul_1_l; done. }
  destruct (decide (h = last)) as [Hhl|Hne].
  - eapply frame_halts; [apply track_missing_frame|].
    apply (track_missing_foreign _ _ _ h); try done; [|rewrite E0; lia|lia].
    by rewrite E0, sub64_small, Z.sub_0_r by (unfold is_u64; lia).
  - pose proof (track_missing_frame cfg w head last 0 st) as Hfr.
    rewrite E0, sub64_small, Z.sub_0_r in Hfr by (unfold is_u64; lia).
    revert Hfr. generalize (track_missing cfg w head last 0 st). intros st2 [Ho _ _ Hj].
    apply (track_missing_foreign _ _ _ h); [|rewrite E1; lia|lia| |done| | |].
    + rewrite E1, sub64_small by (unfold is_u64; lia). lia.
    + rewrite Hj; [done|]. lia.
    + by injection Ho as _ _ _ _ _ _ _ _ ->.
    + by rewrite (auditable_outside st).
    + by apply (foreign_outside st).
Qed.

Lemma track_foreign head h st :
  schedule_ok (Sched cfg) → is_u64 head → auditable cfg (st_eng st) h = true →
  up_for_audit head (st_eng st) h → foreign (st_db st) (seatID (st_eng st)) h →
  ∃ st', track cfg w head st = Ok st' ∧ halted (st_eng st') ≠ None.
Proof.
  intros Hok Hh Ha [Hc Hup] Hf. destruct (Validate_bounds _ Hok) as (Hi & Hmin & Hm & Hx & Hg).
  destruct (jobs (st_eng st) !! h) as [j|] eqn:Ej; [destruct Hup; by eapply track_foreign_job|].
  destruct Hup as (Hpos & Hst & Hlast).
  assert (Hs : seatID (st_eng st) ≠ 0).
  { intros E0. unfold auditable in Ha. by rewrite E0 in Ha. }
  set (last := (head - s_MaxDelay (Sched cfg) - 1) / s_Interval (Sched cfg) * s_Interval (Sched cfg)) in *.
  assert (Hl : 0 < last ≤ head - s_MaxDelay (Sched cfg) - 1).
  { split; [lia|]. unfold last. rewrite Z.mul_comm. apply Z.mul_div_le. lia. }
  unfold is_u64 in Hh. rewrite (track_eq head st Hok Hh Hs) by lia. fold last.
  set (l := merge_sort Z.le (fst <$> map_to_list (jobs (st_eng st)))).
  destruct (track_jobs_frame cfg w head l st) as [Ho _ _ Hj].
  eexists. split; [done|]. apply (track_missing_both _ _ h); try done; [lia| | | |].
  - rewrite Hj; [done|]. unfold l. rewrite heights_spec, Ej. by intros [? ?].
  - by injection Ho as _ _ _ _ _ _ _ _ ->.
  - by rewrite (auditable_outside st).
  - by apply (foreign_outside st).
Qed.
End Foreign.

(** A key in use elsewhere stops the engine before it signs. If the chain
    shows an attestation of the seat, at a checkpoint that this key must have
    made and that is due for its audit, and this machine has no record of it or
    recorded another hash, then the tick halts the engine and makes no
    signature. *)
Theorem foreign_attestation_halts `{Crypto} cfg w st h :
  schedule_ok (Sched cfg) → world_wf w →
  let head := r_Head (Check_ready (w_view w) (Pol cfg) (w_now w)) in
  let e := refresh cfg w head (st_eng st) in
  head ≠ 0 → auditable cfg e h = true → up_for_audit cfg head e h → foreign cfg w (st_db st) (seatID e) h →
  ∃ st', Tick cfg w st = Ok st' ∧ halted (st_eng st') ≠ None ∧ st_signatures st' = st_signatures st.
Proof.
  intros Hok Hw head e H0 Ha Hup Hf.
  assert (Hh : is_u64 head).
  { unfold head, Check_ready. destruct (v_ChainID _); [|done..].
    destruct (v_Head (w_view w)) as [[[n hh] t]| |] eqn:E; [|done..]. by eapply ww_head. }
  destruct (track_foreign cfg w head h (on_eng (refresh cfg w head) st) Hok Hh Ha Hup Hf) as (st1 & Et & Hn).
  unfold Tick. fold head. destruct (Z.eqb_spec head 0); [done|]. rewrite Et. cbn [mbind result_bind].
  assert (Hs : st_signatures st1 = st_signatures st).
  { destruct (track_frame _ _ _ _ _ Et) as [Ho _ _ _]. by injection Ho. }
  destruct (Due_total (Sched cfg) head Hok) as [due Ed]. rewrite Ed. cbn [mbind result_bind].
  destruct due as [h'|]; [|eauto]. eexists. split; [done|]. unfold handle.
  destruct (done _ || sent _); [done|]. rewrite bool_decide_true by done. done.
Qed.

(** A stopped engine stays stopped. Once halted, whatever the node, the hub
    and the disk answer, a tick keeps the first halt reason, makes no signature,
    and touches neither the protection database nor its file. *)
Theorem halted_engine_never_signs `{Crypto} cfg w st st' reason :
  halted (st_eng st) = Some reason → Tick cfg w st = Ok st' →
  halted (st_eng st') = Some reason ∧ st_signatures st' = st_signatures st ∧
  st_db st' = st_db st ∧ st_disk st' = st_disk st.
Proof.
  intros Hh E. unfold Tick in E. destruct (_ =? 0); [by apply Ok_inj in E as <-|].
  apply bind_ok in E as (st1 & Et & E). apply bind_ok in E as (due & _ & E).
  destruct (track_frame _ _ _ _ _ Et) as [Ho Hh1 _ _]. injection Ho as Hdb Hd _ Hs _ _ _ _ _.
  cbn in Hh1. rewrite refresh_halted in Hh1. specialize (Hh1 _ Hh).
  destruct due as [h|]; apply Ok_inj in E as <-; [|done].
  unfold handle. destruct (done _ || sent _); [done|].
  rewrite bool_decide_true by (cbn; by rewrite Hh1). done.
Qed.

(** C39: the engine does attest. When the node is ready, a checkpoint is due, the
    conditions to sign hold after the tick's bookkeeping, the protection database
    is usable and does not refuse the hash, and the key, the hub's packing and
    the submitter work, one tick signs exactly that hash, leaves it recorded, and
    marks the checkpoint as submitted with its transaction. *)
Theorem Tick_attests_due `{Crypto} cfg w st st1 h hash sig data tx :
  let r := Check_ready (w_view w) (Pol cfg) (w_now w) in
  r_Head r ≠ 0 → Due (Sched cfg) (r_Head r) = Ok (Some h) →
  track cfg w (r_Head r) (on_eng (refresh cfg w (r_Head r)) st) = Ok st1 →
  may_sign cfg w h hash (r_Ready r) (st_eng st1) →
  db_open (st_db st) = true → broken (st_db st) = false → w_io w 0 = io_ok →
  (Lookup (scope cfg) h (st_db st) = Some hash ∨
   Lookup (scope cfg) h (st_db st) = None ∧ ∀ wm, watermarks (st_db st) !! scope cfg = Some wm → wm < h) →
  w_Sign w h hash = Ok sig → Recover (Dom cfg) h hash sig = Ok (Addr cfg) →
  w_PackAttest w h hash sig = Ok data → w_Submit w h data = Ok tx →
  ∃ st' j, Tick cfg w st = Ok st' ∧ signs cfg h hash st st' ∧
    jobs (st_eng st') !! h = Some j ∧ sent j = true ∧ done j = false ∧
    j_State j = StateSubmitted ∧ j_Tx j = tx ∧ j_BlockHash j = hash.
Proof.
  intros r H0 Hd Ht [Hr Hh Hw Hc Hhd Hne Ha Hj] Ho Hb Hio Hlk Hsig Hrec Hpack Hsub.
  unfold Tick. fold r. destruct (Z.eqb_spec (r_Head r) 0); [done|]. rewrite Ht. cbn [mbind result_bind].
  rewrite Hd. cbn [mbind result_bind]. destruct (track_frame _ _ _ _ _ Ht) as [Hout _ _ _].
  injection Hout as Edb Ed _ Es _ _ _ _ _. cbn in Edb, Ed, Es. rewrite Hr.
  set (j := default new_job (jobs (st_eng st1) !! h)).
  assert (Hj0 : done j = false ∧ sent j = false).
  { unfold j. destruct (jobs (st_eng st1) !! h) as [j0|]; [by apply Hj|done]. }
  destruct Hj0 as [Hj1 Hj2].
  eexists _, (put StateSubmitted (set_sent tx (set_BlockHash hash j))). split; [done|].
  unfold handle. fold j. rewrite Hj1, Hj2. cbn [orb]. set (st2 := save h j st1).
  change (halted (st_eng st2)) with (halted (st_eng st1)). rewrite Hh.
  change (watchLeft (st_eng st2)) with (watchLeft (st_eng st1)). cbn [bool_decide].
  rewrite bool_decide_false by naive_solver. destruct (Z.ltb_spec 0 (watchLeft (st_eng st1))); [lia|].
  change (canSign cfg (st_eng st2)) with (canSign cfg (st_eng st1)). rewrite Hc. cbn [negb]. rewrite Hhd.
  destruct (Z.eqb_spec hash 0); [done|]. change (seatID (st_eng st2)) with (seatID (st_eng st1)). rewrite Ha.
  assert (Happ : ∃ fresh st3, db_Approve cfg (w_io w 0) (w_unix w) h hash st2 = (Ok fresh, st3) ∧
    st_signatures st3 = st_signatures st ∧ Lookup (scope cfg) h (st_db st3) = Some hash ∧ st_eng st3 = st_eng st2).
  { unfold db_Approve. change (st_db st2) with (st_db st1). change (st_disk st2) with (st_disk st1).
    rewrite Edb, Ed, Hio. destruct (Approve_accepts (w_unix w) (scope cfg) h hash (st_db st) (st_disk st))
      as (fresh & db' & d' & E & Hl); [done..|]. rewrite E. eexists fresh, _. split; [done|]. cbn. by rewrite Es. }
  destruct Happ as (fresh & st3 & E3 & Es3 & El3 & Ee3). unfold sign_and_submit. rewrite E3, Hsig, Hrec, Z.eqb_refl, Hpack, Hsub.
  split; [split; [cbn; by rewrite Es3|exact El3]|]. cbn. rewrite lookup_insert_eq. done.
Qed.

(** ** Concrete ticks *)

Module Ticks.
Import Sidecar.

Definition bookkept : St :=
  match track cfg world 1070 (on_eng (refresh cfg world 1070) st1) with Ok st => st | _ => st1 end.

Lemma bookkept_eq : track cfg world 1070 (on_eng (refresh cfg world 1070) st1) = Ok bookkept.
Proof.
  assert (Hok : is_ok (track cfg world 1070 (on_eng (refresh cfg world 1070) st1)) = true) by (vm_compute; reflexivity).
  unfold bookkept. by destruct (track cfg world 1070 _).
Qed.

Lemma bookkept_may_sign : may_sign cfg world 1000 7 true (st_eng bookkept).
Proof.
  split; try (vm_compute; reflexivity); [vm_compute; discriminate|done|].
  assert (E : jobs (st_eng bookkept) !! 1000 = None) by (vm_compute; reflexivity).
  intros j Hj. by rewrite E in Hj.
Qed.

Lemma st1_usable :
  db_open (st_db st1) = true ∧ broken (st_db st1) = false ∧
  Lookup (scope cfg) 1000 (st_db st1) = None ∧ watermarks (st_db st1) !! scope cfg = None.
Proof. vm_compute. done. Qed.

Lemma recovers : Recover dom 1000 7 sig = Ok addr.
Proof. vm_compute. reflexivity. Qed.

(** Later the same key attested 1000 from somewhere else. *)
Definition later : World :=
  MkWorld (1700001611 * Second)
    (MkChainView (Ok 31337) (Ok (false, 0)) (Ok (1300, 5, 1700001610)) (Ok 3) (Ok false))
    (Ok [Byte.x01]) (Ok (Separator dom))
    (fun h b => Ok (Digest dom h b)) (Ok (MkKey 1 1 true)) (fun _ _ => Ok Sidecar.seat) (Ok (MkPool false))
    (fun _ => Ok 7) (fun _ _ => Ok true) (fun _ => Ok 0) (fun _ => Ok (0, false))
    (fun _ _ => Ok sig) (fun _ _ _ => Ok []) (fun _ _ => Ok 99) (fun _ => Ok None)
    (fun _ => io_ok) false.
Definition unsigned : St := on_eng (set_activeFrom 900) st1.

Lemma later_wf : world_wf later.
Proof.
  split; cbn.
  - split; vm_compute; discriminate || reflexivity.
  - intros n hash t [= <- _ _]. unfold is_u64, two64. lia.
  - intros _ hash [= <-]. unfold is_hash. lia.
  - intros _ hash [= <-]. unfold is_hash. lia.
  - intros _ _ s [= <-]. unfold is_u64, two64. cbn. lia.
Qed.

Lemma later_audits :
  auditable cfg (refresh cfg later 1300 (st_eng unsigned)) 1000 = true ∧
  jobs (refresh cfg later 1300 (st_eng unsigned)) !! 1000 = None ∧
  startHead (refresh cfg later 1300 (st_eng unsigned)) = 1070 ∧
  Lookup (scope cfg) 1000 (st_db unsigned) = None.
Proof. vm_compute. done. Qed.
End Ticks.

#[local] Existing Instance roll_crypto.

Lemma Tick_signs_only_final_witness :
  ∃ h hash, signs Sidecar.cfg h hash Sidecar.st1 Sidecar.st2 ∧ h ≤ 1070 - 64.
Proof.
  destruct (Tick_signs_only_final Sidecar.cfg Sidecar.world Sidecar.st1 Sidecar.st2)
    as [E|(n & hh & t & h & hash & st1 & _ & _ & _ & Eh & _ & Hle & _ & _ & _ & Hs)];
    [exact DefaultSchedule_ok|apply Sidecar.attested_wf|vm_compute; reflexivity|exact Sidecar.tick_eq| |].
  - rewrite Sidecar.signed in E.
    assert (E1 : st_signatures Sidecar.st1 = []) by (vm_compute; reflexivity). rewrite E1 in E. discriminate E.
  - injection Eh as <- _ _. exists h, hash. split; assumption.
Defined.

Lemma halted_engine_never_signs_witness :
  ∃ st', Tick Sidecar.cfg Sidecar.world (on_eng (halt ErrKeyInUse) Sidecar.st1) = Ok st' ∧
    halted (st_eng st') = Some ErrKeyInUse ∧ st_signatures st' = [].
Proof.
  destruct (Tick Sidecar.cfg Sidecar.world (on_eng (halt ErrKeyInUse) Sidecar.st1)) as [st'|e|s] eqn:E.
  - exists st'. split; [reflexivity|].
    destruct (halted_engine_never_signs Sidecar.cfg Sidecar.world (on_eng (halt ErrKeyInUse) Sidecar.st1) st'
                ErrKeyInUse) as (Hh & Hs & _); [vm_compute; reflexivity|exact E|].
    split; [exact Hh|]. rewrite Hs. vm_compute. reflexivity.
  - exfalso. apply (f_equal is_ok) in E. vm_compute in E. discriminate E.
  - exfalso. apply (f_equal is_ok) in E. vm_compute in E. discriminate E.
Defined.

Lemma foreign_attestation_halts_witness :
  ∃ st', Tick Sidecar.cfg Ticks.later Ticks.unsigned = Ok st' ∧ halted (st_eng st') ≠ None ∧
    st_signatures st' = st_signatures Ticks.unsigned.
Proof.
  destruct Ticks.later_audits as (Ha & Hj & Hs & Hl).
  apply (foreign_attestation_halts Sidecar.cfg Ticks.later Ticks.unsigned 1000).
  - exact DefaultSchedule_ok.
  - exact Ticks.later_wf.
  - vm_compute. discriminate.
  - exact Ha.
  - split; [vm_compute; reflexivity|]. change (r_Head _) with 1300. rewrite Hj, Hs.
    split; [lia|]. split; [vm_compute; discriminate|left; vm_compute; reflexivity].
  - split; [reflexivity|]. rewrite Hl. exact I.
Defined.

Lemma Tick_attests_due_witness :
  ∃ st' j, Tick Sidecar.cfg Sidecar.world Sidecar.st1 = Ok st' ∧
    jobs (st_eng st') !! 1000 = Some j ∧ j_State j = StateSubmitted.
Proof.
  destruct Ticks.st1_usable as (Ho & Hb & Hl & Hw).
  destruct (Tick_attests_due Sidecar.cfg Sidecar.world Sidecar.st1 Ticks.bookkept 1000 7 Sidecar.sig [] 99)
    as (st' & j & Et & _ & Ej & _ & _ & Es & _).
  - vm_compute. discriminate.
  - vm_compute. reflexivity.
  - exact Ticks.bookkept_eq.
  - exact Ticks.bookkept_may_sign.
  - exact Ho.
  - exact Hb.
  - reflexivity.
  - right. split; [exact Hl|]. rewrite Hw. discriminate.
  - reflexivity.
  - exact Ticks.recovers.
  - reflexivity.
  - reflexivity.
  - exists st', j. split; [exact Et|]. split; [exact Ej|exact Es].
Defined.
