(* ===== verification/SchedulerStart.v ===== *)
(** * What a passed preflight guarantees

    [Preflight] compares the chain with the protection database before anything
    is signed: which facts hold when it lets the engine start. *)

From S2P Require Import Prelude Bytes Types Text Protect ProtectSafety Attest Node Scheduler SchedulerSafety.

Section Start.
Context `{Crypto}
  (range_r : gmap (Scope * Z) SignRecord → list ((Scope * Z) * SignRecord))
  (range_w : gmap Scope Z → list (Scope * Z)) (Hlisting : listing range_w) (cfg : EngineConfig).

(** [db'] knows what [db] knows about the engine's key. *)
Record grows (db db' : DB) : Prop := {
  gr_lookup : ∀ h hash, Lookup (scope cfg) h db = Some hash → Lookup (scope cfg) h db' = Some hash;
  gr_mark : watermark_of db (scope cfg) ≤ watermark_of db' (scope cfg);
  gr_repaired : repaired db' = repaired db
}.

#[local] Instance grows_refl : Reflexive grows.
Proof. intros db. by split. Qed.

#[local] Instance grows_trans : Transitive grows.
Proof. intros a b c [L1 M1 R1] [L2 M2 R2]. split; [eauto|lia|congruence]. Qed.

Lemma append_done io l db d db' d' : appendDurable io l db d = (None, db', d') → db' = db.
Proof.
  unfold appendDurable, undo_append. destruct (negb (db_open db)); [done|]. destruct (broken db); [done|].
  destruct (io_seek io); [done|]. destruct (io_write io).
  { destruct (io_undo_truncate io); [done|]. destruct (io_undo_seek io); [done|]. by destruct (io_undo_sync io). }
  destruct (io_sync io); [|congruence].
  destruct (io_undo_truncate io); [done|]. destruct (io_undo_seek io); [done|]. by destruct (io_undo_sync io).
Qed.

Lemma db_SetWatermark_raises io now m st u st' :
  db_SetWatermark cfg io now m st = (Ok u, st') →
  grows (st_db st) (st_db st') ∧ m ≤ watermark_of (st_db st') (scope cfg) ∧
  records (st_db st') = records (st_db st) ∧ st_eng st' = st_eng st.
Proof.
  unfold db_SetWatermark, SetWatermark.
  destruct (Z.leb_spec m (watermark_of (st_db st) (scope cfg))) as [Hle|Hlt].
  { intros E. injection E as _ <-. cbn. done. }
  destruct (appendDurable _ _ _ _) as [[[e|] db1] d1] eqn:Ea; intros E; [done|]. injection E as _ <-.
  apply append_done in Ea as ->. cbn [st_db st_eng].
  assert (Hm : watermark_of (with_watermarks <[scope cfg := m]> (st_db st)) (scope cfg) = m).
  { unfold watermark_of. cbn. by rewrite lookup_insert_eq. }
  rewrite Hm. split; [|done]. split; [done|rewrite Hm; lia|done].
Qed.

Lemma db_RepairHandled_settles fails st u st' :
  db_RepairHandled fails st = (Ok u, st') →
  records (st_db st') = records (st_db st) ∧ watermarks (st_db st') = watermarks (st_db st) ∧
  repaired (st_db st') = 0 ∧ st_eng st' = st_eng st.
Proof.
  unfold db_RepairHandled, RepairHandled. destruct (Z.eqb_spec (repaired (st_db st)) 0) as [E0|].
  { intros E. injection E as _ <-. done. }
  destruct (negb _); [done|]. destruct fails; [done|]. intros E. injection E as _ <-. done.
Qed.

(** Importing one record that is not there yet. *)
Lemma db_Import_adds io now last cp st n st' :
  Lookup (scope cfg) last (st_db st) = None →
  db_Import range_w io now
    [MkExportRecord (d_ChainID (Dom cfg)) (d_Hub (Dom cfg)) (Addr cfg) last cp false 0] st = (Ok n, st') →
  grows (st_db st) (st_db st') ∧ Lookup (scope cfg) last (st_db st') = Some cp ∧ st_eng st' = st_eng st.
Proof.
  intros Hl. unfold db_Import, Import. destruct (import_check _ _ _) as [[]| |]; [|done..].
  assert (Hr : records (st_db st) !! (scope cfg, last) = None).
  { unfold Lookup in Hl. by destruct (records (st_db st) !! (scope cfg, last)). }
  cbn [import_collect x_Watermark x_Height]. change (x_Scope _) with (scope cfg). rewrite Hr.
  assert (Hw : range_w ∅ = []). { apply Permutation_nil_r. by rewrite Hlisting, map_to_list_empty. }
  rewrite Hw. set (buf := [] ++ _). clearbody buf. cbn [fmap list_fmap concat app].
  destruct (if bool_decide _ then _ else _) as [[e db1] d1] eqn:Ea.
  destruct e as [e|]; intros E; [done|]. injection E as _ <-. cbn [st_db st_eng foldl].
  assert (Hdb : db1 = with_records <[(scope cfg, last) := MkRecord (MkScope 0 0 0) 0 0 0]> (st_db st)).
  { destruct (bool_decide _); [congruence|by apply append_done in Ea]. }
  subst db1. split; [|split; [|done]].
  - split; [|done..]. intros h hash. unfold Lookup. cbn. rewrite insert_insert_eq.
    destruct (decide (h = last)) as [->|Hne]; [by rewrite Hr|]. rewrite lookup_insert_ne by congruence. done.
  - unfold Lookup. cbn. by rewrite lookup_insert_eq.
Qed.

Lemma retry_on_passed {A} (r : result A) st (k : A → outcome * St) st' :
  retry_on r st k = (Passed, st') → ∃ a, r = Ok a ∧ k a = (Passed, st').
Proof. destruct r as [a| |]; [eauto|done..]. Qed.

(** ** The history check *)

(** How the engine may account for the chain's last attestation of its seat. *)
Inductive accounted (w : World) (head last : Z) (cp : Hash) (seat : Z) (db : DB) (st' : St) : Prop :=
| acc_signed : Lookup (scope cfg) last db = Some cp → accounted w head last cp seat db st'
| acc_rotated since :
    w_AttesterSince w seat = Ok (since, true) → add64 last (s_MaxDelay (Sched cfg)) < since →
    accounted w head last cp seat db st'
| acc_adopted :
    Adopt cfg = true → head ≤ watermark_of (st_db st') (scope cfg) →
    DoppelgangerCheckpoints cfg ≤ watchLeft (st_eng st') → accounted w head last cp seat db st'.

Lemma check_last_passed w head s st st' :
  check_last range_w cfg w head s st = (Passed, st') →
  grows (st_db st) (st_db st') ∧ seatID (st_eng st') = seatID (st_eng st) ∧
  (0 < seat_LastAttestedHeight s → seat_Attester s = Addr cfg →
   ∃ cp, w_Checkpoint w (seat_LastAttestedHeight s) = Ok cp ∧
     accounted w head (seat_LastAttestedHeight s) cp (seatID (st_eng st)) (st_db st) st' ∧
     (Lookup (scope cfg) (seat_LastAttestedHeight s) (st_db st') = Some cp ∨
      Lookup (scope cfg) (seat_LastAttestedHeight s) (st_db st') = None)).
Proof.
  unfold check_last. set (last := seat_LastAttestedHeight s).
  destruct ((0 <? last) && (seat_Attester s =? Addr cfg)) eqn:Eg; intros E.
  2:{ injection E as <-. split; [done|]. split; [done|]. intros Hp Ha.
      apply andb_false_iff in Eg as [Eg|Eg]; [apply Z.ltb_ge in Eg; lia|by apply Z.eqb_neq in Eg]. }
  apply retry_on_passed in E as (cp & Ecp & E).
  destruct (Lookup (scope cfg) last (st_db st)) as [local|] eqn:El.
  { destruct (Z.eqb_spec local cp) as [->|]; [|done]. injection E as <-. split; [done|]. split; [done|].
    intros _ _. exists cp. split; [done|]. split; [by apply acc_signed|by left]. }
  apply retry_on_passed in E as ([since rotated] & Es & E).
  destruct (negb rotated || _) eqn:Er.
  2:{ injection E as <-. split; [done|]. split; [done|]. intros _ _. exists cp. split; [done|].
      apply orb_false_iff in Er as [Er Hs]. apply negb_false_iff in Er as ->. apply Z.leb_gt in Hs.
      split; [by eapply acc_rotated|by right]. }
  destruct (negb (Adopt cfg)) eqn:Ead; [done|]. apply negb_false_iff in Ead.
  destruct (db_Import _ _ _ _ _) as [r1 st1] eqn:Ei. apply retry_on_passed in E as (n & -> & E).
  destruct (db_Import_adds _ _ _ _ _ _ _ El Ei) as (G1 & L1 & E1).
  destruct (db_SetWatermark _ _ _ _ _) as [r2 st2] eqn:Ew. apply retry_on_passed in E as (u & -> & E).
  destruct (db_SetWatermark_raises _ _ _ _ _ _ Ew) as (G2 & M2 & _ & E2). injection E as <-. cbn.
  split; [by etransitivity|]. split; [by rewrite E2, E1|]. intros _ _. exists cp. split; [done|].
  split; [apply acc_adopted; [done|done|cbn; lia]|]. left. by apply (gr_lookup _ _ G2).
Qed.

(** What [checkHistory] established, from [st] to [st']. *)
Definition history_checked (w : World) (head : Z) (st st' : St) : Prop :=
  ∃ k, w_KeyInfo w = Ok k ∧
    (IsAttester k = true → ∃ s, w_Seat w (key_SeatID k) head = Ok s ∧ seatID (st_eng st') = key_SeatID k ∧
       (0 < seat_LastAttestedHeight s → seat_Attester s = Addr cfg →
        ∃ cp, w_Checkpoint w (seat_LastAttestedHeight s) = Ok cp ∧
          accounted w head (seat_LastAttestedHeight s) cp (key_SeatID k) (st_db st) st')) ∧
    (Imported cfg = true → Records range_r (scope cfg) (st_db st) = [] →
       head ≤ watermark_of (st_db st') (scope cfg) ∧
       DoppelgangerCheckpoints cfg ≤ watchLeft (st_eng st')).

Lemma history_checked_records w head st1 st2 st' :
  records (st_db st1) = records (st_db st2) → history_checked w head st1 st' → history_checked w head st2 st'.
Proof.
  intros HR (k & Ek & Hseat & Himp). exists k. split; [done|]. split.
  - intros Hk. destruct (Hseat Hk) as (s & Es & Hid & Hacc). exists s. split; [done|]. split; [done|].
    intros Hl Ha. destruct (Hacc Hl Ha) as (cp & Ecp & Hcp). exists cp. split; [done|].
    destruct Hcp as [Hs|since Hs Hlt|Had Hm Hd]; [|by eapply acc_rotated|by apply acc_adopted].
    apply acc_signed. unfold Lookup in *. by rewrite <- HR.
  - intros Hi Hr. apply Himp; [done|]. unfold Records in *. by rewrite HR.
Qed.

Lemma accounted_later w head last cp seat db st1 st2 :
  grows (st_db st1) (st_db st2) → watchLeft (st_eng st1) ≤ watchLeft (st_eng st2) →
  accounted w head last cp seat db st1 → accounted w head last cp seat db st2.
Proof.
  intros G Hw [Hl|since Hs Hlt|Ha Hm Hd]; [by apply acc_signed|by eapply acc_rotated|].
  apply acc_adopted; [done|pose proof (gr_mark _ _ G); lia|lia].
Qed.

Lemma checkHistory_passed w head st st' :
  checkHistory range_r range_w cfg w head st = (Passed, st') →
  grows (st_db st) (st_db st') ∧ history_checked w head st st'.
Proof.
  unfold checkHistory. intros E. apply retry_on_passed in E as (k & Ek & E).
  set (p := if IsAttester k then _ else _) in E.
  assert (Hp : ∀ st1, p = (Passed, st1) → grows (st_db st) (st_db st1) ∧
    (IsAttester k = true → ∃ s, w_Seat w (key_SeatID k) head = Ok s ∧ seatID (st_eng st1) = key_SeatID k ∧
       (0 < seat_LastAttestedHeight s → seat_Attester s = Addr cfg →
        ∃ cp, w_Checkpoint w (seat_LastAttestedHeight s) = Ok cp ∧
          accounted w head (seat_LastAttestedHeight s) cp (key_SeatID k) (st_db st) st1))).
  { unfold p. destruct (IsAttester k); intros st1 E1; [|by injection E1 as <-].
    apply retry_on_passed in E1 as (s & Es & E1). apply check_last_passed in E1 as (G & Hid & Hacc).
    split; [done|]. intros _. exists s. split; [done|]. split; [done|]. intros Hl Ha.
    destruct (Hacc Hl Ha) as (cp & Ecp & Hcp & _). eauto. }
  clearbody p. destruct p as [[|e|e] st1]; [|done..]. destruct (Hp st1 eq_refl) as [G1 Hseat].
  unfold haveLocal in E. destruct (Imported cfg && _) eqn:Ei.
  - destruct (db_SetWatermark _ _ _ _ _) as [r2 st2] eqn:Ew. apply retry_on_passed in E as (u & -> & E).
    destruct (db_SetWatermark_raises _ _ _ _ _ _ Ew) as (G2 & M2 & _ & E2). injection E as <-. cbn [st_db on_eng].
    split; [by etransitivity|]. exists k. split; [done|]. split.
    + intros Hk. destruct (Hseat Hk) as (s & Es & Hid & Hacc). exists s. split; [done|]. rewrite <- E2 in Hid.
      split; [cbn; by destruct (_ <? _)|]. intros Hl Ha. destruct (Hacc Hl Ha) as (cp & Ecp & Hcp).
      exists cp. split; [done|]. eapply accounted_later; [exact G2| |exact Hcp].
      rewrite <- E2. cbn. destruct (Z.ltb_spec (watchLeft (st_eng st2)) (DoppelgangerCheckpoints cfg)); cbn; lia.
    + intros _ _. split; [done|]. cbn.
      destruct (Z.ltb_spec (watchLeft (st_eng st2)) (DoppelgangerCheckpoints cfg)); cbn; lia.
  - injection E as <-. split; [done|]. exists k. split; [done|]. split; [exact Hseat|].
    intros Himp Hrec. rewrite Himp, Hrec in Ei. done.
Qed.
End Start.

(** A validator that starts knows its key's past. A preflight passes only
    with a valid schedule, the right key, the configured chain and the hub's own
    signing domain; after a repaired database nothing at or below the head is
    open for signing and the repair is settled; a key imported without history
    gets a watermark at the head and watches before it signs; and the last
    attestation the chain holds for the seat and this key is recorded here with
    the same hash, or predates a rotation to this key, or was adopted explicitly
    under a watermark at the head and a watch. *)
Theorem Preflight_passed `{Crypto} range_r range_w cfg w st st' :
  listing range_w → Preflight range_r range_w cfg w st = (Passed, st') →
  Validate (Sched cfg) = Ok tt ∧ KeyAddr cfg = Some (Addr cfg) ∧
  v_ChainID (w_view w) = Ok (d_ChainID (Dom cfg)) ∧ w_DomainSeparator w = Ok (Separator (Dom cfg)) ∧
  w_AttestationDigest w (s_Interval (Sched cfg)) preflight_probe
    = Ok (Digest (Dom cfg) (s_Interval (Sched cfg)) preflight_probe) ∧
  ∃ head hash t, v_Head (w_view w) = Ok (head, hash, t) ∧
    (0 < repaired (st_db st) → head ≤ watermark_of (st_db st') (scope cfg)) ∧
    repaired (st_db st') ≤ 0 ∧
    (∀ h x, Lookup (scope cfg) h (st_db st) = Some x → Lookup (scope cfg) h (st_db st') = Some x) ∧
    history_checked range_r cfg w head st st'.
Proof.
  intros Hl. unfold Preflight, preflight_checks. destruct (Validate (Sched cfg)) as [[]| |]; [|done..].
  destruct (bool_decide (KeyAddr cfg = _)) eqn:Ek; [|done]. apply bool_decide_eq_true in Ek. cbn [negb]. intros E.
  apply retry_on_passed in E as (cid & Ecid & E). destruct (Z.eqb_spec cid (d_ChainID (Dom cfg))) as [->|]; [|done].
  apply retry_on_passed in E as (code & _ & E). cbn [negb] in E. destruct (bool_decide (code = [])); [done|].
  apply retry_on_passed in E as (sep & Esep & E). destruct (Z.eqb_spec sep (Separator (Dom cfg))) as [->|]; [|done].
  apply retry_on_passed in E as (d & Ed & E). cbn [negb] in E.
  destruct (Z.eqb_spec d (Digest (Dom cfg) (s_Interval (Sched cfg)) preflight_probe)) as [->|]; [|done].
  apply retry_on_passed in E as ([[head hash] t] & Eh & E). cbn [negb] in E.
  do 5 (split; [done|]). exists head, hash, t. split; [done|].
  set (st0 := on_eng (set_startHead head) st) in E.
  change (st_db st) with (st_db st0). change (st_db st0) with (st_db st) at 1.
  destruct (Z.ltb_spec 0 (repaired (st_db st0))) as [Hr|Hr].
  - destruct (db_SetWatermark _ _ _ _ _) as [r1 st1] eqn:Ew. apply retry_on_passed in E as (u & -> & E).
    destruct (db_SetWatermark_raises _ _ _ _ _ _ _ Ew) as (G1 & M1 & R1 & E1).
    destruct (db_RepairHandled _ _) as [r2 st2] eqn:Erh. apply retry_on_passed in E as (u2 & -> & E).
    destruct (db_RepairHandled_settles _ _ _ _ Erh) as (R2 & W2 & Z2 & E2).
    destruct (checkHistory_passed _ _ Hl _ _ _ _ _ E) as [G Hh].
    assert (M2 : watermark_of (st_db st2) (scope cfg) = watermark_of (st_db st1) (scope cfg)).
    { unfold watermark_of. by rewrite W2. }
    assert (HR : records (st_db st2) = records (st_db st0)) by congruence.
    split; [intros _; pose proof (gr_mark _ _ _ G); lia|]. split; [rewrite (gr_repaired _ _ _ G); lia|].
    split; [|by apply (history_checked_records _ _ _ _ st2)].
    intros h x Hx. apply (gr_lookup _ _ _ G). unfold Lookup in *. by rewrite HR.
  - destruct (checkHistory_passed _ _ Hl _ _ _ _ _ E) as [G Hh].
    split; [cbn in *; lia|]. split; [by rewrite (gr_repaired _ _ _ G)|]. split; [apply (gr_lookup _ _ _ G)|exact Hh].
Qed.

(** ** A concrete start *)

(** The sidecar of [SchedulerSafety] with a key that was brought from elsewhere. *)
Module Moved.
Import Sidecar.

Definition moved : EngineConfig := MkEngineConfig addr (Some addr) dom DefaultSchedule pol true false 2.
Definition started : St := (Preflight map_to_list map_to_list moved world st0).2.

Lemma started_eq : Preflight map_to_list map_to_list moved world st0 = (Passed, started).
Proof.
  assert (Hp : (Preflight map_to_list map_to_list moved world st0).1 = Passed) by (vm_compute; reflexivity).
  unfold started. destruct (Preflight _ _ _ _ _) as [o st]. cbn [fst snd] in *. by rewrite Hp.
Qed.

Lemma no_records : Records map_to_list (scope moved) (st_db st0) = [].
Proof. vm_compute. reflexivity. Qed.
End Moved.

Lemma Preflight_passed_witness :
  1070 ≤ watermark_of (st_db Moved.started) (scope Moved.moved) ∧ 2 ≤ watchLeft (st_eng Moved.started).
Proof.
  destruct (Preflight_passed (H := roll_crypto) map_to_list map_to_list Moved.moved Sidecar.world Sidecar.st0 Moved.started)
    as (_ & _ & _ & _ & _ & head & hash & t & Eh & _ & _ & _ & k & _ & _ & Himp);
    [intros m; reflexivity|exact Moved.started_eq|].
  injection Eh as <- _ _. exact (Himp eq_refl Moved.no_records).
Defined.
