(* ===== verification/Submit.v ===== *)
(** * Sending attestations (validator/internal/scheduler/submit.go)

    [TxSubmitter] builds, signs and sends the transaction that carries an
    attestation to the hub, and raises the fees when an earlier one with the same
    nonce is still pending. The node's answers are arguments. The theorems relate
    it to the node's own pool ([TxList]): what it pays at most, and when the pool
    takes the replacement. [Gwei] (floating point) is left out. *)

From S2P Require Import Prelude Bytes Types Text Heap Transaction TxList TxListRefine.

Definition ErrHubRefused := New "the hub refuses this attestation".
Definition ErrLowBalance := New "the attester key has too little FMX for the fee".
Definition ErrFeeCap := New "base fee is above the configured gas.maxFeeGwei".

Record sent := MkSent { st_nonce : Z; st_tip : Z; st_feeCap : Z; st_hash : Hash }.

Record TxSubmitter := MkSubmitter {
  sub_From : Address;
  sub_ChainID : Z;
  sub_Hub : Address;
  sub_Tip : Z;
  sub_MaxFee : Z;
  sub_last : option sent
}.

(** The answers of the node to one call of [Submit]: the head's base fee, the
    nonce of the key, the gas estimate, the balance, and the error of
    SendTransaction with its text, if there is one. *)
Record ChainAnswers := MkAnswers {
  ans_Head : result (option Z);
  ans_NonceAt : result Z;
  ans_EstimateGas : bytes → result Z;
  ans_Balance : result Z;
  ans_Send : Transaction → option (error * bytes)
}.

(** [bump], [maxBig]. *)
Definition bump (x : Z) : Z := x / 8 + x + 1.
Definition maxBig (a b : Z) : Z := if a <? b then b else a.

(** strings.Contains *)
Fixpoint has_prefix (p s : bytes) : bool :=
  match p, s with
  | [], _ => true
  | a :: p, b :: s => bool_decide (a = b) && has_prefix p s
  | _, [] => false
  end.
Fixpoint Contains (s sub : bytes) : bool :=
  has_prefix sub s || match s with [] => false | _ :: s => Contains s sub end.

(** The fees of [Submit]: the tip and the fee cap, raised above what was sent
    before with the same nonce, and limited by the configured maximum. *)
Definition fees (s : TxSubmitter) (baseFee : option Z) (nonce : Z) : result (Z * Z) :=
  let tip := sub_Tip s in
  feeCap ←
    match baseFee with
    | Some base => if sub_MaxFee s <? base then Err ErrFeeCap else Ok (base * 2 + tip)
    | None => Ok tip
    end;
  let '(tip, feeCap) :=
    match sub_last s with
    | Some l =>
        if st_nonce l =? nonce then (maxBig tip (bump (st_tip l)), maxBig feeCap (bump (st_feeCap l)))
        else (tip, feeCap)
    | None => (tip, feeCap)
    end in
  let feeCap := if sub_MaxFee s <? feeCap then sub_MaxFee s else feeCap in
  let tip := if feeCap <? tip then feeCap else tip in
  Ok (tip, feeCap).

(** The unsigned transaction. *)
Definition attest_tx (s : TxSubmitter) (baseFee : option Z) (nonce tip feeCap gasLimit : Z) (data : bytes) : Transaction :=
  match baseFee with
  | Some _ => DynamicFee (MkDynamicFee (sub_ChainID s) nonce tip feeCap gasLimit (Some (sub_Hub s)) 0 data [] 0 0 0)
  | None => Legacy (MkLegacy nonce feeCap gasLimit (Some (sub_Hub s)) 0 data 0 0 0)
  end.

Section Submit.
Context `{Crypto} (sign : bytes → result bytes).

(** Everything of [Submit] before SendTransaction: what is about to be sent. *)
Definition prepare (c : ChainAnswers) (data : bytes) (s : TxSubmitter) : result (Transaction * sent) :=
  baseFee ← ans_Head c;
  nonce ← ans_NonceAt c;
  gas ← match ans_EstimateGas c data with Ok g => Ok g | Err _ => Err ErrHubRefused | Panic p => Panic p end;
  let gasLimit := add64 (add64 gas (gas / 4)) 10000 in
  '(tip, feeCap) ← fees s baseFee nonce;
  let need := gasLimit * feeCap in
  bal ← ans_Balance c;
  if bal <? need then Err ErrLowBalance
  else
    signed ← SignTx sign (attest_tx s baseFee nonce tip feeCap gasLimit data)
               (LatestSignerForChainID (Some (sub_ChainID s)));
    Ok (signed, MkSent nonce tip feeCap (tx_Hash signed)).

(** [Submit]: the hash, and the submitter afterwards. *)
Definition Submit (c : ChainAnswers) (data : bytes) (s : TxSubmitter) : result Hash * TxSubmitter :=
  match prepare c data s with
  | Ok (signed, l) =>
      match ans_Send c signed with
      | Some (err, text) =>
          if Contains (to_lower text) (str "already known") then (Ok (tx_Hash signed), s)
          else (Err err, s)
      | None =>
          (Ok (tx_Hash signed),
           MkSubmitter (sub_From s) (sub_ChainID s) (sub_Hub s) (sub_Tip s) (sub_MaxFee s) (Some l))
      end
  | Err e => (Err e, s)
  | Panic p => (Panic p, s)
  end.

(** [Receipt]: the node's answer is an error, nothing, or the block number and
    the status of the receipt; NotFound counts as nothing. *)
Definition Receipt (answer : result (option (Z * Z))) (not_found : error) : result (bool * Z * bool) :=
  match answer with
  | Err e => if decide (e = not_found) then Ok (false, 0, false) else Err e
  | Ok None => Ok (false, 0, false)
  | Ok (Some (number, status)) => Ok (true, big_Uint64 number, status =? 1)
  | Panic p => Panic p
  end.
End Submit.

(** ** What it pays *)

(** A configuration with fees in range, and a last transaction it sent. *)
Record sane (s : TxSubmitter) : Prop := {
  sane_tip : 0 ≤ sub_Tip s;
  sane_max : 0 ≤ sub_MaxFee s;
  sane_chain : 0 < sub_ChainID s;
  sane_last l : sub_last s = Some l → 0 ≤ st_tip l ≤ st_feeCap l
}.

Lemma bump_mono x y : x ≤ y → bump x ≤ bump y.
Proof. unfold bump. intros. dlia. Qed.

(** [bump] is above the pool's threshold of ten per cent. *)
Lemma bump_threshold x : 0 ≤ x → x < bump x ∧ 110 * x / 100 ≤ bump x.
Proof. unfold bump. intros. split; dlia. Qed.

Lemma fees_bounds s baseFee nonce tip feeCap : sane s → (∀ b, baseFee = Some b → 0 ≤ b) →
  fees s baseFee nonce = Ok (tip, feeCap) →
  0 ≤ tip ≤ feeCap ∧ feeCap ≤ sub_MaxFee s ∧ ∀ b, baseFee = Some b → b ≤ feeCap.
Proof.
  intros [Ht Hm _ Hl] Hb E. unfold fees in E. apply bind_ok in E as (fc & Efc & E).
  assert (Hfc : 0 ≤ fc ∧ ∀ b, baseFee = Some b → b ≤ fc ∧ b ≤ sub_MaxFee s).
  { destruct baseFee as [b|]; [|apply Ok_inj in Efc as <-; by split].
    specialize (Hb b eq_refl). destruct (Z.ltb_spec (sub_MaxFee s) b); [discriminate Efc|].
    apply Ok_inj in Efc as <-. split; [lia|]. intros b' [= <-]. lia. }
  clear Efc. destruct Hfc as [Hfc0 Hfcb].
  assert (HB : ∀ l, sub_last s = Some l → 0 < bump (st_tip l) ∧ 0 < bump (st_feeCap l)).
  { intros l El. specialize (Hl l El). pose proof (bump_threshold (st_tip l)). pose proof (bump_threshold (st_feeCap l)). lia. }
  destruct (match sub_last s with Some l => _ | None => _ end) as [t1 f1] eqn:E1.
  assert (H1 : 0 ≤ t1 ∧ fc ≤ f1).
  { destruct (sub_last s) as [l|]; [|injection E1 as <- <-; lia]. specialize (HB l eq_refl). unfold maxBig in E1.
    destruct (_ =? _); injection E1 as <- <-; [|lia].
    destruct (Z.ltb_spec (sub_Tip s) (bump (st_tip l))), (Z.ltb_spec fc (bump (st_feeCap l))); lia. }
  apply Ok_inj in E. injection E as <- <-.
  destruct (Z.ltb_spec (sub_MaxFee s) f1); match goal with |- context [?a <? t1] => destruct (Z.ltb_spec a t1) end;
    split_and!; try lia; intros b Eb; specialize (Hfcb b Eb); lia.
Qed.

(** What [prepare] hands to SendTransaction. *)
Lemma prepare_inv `{Crypto} sign c data s signed l : prepare sign c data s = Ok (signed, l) →
  ∃ baseFee gasLimit bal,
    ans_Head c = Ok baseFee ∧ ans_NonceAt c = Ok (st_nonce l) ∧ ans_Balance c = Ok bal ∧
    fees s baseFee (st_nonce l) = Ok (st_tip l, st_feeCap l) ∧ gasLimit * st_feeCap l ≤ bal ∧
    SignTx sign (attest_tx s baseFee (st_nonce l) (st_tip l) (st_feeCap l) gasLimit data)
      (londonSigner (sub_ChainID s)) = Ok signed.
Proof.
  unfold prepare. intros E. apply bind_ok in E as (baseFee & Eh & E). apply bind_ok in E as (nonce & En & E).
  apply bind_ok in E as (gas & Eg & E). apply bind_ok in E as ([tip feeCap] & Ef & E).
  apply bind_ok in E as (bal & Eb & E). destruct (Z.ltb_spec bal (add64 (add64 gas (gas / 4)) 10000 * feeCap)); [discriminate E|].
  apply bind_ok in E as (tx & Es & E). apply Ok_inj in E. injection E as <- <-. by eauto 10.
Qed.

Lemma signed_fields t t' : signed_content t' = signed_content t →
  tx_Nonce t' = tx_Nonce t ∧ tx_GasTipCap t' = tx_GasTipCap t ∧ tx_GasFeeCap t' = tx_GasFeeCap t ∧
  tx_Gas t' = tx_Gas t ∧ tx_To t' = tx_To t ∧ tx_Value t' = tx_Value t ∧ tx_Data t' = tx_Data t.
Proof. unfold signed_content. intros E. injection E. intros. by split_and!. Qed.

(** The fees of a replacement, when the maximum leaves room for the bump. *)
Lemma fees_bumped s baseFee nonce l tip feeCap : sane s → sub_last s = Some l → st_nonce l = nonce →
  bump (st_feeCap l) ≤ sub_MaxFee s → fees s baseFee nonce = Ok (tip, feeCap) →
  bump (st_tip l) ≤ tip ∧ bump (st_feeCap l) ≤ feeCap.
Proof.
  intros [_ _ _ Hl] El En Hroom E. specialize (Hl l El). pose proof (bump_mono _ _ (proj2 Hl)).
  unfold fees in E. apply bind_ok in E as (fc & _ & E). rewrite El, En, Z.eqb_refl in E.
  apply Ok_inj in E. injection E as <- <-. unfold maxBig.
  destruct (Z.ltb_spec (sub_Tip s) (bump (st_tip l))), (Z.ltb_spec fc (bump (st_feeCap l)));
    match goal with |- context [sub_MaxFee s <? ?f] => destruct (Z.ltb_spec (sub_MaxFee s) f) end;
    match goal with |- context [if ?a <? ?t then ?a else _] => destruct (Z.ltb_spec a t) end; lia.
Qed.

(** The pool's rule with the default price bump. *)
Definition DefaultPriceBump : Z := 10.

Lemma replacement_ok old tx : 0 ≤ tx_GasFeeCap old → 0 ≤ tx_GasTipCap old →
  bump (tx_GasFeeCap old) ≤ tx_GasFeeCap tx → bump (tx_GasTipCap old) ≤ tx_GasTipCap tx →
  underpriced_replacement DefaultPriceBump old tx = false.
Proof.
  intros Hf Ht HF HT. pose proof (bump_threshold _ Hf). pose proof (bump_threshold _ Ht).
  unfold underpriced_replacement, GasFeeCapCmp, GasTipCapCmp, GasFeeCapIntCmp, GasTipCapIntCmp.
  change (i64 (100 + i64 DefaultPriceBump)) with 110.
  rewrite (proj2 (Z.compare_lt_iff _ _)), (proj2 (Z.compare_lt_iff _ _)) by lia. cbn [cmp_ge orb].
  assert (HC : ∀ a b, b ≤ a → cmp_lt (a ?= b) = false).
  { intros a b Hab. unfold cmp_lt. destruct (Z.compare_spec a b); [done|lia|done]. }
  by rewrite !HC by lia.
Qed.

Lemma at_nonce_elem n l t : at_nonce n l = Some t → t ∈ l ∧ tx_Nonce t = n.
Proof.
  unfold at_nonce. intros E%head_Some_elem_of. by apply list_elem_of_filter in E as [? ?].
Qed.

Lemma tl_Add_at tx b L strict l old : rep_list L strict l → at_nonce (tx_Nonce tx) l = Some old →
  tl_Add tx b L = if underpriced_replacement b old tx then (false, None, L) else (true, Some old, (tl_Add tx b L).2).
Proof.
  intros [_ Hr _ _] E. unfold tl_Add, sm_Get.
  rewrite (rep_items _ _ Hr), of_list_at_nonce, E by apply Hr. by destruct (underpriced_replacement _ _ _).
Qed.

(** A prepared transaction carries the fees that are remembered. *)
Lemma prepare_fees `{Crypto} sign c data s tx l : sane s → (∀ b, ans_Head c = Ok (Some b) → 0 ≤ b) →
  prepare sign c data s = Ok (tx, l) →
  tx_Nonce tx = st_nonce l ∧ tx_GasFeeCap tx = st_feeCap l ∧
  0 ≤ st_tip l ≤ st_feeCap l ∧ st_feeCap l ≤ sub_MaxFee s ∧
  (∀ b, ans_Head c = Ok (Some b) → b ≤ st_feeCap l ∧ tx_GasTipCap tx = st_tip l).
Proof.
  intros Hs Hb E. apply prepare_inv in E as (baseFee & gasLimit & bal & Eh & _ & _ & Ef & _ & ES).
  destruct (signed_fields _ _ (SignTx_content _ _ _ _ ES)) as (En & Et & Efc & _).
  destruct (fees_bounds s baseFee (st_nonce l) (st_tip l) (st_feeCap l) Hs) as (H1 & H2 & H3); [|done|].
  { intros b ->. by apply Hb. }
  split_and!; try done.
  - rewrite En. by destruct baseFee.
  - rewrite Efc. by destruct baseFee.
  - lia.
  - lia.
  - intros b Eb. rewrite Eb in Eh. apply Ok_inj in Eh as <-. split; [by apply H3|by rewrite Et].
Qed.

(** ** Properties *)

(** What the submitter sends is within its limits: a transaction handed to
    the node pays at most the configured maximum fee, can be included at the
    current base fee, is covered by the balance of the key in full, goes to the
    hub with the attestation as data and no value, has the key's address as its
    sender on the configured chain, and is refused by the signer of any other
    chain. *)
Theorem Submit_within_limits `{Crypto} sign pub c data s tx l : Signs sign pub → sane s →
  (∀ b, ans_Head c = Ok (Some b) → 0 ≤ b) → prepare sign c data s = Ok (tx, l) →
  (∃ bal, ans_Balance c = Ok bal ∧ Cost tx ≤ bal) ∧
  tx_GasFeeCap tx ≤ sub_MaxFee s ∧ (∀ b, ans_Head c = Ok (Some b) → b ≤ tx_GasFeeCap tx) ∧
  tx_To tx = Some (sub_Hub s) ∧ tx_Value tx = 0 ∧ tx_Data tx = data ∧
  Signer_Sender (londonSigner (sub_ChainID s)) tx = Ok (pubkeyToAddress pub) ∧
  ∀ d, d ≠ sub_ChainID s → Signer_Sender (londonSigner d) tx = Err ErrInvalidChainId.
Proof.
  intros HS Hs Hb E. destruct (prepare_fees _ _ _ _ _ _ Hs Hb E) as (_ & Hfc & _ & Hmax & Hbase).
  apply prepare_inv in E as (baseFee & gasLimit & bal & Eh & _ & Ebal & _ & Hneed & ES).
  destruct (signed_fields _ _ (SignTx_content _ _ _ _ ES)) as (_ & _ & _ & Eg & Eto & Ev & Ed).
  destruct (SignTx_recovers _ _ _ _ _ HS (sane_chain _ Hs) ES) as [HA HO].
  split_and!; try done.
  - exists bal. split; [done|]. unfold Cost. rewrite tx_GasPrice_FeeCap, Hfc, Eg, Ev. destruct baseFee; simpl; lia.
  - lia.
  - intros b Eb. rewrite Hfc. by apply Hbase.
  - rewrite Eto. by destruct baseFee.
  - rewrite Ev. by destruct baseFee.
  - rewrite Ed. by destruct baseFee.
Qed.

(** C11: A second attestation with the nonce of a pending one replaces it in the
    pool of the node, as long as the configured maximum leaves room for the
    raise: if the submitter sent [tx1] and prepares [tx2] with the same nonce,
    both with a base fee, and the raised fee cap stays below the maximum, then
    [txList.Add] with the default price bump accepts [tx2] in every list that
    holds [tx1], and the list then holds [tx2] instead. Once [tx1] pays the
    maximum, every replacement is refused. *)
Theorem Submit_replaces `{Crypto} sign c1 c2 data1 data2 s s1 h1 tx1 tx2 l1 l2 b1 b2 : sane s →
  ans_Head c1 = Ok (Some b1) → 0 ≤ b1 → ans_Head c2 = Ok (Some b2) → 0 ≤ b2 →
  prepare sign c1 data1 s = Ok (tx1, l1) → ans_Send c1 tx1 = None → Submit sign c1 data1 s = (Ok h1, s1) →
  prepare sign c2 data2 s1 = Ok (tx2, l2) → st_nonce l2 = st_nonce l1 →
  ∀ strict L l, rep_list L strict l → at_nonce (tx_Nonce tx1) l = Some tx1 →
  (bump (tx_GasFeeCap tx1) ≤ sub_MaxFee s →
     ∃ L', tl_Add tx2 DefaultPriceBump L = (true, Some tx1, L') ∧ rep_list L' strict (put_tx tx2 l)) ∧
  (sub_MaxFee s ≤ tx_GasFeeCap tx1 → tl_Add tx2 DefaultPriceBump L = (false, None, L)).
Proof.
  intros Hs Eh1 Hb1 Eh2 Hb2 E1 Esend ES E2 Enonce strict L l HL Hat.
  unfold Submit in ES. rewrite E1, Esend in ES. injection ES as _ <-.
  destruct (prepare_fees sign c1 data1 s tx1 l1 Hs) as (Hn1 & Hf1 & Hr1 & Hm1 & Ht1); [by rewrite Eh1; intros b [= <-]|done|].
  destruct (Ht1 b1 Eh1) as [_ Htip1].
  set (s1 := MkSubmitter _ _ _ _ _ _) in *.
  assert (Hs1 : sane s1) by (destruct Hs; split; simpl; [done..|]; by intros ? [= <-]).
  destruct (prepare_fees sign c2 data2 s1 tx2 l2 Hs1) as (Hn2 & Hf2 & Hr2 & Hm2 & Ht2); [by rewrite Eh2; intros b [= <-]|done|].
  destruct (Ht2 b2 Eh2) as [_ Htip2]. cbn [sub_MaxFee s1] in Hm2.
  assert (Hnn : tx_Nonce tx2 = tx_Nonce tx1) by congruence.
  assert (Hat2 : at_nonce (tx_Nonce tx2) l = Some tx1) by (by rewrite Hnn).
  rewrite (tl_Add_at tx2 DefaultPriceBump L strict l tx1 HL Hat2). split.
  - intros Hroom. rewrite Hf1 in Hroom. apply prepare_inv in E2 as (bf & _ & _ & _ & _ & _ & Ef & _ & _).
    destruct (fees_bumped s1 bf (st_nonce l2) l1 (st_tip l2) (st_feeCap l2)) as [HT HF]; try done.
    rewrite replacement_ok by (rewrite ?Hf1, ?Hf2, ?Htip1, ?Htip2; lia).
    eexists. split; [done|]. destruct (at_nonce_elem _ _ _ Hat) as [Hin _].
    pose proof (rl_nonces _ _ _ HL) as Hu. rewrite Forall_forall in Hu. specialize (Hu tx1 Hin).
    rewrite <- Hnn in Hu. pose proof (tl_Add_rep tx2 DefaultPriceBump L strict l Hu HL) as HA.
    unfold abs_add in HA. rewrite Hat2, replacement_ok in HA by (rewrite ?Hf1, ?Hf2, ?Htip1, ?Htip2; lia).
    destruct (tl_Add tx2 DefaultPriceBump L) as [[b old] L']. apply HA.
  - intros Hfull. unfold underpriced_replacement. unfold GasFeeCapCmp at 1. rewrite Hf1, Hf2 in *.
    destruct (Z.compare_spec (st_feeCap l1) (st_feeCap l2)); [done|lia|done].
Qed.

Module SubmitDemo.
#[local] Existing Instance TxDemo.crypto.
Definition submitter : TxSubmitter := MkSubmitter 1 9988 77 2 1000 None.
Definition answers (base : Z) : ChainAnswers :=
  MkAnswers (Ok (Some base)) (Ok 4) (λ _, Ok 50000) (Ok 100000000) (λ _, None).
Definition first := prepare TxDemo.sign (answers 10) [Byte.x01] submitter.
Definition tx1 : Transaction := match first with Ok (t, _) => t | _ => inhabitant end.
Definition l1 : sent := match first with Ok (_, l) => l | _ => MkSent 0 0 0 0 end.
Definition after : TxSubmitter := MkSubmitter 1 9988 77 2 1000 (Some l1).
Definition second := prepare TxDemo.sign (answers 12) [Byte.x02] after.
Definition tx2 : Transaction := match second with Ok (t, _) => t | _ => inhabitant end.
Definition l2 : sent := match second with Ok (_, l) => l | _ => MkSent 0 0 0 0 end.
Definition pool : txList := (tl_Add tx1 DefaultPriceBump (newTxList true)).2.

Lemma first_ok : prepare TxDemo.sign (answers 10) [Byte.x01] submitter = Ok (tx1, l1).
Proof. vm_compute. reflexivity. Qed.
Lemma second_ok : prepare TxDemo.sign (answers 12) [Byte.x02] after = Ok (tx2, l2).
Proof. vm_compute. reflexivity. Qed.
Lemma sane_submitter : sane submitter.
Proof. split; simpl; [lia..|done]. Qed.
Lemma submit_first : Submit TxDemo.sign (answers 10) [Byte.x01] submitter = (Ok (tx_Hash tx1), after).
Proof. unfold Submit. by rewrite first_ok. Qed.
Lemma base_ok b : ans_Head (answers 10) = Ok (Some b) → 0 ≤ b.
Proof. intros [= <-]. lia. Qed.
Lemma pool_rep : rep_list pool true [tx1].
Proof.
  assert (EA : abs_add DefaultPriceBump tx1 [] = (true, None, [tx1])) by (vm_compute; reflexivity).
  assert (HN : is_u64 (tx_Nonce tx1)) by (vm_compute; split; congruence).
  pose proof (tl_Add_rep tx1 DefaultPriceBump _ _ _ HN (rep_list_new true)) as HA. rewrite EA in HA.
  unfold pool. destruct (tl_Add _ _ _) as [[b old] L']. apply HA.
Qed.
Lemma at_tx1 : at_nonce (tx_Nonce tx1) [tx1] = Some tx1.
Proof. vm_compute. reflexivity. Qed.
Lemma room : bump (tx_GasFeeCap tx1) ≤ sub_MaxFee submitter.
Proof. vm_compute. congruence. Qed.
Lemma same_nonce : st_nonce l2 = st_nonce l1.
Proof. vm_compute. reflexivity. Qed.
End SubmitDemo.

Lemma Submit_within_limits_witness : tx_GasFeeCap SubmitDemo.tx1 ≤ 1000.
Proof.
  apply (@Submit_within_limits TxDemo.crypto TxDemo.sign TxDemo.pub (SubmitDemo.answers 10) [Byte.x01]
    SubmitDemo.submitter SubmitDemo.tx1 SubmitDemo.l1 TxDemo.signs SubmitDemo.sane_submitter
    SubmitDemo.base_ok SubmitDemo.first_ok).
Defined.

Lemma Submit_replaces_witness :
  ∃ L', tl_Add SubmitDemo.tx2 DefaultPriceBump SubmitDemo.pool = (true, Some SubmitDemo.tx1, L') ∧
    rep_list L' true (put_tx SubmitDemo.tx2 [SubmitDemo.tx1]).
Proof.
  apply (@Submit_replaces TxDemo.crypto TxDemo.sign (SubmitDemo.answers 10) (SubmitDemo.answers 12) [Byte.x01] [Byte.x02]
    SubmitDemo.submitter SubmitDemo.after (@tx_Hash TxDemo.crypto SubmitDemo.tx1) SubmitDemo.tx1 SubmitDemo.tx2
    SubmitDemo.l1 SubmitDemo.l2 10 12 SubmitDemo.sane_submitter eq_refl ltac:(lia) eq_refl ltac:(lia)
    SubmitDemo.first_ok eq_refl SubmitDemo.submit_first SubmitDemo.second_ok SubmitDemo.same_nonce
    true SubmitDemo.pool [SubmitDemo.tx1] SubmitDemo.pool_rep SubmitDemo.at_tx1).
  exact SubmitDemo.room.
Defined.
